(* ===== verification/_CoqProject ===== *)
-Q . S2P
Prelude.v
RaidenTypes.v
BlockPool.v
LogicalBlockManager.v
LruCache.v
KvCacheMetadata.v
BlockTracker.v
HostOffloadBackend.v
BackendMirror.v
BackendViews.v
GlobalRegistry.v
RegistryService.v
KvCacheStore.v
StoreService.v
StoreLedger.v
StoreWorld.v
StoreLifecycle.v
StoreProperties.v
StoreExamples.v
StagingAllocator.v
PoolLayout.v
WorkUnitDirectory.v
RequestBlockRegistry.v
PoolReshardPlanner.v
WireTypes.v
TransferProgram.v
BuildReshardPlan.v
PlanEntries.v
TransferPlan.v
ReshardCoordinator.v
Delivery.v
ReshardRun.v
SessionThreads.v
StagingSlots.v
ReshardChecks.v
ReshardCoverage.v
ReshardPlanExamples.v
ReshardSend.v
ReshardSendFacts.v
ReshardSendProperties.v
ReshardSendExamples.v
ReshardReceive.v
ReshardReceiveFacts.v
ReshardReceiveProperties.v
ReshardReceiveExamples.v
PushProgress.v
PushReport.v
PushServer.v
PushServerFacts.v
PushServerProperties.v
RawDmaPacer.v
RawDmaPacerFacts.v
RawDmaPacerJobs.v
RawDmaPacerProperties.v
TileMemory.v
Highway.v
TilingUtils.v
TilingTiles.v
TilingParallel.v
TilingRowMajor.v
TilingLine.v
TilingColMajor.v
TilingIndex.v
TilingCharts.v
TilingBuffers.v
TilingInPlace.v
TilingProperties.v
TilingExamples.v
