(* ===== verification/Prelude.v ===== *)
(** * Verification of the TPU Sync core

    TPU Sync moves KV-cache blocks and weights between TPU hosts.  This development
    models the part of it that decides: which block is held where, who may use it,
    which bytes a reshard copies, and in which order workers are told so.

    ** The program's parts and how they interact

    A _KV-cache store_ keeps blocks of KV cache in host memory.  Host block ids come
    from [LogicalBlockManager]; the index from block hashes to block ids is a pinning
    [LRUCache] inside [HostOffloadBackend], which mirrors every host-resident binding
    into the crash-persistent [KVCacheMetadata] table and asks the fleet-wide
    [GlobalRegistry] for the hashes it does not hold.  [KVCacheStore] composes them
    with the trackers of asynchronous saves and loads ([BlockTracker]).

    A _pool reshard_ copies one request's blocks between two groups of workers with
    different layouts.  Producers register work units ([WorkUnitDirectory]) and
    declare the byte spans they hold ([RequestBlockRegistry]); the planner
    ([BuildPoolReshardPlan]) claims the declarations, checks that they tile the
    destination blocks and emits a push schedule; the coordinator
    ([ReshardCoordinator]) splits a request into a chain of sub-plans, arms the
    receivers and then dispatches the senders; each engine resolves its part of the
    schedule into memory chunks ([TransferPlan]) over the byte geometry of the pools
    (pool_layout), staging through leased blocks ([StagingBlockAllocator]).

    _Weight synchronisation_ moves tensors between hosts in linear layout and converts
    them to and from the tiled layout of the device (tiling_utils), on a thread pool and
    with vector instructions, out of place or in place.

    ** Files, and the code they translate (paths under src/tpu_sync/)

    Foundations
    - [Prelude]: absl::Status/StatusOr, machine integers with their wrap-around,
      vectors updated by index, counting over finite maps, shared list lemmas.
    - [RaidenTypes]: common/raiden_id.h and the block types of
      kv_cache/kv_cache_store_backend.h.
    Host cache
    - [BlockPool]: the contract (type classes [BlockPoolOps], [BlockPool]) clients of a
      block pool are verified against; [LogicalBlockManager] is its instance.
    - [LogicalBlockManager]: kv_cache/logical_block_manager.{h,cc}.
    - [LruCache]: kv_cache/lru_cache.h, every public method.
    - [KvCacheMetadata]: kv_cache/kv_cache_metadata.{h,cc}; [Set] store by store, because
      a crash may fall between two stores.
    - [BlockTracker]: kv_cache/block_tracker.{h,cc}.
    - [HostOffloadBackend]: the index operations of kv_cache/host_offload_backend.{h,cc}
      (Lookup local and global, Insert in its three modes, Pin, Release, Delete,
      GetPinned, recovery).
    - [BackendMirror]: the invariant relating cache and metadata over every sequence of
      those operations, and recovery after a crash.
    - [GlobalRegistry]: kv_cache/global_registry/global_registry_server.{h,cc}, every RPC
      and the cleanup thread.
    - [RegistryService]: its invariant and answers, and the backend's global lookup
      composed with it.
    Store
    - [BackendViews]: the backend's operations as views (values, pins, residency), the
      lemmas the store's books are kept with.
    - [KvCacheStore]: kv_cache/kv_cache_store.{h,cc} and the transfers of
      host_offload_backend.cc; an operation is a sequence of segments, one definition each:
      what a lock protects from the other segments, or a completion callback.  SaveLocal
      is cut inside its lock, at its backend calls, since the completions of other saves
      do not take the lock.
    - [StoreService]: kv_cache/kv_cache_store_service.{h,cc}, the landing side of a remote
      write (offers, deadlines, completion, polls) and Fetch.
    - [StoreLedger]: the books of a store: who owns each host block and each pin.
    - [StoreWorld], [StoreLifecycle]: the operations in flight as jobs, one transition per
      segment, and the world of a node: store, service, jobs, clients' pins, answers sent.
    - [StoreProperties]: the theorems over every reachable world, crashes included;
      [StoreExamples]: concrete worlds, and behaviours that differ from a comment.
    - [StagingAllocator]: the allocator of core/staging_arena.{h,cc}, against [BlockPool].
    Reshard
    - [PoolLayout]: kv_cache/pool_layout.{h,cc}.
    - [WorkUnitDirectory], [RequestBlockRegistry]: the files of the same names under
      kv_cache/reshard/, with declaration_types.
    - [PoolReshardPlanner]: the span pipeline of reshard/pool_reshard_planner.cc (split,
      coverage, emission); [BuildReshardPlan]: its entry point; [PlanEntries]: what the
      entries of a built plan look like.
    - [WireTypes]: the messages of rpc/raiden_service.proto the reshard path exchanges;
      [TransferProgram]: core/transfer_program_reshard.{h,cc}.
    - [TransferPlan]: kv_cache/transfer_plan.{h,cc}.
    - [ReshardCoordinator], [ReshardRun]: reshard/reshard_coordinator.{h,cc}; the first
      holds the pure parts (splitting, routing, the two doors to a worker), the second the
      execution as steps of chain threads.
    - [Delivery]: the planner's schedule, resolved by the engines and executed as byte
      copies, end to end.
    Reshard sessions (the engines' side of a sub-plan)
    - [SessionThreads]: sessions as threads of actions, one action per critical section;
      invariants, termination and runs of them.
    - [StagingSlots]: StagingLayerManager of kv_cache/transfer_session.h and
      transfer_receive_session.cc, the leases of host buffers.
    - [ReshardChecks]: the plan checks of core/utils.h and ValidatePlan of both sessions;
      [ReshardCoverage]: what an accepted receive plan writes; [ReshardPlanExamples]: plans.
    - [ReshardSend]: kv_cache/reshard_send_session.cc and core/pool_reshard_send_slots.cc;
      [ReshardSendFacts], [ReshardSendProperties], [ReshardSendExamples]: its invariants,
      theorems and runs.
    - [ReshardReceive]: kv_cache/reshard_receive_session.cc; [ReshardReceiveFacts],
      [ReshardReceiveProperties], [ReshardReceiveExamples]: likewise.
    - [PushProgress]: what an incoming push addresses and how landed streams are counted
      (transport/block_transport_session.cc); [PushReport]: the counting against an
      accepted receive plan.
    - [PushServer]: the operations and leases a push session of that file holds, as
      threads; [PushServerFacts], [PushServerProperties]: its invariant, theorems and runs.
    - [RawDmaPacer]: core/raw_dma_pacer.{h,cc}, the queue of DMA pieces with its worker
      thread; [RawDmaPacerFacts] and [RawDmaPacerJobs]: its books; [RawDmaPacerProperties].

    Weight tiling (weight_sync/tiling_utils.{h,cc})
    - [TileMemory]: byte buffers and the commands on them (memcpy, memset, vector loads and
      stores), with a logic of programs that write each byte to a target value.
    - [Highway]: the vector operations the code uses, a class [Highway] with its laws
      [HighwayLaws] and an instance; the 4x4 and 8x8 transpositions built from them.
    - [TilingUtils]: every function of the file, as the commands it issues; XLA's shape
      functions are the class [Xla].
    - [TilingParallel]: ExecuteParallelTasks as a step relation on threads that draw tasks
      from a counter.
    - [TilingTiles], [TilingRowMajor], [TilingLine], [TilingColMajor]: the copiers of one
      tile, and the row-major, one-dimensional and column-major programs.
    - [TilingIndex]: the reference, nested tiling as a function on indices, and the laws
      [XlaLaws]; [TilingCharts]: each fast path's offsets are those of the reference.
    - [TilingBuffers], [TilingInPlace]: the entry points; [TilingProperties]: the theorems;
      [TilingExamples]: an instance of [XlaLaws] and concrete tensors.

    ** How state, errors and concurrency are modelled

    A class is a [Record] of its fields; a method is a function from the state to a
    result and the state.  Methods that take their mutex once are one such function;
    code that releases a mutex in between (the backend's global lookup, the registry's
    PullOwned, the tracker's Poll and Merge, the coordinator's chain threads) is modelled
    as the steps between releases, and the theorems quantify over what happens between
    them.  Reachable states are the reflexive transitive closure of a step relation with
    one constructor per public operation ([lru_op], [table_step], [backend_step],
    [registry_step] and the like).

    A reshard session is shared by a pipeline thread, completion callbacks and callers.
    Each of them is a stack of actions; performing one changes the session, may push
    further actions and may start threads ([SessionThreads.step], [SessionThreads.call]).
    Results of copies, pushes and leases, expired deadlines and what an admitted push does
    are inputs of an action, and the theorems hold for all of them and for every
    interleaving.  A blocked wait is an action that is not enabled.  Fields that record
    what has happened ([pushed], [uploaded], [started], [finished]) are read by no action.
    A session is finite by a measure on pending actions, not by fuel.

    Errors are [StatusOr] values with the absl code; error texts are not modelled.
    [int32_t], [int64_t], [uint64_t] and [size_t] are [Z] with the wrap-around written
    out ([i32], [i64], [u64]) wherever the code does not check first.  Hash maps are
    [gmap]s; where the code's behaviour depends on the iteration order of one, the order
    is an argument.  Lists of list nodes ([std::list] with iterators) name a node by its
    key.  Clock readings, cancellation flags, environment values and the answers of
    workers, devices and peers are arguments.  Registry times are absl's
    quarter-nanosecond ticks with its saturating infinite future.

    A tiler is the list of memory commands it issues, in order; a command that leaves its
    buffer has no result, so that a completed run has made no access out of bounds.  The
    pool's threads interleave their commands in any order, one command at a time.
    Dimensions and offsets of tensors are [int64_t] whose overflow C++ leaves undefined;
    they are unbounded here, which is exact for tensors that fit in memory.

    Loops without a structural measure run on fuel that is shown to suffice, or is the
    bound the code itself has: [cover_loop] (the cover test) has fuel end - start, each
    round advancing by at least one byte; the live-segment expansion is bounded by the
    code's own budget kMaxLiveSegments (2^20); [split_pages] has remaining / page + 2,
    one round per destination page; [arm_loop] has the configured number of attempts;
    PullOwned's batches have the number of owned hashes.  The theorems about them state
    the result outright, not conditionally on termination.

    ** What the theorems show

    - Reshard end to end: an accepted plan covers every destination byte exactly once
      (plan_writes_exactly_once, reshard_plan_exact), stays inside its blocks
      (planned_writes_inside_blocks), announces to receivers the pushes the senders make
      (expected_pushes_match_schedule, push_sides_agree), and executing it delivers the
      declared bytes (reshard_delivers_blocks).
    - Reshard control: receivers are armed before any sender is dispatched, claims are
      abandoned only before dispatch, chains run in order, terminate and report exactly
      what happened; the two doors to a worker carry the same request
      (program_door_equals_framed_door); a cancelled generation stays closed, and a claimed
      one refuses cancellation, until the TTL and whatever else is called meanwhile
      (registry_claim_cancel_exclusive); the last vote retires a generation.
    - Reshard sessions: an accepted receive plan fills every destination block exactly
      (receiver_plan_covers); success of a session means that every push, or every upload,
      has been made once (send_ok_means_pushed, receive_ok_means_uploaded); uploads keep
      the order of the ranks (receive_upload_order); a host buffer in use is no other
      pool's (send_buffers_exclusive, receive_buffers_exclusive); sessions settle exactly
      when nothing is in flight (send_settles, receive_settles), senders always do
      (send_always_settles), and receivers forget no pool (receive_no_lost_wakeup).
    - Incoming pushes: the transport reports a pool exactly when every sender's shards of
      it have landed, once (receiver_reports_complete_pools); operations taken on a session
      are all given back, cancelled admissions included (push_ops_balanced), and calls that
      wait for each other all finish (push_settles).
    - DMA pacing: the bytes in flight stay inside the window (pacer_window), a future is
      set once, after the last piece and with the first error (pacer_futures), and the
      pacer comes to rest with nothing left (pacer_settles).
    - Weight tiling: on every layout path and under every schedule, tiling leaves the
      nested tiling of the tensor and zeros in its padding (TileBuffer_correct,
      TileBufferInPlace_correct) and detiling undoes it (DetileBuffer_correct,
      tile_detile_roundtrip); schedules are finite (tile_schedule_terminates); in place and
      out of place agree (in_place_equals_out_of_place); a tiled layout is refused exactly
      when the buffer is smaller than the tiled tensor, one without tiles never
      (TileBufferInPlace_capacity).  A layout must list each dimension once and have
      positive tiles, and one without tiles must have the default order ([tiling_args]).
    - Host cache: pool, cache and tracker invariants over all reachable states; pinned
      entries are protected; the metadata table mirrors the cache, but for the slots that
      best-effort updates leave behind (mirror_exact), and recovery restores it
      (recovery_restores); lookups pin exactly what they return; the global registry's
      index is exact and a global lookup returns a prefix of local or live remote blocks.
    - Store: over all interleavings of saves, loads, recalls, remote reads, offers,
      sweeps, evictions, fetches and landing operations, every host block has one owner
      (store_blocks_accounted) and every pin one holder (store_pins_accounted); a crash
      loses no cached block (store_crash_recovers); an accepted remote write is answered
      once and its state machine never goes back (service_answers_once,
      service_state_machine); allocation evicts what it needs (allocation_makes_room);
      what a save stored a load reads (saved_blocks_load_back).  Two segments break the
      books and are steps of their own, recorded in [w_faults]: a SaveLocal admitted for a
      hash that has a host block by then (an earlier save of it completed between its
      lookup and its checks) or naming a hash twice, and a lookup that releases a pin it
      has not taken.  The theorems on blocks, pins, recovery, allocation and load-back are
      about worlds without a recorded fault, those on landing operations about all;
      overtaken_save_strands_block shows a reachable world where a fault strands a block.
      The world's rules keep the obligations of callers that the code relies on and does
      not check: pins of their own under what they hand to a save, load or offer or
      release, device-only slices in an insertion, loads by the entries as they are,
      hashes the table can hold, pin counts below INT_MAX; a block that an insertion drops
      is recorded as lost.  StoreExamples shows what happens without them.
    - Byte geometry: validated pools keep live bytes in their blocks, and the copy
      translations equal the byte-by-byte copy between compact coordinates.

    Examples at the ends of the files evaluate the definitions on concrete inputs; some
    of them exhibit behaviours that differ from a comment in the code.

    ** Not modelled

    Device DMA and PJRT (the KV-cache managers, raiden_manager_base, raw transfers), the
    socket and RDMA transports, control pipes and gRPC surfaces, the shared-memory and
    file system calls, telemetry, fault injection, framework bindings and process entry
    points: these are calls into the runtime or conversions around modelled operations.
    Candidates that are pure enough and not yet translated: StagingArena's pointer
    arithmetic and the transfer sessions of the pull path (state machines around DMA
    callbacks, as the reshard sessions are).  Of block_transport_session.cc the
    push side is modelled up to the bytes on the wire: which header fields a stream has and
    whether its payloads arrive are inputs.  Of the reshard sessions the
    destructors, the blocking reads and the metrics are left out. *)

From Stdlib Require Export ZArith Lia.
From stdpp Require Export gmap strings tactics sorting list.

#[global] Open Scope Z_scope.

(** ** absl::Status and absl::StatusOr

    The canonical codes the modelled code returns.  Error messages are not
    modelled: no caller branches on them. *)
Inductive StatusCode :=
  | kCancelled | kUnknownCode | kInvalidArgument | kDeadlineExceeded
  | kNotFound | kAlreadyExists | kResourceExhausted | kFailedPrecondition
  | kAborted | kOutOfRange | kUnimplemented | kInternal | kUnavailable
  | kDataLoss.

#[export] Instance StatusCode_eq_dec : EqDecision StatusCode.
Proof. solve_decision. Defined.

(** [absl::StatusOr<A>]: a value or a non-OK code. *)
Inductive StatusOr (A : Type) :=
  | Ok (a : A)
  | Err (c : StatusCode).
Arguments Ok {A} _.
Arguments Err {A} _.

(** [absl::Status] is a [StatusOr] of nothing; [absl::OkStatus()] is [OkStatus]. *)
Abbreviation Status := (StatusOr unit).
Abbreviation OkStatus := (@Ok unit tt).

#[export] Instance StatusOr_eq_dec {A} `{EqDecision A} : EqDecision (StatusOr A).
Proof. solve_decision. Defined.

(** [ABSL_ASSIGN_OR_RETURN] / [ABSL_RETURN_IF_ERROR] as a bind. *)
#[export] Instance StatusOr_ret : MRet StatusOr := λ A a, Ok a.
#[export] Instance StatusOr_bind : MBind StatusOr :=
  λ A B f m, match m with Ok a => f a | Err c => Err c end.
#[export] Instance StatusOr_fmap : FMap StatusOr :=
  λ A B f m, match m with Ok a => Ok (f a) | Err c => Err c end.

Definition is_ok {A} (s : StatusOr A) : bool :=
  match s with Ok _ => true | Err _ => false end.

(** A [StatusOr] bind succeeds when both halves do. *)
Lemma bind_Ok {A B} (m : StatusOr A) (f : A → StatusOr B) (b : B) :
  (m ≫= f) = Ok b ↔ ∃ a, m = Ok a ∧ f a = Ok b.
Proof. destruct m; naive_solver. Qed.
Lemma fmap_Ok {A B} (m : StatusOr A) (f : A → B) (b : B) :
  (f <$> m) = Ok b ↔ ∃ a, m = Ok a ∧ b = f a.
Proof. destruct m; naive_solver. Qed.

(** The value of a successful result. *)
Definition ok_or {A} (d : A) (m : StatusOr A) : A := match m with Ok a => a | Err _ => d end.
Lemma ok_or_eq {A} (d : A) (m : StatusOr A) : is_ok m = true → m = Ok (ok_or d m).
Proof. by destruct m. Qed.

(** A loop that collects results succeeds when every iteration does. *)
Lemma mapM_Ok {A B} (f : A → StatusOr B) (l : list A) (k : list B) :
  mapM f l = Ok k ↔ Forall2 (λ x y, f x = Ok y) l k.
Proof.
  revert k; induction l as [|x l IH]; intros k; simpl.
  - split; [by intros [= <-]|by inversion_clear 1].
  - rewrite bind_Ok. split.
    + intros (y & Hy & (k' & Hk & [= <-])%bind_Ok). constructor; [done|by apply IH].
    + inversion_clear 1 as [|? y ? k' Hy Hk]. exists y. split; [done|].
      apply bind_Ok. exists k'. split; [by apply IH|done].
Qed.
Lemma mapM_total {A B} (f : A → StatusOr B) (g : A → B) (l : list A) :
  (∀ x, x ∈ l → f x = Ok (g x)) → mapM f l = Ok (g <$> l).
Proof.
  intros H. apply mapM_Ok. induction l as [|x l IH]; constructor; [apply H|apply IH]; set_solver.
Qed.

(** ** Machine integers: values in [Z] with their wrap-around written out *)
Definition u64 (z : Z) : Z := z `mod` 2 ^ 64.
Definition u32 (z : Z) : Z := z `mod` 2 ^ 32.
Definition i64 (z : Z) : Z := (z + 2 ^ 63) `mod` 2 ^ 64 - 2 ^ 63.
Definition i32 (z : Z) : Z := (z + 2 ^ 31) `mod` 2 ^ 32 - 2 ^ 31.
Definition INT_MAX : Z := 2 ^ 31 - 1.

Lemma u64_small z : 0 <= z < 2 ^ 64 → u64 z = z.
Proof. intros. apply Z.mod_small; lia. Qed.
Lemma u32_small z : 0 <= z < 2 ^ 32 → u32 z = z.
Proof. intros. apply Z.mod_small; lia. Qed.
Lemma i64_small z : - 2 ^ 63 <= z < 2 ^ 63 → i64 z = z.
Proof. intros. unfold i64. rewrite Z.mod_small by lia. lia. Qed.
Lemma i32_small z : - 2 ^ 31 <= z < 2 ^ 31 → i32 z = z.
Proof. intros. unfold i32. rewrite Z.mod_small by lia. lia. Qed.
Lemma u64_range z : 0 <= u64 z < 2 ^ 64.
Proof. apply Z.mod_pos_bound. lia. Qed.
Lemma i64_range z : - 2 ^ 63 <= i64 z < 2 ^ 63.
Proof. unfold i64. pose proof (Z.mod_pos_bound (z + 2 ^ 63) (2 ^ 64)). lia. Qed.
Lemma i32_range z : - 2 ^ 31 <= i32 z < 2 ^ 31.
Proof. unfold i32. pose proof (Z.mod_pos_bound (z + 2 ^ 31) (2 ^ 32)). lia. Qed.

(** ** Vectors updated by index

    [for (id : ids) f(vec[id]);] over a [std::vector]; ids are C++ ints, so
    the positions are [Z].  Out of range the C++ is undefined; the model does
    nothing there and every caller's invariant keeps ids in range. *)
Definition update_all {A} (f : A → A) (ids : list Z) (bs : list A) : list A :=
  foldl (λ acc id, alter f (Z.to_nat id) acc) bs ids.

Section update_all.
Context {A : Type} (f : A → A).
Implicit Types (bs : list A) (ids : list Z).

Lemma length_update_all ids bs : length (update_all f ids bs) = length bs.
Proof.
  revert bs; induction ids as [|i ids IH]; intros bs; simpl; [done|].
  unfold update_all in *; simpl. by rewrite IH, length_alter.
Qed.

Lemma lookup_update_all ids bs (j : Z) :
  (∀ x, f (f x) = f x) →
  0 <= j →
  Forall (λ i, 0 <= i) ids →
  update_all f ids bs !! Z.to_nat j =
    if decide (j ∈ ids) then f <$> bs !! Z.to_nat j else bs !! Z.to_nat j.
Proof.
  intros Hidem Hj. revert bs; induction ids as [|i ids IH]; intros bs Hids.
  { unfold update_all; simpl. destruct (decide (j ∈ [])) as [[]%elem_of_nil|]; done. }
  apply Forall_cons_1 in Hids as [Hi Hids].
  change (update_all f (i :: ids) bs) with (update_all f ids (alter f (Z.to_nat i) bs)).
  rewrite IH by done. destruct (decide (i = j)) as [->|Hne].
  - rewrite list_lookup_alter_eq. rewrite (decide_True (P := j ∈ j :: ids)) by set_solver.
    case_decide; [|done]. destruct (bs !! Z.to_nat j); simpl; [by rewrite Hidem|done].
  - rewrite list_lookup_alter_ne by lia.
    destruct (decide (j ∈ ids)); destruct (decide (j ∈ i :: ids)); set_solver.
Qed.

Lemma Forall_alter_id (P : A → Prop) bs (k : nat) :
  (∀ x, P x → P (f x)) → Forall P bs → Forall P (alter f k bs).
Proof.
  intros Hf HP. apply Forall_lookup. intros j y Hj.
  rewrite Forall_lookup in HP. destruct (decide (k = j)) as [->|Hne].
  - rewrite list_lookup_alter_eq in Hj. destruct (bs !! j) eqn:E; simplify_eq/=. eauto.
  - rewrite list_lookup_alter_ne in Hj by done. eauto.
Qed.

Lemma Forall_update_all (P : A → Prop) ids bs :
  (∀ x, P x → P (f x)) → Forall P bs → Forall P (update_all f ids bs).
Proof.
  intros Hf. revert bs; induction ids as [|i ids IH]; intros bs HP; [done|].
  apply (IH (alter f (Z.to_nat i) bs)). by apply Forall_alter_id.
Qed.

Lemma lookup_total_update_all `{!Inhabited A} ids bs (j : Z) :
  (∀ x, f (f x) = f x) →
  0 <= j < Z.of_nat (length bs) →
  Forall (λ i, 0 <= i) ids →
  update_all f ids bs !!! Z.to_nat j =
    if decide (j ∈ ids) then f (bs !!! Z.to_nat j) else bs !!! Z.to_nat j.
Proof.
  intros Hidem Hj Hids. rewrite !list_lookup_total_alt, lookup_update_all by (done || lia).
  destruct (lookup_lt_is_Some_2 bs (Z.to_nat j)) as [x ->]; [lia|]. by case_decide.
Qed.
End update_all.

Lemma lookup_total_alter_Z {A} `{!Inhabited A} (f : A → A) (bs : list A) (i j : Z) :
  0 <= i → 0 <= j < Z.of_nat (length bs) →
  alter f (Z.to_nat i) bs !!! Z.to_nat j =
    if decide (i = j) then f (bs !!! Z.to_nat j) else bs !!! Z.to_nat j.
Proof.
  intros Hi Hj. rewrite !list_lookup_total_alt.
  case_decide as Heq.
  - subst. rewrite list_lookup_alter_eq.
    destruct (lookup_lt_is_Some_2 bs (Z.to_nat j)) as [x ->]; [lia|]. done.
  - rewrite list_lookup_alter_ne by lia. done.
Qed.

(** ** Lists of ids as finite sets *)
Lemma size_list_to_set_NoDup (l : list Z) :
  NoDup l → size (list_to_set l : gset Z) = length l.
Proof. apply size_list_to_set. Qed.

(** ** Counting the entries of a finite map *)
Section count_map.
Context {K A : Type} `{Countable K} (p : A → bool).
Implicit Types (m : gmap K A) (k : K) (x : A).

Definition count_map m : nat := size (filter (λ kx, p kx.2 = true) m).

Definition bit (b : bool) : nat := if b then 1%nat else 0%nat.

Lemma count_map_empty : count_map ∅ = 0%nat.
Proof. unfold count_map. by rewrite map_filter_empty, map_size_empty. Qed.

Lemma count_map_insert_new m k x :
  m !! k = None → count_map (<[k:=x]> m) = (count_map m + bit (p x))%nat.
Proof.
  intros Hk. unfold count_map. destruct (p x) eqn:Hp; simpl.
  - rewrite map_filter_insert_True by done.
    rewrite map_size_insert_None; [lia|]. apply map_lookup_filter_None. by left.
  - rewrite map_filter_insert_False by (simpl; congruence). rewrite delete_id by done. lia.
Qed.

Lemma count_map_delete m k x :
  m !! k = Some x → count_map m = (count_map (delete k m) + bit (p x))%nat.
Proof.
  intros Hk. rewrite <- (insert_delete_id m k x Hk) at 1.
  by rewrite count_map_insert_new by apply lookup_delete_eq.
Qed.

Lemma count_map_insert m k x y :
  m !! k = Some x → (count_map (<[k:=y]> m) + bit (p x) = count_map m + bit (p y))%nat.
Proof.
  intros Hk. rewrite (count_map_delete m k x Hk), <- insert_delete_eq,
    count_map_insert_new by apply lookup_delete_eq. lia.
Qed.
End count_map.

(** ** Lists as [std::list]s of distinct node handles *)
Section remove_key.
Context {K : Type} `{EqDecision K}.
Implicit Types (l : list K) (k j : K).

Definition remove_key k l : list K := filter (λ j, j ≠ k) l.

Lemma elem_of_remove_key k j l : j ∈ remove_key k l ↔ j ≠ k ∧ j ∈ l.
Proof. unfold remove_key. by rewrite list_elem_of_filter. Qed.
Lemma NoDup_remove_key k l : NoDup l → NoDup (remove_key k l).
Proof. apply NoDup_filter. Qed.
Lemma remove_key_notin k l : k ∉ l → remove_key k l = l.
Proof.
  intros Hk. unfold remove_key. induction l as [|j l IH]; [done|].
  rewrite filter_cons_True by set_solver. f_equal. apply IH. set_solver.
Qed.
Lemma length_remove_key k l :
  NoDup l → k ∈ l → S (length (remove_key k l)) = length l.
Proof.
  intros Hnd. induction l as [|j l IH]; [set_solver|].
  apply NoDup_cons in Hnd as [Hj Hnd]. unfold remove_key. rewrite filter_cons.
  intros Hk. case_decide as Hjk; simpl.
  - f_equal. apply IH; set_solver.
  - assert (j = k) as -> by (by destruct (decide (j = k))).
    f_equal. change (length (remove_key k l) = length l). by rewrite remove_key_notin.
Qed.
End remove_key.

(** ** Filters *)
Lemma filter_length_eq {A} (P : A → Prop) `{∀ x, Decision (P x)} (l : list A) :
  length (filter P l) = length l ↔ ∀ x, x ∈ l → P x.
Proof.
  induction l as [|x l IH]; [set_solver|]. rewrite filter_cons. pose proof (length_filter P l).
  setoid_rewrite elem_of_cons. case_decide; cbn [length]; split; try naive_solver lia.
Qed.
Lemma decide_cons {K A} `{EqDecision K} (k h : K) l (x y : A) :
  (if decide (k ∈ h :: l) then x else y) = if decide (k = h) then x else if decide (k ∈ l) then x else y.
Proof. repeat case_decide; try done; exfalso; rewrite elem_of_cons in *; tauto. Qed.
Lemma filter_twice {A} (P : A → Prop) `{∀ x, Decision (P x)} (l : list A) : filter P (filter P l) = filter P l.
Proof. rewrite list_filter_filter. apply list_filter_iff. tauto. Qed.

Lemma filter_id {A} (P : A → Prop) `{∀ x, Decision (P x)} (l : list A) : (∀ x, x ∈ l → P x) → filter P l = l.
Proof.
  induction l as [|x l IH]; intros Hl; [done|]. rewrite filter_cons_True by (apply Hl; left). f_equal. apply IH.
  intros y Hy. apply Hl. by right.
Qed.
