(* ===== verification/RaidenTypes.v ===== *)
(** * Shared identifiers: RaidenId, BlockStatus, RaidenBlockId
    (src/tpu_sync/common/raiden_id.h, src/tpu_sync/kv_cache/kv_cache_store_backend.h) *)

From S2P Require Import Prelude.

(** [struct RaidenId]: a replica's entity address. *)
Record RaidenId := mkRaidenId {
  job_name : string;
  job_replica_id : string;
  data_name : string;
  data_replica_idx : Z;
}.

#[export] Instance RaidenId_eq_dec : EqDecision RaidenId.
Proof. solve_decision. Defined.
#[export] Instance RaidenId_countable : Countable RaidenId :=
  inj_countable' (λ r, (job_name r, job_replica_id r, data_name r, data_replica_idx r))
    (λ '(a, b, c, d), mkRaidenId a b c d) ltac:(by intros []).

Definition RaidenId_empty (r : RaidenId) : bool :=
  bool_decide (job_name r = "") && bool_decide (job_replica_id r = "") &&
  bool_decide (data_name r = "") && (data_replica_idx r =? 0).

(** [operator==]. *)
Definition RaidenId_eqb (a b : RaidenId) : bool :=
  bool_decide (job_name a = job_name b) && bool_decide (job_replica_id a = job_replica_id b) &&
  bool_decide (data_name a = data_name b) && (data_replica_idx a =? data_replica_idx b).

Lemma RaidenId_eqb_eq a b : RaidenId_eqb a b = true ↔ a = b.
Proof.
  unfold RaidenId_eqb. rewrite !andb_true_iff, !bool_decide_eq_true, Z.eqb_eq.
  destruct a, b; simpl. naive_solver.
Qed.

Inductive BlockStatus := INIT | REMOTE | HBM | HOST | HOST_AND_HBM | SHARED_STORAGE.

#[export] Instance BlockStatus_eq_dec : EqDecision BlockStatus.
Proof. solve_decision. Defined.

Record RaidenBlockId := mkRaidenBlockId {
  raiden_id : RaidenId;
  host_block_id : Z;
  device_block_id : Z;
  status : BlockStatus;
}.

#[export] Instance RaidenBlockId_eq_dec : EqDecision RaidenBlockId.
Proof. solve_decision. Defined.
