(* ===== verification/BlockPool.v ===== *)
(** * BlockPool: what the staging allocators rely on of a block pool

    [StagingBlockAllocator] only touches its [LogicalBlockManager*] through
    the five calls below.  [BlockPoolOps] is that call surface and [BlockPool]
    the contract, stated on an abstract view of the pool (which ids are
    allocated, which of those are locked).  The clients are verified against
    the contract; LogicalBlockManager.v discharges it. *)

From S2P Require Import Prelude.

Class BlockPoolOps (P : Type) := {
  pool_total_blocks : P → Z;
  pool_num_free_blocks : P → Z;
  pool_Allocate : Z → bool → P → StatusOr (list Z) * P;
  pool_Unlock : list Z → P → Status * P;
  pool_Deallocate : list Z → P → Status * P;
  (** the abstract view *)
  pool_wf : P → Prop;
  pool_allocated : P → gset Z;
  pool_locked : P → gset Z;
}.

Class BlockPool (P : Type) `{!BlockPoolOps P} := {
  pool_num_free_spec p :
    pool_wf p →
    pool_num_free_blocks p = pool_total_blocks p - Z.of_nat (size (pool_allocated p));
  pool_total_bound p : pool_wf p → 0 <= pool_total_blocks p <= INT_MAX;
  pool_allocated_bound p :
    pool_wf p → Z.of_nat (size (pool_allocated p)) <= pool_total_blocks p;
  pool_locked_allocated p : pool_wf p → pool_locked p ⊆ pool_allocated p;
  (** a locked allocation: fresh ids, none of them locked before *)
  pool_Allocate_ok n p ids p' :
    pool_wf p → pool_Allocate n true p = (Ok ids, p') →
    pool_wf p' ∧ pool_total_blocks p' = pool_total_blocks p ∧
    NoDup ids ∧ Z.of_nat (length ids) = n ∧ 0 < n ∧
    list_to_set ids ## pool_locked p ∧
    pool_allocated p' = pool_allocated p ∪ list_to_set ids ∧
    pool_locked p' = pool_locked p ∪ list_to_set ids;
  pool_Allocate_err n p c p' :
    pool_Allocate n true p = (Err c, p') → p' = p;
  (** enough free blocks: it succeeds, and evicts nothing *)
  pool_Allocate_free n p :
    pool_wf p → 0 < n <= pool_num_free_blocks p →
    ∃ ids p', pool_Allocate n true p = (Ok ids, p') ∧ list_to_set ids ## pool_allocated p;
  (** too many locked blocks: it fails *)
  pool_Allocate_exhausted n p :
    pool_wf p → 0 < n <= pool_total_blocks p →
    pool_total_blocks p - Z.of_nat (size (pool_locked p)) < n →
    pool_Allocate n true p = (Err kResourceExhausted, p);
  pool_Unlock_ok ids p :
    pool_wf p → list_to_set ids ⊆ pool_allocated p →
    ∃ p', pool_Unlock ids p = (OkStatus, p') ∧ pool_wf p' ∧
      pool_total_blocks p' = pool_total_blocks p ∧
      pool_allocated p' = pool_allocated p ∧
      pool_locked p' = pool_locked p ∖ list_to_set ids;
  pool_Deallocate_ok ids p :
    pool_wf p → list_to_set ids ⊆ pool_allocated p →
    ∃ p', pool_Deallocate ids p = (OkStatus, p') ∧ pool_wf p' ∧
      pool_total_blocks p' = pool_total_blocks p ∧
      pool_allocated p' = pool_allocated p ∖ list_to_set ids ∧
      pool_locked p' = pool_locked p ∖ list_to_set ids;
}.
