(* ===== verification/LogicalBlockManager.v ===== *)
(** * LogicalBlockManager: the host block pool
    (src/tpu_sync/kv_cache/logical_block_manager.{h,cc})

    The pool hands out block ids in [0, total_blocks_); a block is free,
    allocated, or allocated and locked; [Allocate] takes free blocks first and
    then evicts the least recently used unlocked blocks.  The class is not
    thread safe, so every method is one atomic state transformer. *)

From S2P Require Import Prelude BlockPool.

(** ** State *)

(** [struct BlockState]; [last_access_counter] is a [uint64_t]. *)
Record BlockState := mkBlockState {
  is_allocated : bool;
  is_locked : bool;
  last_access_counter : Z;
}.

Definition initial_block : BlockState := mkBlockState false false 0.
#[export] Instance BlockState_inhabited : Inhabited BlockState := populate initial_block.

Record LogicalBlockManager := mkLBM {
  total_blocks_ : Z;
  access_counter_ : Z;
  blocks_ : list BlockState;
  num_free_ : Z;
}.

(** The constructor.  [std::vector(num_blocks)] throws for a negative count. *)
Definition LogicalBlockManager_new (num_blocks : Z) : option LogicalBlockManager :=
  if num_blocks <? 0 then None
  else Some {| total_blocks_ := num_blocks;
               access_counter_ := 0;
               blocks_ := replicate (Z.to_nat num_blocks) initial_block;
               num_free_ := num_blocks |}.

(** [blocks_[i]]. *)
Definition block_at (m : LogicalBlockManager) (i : Z) : BlockState :=
  blocks_ m !!! Z.to_nat i.

Definition set_blocks (bs : list BlockState) (m : LogicalBlockManager) : LogicalBlockManager :=
  mkLBM (total_blocks_ m) (access_counter_ m) bs (num_free_ m).

Definition in_range (m : LogicalBlockManager) (i : Z) : bool :=
  (0 <=? i) && (i <? total_blocks_ m).

(** ** Allocation *)

(** The two id lists the scan loop of [Allocate] collects. *)
Definition free_block_ids (m : LogicalBlockManager) : list Z :=
  filter (λ i, is_allocated (block_at m i) = false) (seqZ 0 (total_blocks_ m)).
Definition evictable_block_ids (m : LogicalBlockManager) : list Z :=
  filter (λ i, is_allocated (block_at m i) = true ∧ is_locked (block_at m i) = false)
    (seqZ 0 (total_blocks_ m)).

(** The reflexive closure of the comparator handed to [std::sort]: smaller
    [last_access_counter] first, ties by id. *)
Definition lru_le (m : LogicalBlockManager) (a b : Z) : Prop :=
  last_access_counter (block_at m a) < last_access_counter (block_at m b) ∨
  (last_access_counter (block_at m a) = last_access_counter (block_at m b) ∧ a <= b).

#[export] Instance lru_le_dec m a b : Decision (lru_le m a b).
Proof. unfold lru_le. apply _. Defined.

Definition clear_allocated (b : BlockState) : BlockState :=
  mkBlockState false (is_locked b) (last_access_counter b).

Definition Allocate (num_blocks_to_allocate : Z) (lock : bool)
    (m : LogicalBlockManager) : StatusOr (list Z) * LogicalBlockManager :=
  if num_blocks_to_allocate <=? 0 then (Err kInvalidArgument, m)
  else if total_blocks_ m <? num_blocks_to_allocate then (Err kInvalidArgument, m)
  else
    let free := free_block_ids m in
    let evictable := evictable_block_ids m in
    if Z.of_nat (length free + length evictable) <? num_blocks_to_allocate
    then (Err kResourceExhausted, m)
    else
      let free_to_use := Z.min (Z.of_nat (length free)) num_blocks_to_allocate in
      let needed_blocks := num_blocks_to_allocate - free_to_use in
      let evicted :=
        if 0 <? needed_blocks
        then take (Z.to_nat needed_blocks) (merge_sort (lru_le m) evictable)
        else [] in
      let blocks := update_all clear_allocated evicted (blocks_ m) in
      let allocated_block_ids := take (Z.to_nat free_to_use) free ++ evicted in
      let access_counter := u64 (access_counter_ m + 1) in
      let blocks :=
        update_all (λ _, mkBlockState true lock access_counter) allocated_block_ids blocks in
      (Ok allocated_block_ids,
       {| total_blocks_ := total_blocks_ m;
          access_counter_ := access_counter;
          blocks_ := blocks;
          num_free_ := num_free_ m - free_to_use |}).

(** The validation loop of [AllocateTarget], with its [seen] vector. *)
Fixpoint validate_target (m : LogicalBlockManager) (seen : list bool)
    (block_ids : list Z) : Status :=
  match block_ids with
  | [] => OkStatus
  | block_id :: rest =>
      if negb (in_range m block_id) then Err kInvalidArgument
      else if is_allocated (block_at m block_id) then Err kFailedPrecondition
      else if (seen !!! Z.to_nat block_id : bool) then Err kInvalidArgument
      else validate_target m (<[Z.to_nat block_id := true]> seen) rest
  end.

Definition AllocateTarget (block_ids : list Z) (m : LogicalBlockManager)
    : Status * LogicalBlockManager :=
  match validate_target m (replicate (Z.to_nat (total_blocks_ m)) false) block_ids with
  | Err c => (Err c, m)
  | Ok _ =>
      let access_counter := u64 (access_counter_ m + 1) in
      (OkStatus,
       {| total_blocks_ := total_blocks_ m;
          access_counter_ := access_counter;
          blocks_ := update_all (λ _, mkBlockState true true access_counter)
                       block_ids (blocks_ m);
          num_free_ := num_free_ m - Z.of_nat (length block_ids) |})
  end.

(** ** Unlock, Deallocate, AccessBlock *)

(** The validation loop [Unlock] and [Deallocate] share. *)
Fixpoint validate_allocated (m : LogicalBlockManager) (block_ids : list Z) : Status :=
  match block_ids with
  | [] => OkStatus
  | block_id :: rest =>
      if negb (in_range m block_id) then Err kInvalidArgument
      else if negb (is_allocated (block_at m block_id)) then Err kInvalidArgument
      else validate_allocated m rest
  end.

Definition clear_locked (b : BlockState) : BlockState :=
  mkBlockState (is_allocated b) false (last_access_counter b).

Definition Unlock (block_ids : list Z) (m : LogicalBlockManager)
    : Status * LogicalBlockManager :=
  match validate_allocated m block_ids with
  | Err c => (Err c, m)
  | Ok _ => (OkStatus, set_blocks (update_all clear_locked block_ids (blocks_ m)) m)
  end.

(** One iteration of the update loop of [Deallocate]: [num_free_] grows only
    the first time an id is met. *)
Definition deallocate_block (m : LogicalBlockManager) (block_id : Z) : LogicalBlockManager :=
  let b := block_at m block_id in
  let num_free := if is_allocated b then num_free_ m + 1 else num_free_ m in
  mkLBM (total_blocks_ m) (access_counter_ m)
    (alter (λ b, mkBlockState false false (last_access_counter b))
       (Z.to_nat block_id) (blocks_ m))
    num_free.

Definition Deallocate (block_ids : list Z) (m : LogicalBlockManager)
    : Status * LogicalBlockManager :=
  match validate_allocated m block_ids with
  | Err c => (Err c, m)
  | Ok _ => (OkStatus, foldl deallocate_block m block_ids)
  end.

Definition AccessBlock (block_id : Z) (m : LogicalBlockManager)
    : Status * LogicalBlockManager :=
  if negb (in_range m block_id) then (Err kInvalidArgument, m)
  else if negb (is_allocated (block_at m block_id)) then (Err kInvalidArgument, m)
  else
    let access_counter := u64 (access_counter_ m + 1) in
    (OkStatus,
     {| total_blocks_ := total_blocks_ m;
        access_counter_ := access_counter;
        blocks_ := alter (λ b, mkBlockState (is_allocated b) (is_locked b) access_counter)
                     (Z.to_nat block_id) (blocks_ m);
        num_free_ := num_free_ m |}).

(** ** Inspection *)
Definition IsAllocated (block_id : Z) (m : LogicalBlockManager) : bool :=
  if negb (in_range m block_id) then false else is_allocated (block_at m block_id).
Definition IsLocked (block_id : Z) (m : LogicalBlockManager) : bool :=
  if negb (in_range m block_id) then false else is_locked (block_at m block_id).
Definition num_free_blocks (m : LogicalBlockManager) : Z := num_free_ m.
Definition num_allocated_blocks (m : LogicalBlockManager) : Z :=
  foldl (λ count b, if is_allocated b then count + 1 else count) 0 (blocks_ m).
Definition num_locked_blocks (m : LogicalBlockManager) : Z :=
  foldl (λ count b, if is_locked b then count + 1 else count) 0 (blocks_ m).

(** ** The abstract view: which ids are allocated, which are locked *)
Definition allocated_set (m : LogicalBlockManager) : gset Z :=
  list_to_set (filter (λ i, is_allocated (block_at m i) = true) (seqZ 0 (total_blocks_ m))).
Definition locked_set (m : LogicalBlockManager) : gset Z :=
  list_to_set (filter (λ i, is_locked (block_at m i) = true) (seqZ 0 (total_blocks_ m))).

(** Well-formedness: the vector has one state per id, the free counter is the
    number of unallocated ids, and only allocated blocks are locked. *)
Record wf (m : LogicalBlockManager) : Prop := {
  wf_total : 0 <= total_blocks_ m <= INT_MAX;
  wf_length : length (blocks_ m) = Z.to_nat (total_blocks_ m);
  wf_num_free : num_free_ m = total_blocks_ m - Z.of_nat (size (allocated_set m));
  wf_locked : locked_set m ⊆ allocated_set m;
}.

Section views.
Implicit Types (m : LogicalBlockManager) (i : Z) (ids : list Z).

Lemma elem_of_allocated_set m i :
  i ∈ allocated_set m ↔ 0 <= i < total_blocks_ m ∧ is_allocated (block_at m i) = true.
Proof.
  unfold allocated_set. rewrite elem_of_list_to_set, list_elem_of_filter, elem_of_seqZ. naive_solver lia.
Qed.

Lemma elem_of_locked_set m i :
  i ∈ locked_set m ↔ 0 <= i < total_blocks_ m ∧ is_locked (block_at m i) = true.
Proof.
  unfold locked_set. rewrite elem_of_list_to_set, list_elem_of_filter, elem_of_seqZ. naive_solver lia.
Qed.

Lemma elem_of_free_block_ids m i :
  i ∈ free_block_ids m ↔ 0 <= i < total_blocks_ m ∧ i ∉ allocated_set m.
Proof.
  unfold free_block_ids. rewrite list_elem_of_filter, elem_of_seqZ, elem_of_allocated_set.
  destruct (is_allocated (block_at m i)); naive_solver lia.
Qed.

Lemma elem_of_evictable_block_ids m i :
  i ∈ evictable_block_ids m ↔ i ∈ allocated_set m ∧ i ∉ locked_set m.
Proof.
  unfold evictable_block_ids.
  rewrite list_elem_of_filter, elem_of_seqZ, elem_of_allocated_set, elem_of_locked_set.
  destruct (is_allocated (block_at m i)), (is_locked (block_at m i)); naive_solver lia.
Qed.

Lemma NoDup_free_block_ids m : NoDup (free_block_ids m).
Proof. apply NoDup_filter, NoDup_seqZ. Qed.
Lemma NoDup_evictable_block_ids m : NoDup (evictable_block_ids m).
Proof. apply NoDup_filter, NoDup_seqZ. Qed.

(** The views of a manager whose flags were overwritten at [ids]. *)
Lemma allocated_set_update m m' ids (b : bool) :
  total_blocks_ m' = total_blocks_ m →
  (∀ i, i ∈ ids → 0 <= i < total_blocks_ m) →
  (∀ i, 0 <= i < total_blocks_ m → is_allocated (block_at m' i) =
     if decide (i ∈ ids) then b else is_allocated (block_at m i)) →
  allocated_set m' =
    if b then allocated_set m ∪ list_to_set ids else allocated_set m ∖ list_to_set ids.
Proof.
  intros Ht Hids Hb. apply set_eq; intros i. specialize (Hids i); specialize (Hb i).
  assert (i ∈ allocated_set m' ↔ 0 <= i < total_blocks_ m ∧
    (if decide (i ∈ ids) then b else is_allocated (block_at m i)) = true) as ->.
  { rewrite elem_of_allocated_set, Ht. split; intros [Hi ?]; by rewrite ?Hb in *. }
  destruct b; rewrite ?elem_of_union, ?elem_of_difference, elem_of_list_to_set,
    elem_of_allocated_set; case_decide; naive_solver.
Qed.

Lemma locked_set_update m m' ids (b : bool) :
  total_blocks_ m' = total_blocks_ m →
  (∀ i, i ∈ ids → 0 <= i < total_blocks_ m) →
  (∀ i, 0 <= i < total_blocks_ m → is_locked (block_at m' i) =
     if decide (i ∈ ids) then b else is_locked (block_at m i)) →
  locked_set m' =
    if b then locked_set m ∪ list_to_set ids else locked_set m ∖ list_to_set ids.
Proof.
  intros Ht Hids Hb. apply set_eq; intros i. specialize (Hids i); specialize (Hb i).
  assert (i ∈ locked_set m' ↔ 0 <= i < total_blocks_ m ∧
    (if decide (i ∈ ids) then b else is_locked (block_at m i)) = true) as ->.
  { rewrite elem_of_locked_set, Ht. split; intros [Hi ?]; by rewrite ?Hb in *. }
  destruct b; rewrite ?elem_of_union, ?elem_of_difference, elem_of_list_to_set,
    elem_of_locked_set; case_decide; naive_solver.
Qed.

Lemma in_range_spec m i : in_range m i = true ↔ 0 <= i < total_blocks_ m.
Proof. unfold in_range. rewrite andb_true_iff, Z.leb_le, Z.ltb_lt. lia. Qed.

Lemma allocated_set_size m : wf m → Z.of_nat (size (allocated_set m)) <= total_blocks_ m.
Proof.
  intros [Ht _ _ _]. unfold allocated_set.
  rewrite size_list_to_set by apply NoDup_filter, NoDup_seqZ.
  pose proof (length_filter (λ i, is_allocated (block_at m i) = true)
                (seqZ 0 (total_blocks_ m))) as Hle.
  rewrite length_seqZ in Hle. lia.
Qed.

(** The scan of [Allocate] finds exactly [num_free_] free ids. *)
Lemma length_free_block_ids m : wf m → Z.of_nat (length (free_block_ids m)) = num_free_ m.
Proof.
  intros Hwf. rewrite wf_num_free by done.
  rewrite <- size_list_to_set_NoDup by apply NoDup_free_block_ids.
  assert ((list_to_set (seqZ 0 (total_blocks_ m)) : gset Z)
          = allocated_set m ∪ list_to_set (free_block_ids m)) as Heq.
  { apply set_eq; intros i.
    rewrite elem_of_union, !elem_of_list_to_set, elem_of_seqZ, elem_of_free_block_ids,
      elem_of_allocated_set.
    destruct (is_allocated (block_at m i)); naive_solver lia. }
  apply (f_equal size) in Heq.
  rewrite size_list_to_set_NoDup, length_seqZ in Heq by apply NoDup_seqZ.
  rewrite size_union in Heq.
  - pose proof (wf_total m Hwf). lia.
  - intros i. rewrite elem_of_list_to_set, elem_of_free_block_ids. naive_solver.
Qed.

Lemma num_free_bounds m : wf m → 0 <= num_free_ m <= total_blocks_ m.
Proof.
  intros Hwf. pose proof (allocated_set_size m Hwf). rewrite wf_num_free by done.
  pose proof (wf_total m Hwf). lia.
Qed.
End views.

(** ** Allocate *)

(** The ids [Allocate] picks: free ids first, then the LRU-sorted evictable ones. *)
Definition allocation (n : Z) (m : LogicalBlockManager) : list Z :=
  let free_to_use := Z.min (Z.of_nat (length (free_block_ids m))) n in
  take (Z.to_nat free_to_use) (free_block_ids m) ++
  take (Z.to_nat (n - free_to_use)) (merge_sort (lru_le m) (evictable_block_ids m)).

Section allocate.
Implicit Types (m : LogicalBlockManager) (i n : Z) (ids : list Z).

#[export] Instance lru_le_total m : Total (lru_le m).
Proof. intros a b. unfold lru_le. lia. Qed.
#[export] Instance lru_le_trans m : Transitive (lru_le m).
Proof. intros a b c. unfold lru_le. lia. Qed.

Lemma NoDup_allocation n m : NoDup (allocation n m).
Proof.
  unfold allocation. apply NoDup_app. repeat split.
  - eapply sublist_NoDup; [apply NoDup_free_block_ids|apply sublist_take].
  - intros i Hi%subseteq_take Hi'%subseteq_take.
    rewrite elem_of_free_block_ids in Hi. rewrite merge_sort_Permutation in Hi'.
    rewrite elem_of_evictable_block_ids in Hi'. naive_solver.
  - eapply sublist_NoDup; [|apply sublist_take]. rewrite merge_sort_Permutation.
    apply NoDup_evictable_block_ids.
Qed.

Lemma length_allocation n m :
  0 < n <= Z.of_nat (length (free_block_ids m) + length (evictable_block_ids m)) →
  Z.of_nat (length (allocation n m)) = n.
Proof.
  intros Hn. unfold allocation. rewrite length_app, !length_take.
  rewrite (Permutation_length (merge_sort_Permutation (lru_le m) _)). lia.
Qed.

Lemma elem_of_allocation n m i :
  i ∈ allocation n m → 0 <= i < total_blocks_ m ∧ (i ∈ allocated_set m → i ∉ locked_set m).
Proof.
  unfold allocation. rewrite elem_of_app. intros [Hi|Hi]; apply subseteq_take in Hi.
  - rewrite elem_of_free_block_ids in Hi. naive_solver.
  - rewrite merge_sort_Permutation, elem_of_evictable_block_ids in Hi.
    split; [|naive_solver]. destruct Hi as [Hi _]. apply elem_of_allocated_set in Hi. lia.
Qed.

Lemma allocation_not_locked n m i : wf m → i ∈ allocation n m → i ∉ locked_set m.
Proof.
  intros Hwf Hi Hl. apply elem_of_allocation in Hi as [_ Hi].
  pose proof (wf_locked _ Hwf _ Hl). naive_solver.
Qed.

(** The three outcomes of [Allocate] and the exact successor state. *)
Lemma Allocate_cases n lock m :
  (Allocate n lock m = (Err kInvalidArgument, m) ∧ (n <= 0 ∨ total_blocks_ m < n)) ∨
  (Allocate n lock m = (Err kResourceExhausted, m) ∧ 0 < n <= total_blocks_ m ∧
    Z.of_nat (length (free_block_ids m) + length (evictable_block_ids m)) < n) ∨
  (∃ m', Allocate n lock m = (Ok (allocation n m), m') ∧ 0 < n <= total_blocks_ m ∧
    n <= Z.of_nat (length (free_block_ids m) + length (evictable_block_ids m)) ∧
    total_blocks_ m' = total_blocks_ m ∧ access_counter_ m' = u64 (access_counter_ m + 1) ∧
    num_free_ m' = num_free_ m - Z.min (Z.of_nat (length (free_block_ids m))) n ∧
    length (blocks_ m') = length (blocks_ m) ∧
    ∀ i, 0 <= i < Z.of_nat (length (blocks_ m)) →
      block_at m' i = if decide (i ∈ allocation n m)
                      then mkBlockState true lock (access_counter_ m') else block_at m i).
Proof.
  unfold Allocate.
  destruct (Z.leb_spec n 0); [left; split; [done|lia]|].
  destruct (Z.ltb_spec (total_blocks_ m) n); [left; split; [done|lia]|].
  destruct (Z.ltb_spec (Z.of_nat (length (free_block_ids m) + length (evictable_block_ids m))) n);
    [right; left; split; [done|lia]|].
  right; right.
  set (needed := n - Z.min (Z.of_nat (length (free_block_ids m))) n).
  replace (if 0 <? needed then _ else _) with
    (take (Z.to_nat needed) (merge_sort (lru_le m) (evictable_block_ids m))).
  2: { destruct (Z.ltb_spec 0 needed); [done|].
       by replace (Z.to_nat needed) with 0%nat by lia. }
  eexists. split; [reflexivity|]. simpl. rewrite !length_update_all.
  repeat (split; [done || lia|]). intros i Hi. unfold block_at; simpl.
  assert (Forall (λ j, 0 <= j) (allocation n m)) as Hpos.
  { apply Forall_forall. intros j Hj%elem_of_allocation. lia. }
  rewrite lookup_total_update_all by (rewrite ?length_update_all; done).
  change (take _ _ ++ take _ _) with (allocation n m).
  case_decide as Hin; [done|].
  rewrite lookup_total_update_all; [|done|done|].
  - rewrite decide_False; [done|]. intros Hi'. apply Hin. unfold allocation. set_solver.
  - unfold allocation in Hpos. by apply Forall_app in Hpos as [_ ?].
Qed.
End allocate.

Section allocate_spec.
Implicit Types (m : LogicalBlockManager) (i n : Z) (ids : list Z).

(** Free and evictable ids together are exactly the ids that are not locked. *)
Lemma length_available m :
  wf m →
  Z.of_nat (length (free_block_ids m) + length (evictable_block_ids m))
    = total_blocks_ m - Z.of_nat (size (locked_set m)).
Proof.
  intros Hwf. rewrite Nat2Z.inj_add, length_free_block_ids, wf_num_free by done.
  rewrite <- (size_list_to_set_NoDup (evictable_block_ids m))
    by apply NoDup_evictable_block_ids.
  assert (list_to_set (evictable_block_ids m) = allocated_set m ∖ locked_set m) as ->.
  { apply set_eq; intros i.
    by rewrite elem_of_list_to_set, elem_of_evictable_block_ids, elem_of_difference. }
  rewrite size_difference by apply (wf_locked _ Hwf).
  pose proof (subseteq_size _ _ (wf_locked _ Hwf)). lia.
Qed.

Lemma allocation_fresh n m :
  list_to_set (allocation n m) ∖ allocated_set m =@{gset Z}
  list_to_set (take (Z.to_nat (Z.min (Z.of_nat (length (free_block_ids m))) n))
                 (free_block_ids m)).
Proof.
  apply set_eq; intros i. unfold allocation.
  rewrite elem_of_difference, !elem_of_list_to_set, elem_of_app. split.
  - intros [[Hi|Hi] Hn]; [done|]. apply subseteq_take in Hi.
    rewrite merge_sort_Permutation, elem_of_evictable_block_ids in Hi. naive_solver.
  - intros Hi. split; [by left|]. apply subseteq_take, elem_of_free_block_ids in Hi.
    naive_solver.
Qed.

Lemma allocation_fresh_size n m :
  0 < n →
  Z.of_nat (size ((list_to_set (allocation n m) : gset Z) ∖ allocated_set m))
    = Z.min (Z.of_nat (length (free_block_ids m))) n.
Proof.
  intros Hn. rewrite allocation_fresh, size_list_to_set_NoDup, length_take; [lia|].
  eapply sublist_NoDup; [apply NoDup_free_block_ids|apply sublist_take].
Qed.

(** The state [Allocate] leaves, in the abstract view. *)
Lemma Allocate_views n lock m ids m' :
  wf m → Allocate n lock m = (Ok ids, m') →
  0 < n <= total_blocks_ m ∧ ids = allocation n m ∧
  allocated_set m' = allocated_set m ∪ list_to_set ids ∧
  locked_set m' = (if lock then locked_set m ∪ list_to_set ids else locked_set m) ∧
  wf m'.
Proof.
  intros Hwf Hall.
  destruct (Allocate_cases n lock m)
    as [[E _]|[[E _]|(m'' & E & Hn & Havail & Ht & Hc & Hnf & Hlen & Hblk)]];
    rewrite E in Hall; [done|done|]; simplify_eq.
  assert (∀ i, 0 <= i < total_blocks_ m →
    block_at m' i = if decide (i ∈ allocation n m)
      then mkBlockState true lock (access_counter_ m') else block_at m i) as Hblk'.
  { intros i Hi. apply Hblk. rewrite (wf_length _ Hwf). lia. }
  assert (allocated_set m' = allocated_set m ∪ list_to_set (allocation n m)) as Halloc.
  { apply (allocated_set_update m m' _ true); [done|apply elem_of_allocation|].
    intros i Hi. rewrite Hblk' by done. by case_decide. }
  assert (locked_set m' =
    if lock then locked_set m ∪ list_to_set (allocation n m) else locked_set m) as Hlocked.
  { pose proof (allocation_not_locked n m) as Hdisj.
    rewrite (locked_set_update m m' (allocation n m) lock); [|done|apply elem_of_allocation|].
    - destruct lock; [done|]. set_solver.
    - intros i Hi. rewrite Hblk' by done. by case_decide. }
  repeat (split; [done|]). split.
  - rewrite Ht. apply (wf_total _ Hwf).
  - rewrite Ht, Hlen. apply (wf_length _ Hwf).
  - rewrite Hnf, Ht, Halloc, size_union_alt, Nat2Z.inj_add, allocation_fresh_size by lia.
    rewrite (wf_num_free _ Hwf). lia.
  - rewrite Hlocked, Halloc. pose proof (wf_locked _ Hwf). destruct lock; set_solver.
Qed.
End allocate_spec.

(** ** AllocateTarget, Unlock, Deallocate, AccessBlock *)
Section other_ops.
Implicit Types (m : LogicalBlockManager) (i n : Z) (ids : list Z).

Lemma validate_target_ok m seen ids :
  length seen = Z.to_nat (total_blocks_ m) →
  validate_target m seen ids = OkStatus ↔
    NoDup ids ∧
    (∀ i, i ∈ ids → 0 <= i < total_blocks_ m ∧ (i ∉ allocated_set m) ∧
                    (seen !!! Z.to_nat i) = false).
Proof.
  revert seen; induction ids as [|i ids IH]; intros seen Hlen; simpl.
  { split; [|done]. intros _. split; [constructor|]. set_solver. }
  destruct (in_range m i) eqn:Hr; simpl; [apply in_range_spec in Hr|].
  2: { split; [done|]. intros [_ Hall]. destruct (Hall i) as [Hi _]; [set_solver|].
       apply in_range_spec in Hi. congruence. }
  destruct (is_allocated (block_at m i)) eqn:Ha.
  { split; [done|]. intros [_ Hall]. destruct (Hall i) as (_ & Hn & _); [set_solver|].
    rewrite elem_of_allocated_set in Hn. tauto. }
  destruct ((seen !!! Z.to_nat i) : bool) eqn:Hs.
  { split; [done|]. intros [_ Hall]. destruct (Hall i) as (_ & _ & ?); [set_solver|congruence]. }
  rewrite IH by (by rewrite length_insert).
  assert (∀ j, 0 <= j → (<[Z.to_nat i:=true]> seen) !!! Z.to_nat j =
            if decide (j = i) then true else (seen !!! Z.to_nat j)) as Hins.
  { intros j Hj. case_decide as Hji.
    - subst. apply list_lookup_total_insert_eq. lia.
    - apply list_lookup_total_insert_ne. lia. }
  split.
  - intros [Hnd Hall]. split.
    + apply NoDup_cons. split; [|done]. intros Hin. destruct (Hall i Hin) as (? & _ & Hf).
      rewrite Hins, decide_True in Hf by (done || lia). done.
    + intros j [->|Hj]%elem_of_cons.
      { rewrite elem_of_allocated_set. naive_solver congruence. }
      destruct (Hall j Hj) as (? & ? & Hf). rewrite Hins in Hf by lia.
      case_decide; [done|]. tauto.
  - intros [[Hni Hnd]%NoDup_cons Hall]. split; [done|]. intros j Hj.
    destruct (Hall j) as (? & ? & Hf); [set_solver|]. repeat split; try tauto; try lia.
    rewrite Hins by lia. rewrite decide_False by (intros ->; done). done.
Qed.

Lemma validate_allocated_ok m ids :
  validate_allocated m ids = OkStatus ↔ list_to_set ids ⊆ allocated_set m.
Proof.
  induction ids as [|i ids IH]; simpl; [set_solver|].
  destruct (in_range m i) eqn:Hr; simpl.
  - apply in_range_spec in Hr. destruct (is_allocated (block_at m i)) eqn:Ha; simpl.
    + rewrite IH. assert (i ∈ allocated_set m) by (by apply elem_of_allocated_set).
      set_solver.
    + split; [done|]. intros Hsub. assert (i ∈ allocated_set m) as Hi by set_solver.
      apply elem_of_allocated_set in Hi. naive_solver congruence.
  - split; [done|]. intros Hsub. assert (i ∈ allocated_set m) as Hi by set_solver.
    apply elem_of_allocated_set in Hi as [Hi _]. apply in_range_spec in Hi. congruence.
Qed.

Lemma allocated_ids_in_range m ids i :
  list_to_set ids ⊆ allocated_set m → i ∈ ids → 0 <= i < total_blocks_ m.
Proof.
  intros Hsub Hi. assert (i ∈ allocated_set m) as H%elem_of_allocated_set by set_solver. tauto.
Qed.

Lemma Unlock_views m ids m' :
  wf m → Unlock ids m = (OkStatus, m') →
  list_to_set ids ⊆ allocated_set m ∧ wf m' ∧
  allocated_set m' = allocated_set m ∧ locked_set m' = locked_set m ∖ list_to_set ids.
Proof.
  unfold Unlock. intros Hwf HU.
  destruct (validate_allocated m ids) as [[]|] eqn:Hv; [|done]. simplify_eq.
  apply validate_allocated_ok in Hv. pose proof (allocated_ids_in_range m ids) as Hr.
  set (m' := set_blocks _ _).
  assert (∀ i, 0 <= i < total_blocks_ m →
    block_at m' i = if decide (i ∈ ids) then clear_locked (block_at m i) else block_at m i) as Hb.
  { intros i Hi. apply lookup_total_update_all; [done|rewrite (wf_length _ Hwf); lia|].
    apply Forall_forall. intros j Hj. specialize (Hr j Hv Hj). lia. }
  assert (allocated_set m' = allocated_set m) as Ha.
  { rewrite (allocated_set_update m m' [] true); [set_solver|done|set_solver|].
    intros i Hi. rewrite Hb by done. by case_decide. }
  assert (locked_set m' = locked_set m ∖ list_to_set ids) as Hl.
  { apply (locked_set_update m m' ids false); [done|auto|].
    intros i Hi. rewrite Hb by done. by case_decide. }
  split; [done|]. split; [|done]. split; simpl; try apply Hwf.
  - rewrite length_update_all. apply Hwf.
  - rewrite Ha. apply Hwf.
  - rewrite Ha, Hl. pose proof (wf_locked _ Hwf). set_solver.
Qed.

(** One iteration of the [Deallocate] loop keeps the invariant, allocated or not. *)
Lemma deallocate_block_views m i :
  wf m → 0 <= i < total_blocks_ m →
  wf (deallocate_block m i) ∧ total_blocks_ (deallocate_block m i) = total_blocks_ m ∧
  allocated_set (deallocate_block m i) = allocated_set m ∖ {[i]} ∧
  locked_set (deallocate_block m i) = locked_set m ∖ {[i]}.
Proof.
  intros Hwf Hi. set (m' := deallocate_block m i).
  assert (∀ j, 0 <= j < total_blocks_ m → block_at m' j =
    if decide (j ∈ [i]) then mkBlockState false false (last_access_counter (block_at m j))
    else block_at m j) as Hb.
  { intros j Hj. unfold block_at, m'; simpl.
    rewrite lookup_total_alter_Z by (rewrite ?(wf_length _ Hwf); lia).
    destruct (decide (i = j)), (decide (j ∈ [i])); set_solver. }
  assert (allocated_set m' = allocated_set m ∖ {[i]}) as Ha.
  { rewrite (allocated_set_update m m' [i] false); [set_solver|done|set_solver|].
    intros j Hj. rewrite Hb by done. by case_decide. }
  assert (locked_set m' = locked_set m ∖ {[i]}) as Hl.
  { rewrite (locked_set_update m m' [i] false); [set_solver|done|set_solver|].
    intros j Hj. rewrite Hb by done. by case_decide. }
  split; [|done]. split; simpl; try apply Hwf.
  - rewrite length_alter. apply Hwf.
  - rewrite Ha, (wf_num_free _ Hwf). pose proof (elem_of_allocated_set m i) as Hin.
    destruct (is_allocated (block_at m i)).
    + rewrite size_difference by set_solver. rewrite size_singleton.
      assert ({[i]} ⊆ allocated_set m) as Hs%subseteq_size by set_solver.
      rewrite size_singleton in Hs. lia.
    + replace (allocated_set m ∖ {[i]}) with (allocated_set m); [done|]. set_solver.
  - rewrite Ha, Hl. pose proof (wf_locked _ Hwf). set_solver.
Qed.

Lemma deallocate_blocks_views ids m :
  wf m → (∀ i, i ∈ ids → 0 <= i < total_blocks_ m) →
  wf (foldl deallocate_block m ids) ∧
  total_blocks_ (foldl deallocate_block m ids) = total_blocks_ m ∧
  allocated_set (foldl deallocate_block m ids) = allocated_set m ∖ list_to_set ids ∧
  locked_set (foldl deallocate_block m ids) = locked_set m ∖ list_to_set ids.
Proof.
  revert m; induction ids as [|i ids IH]; intros m Hwf Hr; simpl; [set_solver|].
  destruct (deallocate_block_views m i Hwf) as (Hwf' & Ht & Ha & Hl); [apply Hr; set_solver|].
  destruct (IH (deallocate_block m i) Hwf') as (? & Ht' & Ha' & Hl').
  { intros j Hj. rewrite Ht. apply Hr. set_solver. }
  split; [done|]. rewrite Ha', Hl', Ht', Ha, Hl, Ht. split; [done|set_solver].
Qed.
End other_ops.

Section more_ops.
Implicit Types (m : LogicalBlockManager) (i n : Z) (ids : list Z).

Lemma AllocateTarget_views m ids m' :
  wf m → AllocateTarget ids m = (OkStatus, m') →
  NoDup ids ∧ (∀ i, i ∈ ids → 0 <= i < total_blocks_ m ∧ i ∉ allocated_set m) ∧
  wf m' ∧ allocated_set m' = allocated_set m ∪ list_to_set ids ∧
  locked_set m' = locked_set m ∪ list_to_set ids ∧
  num_free_ m' = num_free_ m - Z.of_nat (length ids).
Proof.
  unfold AllocateTarget. intros Hwf HA.
  destruct (validate_target _ _ _) as [[]|] eqn:Hv; [|done]. simplify_eq.
  apply validate_target_ok in Hv as [Hnd Hr]; [|apply length_replicate].
  set (m' := mkLBM _ _ _ _). set (c := u64 _) in m'.
  assert (∀ i, 0 <= i < total_blocks_ m → block_at m' i =
    if decide (i ∈ ids) then mkBlockState true true c else block_at m i) as Hb.
  { intros i Hi. unfold m', block_at at 1; simpl.
    rewrite lookup_total_update_all; [done|done|rewrite (wf_length _ Hwf); lia|].
    apply Forall_forall. intros j Hj. specialize (Hr j Hj). lia. }
  assert (allocated_set m' = allocated_set m ∪ list_to_set ids) as Ha.
  { apply (allocated_set_update m m' ids true); [done|naive_solver|].
    intros i Hi. rewrite Hb by done. by case_decide. }
  assert (locked_set m' = locked_set m ∪ list_to_set ids) as Hl.
  { apply (locked_set_update m m' ids true); [done|naive_solver|].
    intros i Hi. rewrite Hb by done. by case_decide. }
  split; [done|]. split; [naive_solver|]. split; [|done]. split; simpl; try apply Hwf.
  - rewrite length_update_all. apply Hwf.
  - rewrite Ha, size_union, size_list_to_set_NoDup, (wf_num_free _ Hwf) by set_solver. lia.
  - rewrite Ha, Hl. pose proof (wf_locked _ Hwf). set_solver.
Qed.

Lemma AccessBlock_views m i s m' :
  wf m → AccessBlock i m = (s, m') →
  wf m' ∧ allocated_set m' = allocated_set m ∧ locked_set m' = locked_set m ∧
  num_free_ m' = num_free_ m.
Proof.
  unfold AccessBlock. intros Hwf HA.
  destruct (in_range m i) eqn:Hr; simpl in *; [|by simplify_eq].
  destruct (is_allocated (block_at m i)) eqn:Hal; simpl in *; [|by simplify_eq].
  apply in_range_spec in Hr. simplify_eq. set (m' := mkLBM _ _ _ _).
  assert (∀ j, 0 <= j < total_blocks_ m →
    is_allocated (block_at m' j) = is_allocated (block_at m j) ∧
    is_locked (block_at m' j) = is_locked (block_at m j)) as Hb.
  { intros j Hj. unfold block_at, m'; simpl.
    rewrite lookup_total_alter_Z by (rewrite ?(wf_length _ Hwf); lia). by case_decide. }
  assert (allocated_set m' = allocated_set m) as Ha.
  { rewrite (allocated_set_update m m' [] true); [set_solver|done|set_solver|].
    intros j Hj. rewrite decide_False by set_solver. by apply Hb. }
  assert (locked_set m' = locked_set m) as Hl.
  { rewrite (locked_set_update m m' [] true); [set_solver|done|set_solver|].
    intros j Hj. rewrite decide_False by set_solver. by apply Hb. }
  split; [|done]. split; simpl; rewrite ?length_alter, ?Ha, ?Hl; apply Hwf.
Qed.

Lemma LogicalBlockManager_new_wf n m :
  n <= INT_MAX → LogicalBlockManager_new n = Some m →
  wf m ∧ total_blocks_ m = n ∧ allocated_set m = ∅ ∧ locked_set m = ∅ ∧ access_counter_ m = 0.
Proof.
  unfold LogicalBlockManager_new. intros Hn Hm.
  destruct (Z.ltb_spec n 0); simplify_eq. set (m := mkLBM _ _ _ _).
  assert (∀ i, 0 <= i < n → block_at m i = initial_block) as Hb.
  { intros i Hi. unfold block_at, m; simpl. apply lookup_total_replicate_2. lia. }
  assert (allocated_set m = ∅) as Ha.
  { apply set_eq; intros i. rewrite elem_of_allocated_set. split; [|set_solver].
    intros [Hi H']. rewrite Hb in H' by done. done. }
  assert (locked_set m = ∅) as Hl.
  { apply set_eq; intros i. rewrite elem_of_locked_set. split; [|set_solver].
    intros [Hi H']. rewrite Hb in H' by done. done. }
  split; [|done]. split; simpl.
  - lia.
  - apply length_replicate.
  - rewrite Ha, size_empty. lia.
  - by rewrite Ha, Hl.
Qed.
End more_ops.

(** ** Reachable managers *)

(** The mutating calls, and one step of the manager. *)
Inductive op :=
  | OpAllocate (n : Z) (lock : bool)
  | OpAllocateTarget (ids : list Z)
  | OpUnlock (ids : list Z)
  | OpDeallocate (ids : list Z)
  | OpAccessBlock (i : Z).

Definition step (o : op) (m : LogicalBlockManager) : LogicalBlockManager :=
  match o with
  | OpAllocate n lock => (Allocate n lock m).2
  | OpAllocateTarget ids => (AllocateTarget ids m).2
  | OpUnlock ids => (Unlock ids m).2
  | OpDeallocate ids => (Deallocate ids m).2
  | OpAccessBlock i => (AccessBlock i m).2
  end.

Lemma Allocate_error_state n lock m c m' : Allocate n lock m = (Err c, m') → m' = m.
Proof. intros H. destruct (Allocate_cases n lock m) as [[E _]|[[E _]|(? & E & _)]]; congruence. Qed.

Lemma step_wf o m : wf m → wf (step o m).
Proof.
  intros Hwf. destruct o as [n lock|ids|ids|ids|i]; simpl.
  - destruct (Allocate n lock m) as [[ids|c] m'] eqn:E; simpl.
    + apply (Allocate_views n lock m ids m'); done.
    + by apply Allocate_error_state in E as ->.
  - destruct (AllocateTarget ids m) as [[[]|c] m'] eqn:E; simpl.
    + eapply AllocateTarget_views; eauto.
    + unfold AllocateTarget in E. destruct (validate_target _ _ _); by simplify_eq.
  - destruct (Unlock ids m) as [[[]|c] m'] eqn:E; simpl.
    + eapply Unlock_views; eauto.
    + unfold Unlock in E. destruct (validate_allocated _ _); by simplify_eq.
  - unfold Deallocate. destruct (validate_allocated m ids) as [[]|] eqn:Hv; simpl; [|done].
    apply validate_allocated_ok in Hv. apply deallocate_blocks_views; [done|].
    intros i. by apply allocated_ids_in_range.
  - destruct (AccessBlock i m) as [s m'] eqn:E. eapply AccessBlock_views; eauto.
Qed.

Lemma foldl_count_spec {A} (p : A → bool) (bs : list A) (c : Z) :
  foldl (λ count b, if p b then count + 1 else count) c bs
  = c + Z.of_nat (length (filter (λ b, p b = true) bs)).
Proof.
  revert c; induction bs as [|b bs IH]; intros c; simpl; [lia|].
  rewrite IH, filter_cons. destruct (p b); rewrite ?decide_True, ?decide_False by done; simpl; lia.
Qed.

(** Recency stamps: no block's stamp is ahead of the global counter.  The
    counter is a [uint64_t]; the lemmas hold until it wraps. *)
Definition stamps_ok (m : LogicalBlockManager) : Prop :=
  0 <= access_counter_ m ∧
  Forall (λ b, last_access_counter b <= access_counter_ m) (blocks_ m).

Lemma stamps_ok_at m i :
  stamps_ok m → 0 <= i < Z.of_nat (length (blocks_ m)) →
  last_access_counter (block_at m i) <= access_counter_ m.
Proof.
  intros [_ HF] Hi. rewrite Forall_lookup in HF. unfold block_at.
  rewrite list_lookup_total_alt.
  destruct (lookup_lt_is_Some_2 (blocks_ m) (Z.to_nat i)) as [b E]; [lia|]. rewrite E.
  by apply (HF _ _ E).
Qed.

Lemma step_stamps o m :
  stamps_ok m → access_counter_ m + 1 < 2 ^ 64 →
  stamps_ok (step o m) ∧ access_counter_ (step o m) <= access_counter_ m + 1.
Proof.
  intros [H0 HF] Hw.
  assert (u64 (access_counter_ m + 1) = access_counter_ m + 1) as Hu by (apply u64_small; lia).
  assert (Forall (λ b, last_access_counter b <= access_counter_ m + 1) (blocks_ m)) as HF'.
  { eapply Forall_impl; [exact HF|]. simpl. lia. }
  destruct o as [n lock|ids|ids|ids|i]; simpl.
  - unfold Allocate. repeat case_match; simpl; try (split; [done|lia]); rewrite Hu;
      (split; [split; simpl; [lia|]|simpl; lia]);
      (apply Forall_update_all; [simpl; lia|]); [by apply Forall_update_all|done].
  - unfold AllocateTarget. case_match; simpl; [|split; [done|lia]]. rewrite Hu.
    split; [split; simpl; [lia|]|simpl; lia]. apply Forall_update_all; [simpl; lia|done].
  - unfold Unlock. case_match; simpl; [|split; [done|lia]].
    split; [split; simpl; [lia|]|simpl; lia]. by apply Forall_update_all.
  - unfold Deallocate. case_match; simpl; [|split; [done|lia]].
    enough (∀ m1, stamps_ok m1 → stamps_ok (foldl deallocate_block m1 ids) ∧
      access_counter_ (foldl deallocate_block m1 ids) = access_counter_ m1) as Hen.
    { destruct (Hen m) as [? Heq]; [done|]. rewrite Heq. split; [done|lia]. }
    clear. induction ids as [|i ids IH]; intros m1 Hm1; simpl; [done|].
    destruct (IH (deallocate_block m1 i)) as [? Heq]; [|by rewrite Heq].
    destruct Hm1. split; simpl; [done|]. by apply Forall_alter_id.
  - unfold AccessBlock. repeat case_match; simpl; try (split; [done|lia]). rewrite Hu.
    split; [split; simpl; [lia|]|simpl; lia]. apply Forall_alter_id; [simpl; lia|done].
Qed.

Lemma run_wf n m0 ops :
  n <= INT_MAX → LogicalBlockManager_new n = Some m0 → wf (foldl (λ m o, step o m) m0 ops).
Proof.
  intros Hn Hnew. apply LogicalBlockManager_new_wf in Hnew as [Hwf0 _]; [|done]. clear Hn.
  revert m0 Hwf0. induction ops as [|o ops IH]; intros m0 Hwf0; simpl; [done|].
  by apply IH, step_wf.
Qed.

Lemma run_stamps n m0 ops :
  n <= INT_MAX → LogicalBlockManager_new n = Some m0 → Z.of_nat (length ops) < 2 ^ 64 →
  let m := foldl (λ m o, step o m) m0 ops in
  wf m ∧ stamps_ok m ∧ access_counter_ m <= Z.of_nat (length ops).
Proof.
  intros Hn Hnew Hlen m. split; [by eapply run_wf|]. subst m.
  induction ops as [|o ops IH] using rev_ind; simpl.
  - unfold LogicalBlockManager_new in Hnew. destruct (Z.ltb_spec n 0); simplify_eq/=.
    split; [|lia]. split; simpl; [lia|]. apply Forall_replicate. simpl. lia.
  - rewrite length_app in Hlen |- *. simpl in Hlen |- *. destruct IH as [Hst Hc]; [lia|].
    rewrite foldl_app; simpl. destruct (step_stamps o _ Hst) as [Hst' Hc']; [lia|].
    split; [done|lia].
Qed.

(** After a successful access the block carries a strictly larger stamp than
    every other block. *)
Lemma AccessBlock_stamp m i m1 :
  wf m → stamps_ok m → access_counter_ m + 1 < 2 ^ 64 →
  AccessBlock i m = (OkStatus, m1) →
  i ∈ allocated_set m ∧
  ∀ j, 0 <= j < total_blocks_ m1 → i ≠ j →
    last_access_counter (block_at m1 j) < last_access_counter (block_at m1 i).
Proof.
  unfold AccessBlock. intros Hwf Hst Hw HA.
  destruct (in_range m i) eqn:Hr; simpl in *; [|done].
  destruct (is_allocated (block_at m i)) eqn:Hal; simpl in *; [|done].
  apply in_range_spec in Hr. simplify_eq. split; [by apply elem_of_allocated_set|].
  intros j Hj Hne. simpl in Hj. pose proof Hst as [H0 _].
  pose proof (stamps_ok_at m j Hst) as Hjs. rewrite (wf_length _ Hwf) in Hjs.
  unfold block_at in *; simpl.
  rewrite !lookup_total_alter_Z by (rewrite ?(wf_length _ Hwf); lia).
  rewrite decide_False by done. rewrite decide_True by done. simpl.
  rewrite u64_small by lia. lia.
Qed.

Lemma length_filter_block_at m (p : BlockState → bool) :
  wf m →
  length (filter (λ i, p (block_at m i) = true) (seqZ 0 (total_blocks_ m)))
  = length (filter (λ b, p b = true) (blocks_ m)).
Proof.
  intros Hwf. transitivity (length (filter (λ b, p b = true)
    (block_at m <$> seqZ 0 (total_blocks_ m)))).
  - induction (seqZ 0 (total_blocks_ m)) as [|i l IH]; [done|].
    rewrite fmap_cons, !filter_cons. by repeat case_decide; simpl; rewrite ?IH.
  - do 2 f_equal. apply list_eq; intros j. rewrite list_lookup_fmap.
    pose proof (wf_length _ Hwf). pose proof (wf_total _ Hwf).
    destruct (decide (j < length (blocks_ m))%nat) as [Hj|Hj].
    + rewrite lookup_seqZ_lt by lia. simpl. unfold block_at.
      rewrite list_lookup_total_alt. replace (Z.to_nat (0 + Z.of_nat j)) with j by lia.
      by destruct (lookup_lt_is_Some_2 (blocks_ m) j Hj) as [b ->].
    + rewrite lookup_seqZ_ge by lia. by rewrite lookup_ge_None_2 by lia.
Qed.

Lemma Allocate_eviction_order (m : LogicalBlockManager) (n : Z) (lock : bool)
    (ids : list Z) (m' : LogicalBlockManager) (i : Z)
    (Hwf : wf m) (HA : Allocate n lock m = (Ok ids, m'))
    (Hi : i ∈ ids) (Hev : i ∈ allocated_set m) :
  (∀ k, 0 <= k < total_blocks_ m → k ∉ allocated_set m → k ∈ ids) ∧
  (∀ j, j ∈ allocated_set m → j ∉ locked_set m → j ∉ ids →
        lru_le m i j ∧ ¬ lru_le m j i).
Proof.
  pose proof (Allocate_views n lock m ids m' Hwf HA) as (Hn & -> & _).
  unfold allocation in *. set (free := free_block_ids m) in *.
  set (k0 := Z.min (Z.of_nat (length free)) n) in *.
  set (sorted := merge_sort (lru_le m) (evictable_block_ids m)) in *.
  assert (i ∉ free) as Hnf by (unfold free; rewrite elem_of_free_block_ids; naive_solver).
  apply elem_of_app in Hi as [Hi|Hi]; [by apply subseteq_take in Hi|].
  assert (k0 = Z.of_nat (length free)) as Hk0.
  { destruct (decide (k0 = n)) as [Heq|]; [|lia].
    rewrite Heq, Z.sub_diag in Hi. simpl in Hi. set_solver. }
  split.
  - intros k Hk Hka. apply elem_of_app. left. rewrite take_ge by lia.
    by apply elem_of_free_block_ids.
  - intros j Hj Hjl Hjn.
    assert (j ∈ drop (Z.to_nat (n - k0)) sorted) as Hjd.
    { assert (j ∈ sorted) as Hjs.
      { unfold sorted. rewrite merge_sort_Permutation. by apply elem_of_evictable_block_ids. }
      rewrite <- (take_drop (Z.to_nat (n - k0)) sorted), elem_of_app in Hjs.
      destruct Hjs; [|done]. set_solver. }
    assert (StronglySorted (lru_le m) sorted) as Hs.
    { apply Sorted_StronglySorted; [apply lru_le_trans|].
      apply Sorted_merge_sort. apply lru_le_total. }
    rewrite <- (take_drop (Z.to_nat (n - k0)) sorted) in Hs.
    assert (lru_le m i j) as Hle by (by eapply StronglySorted_app_1_elem_of).
    split; [done|]. intros Hle'. assert (i = j) as -> by (unfold lru_le in *; lia).
    set_solver.
Qed.


(** ** Specifications *)

(** on a well-formed pool and a request between 1 and the pool size,
    [Allocate] succeeds exactly when enough blocks are not locked; it then
    returns that many distinct in-range ids, none of them locked before, marks
    them allocated (and locked when asked), keeps every other block's flags and
    lowers the free counter by the free blocks it used.  It fails only with
    RESOURCE_EXHAUSTED, and then changes nothing. *)
Theorem Allocate_spec (m : LogicalBlockManager) (n : Z) (lock : bool)
    (Hwf : wf m) (Hn : 0 < n <= total_blocks_ m) :
  match Allocate n lock m with
  | (Ok ids, m') =>
      n <= total_blocks_ m - Z.of_nat (size (locked_set m)) ∧
      NoDup ids ∧ Z.of_nat (length ids) = n ∧
      (∀ i, i ∈ ids → 0 <= i < total_blocks_ m ∧ i ∉ locked_set m) ∧
      allocated_set m' = allocated_set m ∪ list_to_set ids ∧
      locked_set m' = (if lock then locked_set m ∪ list_to_set ids else locked_set m) ∧
      num_free_ m' = Z.max 0 (num_free_ m - n) ∧ wf m'
  | (Err c, m') =>
      c = kResourceExhausted ∧ m' = m ∧
      total_blocks_ m - Z.of_nat (size (locked_set m)) < n
  end.
Proof.
  pose proof (length_available m Hwf) as Havail.
  destruct (Allocate_cases n lock m)
    as [[E ?]|[[E (_ & Hlt)]|(m' & E & _ & Hle & _ & _ & Hnf & _ & _)]]; rewrite E.
  - lia.
  - rewrite Havail in Hlt. done.
  - pose proof (Allocate_views n lock m _ m' Hwf E) as (_ & _ & Ha & Hl & Hwf').
    split; [lia|]. split; [apply NoDup_allocation|]. split; [apply length_allocation; lia|].
    split; [|split; [done|split; [done|split; [|done]]]].
    + intros i Hi. split; [apply (elem_of_allocation _ _ _ Hi)|by eapply allocation_not_locked].
    + rewrite Hnf. rewrite (length_free_block_ids m Hwf).
      pose proof (num_free_bounds m Hwf). lia.
Qed.

(** [Allocate] evicts only when it must and evicts least recently used
    first: if some returned id was allocated before, every free block of the
    pool was returned too, and every allocated unlocked block it spared has a
    larger (last_access_counter, id) than the evicted one. *)
Theorem Allocate_evicts_lru (m : LogicalBlockManager) (n : Z) (lock : bool)
    (ids : list Z) (m' : LogicalBlockManager) (i : Z)
    (Hwf : wf m) (HA : Allocate n lock m = (Ok ids, m'))
    (Hi : i ∈ ids) (Hev : i ∈ allocated_set m) :
  (∀ k, 0 <= k < total_blocks_ m → k ∉ allocated_set m → k ∈ ids) ∧
  (∀ j, j ∈ allocated_set m → j ∉ locked_set m → j ∉ ids →
        lru_le m i j ∧ ¬ lru_le m j i).
Proof. by eapply Allocate_eviction_order. Qed.

(** [AllocateTarget] succeeds exactly when the ids are distinct, in range
    and unallocated; it then locks exactly those blocks and nothing else, and
    otherwise changes nothing. *)
Theorem AllocateTarget_spec (m : LogicalBlockManager) (ids : list Z) (Hwf : wf m) :
  let valid := NoDup ids ∧ ∀ i, i ∈ ids → 0 <= i < total_blocks_ m ∧ i ∉ allocated_set m in
  match AllocateTarget ids m with
  | (Ok _, m') =>
      valid ∧ wf m' ∧ allocated_set m' = allocated_set m ∪ list_to_set ids ∧
      locked_set m' = locked_set m ∪ list_to_set ids ∧
      num_free_ m' = num_free_ m - Z.of_nat (length ids)
  | (Err _, m') => ¬ valid ∧ m' = m
  end.
Proof.
  intros valid. destruct (AllocateTarget ids m) as [[[]|c] m'] eqn:E.
  - pose proof (AllocateTarget_views m ids m' Hwf E). unfold valid. tauto.
  - unfold AllocateTarget in E.
    destruct (validate_target m _ ids) as [[]|c'] eqn:Hv; simplify_eq. split; [|done].
    intros [Hnd Hr]. rewrite (proj2 (validate_target_ok m' _ ids (length_replicate _ _))) in Hv;
      [done|]. split; [done|].
    intros i Hi. destruct (Hr i Hi). repeat split; [lia|lia|done|].
    apply lookup_total_replicate_2. lia.
Qed.

(** [Deallocate] and [Unlock] accept a batch exactly when all its ids are
    allocated, duplicates included; [Deallocate] then frees each block once (the
    free counter grows by the number of distinct ids) and clears its lock,
    [Unlock] only clears locks; a rejected batch changes nothing. *)
Theorem Deallocate_Unlock_spec (m : LogicalBlockManager) (ids : list Z) (Hwf : wf m) :
  (if decide (list_to_set ids ⊆ allocated_set m) then
     ∃ m' m'', Deallocate ids m = (OkStatus, m') ∧ Unlock ids m = (OkStatus, m'') ∧
       wf m' ∧ allocated_set m' = allocated_set m ∖ list_to_set ids ∧
       locked_set m' = locked_set m ∖ list_to_set ids ∧
       num_free_ m' = num_free_ m + Z.of_nat (size (list_to_set ids : gset Z)) ∧
       wf m'' ∧ allocated_set m'' = allocated_set m ∧
       locked_set m'' = locked_set m ∖ list_to_set ids
   else Deallocate ids m = (Err kInvalidArgument, m) ∧ Unlock ids m = (Err kInvalidArgument, m)).
Proof.
  case_decide as Hs.
  - pose proof Hs as Hv. apply validate_allocated_ok in Hv.
    destruct (Unlock ids m) as [s m''] eqn:EU.
    assert (s = OkStatus) as -> by (unfold Unlock in EU; rewrite Hv in EU; congruence).
    destruct (Unlock_views m ids m'' Hwf EU) as (_ & ? & ? & ?).
    destruct (deallocate_blocks_views ids m Hwf) as (Hwf' & Ht & Ha & Hl).
    { intros i. by apply allocated_ids_in_range. }
    unfold Deallocate. rewrite Hv. do 2 eexists. repeat (split; [done|]). split; [|done].
    rewrite (wf_num_free _ Hwf'), (wf_num_free _ Hwf), Ht, Ha, size_difference by done.
    pose proof (subseteq_size _ _ Hs). lia.
  - unfold Deallocate, Unlock. destruct (validate_allocated m ids) as [[]|c] eqn:Hv.
    { by apply validate_allocated_ok in Hv. }
    assert (c = kInvalidArgument) as ->; [|done].
    clear Hs. induction ids as [|i ids IH]; simpl in Hv; [done|]. repeat case_match; simplify_eq; auto.
Qed.

(** every manager reachable from the constructor by any sequence of calls is
    well formed: the free counter, the two counting scans and the flags agree,
    and only allocated blocks are locked. *)
Theorem reachable_wf (n : Z) (m0 : LogicalBlockManager) (ops : list op)
    (Hn : n <= INT_MAX) (Hnew : LogicalBlockManager_new n = Some m0) :
  let m := foldl (λ m o, step o m) m0 ops in
  wf m ∧ num_free_blocks m + num_allocated_blocks m = total_blocks_ m ∧
  num_locked_blocks m <= num_allocated_blocks m.
Proof.
  intros m. assert (wf m) as Hwf.
  { by eapply run_wf. }
  split; [done|].
  assert (num_allocated_blocks m = Z.of_nat (size (allocated_set m))) as ->.
  { unfold num_allocated_blocks. rewrite foldl_count_spec.
    unfold allocated_set. rewrite size_list_to_set by apply NoDup_filter, NoDup_seqZ.
    by rewrite (length_filter_block_at m is_allocated Hwf). }
  assert (num_locked_blocks m = Z.of_nat (size (locked_set m))) as ->.
  { unfold num_locked_blocks. rewrite foldl_count_spec.
    unfold locked_set. rewrite size_list_to_set by apply NoDup_filter, NoDup_seqZ.
    by rewrite (length_filter_block_at m is_locked Hwf). }
  unfold num_free_blocks. rewrite (wf_num_free _ Hwf).
  pose proof (subseteq_size _ _ (wf_locked _ Hwf)). lia.
Qed.

(** an access protects a block from eviction: in any manager reached by
    fewer than 2^64 - 2 calls, after a successful [AccessBlock(i)] an [Allocate]
    returns [i] only if it also returns every other unlocked allocated block. *)
Theorem AccessBlock_protects (total : Z) (m0 : LogicalBlockManager) (ops : list op)
    (i n : Z) (lock : bool) (ids : list Z) (m1 m2 : LogicalBlockManager)
    (Htotal : total <= INT_MAX) (Hnew : LogicalBlockManager_new total = Some m0)
    (Hlen : Z.of_nat (length ops) + 1 < 2 ^ 64)
    (Hacc : AccessBlock i (foldl (λ m o, step o m) m0 ops) = (OkStatus, m1))
    (HA : Allocate n lock m1 = (Ok ids, m2)) (Hi : i ∈ ids) :
  ∀ j, j ∈ allocated_set m1 → j ∉ locked_set m1 → j ∈ ids.
Proof.
  destruct (run_stamps total m0 ops) as (Hwf & Hst & Hc); [done|done|lia|].
  set (m := foldl _ m0 ops) in *.
  destruct (AccessBlock_views m i OkStatus m1) as (Hwf1 & Heq & _ & _); [done|done|].
  destruct (AccessBlock_stamp m i m1) as (Hia & Hstamp); [done|done|lia|done|].
  intros j Hj Hjl. destruct (decide (j ∈ ids)) as [|Hjn]; [done|exfalso].
  destruct (Allocate_eviction_order m1 n lock ids m2 i) as [_ Hord];
    [done..|by rewrite Heq|].
  destruct (Hord j Hj Hjl Hjn) as [Hle _]. apply elem_of_allocated_set in Hj as [Hj _].
  assert (i ≠ j) by set_solver. specialize (Hstamp j Hj ltac:(done)).
  unfold lru_le in Hle. lia.
Qed.

(** ** The manager implements the [BlockPool] contract *)
#[export] Instance LogicalBlockManager_pool_ops : BlockPoolOps LogicalBlockManager := {
  pool_total_blocks := total_blocks_;
  pool_num_free_blocks := num_free_blocks;
  pool_Allocate := Allocate;
  pool_Unlock := Unlock;
  pool_Deallocate := Deallocate;
  pool_wf := wf;
  pool_allocated := allocated_set;
  pool_locked := locked_set;
}.

Lemma Allocate_free_fresh n lock m :
  wf m → 0 < n <= num_free_ m →
  ∃ ids m', Allocate n lock m = (Ok ids, m') ∧ list_to_set ids ## allocated_set m.
Proof.
  intros Hwf Hn. pose proof (num_free_bounds m Hwf). pose proof (length_free_block_ids m Hwf).
  destruct (Allocate_cases n lock m) as [[_ ?]|[[_ (_ & Hlt)]|(m' & E & _)]]; [lia|lia|].
  do 2 eexists. split; [exact E|]. unfold allocation. rewrite Z.min_r by lia.
  rewrite Z.sub_diag, take_0, app_nil_r. intros i Hi. rewrite elem_of_list_to_set in Hi.
  apply subseteq_take in Hi. rewrite elem_of_free_block_ids in Hi. tauto.
Qed.

Lemma Allocate_exhausted n lock m :
  wf m → 0 < n <= total_blocks_ m →
  total_blocks_ m - Z.of_nat (size (locked_set m)) < n →
  Allocate n lock m = (Err kResourceExhausted, m).
Proof.
  intros Hwf Hn Hlt. pose proof (length_available m Hwf).
  destruct (Allocate_cases n lock m) as [[_ ?]|[[E _]|(m' & E & _ & ? & _)]]; [lia|done|lia].
Qed.

#[export] Instance LogicalBlockManager_pool : BlockPool LogicalBlockManager.
Proof.
  split; simpl.
  - intros p. apply wf_num_free.
  - intros p. apply wf_total.
  - intros p. apply allocated_set_size.
  - intros p. apply wf_locked.
  - intros n p ids p' Hwf HA.
    destruct (Allocate_cases n true p) as [[E _]|[[E _]|(m' & E & Hn & Hle & Ht & _)]];
      rewrite E in HA; simplify_eq.
    pose proof (Allocate_views n true p _ p' Hwf E) as (_ & _ & Ha & Hl & Hwf').
    split; [done|]. split; [done|]. split; [apply NoDup_allocation|].
    split; [apply length_allocation; lia|]. split; [lia|]. split; [|done].
    intros i Hi. rewrite elem_of_list_to_set in Hi. by eapply allocation_not_locked.
  - intros n p c p'. apply Allocate_error_state.
  - intros n p. apply Allocate_free_fresh.
  - intros n p. apply Allocate_exhausted.
  - intros ids p Hwf Hs. pose proof Hs as Hv. apply validate_allocated_ok in Hv.
    assert (∃ p', Unlock ids p = (OkStatus, p')) as [p' E].
    { unfold Unlock. rewrite Hv. eauto. }
    destruct (Unlock_views p ids p' Hwf E) as (_ & ? & ? & ?). exists p'.
    repeat (split; [done|]). split; [|done].
    unfold Unlock in E. rewrite Hv in E. by simplify_eq.
  - intros ids p Hwf Hs. pose proof Hs as Hv. apply validate_allocated_ok in Hv.
    destruct (deallocate_blocks_views ids p Hwf) as (? & ? & ? & ?).
    { intros i. by apply allocated_ids_in_range. }
    eexists. unfold Deallocate. rewrite Hv. done.
Qed.

(** ** Witnesses *)
Definition pool4 : LogicalBlockManager :=
  mkLBM 4 0 (replicate 4 initial_block) 4.

Lemma pool4_new : LogicalBlockManager_new 4 = Some pool4.
Proof. reflexivity. Qed.
Lemma pool4_wf : wf pool4.
Proof. apply (LogicalBlockManager_new_wf 4); [unfold INT_MAX; lia|reflexivity]. Qed.
(** Two blocks allocated and unlocked, one locked, one free. *)
Definition pool4_used : LogicalBlockManager :=
  step (OpAllocateTarget [2]) (step (OpAllocate 2 false) pool4).
Lemma pool4_used_wf : wf pool4_used.
Proof. apply step_wf, step_wf, pool4_wf. Qed.

Lemma Allocate_spec_witness :
  wf pool4_used ∧ num_free_ (Allocate 3 true pool4_used).2 = 0 ∧
  (Allocate 4 true pool4_used).1 = Err kResourceExhausted.
Proof.
  split; [apply pool4_used_wf|]. split.
  - pose proof (Allocate_spec pool4_used 3 true pool4_used_wf
      ltac:(vm_compute; split; congruence)) as H.
    destruct (Allocate 3 true pool4_used) as [[ids|c] m'] eqn:E.
    + destruct H as (_ & _ & _ & _ & _ & _ & H & _). exact H.
    + exfalso. vm_compute in E. discriminate.
  - pose proof (Allocate_spec pool4_used 4 true pool4_used_wf
      ltac:(vm_compute; split; congruence)) as H.
    destruct (Allocate 4 true pool4_used) as [[ids|c] m'] eqn:E.
    + exfalso. vm_compute in E. discriminate.
    + destruct H as [-> _]. reflexivity.
Defined.

Lemma Allocate_evicts_lru_witness :
  lru_le pool4_used 0 1 ∧ ¬ lru_le pool4_used 1 0.
Proof.
  apply (Allocate_evicts_lru pool4_used 2 true [3; 0] (Allocate 2 true pool4_used).2 0
           pool4_used_wf).
  - vm_compute. reflexivity.
  - set_solver.
  - apply (bool_decide_unpack _). vm_compute. exact I.
  - apply (bool_decide_unpack _). vm_compute. exact I.
  - apply (bool_decide_unpack _). vm_compute. exact I.
  - set_solver by lia.
Defined.

Lemma AllocateTarget_spec_witness :
  allocated_set (AllocateTarget [1; 3] pool4).2 = allocated_set pool4 ∪ {[1; 3]} ∧
  (AllocateTarget [1; 1] pool4).1 = Err kInvalidArgument.
Proof.
  split; [|reflexivity].
  pose proof (AllocateTarget_spec pool4 [1; 3] pool4_wf) as H. cbv zeta in H.
  destruct (AllocateTarget [1; 3] pool4) as [[u|c] m'] eqn:E.
  - destruct H as (_ & _ & H & _). cbn [snd]. rewrite H. set_solver.
  - exfalso. vm_compute in E. discriminate.
Defined.

Lemma Deallocate_Unlock_spec_witness :
  ∃ m', Deallocate [2; 2; 0] pool4_used = (OkStatus, m') ∧
    num_free_ m' = num_free_ pool4_used + 2.
Proof.
  pose proof (Deallocate_Unlock_spec pool4_used [2; 2; 0] pool4_used_wf) as H.
  rewrite decide_True in H by (apply (bool_decide_unpack _); vm_compute; exact I).
  destruct H as (m' & m'' & E & _ & _ & _ & _ & H & _).
  exists m'. split; [exact E|]. exact H.
Defined.

Lemma reachable_wf_witness :
  wf (foldl (λ m o, step o m) pool4 [OpAllocate 3 true; OpUnlock [1]; OpAllocate 2 false]).
Proof.
  apply (reachable_wf 4 pool4 [OpAllocate 3 true; OpUnlock [1]; OpAllocate 2 false]).
  - vm_compute. congruence.
  - reflexivity.
Defined.

Lemma AccessBlock_protects_witness :
  (Allocate 4 false (AccessBlock 0 (foldl (λ m o, step o m) pool4 [OpAllocate 2 false])).2).1
    = Ok [2; 3; 1; 0] ∧ 1 ∈ [2; 3; 1; 0].
Proof.
  split; [vm_compute; reflexivity|].
  apply (AccessBlock_protects 4 pool4 [OpAllocate 2 false] 0 4 false [2; 3; 1; 0]
    (AccessBlock 0 (foldl (λ m o, step o m) pool4 [OpAllocate 2 false])).2
    (Allocate 4 false (AccessBlock 0 (foldl (λ m o, step o m) pool4 [OpAllocate 2 false])).2).2).
  - vm_compute. congruence.
  - reflexivity.
  - vm_compute. reflexivity.
  - vm_compute. reflexivity.
  - vm_compute. reflexivity.
  - set_solver.
  - apply (bool_decide_unpack _). vm_compute. exact I.
  - apply (bool_decide_unpack _). vm_compute. exact I.
Defined.
