(* ===== verification/LruCache.v ===== *)
(** * LRUCache: the pinning LRU cache of KV blocks
    (src/tpu_sync/kv_cache/lru_cache.h)

    A node lives in exactly one of three [std::list]s: active ([kLru], most
    recently used first), [kPinned], or the queue of eviction candidates
    ([kCandidate], oldest first).  [map_] sends a key to the list iterator of
    its node.  A node's key never changes and [map_] has one node per key, so
    the model names a node by its key: the lists hold keys, and [map_] holds
    the rest of the node.  [splice] moves a name from one list to another and
    leaves the node alone, as the C++ does. *)

From S2P Require Import Prelude RaidenTypes.

Inductive NodeLocation := kLru | kPinned | kCandidate.

#[export] Instance NodeLocation_eq_dec : EqDecision NodeLocation.
Proof. solve_decision. Defined.

(** The template asks whether [Value] has [status] and [host_block_id] members;
    [None] is the type without them. *)
Class HasHostResidency (V : Type) :=
  host_residency : option (V → BlockStatus * Z).

#[export] Instance RaidenBlockId_residency : HasHostResidency RaidenBlockId :=
  Some (λ b, (status b, host_block_id b)).

Record CacheNode (V : Type) := mkNode {
  value : V;
  pin_count : Z;
  location : NodeLocation;
}.
Arguments mkNode {V} _ _ _.
Arguments value {V} _.
Arguments pin_count {V} _.
Arguments location {V} _.

Record LRUCache (K V : Type) `{Countable K} := mkCache {
  capacity_ : nat;
  evictable_host_blocks_ : nat;
  lru_list_ : list K;
  pinned_list_ : list K;
  evict_candidate_list_ : list K;
  map_ : gmap K (CacheNode V);
}.
Arguments mkCache {K V _ _} _ _ _ _ _ _.
Arguments capacity_ {K V _ _} _.
Arguments evictable_host_blocks_ {K V _ _} _.
Arguments lru_list_ {K V _ _} _.
Arguments pinned_list_ {K V _ _} _.
Arguments evict_candidate_list_ {K V _ _} _.
Arguments map_ {K V _ _} _.

Section LRUCache.
Context {K V : Type} `{Countable K} `{HasHostResidency V}.
Implicit Types (c : LRUCache K V) (k key : K) (v : V) (n : CacheNode V).

(** ** Field updates *)
Definition set_map (m : gmap K (CacheNode V)) c : LRUCache K V :=
  mkCache (capacity_ c) (evictable_host_blocks_ c) (lru_list_ c) (pinned_list_ c)
    (evict_candidate_list_ c) m.
Definition set_evictable (e : nat) c : LRUCache K V :=
  mkCache (capacity_ c) e (lru_list_ c) (pinned_list_ c) (evict_candidate_list_ c) (map_ c).
Definition list_of (loc : NodeLocation) c : list K :=
  match loc with
  | kLru => lru_list_ c
  | kPinned => pinned_list_ c
  | kCandidate => evict_candidate_list_ c
  end.
Definition set_list (loc : NodeLocation) (l : list K) c : LRUCache K V :=
  match loc with
  | kLru => mkCache (capacity_ c) (evictable_host_blocks_ c) l (pinned_list_ c)
              (evict_candidate_list_ c) (map_ c)
  | kPinned => mkCache (capacity_ c) (evictable_host_blocks_ c) (lru_list_ c) l
                 (evict_candidate_list_ c) (map_ c)
  | kCandidate => mkCache (capacity_ c) (evictable_host_blocks_ c) (lru_list_ c)
                    (pinned_list_ c) l (map_ c)
  end.

(** [dst.splice(dst.begin(), src, it)] and [dst.splice(dst.end(), src, it)]. *)
Definition splice_begin (dst src : NodeLocation) key c : LRUCache K V :=
  let c := set_list src (remove_key key (list_of src c)) c in
  set_list dst (key :: list_of dst c) c.
Definition splice_end (dst src : NodeLocation) key c : LRUCache K V :=
  let c := set_list src (remove_key key (list_of src c)) c in
  set_list dst (list_of dst c ++ [key]) c.

(** [node_it->location = loc], [node_it->value = v], [node_it->pin_count = p]. *)
Definition set_location (loc : NodeLocation) key c : LRUCache K V :=
  set_map (alter (λ n, mkNode (value n) (pin_count n) loc) key (map_ c)) c.
Definition set_value v key c : LRUCache K V :=
  set_map (alter (λ n, mkNode v (pin_count n) (location n)) key (map_ c)) c.
Definition set_pin_count (p : Z) key c : LRUCache K V :=
  set_map (alter (λ n, mkNode (value n) p (location n)) key (map_ c)) c.

(** ** Construction and inspection *)
Definition LRUCache_new (capacity : nat) : LRUCache K V := mkCache capacity 0 [] [] [] ∅.

Definition cache_size c : nat := size (map_ c).
Definition available_space c : nat :=
  if (length (pinned_list_ c) <? capacity_ c)%nat
  then (capacity_ c - length (pinned_list_ c))%nat else 0%nat.
Definition active_size c : nat := (length (lru_list_ c) + length (pinned_list_ c))%nat.
Definition NumEvictableHostBlocks c : nat := evictable_host_blocks_ c.
Definition cache_empty c : bool := bool_decide (map_ c = ∅).

Definition Contains key c : bool :=
  match map_ c !! key with
  | None => false
  | Some n => negb (bool_decide (location n = kCandidate))
  end.

Definition Clear c : LRUCache K V := mkCache (capacity_ c) 0 [] [] [] ∅.

(** [Peek] / [PeekMutable]: read without promoting, blind to candidates. *)
Definition Peek key c : option V :=
  match map_ c !! key with
  | None => None
  | Some n => if bool_decide (location n = kCandidate) then None else Some (value n)
  end.
Definition PeekIncludingCandidates key c : option V := value <$> map_ c !! key.

Definition GetPinCount key c : Z :=
  match map_ c !! key with None => 0 | Some n => pin_count n end.

Definition GetEvictableKeys (count : nat) c : list K :=
  let keys := take count (evict_candidate_list_ c) in
  if (length keys <? count)%nat
  then keys ++ take (count - length keys) (reverse (lru_list_ c)) else keys.
Definition GetEvictCandidateKeys c : list K := evict_candidate_list_ c.

(** ** Host-residency accounting *)
Definition IsHostResidentValue v : bool :=
  match host_residency with
  | Some f =>
      let '(status, host_block_id) := f v in
      (match status with HOST | HOST_AND_HBM => true | _ => false end)
      && (0 <=? host_block_id)
  | None => false
  end.
Definition OnUnpinnedNodeAdded v c : LRUCache K V :=
  if IsHostResidentValue v then set_evictable (S (evictable_host_blocks_ c)) c else c.
Definition OnUnpinnedNodeRemoved v c : LRUCache K V :=
  if negb (IsHostResidentValue v) then c
  else if (0 <? evictable_host_blocks_ c)%nat
       then set_evictable (evictable_host_blocks_ c - 1) c else c.

(** ** Promotion *)
Definition Promote key c : LRUCache K V :=
  match map_ c !! key with
  | None => c
  | Some n =>
      if 0 <? pin_count n then
        set_location kPinned key (splice_begin kPinned kPinned key c)
      else match location n with
           | kLru => splice_begin kLru kLru key c
           | kCandidate => set_location kLru key (splice_begin kLru kCandidate key c)
           | kPinned => c
           end
  end.
Definition PromoteBack key c : LRUCache K V :=
  match map_ c !! key with
  | None => c
  | Some n =>
      if 0 <? pin_count n then
        set_location kPinned key (splice_end kPinned kPinned key c)
      else match location n with
           | kLru => splice_end kLru kLru key c
           | kCandidate => set_location kLru key (splice_end kLru kCandidate key c)
           | kPinned => c
           end
  end.

(** ** Operations *)

(** [Evict]: the back of [lru_list_] becomes the newest candidate. *)
Definition Evict c : option (K * V) * LRUCache K V :=
  match last (lru_list_ c) with
  | None => (None, c)
  | Some key =>
      let c := set_location kCandidate key c in
      let c := splice_end kCandidate kLru key c in
      ((λ n, (key, value n)) <$> map_ c !! key, c)
  end.

(** Overwrite the value of an existing node, keeping the count right. *)
Definition overwrite_value key n v c : LRUCache K V :=
  let c := if pin_count n =? 0
           then OnUnpinnedNodeAdded v (OnUnpinnedNodeRemoved (value n) c) else c in
  set_value v key c.

Definition emplace_front key v c : LRUCache K V :=
  let c := set_list kLru (key :: lru_list_ c) c in
  let c := OnUnpinnedNodeAdded v c in
  set_map (<[key := mkNode v 0 kLru]> (map_ c)) c.
Definition emplace_back key v c : LRUCache K V :=
  let c := set_list kLru (lru_list_ c ++ [key]) c in
  let c := OnUnpinnedNodeAdded v c in
  set_map (<[key := mkNode v 0 kLru]> (map_ c)) c.

Definition Put key v c : option (K * V) * LRUCache K V :=
  match map_ c !! key with
  | Some n => (None, Promote key (overwrite_value key n v c))
  | None =>
      if (capacity_ c <=? active_size c)%nat then
        match Evict c with
        | (None, c) => (None, c)
        | (Some evicted, c) => (Some evicted, emplace_front key v c)
        end
      else (None, emplace_front key v c)
  end.

Definition PutBack key v c : LRUCache K V :=
  match map_ c !! key with
  | Some n => PromoteBack key (overwrite_value key n v c)
  | None =>
      let c := if (capacity_ c <=? active_size c)%nat then (Evict c).2 else c in
      emplace_back key v c
  end.

Definition UpdateValue key v c : bool * LRUCache K V :=
  match map_ c !! key with
  | None => (false, c)
  | Some n =>
      if bool_decide (location n = kCandidate) then (false, c)
      else (true, overwrite_value key n v c)
  end.

Definition Get key c : option V * LRUCache K V :=
  match map_ c !! key with
  | None => (None, c)
  | Some n => (Some (value n), Promote key c)
  end.

Definition GetAndPin key c : option V * LRUCache K V :=
  match map_ c !! key with
  | None => (None, c)
  | Some n =>
      let c :=
        if pin_count n =? 0 then
          let c := OnUnpinnedNodeRemoved (value n) c in
          let c := match location n with
                   | kLru => splice_begin kPinned kLru key c
                   | kCandidate => splice_begin kPinned kCandidate key c
                   | kPinned => c
                   end in
          set_location kPinned key c
        else c in
      (Some (value n), set_pin_count (i32 (pin_count n + 1)) key c)
  end.
Definition Pin key c : bool * LRUCache K V :=
  let '(r, c) := GetAndPin key c in (bool_decide (is_Some r), c).

Definition Unpin key c : bool * LRUCache K V :=
  match map_ c !! key with
  | None => (false, c)
  | Some n =>
      if 0 <? pin_count n then
        let p := pin_count n - 1 in
        let c := set_pin_count p key c in
        if p =? 0 then
          let c := splice_begin kLru kPinned key c in
          let c := set_location kLru key c in
          (true, OnUnpinnedNodeAdded (value n) c)
        else (true, c)
      else (true, c)
  end.

Definition Erase key c : bool * LRUCache K V :=
  match map_ c !! key with
  | None => (false, c)
  | Some n =>
      if 0 <? pin_count n then (false, c)
      else
        let c := OnUnpinnedNodeRemoved (value n) c in
        let c := match location n with
                 | kLru => set_list kLru (remove_key key (lru_list_ c)) c
                 | kCandidate =>
                     set_list kCandidate (remove_key key (evict_candidate_list_ c)) c
                 | kPinned => c
                 end in
        (true, set_map (delete key (map_ c)) c)
  end.
End LRUCache.

#[global] Arguments splice_begin : simpl never.
#[global] Arguments splice_end : simpl never.
#[global] Arguments set_list : simpl never.
#[global] Arguments IsHostResidentValue : simpl never.

(** ** Projections of the field updates *)
Section projections.
Context {K V : Type} `{Countable K} `{HasHostResidency V}.
Implicit Types (c : LRUCache K V) (k key : K) (v : V) (n : CacheNode V) (loc : NodeLocation).

Lemma list_of_set_map loc m c : list_of loc (set_map m c) = list_of loc c.
Proof. by destruct loc. Qed.
Lemma list_of_set_evictable loc e c : list_of loc (set_evictable e c) = list_of loc c.
Proof. by destruct loc. Qed.
Lemma list_of_set_list loc loc' l c :
  list_of loc (set_list loc' l c) = if decide (loc = loc') then l else list_of loc c.
Proof. by destruct loc, loc'. Qed.
Lemma map_set_list loc l c : map_ (set_list loc l c) = map_ c.
Proof. by destruct loc. Qed.
Lemma evictable_set_list loc l c :
  evictable_host_blocks_ (set_list loc l c) = evictable_host_blocks_ c.
Proof. by destruct loc. Qed.
Lemma capacity_set_list loc l c : capacity_ (set_list loc l c) = capacity_ c.
Proof. by destruct loc. Qed.

Lemma OnUnpinnedNodeAdded_eq v c :
  OnUnpinnedNodeAdded v c =
    set_evictable (evictable_host_blocks_ c + bit (IsHostResidentValue v)) c.
Proof.
  unfold OnUnpinnedNodeAdded. destruct (IsHostResidentValue v); simpl.
  - by rewrite Nat.add_1_r.
  - rewrite Nat.add_0_r. by destruct c.
Qed.
Lemma OnUnpinnedNodeRemoved_eq v c :
  OnUnpinnedNodeRemoved v c =
    set_evictable (evictable_host_blocks_ c - bit (IsHostResidentValue v)) c.
Proof.
  unfold OnUnpinnedNodeRemoved. destruct (IsHostResidentValue v); simpl.
  - destruct (Nat.ltb_spec 0 (evictable_host_blocks_ c)); [done|].
    replace (evictable_host_blocks_ c - 1)%nat with (evictable_host_blocks_ c) by lia.
    by destruct c.
  - rewrite Nat.sub_0_r. by destruct c.
Qed.

Lemma map_splice_begin dst src key c : map_ (splice_begin dst src key c) = map_ c.
Proof. unfold splice_begin. by rewrite !map_set_list. Qed.
Lemma map_splice_end dst src key c : map_ (splice_end dst src key c) = map_ c.
Proof. unfold splice_end. by rewrite !map_set_list. Qed.
Lemma evictable_splice_begin dst src key c :
  evictable_host_blocks_ (splice_begin dst src key c) = evictable_host_blocks_ c.
Proof. unfold splice_begin. by rewrite !evictable_set_list. Qed.
Lemma evictable_splice_end dst src key c :
  evictable_host_blocks_ (splice_end dst src key c) = evictable_host_blocks_ c.
Proof. unfold splice_end. by rewrite !evictable_set_list. Qed.
Lemma capacity_splice_begin dst src key c :
  capacity_ (splice_begin dst src key c) = capacity_ c.
Proof. unfold splice_begin. by rewrite !capacity_set_list. Qed.
Lemma capacity_splice_end dst src key c :
  capacity_ (splice_end dst src key c) = capacity_ c.
Proof. unfold splice_end. by rewrite !capacity_set_list. Qed.
Lemma list_of_splice_begin loc dst src key c :
  list_of loc (splice_begin dst src key c) =
    let l := if decide (loc = src) then remove_key key (list_of src c) else list_of loc c in
    if decide (loc = dst) then key :: l else l.
Proof.
  unfold splice_begin. rewrite !list_of_set_list. by destruct loc, dst, src.
Qed.
Lemma list_of_splice_end loc dst src key c :
  list_of loc (splice_end dst src key c) =
    let l := if decide (loc = src) then remove_key key (list_of src c) else list_of loc c in
    if decide (loc = dst) then l ++ [key] else l.
Proof.
  unfold splice_end. rewrite !list_of_set_list. by destruct loc, dst, src.
Qed.
Lemma alter_Some f key n (m : gmap K (CacheNode V)) :
  m !! key = Some n → alter f key m = <[key := f n]> m.
Proof.
  intros Hk. apply map_eq; intros j. destruct (decide (key = j)) as [->|Hne].
  - by rewrite lookup_alter_eq, lookup_insert_eq, Hk.
  - by rewrite lookup_alter_ne, lookup_insert_ne.
Qed.
End projections.

Create Rewrite HintDb lru.
#[export] Hint Rewrite @list_of_set_map @list_of_set_evictable @map_set_list
  @evictable_set_list @capacity_set_list @map_splice_begin @map_splice_end
  @evictable_splice_begin @evictable_splice_end @capacity_splice_begin
  @capacity_splice_end @OnUnpinnedNodeAdded_eq
  @OnUnpinnedNodeRemoved_eq : lru.

(** ** The invariant *)
Section invariant.
Context {K V : Type} `{Countable K} `{HasHostResidency V}.
Implicit Types (c : LRUCache K V) (k key : K) (v : V) (n : CacheNode V) (loc : NodeLocation).

Definition evictable_node n : bool := (pin_count n =? 0) && IsHostResidentValue (value n).

Definition pins_ok n : Prop := 0 <= pin_count n ∧ (0 < pin_count n ↔ location n = kPinned).

(** Every node is in exactly the list its [location] names, once, and the
    pinned list holds exactly the nodes with a positive pin count. *)
Record wf_nodes c : Prop := {
  wf_nodup loc : NoDup (list_of loc c);
  wf_lists loc k :
    k ∈ list_of loc c ↔ ∃ n, map_ c !! k = Some n ∧ location n = loc;
  wf_pins k n : map_ c !! k = Some n → pins_ok n;
}.

(** The O(1) counter is the number of unpinned host-resident nodes. *)
Definition count_ok c : Prop :=
  evictable_host_blocks_ c = count_map evictable_node (map_ c).

Definition wf c : Prop := wf_nodes c ∧ count_ok c.

(** Moving, replacing or adding the single node [k]. *)
Lemma wf_nodes_set c c' k n :
  wf_nodes c →
  map_ c' = <[k := n]> (map_ c) → pins_ok n →
  (∀ loc, NoDup (list_of loc c')) →
  (∀ loc j, j ∈ list_of loc c' ↔ (j ≠ k ∧ j ∈ list_of loc c) ∨ (j = k ∧ loc = location n)) →
  wf_nodes c'.
Proof.
  intros Hwf Hm Hp Hnd Hel. split; [done| |].
  - intros loc j. rewrite Hel, (wf_lists _ Hwf), Hm. destruct (decide (j = k)) as [->|Hne].
    + rewrite lookup_insert_eq. naive_solver.
    + rewrite lookup_insert_ne by done. naive_solver.
  - intros j n' Hj. rewrite Hm in Hj. destruct (decide (j = k)) as [->|Hne].
    + rewrite lookup_insert_eq in Hj. by simplify_eq.
    + rewrite lookup_insert_ne in Hj by done. by eapply wf_pins.
Qed.

(** A node's name is only in the list of its location. *)
Lemma not_in_other_list c k n loc :
  wf_nodes c → map_ c !! k = Some n → location n ≠ loc → k ∉ list_of loc c.
Proof. intros Hwf Hk Hl Hin. apply (wf_lists _ Hwf) in Hin as (n' & ? & ?). congruence. Qed.

Lemma not_in_list c k loc : wf_nodes c → map_ c !! k = None → k ∉ list_of loc c.
Proof. intros Hwf Hk Hin. apply (wf_lists _ Hwf) in Hin as (n' & ? & ?). congruence. Qed.

Lemma splice_begin_lists c k n dst loc :
  wf_nodes c → map_ c !! k = Some n →
  NoDup (list_of loc (splice_begin dst (location n) k c)) ∧
  ∀ j, j ∈ list_of loc (splice_begin dst (location n) k c) ↔
       (j ≠ k ∧ j ∈ list_of loc c) ∨ (j = k ∧ loc = dst).
Proof.
  intros Hwf Hk. rewrite list_of_splice_begin. pose proof (wf_nodup _ Hwf loc) as Hnd.
  pose proof (not_in_other_list c k n loc Hwf Hk) as Hni. cbv zeta.
  set (l := if decide (loc = location n) then _ else _).
  assert (NoDup l ∧ ∀ j, j ∈ l ↔ j ≠ k ∧ j ∈ list_of loc c) as [Hl1 Hl2].
  { subst l. case_decide as Hloc.
    - subst loc. split; [by apply NoDup_remove_key|]. intros j. apply elem_of_remove_key.
    - split; [done|]. intros j. split; [|tauto]. intros Hj. split; [|done].
      intros ->. by apply Hni. }
  case_decide.
  - split; [apply NoDup_cons; rewrite Hl2; tauto|].
    intros j. rewrite elem_of_cons, Hl2. tauto.
  - split; [done|]. intros j. rewrite Hl2. tauto.
Qed.

Lemma splice_end_lists c k n dst loc :
  wf_nodes c → map_ c !! k = Some n →
  NoDup (list_of loc (splice_end dst (location n) k c)) ∧
  ∀ j, j ∈ list_of loc (splice_end dst (location n) k c) ↔
       (j ≠ k ∧ j ∈ list_of loc c) ∨ (j = k ∧ loc = dst).
Proof.
  intros Hwf Hk. destruct (splice_begin_lists c k n dst loc Hwf Hk) as [Hnd Hel].
  assert (list_of loc (splice_end dst (location n) k c) ≡ₚ
          list_of loc (splice_begin dst (location n) k c)) as Hp.
  { rewrite list_of_splice_begin, list_of_splice_end. cbv zeta.
    case_decide; [|done]. by rewrite Permutation_app_comm. }
  split; [by rewrite Hp|]. intros j. rewrite Hp. apply Hel.
Qed.
End invariant.

(** ** Every operation keeps the invariant *)
Section preservation.
Context {K V : Type} `{Countable K} `{HasHostResidency V}.
Implicit Types (c : LRUCache K V) (k key : K) (v : V) (n : CacheNode V) (loc : NodeLocation).

Lemma count_ok_set c c' k n n' :
  count_ok c → map_ c !! k = Some n → map_ c' = <[k := n']> (map_ c) →
  (evictable_host_blocks_ c' + bit (evictable_node n)
    = evictable_host_blocks_ c + bit (evictable_node n'))%nat →
  count_ok c'.
Proof.
  unfold count_ok. intros Hc Hk Hm He. rewrite Hm.
  pose proof (count_map_insert evictable_node (map_ c) k n n' Hk). lia.
Qed.

Lemma count_ok_ge c k n :
  count_ok c → map_ c !! k = Some n →
  (bit (evictable_node n) <= evictable_host_blocks_ c)%nat.
Proof.
  unfold count_ok. intros -> Hk. rewrite (count_map_delete _ _ _ _ Hk). lia.
Qed.

Lemma evictable_node_unpinned n :
  pin_count n = 0 → evictable_node n = IsHostResidentValue (value n).
Proof. unfold evictable_node. by intros ->. Qed.
Lemma evictable_node_pinned n : 0 < pin_count n → evictable_node n = false.
Proof. unfold evictable_node. intros Hp. destruct (Z.eqb_spec (pin_count n) 0); [lia|done]. Qed.

(** [Promote] and [PromoteBack] move the node to the front (back) of the
    active or the pinned list; a promoted candidate becomes active. *)
Definition promoted n : CacheNode V :=
  mkNode (value n) (pin_count n) (if 0 <? pin_count n then kPinned else kLru).

Lemma promoted_pins n : pins_ok n → pins_ok (promoted n).
Proof.
  unfold pins_ok, promoted; simpl. intros [Hp _]. destruct (Z.ltb_spec 0 (pin_count n)); naive_solver lia.
Qed.

Lemma Promote_eq c key n :
  wf_nodes c → map_ c !! key = Some n →
  map_ (Promote key c) = <[key := promoted n]> (map_ c) ∧
  evictable_host_blocks_ (Promote key c) = evictable_host_blocks_ c ∧
  capacity_ (Promote key c) = capacity_ c ∧
  ∀ loc, list_of loc (Promote key c) =
    list_of loc (splice_begin (location (promoted n)) (location n) key c).
Proof.
  intros Hwf Hk. unfold Promote. rewrite Hk. pose proof (wf_pins _ Hwf _ _ Hk) as [Hp0 Hp].
  unfold promoted. destruct n as [v p loc0]; cbn [value pin_count location] in *.
  destruct (Z.ltb_spec 0 p) as [Hlt|Hge].
  - assert (loc0 = kPinned) as -> by tauto.
    unfold set_location. rewrite map_splice_begin, (alter_Some _ _ _ _ Hk).
    cbn [value pin_count location].
    (split; [done|]); (split; [first [done|apply evictable_splice_begin]|]); (split; [first [done|apply capacity_splice_begin]|]);
    intros loc; apply list_of_set_map.
  - destruct loc0.
    + rewrite evictable_splice_begin, map_splice_begin, capacity_splice_begin.
      split; [|done]. symmetry. by apply insert_id.
    + exfalso. assert (0 < p) by tauto. lia.
    + unfold set_location. rewrite map_splice_begin, (alter_Some _ _ _ _ Hk).
    cbn [value pin_count location].
      (split; [done|]); (split; [first [done|apply evictable_splice_begin]|]); (split; [first [done|apply capacity_splice_begin]|]);
    intros loc; apply list_of_set_map.
Qed.

Lemma PromoteBack_eq c key n :
  wf_nodes c → map_ c !! key = Some n →
  map_ (PromoteBack key c) = <[key := promoted n]> (map_ c) ∧
  evictable_host_blocks_ (PromoteBack key c) = evictable_host_blocks_ c ∧
  capacity_ (PromoteBack key c) = capacity_ c ∧
  ∀ loc, list_of loc (PromoteBack key c) =
    list_of loc (splice_end (location (promoted n)) (location n) key c).
Proof.
  intros Hwf Hk. unfold PromoteBack. rewrite Hk. pose proof (wf_pins _ Hwf _ _ Hk) as [Hp0 Hp].
  unfold promoted. destruct n as [v p loc0]; cbn [value pin_count location] in *.
  destruct (Z.ltb_spec 0 p) as [Hlt|Hge].
  - assert (loc0 = kPinned) as -> by tauto.
    unfold set_location. rewrite map_splice_end, (alter_Some _ _ _ _ Hk).
    cbn [value pin_count location].
    (split; [done|]); (split; [first [done|apply evictable_splice_end]|]); (split; [first [done|apply capacity_splice_end]|]);
    intros loc; apply list_of_set_map.
  - destruct loc0.
    + rewrite evictable_splice_end, map_splice_end, capacity_splice_end.
      split; [|done]. symmetry. by apply insert_id.
    + exfalso. assert (0 < p) by tauto. lia.
    + unfold set_location. rewrite map_splice_end, (alter_Some _ _ _ _ Hk).
    cbn [value pin_count location].
      (split; [done|]); (split; [first [done|apply evictable_splice_end]|]); (split; [first [done|apply capacity_splice_end]|]);
    intros loc; apply list_of_set_map.
Qed.

Lemma Promote_wf c key n : wf c → map_ c !! key = Some n → wf (Promote key c).
Proof.
  intros [Hwf Hc] Hk. destruct (Promote_eq c key n Hwf Hk) as (Hm & He & _ & Hl). split.
  - apply (wf_nodes_set c _ key (promoted n)); [done|done| | |].
    + apply promoted_pins. by eapply wf_pins.
    + intros loc. rewrite Hl. by apply splice_begin_lists.
    + intros loc j. rewrite Hl. by apply splice_begin_lists.
  - apply (count_ok_set c _ key n (promoted n)); [done..|]. by rewrite He.
Qed.

Lemma PromoteBack_wf c key n : wf c → map_ c !! key = Some n → wf (PromoteBack key c).
Proof.
  intros [Hwf Hc] Hk. destruct (PromoteBack_eq c key n Hwf Hk) as (Hm & He & _ & Hl). split.
  - apply (wf_nodes_set c _ key (promoted n)); [done|done| | |].
    + apply promoted_pins. by eapply wf_pins.
    + intros loc. rewrite Hl. by apply splice_end_lists.
    + intros loc j. rewrite Hl. by apply splice_end_lists.
  - apply (count_ok_set c _ key n (promoted n)); [done..|]. by rewrite He.
Qed.

Lemma overwrite_value_eq c key n v :
  map_ c !! key = Some n →
  map_ (overwrite_value key n v c) = <[key := mkNode v (pin_count n) (location n)]> (map_ c) ∧
  (∀ loc, list_of loc (overwrite_value key n v c) = list_of loc c) ∧
  capacity_ (overwrite_value key n v c) = capacity_ c.
Proof.
  intros Hk. unfold overwrite_value. autorewrite with lru. unfold set_value.
  destruct (pin_count n =? 0); simpl; rewrite (alter_Some _ _ _ _ Hk);
    (split; [done|]); (split; [by intros []|done]).
Qed.

Lemma overwrite_value_wf c key n v :
  wf c → map_ c !! key = Some n → wf (overwrite_value key n v c).
Proof.
  intros [Hwf Hc] Hk. destruct (overwrite_value_eq c key n v Hk) as (Hm & Hl & _). split.
  - apply (wf_nodes_set c _ key (mkNode v (pin_count n) (location n))); [done|done| | |].
    + apply (wf_pins _ Hwf _ _ Hk).
    + intros loc. rewrite Hl. apply (wf_nodup _ Hwf).
    + intros loc j. rewrite Hl. simpl. destruct (decide (j = key)) as [->|]; [|tauto].
      rewrite (wf_lists _ Hwf), Hk. naive_solver.
  - apply (count_ok_set c _ key n _ Hc Hk Hm). pose proof (count_ok_ge c key n Hc Hk) as Hge.
    pose proof (wf_pins _ Hwf _ _ Hk) as [Hp _].
    unfold overwrite_value. destruct (Z.eqb_spec (pin_count n) 0) as [Hz|Hz].
    + autorewrite with lru. rewrite (evictable_node_unpinned n Hz) in *.
      rewrite evictable_node_unpinned by done. simpl. lia.
    + rewrite !evictable_node_pinned by (simpl; lia). simpl. lia.
Qed.
End preservation.

Section preservation2.
Context {K V : Type} `{Countable K} `{HasHostResidency V}.
Implicit Types (c : LRUCache K V) (k key : K) (v : V) (n : CacheNode V) (loc : NodeLocation).

Definition relocated loc n : CacheNode V := mkNode (value n) (pin_count n) loc.

(** [Evict] moves the back of the active list to the back of the candidates. *)
Lemma Evict_cases c :
  wf_nodes c →
  (lru_list_ c = [] ∧ Evict c = (None, c)) ∨
  (∃ l key n, lru_list_ c = l ++ [key] ∧ map_ c !! key = Some n ∧
     location n = kLru ∧ pin_count n = 0 ∧
     Evict c = (Some (key, value n),
                mkCache (capacity_ c) (evictable_host_blocks_ c) l (pinned_list_ c)
                  (evict_candidate_list_ c ++ [key])
                  (<[key := relocated kCandidate n]> (map_ c)))).
Proof.
  intros Hwf. unfold Evict.
  destruct (lru_list_ c) as [|x l' _] eqn:Hlru using rev_ind.
  { left. by rewrite ?Hlru. }
  right. rewrite last_snoc. 
  assert (x ∈ list_of kLru c) as Hx by (simpl; rewrite Hlru; set_solver).
  apply (wf_lists _ Hwf) in Hx as (n & Hn & Hloc).
  pose proof (wf_pins _ Hwf _ _ Hn) as [Hp0 Hp]. rewrite Hloc in Hp.
  assert (pin_count n = 0) as Hz.
  { destruct (decide (pin_count n = 0)); [done|]. assert (0 < pin_count n) as Hpos by lia.
    apply Hp in Hpos. done. }
  exists l', x, n. repeat (split; [done|]).
  unfold set_location, splice_end, set_map, set_list; simpl.
  rewrite (alter_Some _ _ _ _ Hn), lookup_insert_eq. simpl. f_equal. f_equal.
  rewrite Hlru. unfold remove_key. rewrite filter_app, filter_cons_False, filter_nil by naive_solver.
  rewrite app_nil_r.
  pose proof (wf_nodup _ Hwf kLru) as Hnd. simpl in Hnd. rewrite Hlru in Hnd.
  apply NoDup_app in Hnd as (_ & Hdisj & _).
  change (remove_key x l' = l'). apply remove_key_notin. set_solver.
Qed.

Lemma Evict_wf c : wf c → wf (Evict c).2.
Proof.
  intros [Hwf Hc].
  destruct (Evict_cases c Hwf) as [[_ ->]|(l & key & n & Hl & Hk & Hloc & Hp & ->)]; [done|].
  simpl. split.
  - apply (wf_nodes_set c _ key (relocated kCandidate n)); [done|done| | |].
    + split; simpl; [lia|]. split; [lia|done].
    + pose proof (wf_nodup _ Hwf kLru) as Hnd. simpl in Hnd. rewrite Hl in Hnd.
      apply NoDup_app in Hnd as (? & _ & _).
      pose proof (wf_nodup _ Hwf kPinned). pose proof (wf_nodup _ Hwf kCandidate).
      intros []; simpl; [done|done|]. apply NoDup_app. split; [done|]. split; [|apply NoDup_singleton].
      intros j Hj ->%list_elem_of_singleton. revert Hj.
      apply (not_in_other_list c key n kCandidate Hwf Hk). by rewrite Hloc.
    + pose proof (wf_nodup _ Hwf kLru) as Hnd. simpl in Hnd. rewrite Hl in Hnd.
      apply NoDup_app in Hnd as (_ & Hdisj & _).
      intros [] j; simpl.
      * rewrite Hl, elem_of_app, list_elem_of_singleton. split; [|naive_solver].
        intros Hj. left. split; [|by left]. intros ->. set_solver.
      * split; [|naive_solver]. intros Hj. left. split; [|done]. intros ->.
        by apply (not_in_other_list c key n kPinned Hwf Hk); [rewrite Hloc|].
      * rewrite elem_of_app, list_elem_of_singleton.
        pose proof (not_in_other_list c key n kCandidate Hwf Hk) as Hni. rewrite Hloc in Hni.
        specialize (Hni ltac:(done)). simpl in Hni.
        split; [|naive_solver]. intros [Hj| ->]; [|by right]. left. split; [|done].
        by intros ->.
  - by apply (count_ok_set c _ key n (relocated kCandidate n)).
Qed.

Lemma Evict_map_dom c key : wf_nodes c → map_ (Evict c).2 !! key = None ↔ map_ c !! key = None.
Proof.
  intros Hwf. destruct (Evict_cases c Hwf) as [[_ ->]|(l & k & n & _ & Hk & _ & _ & ->)]; [done|].
  simpl. destruct (decide (k = key)) as [->|Hne].
  - rewrite lookup_insert_eq, Hk. done.
  - by rewrite lookup_insert_ne.
Qed.

Lemma emplace_wf (front : bool) c key v :
  wf c → map_ c !! key = None →
  wf (if front then emplace_front key v c else emplace_back key v c).
Proof.
  intros [Hwf Hc] Hk. set (c' := if front then _ else _).
  assert (map_ c' = <[key := mkNode v 0 kLru]> (map_ c) ∧
    evictable_host_blocks_ c' = (evictable_host_blocks_ c + bit (IsHostResidentValue v))%nat ∧
    lru_list_ c' ≡ₚ key :: lru_list_ c ∧ pinned_list_ c' = pinned_list_ c ∧
    evict_candidate_list_ c' = evict_candidate_list_ c) as (Hm & He & Hl1 & Hl2 & Hl3).
  { subst c'. destruct front; unfold emplace_front, emplace_back; rewrite OnUnpinnedNodeAdded_eq;
      (repeat split); simpl; try done. by rewrite Permutation_app_comm. }
  pose proof (not_in_list c key kLru Hwf Hk) as Hni. simpl in Hni. split.
  - apply (wf_nodes_set c _ key (mkNode v 0 kLru)); [done|done| | |].
    + split; simpl; [lia|]. split; [lia|done].
    + pose proof (wf_nodup _ Hwf kLru). pose proof (wf_nodup _ Hwf kPinned).
      pose proof (wf_nodup _ Hwf kCandidate). intros []; simpl; [|by rewrite Hl2|by rewrite Hl3].
      rewrite Hl1. by apply NoDup_cons.
    + pose proof (not_in_list c key kPinned Hwf Hk). pose proof (not_in_list c key kCandidate Hwf Hk).
      intros [] j; simpl in *; [rewrite Hl1, elem_of_cons|rewrite Hl2|rewrite Hl3];
        destruct (decide (j = key)) as [->|]; naive_solver.
  - unfold count_ok in *. rewrite Hm, He, (count_map_insert_new _ _ _ _ Hk), Hc. done.
Qed.

Lemma Put_wf key v c : wf c → wf (Put key v c).2.
Proof.
  intros Hwf. unfold Put. destruct (map_ c !! key) as [n|] eqn:Hk; simpl.
  - destruct (overwrite_value_eq c key n v Hk) as (Hm & _).
    eapply Promote_wf; [by apply overwrite_value_wf|].
    rewrite Hm. apply lookup_insert_eq.
  - destruct (_ <=? _)%nat; [|by apply (emplace_wf true)].
    pose proof (Evict_wf c Hwf) as Hwf'. destruct Hwf as [Hwf _].
    pose proof (proj2 (Evict_map_dom c key Hwf) Hk) as Hk'.
    destruct (Evict c) as [[e|] c']; simpl in *; [by apply (emplace_wf true)|done].
Qed.

Lemma PutBack_wf key v c : wf c → wf (PutBack key v c).
Proof.
  intros Hwf. unfold PutBack. destruct (map_ c !! key) as [n|] eqn:Hk; simpl.
  - destruct (overwrite_value_eq c key n v Hk) as (Hm & _).
    eapply PromoteBack_wf; [by apply overwrite_value_wf|].
    rewrite Hm. apply lookup_insert_eq.
  - apply (emplace_wf false).
    + case_match; [by apply Evict_wf|done].
    + case_match; [|done]. by apply Evict_map_dom; [apply Hwf|].
Qed.

Lemma UpdateValue_wf key v c : wf c → wf (UpdateValue key v c).2.
Proof.
  intros Hwf. unfold UpdateValue. destruct (map_ c !! key) as [n|] eqn:Hk; [|done].
  case_match; [done|]. by apply overwrite_value_wf.
Qed.

Lemma Get_wf key c : wf c → wf (Get key c).2.
Proof.
  intros Hwf. unfold Get. destruct (map_ c !! key) as [n|] eqn:Hk; [|done].
  by eapply Promote_wf.
Qed.

Lemma LRUCache_new_wf capacity : wf (LRUCache_new capacity : LRUCache K V).
Proof.
  split; [|by unfold count_ok; simpl; rewrite count_map_empty]. split.
  - intros []; apply NoDup_nil_2.
  - intros loc k. simpl. rewrite lookup_empty. destruct loc; simpl; set_solver.
  - intros k n. simpl. by rewrite lookup_empty.
Qed.
Lemma Clear_wf c : wf (Clear c).
Proof. apply (LRUCache_new_wf (capacity_ c)). Qed.
End preservation2.

Section preservation3.
Context {K V : Type} `{Countable K} `{HasHostResidency V}.
Implicit Types (c : LRUCache K V) (k key : K) (v : V) (n : CacheNode V) (loc : NodeLocation).

(** The effect of [GetAndPin] on the node and the lists, pinned before or not. *)
Lemma GetAndPin_eq c key n :
  wf c → map_ c !! key = Some n → pin_count n < INT_MAX →
  let c' := (GetAndPin key c).2 in
  (GetAndPin key c).1 = Some (value n) ∧
  map_ c' = <[key := mkNode (value n) (pin_count n + 1) kPinned]> (map_ c) ∧
  (evictable_host_blocks_ c' + bit (evictable_node n) = evictable_host_blocks_ c)%nat ∧
  (∀ loc, list_of loc c' =
     if pin_count n =? 0 then list_of loc (splice_begin kPinned (location n) key c)
     else list_of loc c).
Proof.
  intros [Hwf Hc] Hk Hmax c'. subst c'. unfold GetAndPin. rewrite Hk.
  pose proof (wf_pins _ Hwf _ _ Hk) as [Hp0 Hp]. pose proof (count_ok_ge c key n Hc Hk).
  rewrite i32_small by (unfold INT_MAX in Hmax; lia).
  split; [done|]. cbn [snd]. unfold set_pin_count.
  destruct (Z.eqb_spec (pin_count n) 0) as [Hz|Hz].
  - rewrite OnUnpinnedNodeRemoved_eq. rewrite evictable_node_unpinned in * by done.
    destruct (location n) eqn:Hloc; [| exfalso; assert (0 < pin_count n) by tauto; lia|];
      unfold set_location; autorewrite with lru; simpl; autorewrite with lru;
      rewrite (alter_Some _ _ _ _ Hk); rewrite (alter_Some _ key _ _ (lookup_insert_eq _ _ _));
      rewrite insert_insert_eq; simpl;
      (split; [done|]); (split; [lia|]); intros []; reflexivity.
  - rewrite (alter_Some _ _ _ _ Hk). simpl.
    assert (location n = kPinned) as -> by (apply Hp; lia).
    rewrite evictable_node_pinned by lia. split; [done|]. split; [simpl; lia|].
    intros loc. apply list_of_set_map.
Qed.

Lemma GetAndPin_wf key c : wf c → GetPinCount key c < INT_MAX → wf (GetAndPin key c).2.
Proof.
  intros Hwf Hmax. unfold GetPinCount in Hmax.
  destruct (map_ c !! key) as [n|] eqn:Hk; [|by unfold GetAndPin; rewrite Hk].
  destruct (GetAndPin_eq c key n Hwf Hk Hmax) as (_ & Hm & He & Hl).
  set (c' := (GetAndPin key c).2) in *. destruct Hwf as [Hwf Hc].
  pose proof (wf_pins _ Hwf _ _ Hk) as [Hp0 Hp]. split.
  - apply (wf_nodes_set c _ key _ Hwf Hm).
    + split; simpl; [lia|]. split; [done|lia].
    + intros loc. rewrite Hl. case_match; [by apply splice_begin_lists|apply (wf_nodup _ Hwf)].
    + intros loc j. rewrite Hl. simpl.
      destruct (Z.eqb_spec (pin_count n) 0); [by apply splice_begin_lists|].
      destruct (decide (j = key)) as [->|]; [|tauto].
      rewrite (wf_lists _ Hwf), Hk. assert (location n = kPinned) by (apply Hp; lia).
      naive_solver.
  - apply (count_ok_set c _ key n _ Hc Hk Hm).
    rewrite (evictable_node_pinned (mkNode _ _ _)) by (simpl; lia). simpl. lia.
Qed.

Lemma Unpin_eq c key n :
  wf_nodes c → map_ c !! key = Some n → 0 < pin_count n →
  let c' := (Unpin key c).2 in
  let n' := mkNode (value n) (pin_count n - 1)
              (if pin_count n =? 1 then kLru else kPinned) in
  map_ c' = <[key := n']> (map_ c) ∧
  evictable_host_blocks_ c' = (evictable_host_blocks_ c + bit (evictable_node n'))%nat ∧
  (∀ loc, list_of loc c' =
     if pin_count n =? 1 then list_of loc (splice_begin kLru kPinned key c)
     else list_of loc c).
Proof.
  intros Hwf Hk Hpos c' n'. subst c' n'. unfold Unpin. rewrite Hk.
  pose proof (wf_pins _ Hwf _ _ Hk) as [Hp0 Hp].
  rewrite (proj2 (Z.ltb_lt _ _) Hpos). unfold set_pin_count.
  destruct (Z.eqb_spec (pin_count n) 1) as [Hz|Hz].
  - replace (pin_count n - 1 =? 0) with true by (symmetry; apply Z.eqb_eq; lia).
    cbn [snd]. rewrite OnUnpinnedNodeAdded_eq. unfold set_location.
    autorewrite with lru; simpl; autorewrite with lru.
    rewrite (alter_Some _ _ _ _ Hk), (alter_Some _ key _ _ (lookup_insert_eq _ _ _)),
      insert_insert_eq. simpl. rewrite evictable_node_unpinned by (simpl; lia). simpl.
    split; [done|]. split; [done|]. intros []; reflexivity.
  - replace (pin_count n - 1 =? 0) with false by (symmetry; apply Z.eqb_neq; lia).
    cbn [snd]. simpl. rewrite (alter_Some _ _ _ _ Hk).
    rewrite (proj1 Hp Hpos). rewrite evictable_node_pinned by (simpl; lia).
    split; [done|]. split; [simpl; lia|]. intros loc. apply list_of_set_map.
Qed.

Lemma Unpin_wf key c : wf c → wf (Unpin key c).2.
Proof.
  intros [Hwf Hc]. destruct (map_ c !! key) as [n|] eqn:Hk; [|by unfold Unpin; rewrite Hk].
  pose proof (wf_pins _ Hwf _ _ Hk) as [Hp0 Hp].
  destruct (Z.ltb_spec 0 (pin_count n)) as [Hpos|Hneg].
  2: { unfold Unpin. rewrite Hk. rewrite (proj2 (Z.ltb_ge _ _)) by lia. done. }
  destruct (Unpin_eq c key n Hwf Hk Hpos) as (Hm & He & Hl).
  set (c' := (Unpin key c).2) in *. pose proof (proj1 Hp Hpos) as Hloc. split.
  - apply (wf_nodes_set c _ key _ Hwf Hm).
    + split; simpl; [lia|]. destruct (Z.eqb_spec (pin_count n) 1); split; lia || done.
    + intros loc. rewrite Hl. case_match; [|apply (wf_nodup _ Hwf)].
      rewrite <- Hloc. by apply splice_begin_lists.
    + intros loc j. rewrite Hl. simpl. destruct (Z.eqb_spec (pin_count n) 1).
      * rewrite <- Hloc. by apply splice_begin_lists.
      * destruct (decide (j = key)) as [->|]; [|tauto].
        rewrite (wf_lists _ Hwf), Hk. naive_solver.
  - apply (count_ok_set c _ key n _ Hc Hk Hm). rewrite He, (evictable_node_pinned n) by done.
    simpl. lia.
Qed.

Lemma Erase_eq c key n :
  wf_nodes c → map_ c !! key = Some n → pin_count n = 0 →
  let c' := (Erase key c).2 in
  (Erase key c).1 = true ∧ map_ c' = delete key (map_ c) ∧
  evictable_host_blocks_ c' = (evictable_host_blocks_ c - bit (evictable_node n))%nat ∧
  (∀ loc, list_of loc c' = remove_key key (list_of loc c)).
Proof.
  intros Hwf Hk Hz. unfold Erase. rewrite Hk, Hz. simpl.
  pose proof (wf_pins _ Hwf _ _ Hk) as [Hp0 Hp]. rewrite Hz in Hp.
  rewrite OnUnpinnedNodeRemoved_eq, evictable_node_unpinned by done.
  pose proof (λ loc, remove_key_notin key (list_of loc c)) as Hrm.
  pose proof (λ loc, not_in_other_list c key n loc Hwf Hk) as Hni.
  split; [done|].
  destruct (location n) eqn:Hloc; [| exfalso; assert (0 < 0) by tauto; lia|];
    rewrite map_set_list, evictable_set_list; (split; [done|]); (split; [done|]);
    intros []; unfold set_list; simpl; try done; symmetry.
  all: first [apply (Hrm kLru)|apply (Hrm kPinned)|apply (Hrm kCandidate)];
    (apply (Hni kLru) || apply (Hni kPinned) || apply (Hni kCandidate)); done.
Qed.

Lemma Erase_wf key c : wf c → wf (Erase key c).2.
Proof.
  intros [Hwf Hc]. destruct (map_ c !! key) as [n|] eqn:Hk; [|by unfold Erase; rewrite Hk].
  pose proof (wf_pins _ Hwf _ _ Hk) as [Hp0 Hp].
  destruct (Z.ltb_spec 0 (pin_count n)) as [Hpos|Hneg].
  { unfold Erase. rewrite Hk, (proj2 (Z.ltb_lt _ _) Hpos). done. }
  destruct (Erase_eq c key n Hwf Hk) as (_ & Hm & He & Hl); [lia|].
  set (c' := (Erase key c).2) in *. split; [split|].
  - intros loc. rewrite Hl. apply NoDup_remove_key, (wf_nodup _ Hwf).
  - intros loc j. rewrite Hl, elem_of_remove_key, (wf_lists _ Hwf), Hm.
    destruct (decide (j = key)) as [->|Hne].
    + rewrite lookup_delete_eq. naive_solver.
    + rewrite lookup_delete_ne by done. naive_solver.
  - intros j n' Hj. rewrite Hm in Hj. apply lookup_delete_Some in Hj as [_ Hj].
    by eapply wf_pins.
  - unfold count_ok in *. rewrite Hm, He, Hc, (count_map_delete _ _ _ _ Hk). lia.
Qed.
End preservation3.

(** ** Runs of the cache *)
Inductive lru_op (K V : Type) :=
  | OpPut (k : K) (v : V)
  | OpPutBack (k : K) (v : V)
  | OpUpdateValue (k : K) (v : V)
  | OpGet (k : K)
  | OpGetAndPin (k : K)
  | OpUnpin (k : K)
  | OpErase (k : K)
  | OpEvict
  | OpClear.
Arguments OpPut {K V} _ _.
Arguments OpPutBack {K V} _ _.
Arguments OpUpdateValue {K V} _ _.
Arguments OpGet {K V} _.
Arguments OpGetAndPin {K V} _.
Arguments OpUnpin {K V} _.
Arguments OpErase {K V} _.
Arguments OpEvict {K V}.
Arguments OpClear {K V}.

Section runs.
Context {K V : Type} `{Countable K} `{HasHostResidency V}.
Implicit Types (c : LRUCache K V) (k key : K) (v : V) (n : CacheNode V) (o : lru_op K V).

Definition lru_step o c : LRUCache K V :=
  match o with
  | OpPut k v => (Put k v c).2
  | OpPutBack k v => PutBack k v c
  | OpUpdateValue k v => (UpdateValue k v c).2
  | OpGet k => (Get k c).2
  | OpGetAndPin k => (GetAndPin k c).2
  | OpUnpin k => (Unpin k c).2
  | OpErase k => (Erase k c).2
  | OpEvict => (Evict c).2
  | OpClear => Clear c
  end.
Definition lru_run (ops : list (lru_op K V)) c : LRUCache K V :=
  foldl (λ c o, lru_step o c) c ops.

Lemma lru_step_wf o c : wf c → (∀ k, GetPinCount k c < INT_MAX) → wf (lru_step o c).
Proof.
  intros Hwf Hp. destruct o; simpl; auto using Put_wf, PutBack_wf, UpdateValue_wf, Get_wf,
    GetAndPin_wf, Unpin_wf, Erase_wf, Evict_wf, Clear_wf.
Qed.

(** What one call can do to the node of a key: nothing, replace its value,
    move it, change its pin count by one, create or remove it. *)
Lemma Evict_lookup c k :
  wf_nodes c →
  map_ (Evict c).2 !! k = map_ c !! k ∨
  (∃ n, map_ c !! k = Some n ∧ pin_count n = 0 ∧
        map_ (Evict c).2 !! k = Some (relocated kCandidate n)).
Proof.
  intros Hwf. destruct (Evict_cases c Hwf) as [[_ ->]|(l & key & n & _ & Hk & _ & Hp & ->)];
    [by left|]. simpl. destruct (decide (key = k)) as [->|Hne].
  - right. exists n. by rewrite lookup_insert_eq.
  - left. by rewrite lookup_insert_ne.
Qed.

Lemma Put_lookup c key v k :
  wf c →
  map_ (Put key v c).2 !! k = map_ c !! k ∨
  (∃ n, map_ c !! k = Some n ∧ pin_count n = 0 ∧
        map_ (Put key v c).2 !! k = Some (relocated kCandidate n)) ∨
  (k = key ∧ ∃ n', map_ (Put key v c).2 !! k = Some n' ∧ value n' = v ∧
     pin_count n' = GetPinCount key c).
Proof.
  intros Hwf. unfold Put, GetPinCount. destruct (map_ c !! key) as [n|] eqn:Hk.
  - destruct (overwrite_value_eq c key n v Hk) as (Hm & _ & _).
    pose proof (overwrite_value_wf c key n v Hwf Hk) as [Hwf' _].
    destruct (Promote_eq _ key _ Hwf' ltac:(rewrite Hm; apply lookup_insert_eq)) as (Hm' & _).
    cbn [snd]. rewrite Hm', Hm, insert_insert_eq. destruct (decide (k = key)) as [->|Hne].
    + right; right. split; [done|]. eexists. rewrite lookup_insert_eq. done.
    + left. by rewrite lookup_insert_ne.
  - assert (∀ c', map_ c' !! key = None →
      map_ (emplace_front key v c') = <[key := mkNode v 0 kLru]> (map_ c')) as Hem.
    { intros c' _. unfold emplace_front. rewrite OnUnpinnedNodeAdded_eq. done. }
    destruct Hwf as [Hwf _].
    destruct (_ <=? _)%nat.
    + pose proof (Evict_lookup c k Hwf) as Hev. pose proof (Evict_map_dom c key Hwf) as Hd.
      destruct (Evict c) as [[e|] c']; simpl in *; [|naive_solver].
      rewrite Hem by tauto. destruct (decide (k = key)) as [->|Hne].
      * right; right. split; [done|]. eexists. rewrite lookup_insert_eq. done.
      * rewrite lookup_insert_ne by done. naive_solver.
    + cbn [snd]. rewrite Hem by done. destruct (decide (k = key)) as [->|Hne].
      * right; right. split; [done|]. eexists. rewrite lookup_insert_eq. done.
      * left. by rewrite lookup_insert_ne.
Qed.
End runs.

Section node_steps.
Context {K V : Type} `{Countable K} `{HasHostResidency V}.
Implicit Types (c : LRUCache K V) (k key : K) (v : V) (n : CacheNode V) (o : lru_op K V).

Definition writes o k : Prop :=
  match o with
  | OpPut k' _ | OpPutBack k' _ | OpUpdateValue k' _ => k' = k
  | _ => False
  end.

(** The transitions of one key's node: entries appear unpinned, only
    unpinned entries disappear (but for [Clear]), pins drop only by [Unpin]
    of that key, and only the writing calls on that key change its value. *)
Definition node_ok o k (on on' : option (CacheNode V)) : Prop :=
  match on, on' with
  | None, None => True
  | None, Some n' => pin_count n' = 0
  | Some n, None => pin_count n = 0 ∨ o = OpClear
  | Some n, Some n' =>
      pin_count n' <= pin_count n + 1 ∧ (o ≠ OpUnpin k → pin_count n <= pin_count n') ∧
      (writes o k ∨ value n' = value n)
  end.

Lemma node_ok_refl o k on : node_ok o k on on.
Proof. destruct on; simpl; [|done]. split; [lia|]. split; [lia|by right]. Qed.

Lemma node_ok_insert o k key n' (m : gmap K (CacheNode V)) :
  node_ok o key (m !! key) (Some n') → node_ok o k (m !! k) (<[key := n']> m !! k).
Proof.
  intros Hok. destruct (decide (key = k)) as [->|Hne].
  - by rewrite lookup_insert_eq.
  - rewrite lookup_insert_ne by done. apply node_ok_refl.
Qed.

Lemma PutBack_lookup c key v k :
  wf c →
  map_ (PutBack key v c) !! k = map_ c !! k ∨
  (∃ n, map_ c !! k = Some n ∧ pin_count n = 0 ∧
        map_ (PutBack key v c) !! k = Some (relocated kCandidate n)) ∨
  (k = key ∧ ∃ n', map_ (PutBack key v c) !! k = Some n' ∧ value n' = v ∧
     pin_count n' = GetPinCount key c).
Proof.
  intros Hwf. unfold PutBack, GetPinCount. destruct (map_ c !! key) as [n|] eqn:Hk.
  - destruct (overwrite_value_eq c key n v Hk) as (Hm & _ & _).
    pose proof (overwrite_value_wf c key n v Hwf Hk) as [Hwf' _].
    destruct (PromoteBack_eq _ key _ Hwf' ltac:(rewrite Hm; apply lookup_insert_eq)) as (Hm' & _).
    rewrite Hm', Hm, insert_insert_eq. destruct (decide (k = key)) as [->|Hne].
    + right; right. split; [done|]. eexists. rewrite lookup_insert_eq. done.
    + left. by rewrite lookup_insert_ne.
  - destruct Hwf as [Hwf _]. set (c' := if (capacity_ c <=? active_size c)%nat then (Evict c).2 else c).
    assert (map_ (emplace_back key v c') = <[key := mkNode v 0 kLru]> (map_ c')) as ->.
    { unfold emplace_back. by rewrite OnUnpinnedNodeAdded_eq. }
    destruct (decide (k = key)) as [->|Hne].
    + right; right. split; [done|]. eexists. rewrite lookup_insert_eq. done.
    + rewrite lookup_insert_ne by done. subst c'. case_match; [|by left].
      pose proof (Evict_lookup c k Hwf). naive_solver.
Qed.

Lemma lru_step_node o c k :
  wf c → (∀ k, GetPinCount k c < INT_MAX) → node_ok o k (map_ c !! k) (map_ (lru_step o c) !! k).
Proof.
  intros Hwf Hp. pose proof Hwf as [Hwfn _]. destruct o as [k' v|k' v|k' v|k'|k'|k'|k'| |]; simpl.
  - destruct (Put_lookup c k' v k Hwf) as [->|[(n & -> & ? & ->)|(-> & n' & -> & ? & Hpc)]];
      [apply node_ok_refl|simpl; repeat split; auto; lia|].
    unfold GetPinCount in Hpc. destruct (map_ c !! k'); simpl; [|done]. repeat split; auto; lia.
  - destruct (PutBack_lookup c k' v k Hwf) as [->|[(n & -> & ? & ->)|(-> & n' & -> & ? & Hpc)]];
      [apply node_ok_refl|simpl; repeat split; auto; lia|].
    unfold GetPinCount in Hpc. destruct (map_ c !! k'); simpl; [|done]. repeat split; auto; lia.
  - unfold UpdateValue. destruct (map_ c !! k') as [n|] eqn:Hk; [|apply node_ok_refl].
    case_match; [apply node_ok_refl|]. cbn [snd].
    destruct (overwrite_value_eq c k' n v Hk) as (-> & _). apply node_ok_insert.
    rewrite Hk. simpl. repeat split; auto; lia.
  - unfold Get. destruct (map_ c !! k') as [n|] eqn:Hk; [|apply node_ok_refl]. cbn [snd].
    destruct (Promote_eq c k' n Hwfn Hk) as (-> & _). apply node_ok_insert.
    rewrite Hk. simpl. repeat split; auto; lia.
  - destruct (map_ c !! k') as [n|] eqn:Hk;
      [|unfold GetAndPin; rewrite Hk; apply node_ok_refl].
    destruct (GetAndPin_eq c k' n Hwf Hk) as (_ & -> & _).
    { specialize (Hp k'). unfold GetPinCount in Hp. by rewrite Hk in Hp. }
    apply node_ok_insert. rewrite Hk. simpl. repeat split; auto; lia.
  - destruct (map_ c !! k') as [n|] eqn:Hk; [|unfold Unpin; rewrite Hk; apply node_ok_refl].
    destruct (Z.ltb_spec 0 (pin_count n)) as [Hpos|Hneg].
    + destruct (Unpin_eq c k' n Hwfn Hk Hpos) as (-> & _).
      destruct (decide (k' = k)) as [->|Hne].
      * rewrite lookup_insert_eq, Hk. simpl. split; [lia|]. split; [done|by right].
      * rewrite lookup_insert_ne by done. apply node_ok_refl.
    + unfold Unpin. rewrite Hk, (proj2 (Z.ltb_ge _ _)) by lia. apply node_ok_refl.
  - destruct (map_ c !! k') as [n|] eqn:Hk; [|unfold Erase; rewrite Hk; apply node_ok_refl].
    pose proof (wf_pins _ Hwfn _ _ Hk) as [Hp0 _].
    destruct (Z.ltb_spec 0 (pin_count n)) as [Hpos|Hneg].
    { unfold Erase. rewrite Hk, (proj2 (Z.ltb_lt _ _) Hpos). apply node_ok_refl. }
    destruct (Erase_eq c k' n Hwfn Hk) as (_ & -> & _); [lia|].
    destruct (decide (k' = k)) as [->|Hne].
    + rewrite lookup_delete_eq, Hk. simpl. left. lia.
    + rewrite lookup_delete_ne by done. apply node_ok_refl.
  - destruct (Evict_lookup c k Hwfn) as [->|(n & -> & ? & ->)]; [apply node_ok_refl|].
    simpl. repeat split; auto; lia.
  - rewrite lookup_empty. destruct (map_ c !! k); simpl; auto.
Qed.

Lemma lru_run_wf capacity (ops : list (lru_op K V)) :
  Z.of_nat (length ops) < INT_MAX →
  wf (lru_run ops (LRUCache_new capacity)) ∧
  ∀ k, GetPinCount k (lru_run ops (LRUCache_new capacity)) <= Z.of_nat (length ops).
Proof.
  unfold lru_run. induction ops as [|o ops IH] using rev_ind; intros Hlen.
  { split; [apply LRUCache_new_wf|]. intros k. unfold GetPinCount; simpl. rewrite lookup_empty. lia. }
  rewrite length_app in Hlen |- *. simpl in Hlen |- *. destruct IH as [Hwf Hb]; [lia|].
  rewrite foldl_app. simpl. set (c := foldl _ _ ops) in *.
  assert (∀ k, GetPinCount k c < INT_MAX) as Hlt by (intros k; specialize (Hb k); lia).
  split; [by apply lru_step_wf|]. intros k.
  pose proof (lru_step_node o c k Hwf Hlt) as Hn. specialize (Hb k). unfold GetPinCount in *.
  destruct (map_ c !! k), (map_ (lru_step o c) !! k); simpl in Hn; lia.
Qed.
End node_steps.

(** ** Specifications *)
Section specs.
Context {K V : Type} `{Countable K} `{HasHostResidency V}.
Implicit Types (c : LRUCache K V) (k key : K) (v : V) (n : CacheNode V) (o : lru_op K V).

(** The keys of the cache, list by list. *)
Definition all_keys c : list K := lru_list_ c ++ pinned_list_ c ++ evict_candidate_list_ c.

Lemma all_keys_spec c :
  wf_nodes c → NoDup (all_keys c) ∧ ∀ k, k ∈ all_keys c ↔ is_Some (map_ c !! k).
Proof.
  intros Hwf. pose proof (wf_nodup _ Hwf kLru). pose proof (wf_nodup _ Hwf kPinned).
  pose proof (wf_nodup _ Hwf kCandidate).
  pose proof (wf_lists _ Hwf kLru) as Hl1. pose proof (wf_lists _ Hwf kPinned) as Hl2.
  pose proof (wf_lists _ Hwf kCandidate) as Hl3. simpl in *. unfold all_keys. split.
  - rewrite !NoDup_app. repeat split; try done; intros j; rewrite ?elem_of_app, ?Hl1, ?Hl2, ?Hl3;
      naive_solver congruence.
  - intros k. rewrite !elem_of_app, Hl1, Hl2, Hl3. split.
    + naive_solver.
    + intros [n Hn]. destruct (location n) eqn:?; naive_solver.
Qed.

Lemma cache_size_all_keys c : wf_nodes c → cache_size c = length (all_keys c).
Proof.
  intros Hwf. destruct (all_keys_spec c Hwf) as [Hnd Hel]. unfold cache_size.
  rewrite <- size_dom, <- (size_list_to_set (C := gset K) _ Hnd). f_equal.
  apply set_eq. intros k. by rewrite elem_of_dom, elem_of_list_to_set, Hel.
Qed.

(** in every cache reached from an empty one by fewer than 2^31 - 1 calls,
    the three lists partition the keys of the map, each node is in the list its
    location field names, the pinned list holds exactly the entries with a
    positive pin count, and size() is the total length of the lists. *)
Theorem lru_reachable_structure (capacity : nat) (ops : list (lru_op K V))
    (Hlen : Z.of_nat (length ops) < INT_MAX) :
  let c := lru_run ops (LRUCache_new capacity) in
  NoDup (all_keys c) ∧
  (∀ loc k, k ∈ list_of loc c ↔ ∃ n, map_ c !! k = Some n ∧ location n = loc) ∧
  (∀ k, k ∈ pinned_list_ c ↔ 0 < GetPinCount k c) ∧
  cache_size c = (active_size c + length (evict_candidate_list_ c))%nat.
Proof.
  intros c. destruct (lru_run_wf capacity ops Hlen) as [[Hwf _] _]. fold c in Hwf.
  split; [by apply all_keys_spec|]. split; [apply (wf_lists _ Hwf)|]. split.
  - intros k. rewrite (wf_lists _ Hwf kPinned). unfold GetPinCount.
    destruct (map_ c !! k) as [n|] eqn:Hk; [|split; [naive_solver|lia]].
    pose proof (wf_pins _ Hwf _ _ Hk) as [_ Hp]. naive_solver.
  - rewrite cache_size_all_keys by done. unfold all_keys, active_size. rewrite !length_app. lia.
Qed.

(** NumEvictableHostBlocks(), which Put, PutBack, UpdateValue, the pin and
    unpin paths and Erase maintain incrementally, always equals the number of
    unpinned entries (candidates included) whose value holds a host block, and
    its saturating decrement never saturates. *)
Theorem lru_evictable_count_exact (capacity : nat) (ops : list (lru_op K V))
    (Hlen : Z.of_nat (length ops) < INT_MAX) :
  let c := lru_run ops (LRUCache_new capacity) in
  NumEvictableHostBlocks c =
    length (filter (λ k, GetPinCount k c = 0 ∧
                         from_option IsHostResidentValue false
                           (PeekIncludingCandidates k c) = true) (all_keys c)) ∧
  (∀ k n, map_ c !! k = Some n → pin_count n = 0 → IsHostResidentValue (value n) = true →
          (0 < NumEvictableHostBlocks c)%nat).
Proof.
  intros c. destruct (lru_run_wf capacity ops Hlen) as [[Hwf Hc] _]. fold c in Hwf, Hc.
  unfold NumEvictableHostBlocks. split.
  - rewrite Hc. unfold count_map. rewrite <- size_dom.
    destruct (all_keys_spec c Hwf) as [Hnd Hel].
    set (l := filter _ (all_keys c)).
    assert (NoDup l) as Hndl by (by apply NoDup_filter).
    rewrite <- (size_list_to_set (C := gset K) _ Hndl). f_equal. apply set_eq. intros k.
    subst l. rewrite elem_of_dom, elem_of_list_to_set, list_elem_of_filter, Hel.
    unfold GetPinCount, PeekIncludingCandidates, is_Some. setoid_rewrite map_lookup_filter_Some.
    unfold evictable_node. destruct (map_ c !! k) as [n|]; simpl; [|naive_solver].
    split.
    + intros (n' & [= <-] & Hb). apply andb_true_iff in Hb as [Hz%Z.eqb_eq Hr]. eauto.
    + intros [[Hz Hr] _]. exists n. split; [done|]. simpl. rewrite Hz, Hr. done.
  - intros k n Hk Hz Hr. pose proof (count_ok_ge c k n Hc Hk) as Hge.
    rewrite evictable_node_unpinned, Hr in Hge by done. simpl in Hge. lia.
Qed.

(** a pinned entry survives every call but Clear, keeps its value unless the
    call writes that very key, and loses pins only through Unpin of that key;
    neither Evict nor Put ever reports it as evicted. *)
Theorem lru_pinned_protected (capacity : nat) (ops : list (lru_op K V)) (o : lru_op K V) (k : K)
    (Hlen : Z.of_nat (length ops) + 1 < INT_MAX)
    (Hpin : 0 < GetPinCount k (lru_run ops (LRUCache_new capacity))) (Ho : o ≠ OpClear) :
  let c := lru_run ops (LRUCache_new capacity) in
  is_Some (Peek k c) ∧ is_Some (map_ (lru_step o c) !! k) ∧
  (o ≠ OpUnpin k → GetPinCount k c <= GetPinCount k (lru_step o c)) ∧
  (¬ writes o k →
     PeekIncludingCandidates k (lru_step o c) = PeekIncludingCandidates k c) ∧
  (∀ v, (Evict c).1 ≠ Some (k, v)) ∧ (∀ key v v', (Put key v c).1 ≠ Some (k, v')).
Proof.
  intros c. destruct (lru_run_wf capacity ops) as [Hwf Hb]; [lia|]. fold c in Hwf, Hb, Hpin.
  pose proof (lru_step_node o c k Hwf ltac:(intros j; specialize (Hb j); lia)) as Hn.
  unfold Peek, PeekIncludingCandidates, GetPinCount in *.
  destruct (map_ c !! k) as [n|] eqn:Hk; [|lia]. pose proof Hwf as [Hwfn _].
  pose proof (wf_pins _ Hwfn _ _ Hk) as [_ Hloc].
  assert (∀ v, (Evict c).1 ≠ Some (k, v)) as Hev.
  { intros v. destruct (Evict_cases c Hwfn) as [[_ ->]|(l & key & n' & _ & Hk' & _ & Hp & ->)];
      [done|]. simpl. intros [= -> _]. rewrite Hk in Hk'. simplify_eq. lia. }
  split; [rewrite bool_decide_eq_false_2 by (rewrite (proj1 Hloc Hpin); done); eauto|].
  destruct (map_ (lru_step o c) !! k) as [n'|]; simpl in Hn; [|destruct Hn; [lia|done]].
  split; [eauto|]. split; [tauto|]. split; [simpl; intros ?; f_equal; tauto|]. split; [done|].
  intros key v v'. unfold Put. destruct (map_ c !! key) as [n0|]; [done|].
  case_match; [|done]. specialize (Hev v').
  destruct (Evict c) as [[e|] c']; simpl in *; [|done]. congruence.
Qed.

(** Put on a key the cache does not know: below capacity it becomes the most
    recently used entry and nothing is evicted; at capacity exactly the least
    recently used active entry is demoted to the newest candidate and returned,
    and the active count does not grow; when every active entry is pinned the
    call changes nothing and returns nothing.  In all cases every other entry
    keeps its value and pins. *)
Theorem lru_Put_new (c : LRUCache K V) (key : K) (v : V)
    (Hwf : wf c) (Hnew : map_ c !! key = None) :
  let '(evicted, c') := Put key v c in
  (∀ k, k ≠ key → PeekIncludingCandidates k c' = PeekIncludingCandidates k c ∧
                  GetPinCount k c' = GetPinCount k c) ∧
  pinned_list_ c' = pinned_list_ c ∧
  (if (active_size c <? capacity_ c)%nat then
     evicted = None ∧ lru_list_ c' = key :: lru_list_ c ∧ Peek key c' = Some v ∧
     evict_candidate_list_ c' = evict_candidate_list_ c
   else match last (lru_list_ c) with
        | None => evicted = None ∧ c' = c
        | Some old =>
            evicted = (λ n, (old, value n)) <$> map_ c !! old ∧
            lru_list_ c' ++ [old] = key :: lru_list_ c ∧
            evict_candidate_list_ c' = evict_candidate_list_ c ++ [old] ∧
            Peek key c' = Some v ∧ active_size c' = active_size c
        end).
Proof.
  destruct Hwf as [Hwf _]. unfold Put, Peek, PeekIncludingCandidates, GetPinCount, active_size.
  rewrite Hnew.
  assert (∀ c0, map_ (emplace_front key v c0) = <[key := mkNode v 0 kLru]> (map_ c0) ∧
    lru_list_ (emplace_front key v c0) = key :: lru_list_ c0 ∧
    pinned_list_ (emplace_front key v c0) = pinned_list_ c0 ∧
    evict_candidate_list_ (emplace_front key v c0) = evict_candidate_list_ c0) as Hem.
  { intros c0. unfold emplace_front. by rewrite OnUnpinnedNodeAdded_eq. }
  rewrite Nat.leb_antisym. destruct (_ <? capacity_ c)%nat; cbn [negb].
  { destruct (Hem c) as (-> & -> & -> & ->). split; [|by rewrite lookup_insert_eq].
    intros k Hk. by rewrite !lookup_insert_ne. }
  destruct (Evict_cases c Hwf) as [[Hl ->]|(l & old & n & Hl & Hold & Hloc & Hp & ->)].
  { by rewrite Hl. }
  set (c1 := mkCache _ _ _ _ _ _).
  destruct (Hem c1) as (-> & -> & -> & ->). rewrite Hl, last_snoc, Hold. subst c1. simpl.
  split; [|rewrite lookup_insert_eq, length_app; simpl; repeat split; lia].
  intros k Hk. rewrite lookup_insert_ne by done. destruct (decide (k = old)) as [->|Hne].
  - by rewrite lookup_insert_eq, Hold.
  - by rewrite lookup_insert_ne.
Qed.

(** GetEvictableKeys(count) lists only unpinned keys of the cache, without
    repetition, candidates (oldest demotion first) before active entries (least
    recently used first); it returns min(count, number of unpinned entries) of
    them, so asking for enough returns every unpinned key. *)
Theorem lru_GetEvictableKeys_spec (c : LRUCache K V) (count : nat) (Hwf : wf c) :
  GetEvictableKeys count c = take count (evict_candidate_list_ c ++ reverse (lru_list_ c)) ∧
  NoDup (GetEvictableKeys count c) ∧
  (∀ k, k ∈ GetEvictableKeys count c → is_Some (map_ c !! k) ∧ GetPinCount k c = 0) ∧
  length (GetEvictableKeys count c) =
    Nat.min count (cache_size c - length (pinned_list_ c)) ∧
  (∀ k, is_Some (map_ c !! k) → GetPinCount k c = 0 →
     (cache_size c - length (pinned_list_ c) <= count)%nat → k ∈ GetEvictableKeys count c).
Proof.
  destruct Hwf as [Hwf _]. set (all := evict_candidate_list_ c ++ reverse (lru_list_ c)).
  assert (GetEvictableKeys count c = take count all) as ->.
  { unfold GetEvictableKeys, all. rewrite take_app, length_take.
    destruct (Nat.ltb_spec (count `min` length (evict_candidate_list_ c)) count).
    - by replace (count `min` length (evict_candidate_list_ c))%nat
        with (length (evict_candidate_list_ c)) by lia.
    - replace (count - length (evict_candidate_list_ c))%nat with 0%nat by lia.
      by rewrite take_0, app_nil_r. }
  pose proof (wf_lists _ Hwf kLru) as Hl. pose proof (wf_lists _ Hwf kCandidate) as Hcd.
  simpl in Hl, Hcd.
  assert (∀ k, k ∈ all ↔ is_Some (map_ c !! k) ∧ GetPinCount k c = 0) as Hel.
  { intros k. subst all. rewrite elem_of_app, elem_of_reverse, Hl, Hcd.
    unfold GetPinCount, is_Some. destruct (map_ c !! k) as [n|] eqn:Hk; [|naive_solver].
    pose proof (wf_pins _ Hwf _ _ Hk) as [Hp0 Hp].
    assert (location n ≠ kPinned ↔ pin_count n = 0) as Hiff.
    { rewrite <- Hp. lia. }
    split.
    - intros [(n0 & [= <-] & E)|(n0 & [= <-] & E)]; (split; [eauto|]); apply Hiff; congruence.
    - intros [_ Hz]. apply Hiff in Hz. destruct (location n) eqn:E; [right|done|left]; eauto. }
  assert (NoDup all) as Hnd.
  { subst all. apply NoDup_app. rewrite reverse_Permutation. pose proof (wf_nodup _ Hwf kLru).
    pose proof (wf_nodup _ Hwf kCandidate). repeat split; [done| |done].
    intros k. rewrite elem_of_reverse, Hl, Hcd. naive_solver congruence. }
  assert (length all = (cache_size c - length (pinned_list_ c))%nat) as Hlen.
  { rewrite cache_size_all_keys by done. subst all. unfold all_keys.
    rewrite !length_app, length_reverse. lia. }
  split; [done|]. split; [eapply sublist_NoDup; [done|apply sublist_take]|].
  split; [intros k Hk%subseteq_take; by apply Hel|].
  split; [rewrite length_take; lia|].
  intros k Hs Hp Hle. rewrite take_ge by lia. by apply Hel.
Qed.

(** a pin/unpin round trip of an unpinned entry gives back the same entry
    with the same value and pin count, now active and most recently used: a
    candidate is rescued from eviction, and nothing else changes. *)
Theorem lru_pin_unpin_roundtrip (c : LRUCache K V) (key : K) (n : CacheNode V)
    (Hwf : wf c) (Hk : map_ c !! key = Some n) (Hp : pin_count n = 0) :
  let c' := (Unpin key (GetAndPin key c).2).2 in
  map_ c' = <[key := mkNode (value n) 0 kLru]> (map_ c) ∧
  lru_list_ c' = key :: remove_key key (lru_list_ c) ∧
  pinned_list_ c' = pinned_list_ c ∧
  evict_candidate_list_ c' = remove_key key (evict_candidate_list_ c) ∧
  NumEvictableHostBlocks c' = NumEvictableHostBlocks c.
Proof.
  intros c'. destruct (GetAndPin_eq c key n Hwf Hk) as (_ & Hm & He & Hl);
    [rewrite Hp; unfold INT_MAX; lia|].
  pose proof (GetAndPin_wf key c Hwf) as Hwf1. unfold GetPinCount in Hwf1.
  rewrite Hk, Hp in Hwf1. specialize (Hwf1 ltac:(unfold INT_MAX; lia)).
  set (c1 := (GetAndPin key c).2) in *. rewrite Hp in Hm, Hl. simpl in Hm, Hl.
  destruct (Unpin_eq c1 key (mkNode (value n) 1 kPinned)) as (Hm' & He' & Hl');
    [apply Hwf1|rewrite Hm; apply lookup_insert_eq|done|].
  fold c' in Hm', He', Hl'. simpl in Hm', He', Hl'.
  pose proof (wf_pins _ (proj1 Hwf) _ _ Hk) as [_ Hloc]. rewrite Hp in Hloc.
  pose proof (not_in_other_list c key n kPinned (proj1 Hwf) Hk) as Hnp.
  pose proof (not_in_other_list c key n kLru (proj1 Hwf) Hk) as Hnl.
  pose proof (not_in_other_list c key n kCandidate (proj1 Hwf) Hk) as Hnc. simpl in *.
  pose proof (Hl' kLru) as E1. pose proof (Hl' kPinned) as E2. pose proof (Hl' kCandidate) as E3.
  pose proof (Hl kLru) as F1. pose proof (Hl kPinned) as F2. pose proof (Hl kCandidate) as F3.
  rewrite list_of_splice_begin in E1, E2, E3, F1, F2, F3. simpl in *.
  assert (pin_count n = 0 → location n ≠ kPinned) as Hnpin by (intros _ E; apply Hloc in E; lia).
  split; [by rewrite Hm', Hm, insert_insert_eq|].
  unfold NumEvictableHostBlocks. rewrite He', E1, E2, E3.
  rewrite evictable_node_unpinned in * by done. simpl.
  assert (∀ l : list K, key ∉ l → remove_key key (key :: l) = l) as Hrm.
  { intros l Hni. unfold remove_key. rewrite filter_cons_False by naive_solver.
    by apply remove_key_notin. }
  destruct (location n); simpl in *; [| exfalso; by apply Hnpin |];
    rewrite F1, F2, F3, Hrm by (by apply Hnp); (split; [|split; [done|split; [|lia]]]).
  - done.
  - by rewrite remove_key_notin by (by apply Hnc).
  - by rewrite remove_key_notin by (by apply Hnl).
  - done.
Qed.
End specs.

(** ** A key demoted to candidate is "existing" for Put and Get *)

Definition raiden_block (id : Z) : RaidenBlockId :=
  mkRaidenBlockId (mkRaidenId "job" "0" "kv" 0) id (-1) HOST.

(** the capacity is not an upper bound on the active entries: with capacity 1,
    putting b demotes a, and putting (or getting) a again resurrects it beside b,
    because Put only evicts for keys absent from the map. *)
Theorem lru_resurrection_exceeds_capacity :
  let c := lru_run [OpPut "a" (raiden_block 1); OpPut "b" (raiden_block 2)]
             (LRUCache_new (K := string) (V := RaidenBlockId) 1) in
  active_size c = 1%nat ∧ capacity_ c = 1%nat ∧
  active_size (lru_step (OpPut "a" (raiden_block 1)) c) = 2%nat ∧
  active_size (lru_step (OpGet "a") c) = 2%nat ∧
  (Put "a" (raiden_block 1) c).1 = None.
Proof. vm_compute. repeat split. Qed.

(** ** Witnesses *)
Definition example_ops : list (lru_op string RaidenBlockId) :=
  [OpPut "a" (raiden_block 1); OpPut "b" (raiden_block 2); OpGetAndPin "a";
   OpPut "c" (raiden_block 3)].
Definition example_cache : LRUCache string RaidenBlockId := lru_run example_ops (LRUCache_new 2).

Lemma example_cache_wf : wf example_cache.
Proof. apply (lru_run_wf 2 example_ops). vm_compute. reflexivity. Qed.

Lemma lru_reachable_structure_witness :
  cache_size example_cache = (active_size example_cache + 1)%nat.
Proof.
  apply (lru_reachable_structure 2 example_ops ltac:(vm_compute; reflexivity)).
Defined.

Lemma lru_evictable_count_exact_witness : (0 < NumEvictableHostBlocks example_cache)%nat.
Proof.
  eapply (proj2 (lru_evictable_count_exact 2 example_ops ltac:(vm_compute; reflexivity)) "c"%string);
    vm_compute; reflexivity.
Defined.

Lemma lru_pinned_protected_witness :
  is_Some (map_ (lru_step (OpPut "d" (raiden_block 4)) example_cache) !! "a"%string).
Proof.
  apply (lru_pinned_protected 2 example_ops (OpPut "d" (raiden_block 4)) "a"%string).
  - vm_compute. reflexivity.
  - vm_compute. reflexivity.
  - discriminate.
Defined.

Lemma lru_Put_new_witness :
  pinned_list_ (Put "d"%string (raiden_block 4) example_cache).2 = ["a"%string].
Proof.
  pose proof (lru_Put_new example_cache "d"%string (raiden_block 4) example_cache_wf
    ltac:(vm_compute; reflexivity)) as Hw.
  destruct (Put "d"%string (raiden_block 4) example_cache) as [e c'].
  destruct Hw as (_ & Hw & _). cbn [snd]. rewrite Hw. vm_compute. reflexivity.
Defined.

Lemma lru_GetEvictableKeys_spec_witness :
  GetEvictableKeys 5 example_cache = ["b"; "c"]%string ∧ NoDup (GetEvictableKeys 5 example_cache).
Proof.
  split; [vm_compute; reflexivity|].
  apply (lru_GetEvictableKeys_spec example_cache 5 example_cache_wf).
Defined.

Lemma lru_pin_unpin_roundtrip_witness :
  lru_list_ (Unpin "b" (GetAndPin "b" example_cache).2).2 = ["b"; "c"]%string.
Proof.
  transitivity ("b" :: remove_key "b" (lru_list_ example_cache))%string.
  - apply (lru_pin_unpin_roundtrip example_cache "b"%string
      (mkNode (raiden_block 2) 0 kCandidate) example_cache_wf); vm_compute; reflexivity.
  - vm_compute. reflexivity.
Defined.
