(* ===== verification/KvCacheMetadata.v ===== *)
(** * KVCacheMetadata: the crash-persistent table of block bindings
    (src/tpu_sync/kv_cache/kv_cache_metadata.{h,cc})

    A shared-memory region holds a header and one 128-byte slot per host block; a
    slot binds its block to the hash of the data in it, with a recency stamp.  The
    table survives a crash of the engine, so [Set] is modelled store by store: the
    theorems show that a crash between any two stores leaves either the old
    binding, no binding, or the new binding of the block, and that a region reads
    back after [Attach] as it was formatted and written. *)

From S2P Require Import Prelude.
From Stdlib Require Import Ascii.

(** ** Layout *)
Record KVCacheMetadataHeader := mkHeader {
  hd_magic : Z;
  hd_version : Z;
  hd_num_blocks : Z;
  hd_entry_size : Z;
  hd_model_uid : list ascii;
}.
Record KVCacheMetadataEntry := mkSlot {
  me_seq : Z;
  me_hash_len : Z;
  me_valid : Z;
  me_hash : list ascii;
}.
#[export] Instance slot_inhabited : Inhabited KVCacheMetadataEntry := populate (mkSlot 0 0 0 []).

(** [sizeof], [alignof] and the array lengths of the two structs. *)
Definition header_size : Z := 128.
Definition entry_size : Z := 128.
Definition region_alignment : Z := 64.
Definition model_uid_size : nat := 64.
Definition kMaxHashLength : nat := 112.
Definition kMagic : Z := 0x52414944454E4B4D.
Definition kVersion : Z := 1.

(** A caller-provided region: its address (0 is null), its size, and its content
    as the header and the slots that follow it. *)
Record Region := mkRegion {
  rg_data : Z;
  rg_size : Z;
  rg_header : KVCacheMetadataHeader;
  rg_slots : list KVCacheMetadataEntry;
}.

(** The class is a view of the region it was created over. *)
Record KVCacheMetadata := mkMetadata { md_region : Region; md_num_blocks : Z }.

(** ** Creation *)
Definition RequiredSizeBytes (num_blocks : Z) : Z := u64 (header_size + u64 (num_blocks * entry_size)).

Definition ValidateRegion (r : Region) (num_blocks : Z) (model_uid : string) : Status :=
  if num_blocks <=? 0 then Err kInvalidArgument
  else if (model_uid_size <=? String.length model_uid)%nat then Err kInvalidArgument
  else if rg_data r =? 0 then Err kInvalidArgument
  else if negb (rg_data r `mod` region_alignment =? 0) then Err kInvalidArgument
  else if rg_size r <? RequiredSizeBytes num_blocks then Err kInvalidArgument
  else OkStatus.

(** [memcpy] of [src] over the start of [buf]. *)
Definition copy_into (buf src : list ascii) : list ascii := src ++ drop (length src) buf.
Definition zeros (n : nat) : list ascii := replicate n Ascii.zero.
Definition zero_slot : KVCacheMetadataEntry := mkSlot 0 0 0 (zeros kMaxHashLength).
Definition fresh_header (num_blocks : Z) (model_uid : string) : KVCacheMetadataHeader :=
  mkHeader kMagic kVersion (u32 num_blocks) entry_size
    (copy_into (zeros model_uid_size) (String.list_ascii_of_string model_uid)).

Definition Format (r : Region) (num_blocks : Z) (model_uid : string) : StatusOr KVCacheMetadata :=
  _ ← ValidateRegion r num_blocks model_uid;
  let n := Z.to_nat num_blocks in
  Ok (mkMetadata (mkRegion (rg_data r) (rg_size r) (fresh_header num_blocks model_uid)
                    (replicate n zero_slot ++ drop n (rg_slots r))) num_blocks).

(** [strnlen]: the bytes before the first zero. *)
Fixpoint c_string (bytes : list ascii) : list ascii :=
  match bytes with
  | [] => []
  | c :: rest => if bool_decide (c = Ascii.zero) then [] else c :: c_string rest
  end.

Definition Attach (r : Region) (num_blocks : Z) (model_uid : string) : StatusOr KVCacheMetadata :=
  _ ← ValidateRegion r num_blocks model_uid;
  let h := rg_header r in
  if negb (hd_magic h =? kMagic) then Err kFailedPrecondition
  else if negb (hd_version h =? kVersion) then Err kFailedPrecondition
  else if negb (hd_entry_size h =? entry_size) then Err kFailedPrecondition
  else if negb (hd_num_blocks h =? u32 num_blocks) then Err kFailedPrecondition
  else if negb (bool_decide (c_string (hd_model_uid h) = String.list_ascii_of_string model_uid))
       then Err kFailedPrecondition
  else Ok (mkMetadata r num_blocks).

(** ** Writes *)

(** One store to a slot. *)
Inductive SlotWrite :=
  | WriteValid (v : Z)
  | WriteSeq (seq : Z)
  | WriteHashLen (len : Z)
  | WriteHashByte (i : nat) (c : ascii).
Definition apply_write (s : KVCacheMetadataEntry) (w : SlotWrite) : KVCacheMetadataEntry :=
  match w with
  | WriteValid v => mkSlot (me_seq s) (me_hash_len s) v (me_hash s)
  | WriteSeq seq => mkSlot seq (me_hash_len s) (me_valid s) (me_hash s)
  | WriteHashLen len => mkSlot (me_seq s) len (me_valid s) (me_hash s)
  | WriteHashByte i c => mkSlot (me_seq s) (me_hash_len s) (me_valid s) (<[i := c]> (me_hash s))
  end.
Definition apply_writes (ws : list SlotWrite) (s : KVCacheMetadataEntry) : KVCacheMetadataEntry :=
  foldl apply_write s ws.

(** The stores of [Set] between the two release stores to [valid]. *)
Definition field_writes (hash : string) (seq : Z) : list SlotWrite :=
  WriteSeq seq :: WriteHashLen (Z.of_nat (String.length hash) `mod` 2 ^ 16) ::
  imap WriteHashByte (String.list_ascii_of_string hash).
Definition set_writes (hash : string) (seq : Z) : list SlotWrite :=
  WriteValid 0 :: field_writes hash seq ++ [WriteValid 1].

Definition set_slots (slots : list KVCacheMetadataEntry) (m : KVCacheMetadata) : KVCacheMetadata :=
  let r := md_region m in mkMetadata (mkRegion (rg_data r) (rg_size r) (rg_header r) slots) (md_num_blocks m).
Definition write_slot (block_id : Z) (ws : list SlotWrite) (m : KVCacheMetadata) : KVCacheMetadata :=
  set_slots (alter (apply_writes ws) (Z.to_nat block_id) (rg_slots (md_region m))) m.

Definition block_in_range (block_id : Z) (m : KVCacheMetadata) : bool :=
  (0 <=? block_id) && (block_id <? md_num_blocks m).
Definition set_accepts (block_id : Z) (hash : string) (m : KVCacheMetadata) : bool :=
  block_in_range block_id m && (0 <? String.length hash)%nat && (String.length hash <=? kMaxHashLength)%nat.

Definition Set_ (block_id : Z) (hash : string) (seq : Z) (m : KVCacheMetadata) : Status * KVCacheMetadata :=
  if negb (set_accepts block_id hash m) then (Err kInvalidArgument, m)
  else (OkStatus, write_slot block_id (set_writes hash seq) m).

Definition Clear (block_id : Z) (m : KVCacheMetadata) : Status * KVCacheMetadata :=
  if negb (block_in_range block_id m) then (Err kInvalidArgument, m)
  else (OkStatus, write_slot block_id [WriteValid 0] m).

(** ** Reading *)
Record Entry := mkEntry { en_block_id : Z; en_hash : string; en_seq : Z }.

(** The binding a slot shows. *)
Definition binding (s : KVCacheMetadataEntry) : option (string * Z) :=
  if me_valid s =? 0 then None
  else if (me_hash_len s =? 0) || (Z.of_nat kMaxHashLength <? me_hash_len s) then None
  else Some (String.string_of_list_ascii (take (Z.to_nat (me_hash_len s)) (me_hash s)), me_seq s).
Definition binding_at (m : KVCacheMetadata) (i : Z) : option (string * Z) :=
  binding (rg_slots (md_region m) !!! Z.to_nat i).

Definition ValidEntries (m : KVCacheMetadata) : list Entry :=
  omap (λ i, (λ hs, mkEntry i hs.1 hs.2) <$> binding_at m i) (seqZ 0 (md_num_blocks m)).

(** ** Well-formed tables *)
Definition slot_ok (s : KVCacheMetadataEntry) : Prop := length (me_hash s) = kMaxHashLength ∧ 0 <= me_hash_len s.

(** The slots are what fits into the region behind the header. *)
Record region_ok (r : Region) : Prop := {
  ro_slots : Forall slot_ok (rg_slots r);
  ro_size : 0 <= rg_size r < 2 ^ 64;
  ro_fits : rg_size r < header_size + (Z.of_nat (length (rg_slots r)) + 1) * entry_size;
}.
Record table_ok (m : KVCacheMetadata) : Prop := {
  to_slots : Forall slot_ok (rg_slots (md_region m));
  to_blocks : 0 < md_num_blocks m <= Z.of_nat (length (rg_slots (md_region m)));
}.

Lemma ValidateRegion_ok r n uid :
  ValidateRegion r n uid = OkStatus →
  0 < n ∧ (String.length uid < model_uid_size)%nat ∧ RequiredSizeBytes n <= rg_size r.
Proof.
  unfold ValidateRegion. repeat (case_match; [done|]). intros _.
  repeat match goal with H : (_ <=? _) = false |- _ => apply Z.leb_gt in H
                       | H : (_ <=? _)%nat = false |- _ => apply Nat.leb_gt in H
                       | H : (_ <? _) = false |- _ => apply Z.ltb_ge in H end. lia.
Qed.

Lemma RequiredSizeBytes_eq n : 0 <= n < 2 ^ 31 → RequiredSizeBytes n = header_size + n * entry_size.
Proof. intros. unfold RequiredSizeBytes, header_size, entry_size. rewrite (u64_small (n * 128)) by lia. by rewrite u64_small by lia. Qed.

Lemma Format_table_ok r n uid m :
  region_ok r → n < 2 ^ 31 → Format r n uid = Ok m → table_ok m ∧ md_num_blocks m = n.
Proof.
  intros [Hs Hsize Hfit] Hn ([] & Hv & [= <-])%bind_Ok.
  destruct (ValidateRegion_ok _ _ _ Hv) as (Hpos & _ & Hreq).
  rewrite RequiredSizeBytes_eq in Hreq by lia. unfold header_size, entry_size in *.
  split; [split; cbn|done].
  - apply Forall_app. split; [|by apply Forall_drop]. apply Forall_replicate. done.
  - rewrite length_app, length_replicate, length_drop. lia.
Qed.

(** ** Writes and bindings *)
Lemma length_ascii s : length (String.list_ascii_of_string s) = String.length s.
Proof. induction s as [|c s IH]; [done|]. cbn. by rewrite IH. Qed.

Lemma apply_bytes l k s :
  (k + length l <= length (me_hash s))%nat →
  apply_writes (imap (λ i, WriteHashByte (k + i)) l) s =
  mkSlot (me_seq s) (me_hash_len s) (me_valid s) (take k (me_hash s) ++ l ++ drop (k + length l) (me_hash s)).
Proof.
  revert k s; induction l as [|c l IH]; intros k s Hlen.
  { rewrite Nat.add_0_r. cbn. rewrite take_drop. by destruct s. }
  unfold apply_writes in *. cbn [imap foldl apply_write]. rewrite Nat.add_0_r.
  cbn [length] in *. rewrite (imap_ext _ (λ i, WriteHashByte (S k + i))) by (intros; cbn; f_equal; lia).
  rewrite IH; cbn [me_hash me_seq me_hash_len me_valid]; [|rewrite length_insert; lia]. f_equal.
  rewrite drop_insert_lt by lia. rewrite (take_S_r _ k c) by (apply list_lookup_insert_eq; lia).
  rewrite take_insert_ge by lia. by rewrite <- app_assoc, Nat.add_succ_r.
Qed.

Lemma apply_fields hash seq s :
  slot_ok s → (String.length hash <= kMaxHashLength)%nat →
  apply_writes (field_writes hash seq) s =
  mkSlot seq (Z.of_nat (String.length hash)) (me_valid s)
    (copy_into (me_hash s) (String.list_ascii_of_string hash)).
Proof.
  intros [Hs _] Hl.
  transitivity (apply_writes (imap (λ i, WriteHashByte (0 + i)) (String.list_ascii_of_string hash))
    (mkSlot seq (Z.of_nat (String.length hash) `mod` 2 ^ 16) (me_valid s) (me_hash s))); [done|].
  unfold kMaxHashLength in *. rewrite apply_bytes by (rewrite length_ascii; cbn; lia). cbn.
  f_equal. apply Z.mod_small. lia.
Qed.

Lemma binding_set hash seq s :
  slot_ok s → (0 < String.length hash <= kMaxHashLength)%nat →
  binding (apply_writes (set_writes hash seq) s) = Some (hash, seq).
Proof.
  intros Hs [Hpos Hl]. unfold set_writes, apply_writes. cbn [foldl]. rewrite foldl_app. cbn [foldl].
  change (foldl apply_write (apply_write s (WriteValid 0)) (field_writes hash seq))
    with (apply_writes (field_writes hash seq) (apply_write s (WriteValid 0))).
  rewrite apply_fields by (done || apply Hs). unfold binding. cbn [apply_write me_valid me_hash_len me_hash me_seq].
  unfold kMaxHashLength in *.
  destruct (Z.eqb_spec (Z.of_nat (String.length hash)) 0); [lia|].
  destruct (Z.ltb_spec (Z.of_nat 112) (Z.of_nat (String.length hash))); [lia|]. cbn.
  rewrite Nat2Z.id. unfold copy_into. rewrite <- length_ascii at 1. rewrite take_app_length.
  by rewrite String.string_of_list_ascii_of_string.
Qed.

(** A slot whose [valid] was cleared and not set again shows nothing. *)
Lemma binding_invalid ws s :
  Forall (λ w, ∀ v, w ≠ WriteValid v) ws → binding (apply_writes (WriteValid 0 :: ws) s) = None.
Proof.
  intros Hw. unfold apply_writes. cbn [foldl].
  assert (∀ s, me_valid s = 0 → me_valid (foldl apply_write s ws) = 0) as H.
  { induction Hw as [|w ws Hne _ IH]; intros s' E; [done|]. cbn. apply IH.
    destruct w as [v| | |]; [by destruct (Hne v)|done..]. }
  unfold binding. by rewrite H.
Qed.

(** A store a [Set] or a [Clear] makes: lengths are unsigned. *)
Definition write_ok (w : SlotWrite) : Prop := match w with WriteHashLen len => 0 <= len | _ => True end.
Lemma field_writes_ok hash seq : Forall write_ok (field_writes hash seq).
Proof.
  repeat constructor; [cbn; apply Z.mod_pos_bound; lia|]. apply Forall_forall.
  intros w (i & c & -> & _)%elem_of_lookup_imap_1. done.
Qed.
Lemma set_writes_ok hash seq : Forall write_ok (set_writes hash seq).
Proof. constructor; [done|]. apply Forall_app. split; [apply field_writes_ok|by repeat constructor]. Qed.

Lemma write_slot_ok b ws m :
  Forall write_ok ws → table_ok m → table_ok (write_slot b ws m) ∧ md_num_blocks (write_slot b ws m) = md_num_blocks m.
Proof.
  intros Hws [Hs Hb]. split; [|done]. split; cbn.
  - apply Forall_alter; [done|]. intros s _ Hok. unfold apply_writes. revert s Hok.
    induction Hws as [|w ws Hw _ IH]; intros s Hok; [done|]. cbn. apply IH. unfold slot_ok in *.
    destruct w; cbn; rewrite ?length_insert; cbn in Hw; naive_solver.
  - by rewrite length_alter.
Qed.

Lemma binding_length s hash seq : slot_ok s → binding s = Some (hash, seq) → (0 < String.length hash <= kMaxHashLength)%nat.
Proof.
  intros [Hl Hn] Hb. unfold binding in Hb. case_match; [done|]. case_match eqn:E; [done|]. injection Hb as <- _.
  apply orb_false_iff in E as [E1%Z.eqb_neq E2%Z.ltb_ge]. rewrite <- length_ascii, String.list_ascii_of_string_of_list_ascii.
  rewrite length_take, Hl. lia.
Qed.

Lemma binding_at_write b ws m i :
  table_ok m → 0 <= b → 0 <= i < md_num_blocks m →
  binding_at (write_slot b ws m) i =
    if decide (i = b) then binding (apply_writes ws (rg_slots (md_region m) !!! Z.to_nat i)) else binding_at m i.
Proof.
  intros [_ Hn] Hb Hi. unfold binding_at, write_slot. cbn.
  rewrite lookup_total_alter_Z by lia. by repeat case_decide; subst.
Qed.

Lemma slot_at m i : table_ok m → 0 <= i < md_num_blocks m → slot_ok (rg_slots (md_region m) !!! Z.to_nat i).
Proof.
  intros [Hs Hn] Hi. rewrite Forall_lookup in Hs.
  destruct (lookup_lt_is_Some_2 (rg_slots (md_region m)) (Z.to_nat i)) as [s E]; [lia|].
  rewrite (list_lookup_total_correct _ _ _ E). by eapply Hs.
Qed.

Lemma block_in_range_iff b m : block_in_range b m = true ↔ 0 <= b < md_num_blocks m.
Proof. unfold block_in_range. rewrite andb_true_iff, Z.leb_le, Z.ltb_lt. done. Qed.
Lemma set_accepts_iff b hash m :
  set_accepts b hash m = true ↔
  0 <= b < md_num_blocks m ∧ (0 < String.length hash <= kMaxHashLength)%nat.
Proof. unfold set_accepts. rewrite !andb_true_iff, block_in_range_iff, Nat.ltb_lt, Nat.leb_le. tauto. Qed.

(** [Set] binds its block and leaves the others; [Clear] unbinds its block. *)
Lemma binding_at_Set b hash seq m i :
  table_ok m → set_accepts b hash m = true → 0 <= i < md_num_blocks m →
  binding_at (Set_ b hash seq m).2 i = if decide (i = b) then Some (hash, seq) else binding_at m i.
Proof.
  intros Hm Ha Hi. unfold Set_. rewrite Ha. apply set_accepts_iff in Ha as [Hb Hl]. cbn [negb snd].
  rewrite binding_at_write by (done || lia). case_decide; [|done]. apply binding_set; [by apply slot_at|done].
Qed.
Lemma binding_at_Clear b m i :
  table_ok m → 0 <= b < md_num_blocks m → 0 <= i < md_num_blocks m →
  binding_at (Clear b m).2 i = if decide (i = b) then None else binding_at m i.
Proof.
  intros Hm Hb Hi. unfold Clear. rewrite (proj2 (block_in_range_iff b m) Hb). cbn [negb snd].
  rewrite binding_at_write by (done || lia). case_decide; [|done]. by apply (binding_invalid []).
Qed.
Lemma Set_table_ok b hash seq m : table_ok m → table_ok (Set_ b hash seq m).2 ∧ md_num_blocks (Set_ b hash seq m).2 = md_num_blocks m.
Proof. intros Hm. unfold Set_. case_match; [done|]. apply write_slot_ok; [apply set_writes_ok|done]. Qed.
Lemma Clear_table_ok b m : table_ok m → table_ok (Clear b m).2 ∧ md_num_blocks (Clear b m).2 = md_num_blocks m.
Proof. intros Hm. unfold Clear. case_match; [done|]. apply write_slot_ok; [by repeat constructor|done]. Qed.

Lemma elem_of_ValidEntries m e :
  e ∈ ValidEntries m ↔
  0 <= en_block_id e < md_num_blocks m ∧ binding_at m (en_block_id e) = Some (en_hash e, en_seq e).
Proof.
  unfold ValidEntries. rewrite list_elem_of_omap. setoid_rewrite elem_of_seqZ. split.
  - intros (i & Hi & E). destruct (binding_at m i) as [[h q]|] eqn:Eb; [|done]. injection E as <-. cbn. split; [lia|done].
  - intros [Hi Eb]. exists (en_block_id e). split; [lia|]. rewrite Eb. by destruct e.
Qed.

(** ** Crashes *)

(** The stores of a [Set] that reached the memory before a crash: none, the
    invalidation and some of the plain stores in any order, or all of them. *)
Inductive interrupted (hash : string) (seq : Z) : list SlotWrite → Prop :=
  | int_none : interrupted hash seq []
  | int_fields ws : ws ⊆+ field_writes hash seq → interrupted hash seq (WriteValid 0 :: ws)
  | int_all : interrupted hash seq (set_writes hash seq).

Lemma field_writes_no_valid hash seq ws :
  ws ⊆+ field_writes hash seq → Forall (λ w, ∀ v, w ≠ WriteValid v) ws.
Proof.
  intros Hw. apply Forall_forall. intros w Hin v ->.
  apply (elem_of_submseteq _ _ _ Hin) in Hw. unfold field_writes in Hw.
  apply elem_of_cons in Hw as [?|[?|Hw]%elem_of_cons]; [done|done|].
  apply elem_of_lookup_imap_1 in Hw as (i & c & E & _). done.
Qed.

Lemma interrupted_ok hash seq ws : interrupted hash seq ws → Forall write_ok ws.
Proof.
  intros [|ws' Hw|]; [done| |apply set_writes_ok]. constructor; [done|].
  apply Forall_forall. intros w Hin. apply (elem_of_submseteq _ _ _ Hin) in Hw.
  by apply (proj1 (Forall_forall _ _) (field_writes_ok hash seq)).
Qed.

(** A crash never exposes a torn binding.  Stop an accepted [Set] after any of its
    stores, the plain ones in any order: every other block keeps its binding, and
    the block shows its old binding (nothing was stored), none, or, when every
    store was made, exactly the new hash and stamp; the completed [Set] is the last
    case. *)
Theorem Set_crash_atomic m block_id hash seq ws :
  table_ok m → set_accepts block_id hash m = true → interrupted hash seq ws →
  let m' := write_slot block_id ws m in
  (∀ e, en_block_id e ≠ block_id → e ∈ ValidEntries m' ↔ e ∈ ValidEntries m) ∧
  (ws = [] ∧ m' = m ∨
   (∀ e, e ∈ ValidEntries m' → en_block_id e ≠ block_id) ∨
   ws = set_writes hash seq ∧ (OkStatus, m') = Set_ block_id hash seq m ∧
   ∀ e, en_block_id e = block_id → e ∈ ValidEntries m' ↔ e = mkEntry block_id hash seq).
Proof.
  intros Hm Ha Hi m'. pose proof Ha as [Hb Hl]%set_accepts_iff. unfold m'.
  assert (∀ i, 0 <= i < md_num_blocks m → i ≠ block_id → binding_at (write_slot block_id ws m) i = binding_at m i) as Ho.
  { intros i Hir Hne. rewrite binding_at_write by (done || lia). by rewrite decide_False. }
  split; [|destruct Hi as [|ws Hws|]].
  - intros e Hne. rewrite !elem_of_ValidEntries. cbn. split; intros [Hr E]; (split; [done|]);
      [rewrite <- Ho|rewrite Ho]; done.
  - left. split; [done|]. unfold write_slot, set_slots. rewrite list_alter_id; [by destruct m as [[] ?]|done].
  - right; left. intros e [Hr E]%elem_of_ValidEntries Hbe. cbn in Hr.
    rewrite binding_at_write in E by (done || lia). rewrite decide_True in E by done.
    rewrite binding_invalid in E by (by eapply field_writes_no_valid). done.
  - right; right. split; [done|]. split; [unfold Set_; by rewrite Ha|].
    intros [b h q] Hbe. cbn in Hbe. subst b. rewrite elem_of_ValidEntries. cbn [en_block_id en_hash en_seq].
    pose proof (binding_at_Set block_id hash seq m block_id Hm Ha Hb) as E. unfold Set_ in E. rewrite Ha in E.
    cbn [negb snd] in E. rewrite decide_True in E by done. rewrite E. cbn. naive_solver.
Qed.

(** Everything that happens to a formatted region: calls, and a [Set] cut short. *)
Inductive table_step (m : KVCacheMetadata) : KVCacheMetadata → Prop :=
  | ts_set b hash seq : table_step m (Set_ b hash seq m).2
  | ts_clear b : table_step m (Clear b m).2
  | ts_torn b hash seq ws : set_accepts b hash m = true → interrupted hash seq ws →
      table_step m (write_slot b ws m).

Lemma table_steps_header m m' :
  rtc table_step m m' → table_ok m →
  table_ok m' ∧ md_num_blocks m' = md_num_blocks m ∧ rg_header (md_region m') = rg_header (md_region m) ∧
  rg_data (md_region m') = rg_data (md_region m) ∧ rg_size (md_region m') = rg_size (md_region m).
Proof.
  induction 1 as [|m m1 m2 Hs _ IH]; [done|]. intros Hm.
  assert (table_ok m1 ∧ md_num_blocks m1 = md_num_blocks m ∧ rg_header (md_region m1) = rg_header (md_region m) ∧
    rg_data (md_region m1) = rg_data (md_region m) ∧ rg_size (md_region m1) = rg_size (md_region m)) as (H1 & E1 & E2 & E3 & E4).
  { destruct Hs; [unfold Set_; case_match|unfold Clear; case_match|]; cbn [snd];
      try (split; [done|repeat split; done]); (split; [apply write_slot_ok; [|done]|done]);
      [apply set_writes_ok|by repeat constructor|by eapply interrupted_ok]. }
  destruct (IH H1) as (? & ? & ? & ? & ?). split; [done|]. repeat split; congruence.
Qed.

Lemma c_string_padded (l : list ascii) n : Ascii.zero ∉ l → c_string (l ++ zeros n) = l.
Proof.
  induction l as [|c l IH]; intros Hz; cbn.
  - by destruct n; cbn.
  - rewrite bool_decide_false by set_solver. f_equal. apply IH. set_solver.
Qed.

(** A region reads back as it was written.  After [Format] and any calls, also
    one cut short by a crash, [Attach] succeeds exactly for the block count and the
    model it was formatted for, and then shows the very same table. *)
Theorem Attach_reads_back r n uid m m' n' uid' :
  region_ok r → n < 2 ^ 31 → 0 <= n' < 2 ^ 31 → Ascii.zero ∉ String.list_ascii_of_string uid →
  Format r n uid = Ok m → rtc table_step m m' →
  Attach (md_region m') n' uid' = Ok m' ↔ n' = n ∧ uid' = uid.
Proof.
  intros Hr Hn Hn' Hnul HF Hst. destruct (Format_table_ok r n uid m Hr Hn HF) as [Hm Hmn].
  destruct (table_steps_header m m' Hst Hm) as (Hm' & E1 & E2 & E3 & E4).
  pose proof HF as ([] & Hv & [= Em])%bind_Ok. destruct (ValidateRegion_ok _ _ _ Hv) as (Hpos & Hul & _).
  assert (c_string (hd_model_uid (fresh_header n uid)) = String.list_ascii_of_string uid) as Hu.
  { cbn [fresh_header hd_model_uid]. unfold copy_into, zeros. rewrite drop_replicate. by apply c_string_padded. }
  assert (ValidateRegion (md_region m') n uid = OkStatus) as Hv'.
  { rewrite <- Hv. unfold ValidateRegion. by rewrite E3, E4, <- Em. }
  split.
  - intros ([] & _ & E)%bind_Ok. rewrite E2, <- Em in E. cbn [md_region rg_header] in E. rewrite Hu in E.
    repeat (case_match; [done|]). injection E as E.
    repeat match goal with H : negb _ = false |- _ => apply negb_false_iff in H end.
    match goal with H : bool_decide _ = true |- _ => apply bool_decide_eq_true in H as Huid end.
    match goal with H : (_ =? u32 n') = true |- _ => apply Z.eqb_eq in H; cbn in H; rewrite !u32_small in H by lia end.
    split; [done|]. rewrite <- (String.string_of_list_ascii_of_string uid), Huid.
    by rewrite String.string_of_list_ascii_of_string.
  - intros [-> ->]. apply bind_Ok. exists tt. split; [done|]. rewrite E2, <- Em. cbn [md_region rg_header].
    rewrite Hu, bool_decide_true by done. unfold fresh_header. cbn. rewrite Z.eqb_refl. cbn.
    destruct m' as [r' n'']. cbn in *. by rewrite E1, <- Em.
Qed.

(** ** A two-block table *)
Definition region_ex : Region := mkRegion 64 384 (mkHeader 0 0 0 0 []) [zero_slot; zero_slot].
Definition table_ex : KVCacheMetadata :=
  mkMetadata (mkRegion 64 384 (fresh_header 2 "m") [zero_slot; zero_slot]) 2.

Lemma table_ex_ok : table_ok table_ex.
Proof. split; [by repeat constructor|cbn; lia]. Qed.

Lemma Set_crash_atomic_witness :
  set_accepts 1 "ab" table_ex = true ∧
  ∀ e, e ∈ ValidEntries (write_slot 1 [WriteValid 0; WriteSeq 7] table_ex) → en_block_id e ≠ 1.
Proof.
  split; [reflexivity|].
  destruct (Set_crash_atomic table_ex 1 "ab" 7 [WriteValid 0; WriteSeq 7] table_ex_ok eq_refl) as [_ [[? _]|[H|[? _]]]];
    [|done|exact H|done].
  apply int_fields. unfold field_writes. apply submseteq_skip, submseteq_nil_l.
Defined.

Lemma Attach_reads_back_witness :
  Attach (md_region (Set_ 1 "ab" 7 table_ex).2) 2 "m" = Ok (Set_ 1 "ab" 7 table_ex).2.
Proof.
  refine (proj2 (Attach_reads_back region_ex 2 "m" table_ex (Set_ 1 "ab" 7 table_ex).2 2 "m" _ _ _ _ eq_refl _) _).
  - split; [by repeat constructor|cbn; lia|cbn; unfold header_size, entry_size; lia].
  - lia.
  - lia.
  - intros [E|[]%not_elem_of_nil]%elem_of_cons. discriminate.
  - apply rtc_once, ts_set.
  - split; reflexivity.
Defined.
