(* ===== verification/BlockTracker.v ===== *)
(** * BlockTracker: progress records of asynchronous block operations
    (src/tpu_sync/kv_cache/block_tracker.{h,cc})

    Every public method runs under [mutex_], so each is one atomic step; [Poll]
    releases the mutex while it waits, and [Merge] locks the two trackers one
    after the other, so both are modelled as the steps they are made of.
    [pending_map_] maps a hash to its node in [pending_list_]; a list node is
    named by its hash, so the map is the set of hashes that have a node. *)

From S2P Require Import Prelude.

Record BlockTracker := mkTracker {
  pending_map_ : gset string;
  pending_list_ : list string;
  done_ : list string;
  failed_ : list string;
  existing_ : list string;
  unregistered_ : list string;
}.

Record StatusResult := mkStatusResult {
  res_done : list string;
  res_failed : list string;
  res_pending : list string;
  res_existing : list string;
  res_unregistered : list string;
}.

Definition BlockTracker_new : BlockTracker := mkTracker ∅ [] [] [] [] [].

(** ** Pending set *)

(** The body of the loops that add, and that drop, one pending hash. *)
Definition add_pending_one (t : BlockTracker) (hash : string) : BlockTracker :=
  if bool_decide (hash ∈ pending_map_ t) then t
  else mkTracker ({[hash]} ∪ pending_map_ t) (pending_list_ t ++ [hash])
         (done_ t) (failed_ t) (existing_ t) (unregistered_ t).
Definition remove_pending_one (t : BlockTracker) (hash : string) : BlockTracker :=
  if bool_decide (hash ∈ pending_map_ t)
  then mkTracker (pending_map_ t ∖ {[hash]}) (remove_key hash (pending_list_ t))
         (done_ t) (failed_ t) (existing_ t) (unregistered_ t)
  else t.

Definition AddPending (block_hashes : list string) (t : BlockTracker) : BlockTracker :=
  foldl add_pending_one t block_hashes.
Definition RemovePending (block_hashes : list string) (t : BlockTracker) : BlockTracker :=
  foldl remove_pending_one t block_hashes.

Definition IsPending (block_hash : string) (t : BlockTracker) : bool :=
  bool_decide (block_hash ∈ pending_map_ t).
Definition Contains (block_hash : string) (t : BlockTracker) : bool := IsPending block_hash t.
Definition GetPending (t : BlockTracker) : list string := pending_list_ t.

(** ** Terminal records *)
Definition push_done (t : BlockTracker) (hash : string) : BlockTracker :=
  mkTracker (pending_map_ t) (pending_list_ t) (done_ t ++ [hash]) (failed_ t)
    (existing_ t) (unregistered_ t).
Definition push_failed (t : BlockTracker) (hash : string) : BlockTracker :=
  mkTracker (pending_map_ t) (pending_list_ t) (done_ t) (failed_ t ++ [hash])
    (existing_ t) (unregistered_ t).

Definition MarkDoneLocked (block_hashes : list string) (t : BlockTracker) : BlockTracker :=
  foldl (λ t hash, push_done (remove_pending_one t hash) hash) t block_hashes.
Definition MarkFailedLocked (block_hashes : list string) (t : BlockTracker) : BlockTracker :=
  foldl (λ t hash, push_failed (remove_pending_one t hash) hash) t block_hashes.
Definition MarkExistingLocked (block_hashes : list string) (t : BlockTracker) : BlockTracker :=
  mkTracker (pending_map_ t) (pending_list_ t) (done_ t) (failed_ t)
    (existing_ t ++ block_hashes) (unregistered_ t).
Definition MarkUnregisteredLocked (block_hashes : list string) (t : BlockTracker)
    : BlockTracker :=
  mkTracker (pending_map_ t) (pending_list_ t) (done_ t) (failed_ t)
    (existing_ t) (unregistered_ t ++ block_hashes).

Definition MarkDone := MarkDoneLocked.
Definition MarkFailed := MarkFailedLocked.
Definition MarkExisting := MarkExistingLocked.
Definition MarkUnregistered := MarkUnregisteredLocked.

Definition MarkFailedWithExisting (failed existing : list string) (t : BlockTracker)
    : BlockTracker :=
  MarkFailedLocked failed (MarkExistingLocked existing t).
Definition MarkFailedWithUnregistered (failed unregistered : list string) (t : BlockTracker)
    : BlockTracker :=
  MarkFailedLocked failed (MarkUnregisteredLocked unregistered t).

Definition Update (done failed : list string) (t : BlockTracker) : BlockTracker :=
  let t := match done with [] => t | _ => MarkDoneLocked done t end in
  match failed with [] => t | _ => MarkFailedLocked failed t end.

(** ** Merge *)

(** First critical section: everything is moved out of [other]. *)
Definition Merge_take (other : BlockTracker) : StatusResult * BlockTracker :=
  (mkStatusResult (done_ other) (failed_ other) (pending_list_ other)
     (existing_ other) (unregistered_ other),
   BlockTracker_new).

(** Second critical section: the moved records are folded into [this]. *)
Definition Merge_apply (r : StatusResult) (t : BlockTracker) : BlockTracker :=
  let t := MarkDoneLocked (res_done r) t in
  let t := MarkFailedLocked (res_failed r) t in
  let t := mkTracker (pending_map_ t) (pending_list_ t) (done_ t) (failed_ t)
             (existing_ t ++ res_existing r) (unregistered_ t ++ res_unregistered r) in
  foldl add_pending_one t (res_pending r).

(** [this->Merge(std::move(other))]; merging a tracker into itself is a no-op. *)
Definition Merge (same_object : bool) (t other : BlockTracker) : BlockTracker * BlockTracker :=
  if same_object then (t, other)
  else let '(r, other) := Merge_take other in (Merge_apply r t, other).

(** ** Poll *)
Definition has_records (t : BlockTracker) : bool :=
  negb (bool_decide (done_ t = [])) || negb (bool_decide (failed_ t = [])) ||
  negb (bool_decide (existing_ t = [])) || negb (bool_decide (unregistered_ t = [])).

(** The harvest under the lock, after the wait (if any). *)
Definition Poll_collect (t : BlockTracker) : StatusResult * BlockTracker :=
  (mkStatusResult (done_ t) (failed_ t) (pending_list_ t) (existing_ t) (unregistered_ t),
   mkTracker (pending_map_ t) (pending_list_ t) [] [] [] []).

(** [others] is what other threads do to the tracker while [Poll] waits with the
    mutex released; it runs only if [Poll] waits. *)
Definition Poll (timeout : Z) (others : BlockTracker → BlockTracker) (t : BlockTracker)
    : StatusResult * BlockTracker :=
  let t := if (0 <? timeout) && negb (has_records t) then others t else t in
  Poll_collect t.

Definition Clear (t : BlockTracker) : BlockTracker := BlockTracker_new.
Definition Empty (t : BlockTracker) : bool :=
  bool_decide (pending_map_ t = ∅) && bool_decide (done_ t = []) && bool_decide (failed_ t = []).
Definition PendingCount (t : BlockTracker) : nat := size (pending_map_ t).
Definition DoneCount (t : BlockTracker) : nat := length (done_ t).
Definition FailedCount (t : BlockTracker) : nat := length (failed_ t).

(** ** Invariant and closed forms *)
Record wf (t : BlockTracker) : Prop := {
  wf_nodup : NoDup (pending_list_ t);
  wf_map : pending_map_ t = list_to_set (pending_list_ t);
}.

(** The hashes a loop of [add_pending_one] appends: first occurrences that are
    not pending yet. *)
Fixpoint fresh_hashes (seen : gset string) (hashes : list string) : list string :=
  match hashes with
  | [] => []
  | h :: rest =>
      if bool_decide (h ∈ seen) then fresh_hashes seen rest
      else h :: fresh_hashes ({[h]} ∪ seen) rest
  end.

Definition without (hashes l : list string) : list string := filter (λ h, h ∉ hashes) l.

Section closed_forms.
Implicit Types (t : BlockTracker) (h : string) (hs : list string).

Lemma AddPending_eq hs t :
  AddPending hs t =
    mkTracker (list_to_set hs ∪ pending_map_ t)
      (pending_list_ t ++ fresh_hashes (pending_map_ t) hs)
      (done_ t) (failed_ t) (existing_ t) (unregistered_ t).
Proof.
  unfold AddPending. revert t; induction hs as [|h hs IH]; intros t; simpl.
  - destruct t; simpl. rewrite app_nil_r. f_equal. set_solver.
  - rewrite IH. unfold add_pending_one. case_bool_decide as Hin; simpl.
    + f_equal. set_solver.
    + rewrite <- app_assoc. f_equal. set_solver.
Qed.

Lemma remove_pending_one_eq h t :
  wf t →
  remove_pending_one t h =
    mkTracker (pending_map_ t ∖ {[h]}) (without [h] (pending_list_ t))
      (done_ t) (failed_ t) (existing_ t) (unregistered_ t).
Proof.
  intros [Hnd Hm]. unfold remove_pending_one.
  assert (without [h] (pending_list_ t) = remove_key h (pending_list_ t)) as ->.
  { unfold without, remove_key. apply list_filter_iff. set_solver. }
  case_bool_decide as Hin; [done|].
  rewrite remove_key_notin by set_solver. destruct t; simpl in *. f_equal. set_solver.
Qed.

Lemma wf_without (pm : gset string) pl d f e u hs :
  wf (mkTracker pm pl d f e u) →
  ∀ d' f' e' u', wf (mkTracker (pm ∖ list_to_set hs) (without hs pl) d' f' e' u').
Proof.
  intros [Hnd Hm] d' f' e' u'. simpl in *. split; simpl; [by apply NoDup_filter|].
  apply set_eq; intros h. unfold without.
  rewrite elem_of_difference, !elem_of_list_to_set, list_elem_of_filter, Hm, elem_of_list_to_set.
  tauto.
Qed.

Lemma without_cons h hs l : without hs (without [h] l) = without (h :: hs) l.
Proof.
  unfold without. rewrite list_filter_filter. apply list_filter_iff. set_solver.
Qed.
Lemma without_nil l : without [] l = l.
Proof. unfold without. induction l; [done|]. rewrite filter_cons_True by set_solver. by f_equal. Qed.

Lemma RemovePending_eq hs t :
  wf t →
  RemovePending hs t =
    mkTracker (pending_map_ t ∖ list_to_set hs) (without hs (pending_list_ t))
      (done_ t) (failed_ t) (existing_ t) (unregistered_ t).
Proof.
  unfold RemovePending. revert t; induction hs as [|h hs IH]; intros t Hwf; simpl.
  - rewrite without_nil. destruct t; simpl. f_equal. set_solver.
  - rewrite remove_pending_one_eq by done.
    pose proof (wf_without _ _ _ _ _ _ [h] (ltac:(destruct t; exact Hwf) : wf (mkTracker
      (pending_map_ t) (pending_list_ t) (done_ t) (failed_ t) (existing_ t) (unregistered_ t))))
      as Hwf'.
    rewrite IH; simpl; [rewrite without_cons; f_equal; set_solver|].
    specialize (Hwf' (done_ t) (failed_ t) (existing_ t) (unregistered_ t)).
    simpl in Hwf'. by rewrite union_empty_r_L in Hwf'.
Qed.

Lemma wf_eta t :
  wf t → wf (mkTracker (pending_map_ t) (pending_list_ t) (done_ t) (failed_ t)
               (existing_ t) (unregistered_ t)).
Proof. by destruct t. Qed.

Lemma MarkDoneLocked_eq hs t :
  wf t →
  MarkDoneLocked hs t =
    mkTracker (pending_map_ t ∖ list_to_set hs) (without hs (pending_list_ t))
      (done_ t ++ hs) (failed_ t) (existing_ t) (unregistered_ t).
Proof.
  unfold MarkDoneLocked. revert t; induction hs as [|h hs IH]; intros t Hwf; simpl.
  - rewrite without_nil, app_nil_r. destruct t; simpl. f_equal. set_solver.
  - rewrite remove_pending_one_eq by done. unfold push_done; simpl.
    pose proof (wf_without _ _ _ _ _ _ [h] (wf_eta t Hwf) (done_ t ++ [h]) (failed_ t)
      (existing_ t) (unregistered_ t)) as Hwf'.
    simpl in Hwf'. rewrite union_empty_r_L in Hwf'.
    rewrite IH by done. simpl. rewrite without_cons, <- app_assoc. simpl. f_equal. set_solver.
Qed.

Lemma MarkFailedLocked_eq hs t :
  wf t →
  MarkFailedLocked hs t =
    mkTracker (pending_map_ t ∖ list_to_set hs) (without hs (pending_list_ t))
      (done_ t) (failed_ t ++ hs) (existing_ t) (unregistered_ t).
Proof.
  unfold MarkFailedLocked. revert t; induction hs as [|h hs IH]; intros t Hwf; simpl.
  - rewrite without_nil, app_nil_r. destruct t; simpl. f_equal. set_solver.
  - rewrite remove_pending_one_eq by done. unfold push_failed; simpl.
    pose proof (wf_without _ _ _ _ _ _ [h] (wf_eta t Hwf) (done_ t) (failed_ t ++ [h])
      (existing_ t) (unregistered_ t)) as Hwf'.
    simpl in Hwf'. rewrite union_empty_r_L in Hwf'.
    rewrite IH by done. simpl. rewrite without_cons, <- app_assoc. simpl. f_equal. set_solver.
Qed.

Lemma fresh_hashes_spec seen hs :
  NoDup (fresh_hashes seen hs) ∧ ∀ h, h ∈ fresh_hashes seen hs ↔ h ∈ hs ∧ h ∉ seen.
Proof.
  revert seen; induction hs as [|h hs IH]; intros seen; simpl; [split; [constructor|set_solver]|].
  case_bool_decide as Hin.
  - destruct (IH seen) as [Hnd Hel]. split; [done|]. intros h'. rewrite Hel. set_solver.
  - destruct (IH ({[h]} ∪ seen)) as [Hnd Hel]. split.
    + apply NoDup_cons. rewrite Hel. set_solver.
    + intros h'. rewrite elem_of_cons, Hel.
      destruct (decide (h' = h)) as [->|]; set_solver.
Qed.

Lemma AddPending_wf hs t : wf t → wf (AddPending hs t).
Proof.
  intros [Hnd Hm]. rewrite AddPending_eq. destruct (fresh_hashes_spec (pending_map_ t) hs) as [Hf He].
  split; simpl.
  - apply NoDup_app. split; [done|]. split; [|done]. intros h Hh. rewrite He, Hm. set_solver.
  - apply set_eq. intros h. rewrite elem_of_union, !elem_of_list_to_set, elem_of_app, He, Hm.
    rewrite elem_of_list_to_set. destruct (decide (h ∈ pending_list_ t)); tauto.
Qed.
Lemma MarkDoneLocked_wf hs t : wf t → wf (MarkDoneLocked hs t).
Proof. intros Hwf. rewrite MarkDoneLocked_eq by done. eapply wf_without, wf_eta, Hwf. Qed.
Lemma MarkFailedLocked_wf hs t : wf t → wf (MarkFailedLocked hs t).
Proof. intros Hwf. rewrite MarkFailedLocked_eq by done. eapply wf_without, wf_eta, Hwf. Qed.
Lemma RemovePending_wf hs t : wf t → wf (RemovePending hs t).
Proof. intros Hwf. rewrite RemovePending_eq by done. eapply wf_without, wf_eta, Hwf. Qed.
Lemma wf_same_pending t pm pl d f e u :
  wf t → pending_map_ t = pm → pending_list_ t = pl → wf (mkTracker pm pl d f e u).
Proof. intros [] <- <-. by split. Qed.
End closed_forms.

#[export] Hint Resolve AddPending_wf MarkDoneLocked_wf MarkFailedLocked_wf RemovePending_wf : core.

(** ** Histories *)

(** The mutating calls of one tracker; [TMergeIn r] is the second critical
    section of a [Merge] that took [r] out of another tracker. *)
Inductive tracker_op :=
  | TAddPending (hs : list string)
  | TRemovePending (hs : list string)
  | TMarkDone (hs : list string)
  | TMarkFailed (hs : list string)
  | TMarkExisting (hs : list string)
  | TMarkUnregistered (hs : list string)
  | TMarkFailedWithExisting (failed existing : list string)
  | TMarkFailedWithUnregistered (failed unregistered : list string)
  | TUpdate (done failed : list string)
  | TMergeIn (r : StatusResult)
  | TPoll.

Definition tracker_step (o : tracker_op) (t : BlockTracker) : list StatusResult * BlockTracker :=
  match o with
  | TAddPending hs => ([], AddPending hs t)
  | TRemovePending hs => ([], RemovePending hs t)
  | TMarkDone hs => ([], MarkDone hs t)
  | TMarkFailed hs => ([], MarkFailed hs t)
  | TMarkExisting hs => ([], MarkExisting hs t)
  | TMarkUnregistered hs => ([], MarkUnregistered hs t)
  | TMarkFailedWithExisting f e => ([], MarkFailedWithExisting f e t)
  | TMarkFailedWithUnregistered f u => ([], MarkFailedWithUnregistered f u t)
  | TUpdate d f => ([], Update d f t)
  | TMergeIn r => ([], Merge_apply r t)
  | TPoll => let '(r, t) := Poll_collect t in ([r], t)
  end.

Fixpoint tracker_run (ops : list tracker_op) (t : BlockTracker)
    : list StatusResult * BlockTracker :=
  match ops with
  | [] => ([], t)
  | o :: ops =>
      let '(rs, t) := tracker_step o t in
      let '(rs', t) := tracker_run ops t in (rs ++ rs', t)
  end.

(** What a call records, and what it does to the pending set. *)
Definition marked_done (o : tracker_op) : list string :=
  match o with TMarkDone hs => hs | TUpdate d _ => d | TMergeIn r => res_done r | _ => [] end.
Definition marked_failed (o : tracker_op) : list string :=
  match o with
  | TMarkFailed hs => hs
  | TMarkFailedWithExisting f _ | TMarkFailedWithUnregistered f _ => f
  | TUpdate _ f => f
  | TMergeIn r => res_failed r
  | _ => []
  end.
Definition marked_existing (o : tracker_op) : list string :=
  match o with
  | TMarkExisting hs => hs
  | TMarkFailedWithExisting _ e => e
  | TMergeIn r => res_existing r
  | _ => []
  end.
Definition marked_unregistered (o : tracker_op) : list string :=
  match o with
  | TMarkUnregistered hs => hs
  | TMarkFailedWithUnregistered _ u => u
  | TMergeIn r => res_unregistered r
  | _ => []
  end.
Definition op_adds (o : tracker_op) : list string :=
  match o with TAddPending hs => hs | TMergeIn r => res_pending r | _ => [] end.
Definition op_removes (o : tracker_op) : list string :=
  match o with
  | TRemovePending hs => hs
  | _ => marked_done o ++ marked_failed o
  end.

Section histories.
Implicit Types (t : BlockTracker) (h : string) (o : tracker_op) (ops : list tracker_op).

Lemma Update_eq d f t : Update d f t = MarkFailedLocked f (MarkDoneLocked d t).
Proof. by destruct d, f. Qed.

(** One step: the invariant, the records and the pending set at once. *)
Lemma tracker_step_spec o t :
  wf t →
  let '(rs, t') := tracker_step o t in
  wf t' ∧
  concat (res_done <$> rs) ++ done_ t' = done_ t ++ marked_done o ∧
  concat (res_failed <$> rs) ++ failed_ t' = failed_ t ++ marked_failed o ∧
  concat (res_existing <$> rs) ++ existing_ t' = existing_ t ++ marked_existing o ∧
  concat (res_unregistered <$> rs) ++ unregistered_ t' = unregistered_ t ++ marked_unregistered o ∧
  (∀ h, h ∈ pending_map_ t' ↔ h ∈ op_adds o ∨ (h ∈ pending_map_ t ∧ h ∉ op_removes o)).
Proof.
  intros Hwf. destruct o; simpl; rewrite ?app_nil_r.
  - rewrite AddPending_eq. split; [rewrite <- AddPending_eq; auto|]. repeat split; set_solver.
  - rewrite RemovePending_eq by done. split; [rewrite <- RemovePending_eq by done; auto|].
    simpl. repeat split; set_solver.
  - unfold MarkDone. rewrite MarkDoneLocked_eq by done.
    split; [rewrite <- MarkDoneLocked_eq by done; auto|]. simpl. repeat split; set_solver.
  - unfold MarkFailed. rewrite MarkFailedLocked_eq by done.
    split; [rewrite <- MarkFailedLocked_eq by done; auto|]. simpl. repeat split; set_solver.
  - unfold MarkExisting, MarkExistingLocked. split; [by eapply wf_same_pending|].
    simpl. repeat split; set_solver.
  - unfold MarkUnregistered, MarkUnregisteredLocked. split; [by eapply wf_same_pending|].
    simpl. repeat split; set_solver.
  - unfold MarkFailedWithExisting. assert (wf (MarkExistingLocked existing t)) as Hwf'
      by (by eapply wf_same_pending). split; [auto|].
    rewrite MarkFailedLocked_eq by done. simpl. repeat split; set_solver.
  - unfold MarkFailedWithUnregistered. assert (wf (MarkUnregisteredLocked unregistered t)) as Hwf'
      by (by eapply wf_same_pending). split; [auto|].
    rewrite MarkFailedLocked_eq by done. simpl. repeat split; set_solver.
  - rewrite Update_eq. split; [auto|]. rewrite MarkFailedLocked_eq, MarkDoneLocked_eq by auto.
    simpl. repeat split; set_solver.
  - unfold Merge_apply. rewrite MarkFailedLocked_eq by auto. rewrite MarkDoneLocked_eq by done.
    fold (AddPending (res_pending r)).
    set (t1 := mkTracker _ _ _ _ _ _). change (foldl add_pending_one t1 (res_pending r))
      with (AddPending (res_pending r) t1).
    assert (wf t1) as Hwf1.
    { subst t1. simpl. apply (wf_without _ _ [] [] [] []).
      eapply wf_without, wf_eta, Hwf. }
    split; [auto|]. rewrite AddPending_eq. simpl. repeat split; set_solver.
  - split; [by eapply wf_same_pending|]. simpl. rewrite ?app_nil_r. repeat split; set_solver.
Qed.
End histories.

Lemma BlockTracker_new_wf : wf BlockTracker_new.
Proof. split; [constructor|done]. Qed.

(** ** Specifications *)
Section specs.
Implicit Types (t : BlockTracker) (h : string) (o : tracker_op) (ops : list tracker_op).

Lemma tracker_run_spec ops t :
  wf t →
  let '(rs, t') := tracker_run ops t in
  wf t' ∧
  concat (res_done <$> rs) ++ done_ t' = done_ t ++ concat (marked_done <$> ops) ∧
  concat (res_failed <$> rs) ++ failed_ t' = failed_ t ++ concat (marked_failed <$> ops) ∧
  concat (res_existing <$> rs) ++ existing_ t' = existing_ t ++ concat (marked_existing <$> ops) ∧
  concat (res_unregistered <$> rs) ++ unregistered_ t'
    = unregistered_ t ++ concat (marked_unregistered <$> ops).
Proof.
  revert t; induction ops as [|o ops IH]; intros t Hwf; simpl; [by rewrite !app_nil_r|].
  pose proof (tracker_step_spec o t Hwf) as Ho. destruct (tracker_step o t) as [rs t1].
  destruct Ho as (Hwf1 & H1 & H2 & H3 & H4 & _).
  specialize (IH t1 Hwf1). destruct (tracker_run ops t1) as [rs' t2].
  destruct IH as (Hwf2 & I1 & I2 & I3 & I4).
  rewrite !fmap_app, !concat_app, <- !app_assoc, I1, I2, I3, I4, !app_assoc, H1, H2, H3, H4.
  done.
Qed.

(** nothing reported is lost, repeated or reordered: along any history of
    calls on a fresh tracker (merges of other trackers included), the done
    records returned by the polls, followed by those still held, are exactly
    the hashes marked done, in the order they were marked; and likewise for the
    failed, existing and unregistered records. *)
Theorem tracker_records_conserved (ops : list tracker_op) :
  let '(rs, t) := tracker_run ops BlockTracker_new in
  concat (res_done <$> rs) ++ done_ t = concat (marked_done <$> ops) ∧
  concat (res_failed <$> rs) ++ failed_ t = concat (marked_failed <$> ops) ∧
  concat (res_existing <$> rs) ++ existing_ t = concat (marked_existing <$> ops) ∧
  concat (res_unregistered <$> rs) ++ unregistered_ t = concat (marked_unregistered <$> ops).
Proof.
  pose proof (tracker_run_spec ops BlockTracker_new BlockTracker_new_wf) as H.
  destruct (tracker_run ops BlockTracker_new). tauto.
Qed.

(** after any history and one more call, a hash is pending exactly when the
    call adds it, or it was pending and the call neither removes it nor marks it
    done or failed; and the map and the ordered list of pending hashes agree, the
    list without repetition. *)
Theorem tracker_pending_exact (ops : list tracker_op) (o : tracker_op) (h : string) :
  let t := (tracker_run ops BlockTracker_new).2 in
  let t' := (tracker_step o t).2 in
  (IsPending h t' = true ↔
     h ∈ op_adds o ∨ (IsPending h t = true ∧ h ∉ op_removes o)) ∧
  (h ∈ GetPending t' ↔ IsPending h t' = true) ∧ NoDup (GetPending t') ∧
  PendingCount t' = length (GetPending t').
Proof.
  intros t t'. pose proof (tracker_run_spec ops BlockTracker_new BlockTracker_new_wf) as H.
  destruct (tracker_run ops BlockTracker_new) as [rs t0]. destruct H as [Hwf0 _].
  pose proof (tracker_step_spec o t0 Hwf0) as H.
  subst t t'; cbn [snd]. destruct (tracker_step o t0) as [rs' t1].
  destruct H as ([Hnd Hm] & _ & _ & _ & _ & Hp). cbn [snd].
  unfold IsPending, GetPending, PendingCount. rewrite !bool_decide_eq_true.
  split; [apply Hp|]. rewrite Hm. split; [by rewrite elem_of_list_to_set|].
  split; [done|]. by apply size_list_to_set.
Qed.

(** Merge empties the other tracker and moves everything over: this tracker's
    records are its own followed by the other's, hashes the other finished are no
    longer pending here, and the other's pending hashes are pending here; merging
    a tracker with itself changes nothing. *)
Theorem tracker_Merge_spec (t other : BlockTracker) (Hwf : wf t) :
  Merge true t t = (t, t) ∧
  (let '(t', other') := Merge false t other in
   wf t' ∧ other' = BlockTracker_new ∧
   done_ t' = done_ t ++ done_ other ∧ failed_ t' = failed_ t ++ failed_ other ∧
   existing_ t' = existing_ t ++ existing_ other ∧
   unregistered_ t' = unregistered_ t ++ unregistered_ other ∧
   ∀ h, IsPending h t' = true ↔
     h ∈ pending_list_ other ∨
     (IsPending h t = true ∧ (h ∉ done_ other) ∧ (h ∉ failed_ other))).
Proof.
  split; [done|]. unfold Merge, Merge_take. set (r := mkStatusResult _ _ _ _ _).
  pose proof (tracker_step_spec (TMergeIn r) t Hwf) as H. simpl in H.
  destruct H as (Hwf' & H1 & H2 & H3 & H4 & Hp). repeat (split; [done|]).
  intros h. unfold IsPending. rewrite !bool_decide_eq_true, Hp, elem_of_app. tauto.
Qed.

(** a Poll hands over all records and leaves none, keeps the pending set, and
    reports it; it waits only when called with a positive timeout on a tracker
    with nothing to report, and then returns what the other threads left. *)
Theorem tracker_Poll_spec (timeout : Z) (others : BlockTracker → BlockTracker)
    (t : BlockTracker) :
  let '(r, t') := Poll timeout others t in
  let seen := if (0 <? timeout) && negb (has_records t) then others t else t in
  r = mkStatusResult (done_ seen) (failed_ seen) (pending_list_ seen)
        (existing_ seen) (unregistered_ seen) ∧
  has_records t' = false ∧ GetPending t' = res_pending r ∧
  pending_map_ t' = pending_map_ seen ∧
  (has_records t = true → seen = t).
Proof.
  unfold Poll. simpl. repeat (split; [done|]).
  intros ->. by rewrite andb_false_r.
Qed.
End specs.

Lemma tracker_Merge_spec_witness :
  done_ (Merge false (AddPending ["a"; "b"] BlockTracker_new)
           (MarkDone ["a"] BlockTracker_new)).1 = ["a"]%string.
Proof.
  pose proof (tracker_Merge_spec (AddPending ["a"; "b"]%string BlockTracker_new)
    (MarkDone ["a"]%string BlockTracker_new)
    (AddPending_wf _ _ BlockTracker_new_wf)) as [_ Hw].
  destruct (Merge false _ _) as [t' o']. destruct Hw as (_ & _ & Hw & _).
  cbn [fst]. rewrite Hw. vm_compute. reflexivity.
Defined.
