(* ===== verification/HostOffloadBackend.v ===== *)
(** * HostOffloadBackend: the host-DRAM index of KV blocks
    (the index operations of src/tpu_sync/kv_cache/host_offload_backend.{h,cc})

    The backend keeps the pinning LRU cache from block hashes to block ids and
    mirrors every binding to a host block into the crash-persistent metadata table.
    Each method takes [mutex_] once, so it is one state transformer; the global
    lookup releases it around the registry call and is modelled as the two halves
    before and after.  The global registry's answers are arguments, the hashes
    handed to the registry for removal are results; telemetry and the transfers to
    and from devices and peers (Load, Save, BeginWriteRemote) are not modelled. *)

From S2P Require Import Prelude RaidenTypes LogicalBlockManager LruCache KvCacheMetadata.

(** ** State and options *)
Record HostOffloadBackend := mkBackend {
  lru_cache_ : LRUCache string RaidenBlockId;
  metadata_ : option KVCacheMetadata;
  next_metadata_seq_ : Z;
  raiden_id_ : RaidenId;
  has_registry : bool;
}.
Implicit Types (s : HostOffloadBackend) (c : LRUCache string RaidenBlockId) (hash : string) (b : RaidenBlockId).

Definition set_cache c s : HostOffloadBackend :=
  mkBackend c (metadata_ s) (next_metadata_seq_ s) (raiden_id_ s) (has_registry s).
Definition set_metadata (m : KVCacheMetadata) (seq : Z) s : HostOffloadBackend :=
  mkBackend (lru_cache_ s) (Some m) seq (raiden_id_ s) (has_registry s).
Definition HostOffloadBackend_new (capacity : nat) (metadata : option KVCacheMetadata) (id : RaidenId)
    (registry : bool) : HostOffloadBackend :=
  mkBackend (LRUCache_new capacity) metadata 0 id registry.

Inductive LookupMatchMode := kPrefix | kSubset.
#[export] Instance LookupMatchMode_eq_dec : EqDecision LookupMatchMode.
Proof. solve_decision. Defined.
Record LookupOptions := mkLookupOptions {
  lo_enable_global : bool;
  lo_enable_interleaved_lookup : bool;
  lo_pin_found : bool;
  lo_match_mode : LookupMatchMode;
  lo_host_resident_only : bool;
  lo_include_eviction_candidates : bool;
}.
Inductive InsertOption := kBestEffortUpdate | kInsertAndPin | kAdmitStrict.

Abbreviation BlockSliceList := (list (string * RaidenBlockId)).

Definition IsHostResidentStatus (st : BlockStatus) : bool :=
  match st with HOST | HOST_AND_HBM => true | _ => false end.
(** [RaidenBlockId()]. *)
Definition default_block : RaidenBlockId := mkRaidenBlockId (mkRaidenId "" "" "" 0) (-1) (-1) INIT.

(** ** The metadata mirror *)
Definition SetMetadataEntry hash b s : HostOffloadBackend :=
  match metadata_ s with
  | None => s
  | Some m =>
      if negb (IsHostResidentStatus (status b)) then s
      else set_metadata (Set_ (host_block_id b) hash (next_metadata_seq_ s) m).2 (u64 (next_metadata_seq_ s + 1)) s
  end.
Definition ClearMetadataEntry b s : HostOffloadBackend :=
  match metadata_ s with
  | None => s
  | Some m =>
      if negb (IsHostResidentStatus (status b)) then s
      else set_metadata (KvCacheMetadata.Clear (host_block_id b) m).2 (next_metadata_seq_ s) s
  end.

(** ** Pins *)
Definition pin_hash hash s : bool * HostOffloadBackend :=
  let '(ok, c) := LruCache.Pin hash (lru_cache_ s) in (ok, set_cache c s).
Definition unpin_hash s hash : HostOffloadBackend := set_cache (LruCache.Unpin hash (lru_cache_ s)).2 s.
Definition unpin_all (hashes : list string) s : HostOffloadBackend := foldl unpin_hash s hashes.

Fixpoint pin_loop (pinned todo : list string) s : bool * HostOffloadBackend :=
  match todo with
  | [] => (true, s)
  | hash :: rest =>
      let '(ok, s) := pin_hash hash s in
      if ok then pin_loop (pinned ++ [hash]) rest s else (false, unpin_all pinned s)
  end.
Definition Pin (hashes : list string) s : bool * HostOffloadBackend := pin_loop [] hashes s.
Definition Release (hashes : list string) s : HostOffloadBackend := unpin_all (reverse hashes) s.

(** ** Lookup *)
Section lookup.
Context (options : LookupOptions).

Definition lookup_peek hash c : option RaidenBlockId :=
  if lo_include_eviction_candidates options then PeekIncludingCandidates hash c else Peek hash c.
Definition lookup_hit hash c : option RaidenBlockId :=
  match lookup_peek hash c with
  | None => None
  | Some b => if lo_host_resident_only options && negb (IsHostResidentStatus (status b)) then None else Some b
  end.
Definition take_hit hash c : LRUCache string RaidenBlockId :=
  if lo_pin_found options then (LruCache.Pin hash c).2 else c.

(** Fast path B, and A over the iteration order of the map: every match. *)
Fixpoint lookup_subset (hashes : list string) c : BlockSliceList * LRUCache string RaidenBlockId :=
  match hashes with
  | [] => ([], c)
  | hash :: rest =>
      match lookup_hit hash c with
      | None => lookup_subset rest c
      | Some b => let '(results, c) := lookup_subset rest (take_hit hash c) in ((hash, b) :: results, c)
      end
  end.
(** Fast path C: up to the first miss. *)
Fixpoint lookup_prefix (hashes : list string) c : BlockSliceList * LRUCache string RaidenBlockId :=
  match hashes with
  | [] => ([], c)
  | hash :: rest =>
      match lookup_hit hash c with
      | None => ([], c)
      | Some b => let '(results, c) := lookup_prefix rest (take_hit hash c) in ((hash, b) :: results, c)
      end
  end.

(** Phase 1: the local hits, each pinned, and the hashes to ask the registry for. *)
Fixpoint lookup_sweep (hashes : list string) c
    : list bool * list string * LRUCache string RaidenBlockId :=
  match hashes with
  | [] => ([], [], c)
  | hash :: rest =>
      match lookup_peek hash c with
      | Some _ =>
          let '(hits, missing, c) := lookup_sweep rest (take_hit hash c) in (true :: hits, missing, c)
      | None =>
          if negb (lo_enable_interleaved_lookup options) then (replicate (length (hash :: rest)) false, hash :: rest, c)
          else let '(hits, missing, c) := lookup_sweep rest c in (false :: hits, hash :: missing, c)
      end
  end.

(** Phase 3: the contiguous prefix of local and remote hits. *)
Fixpoint lookup_assemble (local_id : RaidenId) (c : LRUCache string RaidenBlockId)
    (hits : list (string * bool)) (remote_hits : list (RaidenId * Z)) : BlockSliceList :=
  match hits with
  | [] => []
  | (hash, true) :: rest =>
      match lookup_peek hash c with
      | None => []
      | Some b => (hash, b) :: lookup_assemble local_id c rest remote_hits
      end
  | (hash, false) :: rest =>
      match remote_hits with
      | [] => []
      | (remote_id, block_id) :: more =>
          if RaidenId_eqb remote_id local_id then []
          else (hash, mkRaidenBlockId remote_id block_id (-1) REMOTE) :: lookup_assemble local_id c rest more
      end
  end.

(** Phases 3 and 4: the result, and the pins past it given back. *)
Definition lookup_finish (hashes : list string) (local_hit : list bool) (remote_hits : list (RaidenId * Z)) s
    : BlockSliceList * HostOffloadBackend :=
  let results := lookup_assemble (raiden_id_ s) (lru_cache_ s) (zip hashes local_hit) remote_hits in
  let tail := drop (length results) (zip hashes local_hit) in
  (results, if lo_pin_found options then unpin_all (omap (λ hh : string * bool, if hh.2 then Some hh.1 else None) tail) s
            else s).
End lookup.

(** [order] is the iteration order of [lru_cache_.map()], [registry] the registry's
    answer to the missing hashes; nothing else runs between the two halves here. *)
Definition Lookup (order : list string) (registry : list string → StatusOr (list (RaidenId * Z)))
    (hashes : list string) (options : LookupOptions) s : StatusOr BlockSliceList * HostOffloadBackend :=
  let subset := bool_decide (lo_match_mode options = kSubset) in
  if subset && lo_enable_global options then (Err kInvalidArgument, s)
  else if lo_host_resident_only options && lo_enable_global options then (Err kInvalidArgument, s)
  else if lo_include_eviction_candidates options && lo_pin_found options then (Err kInvalidArgument, s)
  else if subset then
    let '(results, c) := lookup_subset options (if bool_decide (hashes = []) then order else hashes) (lru_cache_ s) in
    (Ok results, set_cache c s)
  else if negb (lo_enable_global options) then
    let '(results, c) := lookup_prefix options hashes (lru_cache_ s) in (Ok results, set_cache c s)
  else if bool_decide (hashes = []) then (Ok [], s)
  else
    let '(local_hit, missing, c) := lookup_sweep options hashes (lru_cache_ s) in
    let remote_hits :=
      if negb (bool_decide (missing = [])) && has_registry s then ok_or [] (registry missing) else [] in
    let '(results, s) := lookup_finish options hashes local_hit remote_hits (set_cache c s) in
    (Ok results, s).

(** ** Insert *)

(** One hash of the best-effort update; the displaced hash is unregistered. *)
Definition put_entry hash (slice : option RaidenBlockId) s : list string * HostOffloadBackend :=
  let '(evicted, c) := Put hash (default default_block slice) (lru_cache_ s) in
  let s := set_cache c s in
  (match evicted with Some e => [e.1] | None => [] end,
   match slice with Some b => SetMetadataEntry hash b s | None => s end).
Definition clear_stale hash s : HostOffloadBackend :=
  match PeekIncludingCandidates hash (lru_cache_ s) with
  | Some stale => ClearMetadataEntry stale s
  | None => s
  end.

Definition best_effort_one (slices : list RaidenBlockId) s (ih : nat * string) : list string * HostOffloadBackend :=
  let '(i, hash) := ih in
  if Contains hash (lru_cache_ s) then
    ([], match slices !! i with
         | Some b =>
             let '(ok, c) := UpdateValue hash b (lru_cache_ s) in
             let s := set_cache c s in if ok then SetMetadataEntry hash b s else s
         | None => s
         end)
  else put_entry hash (slices !! i) (clear_stale hash s).
Definition InsertBestEffortUpdate (hashes : list string) (slices : list RaidenBlockId) s
    : bool * list string * HostOffloadBackend :=
  let '(evicted, s) :=
    foldl (λ '(acc, s) ih, let '(e, s) := best_effort_one slices s ih in (acc ++ e, s)) ([], s)
      (imap pair hashes) in
  (true, if has_registry s then evicted else [], s).

Section insert_and_pin.
Context (hashes : list string) (slices : list RaidenBlockId).

(** An HBM-only entry takes the new slice; host-resident ones are kept. *)
Definition overwrite_hbm (i : nat) s : HostOffloadBackend :=
  let hash := hashes !!! i in
  match slices !! i, Peek hash (lru_cache_ s) with
  | Some b, Some existing =>
      if bool_decide (status existing = HBM)
      then SetMetadataEntry hash b (set_cache (UpdateValue hash b (lru_cache_ s)).2 (ClearMetadataEntry existing s))
      else s
  | _, _ => s
  end.
Fixpoint pin_existing (pinned todo : list nat) s : bool * HostOffloadBackend :=
  match todo with
  | [] => (true, s)
  | i :: rest =>
      let '(ok, s) := pin_hash (hashes !!! i) s in
      if ok then pin_existing (pinned ++ [i]) rest (overwrite_hbm i s)
      else (false, unpin_all ((λ j, hashes !!! j) <$> pinned) s)
  end.
Definition put_new s (i : nat) : HostOffloadBackend :=
  (put_entry (hashes !!! i) (slices !! i) (clear_stale (hashes !!! i) s)).2.
Definition erase_new s (i : nat) : HostOffloadBackend :=
  let s := clear_stale (hashes !!! i) s in
  set_cache (Erase (hashes !!! i) (lru_cache_ s)).2 s.
Fixpoint pin_new (existing all_new pinned todo : list nat) s : bool * HostOffloadBackend :=
  match todo with
  | [] => (true, s)
  | i :: rest =>
      let '(ok, s) := pin_hash (hashes !!! i) s in
      if ok then pin_new existing all_new (pinned ++ [i]) rest s
      else
        let s := unpin_all ((λ j, hashes !!! j) <$> pinned) s in
        let s := unpin_all ((λ j, hashes !!! j) <$> existing) s in
        (false, foldl erase_new s all_new)
  end.

Definition InsertAndPin s : bool * HostOffloadBackend :=
  let present i := Contains (hashes !!! i) (lru_cache_ s) = true in
  let existing := filter present (seq 0 (length hashes)) in
  let new := filter (λ i, ¬ present i) (seq 0 (length hashes)) in
  let '(ok, s) := pin_existing [] existing s in
  if negb ok then (false, s)
  else if (available_space (lru_cache_ s) <? length new)%nat
       then (false, unpin_all ((λ j, hashes !!! j) <$> existing) s)
  else pin_new existing new [] new (foldl put_new s (reverse new)).
End insert_and_pin.

Definition admissible (hashes : list string) c : bool :=
  bool_decide (NoDup hashes) &&
  forallb (λ hash, bool_decide (PeekIncludingCandidates hash c = None)) hashes &&
  (length hashes <=? available_space c)%nat.
(** The insertion loop; [inserted] are the entries to roll back. *)
Fixpoint admit_loop (inserted todo : BlockSliceList) s : bool * HostOffloadBackend :=
  match todo with
  | [] => (true, s)
  | (hash, b) :: rest =>
      let s := set_cache (Put hash b (lru_cache_ s)).2 s in
      match Peek hash (lru_cache_ s) with
      | None =>
          (false, foldl (λ s hb, let s := ClearMetadataEntry hb.2 s in
                                 set_cache (Erase hb.1 (lru_cache_ s)).2 s) s inserted)
      | Some _ => admit_loop (inserted ++ [(hash, b)]) rest (SetMetadataEntry hash b s)
      end
  end.
Definition InsertAdmitStrict (hashes : list string) (slices : list RaidenBlockId) s : bool * HostOffloadBackend :=
  if bool_decide (hashes = []) || negb (length hashes =? length slices)%nat then (false, s)
  else if negb (admissible hashes (lru_cache_ s)) then (false, s)
  else admit_loop [] (zip hashes slices) s.

Definition Insert (hashes : list string) (slices : list RaidenBlockId) (option : InsertOption) s
    : bool * list string * HostOffloadBackend :=
  match option with
  | kBestEffortUpdate => InsertBestEffortUpdate hashes slices s
  | kInsertAndPin => let '(ok, s) := InsertAndPin hashes slices s in (ok, [], s)
  | kAdmitStrict => let '(ok, s) := InsertAdmitStrict hashes slices s in (ok, [], s)
  end.

(** ** Delete *)

(** What a deletion reports: the erased hashes, the host blocks they held, and the
    hashes unregistered. *)
Record Deleted := mkDeleted {
  del_hashes : list string; del_host_blocks : list Z; del_unregistered : list string }.

Definition delete_one (host_resident_only : bool) (ds : Deleted * HostOffloadBackend) (hash : string)
    : Deleted * HostOffloadBackend :=
  let '(d, s) := ds in
  if 0 <? GetPinCount hash (lru_cache_ s) then (d, s)
  else match PeekIncludingCandidates hash (lru_cache_ s) with
       | None => (d, s)
       | Some b =>
           let is_host_resident := IsHostResidentStatus (status b) in
           if host_resident_only && negb is_host_resident then (d, s)
           else
             let s := ClearMetadataEntry b s in
             (mkDeleted (del_hashes d ++ [hash])
                (del_host_blocks d ++ if is_host_resident then [host_block_id b] else [])
                (del_unregistered d ++ if is_host_resident then [hash] else []),
              set_cache (Erase hash (lru_cache_ s)).2 s)
       end.
Definition Delete (hashes : list string) (host_resident_only : bool) s : Deleted * HostOffloadBackend :=
  let '(d, s) := foldl (delete_one host_resident_only) (mkDeleted [] [] [], s) hashes in
  (mkDeleted (del_hashes d) (del_host_blocks d) (if has_registry s then del_unregistered d else []), s).

(** ** Recovery *)

(** The newest entry of each hash, the first one on equal stamps. *)
Definition newest_entries (entries : list Entry) : gmap string Entry :=
  foldl (λ m e, match m !! en_hash e with
                | Some old => if en_seq old <? en_seq e then <[en_hash e := e]> m else m
                | None => <[en_hash e := e]> m
                end) ∅ entries.
Definition seq_le (x y : Entry) : Prop := en_seq x <= en_seq y.
#[export] Instance seq_le_dec x y : Decision (seq_le x y).
Proof. unfold seq_le. apply _. Defined.

Definition RecoverFromLocalManifest s (pool : LogicalBlockManager)
    : StatusOr nat * HostOffloadBackend * LogicalBlockManager :=
  match metadata_ s with
  | None => (Err kFailedPrecondition, s, pool)
  | Some m =>
      let entries := ValidEntries m in
      if bool_decide (entries = []) then (Ok 0%nat, s, pool)
      else
        let newest := newest_entries entries in
        let recoverable := merge_sort seq_le (map_to_list newest).*2 in
        match AllocateTarget (en_block_id <$> recoverable) pool with
        | (Err code, pool) => (Err code, s, pool)
        | (Ok _, pool) =>
            let c := foldl (λ c e, (Put (en_hash e) (mkRaidenBlockId (raiden_id_ s) (en_block_id e) (-1) HOST) c).2)
                       (lru_cache_ s) recoverable in
            let max_seq := foldl (λ mx e, Z.max mx (en_seq e)) 0 recoverable in
            let m := foldl (λ m e,
                       match newest !! en_hash e with
                       | Some kept => if bool_decide (en_block_id kept = en_block_id e) then m
                                      else (KvCacheMetadata.Clear (en_block_id e) m).2
                       | None => m
                       end) m entries in
            (Ok (length recoverable), set_metadata m (u64 (max_seq + 1)) (set_cache c s), pool)
        end
  end.

(** ** Views of the cache: the value and the pins of every hash *)
Definition values c : gmap string RaidenBlockId := value <$> map_ c.
Definition pins_room (n : nat) c : Prop := ∀ hash, GetPinCount hash c + Z.of_nat n <= INT_MAX.
(** Occurrences of a hash. *)
Definition times hash (l : list string) : Z := Z.of_nat (length (filter (λ h, h = hash) l)).

Lemma peek_values hash c : PeekIncludingCandidates hash c = values c !! hash.
Proof. unfold PeekIncludingCandidates, values. by rewrite lookup_fmap. Qed.
Lemma Peek_values hash c : Peek hash c = if Contains hash c then values c !! hash else None.
Proof.
  unfold Peek, Contains, values. rewrite lookup_fmap. destruct (map_ c !! hash) as [n|]; [|done]. cbn.
  by case_bool_decide.
Qed.
Lemma Contains_values hash c : Contains hash c = true → is_Some (values c !! hash).
Proof. unfold Contains, values. rewrite lookup_fmap. by destruct (map_ c !! hash). Qed.
Lemma pinned_values hash c : 0 < GetPinCount hash c → is_Some (values c !! hash).
Proof. unfold GetPinCount, values. rewrite lookup_fmap. destruct (map_ c !! hash); [done|lia]. Qed.
Lemma pins_nonneg hash c : wf c → 0 <= GetPinCount hash c.
Proof.
  intros [Hwf _]. unfold GetPinCount. destruct (map_ c !! hash) as [n|] eqn:E; [|lia].
  apply (wf_pins _ Hwf _ _ E).
Qed.
Lemma pinned_Contains hash c : wf c → 0 < GetPinCount hash c → Contains hash c = true.
Proof.
  intros [Hwf _]. unfold GetPinCount, Contains. destruct (map_ c !! hash) as [n|] eqn:E; [|lia].
  intros Hp. apply (wf_pins _ Hwf _ _ E) in Hp. by rewrite Hp.
Qed.

Lemma times_cons hash h l : times hash (h :: l) = (if decide (h = hash) then 1 else 0) + times hash l.
Proof. unfold times. rewrite filter_cons. by case_decide; cbn [length]; lia. Qed.
Lemma times_app hash l l' : times hash (l ++ l') = times hash l + times hash l'.
Proof. unfold times. rewrite filter_app, length_app. lia. Qed.
Lemma times_nonneg hash l : 0 <= times hash l.
Proof. unfold times. lia. Qed.
Lemma times_notin hash l : hash ∉ l → times hash l = 0.
Proof.
  induction l as [|h l IH]; intros Hn; [done|]. rewrite times_cons. apply not_elem_of_cons in Hn as [Hne Hn].
  rewrite decide_False by done. by rewrite IH.
Qed.
Lemma times_Permutation hash l l' : l ≡ₚ l' → times hash l = times hash l'.
Proof. intros H. unfold times. by rewrite H. Qed.

Lemma Pin_absent hash c : values c !! hash = None → LruCache.Pin hash c = (false, c).
Proof.
  unfold values, LruCache.Pin, GetAndPin. rewrite lookup_fmap. by destruct (map_ c !! hash).
Qed.
Lemma Pin_view hash c :
  wf c → GetPinCount hash c < INT_MAX → is_Some (values c !! hash) →
  let '(ok, c') := LruCache.Pin hash c in
  ok = true ∧ wf c' ∧ values c' = values c ∧ capacity_ c' = capacity_ c ∧
  (∀ k, GetPinCount k c' = GetPinCount k c + (if decide (hash = k) then 1 else 0)) ∧
  (∀ k, Contains k c' = Contains k c || bool_decide (hash = k)).
Proof.
  intros Hwf Hmax [b Hb]. pose proof (GetAndPin_wf hash c Hwf Hmax) as Hwf'.
  unfold values in Hb. rewrite lookup_fmap in Hb. destruct (map_ c !! hash) as [n|] eqn:E; [|done].
  assert (pin_count n < INT_MAX) as Hn by (unfold GetPinCount in Hmax; by rewrite E in Hmax).
  destruct (GetAndPin_eq c hash n Hwf E Hn) as (Hv & Hm & _ & _).
  assert (capacity_ (GetAndPin hash c).2 = capacity_ c) as Hcap.
  { unfold GetAndPin. rewrite E. cbn [snd]. unfold set_pin_count. cbn. case_match; [|done].
    unfold set_location. cbn. rewrite OnUnpinnedNodeRemoved_eq. by case_match; rewrite ?capacity_splice_begin. }
  unfold LruCache.Pin. destruct (GetAndPin hash c) as [r c'] eqn:Eg. cbn in *. subst r.
  split; [by rewrite bool_decide_true|]. split; [done|]. split; [|split; [done|split]].
  - unfold values. rewrite Hm, fmap_insert. apply insert_id. by rewrite lookup_fmap, E.
  - intros k. unfold GetPinCount. rewrite Hm. destruct (decide (hash = k)) as [<-|Hne].
    + by rewrite lookup_insert_eq, E.
    + rewrite lookup_insert_ne by done. lia.
  - intros k. unfold Contains. rewrite Hm. destruct (decide (hash = k)) as [<-|Hne].
    + rewrite lookup_insert_eq. cbn. by rewrite (bool_decide_true (hash = hash)), orb_true_r.
    + by rewrite lookup_insert_ne, (bool_decide_false (hash = k)), orb_false_r.
Qed.

Lemma Unpin_view hash c :
  wf c →
  let c' := (LruCache.Unpin hash c).2 in
  wf c' ∧ values c' = values c ∧ capacity_ c' = capacity_ c ∧
  (∀ k, GetPinCount k c' = Z.max 0 (GetPinCount k c - (if decide (hash = k) then 1 else 0))) ∧
  (∀ k, Contains k c' = Contains k c).
Proof.
  intros Hwf c'. pose proof (Unpin_wf hash c Hwf) as Hwf'. fold c' in Hwf'. split; [done|].
  pose proof (λ k, pins_nonneg k c Hwf) as Hpos.
  assert (capacity_ c' = capacity_ c) as Hcap.
  { unfold c', LruCache.Unpin. repeat case_match; try done; cbn [snd]; try done.
    rewrite OnUnpinnedNodeAdded_eq. cbn. by rewrite capacity_splice_begin. }
  destruct (Z.ltb_spec 0 (GetPinCount hash c)) as [Hp|Hp].
  - unfold GetPinCount in Hp. destruct (map_ c !! hash) as [n|] eqn:E; [|lia].
    destruct (Unpin_eq c hash n (proj1 Hwf) E Hp) as (Hm & _ & _). fold c' in Hm.
    split; [|split; [done|split]].
    + unfold values. rewrite Hm, fmap_insert. apply insert_id. by rewrite lookup_fmap, E.
    + intros k. specialize (Hpos k). unfold GetPinCount in *. rewrite Hm. destruct (decide (hash = k)) as [<-|Hne].
      * rewrite lookup_insert_eq, E. cbn. lia.
      * rewrite lookup_insert_ne by done. lia.
    + intros k. unfold Contains. rewrite Hm. destruct (decide (hash = k)) as [<-|Hne].
      * rewrite lookup_insert_eq, E. cbn. apply (wf_pins _ (proj1 Hwf) _ _ E) in Hp. rewrite Hp. by case_match.
      * by rewrite lookup_insert_ne.
  - assert (c' = c) as ->.
    { unfold c', LruCache.Unpin. unfold GetPinCount in Hp. destruct (map_ c !! hash) as [n|]; [|done].
      by rewrite (proj2 (Z.ltb_ge _ _)). }
    split; [done|]. split; [done|]. split; [|done]. intros k. specialize (Hpos k). case_decide; subst; lia.
Qed.

Lemma emplace_front_view hash b c :
  values (emplace_front hash b c) = <[hash := b]> (values c) ∧
  capacity_ (emplace_front hash b c) = capacity_ c ∧
  (∀ k, GetPinCount k (emplace_front hash b c) = if decide (hash = k) then 0 else GetPinCount k c) ∧
  Contains hash (emplace_front hash b c) = true.
Proof.
  unfold emplace_front. rewrite OnUnpinnedNodeAdded_eq. unfold values, GetPinCount, Contains. cbn.
  rewrite fmap_insert, lookup_insert_eq. split; [done|]. split; [done|]. split; [|done].
  intros k. case_decide; subst; [by rewrite lookup_insert_eq|by rewrite lookup_insert_ne].
Qed.

Lemma Put_view hash b c :
  wf c →
  let c' := (Put hash b c).2 in
  wf c' ∧ capacity_ c' = capacity_ c ∧ (∀ k, GetPinCount k c' = GetPinCount k c) ∧
  (values c !! hash = None ∧ lru_list_ c = [] ∧ (capacity_ c <= active_size c)%nat ∧ c' = c ∨
   values c' = <[hash := b]> (values c) ∧ Contains hash c' = true).
Proof.
  intros Hwf c'. pose proof (Put_wf hash b c Hwf) as Hwf'. fold c' in Hwf'. split; [done|].
  unfold c', Put in *. destruct (map_ c !! hash) as [n|] eqn:E.
  - destruct (overwrite_value_eq c hash n b E) as (Hm & _ & Hcap).
    pose proof (overwrite_value_wf c hash n b Hwf E) as [Hwo _].
    destruct (Promote_eq _ hash _ Hwo ltac:(rewrite Hm; apply lookup_insert_eq)) as (Hp & _ & Hcap' & _).
    cbn [snd]. rewrite Hcap', Hcap. split; [done|]. rewrite Hm, insert_insert_eq in Hp. split.
    + intros k. unfold GetPinCount. rewrite Hp. destruct (decide (hash = k)) as [<-|Hne].
      * by rewrite lookup_insert_eq, E.
      * by rewrite lookup_insert_ne.
    + right. unfold values, Contains. rewrite Hp, fmap_insert, lookup_insert_eq. split; [done|]. cbn. by case_match.
  - assert (GetPinCount hash c = 0) as Hz by (unfold GetPinCount; by rewrite E).
    destruct (Nat.leb_spec (capacity_ c) (active_size c)) as [Hcap|Hcap].
    + destruct (Evict_cases c (proj1 Hwf)) as [[Hl Ev]|(l & key & n & _ & Hk & _ & Hpk & Ev)]; rewrite Ev; cbn [snd].
      * split; [done|]. split; [done|]. left. unfold values. by rewrite lookup_fmap, E.
      * destruct (emplace_front_view hash b (Evict c).2) as (Hv & Hc & Hp & Hcon). rewrite Ev in Hv, Hc, Hp, Hcon. cbn [snd] in *.
        split; [done|]. split.
        -- intros k. rewrite Hp. case_decide; [by subst|]. unfold GetPinCount. cbn.
           destruct (decide (key = k)) as [<-|]; [by rewrite lookup_insert_eq, Hk|by rewrite lookup_insert_ne].
        -- right. split; [|done]. rewrite Hv. f_equal. unfold values. cbn. rewrite fmap_insert. apply insert_id.
           by rewrite lookup_fmap, Hk.
    + destruct (emplace_front_view hash b c) as (Hv & Hc & Hp & Hcon). cbn [snd]. split; [done|]. split; [|by right].
      intros k. rewrite Hp. case_decide; by subst.
Qed.

Lemma UpdateValue_view hash b c :
  wf c → Contains hash c = true →
  let '(ok, c') := UpdateValue hash b c in
  ok = true ∧ wf c' ∧ values c' = <[hash := b]> (values c) ∧ capacity_ c' = capacity_ c ∧
  (∀ k, GetPinCount k c' = GetPinCount k c) ∧ (∀ k, Contains k c' = Contains k c).
Proof.
  intros Hwf Hc. pose proof (UpdateValue_wf hash b c Hwf) as Hwf'. unfold UpdateValue in *. unfold Contains in Hc.
  destruct (map_ c !! hash) as [n|] eqn:E; [|done]. case_bool_decide as Hl; [done|]. cbn in Hwf'.
  destruct (overwrite_value_eq c hash n b E) as (Hm & _ & Hcap). split; [done|]. split; [done|].
  split; [unfold values; by rewrite Hm, fmap_insert|]. split; [done|]. split; intros k.
  - unfold GetPinCount. rewrite Hm. destruct (decide (hash = k)) as [<-|];
      [by rewrite lookup_insert_eq, E|by rewrite lookup_insert_ne].
  - unfold Contains. rewrite Hm. destruct (decide (hash = k)) as [<-|];
      [by rewrite lookup_insert_eq, E|by rewrite lookup_insert_ne].
Qed.

Lemma Erase_view hash c :
  wf c → GetPinCount hash c = 0 →
  let c' := (Erase hash c).2 in
  wf c' ∧ values c' = delete hash (values c) ∧ capacity_ c' = capacity_ c ∧
  (∀ k, GetPinCount k c' = GetPinCount k c) ∧ (∀ k, k ≠ hash → Contains k c' = Contains k c).
Proof.
  intros Hwf Hz c'. pose proof (Erase_wf hash c Hwf) as Hwf'. fold c' in Hwf'. split; [done|].
  destruct (map_ c !! hash) as [n|] eqn:E.
  - assert (pin_count n = 0) as Hn by (unfold GetPinCount in Hz; by rewrite E in Hz).
    destruct (Erase_eq c hash n (proj1 Hwf) E Hn) as (_ & Hm & _ & _). fold c' in Hm.
    split; [unfold values; by rewrite Hm, fmap_delete|]. split.
    { unfold c', Erase. rewrite E, Hn. cbn. rewrite OnUnpinnedNodeRemoved_eq. by case_match; rewrite ?capacity_set_list. }
    split; intros k; unfold GetPinCount, Contains; rewrite Hm.
    + destruct (decide (hash = k)) as [<-|]; [by rewrite lookup_delete_eq, E|by rewrite lookup_delete_ne].
    + intros Hne. by rewrite lookup_delete_ne.
  - assert (c' = c) as -> by (unfold c', Erase; by rewrite E).
    split; [|done]. symmetry. apply delete_id. unfold values. by rewrite lookup_fmap, E.
Qed.

(** The space left for new hashes depends on the pins alone. *)
Lemma available_space_pins c c' :
  wf c → wf c' → capacity_ c' = capacity_ c → (∀ k, 0 < GetPinCount k c' ↔ 0 < GetPinCount k c) →
  available_space c' = available_space c.
Proof.
  intros [Hwf _] [Hwf' _] Hcap Hp.
  assert (∀ (d : LRUCache string RaidenBlockId) k, wf_nodes d → k ∈ pinned_list_ d ↔ 0 < GetPinCount k d) as Hel.
  { intros d k Hd. change (pinned_list_ d) with (list_of kPinned d). rewrite (wf_lists _ Hd). unfold GetPinCount.
    destruct (map_ d !! k) as [n|] eqn:E; [|naive_solver lia]. rewrite (proj2 (wf_pins _ Hd _ _ E)). naive_solver. }
  assert (pinned_list_ c' ≡ₚ pinned_list_ c) as Hperm.
  { apply NoDup_Permutation; [apply (wf_nodup _ Hwf' kPinned)|apply (wf_nodup _ Hwf kPinned)|].
    intros k. rewrite !Hel by done. apply Hp. }
  unfold available_space. by rewrite (Permutation_length Hperm), Hcap.
Qed.

(** [Put] inserts when there is space. *)
Lemma Put_space hash b c :
  wf c → (0 < available_space c)%nat ∨ is_Some (values c !! hash) →
  values (Put hash b c).2 = <[hash := b]> (values c) ∧ Contains hash (Put hash b c).2 = true.
Proof.
  intros Hwf Hsp. destruct (Put_view hash b c Hwf) as (_ & _ & _ & [(Hn & Hl & Hc & _)|H]); [|done].
  destruct Hsp as [Hsp|[? Hs]]; [|congruence]. exfalso. revert Hsp. unfold available_space, active_size in *.
  rewrite Hl in Hc. cbn in Hc. case_match eqn:El; [|lia]. apply Nat.ltb_lt in El. lia.
Qed.

(** ** Pinning and releasing *)
Lemma unpin_all_view l s :
  wf (lru_cache_ s) →
  let s' := unpin_all l s in
  s' = set_cache (lru_cache_ s') s ∧ wf (lru_cache_ s') ∧ values (lru_cache_ s') = values (lru_cache_ s) ∧
  capacity_ (lru_cache_ s') = capacity_ (lru_cache_ s) ∧
  (∀ k, GetPinCount k (lru_cache_ s') = Z.max 0 (GetPinCount k (lru_cache_ s) - times k l)) ∧
  (∀ k, Contains k (lru_cache_ s') = Contains k (lru_cache_ s)).
Proof.
  unfold unpin_all. revert s; induction l as [|h l IH]; intros s Hwf; cbn [foldl].
  { split; [by destruct s|]. do 3 (split; [done|]). split; [|done]. intros k.
    pose proof (pins_nonneg k _ Hwf). unfold times. cbn. lia. }
  destruct (Unpin_view h (lru_cache_ s) Hwf) as (Hw & Hv & Hc & Hp & Hcon).
  destruct (IH (unpin_hash s h) Hw) as (E & Hw' & Hv' & Hc' & Hp' & Hcon'). cbn [lru_cache_ unpin_hash set_cache] in *.
  split; [exact E|]. split; [done|]. split; [by rewrite Hv'|]. split; [by rewrite Hc'|]. split.
  - intros k. rewrite Hp', Hp, times_cons. pose proof (times_nonneg k l). repeat case_decide; subst; try done; lia.
  - intros k. by rewrite Hcon'.
Qed.

Lemma pins_room_Pin n hash c c' :
  pins_room (S n) c → (∀ k, GetPinCount k c' = GetPinCount k c + (if decide (hash = k) then 1 else 0)) → pins_room n c'.
Proof. intros Hr Hp k. specialize (Hr k). rewrite Hp. case_decide; lia. Qed.

(** ** Local lookups *)

(** The pairs up to the first miss. *)
Fixpoint while_some {A B} (f : A → option B) (l : list A) : list (A * B) :=
  match l with
  | [] => []
  | x :: rest => match f x with Some y => (x, y) :: while_some f rest | None => [] end
  end.

Section lookup_views.
Context (options : LookupOptions).
Context (Hopt : lo_include_eviction_candidates options && lo_pin_found options = false).

Lemma lookup_hit_same hash c c' :
  values c' = values c → (∀ k, Contains k c' = Contains k c) →
  lookup_peek options hash c' = lookup_peek options hash c ∧ lookup_hit options hash c' = lookup_hit options hash c.
Proof.
  intros Hv Hc. assert (lookup_peek options hash c' = lookup_peek options hash c) as E.
  { unfold lookup_peek. by rewrite !peek_values, !Peek_values, Hv, Hc. }
  split; [done|]. unfold lookup_hit. by rewrite E.
Qed.

(** Taking a hit pins it, if asked, and changes nothing else. *)
Lemma take_hit_view hash b n c :
  wf c → pins_room (S n) c → lookup_peek options hash c = Some b →
  let c' := take_hit options hash c in
  wf c' ∧ pins_room n c' ∧ values c' = values c ∧ capacity_ c' = capacity_ c ∧
  (∀ k, GetPinCount k c' = GetPinCount k c + (if lo_pin_found options then times k [hash] else 0)) ∧
  (∀ k, Contains k c' = Contains k c).
Proof.
  intros Hwf Hr Hb c'. unfold c', take_hit. destruct (lo_pin_found options) eqn:Ep.
  - rewrite andb_true_r in Hopt. unfold lookup_peek in Hb. rewrite Hopt, Peek_values in Hb.
    destruct (Contains hash c) eqn:Ec; [|done].
    pose proof (Pin_view hash c Hwf ltac:(specialize (Hr hash); lia) ltac:(by eexists)) as H.
    destruct (LruCache.Pin hash c) as [ok d]. destruct H as (_ & Hw & Hv & Hcap & Hp & Hc). cbn.
    split; [done|]. split; [by eapply pins_room_Pin|]. split; [done|]. split; [done|]. split; intros k.
    + rewrite Hp, times_cons. unfold times. cbn. lia.
    + rewrite Hc. case_bool_decide; subst; [by rewrite Ec|by rewrite orb_false_r].
  - split; [done|]. split; [intros k; specialize (Hr k); lia|]. do 2 (split; [done|]). split; [intros k; lia|done].
Qed.

Definition taken (results : BlockSliceList) (k : string) : Z :=
  if lo_pin_found options then times k results.*1 else 0.

Lemma lookup_prefix_view hashes c :
  wf c → pins_room (length hashes) c →
  let '(results, c') := lookup_prefix options hashes c in
  results = while_some (λ h, lookup_hit options h c) hashes ∧
  wf c' ∧ values c' = values c ∧ capacity_ c' = capacity_ c ∧
  (∀ k, GetPinCount k c' = GetPinCount k c + taken results k) ∧ (∀ k, Contains k c' = Contains k c).
Proof.
  unfold taken. revert c; induction hashes as [|h rest IH]; intros c Hwf Hr; cbn [lookup_prefix while_some].
  { do 4 (split; [done|]). split; [|done]. intros k. unfold times. cbn. case_match; lia. }
  destruct (lookup_hit options h c) as [b|] eqn:Eh.
  2:{ do 4 (split; [done|]). split; [|done]. intros k. unfold times. cbn. case_match; lia. }
  assert (lookup_peek options h c = Some b) as Hp.
  { unfold lookup_hit in Eh. destruct (lookup_peek options h c); [|done]. by case_match; simplify_eq. }
  destruct (take_hit_view h b (length rest) c Hwf Hr Hp) as (Hw & Hr' & Hv & Hcap & Hpin & Hc).
  specialize (IH _ Hw Hr'). destruct (lookup_prefix options rest (take_hit options h c)) as [results c'].
  destruct IH as (-> & Hw' & Hv' & Hcap' & Hpin' & Hc'). split.
  { f_equal. clear -Hv Hc. induction rest as [|x l IH]; [done|]. cbn.
    rewrite (proj2 (lookup_hit_same x c _ Hv Hc)). case_match; [|done]. by rewrite IH. }
  split; [done|]. split; [congruence|]. split; [congruence|]. split; intros k.
  - rewrite Hpin', Hpin. cbn [fmap list_fmap fst]. rewrite !times_cons. unfold times at 1. cbn. case_match; lia.
  - by rewrite Hc'.
Qed.

Lemma lookup_subset_view hashes c :
  wf c → pins_room (length hashes) c →
  let '(results, c') := lookup_subset options hashes c in
  results = omap (λ h, pair h <$> lookup_hit options h c) hashes ∧
  wf c' ∧ values c' = values c ∧ capacity_ c' = capacity_ c ∧
  (∀ k, GetPinCount k c' = GetPinCount k c + taken results k) ∧ (∀ k, Contains k c' = Contains k c).
Proof.
  unfold taken. revert c; induction hashes as [|h rest IH]; intros c Hwf Hr; cbn [lookup_subset omap list_omap].
  { do 4 (split; [done|]). split; [|done]. intros k. unfold times. cbn. case_match; lia. }
  destruct (lookup_hit options h c) as [b|] eqn:Eh.
  2:{ apply IH; [done|]. intros k. specialize (Hr k). cbn [length] in Hr. lia. }
  assert (lookup_peek options h c = Some b) as Hp.
  { unfold lookup_hit in Eh. destruct (lookup_peek options h c); [|done]. by case_match; simplify_eq. }
  destruct (take_hit_view h b (length rest) c Hwf Hr Hp) as (Hw & Hr' & Hv & Hcap & Hpin & Hc).
  specialize (IH _ Hw Hr'). destruct (lookup_subset options rest (take_hit options h c)) as [results c'].
  destruct IH as (-> & Hw' & Hv' & Hcap' & Hpin' & Hc'). split.
  { cbn. f_equal. apply list_omap_ext, Forall2_same_length_lookup_2; [done|]. intros i x y Hx Hy. simplify_eq.
    by rewrite (proj2 (lookup_hit_same x c _ Hv Hc)). }
  split; [done|]. split; [congruence|]. split; [congruence|]. split; intros k.
  - rewrite Hpin', Hpin. cbn [fmap list_fmap fst option_fmap option_map]. rewrite !times_cons. unfold times at 1. cbn. case_match; lia.
  - by rewrite Hc'.
Qed.
End lookup_views.

(** ** The global lookup *)

(** The local hits of a sweep, or of a part of it. *)
Definition hits_of (hits : list (string * bool)) : list string :=
  omap (λ hh : string * bool, if hh.2 then Some hh.1 else None) hits.

Lemma hits_of_app l l' : hits_of (l ++ l') = hits_of l ++ hits_of l'.
Proof. apply omap_app. Qed.
Lemma hits_of_none hashes n : hits_of (zip hashes (replicate n false)) = [].
Proof. revert n; induction hashes as [|h l IH]; intros [|n]; try done. cbn. apply IH. Qed.

Lemma hits_of_times hash n l : l !! n = Some (hash, true) → 1 <= times hash (hits_of l).
Proof.
  intros Hz. rewrite <- (take_drop_middle _ _ _ Hz), hits_of_app, times_app.
  change (hits_of ((hash, true) :: drop (S n) l)) with (hash :: hits_of (drop (S n) l)).
  rewrite times_cons, decide_True by done. pose proof (times_nonneg hash (hits_of (take n l))).
  pose proof (times_nonneg hash (hits_of (drop (S n) l))). lia.
Qed.

Section global_lookup.
Context (options : LookupOptions).
Context (Hopt : lo_include_eviction_candidates options && lo_pin_found options = false).

Lemma lookup_sweep_view hashes c :
  wf c → pins_room (length hashes) c →
  let '(hits, missing, c') := lookup_sweep options hashes c in
  length hits = length hashes ∧ wf c' ∧ values c' = values c ∧ capacity_ c' = capacity_ c ∧
  (∀ k, GetPinCount k c' = GetPinCount k c + (if lo_pin_found options then times k (hits_of (zip hashes hits)) else 0)) ∧
  (∀ k, Contains k c' = Contains k c) ∧
  (∀ i hash, hashes !! i = Some hash → hits !! i = Some true → is_Some (lookup_peek options hash c)).
Proof.
  revert c; induction hashes as [|h rest IH]; intros c Hwf Hr; cbn [lookup_sweep].
  { do 4 (split; [done|]). split; [intros k; unfold times; cbn; case_match; lia|]. done. }
  destruct (lookup_peek options h c) as [b|] eqn:Ep.
  - destruct (take_hit_view options Hopt h b (length rest) c Hwf Hr Ep) as (Hw & Hr' & Hv & Hcap & Hpin & Hc).
    specialize (IH _ Hw Hr'). destruct (lookup_sweep options rest (take_hit options h c)) as [[hits missing] c'].
    destruct IH as (Hl & Hw' & Hv' & Hcap' & Hpin' & Hc' & Hsome).
    split; [cbn; by rewrite Hl|]. split; [done|]. split; [congruence|]. split; [congruence|]. split; [|split].
    + intros k. rewrite Hpin', Hpin. change (hits_of (zip (h :: rest) (true :: hits))) with (h :: hits_of (zip rest hits)).
      rewrite !times_cons. unfold times at 1. cbn. case_match; lia.
    + intros k. by rewrite Hc'.
    + intros [|i] hash Hi Ht; cbn in Hi, Ht; [simplify_eq; by rewrite Ep|].
      rewrite <- (proj1 (lookup_hit_same options hash c _ Hv Hc)). by eapply Hsome.
  - destruct (lo_enable_interleaved_lookup options); cbn [negb].
    + specialize (IH c Hwf). destruct (lookup_sweep options rest c) as [[hits missing] c'].
      destruct IH as (Hl & Hw' & Hv' & Hcap' & Hpin' & Hc' & Hsome);
        [intros k; specialize (Hr k); cbn [length] in Hr; lia|].
      split; [cbn; by rewrite Hl|]. do 4 (split; [done|]). split; [done|].
      intros [|i] hash Hi Ht; [done|]. by eapply Hsome.
    + split; [by rewrite length_replicate|]. do 3 (split; [done|]). split; [|split; [done|]].
      * intros k. change (false :: replicate (length rest) false) with (replicate (length (h :: rest)) false).
        rewrite hits_of_none. unfold times. cbn. case_match; lia.
      * intros i hash _ Ht. change (false :: replicate (length rest) false) with (replicate (length (h :: rest)) false) in Ht.
        by apply lookup_replicate in Ht as [? _].
Qed.

(** The assembled prefix names the hashes in order and stops only at a hash that is
    not a local hit, or whose entry has gone. *)
Lemma lookup_assemble_view local_id c hits remote :
  let results := lookup_assemble options local_id c hits remote in
  results.*1 = take (length results) hits.*1 ∧ (length results <= length hits)%nat ∧
  (∀ hash, hits !! length results = Some (hash, true) → lookup_peek options hash c = None) ∧
  (∀ i hash b, results !! i = Some (hash, b) → hits !! i = Some (hash, true) → lookup_peek options hash c = Some b) ∧
  (∀ i hash b, results !! i = Some (hash, b) → hits !! i = Some (hash, false) →
     status b = REMOTE ∧ raiden_id b ≠ local_id).
Proof.
  revert remote; induction hits as [|[h t] rest IH]; intros remote; cbn [lookup_assemble]; [by repeat split|].
  destruct t.
  - destruct (lookup_peek options h c) as [b|] eqn:Ep; [|repeat split; cbn; try lia; try done; by intros ? [= <-]].
    destruct (IH remote) as (H1 & H2 & H3 & H4 & H5). cbn [fmap list_fmap length take fst].
    split; [by f_equal|]. split; [lia|]. split; [done|]. split; intros [|i] hash b' Hi Ht; cbn in Hi, Ht; simplify_eq; eauto.
  - destruct remote as [|[rid blk] more]; [by repeat split; cbn; lia || done|].
    destruct (RaidenId_eqb rid local_id) eqn:Er; [by repeat split; cbn; lia || done|].
    destruct (IH more) as (H1 & H2 & H3 & H4 & H5). cbn [fmap list_fmap length take fst].
    split; [by f_equal|]. split; [lia|]. split; [done|]. split; intros [|i] hash b' Hi Ht; cbn in Hi, Ht; simplify_eq; eauto.
    split; [done|]. cbn. intros E. apply RaidenId_eqb_eq in E. congruence.
Qed.

End global_lookup.

(** A global lookup leaves exactly the pins of what it returns.  The sweep pins
    each local hit once; however the other clients change the backend during the
    registry call, as long as those pins are left alone, the second half returns a
    prefix of the asked hashes, never stops at a local hit, takes every local hit's
    block from the cache and every other from a peer, and gives back exactly the
    pins past the prefix.  It leaves values and metadata alone. *)
Theorem global_lookup_pins options hashes s s2 remote :
  lo_pin_found options = true → lo_include_eviction_candidates options = false →
  wf (lru_cache_ s) → pins_room (length hashes) (lru_cache_ s) → wf (lru_cache_ s2) →
  let '(hits, missing, c1) := lookup_sweep options hashes (lru_cache_ s) in
  let local := zip hashes hits in
  (∀ k, times k (hits_of local) <= GetPinCount k (lru_cache_ s2)) →
  let '(results, s3) := lookup_finish options hashes hits remote s2 in
  let n := length results in
  (∀ k, GetPinCount k c1 = GetPinCount k (lru_cache_ s) + times k (hits_of local)) ∧
  (∀ k, GetPinCount k (lru_cache_ s3) =
          GetPinCount k (lru_cache_ s2) - times k (hits_of local) + times k (hits_of (take n local))) ∧
  results.*1 = take n hashes ∧ hits !! n ≠ Some true ∧
  (∀ i hash b, results !! i = Some (hash, b) → hits !! i = Some true → values (lru_cache_ s2) !! hash = Some b) ∧
  (∀ i hash b, results !! i = Some (hash, b) → hits !! i = Some false →
     status b = REMOTE ∧ raiden_id b ≠ raiden_id_ s2) ∧
  values (lru_cache_ s3) = values (lru_cache_ s2) ∧ metadata_ s3 = metadata_ s2.
Proof.
  intros Hpin Hinc Hwf Hr Hwf2. pose proof (lookup_sweep_view options ltac:(by rewrite Hinc) hashes (lru_cache_ s) Hwf Hr) as Hsw.
  destruct (lookup_sweep options hashes (lru_cache_ s)) as [[hits missing] c1].
  destruct Hsw as (Hlen & _ & _ & _ & Hp1 & _ & _). rewrite Hpin in Hp1. cbn zeta. intros Hkept.
  unfold lookup_finish. rewrite Hpin.
  destruct (lookup_assemble_view options (raiden_id_ s2) (lru_cache_ s2) (zip hashes hits) remote) as (H1 & H2 & H3 & H4 & H5).
  set (results := lookup_assemble _ _ _ _ _) in *. set (n := length results) in *.
  destruct (unpin_all_view (hits_of (drop n (zip hashes hits))) s2 Hwf2) as (E & _ & Hv & _ & Hp3 & _).
  fold (hits_of (drop n (zip hashes hits))). cbn zeta in *.
  assert (∀ k, times k (hits_of (zip hashes hits)) =
    times k (hits_of (take n (zip hashes hits))) + times k (hits_of (drop n (zip hashes hits)))) as Hsplit.
  { intros k. by rewrite <- times_app, <- hits_of_app, take_drop. }
  assert (∀ i hash b t, results !! i = Some (hash, b) → hits !! i = Some t → zip hashes hits !! i = Some (hash, t)) as Hzip.
  { intros i hash b t Hi Ht. apply lookup_zip_with_Some. exists hash, t. split; [done|]. split; [|done].
    assert (results.*1 !! i = Some hash) as Hf by (by rewrite list_lookup_fmap, Hi).
    rewrite H1, fst_zip in Hf by lia. by apply lookup_take_Some in Hf as [? _]. }
  split; [done|]. split.
  { intros k. rewrite Hp3, Hsplit. specialize (Hkept k). rewrite Hsplit in Hkept.
    pose proof (times_nonneg k (hits_of (take n (zip hashes hits)))). lia. }
  rewrite H1, fst_zip by lia. split; [done|]. split.
  { intros Ht. destruct (lookup_lt_is_Some_2 hashes n) as [hash Hh]; [apply lookup_lt_Some in Ht; lia|].
    assert (zip hashes hits !! n = Some (hash, true)) as Hz by (apply lookup_zip_with_Some; eauto).
    pose proof (H3 hash Hz) as Hnone. unfold lookup_peek in Hnone. rewrite Hinc, Peek_values in Hnone.
    assert (0 < GetPinCount hash (lru_cache_ s2)) as Hpos.
    { specialize (Hkept hash). pose proof (hits_of_times _ _ _ Hz). lia. }
    rewrite (pinned_Contains _ _ Hwf2 Hpos) in Hnone. destruct (pinned_values _ _ Hpos). congruence. }
  split; [|split; [|split; [done|by rewrite E]]].
  - intros i hash b Hi Ht. pose proof (H4 i hash b Hi (Hzip _ _ _ _ Hi Ht)) as Hb.
    unfold lookup_peek in Hb. rewrite Hinc, Peek_values in Hb. by case_match.
  - intros i hash b Hi Ht. exact (H5 i hash b Hi (Hzip _ _ _ _ Hi Ht)).
Qed.

(** ** The metadata table mirrors the cache *)

(** The local host block an entry holds. *)
Definition host_block b : option Z := if IsHostResidentStatus (status b) then Some (host_block_id b) else None.
Definition host_of c hash : option Z := values c !! hash ≫= host_block.
Definition bound (m : KVCacheMetadata) (blk : Z) : option string := fst <$> binding_at m blk.

(** The table binds a block to a hash exactly when the hash's entry holds the block,
    but for the blocks of [X], whose slots may say anything. *)
Record mirrors_but (X : gset Z) s (m : KVCacheMetadata) : Prop := {
  mi_cache : wf (lru_cache_ s);
  mi_table : metadata_ s = Some m;
  mi_ok : table_ok m;
  mi_exact_but blk hash :
    0 <= blk < md_num_blocks m → blk ∉ X → bound m blk = Some hash ↔ host_of (lru_cache_ s) hash = Some blk;
  mi_range hash blk : host_of (lru_cache_ s) hash = Some blk → set_accepts blk hash m = true;
}.

Abbreviation mirrors := (mirrors_but ∅).
Lemma mi_exact s m (Hm : mirrors s m) blk hash :
  0 <= blk < md_num_blocks m → bound m blk = Some hash ↔ host_of (lru_cache_ s) hash = Some blk.
Proof. intros Hi. apply (mi_exact_but _ _ _ Hm); [done|apply not_elem_of_empty]. Qed.

(** A block no entry holds, which the table can bind to the hash. *)
Definition block_fresh (m : KVCacheMetadata) hash b c : Prop :=
  ∀ blk, host_block b = Some blk → set_accepts blk hash m = true ∧ ∀ h, host_of c h ≠ Some blk.
(** The same, or the block the hash's own entry holds. *)
Definition block_own (m : KVCacheMetadata) hash b c : Prop :=
  ∀ blk, host_block b = Some blk → set_accepts blk hash m = true ∧ ∀ h, host_of c h = Some blk → h = hash.
Lemma fresh_own m hash b c : block_fresh m hash b c → block_own m hash b c.
Proof. intros Hf blk Hb. destruct (Hf blk Hb) as [Ha Hn]. split; [done|]. intros h Hh. by destruct (Hn h). Qed.

Lemma lru_SetMetadataEntry hash b s : lru_cache_ (SetMetadataEntry hash b s) = lru_cache_ s.
Proof. unfold SetMetadataEntry. by repeat case_match. Qed.
Lemma lru_ClearMetadataEntry b s : lru_cache_ (ClearMetadataEntry b s) = lru_cache_ s.
Proof. unfold ClearMetadataEntry. by repeat case_match. Qed.
Lemma lru_clear_stale hash s : lru_cache_ (clear_stale hash s) = lru_cache_ s.
Proof. unfold clear_stale. case_match; [apply lru_ClearMetadataEntry|done]. Qed.

Lemma SetMetadataEntry_table hash b s m :
  metadata_ s = Some m → table_ok m → (∀ blk, host_block b = Some blk → set_accepts blk hash m = true) →
  ∃ m', metadata_ (SetMetadataEntry hash b s) = Some m' ∧ table_ok m' ∧ md_num_blocks m' = md_num_blocks m ∧
    ∀ i, 0 <= i < md_num_blocks m → bound m' i = if decide (host_block b = Some i) then Some hash else bound m i.
Proof.
  intros Em Hm Ha. unfold SetMetadataEntry. rewrite Em. unfold host_block in *. destruct (IsHostResidentStatus _); cbn [negb].
  - specialize (Ha _ eq_refl). destruct (Set_table_ok (host_block_id b) hash (next_metadata_seq_ s) m Hm) as [Hok Hn].
    eexists. split; [done|]. split; [done|]. split; [done|]. intros i Hi. unfold bound.
    rewrite binding_at_Set by done. by repeat case_decide; simplify_eq.
  - exists m. by split_and!.
Qed.
Lemma clear_stale_table hash s m :
  metadata_ s = Some m → table_ok m → (∀ blk, host_of (lru_cache_ s) hash = Some blk → 0 <= blk < md_num_blocks m) →
  ∃ m', metadata_ (clear_stale hash s) = Some m' ∧ table_ok m' ∧ md_num_blocks m' = md_num_blocks m ∧
    ∀ i, 0 <= i < md_num_blocks m → bound m' i = if decide (host_of (lru_cache_ s) hash = Some i) then None else bound m i.
Proof.
  intros Em Hm Ha. unfold clear_stale, host_of in *. rewrite peek_values. destruct (values _ !! hash) as [b|]; cbn in *;
    [|by exists m]. unfold ClearMetadataEntry, host_block in *. rewrite Em.
  destruct (IsHostResidentStatus _); cbn [negb]; [|by exists m].
  specialize (Ha _ eq_refl). destruct (Clear_table_ok (host_block_id b) m Hm) as [Hok Hn].
  eexists. split; [done|]. split; [done|]. split; [done|]. intros i Hi. unfold bound.
  rewrite binding_at_Clear by done. by repeat case_decide; simplify_eq.
Qed.

Lemma metadata_set_cache c s : metadata_ (set_cache c s) = metadata_ s.
Proof. done. Qed.
Lemma set_accepts_same blk hash m m' :
  md_num_blocks m' = md_num_blocks m → set_accepts blk hash m' = set_accepts blk hash m.
Proof. intros E. unfold set_accepts, block_in_range. by rewrite E. Qed.

Lemma mirror_replace {X} s m hash b c' :
  mirrors_but X s m → wf c' → values c' = <[hash := b]> (values (lru_cache_ s)) → block_own m hash b (lru_cache_ s) →
  ∃ m', mirrors_but X (SetMetadataEntry hash b (set_cache c' (clear_stale hash s))) m' ∧ md_num_blocks m' = md_num_blocks m.
Proof.
  intros [Hwf Em Hm Hex Hran] Hwf' Hv Hown.
  destruct (clear_stale_table hash s m Em Hm) as (m1 & E1 & Hm1 & Hn1 & Hb1).
  { intros blk Hb. by apply Hran, set_accepts_iff in Hb as [? _]. }
  destruct (SetMetadataEntry_table hash b (set_cache c' (clear_stale hash s)) m1) as (m2 & E2 & Hm2 & Hn2 & Hb2);
    [done|done|intros blk Hb; rewrite (set_accepts_same _ _ _ _ Hn1); by apply Hown|].
  assert (∀ h, host_of c' h = if decide (h = hash) then host_block b else host_of (lru_cache_ s) h) as Hhost.
  { intros h. unfold host_of. rewrite Hv. case_decide; subst; [by rewrite lookup_insert_eq|by rewrite lookup_insert_ne]. }
  exists m2. split; [|congruence]. split; rewrite ?lru_SetMetadataEntry; cbn [lru_cache_ set_cache]; try done.
  - intros blk h Hi HX. rewrite Hn2, Hn1 in Hi. rewrite Hb2, Hb1, Hhost by (rewrite ?Hn1; done).
    pose proof (Hex blk h Hi HX) as Eh. pose proof (Hex blk hash Hi HX) as Ehash.
    case_decide as Hnew.
    + destruct (Hown _ Hnew) as [_ Hfree]. case_decide; [subst; naive_solver|]. pose proof (Hfree h). naive_solver.
    + case_decide as Hold; [split; [done|]|].
      * case_decide; [naive_solver|]. intros Hh. apply Eh in Hh. apply Ehash in Hold. congruence.
      * case_decide; [subst; naive_solver|done].
  - intros h blk. rewrite Hhost, (set_accepts_same _ _ m) by congruence. case_decide; subst; [apply Hown|apply Hran].
Qed.

Lemma mirror_erase {X} s m hash c' :
  mirrors_but X s m → wf c' → values c' = delete hash (values (lru_cache_ s)) →
  ∃ m', mirrors_but X (set_cache c' (clear_stale hash s)) m' ∧ md_num_blocks m' = md_num_blocks m.
Proof.
  intros [Hwf Em Hm Hex Hran] Hwf' Hv.
  destruct (clear_stale_table hash s m Em Hm) as (m1 & E1 & Hm1 & Hn1 & Hb1).
  { intros blk Hb. by apply Hran, set_accepts_iff in Hb as [? _]. }
  assert (∀ h, host_of c' h = if decide (h = hash) then None else host_of (lru_cache_ s) h) as Hhost.
  { intros h. unfold host_of. rewrite Hv. case_decide; subst; [by rewrite lookup_delete_eq|by rewrite lookup_delete_ne]. }
  exists m1. split; [|done]. split; cbn [lru_cache_ set_cache metadata_]; try done.
  - intros blk h Hi HX. rewrite Hn1 in Hi. rewrite Hb1, Hhost by done.
    pose proof (Hex blk h Hi HX). pose proof (Hex blk hash Hi HX). repeat case_decide; subst; naive_solver.
  - intros h blk. rewrite Hhost, (set_accepts_same _ _ m) by done. case_decide; [done|apply Hran].
Qed.

Lemma mirror_cache {X} s m c' :
  mirrors_but X s m → wf c' → values c' = values (lru_cache_ s) → mirrors_but X (set_cache c' s) m.
Proof. intros [Hwf Em Hm Hex Hran] Hwf' Hv. split; cbn; unfold host_of; rewrite ?Hv; done. Qed.
Lemma mirror_weaken X Y s m : mirrors_but X s m → X ⊆ Y → mirrors_but Y s m.
Proof. intros [Hwf Em Hm Hex Hran] HXY. split; try done. intros blk hash Hi HY. apply Hex; [done|]. intros HX. by apply HY, HXY. Qed.

(** ** Batches of insertions *)

(** One insertion of a batch: the stale binding goes, the entry is put and mirrored. *)
Definition put1 s (hb : string * RaidenBlockId) : HostOffloadBackend :=
  SetMetadataEntry hb.1 hb.2 (set_cache (Put hb.1 hb.2 (lru_cache_ s)).2 (clear_stale hb.1 s)).
Definition insert_all (l : BlockSliceList) (v : gmap string RaidenBlockId) : gmap string RaidenBlockId :=
  foldl (λ v hb, <[hb.1 := hb.2]> v) v l.
(** The host blocks of a batch are held by no entry, and pairwise different. *)
Definition fresh_pairs (m : KVCacheMetadata) c (l : BlockSliceList) : Prop :=
  (∀ hash b, (hash, b) ∈ l → block_fresh m hash b c) ∧ NoDup (omap (λ hb, host_block hb.2) l).

Lemma fresh_pairs_step m m' c c' hash b l :
  md_num_blocks m' = md_num_blocks m →
  values c' = <[hash := b]> (values c) ∨ values c' = values c →
  fresh_pairs m c ((hash, b) :: l) → fresh_pairs m' c' l.
Proof.
  intros En Hv [Hf Hnd]. cbn in Hnd. split.
  - intros h b' Hin blk Hb. rewrite (set_accepts_same _ _ m) by done.
    destruct (Hf h b' ltac:(by right) blk Hb) as [Ha Hfree]. split; [done|]. intros k.
    unfold host_of in *. destruct Hv as [->| ->]; [|apply Hfree]. destruct (decide (k = hash)) as [->|Hne];
      [|rewrite lookup_insert_ne by done; apply Hfree]. rewrite lookup_insert_eq. cbn. intros Eb.
    rewrite Eb in Hnd. apply NoDup_cons in Hnd as [Hni _]. apply Hni, list_elem_of_omap. by exists (h, b').
  - destruct (host_block b); [by apply NoDup_cons in Hnd as [_ ?]|done].
Qed.
Lemma fresh_pairs_Permutation m c l l' : l ≡ₚ l' → fresh_pairs m c l → fresh_pairs m c l'.
Proof. intros Hp [Hf Hnd]. split; [setoid_rewrite <- Hp; exact Hf|by rewrite <- Hp]. Qed.
Lemma fresh_pairs_app_r m c l l' : fresh_pairs m c (l ++ l') → fresh_pairs m c l'.
Proof.
  intros [Hf Hnd]. rewrite omap_app in Hnd. apply NoDup_app in Hnd as (_ & _ & ?). split; [|done].
  intros h b Hin. apply Hf, elem_of_app. by right.
Qed.

Lemma insert_all_None l v hash : insert_all l v !! hash = None ↔ v !! hash = None ∧ hash ∉ l.*1.
Proof.
  unfold insert_all. revert v; induction l as [|[h b] l IH]; intros v; cbn [foldl fmap list_fmap fst snd]; [set_solver|].
  rewrite IH, lookup_insert_None, not_elem_of_cons. naive_solver.
Qed.

Lemma put1_view hash b s :
  wf (lru_cache_ s) → (0 < available_space (lru_cache_ s))%nat ∨ is_Some (values (lru_cache_ s) !! hash) →
  let s' := put1 s (hash, b) in
  wf (lru_cache_ s') ∧ values (lru_cache_ s') = <[hash := b]> (values (lru_cache_ s)) ∧
  capacity_ (lru_cache_ s') = capacity_ (lru_cache_ s) ∧
  (∀ k, GetPinCount k (lru_cache_ s') = GetPinCount k (lru_cache_ s)) ∧
  available_space (lru_cache_ s') = available_space (lru_cache_ s) ∧ Contains hash (lru_cache_ s') = true.
Proof.
  intros Hwf Hsp s'. unfold s', put1. rewrite lru_SetMetadataEntry. cbn [lru_cache_ set_cache fst snd].
  destruct (Put_view hash b (lru_cache_ s) Hwf) as (Hw & Hc & Hp & _).
  destruct (Put_space hash b (lru_cache_ s) Hwf Hsp) as [Hv Hcon].
  do 4 (split; [done|]). split; [|done]. apply available_space_pins; [done..|]. intros k. by rewrite Hp.
Qed.

Lemma put_all_view l s :
  wf (lru_cache_ s) → (length l <= available_space (lru_cache_ s))%nat →
  let s' := foldl put1 s l in
  wf (lru_cache_ s') ∧ values (lru_cache_ s') = insert_all l (values (lru_cache_ s)) ∧
  capacity_ (lru_cache_ s') = capacity_ (lru_cache_ s) ∧
  (∀ k, GetPinCount k (lru_cache_ s') = GetPinCount k (lru_cache_ s)) ∧
  (∀ X m, mirrors_but X s m → fresh_pairs m (lru_cache_ s) l → ∃ m', mirrors_but X s' m' ∧ md_num_blocks m' = md_num_blocks m).
Proof.
  revert s; induction l as [|[h b] l IH]; intros s Hwf Hsp; cbn [foldl length] in *.
  { do 4 (split; [done|]). intros X m Hm _. by exists m. }
  destruct (put1_view h b s Hwf ltac:(left; lia)) as (Hw & Hv & Hc & Hp & Hs & _).
  destruct (IH (put1 s (h, b)) Hw ltac:(lia)) as (Hw' & Hv' & Hc' & Hp' & Hm').
  split; [done|]. split; [by rewrite Hv', Hv|]. split; [congruence|]. split; [intros k; by rewrite Hp'|].
  intros X m Hm Hf. destruct (mirror_replace s m h b (Put h b (lru_cache_ s)).2 Hm) as (m1 & Hm1 & Hn1).
  - apply (Put_view h b _ Hwf).
  - unfold put1 in Hv. rewrite lru_SetMetadataEntry in Hv. exact Hv.
  - apply fresh_own, Hf. left.
  - destruct (Hm' X m1 Hm1) as (m2 & Hm2 & Hn2).
    + eapply fresh_pairs_step; [exact Hn1|left; exact Hv|exact Hf].
    + exists m2. split; [done|congruence].
Qed.

(** ** Strict admission *)
Lemma admit_loop_eq inserted l s :
  wf (lru_cache_ s) → NoDup l.*1 → (∀ h, h ∈ l.*1 → values (lru_cache_ s) !! h = None) →
  (length l <= available_space (lru_cache_ s))%nat →
  admit_loop inserted l s = (true, foldl put1 s l).
Proof.
  revert inserted s; induction l as [|[h b] l IH]; intros inserted s Hwf Hnd Hnew Hsp; [done|].
  cbn [admit_loop foldl fmap list_fmap fst length] in *. apply NoDup_cons in Hnd as [Hh Hnd].
  destruct (put1_view h b s Hwf ltac:(left; lia)) as (Hw & Hv & Hc & Hp & Hs & Hcon).
  assert (clear_stale h s = s) as Hst.
  { unfold clear_stale. rewrite peek_values. by rewrite (Hnew h) by left. }
  assert (SetMetadataEntry h b (set_cache (Put h b (lru_cache_ s)).2 s) = put1 s (h, b)) as E
    by (unfold put1; cbn; by rewrite Hst).
  unfold put1 in Hv, Hcon. rewrite lru_SetMetadataEntry in Hv, Hcon. cbn [lru_cache_ set_cache fst snd] in *.
  rewrite Peek_values, Hcon, Hv, lookup_insert_eq, E. apply IH; [done|done| |lia].
  intros k Hk. unfold put1. rewrite lru_SetMetadataEntry. cbn [lru_cache_ set_cache fst snd]. rewrite Hv.
  rewrite lookup_insert_ne by set_solver. apply Hnew. by right.
Qed.

Lemma admissible_spec hashes c :
  admissible hashes c = true ↔
  NoDup hashes ∧ (∀ h, h ∈ hashes → values c !! h = None) ∧ (length hashes <= available_space c)%nat.
Proof.
  unfold admissible. rewrite !andb_true_iff, bool_decide_eq_true, Nat.leb_le.
  assert (forallb (λ hash, bool_decide (PeekIncludingCandidates hash c = None)) hashes = true ↔
    ∀ h, h ∈ hashes → values c !! h = None) as ->; [|tauto].
  rewrite forallb_forall. setoid_rewrite <- list_elem_of_In. setoid_rewrite bool_decide_eq_true.
  by setoid_rewrite peek_values.
Qed.

(** Strict admission is all or nothing.  [kAdmitStrict] succeeds exactly on a
    non-empty batch of distinct hashes, one slice each, none of them cached (not even
    as an eviction candidate), that fits the unpinned space: the rollback in its
    loop is dead.  It then adds exactly the batch, unpinned, and keeps every other
    value and all pins; a refused batch changes nothing. *)
Theorem InsertAdmitStrict_spec hashes slices s :
  wf (lru_cache_ s) →
  let '(ok, _, s') := Insert hashes slices kAdmitStrict s in
  (ok = true ↔ hashes ≠ [] ∧ length hashes = length slices ∧ NoDup hashes ∧
     (∀ h, h ∈ hashes → values (lru_cache_ s) !! h = None) ∧
     (length hashes <= available_space (lru_cache_ s))%nat) ∧
  if ok then
    wf (lru_cache_ s') ∧
    values (lru_cache_ s') = insert_all (zip hashes slices) (values (lru_cache_ s)) ∧
    (∀ k, GetPinCount k (lru_cache_ s') = GetPinCount k (lru_cache_ s)) ∧
    (∀ h, h ∈ hashes → GetPinCount h (lru_cache_ s') = 0)
  else s' = s.
Proof.
  intros Hwf. cbn [Insert]. unfold InsertAdmitStrict.
  destruct (bool_decide (hashes = []) || negb (length hashes =? length slices)%nat) eqn:E1.
  { split; [|done]. split; [done|]. intros (Hne & Hlen & _). rewrite Hlen, Nat.eqb_refl, orb_false_r in E1.
    by apply bool_decide_eq_true in E1. }
  apply orb_false_iff in E1 as [E1%bool_decide_eq_false E2%negb_false_iff%Nat.eqb_eq].
  destruct (admissible hashes (lru_cache_ s)) eqn:E3; cbn [negb].
  - apply admissible_spec in E3 as (Hnd & Hnew & Hsp).
    rewrite admit_loop_eq; [|done|by rewrite fst_zip by lia|by rewrite fst_zip by lia|rewrite length_zip; lia].
    split; [done|].
    destruct (put_all_view (zip hashes slices) s Hwf ltac:(rewrite length_zip; lia)) as (Hw & Hv & _ & Hp & _).
    do 3 (split; [done|]). intros h Hh. rewrite Hp. pose proof (pins_nonneg h _ Hwf).
    destruct (decide (0 < GetPinCount h (lru_cache_ s))) as [Hpos|]; [|lia].
    destruct (pinned_values _ _ Hpos) as [? Hs]. by rewrite Hnew in Hs.
  - split; [|done]. split; [done|]. intros (_ & _ & H). by rewrite (proj2 (admissible_spec _ _)) in E3.
Qed.

(** ** Insert and pin *)
Lemma available_space_grow c c' (l : list string) :
  wf c → wf c' → capacity_ c' = capacity_ c →
  (∀ k, 0 < GetPinCount k c' → 0 < GetPinCount k c ∨ k ∈ l) →
  (available_space c <= available_space c' + length l)%nat.
Proof.
  intros [Hwf _] [Hwf' _] Hcap Hp.
  assert (∀ (d : LRUCache string RaidenBlockId) k, wf_nodes d → k ∈ pinned_list_ d ↔ 0 < GetPinCount k d) as Hel.
  { intros d k Hd. change (pinned_list_ d) with (list_of kPinned d). rewrite (wf_lists _ Hd). unfold GetPinCount.
    destruct (map_ d !! k) as [n|] eqn:E; [|naive_solver lia]. rewrite (proj2 (wf_pins _ Hd _ _ E)). naive_solver. }
  assert (length (pinned_list_ c') <= length (pinned_list_ c) + length l)%nat as Hlen.
  { rewrite <- length_app. apply submseteq_length, NoDup_submseteq; [apply (wf_nodup _ Hwf' kPinned)|].
    intros k Hk. apply elem_of_app. rewrite Hel in Hk by done. rewrite (Hel c k) by done. by apply Hp. }
  unfold available_space. rewrite Hcap.
  destruct (Nat.ltb_spec (length (pinned_list_ c)) (capacity_ c)), (Nat.ltb_spec (length (pinned_list_ c')) (capacity_ c)); lia.
Qed.

Lemma pins_room_lt n hash c : pins_room (S n) c → GetPinCount hash c < INT_MAX.
Proof. intros Hr. specialize (Hr hash). lia. Qed.

Section insert_pin_views.
Context (hashes : list string) (slices : list RaidenBlockId).
Definition pair_at (i : nat) : string * RaidenBlockId := (hashes !!! i, default default_block (slices !! i)).
Definition hashes_at (l : list nat) : list string := (λ j, hashes !!! j) <$> l.

Lemma overwrite_hbm_view i s :
  wf (lru_cache_ s) →
  let s' := overwrite_hbm hashes slices i s in let hash := hashes !!! i in
  wf (lru_cache_ s') ∧ capacity_ (lru_cache_ s') = capacity_ (lru_cache_ s) ∧
  (∀ k, GetPinCount k (lru_cache_ s') = GetPinCount k (lru_cache_ s)) ∧
  (∀ k, Contains k (lru_cache_ s') = Contains k (lru_cache_ s)) ∧
  (values (lru_cache_ s') = values (lru_cache_ s) ∨
   values (lru_cache_ s') = <[hash := (pair_at i).2]> (values (lru_cache_ s)) ∧
   ∃ b, values (lru_cache_ s) !! hash = Some b ∧ status b = HBM) ∧
  (∀ X m, mirrors_but X s m → block_fresh m hash (pair_at i).2 (lru_cache_ s) →
     ∃ m', mirrors_but X s' m' ∧ md_num_blocks m' = md_num_blocks m).
Proof.
  intros Hwf. cbn zeta. unfold overwrite_hbm, pair_at. cbn [snd].
  assert (∀ s', s' = s → wf (lru_cache_ s') ∧ capacity_ (lru_cache_ s') = capacity_ (lru_cache_ s) ∧
    (∀ k, GetPinCount k (lru_cache_ s') = GetPinCount k (lru_cache_ s)) ∧
    (∀ k, Contains k (lru_cache_ s') = Contains k (lru_cache_ s)) ∧
    values (lru_cache_ s') = values (lru_cache_ s) ∧ (∀ X m, mirrors_but X s m → ∃ m', mirrors_but X s' m' ∧ md_num_blocks m' = md_num_blocks m)) as Hid.
  { intros s' ->. split_and!; eauto. }
  destruct (slices !! i) as [b|]; [|destruct (Hid s eq_refl) as (? & ? & ? & ? & ? & ?); split_and!; eauto].
  destruct (Peek (hashes !!! i) (lru_cache_ s)) as [ex|] eqn:Ep;
    [|destruct (Hid s eq_refl) as (? & ? & ? & ? & ? & ?); split_and!; eauto].
  case_bool_decide as Hst; [|destruct (Hid s eq_refl) as (? & ? & ? & ? & ? & ?); split_and!; eauto]. clear Hid.
  rewrite Peek_values in Ep. destruct (Contains (hashes !!! i) (lru_cache_ s)) eqn:Ec; [|done].
  rewrite lru_SetMetadataEntry. cbn [lru_cache_ set_cache default].
  pose proof (UpdateValue_view (hashes !!! i) b (lru_cache_ s) Hwf Ec) as Hu.
  destruct (UpdateValue (hashes !!! i) b (lru_cache_ s)) as [ok c'] eqn:Eu. destruct Hu as (_ & Hw & Hv & Hcap & Hp & Hc).
  cbn [snd]. do 4 (split; [done|]). split; [right; eauto|]. intros X m Hm Hf%fresh_own.
  assert (ClearMetadataEntry ex s = clear_stale (hashes !!! i) s) as ->
    by (unfold clear_stale; by rewrite peek_values, Ep).
  by apply mirror_replace.
Qed.

Lemma pin_existing_view pinned todo s :
  wf (lru_cache_ s) → (∀ i, i ∈ todo → Contains (hashes !!! i) (lru_cache_ s) = true) →
  pins_room (length todo) (lru_cache_ s) →
  ∃ s', pin_existing hashes slices pinned todo s = (true, s') ∧ wf (lru_cache_ s') ∧
    capacity_ (lru_cache_ s') = capacity_ (lru_cache_ s) ∧
    (∀ k, GetPinCount k (lru_cache_ s') = GetPinCount k (lru_cache_ s) + times k (hashes_at todo)) ∧
    (∀ k, Contains k (lru_cache_ s') = Contains k (lru_cache_ s)) ∧
    (∀ h b, values (lru_cache_ s) !! h = Some b → h ∉ hashes_at todo ∨ status b ≠ HBM →
       values (lru_cache_ s') !! h = Some b) ∧
    (∀ h, values (lru_cache_ s') !! h = None ↔ values (lru_cache_ s) !! h = None) ∧
    (∀ X m rest, mirrors_but X s m → fresh_pairs m (lru_cache_ s) ((pair_at <$> todo) ++ rest) →
       ∃ m', mirrors_but X s' m' ∧ md_num_blocks m' = md_num_blocks m ∧ fresh_pairs m' (lru_cache_ s') rest).
Proof.
  revert pinned s; induction todo as [|i todo IH]; intros pinned s Hwf Hc Hr; cbn [pin_existing length] in *.
  { exists s. split; [done|]. do 2 (split; [done|]). split; [intros k; unfold times; cbn; lia|]. do 3 (split; [done|]).
    intros X m rest Hm Hf. by exists m. }
  pose proof (Hc i (list_elem_of_here _ _)) as Hci.
  pose proof (Pin_view (hashes !!! i) (lru_cache_ s) Hwf (pins_room_lt _ _ _ Hr) (Contains_values _ _ Hci)) as Hpin.
  unfold pin_hash. destruct (LruCache.Pin (hashes !!! i) (lru_cache_ s)) as [ok c1]. destruct Hpin as (-> & Hw1 & Hv1 & Hcap1 & Hp1 & Hc1).
  destruct (overwrite_hbm_view i (set_cache c1 s) Hw1) as (Hw2 & Hcap2 & Hp2 & Hc2 & Hv2 & Hm2). cbn [lru_cache_ set_cache] in *.
  assert (∀ k, Contains k (lru_cache_ (overwrite_hbm hashes slices i (set_cache c1 s))) = Contains k (lru_cache_ s)) as Hcc.
  { intros k. rewrite Hc2, Hc1. case_bool_decide; subst; [by rewrite Hci|by rewrite orb_false_r]. }
  destruct (IH (pinned ++ [i]) (overwrite_hbm hashes slices i (set_cache c1 s)) Hw2) as (s' & -> & Hw & Hcap & Hp & Hcon & Hv & Hn & Hm).
  { intros j Hj. rewrite Hcc. apply Hc. by right. }
  { intros k. rewrite Hp2, Hp1. specialize (Hr k). case_decide; lia. }
  exists s'. split; [done|]. split; [done|]. split; [congruence|]. split.
  { intros k. rewrite Hp, Hp2, Hp1. cbn [hashes_at fmap list_fmap]. rewrite times_cons. unfold hashes_at. lia. }
  split; [intros k; by rewrite Hcon, Hcc|]. rewrite Hv1 in Hv2. split; [|split].
  - intros h b Hb Hh. apply Hv; [|cbn in Hh; rewrite not_elem_of_cons in Hh; tauto].
    destruct Hv2 as [->|(-> & b' & Hb' & Hst)]; [done|]. destruct (decide (h = hashes !!! i)) as [->|Hne].
    + exfalso. rewrite Hb in Hb'. simplify_eq. cbn in Hh. rewrite not_elem_of_cons in Hh. tauto.
    + by rewrite lookup_insert_ne.
  - intros h. rewrite Hn. destruct Hv2 as [->|(-> & b' & Hb' & _)]; [done|]. rewrite lookup_insert_None. split; [tauto|].
    intros Hnone. split; [done|]. intros <-. congruence.
  - intros X m rest Hm0 Hf. destruct (Hm2 X m) as (m1 & Hm1 & Hn1).
    + by apply mirror_cache.
    + intros blk Hb. destruct Hf as [Hf _]. destruct (Hf _ _ (list_elem_of_here _ _) blk Hb) as [Ha Hfree].
      split; [done|]. intros h. unfold host_of. rewrite Hv1. apply Hfree.
    + destruct (Hm X m1 rest Hm1) as (m' & Hm' & Hn' & Hf').
      * eapply fresh_pairs_step; [exact Hn1| |exact Hf]. destruct Hv2 as [Hv2|[Hv2 _]]; [by right|by left].
      * exists m'. split; [done|]. split; [congruence|done].
Qed.

Lemma pin_new_view existing all_new pinned todo s :
  wf (lru_cache_ s) → (∀ i, i ∈ todo → is_Some (values (lru_cache_ s) !! (hashes !!! i))) →
  pins_room (length todo) (lru_cache_ s) →
  ∃ c', pin_new hashes existing all_new pinned todo s = (true, set_cache c' s) ∧ wf c' ∧
    values c' = values (lru_cache_ s) ∧ (∀ k, GetPinCount k c' = GetPinCount k (lru_cache_ s) + times k (hashes_at todo)).
Proof.
  revert pinned s; induction todo as [|i todo IH]; intros pinned s Hwf Hc Hr; cbn [pin_new length] in *.
  { exists (lru_cache_ s). split; [by destruct s|]. do 2 (split; [done|]). intros k. unfold times. cbn. lia. }
  pose proof (Pin_view (hashes !!! i) (lru_cache_ s) Hwf (pins_room_lt _ _ _ Hr)
    (Hc i (list_elem_of_here _ _))) as Hpin.
  unfold pin_hash. destruct (LruCache.Pin (hashes !!! i) (lru_cache_ s)) as [ok c1]. destruct Hpin as (-> & Hw1 & Hv1 & _ & Hp1 & _).
  destruct (IH (pinned ++ [i]) (set_cache c1 s) Hw1) as (c' & E & Hw & Hv & Hp).
  { intros j Hj. cbn. rewrite Hv1. apply Hc. by right. }
  { cbn. intros k. rewrite Hp1. specialize (Hr k). case_decide; lia. }
  exists c'. split; [exact E|]. split; [done|]. split; [by rewrite Hv|]. intros k. rewrite Hp. cbn. rewrite Hp1, times_cons.
  unfold hashes_at. lia.
Qed.

Lemma put_new_eq l s : foldl (put_new hashes slices) s l = foldl put1 s (pair_at <$> l).
Proof.
  revert s; induction l as [|i l IH]; intros s; [done|]. cbn [foldl fmap list_fmap]. rewrite <- IH. f_equal.
  unfold put_new, put_entry, put1, pair_at. cbn [fst snd]. rewrite lru_clear_stale.
  destruct (slices !! i) as [b|].
  - change (default default_block (Some b)) with b. by destruct (Put _ _ _).
  - change (default default_block None) with default_block. destruct (Put _ _ _). cbn [snd].
    unfold SetMetadataEntry. cbn. by case_match.
Qed.
End insert_pin_views.

(** What [InsertAndPin] does, step by step. *)
Lemma hashes_at_seq (hashes : list string) : hashes_at hashes (seq 0 (length hashes)) = hashes.
Proof.
  apply list_eq_same_length with (n := length hashes); [done|by unfold hashes_at; rewrite length_fmap, length_seq|].
  intros i x y Hi. unfold hashes_at. rewrite list_lookup_fmap, lookup_seq_lt by done. cbn. intros [= <-] Hy.
  by rewrite (list_lookup_total_correct _ _ _ Hy).
Qed.

Section insert_and_pin_view.
Context (hashes : list string) (slices : list RaidenBlockId) (s : HostOffloadBackend).
Context (Hwf : wf (lru_cache_ s)) (Hr : pins_room (length hashes) (lru_cache_ s)).
Let present (i : nat) := Contains (hashes !!! i) (lru_cache_ s) = true.
Let existing := filter present (seq 0 (length hashes)).
Let new := filter (λ i, ¬ present i) (seq 0 (length hashes)).

Lemma split_indices :
  existing ++ new ≡ₚ seq 0 (length hashes) ∧ (length existing + length new = length hashes)%nat ∧
  (∀ k, times k (hashes_at hashes existing) + times k (hashes_at hashes new) = times k hashes).
Proof.
  assert (existing ++ new ≡ₚ seq 0 (length hashes)) as Hperm by apply filter_app_complement.
  split; [done|]. split; [by rewrite <- length_app, Hperm, length_seq|].
  intros k. rewrite <- times_app. unfold hashes_at. rewrite <- fmap_app. fold (hashes_at hashes (existing ++ new)).
  rewrite <- (hashes_at_seq hashes) at 2. apply times_Permutation. unfold hashes_at. by apply fmap_Permutation.
Qed.

Lemma new_notin h : Contains h (lru_cache_ s) = true ∨ h ∉ hashes → h ∉ (pair_at hashes slices <$> reverse new).*1.
Proof.
  intros Hh Hin. rewrite <- list_fmap_compose in Hin. apply list_elem_of_fmap in Hin as (i & -> & Hi).
  apply elem_of_reverse, list_elem_of_filter in Hi as [Hnp Hi]. cbn in Hh. destruct Hh as [Hh|Hh]; [done|].
  apply Hh, list_elem_of_lookup_total_2. apply elem_of_seq in Hi. lia.
Qed.

(** The hashes present are pinned first. *)
Lemma existing_pinned : ∃ s1,
  pin_existing hashes slices [] existing s = (true, s1) ∧ wf (lru_cache_ s1) ∧
  (∀ k, GetPinCount k (lru_cache_ s1) = GetPinCount k (lru_cache_ s) + times k (hashes_at hashes existing)) ∧
  (available_space (lru_cache_ s) <= available_space (lru_cache_ s1) + length existing)%nat ∧
  (∀ h b, values (lru_cache_ s) !! h = Some b → h ∉ hashes ∨ status b ≠ HBM → values (lru_cache_ s1) !! h = Some b) ∧
  (∀ X m, mirrors_but X s m → fresh_pairs m (lru_cache_ s) (pair_at hashes slices <$> seq 0 (length hashes)) →
    ∃ m', mirrors_but X s1 m' ∧ md_num_blocks m' = md_num_blocks m ∧
      fresh_pairs m' (lru_cache_ s1) (pair_at hashes slices <$> reverse new)).
Proof.
  destruct split_indices as (Hperm & Hlen & _).
  destruct (pin_existing_view hashes slices [] existing s Hwf) as (s1 & E1 & Hw1 & Hcap1 & Hp1 & _ & Hv1 & _ & Hm1).
  { intros i [Hi _]%list_elem_of_filter. exact Hi. }
  { intros k. specialize (Hr k). lia. }
  exists s1. split; [done|]. split; [done|]. split; [done|]. split; [|split].
  - rewrite <- (length_fmap (λ j, hashes !!! j) existing). apply available_space_grow; [done..|].
    intros k. rewrite Hp1. unfold hashes_at. intros Hk.
    destruct (decide (k ∈ (λ j, hashes !!! j) <$> existing)) as [|Hni]; [by right|left].
    rewrite times_notin in Hk by done. lia.
  - intros h b Hb Hh. apply Hv1; [done|]. destruct Hh as [Hh|Hh]; [left|by right].
    intros (i & -> & [_ Hi]%list_elem_of_filter)%list_elem_of_fmap. apply Hh, list_elem_of_lookup_total_2.
    apply elem_of_seq in Hi. lia.
  - intros X m Hm Hf. destruct (Hm1 X m (pair_at hashes slices <$> new) Hm) as (m' & ? & ? & Hf').
    + rewrite <- fmap_app. eapply fresh_pairs_Permutation; [|exact Hf]. by apply fmap_Permutation.
    + exists m'. split; [done|]. split; [done|]. eapply fresh_pairs_Permutation; [|exact Hf'].
      apply fmap_Permutation. symmetry. apply reverse_Permutation.
Qed.

Lemma InsertAndPin_view : ∃ s1 ok s',
  InsertAndPin hashes slices s = (ok, s') ∧ wf (lru_cache_ s') ∧
  (ok = true ↔ (length new <= available_space (lru_cache_ s1))%nat) ∧
  (available_space (lru_cache_ s) <= available_space (lru_cache_ s1) + length existing)%nat ∧
  (∀ k, GetPinCount k (lru_cache_ s') = GetPinCount k (lru_cache_ s) + if ok then times k hashes else 0) ∧
  (∀ h b, values (lru_cache_ s) !! h = Some b → h ∉ hashes ∨ status b ≠ HBM → values (lru_cache_ s1) !! h = Some b) ∧
  values (lru_cache_ s') =
    (if ok then insert_all (pair_at hashes slices <$> reverse new) (values (lru_cache_ s1)) else values (lru_cache_ s1)) ∧
  (∀ X m, mirrors_but X s m → fresh_pairs m (lru_cache_ s) (pair_at hashes slices <$> seq 0 (length hashes)) →
     ∃ m', mirrors_but X s' m' ∧ md_num_blocks m' = md_num_blocks m).
Proof.
  destruct split_indices as (_ & Hlen & Htimes). destruct existing_pinned as (s1 & E1 & Hw1 & Hp1 & Hspace & Hv1 & Hmir).
  exists s1. assert (InsertAndPin hashes slices s =
    if (available_space (lru_cache_ s1) <? length new)%nat
    then (false, unpin_all (hashes_at hashes existing) s1)
    else pin_new hashes existing new [] new (foldl (put_new hashes slices) s1 (reverse new))) as ->.
  { unfold InsertAndPin. fold present. fold existing. rewrite E1. reflexivity. }
  destruct (Nat.ltb_spec (available_space (lru_cache_ s1)) (length new)) as [Hsp|Hsp].
  - destruct (unpin_all_view (hashes_at hashes existing) s1 Hw1) as (Eu & Hw2 & Hv2 & _ & Hp2 & _).
    exists false, (unpin_all (hashes_at hashes existing) s1). split; [done|]. split; [done|].
    split; [split; [done|lia]|]. split; [done|]. split; [|split; [done|split; [done|]]].
    + intros k. rewrite Hp2, Hp1. pose proof (pins_nonneg k _ Hwf). pose proof (times_nonneg k (hashes_at hashes existing)). lia.
    + intros X m Hm Hf. destruct (Hmir X m Hm Hf) as (m' & Hm' & Hn & _). exists m'. split; [|done].
      rewrite Eu. by apply mirror_cache.
  - rewrite put_new_eq. destruct (put_all_view (pair_at hashes slices <$> reverse new) s1 Hw1) as (Hw2 & Hv2 & _ & Hp2 & Hm2).
    { rewrite length_fmap, length_reverse. lia. }
    destruct (pin_new_view hashes existing new [] new _ Hw2) as (c' & E3 & Hw3 & Hv3 & Hp3).
    { intros i Hi. rewrite Hv2. apply not_eq_None_Some. rewrite insert_all_None. intros [_ Hni]. apply Hni.
      rewrite <- list_fmap_compose. apply list_elem_of_fmap. exists i. split; [done|]. by apply elem_of_reverse. }
    { intros k. rewrite Hp2, Hp1. specialize (Hr k). unfold hashes_at, times.
      pose proof (length_filter (λ h, h = k) ((λ j, hashes !!! j) <$> existing)) as Hf. rewrite length_fmap in Hf. lia. }
    eexists true, _. split; [exact E3|]. split; [done|]. split; [done|]. split; [done|].
    split; [intros k; cbn; rewrite Hp3, Hp2, Hp1, <- Htimes; lia|]. split; [done|]. split; [cbn; by rewrite Hv3|].
    intros X m Hm Hf. destruct (Hmir X m Hm Hf) as (m1 & Hm1' & Hn1 & Hf1).
    destruct (Hm2 X m1 Hm1' Hf1) as (m2 & Hm2' & Hn2). exists m2. split; [by apply mirror_cache|congruence].
Qed.
End insert_and_pin_view.

Lemma insert_all_lookup l v h b : NoDup l.*1 → (h, b) ∈ l → insert_all l v !! h = Some b.
Proof.
  unfold insert_all. revert v; induction l as [|[h' b'] l IH]; intros v Hnd Hin; [set_solver|].
  cbn [fmap list_fmap fst] in Hnd. apply NoDup_cons in Hnd as [Hn Hnd]. cbn [foldl fst snd].
  apply elem_of_cons in Hin as [[= -> ->]|Hin]; [|by apply IH]. clear IH. revert v Hn.
  assert (∀ v : gmap string RaidenBlockId, v !! h' = Some b' → h' ∉ l.*1 → foldl (λ v hb, <[hb.1:=hb.2]> v) v l !! h' = Some b') as H.
  { clear Hnd. induction l as [|[k c] l IH]; intros v Hv Hn; [done|]. cbn [foldl fst snd]. cbn in Hn.
    apply not_elem_of_cons in Hn as [? ?]. apply IH; [|done]. by rewrite lookup_insert_ne. }
  intros v Hn. apply H; [apply lookup_insert_eq|done].
Qed.
Lemma insert_all_notin l v h : h ∉ l.*1 → insert_all l v !! h = v !! h.
Proof.
  unfold insert_all. revert v; induction l as [|[k c] l IH]; intros v Hn; [done|]. cbn [foldl fst snd]. cbn in Hn.
  apply not_elem_of_cons in Hn as [? ?]. rewrite IH by done. by apply lookup_insert_ne.
Qed.

(** Insert-and-pin takes all its pins or none.  [kInsertAndPin] adds one pin per
    hash of the batch when it succeeds and leaves every pin count as it was when it
    refuses; it succeeds whenever the batch fits the unpinned space.  Entries outside
    the batch and host-resident (or remote) entries of the batch keep their value,
    and on success every hash that was not active gets its own slice. *)
Theorem InsertAndPin_spec hashes slices s :
  wf (lru_cache_ s) → pins_room (length hashes) (lru_cache_ s) →
  let '(ok, _, s') := Insert hashes slices kInsertAndPin s in
  wf (lru_cache_ s') ∧
  ((length hashes <= available_space (lru_cache_ s))%nat → ok = true) ∧
  (∀ k, GetPinCount k (lru_cache_ s') = GetPinCount k (lru_cache_ s) + if ok then times k hashes else 0) ∧
  (∀ h b, values (lru_cache_ s) !! h = Some b →
     h ∉ hashes ∨ Contains h (lru_cache_ s) = true ∧ status b ≠ HBM → values (lru_cache_ s') !! h = Some b) ∧
  (ok = true → NoDup hashes → ∀ i h, hashes !! i = Some h → Contains h (lru_cache_ s) = false →
     values (lru_cache_ s') !! h = Some (default default_block (slices !! i))).
Proof.
  intros Hwf Hr. destruct (InsertAndPin_view hashes slices s Hwf Hr) as (s1 & ok & s' & E & Hw & Hok & Hsp & Hp & Hv1 & Hv & _).
  destruct (split_indices hashes s) as (_ & Hlen & _). cbn [Insert]. rewrite E. cbn. split; [done|]. split; [|split; [done|split]].
  - intros Hfit. apply Hok. lia.
  - intros h b Hb Hh. rewrite Hv. destruct ok; [|apply Hv1; tauto]. rewrite insert_all_notin; [apply Hv1; tauto|].
    apply new_notin. tauto.
  - intros -> Hnd i h Hi Hc. rewrite Hv. apply insert_all_lookup.
    + rewrite <- list_fmap_compose, fmap_reverse, reverse_Permutation. change (fst ∘ pair_at hashes slices) with (λ i, hashes !!! i).
      apply NoDup_fmap_2_strong; [|apply NoDup_filter, NoDup_seq].
      intros x y [_ Hx%elem_of_seq]%list_elem_of_filter [_ Hy%elem_of_seq]%list_elem_of_filter Exy.
      apply (NoDup_lookup hashes x y (hashes !!! x) Hnd); [|rewrite Exy]; apply list_lookup_lookup_total_lt; lia.
    + apply list_elem_of_fmap. exists i. unfold pair_at. rewrite (list_lookup_total_correct _ _ _ Hi). split; [done|].
      apply elem_of_reverse, list_elem_of_filter. rewrite (list_lookup_total_correct _ _ _ Hi), Hc.
      split; [done|]. apply elem_of_seq. apply lookup_lt_Some in Hi. lia.
Qed.
