(* ===== verification/BackendMirror.v ===== *)
(** * BackendMirror: what the backend keeps true over every call and over a crash
    (src/tpu_sync/kv_cache/host_offload_backend.cc)

    Deletion, the invariant that the metadata table mirrors the cache in every
    reachable state, and the recovery of the cache from the table. *)

From S2P Require Import Prelude RaidenTypes LogicalBlockManager LruCache KvCacheMetadata HostOffloadBackend.
Implicit Types (s : HostOffloadBackend) (m : KVCacheMetadata) (d : Deleted) (hash : string) (b : RaidenBlockId).

(** ** Pinning a batch *)
Lemma pin_loop_view pinned todo s :
  wf (lru_cache_ s) → pins_room (length todo) (lru_cache_ s) →
  (∀ k, times k pinned <= GetPinCount k (lru_cache_ s)) →
  let '(ok, s') := pin_loop pinned todo s in
  s' = set_cache (lru_cache_ s') s ∧ wf (lru_cache_ s') ∧ values (lru_cache_ s') = values (lru_cache_ s) ∧
  (ok = true ↔ ∀ h, h ∈ todo → is_Some (values (lru_cache_ s) !! h)) ∧
  (∀ k, GetPinCount k (lru_cache_ s') =
     GetPinCount k (lru_cache_ s) + if ok then times k todo else - times k pinned).
Proof.
  revert pinned s; induction todo as [|h todo IH]; intros pinned s Hwf Hr Hp; cbn [pin_loop length] in *.
  { split; [by destruct s|]. do 2 (split; [done|]). split; [split; [set_solver|done]|]. intros k. unfold times. cbn. lia. }
  unfold pin_hash. destruct (values (lru_cache_ s) !! h) as [b|] eqn:Eb.
  - pose proof (Pin_view h (lru_cache_ s) Hwf (pins_room_lt _ _ _ Hr) ltac:(by eexists)) as H.
    destruct (LruCache.Pin h (lru_cache_ s)) as [ok c]. destruct H as (-> & Hw & Hv & Hc & Hp1 & _).
    specialize (IH (pinned ++ [h]) (set_cache c s) Hw). cbn [lru_cache_ set_cache] in IH.
    destruct (pin_loop (pinned ++ [h]) todo (set_cache c s)) as [ok s'].
    destruct IH as (E & Hw' & Hv' & Hok & Hp').
    { by eapply pins_room_Pin. }
    { intros k. rewrite Hp1, times_app, times_cons. specialize (Hp k). unfold times at 2. cbn. lia. }
    split; [by rewrite E|]. split; [done|]. split; [by rewrite Hv'|]. split.
    + rewrite Hok, Hv. setoid_rewrite elem_of_cons. naive_solver.
    + intros k. rewrite Hp', Hp1, times_app, !times_cons. unfold times at 3. cbn. destruct ok; lia.
  - rewrite Pin_absent by done. replace (set_cache (lru_cache_ s) s) with s by (by destruct s).
    destruct (unpin_all_view pinned s Hwf) as (E & Hw & Hv & _ & Hp' & _). do 3 (split; [done|]). split.
    + split; [done|]. intros H. destruct (H h ltac:(left)). congruence.
    + intros k. rewrite Hp'. specialize (Hp k). pose proof (pins_nonneg k _ Hwf). lia.
Qed.

(** ** Deletion *)

(** What a deletion from [s] may have done so far. *)
Definition deletable (host_resident_only : bool) s hash : Prop :=
  GetPinCount hash (lru_cache_ s) = 0 ∧
  ∃ b, values (lru_cache_ s) !! hash = Some b ∧ (host_resident_only = true → host_block b ≠ None).
Record deleted_so_far (hro : bool) s (done : list string) d s' : Prop := {
  df_wf : wf (lru_cache_ s');
  df_pins k : GetPinCount k (lru_cache_ s') = GetPinCount k (lru_cache_ s);
  df_values h : values (lru_cache_ s') !! h = if decide (h ∈ del_hashes d) then None else values (lru_cache_ s) !! h;
  df_nodup : NoDup (del_hashes d);
  df_hashes h : h ∈ del_hashes d ↔ h ∈ done ∧ deletable hro s h;
  df_blocks : del_host_blocks d = omap (host_of (lru_cache_ s)) (del_hashes d);
  df_unregistered : del_unregistered d = filter (λ h, host_of (lru_cache_ s) h ≠ None) (del_hashes d);
  df_mirror X m : mirrors_but X s m → ∃ m', mirrors_but X s' m' ∧ md_num_blocks m' = md_num_blocks m;
}.

Lemma delete_one_view hro s l d s' hash :
  deleted_so_far hro s l d s' →
  let '(d2, s2) := delete_one hro (d, s') hash in deleted_so_far hro s (l ++ [hash]) d2 s2.
Proof.
  intros [Hwf Hp Hv Hnd Hh Hb Hu Hm]. unfold delete_one.
  assert (∀ x, x ∈ l ++ [hash] ↔ x ∈ l ∨ x = hash) as Hin by (intros; rewrite elem_of_app, list_elem_of_singleton; done).
  assert (¬ deletable hro s hash ∨ hash ∈ del_hashes d → deleted_so_far hro s (l ++ [hash]) d s') as Hskip.
  { intros Hs. split; try done. intros h. rewrite Hh, Hin. split; [tauto|]. intros [[?| ->] Hd]; [tauto|].
    destruct Hs as [?|Hs]; [done|]. by apply Hh. }
  destruct (Z.ltb_spec 0 (GetPinCount hash (lru_cache_ s'))) as [Hpos|Hz].
  { apply Hskip. left. intros [H0 _]. rewrite Hp in Hpos. lia. }
  assert (GetPinCount hash (lru_cache_ s') = 0) as H0 by (pose proof (pins_nonneg hash _ Hwf); lia).
  rewrite peek_values, Hv. case_decide as Hd; [by apply Hskip; right|].
  destruct (values (lru_cache_ s) !! hash) as [b|] eqn:Eb.
  2:{ apply Hskip. left. intros (_ & b & Hb' & _). congruence. }
  assert (host_block b = if IsHostResidentStatus (status b) then Some (host_block_id b) else None) as Ehb by done.
  assert (host_of (lru_cache_ s) hash = host_block b) as Eho by (unfold host_of; by rewrite Eb).
  destruct (hro && negb (IsHostResidentStatus (status b))) eqn:Ehro.
  { apply andb_true_iff in Ehro as [Er Eh%negb_true_iff]. apply Hskip. left.
    intros (_ & b' & Hb' & Hro). simplify_eq. apply Hro; [done|]. by rewrite Ehb, Eh. }
  rewrite lru_ClearMetadataEntry.
  destruct (Erase_view hash (lru_cache_ s') Hwf H0) as (Hw & Hv' & _ & Hp' & _).
  assert (deletable hro s hash) as Hdel.
  { split; [by rewrite <- Hp|]. exists b. split; [done|]. intros ->. rewrite Ehb.
    by destruct (IsHostResidentStatus (status b)). }
  split; cbn [lru_cache_ set_cache del_hashes del_host_blocks del_unregistered]; try done.
  - intros k. by rewrite Hp', Hp.
  - intros h. rewrite Hv'. destruct (decide (h = hash)) as [->|Hne].
    + rewrite lookup_delete_eq, decide_True; [done|]. apply elem_of_app. right. by left.
    + rewrite lookup_delete_ne, Hv by done. repeat case_decide; set_solver.
  - apply NoDup_app. split; [done|]. split; [set_solver|apply NoDup_singleton].
  - intros h. rewrite elem_of_app, list_elem_of_singleton, Hin, Hh. split; [|tauto]. intros [?| ->]; tauto.
  - rewrite omap_app, Hb. f_equal. cbn. rewrite Eho, Ehb. by destruct (IsHostResidentStatus (status b)).
  - rewrite filter_app, Hu. f_equal. rewrite filter_cons, Eho, Ehb.
    by destruct (IsHostResidentStatus (status b)); [rewrite decide_True|rewrite decide_False by tauto].
  - intros X m Hms. destruct (Hm X m Hms) as (m1 & Hm1 & Hn1).
    destruct (mirror_erase s' m1 hash _ Hm1 Hw Hv') as (m2 & Hm2 & Hn2). exists m2. split; [|congruence].
    unfold clear_stale in Hm2. by rewrite peek_values, Hv, decide_False, Eb in Hm2.
Qed.

Lemma Delete_view hashes hro s :
  wf (lru_cache_ s) →
  let ds := foldl (delete_one hro) (mkDeleted [] [] [], s) hashes in deleted_so_far hro s hashes ds.1 ds.2.
Proof.
  intros Hwf. cbn zeta.
  assert (∀ d l s', deleted_so_far hro s l d s' →
    let ds := foldl (delete_one hro) (d, s') hashes in deleted_so_far hro s (l ++ hashes) ds.1 ds.2) as H.
  { induction hashes as [|h hashes IH]; intros d l s' H0; cbn [foldl]; [by rewrite app_nil_r|].
    pose proof (delete_one_view hro s l d s' h H0) as H1. destruct (delete_one hro (d, s') h) as [d2 s2].
    specialize (IH _ _ _ H1). by rewrite <- app_assoc in IH. }
  apply (H _ []). split; cbn; try done; [constructor|set_solver|]. intros X m Hm. by exists m.
Qed.

(** [Delete] removes exactly the unpinned entries it was asked for (the
    host-resident ones when told so), each once, and reports the host blocks they held,
    so that the caller frees every block that lost its entry and no other; pinned and
    other entries keep their value, and no pin count changes. *)
Theorem Delete_spec hashes hro s :
  wf (lru_cache_ s) →
  let '(d, s') := Delete hashes hro s in
  wf (lru_cache_ s') ∧ NoDup (del_hashes d) ∧
  (∀ h, h ∈ del_hashes d ↔ h ∈ hashes ∧ deletable hro s h) ∧
  (∀ h, values (lru_cache_ s') !! h = if decide (h ∈ del_hashes d) then None else values (lru_cache_ s) !! h) ∧
  (∀ k, GetPinCount k (lru_cache_ s') = GetPinCount k (lru_cache_ s)) ∧
  del_host_blocks d = omap (host_of (lru_cache_ s)) (del_hashes d) ∧
  (∀ h, h ∈ del_unregistered d → h ∈ del_hashes d ∧ host_of (lru_cache_ s) h ≠ None).
Proof.
  intros Hwf. pose proof (Delete_view hashes hro s Hwf) as H. unfold Delete.
  destruct (foldl (delete_one hro) (mkDeleted [] [] [], s) hashes) as [d s']. cbn [fst snd] in H. destruct H as [Hw Hp Hv Hnd Hh Hb Hu _].
  cbn. do 6 (split; [done|]). intros h. destruct (has_registry s'); [|set_solver].
  rewrite Hu, list_elem_of_filter. tauto.
Qed.

(** ** The mirror in every reachable state *)

(** Lookups, pins and releases change the pins alone. *)
Definition pins_only s s' : Prop :=
  s' = set_cache (lru_cache_ s') s ∧ wf (lru_cache_ s') ∧ values (lru_cache_ s') = values (lru_cache_ s).
Lemma pins_only_refl s : wf (lru_cache_ s) → pins_only s s.
Proof. intros Hwf. split; [by destruct s|done]. Qed.
Lemma pins_only_mirror {X} s s' m : pins_only s s' → mirrors_but X s m → mirrors_but X s' m.
Proof. intros (-> & Hwf & Hv) Hm. by apply mirror_cache. Qed.

Lemma Lookup_pins_only order registry hashes options s :
  wf (lru_cache_ s) → pins_room (length hashes + length order) (lru_cache_ s) →
  pins_only s (Lookup order registry hashes options s).2.
Proof.
  intros Hwf Hr. unfold Lookup.
  case_match; [by apply pins_only_refl|]. case_match; [by apply pins_only_refl|].
  destruct (lo_include_eviction_candidates options && lo_pin_found options) eqn:Hopt; [by apply pins_only_refl|].
  assert (∀ n, (n <= length hashes + length order)%nat → pins_room n (lru_cache_ s)) as Hrn
    by (intros n Hn k; specialize (Hr k); lia).
  destruct (bool_decide _).
  { pose proof (lookup_subset_view options Hopt (if bool_decide (hashes = []) then order else hashes) (lru_cache_ s) Hwf) as Hvw.
    destruct (lookup_subset _ _ _) as [results c]. destruct Hvw as (_ & Hw & Hv & _); [|done].
    apply Hrn. case_match; lia. }
  destruct (negb (lo_enable_global options)).
  { pose proof (lookup_prefix_view options Hopt hashes (lru_cache_ s) Hwf) as Hvw.
    destruct (lookup_prefix _ _ _) as [results c]. destruct Hvw as (_ & Hw & Hv & _); [apply Hrn; lia|done]. }
  case_match; [by apply pins_only_refl|].
  pose proof (lookup_sweep_view options Hopt hashes (lru_cache_ s) Hwf) as Hvw.
  destruct (lookup_sweep options hashes (lru_cache_ s)) as [[hits missing] c].
  destruct Hvw as (_ & Hw & Hv & _); [apply Hrn; lia|]. unfold lookup_finish. cbn.
  destruct (lo_pin_found options); [|done].
  match goal with |- pins_only _ (unpin_all ?l ?t) => destruct (unpin_all_view l t Hw) as (E & Hw' & Hv' & _) end.
  split; [by rewrite E|]. split; [done|]. by rewrite Hv'.
Qed.
Lemma lookup_finish_pins_only options hashes hits remote s :
  wf (lru_cache_ s) → pins_only s (lookup_finish options hashes hits remote s).2.
Proof.
  intros Hwf. unfold lookup_finish. cbn. destruct (lo_pin_found options); [|by apply pins_only_refl].
  match goal with |- pins_only _ (unpin_all ?l ?t) => destruct (unpin_all_view l t Hwf) as (E & Hw' & Hv' & _) end. done.
Qed.

(** *** Best-effort updates *)

(** The blocks of a batch, each held by no entry or by the entry of its own hash, and
    pairwise different. *)
Definition own_pairs (m : KVCacheMetadata) (c : LRUCache string RaidenBlockId) (l : BlockSliceList) : Prop :=
  (∀ hash b, (hash, b) ∈ l → block_own m hash b c) ∧ NoDup (omap (λ hb, host_block hb.2) l).
(** The block whose slot one update leaves at odds with the cache: the host block of an
    active entry that takes another one (its slot is not cleared), or the block of a
    hash that a cache full of pins does not take (its slot is written all the same). *)
Definition stray1 (slices : list RaidenBlockId) s (ih : nat * string) : list Z :=
  match slices !! ih.1 with
  | None => []
  | Some b =>
      if Contains ih.2 (lru_cache_ s)
      then match host_of (lru_cache_ s) ih.2 with
           | Some old => if bool_decide (host_block b = Some old) then [] else [old]
           | None => []
           end
      else if bool_decide (is_Some (values (Put ih.2 b (lru_cache_ s)).2 !! ih.2)) then []
           else match host_block b with Some blk => [blk] | None => [] end
  end.
Fixpoint strays (slices : list RaidenBlockId) s (l : list (nat * string)) : list Z :=
  match l with
  | [] => []
  | ih :: l => stray1 slices s ih ++ strays slices (best_effort_one slices s ih).2 l
  end.
Definition update_strays (hashes : list string) (slices : list RaidenBlockId) s : list Z :=
  strays slices s (imap pair hashes).

(** An entry written without its old slot being cleared. *)
Lemma mirror_overwrite {X} s m hash b c' :
  mirrors_but X s m → wf c' → values c' = <[hash := b]> (values (lru_cache_ s)) → block_own m hash b (lru_cache_ s) →
  (∀ old, host_of (lru_cache_ s) hash = Some old → host_block b = Some old ∨ old ∈ X) →
  ∃ m', mirrors_but X (SetMetadataEntry hash b (set_cache c' s)) m' ∧ md_num_blocks m' = md_num_blocks m.
Proof.
  intros [Hwf Em Hm Hex Hran] Hwf' Hv Hown Hold.
  destruct (SetMetadataEntry_table hash b (set_cache c' s) m Em Hm) as (m' & E' & Hm' & Hn' & Hb'); [intros blk Hb; by apply Hown|].
  assert (∀ h, host_of c' h = if decide (h = hash) then host_block b else host_of (lru_cache_ s) h) as Hhost.
  { intros h. unfold host_of. rewrite Hv. case_decide; subst; [by rewrite lookup_insert_eq|by rewrite lookup_insert_ne]. }
  exists m'. split; [|done]. split; rewrite ?lru_SetMetadataEntry; cbn [lru_cache_ set_cache]; try done.
  - intros blk h Hi HX. rewrite Hn' in Hi. rewrite Hb', Hhost by done. pose proof (Hex blk h Hi HX) as Eh.
    case_decide as Hnew.
    + destruct (Hown _ Hnew) as [_ Ho]. case_decide; [subst; naive_solver|]. pose proof (Ho h). naive_solver.
    + case_decide; [subst|done]. rewrite Eh. split; [|done]. intros Hh. destruct (Hold blk Hh); done.
  - intros h blk. rewrite Hhost, (set_accepts_same _ _ m) by congruence. case_decide; subst; [apply Hown|apply Hran].
Qed.
(** A slot written for a hash the cache has not taken. *)
Lemma mirror_stray {X} s m hash b :
  mirrors_but X s m → (∀ blk, host_block b = Some blk → set_accepts blk hash m = true ∧ blk ∈ X) →
  ∃ m', mirrors_but X (SetMetadataEntry hash b s) m' ∧ md_num_blocks m' = md_num_blocks m.
Proof.
  intros [Hwf Em Hm Hex Hran] Hb.
  destruct (SetMetadataEntry_table hash b s m Em Hm) as (m' & E' & Hm' & Hn' & Hb'); [intros blk Hblk; by apply Hb|].
  exists m'. split; [|done]. split; rewrite ?lru_SetMetadataEntry; try done.
  - intros blk h Hi HX. rewrite Hn' in Hi. rewrite Hb' by done. case_decide as Hd; [|by apply Hex]. by destruct (Hb _ Hd).
  - intros h blk. rewrite (set_accepts_same _ _ m) by done. apply Hran.
Qed.

(** What one update of a batch writes. *)
Lemma best_effort_one_view slices s i hash :
  wf (lru_cache_ s) → let s' := (best_effort_one slices s (i, hash)).2 in
  wf (lru_cache_ s') ∧
  (values (lru_cache_ s') = values (lru_cache_ s) ∨
   values (lru_cache_ s') = <[hash := default default_block (slices !! i)]> (values (lru_cache_ s))).
Proof.
  intros Hwf. cbn zeta. unfold best_effort_one. destruct (Contains hash (lru_cache_ s)) eqn:Ec.
  - destruct (slices !! i) as [b|]; [|by split; [|left]]. pose proof (UpdateValue_view hash b (lru_cache_ s) Hwf Ec) as Hu.
    destruct (UpdateValue hash b (lru_cache_ s)) as [ok c']. destruct Hu as (-> & Hw & Hv & _). cbn [snd].
    rewrite lru_SetMetadataEntry. split; [done|by right].
  - unfold put_entry. rewrite lru_clear_stale. destruct (Put_view hash (default default_block (slices !! i)) (lru_cache_ s) Hwf) as (Hw & _ & _ & Hv).
    destruct (Put _ _ _) as [ev c']. cbn [snd] in *.
    assert (∀ s2, lru_cache_ (match slices !! i with Some b => SetMetadataEntry hash b s2 | None => s2 end) = lru_cache_ s2) as ->
      by (intros; case_match; [apply lru_SetMetadataEntry|done]). cbn.
    split; [done|]. destruct Hv as [(_ & _ & _ & ->)|[Hv _]]; [by left|by right].
Qed.
Lemma best_effort_one_mirror {X} slices s m i hash :
  mirrors_but X s m → block_own m hash (default default_block (slices !! i)) (lru_cache_ s) →
  (∀ blk, blk ∈ stray1 slices s (i, hash) → blk ∈ X) →
  ∃ m', mirrors_but X (best_effort_one slices s (i, hash)).2 m' ∧ md_num_blocks m' = md_num_blocks m.
Proof.
  intros Hm Hown HX. pose proof (mi_cache _ _ _ Hm) as Hwf. unfold best_effort_one, stray1 in *. cbn [fst snd] in HX.
  destruct (Contains hash (lru_cache_ s)) eqn:Ec.
  - destruct (slices !! i) as [b|]; [|by exists m]. pose proof (UpdateValue_view hash b (lru_cache_ s) Hwf Ec) as Hu.
    destruct (UpdateValue hash b (lru_cache_ s)) as [ok c']. destruct Hu as (-> & Hw & Hv & _). cbn [snd].
    apply mirror_overwrite; [done|done|done|done|]. intros old Hold. rewrite Hold in HX. case_bool_decide; [by left|].
    right. apply HX. by left.
  - unfold put_entry. rewrite lru_clear_stale. set (b := default default_block (slices !! i)) in *.
    destruct (Put_view hash b (lru_cache_ s) Hwf) as (Hw & _ & _ & Hv).
    assert (∀ s2, match slices !! i with Some b => SetMetadataEntry hash b s2 | None => s2 end = SetMetadataEntry hash b s2) as Eset.
    { intros s2. unfold b. destruct (slices !! i); [done|]. unfold SetMetadataEntry. cbn. by destruct (metadata_ s2). }
    destruct (Put hash b (lru_cache_ s)) as [ev c'] eqn:Ep. cbn [snd] in *. rewrite Eset.
    destruct Hv as [(Hnone & _ & _ & ->)|[Hv _]]; [|by apply mirror_replace].
    assert (set_cache (lru_cache_ s) (clear_stale hash s) = s) as ->.
    { unfold clear_stale. rewrite peek_values, Hnone. by destruct s. }
    apply mirror_stray; [done|]. intros blk Hb. split; [by apply Hown|]. unfold b in Hb, Ep. destruct (slices !! i) as [b'|]; [|done].
    cbn in Hb, Ep. rewrite Ep in HX. cbn in HX. rewrite bool_decide_false in HX by (rewrite Hnone; by intros [? ?]).
    apply HX. rewrite Hb. by left.
Qed.
Lemma own_pairs_step m m' (c c' : LRUCache string RaidenBlockId) hash b l :
  md_num_blocks m' = md_num_blocks m → values c' = values c ∨ values c' = <[hash := b]> (values c) →
  own_pairs m c ((hash, b) :: l) → own_pairs m' c' l.
Proof.
  intros En Hv [Ho Hnd]. cbn in Hnd. split; [|destruct (host_block b); [by apply NoDup_cons in Hnd as [_ ?]|done]].
  intros h b' Hin blk Hb. rewrite (set_accepts_same _ _ m) by done.
  destruct (Ho h b' ltac:(by right) blk Hb) as [Ha Hown]. split; [done|]. intros k.
  unfold host_of in *. destruct Hv as [->| ->]; [apply Hown|]. destruct (decide (k = hash)) as [->|Hne];
    [|rewrite lookup_insert_ne by done; apply Hown]. rewrite lookup_insert_eq. cbn. intros Eb.
  rewrite Eb in Hnd. apply NoDup_cons in Hnd as [Hni _]. destruct Hni. apply list_elem_of_omap. by exists (h, b').
Qed.
Lemma updates_mirror {X} slices (l : list (nat * string)) s m acc :
  mirrors_but X s m → own_pairs m (lru_cache_ s) ((λ ih : nat * string, (ih.2, default default_block (slices !! ih.1))) <$> l) →
  (∀ blk, blk ∈ strays slices s l → blk ∈ X) →
  ∃ m', mirrors_but X (foldl (λ '(acc, s) ih, let '(e, s) := best_effort_one slices s ih in (acc ++ e, s)) (acc, s) l).2 m' ∧
    md_num_blocks m' = md_num_blocks m.
Proof.
  revert s m acc; induction l as [|[i hash] l IH]; intros s m acc Hm Ho HX; cbn [foldl]; [by exists m|]. cbn [strays fmap list_fmap fst snd] in *.
  destruct (best_effort_one_mirror slices s m i hash Hm) as (m1 & Hm1 & Hn1).
  { destruct Ho as [Ho _]. apply Ho. by left. }
  { intros blk Hb. apply HX, elem_of_app. by left. }
  destruct (best_effort_one_view slices s i hash (mi_cache _ _ _ Hm)) as [_ Hv].
  destruct (best_effort_one slices s (i, hash)) as [e s1]. cbn [snd] in *.
  destruct (IH s1 m1 (acc ++ e) Hm1) as (m2 & Hm2 & Hn2).
  - by eapply own_pairs_step.
  - intros blk Hb. apply HX, elem_of_app. by right.
  - exists m2. split; [done|congruence].
Qed.
Lemma Insert_update_mirror X hashes slices s m :
  mirrors_but X s m → own_pairs m (lru_cache_ s) (pair_at hashes slices <$> seq 0 (length hashes)) →
  ∃ m', mirrors_but (X ∪ list_to_set (update_strays hashes slices s)) (Insert hashes slices kBestEffortUpdate s).2 m' ∧
    md_num_blocks m' = md_num_blocks m.
Proof.
  intros Hm Ho. cbn [Insert]. unfold InsertBestEffortUpdate, update_strays.
  destruct (updates_mirror slices (imap pair hashes) s m [] (mirror_weaken _ (X ∪ list_to_set (strays slices s (imap pair hashes))) _ _ Hm ltac:(set_solver)))
    as (m' & Hm' & Hn').
  - replace ((λ ih : nat * string, _) <$> imap pair hashes) with (pair_at hashes slices <$> seq 0 (length hashes)); [done|].
    rewrite fmap_imap. apply list_eq. intros i. rewrite list_lookup_fmap, list_lookup_imap.
    destruct (hashes !! i) as [h|] eqn:Eh.
    + rewrite lookup_seq_lt by (by eapply lookup_lt_Some). unfold pair_at. cbn. by rewrite (list_lookup_total_correct _ _ _ Eh).
    + rewrite lookup_seq_ge by (by apply lookup_ge_None). done.
  - intros blk Hb. apply elem_of_union. right. by apply elem_of_list_to_set.
  - exists m'. split; [|done]. by destruct (foldl _ _ _).
Qed.

(** *** Every call *)

(** The calls of the backend's clients, in any order; a global lookup is its two
    halves.  An insertion brings blocks the pool has handed out, so no entry holds
    them (a best-effort update may also bring the block its entry has), and no two
    slices of a batch share one.  With each call, the blocks whose slots it leaves
    at odds with the cache. *)
Inductive backend_step s : list Z → HostOffloadBackend → Prop :=
  | step_pin hashes : pins_room (length hashes) (lru_cache_ s) → backend_step s [] (Pin hashes s).2
  | step_release hashes : backend_step s [] (Release hashes s)
  | step_lookup order registry hashes options :
      pins_room (length hashes + length order) (lru_cache_ s) →
      backend_step s [] (Lookup order registry hashes options s).2
  | step_sweep options hashes :
      pins_room (length hashes) (lru_cache_ s) →
      lo_include_eviction_candidates options && lo_pin_found options = false →
      backend_step s [] (set_cache (lookup_sweep options hashes (lru_cache_ s)).2 s)
  | step_finish options hashes hits remote : backend_step s [] (lookup_finish options hashes hits remote s).2
  | step_update hashes slices :
      (∀ m, metadata_ s = Some m →
         own_pairs m (lru_cache_ s) (pair_at hashes slices <$> seq 0 (length hashes))) →
      backend_step s (update_strays hashes slices s) (Insert hashes slices kBestEffortUpdate s).2
  | step_admit hashes slices :
      (∀ m, metadata_ s = Some m → fresh_pairs m (lru_cache_ s) (zip hashes slices)) →
      backend_step s [] (Insert hashes slices kAdmitStrict s).2
  | step_insert_pin hashes slices :
      pins_room (length hashes) (lru_cache_ s) →
      (∀ m, metadata_ s = Some m →
         fresh_pairs m (lru_cache_ s) (pair_at hashes slices <$> seq 0 (length hashes))) →
      backend_step s [] (Insert hashes slices kInsertAndPin s).2
  | step_delete hashes host_resident_only : backend_step s [] (Delete hashes host_resident_only s).2.
(** A run, with all the blocks its calls left at odds. *)
Inductive backend_run s0 : gset Z → HostOffloadBackend → Prop :=
  | run_start : backend_run s0 ∅ s0
  | run_call X s l s' : backend_run s0 X s → backend_step s l s' → backend_run s0 (X ∪ list_to_set l) s'.

Lemma Insert_admit_mirror {X} hashes slices s m :
  mirrors_but X s m → fresh_pairs m (lru_cache_ s) (zip hashes slices) →
  ∃ m', mirrors_but X (Insert hashes slices kAdmitStrict s).2 m' ∧ md_num_blocks m' = md_num_blocks m.
Proof.
  intros Hm Hf. cbn [Insert]. unfold InsertAdmitStrict.
  destruct (bool_decide (hashes = []) || negb (length hashes =? length slices)%nat) eqn:E1; [by exists m|].
  destruct (admissible hashes (lru_cache_ s)) eqn:E; [|by exists m]. cbn [negb].
  apply admissible_spec in E as (Hnd & Hnew & Hsp).
  apply orb_false_iff in E1 as [_ Hl%negb_false_iff%Nat.eqb_eq].
  rewrite admit_loop_eq; [|apply Hm|by rewrite fst_zip by lia|by rewrite fst_zip by lia|rewrite length_zip; lia].
  apply (put_all_view (zip hashes slices) s); [apply Hm|rewrite length_zip; lia|done|done].
Qed.

Lemma backend_step_mirror X s l s' m :
  backend_step s l s' → mirrors_but X s m →
  ∃ m', mirrors_but (X ∪ list_to_set l) s' m' ∧ md_num_blocks m' = md_num_blocks m.
Proof.
  intros Hst Hm. pose proof (mi_cache _ _ _ Hm) as Hwf.
  assert (∀ s2, (∃ m', mirrors_but X s2 m' ∧ md_num_blocks m' = md_num_blocks m) →
    ∃ m', mirrors_but (X ∪ list_to_set []) s2 m' ∧ md_num_blocks m' = md_num_blocks m) as Hsame.
  { intros s2 (m' & Hm' & Hn'). exists m'. split; [|done]. eapply mirror_weaken; [exact Hm'|]. set_solver. }
  assert (∀ s2, pins_only s s2 → ∃ m', mirrors_but (X ∪ list_to_set []) s2 m' ∧ md_num_blocks m' = md_num_blocks m) as Hpo.
  { intros s2 Hp. apply Hsame. exists m. split; [by eapply pins_only_mirror|done]. }
  destruct Hst as [hashes Hr|hashes|order registry hashes options Hr|options hashes Hr Ho|options hashes hits remote
    |hashes slices Ho|hashes slices Hf|hashes slices Hr Hf|hashes hro].
  - apply Hpo. pose proof (pin_loop_view [] hashes s Hwf Hr (λ k, pins_nonneg k _ Hwf)) as H. unfold Pin.
    destruct (pin_loop [] hashes s) as [ok s']. destruct H as (E & Hw & Hv & _). done.
  - apply Hpo. destruct (unpin_all_view (reverse hashes) s Hwf) as (E & Hw & Hv & _). done.
  - apply Hpo. by apply Lookup_pins_only.
  - apply Hpo. pose proof (lookup_sweep_view options Ho hashes (lru_cache_ s) Hwf Hr) as H.
    destruct (lookup_sweep options hashes (lru_cache_ s)) as [[hits missing] c]. destruct H as (_ & Hw & Hv & _). done.
  - apply Hpo. by apply lookup_finish_pins_only.
  - apply Insert_update_mirror; [done|]. apply Ho, Hm.
  - apply Hsame, Insert_admit_mirror; [done|]. apply Hf, Hm.
  - destruct (InsertAndPin_view hashes slices s Hwf Hr) as (s1 & ok & s' & E & _ & _ & _ & _ & _ & _ & H).
    apply Hsame. cbn [Insert]. rewrite E. cbn. apply H; [done|]. apply Hf, Hm.
  - pose proof (Delete_view hashes hro s Hwf) as H. unfold Delete.
    destruct (foldl (delete_one hro) (mkDeleted [] [] [], s) hashes) as [d s']. by apply Hsame, (df_mirror _ _ _ _ _ H).
Qed.

Lemma backend_run_mirror s0 X s m :
  backend_run s0 X s → mirrors s0 m → ∃ m', mirrors_but X s m' ∧ md_num_blocks m' = md_num_blocks m.
Proof.
  intros Hrun H0. induction Hrun as [|X s l s' _ (m1 & Hm1 & Hn1) Hst]; [by exists m|].
  destruct (backend_step_mirror _ _ _ _ _ Hst Hm1) as (m2 & Hm2 & Hn2). exists m2. split; [done|congruence].
Qed.

Lemma binding_zero : binding zero_slot = None.
Proof. done. Qed.
Lemma Format_unbound r n uid m i : Format r n uid = Ok m → 0 <= i < md_num_blocks m → bound m i = None.
Proof.
  intros ([] & _ & [= <-])%bind_Ok Hi. unfold bound, binding_at. cbn [md_region rg_slots md_num_blocks] in *.
  rewrite lookup_total_app_l by (rewrite length_replicate; lia). by rewrite lookup_total_replicate_2 by lia.
Qed.
Lemma fresh_mirrors r n uid m capacity id registry :
  region_ok r → n < 2 ^ 31 → Format r n uid = Ok m → mirrors (HostOffloadBackend_new capacity (Some m) id registry) m.
Proof.
  intros Hr Hn HF. destruct (Format_table_ok r n uid m Hr Hn HF) as [Hm _].
  assert (∀ h, host_of (LRUCache_new capacity) h = None) as Hnone.
  { intros h. unfold host_of, values. by rewrite lookup_fmap. }
  split; cbn [lru_cache_ HostOffloadBackend_new metadata_]; try done.
  - apply LRUCache_new_wf.
  - intros blk h Hi. by rewrite (Format_unbound r n uid m blk HF Hi), Hnone.
Qed.

(** C13: The crash-persistent table mirrors the cache.  Over every sequence of calls on
    the backend (pins, releases, lookups, best-effort updates, strict admissions,
    insert-and-pin calls, deletions, refused ones included) on a formatted table, a
    block [blk] is bound to [hash] in the table exactly when the cache entry of [hash]
    holds host block [blk], for every block but those of [X]: the blocks that a
    best-effort update took from an active entry without clearing their slot, and
    those it wrote a slot for though the cache was full of pins.  So no two hashes
    share a host block outside [X], and a run without such updates mirrors exactly.
    The calls bring blocks that no other entry holds. *)
Theorem mirror_exact r n uid m capacity id registry X s :
  region_ok r → n < 2 ^ 31 → Format r n uid = Ok m →
  backend_run (HostOffloadBackend_new capacity (Some m) id registry) X s →
  ∃ m', metadata_ s = Some m' ∧ md_num_blocks m' = n ∧ wf (lru_cache_ s) ∧
    (∀ blk hash, blk ∉ X → (∃ seq, mkEntry blk hash seq ∈ ValidEntries m') ↔ host_of (lru_cache_ s) hash = Some blk) ∧
    (∀ h1 h2 blk, blk ∉ X → host_of (lru_cache_ s) h1 = Some blk → host_of (lru_cache_ s) h2 = Some blk → h1 = h2).
Proof.
  intros Hr Hn HF Hrun. pose proof (fresh_mirrors r n uid m capacity id registry Hr Hn HF) as H0.
  destruct (Format_table_ok r n uid m Hr Hn HF) as [_ Hmn].
  destruct (backend_run_mirror _ _ _ _ Hrun H0) as (m' & [Hwf Em Hm' Hex Hran] & Hn'). exists m'.
  assert (∀ hash blk, host_of (lru_cache_ s) hash = Some blk → 0 <= blk < md_num_blocks m') as Hin.
  { intros hash blk [? _]%Hran%set_accepts_iff. done. }
  split; [done|]. split; [congruence|]. split; [done|]. split.
  - intros blk hash HX. setoid_rewrite elem_of_ValidEntries. cbn. split.
    + intros (q & Hb & E). apply Hex; [done|done|]. unfold bound. by rewrite E.
    + intros Hh. pose proof (Hin _ _ Hh) as Hb. apply (Hex blk hash Hb HX) in Hh. unfold bound in Hh.
      destruct (binding_at m' blk) as [[h q]|]; [|done]. injection Hh as <-. by exists q.
  - intros h1 h2 blk HX H1 H2. pose proof (Hin _ _ H1) as Hb. apply (Hex blk h1 Hb HX) in H1. apply (Hex blk h2 Hb HX) in H2. congruence.
Qed.

(** ** Recovery *)

(** [e] is a newest entry of its hash. *)
Definition is_newest (entries : list Entry) (e : Entry) : Prop :=
  e ∈ entries ∧ ∀ e', e' ∈ entries → en_hash e' = en_hash e → en_seq e' <= en_seq e.

Lemma newest_entries_spec entries :
  (∀ h e, newest_entries entries !! h = Some e → en_hash e = h ∧ is_newest entries e) ∧
  (∀ e, e ∈ entries → is_Some (newest_entries entries !! en_hash e)).
Proof.
  unfold newest_entries. induction entries as [|x l [IH1 IH2]] using rev_ind; [split; [done|set_solver]|].
  rewrite foldl_app. cbn [foldl]. set (n := foldl _ _ l) in *.
  assert (∀ e, is_newest l e → (en_hash e = en_hash x → en_seq x <= en_seq e) → is_newest (l ++ [x]) e) as Hkeep.
  { intros e [Hin Hmax] Hx. split; [set_solver|]. intros e' [He|He%list_elem_of_singleton]%elem_of_app; [by apply Hmax|].
    subst. intros E. by apply Hx. }
  assert (is_newest (l ++ [x]) x ∨ ∃ e, n !! en_hash x = Some e ∧ en_seq x <= en_seq e) as Hx.
  { destruct (n !! en_hash x) as [old|] eqn:Eo; [destruct (decide (en_seq x <= en_seq old)); [naive_solver|]|];
      left; (split; [set_solver|]); intros e' [He|He%list_elem_of_singleton]%elem_of_app Eh; subst; try lia.
    - destruct (IH1 _ _ Eo) as [E [_ Hmax]]. specialize (Hmax e' He ltac:(congruence)). lia.
    - destruct (IH2 e' He) as [? ?]. congruence. }
  destruct (n !! en_hash x) as [old|] eqn:Eo; [destruct (Z.ltb_spec (en_seq old) (en_seq x))|];
    (split; [intros h e|intros e [He|He%list_elem_of_singleton]%elem_of_app]).
  - intros [[<- <-]|[Hne He]]%lookup_insert_Some; [split; [done|]; destruct Hx as [?|(? & ? & ?)]; [done|simplify_eq; lia]|].
    destruct (IH1 _ _ He) as [E Hn]. split; [done|]. apply Hkeep; [done|congruence].
  - apply lookup_insert_is_Some. destruct (decide (en_hash x = en_hash e)); [by left|right; split; [done|by apply IH2]].
  - subst. by rewrite lookup_insert_eq.
  - intros He. destruct (IH1 _ _ He) as [E Hn]. split; [done|]. apply Hkeep; [done|]. intros Eh. subst h.
    rewrite Eh in He. simplify_eq. lia.
  - by apply IH2.
  - subst. by rewrite Eo.
  - intros [[<- <-]|[Hne He]]%lookup_insert_Some; [split; [done|]; destruct Hx as [?|(? & ? & ?)]; done|].
    destruct (IH1 _ _ He) as [E Hn]. split; [done|]. apply Hkeep; [done|congruence].
  - apply lookup_insert_is_Some. destruct (decide (en_hash x = en_hash e)); [by left|right; split; [done|by apply IH2]].
  - subst. by rewrite lookup_insert_eq.
Qed.

Lemma put_fold_view (l : BlockSliceList) (c : LRUCache string RaidenBlockId) :
  wf c → (0 < available_space c)%nat →
  let c' := foldl (λ c hb, (Put hb.1 hb.2 c).2) c l in
  wf c' ∧ values c' = insert_all l (values c) ∧ (∀ k, GetPinCount k c' = GetPinCount k c).
Proof.
  revert c; induction l as [|[h b] l IH]; intros c Hwf Hsp; cbn [foldl fst snd]; [done|].
  destruct (Put_view h b c Hwf) as (Hw & Hc & Hp & _). destruct (Put_space h b c Hwf (or_introl Hsp)) as [Hv _].
  destruct (IH (Put h b c).2 Hw) as (Hw' & Hv' & Hp').
  { rewrite (available_space_pins c); [done..|]. intros k. by rewrite Hp. }
  split; [done|]. split; [by rewrite Hv', Hv|]. intros k. by rewrite Hp'.
Qed.

Lemma clear_fold l m :
  table_ok m → (∀ i, i ∈ l → 0 <= i < md_num_blocks m) →
  let m' := foldl (λ m i, (KvCacheMetadata.Clear i m).2) m l in
  table_ok m' ∧ md_num_blocks m' = md_num_blocks m ∧
  ∀ i, 0 <= i < md_num_blocks m → binding_at m' i = if decide (i ∈ l) then None else binding_at m i.
Proof.
  revert m; induction l as [|j l IH]; intros m Hm Hl; cbn [foldl].
  { split; [done|]. split; [done|]. intros i _. rewrite decide_False by set_solver. done. }
  destruct (Clear_table_ok j m Hm) as [Hm1 Hn1]. pose proof (Hl j ltac:(left)) as Hj.
  destruct (IH _ Hm1) as (Hm2 & Hn2 & Hb); [intros i Hi; rewrite Hn1; apply Hl; by right|].
  split; [done|]. split; [congruence|]. intros i Hi. rewrite Hb, binding_at_Clear by (rewrite ?Hn1; done).
  repeat case_decide; set_solver.
Qed.

Section recovery.
Context (m : KVCacheMetadata) (Hm : table_ok m).
Definition newest : gmap string Entry := newest_entries (ValidEntries m).
Definition stale (e : Entry) : Prop := en_block_id <$> newest !! en_hash e ≠ Some (en_block_id e).
#[local] Instance stale_dec e : Decision (stale e).
Proof. unfold stale. apply _. Defined.
Definition recovered_table : KVCacheMetadata :=
  foldl (λ m i, (KvCacheMetadata.Clear i m).2) m (en_block_id <$> filter stale (ValidEntries m)).
Definition recoverable : list Entry := merge_sort seq_le (map_to_list newest).*2.

Lemma newest_Some h e : newest !! h = Some e → en_hash e = h ∧ is_newest (ValidEntries m) e.
Proof. apply (newest_entries_spec (ValidEntries m)). Qed.
Lemma newest_cover e : e ∈ ValidEntries m → is_Some (newest !! en_hash e).
Proof. apply (newest_entries_spec (ValidEntries m)). Qed.
Lemma entry_by_block e1 e2 :
  e1 ∈ ValidEntries m → e2 ∈ ValidEntries m → en_block_id e1 = en_block_id e2 → e1 = e2.
Proof.
  destruct e1, e2. rewrite !elem_of_ValidEntries. cbn. intros [_ E1] [_ E2] ->. congruence.
Qed.

Lemma clear_loop_eq l m0 :
  (∀ e, e ∈ l → e ∈ ValidEntries m) →
  foldl (λ m0 e, match newest !! en_hash e with
                 | Some kept => if bool_decide (en_block_id kept = en_block_id e) then m0
                                else (KvCacheMetadata.Clear (en_block_id e) m0).2
                 | None => m0
                 end) m0 l =
  foldl (λ m0 i, (KvCacheMetadata.Clear i m0).2) m0 (en_block_id <$> filter stale l).
Proof.
  revert m0; induction l as [|e l IH]; intros m0 Hl; [done|]. cbn [foldl]. rewrite filter_cons.
  destruct (newest_cover e ltac:(apply Hl; left)) as [kept Ek]. rewrite Ek.
  assert (∀ e, e ∈ l → e ∈ ValidEntries m) as Hl' by (intros; apply Hl; by right).
  case_bool_decide as E.
  - rewrite decide_False by (unfold stale; rewrite Ek; cbn; rewrite E; naive_solver). by apply IH.
  - rewrite decide_True by (unfold stale; rewrite Ek; cbn; naive_solver). cbn. by apply IH.
Qed.

Lemma recoverable_perm : recoverable ≡ₚ (map_to_list newest).*2.
Proof. apply merge_sort_Permutation. Qed.
Lemma elem_of_recoverable e : e ∈ recoverable ↔ newest !! en_hash e = Some e.
Proof.
  rewrite recoverable_perm, list_elem_of_fmap. split.
  - intros ([h e'] & -> & He%elem_of_map_to_list). cbn. by destruct (newest_Some _ _ He) as [-> _].
  - intros He. exists (en_hash e, e). split; [done|]. by apply elem_of_map_to_list.
Qed.
Lemma recoverable_hashes : en_hash <$> recoverable ≡ₚ (map_to_list newest).*1.
Proof.
  rewrite recoverable_perm, <- list_fmap_compose. apply Permutation_refl'.
  apply list_fmap_ext. intros i [h e] Hi%list_elem_of_lookup_2%elem_of_map_to_list. cbn.
  by destruct (newest_Some _ _ Hi).
Qed.
Lemma recoverable_nodup : NoDup (en_hash <$> recoverable) ∧ NoDup (en_block_id <$> recoverable).
Proof.
  assert (NoDup (en_hash <$> recoverable)) as Hh by (rewrite recoverable_hashes; apply NoDup_fst_map_to_list).
  split; [done|]. apply NoDup_fmap_2_strong; [|by eapply NoDup_fmap_1].
  intros x y Hx%elem_of_recoverable Hy%elem_of_recoverable.
  apply entry_by_block; [apply (newest_Some _ _ Hx)|apply (newest_Some _ _ Hy)].
Qed.

(** The table after recovery binds each hash to its newest block, and only there. *)
Lemma recovered_table_spec :
  table_ok recovered_table ∧ md_num_blocks recovered_table = md_num_blocks m ∧
  ∀ e, e ∈ ValidEntries recovered_table ↔ newest !! en_hash e = Some e.
Proof.
  destruct (clear_fold (en_block_id <$> filter stale (ValidEntries m)) m Hm) as (Ht & Hn & Hb).
  { intros i (e & -> & [_ He]%list_elem_of_filter)%list_elem_of_fmap. by apply elem_of_ValidEntries in He as [? _]. }
  fold recovered_table in Ht, Hn, Hb. split; [done|]. split; [done|]. intros e. rewrite elem_of_ValidEntries, Hn. split.
  - intros [Hi E]. rewrite Hb in E by done. case_decide as Hs; [done|].
    assert (e ∈ ValidEntries m) as He by (by apply elem_of_ValidEntries).
    destruct (newest_cover e He) as [k Ek]. rewrite Ek. f_equal. destruct (newest_Some _ _ Ek) as [_ [Hk _]].
    apply entry_by_block; [done|done|]. apply dec_stable. intros Hne. apply Hs, list_elem_of_fmap. exists e.
    split; [done|]. apply list_elem_of_filter. split; [|done]. unfold stale. rewrite Ek. cbn. congruence.
  - intros He. destruct (newest_Some _ _ He) as [_ [Hin _]]. pose proof Hin as [Hi E]%elem_of_ValidEntries.
    split; [done|]. rewrite Hb by done. rewrite decide_False; [done|].
    intros (e' & Eb & [Hs He']%list_elem_of_filter)%list_elem_of_fmap.
    apply Hs. rewrite <- (entry_by_block e e' Hin He' Eb), He. done.
Qed.

Lemma recovered_cache capacity id :
  (0 < capacity)%nat →
  let hold e := mkRaidenBlockId id (en_block_id e) (-1) HOST in
  let c := foldl (λ c e, (Put (en_hash e) (hold e) c).2) (LRUCache_new capacity : LRUCache string RaidenBlockId) recoverable in
  wf c ∧ values c = hold <$> newest ∧ ∀ k, GetPinCount k c = 0.
Proof.
  intros Hcap hold. cbn zeta.
  replace (foldl _ _ recoverable) with
    (foldl (λ c hb, (Put hb.1 hb.2 c).2) (LRUCache_new capacity : LRUCache string RaidenBlockId)
       ((λ e, (en_hash e, hold e)) <$> recoverable)) by apply foldl_fmap.
  destruct (put_fold_view ((λ e, (en_hash e, hold e)) <$> recoverable) (LRUCache_new capacity)) as (Hw & Hv & Hp).
  { apply LRUCache_new_wf. }
  { unfold available_space. cbn. destruct capacity; cbn; lia. }
  split; [done|]. split; [|intros k; by rewrite Hp]. rewrite Hv. apply map_eq. intros h. rewrite lookup_fmap.
  destruct (newest !! h) as [e|] eqn:Ee; cbn.
  - destruct (newest_Some _ _ Ee) as [Eh _]. apply insert_all_lookup.
    + rewrite <- list_fmap_compose. apply recoverable_nodup.
    + apply list_elem_of_fmap. exists e. split; [by rewrite Eh|]. apply elem_of_recoverable. by rewrite Eh.
  - apply insert_all_None. split; [done|]. rewrite <- list_fmap_compose.
    intros (e & -> & He%elem_of_recoverable)%list_elem_of_fmap. cbn in Ee. congruence.
Qed.
End recovery.

Lemma max_seq_bound (l : list Entry) z :
  (∀ e, e ∈ l → 0 <= en_seq e < 2 ^ 64 - 1) → 0 <= z < 2 ^ 64 - 1 →
  let mx := foldl (λ mx e, Z.max mx (en_seq e)) z l in
  z <= mx < 2 ^ 64 - 1 ∧ ∀ e, e ∈ l → en_seq e <= mx.
Proof.
  revert z; induction l as [|x l IH]; intros z Hl Hz; cbn [foldl]; [split; [lia|set_solver]|].
  pose proof (Hl x ltac:(left)). destruct (IH (Z.max z (en_seq x))) as [Hr He]; [intros; apply Hl; by right|lia|].
  split; [lia|]. intros e [->|Hin]%elem_of_cons; [lia|by apply He].
Qed.

Lemma RecoverFromLocalManifest_eq m capacity id registry pool :
  table_ok m → LogicalBlockManager.wf pool → allocated_set pool = ∅ →
  md_num_blocks m <= total_blocks_ pool → (∀ e, e ∈ ValidEntries m → 0 <= en_seq e < 2 ^ 64 - 1) →
  ∃ s pool', RecoverFromLocalManifest (HostOffloadBackend_new capacity (Some m) id registry) pool =
    (Ok (length (recoverable m)), s, pool') ∧
  lru_cache_ s = foldl (λ c e, (Put (en_hash e) (mkRaidenBlockId id (en_block_id e) (-1) HOST) c).2)
                   (LRUCache_new capacity) (recoverable m) ∧
  metadata_ s = Some (recovered_table m) ∧
  allocated_set pool' = list_to_set (en_block_id <$> recoverable m) ∧
  (∀ e, e ∈ recoverable m → en_seq e < next_metadata_seq_ s).
Proof.
  intros Hm Hp Ha Hn Hseq. unfold RecoverFromLocalManifest. cbn [metadata_ HostOffloadBackend_new].
  case_bool_decide as Hemp.
  { assert (recoverable m = []) as Er by (unfold recoverable, newest; by rewrite Hemp).
    eexists _, pool. rewrite Er. cbn [length foldl]. split; [done|]. split; [done|]. split.
    - unfold recovered_table. by rewrite Hemp.
    - split; [by rewrite Ha|set_solver]. }
  fold (newest m). fold (recoverable m).
  assert (∀ e, e ∈ recoverable m → e ∈ ValidEntries m) as Hin.
  { intros e He%elem_of_recoverable. apply (newest_Some _ _ _ He). }
  pose proof (AllocateTarget_spec pool (en_block_id <$> recoverable m) Hp) as HA. cbn zeta in HA.
  destruct (AllocateTarget (en_block_id <$> recoverable m) pool) as [[[]|code] pool'].
  2:{ exfalso. apply HA. split; [apply recoverable_nodup|]. intros i (e & -> & He%Hin)%list_elem_of_fmap.
      apply elem_of_ValidEntries in He as [? _]. rewrite Ha. split; [lia|set_solver]. }
  destruct HA as (_ & _ & Hal & _ & _). eexists _, pool'. split; [done|]. cbn. split; [done|]. split.
  - f_equal. apply clear_loop_eq. done.
  - split; [rewrite Hal, Ha; set_solver|]. intros e He.
    destruct (max_seq_bound (recoverable m) 0) as [Hr Hb]; [intros; by apply Hseq, Hin|lia|].
    specialize (Hb e He). rewrite u64_small by lia. lia.
Qed.

(** Recovery agrees with the mirror it starts from, and ends in one. *)
Lemma newest_mirrored s m h : mirrors s m → en_block_id <$> newest m !! h = host_of (lru_cache_ s) h.
Proof.
  intros Hmir. pose proof (mi_exact _ _ Hmir) as Hex. destruct Hmir as [Hwf Em Hm _ Hran].
  apply option_eq. intros blk. rewrite fmap_Some. split.
  - intros (e & He & ->). destruct (newest_Some _ _ _ He) as [<- [[Hi E]%elem_of_ValidEntries _]].
    apply Hex; [done|]. unfold bound. by rewrite E.
  - intros Hh. pose proof (Hran _ _ Hh) as [Hi _]%set_accepts_iff. pose proof Hh as Hb. apply Hex in Hb; [|done]. unfold bound in Hb.
    destruct (binding_at m blk) as [[h' q]|] eqn:Eb; [|done]. injection Hb as ->.
    destruct (newest_cover m (mkEntry blk h q)) as [e He]; [by apply elem_of_ValidEntries|]. cbn in He.
    exists e. split; [done|]. destruct (newest_Some _ _ _ He) as [Eh [[Hie Ee]%elem_of_ValidEntries _]].
    assert (host_of (lru_cache_ s) h = Some (en_block_id e)) as Hh2.
    { apply Hex; [done|]. unfold bound. rewrite Ee. cbn. by rewrite Eh. }
    congruence.
Qed.
Lemma recovered_mirrors s m :
  table_ok m → wf (lru_cache_ s) → metadata_ s = Some (recovered_table m) →
  (∀ h, host_of (lru_cache_ s) h = en_block_id <$> newest m !! h) → mirrors s (recovered_table m).
Proof.
  intros Hm Hw Em Hho. destruct (recovered_table_spec m Hm) as (Ht & Htn & Hte).
  assert (∀ blk h, host_of (lru_cache_ s) h = Some blk → ∃ q, mkEntry blk h q ∈ ValidEntries (recovered_table m)) as Hback.
  { intros blk h. rewrite Hho, fmap_Some. intros (e & He & ->). exists (en_seq e). apply Hte. cbn.
    rewrite He. destruct (newest_Some _ _ _ He) as [<- _]. by destruct e. }
  split; [done|done|done|..].
  - intros blk h Hi _. split.
    + unfold bound. destruct (binding_at (recovered_table m) blk) as [[h' q]|] eqn:E; [|done]. intros [= ->].
      rewrite Hho. assert (mkEntry blk h q ∈ ValidEntries (recovered_table m)) as He by (by apply elem_of_ValidEntries).
      apply Hte in He. cbn in He. by rewrite He.
    + intros (q & [_ E]%elem_of_ValidEntries)%Hback. cbn in E. unfold bound. by rewrite E.
  - intros h blk (q & [Hi E]%elem_of_ValidEntries)%Hback. cbn in Hi, E. apply set_accepts_iff. split; [done|].
    eapply binding_length, E. by apply slot_at.
Qed.

(** C14: Recovery rebuilds the cache from the table.  From any table, also one a crash
    tore or that binds a hash to several blocks, a fresh backend over an empty pool
    that has the table's blocks recovers every bound hash, unpinned and host-resident,
    in the block of its newest stamp; exactly those blocks are allocated, the count
    is right, the stale bindings are cleared so that the table mirrors the cache
    again, and new stamps are above all recovered ones.  When the table mirrored the
    cache before the crash, every host block is back with its hash. *)
Theorem recovery_restores m capacity id registry pool :
  table_ok m → (0 < capacity)%nat → LogicalBlockManager.wf pool → allocated_set pool = ∅ →
  md_num_blocks m <= total_blocks_ pool → (∀ e, e ∈ ValidEntries m → 0 <= en_seq e < 2 ^ 64 - 1) →
  let '(r, s, pool') := RecoverFromLocalManifest (HostOffloadBackend_new capacity (Some m) id registry) pool in
  r = Ok (size (values (lru_cache_ s))) ∧ (∃ m', mirrors s m') ∧
  (∀ e, e ∈ ValidEntries m → is_Some (values (lru_cache_ s) !! en_hash e)) ∧
  (∀ h b, values (lru_cache_ s) !! h = Some b →
     GetPinCount h (lru_cache_ s) = 0 ∧ status b = HOST ∧
     ∃ e, is_newest (ValidEntries m) e ∧ en_hash e = h ∧ en_block_id e = host_block_id b ∧
          (en_seq e < next_metadata_seq_ s)) ∧
  (∀ blk, blk ∈ allocated_set pool' ↔ ∃ h, host_of (lru_cache_ s) h = Some blk) ∧
  (∀ s0, mirrors s0 m → ∀ h, host_of (lru_cache_ s) h = host_of (lru_cache_ s0) h).
Proof.
  intros Hm Hcap Hp Ha Hn Hseq.
  destruct (RecoverFromLocalManifest_eq m capacity id registry pool Hm Hp Ha Hn Hseq) as (s & pool' & -> & Ec & Em & Hal & Hsq).
  destruct (recovered_cache m capacity id Hcap) as (Hw & Hv & Hpin). cbn zeta in Hw, Hv, Hpin. rewrite <- Ec in Hw, Hv, Hpin.
  destruct (recovered_table_spec m Hm) as (Ht & Htn & Hte).
  assert (∀ h, host_of (lru_cache_ s) h = en_block_id <$> newest m !! h) as Hho.
  { intros h. unfold host_of. rewrite Hv, lookup_fmap. by destruct (newest m !! h). }
  split; [|split; [|split; [|split; [|split]]]].
  - do 2 f_equal. rewrite Hv, map_size_fmap, <- length_map_to_list, (Permutation_length (recoverable_perm m)).
    by rewrite length_fmap.
  - exists (recovered_table m). by apply recovered_mirrors.
  - intros e He. rewrite Hv, lookup_fmap, fmap_is_Some. by apply newest_cover.
  - intros h b Hb. rewrite Hv, lookup_fmap in Hb. destruct (newest m !! h) as [e|] eqn:Ee; [|done]. injection Hb as <-.
    split; [done|]. split; [done|]. destruct (newest_Some _ _ _ Ee) as [Eh Hmx]. exists e. split; [done|].
    split; [done|]. split; [done|]. apply Hsq, elem_of_recoverable. by rewrite Eh.
  - intros blk. rewrite Hal, elem_of_list_to_set, list_elem_of_fmap. setoid_rewrite Hho.
    setoid_rewrite fmap_Some. setoid_rewrite elem_of_recoverable. split.
    + intros (e & -> & He). by exists (en_hash e), e.
    + intros (h & e & He & ->). exists e. split; [done|]. by destruct (newest_Some _ _ _ He) as [-> _].
  - intros s0 Hs0 h. rewrite Hho. by apply newest_mirrored.
Qed.

(** ** A two-block backend *)
Definition id_ex : RaidenId := mkRaidenId "u" "job" "w" 0.
Definition host_ex (blk : Z) : RaidenBlockId := mkRaidenBlockId id_ex blk (-1) HOST.
Definition hbm_ex : RaidenBlockId := mkRaidenBlockId id_ex (-1) 3 HBM.
Definition backend_ex : HostOffloadBackend := HostOffloadBackend_new 2 (Some table_ex) id_ex true.
(** The same with one entry. *)
Definition backend1_ex : HostOffloadBackend :=
  set_cache (Put "a" (host_ex 0) (lru_cache_ backend_ex)).2 backend_ex.

Lemma backend_ex_wf : wf (lru_cache_ backend_ex) ∧ ∀ n, Z.of_nat n <= INT_MAX → pins_room n (lru_cache_ backend_ex).
Proof. split; [apply LRUCache_new_wf|]. intros n Hn k. assert (GetPinCount k (lru_cache_ backend_ex) = 0) as -> by reflexivity. lia. Qed.
Lemma backend1_ex_wf : wf (lru_cache_ backend1_ex) ∧ ∀ n, Z.of_nat n <= INT_MAX → pins_room n (lru_cache_ backend1_ex).
Proof.
  destruct (Put_view "a" (host_ex 0) (lru_cache_ backend_ex) (proj1 backend_ex_wf)) as (Hw & _ & Hp & _).
  split; [exact Hw|]. intros n Hn k. cbn [lru_cache_ set_cache backend1_ex]. rewrite Hp. by apply backend_ex_wf.
Qed.

Definition global_ex : LookupOptions := mkLookupOptions true true true kPrefix false false.
Lemma global_lookup_pins_witness :
  let '(hits, _, c1) := lookup_sweep global_ex ["a"; "b"] (lru_cache_ backend1_ex) in
  let '(results, s3) := lookup_finish global_ex ["a"; "b"] hits [] (set_cache c1 backend1_ex) in
  GetPinCount "a" c1 = 1 ∧ results.*1 = ["a"] ∧ GetPinCount "a" (lru_cache_ s3) = 1.
Proof.
  pose (s2 := set_cache (lookup_sweep global_ex ["a"; "b"] (lru_cache_ backend1_ex)).2 backend1_ex).
  pose proof (global_lookup_pins global_ex ["a"; "b"] backend1_ex s2 [] eq_refl eq_refl (proj1 backend1_ex_wf)
    (proj2 backend1_ex_wf 2%nat ltac:(vm_compute; discriminate))) as H.
  assert (wf (lru_cache_ s2)) as Hw2.
  { pose proof (lookup_sweep_view global_ex eq_refl ["a"; "b"] (lru_cache_ backend1_ex) (proj1 backend1_ex_wf)
      (proj2 backend1_ex_wf 2%nat ltac:(vm_compute; discriminate))) as Hs. unfold s2.
    destruct (lookup_sweep global_ex ["a"; "b"] (lru_cache_ backend1_ex)) as [[hits missing] c1]. apply Hs. }
  specialize (H Hw2). unfold s2 in H.
  assert ((lookup_sweep global_ex ["a"; "b"] (lru_cache_ backend1_ex)).1 = ([true; false], ["b"])) as E by reflexivity.
  destruct (lookup_sweep global_ex ["a"; "b"] (lru_cache_ backend1_ex)) as [[hits missing] c1] eqn:Es.
  cbn [fst snd] in *. injection E as -> ->.
  assert (c1 = (lookup_sweep global_ex ["a"; "b"] (lru_cache_ backend1_ex)).2) as Ec by (by rewrite Es).
  assert (∀ k, times k (hits_of (zip ["a"; "b"] [true; false])) <= GetPinCount k (lru_cache_ (set_cache c1 backend1_ex))) as Hk.
  { intros k. change (hits_of (zip ["a"; "b"] [true; false])) with ["a"]. cbn [lru_cache_ set_cache].
    destruct (decide ("a" = k)) as [<-|Hne].
    - rewrite Ec. vm_compute. discriminate.
    - rewrite times_notin by (intros ?%list_elem_of_singleton; congruence). apply pins_nonneg, Hw2. }
  specialize (H Hk). destruct (lookup_finish _ _ _ _ _) as [results s3] eqn:Ef. destruct H as (Hp1 & Hp3 & Hres & _).
  assert (results.*1 = ["a"]) as Er by (rewrite Ec in Ef; vm_compute in Ef; injection Ef as <- _; reflexivity).
  split; [rewrite Hp1; reflexivity|]. split; [exact Er|].
  assert (length results = 1%nat) as El by (by rewrite <- (length_fmap fst results), Er).
  rewrite Hp3, El, Ec. reflexivity.
Defined.

Lemma InsertAdmitStrict_spec_witness : (Insert ["a"] [host_ex 0] kAdmitStrict backend_ex).1.1 = true.
Proof.
  pose proof (InsertAdmitStrict_spec ["a"] [host_ex 0] backend_ex (proj1 backend_ex_wf)) as H.
  destruct (Insert ["a"] [host_ex 0] kAdmitStrict backend_ex) as [[ok l] s']. destruct H as [H _]. apply H.
  split; [discriminate|]. split; [reflexivity|]. split; [apply NoDup_singleton|]. split; [|cbn; lia].
  intros h ->%list_elem_of_singleton. reflexivity.
Defined.

Lemma InsertAndPin_spec_witness :
  let '(ok, _, s') := Insert ["a"] [host_ex 0] kInsertAndPin backend_ex in
  ok = true ∧ GetPinCount "a" (lru_cache_ s') = 1 ∧ values (lru_cache_ s') !! "a" = Some (host_ex 0).
Proof.
  pose proof (InsertAndPin_spec ["a"] [host_ex 0] backend_ex (proj1 backend_ex_wf)
    (proj2 backend_ex_wf 1%nat ltac:(vm_compute; discriminate))) as H.
  destruct (Insert ["a"] [host_ex 0] kInsertAndPin backend_ex) as [[ok l] s'].
  destruct H as (_ & Hok & Hp & _ & Hv). rewrite Hok in * by (cbn; lia). split; [reflexivity|]. split.
  - rewrite Hp. reflexivity.
  - apply (Hv eq_refl (NoDup_singleton _) 0%nat); reflexivity.
Defined.

Lemma Delete_spec_witness :
  let '(d, s') := Delete ["a"; "b"] false backend1_ex in
  "a" ∈ del_hashes d ∧ values (lru_cache_ s') !! "a" = None.
Proof.
  pose proof (Delete_spec ["a"; "b"] false backend1_ex (proj1 backend1_ex_wf)) as H.
  destruct (Delete ["a"; "b"] false backend1_ex) as [d s']. destruct H as (_ & _ & Hd & Hv & _).
  assert ("a" ∈ del_hashes d) as Ha.
  { apply Hd. split; [by left|]. split; [reflexivity|]. exists (host_ex 0). split; [reflexivity|discriminate]. }
  split; [exact Ha|]. rewrite Hv. by rewrite decide_True.
Defined.

Lemma own_pairs_ex m (c : LRUCache string RaidenBlockId) hash blk :
  set_accepts blk hash m = true → map_Forall (λ h b, host_block b = Some blk → h = hash) (values c) →
  own_pairs m c [(hash, host_ex blk)].
Proof.
  intros Ha Hc. split; [|apply NoDup_singleton]. intros h b [= -> ->]%list_elem_of_singleton blk' [= <-].
  split; [done|]. intros k Hk. unfold host_of in Hk. destruct (values c !! k) as [b|] eqn:Eb; [|done]. by apply (Hc k b).
Qed.
(** An entry that moves from block 0 to block 1 leaves slot 0 at odds, and no other. *)
Definition moved_ex : HostOffloadBackend :=
  (Insert ["a"] [host_ex 1] kBestEffortUpdate (Insert ["a"] [host_ex 0] kBestEffortUpdate backend_ex).2).2.
Lemma mirror_exact_witness :
  ∃ m', metadata_ moved_ex = Some m' ∧ host_of (lru_cache_ moved_ex) "a" = Some 1 ∧
    ∀ blk hash, blk ≠ 0 → (∃ seq, mkEntry blk hash seq ∈ ValidEntries m') ↔ host_of (lru_cache_ moved_ex) hash = Some blk.
Proof.
  destruct (mirror_exact region_ex 2 "m" table_ex 2 id_ex true ({[0]} : gset Z) moved_ex)
    as (m' & Em & _ & _ & Hex & _).
  - split; [by repeat constructor|cbn; lia|cbn; unfold header_size, entry_size; lia].
  - lia.
  - reflexivity.
  - pose (s1 := (Insert ["a"] [host_ex 0] kBestEffortUpdate backend_ex).2).
    assert (backend_run backend_ex (∅ ∪ list_to_set (update_strays ["a"] [host_ex 0] backend_ex)) s1) as R1.
    { apply (run_call _ _ backend_ex), step_update; [apply run_start|]. intros m [= <-].
      apply own_pairs_ex; [reflexivity|apply (bool_decide_unpack _); vm_compute; exact I]. }
    assert (backend_run backend_ex (∅ ∪ list_to_set (update_strays ["a"] [host_ex 0] backend_ex) ∪
      list_to_set (update_strays ["a"] [host_ex 1] s1)) moved_ex) as R2.
    { apply (run_call _ _ s1), step_update; [exact R1|]. intros m E. vm_compute in E. injection E as <-.
      apply own_pairs_ex; [reflexivity|apply (bool_decide_unpack _); vm_compute; exact I]. }
    assert (update_strays ["a"] [host_ex 0] backend_ex = [] ∧ update_strays ["a"] [host_ex 1] s1 = [0]) as [E1 E2]
      by (split; vm_compute; reflexivity).
    rewrite E1, E2 in R2. replace ({[0]} : gset Z) with (∅ ∪ list_to_set [] ∪ list_to_set [0] : gset Z) by set_solver. exact R2.
  - exists m'. split; [exact Em|]. split; [vm_compute; reflexivity|]. intros blk hash Hne. apply Hex. set_solver.
Defined.

Definition pool_ex : LogicalBlockManager := mkLBM 4 0 (replicate 4 initial_block) 4.
Lemma recovery_restores_witness :
  let '(r, s, _) := RecoverFromLocalManifest
    (HostOffloadBackend_new 2 (Some (Set_ 1 "ab" 7 table_ex).2) id_ex true) pool_ex in
  r = Ok (size (values (lru_cache_ s))) ∧ is_Some (values (lru_cache_ s) !! "ab").
Proof.
  assert (ValidEntries (Set_ 1 "ab" 7 table_ex).2 = [mkEntry 1 "ab" 7]) as E by reflexivity.
  pose proof (recovery_restores (Set_ 1 "ab" 7 table_ex).2 2 id_ex true pool_ex) as H.
  destruct (RecoverFromLocalManifest _ pool_ex) as [[r s] pool']. destruct H as (Hr & _ & Hs & _).
  - apply Set_table_ok, table_ex_ok.
  - lia.
  - destruct (LogicalBlockManager_new_wf 4 pool_ex) as [Hw _]; [vm_compute; discriminate|reflexivity|exact Hw].
  - reflexivity.
  - vm_compute. discriminate.
  - rewrite E. intros e ->%list_elem_of_singleton. cbn. lia.
  - split; [exact Hr|]. apply (Hs (mkEntry 1 "ab" 7)). rewrite E. by left.
Defined.

(** ** What the exact mirror and the all-or-nothing insert leave out *)

(** A refused insert-and-pin has already overwritten the HBM-only entries of its batch. *)
Lemma InsertAndPin_refused_overwrites :
  let s := set_cache (Put "a" hbm_ex (LRUCache_new 1 : LRUCache string RaidenBlockId)).2
             (HostOffloadBackend_new 1 (Some table_ex) id_ex true) in
  let '(ok, _, s') := Insert ["a"; "b"] [host_ex 0; host_ex 1] kInsertAndPin s in
  ok = false ∧ values (lru_cache_ s) !! "a" = Some hbm_ex ∧ values (lru_cache_ s') !! "a" = Some (host_ex 0).
Proof. vm_compute. repeat split. Qed.

(** A best-effort update leaves the binding of the block it replaces in the table,
    and deleting the hash does not remove it either. *)
Lemma best_effort_stale_binding :
  let s := (Insert ["a"] [host_ex 0] kBestEffortUpdate backend_ex).2 in
  let s' := (Insert ["a"] [host_ex 1] kBestEffortUpdate s).2 in
  host_of (lru_cache_ s') "a" = Some 1 ∧
  (ValidEntries <$> metadata_ s') = Some [mkEntry 0 "a" 0; mkEntry 1 "a" 1] ∧
  (ValidEntries <$> metadata_ (Delete ["a"] false s').2) = Some [mkEntry 0 "a" 0].
Proof. vm_compute. repeat split. Qed.
