(* ===== verification/BackendViews.v ===== *)
(** * BackendViews: the backend's calls as their clients see them
    (src/tpu_sync/kv_cache/host_offload_backend.cc)

    For each call of the host backend that the store makes, its effect on the three
    things the store keeps account of: the pins of a hash, the host block its entry
    holds, and the metadata table. *)

From S2P Require Import Prelude RaidenTypes LogicalBlockManager LruCache KvCacheMetadata HostOffloadBackend BackendMirror.
Implicit Types (s : HostOffloadBackend) (m : KVCacheMetadata) (c : LRUCache string RaidenBlockId) (hash h : string).
Implicit Types (b : RaidenBlockId) (hashes : list string).

Lemma host_of_values c c' h : values c' !! h = values c !! h → host_of c' h = host_of c h.
Proof. unfold host_of. by intros ->. Qed.

(** ** In-place updates *)

(** An update that keeps the entry's host block, or gives a fresh one to an entry
    without, keeps the mirror. *)
Lemma mirror_update s m hash b c' :
  mirrors s m → wf c' → values c' = <[hash := b]> (values (lru_cache_ s)) →
  (host_of (lru_cache_ s) hash = None ∧ block_fresh m hash b (lru_cache_ s)) ∨
  (is_Some (host_block b) ∧ host_of (lru_cache_ s) hash = host_block b) →
  ∃ m', mirrors (SetMetadataEntry hash b (set_cache c' s)) m' ∧ md_num_blocks m' = md_num_blocks m.
Proof.
  intros Hm Hwf' Hv Hb. apply mirror_overwrite; [done|done|done| |].
  - destruct Hb as [[_ Hf]|[_ Hsame]]; [by apply fresh_own|]. intros blk Hblk. rewrite Hblk in Hsame.
    pose proof (mi_range _ _ _ Hm _ _ Hsame) as Ha. split; [done|]. intros h Hh. apply set_accepts_iff in Ha as [Hi _].
    apply (mi_exact _ _ Hm _ _ Hi) in Hh, Hsame. congruence.
  - intros old Hold. destruct Hb as [[Hn _]|[_ Hsame]]; [congruence|left; congruence].
Qed.

(** One active entry of a best-effort update. *)
Definition update1 s (hb : string * RaidenBlockId) : HostOffloadBackend :=
  SetMetadataEntry hb.1 hb.2 (set_cache (UpdateValue hb.1 hb.2 (lru_cache_ s)).2 s).

Lemma update1_view s hash b :
  wf (lru_cache_ s) → Contains hash (lru_cache_ s) = true →
  let s' := update1 s (hash, b) in
  wf (lru_cache_ s') ∧ values (lru_cache_ s') = <[hash := b]> (values (lru_cache_ s)) ∧
  capacity_ (lru_cache_ s') = capacity_ (lru_cache_ s) ∧
  (∀ k, GetPinCount k (lru_cache_ s') = GetPinCount k (lru_cache_ s)) ∧
  (∀ k, Contains k (lru_cache_ s') = Contains k (lru_cache_ s)) ∧
  ∀ slices i, slices !! i = Some b → best_effort_one slices s (i, hash) = ([], s').
Proof.
  intros Hwf Hc. cbn zeta. unfold update1. rewrite !lru_SetMetadataEntry. cbn [lru_cache_ set_cache fst snd].
  pose proof (UpdateValue_view hash b (lru_cache_ s) Hwf Hc) as H.
  unfold best_effort_one. rewrite Hc.
  destruct (UpdateValue hash b (lru_cache_ s)) as [ok c'] eqn:Eu. destruct H as (-> & Hw & Hv & Hcap & Hp & Hcon).
  do 5 (split; [done|]). intros slices i Hi. by rewrite Hi, Eu.
Qed.

(** The account of a batch of updates of active entries: values written in order,
    pins untouched, and the mirror kept when every update keeps its host block or
    gives a fresh one to an entry without. *)
Lemma update_all_view (l : BlockSliceList) s :
  wf (lru_cache_ s) → (∀ h, h ∈ l.*1 → Contains h (lru_cache_ s) = true) →
  let s' := foldl update1 s l in
  wf (lru_cache_ s') ∧ values (lru_cache_ s') = insert_all l (values (lru_cache_ s)) ∧
  capacity_ (lru_cache_ s') = capacity_ (lru_cache_ s) ∧
  (∀ k, GetPinCount k (lru_cache_ s') = GetPinCount k (lru_cache_ s)) ∧
  (∀ k, Contains k (lru_cache_ s') = Contains k (lru_cache_ s)).
Proof.
  revert s; induction l as [|[h b] l IH]; intros s Hwf Hc; cbn [foldl]; [done|].
  destruct (update1_view s h b Hwf ltac:(apply Hc; left)) as (Hw & Hv & Hcap & Hp & Hcon & _).
  destruct (IH (update1 s (h, b)) Hw) as (Hw' & Hv' & Hcap' & Hp' & Hcon').
  { intros k Hk. rewrite Hcon. apply Hc. by right. }
  split; [done|]. split; [by rewrite Hv', Hv|]. split; [congruence|].
  split; intros k; [by rewrite Hp', Hp|by rewrite Hcon', Hcon].
Qed.

Lemma best_effort_update hashes slices s :
  wf (lru_cache_ s) → length slices = length hashes → (∀ h, h ∈ hashes → Contains h (lru_cache_ s) = true) →
  Insert hashes slices kBestEffortUpdate s = (true, [], foldl update1 s (zip hashes slices)).
Proof.
  intros Hwf Hlen Hc. cbn [Insert]. unfold InsertBestEffortUpdate.
  assert (∀ n (pre : list RaidenBlockId), length pre = n →
    foldl (λ '(acc, s) ih, let '(e, s) := best_effort_one (pre ++ slices) s ih in (acc ++ e, s)) ([], s)
      (imap (λ i h, ((n + i)%nat, h)) hashes) = ([], foldl update1 s (zip hashes slices))) as H.
  { revert s slices Hwf Hlen Hc. induction hashes as [|h hashes IH]; intros s slices Hwf Hlen Hc n pre Hpre; [done|].
    destruct slices as [|b slices]; [done|]. cbn [imap zip_with foldl]. injection Hlen as Hlen.
    destruct (update1_view s h b Hwf ltac:(apply Hc; left)) as (Hw & _ & _ & _ & Hcon & Heq).
    rewrite (Heq (pre ++ b :: slices) (n + 0)%nat) by (rewrite Nat.add_0_r; by apply list_lookup_middle).
    rewrite app_nil_r. specialize (IH (update1 s (h, b)) slices Hw Hlen).
    rewrite <- (IH (λ k Hk, eq_trans (Hcon k) (Hc k ltac:(by right))) (S n) (pre ++ [b])).
    - rewrite <- app_assoc. cbn [app]. f_equal. apply imap_ext. intros i x _. cbn. f_equal. lia.
    - rewrite length_app. cbn. lia. }
  specialize (H 0%nat [] eq_refl). cbn [app] in H.
  assert (imap pair hashes = imap (λ i h, ((0 + i)%nat, h)) hashes) as -> by (by apply imap_ext).
  rewrite H. by case_match.
Qed.

Lemma update1_mirror s m hash b :
  mirrors s m → Contains hash (lru_cache_ s) = true →
  (host_of (lru_cache_ s) hash = None ∧ block_fresh m hash b (lru_cache_ s)) ∨
  (is_Some (host_block b) ∧ host_of (lru_cache_ s) hash = host_block b) →
  ∃ m', mirrors (update1 s (hash, b)) m' ∧ md_num_blocks m' = md_num_blocks m.
Proof.
  intros Hm Hc Hb. destruct (update1_view s hash b (mi_cache _ _ _ Hm) Hc) as (Hw & Hv & _).
  unfold update1 in Hw, Hv. rewrite lru_SetMetadataEntry in Hw, Hv. by apply mirror_update.
Qed.

(** Fresh host blocks for entries that had none. *)
Lemma update_all_fresh (l : BlockSliceList) s m :
  mirrors s m → NoDup l.*1 → (∀ h, h ∈ l.*1 → Contains h (lru_cache_ s) = true ∧ host_of (lru_cache_ s) h = None) →
  fresh_pairs m (lru_cache_ s) l →
  ∃ m', mirrors (foldl update1 s l) m' ∧ md_num_blocks m' = md_num_blocks m.
Proof.
  revert s m; induction l as [|[h b] l IH]; intros s m Hm Hnd Hc Hf; cbn [foldl]; [by exists m|].
  cbn in Hnd. apply NoDup_cons in Hnd as [Hh Hnd]. destruct (Hc h ltac:(left)) as [Hch Hnone].
  destruct (update1_view s h b (mi_cache _ _ _ Hm) Hch) as (_ & Hv & _ & _ & Hcon & _).
  destruct (update1_mirror s m h b Hm Hch) as (m1 & Hm1 & Hn1); [left; split; [done|apply Hf; left]|].
  destruct (IH _ m1 Hm1 Hnd) as (m2 & Hm2 & Hn2).
  - intros k Hk. destruct (Hc k ltac:(by right)) as [Hck Hnk]. rewrite Hcon. split; [done|].
    rewrite <- Hnk. apply host_of_values. rewrite Hv, lookup_insert_ne by set_solver. done.
  - eapply fresh_pairs_step; [exact Hn1|left; exact Hv|exact Hf].
  - exists m2. split; [done|congruence].
Qed.
(** Entries that keep their host block. *)
Lemma update_all_same (l : BlockSliceList) s m :
  mirrors s m →
  (∀ h b, (h, b) ∈ l → Contains h (lru_cache_ s) = true ∧ is_Some (host_block b) ∧ host_of (lru_cache_ s) h = host_block b) →
  ∃ m', mirrors (foldl update1 s l) m' ∧ md_num_blocks m' = md_num_blocks m.
Proof.
  revert s m; induction l as [|[h b] l IH]; intros s m Hm Hl; cbn [foldl]; [by exists m|].
  destruct (Hl h b ltac:(left)) as (Hch & Hb & Hsame).
  destruct (update1_view s h b (mi_cache _ _ _ Hm) Hch) as (_ & Hv & _ & _ & Hcon & _).
  destruct (update1_mirror s m h b Hm Hch) as (m1 & Hm1 & Hn1); [by right|].
  destruct (IH _ m1 Hm1) as (m2 & Hm2 & Hn2).
  - intros k b' Hk. destruct (Hl k b' ltac:(by right)) as (Hck & Hb' & Hsk). rewrite Hcon. split; [done|]. split; [done|].
    rewrite <- Hsk. unfold host_of in *. rewrite Hv. destruct (decide (h = k)) as [<-|]; [|by rewrite lookup_insert_ne].
    by rewrite lookup_insert_eq, Hsame.
  - exists m2. split; [done|congruence].
Qed.

(** The host blocks after a batch of writes. *)
Lemma insert_all_host_same (l : BlockSliceList) c c' :
  values c' = insert_all l (values c) → (∀ h b, (h, b) ∈ l → host_of c h = host_block b) →
  ∀ h, host_of c' h = host_of c h.
Proof.
  intros Hv Hl h. unfold host_of in *. rewrite Hv. clear Hv.
  assert (∀ v : gmap string RaidenBlockId, (v !! h ≫= host_block = values c !! h ≫= host_block) →
    insert_all l v !! h ≫= host_block = values c !! h ≫= host_block) as H; [|by apply H].
  induction l as [|[k b] l IH]; intros v Hv; [done|]. unfold insert_all. cbn [foldl fst snd]. apply IH.
  - intros k' b' Hin. apply Hl. by right.
  - destruct (decide (k = h)) as [->|]; [|by rewrite lookup_insert_ne]. rewrite lookup_insert_eq. cbn. symmetry. apply Hl. left.
Qed.
Lemma insert_all_host_fresh (l : BlockSliceList) c c' :
  values c' = insert_all l (values c) → NoDup l.*1 →
  (∀ h b, (h, b) ∈ l → host_of c' h = host_block b) ∧ (∀ h, h ∉ l.*1 → host_of c' h = host_of c h).
Proof.
  intros Hv Hnd. unfold host_of. rewrite Hv. split.
  - intros h b Hin. by rewrite (insert_all_lookup _ _ _ _ Hnd Hin).
  - intros h Hh. by rewrite insert_all_notin.
Qed.

Lemma insert_all_nonhost (l : BlockSliceList) v h :
  (∀ hb, hb ∈ l → host_block hb.2 = None) → h ∈ l.*1 → insert_all l v !! h ≫= host_block = None.
Proof.
  intros Hl. assert (∀ v : gmap string RaidenBlockId, h ∈ l.*1 ∨ v !! h ≫= host_block = None → insert_all l v !! h ≫= host_block = None) as H;
    [|intros Hh; apply H; by left].
  induction l as [|[k b] l IH]; intros v0 Hh; [destruct Hh as [[]%not_elem_of_nil|]; done|].
  unfold insert_all. cbn [foldl fst snd]. apply IH; [intros hb Hin; apply Hl; by right|].
  pose proof (Hl (k, b) ltac:(left)) as Hb. cbn in Hb, Hh. rewrite elem_of_cons in Hh.
  destruct (decide (h ∈ l.*1)) as [|Hn]; [by left|right]. destruct (decide (k = h)) as [->|].
  - by rewrite lookup_insert_eq.
  - rewrite lookup_insert_ne by done. destruct Hh as [[->|]|]; done.
Qed.

(** ** Strict admission *)
Lemma admit_view hashes slices s :
  wf (lru_cache_ s) →
  Insert hashes slices kAdmitStrict s = (false, [], s) ∨
  ∃ s', Insert hashes slices kAdmitStrict s = (true, [], s') ∧ NoDup hashes ∧
    (∀ h, h ∈ hashes → values (lru_cache_ s) !! h = None) ∧ wf (lru_cache_ s') ∧
    values (lru_cache_ s') = insert_all (zip hashes slices) (values (lru_cache_ s)) ∧
    ∀ k, GetPinCount k (lru_cache_ s') = GetPinCount k (lru_cache_ s).
Proof.
  intros Hwf. cbn [Insert]. unfold InsertAdmitStrict.
  destruct (bool_decide (hashes = []) || negb (length hashes =? length slices)%nat) eqn:E1; [by left|].
  destruct (admissible hashes (lru_cache_ s)) eqn:E2; [|by left]. right. cbn [negb].
  apply orb_false_iff in E1 as [_ E1%negb_false_iff%Nat.eqb_eq]. apply admissible_spec in E2 as (Hnd & Hnew & Hsp).
  rewrite admit_loop_eq; [|done|by rewrite fst_zip by lia|by rewrite fst_zip by lia|rewrite length_zip; lia].
  destruct (put_all_view (zip hashes slices) s Hwf ltac:(rewrite length_zip; lia)) as (Hw & Hv & _ & Hp & _).
  eexists. by split_and!.
Qed.

Lemma no_host_fresh m c (l : BlockSliceList) : (∀ hb, hb ∈ l → host_block hb.2 = None) → fresh_pairs m c l.
Proof.
  intros Hl. split.
  - intros h b Hin blk Hb. specialize (Hl _ Hin). cbn in Hl. congruence.
  - replace (omap _ l) with (@nil Z); [constructor|]. symmetry. induction l as [|hb l IH]; [done|]. cbn.
    rewrite Hl by left. apply IH. intros hb' Hi. apply Hl. by right.
Qed.

(** ** Insert-and-pin of blocks that are not in host memory *)
Lemma pin_existing_host hashes slices pinned todo s :
  wf (lru_cache_ s) → (∀ i, i ∈ todo → Contains (hashes !!! i) (lru_cache_ s) = true) →
  pins_room (length todo) (lru_cache_ s) → (∀ b, b ∈ slices → host_block b = None) →
  ∀ h, host_of (lru_cache_ (pin_existing hashes slices pinned todo s).2) h = host_of (lru_cache_ s) h.
Proof.
  intros Hwf Hc Hr Hs. revert pinned s Hwf Hc Hr; induction todo as [|i todo IH]; intros pinned s Hwf Hc Hr h; cbn [pin_existing length] in *; [done|].
  pose proof (Hc i (list_elem_of_here _ _)) as Hci.
  pose proof (Pin_view (hashes !!! i) (lru_cache_ s) Hwf (pins_room_lt _ _ _ Hr) (Contains_values _ _ Hci)) as Hpin.
  unfold pin_hash. destruct (LruCache.Pin (hashes !!! i) (lru_cache_ s)) as [ok c1]. destruct Hpin as (-> & Hw1 & Hv1 & _ & Hp1 & Hc1).
  destruct (overwrite_hbm_view hashes slices i (set_cache c1 s) Hw1) as (Hw2 & _ & Hp2 & Hc2 & Hv2 & _). cbn [lru_cache_ set_cache] in *.
  rewrite IH; [|done| |].
  - unfold host_of. destruct Hv2 as [->|(-> & b & Hb & Hst)]; [by rewrite Hv1|].
    destruct (decide (hashes !!! i = h)) as [<-|]; [|by rewrite lookup_insert_ne, Hv1 by done]. rewrite lookup_insert_eq.
    rewrite <- Hv1, Hb. cbn. unfold host_block at 2. rewrite Hst. cbn.
    destruct (slices !! i) as [b'|] eqn:Eb; [|done]. cbn. by eapply Hs, list_elem_of_lookup_2.
  - intros j Hj. rewrite Hc2, Hc1, Hc by (by right). done.
  - intros k. rewrite Hp2, Hp1. specialize (Hr k). case_decide; lia.
Qed.

(** Inserting blocks that are not in host memory takes the host block of a hash
    exactly when the hash is an eviction candidate, which no lookup sees. *)
Lemma InsertAndPin_host hashes slices s :
  wf (lru_cache_ s) → pins_room (length hashes) (lru_cache_ s) → (∀ b, b ∈ slices → host_block b = None) →
  let '(ok, s') := InsertAndPin hashes slices s in
  ∀ h, host_of (lru_cache_ s') h =
    if ok && bool_decide (h ∈ hashes) && negb (Contains h (lru_cache_ s)) then None else host_of (lru_cache_ s) h.
Proof.
  intros Hwf Hr Hs. unfold InsertAndPin.
  set (existing := filter _ _). set (new := filter (λ i, ¬ _) _).
  assert (length existing + length new = length hashes)%nat as Hlen by apply (split_indices hashes s).
  assert (∀ i, i ∈ existing → Contains (hashes !!! i) (lru_cache_ s) = true) as Hex by (by intros i [? _]%list_elem_of_filter).
  destruct (pin_existing_view hashes slices [] existing s Hwf Hex) as (s1 & E1 & Hw1 & Hcap1 & Hp1 & Hc1 & _ & Hn1 & _).
  { intros k. specialize (Hr k). lia. }
  pose proof (pin_existing_host hashes slices [] existing s Hwf Hex ltac:(intros k; specialize (Hr k); lia) Hs) as Hh1.
  rewrite E1 in *. cbn [fst snd negb] in *.
  destruct (Nat.ltb_spec (available_space (lru_cache_ s1)) (length new)) as [Hsp|Hsp].
  { intros h. cbn [andb]. destruct (unpin_all_view ((λ j, hashes !!! j) <$> existing) s1 Hw1) as (_ & _ & Hv & _).
    rewrite <- Hh1. apply host_of_values. by rewrite Hv. }
  rewrite put_new_eq. destruct (put_all_view (pair_at hashes slices <$> reverse new) s1 Hw1) as (Hw2 & Hv2 & _ & Hp2 & _).
  { rewrite length_fmap, length_reverse. lia. }
  destruct (pin_new_view hashes existing new [] new _ Hw2) as (c' & E3 & _ & Hv3 & _).
  { intros i Hi. rewrite Hv2. apply not_eq_None_Some. rewrite insert_all_None. intros [_ Hni]. apply Hni.
    rewrite <- list_fmap_compose. apply list_elem_of_fmap. exists i. split; [done|]. by apply elem_of_reverse. }
  { intros k. rewrite Hp2, Hp1. specialize (Hr k). unfold hashes_at, times.
    pose proof (length_filter (λ h, h = k) ((λ j, hashes !!! j) <$> existing)) as Hf. rewrite length_fmap in Hf. lia. }
  rewrite E3. cbn [lru_cache_ set_cache andb]. intros h.
  assert (∀ hb, hb ∈ (pair_at hashes slices <$> reverse new) → host_block hb.2 = None) as Hn.
  { intros hb (j & -> & _)%list_elem_of_fmap. unfold pair_at. cbn. destruct (slices !! j) as [b|] eqn:Eb; [|done].
    cbn. by eapply Hs, list_elem_of_lookup_2. }
  assert ((pair_at hashes slices <$> reverse new).*1 = hashes_at hashes (reverse new)) as Efst
    by (unfold hashes_at; by rewrite <- list_fmap_compose).
  destruct (decide (h ∈ hashes_at hashes (reverse new))) as [Hin|Hout].
  - unfold host_of. rewrite Hv3, Hv2. rewrite insert_all_nonhost by (rewrite ?Efst; done).
    apply list_elem_of_fmap in Hin as (i & -> & Hi). apply elem_of_reverse, list_elem_of_filter in Hi as [Hnp Hi%elem_of_seq].
    rewrite bool_decide_true by (apply list_elem_of_lookup_total_2; lia). apply not_true_is_false in Hnp. by rewrite Hnp.
  - rewrite <- Hh1. unfold host_of at 1. rewrite Hv3, Hv2, insert_all_notin by (by rewrite Efst).
    destruct (bool_decide (h ∈ hashes)) eqn:Eb; [|done]. apply bool_decide_eq_true, list_elem_of_lookup in Eb as [i Hi].
    destruct (Contains h (lru_cache_ s)) eqn:Ec; [done|]. destruct Hout. apply list_elem_of_fmap. exists i.
    rewrite (list_lookup_total_correct _ _ _ Hi). split; [done|]. apply elem_of_reverse, list_elem_of_filter.
    rewrite (list_lookup_total_correct _ _ _ Hi), Ec. split; [done|]. apply elem_of_seq. apply lookup_lt_Some in Hi. lia.
Qed.

(** ** Lookups *)
Lemma set_cache_id s : set_cache (lru_cache_ s) s = s.
Proof. by destruct s. Qed.

Section unpinned_lookup.
Context (options : LookupOptions) (Hpin : lo_pin_found options = false).

Lemma lookup_prefix_unpinned hashes c : (lookup_prefix options hashes c).2 = c.
Proof.
  revert c; induction hashes as [|h l IH]; intros c; [done|]. cbn. destruct (lookup_hit options h c); [|done].
  assert (take_hit options h c = c) as Et by (unfold take_hit; by rewrite Hpin). rewrite Et.
  specialize (IH c). by destruct (lookup_prefix options l c).
Qed.
Lemma lookup_subset_unpinned hashes c : (lookup_subset options hashes c).2 = c.
Proof.
  revert c; induction hashes as [|h l IH]; intros c; [done|]. cbn. destruct (lookup_hit options h c); [|apply IH].
  assert (take_hit options h c = c) as Et by (unfold take_hit; by rewrite Hpin). rewrite Et.
  specialize (IH c). by destruct (lookup_subset options l c).
Qed.
Lemma lookup_sweep_unpinned hashes c : (lookup_sweep options hashes c).2 = c.
Proof.
  revert c; induction hashes as [|h l IH]; intros c; [done|]. cbn.
  assert (take_hit options h c = c) as Et by (unfold take_hit; by rewrite Hpin). rewrite Et.
  specialize (IH c). destruct (lookup_peek options h c); [by destruct (lookup_sweep options l c) as [[??]?]|].
  case_match; [done|]. by destruct (lookup_sweep options l c) as [[??]?].
Qed.

(** A lookup that does not pin changes nothing. *)
Lemma Lookup_unpinned order registry hashes s : (Lookup order registry hashes options s).2 = s.
Proof.
  unfold Lookup. do 3 (case_match; [done|]). case_match.
  { pose proof (lookup_subset_unpinned (if bool_decide (hashes = []) then order else hashes) (lru_cache_ s)) as E.
    destruct (lookup_subset _ _ _) as [r c]. cbn in *. subst. apply set_cache_id. }
  case_match.
  { pose proof (lookup_prefix_unpinned hashes (lru_cache_ s)) as E. destruct (lookup_prefix _ _ _) as [r c]. cbn in *. subst.
    apply set_cache_id. }
  case_match; [done|]. pose proof (lookup_sweep_unpinned hashes (lru_cache_ s)) as E.
  destruct (lookup_sweep options hashes (lru_cache_ s)) as [[hits missing] c]. cbn in E. subst. unfold lookup_finish.
  rewrite Hpin. cbn. apply set_cache_id.
Qed.
End unpinned_lookup.

Lemma while_some_spec {A B} (f : A → option B) (l : list A) :
  (while_some f l).*1 = take (length (while_some f l)) l ∧ (length (while_some f l) <= length l)%nat ∧
  ∀ x y, (x, y) ∈ while_some f l → f x = Some y.
Proof.
  induction l as [|x l IH]; cbn; [split; [done|]; split; [done|]; set_solver|].
  destruct (f x) as [y|] eqn:E; cbn; [|split; [done|]; split; [lia|]; set_solver]. destruct IH as (H1 & H2 & H3).
  split; [by f_equal|]. split; [lia|]. intros x' y'. rewrite elem_of_cons. naive_solver.
Qed.

Lemma lookup_hit_local options h c b :
  lo_include_eviction_candidates options = false → lookup_hit options h c = Some b →
  values c !! h = Some b ∧ Contains h c = true.
Proof.
  unfold lookup_hit, lookup_peek. intros ->. rewrite Peek_values. destruct (Contains h c); [|done].
  destruct (values c !! h); [|done]. case_match; [done|]. by intros [= ->].
Qed.

(** What a prefix lookup answers: the hashes in order, each with its own entry or a
    peer's block. *)
Lemma Lookup_prefix_answer order registry hashes options s found :
  lo_match_mode options = kPrefix → lo_include_eviction_candidates options = false →
  wf (lru_cache_ s) → pins_room (length hashes) (lru_cache_ s) →
  (Lookup order registry hashes options s).1 = Ok found →
  found.*1 = take (length found) hashes ∧ (length found <= length hashes)%nat ∧
  ∀ h b, (h, b) ∈ found →
    (status b = REMOTE ∧ lo_enable_global options = true) ∨ (values (lru_cache_ s) !! h = Some b ∧ Contains h (lru_cache_ s) = true).
Proof.
  intros Hmode Hinc Hwf Hr. unfold Lookup. rewrite Hmode, Hinc. cbn [andb]. rewrite bool_decide_false by done. cbn [andb].
  case_match; [done|]. destruct (lo_enable_global options) eqn:Eg; cbn [negb].
  - case_bool_decide as Hne; [intros [= <-]; subst; split; [done|]; split; [done|]; set_solver|].
    pose proof (lookup_sweep_view options ltac:(by rewrite Hinc) hashes (lru_cache_ s) Hwf Hr) as Hsw.
    destruct (lookup_sweep options hashes (lru_cache_ s)) as [[hits missing] c]. destruct Hsw as (Hl & _ & Hv & _ & _ & Hc & _).
    unfold lookup_finish. cbn [fst snd lru_cache_ set_cache raiden_id_].
    match goal with |- Ok (lookup_assemble _ _ _ _ ?r) = _ → _ => generalize r end. intros remote [= <-].
    destruct (lookup_assemble_view options (raiden_id_ s) c (zip hashes hits) remote) as (H1 & H2 & _ & H4 & H5).
    set (results := lookup_assemble _ _ _ _ _) in *. rewrite fst_zip in H1 by lia. rewrite length_zip in H2.
    split; [done|]. split; [lia|]. intros h b [i Hi]%list_elem_of_lookup.
    assert (results.*1 !! i = Some h) as Hf by (by rewrite list_lookup_fmap, Hi). rewrite H1 in Hf.
    apply lookup_take_Some in Hf as [Hf Hlt]. destruct (lookup_lt_is_Some_2 hits i) as [t Ht]; [apply lookup_lt_Some in Hf; lia|].
    assert (zip hashes hits !! i = Some (h, t)) as Hz by (apply lookup_zip_with_Some; eauto).
    destruct t; [right|left; split; [by eapply H5|done]]. pose proof (H4 i h b Hi Hz) as Hb.
    unfold lookup_peek in Hb. rewrite Hinc, Peek_values, Hc, Hv in Hb. by destruct (Contains h (lru_cache_ s)).
  - pose proof (lookup_prefix_view options ltac:(by rewrite Hinc) hashes (lru_cache_ s) Hwf Hr) as Hvw.
    destruct (lookup_prefix options hashes (lru_cache_ s)) as [results c]. destruct Hvw as (-> & _). cbn [fst]. intros [= <-].
    destruct (while_some_spec (λ h, lookup_hit options h (lru_cache_ s)) hashes) as (H1 & H2 & H3).
    split; [done|]. split; [done|]. intros h b Hin%H3. right. by eapply lookup_hit_local.
Qed.

(** A local lookup pins what it answers. *)
Lemma Lookup_local_pins order registry hashes options s :
  lo_include_eviction_candidates options = false → lo_enable_global options = false → lo_pin_found options = true →
  wf (lru_cache_ s) → pins_room (length hashes + length order) (lru_cache_ s) →
  ∃ found s', Lookup order registry hashes options s = (Ok found, s') ∧ pins_only s s' ∧
    capacity_ (lru_cache_ s') = capacity_ (lru_cache_ s) ∧
    (∀ k, Contains k (lru_cache_ s') = Contains k (lru_cache_ s)) ∧
    ∀ k, GetPinCount k (lru_cache_ s') = GetPinCount k (lru_cache_ s) + times k found.*1.
Proof.
  intros Hinc Hg Hpin Hwf Hr. unfold Lookup. rewrite Hinc, Hg, !andb_false_r. cbn [andb negb].
  assert (∀ n, (n <= length hashes + length order)%nat → pins_room n (lru_cache_ s)) as Hrn
    by (intros n Hn k; specialize (Hr k); lia).
  case_bool_decide.
  - pose proof (lookup_subset_view options ltac:(by rewrite Hinc) (if bool_decide (hashes = []) then order else hashes) (lru_cache_ s) Hwf) as Hvw.
    destruct (lookup_subset _ _ _) as [results c]. destruct Hvw as (_ & Hw & Hv & Hcap & Hp & Hc); [apply Hrn; case_match; lia|].
    eexists _, _. split; [done|]. split; [done|]. split; [done|]. split; [done|]. intros k. rewrite Hp. unfold taken. by rewrite Hpin.
  - pose proof (lookup_prefix_view options ltac:(by rewrite Hinc) hashes (lru_cache_ s) Hwf) as Hvw.
    destruct (lookup_prefix _ _ _) as [results c]. destruct Hvw as (_ & Hw & Hv & Hcap & Hp & Hc); [apply Hrn; lia|].
    eexists _, _. split; [done|]. split; [done|]. split; [done|]. split; [done|]. intros k. rewrite Hp. unfold taken. by rewrite Hpin.
Qed.

(** The subset lookup of host-resident entries, candidates included. *)
Lemma Lookup_host_subset order registry hashes options s :
  options = mkLookupOptions false false false kSubset true true → hashes ≠ [] →
  Lookup order registry hashes options s =
    (Ok (omap (λ h, match values (lru_cache_ s) !! h with
                    | Some b => if IsHostResidentStatus (status b) then Some (h, b) else None
                    | None => None end) hashes), s).
Proof.
  intros -> Hne. unfold Lookup. cbn [lo_match_mode lo_enable_global lo_host_resident_only lo_include_eviction_candidates lo_pin_found].
  rewrite bool_decide_true by done. cbn [andb]. rewrite bool_decide_false by done.
  set (o := mkLookupOptions _ _ _ _ _ _). pose proof (lookup_subset_unpinned o eq_refl hashes (lru_cache_ s)) as E.
  assert (∀ c, (lookup_subset o hashes c).1 = omap (λ h, pair h <$> lookup_hit o h c) hashes) as Hl.
  { intros c. clear. induction hashes as [|h l IH]; [done|]. cbn.
    destruct (lookup_hit o h c); [|done]. change (take_hit o h c) with c. destruct (lookup_subset o l c). cbn in *. by rewrite IH. }
  specialize (Hl (lru_cache_ s)). destruct (lookup_subset o hashes (lru_cache_ s)) as [r c]. cbn in E, Hl. subst.
  rewrite set_cache_id. do 2 f_equal. apply list_omap_ext, Forall2_same_length_lookup_2; [done|].
  intros i x y Hx Hy. simplify_eq.
  unfold lookup_hit, lookup_peek. cbn. rewrite peek_values. destruct (values (lru_cache_ s) !! x) as [b|]; [|done]. cbn.
  by destruct (IsHostResidentStatus (status b)).
Qed.
