(* ===== verification/GlobalRegistry.v ===== *)
(** * GlobalRegistry: who holds which block, fleet-wide
    (src/tpu_sync/kv_cache/global_registry/global_registry_server.{h,cc})

    The in-memory service that maps block hashes to the stores holding them.  Every
    RPC takes [mutex_] once (PullOwned once per batch), so each is one state
    transformer; the clock, the cancellation flag and the iteration orders of the
    hash maps are arguments.  Error texts are not modelled. *)

From S2P Require Import Prelude RaidenTypes.

(** ** Time: absl's quarter-nanosecond ticks, saturating to the infinite future *)
Inductive Duration := Ticks (d : Z) | InfiniteDuration.
Inductive Time := At (t : Z) | InfiniteFuture.
#[export] Instance Duration_eq_dec : EqDecision Duration.
Proof. solve_decision. Defined.
#[export] Instance Time_eq_dec : EqDecision Time.
Proof. solve_decision. Defined.

Definition ticks_per_second : Z := 4000000000.
Definition Seconds (n : Z) : Duration := Ticks (n * ticks_per_second).
(** [now + d]. *)
Definition after (now : Z) (d : Duration) : Time :=
  match d with
  | InfiniteDuration => InfiniteFuture
  | Ticks d => if 2 ^ 63 * ticks_per_second <=? now + d then InfiniteFuture else At (now + d)
  end.
(** [t <= now]. *)
Definition expired (now : Z) (t : Time) : bool := match t with At t => t <=? now | InfiniteFuture => false end.

(** ** State *)
Record RegistryEntry := mkRegistryEntry { re_raiden_id : RaidenId; re_block_id : Z; re_expire_time : Time }.
#[export] Instance RegistryEntry_eq_dec : EqDecision RegistryEntry.
Proof. solve_decision. Defined.
#[export] Instance RegistryEntry_inhabited : Inhabited RegistryEntry :=
  populate (mkRegistryEntry (mkRaidenId "" "" "" 0) 0 InfiniteFuture).
Record StoreRecord := mkStoreRecord {
  sr_store_server_address : string;
  sr_controller_address : string;
  sr_expire_time : Time;
  sr_ttl : Duration;
  sr_kv_pool_group : string;
  sr_evict_tier : Z;
  sr_free_blocks : Z;
}.
Record KVTransferSpec := mkSpec { ks_block_arrays : list Z; ks_num_kv_shards : Z; ks_num_workers : Z }.
#[export] Instance KVTransferSpec_eq_dec : EqDecision KVTransferSpec.
Proof. solve_decision. Defined.

Record Registry := mkRegistry {
  default_ttl_ : Duration;
  pull_owned_batch_size_ : Z;
  registry_ : gmap string (list RegistryEntry);
  round_robin_indices_ : gmap string nat;
  owner_index_ : gmap RaidenId (gset string);
  store_registry_ : gmap RaidenId StoreRecord;
  transfer_specs_ : gmap string KVTransferSpec;
}.
Implicit Types (s : Registry) (hash : string) (id : RaidenId) (now : Z) (e : RegistryEntry).

Definition kDefaultPullOwnedBatchSize : Z := 4096.
Definition kDefaultMaxPlacementTargets : Z := 3.
Definition GlobalRegistryServiceImpl_new (default_ttl : Duration) (pull_owned_batch_size : Z) : Registry :=
  mkRegistry default_ttl (if 0 <? pull_owned_batch_size then pull_owned_batch_size else kDefaultPullOwnedBatchSize)
    ∅ ∅ ∅ ∅ ∅.

Definition set_registry (r : gmap string (list RegistryEntry)) s : Registry :=
  mkRegistry (default_ttl_ s) (pull_owned_batch_size_ s) r (round_robin_indices_ s) (owner_index_ s)
    (store_registry_ s) (transfer_specs_ s).
Definition set_indices (r : gmap string nat) s : Registry :=
  mkRegistry (default_ttl_ s) (pull_owned_batch_size_ s) (registry_ s) r (owner_index_ s)
    (store_registry_ s) (transfer_specs_ s).
Definition set_owners (o : gmap RaidenId (gset string)) s : Registry :=
  mkRegistry (default_ttl_ s) (pull_owned_batch_size_ s) (registry_ s) (round_robin_indices_ s) o
    (store_registry_ s) (transfer_specs_ s).
Definition set_stores (r : gmap RaidenId StoreRecord) s : Registry :=
  mkRegistry (default_ttl_ s) (pull_owned_batch_size_ s) (registry_ s) (round_robin_indices_ s) (owner_index_ s)
    r (transfer_specs_ s).
Definition set_specs (t : gmap string KVTransferSpec) s : Registry :=
  mkRegistry (default_ttl_ s) (pull_owned_batch_size_ s) (registry_ s) (round_robin_indices_ s) (owner_index_ s)
    (store_registry_ s) t.

(** The key leaves the registry with its round-robin cursor. *)
Definition erase_key hash s : Registry :=
  set_indices (delete hash (round_robin_indices_ s)) (set_registry (delete hash (registry_ s)) s).

Definition EraseFromOwnerIndex id hash s : Registry :=
  match owner_index_ s !! id with
  | None => s
  | Some hashes =>
      let hashes := hashes ∖ {[hash]} in
      set_owners (if bool_decide (hashes = ∅) then delete id (owner_index_ s) else <[id := hashes]> (owner_index_ s)) s
  end.

(** ** Register *)
Record KVBlockMetadata := mkBlockMetadata { kb_raiden_id : option RaidenId; kb_block_id : Z }.
Record RegisterEntry := mkRegisterEntry {
  rq_prefix_hash : string; rq_metadata : option KVBlockMetadata; rq_ttl_seconds : Z }.

Definition has_job (id : option RaidenId) : bool :=
  match id with Some r => negb (bool_decide (job_name r = "")) | None => false end.
Definition valid_entry (q : RegisterEntry) : bool :=
  negb (bool_decide (rq_prefix_hash q = "")) &&
  match rq_metadata q with Some m => has_job (kb_raiden_id m) | None => false end.

(** The entry of the same owner takes the new block and deadline, if there is one. *)
Fixpoint update_owner (fresh : RegistryEntry) (entries : list RegistryEntry) : option (list RegistryEntry) :=
  match entries with
  | [] => None
  | e :: rest =>
      if RaidenId_eqb (re_raiden_id e) (re_raiden_id fresh) then Some (fresh :: rest)
      else cons e <$> update_owner fresh rest
  end.
Definition requested now s (q : RegisterEntry) : RegistryEntry :=
  let m := default (mkBlockMetadata None 0) (rq_metadata q) in
  mkRegistryEntry (default (mkRaidenId "" "" "" 0) (kb_raiden_id m)) (kb_block_id m)
    (after now (if 0 <? rq_ttl_seconds q then Seconds (rq_ttl_seconds q) else default_ttl_ s)).
Definition register_one now s (q : RegisterEntry) : Registry :=
  let hash := rq_prefix_hash q in
  let fresh := requested now s q in
  let entries := default [] (registry_ s !! hash) in
  match update_owner fresh entries with
  | Some entries => set_registry (<[hash := entries]> (registry_ s)) s
  | None =>
      let s := set_registry (<[hash := entries ++ [fresh]]> (registry_ s)) s in
      let id := re_raiden_id fresh in
      set_owners (<[id := default ∅ (owner_index_ s !! id) ∪ {[hash]}]> (owner_index_ s)) s
  end.
Definition Register (cancelled : bool) now (entries : list RegisterEntry) s : StatusOr bool * Registry :=
  if cancelled then (Err kCancelled, s)
  else if negb (forallb valid_entry entries) then (Ok false, s)
  else (Ok true, foldl (register_one now) s entries).

(** ** Lookup *)
Definition gone now (caller : RaidenId) e : bool :=
  expired now (re_expire_time e) || (negb (RaidenId_empty caller) && RaidenId_eqb (re_raiden_id e) caller).
Definition lookup_one now (caller : RaidenId) hash s : option (RaidenId * Z) * Registry :=
  match registry_ s !! hash with
  | None => (None, s)
  | Some entries =>
      let s := foldl (λ s e, EraseFromOwnerIndex (re_raiden_id e) hash s) s (filter (λ e, gone now caller e = true) entries) in
      let entries := filter (λ e, gone now caller e = false) entries in
      if bool_decide (entries = []) then (None, erase_key hash s)
      else
        let idx := (default 0 (round_robin_indices_ s !! hash) `mod` length entries)%nat in
        let picked := entries !!! idx in
        (Some (re_raiden_id picked, re_block_id picked),
         set_indices (<[hash := S idx]> (round_robin_indices_ s)) (set_registry (<[hash := entries]> (registry_ s)) s))
  end.
(** [caller] is the empty id when the request has none. *)
Fixpoint Lookup now (caller : RaidenId) (hashes : list string) s : list (RaidenId * Z) * Registry :=
  match hashes with
  | [] => ([], s)
  | hash :: rest =>
      match lookup_one now caller hash s with
      | (None, s) => ([], s)
      | (Some r, s) => let '(results, s) := Lookup now caller rest s in (r :: results, s)
      end
  end.

(** ** Unregister *)
Definition unregister_one id (acc : bool * Registry) hash : bool * Registry :=
  let '(ok, s) := acc in
  if bool_decide (hash = "") then (ok, s)
  else match registry_ s !! hash with
  | None => (ok, s)
  | Some entries =>
      let kept := filter (λ e, RaidenId_eqb (re_raiden_id e) id = false) entries in
      let s := set_registry (<[hash := kept]> (registry_ s)) s in
      let changed := negb (length kept =? length entries)%nat in
      let s := if changed then EraseFromOwnerIndex id hash s else s in
      (ok && changed, if bool_decide (kept = []) then erase_key hash s else s)
  end.
Definition Unregister (cancelled : bool) (raiden_id : option RaidenId) (hashes : list string) s
    : StatusOr bool * Registry :=
  if cancelled then (Err kCancelled, s)
  else match raiden_id with
  | Some id => if has_job raiden_id
               then let '(ok, s) := foldl (unregister_one id) (true, s) hashes in (Ok ok, s)
               else (Ok false, s)
  | None => (Ok false, s)
  end.

(** ** PullOwned *)
Record PullOwnedEntry := mkPulled { po_prefix_hash : string; po_block_id : Z; po_remaining_ttl_seconds : Z }.
Definition remaining_ttl now (t : Time) : Z :=
  match t with
  | InfiniteFuture => 0
  | At t =>
      let remaining := t - now in
      let seconds := remaining `quot` ticks_per_second in
      let seconds := if seconds * ticks_per_second <? remaining then seconds + 1 else seconds in
      Z.max seconds 1
  end.
(** The owner's first entry, if it is alive. *)
Fixpoint pull_entry now id hash (entries : list RegistryEntry) : option PullOwnedEntry :=
  match entries with
  | [] => None
  | e :: rest =>
      if negb (RaidenId_eqb (re_raiden_id e) id) then pull_entry now id hash rest
      else if expired now (re_expire_time e) then None
      else Some (mkPulled hash (re_block_id e) (remaining_ttl now (re_expire_time e)))
  end.
Definition pull_batch now id (hashes : list string) s : list PullOwnedEntry :=
  omap (λ hash, match registry_ s !! hash with Some entries => pull_entry now id hash entries | None => None end) hashes.

(** The batches of [size] hashes each. *)
Fixpoint chunks {A} (fuel size : nat) (l : list A) : list (list A) :=
  match fuel, l with
  | S fuel, _ :: _ => take size l :: chunks fuel size (drop size l)
  | _, _ => []
  end.
(** One write per non-empty batch; [view k] is the clock and the state the [k]-th
    batch is read in, [write k] whether the client took it. *)
Fixpoint pull_stream id (view : nat → Z * Registry) (write : nat → bool) (k : nat) (batches : list (list string))
    : Status * list (list PullOwnedEntry) :=
  match batches with
  | [] => (OkStatus, [])
  | hashes :: rest =>
      let '(now, s) := view k in
      let batch := pull_batch now id hashes s in
      if bool_decide (batch = []) then pull_stream id view write (S k) rest
      else if negb (write k) then (Err kCancelled, [])
      else let '(st, sent) := pull_stream id view write (S k) rest in (st, batch :: sent)
  end.
(** [order] enumerates the owner's hash set. *)
Definition PullOwned (raiden_id : option RaidenId) (order : gset string → list string) (view : nat → Z * Registry)
    (write : nat → bool) s : Status * list (list PullOwnedEntry) :=
  match raiden_id with
  | Some id =>
      if negb (has_job raiden_id) then (Err kInvalidArgument, [])
      else match owner_index_ s !! id with
      | None => (OkStatus, [])
      | Some set =>
          let hashes := order set in
          pull_stream id view write 0 (chunks (length hashes) (Z.to_nat (pull_owned_batch_size_ s)) hashes)
      end
  | None => (Err kInvalidArgument, [])
  end.

(** ** Purging and cleanup *)
Definition purge_one id s hash : Registry :=
  match registry_ s !! hash with
  | None => s
  | Some entries =>
      let kept := filter (λ e, RaidenId_eqb (re_raiden_id e) id = false) entries in
      let s := set_registry (<[hash := kept]> (registry_ s)) s in
      if bool_decide (kept = []) then erase_key hash s else s
  end.
Definition PurgeOwnedEntries id s : Registry :=
  match owner_index_ s !! id with
  | None => s
  | Some hashes =>
      let s := foldl (purge_one id) s (elements hashes) in
      set_owners (delete id (owner_index_ s)) s
  end.

Definition cleanup_one now (acc : list string * Registry) (he : string * list RegistryEntry) : list string * Registry :=
  let '(keys, s) := acc in
  let '(hash, entries) := he in
  let s := foldl (λ s e, EraseFromOwnerIndex (re_raiden_id e) hash s) s
             (filter (λ e, expired now (re_expire_time e) = true) entries) in
  let kept := filter (λ e, expired now (re_expire_time e) = false) entries in
  (if bool_decide (kept = []) then keys ++ [hash] else keys, set_registry (<[hash := kept]> (registry_ s)) s).
Definition CleanupExpiredEntries now s : Registry :=
  let stores_to_remove := (filter (λ ir, expired now (sr_expire_time ir.2) = true) (map_to_list (store_registry_ s))).*1 in
  let s := foldl (λ s id, let s := PurgeOwnedEntries id s in set_stores (delete id (store_registry_ s)) s) s stores_to_remove in
  let '(keys, s) := foldl (cleanup_one now) ([], s) (map_to_list (registry_ s)) in
  foldl (λ s key, erase_key key s) s keys.

(** ** Store registrations *)
Record StoreInfo := mkStoreInfo {
  si_raiden_id : option RaidenId;
  si_store_server_address : string;
  si_controller_address : string;
  si_ttl_seconds : Z;
  si_kv_pool_group : string;
  si_evict_tier : Z;
}.
Definition RegisterStore now (store : option StoreInfo) s : bool * Registry :=
  match store with
  | None => (false, s)
  | Some i =>
      if negb (has_job (si_raiden_id i)) then (false, s)
      else if bool_decide (si_store_server_address i = "") then (false, s)
      else
        let ttl := if 0 <? si_ttl_seconds i then Seconds (si_ttl_seconds i) else InfiniteDuration in
        let id := default (mkRaidenId "" "" "" 0) (si_raiden_id i) in
        (true, set_stores (<[id := mkStoreRecord (si_store_server_address i) (si_controller_address i)
                                     (after now ttl) ttl (si_kv_pool_group i) (si_evict_tier i) 0]> (store_registry_ s)) s)
  end.

(** A record that is still alive. *)
Definition live_store now id s : option StoreRecord :=
  match store_registry_ s !! id with
  | Some r => if expired now (sr_expire_time r) then None else Some r
  | None => None
  end.
(** The addresses, if the store is alive. *)
Definition ResolveStore now (raiden_id : option RaidenId) s : StatusOr (option (string * string)) :=
  match raiden_id with
  | Some id =>
      if negb (has_job raiden_id) then Err kInvalidArgument
      else Ok ((λ r, (sr_store_server_address r, sr_controller_address r)) <$> live_store now id s)
  | None => Err kInvalidArgument
  end.
Definition UnregisterStore (raiden_id : option RaidenId) s : bool * Registry :=
  match raiden_id with
  | Some id =>
      if negb (has_job raiden_id) then (false, s)
      else match store_registry_ s !! id with
      | Some _ => (true, PurgeOwnedEntries id (set_stores (delete id (store_registry_ s)) s))
      | None => (false, s)
      end
  | None => (false, s)
  end.
(** [now2] is the second reading of the clock. *)
Definition Heartbeat now now2 (raiden_id : option RaidenId) (free_blocks : Z) s : StatusOr bool * Registry :=
  match raiden_id with
  | Some id =>
      if negb (has_job raiden_id) then (Err kInvalidArgument, s)
      else match live_store now id s with
      | None => (Ok false, s)
      | Some r =>
          let expire := if bool_decide (sr_ttl r = InfiniteDuration) then sr_expire_time r else after now2 (sr_ttl r) in
          (Ok true, set_stores (<[id := mkStoreRecord (sr_store_server_address r) (sr_controller_address r) expire
                                          (sr_ttl r) (sr_kv_pool_group r) (sr_evict_tier r) free_blocks]> (store_registry_ s)) s)
      end
  | None => (Err kInvalidArgument, s)
  end.

(** ** Placement *)
Definition INT32_MAX : Z := 2 ^ 31 - 1.
Definition more_free (a b : RaidenId * StoreRecord) : Prop := sr_free_blocks b.2 <= sr_free_blocks a.2.
#[export] Instance more_free_dec a b : Decision (more_free a b).
Proof. unfold more_free. apply _. Defined.

(** [roster] enumerates the stores in the map's order; the sort is not stable, which
    the arbitrary order covers. *)
Definition eligible now (group : string) (caller_tier : Z) (c : RaidenId * StoreRecord) : bool :=
  bool_decide (sr_kv_pool_group c.2 = group) && (caller_tier <? sr_evict_tier c.2) &&
  negb (expired now (sr_expire_time c.2)).
Definition placement now (caller : StoreRecord) (roster : list (RaidenId * StoreRecord)) : list (RaidenId * StoreRecord) :=
  let candidates := filter (λ c, eligible now (sr_kv_pool_group caller) (sr_evict_tier caller) c = true) roster in
  let target_tier := foldl (λ t c, Z.min t (sr_evict_tier c.2)) INT32_MAX candidates in
  merge_sort more_free (filter (λ c, sr_evict_tier c.2 = target_tier) candidates).
Definition GetPlacementTargets now (raiden_id : option RaidenId) (max_targets : Z)
    (roster : list (RaidenId * StoreRecord)) s : StatusOr (list (RaidenId * StoreRecord)) :=
  match raiden_id with
  | Some id =>
      if negb (has_job raiden_id) then Err kInvalidArgument
      else
        let max_targets := if 0 <? max_targets then max_targets else kDefaultMaxPlacementTargets in
        match live_store now id s with
        | None => Err kNotFound
        | Some caller =>
            if bool_decide (sr_kv_pool_group caller = "") then Err kFailedPrecondition
            else Ok (take (Z.to_nat max_targets) (placement now caller roster))
        end
  | None => Err kInvalidArgument
  end.

(** ** Transfer specs *)
Definition SpecValidationError (spec : KVTransferSpec) : bool :=
  bool_decide (ks_block_arrays spec = []) || existsb (λ b, b <=? 0) (ks_block_arrays spec) ||
  (ks_num_kv_shards spec <=? 0) || (ks_num_workers spec <=? 0).
Definition SpecDifference (registered incoming : KVTransferSpec) : bool :=
  negb (length (ks_block_arrays incoming) =? length (ks_block_arrays registered))%nat ||
  existsb (λ p, negb (p.1 =? p.2)) (zip (ks_block_arrays incoming) (ks_block_arrays registered)) ||
  negb (ks_num_kv_shards incoming =? ks_num_kv_shards registered) ||
  negb (ks_num_workers incoming =? ks_num_workers registered).
(** Success, and the registered spec when it differs. *)
Definition RegisterKVTransferSpec (group : string) (spec : option KVTransferSpec) s
    : bool * option KVTransferSpec * Registry :=
  match spec with
  | None => (false, None, s)
  | Some spec =>
      if bool_decide (group = "") then (false, None, s)
      else if SpecValidationError spec then (false, None, s)
      else match transfer_specs_ s !! group with
      | None => (true, None, set_specs (<[group := spec]> (transfer_specs_ s)) s)
      | Some registered => if SpecDifference registered spec then (false, Some registered, s) else (true, None, s)
      end
  end.
Definition GetKVTransferSpec (group : string) s : StatusOr (option KVTransferSpec) :=
  if bool_decide (group = "") then Err kInvalidArgument else Ok (transfer_specs_ s !! group).

(** ** The registrations, and the indices derived from them *)
Definition entries s hash : list RegistryEntry := default [] (registry_ s !! hash).
Definition owned s id : gset string := default ∅ (owner_index_ s !! id).
Definition owners s hash : list RaidenId := re_raiden_id <$> entries s hash.

(** One entry per hash and owner; the owner index lists exactly the hashes an owner
    has an entry for; no empty lists or sets, and no cursor without a key, are kept. *)
Record index_ok s : Prop := {
  ix_nonempty h : registry_ s !! h ≠ Some [];
  ix_nodup h : NoDup (owners s h);
  ix_owned id h : h ∈ owned s id ↔ id ∈ owners s h;
  ix_owner_nonempty id : owner_index_ s !! id ≠ Some ∅;
  ix_cursor h : registry_ s !! h = None → round_robin_indices_ s !! h = None;
}.

Lemma entries_insert s h l k :
  entries (set_registry (<[h := l]> (registry_ s)) s) k = if decide (k = h) then l else entries s k.
Proof. unfold entries. cbn. case_decide; subst; [by rewrite lookup_insert_eq|by rewrite lookup_insert_ne]. Qed.
Lemma entries_erase_key s h k : entries (erase_key h s) k = if decide (k = h) then [] else entries s k.
Proof. unfold entries. cbn. case_decide; subst; [by rewrite lookup_delete_eq|by rewrite lookup_delete_ne]. Qed.
Lemma entries_None s h : index_ok s → entries s h = [] ↔ registry_ s !! h = None.
Proof.
  intros Hs. unfold entries. pose proof (ix_nonempty _ Hs h). destruct (registry_ s !! h); cbn; [|done]. split; [|done].
  intros ->. done.
Qed.
Lemma same_owner s h e e' :
  index_ok s → e ∈ entries s h → e' ∈ entries s h → re_raiden_id e = re_raiden_id e' → e = e'.
Proof.
  intros Hs [i Hi]%list_elem_of_lookup [j Hj]%list_elem_of_lookup E.
  assert (i = j) as ->; [|congruence].
  apply (NoDup_lookup _ i j (re_raiden_id e) (ix_nodup _ Hs h)); unfold owners; rewrite list_lookup_fmap;
    [by rewrite Hi|by rewrite Hj, E].
Qed.
Lemma elem_of_owners s h id : id ∈ owners s h ↔ ∃ e, e ∈ entries s h ∧ re_raiden_id e = id.
Proof. unfold owners. rewrite list_elem_of_fmap. naive_solver. Qed.

(** Entries leave the registry, with their place in the owner index. *)
Section pruned.
Context (P : string → RegistryEntry → bool) (s s' : Registry).
Lemma index_ok_pruned :
  index_ok s →
  (∀ h, entries s' h = filter (λ e, P h e = false) (entries s h)) → (∀ h, registry_ s' !! h ≠ Some []) →
  (∀ id k, k ∈ owned s' id ↔ k ∈ owned s id ∧ ¬ ∃ e, e ∈ entries s k ∧ re_raiden_id e = id ∧ P k e = true) →
  (∀ id, owner_index_ s' !! id ≠ Some ∅) →
  (∀ h, registry_ s' !! h = None → round_robin_indices_ s' !! h = None) →
  index_ok s'.
Proof.
  intros Hs He Hne Ho Hone Hc. split; [done| | |done|done].
  - intros h. unfold owners. rewrite He. apply NoDup_fmap_2_strong.
    + intros x y [_ Hx]%list_elem_of_filter [_ Hy]%list_elem_of_filter. by apply (same_owner s h).
    + apply NoDup_filter. by eapply NoDup_fmap_1, (ix_nodup _ Hs h).
  - intros id h. rewrite Ho, (ix_owned _ Hs), !elem_of_owners, He. setoid_rewrite list_elem_of_filter. split.
    + intros [(e & Hin & E) Hno]. exists e. split; [|done]. split; [|done]. destruct (P h e) eqn:EP; [|done].
      destruct Hno. by exists e.
    + intros (e & [EP Hin] & E). split; [by exists e|]. intros (e' & Hin' & E' & EP').
      rewrite (same_owner s h e' e) in EP' by (done || congruence). congruence.
Qed.
End pruned.

(** ** The owner index *)
Lemma EraseFromOwnerIndex_view id h s :
  let s' := EraseFromOwnerIndex id h s in
  s' = set_owners (owner_index_ s') s ∧
  (∀ i k, k ∈ owned s' i ↔ k ∈ owned s i ∧ ¬ (k = h ∧ i = id)) ∧
  ((∀ i, owner_index_ s !! i ≠ Some ∅) → ∀ i, owner_index_ s' !! i ≠ Some ∅).
Proof.
  cbn zeta. unfold EraseFromOwnerIndex. destruct (owner_index_ s !! id) as [hs|] eqn:E.
  - split; [done|]. cbn [owner_index_ set_owners]. split.
    + intros i k. unfold owned. cbn. case_bool_decide as Hb.
      * destruct (decide (i = id)) as [->|Hne].
        -- rewrite lookup_delete_eq, E. cbn. set_solver.
        -- rewrite lookup_delete_ne by done. naive_solver.
      * destruct (decide (i = id)) as [->|Hne].
        -- rewrite lookup_insert_eq, E. cbn. set_solver.
        -- rewrite lookup_insert_ne by done. naive_solver.
    + intros Hne i. case_bool_decide as Hb.
      * intros [_ Hi]%lookup_delete_Some. by apply (Hne i).
      * intros [[_ Hi]|[_ Hi]]%lookup_insert_Some; [done|]. by apply (Hne i).
  - split; [by destruct s|]. split; [|done]. intros i k. unfold owned. split; [|tauto]. intros Hk. split; [done|].
    intros [-> ->]. rewrite E in Hk. set_solver.
Qed.

Lemma erase_owners_view l h s :
  let s' := foldl (λ s e, EraseFromOwnerIndex (re_raiden_id e) h s) s l in
  s' = set_owners (owner_index_ s') s ∧
  (∀ i k, k ∈ owned s' i ↔ k ∈ owned s i ∧ ¬ (k = h ∧ ∃ e, e ∈ l ∧ re_raiden_id e = i)) ∧
  ((∀ i, owner_index_ s !! i ≠ Some ∅) → ∀ i, owner_index_ s' !! i ≠ Some ∅).
Proof.
  cbn zeta. revert s; induction l as [|e l IH]; intros s; cbn [foldl].
  { split; [by destruct s|]. split; [|done]. intros i k. split; [|tauto]. intros Hk. split; [done|].
    intros [_ (e & []%not_elem_of_nil & _)]. }
  destruct (EraseFromOwnerIndex_view (re_raiden_id e) h s) as (E1 & H1 & N1).
  destruct (IH (EraseFromOwnerIndex (re_raiden_id e) h s)) as (E2 & H2 & N2).
  assert (∀ o, set_owners o (EraseFromOwnerIndex (re_raiden_id e) h s) = set_owners o s) as Hset
    by (intros o; rewrite E1; done).
  split; [etransitivity; [exact E2|]; by rewrite Hset|]. split; [|by auto]. intros i k. rewrite H2, H1. setoid_rewrite elem_of_cons. naive_solver.
Qed.

Lemma RaidenId_eqb_false a b : RaidenId_eqb a b = false ↔ a ≠ b.
Proof. rewrite <- RaidenId_eqb_eq. by destruct (RaidenId_eqb a b). Qed.

(** What an operation leaves alone besides the registrations. *)
Definition same_rest s s' : Prop :=
  default_ttl_ s' = default_ttl_ s ∧ pull_owned_batch_size_ s' = pull_owned_batch_size_ s ∧
  store_registry_ s' = store_registry_ s ∧ transfer_specs_ s' = transfer_specs_ s.
#[export] Instance same_rest_preorder : PreOrder same_rest.
Proof. split; [by intros ?|]. unfold same_rest. intros s1 s2 s3. intuition congruence. Qed.

(** ** Lookup *)
Definition at_hash (h : string) (P : RegistryEntry → bool) (k : string) e : bool := bool_decide (k = h) && P e.
Lemma filter_at_hash h P k (l : list RegistryEntry) :
  filter (λ e, at_hash h P k e = false) l = if decide (k = h) then filter (λ e, P e = false) l else l.
Proof.
  unfold at_hash. case_decide as Hk.
  - rewrite bool_decide_true by done. done.
  - rewrite bool_decide_false by done. cbn. induction l as [|e l IH]; [done|]. rewrite filter_cons_True by done. by f_equal.
Qed.

Lemma lookup_one_view now caller h s :
  index_ok s →
  let '(r, s') := lookup_one now caller h s in
  index_ok s' ∧ same_rest s s' ∧
  (∀ k, entries s' k = filter (λ e, at_hash h (gone now caller) k e = false) (entries s k)) ∧
  match r with
  | None => entries s' h = []
  | Some r => ∃ e, e ∈ entries s' h ∧ r = (re_raiden_id e, re_block_id e)
  end.
Proof.
  intros Hs. unfold lookup_one. destruct (registry_ s !! h) as [es|] eqn:E.
  2:{ split; [done|]. split; [done|]. assert (entries s h = []) as En by (by apply entries_None). split; [|done].
      intros k. rewrite filter_at_hash. case_decide; [|done]. subst. by rewrite En. }
  assert (entries s h = es) as Ees by (unfold entries; by rewrite E).
  set (removed := filter (λ e, gone now caller e = true) es). set (kept := filter (λ e, gone now caller e = false) es).
  destruct (erase_owners_view removed h s) as (E1 & Ho & Hn). set (s1 := foldl _ s removed) in *.
  assert (∀ id k, k ∈ owned s1 id ↔ k ∈ owned s id ∧ ¬ ∃ e, e ∈ entries s k ∧ re_raiden_id e = id ∧ at_hash h (gone now caller) k e = true) as Ho'.
  { intros id k. rewrite Ho. unfold at_hash. setoid_rewrite andb_true_iff. setoid_rewrite bool_decide_eq_true.
    unfold removed. setoid_rewrite list_elem_of_filter. split; (intros [Hk Hno]; split; [done|]).
    - intros (e & Hin & Hid & -> & Hg). apply Hno. split; [done|]. exists e. by rewrite <- Ees.
    - intros (-> & e & [Hg Hin] & Hid). apply Hno. exists e. by rewrite Ees. }
  specialize (Hn (ix_owner_nonempty _ Hs)). case_bool_decide as Hk.
  - assert (∀ k, entries (erase_key h s1) k = filter (λ e, at_hash h (gone now caller) k e = false) (entries s k)) as He.
    { intros k. rewrite entries_erase_key, filter_at_hash. case_decide; [subst k; by rewrite Ees|]. by rewrite E1. }
    split; [|split; [by rewrite E1|split; [done|]]].
    + apply (index_ok_pruned (at_hash h (gone now caller)) s); [done|done| |done|done|].
      * intros k. rewrite E1. cbn. rewrite lookup_delete_Some. intros [_ Hx]. by apply (ix_nonempty _ Hs k).
      * intros k. rewrite E1. cbn. destruct (decide (h = k)) as [->|Hne]; [by rewrite !lookup_delete_eq|].
        rewrite !lookup_delete_ne by done. apply (ix_cursor _ Hs).
    + by rewrite entries_erase_key, decide_True.
  - set (idx := (_ `mod` _)%nat).
    assert (idx < length kept)%nat as Hidx.
    { apply Nat.mod_upper_bound. by destruct kept. }
    set (s2 := set_indices _ _).
    assert (∀ k, entries s2 k = filter (λ e, at_hash h (gone now caller) k e = false) (entries s k)) as He.
    { intros k. change (entries s2 k) with (entries (set_registry (<[h := kept]> (registry_ s1)) s1) k).
      rewrite entries_insert, filter_at_hash. case_decide; [subst k; by rewrite Ees|]. by rewrite E1. }
    split; [|split; [unfold s2; by rewrite E1|split; [done|]]].
    + apply (index_ok_pruned (at_hash h (gone now caller)) s); [done|done| |done|done|].
      * intros k. unfold s2. rewrite E1. cbn. intros [[_ Hx]|[_ Hx]]%lookup_insert_Some; [done|by apply (ix_nonempty _ Hs k)].
      * intros k. unfold s2. rewrite E1. cbn. rewrite lookup_insert_None. intros [Hk' Hne].
        rewrite lookup_insert_ne by done. by apply (ix_cursor _ Hs).
    + exists (kept !!! idx). split; [|done]. rewrite He, filter_at_hash, decide_True, Ees by done. by apply list_elem_of_lookup_total_2.
Qed.

(** The hashes a lookup has visited lose the entries that are gone. *)
Definition swept now caller (visited : list string) s s' : Prop :=
  ∀ h, entries s' h = if decide (h ∈ visited) then filter (λ e, gone now caller e = false) (entries s h) else entries s h.

Lemma swept_step now caller h visited s s1 s' :
  (∀ k, entries s1 k = filter (λ e, at_hash h (gone now caller) k e = false) (entries s k)) →
  swept now caller visited s1 s' → swept now caller (h :: visited) s s'.
Proof.
  intros H1 H2 k. rewrite H2, H1, filter_at_hash, decide_cons.
  repeat case_decide; try done. apply filter_twice.
Qed.

Lemma Lookup_view now caller hashes s :
  index_ok s →
  let '(results, s') := Lookup now caller hashes s in
  index_ok s' ∧ same_rest s s' ∧ (length results <= length hashes)%nat ∧
  swept now caller (take (S (length results)) hashes) s s' ∧
  (∀ i r, results !! i = Some r → ∃ h e, hashes !! i = Some h ∧ e ∈ entries s h ∧ gone now caller e = false ∧
     r = (re_raiden_id e, re_block_id e)) ∧
  (∀ h e, hashes !! length results = Some h → e ∈ entries s h → gone now caller e = true).
Proof.
  revert s; induction hashes as [|h hashes IH]; intros s Hs; cbn [Lookup].
  { do 3 (split; [done|]). split; [|done]. intros h. cbn. rewrite decide_False by apply not_elem_of_nil. done. }
  pose proof (lookup_one_view now caller h s Hs) as H1. destruct (lookup_one now caller h s) as [[r|] s1].
  - destruct H1 as (Hs1 & Hr1 & He1 & e & Hin & ->). specialize (IH s1 Hs1). destruct (Lookup now caller hashes s1) as [results s'].
    destruct IH as (Hs' & Hr' & Hlen & Hsw & Hres & Hstop). cbn [length take].
    split; [done|]. split; [etrans; eassumption|]. split; [lia|]. split; [by eapply swept_step|].
    assert (∀ k e, e ∈ entries s1 k → e ∈ entries s k) as Hsub
      by (intros k e'; rewrite He1, list_elem_of_filter; tauto). split.
    + intros [|i] r Hi; cbn in Hi.
      * injection Hi as <-. exists h, e. rewrite He1, filter_at_hash, decide_True, list_elem_of_filter in Hin by done. naive_solver.
      * destruct (Hres i r Hi) as (h' & e' & ? & ? & ? & ?). exists h', e'. split; [done|]. split; [by apply Hsub|done].
    + intros h' e' Hh' Hin'. cbn in Hh'. destruct (gone now caller e') eqn:Eg; [done|].
      rewrite <- Eg. apply (Hstop h' e' Hh'). rewrite He1, filter_at_hash. case_decide; [|done]. by apply list_elem_of_filter.
  - destruct H1 as (Hs1 & Hr1 & He1 & Hnil). do 2 (split; [done|]). split; [cbn; lia|]. split; [|split; [done|]].
    + eapply swept_step; [exact He1|]. intros k. by rewrite decide_False by apply not_elem_of_nil.
    + intros h' e' [= <-] Hin. destruct (gone now caller e') eqn:Eg; [done|]. exfalso.
      rewrite He1, filter_at_hash, decide_True in Hnil by done.
      apply (not_elem_of_nil e'). rewrite <- Hnil. by apply list_elem_of_filter.
Qed.

(** ** Register *)
Lemma update_owner_None fresh l : update_owner fresh l = None ↔ re_raiden_id fresh ∉ re_raiden_id <$> l.
Proof.
  induction l as [|e l IH]; cbn; [set_solver|]. rewrite not_elem_of_cons. destruct (RaidenId_eqb _ _) eqn:E.
  - apply RaidenId_eqb_eq in E. split; [done|]. intros [? _]. congruence.
  - apply RaidenId_eqb_false in E. rewrite fmap_None, IH. naive_solver.
Qed.
Lemma update_owner_Some fresh l l' :
  update_owner fresh l = Some l' → NoDup (re_raiden_id <$> l) →
  re_raiden_id <$> l' = re_raiden_id <$> l ∧ re_raiden_id fresh ∈ re_raiden_id <$> l ∧
  ∀ e, e ∈ l' ↔ e = fresh ∨ e ∈ l ∧ re_raiden_id e ≠ re_raiden_id fresh.
Proof.
  revert l'; induction l as [|e l IH]; intros l' H Hnd; [done|]. cbn in H, Hnd. apply NoDup_cons in Hnd as [Hne Hnd].
  destruct (RaidenId_eqb _ _) eqn:E.
  - apply RaidenId_eqb_eq in E. injection H as <-. cbn. rewrite E. split; [done|]. split; [by left|].
    intros x. rewrite !elem_of_cons. split; [|naive_solver]. intros [?|Hx]; [by left|]. right. split; [by right|].
    intros Ex. apply Hne. rewrite E, <- Ex. apply list_elem_of_fmap. by exists x.
  - apply RaidenId_eqb_false in E. apply fmap_Some in H as (k & Hk & ->). destruct (IH k Hk Hnd) as (E1 & H1 & H2).
    cbn. rewrite E1. split; [done|]. split; [by right|]. intros x. rewrite !elem_of_cons, H2. split; [|naive_solver].
    intros [->|[?|[? ?]]]; naive_solver.
Qed.

(** One registration replaces the owner's entry for the hash, or adds it. *)
Lemma register_one_view now s (q : RegisterEntry) :
  index_ok s →
  let fresh := requested now s q in let s' := register_one now s q in
  index_ok s' ∧ same_rest s s' ∧
  ∀ h e, e ∈ entries s' h ↔
    h = rq_prefix_hash q ∧ e = fresh ∨ e ∈ entries s h ∧ ¬ (h = rq_prefix_hash q ∧ re_raiden_id e = re_raiden_id fresh).
Proof.
  intros Hs. cbn zeta. unfold register_one. set (hash := rq_prefix_hash q). set (fresh := requested now s q).
  fold (entries s hash). destruct (update_owner fresh (entries s hash)) as [es|] eqn:E.
  - destruct (update_owner_Some _ _ _ E (ix_nodup _ Hs hash)) as (Eo & Hin & Hel).
    assert (∀ k, owners (set_registry (<[hash := es]> (registry_ s)) s) k = owners s k) as Hown.
    { intros k. unfold owners. rewrite entries_insert. case_decide; [by subst|done]. }
    assert (is_Some (registry_ s !! hash)) as [es0 E0].
    { apply list_elem_of_fmap in Hin as (e & _ & He). unfold entries in He. destruct (registry_ s !! hash); [done|set_solver]. }
    split; [|split; [done|]].
    + split.
      * intros k. cbn. intros [[-> ->]|[_ Hk]]%lookup_insert_Some; [|by apply (ix_nonempty _ Hs k)].
        rewrite <- Eo in Hin. cbn in Hin. set_solver.
      * intros k. rewrite Hown. apply (ix_nodup _ Hs).
      * intros id k. rewrite Hown. apply (ix_owned _ Hs).
      * apply (ix_owner_nonempty _ Hs).
      * intros k. cbn. rewrite lookup_insert_None. intros [Hk _]. by apply (ix_cursor _ Hs).
    + intros k e. rewrite entries_insert. case_decide; [subst; rewrite Hel; naive_solver|naive_solver].
  - apply update_owner_None in E. set (id := re_raiden_id fresh) in *. set (s' := set_owners _ _).
    assert (∀ k, entries s' k = if decide (k = hash) then entries s hash ++ [fresh] else entries s k) as He.
    { intros k. change (entries s' k) with (entries (set_registry (<[hash := entries s hash ++ [fresh]]> (registry_ s)) s) k).
      by rewrite entries_insert. }
    assert (∀ i, owned s' i = if decide (i = id) then owned s id ∪ {[hash]} else owned s i) as Ho.
    { intros i. unfold owned. cbn. case_decide; [subst i; by rewrite lookup_insert_eq|by rewrite lookup_insert_ne]. }
    split; [|split; [done|]].
    + split.
      * intros k. cbn. intros [[_ Hx]|[_ Hk]]%lookup_insert_Some; [by apply app_nil in Hx as [_ ?]|by apply (ix_nonempty _ Hs k)].
      * intros k. unfold owners. rewrite He. case_decide; [|apply (ix_nodup _ Hs)]. subst k.
        rewrite fmap_app. apply NoDup_app. split; [apply (ix_nodup _ Hs)|]. split; [|apply NoDup_singleton].
        intros x Hx ->%list_elem_of_singleton. done.
      * intros i k. pose proof (ix_owned _ Hs i k) as Hik. unfold owners in *. rewrite He, Ho.
        destruct (decide (i = id)) as [->|Hni]; (case_decide; [subst k; rewrite fmap_app, elem_of_app; cbn|]); set_solver.
      * intros i. cbn. intros [[_ Hx]|[_ Hx]]%lookup_insert_Some; [|by apply (ix_owner_nonempty _ Hs i)].
        apply (not_elem_of_empty (C := gset string) hash). rewrite <- Hx. apply elem_of_union. right. by apply elem_of_singleton.
      * intros k. cbn. rewrite lookup_insert_None. intros [Hk _]. by apply (ix_cursor _ Hs).
    + intros k e. rewrite He. case_decide as Hk; [|naive_solver]. subst k. rewrite elem_of_app, list_elem_of_singleton.
      split; [|naive_solver]. intros [Hin| ->]; [|by left]. right. split; [done|]. intros [_ Ee]. apply E.
      rewrite <- Ee. apply list_elem_of_fmap. by exists e.
Qed.

(** ** Unregister and purge *)
Definition of_owner id e : bool := RaidenId_eqb (re_raiden_id e) id.


(** No empty list and no cursor without its key. *)
Definition tidy s : Prop :=
  (∀ k, registry_ s !! k ≠ Some []) ∧ (∀ k, registry_ s !! k = None → round_robin_indices_ s !! k = None).
Lemma index_tidy s : index_ok s → tidy s.
Proof. intros [? ? ? ? ?]. done. Qed.

(** A key takes a new list, or leaves when it is empty. *)
Definition store_key h (kept : list RegistryEntry) s : Registry :=
  if bool_decide (kept = []) then erase_key h s else s.
Lemma store_key_view h kept o s :
  tidy s →
  let s' := store_key h kept (set_owners o (set_registry (<[h := kept]> (registry_ s)) s)) in
  tidy s' ∧ same_rest s s' ∧ owner_index_ s' = o ∧ ∀ k, entries s' k = if decide (k = h) then kept else entries s k.
Proof.
  intros [Hne Hc]. unfold store_key. cbn zeta. case_bool_decide as Hk; (split; [split|split; [done|split; [done|]]]).
  - intros k. cbn. rewrite delete_insert_eq, lookup_delete_Some. intros [_ Hx]. by apply (Hne k).
  - intros k. cbn. rewrite delete_insert_eq. destruct (decide (h = k)) as [->|Hn]; [by rewrite !lookup_delete_eq|].
    rewrite !lookup_delete_ne by done. apply Hc.
  - intros k. rewrite entries_erase_key. case_decide; [done|]. unfold entries. cbn. by rewrite lookup_insert_ne.
  - intros k. cbn. intros [[_ Hx]|[_ Hx]]%lookup_insert_Some; [done|by apply (Hne k)].
  - intros k. cbn. rewrite lookup_insert_None. intros [Hx _]. by apply Hc.
  - intros k. apply entries_insert.
Qed.

Lemma kept_all id h s es :
  entries s h = es →
  negb (length (filter (λ e, RaidenId_eqb (re_raiden_id e) id = false) es) =? length es)%nat = true ↔ id ∈ owners s h.
Proof.
  intros Ees. rewrite negb_true_iff, Nat.eqb_neq, filter_length_eq, elem_of_owners, Ees. split.
  - intros Hn. destruct (decide (Exists (λ e, re_raiden_id e = id) es)) as [Hx|Hx].
    + apply Exists_exists in Hx as (e & ? & ?). by exists e.
    + destruct Hn. intros e He. apply RaidenId_eqb_false. intros Ee. apply Hx, Exists_exists. by exists e.
  - intros (e & He & Ee) Hall. specialize (Hall e He). cbn in Hall. apply RaidenId_eqb_false in Hall. done.
Qed.

Lemma unregister_one_view id ok s h :
  index_ok s → h ≠ "" →
  let '(ok', s') := unregister_one id (ok, s) h in
  index_ok s' ∧ same_rest s s' ∧
  ∀ k, entries s' k = filter (λ e, at_hash h (of_owner id) k e = false) (entries s k).
Proof.
  intros Hs Hh. unfold unregister_one. rewrite bool_decide_false by done.
  destruct (registry_ s !! h) as [es|] eqn:E.
  2:{ do 2 (split; [done|]). assert (entries s h = []) as En by (by apply entries_None).
      intros k. rewrite filter_at_hash. case_decide; [|done]. subst. by rewrite En. }
  assert (entries s h = es) as Ees by (unfold entries; by rewrite E).
  pose proof (kept_all id h s es Ees) as Hch. set (kept := filter _ es). set (s0 := set_registry _ s). set (changed := negb _) in *.
  set (s1 := if changed then _ else _).
  assert (∃ o, s1 = set_owners o s0 ∧ (∀ i, o !! i ≠ Some ∅) ∧
    ∀ i k, k ∈ (default ∅ (o !! i) : gset string) ↔ k ∈ owned s i ∧ ¬ (k = h ∧ i = id ∧ id ∈ owners s h)) as (o & E1 & Hone & Ho).
  { unfold s1. destruct changed.
    - destruct (EraseFromOwnerIndex_view id h s0) as (E1 & H1 & N1). eexists. split; [exact E1|].
      split; [apply N1, (ix_owner_nonempty _ Hs)|]. intros i k. unfold owned in H1. rewrite H1. naive_solver.
    - exists (owner_index_ s). split; [by destruct s|]. split; [apply (ix_owner_nonempty _ Hs)|].
      intros i k. change (default ∅ (owner_index_ s !! i)) with (owned s i). split; [|tauto]. intros Hk. split; [done|].
      intros (_ & _ & Hid). by apply Hch in Hid. }
  fold (store_key h kept s1). rewrite E1.
  destruct (store_key_view h kept o s (index_tidy _ Hs)) as ([Hn Hc] & Hr & Eo & He). fold s0 in Hn, Hc, Hr, Eo, He.
  assert (∀ k, entries (store_key h kept (set_owners o s0)) k = filter (λ e, at_hash h (of_owner id) k e = false) (entries s k)) as He'.
  { intros k. rewrite He, filter_at_hash. case_decide; [subst k; by rewrite Ees|done]. }
  split; [|done]. apply (index_ok_pruned (at_hash h (of_owner id)) s); try done; unfold owned; rewrite Eo; [|done].
  intros i k. rewrite Ho. unfold at_hash, of_owner. setoid_rewrite andb_true_iff. setoid_rewrite bool_decide_eq_true.
  setoid_rewrite RaidenId_eqb_eq. rewrite elem_of_owners. naive_solver.
Qed.

Lemma Unregister_fold id hashes ok s :
  index_ok s →
  let '(ok', s') := foldl (unregister_one id) (ok, s) hashes in
  index_ok s' ∧ same_rest s s' ∧
  ∀ h e, e ∈ entries s' h ↔ e ∈ entries s h ∧ ¬ (h ∈ hashes ∧ h ≠ "" ∧ re_raiden_id e = id).
Proof.
  revert ok s; induction hashes as [|h hashes IH]; intros ok s Hs; cbn [foldl].
  { do 2 (split; [done|]). intros h e. split; [|tauto]. intros He. split; [done|]. intros [[]%not_elem_of_nil _]. }
  destruct (decide (h = "")) as [->|Hh].
  { specialize (IH ok s Hs). change (unregister_one id (ok, s) "") with (ok, s).
    destruct (foldl (unregister_one id) (ok, s) hashes) as [ok' s']. destruct IH as (? & ? & Hel). do 2 (split; [done|]).
    intros h e. rewrite Hel. setoid_rewrite elem_of_cons. naive_solver. }
  pose proof (unregister_one_view id ok s h Hs Hh) as H1. destruct (unregister_one id (ok, s) h) as [ok1 s1].
  destruct H1 as (Hs1 & Hr1 & He1). specialize (IH ok1 s1 Hs1).
  destruct (foldl (unregister_one id) (ok1, s1) hashes) as [ok' s']. destruct IH as (Hs' & Hr' & Hel).
  split; [done|]. split; [etrans; eassumption|]. intros k e.
  rewrite Hel, He1, filter_at_hash, elem_of_cons. case_decide; [|naive_solver]. subst k. rewrite list_elem_of_filter.
  unfold of_owner. rewrite RaidenId_eqb_false. naive_solver.
Qed.

Lemma purge_fold id l s :
  tidy s →
  let s' := foldl (purge_one id) s l in
  tidy s' ∧ same_rest s s' ∧ owner_index_ s' = owner_index_ s ∧
  ∀ h, entries s' h = if decide (h ∈ l) then filter (λ e, of_owner id e = false) (entries s h) else entries s h.
Proof.
  revert s; induction l as [|h l IH]; intros s Hs; cbn [foldl].
  { do 3 (split; [done|]). intros h. by rewrite decide_False by apply not_elem_of_nil. }
  assert (tidy (purge_one id s h) ∧ same_rest s (purge_one id s h) ∧ owner_index_ (purge_one id s h) = owner_index_ s ∧
    ∀ k, entries (purge_one id s h) k = if decide (k = h) then filter (λ e, of_owner id e = false) (entries s k) else entries s k)
    as (Hs1 & Hr1 & Ho1 & He1).
  { unfold purge_one. destruct (registry_ s !! h) as [es|] eqn:E.
    - replace (if bool_decide _ then _ else _) with (store_key h (filter (λ e, of_owner id e = false) es)
        (set_owners (owner_index_ s) (set_registry (<[h := filter (λ e, of_owner id e = false) es]> (registry_ s)) s)));
        [|by unfold store_key]. edestruct (store_key_view h) as (? & ? & ? & He); [exact Hs|]. split; [done|]. split; [done|].
      split; [done|]. intros k. rewrite He. case_decide; [|done]. subst k. unfold entries. by rewrite E.
    - do 3 (split; [done|]). intros k. case_decide; [|done]. subst k. unfold entries. by rewrite E. }
  destruct (IH _ Hs1) as (Hs' & Hr' & Ho' & He'). split; [done|]. split; [etrans; eassumption|].
  split; [congruence|]. intros k. rewrite He', He1, decide_cons. repeat case_decide; try done. apply filter_twice.
Qed.

Lemma PurgeOwnedEntries_view id s :
  index_ok s →
  let s' := PurgeOwnedEntries id s in
  index_ok s' ∧ same_rest s s' ∧ ∀ h, entries s' h = filter (λ e, of_owner id e = false) (entries s h).
Proof.
  intros Hs. cbn zeta. unfold PurgeOwnedEntries.
  assert (∀ h, h ∉ owned s id → filter (λ e, of_owner id e = false) (entries s h) = entries s h) as Hno.
  { intros h Hh. apply filter_id. intros e He. apply RaidenId_eqb_false. intros <-.
    apply Hh, (ix_owned _ Hs), elem_of_owners. by exists e. }
  destruct (owner_index_ s !! id) as [hs|] eqn:E.
  2:{ do 2 (split; [done|]). intros h. rewrite Hno; [done|]. unfold owned. rewrite E. apply not_elem_of_empty. }
  assert (owned s id = hs) as Ehs by (unfold owned; by rewrite E).
  destruct (purge_fold id (elements hs) s (index_tidy _ Hs)) as ([Hn Hc] & Hr & Ho & He).
  set (s1 := foldl _ s _) in *.
  assert (∀ h, entries (set_owners (delete id (owner_index_ s1)) s1) h = filter (λ e, of_owner id e = false) (entries s h)) as He'.
  { intros h. transitivity (entries s1 h); [done|]. rewrite He. case_decide as Hh; [done|]. rewrite Hno; [done|].
    rewrite Ehs. by rewrite elem_of_elements in Hh. }
  split; [|split; [done|done]]. apply (index_ok_pruned (λ _, of_owner id) s); [done|done|done| |..].
  - intros i k. unfold owned. cbn. rewrite Ho. setoid_rewrite RaidenId_eqb_eq. destruct (decide (i = id)) as [->|Hne].
    + rewrite lookup_delete_eq. cbn. change (default ∅ (owner_index_ s !! id)) with (owned s id).
      rewrite (ix_owned _ Hs), elem_of_owners. set_solver.
    + rewrite lookup_delete_ne by done. split; [|tauto]. intros Hk. split; [done|]. naive_solver.
  - intros i. cbn. rewrite lookup_delete_Some, Ho. intros [_ Hi]. by apply (ix_owner_nonempty _ Hs i).
  - done.
Qed.

(** ** Cleanup *)
Section cleanup.
Context (now : Z).
Definition dead e : bool := expired now (re_expire_time e).

(** The loop over [registry_] so far: the dead entries of the visited keys are out of
    the lists and of the owner index, the keys left empty are collected. *)
Lemma cleanup_fold l keys s :
  NoDup l.*1 → (∀ h es, (h, es) ∈ l → registry_ s !! h = Some es) → (∀ i, owner_index_ s !! i ≠ Some ∅) →
  let '(keys', s') := foldl (cleanup_one now) (keys, s) l in
  same_rest s s' ∧ round_robin_indices_ s' = round_robin_indices_ s ∧
  (∀ h, registry_ s' !! h = if decide (h ∈ l.*1) then Some (filter (λ e, dead e = false) (entries s h)) else registry_ s !! h) ∧
  (∀ id k, k ∈ owned s' id ↔ k ∈ owned s id ∧ ¬ (k ∈ l.*1 ∧ ∃ e, e ∈ entries s k ∧ re_raiden_id e = id ∧ dead e = true)) ∧
  (∀ i, owner_index_ s' !! i ≠ Some ∅) ∧
  (∀ k, k ∈ keys' ↔ k ∈ keys ∨ k ∈ l.*1 ∧ filter (λ e, dead e = false) (entries s k) = []).
Proof.
  revert keys s; induction l as [|[h es] l IH]; intros keys s Hnd Hl Hne; cbn [foldl fmap list_fmap fst] in *.
  { do 2 (split; [done|]). split; [intros h; by rewrite decide_False by apply not_elem_of_nil|].
    split; [|split; [done|]]; intros; rewrite elem_of_nil; tauto. }
  apply NoDup_cons in Hnd as [Hh Hnd]. cbn [cleanup_one].
  destruct (erase_owners_view (filter (λ e, expired now (re_expire_time e) = true) es) h s) as (E1 & Ho & Hn1).
  set (s1 := foldl _ s _) in *. set (kept := filter (λ e, expired now (re_expire_time e) = false) es).
  set (keys1 := if bool_decide (kept = []) then keys ++ [h] else keys).
  assert (registry_ s !! h = Some es) as Eh by (apply Hl; left).
  assert (entries s h = es) as Ees by (unfold entries; by rewrite Eh).
  assert (registry_ s1 = registry_ s) as Er by (by rewrite E1).
  set (s2 := set_registry _ s1). assert (∀ k, entries s2 k = if decide (k = h) then kept else entries s k) as He.
  { intros k. unfold s2. rewrite entries_insert. case_decide; [done|]. unfold entries. by rewrite Er. }
  specialize (IH keys1 s2 Hnd). destruct (foldl (cleanup_one now) (keys1, s2) l) as [keys' s'].
  destruct IH as (Hr & Hrr & Hreg & Hown & Hne' & Hkeys).
  { intros k ks Hk. cbn. rewrite Er, lookup_insert_ne; [apply Hl; by right|]. intros <-. apply Hh, list_elem_of_fmap. by exists (h, ks). }
  { by apply Hn1. }
  assert (same_rest s s2) as Hr2 by (unfold s2; rewrite E1; done).
  split; [etrans; eassumption|]. split; [rewrite Hrr; cbn; by rewrite E1|].
  assert (∀ k, k ∈ l.*1 → entries s2 k = entries s k) as Hsame.
  { intros k Hk. rewrite He, decide_False; [done|]. by intros ->. }
  split; [|split; [|split; [done|]]].
  - intros k. rewrite Hreg, decide_cons. case_decide as Hk.
    + rewrite Hsame by done. case_decide; [done|done].
    + cbn. rewrite Er. case_decide; [subst k; rewrite lookup_insert_eq, Ees; done|by rewrite lookup_insert_ne].
  - intros id k. rewrite Hown. change (k ∈ owned s2 id) with (k ∈ owned s1 id). rewrite Ho, elem_of_cons.
    setoid_rewrite list_elem_of_filter. unfold dead in *. split.
    + intros [[Hk H1] H2]. split; [done|]. intros [[->|Hin] (e & He' & Hid & Hd)].
      * apply H1. split; [done|]. exists e. by rewrite <- Ees.
      * apply H2. split; [done|]. exists e. by rewrite Hsame.
    + intros [Hk H1]. split; [split; [done|]|].
      * intros (-> & e & [Hd He'] & Hid). apply H1. split; [by left|]. exists e. by rewrite Ees.
      * intros (Hin & e & He' & Hid & Hd). apply H1. split; [by right|]. exists e. by rewrite <- Hsame.
  - intros k. rewrite Hkeys, elem_of_cons. assert (k ∈ keys1 ↔ k ∈ keys ∨ k = h ∧ kept = []) as ->.
    { unfold keys1. case_bool_decide; rewrite ?elem_of_app, ?list_elem_of_singleton; tauto. }
    destruct (decide (k = h)) as [->|Hkh].
    + rewrite Ees. fold kept. tauto.
    + destruct (decide (k ∈ l.*1)) as [Hin|Hin]; [rewrite Hsame by done|]; tauto.
Qed.

Lemma erase_keys_view keys s :
  let s' := foldl (λ s key, erase_key key s) s keys in
  same_rest s s' ∧ owner_index_ s' = owner_index_ s ∧
  (∀ k, registry_ s' !! k = if decide (k ∈ keys) then None else registry_ s !! k) ∧
  (∀ k, round_robin_indices_ s' !! k = if decide (k ∈ keys) then None else round_robin_indices_ s !! k).
Proof.
  cbn zeta. revert s; induction keys as [|h keys IH]; intros s; cbn [foldl].
  { do 2 (split; [done|]). split; intros k; by rewrite decide_False by apply not_elem_of_nil. }
  destruct (IH (erase_key h s)) as (Hr & Ho & Hreg & Hrr). split; [done|]. split; [done|].
  split; intros k; [rewrite Hreg|rewrite Hrr]; rewrite decide_cons; cbn; repeat case_decide; try done; subst;
    [by rewrite lookup_delete_eq|by rewrite lookup_delete_ne|by rewrite lookup_delete_eq|by rewrite lookup_delete_ne].
Qed.

(** The stores that expired leave with everything they own. *)
Lemma purge_stores ids s :
  index_ok s →
  let s' := foldl (λ s id, let s := PurgeOwnedEntries id s in set_stores (delete id (store_registry_ s)) s) s ids in
  index_ok s' ∧ transfer_specs_ s' = transfer_specs_ s ∧
  (∀ id, store_registry_ s' !! id = if decide (id ∈ ids) then None else store_registry_ s !! id) ∧
  (∀ h, entries s' h = filter (λ e, re_raiden_id e ∉ ids) (entries s h)).
Proof.
  cbn zeta. revert s; induction ids as [|id ids IH]; intros s Hs; cbn [foldl].
  { do 2 (split; [done|]). split; [intros i; by rewrite decide_False by apply not_elem_of_nil|].
    intros h. rewrite filter_id; [done|]. intros e _. apply not_elem_of_nil. }
  destruct (PurgeOwnedEntries_view id s Hs) as (Hs1 & (_ & _ & Est & Esp) & He1).
  destruct (IH (set_stores (delete id (store_registry_ (PurgeOwnedEntries id s))) (PurgeOwnedEntries id s))) as (Hs' & Esp' & Hst' & He').
  { destruct Hs1 as [? ? ? ? ?]. split; done. }
  split; [done|]. split; [by rewrite Esp'|]. split.
  - intros i. rewrite Hst'. cbn. rewrite Est. destruct (decide (i = id)) as [->|Hne].
    + rewrite lookup_delete_eq, (decide_True (P := id ∈ id :: ids)) by left. by case_decide.
    + rewrite lookup_delete_ne by done. repeat case_decide; try done; exfalso; rewrite elem_of_cons in *; tauto.
  - intros h. rewrite He'. change (entries _ h) with (entries (PurgeOwnedEntries id s) h) at 1. rewrite He1, list_filter_filter.
    apply list_filter_iff. intros e. rewrite not_elem_of_cons. unfold of_owner. rewrite RaidenId_eqb_false. tauto.
Qed.

Lemma CleanupExpiredEntries_view s :
  index_ok s →
  let s' := CleanupExpiredEntries now s in
  index_ok s' ∧ transfer_specs_ s' = transfer_specs_ s ∧
  (∀ id, store_registry_ s' !! id = match store_registry_ s !! id with
     | Some r => if expired now (sr_expire_time r) then None else Some r | None => None end) ∧
  (∀ h e, e ∈ entries s' h ↔ e ∈ entries s h ∧ dead e = false ∧
     ∀ r, store_registry_ s !! re_raiden_id e = Some r → expired now (sr_expire_time r) = false).
Proof.
  intros Hs. cbn zeta. unfold CleanupExpiredEntries.
  set (ids := (filter _ (map_to_list (store_registry_ s))).*1).
  assert (∀ id, id ∈ ids ↔ ∃ r, store_registry_ s !! id = Some r ∧ expired now (sr_expire_time r) = true) as Hids.
  { intros id. unfold ids. rewrite list_elem_of_fmap. setoid_rewrite list_elem_of_filter. split.
    - intros ([i r] & -> & Hx & Hin%elem_of_map_to_list). by exists r.
    - intros (r & Hin & Hx). exists (id, r). split; [done|]. split; [done|]. by apply elem_of_map_to_list. }
  destruct (purge_stores ids s Hs) as (Hs1 & Esp1 & Hst1 & He1). set (s1 := foldl _ s ids) in *.
  pose proof (cleanup_fold (map_to_list (registry_ s1)) [] s1 (NoDup_fst_map_to_list _)
    (λ h es, proj1 (elem_of_map_to_list _ h es)) (ix_owner_nonempty _ Hs1)) as H2.
  destruct (foldl (cleanup_one now) ([], s1) (map_to_list (registry_ s1))) as [keys s2].
  destruct H2 as ((Ed2 & Eb2 & Est2 & Esp2) & Hrr2 & Hreg2 & Hown2 & Hne2 & Hkeys).
  destruct (erase_keys_view keys s2) as ((_ & _ & Est3 & Esp3) & Ho3 & Hreg3 & Hrr3). set (s3 := foldl _ s2 keys) in *.
  assert (∀ h, h ∈ (map_to_list (registry_ s1)).*1 ↔ registry_ s1 !! h ≠ None) as Hdom.
  { intros h. rewrite list_elem_of_fmap. split.
    - intros ([k es] & -> & Hk%elem_of_map_to_list). cbn. congruence.
    - intros Hk. destruct (registry_ s1 !! h) as [es|] eqn:E; [|done]. exists (h, es). split; [done|]. by apply elem_of_map_to_list. }
  assert (∀ h, entries s3 h = filter (λ e, dead e = false) (entries s1 h)) as He3.
  { intros h. unfold entries at 1. rewrite Hreg3, Hreg2. case_decide as Hk.
    - apply Hkeys in Hk as [[]%not_elem_of_nil|[_ Hk]]. by rewrite Hk.
    - case_decide as Hd; [done|]. rewrite Hdom in Hd. apply dec_stable in Hd. unfold entries. by rewrite Hd. }
  split; [|split; [congruence|split]].
  - apply (index_ok_pruned (λ _, dead) s1); [done|exact He3| | | |].
    + intros h. rewrite Hreg3, Hreg2. case_decide as Hk; [done|]. case_decide as Hd; [|by rewrite Hdom in Hd; apply dec_stable in Hd as ->].
      intros [= E]. apply Hk, Hkeys. by right.
    + intros id k. change (k ∈ owned s3 id) with (k ∈ (default ∅ (owner_index_ s3 !! id) : gset string)). rewrite Ho3.
      change (default ∅ (owner_index_ s2 !! id)) with (owned s2 id). rewrite Hown2, Hdom. split; [|naive_solver].
      intros [Hk Hno]. split; [done|]. intros (e & He & Hx). apply Hno. split; [|by exists e].
      unfold entries in He. destruct (registry_ s1 !! k); [done|]. by apply not_elem_of_nil in He.
    + by rewrite Ho3.
    + intros h. rewrite Hreg3, Hrr3, Hreg2, Hrr2. case_decide; [done|]. case_decide; [done|]. apply (ix_cursor _ Hs1).
  - intros id. rewrite Est3, Est2, Hst1. case_decide as Hi.
    + apply Hids in Hi as (r & -> & ->). done.
    + destruct (store_registry_ s !! id) as [r|] eqn:E; [|done]. destruct (expired now (sr_expire_time r)) eqn:Ex; [|done].
      destruct Hi. apply Hids. by exists r.
  - intros h e. rewrite He3, list_elem_of_filter, He1, list_elem_of_filter, Hids. split.
    + intros (Hd & Hno & Hin). split; [done|]. split; [done|]. intros r Hr. apply not_true_iff_false. intros Hx. apply Hno. by exists r.
    + intros (Hin & Hd & Hno). split; [done|]. split; [|done]. intros (r & Hr & Hx). rewrite (Hno r Hr) in Hx. done.
Qed.
End cleanup.
