(* ===== verification/RegistryService.v ===== *)
(** * RegistryService: what the global registry guarantees
    (src/tpu_sync/kv_cache/global_registry/global_registry_server.cc, and its client
    src/tpu_sync/kv_cache/host_offload_backend.cc)

    The invariant of the owner index over every sequence of RPCs, the answers of
    Lookup, PullOwned and GetPlacementTargets, and the global lookup of a backend
    composed with the registry's answer. *)

From S2P Require Import Prelude RaidenTypes LogicalBlockManager LruCache KvCacheMetadata HostOffloadBackend BackendMirror GlobalRegistry.
Implicit Types (s : Registry) (hash : string) (id : RaidenId) (now : Z) (e : RegistryEntry).

(** ** The index in every reachable state *)

(** Every RPC that changes the registry, at any time, and the cleanup thread. *)
Inductive registry_step s : Registry → Prop :=
  | rs_register cancelled now reqs : registry_step s (Register cancelled now reqs s).2
  | rs_lookup now caller hashes : registry_step s (GlobalRegistry.Lookup now caller hashes s).2
  | rs_unregister cancelled who hashes : registry_step s (Unregister cancelled who hashes s).2
  | rs_register_store now store : registry_step s (RegisterStore now store s).2
  | rs_unregister_store who : registry_step s (UnregisterStore who s).2
  | rs_heartbeat now now2 who free : registry_step s (Heartbeat now now2 who free s).2
  | rs_spec group spec : registry_step s (RegisterKVTransferSpec group spec s).2
  | rs_cleanup now : registry_step s (CleanupExpiredEntries now s).

Lemma index_ok_stores r s : index_ok s → index_ok (set_stores r s).
Proof. intros [? ? ? ? ?]. by split. Qed.
Lemma index_ok_specs t s : index_ok s → index_ok (set_specs t s).
Proof. intros [? ? ? ? ?]. by split. Qed.

Lemma register_fold now reqs s :
  index_ok s →
  let s' := foldl (register_one now) s reqs in
  index_ok s' ∧ same_rest s s' ∧
  ∀ h e, e ∈ entries s' h →
    e ∈ entries s h ∨ ∃ q, q ∈ reqs ∧ rq_prefix_hash q = h ∧ e = requested now s q.
Proof.
  cbn zeta. revert s; induction reqs as [|q reqs IH]; intros s Hs; cbn [foldl].
  { split; [done|]. split; [done|]. by left. }
  destruct (register_one_view now s q Hs) as (Hs1 & Hr1 & He1). destruct (IH _ Hs1) as (Hs' & Hr' & He').
  split; [done|]. split; [etrans; eassumption|].
  assert (∀ q', requested now (register_one now s q) q' = requested now s q') as Hrq.
  { intros q'. unfold requested. by destruct Hr1 as [-> _]. }
  intros h e [Hin|(q' & Hq & Hh & ->)]%He'.
  - apply He1 in Hin as [[-> ->]|[Hin _]]; [|by left]. right. exists q. split; [left|done].
  - right. exists q'. rewrite Hrq. split; [by right|done].
Qed.

Lemma UnregisterStore_view who s :
  index_ok s →
  let '(ok, s') := UnregisterStore who s in
  index_ok s' ∧ transfer_specs_ s' = transfer_specs_ s ∧
  match who with
  | Some i => ok = true → ∀ h e, e ∈ entries s' h ↔ e ∈ entries s h ∧ re_raiden_id e ≠ i
  | None => ok = false
  end.
Proof.
  intros Hs. unfold UnregisterStore. destruct who as [i|]; [|done].
  destruct (has_job (Some i)); cbn [negb]; [|done]. destruct (store_registry_ s !! i); [|done].
  destruct (PurgeOwnedEntries_view i _ (index_ok_stores (delete i (store_registry_ s)) s Hs)) as (Hs' & (_ & _ & _ & Esp) & He).
  split; [done|]. split; [done|]. intros _ h e. rewrite He, list_elem_of_filter. unfold of_owner. rewrite RaidenId_eqb_false.
  change (entries (set_stores _ s) h) with (entries s h). tauto.
Qed.

Lemma registry_step_ok s s' : registry_step s s' → index_ok s → index_ok s'.
Proof.
  intros Hst Hs. destruct Hst as [cancelled now reqs|now caller hashes|cancelled who hashes|now store|who|now now2 who free|group spec|now].
  - unfold Register. destruct cancelled; [done|]. destruct (forallb valid_entry reqs); [|done]. by apply register_fold.
  - pose proof (Lookup_view now caller hashes s Hs) as H. destruct (GlobalRegistry.Lookup now caller hashes s). apply H.
  - unfold Unregister. destruct cancelled; [done|]. destruct who as [i|]; [|done]. destruct (has_job (Some i)); [|done].
    pose proof (Unregister_fold i hashes true s Hs) as Hu. destruct (foldl _ (true, s) hashes) as [ok s']. apply Hu.
  - unfold RegisterStore. repeat case_match; try done; by apply index_ok_stores.
  - pose proof (UnregisterStore_view who s Hs) as H. destruct (UnregisterStore who s). apply H.
  - unfold Heartbeat. repeat case_match; try done; by apply index_ok_stores.
  - unfold RegisterKVTransferSpec. repeat case_match; try done; by apply index_ok_specs.
  - by apply CleanupExpiredEntries_view.
Qed.
Lemma new_index_ok ttl batch : index_ok (GlobalRegistryServiceImpl_new ttl batch).
Proof.
  split; cbn; try done; [intros h; constructor|]. intros id h. unfold owned, owners, entries. cbn. rewrite !lookup_empty. cbn. by rewrite elem_of_nil, elem_of_empty.
Qed.
Lemma registry_reachable_ok ttl batch s :
  rtc registry_step (GlobalRegistryServiceImpl_new ttl batch) s → index_ok s.
Proof.
  intros Hst. pose proof (new_index_ok ttl batch) as H0. revert H0. induction Hst as [|s0 s1 s2 Hs _ IH]; intros H0; [done|].
  by eapply IH, registry_step_ok.
Qed.

(** C26: The owner index is always exactly derived from the registrations.  After any
    sequence of RPCs and cleanups, an owner's set holds a hash exactly when the hash has
    an entry of that owner, which is then its only one; no empty set, no empty list
    and no round-robin cursor of an unknown hash is kept. *)
Theorem registry_index_exact ttl batch s :
  rtc registry_step (GlobalRegistryServiceImpl_new ttl batch) s →
  (∀ id h, h ∈ owned s id ↔ ∃ e, e ∈ entries s h ∧ re_raiden_id e = id) ∧
  (∀ h e e', e ∈ entries s h → e' ∈ entries s h → re_raiden_id e = re_raiden_id e' → e = e') ∧
  (∀ h, registry_ s !! h ≠ Some []) ∧ (∀ id, owner_index_ s !! id ≠ Some ∅) ∧
  dom (round_robin_indices_ s) ⊆ dom (registry_ s).
Proof.
  intros Hs%registry_reachable_ok. split; [intros id h; by rewrite (ix_owned _ Hs), elem_of_owners|].
  split; [intros h e e'; by apply same_owner|]. split; [apply Hs|]. split; [apply Hs|].
  intros h Hh. apply elem_of_dom in Hh as [c Hc]. apply elem_of_dom. destruct (registry_ s !! h) eqn:E; [done|].
  rewrite (ix_cursor _ Hs h E) in Hc. done.
Qed.

(** ** Lookup *)
Lemma gone_false now caller e :
  gone now caller e = false ↔
  expired now (re_expire_time e) = false ∧ (RaidenId_empty caller = false → re_raiden_id e ≠ caller).
Proof.
  unfold gone. rewrite orb_false_iff, andb_false_iff, negb_false_iff, RaidenId_eqb_false.
  destruct (RaidenId_empty caller); naive_solver.
Qed.

(** Lookup answers with live registrations of others.  In any consistent state,
    the results answer a prefix of the asked hashes in order; each names a registration
    of its hash that has not expired and is not the caller's, and the first hash left
    unanswered has none.  The visited hashes lose exactly their expired and the
    caller's registrations; all others are kept. *)
Theorem registry_Lookup_spec now caller hashes s :
  index_ok s →
  let '(results, s') := GlobalRegistry.Lookup now caller hashes s in
  (∀ i id blk, results !! i = Some (id, blk) →
     ∃ h e, hashes !! i = Some h ∧ e ∈ entries s h ∧ re_raiden_id e = id ∧ re_block_id e = blk ∧
            expired now (re_expire_time e) = false ∧ (RaidenId_empty caller = false → id ≠ caller)) ∧
  (∀ h e, hashes !! length results = Some h → e ∈ entries s h →
     expired now (re_expire_time e) = true ∨ re_raiden_id e = caller) ∧
  (∀ h e, e ∈ entries s' h ↔ e ∈ entries s h ∧
     (h ∈ take (S (length results)) hashes → expired now (re_expire_time e) = false ∧
        (RaidenId_empty caller = false → re_raiden_id e ≠ caller))).
Proof.
  intros Hs. pose proof (Lookup_view now caller hashes s Hs) as H. destruct (GlobalRegistry.Lookup now caller hashes s) as [results s'].
  destruct H as (_ & _ & _ & Hsw & Hres & Hstop). split; [|split].
  - intros i id blk Hi. destruct (Hres i _ Hi) as (h & e & Hh & Hin & Hg & [= -> ->]). apply gone_false in Hg. exists h, e. naive_solver.
  - intros h e Hh Hin. pose proof (Hstop h e Hh Hin) as Hg. unfold gone in Hg.
    apply orb_true_iff in Hg as [?|[_ ?%RaidenId_eqb_eq]%andb_true_iff]; [by left|by right].
  - intros h e. rewrite Hsw. case_decide; [rewrite list_elem_of_filter, gone_false|]; naive_solver.
Qed.

(** Repeated lookups of one hash. *)
Fixpoint lookups now caller hash (n : nat) s : list (option (RaidenId * Z)) :=
  match n with
  | O => []
  | S n => let '(r, s) := lookup_one now caller hash s in r :: lookups now caller hash n s
  end.
Definition holder e : RaidenId * Z := (re_raiden_id e, re_block_id e).

Lemma lookups_cycle now caller hash es n s (c : nat) :
  registry_ s !! hash = Some es → es ≠ [] → (∀ e, e ∈ es → gone now caller e = false) →
  default 0%nat (round_robin_indices_ s !! hash) = c →
  lookups now caller hash n s = (λ k, Some (holder (es !!! ((c + k) `mod` length es)%nat))) <$> seq 0 n.
Proof.
  intros E Hne Hg Hc. revert s c E Hc; induction n as [|n IH]; intros s c E Hc; [done|]. cbn [lookups].
  assert (length es ≠ 0%nat) as Hl by (by destruct es).
  unfold lookup_one. rewrite E. rewrite (filter_id (λ e, gone now caller e = false)) by done.
  assert (filter (λ e, gone now caller e = true) es = []) as ->.
  { destruct (filter _ es) as [|x l] eqn:Ef; [done|]. assert (x ∈ filter (λ e, gone now caller e = true) es) as Hx by (rewrite Ef; left).
    apply list_elem_of_filter in Hx as [Hx Hin]. by rewrite (Hg x Hin) in Hx. }
  cbn [foldl]. rewrite bool_decide_false by done. rewrite Hc. cbn [seq fmap list_fmap]. f_equal; [by rewrite Nat.add_0_r|].
  rewrite (IH _ (S (c `mod` length es))); [|cbn; by rewrite lookup_insert_eq|cbn; by rewrite lookup_insert_eq].
  rewrite <- seq_shift, <- list_fmap_compose. apply list_fmap_ext. intros i k _. cbn. do 3 f_equal.
  change (S (c `mod` length es + k))%nat with (1 + c `mod` length es + k)%nat.
  rewrite Nat.add_comm, Nat.add_assoc, (Nat.add_comm k 1), Nat.Div0.add_mod_idemp_r. f_equal. lia.
Qed.

Lemma cycle_Permutation {A} `{!Inhabited A} (l : list A) (c : nat) :
  (λ k, l !!! ((c + k) `mod` length l)%nat) <$> seq 0 (length l) ≡ₚ l.
Proof.
  destruct (decide (l = [])) as [->|Hne]; [done|]. assert (length l ≠ 0%nat) as Hl by (by destruct l).
  set (m := (c `mod` length l)%nat). assert (m < length l)%nat as Hm by (by apply Nat.mod_upper_bound).
  assert ((λ k, l !!! ((c + k) `mod` length l)%nat) <$> seq 0 (length l) = drop m l ++ take m l) as ->.
  { apply list_eq_same_length with (length l); [by rewrite length_app, length_drop, length_take; lia|by rewrite length_fmap, length_seq|].
    intros k x y Hk Hx Hy. rewrite list_lookup_fmap, lookup_seq_lt in Hx by done. cbn in Hx. injection Hx as <-.
    assert ((c + k) `mod` length l = if decide (m + k < length l)%nat then m + k else m + k - length l)%nat as Em.
    { rewrite <- Nat.Div0.add_mod_idemp_l. fold m. case_decide; [by apply Nat.mod_small|].
      replace (m + k)%nat with (m + k - length l + 1 * length l)%nat at 1 by lia. rewrite Nat.Div0.mod_add. apply Nat.mod_small. lia. }
    rewrite Em. case_decide as Hd.
    - rewrite lookup_app_l in Hy by (rewrite length_drop; lia). rewrite lookup_drop in Hy. by apply list_lookup_total_correct.
    - rewrite lookup_app_r, length_drop in Hy by (rewrite length_drop; lia). rewrite lookup_take_lt in Hy by lia.
      apply list_lookup_total_correct. rewrite <- Hy. f_equal. lia. }
  rewrite Permutation_app_comm. by rewrite take_drop.
Qed.

(** Lookups spread over the holders.  As long as nothing else happens to a hash all
    of whose [n] registrations are usable, any [n] consecutive lookups of it are all
    answered, and by each holder exactly once. *)
Theorem lookup_round_robin now caller hash s es :
  registry_ s !! hash = Some es → es ≠ [] → (∀ e, e ∈ es → gone now caller e = false) →
  lookups now caller hash (length es) s ≡ₚ Some ∘ holder <$> es.
Proof.
  intros E Hne Hg. rewrite (lookups_cycle now caller hash es _ s _ E Hne Hg eq_refl).
  set (c := default 0%nat _).
  transitivity (Some ∘ holder <$> ((λ k, es !!! ((c + k) `mod` length es)%nat) <$> seq 0 (length es)));
    [by rewrite <- list_fmap_compose|]. by rewrite cycle_Permutation.
Qed.

(** ** Registering *)
Definition requester (q : RegisterEntry) : option RaidenId := rq_metadata q ≫= kb_raiden_id.
Lemma requested_id now s q id : requester q = Some id → re_raiden_id (requested now s q) = id.
Proof. unfold requester, requested. destruct (rq_metadata q) as [m|]; [|done]. cbn. by intros ->. Qed.

(** A registration of the batch is there afterwards when no later one replaces it. *)
Lemma register_fold_in now reqs s q :
  index_ok s → q ∈ reqs →
  (∀ q', q' ∈ reqs → rq_prefix_hash q' = rq_prefix_hash q → re_raiden_id (requested now s q') = re_raiden_id (requested now s q) → q' = q) →
  requested now s q ∈ entries (foldl (register_one now) s reqs) (rq_prefix_hash q).
Proof.
  revert s; induction reqs as [|q0 reqs IH] using rev_ind; intros s Hs Hq Hu; [by apply not_elem_of_nil in Hq|].
  rewrite foldl_app. cbn [foldl]. destruct (register_fold now reqs s Hs) as (Hs1 & (Ed & _) & _).
  set (s1 := foldl (register_one now) s reqs) in *.
  destruct (register_one_view now s1 q0 Hs1) as (_ & _ & He). apply He.
  assert (∀ q, requested now s1 q = requested now s q) as Hrq by (intros; unfold requested; by rewrite Ed).
  rewrite Hrq. destruct (decide (rq_prefix_hash q = rq_prefix_hash q0 ∧ re_raiden_id (requested now s q) = re_raiden_id (requested now s q0))) as [[Eh Ei]|Hne].
  - left. split; [done|]. f_equal. symmetry. apply Hu; [set_solver|done|done].
  - right. split; [|done]. apply IH; [done| |].
    + apply elem_of_app in Hq as [?| ->%list_elem_of_singleton]; [done|]. by destruct Hne.
    + intros q' Hq'. apply Hu, elem_of_app. by left.
Qed.

(** What is registered is found.  When a store registers a batch of distinct hashes,
    any other caller that looks the batch up before the registrations expire gets an
    answer for every hash; a batch with an invalid entry changes nothing. *)
Theorem register_lookup_roundtrip now now2 (reqs : list RegisterEntry) id caller s :
  index_ok s → NoDup (rq_prefix_hash <$> reqs) → (∀ q, q ∈ reqs → requester q = Some id) → caller ≠ id →
  (∀ q, q ∈ reqs → expired now2 (re_expire_time (requested now s q)) = false) →
  let '(r, s1) := Register false now reqs s in
  match r with
  | Ok true => length (GlobalRegistry.Lookup now2 caller (rq_prefix_hash <$> reqs) s1).1 = length reqs
  | Ok false => s1 = s ∧ ∃ q, q ∈ reqs ∧ valid_entry q = false
  | Err _ => False
  end.
Proof.
  intros Hs Hnd Hid Hne Hex. cbn. destruct (forallb valid_entry reqs) eqn:Ev; cbn [negb].
  2:{ split; [done|]. apply not_true_iff_false in Ev. rewrite forallb_forall in Ev.
      destruct (decide (Exists (λ q, valid_entry q = false) reqs)) as [Hx|Hx]; [by apply Exists_exists in Hx|].
      destruct Ev. intros q Hq%list_elem_of_In. apply not_false_iff_true. intros Hv. apply Hx, Exists_exists. by exists q. }
  destruct (register_fold now reqs s Hs) as (Hs1 & _ & _). set (s1 := foldl (register_one now) s reqs) in *.
  pose proof (Lookup_view now2 caller (rq_prefix_hash <$> reqs) s1 Hs1) as H.
  destruct (GlobalRegistry.Lookup now2 caller (rq_prefix_hash <$> reqs) s1) as [results s2]. cbn.
  destruct H as (_ & _ & Hlen & _ & _ & Hstop). rewrite length_fmap in Hlen.
  destruct (decide (length results < length reqs)%nat) as [Hlt|]; [exfalso|lia].
  destruct (lookup_lt_is_Some_2 reqs (length results) Hlt) as [q Hq]. pose proof (list_elem_of_lookup_2 _ _ _ Hq) as Hin.
  specialize (Hstop (rq_prefix_hash q) (requested now s q)). rewrite list_lookup_fmap, Hq in Hstop.
  assert (gone now2 caller (requested now s q) = true) as Hg.
  { apply Hstop; [done|]. apply register_fold_in; [done|done|]. intros q' Hq' Eh _.
    apply list_elem_of_lookup in Hq' as [j Hj]. apply list_elem_of_lookup in Hin as [k Hk].
    assert (j = k) as ->; [|congruence]. apply (NoDup_lookup _ j k (rq_prefix_hash q) Hnd); rewrite list_lookup_fmap;
      [by rewrite Hj, <- Eh|by rewrite Hk]. }
  assert (gone now2 caller (requested now s q) = false) as Hg'; [|congruence].
  apply gone_false. split; [by apply Hex|]. intros _. rewrite (requested_id _ _ _ id); [congruence|by apply Hid].
Qed.

(** ** PullOwned *)
Lemma remaining_ttl_bounds now t :
  now < t →
  let ttl := remaining_ttl now (At t) in
  1 <= ttl ∧ t <= now + ttl * ticks_per_second ∧ now + (ttl - 1) * ticks_per_second < t.
Proof.
  intros Hlt. cbn zeta. unfold remaining_ttl, ticks_per_second. set (q := (t - now) `quot` 4000000000).
  pose proof (Z.quot_rem' (t - now) 4000000000) as Hq. fold q in Hq.
  pose proof (Z.rem_bound_pos (t - now) 4000000000 ltac:(lia) ltac:(lia)).
  destruct (Z.ltb_spec (q * 4000000000) (t - now)); lia.
Qed.

Lemma pull_entry_Some now id hash l p :
  NoDup (re_raiden_id <$> l) →
  pull_entry now id hash l = Some p ↔
  ∃ e, e ∈ l ∧ re_raiden_id e = id ∧ expired now (re_expire_time e) = false ∧
       p = mkPulled hash (re_block_id e) (remaining_ttl now (re_expire_time e)).
Proof.
  induction l as [|e l IH]; intros Hnd; cbn [pull_entry]; [split; [done|intros (e & []%not_elem_of_nil & _)]|].
  cbn in Hnd. apply NoDup_cons in Hnd as [Hni Hnd]. setoid_rewrite elem_of_cons.
  destruct (RaidenId_eqb (re_raiden_id e) id) eqn:Ei; cbn [negb].
  - apply RaidenId_eqb_eq in Ei.
    assert (∀ e', e' ∈ l → re_raiden_id e' ≠ id) as Hno.
    { intros e' He' Ee. apply Hni. rewrite Ei, <- Ee. apply list_elem_of_fmap. by exists e'. }
    destruct (expired now (re_expire_time e)) eqn:Ex; split; try done.
    + intros (e' & [->|He'] & Hi & Hx & _); [congruence|by destruct (Hno e' He')].
    + intros [= <-]. exists e. split; [by left|done].
    + intros (e' & [->|He'] & Hi & Hx & ->); [done|by destruct (Hno e' He')].
  - apply RaidenId_eqb_false in Ei. rewrite (IH Hnd). naive_solver.
Qed.

Lemma chunks_concat {A} fuel size (l : list A) : (0 < size)%nat → (length l <= fuel)%nat → concat (chunks fuel size l) = l.
Proof.
  intros Hsz. revert l; induction fuel as [|fuel IH]; intros l Hl; [by destruct l; cbn in *; [|lia]|].
  destruct l as [|x l]; [done|]. cbn [chunks concat]. rewrite IH; [apply take_drop|].
  rewrite length_drop. cbn [length] in *. lia.
Qed.
Lemma chunks_length {A} fuel size (l k : list A) : k ∈ chunks fuel size l → (length k <= size)%nat.
Proof.
  revert l; induction fuel as [|fuel IH]; intros [|x l]; cbn [chunks]; try (intros []%not_elem_of_nil).
  intros [->|Hk]%elem_of_cons; [rewrite length_take; lia|by eapply IH].
Qed.

Lemma pull_stream_quiet id now s write k batches :
  (∀ j, write j = true) →
  pull_stream id (λ _, (now, s)) write k batches =
  (OkStatus, filter (λ b, b ≠ []) ((λ hs, pull_batch now id hs s) <$> batches)).
Proof.
  intros Hw. revert k; induction batches as [|b batches IH]; intros k; [done|]. cbn [pull_stream fmap list_fmap].
  rewrite filter_cons. case_bool_decide as Hb; [rewrite decide_False by tauto; apply IH|].
  rewrite decide_True by done. by rewrite Hw, IH.
Qed.
Lemma concat_filter_nonempty {A} (ll : list (list A)) : concat (filter (λ b, b ≠ []) ll) = concat ll.
Proof. induction ll as [|[|x l] ll IH]; [done|done|]. rewrite filter_cons_True by done. cbn. by rewrite IH. Qed.
Lemma concat_pull_batch now id s (ll : list (list string)) :
  concat ((λ hs, pull_batch now id hs s) <$> ll) = pull_batch now id (concat ll) s.
Proof. unfold pull_batch. induction ll as [|l ll IH]; [done|]. cbn. by rewrite IH, omap_app. Qed.

Lemma elem_of_pull_batch now id hs s p :
  index_ok s →
  p ∈ pull_batch now id hs s ↔
  po_prefix_hash p ∈ hs ∧ pull_entry now id (po_prefix_hash p) (entries s (po_prefix_hash p)) = Some p.
Proof.
  intros Hs. unfold pull_batch. rewrite list_elem_of_omap. split.
  - intros (h & Hh & E). destruct (registry_ s !! h) as [l|] eqn:El; [|done].
    assert (entries s h = l) as Eh by (unfold entries; by rewrite El). rewrite <- Eh in E. pose proof E as E'.
    apply pull_entry_Some in E' as (e & _ & _ & _ & ->); [|apply (ix_nodup _ Hs)]. done.
  - intros [Hh E]. exists (po_prefix_hash p). split; [done|]. unfold entries in E. by destruct (registry_ s !! po_prefix_hash p).
Qed.
Lemma pull_batch_cons now id h hs s :
  pull_batch now id (h :: hs) s = option_list (pull_entry now id h (entries s h)) ++ pull_batch now id hs s.
Proof.
  unfold pull_batch. cbn [omap list_omap]. unfold entries. destruct (registry_ s !! h); cbn; [|done].
  by destruct (pull_entry _ _ _ _).
Qed.
Lemma length_pull_batch now id hs s : (length (pull_batch now id hs s) <= length hs)%nat.
Proof.
  induction hs as [|h hs IH]; [done|]. rewrite pull_batch_cons, length_app. cbn [length].
  destruct (pull_entry _ _ _ _); cbn; lia.
Qed.
Lemma pull_batch_nodup now id hs s : index_ok s → NoDup hs → NoDup (po_prefix_hash <$> pull_batch now id hs s).
Proof.
  intros Hs. induction hs as [|h hs IH]; intros Hn; [constructor|]. apply NoDup_cons in Hn as [Hh Hn].
  rewrite pull_batch_cons. destruct (pull_entry now id h (entries s h)) as [p|] eqn:E; [|by apply IH].
  apply pull_entry_Some in E as (e & _ & _ & _ & ->); [|apply (ix_nodup _ Hs)]. cbn. apply NoDup_cons. split; [|by apply IH].
  intros (p' & -> & [Hin _]%elem_of_pull_batch)%list_elem_of_fmap; done.
Qed.

(** A restarted owner gets back exactly what it registered.  While nothing else
    happens, PullOwned streams, in batches of at most the configured size, every live
    registration of the owner exactly once, with its block and a time to live that
    is rounded up: never short of the deadline, and by less than a second. *)
Theorem PullOwned_spec id order now write s :
  index_ok s → job_name id ≠ "" → (∀ hs : gset string, order hs ≡ₚ elements hs) → (∀ j, write j = true) →
  0 < pull_owned_batch_size_ s →
  let '(st, sent) := PullOwned (Some id) order (λ _, (now, s)) write s in
  st = OkStatus ∧ NoDup (po_prefix_hash <$> concat sent) ∧
  (∀ b, b ∈ sent → b ≠ [] ∧ Z.of_nat (length b) <= pull_owned_batch_size_ s) ∧
  (∀ p, p ∈ concat sent ↔ ∃ e, e ∈ entries s (po_prefix_hash p) ∧ re_raiden_id e = id ∧
     expired now (re_expire_time e) = false ∧ po_block_id p = re_block_id e ∧
     po_remaining_ttl_seconds p = remaining_ttl now (re_expire_time e)) ∧
  (∀ t, now < t → let ttl := remaining_ttl now (At t) in
     1 <= ttl ∧ t <= now + ttl * ticks_per_second ∧ now + (ttl - 1) * ticks_per_second < t).
Proof.
  intros Hs Hj Hord Hw Hsz. unfold PullOwned, has_job. rewrite bool_decide_false by done. cbn [negb].
  assert (∀ p, (∃ e, e ∈ entries s (po_prefix_hash p) ∧ re_raiden_id e = id ∧
     expired now (re_expire_time e) = false ∧ po_block_id p = re_block_id e ∧
     po_remaining_ttl_seconds p = remaining_ttl now (re_expire_time e)) ↔
     pull_entry now id (po_prefix_hash p) (entries s (po_prefix_hash p)) = Some p) as Hspec.
  { intros [h b t]. cbn. rewrite pull_entry_Some by apply (ix_nodup _ Hs). split; intros (e & ? & ? & ? & Hp); exists e; naive_solver. }
  destruct (owner_index_ s !! id) as [hs|] eqn:Eo.
  - rewrite (pull_stream_quiet id now s write 0 _ Hw). split; [done|].
    assert (NoDup (order hs)) as Hno by (rewrite Hord; apply NoDup_elements).
    rewrite concat_filter_nonempty, concat_pull_batch, chunks_concat by lia. split; [by apply pull_batch_nodup|]. split; [|split; [|apply remaining_ttl_bounds]].
    + intros b [Hb (h & -> & Hh)%list_elem_of_fmap]%list_elem_of_filter. split; [done|]. apply chunks_length in Hh.
      pose proof (length_pull_batch now id h s). lia.
    + intros p. rewrite elem_of_pull_batch, Hspec, Hord, elem_of_elements by done. split; [tauto|]. intros Hp. split; [|done].
      apply Hspec in Hp as (e & He & Hi & _). assert (po_prefix_hash p ∈ owned s id) as Hw'
        by (apply (ix_owned _ Hs), elem_of_owners; by exists e). unfold owned in Hw'. by rewrite Eo in Hw'.
  - split; [done|]. split; [constructor|]. split; [intros b []%not_elem_of_nil|]. split; [|apply remaining_ttl_bounds].
    intros p. split; [intros []%not_elem_of_nil|]. intros (e & He & Hi & _). exfalso.
    assert (po_prefix_hash p ∈ owned s id) as Hw' by (apply (ix_owned _ Hs), elem_of_owners; by exists e).
    unfold owned in Hw'. rewrite Eo in Hw'. by apply not_elem_of_empty in Hw'.
Qed.

(** ** Placement *)
Lemma min_tier (l : list (RaidenId * StoreRecord)) z :
  let t := foldl (λ t c, Z.min t (sr_evict_tier c.2)) z l in
  t <= z ∧ (∀ c, c ∈ l → t <= sr_evict_tier c.2) ∧ (t = z ∨ ∃ c, c ∈ l ∧ sr_evict_tier c.2 = t).
Proof.
  cbn zeta. revert z; induction l as [|c l IH]; intros z; cbn [foldl].
  { split; [lia|]. split; [intros c []%not_elem_of_nil|by left]. }
  destruct (IH (Z.min z (sr_evict_tier c.2))) as (H1 & H2 & H3). set (t := foldl _ _ l) in *. split; [lia|]. split.
  - intros c' [->|Hc]%elem_of_cons; [lia|by apply H2].
  - destruct H3 as [H3|(c' & Hc & H3)]; [|right; exists c'; split; [by right|done]].
    destruct (Z.min_spec z (sr_evict_tier c.2)) as [[_ E]|[_ E]]; [left; lia|]. right. exists c. split; [left|lia].
Qed.

#[export] Instance more_free_total : Total more_free.
Proof. intros a b. unfold more_free. lia. Qed.
#[export] Instance more_free_trans : Transitive more_free.
Proof. intros a b c. unfold more_free. lia. Qed.

Lemma eligible_true now group tier c :
  eligible now group tier c = true ↔
  sr_kv_pool_group c.2 = group ∧ tier < sr_evict_tier c.2 ∧ expired now (sr_expire_time c.2) = false.
Proof. unfold eligible. rewrite !andb_true_iff, bool_decide_eq_true, Z.ltb_lt, negb_true_iff. tauto. Qed.

Lemma placement_spec now caller roster :
  (∀ c, c ∈ roster → sr_evict_tier c.2 <= INT32_MAX) →
  let ok c := c ∈ roster ∧ eligible now (sr_kv_pool_group caller) (sr_evict_tier caller) c = true in
  StronglySorted more_free (placement now caller roster) ∧
  (NoDup roster → NoDup (placement now caller roster)) ∧
  ((∃ c, ok c) → placement now caller roster ≠ []) ∧
  ∀ c, c ∈ placement now caller roster ↔ ok c ∧ ∀ c', ok c' → sr_evict_tier c.2 <= sr_evict_tier c'.2.
Proof.
  intros Hmax. cbn zeta. unfold placement. set (cand := filter _ roster).
  assert (∀ c, c ∈ cand ↔ c ∈ roster ∧ eligible now (sr_kv_pool_group caller) (sr_evict_tier caller) c = true) as Hc
    by (intros c; unfold cand; rewrite list_elem_of_filter; tauto).
  destruct (min_tier cand INT32_MAX) as (H1 & H2 & H3). set (t := foldl _ _ cand) in *.
  split; [apply StronglySorted_merge_sort; apply _|]. split.
  - intros Hnd. rewrite merge_sort_Permutation. by apply NoDup_filter, NoDup_filter.
  - split.
    { setoid_rewrite <- Hc. intros (c & Hin) Hnil.
      assert (∃ c', c' ∈ cand ∧ sr_evict_tier c'.2 = t) as (c' & Hin' & Ht).
      { destruct H3 as [H3|?]; [|done]. exists c. split; [done|]. pose proof (H2 c Hin).
        assert (sr_evict_tier c.2 <= INT32_MAX) by (apply Hmax, Hc, Hin). lia. }
      apply (not_elem_of_nil c'). rewrite <- Hnil, merge_sort_Permutation. by apply list_elem_of_filter. }
    intros c. rewrite merge_sort_Permutation, list_elem_of_filter, Hc. setoid_rewrite <- Hc. split.
    + intros [Ht Hin]. split; [done|]. intros c' Hc'. rewrite Ht. by apply H2.
    + intros [Hin Hmin]. split; [|done]. destruct H3 as [H3|(c' & Hc' & H3)].
      * pose proof (H2 c Hin). assert (sr_evict_tier c.2 <= INT32_MAX) by (apply Hmax, Hc, Hin). lia.
      * pose proof (Hmin c' Hc'). pose proof (H2 c Hin). lia.
Qed.

(** Cold blocks flow to the nearest tier below.  For a live caller that registered
    with a pool group, the placement targets are distinct live stores of its group on
    the smallest tier strictly greater than its own, those with the most reported
    free blocks first and none better left out, at most as many as asked for (three
    by default), and there is one whenever the group has a live store on a greater
    tier.  Any other caller gets the error that tells it what to do. *)
Theorem GetPlacementTargets_spec now id max_targets roster s :
  roster ≡ₚ map_to_list (store_registry_ s) → job_name id ≠ "" →
  (∀ i r, store_registry_ s !! i = Some r → sr_evict_tier r <= INT32_MAX) →
  let ok caller i r := store_registry_ s !! i = Some r ∧ sr_kv_pool_group r = sr_kv_pool_group caller ∧
                       sr_evict_tier caller < sr_evict_tier r ∧ expired now (sr_expire_time r) = false in
  match GetPlacementTargets now (Some id) max_targets roster s with
  | Ok targets => ∃ caller, live_store now id s = Some caller ∧ sr_kv_pool_group caller ≠ "" ∧
      NoDup targets ∧ StronglySorted more_free targets ∧
      Z.of_nat (length targets) <= (if 0 <? max_targets then max_targets else kDefaultMaxPlacementTargets) ∧
      (∀ i r, (i, r) ∈ targets → ok caller i r ∧ (∀ i' r', ok caller i' r' → sr_evict_tier r <= sr_evict_tier r') ∧
         ∀ i' r', ok caller i' r' → sr_evict_tier r' = sr_evict_tier r → (i', r') ∉ targets →
           sr_free_blocks r' <= sr_free_blocks r) ∧
      ((∃ i r, ok caller i r) → targets ≠ [])
  | Err c => c = kNotFound ∧ live_store now id s = None ∨
             c = kFailedPrecondition ∧ ∃ caller, live_store now id s = Some caller ∧ sr_kv_pool_group caller = ""
  end.
Proof.
  intros Hros Hj Hmax. cbn zeta. unfold GetPlacementTargets, has_job. rewrite bool_decide_false by done. cbn [negb].
  destruct (live_store now id s) as [caller|] eqn:El; [|by left]. case_bool_decide as Hg; [right; by eauto|].
  exists caller. split; [done|]. split; [done|].
  assert (∀ i r, (i, r) ∈ roster ↔ store_registry_ s !! i = Some r) as Hin by (intros; by rewrite Hros, elem_of_map_to_list).
  destruct (placement_spec now caller roster) as (Hsort & Hnd & Hnel & Hel).
  { intros [i r] Hc%Hin. by eapply Hmax. }
  specialize (Hnd ltac:(rewrite Hros; apply NoDup_map_to_list)). set (l := placement now caller roster) in *.
  set (n := Z.to_nat (if 0 <? max_targets then max_targets else kDefaultMaxPlacementTargets)).
  assert ((0 < n)%nat ∧ Z.of_nat n = if 0 <? max_targets then max_targets else kDefaultMaxPlacementTargets) as [Hn En].
  { unfold n. destruct (Z.ltb_spec 0 max_targets); [lia|]. unfold kDefaultMaxPlacementTargets. lia. }
  assert (∀ i r, (i, r) ∈ l ↔ (store_registry_ s !! i = Some r ∧ sr_kv_pool_group r = sr_kv_pool_group caller ∧
     sr_evict_tier caller < sr_evict_tier r ∧ expired now (sr_expire_time r) = false) ∧
     ∀ i' r', store_registry_ s !! i' = Some r' ∧ sr_kv_pool_group r' = sr_kv_pool_group caller ∧
       sr_evict_tier caller < sr_evict_tier r' ∧ expired now (sr_expire_time r') = false → sr_evict_tier r <= sr_evict_tier r') as Hl.
  { intros i r. rewrite Hel, Hin, eligible_true. split; intros [? Hmin]; (split; [done|]).
    - intros i' r' Hok. apply (Hmin (i', r')). by rewrite Hin, eligible_true.
    - intros [i' r']. rewrite Hin, eligible_true. apply Hmin. }
  rewrite <- (take_drop n l) in Hsort, Hnd. apply StronglySorted_app in Hsort as (Hcross & Hst & _).
  apply NoDup_app in Hnd as (Hnd & _ & _).
  split; [done|]. split; [done|]. split; [rewrite length_take; lia|]. split.
  - intros i r Ht. assert ((i, r) ∈ l) as Hil by (rewrite <- (take_drop n l); apply elem_of_app; by left).
    apply Hl in Hil as [Hok Hmin]. split; [done|]. split; [done|].
    intros i' r' Hok' Etier Hno. assert ((i', r') ∈ l) as Hil'.
    { apply Hl. split; [done|]. intros i2 r2 Hok2. rewrite Etier. by eapply Hmin. }
    rewrite <- (take_drop n l) in Hil'. apply elem_of_app in Hil' as [|Hd]; [done|]. apply (Hcross (i, r) (i', r') Ht Hd).
  - intros (i & r & Hok). assert (l ≠ []) as Hne; [|destruct l, n; done || lia].
    apply Hnel. exists (i, r). by rewrite Hin, eligible_true.
Qed.

(** ** Losing a store *)

(** The blocks of a lost store leave with it.  A cleanup removes exactly the expired
    store registrations and, of the block registrations, exactly the expired ones and
    those of a store that expired; unregistering a store removes its registration and
    exactly the block registrations it owns, so no later lookup can name it. *)
Theorem lost_store_purged now id s :
  index_ok s → job_name id ≠ "" →
  let s1 := CleanupExpiredEntries now s in
  let '(ok, s2) := UnregisterStore (Some id) s in
  (∀ i, store_registry_ s1 !! i = live_store now i s) ∧
  (∀ h e, e ∈ entries s1 h ↔ e ∈ entries s h ∧ expired now (re_expire_time e) = false ∧
     (store_registry_ s !! re_raiden_id e = None ∨ is_Some (live_store now (re_raiden_id e) s))) ∧
  (ok = true ↔ is_Some (store_registry_ s !! id)) ∧
  (ok = true → store_registry_ s2 = delete id (store_registry_ s) ∧
     ∀ h e, e ∈ entries s2 h ↔ e ∈ entries s h ∧ re_raiden_id e ≠ id).
Proof.
  intros Hs Hj. cbn zeta. destruct (CleanupExpiredEntries_view now s Hs) as (_ & _ & Hst & He).
  pose proof (UnregisterStore_view (Some id) s Hs) as Hu. unfold UnregisterStore, has_job in *.
  rewrite bool_decide_false in * by done. cbn [negb] in *.
  assert (∀ i, live_store now i s = match store_registry_ s !! i with
     | Some r => if expired now (sr_expire_time r) then None else Some r | None => None end) as Hlv by done.
  destruct (store_registry_ s !! id) as [r|] eqn:E; (split; [intros i; by rewrite Hst|]);
    (split; [|split; [by split; [|intros [? ?]]|]]); try done.
  2:{ destruct Hu as (_ & _ & Hu). intros _. split; [|by apply Hu].
      by destruct (PurgeOwnedEntries_view id _ (index_ok_stores (delete id (store_registry_ s)) s Hs)) as (_ & (_ & _ & -> & _) & _). }
  all: intros h e; rewrite He, Hlv; unfold dead;
    (split; intros (Hin & Hx & Hr); (split; [done|]); (split; [done|])); destruct (store_registry_ s !! re_raiden_id e) as [r'|] eqn:Er;
    [rewrite (Hr r' eq_refl); right; by eexists|by left|..]; intros r2 [= <-] || intros r2 [=];
    destruct Hr as [[=]|[? Hr]]; by destruct (expired now (sr_expire_time r')).
Qed.

(** ** Transfer specs *)
Lemma SpecDifference_false a b : SpecDifference a b = false ↔ a = b.
Proof.
  unfold SpecDifference. rewrite !orb_false_iff, !negb_false_iff, Nat.eqb_eq, !Z.eqb_eq.
  destruct a as [la ka wa], b as [lb kb wb]. cbn.
  assert (length lb = length la → existsb (λ p, negb (p.1 =? p.2)) (zip lb la) = false ↔ lb = la) as Hl.
  { revert lb; induction la as [|x la IH]; intros [|y lb] Hlen; try done. cbn. rewrite orb_false_iff, negb_false_iff, Z.eqb_eq, IH by (cbn in Hlen; lia).
    naive_solver. }
  split; [intros [[[Hlen Hx] ?] ?]; apply Hl in Hx; [by subst|done]|]. intros [= -> -> ->]. split_and!; try done. by apply Hl.
Qed.

(** The first published spec of a group is final.  Whatever happens, a registered
    spec stays; a publication succeeds exactly when it is well formed, names a group, and
    is the first or equal to the registered one, and after it the group has exactly
    that spec; a differing publication is told the registered one. *)
Theorem spec_first_wins s group spec :
  (∀ s' g k, registry_step s s' → index_ok s → transfer_specs_ s !! g = Some k → transfer_specs_ s' !! g = Some k) ∧
  let '(ok, told, s') := RegisterKVTransferSpec group (Some spec) s in
  (ok = true ↔ group ≠ "" ∧ SpecValidationError spec = false ∧ default spec (transfer_specs_ s !! group) = spec) ∧
  (ok = true → transfer_specs_ s' = <[group := spec]> (transfer_specs_ s)) ∧
  (ok = false → s' = s ∧ ∀ k, told = Some k → transfer_specs_ s !! group = Some k ∧ k ≠ spec).
Proof.
  split.
  - intros s' g k Hst Hs Hg. destruct Hst as [cancelled now reqs|now caller hashes|cancelled who hashes|now store|who|now now2 who free|gr sp|now].
    + unfold Register. destruct cancelled; [done|]. destruct (forallb valid_entry reqs); [|done]. cbn.
      destruct (register_fold now reqs s Hs) as (_ & (_ & _ & _ & ->) & _). done.
    + pose proof (Lookup_view now caller hashes s Hs) as H. destruct (GlobalRegistry.Lookup now caller hashes s). destruct H as (_ & (_ & _ & _ & E) & _). cbn. by rewrite E.
    + unfold Unregister. destruct cancelled; [done|]. destruct who as [i|]; [|done]. destruct (has_job (Some i)); [|done].
      pose proof (Unregister_fold i hashes true s Hs) as Hu. destruct (foldl _ (true, s) hashes) as [ok s']. destruct Hu as (_ & (_ & _ & _ & E) & _). cbn. by rewrite E.
    + unfold RegisterStore. repeat case_match; done.
    + pose proof (UnregisterStore_view who s Hs) as H. destruct (UnregisterStore who s). destruct H as (_ & E & _). cbn. by rewrite E.
    + unfold Heartbeat. repeat case_match; done.
    + unfold RegisterKVTransferSpec. repeat case_match; try done. cbn.
      rewrite lookup_insert_ne; [done|]. intros ->. congruence.
    + by destruct (CleanupExpiredEntries_view now s Hs) as (_ & -> & _).
  - unfold RegisterKVTransferSpec. case_bool_decide as Hg; [split; [naive_solver|]; split; [done|]; intros _; split; [done|]; by intros k|].
    destruct (SpecValidationError spec); [split; [naive_solver|]; split; [done|]; intros _; split; [done|]; by intros k|].
    destruct (transfer_specs_ s !! group) as [k|] eqn:E; [|split; [naive_solver|done]].
    destruct (SpecDifference k spec) eqn:Ed; (split; [|split]); cbn [default]; try done.
    + split; [done|]. intros (_ & _ & <-). apply not_false_iff_true in Ed. by rewrite SpecDifference_false in Ed.
    + intros _. split; [done|]. intros ? [= <-]. split; [done|]. intros ->. apply not_false_iff_true in Ed. by rewrite SpecDifference_false in Ed.
    + by apply SpecDifference_false in Ed as ->.
    + intros _. apply SpecDifference_false in Ed as ->. symmetry. by apply insert_id.
Qed.

(** ** A backend's global lookup over the registry *)
Definition misses_of (l : list (string * bool)) : list string :=
  omap (λ hh : string * bool, if hh.2 then None else Some hh.1) l.

Lemma misses_of_all (l : list string) : misses_of (zip l (replicate (length l) false)) = l.
Proof. unfold misses_of. induction l as [|h l IH]; [done|]. cbn. by rewrite IH. Qed.
Lemma sweep_missing options hashes c :
  let '(hits, missing, _) := lookup_sweep options hashes c in missing = misses_of (zip hashes hits).
Proof.
  revert c; induction hashes as [|h rest IH]; intros c; cbn [lookup_sweep]; [done|].
  destruct (lookup_peek options h c).
  - specialize (IH (take_hit options h c)). by destruct (lookup_sweep options rest (take_hit options h c)) as [[hits missing] c'].
  - destruct (lo_enable_interleaved_lookup options); cbn [negb].
    + specialize (IH c). destruct (lookup_sweep options rest c) as [[hits missing] c']. cbn. by rewrite IH.
    + symmetry. apply (misses_of_all (h :: rest)).
Qed.

Lemma assemble_remote options local_id c hits remote :
  let results := lookup_assemble options local_id c hits remote in
  (∀ i h b, results !! i = Some (h, b) → hits !! i = Some (h, false) →
     ∃ k r, misses_of hits !! k = Some h ∧ remote !! k = Some r ∧ b = mkRaidenBlockId r.1 r.2 (-1) REMOTE) ∧
  (∀ h, hits !! length results = Some (h, false) → (∀ r, r ∈ remote → r.1 ≠ local_id) →
     misses_of hits !! length remote = Some h).
Proof.
  cbn zeta. revert remote; induction hits as [|[h t] rest IH]; intros remote; cbn [lookup_assemble]; [by split|]. destruct t.
  - destruct (lookup_peek options h c) as [b|]; [|split; [done|intros h' [=]]].
    destruct (IH remote) as [H1 H2]. split; [|done]. intros [|i] h' b' Hi Ht; [by cbn in Ht|]. by eapply H1.
  - change (misses_of ((h, false) :: rest)) with (h :: misses_of rest).
    destruct remote as [|[rid blk] more]; [split; [done|]; by intros h' [= ->] _|].
    destruct (RaidenId_eqb rid local_id) eqn:Er.
    { split; [done|]. intros h' _ Hno. apply RaidenId_eqb_eq in Er. by destruct (Hno (rid, blk) ltac:(left)). }
    destruct (IH more) as [H1 H2]. split.
    + intros [|i] h' b' Hi Ht; cbn in Hi, Ht; [injection Hi as <- <-; exists 0%nat, (rid, blk); done|].
      destruct (H1 i h' b' Hi Ht) as (k & r & ? & ? & ?). by exists (S k), r.
    + intros h' Hh Hno. cbn. apply H2; [done|]. intros r Hr. apply Hno. by right.
Qed.

(** In an interleaved sweep, a miss is a hash that is not cached. *)
Lemma sweep_false options hashes c i h :
  lo_include_eviction_candidates options && lo_pin_found options = false →
  lo_enable_interleaved_lookup options = true → wf c → pins_room (length hashes) c →
  hashes !! i = Some h → (lookup_sweep options hashes c).1.1 !! i = Some false → lookup_peek options h c = None.
Proof.
  intros Hopt Hint. revert c i; induction hashes as [|h0 rest IH]; intros c i Hwf Hr Hi Hf; [done|]. cbn [lookup_sweep] in Hf.
  destruct (lookup_peek options h0 c) as [b|] eqn:Ep.
  - destruct (take_hit_view options Hopt h0 b (length rest) c Hwf Hr Ep) as (Hw & Hr' & Hv & _ & _ & Hc).
    specialize (IH (take_hit options h0 c)).
    destruct (lookup_sweep options rest (take_hit options h0 c)) as [[hits missing] c'].
    destruct i as [|i]; [done|]. rewrite <- (proj1 (lookup_hit_same options h c _ Hv Hc)). by eapply IH.
  - rewrite Hint in Hf. cbn [negb] in Hf. specialize (IH c). destruct (lookup_sweep options rest c) as [[hits missing] c'].
    destruct i as [|i]; [by injection Hi as <-|]. eapply IH; [done| |done|done].
    intros k. specialize (Hr k). cbn [length] in Hr. lia.
Qed.

(** The answer for the missing hashes names live registrations of others, up to the
    first hash that has none. *)
Lemma registry_answer now id missing g k r :
  index_ok g → RaidenId_empty id = false → (GlobalRegistry.Lookup now id missing g).1 !! k = Some r →
  r.1 ≠ id ∧ ∃ h e, missing !! k = Some h ∧ e ∈ entries g h ∧ expired now (re_expire_time e) = false ∧ r = holder e.
Proof.
  intros Hg Hid Hk. pose proof (Lookup_view now id missing g Hg) as H.
  destruct (GlobalRegistry.Lookup now id missing g) as [remote g']. destruct H as (_ & _ & _ & _ & Hres & _).
  destruct (Hres k r Hk) as (h & e & Hh & Hin & [Hx Ho]%gone_false & ->). split; [by apply Ho|]. by exists h, e.
Qed.
Lemma registry_answer_stop now id missing g h e :
  index_ok g → missing !! length (GlobalRegistry.Lookup now id missing g).1 = Some h → e ∈ entries g h →
  expired now (re_expire_time e) = true ∨ re_raiden_id e = id.
Proof.
  intros Hg Hh He. pose proof (Lookup_view now id missing g Hg) as H.
  destruct (GlobalRegistry.Lookup now id missing g) as [remote g']. destruct H as (_ & _ & _ & _ & _ & Hstop).
  pose proof (Hstop h e Hh He) as Hx. unfold gone in Hx.
  apply orb_true_iff in Hx as [?|[_ ?%RaidenId_eqb_eq]%andb_true_iff]; [by left|by right].
Qed.

(** C24: A global lookup is sound and stops only where it must.  Backed by the registry,
    a store's lookup returns, for a prefix of the asked hashes, either its own cached
    block or a live registration of another store; the first hash it leaves out is
    registered alive by nobody else and, when it interleaves, not cached here. *)
Theorem global_lookup_composed options order now hashes (s : HostOffloadBackend) (g : Registry) :
  lo_enable_global options = true → lo_match_mode options = kPrefix → lo_host_resident_only options = false →
  lo_include_eviction_candidates options = false → hashes ≠ [] →
  wf (lru_cache_ s) → pins_room (length hashes) (lru_cache_ s) → index_ok g →
  has_registry s = true → RaidenId_empty (raiden_id_ s) = false →
  let answer missing := Ok (GlobalRegistry.Lookup now (raiden_id_ s) missing g).1 in
  match HostOffloadBackend.Lookup order answer hashes options s with
  | (Ok results, _) =>
      (∀ i h b, results !! i = Some (h, b) → hashes !! i = Some h ∧
         (values (lru_cache_ s) !! h = Some b ∨
          status b = REMOTE ∧ raiden_id b ≠ raiden_id_ s ∧ ∃ e, e ∈ entries g h ∧
            expired now (re_expire_time e) = false ∧ holder e = (raiden_id b, host_block_id b))) ∧
      (∀ h, hashes !! length results = Some h →
         (lo_enable_interleaved_lookup options = true → values (lru_cache_ s) !! h = None ∨ Contains h (lru_cache_ s) = false) ∧
         ∀ e, e ∈ entries g h → expired now (re_expire_time e) = true ∨ re_raiden_id e = raiden_id_ s)
  | (Err _, _) => False
  end.
Proof.
  intros Hglob Hmode Hhro Hinc Hne Hwf Hr Hg Hreg Hid. cbn zeta. unfold HostOffloadBackend.Lookup.
  rewrite Hglob, Hmode, Hhro, Hinc, (bool_decide_false (hashes = [])) by done. cbn [negb andb].
  rewrite bool_decide_false by done. cbn [andb].
  assert (lo_include_eviction_candidates options && lo_pin_found options = false) as Hopt by (by rewrite Hinc).
  pose proof (lookup_sweep_view options Hopt hashes (lru_cache_ s) Hwf Hr) as Hsw.
  pose proof (sweep_missing options hashes (lru_cache_ s)) as Hms.
  pose proof (λ i h, sweep_false options hashes (lru_cache_ s) i h Hopt) as Hfalse.
  destruct (lookup_sweep options hashes (lru_cache_ s)) as [[hits missing] c].
  destruct Hsw as (Hlen & _ & Hv & _ & _ & Hc & Hsome). rewrite Hreg, andb_true_r. cbn [fst] in Hfalse.
  set (remote := if negb _ then _ else _).
  assert (remote = (GlobalRegistry.Lookup now (raiden_id_ s) missing g).1) as Er.
  { unfold remote. case_bool_decide as Hm; [by rewrite Hm|done]. }
  unfold lookup_finish. cbn [raiden_id_ set_cache lru_cache_].
  destruct (lookup_assemble_view options (raiden_id_ s) c (zip hashes hits) remote) as (H1 & H2 & H3 & H4 & H5).
  destruct (assemble_remote options (raiden_id_ s) c (zip hashes hits) remote) as [H6 H7].
  set (results := lookup_assemble _ _ _ _ _) in *. rewrite <- Hms in H6, H7. rewrite fst_zip in H1 by lia.
  assert (∀ h, lookup_peek options h c = if Contains h (lru_cache_ s) then values (lru_cache_ s) !! h else None) as Hpk.
  { intros h. unfold lookup_peek. by rewrite Hinc, Peek_values, Hv, Hc. }
  split.
  - intros i h b Hi. assert (results.*1 !! i = Some h) as Hh by (by rewrite list_lookup_fmap, Hi).
    rewrite H1 in Hh. apply lookup_take_Some in Hh as [Hh _]. split; [done|].
    destruct (lookup_lt_is_Some_2 hits i) as [t Ht]; [apply lookup_lt_Some in Hh; lia|].
    assert (zip hashes hits !! i = Some (h, t)) as Hz by (apply lookup_zip_with_Some; eauto). destruct t.
    + left. pose proof (H4 i h b Hi Hz) as Hb. rewrite Hpk in Hb. by case_match.
    + right. destruct (H6 i h b Hi Hz) as (k & r & Hk & Hrk & ->). rewrite Er in Hrk.
      destruct (registry_answer _ _ _ _ _ _ Hg Hid Hrk) as (Hro & h' & e & Hh' & He & Hx & ->).
      split; [done|]. split; [done|]. exists e. by simplify_eq.
  - intros h Hh. destruct (lookup_lt_is_Some_2 hits (length results)) as [t Ht]; [apply lookup_lt_Some in Hh; lia|].
    assert (zip hashes hits !! length results = Some (h, t)) as Hz by (apply lookup_zip_with_Some; eauto). destruct t.
    + exfalso. destruct (Hsome _ _ Hh Ht) as [b Hb]. pose proof (H3 h Hz) as Hn.
      rewrite Hpk in Hn. unfold lookup_peek in Hb. rewrite Hinc, Peek_values in Hb. congruence.
    + split.
      * intros Hint. pose proof (Hfalse _ _ Hint Hwf Hr Hh Ht) as Hn. unfold lookup_peek in Hn. rewrite Hinc, Peek_values in Hn.
        destruct (Contains h (lru_cache_ s)); [by left|by right].
      * intros e He. eapply registry_answer_stop; [done| |done]. rewrite <- Er. apply H7; [done|].
        intros r [k Hk]%list_elem_of_lookup. rewrite Er in Hk. by apply (registry_answer _ _ _ _ _ _ Hg Hid) in Hk as [? _].
Qed.

(** ** Two stores, A and B *)
Definition id_a : RaidenId := mkRaidenId "A" "" "" 0.
Definition id_b : RaidenId := mkRaidenId "B" "" "" 0.
Definition req_ex (who : RaidenId) (hash : string) (blk ttl : Z) : RegisterEntry :=
  mkRegisterEntry hash (Some (mkBlockMetadata (Some who) blk)) ttl.
Definition empty_ex : Registry := GlobalRegistryServiceImpl_new InfiniteDuration 0.
(** B registered x and y, A registered y. *)
Definition service_ex : Registry :=
  (Register false 0 [req_ex id_b "x" 5 0; req_ex id_b "y" 6 0; req_ex id_a "y" 7 0] empty_ex).2.

Lemma service_ex_steps : rtc registry_step empty_ex service_ex.
Proof. apply rtc_once, rs_register. Qed.
Lemma service_ex_ok : index_ok service_ex.
Proof. eapply registry_reachable_ok, service_ex_steps. Qed.

Lemma registry_index_exact_witness :
  ("x" ∈ owned service_ex id_a ↔ ∃ e, e ∈ entries service_ex "x" ∧ re_raiden_id e = id_a) ∧
  ("x" ∈ owned service_ex id_b ↔ ∃ e, e ∈ entries service_ex "x" ∧ re_raiden_id e = id_b).
Proof.
  destruct (registry_index_exact InfiniteDuration 0 service_ex service_ex_steps) as [H _]. split; apply H.
Defined.

Lemma registry_Lookup_spec_witness :
  let '(results, _) := GlobalRegistry.Lookup 1 id_a ["x"; "y"; "z"] service_ex in
  results = [(id_b, 5); (id_b, 6)] ∧ ∀ e, e ∈ entries service_ex "z" → expired 1 (re_expire_time e) = true ∨ re_raiden_id e = id_a.
Proof.
  pose proof (registry_Lookup_spec 1 id_a ["x"; "y"; "z"] service_ex service_ex_ok) as H.
  assert ((GlobalRegistry.Lookup 1 id_a ["x"; "y"; "z"] service_ex).1 = [(id_b, 5); (id_b, 6)]) as E by (vm_compute; reflexivity).
  destruct (GlobalRegistry.Lookup 1 id_a ["x"; "y"; "z"] service_ex) as [results s']. cbn in E. subst results.
  destruct H as (_ & Hstop & _). split; [reflexivity|]. intros e. by apply Hstop.
Defined.

Lemma lookup_round_robin_witness :
  lookups 1 (mkRaidenId "" "" "" 0) "y" 2 service_ex ≡ₚ [Some (id_b, 6); Some (id_a, 7)].
Proof.
  apply (lookup_round_robin 1 (mkRaidenId "" "" "" 0) "y" service_ex
    [mkRegistryEntry id_b 6 InfiniteFuture; mkRegistryEntry id_a 7 InfiniteFuture]); [vm_compute; reflexivity|discriminate|].
  intros e [->|[->|[]%not_elem_of_nil]%elem_of_cons]%elem_of_cons; reflexivity.
Defined.

Lemma register_lookup_roundtrip_witness :
  length (GlobalRegistry.Lookup 5 id_a ["x"; "w"] (Register false 0 [req_ex id_b "x" 5 0; req_ex id_b "w" 6 1] empty_ex).2).1 = 2%nat.
Proof.
  pose proof (register_lookup_roundtrip 0 5 [req_ex id_b "x" 5 0; req_ex id_b "w" 6 1] id_b id_a empty_ex) as H.
  apply H.
  - apply new_index_ok.
  - apply (NoDup_cons_2 "x"); [|apply NoDup_singleton]. intros ?%list_elem_of_singleton. discriminate.
  - intros q [->|[->|[]%not_elem_of_nil]%elem_of_cons]%elem_of_cons; reflexivity.
  - discriminate.
  - intros q [->|[->|[]%not_elem_of_nil]%elem_of_cons]%elem_of_cons; reflexivity.
Defined.

Lemma PullOwned_spec_witness :
  let '(st, sent) := PullOwned (Some id_b) elements (λ _, (1, service_ex)) (λ _, true) service_ex in
  st = OkStatus ∧ mkPulled "x" 5 0 ∈ concat sent.
Proof.
  pose proof (PullOwned_spec id_b elements 1 (λ _, true) service_ex service_ex_ok) as H.
  destruct (PullOwned (Some id_b) elements (λ _, (1, service_ex)) (λ _, true) service_ex) as [st sent].
  destruct H as (Hst & _ & _ & Hel & _); [discriminate|reflexivity|reflexivity|reflexivity|].
  split; [exact Hst|]. apply Hel. exists (mkRegistryEntry id_b 5 InfiniteFuture). split; [|split; [reflexivity|split; [reflexivity|split; reflexivity]]].
  apply list_elem_of_In. vm_compute. left. reflexivity.
Defined.

(** A on tier 0, B on tier 2, in one group. *)
Definition store_ex (tier : Z) : StoreRecord := mkStoreRecord "addr" "ctl" InfiniteFuture InfiniteDuration "g" tier 0.
Definition stores_ex : Registry := set_stores (<[id_b := store_ex 2]> {[id_a := store_ex 0]}) service_ex.

Lemma GetPlacementTargets_spec_witness :
  ∃ targets, GetPlacementTargets 1 (Some id_a) 0 (map_to_list (store_registry_ stores_ex)) stores_ex = Ok targets ∧ targets ≠ [].
Proof.
  pose proof (GetPlacementTargets_spec 1 id_a 0 (map_to_list (store_registry_ stores_ex)) stores_ex) as H.
  assert (live_store 1 id_a stores_ex = Some (store_ex 0)) as El by reflexivity.
  destruct (GetPlacementTargets 1 (Some id_a) 0 (map_to_list (store_registry_ stores_ex)) stores_ex) as [targets|c].
  - exists targets. split; [reflexivity|]. destruct H as (caller & Ec & _ & _ & _ & _ & _ & Hne); [reflexivity|discriminate| |].
    + intros i r. cbn. intros [[_ <-]|[_ [_ <-]%lookup_singleton_Some]]%lookup_insert_Some; vm_compute; discriminate.
    + apply Hne. exists id_b, (store_ex 2). rewrite El in Ec. injection Ec as <-.
      split; [apply lookup_insert_eq|]. split; [reflexivity|]. split; reflexivity.
  - exfalso. destruct H as [[_ H]|(_ & caller & Ec & Hg)]; [reflexivity|discriminate| | |].
    + intros i r. cbn. intros [[_ <-]|[_ [_ <-]%lookup_singleton_Some]]%lookup_insert_Some; vm_compute; discriminate.
    + rewrite El in H. discriminate.
    + rewrite El in Ec. injection Ec as <-. discriminate.
Defined.

Lemma lost_store_purged_witness :
  let s2 := (UnregisterStore (Some id_b) stores_ex).2 in
  store_registry_ s2 !! id_b = None ∧ ∀ h e, e ∈ entries s2 h → re_raiden_id e ≠ id_b.
Proof.
  pose proof (lost_store_purged 1 id_b stores_ex (index_ok_stores _ _ service_ex_ok)) as H. cbn zeta in *.
  assert (is_Some (store_registry_ stores_ex !! id_b)) as Hb by (eexists; apply lookup_insert_eq).
  destruct (UnregisterStore (Some id_b) stores_ex) as [ok s2].
  destruct H as (_ & _ & Hok & H); [discriminate|]. destruct (H (proj2 Hok Hb)) as [Es He]. cbn. split.
  - rewrite Es. apply lookup_delete_eq.
  - intros h e Hin. by apply He in Hin as [_ ?].
Defined.

(** A's backend holds y (block 0) and asks for x and y. *)
Definition backend_a : HostOffloadBackend :=
  mkBackend (Put "y" (host_ex 0) (LRUCache_new 2 : LRUCache string RaidenBlockId)).2 None 0 id_a true.
Lemma backend_a_wf : wf (lru_cache_ backend_a) ∧ pins_room 2 (lru_cache_ backend_a).
Proof.
  destruct (Put_view "y" (host_ex 0) (LRUCache_new 2 : LRUCache string RaidenBlockId) (LRUCache_new_wf 2)) as (Hw & _ & Hp & _).
  split; [exact Hw|]. intros k. cbn [lru_cache_ backend_a]. rewrite Hp. vm_compute. discriminate.
Qed.
Lemma global_lookup_composed_witness :
  ∃ results t, HostOffloadBackend.Lookup [] (λ missing, Ok (GlobalRegistry.Lookup 1 id_a missing service_ex).1) ["x"; "y"] global_ex backend_a
    = (Ok results, t) ∧
  ∀ i h b, results !! i = Some (h, b) → values (lru_cache_ backend_a) !! h = Some b ∨ status b = REMOTE.
Proof.
  pose proof (global_lookup_composed global_ex [] 1 ["x"; "y"] backend_a service_ex eq_refl eq_refl eq_refl eq_refl) as H.
  specialize (H ltac:(discriminate) (proj1 backend_a_wf) (proj2 backend_a_wf) service_ex_ok eq_refl eq_refl). cbn zeta in H.
  change (raiden_id_ backend_a) with id_a in H.
  destruct (HostOffloadBackend.Lookup _ _ _ _ _) as [[results|c] t]; [|by destruct H].
  exists results, t. split; [reflexivity|]. destruct H as [H _]. intros i h b Hi. destruct (H i h b Hi) as [_ [?|[? _]]]; [by left|by right].
Defined.

(** A lookup that does not interleave asks the registry also for blocks the caller
    holds, and the registry erases the caller's registrations of what it is asked. *)
Lemma lookup_unregisters_held_block :
  let options := mkLookupOptions true false true kPrefix false false in
  let '(_, missing, _) := lookup_sweep options ["x"; "y"] (lru_cache_ backend_a) in
  let g := (GlobalRegistry.Lookup 1 id_a missing service_ex).2 in
  values (lru_cache_ backend_a) !! "y" = Some (host_ex 0) ∧
  id_a ∈ owners service_ex "y" ∧ id_a ∉ owners g "y".
Proof.
  vm_compute. split; [reflexivity|]. split; [right; left|].
  intros [?|[]%not_elem_of_nil]%elem_of_cons. discriminate.
Qed.
