(* ===== verification/KvCacheStore.v ===== *)
(** * KVCacheStore: saves, loads and evictions over the host backend
    (src/tpu_sync/kv_cache/kv_cache_store.{h,cc}, and the transfers of
    src/tpu_sync/kv_cache/host_offload_backend.cc)

    The store composes tier 0 (the host backend) with the controller's block pool and
    the trackers of asynchronous operations.  An operation runs in segments: what a
    method does under [mutex_], each call it makes on the backend and on the pool
    outside it, and each completion callback.  A segment is one definition; the order
    of segments and what runs between them is the business of the ledger.  The store
    has a controller, as every store that its constructors accept; answers of devices,
    peers, the registry and the secondary tier are arguments.  Telemetry and the
    wake-ups of the monitor thread are not modelled. *)

From S2P Require Import Prelude RaidenTypes LogicalBlockManager LruCache KvCacheMetadata BlockTracker.
From S2P Require Import HostOffloadBackend BackendMirror.

(** ** State *)
Inductive SaveOwner := kApplication | kSweep.

(** One remote write on the source side; times are ticks. *)
Record RemoteWriteState := mkRemoteWrite {
  rw_key : Z;
  rw_dst : RaidenId;
  rw_operation_id : Z;
  rw_hashes : list string;
  rw_hold_expiry : Z;
  rw_owner : SaveOwner;
}.

Record KVCacheStore := mkStore {
  tier0 : HostOffloadBackend;
  pool : LogicalBlockManager;
  save_tracker_ : BlockTracker;
  load_tracker_ : BlockTracker;
  sweep_tracker_ : BlockTracker;
  active_remote_writes_ : gmap Z RemoteWriteState;
  next_op_key_ : Z;
  in_flight_blocks : Z;
  max_in_flight_blocks : Z;
  registry_client_ : bool;
  has_secondary : bool;
}.
Implicit Types (st : KVCacheStore) (hash : string) (hashes : list string).

Definition with_tier0 (b : HostOffloadBackend) st : KVCacheStore :=
  mkStore b (pool st) (save_tracker_ st) (load_tracker_ st) (sweep_tracker_ st) (active_remote_writes_ st)
    (next_op_key_ st) (in_flight_blocks st) (max_in_flight_blocks st) (registry_client_ st) (has_secondary st).
Definition with_pool (p : LogicalBlockManager) st : KVCacheStore :=
  mkStore (tier0 st) p (save_tracker_ st) (load_tracker_ st) (sweep_tracker_ st) (active_remote_writes_ st)
    (next_op_key_ st) (in_flight_blocks st) (max_in_flight_blocks st) (registry_client_ st) (has_secondary st).
Definition with_save (t : BlockTracker) st : KVCacheStore :=
  mkStore (tier0 st) (pool st) t (load_tracker_ st) (sweep_tracker_ st) (active_remote_writes_ st)
    (next_op_key_ st) (in_flight_blocks st) (max_in_flight_blocks st) (registry_client_ st) (has_secondary st).
Definition with_load (t : BlockTracker) st : KVCacheStore :=
  mkStore (tier0 st) (pool st) (save_tracker_ st) t (sweep_tracker_ st) (active_remote_writes_ st)
    (next_op_key_ st) (in_flight_blocks st) (max_in_flight_blocks st) (registry_client_ st) (has_secondary st).
Definition with_sweep (t : BlockTracker) st : KVCacheStore :=
  mkStore (tier0 st) (pool st) (save_tracker_ st) (load_tracker_ st) t (active_remote_writes_ st)
    (next_op_key_ st) (in_flight_blocks st) (max_in_flight_blocks st) (registry_client_ st) (has_secondary st).
Definition with_writes (w : gmap Z RemoteWriteState) (k : Z) st : KVCacheStore :=
  mkStore (tier0 st) (pool st) (save_tracker_ st) (load_tracker_ st) (sweep_tracker_ st) w
    k (in_flight_blocks st) (max_in_flight_blocks st) (registry_client_ st) (has_secondary st).
Definition with_in_flight (n : Z) st : KVCacheStore :=
  mkStore (tier0 st) (pool st) (save_tracker_ st) (load_tracker_ st) (sweep_tracker_ st) (active_remote_writes_ st)
    (next_op_key_ st) n (max_in_flight_blocks st) (registry_client_ st) (has_secondary st).

(** The members as the constructor leaves them, over a backend and a pool. *)
Definition KVCacheStore_new (b : HostOffloadBackend) (p : LogicalBlockManager) (max_in_flight : Z) (registry secondary : bool)
    : KVCacheStore :=
  mkStore b p BlockTracker_new BlockTracker_new BlockTracker_new ∅ 1 0 max_in_flight registry secondary.

Abbreviation cache st := (lru_cache_ (tier0 st)).
(** The registry's answer to the hashes a lookup misses. *)
Abbreviation RegistryAnswer := (list string → StatusOr (list (RaidenId * Z))).

(** [LookupOptions] as its defaults and presets make it. *)
Definition default_lookup : LookupOptions := mkLookupOptions true true false kPrefix false false.
Definition local_lookup (pin_found : bool) : LookupOptions :=
  mkLookupOptions false true pin_found kPrefix false false.
Definition HostResidentSubset : LookupOptions := mkLookupOptions false false false kSubset true true.
Definition SnapshotHostResident : LookupOptions := mkLookupOptions false false false kSubset true false.
Definition PinPresentHostResident : LookupOptions := mkLookupOptions false false true kSubset true false.

Definition tier0_lookup (order : list string) (registry : RegistryAnswer) hashes (options : LookupOptions) st
    : StatusOr BlockSliceList * KVCacheStore :=
  let '(r, b) := HostOffloadBackend.Lookup order registry hashes options (tier0 st) in (r, with_tier0 b st).

(** ** Application calls on the index *)

(** Secondary tiers keep no pins, so releasing them does nothing. *)
Definition Release hashes st : KVCacheStore := with_tier0 (HostOffloadBackend.Release hashes (tier0 st)) st.
Definition GetPinCount hash st : Z := LruCache.GetPinCount hash (cache st).

Definition Insert hashes (slices : list RaidenBlockId) st : Status * KVCacheStore :=
  if existsb (λ b, bool_decide (status b = REMOTE)) slices then (Err kInvalidArgument, st)
  else
    let '(ok, _, b) := HostOffloadBackend.Insert hashes slices kInsertAndPin (tier0 st) in
    let st := with_tier0 b st in
    if ok then (OkStatus, st) else (Err kResourceExhausted, st).

(** The cascade of a prefix lookup over the tiers above 0: [None] is a null backend,
    a function the tier's answer. *)
Fixpoint lookup_tiers (pin_found : bool) (tiers : list (option (list string → StatusOr BlockSliceList)))
    (hashes : list string) (acc : BlockSliceList) st : StatusOr BlockSliceList * KVCacheStore :=
  match tiers with
  | [] => (Ok acc, st)
  | tier :: rest =>
      if (length hashes <=? length acc)%nat then (Ok acc, st)
      else match tier with
           | None => lookup_tiers pin_found rest hashes acc st
           | Some answer =>
               match answer (drop (length acc) hashes) with
               | Ok found => lookup_tiers pin_found rest hashes (acc ++ found) st
               | Err c =>
                   if negb (bool_decide (acc = [])) && bool_decide (c = kNotFound) then (Ok acc, st)
                   else (Err c, if pin_found && negb (bool_decide (acc = [])) then Release acc.*1 st else st)
               end
           end
  end.

Definition clamp_lookup (pin_found : bool) (found : BlockSliceList) st : BlockSliceList * KVCacheStore :=
  let cap := capacity_ (cache st) in
  if (0 <? cap)%nat && (cap <? length found)%nat
  then (take cap found, if pin_found then Release (drop cap found).*1 st else st)
  else (found, st).

(** The lookup after tier 0 has answered: the other tiers, then the clamp. *)
Definition Lookup_answer (pin_found : bool) (tiers : list (option (list string → StatusOr BlockSliceList))) hashes
    (found : BlockSliceList) st : StatusOr BlockSliceList * KVCacheStore :=
  match lookup_tiers pin_found tiers hashes found st with
  | (Err c, st) => (Err c, st)
  | (Ok found, st) => let '(found, st) := clamp_lookup pin_found found st in (Ok found, st)
  end.
Definition Lookup (order : list string) (registry : RegistryAnswer)
    (tiers : list (option (list string → StatusOr BlockSliceList))) hashes (options : LookupOptions) st
    : StatusOr BlockSliceList * KVCacheStore :=
  if lo_host_resident_only options || bool_decide (lo_match_mode options = kSubset)
  then tier0_lookup order registry hashes options st
  else if bool_decide (hashes = []) then (Ok [], st)
  else match tier0_lookup order registry hashes options st with
       | (Err c, st) => (Err c, st)
       | (Ok found, st) => Lookup_answer (lo_pin_found options) tiers hashes found st
       end.

(** The source side of a peer's read lease. *)
Definition ValidateAndPinHostBlocks (order : list string) (registry : RegistryAnswer) hashes st
    : StatusOr (list Z) * KVCacheStore :=
  match tier0_lookup order registry hashes (local_lookup true) st with
  | (Err c, st) => (Err c, st)
  | (Ok slices, st) =>
      if (length slices <? length hashes)%nat then (Err kNotFound, Release (take (length slices) hashes) st)
      else if forallb (λ hb, IsHostResidentStatus (status hb.2)) slices
           then (Ok ((λ hb, host_block_id hb.2) <$> slices), st)
           else (Err kFailedPrecondition, Release hashes st)
  end.
Definition UnpinHostBlocks hashes st : KVCacheStore := Release hashes st.

Definition RecoverFromLocalManifest st : StatusOr nat * KVCacheStore :=
  if (0 <? cache_size (cache st))%nat then (Err kFailedPrecondition, st)
  else
    let '(r, b, p) := HostOffloadBackend.RecoverFromLocalManifest (tier0 st) (pool st) in
    (r, with_pool p (with_tier0 b st)).

(** ** Host blocks *)
Definition DeallocateBlockIds (ids : list Z) st : KVCacheStore := with_pool (Deallocate ids (pool st)).2 st.
(** [RaidenController::AllocateBlockIds]. *)
Definition controller_AllocateBlockIds (n : Z) st : StatusOr (list Z) * KVCacheStore :=
  let '(r, p) := Allocate n true (pool st) in (r, with_pool p st).

(** The eviction's two calls: on the backend, then on the pool. *)
Definition Evict_delete hashes st : Deleted * KVCacheStore :=
  let '(d, b) := Delete hashes true (tier0 st) in (d, with_tier0 b st).
(** Number of blocks freed and the hashes the eviction callback is told. *)
Definition Evict hashes st : nat * list string * KVCacheStore :=
  if bool_decide (hashes = []) then (0%nat, [], st)
  else
    let '(d, st) := Evict_delete hashes st in
    if bool_decide (del_host_blocks d = []) then (0%nat, [], st)
    else (length (del_host_blocks d), del_hashes d, DeallocateBlockIds (del_host_blocks d) st).

(** The segment of AllocateBlockIds under [mutex_]: the keys to evict. *)
Definition AllocateBlockIds_pick (needed : Z) st : StatusOr (list string) :=
  let to_free := needed - num_free_blocks (pool st) in
  if 0 <? to_free then
    let keys := GetEvictableKeys (Z.to_nat to_free) (cache st) in
    if Z.of_nat (length keys) <? to_free then Err kResourceExhausted else Ok keys
  else Ok [].
(** AllocateBlockIds with nothing running in between. *)
Definition AllocateBlockIds (needed : Z) st : StatusOr (list Z) * KVCacheStore :=
  match AllocateBlockIds_pick needed st with
  | Err c => (Err c, st)
  | Ok keys => controller_AllocateBlockIds needed (Evict keys st).2
  end.

(** ** Local save: device memory to host memory *)
Definition save_check st (hb : string * RaidenBlockId) : StatusOr Z :=
  let '(hash, existing) := hb in
  if negb (bool_decide (status existing = HBM)) then Err kFailedPrecondition
  else if device_block_id existing =? -1 then Err kFailedPrecondition
  else if GetPinCount hash st <=? 0 then Err kFailedPrecondition
  else if IsPending hash (save_tracker_ st) || IsPending hash (sweep_tracker_ st) then Err kFailedPrecondition
  else Ok (device_block_id existing).
(** The checks on the lookup's answer and the reservation: the device blocks to copy
    from.  Reservations exclude each other by [mutex_], so a hash found not pending stays
    so until it is reserved; the checks that pass are the checks made at that moment. *)
Definition SaveLocal_admit hashes (slices : BlockSliceList) st : StatusOr (list Z) * KVCacheStore :=
  if (length slices <? length hashes)%nat then (Err kNotFound, st)
  else match mapM (save_check st) (zip hashes slices.*2) with
       | Err c => (Err c, st)
       | Ok devs => (Ok devs, with_save (AddPending hashes (save_tracker_ st)) st)
       end.
(** The part under [mutex_] with nothing running in between.  Completions of earlier
    saves do not take [mutex_]: they may run between the lookup and the checks. *)
Definition SaveLocal_reserve (order : list string) (registry : RegistryAnswer) hashes st
    : StatusOr (list Z) * KVCacheStore :=
  match tier0_lookup order registry hashes default_lookup st with
  | (Err c, st) => (Err c, st)
  | (Ok slices, st) => SaveLocal_admit hashes slices st
  end.
(** After the allocation: a failure takes the reservation back. *)
Definition SaveLocal_allocated hashes (host_blocks : StatusOr (list Z)) st : StatusOr (list Z) * KVCacheStore :=
  match host_blocks with
  | Err c => (Err c, with_save (RemovePending hashes (save_tracker_ st)) st)
  | Ok ids => (Ok ids, st)
  end.

(** What a finished save writes for one hash. *)
Definition saved_slice (b : HostOffloadBackend) hash (host device : Z) : RaidenBlockId :=
  match Peek hash (lru_cache_ b) with
  | Some existing => mkRaidenBlockId (raiden_id existing) host device HOST_AND_HBM
  | None => mkRaidenBlockId (raiden_id_ b) host device HOST_AND_HBM
  end.
Definition saved_slices (b : HostOffloadBackend) hashes (hosts devices : list Z) : list RaidenBlockId :=
  zip_with (λ hash hd, saved_slice b hash hd.1 hd.2) hashes (zip hosts devices).
(** The best-effort insertion the completions make. *)
Definition update_entries hashes (slices : list RaidenBlockId) st : KVCacheStore :=
  with_tier0 (HostOffloadBackend.Insert hashes slices kBestEffortUpdate (tier0 st)).2 st.
(** HostOffloadBackend::Save's completion; [ok] is the transfer's status. *)
Definition Save_complete (ok : bool) hashes (devices hosts : list Z) st : KVCacheStore :=
  if ok then
    let st := update_entries hashes (saved_slices (tier0 st) hashes hosts devices) st in
    with_save (MarkDone hashes (save_tracker_ st)) st
  else
    let st := DeallocateBlockIds hosts st in
    with_save (MarkFailed hashes (save_tracker_ st)) st.

(** The publication of a finished save: the blocks now waiting on the registry, or
    none and the caller's pin dropped. *)
Definition Save_publish hashes st : option Z * KVCacheStore :=
  let n := Z.of_nat (length hashes) in
  if registry_client_ st && negb (bool_decide (hashes = [])) then
    if u64 (in_flight_blocks st + n) <=? max_in_flight_blocks st
    then (Some n, with_in_flight (u64 (in_flight_blocks st + n)) st)
    else (None, Release hashes st)
  else (None, Release hashes st).
(** The registry has answered, whatever it said. *)
Definition WriteThrough_complete hashes (n : Z) st : KVCacheStore :=
  Release hashes (with_in_flight (u64 (in_flight_blocks st - n)) st).

(** The same save when a secondary tier offloads the blocks too. *)
Definition SecondarySave_complete (ok : bool) hashes (devices hosts : list Z) st : KVCacheStore :=
  if ok then
    let slices := zip_with (λ h d, mkRaidenBlockId (raiden_id_ (tier0 st)) h d HOST_AND_HBM) hosts devices in
    let st := if bool_decide (hashes = []) then st else update_entries hashes slices st in
    with_save (MarkDone hashes (save_tracker_ st)) st
  else
    let st := DeallocateBlockIds hosts st in
    Release hashes (with_save (MarkFailed hashes (save_tracker_ st)) st).

(** ** Load: host memory to device memory *)
Definition load_check st (hb : string * RaidenBlockId) : Status :=
  let '(hash, existing) := hb in
  if bool_decide (status existing = REMOTE) then Err kInvalidArgument
  else if GetPinCount hash st <=? 0 then Err kFailedPrecondition
  else if IsPending hash (load_tracker_ st) then Err kFailedPrecondition
  else if negb (IsHostResidentStatus (status existing)) then Err kFailedPrecondition
  else if host_block_id existing =? -1 then Err kFailedPrecondition
  else OkStatus.
(** Whether a transfer is to be launched. *)
Definition Load_reserve (order : list string) (registry : RegistryAnswer) hashes (devices : list Z) st
    : StatusOr bool * KVCacheStore :=
  if negb (length hashes =? length devices)%nat then (Err kInvalidArgument, st)
  else if bool_decide (hashes = []) then (Ok false, st)
  else match tier0_lookup order registry hashes default_lookup st with
       | (Err c, st) => (Err c, st)
       | (Ok slices, st) =>
           if (length slices <? length hashes)%nat then (Err kNotFound, st)
           else match mapM (load_check st) (zip hashes slices.*2) with
                | Err c => (Err c, st)
                | Ok _ => (Ok true, with_load (AddPending hashes (load_tracker_ st)) st)
                end
       end.

Definition load_slice_check st (hb : string * RaidenBlockId) : Status :=
  let '(hash, existing) := hb in
  if IsPending hash (load_tracker_ st) then Err kFailedPrecondition
  else if GetPinCount hash st <=? 0 then Err kFailedPrecondition
  else if negb (IsHostResidentStatus (status existing)) then Err kFailedPrecondition
  else if host_block_id existing =? -1 then Err kFailedPrecondition
  else OkStatus.

(** Which source a batch of slices loads from. *)
Inductive LoadSource := FromHost | FromElsewhere.
Definition Load_fork hashes (slices : list RaidenBlockId) (devices : list Z) : StatusOr (option LoadSource) :=
  if negb (length hashes =? length slices)%nat || negb (length slices =? length devices)%nat
  then Err kInvalidArgument
  else if bool_decide (hashes = []) then Ok None
  else
    let num_local := length (filter (λ b, IsHostResidentStatus (status b) = true) slices) in
    if (num_local =? 0)%nat then Ok (Some FromElsewhere)
    else if negb (num_local =? length slices)%nat then Err kInvalidArgument
    else Ok (Some FromHost).
Definition LoadSlices_reserve hashes (slices : list RaidenBlockId) st : Status * KVCacheStore :=
  match mapM (load_slice_check st) (zip hashes slices) with
  | Err c => (Err c, st)
  | Ok _ => (OkStatus, with_load (AddPending hashes (load_tracker_ st)) st)
  end.

(** HostOffloadBackend::LoadLocalHostBlocks up to the transfer: its source blocks. *)
Definition local_source (b : HostOffloadBackend) hash : StatusOr Z :=
  match Peek hash (lru_cache_ b) with
  | None => Err kNotFound
  | Some e =>
      if negb (IsHostResidentStatus (status e)) then Err kFailedPrecondition
      else if host_block_id e =? -1 then Err kFailedPrecondition
      else Ok (host_block_id e)
  end.
Definition slice_source (b : RaidenBlockId) : StatusOr Z :=
  if host_block_id b =? -1 then Err kFailedPrecondition else Ok (host_block_id b).
Definition LoadLocal_start hashes (slices : list RaidenBlockId) st : StatusOr (list Z) * KVCacheStore :=
  let sources :=
    if negb (bool_decide (slices = [])) then
      if negb (length slices =? length hashes)%nat then Err kInvalidArgument else mapM slice_source slices
    else mapM (local_source (tier0 st)) hashes in
  match sources with
  | Err c => (Err c, with_load (MarkFailed hashes (load_tracker_ st)) st)
  | Ok ids => (Ok ids, st)
  end.
(** HostOffloadBackend::Load of a local batch. *)
Definition Load_dispatch hashes (devices : list Z) (slices : list RaidenBlockId) st : StatusOr (list Z) * KVCacheStore :=
  if bool_decide (hashes = []) then (Ok [], st)
  else if negb (length devices =? length hashes)%nat
       then (Err kInvalidArgument, with_load (MarkFailed hashes (load_tracker_ st)) st)
  else LoadLocal_start hashes slices st.

(** The completion: the entries still there are on the device too, and their pins
    are consumed. *)
Definition loaded_slice (b : HostOffloadBackend) (hd : string * Z) : option (string * RaidenBlockId) :=
  (λ e, (hd.1, mkRaidenBlockId (raiden_id e) (host_block_id e) hd.2 HOST_AND_HBM)) <$> Peek hd.1 (lru_cache_ b).
Definition LoadLocal_complete (ok : bool) hashes (devices : list Z) st : KVCacheStore :=
  if ok then
    let updates := omap (loaded_slice (tier0 st)) (zip hashes devices) in
    let st := if bool_decide (updates = []) then st
              else Release updates.*1 (update_entries updates.*1 updates.*2 st) in
    with_load (MarkDone hashes (load_tracker_ st)) st
  else with_load (MarkFailed hashes (load_tracker_ st)) st.

(** ** Reads of blocks that are elsewhere *)
Record ReadGroups := mkReadGroups {
  peer_id : option RaidenId;
  peer_group : list (string * Z);
  storage_group : list (string * Z);
}.
(** Routing by status, with every validation error. *)
Fixpoint route_reads (local_id : RaidenId) (seen : list string) (g : ReadGroups)
    (reads : list (string * (RaidenBlockId * Z))) : StatusOr ReadGroups :=
  match reads with
  | [] => Ok g
  | (hash, (slice, device)) :: rest =>
      if bool_decide (hash ∈ seen) then Err kInvalidArgument
      else match status slice with
           | REMOTE =>
               if RaidenId_empty (raiden_id slice) || RaidenId_eqb (raiden_id slice) local_id then Err kInvalidArgument
               else match peer_id g with
                    | Some p =>
                        if RaidenId_eqb (raiden_id slice) p
                        then route_reads local_id (seen ++ [hash])
                               (mkReadGroups (Some p) (peer_group g ++ [(hash, device)]) (storage_group g)) rest
                        else Err kInvalidArgument
                    | None =>
                        route_reads local_id (seen ++ [hash])
                          (mkReadGroups (Some (raiden_id slice)) (peer_group g ++ [(hash, device)]) (storage_group g)) rest
                    end
           | SHARED_STORAGE =>
               route_reads local_id (seen ++ [hash])
                 (mkReadGroups (peer_id g) (peer_group g) (storage_group g ++ [(hash, device)])) rest
           | _ => Err kInvalidArgument
           end
  end.
(** ReadRemote up to the launches: the groups to launch, reserved as a whole. *)
Definition ReadRemote_reserve hashes (slices : list RaidenBlockId) (devices : list Z) st
    : StatusOr ReadGroups * KVCacheStore :=
  if negb (length hashes =? length slices)%nat || negb (length slices =? length devices)%nat
  then (Err kInvalidArgument, st)
  else if bool_decide (hashes = []) then (Ok (mkReadGroups None [] []), st)
  else match route_reads (raiden_id_ (tier0 st)) [] (mkReadGroups None [] []) (zip hashes (zip slices devices)) with
       | Err c => (Err c, st)
       | Ok g =>
           if negb (bool_decide (storage_group g = [])) && negb (has_secondary st) then (Err kNotFound, st)
           else if existsb (λ hash, IsPending hash (load_tracker_ st)) hashes then (Err kFailedPrecondition, st)
           else (Ok g, with_load (AddPending hashes (load_tracker_ st)) st)
       end.

(** HostOffloadBackend::LoadRemoteBlocks: staging from free blocks only; [client] is
    the resolution of the peer. *)
Definition LoadRemote_start (client : Status) hashes st : StatusOr (list Z) * KVCacheStore :=
  match client with
  | Err c => (Err c, with_load (MarkFailed hashes (load_tracker_ st)) st)
  | Ok _ =>
      match controller_AllocateBlockIds (Z.of_nat (length hashes)) st with
      | (Err c, st) => (Err c, with_load (MarkFailed hashes (load_tracker_ st)) st)
      | (Ok ids, st) => (Ok ids, st)
      end
  end.
(** The peer's answer: the hashes it failed, or an error of the call.  [true] when the
    copy to the device starts. *)
Definition LoadRemote_fetched (response : StatusOr (list string)) hashes (hosts : list Z) st : bool * KVCacheStore :=
  match response with
  | Ok [] => (true, st)
  | _ =>
      let st := DeallocateBlockIds hosts st in
      (false, with_load (MarkFailed hashes (load_tracker_ st)) st)
  end.
Definition LoadRemote_complete (ok : bool) hashes (hosts : list Z) st : KVCacheStore :=
  let st := DeallocateBlockIds hosts st in
  with_load (if ok then MarkDone hashes (load_tracker_ st) else MarkFailed hashes (load_tracker_ st)) st.

(** LoadFromSecondaryBackend: after its AllocateBlockIds, and its completion. *)
Definition Recall_allocated hashes (host_blocks : StatusOr (list Z)) st : StatusOr (list Z) * KVCacheStore :=
  match host_blocks with
  | Err c => (Err c, with_load (MarkFailed hashes (load_tracker_ st)) st)
  | Ok ids => (Ok ids, st)
  end.
(** Admission block by block; the staging blocks of the refused ones. *)
Fixpoint recall_admit (blocks : BlockSliceList) (b : HostOffloadBackend) : list Z * HostOffloadBackend :=
  match blocks with
  | [] => ([], b)
  | (hash, slice) :: rest =>
      let '(ok, _, b) := HostOffloadBackend.Insert [hash] [slice] kAdmitStrict b in
      let '(refused, b) := recall_admit rest b in
      (if ok then refused else host_block_id slice :: refused, b)
  end.
Definition recalled_slices (id : RaidenId) hashes (hosts devices : list Z) : BlockSliceList :=
  zip hashes (zip_with (λ h d, mkRaidenBlockId id h d HOST_AND_HBM) hosts devices).
Definition Recall_complete (ok : bool) hashes (devices hosts : list Z) st : KVCacheStore :=
  if ok then
    let '(refused, b) := recall_admit (recalled_slices (raiden_id_ (tier0 st)) hashes hosts devices) (tier0 st) in
    let st := with_tier0 b st in
    let st := if bool_decide (refused = []) then st else DeallocateBlockIds refused st in
    with_load (MarkDone hashes (load_tracker_ st)) st
  else
    let st := DeallocateBlockIds hosts st in
    with_load (MarkFailed hashes (load_tracker_ st)) st.

(** ** Remote write, source side

    Times and durations are absl's quarter-nanosecond ticks. *)
Definition Seconds (n : Z) : Z := n * 4000000000.
Definition kDefaultRemoteWriteHold : Z := Seconds 30.
Definition kRemoteWriteMargin : Z := Seconds 5.
(** The environment variable: unset, not a number, or a number. *)
Definition RemoteWriteHold (env : option (option Z)) : Z :=
  match env with
  | Some (Some seconds) => if seconds <=? 0 then kDefaultRemoteWriteHold else Seconds seconds
  | _ => kDefaultRemoteWriteHold
  end.

Definition tracker_of (owner : SaveOwner) st : BlockTracker :=
  match owner with kApplication => save_tracker_ st | kSweep => sweep_tracker_ st end.
Definition with_tracker (owner : SaveOwner) (t : BlockTracker) st : KVCacheStore :=
  match owner with kApplication => with_save t st | kSweep => with_sweep t st end.

(** Whether there is anything to offer. *)
Definition SaveRemote_precheck hashes (dst : RaidenId) st : StatusOr bool :=
  if bool_decide (hashes = []) then Ok false
  else if RaidenId_empty dst then Err kInvalidArgument
  else if RaidenId_eqb dst (raiden_id_ (tier0 st)) then Err kInvalidArgument
  else Ok true.
(** The checks mark each hash as they pass it; [marked] is what a failure undoes. *)
Fixpoint offer_checks (owner : SaveOwner) (slices : BlockSliceList) (marked : list string) (ids : list Z) st
    : StatusOr (list Z) * list string * KVCacheStore :=
  match slices with
  | [] => (Ok ids, marked, st)
  | (hash, slice) :: rest =>
      if negb (IsHostResidentStatus (status slice)) then (Err kFailedPrecondition, marked, st)
      else if GetPinCount hash st <=? 0 then (Err kFailedPrecondition, marked, st)
      else if IsPending hash (save_tracker_ st) || IsPending hash (sweep_tracker_ st)
           then (Err kFailedPrecondition, marked, st)
      else offer_checks owner rest (marked ++ [hash]) (ids ++ [host_block_id slice])
             (with_tracker owner (AddPending [hash] (tracker_of owner st)) st)
  end.
Definition unmark (owner : SaveOwner) (marked : list string) st : KVCacheStore :=
  with_tracker owner (RemovePending marked (tracker_of owner st)) st.
(** The segment under [mutex_]: the host blocks offered. *)
Definition SaveRemote_reserve (order : list string) (registry : RegistryAnswer) (owner : SaveOwner) hashes st
    : StatusOr (list Z) * KVCacheStore :=
  match tier0_lookup order registry hashes (local_lookup false) st with
  | (Err c, st) => (Err c, st)
  | (Ok slices, st) =>
      if (length slices <? length hashes)%nat then (Err kNotFound, st)
      else match offer_checks owner slices [] [] st with
           | (Err c, marked, st) => (Err c, unmark owner marked st)
           | (Ok ids, _, st) => (Ok ids, st)
           end
  end.
(** The internal pin, and the check of the hold window. *)
Definition SaveRemote_pin (owner : SaveOwner) hashes (hold : Z) st : Status * KVCacheStore :=
  let '(ok, b) := Pin hashes (tier0 st) in
  let st := with_tier0 b st in
  if negb ok then (Err kResourceExhausted, unmark owner hashes st)
  else if hold <=? kRemoteWriteMargin then (Err kFailedPrecondition, unmark owner hashes (Release hashes st))
  else (OkStatus, st).
Definition SaveRemote_record (owner : SaveOwner) (dst : RaidenId) hashes (now hold : Z) st : Z * KVCacheStore :=
  let key := next_op_key_ st in
  (key, with_writes (<[key := mkRemoteWrite key dst 0 hashes (now + hold) owner]> (active_remote_writes_ st))
          (u64 (key + 1)) st).
Definition TakeRemoteWrite (key : Z) st : option RemoteWriteState * KVCacheStore :=
  (active_remote_writes_ st !! key, with_writes (delete key (active_remote_writes_ st)) (next_op_key_ st) st).

(** The destination's first answer. *)
Inductive WriteExistState := WRITE_EXIST_STATE_UNSPECIFIED | WRITE_ALL_EXIST | WRITE_PARTIAL_EXIST.
Record WriteRemoteResponse := mkWriteResponse {
  wr_exist_state : WriteExistState;
  wr_existing_hashes : list string;
  wr_operation_id : Z;
  wr_granted_deadline : Z;
}.
Record RemoteWriteAck := mkRemoteWriteAck {
  ack_operation_id : Z;
  ack_all_exist : bool;
  ack_existing_hashes : list string;
  ack_granted_deadline : Z;
}.
(** HostOffloadBackend::BeginWriteRemote up to its return; an unresolved peer and a
    failed call are errors of [response]. *)
Definition BeginWriteRemote (owner : SaveOwner) hashes (response : StatusOr WriteRemoteResponse) st
    : StatusOr RemoteWriteAck * KVCacheStore :=
  match response with
  | Err c => (Err c, st)
  | Ok r =>
      match wr_exist_state r with
      | WRITE_ALL_EXIST =>
          let st := Release hashes (Release hashes st) in
          (Ok (mkRemoteWriteAck (wr_operation_id r) true [] (wr_granted_deadline r)),
           with_tracker owner (MarkDone hashes (tracker_of owner st)) st)
      | WRITE_PARTIAL_EXIST =>
          let st := Release hashes st in
          (Ok (mkRemoteWriteAck (wr_operation_id r) false (wr_existing_hashes r) (wr_granted_deadline r)),
           with_tracker owner (MarkFailedWithExisting hashes (wr_existing_hashes r) (tracker_of owner st)) st)
      | WRITE_EXIST_STATE_UNSPECIFIED =>
          if wr_operation_id r =? 0 then (Err kInternal, st)
          else (Ok (mkRemoteWriteAck (wr_operation_id r) false [] (wr_granted_deadline r)), st)
      end
  end.
(** SaveRemote after the ack. *)
Definition SaveRemote_acked (owner : SaveOwner) hashes (key now : Z) (ack : StatusOr RemoteWriteAck) st
    : Status * KVCacheStore :=
  match ack with
  | Err c => (Err c, (TakeRemoteWrite key (unmark owner hashes (Release hashes st))).2)
  | Ok a =>
      if ack_all_exist a || negb (bool_decide (ack_existing_hashes a = [])) then (OkStatus, (TakeRemoteWrite key st).2)
      else (OkStatus, with_writes
              (alter (λ w, mkRemoteWrite (rw_key w) (rw_dst w) (ack_operation_id a) (rw_hashes w)
                             (Z.max (rw_hold_expiry w) (now + ack_granted_deadline a)) (rw_owner w))
                 key (active_remote_writes_ st)) (next_op_key_ st) st)
  end.

(** The destination's verdict, as the wire carries it. *)
Inductive WireState :=
  | UNKNOWN | PENDING | COMMITTED | ALL_EXIST | PARTIAL_EXIST | FAILED | STORED_UNREGISTERED.
#[export] Instance WireState_eq_dec : EqDecision WireState.
Proof. solve_decision. Defined.
Record WriteRemoteResult := mkWriteResult {
  res_state : WireState; res_existing_hashes : list string; res_unregistered_hashes : list string }.
Definition write_succeeded (s : WireState) : bool :=
  match s with COMMITTED | ALL_EXIST => true | _ => false end.
(** Release, then the verdict: on the stream, and on the one poll after it. *)
Definition RemoteWrite_settle (owner : SaveOwner) hashes (r : StatusOr WriteRemoteResult) st : KVCacheStore :=
  let st := Release hashes st in
  let st := match r with
            | Ok v => if write_succeeded (res_state v) then Release hashes st else st
            | Err _ => st
            end in
  with_tracker owner
    (match r with
     | Err _ => MarkFailed hashes (tracker_of owner st)
     | Ok v =>
         match res_state v with
         | COMMITTED | ALL_EXIST => MarkDone hashes (tracker_of owner st)
         | PARTIAL_EXIST => MarkFailedWithExisting hashes (res_existing_hashes v) (tracker_of owner st)
         | STORED_UNREGISTERED => MarkFailedWithUnregistered hashes (res_unregistered_hashes v) (tracker_of owner st)
         | _ => MarkFailed hashes (tracker_of owner st)
         end
     end) st.
(** The stream ends: settled, dropped (cancelled by the destructor), or to be polled
    while the hold lasts.  [true] when the poll starts. *)
Definition RemoteWrite_stream (owner : SaveOwner) hashes (r : StatusOr WriteRemoteResult) (op_id remaining_hold : Z) st
    : bool * KVCacheStore :=
  match r with
  | Err kCancelled => (false, st)
  | Ok _ => (false, RemoteWrite_settle owner hashes r st)
  | Err _ =>
      if (op_id =? 0) || (remaining_hold <=? 0) then (false, RemoteWrite_settle owner hashes r st) else (true, st)
  end.

Definition OnWriteRemoteVerdict (w : RemoteWriteState) (succeeded : bool) (existing unregistered : list string) st
    : KVCacheStore :=
  let st := Release (rw_hashes w) st in
  let st := if succeeded then Release (rw_hashes w) st else st in
  let verdict := if succeeded then MarkDone (rw_hashes w) BlockTracker_new else MarkFailed (rw_hashes w) BlockTracker_new in
  let verdict := MarkUnregistered unregistered (MarkExisting existing verdict) in
  with_tracker (rw_owner w) (Merge false (tracker_of (rw_owner w) st) verdict).1 st.
(** What the destructor does with the writes on record; [order] is the iteration
    order of the map. *)
Definition abandon_remote_writes (order : list Z) st : KVCacheStore :=
  let abandoned := omap (λ k, active_remote_writes_ st !! k) order in
  foldl (λ st w, OnWriteRemoteVerdict w false [] [] st) (with_writes ∅ (next_op_key_ st) st) abandoned.

(** ** Polls *)
Definition PollSaveStatus st : StatusResult * KVCacheStore :=
  let '(r, t) := Poll 0 id (save_tracker_ st) in (r, with_save t st).
Definition PollLoadStatus st : StatusResult * KVCacheStore :=
  let '(r, t) := Poll 0 id (load_tracker_ st) in (r, with_load t st).
Definition PollRemoteReadStatus st : (list string * list string * list string) * KVCacheStore :=
  let '(r, st) := PollLoadStatus st in ((res_done r, res_failed r, res_pending r), st).

(** SaveRemote with nothing running in between; [response] is the peer's answer. *)
Definition SaveRemote (order : list string) (registry : RegistryAnswer) (env : option (option Z)) (now : Z)
    (response : StatusOr WriteRemoteResponse) (owner : SaveOwner) hashes (dst : RaidenId) st : Status * KVCacheStore :=
  match SaveRemote_precheck hashes dst st with
  | Err c => (Err c, st)
  | Ok false => (OkStatus, st)
  | Ok true =>
      match SaveRemote_reserve order registry owner hashes st with
      | (Err c, st) => (Err c, st)
      | (Ok _, st) =>
          match SaveRemote_pin owner hashes (RemoteWriteHold env) st with
          | (Err c, st) => (Err c, st)
          | (Ok _, st) =>
              let '(key, st) := SaveRemote_record owner dst hashes now (RemoteWriteHold env) st in
              let '(ack, st) := BeginWriteRemote owner hashes response st in
              SaveRemote_acked owner hashes key now ack st
          end
      end
  end.

(** ** The evict sweep

    Watermarks are doubles: the two comparisons and the deficit they give are
    arguments. *)
Definition kMaxEvictBatchBlocks : Z := 128.
Record SweepState := mkSweep { sweep_active_ : bool; placement_targets_ : list RaidenId }.
Definition end_episode : SweepState := mkSweep false [].
(** Up to the batch to demote; [None] when the step ends here. *)
Definition SweepOnce_begin (above_low above_high : bool) (targets : StatusOr (list RaidenId)) (deficit : Z)
    (sw : SweepState) st : option (list string) * SweepState :=
  let pick sw :=
    let batch := GetEvictableKeys (Z.to_nat (u64 (Z.min deficit kMaxEvictBatchBlocks))) (cache st) in
    if bool_decide (batch = []) then (None, end_episode) else (Some batch, sw) in
  if total_blocks_ (pool st) <=? 0 then (None, sw)
  else if negb (sweep_active_ sw) then
    if above_low then (None, sw) else pick (mkSweep true (ok_or [] targets))
  else if above_high then (None, end_episode)
  else pick sw.

(** The offers: each target is dropped or takes the batch. *)
Inductive Offered := OfferAccepted | OfferNoTarget | OfferUnpinnable.
Fixpoint sweep_offer (offer : RaidenId → KVCacheStore → Status * KVCacheStore) (batch : list string)
    (targets : list RaidenId) st : Offered * list RaidenId * KVCacheStore :=
  match targets with
  | [] => (OfferNoTarget, [], st)
  | dst :: rest =>
      let '(ok, b) := Pin batch (tier0 st) in
      let st := with_tier0 b st in
      if negb ok then (OfferUnpinnable, [], st)
      else match offer dst st with
           | (Ok _, st) => (OfferAccepted, dst :: rest, st)
           | (Err _, st) => sweep_offer offer batch rest (Release batch st)
           end
  end.

Record BatchWriteResult := mkBatchResult {
  freeable : list string; still_pinned : list string; transfer_failed : bool }.
(** WaitForBatchWriteResult over the verdicts drained so far: [None] while a block of
    the batch has none. *)
Fixpoint wait_for_batch (pending : gset string) (r : BatchWriteResult) (drains : list StatusResult)
    : option BatchWriteResult :=
  if bool_decide (pending = ∅) then Some r
  else match drains with
       | [] => None
       | v :: rest =>
           wait_for_batch (pending ∖ list_to_set (res_done v) ∖ list_to_set (res_failed v))
             (mkBatchResult (freeable r ++ res_done v ++ res_existing v) (still_pinned r ++ res_failed v)
                (transfer_failed r || (length (res_existing v) <? length (res_failed v))%nat)) rest
       end.
(** After the verdicts: what was freed, whether to run again. *)
Definition SweepOnce_settle (r : BatchWriteResult) (sw : SweepState) st : bool * SweepState * KVCacheStore :=
  let st := if bool_decide (still_pinned r = []) then st else Release (still_pinned r) st in
  let '(evicted, _, st) := Evict (freeable r) st in
  if transfer_failed r then (true, mkSweep (sweep_active_ sw) (tail (placement_targets_ sw)), st)
  else if (evicted =? 0)%nat then (false, end_episode, st)
  else (true, sw, st).
(** Without a target the batch is dropped. *)
Definition SweepOnce_drop (batch : list string) (sw : SweepState) st : bool * SweepState * KVCacheStore :=
  let '(evicted, _, st) := Evict batch st in
  if (evicted =? 0)%nat then (false, end_episode, st) else (true, mkSweep (sweep_active_ sw) [], st).

(** ** The inventory republish *)
Definition kMaxRepublishBatchBlocks : nat := 512.
(** Snapshot, then one batch from the back of the queue, pinned; the registrations to
    send, and the queue left.  [order] is the iteration order of the cache. *)
Definition Republish_queue (order : list string) (queue : list string) st : list string :=
  if bool_decide (queue = []) then
    match tier0_lookup order (λ _, Ok []) [] SnapshotHostResident st with
    | (Ok snapshot, _) => snapshot.*1
    | (Err _, _) => []
    end
  else queue.
Definition Republish_pin (order : list string) (queue : list string) st
    : BlockSliceList * list string * KVCacheStore :=
  let queue := Republish_queue order queue st in
  if bool_decide (queue = []) then ([], [], st)
  else
    let keep := (length queue - min kMaxRepublishBatchBlocks (length queue))%nat in
    match tier0_lookup order (λ _, Ok []) (drop keep queue) PinPresentHostResident st with
    | (Ok pinned, st) => (pinned, take keep queue, st)
    | (Err _, st) => ([], take keep queue, st)
    end.
(** The registry has answered: whether batches remain, and the queue. *)
Definition Republish_finish (pinned : BlockSliceList) (registered : bool) (queue : list string) st
    : bool * list string * KVCacheStore :=
  let st := Release pinned.*1 st in
  if registered then (negb (bool_decide (queue = [])), queue, st) else (false, [], st).
