(* ===== verification/StoreService.v ===== *)
(** * StoreService: the destination side of remote writes, and fetches
    (src/tpu_sync/kv_cache/kv_cache_store_service.{h,cc})

    A peer offers blocks; the service answers from what it holds or allocates landing
    blocks, pulls the bytes and, when the transfer resolves, admits the blocks into the
    cache.  Each operation is a state machine under [write_mutex_]; the calls on the
    backend and on the pool run outside it, so an operation is modelled segment by
    segment.  A result sent through an operation's gate is an output.  The gRPC
    reactors, the space check and the leak warnings are not modelled. *)

From S2P Require Import Prelude RaidenTypes LogicalBlockManager LruCache KvCacheMetadata BlockTracker.
From S2P Require Import HostOffloadBackend BackendMirror KvCacheStore.

(** ** State *)
Inductive OpState :=
  | kPending | kCompleting | kCommitted | kAllExist | kPartialExist | kFailed | kStoredUnregistered.
#[export] Instance OpState_eq_dec : EqDecision OpState.
Proof. solve_decision. Defined.

Record WriteOp := mkWriteOp {
  op_state : OpState;
  op_block_hashes : list string;
  landing_block_ids : list Z;
  op_existing_hashes : list string;
  op_unregistered_hashes : list string;
  op_deadline : Z;
  op_expires_at : Z;
  blocks_released : bool;
  reactor_gate : bool;
  settle_done : bool;
}.
(** The store and the service that serves its peers share backend and pool. *)
Record StoreNode := mkNode_ { node_store : KVCacheStore; write_ops_ : gmap Z WriteOp }.
Implicit Types (nd : StoreNode) (op : WriteOp) (st : KVCacheStore).

Definition with_store st nd : StoreNode := mkNode_ st (write_ops_ nd).
Definition with_ops (ops : gmap Z WriteOp) nd : StoreNode := mkNode_ (node_store nd) ops.
Definition alter_op (f : WriteOp → WriteOp) (op_id : Z) nd : StoreNode := with_ops (alter f op_id (write_ops_ nd)) nd.

Definition set_state (s : OpState) op : WriteOp :=
  mkWriteOp s (op_block_hashes op) (landing_block_ids op) (op_existing_hashes op) (op_unregistered_hashes op)
    (op_deadline op) (op_expires_at op) (blocks_released op) (reactor_gate op) (settle_done op).
Definition set_released op : WriteOp :=
  mkWriteOp (op_state op) (op_block_hashes op) (landing_block_ids op) (op_existing_hashes op) (op_unregistered_hashes op)
    (op_deadline op) (op_expires_at op) true (reactor_gate op) (settle_done op).
Definition clear_gate op : WriteOp :=
  mkWriteOp (op_state op) (op_block_hashes op) (landing_block_ids op) (op_existing_hashes op) (op_unregistered_hashes op)
    (op_deadline op) (op_expires_at op) (blocks_released op) false (settle_done op).
Definition set_settled op : WriteOp :=
  mkWriteOp (op_state op) (op_block_hashes op) (landing_block_ids op) (op_existing_hashes op) (op_unregistered_hashes op)
    (op_deadline op) (op_expires_at op) (blocks_released op) (reactor_gate op) true.

Definition ToWireState (s : OpState) : WireState :=
  match s with
  | kPending | kCompleting => PENDING
  | kCommitted => COMMITTED
  | kAllExist => ALL_EXIST
  | kPartialExist => PARTIAL_EXIST
  | kFailed => FAILED
  | kStoredUnregistered => STORED_UNREGISTERED
  end.
Definition MakeResultEvent op : WriteRemoteResult :=
  mkWriteResult (ToWireState (op_state op)) (op_existing_hashes op) (op_unregistered_hashes op).
Definition kept_by_cache (s : OpState) : bool :=
  match s with kCommitted | kStoredUnregistered => true | _ => false end.
Definition MarkTerminal (s : OpState) (existing : list string) op : WriteOp :=
  mkWriteOp s (op_block_hashes op) (landing_block_ids op) existing
    (if bool_decide (s = kStoredUnregistered) then op_block_hashes op else op_unregistered_hashes op)
    (op_deadline op) (op_expires_at op) (blocks_released op || kept_by_cache s) (reactor_gate op) (settle_done op).

(** The results sent: the operation and what its source is told. *)
Abbreviation Events := (list (Z * WriteRemoteResult)).
(** The gate is moved out once; whoever takes it sends the result. *)
Definition take_gate (op_id : Z) nd : Events * StoreNode :=
  match write_ops_ nd !! op_id with
  | Some op => (if reactor_gate op then [(op_id, MakeResultEvent op)] else [], alter_op clear_gate op_id nd)
  | None => ([], nd)
  end.
Definition ReleaseLandingBlocks (op_id : Z) nd : StoreNode :=
  match write_ops_ nd !! op_id with
  | Some op =>
      if blocks_released op || bool_decide (landing_block_ids op = []) then nd
      else with_store (DeallocateBlockIds (landing_block_ids op) (node_store nd)) (alter_op set_released op_id nd)
  | None => nd
  end.
Definition Settle (op_id : Z) nd : StoreNode := alter_op set_settled op_id nd.

(** ** WriteRemote *)
Definition Milliseconds (n : Z) : Z := n * 4000000.
Definition kDefaultDeadlineCap : Z := Seconds 25.
Definition kRecordMargin : Z := Seconds 5.
Definition DeadlineCap (env : option (option Z)) : Z :=
  match env with
  | Some (Some seconds) => if seconds <=? 0 then kDefaultDeadlineCap else Seconds seconds
  | _ => kDefaultDeadlineCap
  end.

Record WriteRemoteRequest := mkWriteRequest {
  wq_block_hashes : list string;
  wq_src_host_block_ids : list Z;
  wq_deadline_ms : Z;
  wq_src_raiden_id : RaidenId;
  wq_has_endpoints : bool;
}.
(** The answer when no operation is created: an error or an existence answer. *)
Definition exist_answer (request : WriteRemoteRequest) (present : list string) : option (StatusOr WriteRemoteResponse) :=
  if (length present =? length (wq_block_hashes request))%nat then Some (Ok (mkWriteResponse WRITE_ALL_EXIST present 0 0))
  else if negb (bool_decide (present = [])) then Some (Ok (mkWriteResponse WRITE_PARTIAL_EXIST present 0 0))
  else None.
Definition write_request_check (request : WriteRemoteRequest) st : Status :=
  if bool_decide (wq_block_hashes request = []) then Err kInvalidArgument
  else if negb (length (wq_src_host_block_ids request) =? length (wq_block_hashes request))%nat then Err kInvalidArgument
  else if wq_deadline_ms request <=? 0 then Err kInvalidArgument
  else if negb (RaidenId_empty (wq_src_raiden_id request)) &&
          RaidenId_eqb (wq_src_raiden_id request) (raiden_id_ (tier0 st)) then Err kInvalidArgument
  else OkStatus.
(** The hashes of a batch the store holds in host memory, candidates included. *)
Definition present_hashes (order : list string) (hashes : list string) st : list string :=
  match tier0_lookup order (λ _, Ok []) hashes HostResidentSubset st with
  | (Ok found, _) => found.*1
  | (Err _, _) => []
  end.
(** The segment up to the allocation: an answer, or the deadline granted. *)
Definition WriteRemote_screen (order : list string) (env : option (option Z)) (request : WriteRemoteRequest) nd
    : StatusOr WriteRemoteResponse + Z :=
  match write_request_check request (node_store nd) with
  | Err c => inl (Err c)
  | Ok _ =>
      match exist_answer request (present_hashes order (wq_block_hashes request) (node_store nd)) with
      | Some answer => inl answer
      | None =>
          if negb (wq_has_endpoints request) then inl (Err kInvalidArgument)
          else inr (Z.min (Milliseconds (wq_deadline_ms request)) (DeadlineCap env))
      end
  end.
(** The first drawn id that is neither 0 nor taken. *)
Definition draw_op_id (draws : list Z) nd : option Z :=
  List.find (λ d, negb (d =? 0) && bool_decide (write_ops_ nd !! d = None)) draws.
(** The allocation and the record of the operation; its pull starts. *)
Definition WriteRemote_accept (hashes : list string) (granted now op_id : Z) nd : StatusOr WriteRemoteResponse * StoreNode :=
  match controller_AllocateBlockIds (Z.of_nat (length hashes)) (node_store nd) with
  | (Err _, st) => (Err kResourceExhausted, with_store st nd)
  | (Ok ids, st) =>
      let op := mkWriteOp kPending hashes ids [] [] (now + granted) (now + granted + kRecordMargin) false true false in
      (Ok (mkWriteResponse WRITE_EXIST_STATE_UNSPECIFIED [] op_id granted),
       with_ops (<[op_id := op]> (write_ops_ nd)) (with_store st nd))
  end.

(** ** The transfer resolves *)

(** The claim: only a pending operation, only before its deadline. *)
Definition Complete_claim (op_id : Z) (ok : bool) (now : Z) nd : option bool * StoreNode :=
  match write_ops_ nd !! op_id with
  | None => (None, nd)
  | Some op =>
      if ok && bool_decide (op_state op = kPending) && (now <? op_deadline op)
      then (Some true, alter_op (set_state kCompleting) op_id nd)
      else if bool_decide (op_state op = kPending)
           then (Some false, alter_op (MarkTerminal kFailed []) op_id nd)
      else (Some false, nd)
  end.
(** Not claimed: the deferred free. *)
Definition Complete_late (op_id : Z) nd : Events * StoreNode :=
  let '(ev, nd) := take_gate op_id nd in (ev, Settle op_id (ReleaseLandingBlocks op_id nd)).
Definition Finish (op_id : Z) (s : OpState) (existing : list string) nd : Events * StoreNode :=
  let '(ev, nd) := take_gate op_id (alter_op (MarkTerminal s existing) op_id nd) in
  (ev, Settle op_id (if kept_by_cache s then nd else ReleaseLandingBlocks op_id nd)).
(** Claimed: the second existence check decides. *)
Definition Complete_recheck (order : list string) (op_id : Z) nd : option (OpState * list string) :=
  match write_ops_ nd !! op_id with
  | None => None
  | Some op =>
      let present := present_hashes order (op_block_hashes op) (node_store nd) in
      if (length present =? length (op_block_hashes op))%nat then Some (kAllExist, [])
      else if negb (bool_decide (present = [])) then Some (kPartialExist, present)
      else None
  end.
(** The admission; [true] when only the publication is left. *)
Definition Complete_insert (op_id : Z) nd : bool * StoreNode :=
  match write_ops_ nd !! op_id with
  | None => (false, nd)
  | Some op =>
      let slices := (λ blk, mkRaidenBlockId (raiden_id_ (tier0 (node_store nd))) blk (-1) HOST) <$> landing_block_ids op in
      let '(ok, _, b) := HostOffloadBackend.Insert (op_block_hashes op) slices kAdmitStrict (tier0 (node_store nd)) in
      (ok, with_store (with_tier0 b (node_store nd)) nd)
  end.
Definition FinishPublish (op_id : Z) (registered : bool) nd : Events * StoreNode :=
  Finish op_id (if registered then kCommitted else kStoredUnregistered) [] nd.
(** CompleteWriteRemote with nothing running in between: the results sent, and whether
    the publication is left. *)
Definition CompleteWriteRemote (order : list string) (op_id : Z) (ok : bool) (now : Z) nd : bool * Events * StoreNode :=
  match Complete_claim op_id ok now nd with
  | (None, nd) => (false, [], nd)
  | (Some false, nd) => let '(ev, nd) := Complete_late op_id nd in (false, ev, nd)
  | (Some true, nd) =>
      match Complete_recheck order op_id nd with
      | Some (s, existing) => let '(ev, nd) := Finish op_id s existing nd in (false, ev, nd)
      | None =>
          match Complete_insert op_id nd with
          | (true, nd) => (true, [], nd)
          | (false, nd) => let '(ev, nd) := Finish op_id kFailed [] nd in (false, ev, nd)
          end
      end
  end.

(** ** Deadlines, collection and polls *)
Definition terminal (s : OpState) : bool := match s with kPending | kCompleting => false | _ => true end.
Definition collectable (now : Z) op : bool := terminal (op_state op) && blocks_released op && (op_expires_at op <=? now).
Definition collect (now : Z) nd : StoreNode := with_ops (filter (λ e, collectable now e.2 = false) (write_ops_ nd)) nd.
(** One operation of the deadline pass. *)
Definition expired (now : Z) op : bool := bool_decide (op_state op = kPending) && (op_deadline op <=? now).
Definition fire_deadline (now : Z) op : WriteOp :=
  if expired now op then clear_gate (MarkTerminal kFailed [] op) else op.
(** One round of DeadlineLoop before it waits; [order] is the iteration order. *)
Definition DeadlineLoop_round (order : list Z) (now : Z) nd : Events * StoreNode :=
  let ev := omap (λ id, match write_ops_ nd !! id with
                        | Some op => if expired now op && reactor_gate op
                                     then Some (id, MakeResultEvent (MarkTerminal kFailed [] op)) else None
                        | None => None
                        end) order in
  let nd := with_ops (fire_deadline now <$> write_ops_ nd) nd in
  (ev, if bool_decide (ev = []) then collect now nd else nd).

Record PollWriteRemoteResponse := mkPollResponse {
  pr_state : WireState;
  pr_committed_hashes : list string;
  pr_failed_hashes : list string;
  pr_unregistered_hashes : list string;
  pr_existing_hashes : list string;
}.
(** The poll: collection first; the answer after the wait, if any. *)
Definition Poll_answer (op_id : Z) nd : PollWriteRemoteResponse :=
  match write_ops_ nd !! op_id with
  | None => mkPollResponse UNKNOWN [] [] [] []
  | Some op =>
      mkPollResponse (ToWireState (op_state op))
        (if bool_decide (op_state op = kCommitted) then op_block_hashes op else [])
        (if bool_decide (op_state op = kFailed) then op_block_hashes op else [])
        (op_unregistered_hashes op) (op_existing_hashes op)
  end.
(** [others] is what other threads do while the poll waits; it runs only if it does. *)
Definition PollWriteRemote (op_id wait_ms now : Z) (others : StoreNode → StoreNode) nd
    : StatusOr PollWriteRemoteResponse * StoreNode :=
  if op_id =? 0 then (Err kInvalidArgument, nd)
  else
    let nd := collect now nd in
    let waits := match write_ops_ nd !! op_id with Some op => (0 <? wait_ms) && negb (terminal (op_state op)) | None => false end in
    let nd := if waits then others nd else nd in
    (Ok (Poll_answer op_id nd), nd).

(** ** Fetch: a peer reads blocks of this store *)
Record FetchRequest := mkFetchRequest {
  fq_block_hashes : list string;
  fq_host_block_ids : list Z;
  fq_client_raiden_id : RaidenId;
  fq_has_endpoints : bool;
}.
(** Up to the transfer: the pins it holds, and the source blocks or the refusal with
    the hash to withdraw from the registry if nothing backs it. *)
Definition Fetch_start (order : list string) (request : FetchRequest) nd
    : StatusOr (list Z) * list string * option string * StoreNode :=
  let hashes := fq_block_hashes request in
  let id := fq_client_raiden_id request in
  if bool_decide (hashes = []) then (Ok [], [], None, nd)
  else if negb (length (fq_host_block_ids request) =? length hashes)%nat then (Err kInvalidArgument, [], None, nd)
  else if negb (RaidenId_empty id) && negb (RaidenId_eqb id (raiden_id_ (tier0 (node_store nd)))) &&
          negb (fq_has_endpoints request) then (Err kInvalidArgument, [], None, nd)
  else match tier0_lookup order (λ _, Ok []) hashes (local_lookup true) (node_store nd) with
       | (Err _, st) => (Err kNotFound, [], None, with_store st nd)
       | (Ok slices, st) =>
           let nd := with_store st nd in
           if (length slices <? length hashes)%nat then (Err kNotFound, slices.*1, hashes !! length slices, nd)
           else if forallb (λ hb, IsHostResidentStatus (status hb.2)) slices
                then (Ok ((λ hb, host_block_id hb.2) <$> slices), slices.*1, None, nd)
                else (Err kFailedPrecondition, slices.*1, None, nd)
       end.
(** Every exit releases what the lookup pinned; [transfer] is the copy's outcome. *)
Definition Fetch_finish (sources : StatusOr (list Z)) (pinned : list string) (transfer : bool) nd : Status * StoreNode :=
  (match sources with Err c => Err c | Ok _ => if transfer then OkStatus else Err kInternal end,
   with_store (KvCacheStore.Release pinned (node_store nd)) nd).
(** Whether a hash the fetch missed is withdrawn from the registry. *)
Definition WithdrawEntryIfUnbacked (order : list string) (hash : string) nd : bool :=
  bool_decide (present_hashes order [hash] (node_store nd) = []).
