(* ===== verification/StoreLedger.v ===== *)
(** * StoreLedger: what each call of the store does to its books
    (src/tpu_sync/kv_cache/kv_cache_store.cc and host_offload_backend.cc)

    The ledger of a store says who owns what: a host block of the pool belongs to one
    cache entry or to one of the given owners outside the cache, and the pins of a hash
    are the given ones.  Each lemma is the effect of one call on the ledger, with the
    owners that the call does not touch as an arbitrary frame. *)

From S2P Require Import Prelude RaidenTypes BlockPool LogicalBlockManager BlockTracker LruCache KvCacheMetadata.
From S2P Require Import HostOffloadBackend BackendMirror BackendViews KvCacheStore.

(** ** Owners of host blocks *)

(** [host] is the block of each cache entry, [owned] the blocks of everyone else. *)
Record blocks_ok (host : string → option Z) (alloc : gset Z) (owned : list Z) : Prop := {
  bo_nodup : NoDup owned;
  bo_inj h1 h2 blk : host h1 = Some blk → host h2 = Some blk → h1 = h2;
  bo_apart h blk : host h = Some blk → blk ∉ owned;
  bo_alloc blk : blk ∈ alloc ↔ (∃ h, host h = Some blk) ∨ blk ∈ owned;
}.

Section blocks.
Implicit Types (host : string → option Z) (alloc : gset Z) (owned ids : list Z).

Lemma blocks_same host host' alloc owned owned' :
  blocks_ok host alloc owned → (∀ h, host' h = host h) → owned' ≡ₚ owned → blocks_ok host' alloc owned'.
Proof.
  intros [Hnd Hinj Hap Hal] Hh Hp. split.
  - by rewrite Hp.
  - intros h1 h2 blk. rewrite !Hh. apply Hinj.
  - intros h blk. rewrite Hh, Hp. apply Hap.
  - intros blk. rewrite Hp, Hal. by setoid_rewrite Hh.
Qed.
Lemma blocks_allocate host alloc owned ids :
  blocks_ok host alloc owned → NoDup ids → (∀ i, i ∈ ids → i ∉ alloc) →
  blocks_ok host (alloc ∪ list_to_set ids) (ids ++ owned).
Proof.
  intros [Hnd Hinj Hap Hal] Hid Hnew. split.
  - apply NoDup_app. split; [done|]. split; [|done]. intros i Hi Ho. apply (Hnew i Hi), Hal. by right.
  - done.
  - intros h blk Hh [Hi|Ho]%elem_of_app; [|by eapply Hap]. apply (Hnew blk Hi), Hal. left. by exists h.
  - intros blk. rewrite elem_of_union, Hal, elem_of_list_to_set, elem_of_app. tauto.
Qed.
Lemma blocks_free host alloc owned ids :
  blocks_ok host alloc (ids ++ owned) → blocks_ok host (alloc ∖ list_to_set ids) owned.
Proof.
  intros [Hnd Hinj Hap Hal]. apply NoDup_app in Hnd as (_ & Hdis & Hnd). split; [done|done|..].
  - intros h blk Hh Ho. apply (Hap h blk Hh), elem_of_app. by right.
  - intros blk. rewrite elem_of_difference, Hal, elem_of_list_to_set, elem_of_app. split.
    + intros [[?|[?|?]] ?]; tauto.
    + intros [[h Hh]|Ho]; (split; [eauto|]); intros Hi; [|by eapply Hdis].
      apply (Hap h blk Hh), elem_of_app. by left.
Qed.
(** Owned blocks become the blocks of entries that had none. *)
Lemma blocks_cache host host' alloc owned (l : list (string * Z)) :
  blocks_ok host alloc (l.*2 ++ owned) → NoDup l.*1 → (∀ h, h ∈ l.*1 → host h = None) →
  (∀ h blk, (h, blk) ∈ l → host' h = Some blk) → (∀ h, h ∉ l.*1 → host' h = host h) →
  blocks_ok host' alloc owned.
Proof.
  intros [Hnd Hinj Hap Hal] Hl Hnone Hin Hout. apply NoDup_app in Hnd as (Hl2 & Hdis & Hnd).
  assert (∀ h blk, host' h = Some blk ↔ (h, blk) ∈ l ∨ host h = Some blk ∧ h ∉ l.*1) as Hh.
  { intros h blk. destruct (decide (h ∈ l.*1)) as [Hi|Ho].
    - apply list_elem_of_fmap in Hi as ([h' b'] & -> & Hi). cbn. rewrite (Hin _ _ Hi). split.
      + intros [= ->]. by left.
      + intros [Hi'|[_ []]]; [|apply list_elem_of_fmap; by exists (h', b')].
        f_equal. apply (Hin _ _) in Hi'. rewrite (Hin _ _ Hi) in Hi'. congruence.
    - rewrite (Hout h Ho). split; [by right|]. intros [Hi|[? _]]; [|done]. destruct Ho. apply list_elem_of_fmap. by exists (h, blk). }
  assert (∀ h blk, (h, blk) ∈ l → blk ∈ l.*2) as H2 by (intros h blk Hi; apply list_elem_of_fmap; by exists (h, blk)).
  assert (∀ h blk, host h = Some blk → blk ∉ l.*2) as Hap2.
  { intros h blk Hh' Hi. apply (Hap h blk Hh'), elem_of_app. by left. }
  split.
  - done.
  - intros h1 h2 blk [Hi1|[Ho1 _]]%Hh [Hi2|[Ho2 _]]%Hh.
    + apply list_elem_of_lookup in Hi1 as [i1 Hi1], Hi2 as [i2 Hi2]. assert (i1 = i2) as ->; [|congruence].
      eapply (NoDup_lookup l.*2); [done| |]; rewrite list_lookup_fmap; [rewrite Hi1|rewrite Hi2]; done.
    + exfalso. eapply Hap2; eauto.
    + exfalso. eapply Hap2; eauto.
    + by eapply Hinj.
  - intros h blk [Hi|[Ho _]]%Hh Hown; [by eapply Hdis, Hown; eauto|]. apply (Hap h blk Ho), elem_of_app. by right.
  - intros blk. rewrite Hal, elem_of_app. setoid_rewrite Hh. split.
    + intros [[h Ho]|[([h b'] & -> & Hi)%list_elem_of_fmap|?]]; [|by left; exists h; left|by right].
      left. exists h. right. split; [done|]. intros Hi. by rewrite Hnone in Ho.
    + intros [[h [Hi|[Ho _]]]|?]; eauto.
Qed.
(** Entries give their blocks up. *)
Lemma blocks_uncache host host' alloc owned (D : list string) :
  blocks_ok host alloc owned → NoDup D → (∀ h, host' h = if decide (h ∈ D) then None else host h) →
  blocks_ok host' alloc (omap host D ++ owned).
Proof.
  intros [Hnd Hinj Hap Hal] HD Hh.
  assert (∀ h blk, host' h = Some blk ↔ host h = Some blk ∧ h ∉ D) as Hs.
  { intros h blk. rewrite Hh. case_decide; naive_solver. }
  assert (∀ blk, blk ∈ omap host D ↔ ∃ h, h ∈ D ∧ host h = Some blk) as Ho by (intros; apply list_elem_of_omap).
  split.
  - apply NoDup_app. split; [|split; [|done]].
    + clear -HD Hinj. induction D as [|h D IH]; [constructor|]. apply NoDup_cons in HD as [Hn HD]. cbn.
      destruct (host h) as [blk|] eqn:E; [|by apply IH]. apply NoDup_cons. split; [|by apply IH].
      intros (h' & Hi & E')%list_elem_of_omap. by rewrite (Hinj h h' blk E E') in Hn.
    + intros blk (h & _ & E)%Ho. by eapply Hap.
  - intros h1 h2 blk [? _]%Hs [? _]%Hs. by eapply Hinj.
  - intros h blk [E Hn]%Hs [(h' & Hi & E')%Ho|Hown]%elem_of_app; [|by eapply Hap].
    by rewrite (Hinj h h' blk E E') in Hn.
  - intros blk. rewrite Hal, elem_of_app, Ho. setoid_rewrite Hs. split.
    + intros [[h E]|?]; [|tauto]. destruct (decide (h ∈ D)); naive_solver.
    + intros [[h [? ?]]|[(h & ? & ?)|?]]; eauto.
Qed.
End blocks.

(** ** The ledger *)

(** A hash the metadata table can hold. *)
Definition hash_fits (hash : string) : Prop := (0 < String.length hash <= kMaxHashLength)%nat.

(** Each slice holds the host block beside it. *)
Abbreviation holds_blocks slices hosts := (Forall2 (λ b blk, host_block b = Some blk) slices hosts).

(** [S]: hashes whose save is under way, [H]: hashes whose host block is being read,
    [P]: the pins, [B]: the blocks owned outside the cache. *)
Record ledger (st : KVCacheStore) (S H P : list string) (B : list Z) : Prop := {
  le_mirror : ∃ m, mirrors (tier0 st) m ∧ md_num_blocks m = total_blocks_ (pool st);
  le_pool : LogicalBlockManager.wf (pool st);
  le_locked : locked_set (pool st) = allocated_set (pool st);
  le_pins k : LruCache.GetPinCount k (cache st) = times k P;
  le_blocks : blocks_ok (host_of (cache st)) (allocated_set (pool st)) B;
  le_tracker : BlockTracker.wf (save_tracker_ st);
  le_nodup : NoDup S;
  le_saving h : h ∈ S → h ∈ pending_map_ (save_tracker_ st) ∧ host_of (cache st) h = None;
  le_hosted h : h ∈ H → is_Some (host_of (cache st) h);
}.

Section ledger.
Implicit Types (st : KVCacheStore) (S H P Q : list string) (B ids : list Z) (h : string) (hashes : list string).

Lemma le_cache st S H P B : ledger st S H P B → LruCache.wf (cache st).
Proof. intros L. by destruct (le_mirror _ _ _ _ _ L) as (m & [] & _). Qed.
Lemma le_pinned st S H P B h : ledger st S H P B → h ∈ P → Contains h (cache st) = true ∧ is_Some (values (cache st) !! h).
Proof.
  intros L Hh. assert (0 < LruCache.GetPinCount h (cache st)) as Hp.
  { rewrite (le_pins _ _ _ _ _ L). apply list_elem_of_split in Hh as (l1 & l2 & ->).
    rewrite times_app, times_cons, decide_True by done. pose proof (times_nonneg h l1). pose proof (times_nonneg h l2). lia. }
  split; [eapply pinned_Contains; [by eapply le_cache|done]|by apply pinned_values].
Qed.
Lemma le_disjoint st S H P B h : ledger st S H P B → is_Some (host_of (cache st) h) → h ∉ S.
Proof. intros L [blk Hb] Hs. destruct (le_saving _ _ _ _ _ L h Hs) as [_ ?]. congruence. Qed.

Lemma ledger_perm st S S' H H' P P' B B' :
  ledger st S H P B → S' ≡ₚ S → (∀ h, h ∈ H' → h ∈ H) → P' ≡ₚ P → B' ≡ₚ B → ledger st S' H' P' B'.
Proof.
  intros [] ES EH EP EB. split; try done.
  - intros k. by rewrite (times_Permutation k _ _ EP).
  - by eapply blocks_same.
  - by rewrite ES.
  - intros h. rewrite ES. auto.
  - auto.
Qed.

(** Telemetry, load tracker, remote writes and write-through counts are not on the books. *)
Definition same_books st st' : Prop :=
  tier0 st' = tier0 st ∧ pool st' = pool st ∧ save_tracker_ st' = save_tracker_ st.
Lemma ledger_same st st' S H P B : same_books st st' → ledger st S H P B → ledger st' S H P B.
Proof. intros (E1 & E2 & E3) []. split; rewrite ?E1, ?E2, ?E3; done. Qed.

Lemma ledger_with_load t st S H P B : ledger st S H P B → ledger (with_load t st) S H P B.
Proof. apply ledger_same. by repeat split. Qed.

(** Calls that only move pins. *)
Lemma ledger_pins b st S H P P' B :
  ledger st S H P B → pins_only (tier0 st) b → (∀ k, LruCache.GetPinCount k (lru_cache_ b) = times k P') →
  ledger (with_tier0 b st) S H P' B.
Proof.
  intros [(m & Hm & Hn) ? ? ? Hb ? ? Hs Hh] Hpo Hp.
  assert (∀ h, host_of (lru_cache_ b) h = host_of (cache st) h) as E.
  { destruct Hpo as (_ & _ & Hv). intros h. apply host_of_values. by rewrite Hv. }
  split; cbn [tier0 with_tier0 pool save_tracker_]; try done.
  - exists m. split; [by eapply pins_only_mirror|done].
  - by eapply blocks_same.
  - intros h. rewrite E. apply Hs.
  - intros h. rewrite E. apply Hh.
Qed.
Lemma times_reverse k (l : list string) : times k (reverse l) = times k l.
Proof. apply times_Permutation. apply reverse_Permutation. Qed.
Lemma ledger_release Q st S H P B : ledger st S H (Q ++ P) B → ledger (KvCacheStore.Release Q st) S H P B.
Proof.
  intros L. destruct (unpin_all_view (reverse Q) (tier0 st) (le_cache _ _ _ _ _ L)) as (E & Hw & Hv & _ & Hp & _).
  eapply ledger_pins; [exact L|done|]. intros k. unfold HostOffloadBackend.Release.
  rewrite Hp, (le_pins _ _ _ _ _ L), times_reverse, times_app. pose proof (times_nonneg k P). lia.
Qed.
Lemma ledger_pin Q st S H P B :
  ledger st S H P B → pins_room (length Q) (cache st) →
  let '(ok, b) := Pin Q (tier0 st) in ledger (with_tier0 b st) S H (if ok then Q ++ P else P) B.
Proof.
  intros L Hr. pose proof (le_cache _ _ _ _ _ L) as Hw.
  pose proof (pin_loop_view [] Q (tier0 st) Hw Hr (λ k, pins_nonneg k _ Hw)) as Hv. unfold Pin.
  destruct (pin_loop [] Q (tier0 st)) as [ok b]. destruct Hv as (E & Hw' & Hv & _ & Hp).
  eapply ledger_pins; [exact L|done|]. intros k. rewrite Hp, (le_pins _ _ _ _ _ L).
  destruct ok; [rewrite times_app|change (times k []) with 0]; lia.
Qed.
Lemma ledger_lookup order registry hashes options st S H P B :
  lo_include_eviction_candidates options = false → lo_enable_global options = false → lo_pin_found options = true →
  ledger st S H P B → pins_room (length hashes + length order) (cache st) →
  ∃ found st', tier0_lookup order registry hashes options st = (Ok found, st') ∧ ledger st' S H (found.*1 ++ P) B.
Proof.
  intros Hi Hg Hpin L Hr.
  destruct (Lookup_local_pins order registry hashes options (tier0 st) Hi Hg Hpin (le_cache _ _ _ _ _ L) Hr)
    as (found & b & E & Hpo & _ & _ & Hp).
  exists found, (with_tier0 b st). unfold tier0_lookup. rewrite E. split; [done|].
  eapply ledger_pins; [exact L|done|]. intros k. rewrite Hp, (le_pins _ _ _ _ _ L), times_app. lia.
Qed.
Lemma tier0_lookup_unpinned order registry hashes options st :
  lo_pin_found options = false → (tier0_lookup order registry hashes options st).2 = st.
Proof.
  intros Hp. unfold tier0_lookup. pose proof (Lookup_unpinned options Hp order registry hashes (tier0 st)) as E.
  destruct (HostOffloadBackend.Lookup _ _ _ _ _) as [r b]. cbn in *. subst. by destruct st.
Qed.

(** The save tracker moves. *)
Lemma ledger_tracker t st S S' H P B :
  ledger st S H P B → BlockTracker.wf t → NoDup S' →
  (∀ h, h ∈ S' → h ∈ pending_map_ t ∧ host_of (cache st) h = None) → ledger (with_save t st) S' H P B.
Proof. intros [] ? ? ?. by split. Qed.

(** Allocation and deallocation. *)
Lemma ledger_allocate n st S H P B :
  ledger st S H P B →
  match controller_AllocateBlockIds n st with
  | (Ok ids, st') => ledger st' S H P (ids ++ B) ∧ Z.of_nat (length ids) = n ∧ 0 < n
  | (Err _, st') => st' = st
  end.
Proof.
  intros L. unfold controller_AllocateBlockIds. destruct (Allocate n true (pool st)) as [[ids|c] p] eqn:E.
  2:{ rewrite (@pool_Allocate_err _ _ LogicalBlockManager_pool n (pool st) c p E). by destruct st. }
  destruct L as [Hm Hp Hl ? Hb ? ? ? ?].
  destruct (@pool_Allocate_ok _ _ LogicalBlockManager_pool n (pool st) ids p Hp E) as (Hp' & Ht & Hnd & Hn & Hpos & Hdis & Ha & Hlk). cbn in *.
  split; [|done]. split; cbn [tier0 with_pool pool save_tracker_]; try done.
  - by rewrite Ht.
  - by rewrite Hlk, Ha, Hl.
  - rewrite Ha. apply blocks_allocate; [done|done|]. intros i Hi. rewrite <- Hl. set_solver.
Qed.
Lemma ledger_deallocate ids st S H P B : ledger st S H P (ids ++ B) → ledger (DeallocateBlockIds ids st) S H P B.
Proof.
  intros [Hm Hp Hl ? Hb ? ? ? ?].
  destruct (@pool_Deallocate_ok _ _ LogicalBlockManager_pool ids (pool st) Hp) as (p & E & Hp' & Ht & Ha & Hlk).
  { intros i Hi%elem_of_list_to_set. apply (bo_alloc _ _ _ Hb). right. apply elem_of_app. by left. }
  cbn in *. unfold DeallocateBlockIds. rewrite E. split; cbn [tier0 with_pool pool save_tracker_ snd]; try done.
  - by rewrite Ht.
  - by rewrite Hlk, Ha, Hl.
  - rewrite Ha. by apply blocks_free.
Qed.

(** Evictions spare what is pinned. *)
Lemma ledger_evict hashes st S H P B :
  ledger st S H P B → (∀ h, h ∈ H → h ∈ P) →
  let '(d, st') := Evict_delete hashes st in ledger st' S H P (del_host_blocks d ++ B).
Proof.
  intros L Hcov. pose proof (le_cache _ _ _ _ _ L) as Hw. pose proof (Delete_view hashes true (tier0 st) Hw) as D.
  unfold Evict_delete, Delete. destruct (foldl _ _ hashes) as [d b]. cbn [fst snd] in D. destruct D as [Hw' Hp Hv Hnd Hh Hb _ Hm].
  assert (∀ h, host_of (lru_cache_ b) h = if decide (h ∈ del_hashes d) then None else host_of (cache st) h) as Hho.
  { intros h. unfold host_of. rewrite Hv. by case_decide. }
  destruct L as [(m & Hmm & Hn) ? ? Hpin Hbl ? ? Hs HH].
  split; cbn [tier0 with_tier0 pool save_tracker_ del_host_blocks]; try done.
  - destruct (Hm ∅ m Hmm) as (m' & ? & ?). exists m'. split; [done|congruence].
  - intros k. by rewrite Hp.
  - rewrite Hb. by apply blocks_uncache.
  - intros h Hin. rewrite Hho. destruct (Hs h Hin). split; [done|]. by case_decide.
  - intros h Hin. rewrite Hho. rewrite decide_False; [by apply HH|]. intros [_ [Hz _]]%Hh.
    pose proof (Hcov h Hin) as Hi. apply list_elem_of_split in Hi as (l1 & l2 & ->). rewrite Hpin, times_app, times_cons, decide_True in Hz by done.
    pose proof (times_nonneg h l1). pose proof (times_nonneg h l2). lia.
Qed.

(** Blocks in hand may be bound to any hashes the table can hold. *)
Lemma zip_hosts hashes slices hosts :
  holds_blocks slices hosts → length hashes = length hosts →
  omap (λ hb : string * RaidenBlockId, host_block hb.2) (zip hashes slices) = hosts.
Proof.
  intros HF. revert hashes. induction HF as [|b blk slices hosts Hb _ IH]; intros [|h hashes]; try done.
  intros [= Hl]. cbn. rewrite Hb. f_equal. by apply IH.
Qed.
Lemma zip_hosts_set hashes slices hosts (c : LRUCache string RaidenBlockId) :
  holds_blocks slices hosts → (∀ h b, (h, b) ∈ zip hashes slices → host_of c h = host_block b) →
  ∀ h blk, (h, blk) ∈ zip hashes hosts → host_of c h = Some blk.
Proof.
  intros HF Hin h blk [i Hi]%list_elem_of_lookup. apply lookup_zip_with_Some in Hi as (h' & blk' & [= <- <-] & Hi1 & Hi2).
  destruct (Forall2_lookup_r _ _ _ _ _ HF Hi2) as (sl & Hsl & Hblk). rewrite <- Hblk. apply Hin.
  apply list_elem_of_lookup. exists i. apply lookup_zip_with_Some. eauto.
Qed.
Lemma ledger_fresh hashes slices hosts m st S H P B :
  ledger st S H P (hosts ++ B) → md_num_blocks m = total_blocks_ (pool st) → holds_blocks slices hosts →
  length hashes = length hosts → Forall hash_fits hashes → fresh_pairs m (cache st) (zip hashes slices).
Proof.
  intros L Hn HF Hlen Hfit. pose proof (le_blocks _ _ _ _ _ L) as Hb. split.
  - intros h b Hin blk Hblk. assert (blk ∈ hosts) as Hi.
    { rewrite <- (zip_hosts hashes slices hosts HF Hlen). apply list_elem_of_omap. by exists (h, b). }
    split.
    + apply set_accepts_iff. split.
      * rewrite Hn. eapply (proj1 (elem_of_allocated_set _ _)), (bo_alloc _ _ _ Hb). right. apply elem_of_app. by left.
      * apply elem_of_zip_l in Hin. by eapply (proj1 (Forall_forall _ _) Hfit).
    + intros k Hk. apply (bo_apart _ _ _ Hb k blk Hk), elem_of_app. by left.
  - rewrite (zip_hosts hashes slices hosts) by done. by apply (proj1 (NoDup_app _ _) (bo_nodup _ _ _ Hb)).
Qed.

(** A finished save: the entries take the blocks. *)
Lemma ledger_saved hashes slices hosts st S H P B :
  ledger st (hashes ++ S) H P (hosts ++ B) → (∀ h, h ∈ hashes → h ∈ P) → holds_blocks slices hosts →
  length hashes = length hosts → Forall hash_fits hashes →
  ledger (update_entries hashes slices st) S (hashes ++ H) P B.
Proof.
  intros L Hcov HF Hlen Hfit. pose proof (le_cache _ _ _ _ _ L) as Hw. pose proof (Forall2_length _ _ _ HF) as Hls.
  assert (∀ h, h ∈ hashes → Contains h (cache st) = true) as Hc by (intros h Hh; by eapply le_pinned, Hcov).
  destruct (le_mirror _ _ _ _ _ L) as (m & Hm & Hn).
  pose proof (ledger_fresh _ _ _ _ _ _ _ _ _ L Hn HF Hlen Hfit) as Hfr.
  unfold update_entries. rewrite best_effort_update by (done || lia). cbn [snd].
  assert ((zip hashes slices).*1 = hashes) as Ez by (apply fst_zip; lia).
  destruct (update_all_view (zip hashes slices) (tier0 st) Hw ltac:(by rewrite Ez)) as (Hw' & Hv & _ & Hp & _).
  destruct L as [_ ? ? Hpin Hbl ? Hnd Hs HH]. apply NoDup_app in Hnd as (Hnd & Hdis & HndS).
  destruct (update_all_fresh (zip hashes slices) (tier0 st) m Hm) as (m' & Hm' & Hn'); [by rewrite Ez| |done|].
  { rewrite Ez. intros h Hh. split; [by apply Hc|]. apply Hs, elem_of_app. by left. }
  destruct (insert_all_host_fresh (zip hashes slices) (cache st) _ Hv ltac:(by rewrite Ez)) as [Hin Hout]. rewrite Ez in Hout.
  set (b := foldl update1 (tier0 st) (zip hashes slices)) in *.
  pose proof (zip_hosts_set _ _ _ _ HF Hin) as Hset.
  assert ((zip hashes hosts).*1 = hashes ∧ (zip hashes hosts).*2 = hosts) as [Ezh1 Ezh2].
  { split; [apply fst_zip; lia|apply snd_zip; lia]. }
  split; cbn [tier0 with_tier0 pool save_tracker_]; try done.
  - exists m'. split; [done|congruence].
  - intros k. by rewrite Hp.
  - eapply (blocks_cache _ _ _ _ (zip hashes hosts)); rewrite ?Ezh1, ?Ezh2; try done.
    intros h Hh. apply Hs, elem_of_app. by left.
  - intros h Hh. rewrite Hout by (intros Hi; by eapply Hdis). apply Hs, elem_of_app. by right.
  - intros h Hh%elem_of_app. destruct (decide (h ∈ hashes)) as [Hi|]; [|rewrite Hout by done; apply HH; tauto].
    rewrite <- Ezh1 in Hi. apply list_elem_of_fmap in Hi as ([h' blk] & -> & Hi). exists blk. by apply Hset.
Qed.

(** A finished load: the entries keep their blocks. *)
Lemma ledger_loaded hashes slices st S H P B :
  ledger st S H P B → (∀ h, h ∈ hashes → h ∈ P) → length slices = length hashes →
  (∀ h b, (h, b) ∈ zip hashes slices → is_Some (host_block b) ∧ host_of (cache st) h = host_block b) →
  ledger (update_entries hashes slices st) S H P B.
Proof.
  intros L Hcov Hlen Hsame. pose proof (le_cache _ _ _ _ _ L) as Hw.
  assert (∀ h, h ∈ hashes → Contains h (cache st) = true) as Hc by (intros h Hh; by eapply le_pinned, Hcov).
  unfold update_entries. rewrite best_effort_update by done. cbn [snd].
  assert ((zip hashes slices).*1 = hashes) as Ez by (apply fst_zip; lia).
  destruct (update_all_view (zip hashes slices) (tier0 st) Hw ltac:(by rewrite Ez)) as (Hw' & Hv & _ & Hp & _).
  destruct L as [(m & Hm & Hn) ? ? Hpin Hbl ? Hnd Hs HH].
  destruct (update_all_same (zip hashes slices) (tier0 st) m Hm) as (m' & Hm' & Hn').
  { intros h b Hi. split; [apply Hc; by eapply elem_of_zip_l|]. by apply Hsame. }
  pose proof (insert_all_host_same (zip hashes slices) (cache st) _ Hv (λ h b Hi, proj2 (Hsame h b Hi))) as Hho.
  split; cbn [tier0 with_tier0 pool save_tracker_]; try done.
  - exists m'. split; [done|congruence].
  - intros k. by rewrite Hp.
  - by eapply blocks_same.
  - intros h. rewrite Hho. apply Hs.
  - intros h. rewrite Hho. apply HH.
Qed.

(** Strict admission: all the blocks go to new entries, or none. *)
Lemma ledger_admit hashes slices hosts st S H P B :
  ledger st S H P (hosts ++ B) → (∀ h, h ∈ S → h ∈ P) → (∀ h, h ∈ H → h ∈ P) → holds_blocks slices hosts →
  length hashes = length hosts → Forall hash_fits hashes →
  let '(ok, _, b) := HostOffloadBackend.Insert hashes slices kAdmitStrict (tier0 st) in
  ledger (with_tier0 b st) S H P (if ok then B else hosts ++ B).
Proof.
  intros L HS HP HF Hlen Hfit. pose proof (le_cache _ _ _ _ _ L) as Hw.
  destruct (le_mirror _ _ _ _ _ L) as (m & Hm & Hn). pose proof (ledger_fresh _ _ _ _ _ _ _ _ _ L Hn HF Hlen Hfit) as Hfr.
  destruct (Insert_admit_mirror hashes slices (tier0 st) m Hm Hfr) as (m' & Hm' & Hn').
  destruct (admit_view hashes slices (tier0 st) Hw) as [E|(s' & E & Hnd & Hnew & Hw' & Hv & Hp)]; rewrite E in *; cbn [snd] in *.
  { by destruct st. }
  pose proof (Forall2_length _ _ _ HF) as Hls. assert ((zip hashes slices).*1 = hashes) as Ez by (apply fst_zip; lia).
  destruct (insert_all_host_fresh (zip hashes slices) (cache st) _ Hv ltac:(by rewrite Ez)) as [Hin Hout]. rewrite Ez in Hout.
  assert (∀ h, h ∈ P → h ∉ hashes) as HnP.
  { intros h Hh Hi. destruct (le_pinned _ _ _ _ _ h L Hh) as [_ [? Hs]]. rewrite Hnew in Hs; done. }
  assert ((zip hashes hosts).*1 = hashes ∧ (zip hashes hosts).*2 = hosts) as [Ez1 Ez2].
  { split; [apply fst_zip; lia|apply snd_zip; lia]. }
  destruct L as [_ ? ? Hpin Hbl ? HndS Hs HH]. split; cbn [tier0 with_tier0 pool save_tracker_]; try done.
  - exists m'. split; [done|congruence].
  - intros k. by rewrite Hp.
  - eapply (blocks_cache _ _ _ _ (zip hashes hosts)); rewrite ?Ez1, ?Ez2; try done.
    + intros h Hh. unfold host_of. by rewrite Hnew.
    + by eapply zip_hosts_set.
  - intros h Hh. rewrite Hout by auto. auto.
  - intros h Hh. rewrite Hout by auto. auto.
Qed.

(** The blocks an insertion drops: those of the eviction candidates it takes for new. *)
Definition insert_lost (ok : bool) hashes st : list Z :=
  if ok then omap (host_of (cache st)) (filter (λ h, Contains h (cache st) = false) (remove_dups hashes)) else [].
Lemma ledger_insert hashes slices st S H P B :
  ledger st S H P B → (∀ h, h ∈ H → h ∈ P) → pins_room (length hashes) (cache st) →
  (∀ b, b ∈ slices → host_block b = None) →
  let '(ok, _, b) := HostOffloadBackend.Insert hashes slices kInsertAndPin (tier0 st) in
  ledger (with_tier0 b st) S H (if ok then hashes ++ P else P) (insert_lost ok hashes st ++ B).
Proof.
  intros L HP Hr Hnh. pose proof (le_cache _ _ _ _ _ L) as Hw. cbn [HostOffloadBackend.Insert].
  pose proof (InsertAndPin_host hashes slices (tier0 st) Hw Hr Hnh) as Hho.
  destruct (InsertAndPin_view hashes slices (tier0 st) Hw Hr) as (s1 & ok & b & E & Hw' & _ & _ & Hp & _ & _ & Hmir).
  rewrite E in *. set (D := if ok then filter (λ h, Contains h (cache st) = false) (remove_dups hashes) else []).
  assert (∀ h, host_of (lru_cache_ b) h = if decide (h ∈ D) then None else host_of (cache st) h) as HD.
  { intros h. rewrite Hho. unfold D. destruct ok; cbn [andb]; [|by rewrite decide_False by (by intros ?%not_elem_of_nil)].
    destruct (bool_decide (h ∈ hashes)) eqn:Eh; [apply bool_decide_eq_true in Eh|apply bool_decide_eq_false in Eh]; cbn [andb];
      (destruct (Contains h (cache st)) eqn:Ec; cbn [negb];
       [rewrite decide_False; [done|]; intros [? _]%list_elem_of_filter; congruence|]).
    - rewrite decide_True; [done|]. apply list_elem_of_filter. split; [done|]. by apply elem_of_remove_dups.
    - rewrite decide_False; [done|]. intros [_ Hi]%list_elem_of_filter. by apply Eh, elem_of_remove_dups. }
  assert (∀ h, h ∈ P → h ∉ D) as HPD.
  { intros h Hh. destruct (le_pinned _ _ _ _ _ h L Hh) as [Hc _]. unfold D. destruct ok; [|apply not_elem_of_nil].
    intros [? _]%list_elem_of_filter. congruence. }
  assert (insert_lost ok hashes st = omap (host_of (cache st)) D) as Elost by (unfold insert_lost, D; by destruct ok).
  destruct L as [(m & Hm & Hn) ? ? Hpin Hbl ? ? Hs HH].
  destruct (Hmir ∅ m Hm) as (m' & Hm' & Hn').
  { apply no_host_fresh. intros hb (j & -> & _)%list_elem_of_fmap. unfold pair_at. cbn.
    destruct (slices !! j) as [b'|] eqn:Eb; [|done]. cbn. by eapply Hnh, list_elem_of_lookup_2. }
  split; cbn [tier0 with_tier0 pool save_tracker_]; try done.
  - exists m'. split; [done|congruence].
  - intros k. rewrite Hp, Hpin. destruct ok; [rewrite times_app|]; lia.
  - rewrite Elost. apply blocks_uncache; [done| |done]. unfold D. destruct ok; [apply NoDup_filter, NoDup_remove_dups|constructor].
  - intros h Hh. rewrite HD. destruct (Hs h Hh). split; [done|]. by case_decide.
  - intros h Hh. rewrite HD, decide_False; auto.
Qed.

(** What the tracker calls of the store leave pending. *)
Lemma pending_Add hashes t : BlockTracker.wf t → BlockTracker.wf (AddPending hashes t) ∧
  pending_map_ (AddPending hashes t) = list_to_set hashes ∪ pending_map_ t.
Proof. intros Hw. split; [auto|]. by rewrite AddPending_eq. Qed.
Definition settled_by hashes (t t' : BlockTracker) : Prop :=
  BlockTracker.wf t' ∧ pending_map_ t' = pending_map_ t ∖ list_to_set hashes.
Lemma settled_calls hashes extra t :
  BlockTracker.wf t →
  settled_by hashes t (MarkDone hashes t) ∧ settled_by hashes t (MarkFailed hashes t) ∧ settled_by hashes t (RemovePending hashes t) ∧
  settled_by hashes t (MarkFailedWithExisting hashes extra t) ∧ settled_by hashes t (MarkFailedWithUnregistered hashes extra t).
Proof.
  intros Hw. assert (∀ t0, BlockTracker.wf t0 → pending_map_ t0 = pending_map_ t → settled_by hashes t (MarkFailedLocked hashes t0)) as Hf.
  { intros t0 Hw0 E. split; [auto|]. rewrite MarkFailedLocked_eq by done. cbn. by rewrite E. }
  split_and!; [|by apply Hf| |apply Hf; [by eapply wf_same_pending|done]|apply Hf; [by eapply wf_same_pending|done]].
  - split; [apply MarkDoneLocked_wf; done|unfold MarkDone; by rewrite MarkDoneLocked_eq].
  - split; [auto|by rewrite RemovePending_eq].
Qed.

(** A save ends: its hashes leave the tracker, the others stay. *)
Lemma ledger_settle_save hashes t st S H P B :
  ledger st (hashes ++ S) H P B → settled_by hashes (save_tracker_ st) t → ledger (with_save t st) S H P B.
Proof.
  intros L [Hw Et]. destruct (proj1 (NoDup_app _ _) (le_nodup _ _ _ _ _ L)) as (_ & Hdis & Hnd).
  eapply ledger_tracker; [exact L|done|done|]. intros h Hh.
  destruct (le_saving _ _ _ _ _ L h) as [Hp Hn]; [apply elem_of_app; by right|]. split; [|done].
  rewrite Et, elem_of_difference, elem_of_list_to_set. split; [done|]. intros Hi. by eapply Hdis.
Qed.
(** Hashes with a host block leave a tracker: no save is concerned. *)
Lemma ledger_settle_hosted owner hashes t st S H P B :
  ledger st S H P B → (∀ h, h ∈ hashes → h ∉ S) → settled_by hashes (tracker_of owner st) t ∨ owner = kSweep →
  ledger (with_tracker owner t st) S H P B.
Proof.
  intros L Hh Ht. destruct owner; cbn in *; [|eapply ledger_same, L; by repeat split].
  destruct Ht as [[Hw Et]|?]; [|done]. eapply ledger_tracker; [exact L|done|apply L|]. intros h Hs.
  destruct (le_saving _ _ _ _ _ L h Hs) as [Hp Hn]. split; [|done].
  rewrite Et, elem_of_difference, elem_of_list_to_set. split; [done|]. intros Hi. by eapply Hh.
Qed.
End ledger.
