(* ===== verification/StoreWorld.v ===== *)
(** * StoreWorld: the operations of a store node, interleaved
    (src/tpu_sync/kv_cache/kv_cache_store.cc, kv_cache_store_service.cc and
    host_offload_backend.cc running together)

    The world is a store node and the operations in flight: a job is a method between
    two segments, or a completion callback waiting for its transfer.  A step runs one
    segment; segments of different operations interleave freely.  A segment consumes
    the job it continues and the client pins it is entrusted with, and leaves the jobs
    to come, the pins it hands to clients and the blocks it dropped.

    SaveLocal is cut at its backend calls (the two halves of its lookup, then its
    checks and the reservation), a lookup at its tiers: nothing they do in between
    holds off the completions of other operations.  The other reservations (loads,
    offers, leases) are one segment each: they read only entries their caller has
    pinned, whose host block no completion replaces short of a fault.  Two segments damage the books and
    are kept apart as [fault_segment]: a save admitted for a hash that a completion
    has meanwhile put in host memory (or that names a hash twice), and a lookup that
    gives back a pin it has not taken.

    What the segments take for granted of the clients: they hand over and release pins
    they hold, insert blocks that are not in host memory, load by the slices of the
    entries as they are, and name hashes the metadata table can hold; and no pin count
    reaches [INT_MAX]. *)

From S2P Require Import Prelude RaidenTypes BlockPool LogicalBlockManager BlockTracker LruCache KvCacheMetadata.
From S2P Require Import HostOffloadBackend BackendMirror BackendViews KvCacheStore StoreService StoreLedger.

(** ** Jobs *)

(** Who asked AllocateBlockIds for blocks, with what it goes on to do. *)
Inductive Waiter :=
  | WSave (hashes : list string) (devices : list Z)
  | WRecall (hashes : list string) (devices : list Z).
Inductive Job :=
  | JPick (w : Waiter)
  | JPicked (w : Waiter) (keys : list string)
  | JEvicted (w : option Waiter) (blocks : list Z)
  | JAllocate (w : Waiter)
  | JSave (hashes : list string) (devices hosts : list Z)
  | JSecondarySave (hashes : list string) (devices hosts : list Z)
  | JPublish (hashes : list string) (n : Z)
  | JSaveSwept (hashes : list string) (hits : list bool)
  | JSaveLooked (hashes : list string) (slices : BlockSliceList)
  | JLookup (options : LookupOptions) (hashes : list string) (hits : list bool)
  | JLookedUp (hashes : list string) (found : BlockSliceList) (own : list bool)
  | JLoadStart (hashes : list string) (devices : list Z) (slices : list RaidenBlockId)
  | JLoad (hashes : list string) (devices : list Z)
  | JReadPeer (hashes : list string)
  | JFetching (hashes : list string) (hosts : list Z)
  | JReadingIn (hashes : list string) (hosts : list Z)
  | JRecall (hashes : list string) (devices hosts : list Z)
  | JOfferReserved (owner : SaveOwner) (hashes : list string)
  | JOfferPinned (owner : SaveOwner) (hashes : list string) (key : Z)
  | JOffer (owner : SaveOwner) (hashes : list string) (op_id : Z)
  | JOfferCancelled (owner : SaveOwner) (hashes : list string)
  | JFetch (sources : StatusOr (list Z)) (pinned : list string)
  | JAccept (hashes : list string) (granted : Z)
  | JPull (op_id : Z) (hashes : list string) (blocks : list Z)
  | JLate (op_id : Z) (hashes : list string) (blocks : list Z)
  | JClaimed (op_id : Z) (hashes : list string) (blocks : list Z)
  | JChecked (op_id : Z) (hashes : list string) (blocks : list Z)
  | JFinish (op_id : Z) (s : OpState) (existing : list string) (hashes : list string) (blocks : list Z)
  | JCommit (op_id : Z) (hashes : list string) (blocks : list Z).

Definition waiter_saves (w : Waiter) : list string := match w with WSave hashes _ => hashes | WRecall _ _ => [] end.
Definition waiter_hashes (w : Waiter) : list string := match w with WSave hashes _ | WRecall hashes _ => hashes end.
Definition waiter_needs (w : Waiter) : Z := Z.of_nat (length (waiter_hashes w)).
(** The hashes whose save is under way: an entry without a host block each. *)
Definition job_saving (j : Job) : list string :=
  match j with
  | JPick w | JPicked w _ | JEvicted (Some w) _ | JAllocate w => waiter_saves w
  | JSave hashes _ _ | JSecondarySave hashes _ _ => hashes
  | _ => []
  end.
(** The hashes whose host block a job reads. *)
Definition job_hosted (j : Job) : list string :=
  match j with
  | JLoadStart hashes _ _ | JLoad hashes _ | JOfferReserved _ hashes | JOfferPinned _ hashes _ | JOffer _ hashes _
  | JOfferCancelled _ hashes => hashes
  | _ => []
  end.
(** The pins a job will give back, pass on or consume. *)
Definition job_pins (j : Job) : list string :=
  match j with
  | JPublish hashes _ | JSaveSwept hashes _ | JSaveLooked hashes _ => hashes
  | JLookup _ hashes hits => hits_of (zip hashes hits)
  | JLookedUp _ found own => hits_of (zip found.*1 own)
  | JLoadStart hashes _ _ | JLoad hashes _ | JOfferReserved _ hashes => hashes
  | JOfferPinned _ hashes _ | JOffer _ hashes _ | JOfferCancelled _ hashes => hashes ++ hashes
  | JFetch _ pinned => pinned
  | _ => job_saving j
  end.
(** The host blocks a job has in hand. *)
Definition job_blocks (j : Job) : list Z :=
  match j with
  | JEvicted _ blocks => blocks
  | JSave _ _ hosts | JSecondarySave _ _ hosts | JFetching _ hosts | JReadingIn _ hosts | JRecall _ _ hosts => hosts
  | JPull _ _ blocks | JLate _ _ blocks | JClaimed _ _ blocks | JChecked _ _ blocks | JFinish _ _ _ _ blocks => blocks
  | _ => []
  end.
Definition saving (jobs : list Job) : list string := jobs ≫= job_saving.
Definition hosted (jobs : list Job) : list string := jobs ≫= job_hosted.
Definition pinned_by (jobs : list Job) : list string := jobs ≫= job_pins.
Definition held_by (jobs : list Job) : list Z := jobs ≫= job_blocks.

(** What every job in flight carries. *)
Definition waiter_ok (w : Waiter) : Prop :=
  match w with WSave hashes devices | WRecall hashes devices => length devices = length hashes ∧ Forall hash_fits hashes end.
Definition landing_ok (hashes : list string) (blocks : list Z) : Prop :=
  length blocks = length hashes ∧ blocks ≠ [] ∧ Forall hash_fits hashes.
Definition job_ok (j : Job) : Prop :=
  match j with
  | JPick w | JPicked w _ | JEvicted (Some w) _ | JAllocate w => waiter_ok w
  | JSave hashes devices hosts | JSecondarySave hashes devices hosts | JRecall hashes devices hosts =>
      length devices = length hashes ∧ length hosts = length hashes ∧ Forall hash_fits hashes
  | JSaveSwept hashes _ | JSaveLooked hashes _ => Forall hash_fits hashes
  | JLookup options hashes hits =>
      lo_pin_found options = true ∧ lo_include_eviction_candidates options = false ∧ length hits = length hashes
  | JLookedUp _ found own => length own = length found
  | JLoadStart hashes devices _ | JLoad hashes devices => length devices = length hashes
  | JAccept hashes _ => hashes ≠ [] ∧ Forall hash_fits hashes
  | JPull _ hashes blocks | JLate _ hashes blocks | JClaimed _ hashes blocks | JChecked _ hashes blocks
  | JCommit _ hashes blocks => landing_ok hashes blocks
  | JFinish _ s _ hashes blocks => landing_ok hashes blocks ∧ terminal s = true ∧ kept_by_cache s = false
  | _ => True
  end.

(** How a waiter goes on once it has its blocks, or an error. *)
Definition waiter_failed (w : Waiter) (c : StatusCode) (st : KVCacheStore) : KVCacheStore :=
  match w with
  | WSave hashes _ => (SaveLocal_allocated hashes (Err c) st).2
  | WRecall hashes _ => (Recall_allocated hashes (Err c) st).2
  end.
Definition waiter_launch (w : Waiter) (ids : list Z) (st : KVCacheStore) : Job :=
  match w with
  | WSave hashes devices => if has_secondary st then JSecondarySave hashes devices ids else JSave hashes devices ids
  | WRecall hashes devices => JRecall hashes devices ids
  end.
Definition publish_job (hashes : list string) (published : option Z) : list Job :=
  match published with Some n => [JPublish hashes n] | None => [] end.
(** The launches of a read: the peer's blocks and the storage blocks. *)
Definition read_jobs (g : ReadGroups) : list Job :=
  (if bool_decide (peer_group g = []) then [] else [JReadPeer (peer_group g).*1]) ++
  (if bool_decide (storage_group g = []) then [] else [JPick (WRecall (storage_group g).*1 (storage_group g).*2)]).

(** How the destination's first answer leaves an offer. *)
Inductive Begun := BegunOpen (op_id : Z) | BegunDone | BegunFailed.
Definition begun (response : StatusOr WriteRemoteResponse) : Begun :=
  match response with
  | Err _ => BegunFailed
  | Ok r =>
      match wr_exist_state r with
      | WRITE_ALL_EXIST => BegunDone
      | WRITE_PARTIAL_EXIST => BegunFailed
      | WRITE_EXIST_STATE_UNSPECIFIED => if wr_operation_id r =? 0 then BegunFailed else BegunOpen (wr_operation_id r)
      end
  end.
Definition verdict_ok (r : StatusOr WriteRemoteResult) : bool :=
  match r with Ok v => write_succeeded (res_state v) | Err _ => false end.

(** The stream of an offer was cancelled: its callback returns at once, and nobody
    gives its pins and its reservation back while the store lives. *)
Definition cancelled (r : StatusOr WriteRemoteResult) : bool := match r with Err kCancelled => true | _ => false end.

(** ** What a lookup gives back *)

(** The hashes in hand once the tiers have answered, and whether the lookup goes on. *)
Fixpoint tiers_found (tiers : list (option (list string → StatusOr BlockSliceList))) (hashes : list string)
    (acc : BlockSliceList) : bool * BlockSliceList :=
  match tiers with
  | [] => (true, acc)
  | tier :: rest =>
      if (length hashes <=? length acc)%nat then (true, acc)
      else match tier with
           | None => tiers_found rest hashes acc
           | Some answer =>
               match answer (drop (length acc) hashes) with
               | Ok found => tiers_found rest hashes (acc ++ found)
               | Err c => (negb (bool_decide (acc = [])) && bool_decide (c = kNotFound), acc)
               end
           end
  end.
(** [own]: which of tier 0's answers this lookup has pinned.  The hashes answered to
    the caller and those released, each with whether the lookup had pinned it. *)
Definition answer_split (tiers : list (option (list string → StatusOr BlockSliceList))) (hashes : list string)
    (found : BlockSliceList) (own : list bool) (st : KVCacheStore) : list (string * bool) * list (string * bool) :=
  let '(ok, acc) := tiers_found tiers hashes found in
  let marks := zip acc.*1 (own ++ replicate (length acc) false) in
  let cap := capacity_ (cache st) in
  if negb ok then ([], marks)
  else if (0 <? cap)%nat && (cap <? length acc)%nat then (take cap marks, drop cap marks)
  else (marks, []).
(** What is released without having been pinned has no pin to lose. *)
Definition gives_back_own (marks : list (string * bool)) (st : KVCacheStore) : bool :=
  forallb (λ hm, hm.2 || (KvCacheStore.GetPinCount hm.1 st <=? 0)) marks.
(** What a reservation finds that nothing has overtaken: distinct hashes, none in host
    memory. *)
Definition not_overtaken (hashes : list string) (st : KVCacheStore) : bool :=
  bool_decide (NoDup hashes) && forallb (λ h, bool_decide (host_of (cache st) h = None)) hashes.

(** ** Segments of the store *)
Implicit Types (st : KVCacheStore) (nd : StoreNode) (jobs : list Job) (hashes : list string).
(** The job continued, the client pins entrusted, the store; the jobs to come, the pins
    given to clients, the blocks dropped, the store after. *)
Definition Transition : Type :=
  list Job → list string → KVCacheStore → list Job → list string → list Z → KVCacheStore → Prop.

(** Clients of the index: insertions, pins, lookups, leases and polls. *)
Inductive index_segment : Transition :=
  | seg_insert st hashes slices r st' :
      pins_room (length hashes) (cache st) → (∀ b, b ∈ slices → host_block b = None) →
      KvCacheStore.Insert hashes slices st = (r, st') →
      index_segment [] [] st [] (if is_ok r then hashes else []) (insert_lost (is_ok r) hashes st) st'
  | seg_pin st hashes ok b :
      pins_room (length hashes) (cache st) → Pin hashes (tier0 st) = (ok, b) →
      index_segment [] [] st [] (if ok then hashes else []) [] (with_tier0 b st)
  | seg_release st hashes : index_segment [] hashes st [] [] [] (KvCacheStore.Release hashes st)
  | seg_lookup st order registry tiers hashes options found st' :
      lo_include_eviction_candidates options = false → lo_enable_global options = false → lo_pin_found options = true →
      lo_host_resident_only options || bool_decide (lo_match_mode options = kSubset) = true →
      pins_room (length hashes + length order) (cache st) →
      KvCacheStore.Lookup order registry tiers hashes options st = (Ok found, st') →
      index_segment [] [] st [] found.*1 [] st'
  | seg_lookup_local st order registry hashes options found st' :
      lo_include_eviction_candidates options = false → lo_enable_global options = false → lo_pin_found options = true →
      pins_room (length hashes + length order) (cache st) →
      tier0_lookup order registry hashes options st = (Ok found, st') →
      index_segment [] [] st [JLookedUp hashes found (replicate (length found) true)] [] [] st'
  | seg_lookup_sweep st hashes options hits missing c :
      lo_include_eviction_candidates options = false → lo_pin_found options = true →
      pins_room (length hashes) (cache st) → lookup_sweep options hashes (cache st) = (hits, missing, c) →
      index_segment [] [] st [JLookup options hashes hits] [] [] (with_tier0 (set_cache c (tier0 st)) st)
  | seg_lookup_finish st hashes options hits remote found b :
      lookup_finish options hashes hits remote (tier0 st) = (found, b) →
      index_segment [JLookup options hashes hits] [] st [JLookedUp hashes found (take (length found) hits)] [] [] (with_tier0 b st)
  | seg_lookup_answer st tiers hashes found own kept returned r st' :
      answer_split tiers hashes found own st = (kept, returned) → gives_back_own returned st = true →
      Lookup_answer true tiers hashes found st = (r, st') →
      index_segment [JLookedUp hashes found own] [] st [] (hits_of kept) [] st'
  | seg_lease st order registry hashes r st' :
      pins_room (length hashes + length order) (cache st) → ValidateAndPinHostBlocks order registry hashes st = (r, st') →
      index_segment [] [] st [] (if is_ok r then hashes else []) [] st'
  | seg_poll_save st r st' : PollSaveStatus st = (r, st') → index_segment [] [] st [] [] [] st'
  | seg_poll_load st r st' : PollLoadStatus st = (r, st') → index_segment [] [] st [] [] [] st'.

(** Local saves. *)
Inductive save_segment : Transition :=
  | seg_save st hashes hits missing c :
      Forall hash_fits hashes → lookup_sweep default_lookup hashes (cache st) = (hits, missing, c) →
      save_segment [] hashes st [JSaveSwept hashes hits] [] [] (with_tier0 (set_cache c (tier0 st)) st)
  | seg_save_looked st hashes hits remote slices b :
      lookup_finish default_lookup hashes hits remote (tier0 st) = (slices, b) →
      save_segment [JSaveSwept hashes hits] [] st [JSaveLooked hashes slices] [] [] (with_tier0 b st)
  | seg_save_admit st hashes slices devices st' :
      SaveLocal_admit hashes slices st = (Ok devices, st') → not_overtaken hashes st = true →
      save_segment [JSaveLooked hashes slices] [] st [JPick (WSave hashes devices)] [] [] st'
  | seg_save_reject st hashes slices c st' :
      SaveLocal_admit hashes slices st = (Err c, st') →
      save_segment [JSaveLooked hashes slices] [] st [] hashes [] st'
  | seg_save_refused st order registry hashes c st' :
      SaveLocal_reserve order registry hashes st = (Err c, st') → save_segment [] [] st [] [] [] st'
  | seg_saved st hashes devices hosts published st' :
      Save_publish hashes (Save_complete true hashes devices hosts st) = (published, st') →
      save_segment [JSave hashes devices hosts] [] st (publish_job hashes published) [] [] st'
  | seg_save_lost st hashes devices hosts :
      save_segment [JSave hashes devices hosts] [] st [] hashes [] (Save_complete false hashes devices hosts st)
  | seg_secondary_saved st hashes devices hosts published st' :
      Save_publish hashes (SecondarySave_complete true hashes devices hosts st) = (published, st') →
      save_segment [JSecondarySave hashes devices hosts] [] st (publish_job hashes published) [] [] st'
  | seg_secondary_lost st hashes devices hosts :
      save_segment [JSecondarySave hashes devices hosts] [] st [] [] [] (SecondarySave_complete false hashes devices hosts st)
  | seg_published st hashes n : save_segment [JPublish hashes n] [] st [] [] [] (WriteThrough_complete hashes n st).

(** Allocation with eviction; its calls do nothing on an empty batch, which the code
    skips. *)
Inductive alloc_segment : Transition :=
  | seg_pick st w keys :
      AllocateBlockIds_pick (waiter_needs w) st = Ok keys → alloc_segment [JPick w] [] st [JPicked w keys] [] [] st
  | seg_pick_failed st w c :
      AllocateBlockIds_pick (waiter_needs w) st = Err c →
      alloc_segment [JPick w] [] st [] (waiter_saves w) [] (waiter_failed w c st)
  | seg_evict st w keys d st' :
      Evict_delete keys st = (d, st') →
      alloc_segment [JPicked w keys] [] st [JEvicted (Some w) (del_host_blocks d)] [] [] st'
  | seg_evict_client st keys d st' :
      Evict_delete keys st = (d, st') → alloc_segment [] [] st [JEvicted None (del_host_blocks d)] [] [] st'
  | seg_free st w blocks :
      alloc_segment [JEvicted w blocks] [] st (match w with Some w => [JAllocate w] | None => [] end) [] []
        (DeallocateBlockIds blocks st)
  | seg_allocate st w ids st' :
      controller_AllocateBlockIds (waiter_needs w) st = (Ok ids, st') →
      alloc_segment [JAllocate w] [] st [waiter_launch w ids st'] [] [] st'
  | seg_allocate_failed st w c st' :
      controller_AllocateBlockIds (waiter_needs w) st = (Err c, st') →
      alloc_segment [JAllocate w] [] st [] (waiter_saves w) [] (waiter_failed w c st').

(** Loads from host memory. *)
Inductive load_segment : Transition :=
  | seg_load st order registry hashes devices st' :
      pins_room (length hashes) (cache st) → Load_reserve order registry hashes devices st = (Ok true, st') →
      load_segment [] hashes st [JLoadStart hashes devices []] [] [] st'
  | seg_load_none st order registry hashes devices r st' :
      Load_reserve order registry hashes devices st = (r, st') → r ≠ Ok true → load_segment [] [] st [] [] [] st'
  | seg_load_slices st hashes slices devices st' :
      Load_fork hashes slices devices = Ok (Some FromHost) →
      (∀ h b, (h, b) ∈ zip hashes slices → values (cache st) !! h = Some b) →
      LoadSlices_reserve hashes slices st = (OkStatus, st') →
      load_segment [] hashes st [JLoadStart hashes devices slices] [] [] st'
  | seg_load_started st hashes devices slices ids st' :
      Load_dispatch hashes devices slices st = (Ok ids, st') →
      load_segment [JLoadStart hashes devices slices] [] st [JLoad hashes devices] [] [] st'
  | seg_load_refused st hashes devices slices c st' :
      Load_dispatch hashes devices slices st = (Err c, st') →
      load_segment [JLoadStart hashes devices slices] [] st [] hashes [] st'
  | seg_loaded st hashes devices :
      load_segment [JLoad hashes devices] [] st [] [] [] (LoadLocal_complete true hashes devices st)
  | seg_load_lost st hashes devices :
      load_segment [JLoad hashes devices] [] st [] hashes [] (LoadLocal_complete false hashes devices st).

(** Reads of blocks that are elsewhere. *)
Inductive read_segment : Transition :=
  | seg_read st hashes slices devices g st' :
      ReadRemote_reserve hashes slices devices st = (Ok g, st') → Forall hash_fits hashes →
      read_segment [] [] st (read_jobs g) [] [] st'
  | seg_read_start st client hashes r st' :
      LoadRemote_start client hashes st = (r, st') →
      read_segment [JReadPeer hashes] [] st (match r with Ok ids => [JFetching hashes ids] | Err _ => [] end) [] [] st'
  | seg_fetched st response hashes hosts ok st' :
      LoadRemote_fetched response hashes hosts st = (ok, st') →
      read_segment [JFetching hashes hosts] [] st (if ok then [JReadingIn hashes hosts] else []) [] [] st'
  | seg_read_done st ok hashes hosts :
      read_segment [JReadingIn hashes hosts] [] st [] [] [] (LoadRemote_complete ok hashes hosts st)
  | seg_recalled st ok hashes devices hosts :
      read_segment [JRecall hashes devices hosts] [] st [] [] [] (Recall_complete ok hashes devices hosts st).

(** Offers to a peer. *)
Inductive offer_segment : Transition :=
  | seg_offer st order registry owner hashes dst ids st' :
      pins_room (length hashes) (cache st) →
      SaveRemote_precheck hashes dst st = Ok true → SaveRemote_reserve order registry owner hashes st = (Ok ids, st') →
      offer_segment [] hashes st [JOfferReserved owner hashes] [] [] st'
  | seg_offer_refused st order registry owner hashes c st' :
      pins_room (length hashes) (cache st) → SaveRemote_reserve order registry owner hashes st = (Err c, st') → offer_segment [] [] st [] [] [] st'
  | seg_offer_pinned st owner hashes dst now hold key st1 st' :
      pins_room (length hashes) (cache st) → SaveRemote_pin owner hashes hold st = (OkStatus, st1) →
      SaveRemote_record owner dst hashes now hold st1 = (key, st') →
      offer_segment [JOfferReserved owner hashes] [] st [JOfferPinned owner hashes key] [] [] st'
  | seg_offer_unpinned st owner hashes hold c st' :
      pins_room (length hashes) (cache st) → SaveRemote_pin owner hashes hold st = (Err c, st') →
      offer_segment [JOfferReserved owner hashes] [] st [] hashes [] st'
  | seg_offer_begun st owner hashes key now response ack st1 r st' :
      BeginWriteRemote owner hashes response st = (ack, st1) → SaveRemote_acked owner hashes key now ack st1 = (r, st') →
      offer_segment [JOfferPinned owner hashes key] [] st
        (match begun response with BegunOpen op_id => [JOffer owner hashes op_id] | _ => [] end)
        (match begun response with BegunFailed => hashes | _ => [] end) [] st'
  | seg_offer_stream st owner hashes op_id r remaining_hold polls st' :
      RemoteWrite_stream owner hashes r op_id remaining_hold st = (polls, st') →
      offer_segment [JOffer owner hashes op_id] [] st
        (if cancelled r then [JOfferCancelled owner hashes] else if polls then [JOffer owner hashes op_id] else [])
        (if cancelled r || polls || verdict_ok r then [] else hashes) [] st'
  | seg_offer_polled st owner hashes op_id r :
      offer_segment [JOffer owner hashes op_id] [] st [] (if verdict_ok r then [] else hashes) []
        (RemoteWrite_settle owner hashes r st).

(** Segments after which the books no longer balance. *)
Inductive Fault := Overtaken (hashes : list string) | ForeignPins (marks : list (string * bool)).
Inductive fault_segment : Fault → Transition :=
  | flt_save_admit st hashes slices devices st' :
      SaveLocal_admit hashes slices st = (Ok devices, st') → not_overtaken hashes st = false →
      fault_segment (Overtaken hashes) [JSaveLooked hashes slices] [] st [JPick (WSave hashes devices)] [] [] st'
  | flt_lookup_answer st tiers hashes found own kept returned r st' :
      answer_split tiers hashes found own st = (kept, returned) → gives_back_own returned st = false →
      Lookup_answer true tiers hashes found st = (r, st') →
      fault_segment (ForeignPins returned) [JLookedUp hashes found own] [] st [] (hits_of kept) [] st'.

(** ** The segments keep the books *)
Ltac books := unfold saving, hosted, pinned_by, held_by in *; cbn in *; rewrite ?app_nil_r, <- ?app_assoc in *.
Ltac jobs_ok := first [by apply Forall_singleton|by constructor].
Section segments.
Implicit Types (S H P : list string) (B ids hosts devices : list Z) (h : string) (owner : SaveOwner).

(** What a reservation learns from its lookup. *)
Lemma lookup_entries order registry hashes options st r st' :
  lo_match_mode options = kPrefix → lo_include_eviction_candidates options = false → lo_pin_found options = false →
  LruCache.wf (cache st) → pins_room (length hashes) (cache st) →
  tier0_lookup order registry hashes options st = (r, st') →
  st' = st ∧ ∀ found, r = Ok found → (length found <? length hashes)%nat = false →
    found.*1 = hashes ∧ length found = length hashes ∧
    ∀ h b, (h, b) ∈ zip hashes found.*2 →
      (h, b) ∈ found ∧ ((status b = REMOTE ∧ lo_enable_global options = true) ∨ values (cache st) !! h = Some b ∧ Contains h (cache st) = true).
Proof.
  intros Hm Hc Hp Hw Hr E. pose proof (tier0_lookup_unpinned order registry hashes options st Hp) as E2. rewrite E in E2.
  cbn in E2. split; [done|]. intros found -> Hlen%Nat.ltb_ge. unfold tier0_lookup in E.
  destruct (HostOffloadBackend.Lookup order registry hashes options (tier0 st)) as [r b'] eqn:El.
  assert (r = Ok found) as -> by congruence.
  destruct (Lookup_prefix_answer order registry hashes options (tier0 st) found Hm Hc Hw Hr) as (H1 & H2 & H3); [by rewrite El|].
  assert (length found = length hashes) as Hlf by lia. rewrite Hlf, firstn_all in H1.
  split; [done|]. split; [done|]. rewrite <- H1, zip_fst_snd. intros h b Hin. split; [done|]. by apply H3.
Qed.

Lemma save_admit_ledger hashes slices devices st st' S H P B :
  ledger st S H P B → not_overtaken hashes st = true → SaveLocal_admit hashes slices st = (Ok devices, st') →
  ledger st' (hashes ++ S) H P B ∧ length devices = length hashes.
Proof.
  intros L [Hnd%bool_decide_eq_true Hno]%andb_true_iff. unfold SaveLocal_admit.
  destruct (Nat.ltb_spec (length slices) (length hashes)) as [|Hlen]; [done|].
  destruct (mapM (save_check st) (zip hashes slices.*2)) as [devs|] eqn:Em; [|done]. intros [= <- <-].
  apply mapM_Ok in Em. apply Forall2_length in Em as Hl. rewrite length_zip, length_fmap in Hl. split; [|lia].
  assert (∀ h, h ∈ hashes → h ∉ pending_map_ (save_tracker_ st)) as Hnp.
  { intros h [i Hi]%list_elem_of_lookup. destruct (lookup_lt_is_Some_2 (zip hashes slices.*2) i) as [[h' b] Hz].
    { apply lookup_lt_Some in Hi. rewrite length_zip, length_fmap. lia. }
    pose proof Hz as Hz'. apply lookup_zip_with_Some in Hz' as (? & ? & [= <- <-] & Hi' & _). simplify_eq.
    destruct (Forall2_lookup_l _ _ _ _ _ Em Hz) as (dev & _ & Hck). unfold save_check in Hck. repeat case_match; try done.
    match goal with E : _ || _ = false |- _ => apply orb_false_iff in E as [Ep _] end.
    unfold IsPending in Ep. by apply bool_decide_eq_false in Ep. }
  rewrite forallb_forall in Hno. destruct (pending_Add hashes _ (le_tracker _ _ _ _ _ L)) as [Hw Ep].
  eapply ledger_tracker; [exact L|done| |].
  - apply NoDup_app. split; [done|]. split; [|apply L]. intros h Hi Hs. apply (Hnp h Hi), (le_saving _ _ _ _ _ L h Hs).
  - intros h. rewrite Ep, elem_of_app, elem_of_union, elem_of_list_to_set. intros [Hi|Hs].
    + split; [by left|]. eapply bool_decide_eq_true, Hno. by apply list_elem_of_In.
    + destruct (le_saving _ _ _ _ _ L h Hs). auto.
Qed.
Lemma save_reject_same hashes slices c st st' : SaveLocal_admit hashes slices st = (Err c, st') → st' = st.
Proof. unfold SaveLocal_admit. repeat case_match; naive_solver. Qed.
Lemma save_refused_same order registry hashes c st st' :
  SaveLocal_reserve order registry hashes st = (Err c, st') → st' = st.
Proof.
  unfold SaveLocal_reserve. pose proof (tier0_lookup_unpinned order registry hashes default_lookup st eq_refl) as E.
  destruct (tier0_lookup _ _ _ _ _) as [[found|] st1]; cbn in E; subst; [apply save_reject_same|by intros [= _ <-]].
Qed.
(** The lookup of a save changes nothing. *)
Lemma save_sweep_same hashes hits missing c st :
  lookup_sweep default_lookup hashes (cache st) = (hits, missing, c) → with_tier0 (set_cache c (tier0 st)) st = st.
Proof.
  intros E. pose proof (lookup_sweep_unpinned default_lookup eq_refl hashes (cache st)) as Hc. rewrite E in Hc. cbn in Hc. subst c.
  rewrite set_cache_id. by destruct st.
Qed.
Lemma save_looked_same hashes hits remote slices b st :
  lookup_finish default_lookup hashes hits remote (tier0 st) = (slices, b) → with_tier0 b st = st.
Proof. unfold lookup_finish. cbn. intros [= _ <-]. by destruct st. Qed.
Lemma saved_slices_hosts b hashes hosts devices :
  length hosts = length hashes → length devices = length hashes → holds_blocks (saved_slices b hashes hosts devices) hosts.
Proof.
  revert hosts devices; induction hashes as [|h hashes IH]; intros [|x hosts] [|d devices] Hl Hd; try (done || constructor).
  2:{ apply IH; cbn in *; lia. } unfold saved_slice, host_block. by destruct (Peek h (lru_cache_ b)).
Qed.
(** Entries that have taken their blocks leave the tracker. *)
Lemma entries_saved hashes slices hosts t st S H P B :
  ledger st (hashes ++ S) H P (hosts ++ B) → (∀ h, h ∈ hashes → h ∈ P) → holds_blocks slices hosts →
  length hosts = length hashes → Forall hash_fits hashes → settled_by hashes (save_tracker_ st) t →
  ledger (with_save t (update_entries hashes slices st)) S H P B.
Proof.
  intros L Hcov HF Hl Hfit Ht. destruct (proj1 (NoDup_app _ _) (le_nodup _ _ _ _ _ L)) as (_ & Hdis & _).
  pose proof (ledger_saved _ _ _ _ _ _ _ _ L Hcov HF (eq_sym Hl) Hfit) as L2.
  apply (ledger_settle_hosted kApplication hashes t) in L2; [|intros h Hi Hs; by eapply Hdis|by left].
  eapply ledger_perm; [exact L2|done| |done|done]. intros h Hh. apply elem_of_app. by right.
Qed.
Lemma save_complete_ledger hashes devices hosts st S H P B :
  ledger st (hashes ++ S) H (hashes ++ P) (hosts ++ B) →
  length hosts = length hashes → length devices = length hashes → Forall hash_fits hashes →
  ledger (Save_complete true hashes devices hosts st) S H (hashes ++ P) B.
Proof.
  intros L Hl Hd Hfit. eapply entries_saved; [exact L| |by apply saved_slices_hosts|done|done|].
  - intros h Hh. apply elem_of_app. by left.
  - apply (settled_calls hashes [] (save_tracker_ st)), L.
Qed.
Lemma save_failed_ledger hashes hosts st S H P B :
  ledger st (hashes ++ S) H P (hosts ++ B) →
  ledger (with_save (MarkFailed hashes (save_tracker_ st)) (DeallocateBlockIds hosts st)) S H P B.
Proof.
  intros L. apply ledger_deallocate in L. eapply (ledger_settle_save hashes); [exact L|].
  apply (settled_calls hashes [] (save_tracker_ st)), (le_tracker _ _ _ _ _ L).
Qed.
Lemma secondary_slices_hosts id hosts devices :
  length devices = length hosts → holds_blocks (zip_with (λ host d, mkRaidenBlockId id host d HOST_AND_HBM) hosts devices) hosts.
Proof. revert devices; induction hosts as [|x hosts IH]; intros [|d devices] Hl; try (done || constructor); [done|apply IH; cbn in *; lia]. Qed.
Lemma secondary_complete_ledger hashes devices hosts st S H P B :
  ledger st (hashes ++ S) H (hashes ++ P) (hosts ++ B) →
  length hosts = length hashes → length devices = length hashes → Forall hash_fits hashes →
  ledger (SecondarySave_complete true hashes devices hosts st) S H (hashes ++ P) B.
Proof.
  intros L Hl Hd Hfit. assert (settled_by hashes (save_tracker_ st) (MarkDone hashes (save_tracker_ st))) as Ht
    by (apply (settled_calls hashes [] (save_tracker_ st)), L).
  unfold SecondarySave_complete. case_bool_decide as Hne.
  - subst. destruct hosts; [|done]. by eapply (ledger_settle_save []).
  - eapply entries_saved; [exact L| |apply secondary_slices_hosts; lia|done|done|done].
    intros h Hh. apply elem_of_app. by left.
Qed.
Lemma publish_ledger hashes published st st' S H P B :
  ledger st S H (hashes ++ P) B → Save_publish hashes st = (published, st') →
  ledger st' S H ((if published is Some _ then hashes else []) ++ P) B.
Proof.
  intros L. unfold Save_publish. destruct (_ && _); [destruct (_ <=? _)|]; intros [= <- <-]; try by apply ledger_release.
  eapply ledger_same, L. by repeat split.
Qed.
Lemma write_through_ledger hashes n st S H P B :
  ledger st S H (hashes ++ P) B → ledger (WriteThrough_complete hashes n st) S H P B.
Proof. intros L. apply ledger_release. eapply ledger_same, L. by repeat split. Qed.

Lemma waiter_failed_ledger w c st S H P B :
  ledger st (waiter_saves w ++ S) H P B → ledger (waiter_failed w c st) S H P B.
Proof.
  destruct w as [hashes devices|hashes devices]; cbn; intros L.
  - eapply (ledger_settle_save hashes); [exact L|]. apply (settled_calls hashes [] (save_tracker_ st)), L.
  - eapply ledger_same, L. by repeat split.
Qed.

(** *** Loads *)
Lemma host_resident_of st h b :
  values (cache st) !! h = Some b → IsHostResidentStatus (status b) = true → is_Some (host_of (cache st) h).
Proof. intros Hv Hs. unfold host_of, host_block. rewrite Hv. cbn. rewrite Hs. eauto. Qed.
Lemma ledger_hosted hashes st S H P B :
  ledger st S H P B → (∀ h, h ∈ hashes → is_Some (host_of (cache st) h)) → ledger st S (hashes ++ H) P B.
Proof. intros [] Hh. split; try done. intros h [?|?]%elem_of_app; auto. Qed.
Lemma zip_lookup {A} (l : list A) hashes h :
  length l = length hashes → h ∈ hashes → ∃ x, (h, x) ∈ zip hashes l.
Proof.
  intros Hl [i Hi]%list_elem_of_lookup. destruct (lookup_lt_is_Some_2 l i) as [x Hx]; [apply lookup_lt_Some in Hi; lia|].
  exists x. apply list_elem_of_lookup. exists i. apply lookup_zip_with_Some. eauto.
Qed.
Lemma load_reserve_ledger order registry hashes devices st r st' S H P B :
  ledger st S H P B → pins_room (length hashes) (cache st) →
  Load_reserve order registry hashes devices st = (r, st') →
  ledger st' S H P B ∧ (r = Ok true → length devices = length hashes ∧ ∀ h, h ∈ hashes → is_Some (host_of (cache st') h)).
Proof.
  intros L Hr. unfold Load_reserve. destruct (Nat.eqb_spec (length hashes) (length devices)) as [Hl|]; cbn [negb]; [|by intros [= <- <-]].
  case_bool_decide; [by intros [= <- <-]|].
  destruct (tier0_lookup order registry hashes default_lookup st) as [r1 st1] eqn:El.
  destruct (lookup_entries order registry hashes default_lookup st r1 st1) as [-> Hf]; try done; [by eapply le_cache|].
  destruct r1 as [found|]; [|by intros [= <- <-]]. destruct (length found <? length hashes)%nat eqn:Elen; [by intros [= <- <-]|].
  destruct (Hf found eq_refl Elen) as (H1 & H2 & H3).
  destruct (mapM (load_check st) (zip hashes found.*2)) as [us|] eqn:Em; intros [= <- <-]; [|done].
  split; [eapply ledger_same, L; by repeat split|]. intros _. split; [done|]. intros h Hh.
  destruct (zip_lookup found.*2 hashes h) as [b Hb]; [by rewrite length_fmap|done|].
  apply mapM_Ok in Em. apply list_elem_of_lookup in Hb as [i Hi]. destruct (Forall2_lookup_l _ _ _ _ _ Em Hi) as (u & _ & Hck).
  destruct (H3 h b) as [_ [[Hs _]|[Hv _]]]; [by eapply list_elem_of_lookup_2| |]; unfold load_check in Hck.
  - by rewrite Hs in Hck.
  - eapply (host_resident_of st); [done|]. destruct (IsHostResidentStatus (status b)); [done|]. repeat case_match; done.
Qed.
Lemma load_none_same order registry hashes devices r st st' :
  Load_reserve order registry hashes devices st = (r, st') → r ≠ Ok true → st' = st.
Proof.
  unfold Load_reserve. pose proof (tier0_lookup_unpinned order registry hashes default_lookup st eq_refl) as E.
  destruct (tier0_lookup _ _ _ _ _) as [[found|] st1]; cbn in E; subst; repeat case_match; naive_solver.
Qed.
Lemma load_slices_ledger hashes slices devices st st' S H P B :
  ledger st S H P B → Load_fork hashes slices devices = Ok (Some FromHost) →
  (∀ h b, (h, b) ∈ zip hashes slices → values (cache st) !! h = Some b) →
  LoadSlices_reserve hashes slices st = (OkStatus, st') →
  ledger st' S (hashes ++ H) P B ∧ length devices = length hashes.
Proof.
  intros L Hfork Hcur. unfold LoadSlices_reserve. destruct (mapM _ _) as [us|] eqn:Em; intros [= <-].
  unfold Load_fork in Hfork. destruct (Nat.eqb_spec (length hashes) (length slices)) as [Hl|]; [|done].
  destruct (Nat.eqb_spec (length slices) (length devices)) as [Hl2|]; [|done]. split; [|lia].
  apply ledger_hosted; [eapply ledger_same, L; by repeat split|]. intros h Hh.
  destruct (zip_lookup slices hashes h) as [b Hb]; [done|done|]. apply mapM_Ok in Em. pose proof (Hcur h b Hb) as Hv.
  apply list_elem_of_lookup in Hb as [i Hi]. destruct (Forall2_lookup_l _ _ _ _ _ Em Hi) as (u & _ & Hck).
  eapply (host_resident_of st); [done|]. unfold load_slice_check in Hck. destruct (IsHostResidentStatus (status b)); [done|].
  repeat case_match; done.
Qed.
Lemma load_dispatch_same hashes devices slices st r st' :
  Load_dispatch hashes devices slices st = (r, st') → same_books st st'.
Proof.
  unfold Load_dispatch, LoadLocal_start. repeat case_match; intros [= <- <-]; by repeat split.
Qed.

Lemma loaded_updates b hashes devices :
  length devices = length hashes →
  (∀ h, h ∈ hashes → ∃ e, Peek h (lru_cache_ b) = Some e ∧ values (lru_cache_ b) !! h = Some e ∧ is_Some (host_block e)) →
  let updates := omap (loaded_slice b) (zip hashes devices) in
  updates.*1 = hashes ∧ ∀ h sl, (h, sl) ∈ updates → is_Some (host_block sl) ∧ host_of (lru_cache_ b) h = host_block sl.
Proof.
  revert devices; induction hashes as [|h hashes IH]; intros [|d devices] Hl He; try done.
  { split; [done|]. by intros ? ? ?%not_elem_of_nil. }
  destruct (He h ltac:(left)) as (e & Hp & Hv & [blk Hb]).
  destruct (IH devices ltac:(cbn in *; lia)) as [H1 H2]; [intros k Hk; apply He; by right|].
  cbn [zip_with omap list_omap]. assert (loaded_slice b (h, d) = Some (h, mkRaidenBlockId (raiden_id e) (host_block_id e) d HOST_AND_HBM)) as ->
    by (unfold loaded_slice; cbn; by rewrite Hp). cbn zeta. split; [cbn; by f_equal|].
  intros k sl [[= -> ->]|Hin]%elem_of_cons; [|by apply H2]. cbn. split; [by eexists|].
  unfold host_of. rewrite Hv. cbn. unfold host_block in *. by destruct (IsHostResidentStatus (status e)).
Qed.
Lemma load_complete_ledger hashes devices st S H P B :
  ledger st S (hashes ++ H) (hashes ++ P) B → length devices = length hashes →
  ledger (LoadLocal_complete true hashes devices st) S H P B.
Proof.
  intros L Hl. unfold LoadLocal_complete.
  destruct (loaded_updates (tier0 st) hashes devices Hl) as [H1 H2].
  { intros h Hh. destruct (le_pinned _ _ _ _ _ h L) as [Hc [e He]]; [apply elem_of_app; by left|].
    destruct (le_hosted _ _ _ _ _ L h) as [blk Hb]; [apply elem_of_app; by left|]. exists e. rewrite Peek_values, Hc.
    split; [done|]. split; [done|]. unfold host_of in Hb. rewrite He in Hb. by exists blk. }
  set (updates := omap _ _) in *. apply ledger_with_load.
  assert (ledger st S H (hashes ++ P) B) as L1.
  { eapply ledger_perm; [exact L|done| |done|done]. intros h Hh. apply elem_of_app. by right. }
  case_bool_decide as Hne.
  - rewrite Hne in H1. cbn in H1. by subst hashes.
  - rewrite H1. apply ledger_release. apply ledger_loaded; [done| |by rewrite <- H1, !length_fmap|].
    + intros h Hh. apply elem_of_app. by left.
    + rewrite <- H1, zip_fst_snd. exact H2.
Qed.

(** *** Reads of blocks that are elsewhere *)
Lemma route_reads_hashes local_id seen g reads g' :
  route_reads local_id seen g reads = Ok g' →
  ∀ h, h ∈ (storage_group g').*1 → h ∈ (storage_group g).*1 ∨ h ∈ reads.*1.
Proof.
  revert seen g; induction reads as [|[hash [slice device]] reads IH]; intros seen g; cbn [route_reads].
  { intros [= <-]. by left. }
  assert (∀ seen' g2, route_reads local_id seen' g2 reads = Ok g' →
    (∀ h, h ∈ (storage_group g2).*1 → h ∈ (storage_group g).*1 ∨ h = hash) →
    ∀ h, h ∈ (storage_group g').*1 → h ∈ (storage_group g).*1 ∨ h ∈ ((hash, (slice, device)) :: reads).*1) as Hrec.
  { intros seen' g2 E Hg h Hh. destruct (IH _ _ E h Hh) as [Hi|Hi]; [|right; by right]. destruct (Hg h Hi) as [?| ->]; [by left|right; by left]. }
  case_bool_decide; [done|]. destruct (status slice); try done.
  - case_match; [done|]. destruct (peer_id g); [case_match; [|done]|]; intros E; eapply Hrec; eauto.
  - intros E. eapply Hrec; [exact E|]. cbn. intros h. rewrite fmap_app, elem_of_app. cbn. rewrite list_elem_of_singleton. tauto.
Qed.
Lemma read_reserve_ledger hashes slices devices g st st' S H P B :
  ledger st S H P B → Forall hash_fits hashes → ReadRemote_reserve hashes slices devices st = (Ok g, st') →
  ledger st' S H P B ∧ Forall job_ok (read_jobs g).
Proof.
  intros L Hfit. unfold ReadRemote_reserve. case_match eqn:El; [done|].
  apply orb_false_iff in El as [E1%negb_false_iff%Nat.eqb_eq E2%negb_false_iff%Nat.eqb_eq].
  case_bool_decide; [intros [= <- <-]; split; [done|constructor]|].
  destruct (route_reads _ _ _ _) as [g'|] eqn:Er; [|done]. repeat case_match; try done. intros [= <- <-].
  split; [by apply ledger_with_load|]. unfold read_jobs. apply Forall_app. split.
  { destruct (bool_decide (peer_group g' = [])); [constructor|]. apply Forall_singleton. exact I. }
  destruct (bool_decide (storage_group g' = [])); [constructor|]. apply Forall_singleton. split; [by rewrite !length_fmap|].
  apply Forall_forall. intros h Hh. destruct (route_reads_hashes _ _ _ _ _ Er h Hh) as [[]%not_elem_of_nil|Hi].
  rewrite fst_zip in Hi by (rewrite length_zip; lia). by eapply (proj1 (Forall_forall _ _) Hfit).
Qed.
Lemma read_start_ledger client hashes r st st' S H P B :
  ledger st S H P B → LoadRemote_start client hashes st = (r, st') → ledger st' S H P (ok_or [] r ++ B).
Proof.
  intros L. unfold LoadRemote_start. destruct client; [|intros [= <- <-]; by apply ledger_with_load].
  pose proof (ledger_allocate (Z.of_nat (length hashes)) st S H P B L) as Ha.
  destruct (controller_AllocateBlockIds _ _) as [[ids|c] st1]; [intros [= <- <-]; by apply Ha|].
  subst st1. intros [= <- <-]. by apply ledger_with_load.
Qed.
Lemma fetched_ledger response hashes hosts ok st st' S H P B :
  ledger st S H P (hosts ++ B) → LoadRemote_fetched response hashes hosts st = (ok, st') →
  ledger st' S H P ((if ok then hosts else []) ++ B).
Proof.
  intros L. unfold LoadRemote_fetched. destruct response as [[|x l]|c]; intros [= <- <-]; done || by apply ledger_with_load, ledger_deallocate.
Qed.

(** The recalled blocks are admitted one by one; the refused ones stay in hand. *)
Lemma recall_admit_ledger l hosts b st S H P B :
  ledger (with_tier0 b st) S H P (hosts ++ B) → (∀ h, h ∈ S → h ∈ P) → (∀ h, h ∈ H → h ∈ P) →
  holds_blocks l.*2 hosts → Forall hash_fits l.*1 →
  let '(refused, b') := recall_admit l b in ledger (with_tier0 b' st) S H P (refused ++ B).
Proof.
  intros L HS HH. revert hosts b B L; induction l as [|[h sl] l IH]; intros hosts b B L HF Hfit; cbn [recall_admit].
  { apply Forall2_nil_inv_l in HF. by subst. }
  cbn [fmap list_fmap fst snd] in HF, Hfit. apply Forall2_cons_inv_l in HF as (blk & hosts' & Hb & HF & ->).
  apply Forall_cons in Hfit as [Hh Hfit].
  pose proof (ledger_admit [h] [sl] [blk] (with_tier0 b st) S H P (hosts' ++ B) L HS HH) as La. cbn [tier0 with_tier0] in La.
  destruct (HostOffloadBackend.Insert [h] [sl] kAdmitStrict b) as [[ok ev] b1].
  specialize (La ltac:(constructor; [done|constructor]) eq_refl (proj2 (Forall_singleton _ _) Hh)).
  change (with_tier0 b1 (with_tier0 b st)) with (with_tier0 b1 st) in La. destruct ok.
  - specialize (IH hosts' b1 B La HF Hfit). by destruct (recall_admit l b1).
  - specialize (IH hosts' b1 (blk :: B)). destruct (recall_admit l b1) as [refused b2].
    eapply ledger_perm; [apply IH; [|done..]|done|done|done|].
    + eapply ledger_perm; [exact La|done|done|done|]. symmetry. exact (Permutation_middle hosts' B blk).
    + assert (host_block_id sl = blk) as -> by (unfold host_block in Hb; destruct (IsHostResidentStatus _); congruence).
      exact (Permutation_middle refused B blk).
Qed.
Lemma recall_ledger ok hashes devices hosts st S H P B :
  ledger st S H P (hosts ++ B) → (∀ h, h ∈ S → h ∈ P) → (∀ h, h ∈ H → h ∈ P) →
  length devices = length hashes → length hosts = length hashes → Forall hash_fits hashes →
  ledger (Recall_complete ok hashes devices hosts st) S H P B.
Proof.
  intros L HS HH Hd Hl Hfit. unfold Recall_complete. destruct ok; [|by apply ledger_with_load, ledger_deallocate].
  set (id := raiden_id_ (tier0 st)). set (l := recalled_slices id hashes hosts devices).
  assert (l.*1 = hashes ∧ l.*2 = zip_with (λ host d, mkRaidenBlockId id host d HOST_AND_HBM) hosts devices) as [E1 E2].
  { unfold l, recalled_slices. split; [apply fst_zip|apply snd_zip]; rewrite length_zip_with; lia. }
  assert (ledger (with_tier0 (tier0 st) st) S H P (hosts ++ B)) as L' by (by destruct st).
  pose proof (recall_admit_ledger l hosts (tier0 st) st S H P B L' HS HH) as La.
  destruct (recall_admit l (tier0 st)) as [refused b].
  specialize (La ltac:(rewrite E2; apply secondary_slices_hosts; lia) ltac:(by rewrite E1)).
  apply ledger_with_load. case_bool_decide as Hre; [by rewrite Hre in La|by apply ledger_deallocate].
Qed.

(** *** Offers *)
Lemma ledger_add_pending owner hashes st S H P B :
  ledger st S H P B → ledger (with_tracker owner (AddPending hashes (tracker_of owner st)) st) S H P B.
Proof.
  intros L. destruct owner; cbn; [|eapply ledger_same, L; by repeat split].
  destruct (pending_Add hashes _ (le_tracker _ _ _ _ _ L)) as [Hw E]. eapply ledger_tracker; [exact L|done|apply L|].
  intros h Hs. destruct (le_saving _ _ _ _ _ L h Hs). split; [|done]. rewrite E. apply elem_of_union. by right.
Qed.
Lemma tier0_with_tracker owner t st : tier0 (with_tracker owner t st) = tier0 st.
Proof. by destruct owner. Qed.
Lemma settled_owner owner hashes extra st :
  BlockTracker.wf (save_tracker_ st) → let t := tracker_of owner st in
  ∀ t', t' ∈ [MarkDone hashes t; MarkFailed hashes t; RemovePending hashes t; MarkFailedWithExisting hashes extra t;
              MarkFailedWithUnregistered hashes extra t] →
  settled_by hashes t t' ∨ owner = kSweep.
Proof.
  intros Hw t t' Ht. destruct owner; [left|by right]. destruct (settled_calls hashes extra t Hw) as (? & ? & ? & ? & ?).
  repeat (apply elem_of_cons in Ht as [->|Ht]; [done|]). by apply not_elem_of_nil in Ht.
Qed.
Lemma unmark_ledger owner marked st S H P B :
  ledger st S H P B → (∀ h, h ∈ marked → is_Some (host_of (cache st) h)) → ledger (unmark owner marked st) S H P B.
Proof.
  intros L Hh. eapply ledger_settle_hosted; [exact L|intros h Hi; by eapply le_disjoint, Hh|].
  apply (settled_owner owner marked []); [apply L|]. do 2 right. by left.
Qed.
Lemma offer_checks_ledger owner slices marked ids st r marked' st' S H P B :
  ledger st S H P B → (∀ h b, (h, b) ∈ slices → values (cache st) !! h = Some b) →
  (∀ h, h ∈ marked → is_Some (host_of (cache st) h)) →
  offer_checks owner slices marked ids st = (r, marked', st') →
  ledger st' S H P B ∧ (∀ h, h ∈ marked' → is_Some (host_of (cache st') h)) ∧
  (is_ok r = true → ∀ h, h ∈ slices.*1 → is_Some (host_of (cache st') h)).
Proof.
  revert marked ids st; induction slices as [|[h b] slices IH]; intros marked ids st L Hv Hm; cbn [offer_checks].
  { intros [= <- <- <-]. split; [done|]. split; [done|]. by intros _ h ?%not_elem_of_nil. }
  destruct (IsHostResidentStatus (status b)) eqn:Eh; cbn [negb]; [|by intros [= <- <- <-]].
  case_match; [by intros [= <- <- <-]|]. case_match; [by intros [= <- <- <-]|].
  pose proof (host_resident_of st h b (Hv h b ltac:(left)) Eh) as Hhost. intros E.
  set (st1 := with_tracker owner _ st) in E. assert (cache st1 = cache st) as Ec by (unfold st1; by rewrite tier0_with_tracker).
  destruct (IH (marked ++ [h]) (ids ++ [host_block_id b]) st1) as (L' & Hm' & Hr'); [by apply ledger_add_pending| | |done|].
  - intros h' b' Hi. rewrite Ec. apply Hv. by right.
  - intros h'. rewrite Ec, elem_of_app, list_elem_of_singleton. intros [?| ->]; auto.
  - split; [done|]. split; [done|]. intros Hr k. cbn. rewrite elem_of_cons. intros [->|Hk]; [|by apply Hr'].
    assert (cache st' = cache st1) as ->; [|by rewrite Ec]. clear -E.
    revert E. generalize (marked ++ [h]), (ids ++ [host_block_id b]), st1. clear.
    induction slices as [|[h b] slices IH]; intros m i st; cbn [offer_checks]; [by intros [= <- <- <-]|].
    repeat (case_match; [by intros [= <- <- <-]|]). intros E%IH. by rewrite E, tier0_with_tracker.
Qed.
Lemma offer_reserve_ledger order registry owner hashes st r st' S H P B :
  ledger st S H P B → pins_room (length hashes) (cache st) →
  SaveRemote_reserve order registry owner hashes st = (r, st') →
  ledger st' S H P B ∧ (is_ok r = true → ∀ h, h ∈ hashes → is_Some (host_of (cache st') h)).
Proof.
  intros L Hr. unfold SaveRemote_reserve.
  destruct (tier0_lookup order registry hashes (local_lookup false) st) as [r1 st1] eqn:El.
  destruct (lookup_entries order registry hashes (local_lookup false) st r1 st1) as [-> Hf]; try done; [by eapply le_cache|].
  destruct r1 as [found|]; [|by intros [= <- <-]]. destruct (length found <? length hashes)%nat eqn:Elen; [by intros [= <- <-]|].
  destruct (Hf found eq_refl Elen) as (H1 & H2 & H3).
  destruct (offer_checks owner found [] [] st) as [[r2 marked] st2] eqn:Eo.
  destruct (offer_checks_ledger owner found [] [] st r2 marked st2 S H P B L) as (L2 & Hm & Hok); [| |done|].
  - intros h b Hi. destruct (H3 h b) as [_ [[_ ?]|[? _]]]; [|done|done]. by rewrite <- H1, zip_fst_snd.
  - by intros h ?%not_elem_of_nil.
  - destruct r2; intros [= <- <-]; [by rewrite H1 in Hok|]. split; [by apply unmark_ledger|done].
Qed.

Lemma offer_pin_ledger owner hashes hold st r st' S H P B :
  ledger st S H P B → (∀ h, h ∈ hashes → is_Some (host_of (cache st) h)) → pins_room (length hashes) (cache st) →
  SaveRemote_pin owner hashes hold st = (r, st') → ledger st' S H ((if is_ok r then hashes else []) ++ P) B.
Proof.
  intros L Hh Hr. unfold SaveRemote_pin. pose proof (ledger_pin hashes st S H P B L Hr) as Lp.
  pose proof (pin_loop_view [] hashes (tier0 st) (le_cache _ _ _ _ _ L) Hr (λ k, pins_nonneg k _ (le_cache _ _ _ _ _ L))) as Hv.
  unfold Pin in *. destruct (pin_loop [] hashes (tier0 st)) as [ok b]. destruct Hv as (_ & _ & Hv & _).
  assert (∀ h, h ∈ hashes → is_Some (host_of (lru_cache_ b) h)) as Hh'.
  { intros h Hi. rewrite (host_of_values (cache st)); [by apply Hh|by rewrite Hv]. }
  destruct ok; cbn [negb]; [|intros [= <- <-]; by apply unmark_ledger].
  case_match; intros [= <- <-]; [|done]. apply unmark_ledger; [by apply ledger_release|]. intros h Hi.
  rewrite (host_of_values (lru_cache_ b)); [by apply Hh'|].
  destruct (unpin_all_view (reverse hashes) b (le_cache _ _ _ _ _ Lp)) as (_ & _ & E & _). cbn. by rewrite <- E.
Qed.

(** Once its pin is given back, a hash settles in whichever tracker it is. *)
Lemma offer_settle_ledger owner hashes extra t st S H P B :
  ledger st S (hashes ++ H) P B → t ∈ [MarkDone hashes (tracker_of owner st); MarkFailed hashes (tracker_of owner st);
    RemovePending hashes (tracker_of owner st); MarkFailedWithExisting hashes extra (tracker_of owner st);
    MarkFailedWithUnregistered hashes extra (tracker_of owner st)] →
  ledger (with_tracker owner t st) S H P B.
Proof.
  intros L Ht. eapply (ledger_settle_hosted owner hashes).
  - eapply ledger_perm; [exact L|done| |done|done]. intros h Hh. apply elem_of_app. by right.
  - intros h Hh. eapply le_disjoint; [exact L|]. eapply le_hosted; [exact L|]. apply elem_of_app. by left.
  - eapply settled_owner; [apply L|exact Ht].
Qed.
Lemma offer_begun_ledger owner hashes key now response ack st1 r st st' S H P B :
  ledger st S (hashes ++ H) (hashes ++ hashes ++ P) B →
  BeginWriteRemote owner hashes response st = (ack, st1) → SaveRemote_acked owner hashes key now ack st1 = (r, st') →
  match begun response with
  | BegunOpen _ => ledger st' S (hashes ++ H) (hashes ++ hashes ++ P) B
  | BegunDone => ledger st' S H P B
  | BegunFailed => ledger st' S H (hashes ++ P) B
  end.
Proof.
  intros L. unfold BeginWriteRemote, begun.
  assert (∀ c st', SaveRemote_acked owner hashes key now (Err c) st = (r, st') → ledger st' S H (hashes ++ P) B) as Hfail.
  { intros c st2 [= _ <-]. apply (ledger_same (unmark owner hashes (KvCacheStore.Release hashes st))); [by repeat split|].
    apply (offer_settle_ledger owner hashes []); [by apply ledger_release|do 2 right; by left]. }
  assert (∀ a st2 S H P B, SaveRemote_acked owner hashes key now (Ok a) st2 = (r, st') → ledger st2 S H P B → ledger st' S H P B) as Hack.
  { intros a st2 S' H' P' B'. unfold SaveRemote_acked. case_match; intros [= _ <-] L'; eapply ledger_same, L'; by repeat split. }
  destruct response as [resp|c]; [|intros [= <- <-]; apply Hfail]. destruct (wr_exist_state resp).
  - case_match; intros [= <- <-]; [apply Hfail|]. intros E. by eapply Hack.
  - intros [= <- <-] E. eapply Hack; [exact E|]. apply (offer_settle_ledger owner hashes []); [by apply ledger_release, ledger_release|by left].
  - intros [= <- <-] E. eapply Hack; [exact E|].
    apply (offer_settle_ledger owner hashes (wr_existing_hashes resp)); [by apply ledger_release|do 3 right; by left].
Qed.
Lemma offer_verdict_ledger owner hashes r st S H P B :
  ledger st S (hashes ++ H) (hashes ++ hashes ++ P) B →
  ledger (RemoteWrite_settle owner hashes r st) S H ((if verdict_ok r then [] else hashes) ++ P) B.
Proof.
  intros L. unfold RemoteWrite_settle. apply ledger_release in L as L1.
  destruct r as [v|c]; cbn [verdict_ok]; [|apply (offer_settle_ledger owner hashes []); [done|right; by left]].
  destruct (write_succeeded (res_state v)) eqn:Ew.
  - apply ledger_release in L1. destruct (res_state v); try done; (apply (offer_settle_ledger owner hashes []); [done|by left]).
  - destruct (res_state v); try done; try (apply (offer_settle_ledger owner hashes []); [done|right; by left]).
    + apply (offer_settle_ledger owner hashes (res_existing_hashes v)); [done|do 3 right; by left].
    + apply (offer_settle_ledger owner hashes (res_unregistered_hashes v)); [done|do 4 right; by left].
Qed.

(** *** Lookups and leases *)
Lemma lookup_ledger order registry tiers hashes options found st st' S H P B :
  ledger st S H P B →
  lo_include_eviction_candidates options = false → lo_enable_global options = false → lo_pin_found options = true →
  lo_host_resident_only options || bool_decide (lo_match_mode options = kSubset) = true →
  pins_room (length hashes + length order) (cache st) →
  KvCacheStore.Lookup order registry tiers hashes options st = (Ok found, st') → ledger st' S H (found.*1 ++ P) B.
Proof.
  intros L Hi Hg Hp Hd Hr. destruct (ledger_lookup order registry hashes options st S H P B Hi Hg Hp L Hr) as (f & st1 & E & L1).
  unfold KvCacheStore.Lookup. rewrite Hd, E. by intros [= <- <-].
Qed.
Lemma release_none st : KvCacheStore.Release [] st = st.
Proof. by destruct st as [[]]. Qed.
(** The pins of an answer: those it keeps and those it gives back, which is all it
    releases but for pins it has not taken. *)
Lemma tiers_found_prefix tiers hashes acc : ∃ more, (tiers_found tiers hashes acc).2 = acc ++ more.
Proof.
  revert acc; induction tiers as [|[answer|] tiers IH]; intros acc; cbn; [by exists []; rewrite app_nil_r|..];
    (case_match; [by exists []; rewrite app_nil_r|]); [|apply IH].
  destruct (answer _) as [found|c]; [|by exists []; rewrite app_nil_r]. destruct (IH (acc ++ found)) as [more ->].
  exists (found ++ more). by rewrite app_assoc.
Qed.
Lemma tiers_found_lookup tiers hashes acc st :
  let '(ok, acc') := tiers_found tiers hashes acc in
  if ok then lookup_tiers true tiers hashes acc st = (Ok acc', st)
  else ∃ c, lookup_tiers true tiers hashes acc st = (Err c, KvCacheStore.Release acc'.*1 st).
Proof.
  revert acc; induction tiers as [|[answer|] tiers IH]; intros acc; cbn [tiers_found lookup_tiers]; [done|..];
    (destruct (length hashes <=? length acc)%nat; [done|]); [|apply IH].
  destruct (answer _) as [found|c]; [apply IH|]. destruct (bool_decide (acc = [])) eqn:Ea; cbn [negb andb].
  - apply bool_decide_eq_true in Ea. subst. cbn. exists c. by rewrite release_none.
  - destruct (bool_decide (c = kNotFound)); [done|by exists c].
Qed.
Lemma answer_pins tiers hashes found own kept returned r st st' :
  length own = length found → answer_split tiers hashes found own st = (kept, returned) →
  Lookup_answer true tiers hashes found st = (r, st') →
  st' = KvCacheStore.Release returned.*1 st ∧ hits_of (zip found.*1 own) = hits_of kept ++ hits_of returned.
Proof.
  intros Hl. unfold answer_split, Lookup_answer, clamp_lookup. pose proof (tiers_found_lookup tiers hashes found st) as Et.
  destruct (tiers_found_prefix tiers hashes found) as [more Ef]. destruct (tiers_found tiers hashes found) as [ok acc]. cbn in Ef. subst acc.
  set (marks := zip _ _). assert (marks.*1 = (found ++ more).*1) as Em.
  { apply fst_zip. rewrite length_fmap, (length_app own), length_replicate. lia. }
  assert (hits_of (zip found.*1 own) = hits_of marks) as Eh.
  { unfold marks. rewrite fmap_app, zip_with_app by (rewrite length_fmap; lia). rewrite hits_of_app, hits_of_none, app_nil_r. done. }
  rewrite Eh. clear Eh. destruct ok; cbn [negb]; [rewrite Et|destruct Et as [c ->]].
  - destruct (_ && _); intros [= <- <-] [= <- <-].
    + rewrite !fmap_drop, Em, <- hits_of_app, take_drop. done.
    + rewrite app_nil_r. split; [by rewrite release_none|done].
  - intros [= <- <-] [= _ <-]. by rewrite Em.
Qed.
Lemma marks_times k (marks : list (string * bool)) :
  times k marks.*1 = times k (hits_of marks) ∨ ∃ h, (h, false) ∈ marks ∧ h = k.
Proof.
  induction marks as [|[h t] marks IH]; [by left|]. cbn [fmap list_fmap fst]. rewrite times_cons. destruct t.
  - change (hits_of ((h, true) :: marks)) with (h :: hits_of marks). rewrite times_cons.
    destruct IH as [->|(h' & Hi & ->)]; [by left|right]. exists k. split; [by right|done].
  - change (hits_of ((h, false) :: marks)) with (hits_of marks). destruct (decide (h = k)) as [->|].
    + right. exists k. split; [by left|done].
    + destruct IH as [->|(h' & Hi & ->)]; [left; lia|right]. exists k. split; [by right|done].
Qed.
Lemma ledger_give_back marks st S H P B :
  ledger st S H (hits_of marks ++ P) B → gives_back_own marks st = true →
  ledger (KvCacheStore.Release marks.*1 st) S H P B.
Proof.
  intros L Hown. destruct (unpin_all_view (reverse marks.*1) (tier0 st) (le_cache _ _ _ _ _ L)) as (E & Hw & Hv & _ & Hp & _).
  eapply ledger_pins; [exact L|done|]. intros k. unfold HostOffloadBackend.Release.
  rewrite Hp, (le_pins _ _ _ _ _ L), times_reverse, times_app. pose proof (times_nonneg k P). pose proof (times_nonneg k (hits_of marks)).
  destruct (marks_times k marks) as [->|(h & Hi & ->)]; [lia|].
  unfold gives_back_own in Hown. rewrite forallb_forall in Hown. specialize (Hown (k, false) (proj1 (list_elem_of_In _ _) Hi)).
  cbn in Hown. apply Z.leb_le in Hown. unfold KvCacheStore.GetPinCount in Hown. rewrite (le_pins _ _ _ _ _ L), times_app in Hown.
  pose proof (times_nonneg k marks.*1). lia.
Qed.
Lemma lookup_sweep_ledger hashes options hits missing c st S H P B :
  ledger st S H P B → lo_include_eviction_candidates options = false → lo_pin_found options = true →
  pins_room (length hashes) (cache st) → lookup_sweep options hashes (cache st) = (hits, missing, c) →
  ledger (with_tier0 (set_cache c (tier0 st)) st) S H (hits_of (zip hashes hits) ++ P) B ∧ length hits = length hashes.
Proof.
  intros L Hi Hp Hr E.
  pose proof (lookup_sweep_view options ltac:(by rewrite Hi) hashes (cache st) (le_cache _ _ _ _ _ L) Hr) as Hv. rewrite E in Hv.
  destruct Hv as (Hl & Hw & Hv & _ & Hpin & _). split; [|done]. eapply ledger_pins; [exact L|done|]. intros k. cbn.
  rewrite Hpin, Hp, (le_pins _ _ _ _ _ L), times_app. lia.
Qed.
Lemma lookup_finish_ledger hashes options hits remote found b st S H P B :
  lo_pin_found options = true → ledger st S H (hits_of (zip hashes hits) ++ P) B →
  lookup_finish options hashes hits remote (tier0 st) = (found, b) →
  ledger (with_tier0 b st) S H (hits_of (take (length found) (zip hashes hits)) ++ P) B.
Proof.
  intros Hp L. unfold lookup_finish. rewrite Hp. set (f := lookup_assemble _ _ _ _ _). intros [= Ef <-].
  fold (hits_of (drop (length f) (zip hashes hits))).
  destruct (unpin_all_view (hits_of (drop (length f) (zip hashes hits))) (tier0 st) (le_cache _ _ _ _ _ L)) as (E & Hw & Hv & _ & Hpin & _).
  eapply ledger_pins; [exact L|done|]. intros k. rewrite Hpin, (le_pins _ _ _ _ _ L), !times_app, <- Ef.
  rewrite <- (take_drop (length f) (zip hashes hits)) at 1. rewrite hits_of_app, times_app.
  pose proof (times_nonneg k P). pose proof (times_nonneg k (hits_of (take (length f) (zip hashes hits)))). lia.
Qed.
Lemma lookup_finish_found options hashes hits remote b found b' :
  length hits = length hashes → lookup_finish options hashes hits remote b = (found, b') →
  length (take (length found) hits) = length found ∧
  zip found.*1 (take (length found) hits) = take (length found) (zip hashes hits).
Proof.
  intros Hl. unfold lookup_finish. intros [= Ef _].
  destruct (lookup_assemble_view options (raiden_id_ b) (lru_cache_ b) (zip hashes hits) remote) as (H1 & H2 & _).
  rewrite Ef in H1, H2. rewrite length_zip in H2. rewrite fst_zip in H1 by lia.
  split; [rewrite length_take; lia|]. by rewrite zip_with_take, <- H1.
Qed.
Lemma lease_ledger order registry hashes r st st' S H P B :
  ledger st S H P B → pins_room (length hashes + length order) (cache st) →
  ValidateAndPinHostBlocks order registry hashes st = (r, st') → ledger st' S H ((if is_ok r then hashes else []) ++ P) B.
Proof.
  intros L Hr. destruct (ledger_lookup order registry hashes (local_lookup true) st S H P B eq_refl eq_refl eq_refl L Hr)
    as (found & st1 & E & L1).
  assert (found.*1 = take (length found) hashes ∧ (length found <= length hashes)%nat) as [Ef Hle].
  { unfold tier0_lookup in E. destruct (HostOffloadBackend.Lookup _ _ _ _ _) as [r0 b0] eqn:El. injection E as -> _.
    destruct (Lookup_prefix_answer order registry hashes (local_lookup true) (tier0 st) found) as (H1 & H2 & _); try done.
    - by eapply le_cache. - intros k. specialize (Hr k). lia. - by rewrite El. }
  unfold ValidateAndPinHostBlocks. rewrite E. destruct (Nat.ltb_spec (length found) (length hashes)).
  - intros [= <- <-]. apply ledger_release. by rewrite <- Ef.
  - rewrite take_ge in Ef by lia. rewrite Ef in L1. case_match; intros [= <- <-]; [done|by apply ledger_release].
Qed.
Lemma poll_save_ledger r st st' S H P B : ledger st S H P B → PollSaveStatus st = (r, st') → ledger st' S H P B.
Proof.
  intros L [= _ <-]. eapply ledger_tracker; [exact L| |apply L|].
  - eapply wf_same_pending; [apply L|done|done].
  - intros h. cbn. apply (le_saving _ _ _ _ _ L).
Qed.

(** *** Every segment, in any frame *)

(** A transition keeps the books when it does so beside any other jobs and clients. *)
Definition keeps_books (T : Transition) : Prop :=
  ∀ js tk st js' gv ls st', T js tk st js' gv ls st' → Forall job_ok js →
  ∀ S H P B, (∀ h, h ∈ S → h ∈ P) → (∀ h, h ∈ H → h ∈ P) →
  ledger st (saving js ++ S) (hosted js ++ H) (tk ++ pinned_by js ++ P) (held_by js ++ B) →
  ledger st' (saving js' ++ S) (hosted js' ++ H) (gv ++ pinned_by js' ++ P) (ls ++ held_by js' ++ B) ∧ Forall job_ok js'.

Ltac each_segment :=
  intros js tk st js' gv ls st' Hseg Hjobs S H P B HS HH L; destruct Hseg;
  rewrite ?Forall_singleton in Hjobs; books.

Lemma all_own (found : BlockSliceList) : hits_of (zip found.*1 (replicate (length found) true)) = found.*1.
Proof. induction found as [|[h b] found IH]; [done|]. cbn. by f_equal. Qed.
Lemma index_segment_books : keeps_books index_segment.
Proof.
  each_segment.
  - (* insert *) split; [|done]. unfold KvCacheStore.Insert in *. case_match; [naive_solver|].
    pose proof (ledger_insert hashes slices st S H P B L HH) as Li.
    destruct (HostOffloadBackend.Insert hashes slices kInsertAndPin (tier0 st)) as [[ok ev] b].
    specialize (Li ltac:(done) ltac:(done)). by destruct ok; simplify_eq.
  - (* pin *) split; [|done]. pose proof (ledger_pin hashes st S H P B L ltac:(done)) as Lp.
    match goal with E : Pin _ _ = _ |- _ => rewrite E in Lp end. by destruct ok.
  - (* release *) split; [by apply ledger_release|done].
  - (* lookup *) split; [by eapply lookup_ledger|done].
  - (* local lookup *) destruct (ledger_lookup order registry hashes options st S H P B) as (f & st1 & E & L1); try done.
    split; [|apply Forall_singleton; cbn; by rewrite length_replicate].
    rewrite (all_own found). match goal with H1 : _ = (Ok found, st') |- _ => rewrite H1 in E end. by simplify_eq.
  - (* sweep *) destruct (lookup_sweep_ledger hashes options hits missing c st S H P B) as [L1 Hl]; try done.
    split; [done|]. by apply Forall_singleton.
  - (* finish *) destruct Hjobs as (? & ? & ?). destruct (lookup_finish_found _ _ _ _ _ _ _ ltac:(done) ltac:(done)) as [Hl Ez].
    split; [rewrite Ez; by eapply lookup_finish_ledger|]. by apply Forall_singleton.
  - (* answer *) destruct (answer_pins tiers hashes found own kept returned r st st') as [-> Eh]; try done. split; [|done].
    apply ledger_give_back; [|done]. eapply ledger_perm; [exact L|done|done| |done]. rewrite Eh, app_assoc. apply Permutation_app_tail, Permutation_app_comm.
  - (* lease *) split; [by eapply lease_ledger|done].
  - (* polls *) split; [by eapply poll_save_ledger|done].
  - unfold PollLoadStatus in *. simplify_eq. split; [by apply ledger_with_load|done].
Qed.

Lemma save_segment_books : keeps_books save_segment.
Proof.
  each_segment.
  - (* swept *) match goal with E : lookup_sweep _ _ _ = _ |- _ => rewrite (save_sweep_same _ _ _ _ _ E) end.
    split; [done|]. by apply Forall_singleton.
  - (* looked up *) match goal with E : lookup_finish _ _ _ _ _ = _ |- _ => rewrite (save_looked_same _ _ _ _ _ _ E) end.
    split; [done|]. by apply Forall_singleton.
  - (* admitted *) destruct (save_admit_ledger hashes slices devices st st' S H (hashes ++ P) B) as [L1 Hl]; try done.
    split; [done|]. by apply Forall_singleton.
  - (* rejected *) match goal with E : SaveLocal_admit _ _ _ = _ |- _ => rewrite (save_reject_same _ _ _ _ _ E) end. done.
  - (* refused *) split; [|done]. match goal with E : SaveLocal_reserve _ _ _ _ = _ |- _ => by rewrite (save_refused_same _ _ _ _ _ _ E) end.
  - (* saved *) destruct Hjobs as (Hd & Hl & Hfit).
    pose proof (publish_ledger _ _ _ _ _ _ _ _ (save_complete_ledger _ _ _ _ _ _ _ _ L Hl Hd Hfit) ltac:(done)) as Lp.
    destruct published; (split; [by books|jobs_ok]).
  - (* lost *) split; [by apply save_failed_ledger|done].
  - (* saved with a secondary tier *) destruct Hjobs as (Hd & Hl & Hfit).
    pose proof (publish_ledger _ _ _ _ _ _ _ _ (secondary_complete_ledger _ _ _ _ _ _ _ _ L Hl Hd Hfit) ltac:(done)) as Lp.
    destruct published; (split; [by books|jobs_ok]).
  - (* lost *) split; [|done]. apply ledger_release. by apply save_failed_ledger.
  - (* published *) split; [by apply write_through_ledger|done].
Qed.

Lemma launch_saving w ids st : job_saving (waiter_launch w ids st) = waiter_saves w ∧ job_hosted (waiter_launch w ids st) = [] ∧
  job_pins (waiter_launch w ids st) = waiter_saves w ∧ job_blocks (waiter_launch w ids st) = ids.
Proof. destruct w; cbn; [destruct (has_secondary st)|]; done. Qed.
Lemma launch_ok w ids st : waiter_ok w → length ids = length (waiter_hashes w) → job_ok (waiter_launch w ids st).
Proof. destruct w; cbn; [destruct (has_secondary st)|]; cbn; tauto. Qed.
Lemma hosted_pinned H P Q h : (∀ h, h ∈ H → h ∈ P) → h ∈ H → h ∈ Q ++ P.
Proof. intros Hc Hh. apply elem_of_app. right. by apply Hc. Qed.
Lemma alloc_segment_books : keeps_books alloc_segment.
Proof.
  each_segment.
  - (* picked *) split; [done|]. by apply Forall_singleton.
  - (* pick failed *) split; [by apply waiter_failed_ledger|done].
  - (* evicted *) pose proof (ledger_evict keys st _ H _ B L) as Le. match goal with E : Evict_delete _ _ = _ |- _ => rewrite E in Le end.
    split; [apply Le; intros; by eapply hosted_pinned|]. by apply Forall_singleton.
  - (* evicted for a client *) pose proof (ledger_evict keys st _ H _ B L) as Le. match goal with E : Evict_delete _ _ = _ |- _ => rewrite E in Le end.
    split; [by apply Le|]. by apply Forall_singleton.
  - (* freed *) apply ledger_deallocate in L. destruct w; (split; [by books|jobs_ok]).
  - (* allocated *) pose proof (ledger_allocate (waiter_needs w) st _ _ _ _ L) as La.
    match goal with E : controller_AllocateBlockIds _ _ = _ |- _ => rewrite E in La end. destruct La as (La & Hn & _).
    destruct (launch_saving w ids st') as (-> & -> & -> & ->). split; [by rewrite <- ?app_assoc|].
    apply Forall_singleton, launch_ok; [done|]. unfold waiter_needs in Hn. lia.
  - (* allocation failed *) pose proof (ledger_allocate (waiter_needs w) st _ _ _ _ L) as La.
    match goal with E : controller_AllocateBlockIds _ _ = _ |- _ => rewrite E in La end. subst st'. split; [by apply waiter_failed_ledger|done].
Qed.

Lemma load_segment_books : keeps_books load_segment.
Proof.
  each_segment.
  - (* reserved *) destruct (load_reserve_ledger order registry hashes devices st (Ok true) st' S H (hashes ++ P) B) as [L1 Hl]; try done.
    destruct (Hl eq_refl). split; [by apply ledger_hosted|]. by apply Forall_singleton.
  - (* not reserved *) split; [|done]. match goal with E : Load_reserve _ _ _ _ _ = _ |- _ => by rewrite (load_none_same _ _ _ _ _ _ _ E) end.
  - (* reserved by slices *) destruct (load_slices_ledger hashes slices devices st st' S H (hashes ++ P) B) as [L1 Hl]; try done.
    split; [done|]. by apply Forall_singleton.
  - (* started *) split; [|by apply Forall_singleton]. eapply ledger_same, L. by eapply load_dispatch_same.
  - (* refused *) split; [|done]. eapply ledger_perm; [eapply ledger_same, L; by eapply load_dispatch_same|done| |done|done].
    intros h Hh. apply elem_of_app. by right.
  - (* loaded *) split; [by apply load_complete_ledger|done].
  - (* lost *) split; [|done]. apply ledger_with_load. eapply ledger_perm; [exact L|done| |done|done].
    intros h Hh. apply elem_of_app. by right.
Qed.

Lemma read_segment_books : keeps_books read_segment.
Proof.
  each_segment.
  - (* reserved *) destruct (read_reserve_ledger hashes slices devices g st st' S H P B) as [L1 Hok]; try done. split; [|done].
    unfold read_jobs. by destruct (bool_decide (peer_group g = [])), (bool_decide (storage_group g = [])).
  - (* started *) pose proof (read_start_ledger client hashes r st st' S H P B L ltac:(done)) as L1.
    destruct r; (split; [by books|jobs_ok]).
  - (* fetched *) pose proof (fetched_ledger response hashes hosts ok st st' S H P B L ltac:(done)) as L1.
    destruct ok; (split; [by books|jobs_ok]).
  - (* done *) split; [|done]. by apply ledger_with_load, ledger_deallocate.
  - (* recalled *) destruct Hjobs as (? & ? & ?). split; [by apply recall_ledger|done].
Qed.
Lemma offer_segment_books : keeps_books offer_segment.
Proof.
  each_segment.
  - (* reserved *) destruct (offer_reserve_ledger order registry owner hashes st (Ok ids) st' S H (hashes ++ P) B) as [L1 Hh]; try done.
    split; [by apply ledger_hosted, Hh|]. by apply Forall_singleton.
  - (* refused *) split; [|done]. by eapply offer_reserve_ledger.
  - (* pinned *) split; [|by apply Forall_singleton]. match goal with E : SaveRemote_record _ _ _ _ _ _ = _ |- _ => injection E as <- <- end.
    apply (ledger_same st1); [by repeat split|]. eapply (offer_pin_ledger owner hashes hold st OkStatus); try done.
    intros h Hh. eapply le_hosted; [exact L|]. apply elem_of_app. by left.
  - (* not pinned *) split; [|done]. eapply ledger_perm; [eapply (offer_pin_ledger owner hashes hold st (Err c)); try done|done| |done|done].
    + intros h Hh. eapply le_hosted; [exact L|]. apply elem_of_app. by left.
    + intros h Hh. apply elem_of_app. by right.
  - (* begun *) pose proof (offer_begun_ledger owner hashes key now response ack st1 r st st' S H P B L ltac:(done) ltac:(done)) as Lb.
    destruct (begun response); (split; [by books|jobs_ok]).
  - (* the stream ended *) pose proof (offer_verdict_ledger owner hashes r st S H P B L) as Lv.
    unfold RemoteWrite_stream in *. repeat case_match; simplify_eq; cbn in *; rewrite ?app_nil_r;
      (split; [by rewrite ?app_nil_r, <- ?app_assoc|jobs_ok]).
  - (* polled *) split; [|done]. by apply offer_verdict_ledger.
Qed.
End segments.
