(* ===== verification/StoreLifecycle.v ===== *)
(** * StoreLifecycle: a store node over its whole life
    (src/tpu_sync/kv_cache/kv_cache_store_service.cc beside kv_cache_store.cc)

    The service's segments join those of the store.  In every state that any
    interleaving reaches, landing operations and answers to peers are accounted for;
    blocks and pins are too as long as no fault segment has run, which the world
    keeps on record. *)

From S2P Require Import Prelude RaidenTypes BlockPool LogicalBlockManager BlockTracker LruCache KvCacheMetadata.
From S2P Require Import HostOffloadBackend BackendMirror BackendViews KvCacheStore StoreService StoreLedger StoreWorld.
Implicit Types (st : KVCacheStore) (nd : StoreNode) (jobs js rest : list Job) (hashes : list string) (blocks : list Z).
Implicit Types (op : WriteOp) (ops : gmap Z WriteOp).

(** ** Segments of the service *)

(** The job continued; the jobs to come, the operations accepted, the results sent. *)
Inductive service_segment : list Job → StoreNode → list Job → list Z → Events → StoreNode → Prop :=
  | svc_screen nd order env request granted :
      WriteRemote_screen order env request nd = inr granted → Forall hash_fits (wq_block_hashes request) →
      service_segment [] nd [JAccept (wq_block_hashes request) granted] [] [] nd
  | svc_accept nd hashes granted draws op_id now response op nd' :
      draw_op_id draws nd = Some op_id → WriteRemote_accept hashes granted now op_id nd = (Ok response, nd') →
      write_ops_ nd' !! op_id = Some op →
      service_segment [JAccept hashes granted] nd [JPull op_id hashes (landing_block_ids op)] [op_id] [] nd'
  | svc_refuse nd hashes granted now op_id c nd' :
      WriteRemote_accept hashes granted now op_id nd = (Err c, nd') →
      service_segment [JAccept hashes granted] nd [] [] [] nd'
  | svc_claim nd op_id hashes blocks ok now claimed nd' :
      Complete_claim op_id ok now nd = (Some claimed, nd') →
      service_segment [JPull op_id hashes blocks] nd
        [if claimed then JClaimed op_id hashes blocks else JLate op_id hashes blocks] [] [] nd'
  | svc_late nd op_id hashes blocks ev nd' :
      Complete_late op_id nd = (ev, nd') → service_segment [JLate op_id hashes blocks] nd [] [] ev nd'
  | svc_exists nd order op_id hashes blocks s existing :
      Complete_recheck order op_id nd = Some (s, existing) →
      service_segment [JClaimed op_id hashes blocks] nd [JFinish op_id s existing hashes blocks] [] [] nd
  | svc_absent nd order op_id hashes blocks :
      Complete_recheck order op_id nd = None →
      service_segment [JClaimed op_id hashes blocks] nd [JChecked op_id hashes blocks] [] [] nd
  | svc_insert nd op_id hashes blocks ok nd' :
      Complete_insert op_id nd = (ok, nd') →
      service_segment [JChecked op_id hashes blocks] nd
        [if ok then JCommit op_id hashes blocks else JFinish op_id kFailed [] hashes blocks] [] [] nd'
  | svc_finish nd op_id s existing hashes blocks ev nd' :
      Finish op_id s existing nd = (ev, nd') →
      service_segment [JFinish op_id s existing hashes blocks] nd [] [] ev nd'
  | svc_publish nd op_id hashes blocks registered ev nd' :
      FinishPublish op_id registered nd = (ev, nd') → service_segment [JCommit op_id hashes blocks] nd [] [] ev nd'
  | svc_deadline nd order now ev nd' :
      order ≡ₚ (map_to_list (write_ops_ nd)).*1 → DeadlineLoop_round order now nd = (ev, nd') →
      service_segment [] nd [] [] ev nd'
  | svc_poll nd op_id wait_ms now r nd' :
      PollWriteRemote op_id wait_ms now id nd = (r, nd') → service_segment [] nd [] [] [] nd'
  | svc_fetch nd order request sources pinned missed nd' :
      pins_room (length (fq_block_hashes request) + length order) (cache (node_store nd)) →
      Fetch_start order request nd = (sources, pinned, missed, nd') →
      service_segment [] nd [JFetch sources pinned] [] [] nd'
  | svc_fetched nd sources pinned transfer r nd' :
      Fetch_finish sources pinned transfer nd = (r, nd') → service_segment [JFetch sources pinned] nd [] [] [] nd'.

(** ** Operations and the jobs that carry them *)

(** The service's own jobs, whose contents do not depend on the store's books. *)
Definition store_job (j : Job) : bool :=
  match j with
  | JAccept _ _ | JPull _ _ _ | JLate _ _ _ | JClaimed _ _ _ | JChecked _ _ _ | JFinish _ _ _ _ _ | JCommit _ _ _ => false
  | _ => true
  end.
Definition service_job_ok (j : Job) : Prop := if store_job j then True else job_ok j.
Lemma store_jobs_ok js : Forall (λ j, store_job j = true) js → Forall service_job_ok js.
Proof. intros Hjs. eapply Forall_impl; [exact Hjs|]. intros j Hj. unfold service_job_ok. by rewrite Hj. Qed.
Definition job_op (j : Job) : list Z :=
  match j with
  | JPull id _ _ | JLate id _ _ | JClaimed id _ _ | JChecked id _ _ | JFinish id _ _ _ _ | JCommit id _ _ => [id]
  | _ => []
  end.
Definition job_ops (jobs : list Job) : list Z := jobs ≫= job_op.
(** The operation still owns its landing blocks. *)
Definition carries op hashes blocks : Prop :=
  op_block_hashes op = hashes ∧ landing_block_ids op = blocks ∧ blocks_released op = false.
Definition job_op_ok ops (j : Job) : Prop :=
  match j with
  | JPull id hashes blocks =>
      ∃ op, ops !! id = Some op ∧ carries op hashes blocks ∧ (op_state op = kPending ∨ op_state op = kFailed)
  | JLate id hashes blocks => ∃ op, ops !! id = Some op ∧ carries op hashes blocks ∧ op_state op = kFailed
  | JClaimed id hashes blocks | JChecked id hashes blocks | JFinish id _ _ hashes blocks | JCommit id hashes blocks =>
      ∃ op, ops !! id = Some op ∧ carries op hashes blocks ∧ op_state op = kCompleting
  | _ => True
  end.
(** Nothing is left to do for the operation but to forget it. *)
Definition at_rest op : Prop := terminal (op_state op) = true ∧ blocks_released op = true ∧ reactor_gate op = false.
Record ops_ok ops jobs : Prop := {
  oo_nodup : NoDup (job_ops jobs);
  oo_jobs : Forall (job_op_ok ops) jobs;
  oo_done id op : ops !! id = Some op → id ∈ job_ops jobs ∨ at_rest op;
}.

(** Only the operation of the job continued changes. *)
Lemma job_op_other ops ops' j : job_op_ok ops j → (∀ id, id ∈ job_op j → ops' !! id = ops !! id) → job_op_ok ops' j.
Proof.
  intros Hj He. assert (∀ id, job_op j = [id] → ops' !! id = ops !! id) as Hid by (intros id E; apply He; rewrite E; by left).
  destruct j; cbn in *; try done; rewrite (Hid _ eq_refl); done.
Qed.
Lemma ops_ok_replace ops ops' id j js' rest :
  job_op j = [id] → ops_ok ops (j :: rest) → (∀ k, k ≠ id → ops' !! k = ops !! k) →
  Forall (job_op_ok ops') js' → job_ops js' = [id] ∨
    (js' = [] ∧ ∃ op, ops' !! id = Some op ∧ at_rest op) →
  ops_ok ops' (js' ++ rest).
Proof.
  intros Ej [Hnd Hj Hd] Ho Hjs Hids. unfold job_ops in *. cbn in Hnd, Hd. rewrite Ej in Hnd, Hd. cbn in Hnd, Hd.
  apply NoDup_cons in Hnd as [Hni Hnd]. apply Forall_cons in Hj as [_ Hj].
  assert (Forall (job_op_ok ops') rest) as Hrest.
  { apply Forall_forall. intros x Hx. eapply job_op_other; [by eapply (proj1 (Forall_forall _ _) Hj)|].
    intros k Hk. apply Ho. intros ->. apply Hni, list_elem_of_bind. eauto. }
  split; unfold job_ops.
  - rewrite bind_app. destruct Hids as [->|[-> _]]; [by apply NoDup_cons|done].
  - by apply Forall_app.
  - intros k op Hk. destruct (decide (k = id)) as [->|Hne].
    + destruct Hids as [E|(_ & op' & Hop & Ht)]; [left; rewrite bind_app, E; by left|right; by simplify_eq].
    + rewrite Ho in Hk by done. destruct (Hd k op Hk) as [[->|Hi]%elem_of_cons|?]; [done|left|by right].
      rewrite bind_app. apply elem_of_app. by right.
Qed.
Lemma ops_ok_step ops id j j' op' rest :
  ops_ok ops (j :: rest) → job_op j = [id] → job_op j' = [id] → job_op_ok (<[id := op']> ops) j' →
  ops_ok (<[id := op']> ops) (j' :: rest).
Proof.
  intros Ho Ej Ej' Hj. apply (ops_ok_replace ops _ id j [j'] rest); [done|done| |by apply Forall_singleton|].
  - intros k Hk. by rewrite lookup_insert_ne.
  - left. unfold job_ops. cbn. by rewrite Ej'.
Qed.
Lemma ops_ok_end ops id j op' rest :
  ops_ok ops (j :: rest) → job_op j = [id] → at_rest op' → ops_ok (<[id := op']> ops) rest.
Proof.
  intros Ho Ej Hr. apply (ops_ok_replace ops _ id j [] rest); [done|done| |done|].
  - intros k Hk. by rewrite lookup_insert_ne.
  - right. split; [done|]. exists op'. by rewrite lookup_insert_eq.
Qed.
Lemma ops_ok_continue ops j j' rest : ops_ok ops (j :: rest) → job_op j = job_op j' → job_op_ok ops j' → ops_ok ops (j' :: rest).
Proof.
  intros [Hnd Hj Hd] E Hj'. apply Forall_cons in Hj as [_ Hj]. unfold job_ops in *. cbn in *. rewrite E in *.
  split; [done|by apply Forall_cons|done].
Qed.
(** Jobs that carry no operation come and go. *)
Lemma ops_ok_other ops rest js js' :
  job_ops js = [] → job_ops js' = [] → Forall (job_op_ok ops) js' → ops_ok ops (js ++ rest) → ops_ok ops (js' ++ rest).
Proof.
  intros E E' Hjs [Hnd Hj Hd]. unfold job_ops in *. rewrite bind_app, E in Hnd. rewrite bind_app, E in Hd.
  apply Forall_app in Hj as [_ Hj]. split; unfold job_ops; rewrite ?bind_app, ?E'; [done|by apply Forall_app|done].
Qed.

(** ** What the service's segments leave *)
Section service.

Lemma alter_at (f : WriteOp → WriteOp) ops id op : ops !! id = Some op → alter f id ops = <[id := f op]> ops.
Proof.
  intros E. apply map_eq. intros k. destruct (decide (k = id)) as [->|Hne].
  - by rewrite lookup_alter_eq, lookup_insert_eq, E.
  - by rewrite lookup_alter_ne, lookup_insert_ne.
Qed.
(** The result the gate's holder sends. *)
Definition announce (op_id : Z) (gate : bool) op : Events := if gate then [(op_id, MakeResultEvent op)] else [].

Lemma alter_op_at f id op nd : write_ops_ nd !! id = Some op → alter_op f id nd = with_ops (<[id := f op]> (write_ops_ nd)) nd.
Proof. intros E. unfold alter_op. by rewrite (alter_at _ _ _ _ E). Qed.
Lemma take_gate_at id op nd :
  write_ops_ nd !! id = Some op →
  take_gate id nd = (announce id (reactor_gate op) op, with_ops (<[id := clear_gate op]> (write_ops_ nd)) nd).
Proof. intros E. unfold take_gate, announce. by rewrite E, (alter_op_at _ _ _ _ E). Qed.
Lemma release_at id op nd :
  write_ops_ nd !! id = Some op → blocks_released op = false → landing_block_ids op ≠ [] →
  ReleaseLandingBlocks id nd =
    mkNode_ (DeallocateBlockIds (landing_block_ids op) (node_store nd)) (<[id := set_released op]> (write_ops_ nd)).
Proof.
  intros E Hr Hl. unfold ReleaseLandingBlocks. rewrite E, Hr, bool_decide_false by done. cbn.
  by rewrite (alter_op_at _ _ _ _ E).
Qed.

Lemma Complete_late_at id op nd :
  write_ops_ nd !! id = Some op → blocks_released op = false → landing_block_ids op ≠ [] →
  Complete_late id nd =
    (announce id (reactor_gate op) op,
     mkNode_ (DeallocateBlockIds (landing_block_ids op) (node_store nd))
       (<[id := set_settled (set_released (clear_gate op))]> (write_ops_ nd))).
Proof.
  intros E Hr Hl. unfold Complete_late. rewrite (take_gate_at _ _ _ E). f_equal.
  rewrite (release_at id (clear_gate op)); [|cbn; by rewrite lookup_insert_eq|done|done]. unfold Settle.
  erewrite alter_op_at by (cbn; by rewrite lookup_insert_eq). cbn. by rewrite !insert_insert_eq.
Qed.
Lemma Finish_at id op s existing nd :
  write_ops_ nd !! id = Some op → blocks_released op = false → landing_block_ids op ≠ [] →
  let op' := MarkTerminal s existing op in
  Finish id s existing nd =
    (announce id (reactor_gate op) op',
     if kept_by_cache s then mkNode_ (node_store nd) (<[id := set_settled (clear_gate op')]> (write_ops_ nd))
     else mkNode_ (DeallocateBlockIds (landing_block_ids op) (node_store nd))
            (<[id := set_settled (set_released (clear_gate op'))]> (write_ops_ nd))).
Proof.
  intros E Hr Hl op'. unfold Finish. rewrite (alter_op_at _ _ _ _ E). fold op'.
  rewrite (take_gate_at id op') by (cbn; by rewrite lookup_insert_eq). cbn [reactor_gate op' MarkTerminal]. f_equal.
  unfold Settle. destruct (kept_by_cache s) eqn:Ek.
  - erewrite alter_op_at by (cbn; by rewrite lookup_insert_eq). cbn. by rewrite !insert_insert_eq.
  - rewrite (release_at id (clear_gate op')); [|cbn; by rewrite lookup_insert_eq|cbn; by rewrite Ek, Hr|done].
    erewrite alter_op_at by (cbn; by rewrite lookup_insert_eq). cbn. by rewrite !insert_insert_eq.
Qed.
Lemma Complete_claim_at id op ok now nd r nd' :
  write_ops_ nd !! id = Some op → Complete_claim id ok now nd = (r, nd') →
  (r = Some true ∧ ok = true ∧ op_state op = kPending ∧ now < op_deadline op ∧
     nd' = with_ops (<[id := set_state kCompleting op]> (write_ops_ nd)) nd) ∨
  (r = Some false ∧ op_state op = kPending ∧ nd' = with_ops (<[id := MarkTerminal kFailed [] op]> (write_ops_ nd)) nd) ∨
  (r = Some false ∧ op_state op ≠ kPending ∧ nd' = nd).
Proof.
  intros E. unfold Complete_claim. rewrite E, !(alter_op_at _ _ _ _ E).
  destruct (ok && bool_decide (op_state op = kPending) && (now <? op_deadline op)) eqn:Ec.
  - apply andb_true_iff in Ec as [[-> ?%bool_decide_eq_true]%andb_true_iff ?%Z.ltb_lt]. intros [= <- <-]. left. done.
  - case_bool_decide; intros [= <- <-]; right; [by left|by right].
Qed.

Lemma accept_ledger hashes granted now op_id nd r nd' S H P B :
  ledger (node_store nd) S H P B → hashes ≠ [] → WriteRemote_accept hashes granted now op_id nd = (r, nd') →
  match r with
  | Ok _ => ∃ ids, ledger (node_store nd') S H P (ids ++ B) ∧ length ids = length hashes ∧ ids ≠ [] ∧
      write_ops_ nd' = <[op_id := mkWriteOp kPending hashes ids [] [] (now + granted) (now + granted + kRecordMargin) false true false]>
                         (write_ops_ nd)
  | Err _ => nd' = nd
  end.
Proof.
  intros L Hne. unfold WriteRemote_accept. pose proof (ledger_allocate (Z.of_nat (length hashes)) (node_store nd) S H P B L) as La.
  destruct (controller_AllocateBlockIds _ _) as [[ids|c] st]; intros [= <- <-].
  - destruct La as (La & Hn & Hp). exists ids. split; [done|]. split; [lia|]. split; [|done]. intros ->. cbn in Hn. lia.
  - subst. by destruct nd.
Qed.
Lemma fetch_start_ledger order request sources pinned missed nd nd' S H P B :
  ledger (node_store nd) S H P B → pins_room (length (fq_block_hashes request) + length order) (cache (node_store nd)) →
  Fetch_start order request nd = (sources, pinned, missed, nd') →
  ledger (node_store nd') S H (pinned ++ P) B ∧ write_ops_ nd' = write_ops_ nd.
Proof.
  intros L Hr. destruct (ledger_lookup order (λ _, Ok []) (fq_block_hashes request) (local_lookup true) (node_store nd) S H P B
    eq_refl eq_refl eq_refl L Hr) as (found & st1 & E & L1).
  unfold Fetch_start. rewrite E. repeat case_match; intros [= <- <- <- <-]; done.
Qed.
Lemma landing_slices id blocks : holds_blocks ((λ blk, mkRaidenBlockId id blk (-1) HOST) <$> blocks) blocks.
Proof. induction blocks; constructor; done. Qed.
Lemma insert_ledger op_id op ok nd nd' S H P B :
  ledger (node_store nd) S H P (landing_block_ids op ++ B) → (∀ h, h ∈ S → h ∈ P) → (∀ h, h ∈ H → h ∈ P) →
  write_ops_ nd !! op_id = Some op → length (landing_block_ids op) = length (op_block_hashes op) →
  Forall hash_fits (op_block_hashes op) → Complete_insert op_id nd = (ok, nd') →
  ledger (node_store nd') S H P (if ok then B else landing_block_ids op ++ B) ∧ write_ops_ nd' = write_ops_ nd.
Proof.
  intros L HS HH E Hl Hfit. unfold Complete_insert. rewrite E.
  pose proof (ledger_admit (op_block_hashes op) _ (landing_block_ids op) (node_store nd) S H P B L HS HH
    (landing_slices (raiden_id_ (tier0 (node_store nd))) (landing_block_ids op)) (eq_sym Hl) Hfit) as La.
  destruct (HostOffloadBackend.Insert _ _ _ _) as [[ok' ev] b]. by intros [= <- <-].
Qed.

Lemma service_segment_books js nd js' acc ev nd' :
  service_segment js nd js' acc ev nd' → Forall job_ok js → Forall (job_op_ok (write_ops_ nd)) js →
  ∀ S H P B, (∀ h, h ∈ S → h ∈ P) → (∀ h, h ∈ H → h ∈ P) →
  ledger (node_store nd) (saving js ++ S) (hosted js ++ H) (pinned_by js ++ P) (held_by js ++ B) →
  ledger (node_store nd') (saving js' ++ S) (hosted js' ++ H) (pinned_by js' ++ P) (held_by js' ++ B) ∧ Forall job_ok js'.
Proof.
  intros Hseg Hok Hop S H P B HS HH L. destruct Hseg; rewrite ?Forall_singleton in Hok; rewrite ?Forall_singleton in Hop; books.
  - (* screen *) split; [done|]. apply Forall_singleton. cbn. unfold WriteRemote_screen, write_request_check in *.
    destruct (bool_decide (wq_block_hashes request = [])) eqn:Ee; [done|]. apply bool_decide_eq_false in Ee. done.
  - (* accept *) destruct Hok as [Hne Hfit].
    destruct (accept_ledger hashes granted now op_id nd (Ok response) nd' S H P B L Hne ltac:(done)) as (ids & La & Hl & Hn & Eo).
    assert (landing_block_ids op = ids) as -> by (rewrite Eo, lookup_insert_eq in *; by simplify_eq). split; [done|]. by apply Forall_singleton.
  - (* refuse *) rewrite (accept_ledger hashes granted now op_id nd (Err c) nd' S H P B L (proj1 Hok) ltac:(done)). done.
  - (* claim *) destruct Hop as (op & E & _).
    assert (node_store nd' = node_store nd) as ->.
    { edestruct Complete_claim_at as [(_ & _ & _ & _ & ->)|[(_ & _ & ->)|(_ & _ & ->)]]; done. }
    destruct claimed; books; split; try done; by apply Forall_singleton.
  - (* late *) destruct Hop as (op & E & (Eh & Eb & Er) & _), Hok as (Hl & Hn & _). subst.
    rewrite (Complete_late_at _ _ _ E Er Hn) in *. simplify_eq. split; [by apply ledger_deallocate|done].
  - (* exists *) split; [done|]. apply Forall_singleton. split; [done|]. unfold Complete_recheck in *.
    repeat case_match; naive_solver.
  - (* absent *) split; [done|]. by apply Forall_singleton.
  - (* insert *) destruct Hop as (op & E & (Eh & Eb & Er) & _), Hok as (Hl & Hn & Hfit). subst.
    destruct (insert_ledger op_id op ok nd nd' S H P B L HS HH E Hl Hfit ltac:(done)) as [La _].
    destruct ok; books; (split; [done|by apply Forall_singleton]).
  - (* finish *) destruct Hop as (op & E & (Eh & Eb & Er) & _), Hok as ((Hl & Hn & _) & _ & Hk). subst.
    rewrite (Finish_at _ _ _ _ _ E Er Hn), Hk in *. simplify_eq. split; [by apply ledger_deallocate|done].
  - (* publish *) destruct Hop as (op & E & (Eh & Eb & Er) & _), Hok as (Hl & Hn & _). subst. unfold FinishPublish in *.
    rewrite (Finish_at _ _ _ _ _ E Er Hn) in *. by destruct registered; simplify_eq.
  - (* deadline *) unfold DeadlineLoop_round, collect in *. case_bool_decide; by simplify_eq.
  - (* poll *) unfold PollWriteRemote in *. repeat case_match; by simplify_eq.
  - (* fetch *) destruct (fetch_start_ledger order request sources pinned missed nd nd' S H P B L ltac:(done) ltac:(done)) as [La _].
    split; [done|]. by apply Forall_singleton.
  - (* fetched *) unfold Fetch_finish in *. simplify_eq. split; [by apply ledger_release|done].
Qed.

(** *** Operations and their gates *)
Definition occurs (id : Z) (l : list Z) : Z := Z.of_nat (length (filter (λ x, x = id) l)).
Lemma occurs_cons id x l : occurs id (x :: l) = (if decide (x = id) then 1 else 0) + occurs id l.
Proof. unfold occurs. rewrite filter_cons. by case_decide; cbn [length]; lia. Qed.
Lemma occurs_notin id l : id ∉ l → occurs id l = 0.
Proof.
  induction l as [|x l IH]; [done|]. intros [Hne Hn]%not_elem_of_cons. rewrite occurs_cons, decide_False by done. by apply IH.
Qed.
Definition gate_open ops (id : Z) : Z :=
  match ops !! id with Some op => if reactor_gate op then 1 else 0 | None => 0 end.
(** Every gate opened is one operation accepted, every gate closed one result sent. *)
Definition gates_balance ops (acc : list Z) (ev : Events) ops' : Prop :=
  ∀ id, occurs id acc + gate_open ops id = occurs id ev.*1 + gate_open ops' id.
Definition results_final (ev : Events) : Prop := ∀ id r, (id, r) ∈ ev → res_state r ≠ PENDING ∧ res_state r ≠ UNKNOWN.

Lemma final_terminal op : terminal (op_state op) = true → res_state (MakeResultEvent op) ≠ PENDING ∧ res_state (MakeResultEvent op) ≠ UNKNOWN.
Proof. unfold MakeResultEvent. cbn. by destruct (op_state op). Qed.
Lemma announce_final id gate op : terminal (op_state op) = true → results_final (announce id gate op).
Proof.
  intros Ht k r. unfold announce. destruct gate; [|by intros ?%not_elem_of_nil].
  intros [= -> ->]%list_elem_of_singleton. by apply final_terminal.
Qed.
Lemma balance_same ops : gates_balance ops [] [] ops.
Proof. intros id. done. Qed.
(** One operation is replaced, its gate kept, or closed by the result. *)
Lemma balance_kept ops id op op' : ops !! id = Some op → reactor_gate op' = reactor_gate op → gates_balance ops [] [] (<[id := op']> ops).
Proof.
  intros E Hg k. unfold gate_open. destruct (decide (id = k)) as [<-|]; [by rewrite lookup_insert_eq, E, Hg|by rewrite lookup_insert_ne].
Qed.
Lemma balance_announced ops id op op' op'' :
  ops !! id = Some op → reactor_gate op'' = false → gates_balance ops [] (announce id (reactor_gate op) op') (<[id := op'']> ops).
Proof.
  intros E Hg k. unfold gate_open, announce. destruct (decide (id = k)) as [<-|Hne].
  - rewrite lookup_insert_eq, E, Hg. destruct (reactor_gate op); [|done]. cbn [fmap list_fmap fst]. by rewrite occurs_cons, decide_True.
  - rewrite lookup_insert_ne by done. destruct (reactor_gate op); [|done]. cbn [fmap list_fmap fst]. by rewrite occurs_cons, decide_False.
Qed.

Lemma job_ops_unreleased ops jobs id op :
  Forall (job_op_ok ops) jobs → id ∈ job_ops jobs → ops !! id = Some op → blocks_released op = false.
Proof.
  intros Hj (j & Hid & Hin)%list_elem_of_bind Hop. pose proof (proj1 (Forall_forall _ _) Hj j Hin) as Hjo.
  destruct j; cbn in Hid; try (by apply not_elem_of_nil in Hid); apply list_elem_of_singleton in Hid as ->;
    destruct Hjo as (op' & E & (_ & _ & ?) & _); by simplify_eq.
Qed.

(** The deadline pass: pending operations past their deadline fail, their result is sent. *)
Lemma fire_ok now ops jobs : ops_ok ops jobs → ops_ok (fire_deadline now <$> ops) jobs.
Proof.
  intros [Hnd Hj Hd]. assert (∀ op hashes blocks, carries op hashes blocks → carries (fire_deadline now op) hashes blocks) as Hc.
  { intros op hashes blocks (? & ? & Hr). unfold fire_deadline. case_match; [|done]. split; [done|]. split; [done|]. cbn. by rewrite Hr. }
  assert (∀ op, op_state op ≠ kPending → fire_deadline now op = op) as Hs.
  { intros op Hn. unfold fire_deadline, expired. by rewrite bool_decide_false. }
  split; [done| |].
  - eapply Forall_impl; [exact Hj|]. intros j Hjo. destruct j; cbn in *; try done; destruct Hjo as (op & E & Hca & Est);
      exists (fire_deadline now op); rewrite lookup_fmap, E; (split; [done|]); (split; [by apply Hc|]); try (by rewrite Hs; [|rewrite Est]).
    destruct Est as [Est|Est]; [|right; by rewrite Hs; [|rewrite Est]]. unfold fire_deadline. case_match; [by right|by left].
  - intros id op'. rewrite lookup_fmap, fmap_Some. intros (op & E & ->). destruct (Hd id op E) as [?|(Ht & Hr & Hg)]; [by left|right].
    rewrite Hs; [done|]. intros Est. by rewrite Est in Ht.
Qed.
Lemma collect_ok now ops jobs :
  ops_ok ops jobs → let ops' := filter (λ e, collectable now e.2 = false) ops in ops_ok ops' jobs ∧ gates_balance ops [] [] ops'.
Proof.
  intros Ho ops'. pose proof Ho as [Hnd Hj Hd].
  assert (∀ id op, ops !! id = Some op → collectable now op = true → at_rest op) as Hc.
  { intros id op E Hcl. unfold collectable in Hcl. apply andb_true_iff in Hcl as [[Ht Hr]%andb_true_iff _].
    destruct (Hd id op E) as [Hi|?]; [|done]. by rewrite (job_ops_unreleased ops jobs id op) in Hr. }
  assert (∀ id op, ops !! id = Some op → blocks_released op = false → ops' !! id = Some op) as Hkeep.
  { intros id op E Hr. apply map_lookup_filter_Some. split; [done|]. cbn. unfold collectable. by rewrite Hr, andb_false_r. }
  split; [split; [done| |]|].
  - eapply Forall_impl; [exact Hj|]. intros j Hjo. destruct j; cbn in *; try done; destruct Hjo as (op & E & Hca & Est); exists op;
      (split; [apply Hkeep; [done|apply Hca]|done]).
  - intros id op [E _]%map_lookup_filter_Some. by apply Hd.
  - intros id. unfold gate_open, ops'. destruct (ops !! id) as [op|] eqn:E.
    + destruct (collectable now op) eqn:Ec.
      * rewrite (proj2 (map_lookup_filter_None _ _ _)); [|right; intros x Hx; cbn; simplify_eq; by rewrite Ec].
        destruct (Hc id op E Ec) as (_ & _ & ->). done.
      * by rewrite (proj2 (map_lookup_filter_Some _ _ _ _) (conj E Ec)).
    + by rewrite (proj2 (map_lookup_filter_None _ _ _)) by (by left).
Qed.

(** The result a deadline pass sends for an operation, if any. *)
Definition fired now ops (id : Z) : option (Z * WriteRemoteResult) :=
  match ops !! id with
  | Some op => if expired now op && reactor_gate op then Some (id, MakeResultEvent (MarkTerminal kFailed [] op)) else None
  | None => None
  end.
Lemma fired_id now ops id e : fired now ops id = Some e → e.1 = id.
Proof. unfold fired. repeat case_match; naive_solver. Qed.
Lemma occurs_fired now ops id l :
  NoDup l → occurs id (omap (fired now ops) l).*1 = if decide (id ∈ l) then (if fired now ops id is Some _ then 1 else 0) else 0.
Proof.
  induction l as [|x l IH]; [done|]. intros [Hx Hl]%NoDup_cons. specialize (IH Hl). cbn [omap list_omap].
  destruct (decide (x = id)) as [->|Hne].
  - rewrite (decide_True (P := id ∈ id :: l)) by left. rewrite decide_False in IH by done.
    destruct (fired now ops id) as [e|] eqn:Ef; [|done]. cbn [fmap list_fmap]. rewrite occurs_cons, (fired_id _ _ _ _ Ef), decide_True, IH by done. done.
  - assert ((if decide (id ∈ x :: l) then (if fired now ops id is Some _ then 1 else 0) else 0) = occurs id (omap (fired now ops) l).*1) as ->.
    { rewrite IH. destruct (decide (id ∈ l)) as [Hi|Hn]; [by rewrite decide_True by (by right)|].
      rewrite decide_False; [done|]. by intros [?|?]%elem_of_cons. }
    destruct (fired now ops x) as [e|] eqn:Ef; [|done]. cbn [fmap list_fmap]. by rewrite occurs_cons, (fired_id _ _ _ _ Ef), decide_False.
Qed.
Lemma fire_balance (order : list Z) now ops :
  order ≡ₚ (map_to_list ops).*1 →
  gates_balance ops [] (omap (fired now ops) order) (fire_deadline now <$> ops) ∧ results_final (omap (fired now ops) order).
Proof.
  intros Hord. assert (NoDup order) as Hnd by (rewrite Hord; apply NoDup_fst_map_to_list). split.
  - intros id. rewrite occurs_fired by done. unfold gate_open, fired. rewrite lookup_fmap.
    assert (id ∈ order ↔ is_Some (ops !! id)) as Hin.
    { rewrite Hord, list_elem_of_fmap. split; [intros ([k x] & -> & Hi%elem_of_map_to_list); by eexists|].
      intros [x Hx]. exists (id, x). split; [done|]. by apply elem_of_map_to_list. }
    destruct (ops !! id) as [op|]; [rewrite decide_True by (apply Hin; by eexists)|by case_decide].
    cbn. unfold fire_deadline. destruct (expired now op), (reactor_gate op) eqn:Eg; cbn; rewrite ?Eg; done.
  - intros id r (k & _ & Hk)%list_elem_of_omap. unfold fired in Hk. destruct (ops !! k) as [op|]; [|done].
    destruct (expired now op && reactor_gate op); [|done]. injection Hk as <- <-. by apply final_terminal.
Qed.
Lemma balance_trans ops ev ops1 ops2 : gates_balance ops [] ev ops1 → gates_balance ops1 [] [] ops2 → gates_balance ops [] ev ops2.
Proof. intros H1 H2 id. specialize (H1 id). specialize (H2 id). change (occurs id [].*1) with 0 in H2. change (occurs id []) with 0 in *. lia. Qed.
Lemma deadline_ok order now nd ev nd' jobs :
  order ≡ₚ (map_to_list (write_ops_ nd)).*1 → DeadlineLoop_round order now nd = (ev, nd') → ops_ok (write_ops_ nd) jobs →
  ops_ok (write_ops_ nd') jobs ∧ gates_balance (write_ops_ nd) [] ev (write_ops_ nd') ∧ results_final ev.
Proof.
  intros Hord E Ho. destruct (fire_balance order now (write_ops_ nd) Hord) as [Hb Hf]. apply (fire_ok now) in Ho.
  unfold DeadlineLoop_round in E. change (omap (λ id, _) order) with (omap (fired now (write_ops_ nd)) order) in E.
  set (e := omap (fired now (write_ops_ nd)) order) in *. clearbody e. injection E as <- <-.
  case_bool_decide; [|done]. destruct (collect_ok now _ _ Ho) as [Ho' Hb']. cbn. split; [done|]. split; [|done]. by eapply balance_trans.
Qed.

Lemma allocated_length n st ids st' :
  controller_AllocateBlockIds n st = (Ok ids, st') → Z.of_nat (length ids) = n ∧ 0 < n.
Proof.
  unfold controller_AllocateBlockIds. destruct (Allocate n true (pool st)) as [r p] eqn:E. intros [= -> <-].
  destruct (Allocate_cases n true (pool st)) as [[E' _]|[(E' & _)|(p' & E' & Hn & Hl & _)]]; rewrite E' in E; simplify_eq.
  split; [|lia]. apply length_allocation. lia.
Qed.
(** The service's jobs are in order whatever the store's books. *)
Lemma service_segment_jobs js nd js' acc ev nd' :
  service_segment js nd js' acc ev nd' → Forall service_job_ok js → Forall service_job_ok js'.
Proof.
  intros Hseg Hok. destruct Hseg; rewrite ?Forall_singleton in Hok; cbn in Hok; try (by constructor); try (by apply Forall_singleton).
  - (* screen *) apply Forall_singleton. cbn. unfold WriteRemote_screen, write_request_check in *.
    destruct (bool_decide (wq_block_hashes request = [])) eqn:Ee; [done|]. by apply bool_decide_eq_false in Ee.
  - (* accept *) destruct Hok as [Hne Hfit]. apply Forall_singleton. unfold WriteRemote_accept in *.
    destruct (controller_AllocateBlockIds _ _) as [[ids|] st] eqn:Ea; [|done]. simplify_eq. cbn in *.
    match goal with E : <[_ := _]> _ !! _ = _ |- _ => rewrite lookup_insert_eq in E; injection E as <- end. cbn.
    destruct (allocated_length _ _ _ _ Ea) as [Hn Hp]. split; [lia|]. split; [|done]. intros ->. cbn in Hn. lia.
  - (* claim *) apply Forall_singleton. by destruct claimed.
  - (* exists *) apply Forall_singleton. split; [done|]. unfold Complete_recheck in *. repeat case_match; naive_solver.
  - (* insert *) apply Forall_singleton. by destruct ok.
Qed.

Lemma draw_fresh draws nd op_id : draw_op_id draws nd = Some op_id → op_id ≠ 0 ∧ write_ops_ nd !! op_id = None.
Proof.
  intros [_ [H1%negb_true_iff%Z.eqb_neq H2%bool_decide_eq_true]%andb_true_iff]%List.find_some. done.
Qed.
Lemma accept_ops hashes granted now op_id nd r nd' :
  WriteRemote_accept hashes granted now op_id nd = (Ok r, nd') →
  ∃ ids, write_ops_ nd' = <[op_id := mkWriteOp kPending hashes ids [] [] (now + granted) (now + granted + kRecordMargin) false true false]>
                            (write_ops_ nd).
Proof.
  unfold WriteRemote_accept. destruct (controller_AllocateBlockIds _ _) as [[ids|] st]; [|done]. intros [= _ <-]. by exists ids.
Qed.
Lemma balance_opened ops id op : ops !! id = None → reactor_gate op = true → gates_balance ops [id] [] (<[id := op]> ops).
Proof.
  intros E Hg k. unfold gate_open. rewrite occurs_cons. destruct (decide (id = k)) as [<-|Hne].
  - by rewrite lookup_insert_eq, E, Hg.
  - by rewrite lookup_insert_ne.
Qed.
Lemma ops_ok_accept ops id op hashes blocks rest :
  ops !! id = None → carries op hashes blocks → op_state op = kPending → ops_ok ops rest →
  ops_ok (<[id := op]> ops) (JPull id hashes blocks :: rest).
Proof.
  intros E Hc Hs [Hnd Hj Hd].
  assert (id ∉ job_ops rest) as Hni.
  { intros (j & Hid & Hin)%list_elem_of_bind. pose proof (proj1 (Forall_forall _ _) Hj j Hin) as Hjo.
    destruct j; cbn in Hid; try (by apply not_elem_of_nil in Hid); apply list_elem_of_singleton in Hid as ->;
      destruct Hjo as (op' & E' & _); congruence. }
  split.
  - unfold job_ops. cbn. by apply NoDup_cons.
  - apply Forall_cons. split; [exists op; rewrite lookup_insert_eq; auto|].
    apply Forall_forall. intros j Hin. eapply job_op_other; [by eapply (proj1 (Forall_forall _ _) Hj)|].
    intros k Hk. rewrite lookup_insert_ne; [done|]. intros ->. apply Hni, list_elem_of_bind. eauto.
  - intros k op' Hk. unfold job_ops. cbn. destruct (decide (k = id)) as [->|]; [left; by left|].
    rewrite lookup_insert_ne in Hk by done. destruct (Hd k op' Hk); [left; by right|by right].
Qed.

Lemma service_segment_ops js nd js' acc ev nd' rest :
  service_segment js nd js' acc ev nd' → Forall service_job_ok js → ops_ok (write_ops_ nd) (js ++ rest) →
  ops_ok (write_ops_ nd') (js' ++ rest) ∧ gates_balance (write_ops_ nd) acc ev (write_ops_ nd') ∧ results_final ev.
Proof.
  assert (results_final []) as Hnil by (by intros ? ? ?%not_elem_of_nil).
  intros Hseg Hok Ho. pose proof (oo_jobs _ _ Ho) as Hop. apply Forall_app in Hop as [Hop _].
  destruct Hseg; rewrite ?Forall_singleton in Hok; rewrite ?Forall_singleton in Hop; cbn [app] in *.
  - (* screen *) split; [|split; [apply balance_same|done]]. by apply (ops_ok_other _ _ [] [_]); [..|apply Forall_singleton|].
  - (* accept *) destruct (accept_ops _ _ _ _ _ _ _ ltac:(done)) as (ids & Eo). rewrite Eo, lookup_insert_eq in *. simplify_eq.
    destruct (draw_fresh _ _ _ ltac:(done)) as [_ Hf]. split; [|split; [by apply balance_opened|done]]. apply ops_ok_accept; try done.
    by apply (ops_ok_other _ _ [_] []) in Ho.
  - (* refuse *) assert (write_ops_ nd' = write_ops_ nd) as -> by (unfold WriteRemote_accept in *; repeat case_match; naive_solver).
    split; [|split; [apply balance_same|done]]. by apply (ops_ok_other _ _ [_] []) in Ho.
  - (* claim *) destruct Hop as (op & E & Hc & Hs).
    match goal with Eq : Complete_claim _ _ _ _ = _ |- _ =>
      destruct (Complete_claim_at _ _ _ _ _ _ _ E Eq) as [([= ->] & _ & _ & _ & ->)|[([= ->] & _ & ->)|([= ->] & Hns & ->)]] end; cbn.
    + split; [|split; [by apply (balance_kept _ _ op)|done]]. eapply ops_ok_step; [exact Ho|done|done|]. eexists. by rewrite lookup_insert_eq.
    + split; [|split; [by apply (balance_kept _ _ op)|done]]. eapply ops_ok_step; [exact Ho|done|done|]. eexists. rewrite lookup_insert_eq.
      split; [done|]. split; [|done]. destruct Hc as (? & ? & Hr). split; [done|]. split; [done|]. cbn. by rewrite Hr.
    + split; [|split; [apply balance_same|done]]. eapply ops_ok_continue; [exact Ho|done|]. exists op. split; [done|]. split; [done|].
      destruct Hs; congruence.
  - (* late *) destruct Hop as (op & E & (Eh & Eb & Er) & Est), Hok as (Hl & Hn & _). subst.
    rewrite (Complete_late_at _ _ _ E Er Hn) in *. simplify_eq. cbn.
    split; [|split; [by apply balance_announced|by apply announce_final; rewrite Est]]. eapply ops_ok_end; [exact Ho|done|]. by split; [cbn; rewrite Est|].
  - (* exists *) split; [|split; [apply balance_same|done]]. by eapply ops_ok_continue; [exact Ho|..].
  - (* absent *) split; [|split; [apply balance_same|done]]. by eapply ops_ok_continue; [exact Ho|..].
  - (* insert *) assert (write_ops_ nd' = write_ops_ nd) as -> by (unfold Complete_insert in *; repeat case_match; naive_solver).
    split; [|split; [apply balance_same|done]]. by destruct ok; (eapply ops_ok_continue; [exact Ho|..]).
  - (* finish *) destruct Hop as (op & E & (Eh & Eb & Er) & _), Hok as ((Hl & Hn & _) & Ht & Hk). subst.
    rewrite (Finish_at _ _ _ _ _ E Er Hn), Hk in *. simplify_eq. cbn.
    split; [|split; [by apply balance_announced|by apply announce_final]]. by eapply ops_ok_end; [exact Ho|..].
  - (* publish *) destruct Hop as (op & E & (Eh & Eb & Er) & _), Hok as (Hl & Hn & _). subst. unfold FinishPublish in *.
    rewrite (Finish_at _ _ _ _ _ E Er Hn) in *. destruct registered; simplify_eq; cbn;
      (split; [|split; [by apply balance_announced|by apply announce_final]]); (eapply ops_ok_end; [exact Ho|done|]);
      (split; [done|]); (split; [cbn; by rewrite orb_true_r|done]).
  - (* deadline *) by eapply deadline_ok.
  - (* poll *) unfold PollWriteRemote in *. case_match; simplify_eq; [split; [done|]; split; [apply balance_same|done]|].
    destruct (collect_ok now _ _ Ho). by repeat case_match.
  - (* fetch *) assert (write_ops_ nd' = write_ops_ nd) as -> by (unfold Fetch_start in *; repeat case_match; naive_solver).
    split; [|split; [apply balance_same|done]]. by apply (ops_ok_other _ _ [] [_]); [..|apply Forall_singleton|].
  - (* fetched *) unfold Fetch_finish in *. simplify_eq. cbn. split; [|split; [apply balance_same|done]]. by apply (ops_ok_other _ _ [_] []) in Ho.
Qed.
End service.

(** ** The world *)

(** [w_app]: the pins clients hold; [w_lost]: the blocks insertions dropped;
    [w_accepted], [w_sent]: the operations accepted from peers and the results sent;
    [w_faults]: the fault segments that have run. *)
Record World := mkWorld {
  w_node : StoreNode; w_jobs : list Job; w_app : list string; w_lost : list Z; w_accepted : list Z; w_sent : Events;
  w_faults : list Fault }.
Implicit Types (w : World).
Abbreviation w_store w := (node_store (w_node w)).

Definition store_segment : Transition := λ js tk st js' gv ls st',
  index_segment js tk st js' gv ls st' ∨ save_segment js tk st js' gv ls st' ∨ alloc_segment js tk st js' gv ls st' ∨
  load_segment js tk st js' gv ls st' ∨ read_segment js tk st js' gv ls st' ∨ offer_segment js tk st js' gv ls st'.

(** One segment of any operation runs. *)
Inductive world_step (w : World) : World → Prop :=
  | step_store js rest tk app js' gv ls st' :
      w_jobs w ≡ₚ js ++ rest → w_app w ≡ₚ tk ++ app → store_segment js tk (w_store w) js' gv ls st' →
      world_step w (mkWorld (with_store st' (w_node w)) (js' ++ rest) (gv ++ app) (ls ++ w_lost w) (w_accepted w) (w_sent w)
                      (w_faults w))
  | step_fault f js rest tk app js' gv ls st' :
      w_jobs w ≡ₚ js ++ rest → w_app w ≡ₚ tk ++ app → fault_segment f js tk (w_store w) js' gv ls st' →
      world_step w (mkWorld (with_store st' (w_node w)) (js' ++ rest) (gv ++ app) (ls ++ w_lost w) (w_accepted w) (w_sent w)
                      (f :: w_faults w))
  | step_service js rest js' acc ev nd' :
      w_jobs w ≡ₚ js ++ rest → service_segment js (w_node w) js' acc ev nd' →
      world_step w (mkWorld nd' (js' ++ rest) (w_app w) (w_lost w) (acc ++ w_accepted w) (ev ++ w_sent w) (w_faults w)).

(** The books of a world. *)
Record books_ok w : Prop := {
  wo_jobs : Forall job_ok (w_jobs w);
  wo_books : ledger (w_store w) (saving (w_jobs w)) (hosted (w_jobs w)) (w_app w ++ pinned_by (w_jobs w))
               (held_by (w_jobs w) ++ w_lost w);
}.
Record world_ok w : Prop := {
  wo_service : Forall service_job_ok (w_jobs w);
  wo_ops : ops_ok (write_ops_ (w_node w)) (w_jobs w);
  wo_gates id : occurs id (w_accepted w) = occurs id (w_sent w).*1 + gate_open (write_ops_ (w_node w)) id;
  wo_sent : results_final (w_sent w);
  wo_faultless : w_faults w = [] → books_ok w;
}.

(** Jobs pin what they save and what they read. *)
Lemma jobs_covered jobs h : h ∈ saving jobs ∨ h ∈ hosted jobs → h ∈ pinned_by jobs.
Proof.
  intros [Hh|Hh]; apply list_elem_of_bind in Hh as (j & Hj & Hin); apply list_elem_of_bind; exists j; (split; [|done]);
    destruct j; cbn in *; try done; try (by apply not_elem_of_nil in Hj); apply elem_of_app; by left.
Qed.
Lemma ops_ok_perm ops jobs jobs' : jobs ≡ₚ jobs' → ops_ok ops jobs → ops_ok ops jobs'.
Proof.
  intros Hp [Hnd Hj Hd]. unfold job_ops in *. split; unfold job_ops; [by rewrite <- Hp|by rewrite <- Hp|]. intros id op. rewrite <- Hp. apply Hd.
Qed.
Lemma occurs_app id l l' : occurs id (l ++ l') = occurs id l + occurs id l'.
Proof. unfold occurs. rewrite filter_app, length_app. lia. Qed.
Lemma store_segment_books : keeps_books store_segment.
Proof.
  intros js tk st js' gv ls st' [Hs|[Hs|[Hs|[Hs|[Hs|Hs]]]]];
    [eapply index_segment_books|eapply save_segment_books|eapply alloc_segment_books|eapply load_segment_books
    |eapply read_segment_books|eapply offer_segment_books]; exact Hs.
Qed.

(** The store's own jobs carry no operation of a peer. *)
Lemma store_job_op j : store_job j = true → job_op j = [].
Proof. by destruct j. Qed.
Lemma store_jobs_op ops js : Forall (λ j, store_job j = true) js → job_ops js = [] ∧ Forall (job_op_ok ops) js.
Proof.
  induction 1 as [|j js Hj _ [IH1 IH2]]; [done|]. split; [unfold job_ops; cbn; by rewrite (store_job_op j Hj)|].
  apply Forall_cons. split; [|done]. by destruct j.
Qed.
Lemma store_segment_jobs js tk st js' gv ls st' :
  store_segment js tk st js' gv ls st' → Forall (λ j, store_job j = true) js ∧ Forall (λ j, store_job j = true) js'.
Proof.
  assert (∀ j, store_job j = true → Forall (λ j, store_job j = true) [j]) as H1 by (intros; by apply Forall_singleton).
  intros [Hs|[Hs|[Hs|[Hs|[Hs|Hs]]]]]; destruct Hs; (split; [try by constructor; [|constructor]|]);
    try (by constructor; [|constructor]); try by constructor.
  - destruct published; [by apply H1|constructor].
  - destruct published; [by apply H1|constructor].
  - destruct w; [by apply H1|constructor].
  - apply H1. destruct w; cbn; [destruct (has_secondary st')|]; done.
  - unfold read_jobs. apply Forall_app. split; (case_bool_decide; [constructor|by apply H1]).
  - destruct r; [by apply H1|constructor].
  - destruct ok; [by apply H1|constructor].
  - destruct (begun response); [by apply H1|constructor|constructor].
  - destruct (cancelled r); [by apply H1|]. destruct polls; [by apply H1|constructor].
Qed.
Lemma fault_segment_jobs f js tk st js' gv ls st' :
  fault_segment f js tk st js' gv ls st' → Forall (λ j, store_job j = true) js ∧ Forall (λ j, store_job j = true) js'.
Proof. intros []; (split; [by apply Forall_singleton|]); [by apply Forall_singleton|constructor]. Qed.

(** The books as a segment sees them: its own part beside a frame. *)
Lemma books_frame w js rest tk app :
  books_ok w → w_jobs w ≡ₚ js ++ rest → w_app w ≡ₚ tk ++ app →
  ledger (w_store w) (saving js ++ saving rest) (hosted js ++ hosted rest) (tk ++ pinned_by js ++ (app ++ pinned_by rest))
    (held_by js ++ (held_by rest ++ w_lost w)) ∧
  Forall job_ok js ∧ Forall job_ok rest ∧
  (∀ h, h ∈ saving rest → h ∈ app ++ pinned_by rest) ∧ (∀ h, h ∈ hosted rest → h ∈ app ++ pinned_by rest).
Proof.
  intros [Hj L] Hjobs Happ. rewrite Hjobs in Hj. apply Forall_app in Hj as [Hjs Hrest]. split; [|split_and!; try done].
  - eapply ledger_perm; [exact L|..]; unfold saving, hosted, pinned_by, held_by in *.
    + by rewrite <- bind_app, Hjobs.
    + intros h. by rewrite <- bind_app, Hjobs.
    + rewrite Happ, Hjobs, bind_app. solve_Permutation.
    + rewrite Hjobs, bind_app. solve_Permutation.
  - intros h Hh. apply elem_of_app. right. apply jobs_covered. by left.
  - intros h Hh. apply elem_of_app. right. apply jobs_covered. by right.
Qed.
Lemma books_join st S H P B js' rest gv app ls lost :
  ledger st (saving js' ++ saving rest) (hosted js' ++ hosted rest) (gv ++ pinned_by js' ++ (app ++ pinned_by rest))
    (ls ++ held_by js' ++ (held_by rest ++ lost)) →
  S = saving (js' ++ rest) → H = hosted (js' ++ rest) → P = (gv ++ app) ++ pinned_by (js' ++ rest) →
  B = held_by (js' ++ rest) ++ ls ++ lost → ledger st S H P B.
Proof.
  intros L -> -> -> ->.
  eapply ledger_perm; [exact L|..]; unfold saving, hosted, pinned_by, held_by; try setoid_rewrite bind_app; done || solve_Permutation.
Qed.

(** A segment of the store, balanced or not, keeps what concerns the service. *)
Lemma store_step_service w js rest js' nd' :
  world_ok w → w_jobs w ≡ₚ js ++ rest → write_ops_ nd' = write_ops_ (w_node w) →
  Forall (λ j, store_job j = true) js → Forall (λ j, store_job j = true) js' →
  Forall service_job_ok (js' ++ rest) ∧ ops_ok (write_ops_ nd') (js' ++ rest).
Proof.
  intros [Hsv Ho _ _ _] Hjobs -> Hn Hn'. rewrite Hjobs in Hsv. apply Forall_app in Hsv as [_ Hrest].
  split; [apply Forall_app; split; [by apply store_jobs_ok|done]|].
  destruct (store_jobs_op (write_ops_ (w_node w)) js Hn), (store_jobs_op (write_ops_ (w_node w)) js' Hn').
  apply (ops_ok_other _ rest js js'); try done. by apply (ops_ok_perm _ _ _ Hjobs).
Qed.

Lemma world_step_ok w w' : world_step w w' → world_ok w → world_ok w'.
Proof.
  intros Hstep Hw. destruct Hstep as [js rest tk app js' gv ls st' Hjobs Happ Hseg|f js rest tk app js' gv ls st' Hjobs Happ Hseg
    |js rest js' acc ev nd' Hjobs Hseg].
  - destruct (store_segment_jobs _ _ _ _ _ _ _ Hseg) as [Hn Hn'].
    destruct (store_step_service w js rest js' (with_store st' (w_node w)) Hw Hjobs eq_refl Hn Hn') as [Hsv Ho]. destruct Hw as [_ _ Hg Hsent Hbk].
    split; cbn [w_node w_jobs w_app w_lost w_accepted w_sent w_faults]; try done. intros Hf.
    destruct (books_frame w js rest tk app (Hbk Hf) Hjobs Happ) as (L1 & Hjs & Hrest & HcS & HcH).
    destruct (store_segment_books _ _ _ _ _ _ _ Hseg Hjs _ _ _ _ HcS HcH L1) as [L2 Hjs'].
    split; cbn [w_node w_jobs w_app w_lost node_store with_store]; [by apply Forall_app|by eapply books_join].
  - destruct (fault_segment_jobs _ _ _ _ _ _ _ _ Hseg) as [Hn Hn'].
    destruct (store_step_service w js rest js' (with_store st' (w_node w)) Hw Hjobs eq_refl Hn Hn') as [Hsv Ho]. destruct Hw as [_ _ Hg Hsent _].
    by split.
  - destruct Hw as [Hsv Ho Hg Hsent Hbk]. apply (ops_ok_perm _ _ _ Hjobs) in Ho. rewrite Hjobs in Hsv. apply Forall_app in Hsv as [Hsj Hsr].
    destruct (service_segment_ops _ _ _ _ _ _ rest Hseg Hsj Ho) as (Ho2 & Hb & Hfin).
    split; cbn [w_node w_jobs w_app w_lost w_accepted w_sent w_faults]; try done.
    + apply Forall_app. split; [by eapply service_segment_jobs|done].
    + intros id. specialize (Hb id). rewrite fmap_app, !occurs_app, Hg. lia.
    + intros id r [Hi|Hi]%elem_of_app; [by eapply Hfin|by eapply Hsent].
    + intros Hf. destruct (books_frame w js rest [] (w_app w) (Hbk Hf) Hjobs ltac:(done)) as (L1 & Hjs & Hrest & HcS & HcH).
      assert (Forall (job_op_ok (write_ops_ (w_node w))) js) as Hop by (by apply oo_jobs, Forall_app in Ho as [? _]).
      destruct (service_segment_books _ _ _ _ _ _ Hseg Hjs Hop _ _ _ _ HcS HcH L1) as [L2 Hjs'].
      split; cbn [w_node w_jobs w_app w_lost]; [by apply Forall_app|]. by eapply (books_join _ _ _ _ _ js' rest [] (w_app w) []).
Qed.
Lemma world_step_faults w w' : world_step w w' → w_faults w' = [] → w_faults w = [].
Proof. by intros []. Qed.

(** ** Start, crash and recovery *)

(** A store that starts over a table and a pool nothing has been taken from. *)
Record starts (m : KVCacheMetadata) st : Prop := {
  st_backend : ∃ capacity id registry, (0 < capacity)%nat ∧ tier0 st = HostOffloadBackend_new capacity (Some m) id registry;
  st_pool : LogicalBlockManager_new (md_num_blocks m) = Some (pool st);
  st_small : md_num_blocks m <= INT_MAX;
  st_rest : ∃ max registry secondary, st = KVCacheStore_new (tier0 st) (pool st) max registry secondary;
}.
(** Nothing in flight; the faults of earlier lives stay on record. *)
Definition idle (nd : StoreNode) (faults : list Fault) : World := mkWorld nd [] [] [] [] [] faults.

(** A store that has just started answers to nobody yet. *)
Lemma idle_service st faults : (faults = [] → books_ok (idle (mkNode_ st ∅) faults)) → world_ok (idle (mkNode_ st ∅) faults).
Proof.
  intros Hb. split; cbn; try done; [|by intros ? ? ?%not_elem_of_nil]. split; [constructor|done|]. by intros id op ?%lookup_empty_Some.
Qed.

Lemma idle_ok st :
  (∃ m, mirrors (tier0 st) m ∧ md_num_blocks m = total_blocks_ (pool st)) → LogicalBlockManager.wf (pool st) →
  locked_set (pool st) = allocated_set (pool st) → (∀ k, LruCache.GetPinCount k (cache st) = 0) →
  BlockTracker.wf (save_tracker_ st) →
  (∀ blk, blk ∈ allocated_set (pool st) ↔ ∃ h, host_of (cache st) h = Some blk) → ∀ faults, books_ok (idle (mkNode_ st ∅) faults).
Proof.
  intros Hm Hp Hl Hpin Ht Ha faults. destruct Hm as (m & Hm & Hn). split; cbn; [done|].
  split; cbn [app]; try done; try (by intros h ?%not_elem_of_nil).
  - by exists m.
  - split; [constructor| |by intros ? ? _ ?%not_elem_of_nil|].
    + intros h1 h2 blk E1 E2. pose proof (mi_range _ _ _ Hm _ _ E1) as [Hr _]%set_accepts_iff.
      apply (mi_exact _ _ Hm) in E1, E2; try done. congruence.
    + intros blk. rewrite Ha. split; [by left|]. intros [?|?%not_elem_of_nil]; done.
  - constructor.
Qed.

Lemma starts_pool m st : starts m st → LogicalBlockManager.wf (pool st) ∧ total_blocks_ (pool st) = md_num_blocks m ∧
  allocated_set (pool st) = ∅ ∧ locked_set (pool st) = ∅.
Proof. intros [_ Hp Hs _]. destruct (LogicalBlockManager_new_wf _ _ Hs Hp) as (? & ? & ? & ? & _). done. Qed.
(** A store over a formatted table starts in order. *)
Lemma formatted_ok r n uid m st :
  region_ok r → n < 2 ^ 31 → Format r n uid = Ok m → starts m st → world_ok (idle (mkNode_ st ∅) []).
Proof.
  intros Hr Hn HF Hst. destruct (starts_pool m st Hst) as (Hp & Ht & Ha & Hl). destruct Hst as [(cap & id & reg & _ & Eb) _ _ (mx & g & s & E)].
  assert (∀ h, host_of (cache st) h = None) as Hnone.
  { intros h. rewrite Eb. unfold host_of, values. cbn. by rewrite lookup_fmap. }
  apply idle_service. intros _. apply idle_ok; [exists m; rewrite Eb; split; [by eapply fresh_mirrors|done]|done|by rewrite Ha, Hl| |rewrite E; apply BlockTracker_new_wf|].
  - intros k. by rewrite Eb.
  - intros blk. rewrite Ha. split; [by intros ?%elem_of_empty|]. intros [h Hh]. by rewrite Hnone in Hh.
Qed.

Lemma recover_pool s p r s' p' :
  LogicalBlockManager.wf p → allocated_set p = ∅ → HostOffloadBackend.RecoverFromLocalManifest s p = (r, s', p') →
  LogicalBlockManager.wf p' ∧ total_blocks_ p' = total_blocks_ p ∧ locked_set p' = allocated_set p'.
Proof.
  intros Hw Ha. assert (locked_set p = allocated_set p) as Hl.
  { rewrite Ha. apply set_eq. intros i. split; [|by intros ?%elem_of_empty]. intros Hi. apply (LogicalBlockManager.wf_locked _ Hw) in Hi. by rewrite Ha in Hi. }
  unfold HostOffloadBackend.RecoverFromLocalManifest. destruct (metadata_ s); [|by intros [= _ _ <-]].
  case_bool_decide; [by intros [= _ _ <-]|]. destruct (AllocateTarget _ p) as [[[]|c] p1] eqn:E; intros [= _ _ <-].
  - destruct (AllocateTarget_views _ _ _ Hw E) as (_ & _ & Hw' & Ha' & Hl' & _). split; [done|]. split; [|by rewrite Ha', Hl', Hl].
    unfold AllocateTarget in E. destruct (validate_target _ _ _); [|done]. by injection E as <-.
  - unfold AllocateTarget in E. destruct (validate_target _ _ _); [done|]. by injection E as _ <-.
Qed.
(** Recovery puts a starting store in order, with every block of the table's mirror. *)
Lemma recovered_ok m st r st' :
  table_ok m → starts m st → (∀ e, e ∈ ValidEntries m → 0 <= en_seq e < 2 ^ 64 - 1) →
  KvCacheStore.RecoverFromLocalManifest st = (r, st') →
  (∀ faults, books_ok (idle (mkNode_ st' ∅) faults)) ∧ ∀ h, host_of (cache st') h = en_block_id <$> newest m !! h.
Proof.
  intros Hm Hst Hseq. destruct (starts_pool m st Hst) as (Hp & Ht & Ha & Hl).
  destruct Hst as [(cap & id & reg & Hcap & Eb) _ _ (mx & g & sec & E)].
  unfold KvCacheStore.RecoverFromLocalManifest. rewrite Eb.
  assert ((0 <? cache_size (lru_cache_ (HostOffloadBackend_new cap (Some m) id reg)))%nat = false) as -> by done.
  destruct (RecoverFromLocalManifest_eq m cap id reg (pool st) Hm Hp Ha ltac:(lia) Hseq) as (b & p' & Er & Ec & Em & Hal & _).
  destruct (recover_pool _ _ _ _ _ Hp Ha Er) as (Hp' & Ht' & Hl').
  destruct (recovered_cache m cap id Hcap) as (Hw & Hv & Hpin). cbn zeta in Hw, Hv, Hpin. rewrite <- Ec in Hw, Hv, Hpin.
  assert (∀ h, host_of (lru_cache_ b) h = en_block_id <$> newest m !! h) as Hho.
  { intros h. unfold host_of. rewrite Hv, lookup_fmap. by destruct (newest m !! h). }
  rewrite Er. intros [= _ <-]. split; [|done]. apply idle_ok; cbn [tier0 pool with_tier0 with_pool save_tracker_]; try done.
  - exists (recovered_table m). split; [by apply recovered_mirrors|]. destruct (recovered_table_spec m Hm) as (_ & -> & _). cbn. congruence.
  - rewrite E. apply BlockTracker_new_wf.
  - intros blk. rewrite Hal, elem_of_list_to_set, list_elem_of_fmap. setoid_rewrite Hho.
    setoid_rewrite fmap_Some. setoid_rewrite elem_of_recoverable. split.
    + intros (e & -> & He). by exists (en_hash e), e.
    + intros (h & e & He & ->). exists e. split; [done|]. by destruct (newest_Some _ _ _ He) as [-> _].
Qed.
