(* ===== verification/StoreProperties.v ===== *)
(** * StoreProperties: what holds of a store node over its whole life
    (src/tpu_sync/kv_cache/kv_cache_store.cc, kv_cache_store_service.cc)

    The theorems of the store: blocks and pins accounted for in every state that the
    interleaved operations reach without a fault segment, crashes included; recovery;
    the state machine of landing operations; allocation under eviction; saves read
    back by loads. *)

From S2P Require Import Prelude RaidenTypes BlockPool LogicalBlockManager BlockTracker LruCache KvCacheMetadata.
From S2P Require Import HostOffloadBackend BackendMirror BackendViews KvCacheStore StoreService StoreLedger StoreWorld StoreLifecycle.
Implicit Types (st : KVCacheStore) (nd : StoreNode) (jobs : list Job) (hashes : list string) (op : WriteOp) (w : World).

(** ** Lives *)

(** A node runs, or crashes: the table survives, and a new store over it recovers. *)
Inductive life_step w : World → Prop :=
  | life_run w' : world_step w w' → life_step w w'
  | life_crash m st r st' :
      metadata_ (tier0 (w_store w)) = Some m → starts m st → (∀ e, e ∈ ValidEntries m → 0 <= en_seq e < 2 ^ 64 - 1) →
      KvCacheStore.RecoverFromLocalManifest st = (r, st') → life_step w (idle (mkNode_ st' ∅) (w_faults w)).
(** The first store of the table. *)
Definition first_world w : Prop :=
  ∃ r n uid m st, region_ok r ∧ n < 2 ^ 31 ∧ Format r n uid = Ok m ∧ starts m st ∧ w = idle (mkNode_ st ∅) [].
Definition reachable w : Prop := ∃ w0, first_world w0 ∧ rtc life_step w0 w.

Lemma table_mirrored w m : books_ok w → metadata_ (tier0 (w_store w)) = Some m → mirrors (tier0 (w_store w)) m.
Proof. intros Hok E. destruct (le_mirror _ _ _ _ _ (wo_books _ Hok)) as (m' & Hm & _). pose proof (mi_table _ _ _ Hm). by simplify_eq. Qed.
Lemma reachable_ok w : reachable w → world_ok w.
Proof.
  intros (w0 & (r & n & uid & m & st & Hr & Hn & HF & Hs & ->) & Hlife). pose proof (formatted_ok _ _ _ _ _ Hr Hn HF Hs) as H0.
  induction Hlife as [|w1 w2 w3 Hst _ IH]; [done|]. apply IH. destruct Hst as [w' Hw|m' st' r' st'' Em Hs' Hseq HR]; [by eapply world_step_ok|].
  apply idle_service. intros Hf. eapply (recovered_ok m'); try done. apply (table_mirrored w1 m' (wo_faultless _ H0 Hf) Em).
Qed.
Lemma reachable_books w : reachable w → w_faults w = [] → books_ok w.
Proof. intros Hw%reachable_ok. apply Hw. Qed.

(** C2: Every host block has exactly one owner.  In every state a node reaches without
    a fault, however its saves, loads, reads, offers, evictions, fetches and landing
    operations interleave and however often it has crashed, a block of the pool is
    allocated (and locked) exactly when one cache entry holds it, one operation in
    flight has it in hand, or an insertion dropped it; no two owners share a block.
    A fault is a save admitted for a hash that has a host block by then, because a
    save of it completed between the lookup and the checks of SaveLocal, or that names
    a hash twice; or a lookup that releases a pin it has not taken.  Clients hand over
    and release only pins they hold. *)
Theorem store_blocks_accounted w :
  reachable w → w_faults w = [] →
  let held := held_by (w_jobs w) ++ w_lost w in
  locked_set (pool (w_store w)) = allocated_set (pool (w_store w)) ∧ NoDup held ∧
  (∀ h1 h2 blk, host_of (cache (w_store w)) h1 = Some blk → host_of (cache (w_store w)) h2 = Some blk → h1 = h2) ∧
  (∀ h blk, host_of (cache (w_store w)) h = Some blk → blk ∉ held) ∧
  (∀ blk, blk ∈ allocated_set (pool (w_store w)) ↔ (∃ h, host_of (cache (w_store w)) h = Some blk) ∨ blk ∈ held).
Proof.
  intros Hw Hf held. destruct (wo_books _ (reachable_books w Hw Hf)) as [_ _ Hl _ [Hnd Hinj Hap Hal] _ _ _ _]. by split_and!.
Qed.

(** C3: Every pin has an owner.  In every state a node reaches without a fault, the pin
    count of a hash is the number of pins clients hold plus those of the operations in
    flight (an offer whose stream was cancelled keeps its pins); so what is being saved
    or read stays in the cache: a hash under save is reserved in the tracker and has no
    host block yet, a hash under load or on offer has its host block.  Faults are as
    for the blocks: an overtaken or repeating save, and a lookup, shortened by the
    clamp or failed by a lower tier, that releases a hash some client has pinned and
    it has not. *)
Theorem store_pins_accounted w :
  reachable w → w_faults w = [] →
  (∀ k, LruCache.GetPinCount k (cache (w_store w)) = times k (w_app w) + times k (pinned_by (w_jobs w))) ∧
  (∀ h, h ∈ saving (w_jobs w) ++ hosted (w_jobs w) → Contains h (cache (w_store w)) = true) ∧
  (∀ h, h ∈ saving (w_jobs w) → IsPending h (save_tracker_ (w_store w)) = true ∧ host_of (cache (w_store w)) h = None) ∧
  (∀ h, h ∈ hosted (w_jobs w) → is_Some (host_of (cache (w_store w)) h)).
Proof.
  intros Hw Hf. pose proof (wo_books _ (reachable_books w Hw Hf)) as L. split; [|split; [|split]].
  - intros k. rewrite (le_pins _ _ _ _ _ L), times_app. done.
  - intros h Hh%elem_of_app. eapply le_pinned; [exact L|]. apply elem_of_app. right. by apply jobs_covered.
  - intros h Hh. destruct (le_saving _ _ _ _ _ L h Hh). split; [|done]. by apply bool_decide_eq_true.
  - apply (le_hosted _ _ _ _ _ L).
Qed.

(** C10: A crash loses no block of the cache.  From every state a node reaches without a
    fault, the store that starts over the surviving table and recovers has every host
    block with its hash again, unpinned, and has allocated exactly those blocks: what
    operations in flight held, and what insertions had dropped, is free.  (An overtaken
    save leaves the block it replaces bound in the table.) *)
Theorem store_crash_recovers w m st :
  reachable w → w_faults w = [] → metadata_ (tier0 (w_store w)) = Some m → starts m st →
  (∀ e, e ∈ ValidEntries m → 0 <= en_seq e < 2 ^ 64 - 1) →
  let st' := (KvCacheStore.RecoverFromLocalManifest st).2 in
  (∀ h, host_of (cache st') h = host_of (cache (w_store w)) h) ∧
  (∀ k, LruCache.GetPinCount k (cache st') = 0) ∧
  (∀ blk, blk ∈ allocated_set (pool st') ↔ ∃ h, host_of (cache (w_store w)) h = Some blk).
Proof.
  intros Hw0 Hf Em Hs Hseq. pose proof (reachable_books w Hw0 Hf) as Hw. destruct (KvCacheStore.RecoverFromLocalManifest st) as [r st'] eqn:HR. cbn zeta.
  pose proof (table_mirrored w m Hw Em) as Hm. destruct (recovered_ok m st r st' (mi_ok _ _ _ Hm) Hs Hseq HR) as [Hok Hho]. specialize (Hok []).
  assert (∀ h, host_of (cache st') h = host_of (cache (w_store w)) h) as Hsame by (intros h; rewrite Hho; by apply newest_mirrored).
  pose proof (wo_books _ Hok) as L. split; [done|]. split.
  - intros k. by rewrite (le_pins _ _ _ _ _ L).
  - intros blk. cbn in L. rewrite (bo_alloc _ _ _ (le_blocks _ _ _ _ _ L)). setoid_rewrite Hsame. cbn.
    split; [intros [?|?%not_elem_of_nil]; done|by left].
Qed.

(** ** Landing operations *)

(** C8: Every accepted operation is answered once.  In every state a node reaches, the
    operations accepted under an id are the results sent for it plus the operation
    whose result stream is still open; every result sent is a final state; and an
    operation no callback is working on is terminal, has its landing blocks freed or
    handed to the cache, and has been answered. *)
Theorem service_answers_once w :
  reachable w →
  (∀ id, occurs id (w_accepted w) = occurs id (w_sent w).*1 + gate_open (write_ops_ (w_node w)) id) ∧
  (∀ id r, (id, r) ∈ w_sent w → res_state r ≠ PENDING ∧ res_state r ≠ UNKNOWN) ∧
  (∀ id op, write_ops_ (w_node w) !! id = Some op → id ∉ job_ops (w_jobs w) →
     terminal (op_state op) = true ∧ blocks_released op = true ∧ reactor_gate op = false).
Proof.
  intros Hw%reachable_ok. destruct Hw as [_ Ho Hg Hs _]. split; [done|]. split; [done|].
  intros id op E Hn. by destruct (oo_done _ _ Ho id op E).
Qed.

(** The states an operation may go through. *)
Definition advances (s s' : OpState) : Prop :=
  s' = s ∨ s = kPending ∧ (s' = kCompleting ∨ s' = kFailed) ∨ s = kCompleting ∧ terminal s' = true.
Definition op_successor op op' : Prop :=
  advances (op_state op) (op_state op') ∧ op_block_hashes op' = op_block_hashes op ∧
  landing_block_ids op' = landing_block_ids op ∧ op_deadline op' = op_deadline op ∧
  (blocks_released op = true → blocks_released op' = true) ∧ (reactor_gate op = false → reactor_gate op' = false).
Lemma op_successor_refl op : op_successor op op.
Proof. split_and!; try done. by left. Qed.

(** An insertion that touches one operation. *)
Lemma successor_at (ops : gmap Z WriteOp) id op0 op' k op :
  ops !! id = Some op0 → op_successor op0 op' → ops !! k = Some op →
  ∃ op2, <[id := op']> ops !! k = Some op2 ∧ op_successor op op2.
Proof.
  intros E Hs Hk. destruct (decide (id = k)) as [<-|Hne].
  - exists op'. rewrite lookup_insert_eq. by simplify_eq.
  - exists op. rewrite lookup_insert_ne by done. split; [done|apply op_successor_refl].
Qed.
Lemma collect_successor now ops jobs k op :
  ops_ok ops jobs → ops !! k = Some op → let ops' := filter (λ e : Z * WriteOp, collectable now e.2 = false) ops in
  ops' !! k = Some op ∨ ops' !! k = None ∧ at_rest op.
Proof.
  intros Ho E ops'. destruct (collectable now op) eqn:Ec; [right|left; by apply map_lookup_filter_Some].
  split; [apply map_lookup_filter_None; right; intros x Hx; cbn; simplify_eq; by rewrite Ec|].
  unfold collectable in Ec. apply andb_true_iff in Ec as [[Ht Hr]%andb_true_iff _].
  destruct (oo_done _ _ Ho k op E) as [Hi|?]; [|done]. by rewrite (job_ops_unreleased ops jobs k op (oo_jobs _ _ Ho)) in Hr.
Qed.
Lemma fire_successor now op : op_successor op (fire_deadline now op).
Proof.
  unfold fire_deadline, expired. case_bool_decide as Hs; [|apply op_successor_refl]. cbn. case_match; [|apply op_successor_refl].
  split_and!; try done; cbn; [right; left; auto|]. by intros ->.
Qed.
Lemma service_successor js nd js' acc ev nd' rest k op :
  service_segment js nd js' acc ev nd' → Forall service_job_ok js → ops_ok (write_ops_ nd) (js ++ rest) → write_ops_ nd !! k = Some op →
  (write_ops_ nd' !! k = None ∧ at_rest op) ∨ ∃ op', write_ops_ nd' !! k = Some op' ∧ op_successor op op'.
Proof.
  intros Hseg Hok Ho Hk. pose proof (oo_jobs _ _ Ho) as Hop. apply Forall_app in Hop as [Hop _].
  assert ((write_ops_ nd !! k = None ∧ at_rest op) ∨ ∃ op', write_ops_ nd !! k = Some op' ∧ op_successor op op') as Hsame
    by (right; exists op; split; [done|apply op_successor_refl]).
  destruct Hseg; rewrite ?Forall_singleton in Hok; rewrite ?Forall_singleton in Hop; cbn [app] in *; try done.
  - (* accept *) destruct (accept_ops _ _ _ _ _ _ _ ltac:(done)) as (ids & ->). destruct (draw_fresh _ _ _ ltac:(done)) as [_ Hf].
    rewrite lookup_insert_ne by congruence. done.
  - (* refuse *) assert (write_ops_ nd' = write_ops_ nd) as -> by (unfold WriteRemote_accept in *; repeat case_match; naive_solver). done.
  - (* claim *) destruct Hop as (o & E & Hc & Hs). match goal with Eq : Complete_claim _ _ _ _ = _ |- _ =>
      destruct (Complete_claim_at _ _ _ _ _ _ _ E Eq) as [(_ & _ & Hp & _ & ->)|[(_ & Hp & ->)|(_ & _ & ->)]] end; [| |done];
      right; (eapply successor_at; [exact E| |done]); split_and!; try done; cbn; [right; left; auto|right; left; auto|by intros ->].
  - (* late *) destruct Hop as (o & E & (Eh & Eb & Er) & Est), Hok as (Hl & Hn & _). subst.
    rewrite (Complete_late_at _ _ _ E Er Hn) in *. simplify_eq. right. eapply successor_at; [exact E| |done]. split_and!; try done. by left.
  - (* insert *) assert (write_ops_ nd' = write_ops_ nd) as -> by (unfold Complete_insert in *; repeat case_match; naive_solver). done.
  - (* finish *) destruct Hop as (o & E & (Eh & Eb & Er) & Est), Hok as ((Hl & Hn & _) & Ht & Hkc). subst.
    rewrite (Finish_at _ _ _ _ _ E Er Hn), Hkc in *. simplify_eq. right. eapply successor_at; [exact E| |done]. split_and!; try done. right; right. done.
  - (* publish *) destruct Hop as (o & E & (Eh & Eb & Er) & Est), Hok as (Hl & Hn & _). subst. unfold FinishPublish in *.
    rewrite (Finish_at _ _ _ _ _ E Er Hn) in *. right. destruct registered; simplify_eq; (eapply successor_at; [exact E| |done]);
      split_and!; try done; cbn; try (by rewrite orb_true_r); right; right; done.
  - (* deadline *) match goal with Eq : DeadlineLoop_round _ _ _ = _ |- _ => injection Eq as _ <- end.
    assert ((fire_deadline now <$> write_ops_ nd) !! k = Some (fire_deadline now op)) as Hf by (by rewrite lookup_fmap, Hk).
    case_bool_decide; cbn [write_ops_ with_ops collect]; [|right; exists (fire_deadline now op); split; [done|apply fire_successor]].
    destruct (collect_successor now _ _ _ _ (fire_ok now _ _ Ho) Hf) as [E|[E Hr]]; [right; exists (fire_deadline now op); split; [done|apply fire_successor]|].
    left. split; [done|]. unfold fire_deadline in Hr. destruct (expired now op) eqn:Ee; [|done]. exfalso.
    apply andb_true_iff in Ee as [Ep%bool_decide_eq_true _]. destruct (oo_done _ _ Ho k op Hk) as [Hi|(Ht & _)]; [|by rewrite Ep in Ht].
    destruct Hr as (_ & Hr & _). cbn in Hr. by rewrite (job_ops_unreleased _ _ _ _ (oo_jobs _ _ Ho) Hi Hk) in Hr.
  - (* poll *) unfold PollWriteRemote in *. case_match; simplify_eq; [done|].
    destruct (collect_successor now _ _ _ _ Ho Hk) as [E|?]; repeat case_match; auto; right; exists op; (split; [done|apply op_successor_refl]).
  - (* fetch *) assert (write_ops_ nd' = write_ops_ nd) as -> by (unfold Fetch_start in *; repeat case_match; naive_solver). done.
  - (* fetched *) unfold Fetch_finish in *. by simplify_eq.
Qed.

(** C9: The landing state machine.  Whatever a node does next, an operation of a peer
    stays as it is, goes from pending to completing or failed, or from completing to a
    terminal state; its hashes, landing blocks and deadline never change, a freed
    landing is never taken back and a closed result stream never reopened; and a record
    is forgotten only when it is terminal, freed and answered. *)
Theorem service_state_machine w w' id op :
  reachable w → world_step w w' → write_ops_ (w_node w) !! id = Some op →
  (write_ops_ (w_node w') !! id = None ∧ at_rest op) ∨
  ∃ op', write_ops_ (w_node w') !! id = Some op' ∧ op_successor op op'.
Proof.
  intros Hw%reachable_ok Hst Hop. destruct Hst as [js rest tk app js' gv ls st' _ _ _|f js rest tk app js' gv ls st' _ _ _
    |js rest js' acc ev nd' Hj Hseg].
  - right. exists op. split; [done|apply op_successor_refl].
  - right. exists op. split; [done|apply op_successor_refl].
  - pose proof (wo_service _ Hw) as Hjok. rewrite Hj in Hjok. apply Forall_app in Hjok as [Hjs _].
    eapply service_successor; [exact Hseg|done| |done]. by apply (ops_ok_perm _ _ _ Hj), Hw.
Qed.

(** ** Allocation *)

(** Deleting unpinned host-resident entries gives their blocks, one each. *)
Lemma evict_blocks keys st S H P B :
  ledger st S H P B → NoDup keys → (∀ k, k ∈ keys → LruCache.GetPinCount k (cache st) = 0 ∧ is_Some (host_of (cache st) k)) →
  let '(d, st1) := Evict_delete keys st in
  length (del_host_blocks d) = length keys ∧ pool st1 = pool st ∧
  ∀ h, h ∉ keys → host_of (cache st1) h = host_of (cache st) h.
Proof.
  intros L Hnd Hk. pose proof (Delete_view keys true (tier0 st) (le_cache _ _ _ _ _ L)) as D.
  unfold Evict_delete, Delete. destruct (foldl _ _ keys) as [d b]. cbn [fst snd] in D. destruct D as [_ _ Hv Hnd' Hh Hb _ _].
  cbn [del_host_blocks pool with_tier0 tier0]. assert (del_hashes d ≡ₚ keys) as Ep.
  { apply NoDup_Permutation; [done|done|]. intros k. rewrite Hh. split; [tauto|]. intros Hi. destruct (Hk k Hi) as [H0 [blk Hblk]].
    split; [done|]. split; [done|]. unfold host_of in Hblk. destruct (values (cache st) !! k) as [b0|]; [|done]. exists b0.
    split; [done|]. intros _. cbn in Hblk. by rewrite Hblk. }
  split; [|split; [done|]].
  - rewrite Hb, <- (Permutation_length Ep). assert (∀ k, k ∈ del_hashes d → is_Some (host_of (cache st) k)) as Hs.
    { intros k Hi. apply Hk. by rewrite <- Ep. }
    clear -Hs. induction (del_hashes d) as [|k l IH]; [done|]. cbn. destruct (Hs k ltac:(left)) as [blk ->]. cbn. f_equal.
    apply IH. intros k' Hi. apply Hs. by right.
  - intros h Hn. unfold host_of. rewrite Hv, decide_False; [done|]. by rewrite Ep.
Qed.
Lemma ledger_free st S H P B :
  ledger st S H P B → num_free_blocks (pool st) = total_blocks_ (pool st) - Z.of_nat (size (allocated_set (pool st))).
Proof. intros L. apply (@pool_num_free_spec _ _ LogicalBlockManager_pool), L. Qed.
Lemma deallocate_free ids st S H P B :
  ledger st S H P (ids ++ B) →
  num_free_blocks (pool (DeallocateBlockIds ids st)) = num_free_blocks (pool st) + Z.of_nat (length ids) ∧
  tier0 (DeallocateBlockIds ids st) = tier0 st.
Proof.
  intros L. split; [|done]. pose proof (ledger_deallocate _ _ _ _ _ _ L) as L'.
  assert (list_to_set ids ⊆ allocated_set (pool st)) as Hsub.
  { intros i Hi%elem_of_list_to_set. apply (bo_alloc _ _ _ (le_blocks _ _ _ _ _ L)). right. apply elem_of_app. by left. }
  destruct (@pool_Deallocate_ok _ _ LogicalBlockManager_pool ids (pool st) (le_pool _ _ _ _ _ L) Hsub) as (p & E & _ & Ht & Ha & _). cbn in E, Ht, Ha.
  rewrite (ledger_free _ _ _ _ _ L), (ledger_free _ _ _ _ _ L'). unfold DeallocateBlockIds. rewrite E. cbn. rewrite Ht, Ha, size_difference by done.
  pose proof (subseteq_size _ _ Hsub). destruct (proj1 (NoDup_app _ _) (bo_nodup _ _ _ (le_blocks _ _ _ _ _ L))) as (Hnd & _ & _).
  rewrite size_list_to_set_NoDup in * by done. lia.
Qed.

(** What AllocateBlockIds makes room with. *)
Lemma make_room n st S H P B :
  ledger st S H P B → (∀ h, h ∈ H → h ∈ P) →
  (∀ h, is_Some (values (cache st) !! h) → LruCache.GetPinCount h (cache st) = 0 → is_Some (host_of (cache st) h)) →
  n <= num_free_blocks (pool st) + Z.of_nat (cache_size (cache st) - length (pinned_list_ (cache st))) →
  ∃ keys, AllocateBlockIds_pick n st = Ok keys ∧ let st1 := (KvCacheStore.Evict keys st).2 in
    ledger st1 S H P B ∧ n <= num_free_blocks (pool st1) ∧
    ∀ h, 0 < LruCache.GetPinCount h (cache st) → host_of (cache st1) h = host_of (cache st) h.
Proof.
  intros L HP Hhost Hn. unfold AllocateBlockIds_pick. set (to_free := n - num_free_blocks (pool st)).
  destruct (Z.ltb_spec 0 to_free) as [Hpos|Hle]; [|exists []; split; [done|]; split; [done|]; split; [cbn; lia|done]].
  destruct (lru_GetEvictableKeys_spec (cache st) (Z.to_nat to_free) (le_cache _ _ _ _ _ L)) as (_ & Hnd & Hun & Hlen & _).
  set (keys := GetEvictableKeys (Z.to_nat to_free) (cache st)) in *.
  assert (length keys = Z.to_nat to_free) as Hl by lia. destruct (Z.ltb_spec (Z.of_nat (length keys)) to_free); [lia|].
  exists keys. split; [done|]. cbn zeta. unfold KvCacheStore.Evict. rewrite bool_decide_false by (intros E; rewrite E in Hl; cbn in Hl; lia).
  assert (∀ k, k ∈ keys → LruCache.GetPinCount k (cache st) = 0 ∧ is_Some (host_of (cache st) k)) as Hk.
  { intros k Hi. destruct (Hun k Hi) as [[x Hx] Hz]. split; [done|]. apply Hhost; [|done]. unfold values. rewrite lookup_fmap, Hx. by eexists. }
  pose proof (evict_blocks keys st S H P B L Hnd Hk) as He. pose proof (ledger_evict keys st S H P B L HP) as Le.
  destruct (Evict_delete keys st) as [d st1]. destruct He as (Hb & Hp & Hho).
  rewrite bool_decide_false by (intros E; rewrite E in Hb; cbn in Hb; lia). cbn [snd].
  destruct (deallocate_free (del_host_blocks d) st1 S H P B Le) as [Hf Ht].
  split; [by apply ledger_deallocate|]. split; [rewrite Hf, Hp, Hb; lia|]. intros h Hpin. rewrite Ht. apply Hho. intros Hi.
  destruct (Hk h Hi). lia.
Qed.

(** C12: Allocation makes room.  In a state reached without a fault, when every unpinned
    entry is in host memory, a request for
    no more blocks than are free or held by unpinned entries succeeds: it returns that
    many distinct blocks, which no entry, no operation in flight and no dropped slot
    owns, and every pinned entry keeps its block. *)
Theorem allocation_makes_room w n :
  reachable w → w_faults w = [] → let st := w_store w in
  (∀ h, is_Some (values (cache st) !! h) → LruCache.GetPinCount h (cache st) = 0 → is_Some (host_of (cache st) h)) →
  0 < n <= num_free_blocks (pool st) + Z.of_nat (cache_size (cache st) - length (pinned_list_ (cache st))) →
  ∃ ids st', AllocateBlockIds n st = (Ok ids, st') ∧ NoDup ids ∧ Z.of_nat (length ids) = n ∧
    (∀ i, i ∈ ids → i ∈ allocated_set (pool st') ∧ (i ∉ held_by (w_jobs w) ++ w_lost w) ∧ (∀ h, host_of (cache st') h ≠ Some i)) ∧
    (∀ h, 0 < LruCache.GetPinCount h (cache st) → host_of (cache st') h = host_of (cache st) h).
Proof.
  intros Hw Hf st Hhost [Hpos Hn]. pose proof (wo_books _ (reachable_books w Hw Hf)) as L. fold st in L.
  destruct (make_room n st _ _ _ _ L) as (keys & Ek & L1 & Hfree & Hkeep); [|done|done|].
  { intros h Hh. apply elem_of_app. right. apply jobs_covered. by right. }
  unfold AllocateBlockIds. rewrite Ek. set (st1 := (KvCacheStore.Evict keys st).2) in *.
  pose proof (ledger_allocate n st1 _ _ _ _ L1) as La. unfold controller_AllocateBlockIds in *.
  destruct (@pool_Allocate_free _ _ LogicalBlockManager_pool n (pool st1) (le_pool _ _ _ _ _ L1) ltac:(cbn; lia)) as (ids & p & E & _).
  cbn in E. rewrite E in *. destruct La as (La & Hl & _). exists ids, (with_pool p st1).
  destruct (le_blocks _ _ _ _ _ La) as [Hnd _ Hap Hal]. apply NoDup_app in Hnd as (Hnd & Hdis & _).
  split; [done|]. split; [done|]. split; [done|]. split; [|done]. intros i Hi. split; [|split].
  - apply Hal. right. apply elem_of_app. by left.
  - by apply Hdis.
  - intros h Hh. apply (Hap h i Hh), elem_of_app. by left.
Qed.

(** ** What a save stored, a load reads *)

(** The entries a finished save leaves. *)
Lemma save_entries hashes devices hosts st S H P B :
  ledger st (hashes ++ S) H (hashes ++ P) B → length hosts = length hashes → length devices = length hashes →
  let st' := Save_complete true hashes devices hosts st in
  (∀ i h host dev, hashes !! i = Some h → hosts !! i = Some host → devices !! i = Some dev →
     ∃ id, values (cache st') !! h = Some (mkRaidenBlockId id host dev HOST_AND_HBM)) ∧
  ∀ h, h ∈ hashes → Contains h (cache st') = true.
Proof.
  intros L Hl Hd st'. set (slices := saved_slices (tier0 st) hashes hosts devices).
  assert (length slices = length hashes) as Hls by (unfold slices, saved_slices; rewrite length_zip_with, length_zip; lia).
  assert (∀ h, h ∈ hashes → Contains h (cache st) = true) as Hc by (intros h Hh; eapply le_pinned; [exact L|]; apply elem_of_app; by left).
  assert ((zip hashes slices).*1 = hashes) as Ez by (apply fst_zip; lia).
  destruct (update_all_view (zip hashes slices) (tier0 st) (le_cache _ _ _ _ _ L) ltac:(by rewrite Ez)) as (_ & Hv & _ & _ & Hcon).
  assert (cache st' = lru_cache_ (foldl update1 (tier0 st) (zip hashes slices))) as Ec.
  { unfold st', Save_complete, update_entries. cbn [tier0 with_save with_tier0]. fold slices.
    by rewrite best_effort_update by (done || by eapply le_cache). }
  destruct (proj1 (NoDup_app _ _) (le_nodup _ _ _ _ _ L)) as (Hnd & _ & _).
  rewrite Ec, Hv. split; [|intros h Hh; rewrite Hcon; by apply Hc]. intros i h host dev Hh Hho Hde.
  rewrite (insert_all_lookup _ _ h (saved_slice (tier0 st) h host dev)); [|by rewrite Ez|].
  - unfold saved_slice. destruct (Peek h _); by eexists.
  - apply list_elem_of_lookup. exists i. apply lookup_zip_with_Some. exists h, (saved_slice (tier0 st) h host dev). split; [done|].
    split; [done|]. unfold slices, saved_slices. apply lookup_zip_with_Some. exists h, (host, dev). split; [done|]. split; [done|].
    apply lookup_zip_with_Some. eauto.
Qed.

(** C11: A finished save loads back.  In a state reached without a fault, when the
    transfer of a save in flight succeeds, its
    completion leaves each hash in host and device memory under the very block ids the
    save was given, records the hashes as done and no longer pending, and a load of
    them, whatever else is in flight, copies from exactly those host blocks. *)
Theorem saved_blocks_load_back w hashes devices hosts rest :
  reachable w → w_faults w = [] → w_jobs w ≡ₚ JSave hashes devices hosts :: rest →
  let st' := Save_complete true hashes devices hosts (w_store w) in
  (∀ i h host dev, hashes !! i = Some h → hosts !! i = Some host → devices !! i = Some dev →
     ∃ id, values (cache st') !! h = Some (mkRaidenBlockId id host dev HOST_AND_HBM)) ∧
  done_ (save_tracker_ st') = done_ (save_tracker_ (w_store w)) ++ hashes ∧
  (∀ h, h ∈ hashes → IsPending h (save_tracker_ st') = false) ∧
  LoadLocal_start hashes [] st' = (Ok hosts, st').
Proof.
  intros Hw0 Hf Hj st'. pose proof (reachable_books w Hw0 Hf) as Hw. pose proof (wo_books _ Hw) as L. pose proof (wo_jobs _ Hw) as Hok. rewrite Hj in Hok.
  apply Forall_cons in Hok as [(Hd & Hl & Hfit) _].
  assert (ledger (w_store w) (hashes ++ saving rest) (hosted rest) (hashes ++ w_app w ++ pinned_by rest) (hosts ++ held_by rest ++ w_lost w)) as L1.
  { eapply ledger_perm; [exact L|..]; unfold saving, hosted, pinned_by, held_by; [by rewrite Hj|intros h; by rewrite Hj|rewrite Hj; cbn; solve_Permutation|].
    rewrite Hj. cbn. solve_Permutation. }
  destruct (save_entries hashes devices hosts _ _ _ _ _ L1 Hl Hd) as [Hval Hcon]. fold st' in Hval, Hcon.
  pose proof (le_tracker _ _ _ _ _ L1) as Ht.
  assert (save_tracker_ st' = MarkDone hashes (save_tracker_ (w_store w))) as Et by done. unfold MarkDone in Et.
  rewrite MarkDoneLocked_eq in Et by done. split; [done|]. split; [by rewrite Et|]. split.
  { intros h Hh. apply bool_decide_eq_false. rewrite Et. cbn. rewrite elem_of_difference, elem_of_list_to_set. tauto. }
  unfold LoadLocal_start. rewrite bool_decide_true by done. cbn [negb].
  assert (mapM (local_source (tier0 st')) hashes = Ok hosts) as ->; [|done]. apply mapM_Ok, Forall2_same_length_lookup_2; [done|].
  intros i h host Hh Hho. destruct (lookup_lt_is_Some_2 devices i) as [dev Hde]; [apply lookup_lt_Some in Hh; lia|].
  destruct (Hval i h host dev Hh Hho Hde) as (id & Eh). unfold local_source. rewrite Peek_values, Eh.
  rewrite Hcon by (by eapply list_elem_of_lookup_2). cbn.
  assert (0 <= host) as Hpos; [|destruct (Z.eqb_spec host (-1)); [lia|done]].
  assert (host ∈ allocated_set (pool (w_store w))) as [? _]%elem_of_allocated_set; [|lia].
  apply (bo_alloc _ _ _ (le_blocks _ _ _ _ _ L1)). right. apply elem_of_app. left. by eapply list_elem_of_lookup_2.
Qed.
