(* ===== verification/StoreExamples.v ===== *)
(** * StoreExamples: a two-block store at work
    (src/tpu_sync/kv_cache/kv_cache_store.cc, kv_cache_store_service.cc)

    One store with two host blocks saves a block, publishes it and takes a landing
    operation from a peer; the theorems of the store apply at each point.  The last
    section runs the store where its books do not balance. *)

From S2P Require Import Prelude RaidenTypes BlockPool LogicalBlockManager BlockTracker LruCache KvCacheMetadata.
From S2P Require Import HostOffloadBackend BackendMirror BackendViews KvCacheStore StoreService StoreLedger StoreWorld StoreLifecycle StoreProperties.

(** ** The store *)
Definition pool2_ex : LogicalBlockManager := mkLBM 2 0 (replicate 2 initial_block) 2.
Definition store_ex : KVCacheStore := KVCacheStore_new backend_ex pool2_ex 4096 true false.
Definition world_ex : World := idle (mkNode_ store_ex ∅) [].
Definition no_answer : list string → StatusOr (list (RaidenId * Z)) := λ _, Ok [].

Lemma starts_ex : starts table_ex store_ex.
Proof.
  split; [exists 2%nat, id_ex, true; split; [lia|reflexivity]|reflexivity|vm_compute; discriminate|].
  by exists 4096, true, false.
Qed.
Lemma first_ex : first_world world_ex.
Proof.
  exists region_ex, 2, "m", table_ex, store_ex. split; [|split; [lia|]; split; [reflexivity|]; split; [apply starts_ex|done]].
  split; [by repeat constructor|cbn; lia|cbn; unfold header_size, entry_size; lia].
Qed.
(** Small pin counts leave room. *)
Lemma small_pins_room (n : nat) (c : LRUCache string RaidenBlockId) :
  Z.of_nat n <= 1000 → map_Forall (λ _ x, pin_count x <= 1000) (map_ c) → pins_room n c.
Proof.
  intros Hn Hm k. unfold LruCache.GetPinCount, INT_MAX. destruct (map_ c !! k) as [x|] eqn:E; [|lia].
  pose proof (Hm k x E) as Hx. cbn in Hx. lia.
Qed.
Ltac small_pins := apply small_pins_room; [vm_compute; discriminate|apply (bool_decide_unpack _); vm_compute; exact I].
Lemma answered {A B} (p : A * B) (a : A) : p.1 = a → p = (a, p.2).
Proof. by destruct p; intros <-. Qed.
(** A node without landing operations, and the segments it runs. *)
Definition world_of (st : KVCacheStore) (jobs : list Job) (app : list string) (faults : list Fault) : World :=
  mkWorld (mkNode_ st ∅) jobs app [] [] [] faults.
Lemma run_store st jobs app faults js rest tk app' js' gv st' :
  jobs ≡ₚ js ++ rest → app ≡ₚ tk ++ app' → store_segment js tk st js' gv [] st' →
  life_step (world_of st jobs app faults) (world_of st' (js' ++ rest) (gv ++ app') faults).
Proof. intros Ej Ea Hs. by apply life_run, (step_store (world_of st jobs app faults) js rest tk app' js' gv [] st'). Qed.
Lemma run_service w js rest js' acc ev nd' :
  w_jobs w = js ++ rest → service_segment js (w_node w) js' acc ev nd' →
  world_step w (mkWorld nd' (js' ++ rest) (w_app w) (w_lost w) (acc ++ w_accepted w) (ev ++ w_sent w) (w_faults w)).
Proof. intros Ej Hs. apply (step_service w js rest); [by rewrite Ej|done]. Qed.
(** The lookup of a save. *)
Lemma run_save_lookup st jobs app faults hashes hits missing c slices b :
  Forall hash_fits hashes → lookup_sweep default_lookup hashes (cache st) = (hits, missing, c) →
  lookup_finish default_lookup hashes hits [] (tier0 st) = (slices, b) →
  rtc life_step (world_of st jobs (hashes ++ app) faults) (world_of st (JSaveLooked hashes slices :: jobs) app faults).
Proof.
  intros Hfit Es El.
  pose proof (seg_save st hashes hits missing c Hfit Es) as S1. rewrite (save_sweep_same _ _ _ _ _ Es) in S1.
  pose proof (seg_save_looked st hashes hits [] slices b El) as S2. rewrite (save_looked_same _ _ _ _ _ _ El) in S2.
  eapply rtc_l; [by apply (run_store st jobs (hashes ++ app) faults [] jobs hashes app [JSaveSwept hashes hits] [] st); [..|right; left]|].
  by apply rtc_once, (run_store st _ app faults [JSaveSwept hashes hits] jobs [] app [JSaveLooked hashes slices] [] st); [..|right; left].
Qed.
(** The allocation of a save when nothing has to be evicted. *)
Lemma run_allocate st rest app faults waiter ids st' :
  AllocateBlockIds_pick (waiter_needs waiter) st = Ok [] →
  controller_AllocateBlockIds (waiter_needs waiter) (DeallocateBlockIds [] (Evict_delete [] st).2) = (Ok ids, st') →
  rtc life_step (world_of st (JPick waiter :: rest) app faults) (world_of st' (waiter_launch waiter ids st' :: rest) app faults).
Proof.
  intros Ep Ea. pose proof (seg_pick st waiter [] Ep) as S1. set (st1 := (Evict_delete [] st).2) in *.
  assert (alloc_segment [JPicked waiter []] [] st [JEvicted (Some waiter) []] [] [] st1) as S2
    by exact (seg_evict st waiter [] (Evict_delete [] st).1 st1 eq_refl).
  pose proof (seg_free st1 (Some waiter) []) as S3. pose proof (seg_allocate _ waiter ids st' Ea) as S4.
  eapply rtc_l; [by apply (run_store st _ app faults [JPick waiter] rest [] app [JPicked waiter []] [] st); [..|do 2 right; left]|].
  eapply rtc_l; [by apply (run_store st _ app faults [JPicked waiter []] rest [] app [JEvicted (Some waiter) []] [] st1); [..|do 2 right; left]|].
  eapply rtc_l; [by apply (run_store st1 _ app faults [JEvicted (Some waiter) []] rest [] app [JAllocate waiter] [] (DeallocateBlockIds [] st1)); [..|do 2 right; left]|].
  by apply rtc_once, (run_store _ _ app faults [JAllocate waiter] rest [] app [waiter_launch waiter ids st'] [] st'); [..|do 2 right; left].
Qed.
(** The end of a save and of its publication. *)
Lemma run_saved st jobs app faults rest hashes devices hosts n st' :
  jobs ≡ₚ JSave hashes devices hosts :: rest → Save_publish hashes (Save_complete true hashes devices hosts st) = (Some n, st') →
  rtc life_step (world_of st jobs app faults) (world_of (WriteThrough_complete hashes n st') rest app faults).
Proof.
  intros Ej Es. pose proof (seg_saved st hashes devices hosts (Some n) st' Es) as S1. pose proof (seg_published st' hashes n) as S2.
  eapply rtc_l; [by apply (run_store st jobs app faults [JSave hashes devices hosts] rest [] app [JPublish hashes n] [] st'); [..|right; left]|].
  by apply rtc_once, (run_store st' _ app faults [JPublish hashes n] rest [] app [] [] (WriteThrough_complete hashes n st')); [..|right; left].
Qed.

(** ** A save *)
Definition inserted_ex : KVCacheStore := (KvCacheStore.Insert ["a"] [hbm_ex] store_ex).2.
Definition reserved_ex : KVCacheStore := (SaveLocal_reserve [] no_answer ["a"] inserted_ex).2.
Definition freed_ex : KVCacheStore := DeallocateBlockIds [] (Evict_delete [] reserved_ex).2.
Definition allocated_ex : KVCacheStore := (controller_AllocateBlockIds 1 freed_ex).2.
Definition saving_world : World := world_of allocated_ex [JSave ["a"] [3] [0]] [] [].

Lemma a_fits : Forall hash_fits ["a"].
Proof. apply Forall_singleton. vm_compute. lia. Qed.
Lemma inserted_reached : rtc life_step world_ex (world_of inserted_ex [] ["a"] []).
Proof.
  apply rtc_once, (run_store store_ex [] [] [] [] [] [] [] [] ["a"] inserted_ex); [done|done|left].
  apply (seg_insert store_ex ["a"] [hbm_ex] OkStatus inserted_ex); [small_pins| |reflexivity]. by intros b ->%list_elem_of_singleton.
Qed.
Lemma saving_reached : reachable saving_world.
Proof.
  exists world_ex. split; [apply first_ex|]. etransitivity; [apply inserted_reached|].
  etransitivity; [apply (run_save_lookup inserted_ex [] [] [] ["a"] [true] [] (cache inserted_ex) [("a", hbm_ex)] (tier0 inserted_ex) a_fits);
    vm_compute; reflexivity|].
  eapply rtc_l; [apply (run_store inserted_ex _ [] [] [JSaveLooked ["a"] [("a", hbm_ex)]] [] [] [] [JPick (WSave ["a"] [3])] [] reserved_ex);
    [done|done|right; left]|].
  { apply (seg_save_admit inserted_ex ["a"] [("a", hbm_ex)] [3] reserved_ex); [|vm_compute; reflexivity]. apply answered. vm_compute. reflexivity. }
  apply (run_allocate reserved_ex [] [] [] (WSave ["a"] [3]) [0] allocated_ex); [vm_compute; reflexivity|].
  apply answered. vm_compute. reflexivity.
Qed.

(** ** Its publication, and a landing operation of a peer *)
Definition saved_ex : KVCacheStore := (Save_publish ["a"] (Save_complete true ["a"] [3] [0] allocated_ex)).2.
Definition published_ex : KVCacheStore := WriteThrough_complete ["a"] 1 saved_ex.
Definition published_world : World := world_of published_ex [] [] [].
Definition request_ex : WriteRemoteRequest := mkWriteRequest ["b"] [0] 1000 (mkRaidenId "u" "job" "w" 1) true.
Definition accepted_ex : StoreNode := (WriteRemote_accept ["b"] (Milliseconds 1000) 0 7 (w_node published_world)).2.
Definition op_ex : WriteOp :=
  mkWriteOp kPending ["b"] [1] [] [] (Milliseconds 1000) (Milliseconds 1000 + kRecordMargin) false true false.
Definition landing_world : World := mkWorld accepted_ex [JPull 7 ["b"] [1]] [] [] [7] [] [].

Lemma published_reached : reachable published_world.
Proof.
  destruct saving_reached as (w0 & H0 & Hs). exists w0. split; [exact H0|]. etransitivity; [exact Hs|].
  apply (run_saved allocated_ex _ [] [] [] ["a"] [3] [0] 1 saved_ex); [done|]. apply answered. vm_compute. reflexivity.
Qed.
Lemma landing_reached : reachable landing_world.
Proof.
  destruct published_reached as (w0 & H0 & Hs). exists w0. split; [exact H0|]. etransitivity; [exact Hs|].
  set (screened := mkWorld (w_node published_world) [JAccept ["b"] (Milliseconds 1000)] [] [] [] [] []).
  apply (rtc_l _ _ screened); [|apply rtc_once]; apply life_run.
  - apply (run_service published_world [] [] [JAccept ["b"] (Milliseconds 1000)] [] [] (w_node published_world)); [reflexivity|].
    apply (svc_screen _ [] None request_ex (Milliseconds 1000)); [vm_compute; reflexivity|apply Forall_singleton; vm_compute; lia].
  - apply (run_service screened [JAccept ["b"] (Milliseconds 1000)] [] [JPull 7 ["b"] [1]] [7] [] accepted_ex); [reflexivity|].
    eapply (svc_accept (w_node published_world) ["b"] (Milliseconds 1000) [7] 7 0 _ op_ex accepted_ex); [reflexivity| |vm_compute; reflexivity].
    apply answered. vm_compute. reflexivity.
Qed.

(** ** The theorems at work *)
Lemma store_blocks_accounted_witness :
  0 ∈ allocated_set (pool (w_store saving_world)) ∧ ∀ h, host_of (cache (w_store saving_world)) h ≠ Some 0.
Proof.
  destruct (store_blocks_accounted saving_world saving_reached eq_refl) as (_ & _ & _ & Hap & Hal).
  split; [apply Hal; right; by left|]. intros h Hh. apply (Hap h 0 Hh). by left.
Defined.
Lemma store_pins_accounted_witness :
  LruCache.GetPinCount "a" (cache (w_store saving_world)) = 1 ∧ host_of (cache (w_store saving_world)) "a" = None.
Proof.
  destruct (store_pins_accounted saving_world saving_reached eq_refl) as (Hp & _ & Hs & _).
  split; [rewrite Hp; reflexivity|]. apply Hs. by left.
Defined.
Lemma service_answers_once_witness :
  occurs 7 (w_sent landing_world).*1 + gate_open (write_ops_ (w_node landing_world)) 7 = 1.
Proof. destruct (service_answers_once landing_world landing_reached) as (Hg & _). by rewrite <- Hg. Defined.
Lemma saved_blocks_load_back_witness :
  LoadLocal_start ["a"] [] (Save_complete true ["a"] [3] [0] (w_store saving_world)) =
    (Ok [0], Save_complete true ["a"] [3] [0] (w_store saving_world)).
Proof. apply (saved_blocks_load_back saving_world ["a"] [3] [0] [] saving_reached eq_refl). reflexivity. Defined.
Lemma allocation_makes_room_witness :
  ∃ ids st', AllocateBlockIds 2 published_ex = (Ok ids, st') ∧ Z.of_nat (length ids) = 2.
Proof.
  destruct (allocation_makes_room published_world 2 published_reached eq_refl) as (ids & st' & E & _ & Hl & _).
  - assert (map_Forall (λ _ b, is_Some (host_block b)) (values (cache published_ex))) as Hall by (apply (bool_decide_unpack _); vm_compute; exact I).
    intros h [b Hb] _. destruct (Hall h b Hb) as [blk Hblk]. exists blk. unfold host_of.
    change (w_store published_world) with published_ex in *. by rewrite Hb.
  - vm_compute. split; [reflexivity|discriminate].
  - exists ids, st'. split; [exact E|exact Hl].
Defined.
Lemma service_state_machine_witness :
  ∃ op op' w', world_step landing_world w' ∧ write_ops_ (w_node landing_world) !! 7 = Some op ∧
    write_ops_ (w_node w') !! 7 = Some op' ∧ op_successor op op'.
Proof.
  assert (∃ op, write_ops_ (w_node landing_world) !! 7 = Some op) as [op Hop] by (eexists; vm_compute; reflexivity).
  assert (∃ w', world_step landing_world w' ∧ write_ops_ (w_node w') !! 7 ≠ None) as (w' & Hst & Hn).
  { eexists. split; [eapply (run_service landing_world [_] []); [reflexivity|]|].
    - apply (svc_claim accepted_ex 7 ["b"] [1] true 5 true (Complete_claim 7 true 5 accepted_ex).2). apply answered. vm_compute. reflexivity.
    - vm_compute. discriminate. }
  destruct (service_state_machine landing_world w' 7 op landing_reached Hst Hop) as [[E _]|(op' & E & Hs)]; [by destruct Hn|].
  exists op, op', w'. split; [exact Hst|]. split; [exact Hop|]. split; [exact E|exact Hs].
Defined.
Lemma store_crash_recovers_witness :
  ∃ m st, metadata_ (tier0 published_ex) = Some m ∧ starts m st ∧
    host_of (cache (KvCacheStore.RecoverFromLocalManifest st).2) "a" = Some 0.
Proof.
  assert (∃ m, metadata_ (tier0 published_ex) = Some m ∧ md_num_blocks m = 2 ∧ ValidEntries m = [mkEntry 0 "a" 0]) as (m & Em & Hn & Hv)
    by (eexists; split; [vm_compute; reflexivity|split; vm_compute; reflexivity]).
  set (st := KVCacheStore_new (HostOffloadBackend_new 2 (Some m) id_ex true) pool2_ex 4096 true false).
  assert (starts m st) as Hs.
  { split; [exists 2%nat, id_ex, true; split; [lia|reflexivity]|by rewrite Hn|rewrite Hn; vm_compute; discriminate|by exists 4096, true, false]. }
  exists m, st. split; [exact Em|]. split; [exact Hs|].
  destruct (store_crash_recovers published_world m st published_reached eq_refl Em Hs) as (Hh & _).
  { rewrite Hv. intros e ->%list_elem_of_singleton. cbn. lia. }
  rewrite Hh. vm_compute. reflexivity.
Defined.

(** ** Where the books do not balance *)

(** Two saves of one hash.  The second looks the hash up while the first is still
    copying; the first completes; the second then finds nothing pending. *)
Definition looked_ex : BlockSliceList := [("a", hbm_ex)].
Definition race_pinned : KVCacheStore := with_tier0 (Pin ["a"] (tier0 inserted_ex)).2 inserted_ex.
Definition race_reserved : KVCacheStore := (SaveLocal_admit ["a"] looked_ex race_pinned).2.
Definition race_copying : KVCacheStore :=
  (controller_AllocateBlockIds 1 (DeallocateBlockIds [] (Evict_delete [] race_reserved).2)).2.
Definition race_saved : KVCacheStore := (Save_publish ["a"] (Save_complete true ["a"] [3] [0] race_copying)).2.
Definition race_completed : KVCacheStore := WriteThrough_complete ["a"] 1 race_saved.
Definition race_overtaken : KVCacheStore := (SaveLocal_admit ["a"] looked_ex race_completed).2.
Definition race_again : KVCacheStore :=
  (controller_AllocateBlockIds 1 (DeallocateBlockIds [] (Evict_delete [] race_overtaken).2)).2.
Definition race_resaved : KVCacheStore := (Save_publish ["a"] (Save_complete true ["a"] [3] [1] race_again)).2.
Definition race_end : KVCacheStore := WriteThrough_complete ["a"] 1 race_resaved.
Definition race_world : World := world_of race_end [] [] [Overtaken ["a"]].

Lemma race_first : rtc life_step world_ex (world_of race_copying [JSave ["a"] [3] [0]] ["a"] []).
Proof.
  etransitivity; [apply inserted_reached|].
  eapply rtc_l; [apply (run_store inserted_ex [] ["a"] [] [] [] [] ["a"] [] ["a"] race_pinned); [done|done|left]|].
  { apply (seg_pin inserted_ex ["a"] true); [small_pins|]. apply answered. vm_compute. reflexivity. }
  etransitivity; [apply (run_save_lookup race_pinned [] ["a"] [] ["a"] [true] [] (cache race_pinned) looked_ex (tier0 race_pinned) a_fits);
    vm_compute; reflexivity|].
  eapply rtc_l; [apply (run_store race_pinned _ ["a"] [] [JSaveLooked ["a"] looked_ex] [] [] ["a"] [JPick (WSave ["a"] [3])] [] race_reserved);
    [done|done|right; left]|].
  { apply (seg_save_admit race_pinned ["a"] looked_ex [3] race_reserved); [|vm_compute; reflexivity]. apply answered. vm_compute. reflexivity. }
  apply (run_allocate race_reserved [] ["a"] [] (WSave ["a"] [3]) [0] race_copying); [vm_compute; reflexivity|].
  apply answered. vm_compute. reflexivity.
Qed.
Lemma race_reached : reachable race_world.
Proof.
  exists world_ex. split; [apply first_ex|]. etransitivity; [apply race_first|].
  etransitivity; [apply (run_save_lookup race_copying _ [] [] ["a"] [true] [] (cache race_copying) looked_ex (tier0 race_copying) a_fits);
    vm_compute; reflexivity|].
  etransitivity; [apply (run_saved race_copying _ [] [] [JSaveLooked ["a"] looked_ex] ["a"] [3] [0] 1 race_saved);
    [apply Permutation_swap|apply answered; vm_compute; reflexivity]|].
  apply (rtc_l _ _ (world_of race_overtaken [JPick (WSave ["a"] [3])] [] [Overtaken ["a"]])).
  { apply life_run, (step_fault (world_of race_completed [JSaveLooked ["a"] looked_ex] [] []) (Overtaken ["a"]) [JSaveLooked ["a"] looked_ex] [] [] []
      [JPick (WSave ["a"] [3])] [] [] race_overtaken); [done|done|].
    apply (flt_save_admit race_completed ["a"] looked_ex [3] race_overtaken); [|vm_compute; reflexivity]. apply answered. vm_compute. reflexivity. }
  etransitivity; [apply (run_allocate race_overtaken [] [] [Overtaken ["a"]] (WSave ["a"] [3]) [1] race_again);
    [vm_compute; reflexivity|apply answered; vm_compute; reflexivity]|].
  apply (run_saved race_again _ [] [Overtaken ["a"]] [] ["a"] [3] [1] 1 race_resaved); [done|]. apply answered. vm_compute. reflexivity.
Qed.
(** Nothing is in flight and no client holds a pin, yet block 0 is allocated with no
    entry that names it, and the table still binds it to the hash: once the hash is
    evicted, a store that recovers from the table brings it back in block 0. *)
Theorem overtaken_save_strands_block :
  reachable race_world ∧ w_jobs race_world = [] ∧ w_app race_world = [] ∧ w_lost race_world = [] ∧
  host_of (cache race_end) "a" = Some 1 ∧ IsAllocated 0 (pool race_end) = true ∧
  let evicted := (KvCacheStore.Evict ["a"] race_end).2 in
  host_of (cache evicted) "a" = None ∧ (ValidEntries <$> metadata_ (tier0 evicted)) = Some [mkEntry 0 "a" 0] ∧
  let restarted := KVCacheStore_new (HostOffloadBackend_new 2 (metadata_ (tier0 evicted)) id_ex true) pool2_ex 4096 true false in
  host_of (cache (KvCacheStore.RecoverFromLocalManifest restarted).2) "a" = Some 0.
Proof. split; [apply race_reached|]. vm_compute. repeat split. Qed.

(** An offer whose result stream ends with CANCELLED keeps its pins and stays pending. *)
Lemma cancelled_stream_keeps_pins :
  let s0 := with_tier0 (Pin ["a"] (tier0 published_ex)).2 published_ex in
  let s1 := (SaveRemote [] no_answer None 0 (Ok (mkWriteResponse WRITE_EXIST_STATE_UNSPECIFIED [] 9 (Seconds 20)))
               kApplication ["a"] (mkRaidenId "u" "job" "w" 1) s0).2 in
  let s2 := (RemoteWrite_stream kApplication ["a"] (Err kCancelled) 9 (Seconds 20) s1).2 in
  KvCacheStore.GetPinCount "a" s2 = 2 ∧ IsPending "a" (save_tracker_ s2) = true ∧
  (RemoteWrite_stream kApplication ["a"] (Err kCancelled) 9 (Seconds 20) s1).1 = false.
Proof. vm_compute. repeat split. Qed.

(** An insertion of a hash whose entry has become an eviction candidate replaces the
    entry and drops its host block, which stays allocated with no owner. *)
Lemma insert_drops_host_block :
  let s1 := KvCacheStore.Release ["b"] (KvCacheStore.Insert ["b"; "c"] [hbm_ex; hbm_ex] published_ex).2 in
  let '(r, s2) := KvCacheStore.Insert ["a"] [hbm_ex] s1 in
  host_of (cache s1) "a" = Some 0 ∧ r = OkStatus ∧ host_of (cache s2) "a" = None ∧
  insert_lost true ["a"] s1 = [0] ∧ IsAllocated 0 (pool s2) = true.
Proof. vm_compute. repeat split. Qed.

(** A remote write whose verdict has settled stays on record; the destructor then
    releases its pin a second time (here: another client's) and reports the finished
    hashes as failed. *)
Lemma destructor_releases_twice :
  let s0 := with_tier0 (Pin ["a"; "a"] (tier0 published_ex)).2 published_ex in
  let s1 := (SaveRemote [] no_answer None 0 (Ok (mkWriteResponse WRITE_EXIST_STATE_UNSPECIFIED [] 9 (Seconds 20)))
               kApplication ["a"] (mkRaidenId "u" "job" "w" 1) s0).2 in
  let s2 := RemoteWrite_settle kApplication ["a"] (Ok (mkWriteResult COMMITTED [] [])) s1 in
  let s3 := abandon_remote_writes [1] s2 in
  KvCacheStore.GetPinCount "a" s2 = 1 ∧ done_ (save_tracker_ s2) = ["a"; "a"] ∧ failed_ (save_tracker_ s2) = [] ∧
  KvCacheStore.GetPinCount "a" s3 = 0 ∧ failed_ (save_tracker_ s3) = ["a"].
Proof. vm_compute. repeat split. Qed.

(** The capacity clamp of a lookup releases hashes it has not pinned: a hash that the
    storage tier answered loses the pin of the client that has it in tier 0. *)
Lemma clamp_releases_foreign_pin :
  let s0 := (KvCacheStore.Insert ["b"] [hbm_ex] published_ex).2 in
  let storage := mkRaidenBlockId id_ex (-1) (-1) SHARED_STORAGE in
  let '(r, s1) := KvCacheStore.Lookup [] no_answer [Some (λ _, Ok [("x", storage); ("b", storage)])] ["a"; "x"; "b"]
                    (local_lookup true) s0 in
  KvCacheStore.GetPinCount "b" s0 = 1 ∧ is_ok r = true ∧ KvCacheStore.GetPinCount "b" s1 = 0.
Proof. vm_compute. repeat split. Qed.

(** A save that names a hash twice takes two blocks for it, and one of them ends
    without an owner. *)
Lemma duplicate_save_drops_block :
  let '(r, s1) := SaveLocal_reserve [] no_answer ["a"; "a"] inserted_ex in
  let '(ids, s2) := AllocateBlockIds 2 s1 in
  let s3 := Save_complete true ["a"; "a"] [3; 3] [0; 1] s2 in
  r = Ok [3; 3] ∧ ids = Ok [0; 1] ∧ host_of (cache s3) "a" = Some 1 ∧ IsAllocated 0 (pool s3) = true.
Proof. vm_compute. repeat split. Qed.

(** When the eviction candidates are in device memory only, an allocation that counts
    on them evicts nothing and fails. *)
Lemma hbm_only_not_evicted :
  let s0 := KvCacheStore.Release ["a"] inserted_ex in
  AllocateBlockIds_pick 3 s0 = Ok ["a"] ∧ (AllocateBlockIds 3 s0).1 = Err kInvalidArgument ∧
  let s1 := (AllocateBlockIds 2 s0).2 in
  AllocateBlockIds_pick 1 s1 = Ok ["a"] ∧ (AllocateBlockIds 1 s1).1 = Err kResourceExhausted.
Proof. vm_compute. repeat split. Qed.
