(* ===== verification/StagingAllocator.v ===== *)
(** * StagingBlockAllocator: leases of host staging blocks
    (src/tpu_sync/core/staging_arena.{h,cc}, second half)

    The allocator hands out RAII [Allocation]s, either whole fixed slots carved
    out of the host pool at construction or, with dynamic staging, freshly
    locked pool blocks.  It reaches its pool only through the [BlockPool]
    calls, so it is verified against that contract.  [host_block_manager_] is a
    shared pointer-like argument: [None] is the null pointer, and the pool
    state is threaded through every call. *)

From S2P Require Import Prelude BlockPool LogicalBlockManager.

(** ** State *)
Record StagingBlockAllocator (P : Type) := mkSBA {
  host_block_manager_ : option P;
  shutting_down_ : bool;
  num_slots_ : Z;
  max_blocks_ : Z;
  dynamic_host_staging_ : bool;
  free_slots_ : list Z;
  slot_blocks_ : list (list Z);
}.
Arguments mkSBA {P} _ _ _ _ _ _ _.
Arguments host_block_manager_ {P} _.
Arguments shutting_down_ {P} _.
Arguments num_slots_ {P} _.
Arguments max_blocks_ {P} _.
Arguments dynamic_host_staging_ {P} _.
Arguments free_slots_ {P} _.
Arguments slot_blocks_ {P} _.

(** [StagingBlockAllocator::Allocation]; [allocator_] is whether the pointer is set. *)
Record Allocation := mkAllocation {
  allocator_ : bool;
  slot_idx_ : Z;
  block_ids_ : list Z;
}.

Definition Allocation_new : Allocation := mkAllocation false (-1) [].
Definition Allocation_slot (slot_idx : Z) (block_ids : list Z) : Allocation :=
  mkAllocation true slot_idx block_ids.
Definition Allocation_dynamic (dynamic_blocks : list Z) : Allocation :=
  mkAllocation true (-1) dynamic_blocks.
(** The move constructor: the new handle, and what is left of the old one. *)
Definition Allocation_move (other : Allocation) : Allocation * Allocation :=
  (mkAllocation (allocator_ other) (slot_idx_ other) (block_ids_ other),
   mkAllocation false (-1) []).
Definition Allocation_empty (h : Allocation) : bool :=
  (slot_idx_ h <? 0) && bool_decide (block_ids_ h = []).
Definition Allocation_is_dynamic (h : Allocation) : bool :=
  (slot_idx_ h <? 0) && negb (bool_decide (block_ids_ h = [])).

Section allocator.
Context {P : Type} `{!BlockPoolOps P}.
Implicit Types (a : StagingBlockAllocator P) (p : P) (h : Allocation).

Definition set_pool (p : option P) a : StagingBlockAllocator P :=
  mkSBA p (shutting_down_ a) (num_slots_ a) (max_blocks_ a) (dynamic_host_staging_ a)
    (free_slots_ a) (slot_blocks_ a).
Definition set_free_slots (l : list Z) a : StagingBlockAllocator P :=
  mkSBA (host_block_manager_ a) (shutting_down_ a) (num_slots_ a) (max_blocks_ a)
    (dynamic_host_staging_ a) l (slot_blocks_ a).

(** ** Construction *)
Definition StagingBlockAllocator_new (host_block_manager : option P)
    (num_slots max_blocks : Z) (dynamic_host_staging : bool) : StagingBlockAllocator P :=
  mkSBA host_block_manager false num_slots max_blocks dynamic_host_staging [] [].

(** The loop of [InitializeSlotPool]: slots [i], [i + 1], ... *)
Fixpoint init_slots (fuel : nat) (i : Z) a : Status * StagingBlockAllocator P :=
  match fuel with
  | O => (OkStatus, a)
  | S fuel =>
      match host_block_manager_ a with
      | None => (Err kFailedPrecondition, a)
      | Some p =>
          match pool_Allocate (i32 (max_blocks_ a)) true p with
          | (Err c, p) => (Err c, set_pool (Some p) a)
          | (Ok allocated_ids, p) =>
              let a := set_pool (Some p) a in
              if negb (Z.of_nat (length allocated_ids) =? u64 (max_blocks_ a))
              then (Err kInternal, a)
              else init_slots fuel (i + 1)
                     (mkSBA (host_block_manager_ a) (shutting_down_ a) (num_slots_ a)
                        (max_blocks_ a) (dynamic_host_staging_ a)
                        (free_slots_ a ++ [i]) (slot_blocks_ a ++ [allocated_ids]))
          end
      end
  end.

Definition InitializeSlotPool a : Status * StagingBlockAllocator P :=
  let a := mkSBA (host_block_manager_ a) (shutting_down_ a) (num_slots_ a) (max_blocks_ a)
             (dynamic_host_staging_ a) [] [] in
  if dynamic_host_staging_ a || (num_slots_ a <=? 0) then (OkStatus, a)
  else match host_block_manager_ a with
       | None => (Err kFailedPrecondition, a)
       | Some p =>
           if pool_num_free_blocks p <? i64 (num_slots_ a * max_blocks_ a)
           then (Err kFailedPrecondition, a)
           else init_slots (Z.to_nat (num_slots_ a)) 0 a
       end.

(** The destructor: unlocks what the slot pool had locked; returns the pool. *)
Definition StagingBlockAllocator_destroy a : option P :=
  match host_block_manager_ a with
  | None => None
  | Some p => match slot_blocks_ a with
              | [] => Some p
              | blocks => Some (pool_Unlock (concat blocks) p).2
              end
  end.

(** [Create]; [raw_env] is getenv("TPU_RAIDEN_DYNAMIC_HOST_STAGING").  On an
    error the half-built allocator is destroyed; the pool left behind is
    returned beside the status. *)
Definition Create (raw_env : option string) (host_block_manager : option P)
    (num_slots max_blocks : Z) (dynamic_host_staging : option bool)
    : StatusOr (StagingBlockAllocator P) * option P :=
  let use_dynamic_staging :=
    default (bool_decide (raw_env = Some "1"%string)) dynamic_host_staging in
  let a := StagingBlockAllocator_new host_block_manager num_slots max_blocks
             use_dynamic_staging in
  if (0 <? num_slots) && (0 <? max_blocks) then
    match InitializeSlotPool a with
    | (Ok _, a) => (Ok a, host_block_manager_ a)
    | (Err c, a) => (Err c, StagingBlockAllocator_destroy a)
    end
  else (Ok a, host_block_manager_ a).

(** ** Acquire and release *)
Definition capacity a : Z :=
  if dynamic_host_staging_ a
  then match host_block_manager_ a with Some p => pool_total_blocks p | None => 0 end
  else max_blocks_ a.

(** [AcquireLocked]; [fault] is what [FaultInjectStatus(kStagingAllocatorAcquire)]
    returns at this call. *)
Definition AcquireLocked (fault : Status) (num_blocks : Z) a
    : StatusOr Allocation * StagingBlockAllocator P :=
  if num_blocks <=? 0 then (Ok Allocation_new, a)
  else match fault with
  | Err c => (Err c, a)
  | Ok _ =>
      if capacity a <? num_blocks then (Err kInvalidArgument, a)
      else if negb (dynamic_host_staging_ a) then
        match free_slots_ a with
        | [] => (Err kResourceExhausted, a)
        | slot_idx :: rest =>
            (Ok (Allocation_slot slot_idx (slot_blocks_ a !!! Z.to_nat slot_idx)),
             set_free_slots rest a)
        end
      else match host_block_manager_ a with
           | None => (Err kFailedPrecondition, a)
           | Some p =>
               match pool_Allocate (i32 num_blocks) true p with
               | (Err c, p) => (Err c, set_pool (Some p) a)
               | (Ok allocated, p) => (Ok (Allocation_dynamic allocated), set_pool (Some p) a)
               end
           end
  end.

Definition Acquire := AcquireLocked.

(** The condition [AcquireWithTimeout] waits for. *)
Definition can_proceed (num_blocks : Z) a : bool :=
  if shutting_down_ a then true
  else if negb (dynamic_host_staging_ a) then negb (bool_decide (free_slots_ a = []))
  else match host_block_manager_ a with
       | None => false
       | Some p => u64 num_blocks <=? u64 (pool_num_free_blocks p)
       end.

(** [AcquireWithTimeout]: [now] is the clock reading after the first attempt,
    [others] what other threads do to the allocator while the wait has released
    the mutex, and [fault1], [fault2] the injected statuses of the two attempts. *)
Definition AcquireWithTimeout (fault1 fault2 : Status) (num_blocks deadline now : Z)
    (others : StagingBlockAllocator P → StagingBlockAllocator P) a
    : StatusOr Allocation * StagingBlockAllocator P :=
  if shutting_down_ a then (Err kCancelled, a)
  else
    let '(acquired, a) := AcquireLocked fault1 num_blocks a in
    match acquired with
    | Err kResourceExhausted =>
        if deadline <=? now then (acquired, a)
        else
          let a := if can_proceed num_blocks a then a else others a in
          if shutting_down_ a then (Err kCancelled, a)
          else AcquireLocked fault2 num_blocks a
    | _ => (acquired, a)
    end.

Definition Shutdown a : StagingBlockAllocator P :=
  mkSBA (host_block_manager_ a) true (num_slots_ a) (max_blocks_ a)
    (dynamic_host_staging_ a) (free_slots_ a) (slot_blocks_ a).

Definition num_free_slots a : nat := length (free_slots_ a).
Definition slot_blocks (slot_idx : Z) a : list Z := slot_blocks_ a !!! Z.to_nat slot_idx.
Definition LeasesHostBlocks a : bool := dynamic_host_staging_ a || (0 <? num_slots_ a).

Definition ReleaseSlot (slot_idx : Z) a : StagingBlockAllocator P :=
  if (slot_idx <? 0) || (num_slots_ a <=? slot_idx) then a
  else set_free_slots (free_slots_ a ++ [slot_idx]) a.

Definition ReleaseDynamicBlocks (blocks : list Z) a : StagingBlockAllocator P :=
  match blocks, host_block_manager_ a with
  | [], _ | _, None => a
  | _, Some p =>
      let p := (pool_Unlock blocks p).2 in
      let p := (pool_Deallocate blocks p).2 in
      set_pool (Some p) a
  end.

(** [Allocation::Reset], also the destructor: the emptied handle and the allocator. *)
Definition Allocation_Reset h a : Allocation * StagingBlockAllocator P :=
  let a :=
    if allocator_ h then
      if 0 <=? slot_idx_ h then ReleaseSlot (slot_idx_ h) a
      else match block_ids_ h with
           | [] => a
           | _ => ReleaseDynamicBlocks (block_ids_ h) a
           end
    else a in
  (mkAllocation false (-1) [], a).

(** [operator=(Allocation&&)] of two distinct handles: release the target, then move. *)
Definition Allocation_move_assign (target other : Allocation) a
    : (Allocation * Allocation) * StagingBlockAllocator P :=
  let '(_, a) := Allocation_Reset target a in
  (Allocation_move other, a).
End allocator.

(** ** Initialisation of the slot pool *)
Section init.
Context {P : Type} `{!BlockPoolOps P} `{!BlockPool P}.
Implicit Types (a : StagingBlockAllocator P) (p : P) (h : Allocation).

Lemma pool_num_free_bound p :
  pool_wf p → 0 <= pool_num_free_blocks p <= pool_total_blocks p ∧
    pool_total_blocks p <= INT_MAX.
Proof.
  intros Hwf. rewrite pool_num_free_spec by done. pose proof (pool_total_bound p Hwf).
  pose proof (pool_allocated_bound p Hwf). lia.
Qed.

(** A locked allocation that needs no eviction. *)
Lemma pool_Allocate_fresh n p :
  pool_wf p → 0 < n <= pool_num_free_blocks p →
  ∃ ids p', pool_Allocate n true p = (Ok ids, p') ∧ pool_wf p' ∧
    pool_total_blocks p' = pool_total_blocks p ∧ NoDup ids ∧ Z.of_nat (length ids) = n ∧
    list_to_set ids ## pool_allocated p ∧
    pool_allocated p' = pool_allocated p ∪ list_to_set ids ∧
    pool_locked p' = pool_locked p ∪ list_to_set ids ∧
    pool_num_free_blocks p' = pool_num_free_blocks p - n.
Proof.
  intros Hwf Hn. destruct (pool_Allocate_free n p Hwf Hn) as (ids & p' & E & Hd).
  destruct (pool_Allocate_ok n p ids p' Hwf E) as (Hwf' & Ht & Hnd & Hlen & _ & _ & Ha & Hl).
  exists ids, p'. repeat (split; [done|]).
  rewrite !pool_num_free_spec, Ht, Ha, size_union, size_list_to_set by set_solver. lia.
Qed.

(** The state after the loop has reserved [new] slots beyond those of [a]. *)
Definition slots_added a p i (new : list (list Z)) a' p' : Prop :=
  host_block_manager_ a' = Some p' ∧ pool_wf p' ∧
  pool_total_blocks p' = pool_total_blocks p ∧
  slot_blocks_ a' = slot_blocks_ a ++ new ∧
  free_slots_ a' = free_slots_ a ++ seqZ i (Z.of_nat (length new)) ∧
  num_slots_ a' = num_slots_ a ∧ max_blocks_ a' = max_blocks_ a ∧
  dynamic_host_staging_ a' = dynamic_host_staging_ a ∧ shutting_down_ a' = shutting_down_ a ∧
  Forall (λ b, Z.of_nat (length b) = max_blocks_ a) new ∧
  NoDup (concat new) ∧ list_to_set (concat new) ## pool_allocated p ∧
  pool_allocated p' = pool_allocated p ∪ list_to_set (concat new) ∧
  pool_locked p' = pool_locked p ∪ list_to_set (concat new) ∧
  pool_num_free_blocks p' =
    pool_num_free_blocks p - Z.of_nat (length new) * max_blocks_ a.

Lemma init_slots_ok fuel i a p :
  host_block_manager_ a = Some p → pool_wf p → 0 < max_blocks_ a →
  Z.of_nat fuel * max_blocks_ a <= pool_num_free_blocks p →
  ∃ new a' p', init_slots fuel i a = (OkStatus, a') ∧ length new = fuel ∧
    slots_added a p i new a' p'.
Proof.
  revert i a p; induction fuel as [|fuel IH]; intros i a p Ha Hwf Hmax Hfree.
  { exists [], a, p. simpl. unfold slots_added. simpl. rewrite !app_nil_r.
    repeat split; try done; try set_solver; try lia. constructor. }
  pose proof (pool_num_free_bound p Hwf) as Hb. unfold INT_MAX in Hb.
  destruct (pool_Allocate_fresh (max_blocks_ a) p Hwf) as
    (ids & p1 & E & Hwf1 & Ht & Hnd & Hlen & Hd & Hal & Hlk & Hnf); [nia|].
  simpl. rewrite Ha, i32_small, E by nia.
  rewrite u64_small, Hlen, Z.eqb_refl by nia. cbn [negb].
  set (a1 := mkSBA _ _ _ _ _ _ _).
  destruct (IH (i + 1) a1 p1) as (new & a' & p' & E' & Hln & Hadd); [done|done|done|simpl; nia|].
  exists (ids :: new), a', p'. split; [done|]. split; [simpl; lia|].
  destruct Hadd as (H1 & H2 & H3 & H4 & H5 & H6 & H7 & H8 & H9 & H10 & H11 & H12 & H13 & H14 & H15).
  simpl in *. unfold slots_added. simpl. rewrite H3, H4, H5, H13, H14, H15, Hal, Hlk, Hnf, Ht.
  repeat (split; [done || (rewrite <- app_assoc; done)|]).
  split; [rewrite <- app_assoc; do 2 f_equal; simpl;
          rewrite (seqZ_cons i) by lia; do 2 f_equal; lia|].
  repeat (split; [done|]). split; [by constructor|].
  rewrite Hal in H12. rewrite !list_to_set_app_L.
  split; [apply NoDup_app; split; [done|]; split; [set_solver|done]|].
  split; [set_solver|]. split; [set_solver|]. split; [set_solver|]. nia.
Qed.
End init.

(** ** Construction of a fixed slot pool *)
Section create.
Context {P : Type} `{!BlockPoolOps P} `{!BlockPool P}.
Implicit Types (a : StagingBlockAllocator P) (p : P) (h : Allocation).

Lemma InitializeSlotPool_fixed a p :
  host_block_manager_ a = Some p → pool_wf p → dynamic_host_staging_ a = false →
  0 < num_slots_ a → 0 < max_blocks_ a → num_slots_ a * max_blocks_ a < 2 ^ 63 →
  (num_slots_ a * max_blocks_ a <= pool_num_free_blocks p →
   ∃ new a' p', InitializeSlotPool a = (OkStatus, a') ∧
     Z.of_nat (length new) = num_slots_ a ∧
     slots_added (set_free_slots [] (mkSBA (host_block_manager_ a) (shutting_down_ a)
        (num_slots_ a) (max_blocks_ a) (dynamic_host_staging_ a) [] [])) p 0 new a' p') ∧
  (pool_num_free_blocks p < num_slots_ a * max_blocks_ a →
   InitializeSlotPool a = (Err kFailedPrecondition,
     mkSBA (Some p) (shutting_down_ a) (num_slots_ a) (max_blocks_ a) false [] [])).
Proof.
  intros Ha Hwf Hdyn Hn Hm Hov. unfold InitializeSlotPool. cbn.
  rewrite Hdyn, Ha, i64_small by nia. cbn.
  destruct (Z.leb_spec (num_slots_ a) 0); [lia|].
  split; intros Hfree.
  - destruct (Z.ltb_spec (pool_num_free_blocks p) (num_slots_ a * max_blocks_ a)); [lia|].
    destruct (init_slots_ok (Z.to_nat (num_slots_ a)) 0
      (mkSBA (Some p) (shutting_down_ a) (num_slots_ a) (max_blocks_ a) false [] []) p)
      as (new & a' & p' & E & Hl & Hadd); [done|done|done|cbn; nia|].
    exists new, a', p'. split; [done|]. split; [lia|done].
  - destruct (Z.ltb_spec (pool_num_free_blocks p) (num_slots_ a * max_blocks_ a)); [|lia]. done.
Qed.
End create.

(** ** Allocator and outstanding handles *)
Section world.
Context {P : Type} `{!BlockPoolOps P} `{!BlockPool P}.
Implicit Types (a : StagingBlockAllocator P) (p : P) (h : Allocation) (live : list Allocation).

(** The allocator, with the handles clients hold. *)
Record World := mkWorld { w_alloc : StagingBlockAllocator P; w_live : list Allocation }.

(** The blocks that must stay locked: the reserved slots, or the dynamic leases. *)
Definition staged (w : World) : list Z :=
  if dynamic_host_staging_ (w_alloc w) then concat (block_ids_ <$> w_live w)
  else concat (slot_blocks_ (w_alloc w)).

(** One critical section of [mu_]; [AcquireWithTimeout] is one or two
    [AcquireLocked] sections with other sections between them.  The last rule is
    any other client of the shared pool that keeps off the locked staging. *)
Inductive world_step : World → World → Prop :=
  | step_acquire fault n a a' h live :
      AcquireLocked fault n a = (Ok h, a') →
      world_step (mkWorld a live) (mkWorld a' (h :: live))
  | step_acquire_error fault n a a' c live :
      AcquireLocked fault n a = (Err c, a') →
      world_step (mkWorld a live) (mkWorld a' live)
  | step_reset a a' h h' live1 live2 :
      Allocation_Reset h a = (h', a') →
      world_step (mkWorld a (live1 ++ h :: live2)) (mkWorld a' (live1 ++ live2))
  | step_shutdown a live :
      world_step (mkWorld a live) (mkWorld (Shutdown a) live)
  | step_pool_client a p p' live :
      host_block_manager_ a = Some p → pool_wf p' →
      pool_total_blocks p' = pool_total_blocks p →
      list_to_set (staged (mkWorld a live)) ⊆ pool_locked p' →
      world_step (mkWorld a live) (mkWorld (set_pool (Some p') a) live).

(** A freshly created allocator over a well-formed pool, with no handle out. *)
Inductive world_init : World → Prop :=
  | init_world raw_env p num_slots max_blocks dyn a q :
      pool_wf p → 0 <= num_slots * max_blocks < 2 ^ 63 →
      Create raw_env (Some p) num_slots max_blocks dyn = (Ok a, q) →
      world_init (mkWorld a []).

Inductive world_reachable : World → Prop :=
  | reach_init w : world_init w → world_reachable w
  | reach_step w w' : world_reachable w → world_step w w' → world_reachable w'.

(** What a handle the allocator gave out looks like. *)
Definition handle_ok a h : Prop :=
  h = Allocation_new ∨
  (allocator_ h = true ∧
   if dynamic_host_staging_ a then slot_idx_ h = -1
   else 0 <= slot_idx_ h ∧ block_ids_ h = slot_blocks_ a !!! Z.to_nat (slot_idx_ h)).

(** The slots the live handles hold. *)
Definition held_slots live : list Z := filter (λ i, 0 <= i) (slot_idx_ <$> live).
#[local] Arguments held_slots : simpl never.

Lemma held_slots_cons h live :
  held_slots (h :: live) =
    if decide (0 <= slot_idx_ h) then slot_idx_ h :: held_slots live else held_slots live.
Proof. unfold held_slots. by rewrite fmap_cons, filter_cons. Qed.
Lemma held_slots_app live1 live2 :
  held_slots (live1 ++ live2) = held_slots live1 ++ held_slots live2.
Proof. unfold held_slots. by rewrite fmap_app, filter_app. Qed.

Record world_inv (w : World) (p : P) : Prop := {
  inv_pool : host_block_manager_ (w_alloc w) = Some p;
  inv_wf : pool_wf p;
  inv_staged_nodup : NoDup (staged w);
  inv_staged_locked : list_to_set (staged w) ⊆ pool_locked p;
  inv_handles : Forall (handle_ok (w_alloc w)) (w_live w);
  inv_slots : dynamic_host_staging_ (w_alloc w) = false →
    free_slots_ (w_alloc w) ++ held_slots (w_live w) ≡ₚ
      seqZ 0 (Z.of_nat (length (slot_blocks_ (w_alloc w))));
  inv_num_slots :
    Z.of_nat (length (slot_blocks_ (w_alloc w))) <= Z.max 0 (num_slots_ (w_alloc w));
}.

(** Reading every slot in index order is the whole reservation. *)
Lemma slot_blocks_bind (L : list (list Z)) :
  (seqZ 0 (Z.of_nat (length L)) ≫= λ i, L !!! Z.to_nat i) = concat L.
Proof.
  induction L as [|x L IH] using rev_ind; [done|].
  rewrite length_app, Nat2Z.inj_add, seqZ_app by lia. rewrite bind_app, concat_app. f_equal.
  - rewrite <- IH. apply Forall_bind_ext, Forall_seqZ. intros i Hi.
    by rewrite lookup_total_app_l by lia.
  - simpl. f_equal. by apply list_lookup_total_middle; lia.
Qed.

(** With fixed staging the handles' blocks are the blocks of the held slots. *)
Lemma live_blocks_slots a live :
  dynamic_host_staging_ a = false → Forall (handle_ok a) live →
  concat (block_ids_ <$> live) = (held_slots live ≫= λ i, slot_blocks_ a !!! Z.to_nat i).
Proof.
  intros Hdyn. induction 1 as [|h live Hh _ IH]; [done|].
  rewrite held_slots_cons, fmap_cons. cbn [concat]. rewrite IH.
  destruct Hh as [->|[_ Hh]]; [done|]. rewrite Hdyn in Hh. destruct Hh as [Hi Hb].
  rewrite decide_True by done. cbn. by rewrite Hb.
Qed.

Lemma live_blocks_dynamic a h :
  dynamic_host_staging_ a = true → handle_ok a h → slot_idx_ h = -1.
Proof. intros Hdyn [->|[_ Hh]]; [done|]. by rewrite Hdyn in Hh. Qed.

(** Reserved slots split into the free ones and the held ones. *)
Lemma slots_split w p :
  world_inv w p → dynamic_host_staging_ (w_alloc w) = false →
  concat (slot_blocks_ (w_alloc w)) ≡ₚ
    (free_slots_ (w_alloc w) ≫= λ i, slot_blocks_ (w_alloc w) !!! Z.to_nat i) ++
    concat (block_ids_ <$> w_live w).
Proof.
  intros Hinv Hdyn. rewrite (live_blocks_slots (w_alloc w)) by (done || apply Hinv).
  rewrite <- bind_app, (inv_slots w p Hinv Hdyn). by rewrite slot_blocks_bind.
Qed.

Lemma live_blocks_exclusive w p :
  world_inv w p →
  NoDup (concat (block_ids_ <$> w_live w)) ∧
  list_to_set (concat (block_ids_ <$> w_live w)) ⊆ pool_locked p.
Proof.
  intros Hinv. pose proof (inv_staged_nodup w p Hinv) as Hnd.
  pose proof (inv_staged_locked w p Hinv) as Hlk. unfold staged in *.
  destruct (dynamic_host_staging_ (w_alloc w)) eqn:Hdyn; [done|].
  pose proof (slots_split w p Hinv Hdyn) as Hs. rewrite Hs in Hnd.
  apply NoDup_app in Hnd as (_ & _ & Hnd). split; [done|].
  intros b Hb. apply Hlk. rewrite elem_of_list_to_set in Hb |- *. rewrite Hs. set_solver.
Qed.

(** *** The invariant is established and preserved *)
Lemma world_init_inv w : world_init w → ∃ p, world_inv w p.
Proof.
  intros [raw_env p n m dyn a q Hwf Hov Hc]. unfold Create in Hc.
  set (d := default _ _) in Hc.
  destruct ((0 <? n) && (0 <? m)) eqn:Hpos; [|simplify_eq/=].
  - apply andb_true_iff in Hpos as [Hn%Z.ltb_lt Hm%Z.ltb_lt].
    destruct d eqn:Hd.
    { unfold InitializeSlotPool in Hc. cbn in Hc. simplify_eq/=. exists p.
      split; cbn; try done; try lia; unfold staged; cbn; try (by constructor); set_solver. }
    pose proof (InitializeSlotPool_fixed (StagingBlockAllocator_new (Some p) n m false) p
                  eq_refl Hwf eq_refl Hn Hm) as [Hyes Hno]; [cbn; lia|]. cbn in Hyes, Hno.
    destruct (Z.lt_ge_cases (pool_num_free_blocks p) (n * m)) as [Hf|Hf].
    { rewrite (Hno Hf) in Hc. done. }
    destruct (Hyes Hf) as (new & a' & p' & E & Hlen & Hadd). rewrite E in Hc. simplify_eq/=.
    destruct Hadd as (H1 & H2 & H3 & H4 & H5 & H6 & H7 & H8 & H9 & H10 & H11 & H12 & H13 & H14 & H15).
    cbn in *. exists p'. split; cbn; try done; unfold staged; cbn; rewrite ?H8, ?H4; try done.
    + set_solver.
    + intros _. rewrite H5. unfold held_slots. cbn. by rewrite app_nil_r.
    + lia.
  - exists p. split; cbn; try done; unfold staged; cbn; destruct d; cbn; try done;
      try constructor; try lia; set_solver.
Qed.

(** The three ways [AcquireLocked] succeeds. *)
Lemma AcquireLocked_ok fault n a h a' :
  AcquireLocked fault n a = (Ok h, a') →
  (n <= 0 ∧ h = Allocation_new ∧ a' = a) ∨
  (0 < n <= capacity a ∧ dynamic_host_staging_ a = false ∧
   ∃ i rest, free_slots_ a = i :: rest ∧ h = Allocation_slot i (slot_blocks_ a !!! Z.to_nat i) ∧
             a' = set_free_slots rest a) ∨
  (0 < n <= capacity a ∧ dynamic_host_staging_ a = true ∧
   ∃ p ids p', host_block_manager_ a = Some p ∧ pool_Allocate (i32 n) true p = (Ok ids, p') ∧
               h = Allocation_dynamic ids ∧ a' = set_pool (Some p') a).
Proof.
  unfold AcquireLocked. destruct (Z.leb_spec n 0); [intros; simplify_eq; by left|].
  destruct fault; [|done]. destruct (Z.ltb_spec (capacity a) n); [done|].
  destruct (dynamic_host_staging_ a); cbn.
  - destruct (host_block_manager_ a) as [p|]; [|done].
    destruct (pool_Allocate (i32 n) true p) as [[ids|c] p'] eqn:E; [|done].
    intros [= <- <-]. right. right. split; [lia|]. split; [done|]. by exists p, ids, p'.
  - destruct (free_slots_ a) as [|i rest]; [done|].
    intros [= <- <-]. right. left. split; [lia|]. split; [done|]. by exists i, rest.
Qed.

(** A failed acquisition changes nothing. *)
Lemma AcquireLocked_error fault n a c a' :
  AcquireLocked fault n a = (Err c, a') → a' = a.
Proof.
  unfold AcquireLocked. destruct (n <=? 0); [done|]. destruct fault; [|naive_solver].
  destruct (capacity a <? n); [naive_solver|]. destruct (dynamic_host_staging_ a); cbn.
  - destruct (host_block_manager_ a) as [p|] eqn:Hp; [|naive_solver].
    destruct (pool_Allocate (i32 n) true p) as [[ids|c'] p'] eqn:E; [done|].
    apply pool_Allocate_err in E as ->. intros [= _ <-].
    unfold set_pool. rewrite <- Hp. by destruct a.
  - destruct (free_slots_ a); naive_solver.
Qed.

Lemma inv_add_empty a live p :
  world_inv (mkWorld a live) p → world_inv (mkWorld a (Allocation_new :: live)) p.
Proof.
  intros [H1 H2 H3 H4 H5 H6 H7]. split; try done. constructor; [by left|done].
Qed.

Lemma inv_acquire_slot a live p i rest :
  world_inv (mkWorld a live) p → dynamic_host_staging_ a = false →
  free_slots_ a = i :: rest →
  world_inv (mkWorld (set_free_slots rest a)
    (Allocation_slot i (slot_blocks_ a !!! Z.to_nat i) :: live)) p.
Proof.
  intros [H1 H2 H3 H4 H5 H6 H7] Hdyn Hf. unfold staged in *. cbn in *. rewrite Hdyn in *.
  specialize (H6 eq_refl). rewrite Hf in H6.
  assert (0 <= i) as Hi.
  { assert (i ∈ seqZ 0 (Z.of_nat (length (slot_blocks_ a)))) as Hi by (rewrite <- H6; set_solver).
    apply elem_of_seqZ in Hi. lia. }
  split; cbn; unfold staged; cbn; rewrite ?Hdyn; try done.
  - constructor; [|done]. right. unfold handle_ok. cbn. by rewrite Hdyn.
  - intros _. rewrite <- H6, held_slots_cons, decide_True by done.
    symmetry. apply Permutation_middle.
Qed.

Lemma inv_acquire_dynamic a live p n ids p' :
  world_inv (mkWorld a live) p → dynamic_host_staging_ a = true →
  pool_Allocate n true p = (Ok ids, p') →
  world_inv (mkWorld (set_pool (Some p') a) (Allocation_dynamic ids :: live)) p'.
Proof.
  intros [H1 H2 H3 H4 H5 H6 H7] Hdyn E. unfold staged in *. cbn in *. rewrite Hdyn in *.
  destruct (pool_Allocate_ok n p ids p' H2 E) as (Hwf & _ & Hnd & _ & _ & Hdis & Hal & Hlk).
  split; cbn; unfold staged; cbn; rewrite ?Hdyn; try done.
  - apply NoDup_app. split; [done|]. split; [|done]. set_solver.
  - rewrite Hlk, list_to_set_app_L. set_solver.
  - constructor; [|done]. right. cbn. by rewrite Hdyn.
Qed.

Lemma inv_reset_slot a live1 live2 p h :
  world_inv (mkWorld a (live1 ++ h :: live2)) p → dynamic_host_staging_ a = false →
  world_inv (mkWorld (Allocation_Reset h a).2 (live1 ++ live2)) p.
Proof.
  intros [H1 H2 H3 H4 H5 H6 H7] Hdyn. unfold staged in *. cbn in *. rewrite Hdyn in *.
  specialize (H6 eq_refl). apply Forall_app in H5 as [Hl1 [Hh Hl2]%Forall_cons_1].
  rewrite held_slots_app, held_slots_cons in H6.
  destruct Hh as [->|[Hal Hh]].
  { split; cbn; unfold staged; cbn; rewrite ?Hdyn; try done.
    - by apply Forall_app.
    - intros _. by rewrite held_slots_app. }
  rewrite Hdyn in Hh. destruct Hh as [Hi Hb]. rewrite decide_True in H6 by done.
  assert (slot_idx_ h ∈ seqZ 0 (Z.of_nat (length (slot_blocks_ a)))) as Hin
    by (rewrite <- H6; set_solver). apply elem_of_seqZ in Hin.
  unfold Allocation_Reset, ReleaseSlot. rewrite Hal, (proj2 (Z.leb_le _ _) Hi). cbn.
  destruct (Z.ltb_spec (slot_idx_ h) 0); [lia|].
  destruct (Z.leb_spec (num_slots_ a) (slot_idx_ h)); [lia|]. cbn.
  split; cbn; unfold staged; cbn; rewrite ?Hdyn; try done.
  - by apply Forall_app.
  - intros _. rewrite held_slots_app, <- H6, <- app_assoc.
    apply Permutation_app_head. cbn. apply Permutation_middle.
Qed.

(** Giving a dynamic lease back frees exactly its blocks. *)
Lemma ReleaseDynamicBlocks_ok a p ids :
  host_block_manager_ a = Some p → pool_wf p → ids ≠ [] →
  list_to_set ids ⊆ pool_locked p →
  ∃ p', ReleaseDynamicBlocks ids a = set_pool (Some p') a ∧ pool_wf p' ∧
    pool_total_blocks p' = pool_total_blocks p ∧
    pool_allocated p' = pool_allocated p ∖ list_to_set ids ∧
    pool_locked p' = pool_locked p ∖ list_to_set ids.
Proof.
  intros Ha Hwf Hne Hlk. pose proof (pool_locked_allocated p Hwf) as Hla.
  destruct (pool_Unlock_ok ids p Hwf) as (p1 & E1 & Hwf1 & Ht1 & Ha1 & Hl1); [set_solver|].
  destruct (pool_Deallocate_ok ids p1 Hwf1) as (p2 & E2 & Hwf2 & Ht2 & Ha2 & Hl2); [set_solver|].
  exists p2. unfold ReleaseDynamicBlocks. destruct ids; [done|].
  rewrite Ha, E1. cbn [snd]. rewrite E2. cbn [snd]. split; [done|]. split; [done|].
  split; [congruence|]. split; [congruence|]. rewrite Hl2, Hl1. set_solver.
Qed.

Lemma inv_reset_dynamic a live1 live2 p h :
  world_inv (mkWorld a (live1 ++ h :: live2)) p → dynamic_host_staging_ a = true →
  ∃ p', world_inv (mkWorld (Allocation_Reset h a).2 (live1 ++ live2)) p'.
Proof.
  intros [H1 H2 H3 H4 H5 H6 H7] Hdyn. unfold staged in *. cbn in *. rewrite Hdyn in *.
  apply Forall_app in H5 as [Hl1 [Hh Hl2]%Forall_cons_1].
  pose proof (live_blocks_dynamic a h Hdyn Hh) as Hs.
  rewrite fmap_app, fmap_cons, concat_app in H3, H4. cbn [concat] in H3, H4.
  rewrite !list_to_set_app_L in H4.
  apply NoDup_app in H3 as (Hn1 & Hd1 & (Hn2 & Hd2 & Hn3)%NoDup_app).
  assert (NoDup (concat (block_ids_ <$> live1 ++ live2))) as Hnd.
  { rewrite fmap_app, concat_app. apply NoDup_app. set_solver. }
  unfold Allocation_Reset. rewrite Hs. cbn [Z.leb Z.compare].
  destruct (allocator_ h && negb (bool_decide (block_ids_ h = []))) eqn:Hact.
  - apply andb_true_iff in Hact as [-> Hb%negb_true_iff%bool_decide_eq_false].
    destruct (ReleaseDynamicBlocks_ok a p (block_ids_ h) H1 H2 Hb) as
      (p' & E & Hwf & Ht & Ha' & Hl'); [set_solver|].
    exists p'. destruct (block_ids_ h) as [|b bs] eqn:Eb; [done|]. cbn [fst snd].
    rewrite E. split; cbn; unfold staged; cbn; rewrite ?Hdyn; try done.
    + rewrite Hl', fmap_app, concat_app, list_to_set_app_L. clear -H4 Hd1 Hd2. set_solver.
    + by apply Forall_app.
  - exists p. assert ((if allocator_ h then match block_ids_ h with
        [] => a | _ => ReleaseDynamicBlocks (block_ids_ h) a end else a) = a) as Heq.
    { destruct (allocator_ h); [|done]. destruct (block_ids_ h); done. }
    cbn [snd]. rewrite Heq. split; cbn; unfold staged; cbn; rewrite ?Hdyn; try done.
    + rewrite fmap_app, concat_app, list_to_set_app_L. clear -H4. set_solver.
    + by apply Forall_app.
Qed.

Lemma world_step_inv w w' : world_step w w' → (∃ p, world_inv w p) → ∃ p, world_inv w' p.
Proof.
  intros [fault n a a' h live E|fault n a a' c live E|a a' h h' l1 l2 E|a live|a p p' live Ha Hwf Ht Hl]
    [q Hinv].
  - apply AcquireLocked_ok in E as [(_ & -> & ->)|[(_ & Hd & i & rest & Hf & -> & ->)|
      (_ & Hd & p & ids & p' & Hp & E & -> & ->)]].
    + exists q. by apply inv_add_empty.
    + exists q. by apply inv_acquire_slot.
    + exists p'. pose proof (inv_pool _ _ Hinv) as Hq. cbn in Hq. simplify_eq.
      by eapply inv_acquire_dynamic.
  - apply AcquireLocked_error in E as ->. by exists q.
  - apply (f_equal snd) in E. cbn in E. subst a'.
    destruct (dynamic_host_staging_ a) eqn:Hd.
    + by eapply inv_reset_dynamic.
    + exists q. by apply inv_reset_slot.
  - exists q. destruct Hinv. by split.
  - exists p'. destruct Hinv as [H1 H2 H3 H4 H5 H6 H7]. by split.
Qed.

Lemma world_reachable_inv w : world_reachable w → ∃ p, world_inv w p.
Proof. induction 1; [by apply world_init_inv|by eapply world_step_inv]. Qed.
End world.

(** ** What the allocator promises *)
Section properties.
Context {P : Type} `{!BlockPoolOps P} `{!BlockPool P}.
Implicit Types (a : StagingBlockAllocator P) (p : P) (h : Allocation) (live : list Allocation).

(** A held block belongs to one handle only and is locked in the pool, so
    neither another lease nor an LRU eviction can take it: at every point of
    every interleaving of acquire, release, shutdown and foreign pool traffic.
    With fixed staging no slot is lost or duplicated. *)
Theorem staging_leases_exclusive (w : World (P:=P)) :
  world_reachable w →
  ∃ p, host_block_manager_ (w_alloc w) = Some p ∧ pool_wf p ∧
    NoDup (concat (block_ids_ <$> w_live w)) ∧
    list_to_set (concat (block_ids_ <$> w_live w)) ⊆ pool_locked p ∧
    (dynamic_host_staging_ (w_alloc w) = false →
     (num_free_slots (w_alloc w) + length (held_slots (w_live w)))%nat
       = length (slot_blocks_ (w_alloc w))).
Proof.
  intros [p Hinv]%world_reachable_inv. exists p. split; [apply Hinv|]. split; [apply Hinv|].
  destruct (live_blocks_exclusive w p Hinv). split; [done|]. split; [done|]. intros Hd.
  pose proof (Permutation_length (inv_slots w p Hinv Hd)) as Hl.
  rewrite length_app, length_seqZ in Hl. unfold num_free_slots. lia.
Qed.

(** [Create] with fixed staging is all or nothing: enough free blocks and it
    reserves [num_slots] disjoint slots of [max_blocks] blocks each, locking
    them and evicting nothing; too few and it fails with FAILED_PRECONDITION,
    leaving the pool as it was. *)
Theorem staging_Create_fixed raw_env p num_slots max_blocks :
  pool_wf p → 0 < num_slots → 0 < max_blocks → num_slots * max_blocks < 2 ^ 63 →
  (num_slots * max_blocks <= pool_num_free_blocks p →
   ∃ a p', Create raw_env (Some p) num_slots max_blocks (Some false) = (Ok a, Some p') ∧
     host_block_manager_ a = Some p' ∧ pool_wf p' ∧
     free_slots_ a = seqZ 0 num_slots ∧ Z.of_nat (length (slot_blocks_ a)) = num_slots ∧
     Forall (λ b, Z.of_nat (length b) = max_blocks) (slot_blocks_ a) ∧
     NoDup (concat (slot_blocks_ a)) ∧
     list_to_set (concat (slot_blocks_ a)) ## pool_allocated p ∧
     pool_allocated p' = pool_allocated p ∪ list_to_set (concat (slot_blocks_ a)) ∧
     pool_locked p' = pool_locked p ∪ list_to_set (concat (slot_blocks_ a))) ∧
  (pool_num_free_blocks p < num_slots * max_blocks →
   Create raw_env (Some p) num_slots max_blocks (Some false)
     = (Err kFailedPrecondition, Some p)).
Proof.
  intros Hwf Hn Hm Hov. unfold Create. cbn [from_option]. unfold id.
  rewrite (proj2 (Z.ltb_lt _ _) Hn), (proj2 (Z.ltb_lt _ _) Hm). cbn [andb].
  destruct (InitializeSlotPool_fixed (StagingBlockAllocator_new (Some p) num_slots max_blocks false)
    p eq_refl Hwf eq_refl Hn Hm Hov) as [Hyes Hno].
  split; intros Hf; [|by rewrite (Hno Hf)].
  destruct (Hyes Hf) as (new & a & p' & E & Hlen & Hadd). rewrite E. cbn in Hlen.
  destruct Hadd as (H1 & H2 & H3 & H4 & H5 & H6 & H7 & H8 & H9 & H10 & H11 & H12 & H13 & H14 & _).
  cbn in *. exists a, p'. rewrite H4, H5, H1. repeat (split; [congruence || done|]). congruence.
Qed.

(** Acquire then [Reset] gives everything back: the same locked blocks and free
    slots (the slot returns at the back of the queue), an empty handle, and of
    the allocated blocks only the lease's own are gone (blocks the lease had
    evicted stay evicted). *)
Theorem staging_acquire_reset_roundtrip fault n a live h a' :
  world_reachable (mkWorld a live) → AcquireLocked fault n a = (Ok h, a') →
  let '(h', a'') := Allocation_Reset h a' in
  Allocation_empty h' = true ∧ free_slots_ a'' ≡ₚ free_slots_ a ∧
  slot_blocks_ a'' = slot_blocks_ a ∧
  ∃ p p'', host_block_manager_ a = Some p ∧ host_block_manager_ a'' = Some p'' ∧
    pool_locked p'' = pool_locked p ∧
    pool_allocated p'' =
      pool_allocated p ∖ (if Allocation_is_dynamic h then list_to_set (block_ids_ h) else ∅).
Proof.
  intros [p Hinv]%world_reachable_inv E.
  destruct Hinv as [H1 H2 H3 H4 H5 H6 H7]. cbn in *.
  apply AcquireLocked_ok in E as [(_ & -> & ->)|[(_ & Hd & i & rest & Hf & -> & ->)|
      (_ & Hd & q & ids & p' & Hp & E & -> & ->)]].
  - cbn. split; [done|]. split; [done|]. split; [done|]. exists p, p. set_solver.
  - specialize (H6 Hd). rewrite Hf in H6.
    assert (i ∈ seqZ 0 (Z.of_nat (length (slot_blocks_ a)))) as Hi%elem_of_seqZ
      by (rewrite <- H6; set_solver).
    unfold Allocation_Reset, ReleaseSlot, Allocation_is_dynamic. cbn.
    destruct (Z.leb_spec 0 i), (Z.ltb_spec i 0), (Z.leb_spec (num_slots_ a) i); try lia.
    cbn. split; [done|]. split; [rewrite Hf; symmetry; apply Permutation_cons_append|].
    split; [done|]. exists p, p. set_solver.
  - rewrite H1 in Hp. simplify_eq/=.
    destruct (pool_Allocate_ok (i32 n) q ids p' H2 E) as (Hwf & _ & Hnd & Hlen & Hpos & Hdis & Hal & Hlk).
    destruct ids as [|b bs]; [cbn in Hlen; lia|].
    destruct (ReleaseDynamicBlocks_ok (set_pool (Some p') a) p' (b :: bs) eq_refl Hwf)
      as (p'' & E' & _ & _ & Ha'' & Hl''); [done|set_solver|].
    unfold Allocation_Reset. cbn [allocator_ slot_idx_ block_ids_ Allocation_dynamic Z.leb Z.compare].
    rewrite E'. cbn [free_slots_ slot_blocks_ set_pool host_block_manager_].
    split; [done|]. split; [done|]. split; [done|]. exists q, p''.
    split; [done|]. split; [done|]. rewrite Hl'', Ha'', Hlk, Hal.
    split; [set_solver|]. change (Allocation_is_dynamic _) with true. cbn [block_ids_]. set_solver.
Qed.

(** A waiter is never woken in vain: in a reachable state in which the wait
    condition of [AcquireWithTimeout] holds and no shutdown is under way, an
    admissible request is served, and a dynamic lease has exactly [n] blocks. *)
Lemma can_proceed_acquires n a live :
  world_reachable (mkWorld a live) → shutting_down_ a = false → 0 < n <= capacity a →
  can_proceed n a = true →
  ∃ h a', AcquireLocked OkStatus n a = (Ok h, a') ∧ Allocation_empty h = false ∧
    (dynamic_host_staging_ a = true → Z.of_nat (length (block_ids_ h)) = n).
Proof.
  intros [p Hinv]%world_reachable_inv Hs Hn Hc.
  destruct Hinv as [H1 H2 H3 H4 H5 H6 H7]. cbn in *.
  unfold can_proceed in Hc. rewrite Hs in Hc. unfold AcquireLocked.
  destruct (Z.leb_spec n 0), (Z.ltb_spec (capacity a) n); try lia.
  destruct (dynamic_host_staging_ a) eqn:Hd; cbn in Hc |- *.
  - rewrite H1 in Hc |- *. unfold capacity in Hn. rewrite Hd, H1 in Hn.
    pose proof (pool_total_bound p H2) as Hb. pose proof (pool_num_free_bound p H2) as Hb'.
    unfold INT_MAX in *. rewrite i32_small by lia.
    apply Z.leb_le in Hc. rewrite !u64_small in Hc by lia.
    destruct (pool_Allocate_free n p H2) as (ids & p' & E & _); [lia|]. rewrite E.
    destruct (pool_Allocate_ok n p ids p' H2 E) as (_ & _ & _ & Hlen & _).
    exists (Allocation_dynamic ids), (set_pool (Some p') a). split; [done|].
    split; [|done]. unfold Allocation_empty. cbn. apply bool_decide_eq_false.
    intros ->. cbn in Hlen. lia.
  - apply negb_true_iff, bool_decide_eq_false in Hc. specialize (H6 eq_refl).
    destruct (free_slots_ a) as [|i rest] eqn:Hf; [done|].
    assert (i ∈ seqZ 0 (Z.of_nat (length (slot_blocks_ a)))) as Hi%elem_of_seqZ
      by (rewrite <- H6; set_solver).
    eexists _, _. split; [done|]. split; [|done].
    unfold Allocation_empty. cbn. destruct (Z.ltb_spec i 0); [lia|done].
Qed.

(** An exhausted request means the wait condition does not hold yet. *)
Lemma exhausted_cannot_proceed n a a' live :
  world_reachable (mkWorld a live) → shutting_down_ a = false →
  AcquireLocked OkStatus n a = (Err kResourceExhausted, a') → can_proceed n a = false.
Proof.
  intros Hr Hs E. destruct (can_proceed n a) eqn:Hc; [|done]. exfalso.
  assert (0 < n <= capacity a) as Hn.
  { unfold AcquireLocked in E.
    destruct (Z.leb_spec n 0), (Z.ltb_spec (capacity a) n); simplify_eq; lia. }
  destruct (can_proceed_acquires n a live Hr Hs Hn Hc) as (h & a1 & E1 & _). congruence.
Qed.

(** [AcquireWithTimeout] on every branch: cancelled at once during a shutdown;
    a request that fails for good, and one that is exhausted at the deadline,
    report the first attempt's status and change nothing; a waiter whose
    condition came true gets a non-empty lease, or CANCELLED when it was the
    shutdown that woke it. *)
Theorem staging_timeout_spec n deadline now others a live live' :
  world_reachable (mkWorld a live) → world_reachable (mkWorld (others a) live') →
  capacity (others a) = capacity a → 
  let result := AcquireWithTimeout OkStatus OkStatus n deadline now others a in
  (shutting_down_ a = true → result = (Err kCancelled, a)) ∧
  (shutting_down_ a = false →
   ∀ c a1, AcquireLocked OkStatus n a = (Err c, a1) →
   (c ≠ kResourceExhausted ∨ deadline <= now → result = (Err c, a)) ∧
   (c = kResourceExhausted → now < deadline → can_proceed n (others a) = true →
    if shutting_down_ (others a) then result = (Err kCancelled, others a)
    else ∃ h a', result = (Ok h, a') ∧ Allocation_empty h = false)).
Proof.
  intros Hr Hr' Hcap. cbn zeta. unfold AcquireWithTimeout. split; [by intros ->|].
  intros Hs c a1 E. rewrite Hs. pose proof (AcquireLocked_error _ _ _ _ _ E) as ->.
  rewrite E. split.
  - intros [Hc|Hd]; [by destruct c|]. rewrite (proj2 (Z.leb_le _ _) Hd). by destruct c.
  - intros -> Hnow Hc. destruct (Z.leb_spec deadline now); [lia|].
    rewrite (exhausted_cannot_proceed n a a live Hr Hs E).
    destruct (shutting_down_ (others a)) eqn:Hs'; [done|].
    destruct (can_proceed_acquires n (others a) live' Hr' Hs') as (h & a' & E' & He & _); [|done|].
    { rewrite Hcap. unfold AcquireLocked in E.
      destruct (Z.leb_spec n 0), (Z.ltb_spec (capacity a) n); simplify_eq; lia. }
    eauto.
Qed.

(** The destructor unlocks the slot pool but does not deallocate it, so the
    blocks stay allocated: building an allocator of the same size again over
    the same pool fails with FAILED_PRECONDITION unless the pool is twice as
    large. *)
Theorem staging_recreate_fails raw_env p a q num_slots max_blocks :
  pool_wf p → 0 < num_slots → 0 < max_blocks →
  pool_num_free_blocks p < 2 * (num_slots * max_blocks) → num_slots * max_blocks < 2 ^ 63 →
  Create raw_env (Some p) num_slots max_blocks (Some false) = (Ok a, q) →
  ∃ p', StagingBlockAllocator_destroy a = Some p' ∧ pool_locked p' = pool_locked p ∧
    (Create raw_env (Some p') num_slots max_blocks (Some false)).1 = Err kFailedPrecondition.
Proof.
  intros Hwf Hn Hm Hfree Hov E. unfold Create in E. cbn [from_option] in E. unfold id in E.
  rewrite (proj2 (Z.ltb_lt _ _) Hn), (proj2 (Z.ltb_lt _ _) Hm) in E. cbn [andb] in E.
  destruct (InitializeSlotPool_fixed (StagingBlockAllocator_new (Some p) num_slots max_blocks false)
    p eq_refl Hwf eq_refl Hn Hm Hov) as [Hyes Hno]. cbn in Hyes, Hno.
  destruct (Z.lt_ge_cases (pool_num_free_blocks p) (num_slots * max_blocks)) as [Hf|Hf].
  { by rewrite (Hno Hf) in E. }
  destruct (Hyes Hf) as (new & a' & p1 & E1 & Hlen & Hadd). rewrite E1 in E.
  injection E as -> _.
  destruct Hadd as (H1 & H2 & H3 & H4 & H5 & H6 & H7 & H8 & H9 & H10 & H11 & H12 & H13 & H14 & H15).
  cbn in *. pose proof (pool_locked_allocated p Hwf) as Hla.
  destruct (pool_Unlock_ok (concat new) p1 H2) as (p2 & E2 & Hwf2 & Ht2 & Ha2 & Hl2); [set_solver|].
  exists p2. unfold StagingBlockAllocator_destroy. rewrite H1, H4.
  destruct new as [|b new]; [cbn in Hlen; lia|]. rewrite E2. split; [done|].
  split; [rewrite Hl2, H14; set_solver|].
  assert (pool_num_free_blocks p2 = pool_num_free_blocks p1) as Hnf.
  { rewrite !pool_num_free_spec by done. congruence. }
  unfold Create. cbn [from_option]. unfold id.
  rewrite (proj2 (Z.ltb_lt _ _) Hn), (proj2 (Z.ltb_lt _ _) Hm). cbn [andb].
  destruct (InitializeSlotPool_fixed (StagingBlockAllocator_new (Some p2) num_slots max_blocks false)
    p2 eq_refl Hwf2 eq_refl Hn Hm Hov) as [_ Hno2]. cbn in Hno2.
  rewrite Hno2; [done|]. rewrite Hnf, H15, Hlen. lia.
Qed.
End properties.

(** ** Witnesses: the allocator over a real [LogicalBlockManager] *)
Definition create4 (dyn : bool) : StatusOr (StagingBlockAllocator LogicalBlockManager) * option LogicalBlockManager :=
  Create None (Some pool4) 2 2 (Some dyn).
Definition alloc4 (dyn : bool) : StagingBlockAllocator LogicalBlockManager :=
  match create4 dyn with (Ok a, _) => a | _ => StagingBlockAllocator_new None 0 0 dyn end.
Definition leased (dyn : bool) (n : Z) : Allocation * StagingBlockAllocator LogicalBlockManager :=
  match AcquireLocked OkStatus n (alloc4 dyn) with (Ok h, a) => (h, a) | (_, a) => (Allocation_new, a) end.

Lemma pool4_pool_wf : pool_wf pool4.
Proof. exact pool4_wf. Qed.
Lemma alloc4_init dyn : world_init (mkWorld (alloc4 dyn) []).
Proof.
  assert (∃ q, create4 dyn = (Ok (alloc4 dyn), q)) as [q E].
  { destruct dyn; vm_compute; eauto. }
  by apply (init_world None pool4 2 2 (Some dyn) _ q pool4_pool_wf).
Qed.
Lemma leased_reachable dyn : world_reachable (mkWorld (leased dyn 2).2 [(leased dyn 2).1]).
Proof.
  eapply reach_step; [apply reach_init, (alloc4_init dyn)|].
  apply (step_acquire OkStatus 2). by destruct dyn; vm_compute.
Qed.

Lemma staging_leases_exclusive_witness :
  ∃ p, host_block_manager_ (leased true 2).2 = Some p ∧ wf p ∧
    NoDup (concat [block_ids_ (leased true 2).1]).
Proof.
  destruct (staging_leases_exclusive _ (leased_reachable true)) as (p & H1 & H2 & H3 & _).
  by exists p.
Defined.

Lemma staging_Create_fixed_witness :
  ∃ a p', Create None (Some pool4) 2 2 (Some false) = (Ok a, Some p') ∧ free_slots_ a = [0; 1].
Proof.
  destruct (proj1 (staging_Create_fixed None pool4 2 2 pool4_pool_wf
    ltac:(lia) ltac:(lia) ltac:(lia)) ltac:(vm_compute; discriminate)) as (a & p' & E & _ & _ & Hf & _).
  exists a, p'. exact (conj E Hf).
Defined.

Lemma staging_acquire_reset_roundtrip_witness :
  let '(h', a'') := Allocation_Reset (leased true 2).1 (leased true 2).2 in
  Allocation_empty h' = true ∧ slot_blocks_ a'' = [].
Proof.
  pose proof (staging_acquire_reset_roundtrip OkStatus 2 (alloc4 true) [] (leased true 2).1
    (leased true 2).2 (reach_init _ (alloc4_init true)) eq_refl) as H.
  destruct (Allocation_Reset _ _) as [h' a'']. destruct H as (H1 & _ & H2 & _). by split.
Defined.

(** Two slots of two blocks, both leased; a thread then returns one. *)
Definition both_leased : StagingBlockAllocator LogicalBlockManager :=
  match AcquireLocked OkStatus 2 (leased false 2).2 with (_, a) => a end.
Definition second : Allocation :=
  match AcquireLocked OkStatus 2 (leased false 2).2 with (Ok h, _) => h | _ => Allocation_new end.
Definition return_one (a : StagingBlockAllocator LogicalBlockManager) :=
  (Allocation_Reset second a).2.

Lemma both_leased_reachable :
  world_reachable (mkWorld both_leased [second; (leased false 2).1]).
Proof.
  eapply reach_step; [apply (leased_reachable false)|]. by apply (step_acquire OkStatus 2).
Qed.

Lemma returned_reachable :
  world_reachable (mkWorld (return_one both_leased) [(leased false 2).1]).
Proof.
  eapply reach_step; [apply both_leased_reachable|].
  apply (step_reset both_leased _ second (Allocation_Reset second both_leased).1 []).
  vm_compute. reflexivity.
Qed.

Lemma staging_timeout_spec_witness :
  ∃ h a', AcquireWithTimeout OkStatus OkStatus 2 10 5 return_one both_leased = (Ok h, a') ∧
    Allocation_empty h = false.
Proof.
  refine (proj2 (proj2 (staging_timeout_spec 2 10 5 return_one both_leased _ _
    both_leased_reachable returned_reachable _) _ kResourceExhausted both_leased _) _ _ _);
    vm_compute; reflexivity.
Defined.

Lemma staging_recreate_fails_witness :
  ∃ p', StagingBlockAllocator_destroy (alloc4 false) = Some p' ∧
    (Create None (Some p') 2 2 (Some false)).1 = Err kFailedPrecondition.
Proof.
  destruct (staging_recreate_fails None pool4 (alloc4 false) (host_block_manager_ (alloc4 false))
    2 2 pool4_pool_wf ltac:(lia) ltac:(lia) eq_refl ltac:(lia) ltac:(vm_compute; reflexivity))
    as (p' & H1 & _ & H2).
  exists p'. exact (conj H1 H2).
Defined.

(** The wait condition looks at free blocks only: here every unlocked block is
    evictable, so an immediate acquisition would succeed, and a waiter's
    condition is nevertheless false. *)
Definition evictable_pool : LogicalBlockManager := (Allocate 4 false pool4).2.
Lemma can_proceed_ignores_evictable :
  let a := StagingBlockAllocator_new (Some evictable_pool) 0 0 true in
  can_proceed 2 a = false ∧ is_ok (AcquireLocked OkStatus 2 a).1 = true.
Proof. vm_compute. done. Qed.
