(* ===== verification/PoolLayout.v ===== *)
(** * Pool layout: byte geometry of block pools
    (src/tpu_sync/kv_cache/pool_layout.{h,cc})

    A pool is an array of equally strided blocks; each block carries the same
    regions of live bytes, a region being a strided run of packed units.  The
    file translates validation, the cover test, DMA extent computation, the
    expansion into live segments and the two coordinate translations, and
    proves them against the byte sets the regions denote.  Arithmetic is on
    [int64_t] (and [size_t] in the cover test): operations the code does not
    check first are written with their wrap-around. *)

From S2P Require Import Prelude.

Definition INT64_MAX : Z := 2 ^ 63 - 1.

(** ** Data *)
Record RegionSpec := mkRegion {
  region_name : string;
  offset_bytes : Z;
  stride_bytes : Z;
  unit_bytes : Z;
  num_units : Z;
  units_per_stride : Z;
}.

Record PoolSpec := mkPool {
  tag : string;
  storage_index : Z;
  base_offset_bytes : Z;
  block_stride_bytes : Z;
  num_blocks : Z;
  regions : list RegionSpec;
  dtype_tag : string;
  staging_blocks_per_request : Z;
}.

Record PoolBlockCopyExtent := mkExtent { extent_offset : Z; extent_size : Z }.
Record PoolLiveSegment := mkSegment {
  logical_offset : Z; physical_offset : Z; segment_size : Z }.
Record LiveCopyChunk := mkChunk { src_physical : Z; dst_physical : Z; chunk_size : Z }.

#[export] Instance RegionSpec_eq_dec : EqDecision RegionSpec.
Proof. solve_decision. Defined.
#[export] Instance PoolSpec_eq_dec : EqDecision PoolSpec.
Proof. solve_decision. Defined.
#[export] Instance PoolLiveSegment_eq_dec : EqDecision PoolLiveSegment.
Proof. solve_decision. Defined.

(** ** Checked arithmetic *)
Definition MulWillOverflow (lhs rhs : Z) : bool :=
  if (lhs =? 0) || (rhs =? 0) then false else INT64_MAX ÷ rhs <? lhs.

Definition CheckedMul (lhs rhs : Z) : StatusOr Z :=
  if (lhs <? 0) || (rhs <? 0) then Err kInvalidArgument
  else if MulWillOverflow lhs rhs then Err kInvalidArgument
  else Ok (lhs * rhs).

Definition CheckedAdd (lhs rhs : Z) : StatusOr Z :=
  if (lhs <? 0) || (rhs <? 0) then Err kInvalidArgument
  else if INT64_MAX - rhs <? lhs then Err kInvalidArgument
  else Ok (lhs + rhs).

(** ** RegionSpec *)
Definition live_bytes (r : RegionSpec) : Z :=
  if MulWillOverflow (unit_bytes r) (num_units r) then INT64_MAX
  else
    let unit_total := i64 (unit_bytes r * num_units r) in
    if MulWillOverflow unit_total (units_per_stride r) then INT64_MAX
    else i64 (unit_total * units_per_stride r).

Definition extent_end_bytes (r : RegionSpec) : Z :=
  if num_units r =? 0 then offset_bytes r
  else if (num_units r <? 0) || (stride_bytes r <? 0) || (unit_bytes r <? 0) ||
          (units_per_stride r <? 0) || (offset_bytes r <? 0) then INT64_MAX
  else if MulWillOverflow (num_units r - 1) (stride_bytes r) then INT64_MAX
  else
    let strided_offset := (num_units r - 1) * stride_bytes r in
    if MulWillOverflow (units_per_stride r) (unit_bytes r) then INT64_MAX
    else
      let packed_bytes := units_per_stride r * unit_bytes r in
      if INT64_MAX - strided_offset <? offset_bytes r then INT64_MAX
      else
        let start := offset_bytes r + strided_offset in
        if INT64_MAX - packed_bytes <? start then INT64_MAX
        else start + packed_bytes.

Definition RegionSpec_Validate (slot_bytes : Z) (r : RegionSpec) : Status :=
  if bool_decide (region_name r = EmptyString) then Err kInvalidArgument
  else if slot_bytes <=? 0 then Err kInvalidArgument
  else if offset_bytes r <? 0 then Err kInvalidArgument
  else if stride_bytes r <? 0 then Err kInvalidArgument
  else if unit_bytes r <? 0 then Err kInvalidArgument
  else if num_units r <? 0 then Err kInvalidArgument
  else if units_per_stride r <=? 0 then Err kInvalidArgument
  else if (0 <? num_units r) && (unit_bytes r <=? 0) then Err kInvalidArgument
  else if (1 <? num_units r) && (stride_bytes r <=? 0) then Err kInvalidArgument
  else
    packed_bytes ← CheckedMul (units_per_stride r) (unit_bytes r);
    if (0 <? num_units r) && (stride_bytes r <? packed_bytes) then Err kInvalidArgument
    else
      stride_extent ← CheckedMul (if 0 <? num_units r then num_units r - 1 else 0)
                        (stride_bytes r);
      extent_start ← CheckedAdd (offset_bytes r) stride_extent;
      extent_end ← CheckedAdd extent_start packed_bytes;
      if slot_bytes <? extent_end then Err kInvalidArgument else OkStatus.

(** ** PoolSpec *)
Definition storage_extent_end_bytes (p : PoolSpec) : Z :=
  if (base_offset_bytes p <? 0) || (block_stride_bytes p <? 0) || (num_blocks p <=? 0)
  then INT64_MAX
  else if MulWillOverflow (num_blocks p - 1) (block_stride_bytes p) then INT64_MAX
  else
    let block_offset := (num_blocks p - 1) * block_stride_bytes p in
    let block_live_end :=
      foldl (λ e r, Z.max e (extent_end_bytes r)) 0 (regions p) in
    if INT64_MAX - block_offset <? base_offset_bytes p then INT64_MAX
    else
      let last_block := base_offset_bytes p + block_offset in
      if (block_live_end <? 0) || (INT64_MAX - block_live_end <? last_block) then INT64_MAX
      else last_block + block_live_end.

(** The loop that validates every region, first failure first. *)
Definition validate_regions (slot_bytes : Z) (rs : list RegionSpec) : Status :=
  foldr (λ r rest, match RegionSpec_Validate slot_bytes r with
                   | Err _ => Err kInvalidArgument | Ok _ => rest end) OkStatus rs.

Definition PoolSpec_Validate (storage_bytes : Z) (p : PoolSpec) : Status :=
  if bool_decide (tag p = EmptyString) then Err kInvalidArgument
  else if block_stride_bytes p <=? 0 then Err kInvalidArgument
  else if num_blocks p <=? 0 then Err kInvalidArgument
  else if base_offset_bytes p <? 0 then Err kInvalidArgument
  else if bool_decide (regions p = []) then Err kInvalidArgument
  else
    match validate_regions (block_stride_bytes p) (regions p) with
    | Err c => Err c
    | Ok _ =>
        if 0 <=? storage_bytes then
          let live_end := storage_extent_end_bytes p in
          if live_end =? INT64_MAX then Err kInvalidArgument
          else if storage_bytes <? live_end then Err kInvalidArgument
          else OkStatus
        else OkStatus
    end.

(** ** Cover test ([size_t] arithmetic) *)
Definition RegionCoversOffset (r : RegionSpec) (offset : Z) : option Z :=
  if num_units r <=? 0 then None
  else
    let region_offset := u64 (offset_bytes r) in
    let stride := u64 (stride_bytes r) in
    let packed_bytes := u64 (u64 (unit_bytes r) * u64 (units_per_stride r)) in
    let num_units := u64 (num_units r) in
    if (offset <? region_offset) || (packed_bytes =? 0) then None
    else
      let unit_idx :=
        if 1 <? num_units then
          if stride =? 0 then None
          else
            let unit_idx := u64 (offset - region_offset) `div` stride in
            if num_units <=? unit_idx then None else Some unit_idx
        else Some 0 in
      match unit_idx with
      | None => None
      | Some unit_idx =>
          let segment_start := u64 (region_offset + u64 (unit_idx * stride)) in
          let segment_end := u64 (segment_start + packed_bytes) in
          if (offset <? segment_start) || (segment_end <=? offset) then None
          else Some segment_end
      end.

Definition cover_next (rs : list RegionSpec) (end_ cursor : Z) : Z :=
  foldl (λ next r, match RegionCoversOffset r cursor with
                   | Some covered_end => Z.max next (Z.min covered_end end_)
                   | None => next end) cursor rs.

Fixpoint cover_loop (fuel : nat) (rs : list RegionSpec) (cursor end_ : Z) : bool :=
  if negb (cursor <? end_) then true
  else match fuel with
       | O => false
       | S fuel =>
           let next := cover_next rs end_ cursor in
           if next =? cursor then false else cover_loop fuel rs next end_
       end.

(** The cursor moves forward by at least one byte per round. *)
Definition RegionsCoverRange (rs : list RegionSpec) (start end_ : Z) : bool :=
  cover_loop (Z.to_nat (end_ - start)) rs start end_.

(** ** DMA extents *)
Definition unit_extent (block_base packed_bytes : Z) (r : RegionSpec) (unit : Z)
    : StatusOr PoolBlockCopyExtent :=
  unit_delta ← CheckedMul unit (stride_bytes r);
  region_base ← CheckedAdd block_base (offset_bytes r);
  offset ← CheckedAdd region_base unit_delta;
  Ok (mkExtent offset packed_bytes).

Definition region_extents (block_base : Z) (r : RegionSpec)
    : StatusOr (list PoolBlockCopyExtent) :=
  packed_bytes ← CheckedMul (unit_bytes r) (units_per_stride r);
  if (num_units r =? 0) || (packed_bytes =? 0) then Ok []
  else if stride_bytes r =? packed_bytes then
    region_bytes ← CheckedMul (num_units r) packed_bytes;
    offset ← CheckedAdd block_base (offset_bytes r);
    Ok [mkExtent offset region_bytes]
  else mapM (unit_extent block_base packed_bytes r) (seqZ 0 (num_units r)).

Definition block_extents (p : PoolSpec) (block_id : Z)
    : StatusOr (list PoolBlockCopyExtent) :=
  if (block_id <? 0) || (num_blocks p <=? block_id) then Err kOutOfRange
  else
    block_delta ← CheckedMul block_id (block_stride_bytes p);
    block_base ← CheckedAdd (base_offset_bytes p) block_delta;
    (λ l, concat l) <$> mapM (region_extents block_base) (regions p).

Definition extent_le (a b : PoolBlockCopyExtent) : Prop :=
  extent_offset a < extent_offset b ∨
  (extent_offset a = extent_offset b ∧ extent_size a <= extent_size b).
#[export] Instance extent_le_dec a b : Decision (extent_le a b).
Proof. unfold extent_le. apply _. Defined.

(** The merge loop; [previous] is [merged.back()]. *)
Fixpoint merge_extents (previous : PoolBlockCopyExtent) (extents : list PoolBlockCopyExtent)
    : StatusOr (list PoolBlockCopyExtent) :=
  match extents with
  | [] => Ok [previous]
  | extent :: rest =>
      extent_end ← CheckedAdd (extent_offset extent) (extent_size extent);
      previous_end ← CheckedAdd (extent_offset previous) (extent_size previous);
      if previous_end <? extent_offset extent
      then cons previous <$> merge_extents extent rest
      else merge_extents
             (mkExtent (extent_offset previous)
                (Z.max previous_end extent_end - extent_offset previous)) rest
  end.

Definition ComputePoolBlockCopyExtents (p : PoolSpec) (block_ids : list Z)
    : StatusOr (list PoolBlockCopyExtent) :=
  extents ← (λ l, concat l) <$> mapM (block_extents p) block_ids;
  match merge_sort extent_le extents with
  | [] => Ok []
  | extent :: rest =>
      _ ← CheckedAdd (extent_offset extent) (extent_size extent);
      merge_extents extent rest
  end.

(** ** Live segments *)
Definition kMaxLiveSegments : Z := 2 ^ 20.

Definition unit_interval (block_stride packed_bytes : Z) (r : RegionSpec) (unit : Z)
    : StatusOr (Z * Z) :=
  if MulWillOverflow unit (stride_bytes r) then Err kInvalidArgument
  else
    let start := i64 (offset_bytes r + unit * stride_bytes r) in
    let end_ := i64 (start + packed_bytes) in
    if block_stride <? end_ then Err kInvalidArgument else Ok (start, end_).

Definition region_intervals (block_stride num_intervals : Z) (r : RegionSpec)
    : StatusOr (list (Z * Z)) :=
  if (offset_bytes r <? 0) || (stride_bytes r <? 0) || (unit_bytes r <? 0) ||
     (num_units r <? 0) then Err kInvalidArgument
  else if units_per_stride r <=? 0 then Err kInvalidArgument
  else if MulWillOverflow (unit_bytes r) (units_per_stride r) then Err kInvalidArgument
  else
    let packed_bytes := unit_bytes r * units_per_stride r in
    if (0 <? num_units r) && (packed_bytes <=? 0) then Err kInvalidArgument
    else if (1 <? num_units r) && (stride_bytes r <=? 0) then Err kInvalidArgument
    else if (0 <? num_units r) && (stride_bytes r <? packed_bytes) then Err kInvalidArgument
    else if kMaxLiveSegments <? i64 (num_intervals + num_units r) then Err kInvalidArgument
    else if (0 <? num_units r) && (stride_bytes r =? packed_bytes) then
      if MulWillOverflow (num_units r) packed_bytes then Err kInvalidArgument
      else
        let end_ := i64 (offset_bytes r + num_units r * packed_bytes) in
        if block_stride <? end_ then Err kInvalidArgument
        else Ok [(offset_bytes r, end_)]
    else mapM (unit_interval block_stride packed_bytes r) (seqZ 0 (num_units r)).

Fixpoint pool_intervals (block_stride : Z) (intervals : list (Z * Z)) (rs : list RegionSpec)
    : StatusOr (list (Z * Z)) :=
  match rs with
  | [] => Ok intervals
  | r :: rest =>
      new ← region_intervals block_stride (Z.of_nat (length intervals)) r;
      pool_intervals block_stride (intervals ++ new) rest
  end.

(** [std::pair]'s lexicographic order. *)
Definition interval_le (a b : Z * Z) : Prop := a.1 < b.1 ∨ (a.1 = b.1 ∧ a.2 <= b.2).
#[export] Instance interval_le_dec a b : Decision (interval_le a b).
Proof. unfold interval_le. apply _. Defined.

(** The coalescing loop; [back] is [physical.back()]. *)
Fixpoint coalesce (back : Z * Z) (intervals : list (Z * Z)) : StatusOr (list (Z * Z)) :=
  match intervals with
  | [] => Ok [back]
  | (start, end_) :: rest =>
      if start <? back.2 then Err kInvalidArgument
      else if start =? back.2 then coalesce (back.1, end_) rest
      else cons back <$> coalesce (start, end_) rest
  end.

Fixpoint number_segments (logical : Z) (physical : list (Z * Z)) : list PoolLiveSegment :=
  match physical with
  | [] => []
  | (start, end_) :: rest =>
      let size := i64 (end_ - start) in
      mkSegment logical start size :: number_segments (i64 (logical + size)) rest
  end.

Definition ExpandPoolLiveSegments (p : PoolSpec) : StatusOr (list PoolLiveSegment) :=
  let block_stride := block_stride_bytes p in
  if block_stride <=? 0 then Err kInvalidArgument
  else
    intervals ← pool_intervals block_stride [] (regions p);
    physical ← match merge_sort interval_le intervals with
               | [] => Ok []
               | first :: rest => coalesce first rest
               end;
    Ok (number_segments 0 physical).

(** ** Coordinate translation *)
Fixpoint find_physical (segments : list PoolLiveSegment) (physical_offset_ physical_end size : Z)
    : StatusOr (Z * Z) :=
  match segments with
  | [] => Err kInvalidArgument
  | segment :: rest =>
      let segment_end := i64 (physical_offset segment + segment_size segment) in
      if (physical_offset segment <=? physical_offset_) && (physical_end <=? segment_end) then
        let logical :=
          i64 (logical_offset segment + physical_offset_ - physical_offset segment) in
        Ok (logical, i64 (logical + size))
      else find_physical rest physical_offset_ physical_end size
  end.

Definition PhysicalLiveRangeToLogical (segments : list PoolLiveSegment)
    (physical_offset_ size : Z) : StatusOr (Z * Z) :=
  if (physical_offset_ <? 0) || (size <=? 0) then Err kInvalidArgument
  else find_physical segments physical_offset_ (i64 (physical_offset_ + size)) size.

(** [locate]: the physical position of a compact-live offset and the bytes left
    in its segment. *)
Fixpoint locate (segments : list PoolLiveSegment) (logical : Z) : StatusOr (Z * Z) :=
  match segments with
  | [] => Err kInvalidArgument
  | segment :: rest =>
      if (logical_offset segment <=? logical) &&
         (logical <? i64 (logical_offset segment + segment_size segment))
      then Ok (i64 (physical_offset segment + logical - logical_offset segment),
               i64 (logical_offset segment + segment_size segment - logical))
      else locate rest logical
  end.

(** The copy loop.  [budget] is how many more chunks fit under
    [kMaxLiveSegments]; one more is the expansion error. *)
Fixpoint translate_loop (budget : nat) (src_segments dst_segments : list PoolLiveSegment)
    (src_cursor dst_cursor remaining : Z) : StatusOr (list LiveCopyChunk) :=
  if negb (0 <? remaining) then Ok []
  else
    src_loc ← locate src_segments src_cursor;
    dst_loc ← locate dst_segments dst_cursor;
    let size := Z.min remaining (Z.min src_loc.2 dst_loc.2) in
    match budget with
    | O => Err kInvalidArgument
    | S budget =>
        cons (mkChunk src_loc.1 dst_loc.1 size) <$>
          translate_loop budget src_segments dst_segments
            (i64 (src_cursor + size)) (i64 (dst_cursor + size)) (remaining - size)
    end.

Definition TranslateLiveCopy (src_segments dst_segments : list PoolLiveSegment)
    (src_offset dst_offset size : Z) : StatusOr (list LiveCopyChunk) :=
  if (src_offset <? 0) || (dst_offset <? 0) || (size <=? 0) then Err kInvalidArgument
  else translate_loop (Z.to_nat kMaxLiveSegments) src_segments dst_segments
         src_offset dst_offset size.

(** ** Protos ([RegionSpecProto], [PoolSpecProto] of rpc/raiden_service.proto) *)
Record RegionSpecProto := mkRegionProto {
  rp_name : string; rp_offset_bytes : Z; rp_stride_bytes : Z; rp_unit_bytes : Z;
  rp_num_units : Z; rp_units_per_stride : Z;
}.
Record PoolSpecProto := mkPoolProto {
  pp_tag : string; pp_storage_index : Z; pp_base_offset_bytes : Z;
  pp_block_stride_bytes : Z; pp_num_blocks : Z; pp_regions : list RegionSpecProto;
  pp_dtype_tag : string;
}.

Definition RegionSpec_ToProto (r : RegionSpec) : RegionSpecProto :=
  mkRegionProto (region_name r) (offset_bytes r) (stride_bytes r) (unit_bytes r)
    (num_units r) (units_per_stride r).
Definition RegionSpecFromProto (proto : RegionSpecProto) : StatusOr RegionSpec :=
  Ok (mkRegion (rp_name proto) (rp_offset_bytes proto) (rp_stride_bytes proto)
        (rp_unit_bytes proto) (rp_num_units proto) (rp_units_per_stride proto)).

Definition PoolSpec_ToProto (p : PoolSpec) : PoolSpecProto :=
  mkPoolProto (tag p) (i64 (storage_index p)) (base_offset_bytes p) (block_stride_bytes p)
    (num_blocks p) (RegionSpec_ToProto <$> regions p) (dtype_tag p).
Definition PoolSpecFromProto (proto : PoolSpecProto) : StatusOr PoolSpec :=
  if pp_storage_index proto <? 0 then Err kInvalidArgument
  else
    regions ← mapM RegionSpecFromProto (pp_regions proto);
    Ok (mkPool (pp_tag proto) (u64 (pp_storage_index proto)) (pp_base_offset_bytes proto)
          (pp_block_stride_bytes proto) (pp_num_blocks proto) regions (pp_dtype_tag proto) 0).

(** ** Checked arithmetic is exact *)
Lemma MulWillOverflow_spec lhs rhs :
  0 <= lhs → 0 <= rhs → MulWillOverflow lhs rhs = (INT64_MAX <? lhs * rhs).
Proof.
  intros Hl Hr. unfold MulWillOverflow.
  destruct (Z.eqb_spec lhs 0) as [->|]; [done|].
  destruct (Z.eqb_spec rhs 0) as [->|]; [by rewrite Z.mul_0_r|]. cbn.
  rewrite Z.quot_div_nonneg by (unfold INT64_MAX; lia).
  pose proof (Z.div_mod INT64_MAX rhs ltac:(lia)) as Hdm.
  pose proof (Z.mod_pos_bound INT64_MAX rhs ltac:(lia)) as Hm.
  destruct (Z.ltb_spec (INT64_MAX `div` rhs) lhs), (Z.ltb_spec INT64_MAX (lhs * rhs)); nia.
Qed.

Lemma CheckedMul_ok lhs rhs z :
  CheckedMul lhs rhs = Ok z ↔ 0 <= lhs ∧ 0 <= rhs ∧ z = lhs * rhs ∧ lhs * rhs <= INT64_MAX.
Proof.
  unfold CheckedMul. destruct (Z.ltb_spec lhs 0), (Z.ltb_spec rhs 0); cbn; try naive_solver lia.
  rewrite MulWillOverflow_spec by done.
  destruct (Z.ltb_spec INT64_MAX (lhs * rhs)); naive_solver lia.
Qed.

Lemma CheckedAdd_ok lhs rhs z :
  CheckedAdd lhs rhs = Ok z ↔ 0 <= lhs ∧ 0 <= rhs ∧ z = lhs + rhs ∧ lhs + rhs <= INT64_MAX.
Proof.
  unfold CheckedAdd. destruct (Z.ltb_spec lhs 0), (Z.ltb_spec rhs 0); cbn; try naive_solver lia.
  destruct (Z.ltb_spec (INT64_MAX - rhs) lhs); naive_solver lia.
Qed.

(** ** What the geometry denotes *)
Definition packed (r : RegionSpec) : Z := unit_bytes r * units_per_stride r.

(** The live bytes of a region, as offsets into a block. *)
Definition region_live (r : RegionSpec) (x : Z) : Prop :=
  ∃ u, 0 <= u < num_units r ∧
    offset_bytes r + u * stride_bytes r <= x < offset_bytes r + u * stride_bytes r + packed r.
Definition block_live (p : PoolSpec) (x : Z) : Prop := ∃ r, r ∈ regions p ∧ region_live r x.

(** What validation against a slot of [slot] bytes establishes. *)
Record region_ok (slot : Z) (r : RegionSpec) : Prop := {
  rok_offset : 0 <= offset_bytes r;
  rok_stride : 0 <= stride_bytes r;
  rok_unit : 0 <= unit_bytes r;
  rok_num : 0 <= num_units r;
  rok_ups : 0 < units_per_stride r;
  rok_packed : 0 < num_units r → 0 < packed r <= stride_bytes r;
  rok_packed_max : packed r <= INT64_MAX;
  rok_extent : 0 < num_units r →
    offset_bytes r + (num_units r - 1) * stride_bytes r + packed r <= slot;
}.

Lemma RegionSpec_Validate_ok slot r :
  RegionSpec_Validate slot r = OkStatus → 0 < slot ∧ region_ok slot r.
Proof.
  unfold RegionSpec_Validate. case_bool_decide; [done|].
  repeat (case_match; [done|]).
  intros (pk & (? & ? & -> & ?)%CheckedMul_ok & H')%bind_Ok.
  case_match; [done|].
  apply bind_Ok in H' as (se & (? & ? & -> & ?)%CheckedMul_ok & H').
  apply bind_Ok in H' as (es & (? & ? & -> & ?)%CheckedAdd_ok & H').
  apply bind_Ok in H' as (ee & (? & ? & -> & ?)%CheckedAdd_ok & H').
  case_match; [done|]. split; [lia|].
  assert (units_per_stride r * unit_bytes r = packed r) as Hp by (unfold packed; lia).
  rewrite Hp in *.
  assert (0 < num_units r → 0 < packed r <= stride_bytes r) as Hpk.
  { intros. unfold packed in *. nia. }
  split; try lia; try done. intros Hn.
  destruct (Z.ltb_spec 0 (num_units r)); lia.
Qed.

Lemma region_live_range slot r x : region_ok slot r → region_live r x → 0 <= x < slot.
Proof.
  intros [H1 H2 H3 H4 H5 H6 _ H7] (u & Hu & Hx). specialize (H6 ltac:(lia)).
  specialize (H7 ltac:(lia)). nia.
Qed.

Lemma extent_end_ok slot r :
  region_ok slot r → slot <= INT64_MAX → 0 < num_units r →
  extent_end_bytes r = offset_bytes r + (num_units r - 1) * stride_bytes r + packed r.
Proof.
  intros [H1 H2 H3 H4 H5 H6 _ H7] Hs Hn. specialize (H6 Hn); specialize (H7 Hn).
  unfold extent_end_bytes.
  destruct (Z.eqb_spec (num_units r) 0); [lia|].
  destruct (Z.ltb_spec (num_units r) 0); [lia|].
  destruct (Z.ltb_spec (stride_bytes r) 0); [lia|].
  destruct (Z.ltb_spec (unit_bytes r) 0); [lia|].
  destruct (Z.ltb_spec (units_per_stride r) 0); [lia|].
  destruct (Z.ltb_spec (offset_bytes r) 0); [lia|]. cbn [orb].
  rewrite !MulWillOverflow_spec by lia.
  assert (units_per_stride r * unit_bytes r = packed r) as -> by (unfold packed; lia).
  assert (0 <= (num_units r - 1) * stride_bytes r) by nia.
  repeat (case_match; [lia|]). lia.
Qed.

Lemma validate_regions_ok slot rs :
  validate_regions slot rs = OkStatus → Forall (region_ok slot) rs.
Proof.
  induction rs as [|r rs IH]; simpl; [done|].
  destruct (RegionSpec_Validate slot r) as [[]|] eqn:E; [|done]. intros Hrs.
  constructor; [by apply RegionSpec_Validate_ok|by apply IH].
Qed.

Record pool_ok (p : PoolSpec) : Prop := {
  pok_stride : 0 < block_stride_bytes p <= INT64_MAX;
  pok_blocks : 0 < num_blocks p;
  pok_base : 0 <= base_offset_bytes p;
  pok_regions : Forall (region_ok (block_stride_bytes p)) (regions p);
}.

Lemma PoolSpec_Validate_ok storage p :
  block_stride_bytes p <= INT64_MAX →
  PoolSpec_Validate storage p = OkStatus →
  pool_ok p ∧ (0 <= storage → storage_extent_end_bytes p <= storage ∧
                              storage_extent_end_bytes p ≠ INT64_MAX).
Proof.
  intros Hs. unfold PoolSpec_Validate. case_bool_decide; [done|].
  repeat (case_match; [done|]). case_bool_decide; [done|].
  destruct (validate_regions _ _) as [[]|] eqn:E; [|done]. intros Hst.
  split; [split; [lia|lia|lia|by apply validate_regions_ok]|].
  intros Hsto. rewrite (proj2 (Z.leb_le _ _) Hsto) in Hst. do 2 (case_match; [done|]). lia.
Qed.

Lemma foldl_max_ge (rs : list RegionSpec) e :
  e <= foldl (λ e r, Z.max e (extent_end_bytes r)) e rs ∧
  (∀ r, r ∈ rs → extent_end_bytes r <= foldl (λ e r, Z.max e (extent_end_bytes r)) e rs).
Proof.
  revert e; induction rs as [|r0 rs IH]; intros e; simpl; [split; [lia|set_solver]|].
  destruct (IH (Z.max e (extent_end_bytes r0))) as [H1 H2]. split; [lia|].
  intros r [->|Hr]%elem_of_cons; [lia|auto].
Qed.

(** When the storage extent did not saturate, every block's regions end by it. *)
Lemma storage_extent_fits p b :
  pool_ok p → storage_extent_end_bytes p ≠ INT64_MAX → 0 <= b < num_blocks p →
  0 <= b * block_stride_bytes p ∧
  base_offset_bytes p + b * block_stride_bytes p <= INT64_MAX ∧
  storage_extent_end_bytes p <= INT64_MAX ∧
  ∀ r, r ∈ regions p → 0 < num_units r →
    base_offset_bytes p + b * block_stride_bytes p +
      (offset_bytes r + (num_units r - 1) * stride_bytes r + packed r)
    <= storage_extent_end_bytes p.
Proof.
  intros [Hst Hnb Hbase Hr] Hne Hb. rewrite Forall_forall in Hr.
  unfold storage_extent_end_bytes in *.
  destruct (foldl_max_ge (regions p) 0) as [H0 Hmax]. set (m := foldl _ _ _) in *. clearbody m.
  pose proof (Z.mul_le_mono_nonneg_r b (num_blocks p - 1) (block_stride_bytes p) ltac:(lia) ltac:(lia)).
  pose proof (Z.mul_nonneg_nonneg b (block_stride_bytes p) ltac:(lia) ltac:(lia)).
  repeat (case_match; [done|]). split; [done|]. split; [lia|]. split; [lia|].
  intros r Hin Hn. rewrite <- (extent_end_ok _ r (Hr r Hin) (proj2 Hst) Hn).
  specialize (Hmax r Hin). lia.
Qed.

(** C40: A pool that [PoolSpec::Validate] accepts is laid out safely: every live
    byte of every block lies inside its own block's stride and, when a storage
    size was given, inside the storage; live bytes of different blocks are
    different bytes. *)
Theorem PoolSpec_Validate_sound storage p :
  block_stride_bytes p <= INT64_MAX → PoolSpec_Validate storage p = OkStatus →
  (∀ b x, 0 <= b < num_blocks p → block_live p x →
     0 <= x < block_stride_bytes p ∧
     (0 <= storage →
      0 <= base_offset_bytes p + b * block_stride_bytes p + x < storage)) ∧
  (∀ b b' x x', 0 <= b < num_blocks p → 0 <= b' < num_blocks p →
     block_live p x → block_live p x' →
     base_offset_bytes p + b * block_stride_bytes p + x
       = base_offset_bytes p + b' * block_stride_bytes p + x' → b = b' ∧ x = x').
Proof.
  intros Hs Hv. destruct (PoolSpec_Validate_ok storage p Hs Hv) as [[Hst Hnb Hbase Hr] Hext].
  assert (∀ x, block_live p x → 0 <= x < block_stride_bytes p) as Hrange.
  { intros x (r & Hin & Hx). rewrite Forall_forall in Hr. by eapply region_live_range; eauto. }
  split; [|intros b b' x x' Hb Hb' Hx%Hrange Hx'%Hrange Heq;
    destruct (Z.lt_trichotomy b b') as [?|[->|?]]; nia].
  intros b x Hb Hx. split; [by apply Hrange|]. intros H0.
  pose proof (Hrange x Hx) as Hxr. destruct Hx as (r & Hin & u & Hu & Hxu).
  destruct (Hext H0) as [He Hne].
  destruct (storage_extent_fits p b (Build_pool_ok _ Hst Hnb Hbase Hr) Hne Hb) as (Hb0 & _ & _ & Hfit).
  specialize (Hfit r Hin ltac:(lia)). rewrite Forall_forall in Hr.
  destruct (Hr r Hin) as [_ Hstr _ _ _ Hpk _ _]. specialize (Hpk ltac:(lia)).
  pose proof (Z.mul_le_mono_nonneg_r u (num_units r - 1) (stride_bytes r) ltac:(lia) ltac:(lia)). lia.
Qed.

Definition region_ex : RegionSpec := mkRegion "kv" 16 32 8 3 2.
Definition pool_ex : PoolSpec := mkPool "fa" 0 64 128 4 [region_ex; mkRegion "s" 112 8 8 1 1] "bf16" 0.
Lemma PoolSpec_Validate_sound_witness :
  PoolSpec_Validate 1024 pool_ex = OkStatus ∧
  0 <= 64 + 3 * 128 + 95 < 1024.
Proof.
  split; [reflexivity|].
  apply (proj1 (PoolSpec_Validate_sound 1024 pool_ex ltac:(vm_compute; discriminate) eq_refl) 3 95);
    [cbn; lia| |lia].
  exists region_ex. split; [set_solver|]. exists 2. unfold packed. cbn. lia.
Defined.

(** ** Byte lists

    Runs of bytes as lists of offsets: the reference the segment code is
    compared with. *)
Definition run_bytes (start end_ : Z) : list Z := seqZ start (end_ - start).
Definition interval_bytes (l : list (Z * Z)) : list Z := l ≫= λ se, run_bytes se.1 se.2.
Definition segment_bytes (l : list PoolLiveSegment) : list Z :=
  l ≫= λ s, seqZ (physical_offset s) (segment_size s).
Definition region_bytes (r : RegionSpec) : list Z :=
  seqZ 0 (num_units r) ≫= λ u, seqZ (offset_bytes r + u * stride_bytes r) (packed r).
Definition block_bytes (p : PoolSpec) : list Z := regions p ≫= region_bytes.

Lemma run_bytes_app a b c : a <= b <= c → run_bytes a b ++ run_bytes b c = run_bytes a c.
Proof.
  intros H. unfold run_bytes. replace (c - a) with ((b - a) + (c - b)) by lia.
  rewrite seqZ_app by lia. do 2 f_equal. lia.
Qed.
Lemma elem_of_run_bytes a b x : x ∈ run_bytes a b ↔ a <= x < b.
Proof. unfold run_bytes. rewrite elem_of_seqZ. lia. Qed.

Lemma elem_of_region_bytes r x : x ∈ region_bytes r ↔ region_live r x.
Proof.
  unfold region_bytes, region_live. rewrite list_elem_of_bind.
  setoid_rewrite elem_of_seqZ. split; intros (u & H1 & H2); exists u; split; lia.
Qed.
Lemma elem_of_block_bytes p x : x ∈ block_bytes p ↔ block_live p x.
Proof.
  unfold block_bytes, block_live. rewrite list_elem_of_bind.
  setoid_rewrite elem_of_region_bytes. naive_solver.
Qed.

(** Units that abut form one run. *)
Lemma packed_units_bytes base size n :
  0 <= n → 0 <= size →
  (seqZ 0 n ≫= λ u, seqZ (base + u * size) size) = seqZ base (n * size).
Proof.
  intros Hn Hs. revert n Hn. apply natlike_ind; [done|]. intros n Hn IH.
  rewrite <- Z.add_1_r, seqZ_app, bind_app, IH by lia.
  replace ((n + 1) * size) with (n * size + size) by lia. rewrite seqZ_app by lia.
  f_equal. rewrite seqZ_cons by lia. change (seqZ _ (Z.pred 1)) with (@nil Z).
  rewrite bind_cons. simpl. by rewrite app_nil_r.
Qed.

Definition proper_interval (limit : Z) (se : Z * Z) : Prop := 0 <= se.1 < se.2 ∧ se.2 <= limit.

Lemma region_intervals_bytes stride n r new :
  region_ok stride r → stride <= INT64_MAX →
  region_intervals stride n r = Ok new →
  interval_bytes new = region_bytes r ∧ Forall (proper_interval stride) new.
Proof.
  intros [H1 H2 H3 H4 H5 H6 H7 H8] Hs. unfold region_intervals, interval_bytes, INT64_MAX in *.
  repeat (case_match; [done|]). fold (packed r) in *.
  case_match.
  - repeat (case_match; [done|]). intros [= <-]. assert (0 < num_units r) as Hn by lia.
    specialize (H6 Hn); specialize (H8 Hn).
    rewrite i64_small by nia. split; [|repeat constructor; cbn; nia].
    cbn. rewrite app_nil_r. unfold run_bytes, region_bytes.
    replace (stride_bytes r) with (packed r) by lia. rewrite packed_units_bytes by lia.
    f_equal. lia.
  - intros Hm%mapM_Ok. clear -H1 H2 H3 H4 H5 H6 H7 H8 Hs Hm. unfold region_bytes.
    assert (Forall (λ u, 0 <= u < num_units r) (seqZ 0 (num_units r))) as Hu.
    { apply Forall_forall. intros u ?%elem_of_seqZ. lia. }
    induction Hm as [|u [s e] us new Hi Hm IH]; [done|].
    apply Forall_cons_1 in Hu as [Hu0 Hu]. destruct (IH Hu) as [IHb IHp].
    specialize (H6 ltac:(lia)); specialize (H8 ltac:(lia)).
    assert (offset_bytes r + u * stride_bytes r + packed r <= stride) as Hin by nia.
    unfold unit_interval in Hi. case_match; [done|].
    rewrite (i64_small (offset_bytes r + _)) in Hi by nia. rewrite i64_small in Hi by nia.
    case_match; [done|]. simplify_eq. cbn. split.
    + rewrite IHb. f_equal. unfold run_bytes. f_equal. lia.
    + constructor; [|done]. split; cbn; nia.
Qed.

Lemma pool_intervals_bytes stride acc rs ints :
  Forall (region_ok stride) rs → stride <= INT64_MAX → Forall (proper_interval stride) acc →
  pool_intervals stride acc rs = Ok ints →
  interval_bytes ints = interval_bytes acc ++ (rs ≫= region_bytes) ∧
  Forall (proper_interval stride) ints.
Proof.
  intros Hrs Hs. revert acc; induction Hrs as [|r rs Hr _ IH]; intros acc Hacc; simpl.
  - intros [= <-]. by rewrite app_nil_r.
  - intros (new & Hnew & Hrest)%bind_Ok.
    destruct (region_intervals_bytes _ _ _ _ Hr Hs Hnew) as [Hb Hp].
    destruct (IH _ (Forall_app_2 _ _ _ Hacc Hp) Hrest) as [-> Hp']. split; [|done].
    unfold interval_bytes at 1. rewrite bind_app. fold (interval_bytes acc) (interval_bytes new).
    rewrite Hb. by rewrite <- app_assoc.
Qed.

#[export] Instance interval_le_total : Total interval_le.
Proof. intros a b. unfold interval_le. lia. Qed.
#[export] Instance interval_le_trans : Transitive interval_le.
Proof. intros a b c. unfold interval_le. lia. Qed.

(** Runs in increasing order with a gap between consecutive ones, all at or
    after [lo]. *)
Fixpoint separated (lo : Z) (l : list (Z * Z)) : Prop :=
  match l with
  | [] => True
  | (s, e) :: rest => lo <= s < e ∧ separated (e + 1) rest
  end.

Lemma separated_weaken lo lo' l : lo' <= lo → separated lo l → separated lo' l.
Proof. destruct l as [|[s e] l]; simpl; [done|]. intros ? [??]. split; [lia|done]. Qed.

Lemma coalesce_ok stride back l phys :
  Forall (proper_interval stride) (back :: l) → coalesce back l = Ok phys →
  interval_bytes phys = interval_bytes (back :: l) ∧ separated back.1 phys ∧
  Forall (proper_interval stride) phys.
Proof.
  revert back phys; induction l as [|[s e] l IH]; intros back phys Hp; simpl.
  { intros [= <-]. split; [done|]. split; [|done].
    apply Forall_cons_1 in Hp as [Hb _]. destruct back; unfold proper_interval in Hb; simpl in *.
    split; [lia|done]. }
  apply Forall_cons_1 in Hp as [Hb [Hse Hp]%Forall_cons_1].
  unfold proper_interval in Hb, Hse. cbn in Hse.
  destruct (Z.ltb_spec s back.2); [done|]. destruct (Z.eqb_spec s back.2) as [->|Hne].
  - intros E. destruct (IH (back.1, e) phys) as (-> & Hsep & Hp'); [|done|].
    { constructor; [|done]. split; cbn; lia. }
    split; [|done]. unfold interval_bytes. cbn.
    rewrite app_assoc, run_bytes_app by lia. done.
  - intros (phys' & E & ->)%fmap_Ok.
    destruct (IH (s, e) phys') as (Hb' & Hsep & Hp'); [by constructor|done|].
    cbn in Hsep. split; [unfold interval_bytes in *; cbn; by rewrite Hb'|].
    split; [|by constructor]. cbn. destruct back as [bs be]; cbn in *.
    split; [lia|]. eapply separated_weaken; [|done]. lia.
Qed.

Lemma coalesce_total stride back l :
  Forall (proper_interval stride) (back :: l) → Sorted interval_le (back :: l) →
  NoDup (interval_bytes (back :: l)) → ∃ phys, coalesce back l = Ok phys.
Proof.
  revert back; induction l as [|[s e] l IH]; intros back Hp Hs Hnd; simpl; [eauto|].
  apply Forall_cons_1 in Hp as [Hb [Hse Hp]%Forall_cons_1].
  unfold proper_interval in Hb, Hse. cbn in Hse.
  apply Sorted_inv in Hs as [Hs Hhd]. apply HdRel_inv in Hhd. unfold interval_le in Hhd. cbn in Hhd.
  unfold interval_bytes in Hnd. cbn in Hnd.
  assert (back.2 <= s) as Hle.
  { destruct (Z.lt_ge_cases s back.2); [|done]. exfalso.
    apply NoDup_app in Hnd as (_ & Hd & _). apply (Hd s).
    - apply elem_of_run_bytes. lia.
    - apply elem_of_app. left. apply elem_of_run_bytes. lia. }
  destruct (Z.ltb_spec s back.2); [lia|]. destruct (Z.eqb_spec s back.2) as [->|Hne].
  - apply IH.
    + constructor; [|done]. split; cbn; lia.
    + apply Sorted_inv in Hs as [Hs Hhd']. constructor; [done|].
      destruct l as [|[s' e'] l]; constructor. apply HdRel_inv in Hhd'.
      unfold interval_le in *. cbn in *. lia.
    + unfold interval_bytes. cbn. rewrite app_assoc, run_bytes_app in Hnd by lia. done.
  - destruct (IH (s, e)) as [phys ->]; [by constructor|done| |by eauto].
    by apply NoDup_app in Hnd as (_ & _ & Hnd).
Qed.

(** Segments: consecutive compact-live offsets, physical runs separated by gaps. *)
Fixpoint segs_wf (limit logical lo : Z) (segs : list PoolLiveSegment) : Prop :=
  match segs with
  | [] => True
  | s :: rest =>
      logical_offset s = logical ∧ lo <= physical_offset s ∧ 0 < segment_size s ∧
      physical_offset s + segment_size s <= limit ∧
      segs_wf limit (logical + segment_size s) (physical_offset s + segment_size s + 1) rest
  end.

Lemma number_segments_wf stride logical lo phys :
  stride <= INT64_MAX → 0 <= logical <= lo →
  separated lo phys → Forall (proper_interval stride) phys →
  segs_wf stride logical lo (number_segments logical phys) ∧
  segment_bytes (number_segments logical phys) = interval_bytes phys.
Proof.
  intros Hs. revert logical lo; induction phys as [|[s e] phys IH]; intros logical lo Hl Hsep Hp; [done|].
  apply Forall_cons_1 in Hp as [[He1 He2] Hp]. cbn in He1, He2. destruct Hsep as [Hse Hsep].
  unfold INT64_MAX in Hs. simpl. rewrite !i64_small by (rewrite ?i64_small by lia; lia).
  destruct (IH (logical + (e - s)) (e + 1)) as [Hw Hb]; [lia|done|done|].
  split.
  - cbn. replace (s + (e - s)) with e by lia. repeat split; try lia. done.
  - unfold segment_bytes, interval_bytes in *. cbn. rewrite Hb. done.
Qed.

Lemma segs_wf_bytes_sorted limit logical lo segs :
  segs_wf limit logical lo segs →
  StronglySorted Z.lt (segment_bytes segs) ∧ Forall (λ x, lo <= x < limit) (segment_bytes segs).
Proof.
  revert logical lo; induction segs as [|s segs IH]; intros logical lo.
  { split; constructor. }
  simpl. intros (_ & Hlo & Hsz & Hlim & Hw). destruct (IH _ _ Hw) as [Hs Hf].
  unfold segment_bytes in *. cbn. set (rest := segs ≫= _) in *.
  assert (∀ a n, a + n <= physical_offset s + segment_size s → lo <= a →
    StronglySorted Z.lt (seqZ a n ++ rest) ∧ Forall (λ x, lo <= x < limit) (seqZ a n ++ rest)) as Hgen.
  { intros a n Ha Hla. destruct (Z.le_gt_cases n 0) as [Hn|Hn].
    { rewrite seqZ_nil by lia. split; [done|]. eapply Forall_impl; [done|]. cbn. lia. }
    revert a Ha Hla. pattern n. apply (Zlt_lower_bound_ind _ 1); [|lia].
    clear n Hn. intros n IHn Hn a Ha Hla. rewrite seqZ_cons by lia. cbn.
    destruct (decide (n = 1)) as [->|].
    - change (seqZ (Z.succ a) (Z.pred 1)) with (@nil Z). split; constructor; try done.
      + eapply Forall_impl; [done|]. cbn. lia.
      + lia.
      + eapply Forall_impl; [done|]. cbn. lia.
    - destruct (IHn (Z.pred n) ltac:(lia) (Z.succ a)) as [H1 H2]; [lia|lia|].
      split; constructor; try done; [|lia]. apply Forall_app. split.
      + apply Forall_forall. intros x ?%elem_of_seqZ. lia.
      + eapply Forall_impl; [done|]. cbn. lia. }
  apply Hgen; lia.
Qed.

Lemma region_intervals_total stride n r :
  region_ok stride r → stride <= INT64_MAX → 0 <= n → n + num_units r <= kMaxLiveSegments →
  ∃ new, region_intervals stride n r = Ok new ∧ Z.of_nat (length new) <= num_units r.
Proof.
  intros [H1 H2 H3 H4 H5 H6 H7 H8] Hs Hn Hk.
  unfold region_intervals, INT64_MAX, kMaxLiveSegments in *.
  fold (packed r). rewrite MulWillOverflow_spec by lia. fold (packed r).
  rewrite i64_small by lia. unfold INT64_MAX.
  assert (num_units r = 0 ∨ 0 < packed r <= stride_bytes r) as Hcase by lia.
  repeat (case_match; [lia|]).
  case_match.
  - assert (0 < num_units r) as Hnu by lia. specialize (H6 Hnu); specialize (H8 Hnu).
    rewrite MulWillOverflow_spec by lia. unfold INT64_MAX.
    rewrite i64_small by nia. repeat (case_match; [nia|]). eexists; split; [done|]. cbn. lia.
  - exists ((λ u, (offset_bytes r + u * stride_bytes r,
                   offset_bytes r + u * stride_bytes r + packed r)) <$> seqZ 0 (num_units r)).
    split; [|rewrite length_fmap, length_seqZ; lia].
    apply mapM_total. intros u Hu%elem_of_seqZ. specialize (H6 ltac:(lia)); specialize (H8 ltac:(lia)).
    assert (offset_bytes r + u * stride_bytes r + packed r <= stride) as Hin by nia.
    assert (0 <= u * stride_bytes r) by nia.
    unfold unit_interval. rewrite MulWillOverflow_spec by lia. unfold INT64_MAX.
    rewrite (i64_small (offset_bytes r + _)) by lia. rewrite i64_small by lia.
    repeat (case_match; [lia|]). done.
Qed.

Definition total_units (rs : list RegionSpec) : Z := foldr (λ r n, num_units r + n) 0 rs.

Lemma pool_intervals_total stride acc rs :
  Forall (region_ok stride) rs → stride <= INT64_MAX →
  Z.of_nat (length acc) + total_units rs <= kMaxLiveSegments →
  ∃ ints, pool_intervals stride acc rs = Ok ints.
Proof.
  intros Hrs Hs. revert acc; induction Hrs as [|r rs Hr Hrs IH]; intros acc Hk; simpl; [eauto|].
  assert (0 <= total_units rs) as Hnn.
  { clear -Hrs. induction Hrs as [|r rs Hr _ IH]; simpl; [lia|].
    pose proof (rok_num _ _ Hr). lia. }
  cbn in Hk. fold (total_units rs) in Hk.
  destruct (region_intervals_total stride (Z.of_nat (length acc)) r) as (new & -> & Hlen);
    [done|done|lia|lia|]. cbn. apply IH. rewrite length_app. lia.
Qed.

Lemma interval_bytes_Permutation l l' : l ≡ₚ l' → interval_bytes l ≡ₚ interval_bytes l'.
Proof. apply bind_Permutation. Qed.

Lemma StronglySorted_lt_NoDup (l : list Z) : StronglySorted Z.lt l → NoDup l.
Proof.
  induction 1 as [|x l _ IH Hx]; constructor; [|done].
  intros Hin. rewrite Forall_forall in Hx. specialize (Hx x Hin). lia.
Qed.

(** What a successful expansion is made of. *)
Lemma Expand_inv p segs :
  pool_ok p → ExpandPoolLiveSegments p = Ok segs →
  segs_wf (block_stride_bytes p) 0 0 segs ∧ segment_bytes segs ≡ₚ block_bytes p.
Proof.
  intros [Hst _ _ Hrs]. unfold ExpandPoolLiveSegments. case_match; [done|].
  intros (ints & Hi & (phys & Hph & [= <-])%bind_Ok)%bind_Ok.
  destruct (pool_intervals_bytes _ [] _ _ Hrs (proj2 Hst) (Forall_nil_2 _) Hi) as [Hb Hp].
  cbn in Hb. fold (block_bytes p) in Hb.
  assert (Forall (proper_interval (block_stride_bytes p)) (merge_sort interval_le ints)) as Hp'.
  { by rewrite merge_sort_Permutation. }
  assert (interval_bytes (merge_sort interval_le ints) ≡ₚ block_bytes p) as Hb'.
  { rewrite <- Hb. apply interval_bytes_Permutation, merge_sort_Permutation. }
  destruct (merge_sort interval_le ints) as [|first rest].
  { simplify_eq. done. }
  destruct (coalesce_ok _ _ _ _ Hp' Hph) as (Heq & Hsep & Hpp).
  assert (0 <= first.1) by (apply Forall_cons_1 in Hp' as [[? _] _]; lia).
  destruct (number_segments_wf (block_stride_bytes p) 0 0 phys) as [Hw Hsb]; try done; [lia|..].
  { by eapply separated_weaken. }
  split; [done|]. rewrite Hsb, Heq. done.
Qed.

(** [ExpandPoolLiveSegments] enumerates the live bytes of a block: it
    succeeds exactly when no byte is claimed twice (under its expansion
    bound), and then its segments, read in compact-live order, list the live
    bytes in strictly increasing physical order, as maximal runs with
    consecutive compact-live offsets. *)
Theorem ExpandPoolLiveSegments_spec p :
  pool_ok p → total_units (regions p) <= kMaxLiveSegments →
  (NoDup (block_bytes p) ↔ is_ok (ExpandPoolLiveSegments p) = true) ∧
  ∀ segs, ExpandPoolLiveSegments p = Ok segs →
    StronglySorted Z.lt (segment_bytes segs) ∧
    (∀ x, x ∈ segment_bytes segs ↔ block_live p x) ∧
    segs_wf (block_stride_bytes p) 0 0 segs.
Proof.
  intros Hok Hk.
  assert (∀ segs, ExpandPoolLiveSegments p = Ok segs →
    StronglySorted Z.lt (segment_bytes segs) ∧
    (∀ x, x ∈ segment_bytes segs ↔ block_live p x) ∧
    segs_wf (block_stride_bytes p) 0 0 segs) as Hsound.
  { intros segs Hs. destruct (Expand_inv p segs Hok Hs) as [Hw Hb].
    split; [by eapply segs_wf_bytes_sorted|]. split; [|done].
    intros x. rewrite Hb. apply elem_of_block_bytes. }
  split; [|done]. split.
  - intros Hnd. destruct Hok as [Hst _ _ Hrs].
    destruct (pool_intervals_total (block_stride_bytes p) [] (regions p)) as [ints Hi];
      [done|lia|cbn; lia|].
    destruct (pool_intervals_bytes _ [] _ _ Hrs (proj2 Hst) (Forall_nil_2 _) Hi) as [Hb Hp].
    cbn in Hb. fold (block_bytes p) in Hb. rewrite <- Hb in Hnd.
    unfold ExpandPoolLiveSegments. case_match; [lia|]. rewrite Hi. cbn.
    pose proof (Sorted_merge_sort interval_le ints) as Hsort.
    pose proof (merge_sort_Permutation interval_le ints) as HP.
    destruct (merge_sort interval_le ints) as [|first rest]; [done|].
    destruct (coalesce_total (block_stride_bytes p) first rest) as [phys ->]; [|done| |done].
    + by rewrite HP.
    + by rewrite (interval_bytes_Permutation _ _ HP).
  - intros Hisok. destruct (ExpandPoolLiveSegments p) as [segs|] eqn:E; [|done].
    destruct (Expand_inv p segs Hok E) as [Hw Hb]. rewrite <- Hb.
    eapply StronglySorted_lt_NoDup, segs_wf_bytes_sorted. done.
Qed.

Lemma ExpandPoolLiveSegments_spec_witness :
  is_ok (ExpandPoolLiveSegments pool_ex) = true ∧
  StronglySorted Z.lt (segment_bytes [mkSegment 0 16 16; mkSegment 16 48 16;
                                      mkSegment 32 80 16; mkSegment 48 112 8]).
Proof.
  split; [reflexivity|].
  refine (proj1 (proj2 (ExpandPoolLiveSegments_spec pool_ex _ _) _ _)).
  - apply (PoolSpec_Validate_ok 1024); [vm_compute; discriminate|reflexivity].
  - vm_compute. discriminate.
  - vm_compute. reflexivity.
Defined.

(** ** Translation between compact-live and physical offsets

    The compact-live coordinate of a byte is its index in [segment_bytes]. *)
Definition live_total (segs : list PoolLiveSegment) : Z := Z.of_nat (length (segment_bytes segs)).

Lemma segment_bytes_cons s segs :
  segment_bytes (s :: segs) =
    seqZ (physical_offset s) (segment_size s) ++ segment_bytes segs.
Proof. done. Qed.

Lemma take_seqZ_Z p a k : 0 <= k <= a → take (Z.to_nat k) (seqZ p a) = seqZ p k.
Proof.
  intros H. replace a with (k + (a - k)) by lia. rewrite seqZ_app by lia.
  rewrite take_app_le by (rewrite length_seqZ; lia).
  apply take_ge. rewrite length_seqZ. lia.
Qed.
Lemma drop_seqZ_Z p a k : 0 <= k <= a → drop (Z.to_nat k) (seqZ p a) = seqZ (p + k) (a - k).
Proof.
  intros H. replace a with (k + (a - k)) at 1 by lia. rewrite seqZ_app by lia.
  rewrite drop_app_length' by (rewrite length_seqZ; lia). done.
Qed.

(** How many segments end after [l]: what bounds the number of chunks. *)
Definition segs_after (segs : list PoolLiveSegment) (l : Z) : nat :=
  length (filter (λ s, l < logical_offset s + segment_size s) segs).

Lemma segs_after_mono segs l l' : l <= l' → (segs_after segs l' <= segs_after segs l)%nat.
Proof.
  intros H. unfold segs_after. induction segs as [|s segs IH]; [done|].
  rewrite !filter_cons. repeat case_decide; simpl; lia.
Qed.

Lemma locate_ok limit lg lo segs l :
  segs_wf limit lg lo segs → limit <= INT64_MAX → 0 <= lg <= lo →
  lg <= l < lg + live_total segs →
  ∃ p a, locate segs l = Ok (p, a) ∧ 0 < a ∧ l + a <= lg + live_total segs ∧
    take (Z.to_nat a) (drop (Z.to_nat (l - lg)) (segment_bytes segs)) = seqZ p a ∧
    (∀ l', l + a <= l' → (segs_after segs l' < segs_after segs l)%nat).
Proof.
  intros Hw Hlim. revert lg lo Hw; induction segs as [|s segs IH]; intros lg lo Hw Hlg Hl.
  { unfold live_total in Hl. simpl in Hl. lia. }
  unfold live_total in Hl |- *. rewrite segment_bytes_cons, length_app, length_seqZ in *.
  destruct Hw as (Hlog & Hlo & Hsz & Hle & Hw). unfold INT64_MAX in *. simpl. rewrite Hlog.
  rewrite (i64_small (lg + segment_size s)) by lia.
  destruct (Z.leb_spec lg l); [|lia]. destruct (Z.ltb_spec l (lg + segment_size s)) as [Hin|Hout]; cbn [andb].
  - rewrite !i64_small by lia. exists (physical_offset s + l - lg), (lg + segment_size s - l).
    split; [done|]. split; [lia|]. split; [lia|]. split.
    + rewrite drop_app_le by (rewrite length_seqZ; lia). rewrite drop_seqZ_Z by lia.
      rewrite take_app_le by (rewrite length_seqZ; lia). rewrite take_seqZ_Z by lia. f_equal; lia.
    + intros l' Hl'. unfold segs_after. rewrite !filter_cons, Hlog.
      rewrite decide_False, decide_True by lia. simpl.
      pose proof (segs_after_mono segs l l' ltac:(lia)). unfold segs_after in *. lia.
  - destruct (IH (lg + segment_size s) (physical_offset s + segment_size s + 1))
      as (p & a & E & Ha & Hb & Ht & Hm); [done|lia|unfold live_total; lia|].
    exists p, a. split; [done|]. split; [done|]. unfold live_total in Hb. split; [lia|]. split.
    + rewrite drop_app_ge by (rewrite length_seqZ; lia). rewrite length_seqZ, <- Ht.
      do 2 f_equal. lia.
    + intros l' Hl'. specialize (Hm l' Hl'). unfold segs_after in *. rewrite !filter_cons, Hlog.
      rewrite !decide_False by lia. done.
Qed.

Definition src_bytes (chunks : list LiveCopyChunk) : list Z :=
  chunks ≫= λ c, seqZ (src_physical c) (chunk_size c).
Definition dst_bytes (chunks : list LiveCopyChunk) : list Z :=
  chunks ≫= λ c, seqZ (dst_physical c) (chunk_size c).

(** [n] bytes of [l] from index [i]. *)
Definition slice (l : list Z) (i n : Z) : list Z := take (Z.to_nat n) (drop (Z.to_nat i) l).

Lemma slice_split l i k n :
  0 <= i → 0 <= k <= n → slice l i n = slice l i k ++ slice l (i + k) (n - k).
Proof.
  intros Hi Hk. unfold slice. replace (Z.to_nat n) with (Z.to_nat k + Z.to_nat (n - k))%nat by lia.
  rewrite <- take_take_drop, drop_drop. do 3 f_equal. lia.
Qed.
Lemma slice_prefix l i a k p :
  0 <= k <= a → slice l i a = seqZ p a → slice l i k = seqZ p k.
Proof.
  intros Hk H. unfold slice in *. rewrite <- (take_seqZ_Z p a k Hk), <- H, take_take.
  f_equal. lia.
Qed.

Lemma translate_loop_ok limit limit' src dst budget sc dc remaining :
  segs_wf limit 0 0 src → segs_wf limit' 0 0 dst →
  limit <= INT64_MAX → limit' <= INT64_MAX →
  0 <= sc → 0 <= dc → 0 <= remaining →
  sc + remaining <= live_total src → dc + remaining <= live_total dst →
  (0 < remaining → (segs_after src sc + segs_after dst dc <= budget)%nat) →
  live_total src <= INT64_MAX → live_total dst <= INT64_MAX →
  ∃ chunks, translate_loop budget src dst sc dc remaining = Ok chunks ∧
    src_bytes chunks = slice (segment_bytes src) sc remaining ∧
    dst_bytes chunks = slice (segment_bytes dst) dc remaining ∧
    Forall (λ c, 0 < chunk_size c) chunks.
Proof.
  intros Hws Hwd Hl Hl'. revert sc dc remaining.
  induction budget as [|budget IH]; intros sc dc rem Hsc Hdc Hrem Hts Htd Hbud Hm1 Hm2; simpl;
    (destruct (Z.ltb_spec 0 rem) as [Hpos|Hz]; cbn [negb];
     [|assert (rem = 0) as -> by lia; exists []; done]);
    destruct (locate_ok limit 0 0 src sc Hws Hl) as (p & a & -> & Ha & Hab & Htk & Hdec); try lia;
    destruct (locate_ok limit' 0 0 dst dc Hwd Hl') as (p' & a' & -> & Ha' & Hab' & Htk' & Hdec'); try lia;
    cbn [mbind StatusOr_bind fst snd]; specialize (Hbud Hpos).
  { specialize (Hdec (sc + a) ltac:(lia)). lia. }
  rewrite Z.sub_0_r in Htk, Htk'. set (k := Z.min rem (Z.min a a')).
  unfold INT64_MAX in *. rewrite !i64_small by lia.
  destruct (IH (sc + k) (dc + k) (rem - k)) as (chunks & -> & Hsb & Hdb & Hf); try lia.
  { intros Hrest. destruct (Z.le_gt_cases a a').
    - specialize (Hdec (sc + k) ltac:(lia)).
      pose proof (segs_after_mono dst dc (dc + k) ltac:(lia)). lia.
    - specialize (Hdec' (dc + k) ltac:(lia)).
      pose proof (segs_after_mono src sc (sc + k) ltac:(lia)). lia. }
  eexists. split; [done|].
  rewrite (slice_split (segment_bytes src) sc k), (slice_split (segment_bytes dst) dc k) by lia.
  rewrite (slice_prefix _ sc a k p), (slice_prefix _ dc a' k p') by (lia || done).
  rewrite <- Hsb, <- Hdb. split; [done|]. split; [done|]. constructor; [cbn; lia|done].
Qed.

(** Whatever the budget, a translation that succeeds is the byte-by-byte copy. *)
Lemma translate_loop_sound limit limit' src dst budget sc dc remaining chunks :
  segs_wf limit 0 0 src → segs_wf limit' 0 0 dst →
  limit <= INT64_MAX → limit' <= INT64_MAX →
  0 <= sc → 0 <= dc → 0 <= remaining →
  sc + remaining <= live_total src → dc + remaining <= live_total dst →
  live_total src <= INT64_MAX → live_total dst <= INT64_MAX →
  translate_loop budget src dst sc dc remaining = Ok chunks →
  src_bytes chunks = slice (segment_bytes src) sc remaining ∧
  dst_bytes chunks = slice (segment_bytes dst) dc remaining ∧
  Forall (λ c, 0 < chunk_size c) chunks.
Proof.
  intros Hws Hwd Hl Hl'. revert sc dc remaining chunks.
  induction budget as [|budget IH]; intros sc dc rem chunks Hsc Hdc Hrem Hts Htd Hm1 Hm2; simpl;
    (destruct (Z.ltb_spec 0 rem) as [Hpos|Hz]; cbn [negb];
     [|assert (rem = 0) as -> by lia; intros [= <-]; done]);
    destruct (locate_ok limit 0 0 src sc Hws Hl) as (p & a & -> & Ha & Hab & Htk & _); try lia;
    destruct (locate_ok limit' 0 0 dst dc Hwd Hl') as (p' & a' & -> & Ha' & Hab' & Htk' & _); try lia;
    cbn [mbind StatusOr_bind fst snd]; [done|].
  rewrite Z.sub_0_r in Htk, Htk'. set (k := Z.min rem (Z.min a a')).
  unfold INT64_MAX in *. rewrite !i64_small by lia.
  intros (rest & E & ->)%fmap_Ok.
  destruct (IH (sc + k) (dc + k) (rem - k) rest) as (Hsb & Hdb & Hf); try lia; try done.
  rewrite (slice_split (segment_bytes src) sc k), (slice_split (segment_bytes dst) dc k) by lia.
  rewrite (slice_prefix _ sc a k p), (slice_prefix _ dc a' k p') by (lia || done).
  rewrite <- Hsb, <- Hdb. split; [done|]. split; [done|]. constructor; [cbn; lia|done].
Qed.

Lemma segs_after_le segs l : (segs_after segs l <= length segs)%nat.
Proof. apply length_filter. Qed.

Lemma live_total_bound limit lg lo segs :
  segs_wf limit lg lo segs → lo <= limit → live_total segs <= limit - lo.
Proof.
  revert lg lo; induction segs as [|s segs IH]; intros lg lo; simpl; [unfold live_total; cbn; lia|].
  intros (_ & Hlo & Hsz & Hle & Hw) _. unfold live_total in *.
  rewrite segment_bytes_cons, length_app, length_seqZ.
  destruct segs as [|s' segs]; [cbn; lia|].
  assert (physical_offset s + segment_size s + 1 <= limit) as Hlim by (cbn in Hw; lia).
  specialize (IH _ _ Hw Hlim). lia.
Qed.

(** [TranslateLiveCopy] is the byte-by-byte copy: for two expanded layouts
    and a copy that lies inside both compact-live spaces, it succeeds, and its
    physical chunks, in order, read exactly the source bytes with compact-live
    offsets src_offset .. src_offset + size - 1 and write exactly the
    corresponding destination bytes; no chunk is empty. *)
Theorem TranslateLiveCopy_spec limit limit' src dst src_offset dst_offset size :
  segs_wf limit 0 0 src → segs_wf limit' 0 0 dst →
  0 <= limit <= INT64_MAX → 0 <= limit' <= INT64_MAX →
  Z.of_nat (length src + length dst) <= kMaxLiveSegments →
  0 <= src_offset → 0 <= dst_offset → 0 < size →
  src_offset + size <= live_total src → dst_offset + size <= live_total dst →
  ∃ chunks, TranslateLiveCopy src dst src_offset dst_offset size = Ok chunks ∧
    src_bytes chunks = slice (segment_bytes src) src_offset size ∧
    dst_bytes chunks = slice (segment_bytes dst) dst_offset size ∧
    Forall (λ c, 0 < chunk_size c) chunks.
Proof.
  intros Hw Hw' Hl Hl' Hk Hs Hd Hsz Hts Htd.
  pose proof (live_total_bound _ _ _ _ Hw (proj1 Hl)).
  pose proof (live_total_bound _ _ _ _ Hw' (proj1 Hl')).
  unfold TranslateLiveCopy. case_match; [lia|].
  eapply translate_loop_ok; try done; try lia. intros _.
  pose proof (segs_after_le src src_offset). pose proof (segs_after_le dst dst_offset). lia.
Qed.

Lemma TranslateLiveCopy_spec_witness :
  ∃ chunks, TranslateLiveCopy [mkSegment 0 8 4; mkSegment 4 16 4] [mkSegment 0 0 6; mkSegment 6 10 9]
    1 2 6 = Ok chunks ∧
    src_bytes chunks = slice [8; 9; 10; 11; 16; 17; 18; 19] 1 6.
Proof.
  destruct (TranslateLiveCopy_spec 32 32 [mkSegment 0 8 4; mkSegment 4 16 4]
    [mkSegment 0 0 6; mkSegment 6 10 9] 1 2 6) as (chunks & E & Hb & _);
    try (vm_compute; intuition congruence).
  exists chunks. exact (conj E Hb).
Defined.

(** *** Physical to compact-live *)
Lemma find_physical_ok limit lg lo segs phys size :
  segs_wf limit lg lo segs → limit <= INT64_MAX → 0 <= lg <= lo → 0 < size →
  (∀ x, phys <= x < phys + size → x ∈ segment_bytes segs) →
  ∃ l, find_physical segs phys (phys + size) size = Ok (l, l + size) ∧
    lg <= l ∧ slice (segment_bytes segs) (l - lg) size = seqZ phys size.
Proof.
  intros Hw Hlim. revert lg lo Hw; induction segs as [|s segs IH]; intros lg lo Hw Hlg Hsz Hin.
  { specialize (Hin phys ltac:(lia)). set_solver. }
  pose proof (segs_wf_bytes_sorted _ _ _ _ Hw) as [_ Hr]. rewrite Forall_forall in Hr.
  destruct Hw as (Hlog & Hlo & Hs & Hle & Hw). unfold INT64_MAX in *.
  pose proof (segs_wf_bytes_sorted _ _ _ _ Hw) as [_ Hrest]. rewrite Forall_forall in Hrest.
  pose proof (Hr phys (Hin phys ltac:(lia))) as Hp1.
  pose proof (Hr (phys + size - 1) (Hin (phys + size - 1) ltac:(lia))) as Hp2.
  rewrite segment_bytes_cons in Hin |- *. setoid_rewrite elem_of_app in Hin.
  setoid_rewrite elem_of_seqZ in Hin. simpl. rewrite (i64_small (physical_offset s + _)) by lia.
  destruct (Z.leb_spec (physical_offset s) phys) as [H1|H1];
    destruct (Z.leb_spec (phys + size) (physical_offset s + segment_size s)) as [H2|H2]; cbn [andb].
  - assert (logical_offset s = lg) as -> by done.
    rewrite (i64_small (lg + phys - physical_offset s)) by lia. rewrite i64_small by lia.
    eexists. split; [done|]. split; [lia|]. unfold slice.
    rewrite drop_app_le by (rewrite length_seqZ; lia). rewrite drop_seqZ_Z by lia.
    rewrite take_app_le by (rewrite length_seqZ; lia). rewrite take_seqZ_Z by lia. f_equal; lia.
  - (* crosses or lies after this run *)
    assert (physical_offset s + segment_size s <= phys) as Hafter.
    { destruct (Z.le_gt_cases (physical_offset s + segment_size s) phys); [done|].
      destruct (Hin (physical_offset s + segment_size s)) as [?|Hx]; [lia|lia|].
      specialize (Hrest _ Hx). lia. }
    destruct (IH (lg + segment_size s) (physical_offset s + segment_size s + 1))
      as (l & -> & Hl & Hsl); [done|lia|done| |].
    { intros x Hx. destruct (Hin x Hx); [lia|done]. }
    exists l. split; [done|]. split; [lia|]. unfold slice in *.
    rewrite drop_app_ge by (rewrite length_seqZ; lia). rewrite length_seqZ, <- Hsl. do 2 f_equal. lia.
  - destruct (Hin phys ltac:(lia)) as [?|Hx]; [lia|]. specialize (Hrest _ Hx). lia.
  - destruct (Hin phys ltac:(lia)) as [?|Hx]; [lia|]. specialize (Hrest _ Hx). lia.
Qed.

Lemma find_physical_live limit lg lo segs phys size r :
  segs_wf limit lg lo segs → limit <= INT64_MAX → 0 <= lo → 
  find_physical segs phys (phys + size) size = Ok r →
  ∀ x, phys <= x < phys + size → x ∈ segment_bytes segs.
Proof.
  intros Hw Hlim. revert lg lo Hw; induction segs as [|s segs IH]; intros lg lo Hw Hlo0; [done|].
  destruct Hw as (Hlog & Hlo & Hs & Hle & Hw). unfold INT64_MAX in *. simpl.
  rewrite i64_small by lia. intros E x Hx.
  change (x ∈ seqZ (physical_offset s) (segment_size s) ++ segment_bytes segs).
  apply elem_of_app. case_match.
  - left. apply elem_of_seqZ. lia.
  - right. eapply IH; [done|lia|done|done].
Qed.

(** [PhysicalLiveRangeToLogical] inverts the expansion: it accepts a
    physical range exactly when every byte of it is live, and the compact-live
    interval it returns indexes exactly those bytes. *)
Theorem PhysicalLiveRangeToLogical_spec limit segs phys size :
  segs_wf limit 0 0 segs → limit <= INT64_MAX → 0 <= phys → 0 < size →
  phys + size <= INT64_MAX →
  (is_ok (PhysicalLiveRangeToLogical segs phys size) = true ↔
     ∀ x, phys <= x < phys + size → x ∈ segment_bytes segs) ∧
  ∀ l l', PhysicalLiveRangeToLogical segs phys size = Ok (l, l') →
    0 <= l ∧ l' = l + size ∧ slice (segment_bytes segs) l size = seqZ phys size.
Proof.
  intros Hw Hlim Hp Hs Hmax. unfold INT64_MAX in Hmax.
  assert (PhysicalLiveRangeToLogical segs phys size
          = find_physical segs phys (phys + size) size) as ->.
  { unfold PhysicalLiveRangeToLogical. case_match; [lia|]. by rewrite i64_small by lia. }
  assert (∀ r, find_physical segs phys (phys + size) size = Ok r →
    ∀ x, phys <= x < phys + size → x ∈ segment_bytes segs) as Hlive.
  { intros r. by eapply find_physical_live. }
  split.
  - split; [destruct (find_physical _ _ _ _) eqn:E; [eauto|done]|].
    intros Hin. destruct (find_physical_ok limit 0 0 segs phys size Hw Hlim) as (l & -> & _); [lia|done|done|done].
  - intros l l' E.
    destruct (find_physical_ok limit 0 0 segs phys size Hw Hlim) as (l0 & E' & Hl & Hsl);
      [lia|done|by eapply Hlive|].
    rewrite E in E'. simplify_eq. rewrite Z.sub_0_r in Hsl. done.
Qed.

Lemma PhysicalLiveRangeToLogical_spec_witness :
  is_ok (PhysicalLiveRangeToLogical [mkSegment 0 8 4; mkSegment 4 16 4] 17 2) = true ∧
  slice [8; 9; 10; 11; 16; 17; 18; 19] 5 2 = seqZ 17 2.
Proof.
  split; [reflexivity|].
  exact (proj2 (proj2 (proj2 (PhysicalLiveRangeToLogical_spec 32 [mkSegment 0 8 4; mkSegment 4 16 4] 17 2
    ltac:(cbn; lia) ltac:(unfold INT64_MAX; lia) ltac:(lia) ltac:(lia) ltac:(unfold INT64_MAX; lia))
    5 7 eq_refl))).
Defined.

(** ** The cover test *)
Lemma RegionCoversOffset_spec slot r c :
  region_ok slot r → slot <= INT64_MAX → 0 <= c < 2 ^ 64 →
  match RegionCoversOffset r c with
  | Some e => c < e ∧ ∀ x, c <= x < e → region_live r x
  | None => ¬ region_live r c
  end.
Proof.
  intros [H1 H2 H3 H4 H5 H6 H7 H8] Hs Hc. unfold RegionCoversOffset.
  destruct (Z.leb_spec (num_units r) 0) as [Hn|Hn]; [intros (u & ? & _); lia|].
  specialize (H6 Hn); specialize (H8 Hn). unfold INT64_MAX in *.
  assert (1 <= unit_bytes r <= packed r) by (unfold packed in *; nia).
  assert (1 <= units_per_stride r <= packed r) by (unfold packed in *; nia).
  assert (num_units r - 1 <= (num_units r - 1) * stride_bytes r) by nia.
  assert (offset_bytes r + packed r <= slot) by nia.
  rewrite (u64_small (offset_bytes r)), (u64_small (num_units r)), (u64_small (unit_bytes r)),
    (u64_small (units_per_stride r)) by lia.
  fold (packed r). rewrite (u64_small (packed r)) by lia.
  destruct (Z.ltb_spec c (offset_bytes r)) as [Hlt|Hge]; cbn [orb].
  { intros (u & Hu & Hx). nia. }
  destruct (Z.eqb_spec (packed r) 0); [lia|].
  destruct (Z.ltb_spec 1 (num_units r)) as [Hmany|Hone].
  - assert (stride_bytes r <= slot) by nia. rewrite (u64_small (stride_bytes r)) by lia.
    destruct (Z.eqb_spec (stride_bytes r) 0); [lia|].
    rewrite (u64_small (c - offset_bytes r)) by lia.
    pose proof (Z.div_mod (c - offset_bytes r) (stride_bytes r) ltac:(lia)) as Hdm.
    pose proof (Z.mod_pos_bound (c - offset_bytes r) (stride_bytes r) ltac:(lia)) as Hmod.
    assert (∀ u, offset_bytes r + u * stride_bytes r <= c
                 < offset_bytes r + u * stride_bytes r + packed r →
                 u = (c - offset_bytes r) `div` stride_bytes r) as Huniq.
    { intros u Hu. apply Z.div_unique with (c - offset_bytes r - u * stride_bytes r); lia. }
    assert (0 <= (c - offset_bytes r) `div` stride_bytes r) by (apply Z.div_pos; lia).
    set (q := (c - offset_bytes r) `div` stride_bytes r) in *. clearbody q.
    destruct (Z.leb_spec (num_units r) q) as [Hq|Hq].
    { intros (u & Hu & Hx). rewrite (Huniq u Hx) in Hu. lia. }
    pose proof (Z.mul_le_mono_nonneg_r q (num_units r - 1) (stride_bytes r) ltac:(lia) ltac:(lia)).
    pose proof (Z.mul_nonneg_nonneg q (stride_bytes r) ltac:(lia) ltac:(lia)).
    rewrite (u64_small (q * stride_bytes r)) by lia.
    rewrite (u64_small (offset_bytes r + _)) by lia. rewrite u64_small by lia.
    destruct (Z.ltb_spec c (offset_bytes r + q * stride_bytes r)); [lia|]. cbn [orb].
    destruct (Z.leb_spec (offset_bytes r + q * stride_bytes r + packed r) c).
    + intros (u & Hu & Hx). rewrite (Huniq u Hx) in Hx. lia.
    + split; [lia|]. intros x Hx. exists q. lia.
  - assert (num_units r = 1) as Hn1 by lia. rewrite Z.mul_0_l.
    change (u64 0) with 0. rewrite Z.add_0_r, u64_small, u64_small by lia.
    destruct (Z.ltb_spec c (offset_bytes r)); [lia|]. cbn [orb].
    destruct (Z.leb_spec (offset_bytes r + packed r) c).
    + intros (u & Hu & Hx). assert (u = 0) as -> by lia. lia.
    + split; [lia|]. intros x Hx. exists 0. lia.
Qed.

Definition regions_live (rs : list RegionSpec) (x : Z) : Prop := ∃ r, r ∈ rs ∧ region_live r x.

(** One round: the cursor stays exactly when its byte is not live, and
    otherwise skips live bytes only. *)
Lemma cover_next_spec slot rs end_ c :
  Forall (region_ok slot) rs → slot <= INT64_MAX → 0 <= c < end_ → end_ < 2 ^ 64 →
  c <= cover_next rs end_ c <= end_ ∧
  (∀ x, c <= x < cover_next rs end_ c → regions_live rs x) ∧
  (cover_next rs end_ c = c → ¬ regions_live rs c).
Proof.
  intros Hrs Hs Hc Hend. unfold cover_next.
  assert (∀ next, c <= next <= end_ → (∀ x, c <= x < next → regions_live rs x) →
    ∀ l, (∀ r, r ∈ l → r ∈ rs) →
    let n := foldl (λ next r, match RegionCoversOffset r c with
               | Some covered_end => Z.max next (Z.min covered_end end_)
               | None => next end) next l in
    next <= n <= end_ ∧ (∀ x, c <= x < n → regions_live rs x) ∧
    (n = c → ∀ r, r ∈ l → ¬ region_live r c)) as Hgen.
  { intros next Hn Hl l. revert next Hn Hl. induction l as [|r l IH]; intros next Hn Hl Hsub.
    { split; [cbn; lia|]. split; [done|]. set_solver. }
    rewrite Forall_forall in Hrs.
    pose proof (RegionCoversOffset_spec slot r c (Hrs r (Hsub r ltac:(set_solver))) Hs ltac:(lia)) as Hcov.
    cbn [foldl]. destruct (RegionCoversOffset r c) as [e|].
    - destruct Hcov as [He Hlive].
      destruct (IH (Z.max next (Z.min e end_))) as (H1 & H2 & H3); [lia| |set_solver|].
      { intros x Hx. destruct (Z.lt_ge_cases x next); [apply Hl; lia|].
        exists r. split; [set_solver|]. apply Hlive. lia. }
      split; [lia|]. split; [done|]. lia.
    - destruct (IH next) as (H1 & H2 & H3); [lia|done|set_solver|].
      split; [done|]. split; [done|]. intros Heq r' [->|Hr']%elem_of_cons; [done|eauto]. }
  destruct (Hgen c ltac:(lia) ltac:(lia) rs ltac:(done)) as (H1 & H2 & H3).
  split; [done|]. split; [done|]. intros Heq (r & Hr & Hlive). by eapply H3.
Qed.

Lemma cover_loop_spec slot fuel rs c end_ :
  Forall (region_ok slot) rs → slot <= INT64_MAX → 0 <= c → end_ < 2 ^ 64 →
  end_ - c <= Z.of_nat fuel →
  cover_loop fuel rs c end_ = true ↔ ∀ x, c <= x < end_ → regions_live rs x.
Proof.
  intros Hrs Hs. revert c; induction fuel as [|fuel IH]; intros c Hc Hend Hf; simpl.
  { destruct (Z.ltb_spec c end_); [lia|]. cbn. split; [lia|done]. }
  destruct (Z.ltb_spec c end_) as [Hlt|]; cbn [negb]; [|split; [lia|done]].
  destruct (cover_next_spec slot rs end_ c Hrs Hs ltac:(lia) Hend) as (H1 & H2 & H3).
  destruct (Z.eqb_spec (cover_next rs end_ c) c) as [Heq|Hne].
  { split; [done|]. intros Hall. destruct (H3 Heq (Hall c ltac:(lia))). }
  rewrite IH by lia. split; intros Hall x Hx; [|apply Hall; lia].
  destruct (Z.lt_ge_cases x (cover_next rs end_ c)); [apply H2; lia|apply Hall; lia].
Qed.

(** [RegionsCoverRange] terminates and decides whether every byte of the
    range is live in some region. *)
Theorem RegionsCoverRange_spec slot rs start end_ :
  Forall (region_ok slot) rs → slot <= INT64_MAX → 0 <= start → end_ < 2 ^ 64 →
  RegionsCoverRange rs start end_ = true ↔
    ∀ x, start <= x < end_ → ∃ r, r ∈ rs ∧ region_live r x.
Proof. intros Hrs Hs H0 He. apply (cover_loop_spec slot); try done. lia. Qed.

Lemma RegionsCoverRange_spec_witness :
  RegionsCoverRange [region_ex] 16 32 = true ∧
  ∀ x, 16 <= x < 32 → ∃ r, r ∈ [region_ex] ∧ region_live r x.
Proof.
  split; [reflexivity|].
  apply (RegionsCoverRange_spec 128 [region_ex] 16 32); try (unfold INT64_MAX; lia); [|reflexivity].
  constructor; [|constructor]. by apply RegionSpec_Validate_ok.
Defined.

(** ** DMA extents *)
Definition extent_ok (e : PoolBlockCopyExtent) : Prop :=
  0 <= extent_offset e ∧ 0 < extent_size e ∧ extent_offset e + extent_size e <= INT64_MAX.
Definition extents_live (l : list PoolBlockCopyExtent) (x : Z) : Prop :=
  ∃ e, e ∈ l ∧ extent_offset e <= x < extent_offset e + extent_size e.
(** Increasing extents with a gap between consecutive ones. *)
Fixpoint extents_separated (lo : Z) (l : list PoolBlockCopyExtent) : Prop :=
  match l with
  | [] => True
  | e :: rest => lo <= extent_offset e ∧ 0 < extent_size e ∧
                 extents_separated (extent_offset e + extent_size e + 1) rest
  end.

Lemma extents_live_nil x : extents_live [] x ↔ False.
Proof. unfold extents_live. set_solver. Qed.
Lemma extents_live_cons e l x :
  extents_live (e :: l) x ↔
    extent_offset e <= x < extent_offset e + extent_size e ∨ extents_live l x.
Proof. unfold extents_live. setoid_rewrite elem_of_cons. naive_solver. Qed.
Lemma extents_live_app l l' x :
  extents_live (l ++ l') x ↔ extents_live l x ∨ extents_live l' x.
Proof. unfold extents_live. setoid_rewrite elem_of_app. naive_solver. Qed.

Lemma region_extents_ok slot base r :
  region_ok slot r → 0 <= base →
  (0 < num_units r →
   base + (offset_bytes r + (num_units r - 1) * stride_bytes r + packed r) <= INT64_MAX) →
  ∃ l, region_extents base r = Ok l ∧ Forall extent_ok l ∧
    ∀ x, extents_live l x ↔ region_live r (x - base).
Proof.
  intros [H1 H2 H3 H4 H5 H6 H7 _] Hb Hfit. unfold region_extents.
  rewrite (proj2 (CheckedMul_ok (unit_bytes r) (units_per_stride r) (packed r))) by (unfold packed in *; lia).
  cbn [mbind StatusOr_bind].
  destruct (Z.eqb_spec (num_units r) 0) as [Hz|Hnz]; cbn [orb].
  { exists []. split; [done|]. split; [done|]. intros x. rewrite extents_live_nil.
    split; [done|]. intros (u & ? & _). lia. }
  specialize (H6 ltac:(lia)); specialize (Hfit ltac:(lia)).
  destruct (Z.eqb_spec (packed r) 0); [lia|].
  assert (0 <= (num_units r - 1) * stride_bytes r) by nia.
  destruct (Z.eqb_spec (stride_bytes r) (packed r)) as [Htight|Hsparse].
  - rewrite Htight in *.
    rewrite (proj2 (CheckedMul_ok (num_units r) (packed r) (num_units r * packed r))) by lia.
    rewrite (proj2 (CheckedAdd_ok base (offset_bytes r) (base + offset_bytes r))) by lia.
    eexists. split; [done|]. split.
    { repeat constructor; cbn; lia. }
    intros x. rewrite extents_live_cons, extents_live_nil. cbn.
    rewrite <- elem_of_region_bytes. unfold region_bytes. rewrite Htight.
    rewrite packed_units_bytes by lia. rewrite elem_of_seqZ. lia.
  - exists ((λ u, mkExtent (base + offset_bytes r + u * stride_bytes r) (packed r))
              <$> seqZ 0 (num_units r)).
    assert (∀ u, 0 <= u < num_units r →
      0 <= u * stride_bytes r <= (num_units r - 1) * stride_bytes r) as Hu by (intros; nia).
    split; [|split].
    + apply mapM_total. intros u Hin%elem_of_seqZ. specialize (Hu u ltac:(lia)).
      unfold unit_extent. rewrite (proj2 (CheckedMul_ok u (stride_bytes r) (u * stride_bytes r))) by lia.
      rewrite (proj2 (CheckedAdd_ok base (offset_bytes r) (base + offset_bytes r))) by lia.
      cbn [mbind StatusOr_bind].
      by rewrite (proj2 (CheckedAdd_ok (base + offset_bytes r) (u * stride_bytes r)
                       (base + offset_bytes r + u * stride_bytes r))) by lia.
    + apply Forall_fmap, Forall_seqZ. intros u Hin. specialize (Hu u ltac:(lia)).
      unfold extent_ok. cbn. lia.
    + intros x. unfold extents_live, region_live. setoid_rewrite list_elem_of_fmap.
      setoid_rewrite elem_of_seqZ. split.
      * intros (e & (u & -> & Hin) & Hx). cbn in Hx. exists u. lia.
      * intros (u & Hin & Hx). eexists. split; [exists u; split; [done|lia]|]. cbn. lia.
Qed.

Lemma block_extents_ok p b :
  pool_ok p → storage_extent_end_bytes p ≠ INT64_MAX → 0 <= b < num_blocks p →
  ∃ l, block_extents p b = Ok l ∧ Forall extent_ok l ∧
    ∀ x, extents_live l x ↔ block_live p (x - (base_offset_bytes p + b * block_stride_bytes p)).
Proof.
  intros Hok Hne Hb. destruct (storage_extent_fits p b Hok Hne Hb) as (Hb0 & Hbase & Hmax & Hfit).
  destruct Hok as [Hst Hnb Hb' Hrs]. unfold block_extents, block_live.
  case_match; [lia|].
  rewrite (proj2 (CheckedMul_ok b (block_stride_bytes p) (b * block_stride_bytes p))) by lia.
  cbn [mbind StatusOr_bind].
  rewrite (proj2 (CheckedAdd_ok (base_offset_bytes p) (b * block_stride_bytes p)
            (base_offset_bytes p + b * block_stride_bytes p))) by lia.
  cbn [mbind StatusOr_bind]. set (base := base_offset_bytes p + b * block_stride_bytes p) in *.
  assert (∀ rs, (∀ r, r ∈ rs → r ∈ regions p) → ∃ ls, mapM (region_extents base) rs = Ok ls ∧
    Forall extent_ok (concat ls) ∧
    ∀ x, extents_live (concat ls) x ↔ ∃ r, r ∈ rs ∧ region_live r (x - base)) as Hgen.
  { induction rs as [|r rs IH]; intros Hsub.
    { exists []. split; [done|]. split; [done|]. intros x. cbn. rewrite extents_live_nil. set_solver. }
    destruct IH as (ls & E & Hf & Hx); [set_solver|].
    rewrite Forall_forall in Hrs. destruct (region_extents_ok (block_stride_bytes p) base r)
      as (l & E' & Hf' & Hx'); [apply Hrs; set_solver|lia| |].
    { intros Hn. specialize (Hfit r ltac:(set_solver) Hn). lia. }
    exists (l :: ls). cbn. rewrite E'. cbn [mbind StatusOr_bind]. rewrite E.
    split; [done|]. split; [by apply Forall_app|]. intros x.
    rewrite extents_live_app, Hx, Hx'. setoid_rewrite elem_of_cons. naive_solver. }
  destruct (Hgen (regions p)) as (ls & -> & Hf & Hx); [done|]. eauto.
Qed.

#[export] Instance extent_le_total : Total extent_le.
Proof. intros a b. unfold extent_le. lia. Qed.
#[export] Instance extent_le_trans : Transitive extent_le.
Proof. intros a b c. unfold extent_le. lia. Qed.

Lemma extents_separated_weaken lo lo' l :
  lo' <= lo → extents_separated lo l → extents_separated lo' l.
Proof. destruct l; simpl; [done|]. intros ? (? & ? & ?). split; [lia|done]. Qed.

Lemma merge_extents_ok prev l :
  Forall extent_ok (prev :: l) → Sorted (λ a b, extent_offset a <= extent_offset b) (prev :: l) →
  ∃ m, merge_extents prev l = Ok m ∧ extents_separated (extent_offset prev) m ∧
    ∀ x, extents_live m x ↔ extents_live (prev :: l) x.
Proof.
  revert prev; induction l as [|e l IH]; intros prev Hok Hs; simpl.
  { exists [prev]. split; [done|]. apply Forall_cons_1 in Hok as [(? & ? & ?) _].
    cbn. split; [lia|done]. }
  apply Forall_cons_1 in Hok as [(Hp1 & Hp2 & Hp3) Hok].
  pose proof Hok as [(He1 & He2 & He3) Hok']%Forall_cons_1.
  apply Sorted_inv in Hs as [Hs Hhd%HdRel_inv].
  rewrite (proj2 (CheckedAdd_ok (extent_offset e) (extent_size e) _)) by
    (repeat split; [lia|lia|done]).
  cbn [mbind StatusOr_bind].
  rewrite (proj2 (CheckedAdd_ok (extent_offset prev) (extent_size prev) _)) by
    (repeat split; [lia|lia|done]).
  cbn [mbind StatusOr_bind]. case_match.
  - destruct (IH e Hok Hs) as (m & -> & Hsep & Hx). eexists. split; [done|]. split.
    + cbn. split; [lia|]. split; [done|]. eapply extents_separated_weaken; [|done]. lia.
    + intros x. by rewrite !extents_live_cons, Hx, extents_live_cons.
  - set (prev' := mkExtent _ _). destruct (IH prev') as (m & -> & Hsep & Hx).
    + constructor; [|done]. unfold extent_ok. cbn. lia.
    + apply Sorted_inv in Hs as [Hs Hhd']. constructor; [done|].
      destruct l; constructor. apply HdRel_inv in Hhd'. cbn. lia.
    + eexists. split; [done|]. split; [done|]. intros x. rewrite Hx, !extents_live_cons. cbn.
      split; intros [Hin|Hin]; try (by right; right).
      * destruct (Z.lt_ge_cases x (extent_offset prev + extent_size prev)); [left|right; left]; lia.
      * left. lia.
      * destruct Hin as [Hin|Hin]; [left; lia|by right].
Qed.

Lemma sorted_offsets l : Sorted extent_le l → Sorted (λ a b, extent_offset a <= extent_offset b) l.
Proof.
  induction 1 as [|a l Hl IH Hhd]; constructor; [done|]. destruct Hhd as [|b l Hab]; constructor.
  unfold extent_le in Hab. lia.
Qed.

(** [ComputePoolBlockCopyExtents] on a validated pool: with every block id
    in range it succeeds, and its extents cover exactly the live bytes of the
    requested blocks (never padding), in increasing order, coalesced so that a
    gap separates any two; with an id out of range it fails with OUT_OF_RANGE. *)
Theorem ComputePoolBlockCopyExtents_spec p storage block_ids :
  block_stride_bytes p <= INT64_MAX → 0 <= storage → PoolSpec_Validate storage p = OkStatus →
  (Forall (λ b, 0 <= b < num_blocks p) block_ids →
   ∃ extents, ComputePoolBlockCopyExtents p block_ids = Ok extents ∧
     extents_separated 0 extents ∧
     ∀ x, extents_live extents x ↔
       ∃ b, b ∈ block_ids ∧
            block_live p (x - (base_offset_bytes p + b * block_stride_bytes p))) ∧
  (¬ Forall (λ b, 0 <= b < num_blocks p) block_ids →
   ComputePoolBlockCopyExtents p block_ids = Err kOutOfRange).
Proof.
  intros Hs H0 Hv. destruct (PoolSpec_Validate_ok storage p Hs Hv) as [Hok Hext].
  destruct (Hext H0) as [_ Hne]. unfold ComputePoolBlockCopyExtents. split.
  - intros Hids.
    assert (∃ ls, mapM (block_extents p) block_ids = Ok ls ∧ Forall extent_ok (concat ls) ∧
      ∀ x, extents_live (concat ls) x ↔ ∃ b, b ∈ block_ids ∧
        block_live p (x - (base_offset_bytes p + b * block_stride_bytes p))) as (ls & -> & Hf & Hx).
    { induction Hids as [|b ids Hb _ IH].
      { exists []. split; [done|]. split; [done|]. intros x. cbn. rewrite extents_live_nil. set_solver. }
      destruct IH as (ls & E & Hf & Hx). destruct (block_extents_ok p b Hok Hne Hb) as (l & E' & Hf' & Hx').
      exists (l :: ls). cbn. rewrite E'. cbn [mbind StatusOr_bind]. rewrite E.
      split; [done|]. split; [by apply Forall_app|]. intros x.
      rewrite extents_live_app, Hx, Hx'. setoid_rewrite elem_of_cons. naive_solver. }
    cbn [fmap StatusOr_fmap mbind StatusOr_bind].
    pose proof (merge_sort_Permutation extent_le (concat ls)) as HP.
    pose proof (Sorted_merge_sort extent_le (concat ls)) as Hsort.
    assert (∀ x, extents_live (merge_sort extent_le (concat ls)) x ↔ extents_live (concat ls) x) as Hl.
    { intros x. unfold extents_live. by setoid_rewrite HP. }
    destruct (merge_sort extent_le (concat ls)) as [|e rest].
    { exists []. split; [done|]. split; [done|]. intros x. by rewrite Hl. }
    assert (Forall extent_ok (e :: rest)) as Hf' by (by rewrite HP).
    pose proof Hf' as [(He1 & He2 & He3) _]%Forall_cons_1.
    rewrite (proj2 (CheckedAdd_ok (extent_offset e) (extent_size e) _)) by
      (repeat split; [lia|lia|done]).
    cbn [mbind StatusOr_bind].
    destruct (merge_extents_ok e rest Hf' (sorted_offsets _ Hsort)) as (m & -> & Hsep & Hm).
    exists m. split; [done|]. split; [by eapply extents_separated_weaken|].
    intros x. by rewrite Hm, Hl.
  - intros Hbad.
    assert (mapM (block_extents p) block_ids = Err kOutOfRange) as ->; [|done].
    induction block_ids as [|b ids IH]; [destruct Hbad; constructor|].
    cbn. destruct (decide (0 <= b < num_blocks p)) as [Hb|Hb].
    + destruct (block_extents_ok p b Hok Hne Hb) as (l & -> & _). cbn [mbind StatusOr_bind].
      rewrite IH; [done|]. intros Hall. apply Hbad. by constructor.
    + unfold block_extents. case_match; [done|lia].
Qed.

Lemma ComputePoolBlockCopyExtents_spec_witness :
  ComputePoolBlockCopyExtents pool_ex [1; 9] = Err kOutOfRange.
Proof.
  apply (proj2 (ComputePoolBlockCopyExtents_spec pool_ex 1024 [1; 9] ltac:(vm_compute; discriminate)
    ltac:(lia) eq_refl)).
  intros [_ [H _]%Forall_cons_1]%Forall_cons_1. cbn in H. lia.
Defined.
Lemma extents_example :
  ComputePoolBlockCopyExtents pool_ex [1; 0] =
    Ok [mkExtent 80 16; mkExtent 112 16; mkExtent 144 16; mkExtent 176 8;
        mkExtent 208 16; mkExtent 240 16; mkExtent 272 16; mkExtent 304 8].
Proof. vm_compute. reflexivity. Qed.

(** ** Protos *)

(** A pool declaration survives the wire: [PoolSpecFromProto] of [ToProto]
    returns the same pool, except that staging_blocks_per_request, which the
    message has no field for, comes back as 0. *)
Theorem PoolSpec_proto_roundtrip p :
  0 <= storage_index p <= INT64_MAX →
  PoolSpecFromProto (PoolSpec_ToProto p) =
    Ok (mkPool (tag p) (storage_index p) (base_offset_bytes p) (block_stride_bytes p)
          (num_blocks p) (regions p) (dtype_tag p) 0).
Proof.
  intros H. unfold PoolSpecFromProto, PoolSpec_ToProto, INT64_MAX in *. cbn.
  rewrite i64_small by lia. case_match; [lia|].
  assert (mapM RegionSpecFromProto (RegionSpec_ToProto <$> regions p) = Ok (regions p)) as ->.
  { induction (regions p) as [|[] rs IH]; [done|]. cbn. rewrite IH. done. }
  cbn [mbind StatusOr_bind]. by rewrite u64_small by lia.
Qed.

Lemma PoolSpec_proto_roundtrip_witness :
  PoolSpecFromProto (PoolSpec_ToProto pool_ex) = Ok pool_ex.
Proof. apply (PoolSpec_proto_roundtrip pool_ex). vm_compute. split; discriminate. Defined.

(** ** An unchecked sum

    [ExpandPoolLiveSegments] adds offset_bytes to the region's extent without an
    overflow check, unlike [RegionSpec::Validate].  A declaration that was not
    validated first gets past the block-stride test: the end wraps to a negative
    number, and the expansion yields a segment outside the block. *)
Definition pool_wrapping : PoolSpec :=
  mkPool "t" 0 0 128 1 [mkRegion "r" (2 ^ 63 - 8) 16 16 1 1] "" 0.
Lemma Expand_accepts_wrapping_region :
  ExpandPoolLiveSegments pool_wrapping = Ok [mkSegment 0 (2 ^ 63 - 8) 16] ∧
  PoolSpec_Validate (-1) pool_wrapping = Err kInvalidArgument.
Proof. vm_compute. done. Qed.
