(* ===== verification/WorkUnitDirectory.v ===== *)
(** * WorkUnitDirectory: registered work units and their metadata
    (src/tpu_sync/kv_cache/reshard/work_unit_directory.{h,cc},
    the RaidenId conversions of reshard/declaration_types.cc)

    An insertion-ordered registry: registering a known unit replaces its whole
    record in place, an unknown one appends.  Every method runs under the shared
    controller mutex, so each is one atomic step on the directory. *)

From S2P Require Import Prelude RaidenTypes PoolLayout.

(** ** Messages of rpc/raiden_service.proto *)
Record RaidenIdProto := mkRaidenIdProto {
  rip_job_name : string; rip_job_replica_id : string;
  rip_data_name : string; rip_data_replica_idx : Z;
}.
Definition RaidenIdFromProto (proto : RaidenIdProto) : RaidenId :=
  mkRaidenId (rip_job_name proto) (rip_job_replica_id proto) (rip_data_name proto)
    (rip_data_replica_idx proto).
Definition RaidenIdToProto (id : RaidenId) : RaidenIdProto :=
  mkRaidenIdProto (job_name id) (job_replica_id id) (data_name id) (data_replica_idx id).

Record VariableMetadataProto := mkVariable {
  var_name : string; var_shape : list Z; var_mesh_shape : list Z; var_layout : list Z;
  var_item_size : Z; var_layer_idx : Z; var_sharding_spec : list string;
  var_global_shard_indices : list Z;
}.

Record RegisterWorkUnitRequest := mkWorkUnitRequest {
  rq_unit : RaidenIdProto;
  rq_shards : list string;
  rq_control_plane_rpc_address : string;
  rq_itemsize : Z;
  rq_mesh_shape : list Z;
  rq_layout : list Z;
  rq_global_shape : list Z;
  rq_pools : list PoolSpecProto;
  rq_layout_fingerprint : string;
  rq_page_tokens : Z;
  rq_transfer_parallelism : Z;
  rq_transfer_rank : Z;
  rq_variables : list VariableMetadataProto;
}.

(** ** State *)

(** [struct WorkUnitRegistration]: [None] is the wire's absent or zero field. *)
Record WorkUnitRegistration := mkRegistration {
  reg_unit : RaidenId;
  reg_shards : list string;
  reg_control_plane_rpc_address : option string;
  reg_mesh_shape : option (list Z);
  reg_layout : option (list Z);
  reg_global_shape : option (list Z);
  reg_itemsize : option Z;
  reg_pool_manifest : option (list PoolSpecProto);
  reg_layout_fingerprint : option string;
  reg_page_tokens : option Z;
  reg_transfer_parallelism : option Z;
  reg_transfer_rank : option Z;
  reg_variables : option (list VariableMetadataProto);
}.

Record UnitRecord := mkRecord {
  rec_shards : list string;
  rec_control_plane_rpc_address : string;
  rec_mesh_shape : option (list Z);
  rec_layout : option (list Z);
  rec_global_shape : option (list Z);
  rec_itemsize : option Z;
  rec_pools : option (list PoolSpecProto);
  rec_layout_fingerprint : option string;
  rec_page_tokens : option Z;
  rec_transfer_parallelism : option Z;
  rec_transfer_rank : option Z;
  rec_variables : option (list VariableMetadataProto);
}.
Definition empty_record : UnitRecord :=
  mkRecord [] EmptyString None None None None None None None None None None.
#[export] Instance UnitRecord_inhabited : Inhabited UnitRecord := populate empty_record.

Record WorkUnitDirectory := mkDirectory {
  order_ : list RaidenId;
  records_ : list UnitRecord;
}.
Definition WorkUnitDirectory_new : WorkUnitDirectory := mkDirectory [] [].

(** ** Operations *)
Definition has_value {A} (o : option A) : bool := match o with Some _ => true | None => false end.

Definition validate_metadata (reg : WorkUnitRegistration) : Status :=
  if has_value (reg_mesh_shape reg) || has_value (reg_layout reg) ||
     has_value (reg_global_shape reg) then
    if negb (has_value (reg_mesh_shape reg)) || negb (has_value (reg_layout reg)) ||
       negb (has_value (reg_global_shape reg)) then Err kInvalidArgument
    else match reg_itemsize reg with
         | None => Err kInvalidArgument
         | Some itemsize => if itemsize <=? 0 then Err kInvalidArgument else OkStatus
         end
  else OkStatus.

Definition validate_reshard_metadata (reg : WorkUnitRegistration) : Status :=
  if has_value (reg_pool_manifest reg) || has_value (reg_layout_fingerprint reg) ||
     has_value (reg_page_tokens reg) || has_value (reg_transfer_parallelism reg) ||
     has_value (reg_transfer_rank reg) then
    match reg_pool_manifest reg, reg_layout_fingerprint reg, reg_page_tokens reg,
          reg_transfer_parallelism reg, reg_transfer_rank reg with
    | Some pool_manifest, Some layout_fingerprint, Some page_tokens,
      Some transfer_parallelism, Some transfer_rank =>
        if bool_decide (pool_manifest = []) then Err kInvalidArgument
        else if bool_decide (layout_fingerprint = EmptyString) then Err kInvalidArgument
        else if page_tokens <=? 0 then Err kInvalidArgument
        else if transfer_parallelism <=? 0 then Err kInvalidArgument
        else if transfer_rank <? 0 then Err kInvalidArgument
        else if transfer_parallelism <=? transfer_rank then Err kInvalidArgument
        else OkStatus
    | _, _, _, _, _ => Err kInvalidArgument
    end
  else OkStatus.

Definition WorkUnitDirectory_Validate (reg : WorkUnitRegistration) : Status :=
  _ ← validate_metadata reg;
  _ ← validate_reshard_metadata reg;
  let any_empty_shard := existsb (λ shard, bool_decide (shard = EmptyString)) (reg_shards reg) in
  if bool_decide (reg_shards reg = []) || any_empty_shard then Err kInvalidArgument
  else OkStatus.

(** [FindLocked]; -1 is [None]. *)
Fixpoint find_index (unit_ : RaidenId) (i : nat) (order : list RaidenId) : option nat :=
  match order with
  | [] => None
  | u :: rest => if RaidenId_eqb u unit_ then Some i else find_index unit_ (S i) rest
  end.
Definition FindLocked (unit_ : RaidenId) (d : WorkUnitDirectory) : option nat :=
  find_index unit_ 0 (order_ d).

Definition fill_record (reg : WorkUnitRegistration) (record : UnitRecord) : UnitRecord :=
  let with_pools := has_value (reg_pool_manifest reg) in
  mkRecord (reg_shards reg) (default EmptyString (reg_control_plane_rpc_address reg))
    (reg_mesh_shape reg) (reg_layout reg) (reg_global_shape reg) (reg_itemsize reg)
    (if with_pools then reg_pool_manifest reg else rec_pools record)
    (if with_pools then reg_layout_fingerprint reg else rec_layout_fingerprint record)
    (if with_pools then reg_page_tokens reg else rec_page_tokens record)
    (if with_pools then reg_transfer_parallelism reg else rec_transfer_parallelism record)
    (if with_pools then reg_transfer_rank reg else rec_transfer_rank record)
    (reg_variables reg).

Definition RegisterLocked (reg : WorkUnitRegistration) (d : WorkUnitDirectory)
    : WorkUnitDirectory :=
  match FindLocked (reg_unit reg) d with
  | None =>
      let records := records_ d ++ [empty_record] in
      mkDirectory (order_ d ++ [reg_unit reg])
        (alter (fill_record reg) (pred (length records)) records)
  | Some idx =>
      mkDirectory (order_ d) (alter (fill_record reg) idx (<[idx := empty_record]> (records_ d)))
  end.

Definition MetadataProtoLocked (unit_ : RaidenId) (d : WorkUnitDirectory)
    : StatusOr RegisterWorkUnitRequest :=
  match FindLocked unit_ d with
  | None => Err kInvalidArgument
  | Some idx =>
      let record := records_ d !!! idx in
      Ok (mkWorkUnitRequest (RaidenIdToProto unit_) (rec_shards record)
            (rec_control_plane_rpc_address record) (default 0 (rec_itemsize record))
            (default [] (rec_mesh_shape record)) (default [] (rec_layout record))
            (default [] (rec_global_shape record)) (default [] (rec_pools record))
            (default EmptyString (rec_layout_fingerprint record))
            (default 0 (rec_page_tokens record))
            (default 0 (rec_transfer_parallelism record))
            (default 0 (rec_transfer_rank record)) (default [] (rec_variables record)))
  end.

Definition AllMetadata (d : WorkUnitDirectory) : list RegisterWorkUnitRequest :=
  omap (λ u, match MetadataProtoLocked u d with Ok proto => Some proto | Err _ => None end)
    (order_ d).

Definition LocalMetadata (units : list RaidenId) (d : WorkUnitDirectory)
    : StatusOr (list RegisterWorkUnitRequest) :=
  let missing := filter (λ u, FindLocked u d = None) units in
  if negb (bool_decide (missing = [])) then Err kInvalidArgument
  else mapM (λ u, MetadataProtoLocked u d) units.

Definition IsRegisteredLocked (unit_ : RaidenId) (d : WorkUnitDirectory) : bool :=
  has_value (FindLocked unit_ d).

Definition PoolManifestLocked (unit_ : RaidenId) (d : WorkUnitDirectory) : list PoolSpecProto :=
  match FindLocked unit_ d with
  | None => []
  | Some idx => default [] (rec_pools (records_ d !!! idx))
  end.

(** ** The directory as a map with an insertion order *)
Record dir_wf (d : WorkUnitDirectory) : Prop := {
  dir_nodup : NoDup (order_ d);
  dir_length : length (records_ d) = length (order_ d);
}.

Lemma find_index_Some u k order i :
  find_index u k order = Some i ↔ (k <= i)%nat ∧ order !! (i - k)%nat = Some u ∧
    ∀ j, (j < i - k)%nat → order !! j ≠ Some u.
Proof.
  revert k; induction order as [|v order IH]; intros k; simpl; [naive_solver|].
  destruct (RaidenId_eqb v u) eqn:E.
  - apply RaidenId_eqb_eq in E as ->. split.
    + intros [= <-]. rewrite Nat.sub_diag. split; [lia|]. split; [done|lia].
    + intros (Hk & Hi & Hj). destruct (decide (i = k)) as [->|Hne]; [done|].
      destruct (Hj 0%nat); [lia|done].
  - assert (v ≠ u) as Hne by (intros ->; by rewrite (proj2 (RaidenId_eqb_eq u u) eq_refl) in E).
    rewrite IH. split.
    + intros (Hk & Hi & Hj). split; [lia|]. replace (i - k)%nat with (S (i - S k)) by lia.
      split; [done|]. intros [|j] Hlt; simpl; [congruence|apply Hj; lia].
    + intros (Hk & Hi & Hj). assert (i ≠ k).
      { intros ->. rewrite Nat.sub_diag in Hi. simpl in Hi. congruence. }
      replace (i - k)%nat with (S (i - S k)) in Hi by lia. split; [lia|]. split; [done|].
      intros j Hlt. apply (Hj (S j)). lia.
Qed.

Lemma find_index_None u k order : find_index u k order = None ↔ u ∉ order.
Proof.
  revert k; induction order as [|v order IH]; intros k; simpl; [set_solver|].
  destruct (RaidenId_eqb v u) eqn:E.
  - apply RaidenId_eqb_eq in E as ->. set_solver.
  - assert (v ≠ u) as Hne by (intros ->; by rewrite (proj2 (RaidenId_eqb_eq u u) eq_refl) in E).
    rewrite IH. set_solver.
Qed.

Lemma FindLocked_Some u d i :
  NoDup (order_ d) → FindLocked u d = Some i ↔ order_ d !! i = Some u.
Proof.
  intros Hnd. unfold FindLocked. rewrite find_index_Some, Nat.sub_0_r. split; [naive_solver|].
  intros Hi. split; [lia|]. split; [done|]. intros j Hj Hj'.
  pose proof (NoDup_lookup _ _ _ _ Hnd Hi Hj'). lia.
Qed.

Lemma RegisterLocked_wf reg d : dir_wf d → dir_wf (RegisterLocked reg d).
Proof.
  intros [Hnd Hlen]. unfold RegisterLocked. destruct (FindLocked (reg_unit reg) d) eqn:E.
  - split; simpl; [done|]. by rewrite length_alter, length_insert.
  - apply find_index_None in E. split; simpl.
    + apply NoDup_app. split; [done|]. split; [set_solver|]. apply NoDup_singleton.
    + rewrite length_alter, !length_app. simpl. lia.
Qed.

Inductive dir_reachable : WorkUnitDirectory → Prop :=
  | dir_reach_new : dir_reachable WorkUnitDirectory_new
  | dir_reach_register reg d :
      dir_reachable d → WorkUnitDirectory_Validate reg = OkStatus →
      dir_reachable (RegisterLocked reg d).

Lemma dir_reachable_wf d : dir_reachable d → dir_wf d.
Proof. induction 1; [split; [constructor|done]|by apply RegisterLocked_wf]. Qed.

(** The message a registration is echoed as. *)
Definition expected_metadata (reg : WorkUnitRegistration) : RegisterWorkUnitRequest :=
  mkWorkUnitRequest (RaidenIdToProto (reg_unit reg)) (reg_shards reg)
    (default EmptyString (reg_control_plane_rpc_address reg)) (default 0 (reg_itemsize reg))
    (default [] (reg_mesh_shape reg)) (default [] (reg_layout reg))
    (default [] (reg_global_shape reg)) (default [] (reg_pool_manifest reg))
    (default EmptyString (reg_layout_fingerprint reg)) (default 0 (reg_page_tokens reg))
    (default 0 (reg_transfer_parallelism reg)) (default 0 (reg_transfer_rank reg))
    (default [] (reg_variables reg)).

(** A registration without a pool manifest carries no reshard field either. *)
Lemma Validate_reshard_fields reg :
  WorkUnitDirectory_Validate reg = OkStatus → reg_pool_manifest reg = None →
  reg_layout_fingerprint reg = None ∧ reg_page_tokens reg = None ∧
  reg_transfer_parallelism reg = None ∧ reg_transfer_rank reg = None.
Proof.
  unfold WorkUnitDirectory_Validate. intros (? & _ & (? & H & _)%bind_Ok)%bind_Ok Hnone.
  unfold validate_reshard_metadata in H. rewrite Hnone in H.
  destruct (reg_layout_fingerprint reg), (reg_page_tokens reg), (reg_transfer_parallelism reg),
    (reg_transfer_rank reg); simplify_eq/=; done.
Qed.

Lemma fill_empty_metadata reg :
  WorkUnitDirectory_Validate reg = OkStatus →
  let r := fill_record reg empty_record in
  rec_pools r = reg_pool_manifest reg ∧ rec_layout_fingerprint r = reg_layout_fingerprint reg ∧
  rec_page_tokens r = reg_page_tokens reg ∧
  rec_transfer_parallelism r = reg_transfer_parallelism reg ∧
  rec_transfer_rank r = reg_transfer_rank reg.
Proof.
  intros Hv. cbn. destruct (reg_pool_manifest reg) eqn:E; [done|]. cbn.
  destruct (Validate_reshard_fields reg Hv E) as (-> & -> & -> & ->). done.
Qed.

Lemma Register_lookup reg d i :
  dir_wf d → FindLocked (reg_unit reg) (RegisterLocked reg d) = Some i →
  records_ (RegisterLocked reg d) !!! i = fill_record reg empty_record.
Proof.
  intros Hwf. pose proof (RegisterLocked_wf reg d Hwf) as Hwf'. destruct Hwf as [Hnd Hlen].
  rewrite FindLocked_Some by apply Hwf'. unfold RegisterLocked.
  destruct (FindLocked (reg_unit reg) d) as [idx|] eqn:E; simpl.
  - apply FindLocked_Some in E; [|done]. intros Hi.
    assert (i = idx) as -> by (by eapply NoDup_lookup).
    assert (idx < length (records_ d))%nat by (rewrite Hlen; by eapply lookup_lt_Some).
    rewrite list_lookup_total_alt, list_lookup_alter_eq, list_lookup_insert_eq by done. done.
  - intros Hi. apply find_index_None in E. assert (i = length (records_ d)) as ->.
    { apply lookup_app_Some in Hi as [Hi|[Hge Hi]].
      - apply list_elem_of_lookup_2 in Hi. done.
      - destruct (i - length (order_ d))%nat eqn:Hs; [lia|done]. }
    rewrite length_app, Nat.add_comm. simpl.
    rewrite list_lookup_total_alt, list_lookup_alter_eq.
    rewrite lookup_app_r, Nat.sub_diag by lia. done.
Qed.

Lemma Register_other reg d u :
  dir_wf d → u ≠ reg_unit reg →
  MetadataProtoLocked u (RegisterLocked reg d) = MetadataProtoLocked u d.
Proof.
  intros Hwf Hne. pose proof (RegisterLocked_wf reg d Hwf) as Hwf'.
  unfold MetadataProtoLocked. destruct Hwf as [Hnd Hlen]. destruct Hwf' as [Hnd' _].
  destruct (FindLocked u d) as [i|] eqn:E.
  - assert (i < length (records_ d))%nat.
    { rewrite Hlen. apply FindLocked_Some in E; [|done]. by eapply lookup_lt_Some. }
    assert (FindLocked u (RegisterLocked reg d) = Some i) as ->.
    { apply FindLocked_Some; [done|]. apply FindLocked_Some in E; [|done].
      unfold RegisterLocked. destruct (FindLocked (reg_unit reg) d); simpl; [done|].
      rewrite lookup_app_l; [done|]. by eapply lookup_lt_Some. }
    assert (records_ (RegisterLocked reg d) !!! i = records_ d !!! i) as ->; [|done].
    apply FindLocked_Some in E; [|done]. unfold RegisterLocked.
    destruct (FindLocked (reg_unit reg) d) as [j|] eqn:E'; simpl.
    + apply FindLocked_Some in E'; [|done].
      assert (j ≠ i) by (intros ->; congruence).
      rewrite !list_lookup_total_alt, list_lookup_alter_ne, list_lookup_insert_ne by done. done.
    + rewrite !list_lookup_total_alt, list_lookup_alter_ne, lookup_app_l by
        (rewrite ?length_app; simpl; lia). done.
  - assert (FindLocked u (RegisterLocked reg d) = None) as ->; [|done].
    apply find_index_None. apply find_index_None in E. unfold RegisterLocked.
    destruct (FindLocked (reg_unit reg) d); set_solver.
Qed.

Lemma IsRegistered_order d u : IsRegisteredLocked u d = true ↔ u ∈ order_ d.
Proof.
  unfold IsRegisteredLocked, FindLocked. destruct (find_index u 0 (order_ d)) eqn:E; simpl.
  - split; [|done]. intros _. apply find_index_Some in E as (_ & E & _).
    by apply list_elem_of_lookup_2 in E.
  - apply find_index_None in E. naive_solver.
Qed.

Lemma Metadata_ok_order d u :
  is_ok (MetadataProtoLocked u d) = true ↔ u ∈ order_ d.
Proof.
  rewrite <- IsRegistered_order. unfold MetadataProtoLocked, IsRegisteredLocked.
  by destruct (FindLocked u d).
Qed.

Lemma Register_metadata reg d :
  dir_wf d → WorkUnitDirectory_Validate reg = OkStatus →
  MetadataProtoLocked (reg_unit reg) (RegisterLocked reg d) = Ok (expected_metadata reg).
Proof.
  intros Hwf Hv. unfold MetadataProtoLocked.
  destruct (FindLocked (reg_unit reg) (RegisterLocked reg d)) as [i|] eqn:E.
  - rewrite (Register_lookup reg d i Hwf E).
    destruct (fill_empty_metadata reg Hv) as (H1 & H2 & H3 & H4 & H5).
    unfold expected_metadata. rewrite H1, H2, H3, H4, H5. done.
  - exfalso. apply find_index_None in E. unfold RegisterLocked in E.
    destruct (FindLocked (reg_unit reg) d) eqn:E'; simpl in E; [|set_solver].
    apply find_index_Some in E' as (_ & E' & _). by apply list_elem_of_lookup_2 in E'.
Qed.

(** Registration is replacement, not a patch: after any valid sequence of
    registrations, a newly registered unit's metadata is exactly what it sent
    (nothing of an earlier payload survives), every other unit's metadata is
    unchanged, a re-registered unit keeps its place in the listing and a new
    one is listed last, and [LocalMetadata] answers exactly when all the
    requested units are registered. *)
Theorem directory_register_spec reg d units :
  dir_reachable d → WorkUnitDirectory_Validate reg = OkStatus →
  let d' := RegisterLocked reg d in
  MetadataProtoLocked (reg_unit reg) d' = Ok (expected_metadata reg) ∧
  (∀ u, u ≠ reg_unit reg → MetadataProtoLocked u d' = MetadataProtoLocked u d) ∧
  order_ d' = (if IsRegisteredLocked (reg_unit reg) d then order_ d
               else order_ d ++ [reg_unit reg]) ∧
  length (AllMetadata d') = length (order_ d') ∧
  (is_ok (LocalMetadata units d') = true ↔ Forall (λ u, IsRegisteredLocked u d' = true) units).
Proof.
  intros Hr Hv d'. pose proof (dir_reachable_wf d Hr) as Hwf.
  split; [by apply Register_metadata|]. split; [intros u; by apply Register_other|].
  split; [|split].
  - subst d'. unfold RegisterLocked, IsRegisteredLocked. by destruct (FindLocked (reg_unit reg) d).
  - unfold AllMetadata. assert (∀ l, (∀ u, u ∈ l → u ∈ order_ d') →
      length (omap (λ u, match MetadataProtoLocked u d' with Ok p => Some p | Err _ => None end) l)
        = length l) as H; [|by apply H].
    induction l as [|u l IH]; intros Hl; [done|]. simpl.
    assert (is_ok (MetadataProtoLocked u d') = true) as Hu by (apply Metadata_ok_order; set_solver).
    destruct (MetadataProtoLocked u d'); [|done]. simpl. f_equal. apply IH. set_solver.
  - unfold LocalMetadata. split.
    + case_bool_decide as Hm; [|done]. intros _. apply Forall_forall. intros u Hu.
      apply IsRegistered_order. destruct (decide (FindLocked u d' = None)) as [E|E].
      * assert (u ∈ filter (λ u, FindLocked u d' = None) units) as Hin by (by apply list_elem_of_filter).
        rewrite Hm in Hin. set_solver.
      * apply IsRegistered_order. unfold IsRegisteredLocked. by destruct (FindLocked u d').
    + intros Hall. rewrite Forall_forall in Hall.
      rewrite bool_decide_true; simpl.
      * clear -Hall. induction units as [|u units IH]; [done|]. simpl.
        assert (is_ok (MetadataProtoLocked u d') = true) as Hu.
        { apply Metadata_ok_order, IsRegistered_order, Hall. set_solver. }
        destruct (MetadataProtoLocked u d'); [|done]. simpl.
        destruct (mapM _ units); [done|]. apply IH. set_solver.
      * apply elem_of_nil_inv. intros u [Hn Hu]%list_elem_of_filter. specialize (Hall u Hu).
        unfold IsRegisteredLocked in Hall. by rewrite Hn in Hall.
Qed.

Definition unit_a : RaidenId := mkRaidenId "prefill" "0" "kv" 0.
Definition unit_b : RaidenId := mkRaidenId "prefill" "1" "kv" 0.
(** A producer with a pool manifest, and the same producer restarted without it. *)
Definition reg_pools : WorkUnitRegistration :=
  mkRegistration unit_a ["h:1"%string] (Some "h:2"%string) None None None None
    (Some [PoolSpec_ToProto pool_ex]) (Some "fp"%string) (Some 16) (Some 2) (Some 0) None.
Definition reg_plain : WorkUnitRegistration :=
  mkRegistration unit_a ["h:3"%string] None None None None None None None None None None None.

Lemma directory_register_spec_witness :
  MetadataProtoLocked unit_a (RegisterLocked reg_plain (RegisterLocked reg_pools WorkUnitDirectory_new))
    = Ok (expected_metadata reg_plain).
Proof.
  apply (directory_register_spec reg_plain (RegisterLocked reg_pools WorkUnitDirectory_new) []);
    [|reflexivity].
  apply dir_reach_register; [apply dir_reach_new|reflexivity].
Defined.
