(* ===== verification/RequestBlockRegistry.v ===== *)
(** * RequestBlockRegistry: generations of producer block registrations
    (src/tpu_sync/kv_cache/reshard/request_block_registry.{h,cc},
    reshard/declaration_types.h)

    A generation (req_id, uuid) goes through registered rows, a claim by a
    planning attempt, per-rank completion votes and retirement, or is cancelled
    before it is claimed; every piece of state has a TTL.  Every method takes
    the shared controller mutex for its state transition, so each is one atomic
    step.  The injected clock's reading [now] and the TTL are arguments;
    timestamps are numbers of which the code uses only addition and comparison.
    Claim owners are opaque pointers, represented by integers. *)

From S2P Require Import Prelude RaidenTypes PoolLayout WorkUnitDirectory.

(** ** Declarations *)
Record PoolByteSpan := mkSpan {
  src_block_ordinal : Z;
  src_offset_bytes : Z;
  dst_block_index : Z;
  dst_offset_bytes : Z;
  size_bytes : Z;
  src_stride_bytes : Z;
  dst_stride_bytes : Z;
  span_count : Z;
  dst_unit_ordinal : Z;
}.
#[export] Instance PoolByteSpan_eq_dec : EqDecision PoolByteSpan.
Proof. solve_decision. Defined.

Record PoolSpanRegistration := mkPoolSpans {
  ps_tag : string;
  ps_block_ids : list Z;
  ps_spans : list PoolByteSpan;
  declared_bytes : Z;
  dst_space_version : Z;
}.
#[export] Instance PoolSpanRegistration_eq_dec : EqDecision PoolSpanRegistration.
Proof. solve_decision. Defined.

Record RequestBlockRegistration := mkRow {
  rb_uuid : Z;
  rb_block_ids : list Z;
  expires_at : Z;
  rb_pool_spans : list PoolSpanRegistration;
}.

Inductive RequestBlockStatus := kUnknown | kRegistered | kClaimed | kBlockCancelled.
#[export] Instance RequestBlockStatus_eq_dec : EqDecision RequestBlockStatus.
Proof. solve_decision. Defined.

(** ** State *)
Abbreviation LifecycleKey := (string * Z)%type.
Abbreviation BlockKey := (string * RaidenId)%type.

Record Completions := mkCompletions { voted : gset RaidenId; vote_expires_at : Z }.

Record RequestBlockRegistry := mkRegistry {
  request_blocks_ : gmap BlockKey RequestBlockRegistration;
  claimed_ : gmap LifecycleKey Z;
  claimed_units_ : gmap LifecycleKey (gset RaidenId);
  claimed_owners_ : gmap LifecycleKey (gset Z);
  completed_units_ : gmap LifecycleKey Completions;
  cancelled_ : gmap LifecycleKey Z;
}.
Definition RequestBlockRegistry_new : RequestBlockRegistry := mkRegistry ∅ ∅ ∅ ∅ ∅ ∅.

(** ** Purging *)
Definition PurgeExpiredRequestBlocksLocked (now : Z) (s : RequestBlockRegistry)
    : RequestBlockRegistry :=
  mkRegistry (filter (λ kr, now < expires_at kr.2) (request_blocks_ s))
    (claimed_ s) (claimed_units_ s) (claimed_owners_ s) (completed_units_ s) (cancelled_ s).

Definition PurgeExpiredLifecycleLocked (now : Z) (s : RequestBlockRegistry)
    : RequestBlockRegistry :=
  let claimed := filter (λ ke, now < ke.2) (claimed_ s) in
  let cancelled := filter (λ ke, now < ke.2) (cancelled_ s) in
  let completed := filter (λ kc, now < vote_expires_at kc.2) (completed_units_ s) in
  let owners := filter (λ ko, ¬ (is_Some (claimed_units_ s !! ko.1) ∧ claimed !! ko.1 = None))
                  (claimed_owners_ s) in
  let units := filter (λ ku, claimed !! ku.1 ≠ None) (claimed_units_ s) in
  mkRegistry (request_blocks_ s) claimed units owners completed cancelled.

Definition PurgeLocked (now : Z) (s : RequestBlockRegistry) : RequestBlockRegistry :=
  PurgeExpiredLifecycleLocked now (PurgeExpiredRequestBlocksLocked now s).

(** The rows of one generation. *)
Definition generation_rows (key : LifecycleKey) (m : gmap BlockKey RequestBlockRegistration)
    : gmap BlockKey RequestBlockRegistration :=
  filter (λ kr, kr.1.1 = key.1 ∧ rb_uuid kr.2 = key.2) m.
Definition without_generation (key : LifecycleKey) (m : gmap BlockKey RequestBlockRegistration)
    : gmap BlockKey RequestBlockRegistration :=
  filter (λ kr, ¬ (kr.1.1 = key.1 ∧ rb_uuid kr.2 = key.2)) m.

Definition RetireLocked (key : LifecycleKey) (s : RequestBlockRegistry)
    : Z * RequestBlockRegistry :=
  (Z.of_nat (size (generation_rows key (request_blocks_ s))),
   mkRegistry (without_generation key (request_blocks_ s)) (delete key (claimed_ s))
     (delete key (claimed_units_ s)) (delete key (claimed_owners_ s))
     (delete key (completed_units_ s)) (delete key (cancelled_ s))).

(** ** Register *)
Definition kMaxSpanCount : Z := 2 ^ 20.

Definition PoolLiveBytes (pool_proto : PoolSpecProto) : StatusOr Z :=
  pool ← PoolSpecFromProto pool_proto;
  segments ← ExpandPoolLiveSegments pool;
  Ok (foldl (λ total segment, i64 (total + segment_size segment)) 0 segments).

Fixpoint collect_live_bytes (live_bytes_by_tag : gmap string Z) (manifest : list PoolSpecProto)
    : StatusOr (gmap string Z) :=
  match manifest with
  | [] => Ok live_bytes_by_tag
  | pool :: rest =>
      live ← PoolLiveBytes pool;
      match live_bytes_by_tag !! pp_tag pool with
      | Some known => if negb (known =? live) then Err kInvalidArgument
                      else collect_live_bytes live_bytes_by_tag rest
      | None => collect_live_bytes (<[pp_tag pool := live]> live_bytes_by_tag) rest
      end
  end.

(** [span.src_offset_bytes + (span.count - 1) * span.src_stride_bytes + span.size_bytes]. *)
Definition src_end (span : PoolByteSpan) : Z :=
  i64 (i64 (src_offset_bytes span + i64 ((span_count span - 1) * src_stride_bytes span))
       + size_bytes span).

Definition validate_span (live num_ids : Z) (span : PoolByteSpan) : Status :=
  if size_bytes span <=? 0 then Err kInvalidArgument
  else if span_count span <=? 0 then Err kInvalidArgument
  else if kMaxSpanCount <? span_count span then Err kInvalidArgument
  else if (src_offset_bytes span <? 0) || (dst_offset_bytes span <? 0) ||
          (src_stride_bytes span <? 0) || (dst_stride_bytes span <? 0) ||
          (dst_block_index span <? 0) then Err kInvalidArgument
  else if dst_unit_ordinal span <? -1 then Err kInvalidArgument
  else if (src_block_ordinal span <? 0) || (num_ids <=? src_block_ordinal span)
       then Err kInvalidArgument
  else if live <? src_end span then Err kInvalidArgument
  else OkStatus.

(** The span loop: the bytes the spans add up to. *)
Fixpoint validate_spans (live num_ids span_bytes : Z) (spans : list PoolByteSpan) : StatusOr Z :=
  match spans with
  | [] => Ok span_bytes
  | span :: rest =>
      _ ← validate_span live num_ids span;
      validate_spans live num_ids
        (i64 (span_bytes + i64 (size_bytes span * span_count span))) rest
  end.

Definition validate_block_ids (ids : list Z) : Status :=
  if existsb (λ b, b <? 0) ids then Err kInvalidArgument
  else if negb (Z.of_nat (size (list_to_set ids : gset Z)) =? Z.of_nat (length ids))
       then Err kInvalidArgument
  else OkStatus.

Definition validate_entry (live_bytes_by_tag : gmap string Z) (seen : gset string)
    (entry : PoolSpanRegistration) : StatusOr PoolSpanRegistration :=
  if bool_decide (ps_tag entry = EmptyString) then Err kInvalidArgument
  else if bool_decide (ps_tag entry ∈ seen) then Err kInvalidArgument
  else match live_bytes_by_tag !! ps_tag entry with
  | None => Err kInvalidArgument
  | Some live =>
      _ ← validate_block_ids (ps_block_ids entry);
      span_bytes ← validate_spans live (Z.of_nat (length (ps_block_ids entry))) 0 (ps_spans entry);
      if negb (declared_bytes entry =? span_bytes) then Err kInvalidArgument
      else Ok (mkPoolSpans (ps_tag entry) (ps_block_ids entry) (ps_spans entry) span_bytes
                 (dst_space_version entry))
  end.

Fixpoint validate_entries (live_bytes_by_tag : gmap string Z) (seen : gset string)
    (entries : list PoolSpanRegistration) : StatusOr (list PoolSpanRegistration) :=
  match entries with
  | [] => Ok []
  | entry :: rest =>
      normalized ← validate_entry live_bytes_by_tag seen entry;
      cons normalized <$> validate_entries live_bytes_by_tag ({[ps_tag entry]} ∪ seen) rest
  end.

(** The checks made before the state transition; [snapshot] is the directory at
    the moment the manifest is read. *)
Definition Register_validate (snapshot : WorkUnitDirectory) (req_id : string) (uuid : Z)
    (unit_ : RaidenId) (block_ids : list Z) (pool_spans : list PoolSpanRegistration)
    : StatusOr (list PoolSpanRegistration) :=
  if bool_decide (req_id = EmptyString) then Err kInvalidArgument
  else if uuid <=? 0 then Err kInvalidArgument
  else
    _ ← validate_block_ids block_ids;
    if bool_decide (pool_spans = []) then Ok []
    else
      live_bytes_by_tag ← collect_live_bytes ∅ (PoolManifestLocked unit_ snapshot);
      validate_entries live_bytes_by_tag ∅ pool_spans.

(** The transition under the mutex. *)
Definition Register_locked (directory : WorkUnitDirectory) (ttl now : Z) (req_id : string)
    (uuid : Z) (unit_ : RaidenId) (normalized : list Z)
    (normalized_pool_spans : list PoolSpanRegistration) (s : RequestBlockRegistry)
    : Status * RequestBlockRegistry :=
  let registration := mkRow uuid normalized (now + ttl) normalized_pool_spans in
  let s := PurgeLocked now s in
  if negb (IsRegisteredLocked unit_ directory) then (Err kInvalidArgument, s)
  else if bool_decide (is_Some (cancelled_ s !! (req_id, uuid))) then (Err kInvalidArgument, s)
  else if bool_decide (is_Some (claimed_ s !! (req_id, uuid))) then (Err kInvalidArgument, s)
  else
    let conflicting :=
      match request_blocks_ s !! (req_id, unit_) with
      | Some current => negb (rb_uuid current =? uuid) ||
                        negb (bool_decide (rb_block_ids current = normalized)) ||
                        negb (bool_decide (rb_pool_spans current = normalized_pool_spans))
      | None => false
      end in
    if conflicting then (Err kInvalidArgument, s)
    else (OkStatus,
          mkRegistry (<[(req_id, unit_) := registration]> (request_blocks_ s)) (claimed_ s)
            (claimed_units_ s) (claimed_owners_ s) (completed_units_ s) (cancelled_ s)).

Definition Register (snapshot directory : WorkUnitDirectory) (ttl now : Z) (req_id : string)
    (uuid : Z) (unit_ : RaidenId) (block_ids : list Z) (pool_spans : list PoolSpanRegistration)
    (s : RequestBlockRegistry) : Status * RequestBlockRegistry :=
  match Register_validate snapshot req_id uuid unit_ block_ids pool_spans with
  | Err c => (Err c, s)
  | Ok normalized_pool_spans =>
      Register_locked directory ttl now req_id uuid unit_ block_ids normalized_pool_spans s
  end.

(** ** Release, Complete, CancelIfUnclaimed *)
Definition check_key (req_id : string) (uuid : Z) : Status :=
  if bool_decide (req_id = EmptyString) then Err kInvalidArgument
  else if uuid <=? 0 then Err kInvalidArgument
  else OkStatus.

Definition Release (now : Z) (req_id : string) (uuid : Z) (s : RequestBlockRegistry)
    : StatusOr Z * RequestBlockRegistry :=
  match check_key req_id uuid with
  | Err c => (Err c, s)
  | Ok _ => let '(n, s) := RetireLocked (req_id, uuid) (PurgeLocked now s) in (Ok n, s)
  end.

Definition Complete (ttl now : Z) (req_id : string) (uuid : Z) (unit_ : RaidenId)
    (s : RequestBlockRegistry) : StatusOr Z * RequestBlockRegistry :=
  match check_key req_id uuid with
  | Err c => (Err c, s)
  | Ok _ =>
      let s := PurgeLocked now s in
      let key := (req_id, uuid) in
      let expected := claimed_units_ s !! key in
      let registration := request_blocks_ s !! (req_id, unit_) in
      let registration_matches :=
        match registration with Some row => rb_uuid row =? uuid | None => false end in
      let nonempty :=
        match registration with Some row => negb (bool_decide (rb_block_ids row = [])) | None => false end in
      if negb (has_value expected) && registration_matches && nonempty
      then (Err kInvalidArgument, s)
      else
        let unit_expected := match expected with Some us => bool_decide (unit_ ∈ us) | None => false end in
        if negb registration_matches && negb unit_expected then (Ok 0, s)
        else
          let units := match completed_units_ s !! key with Some c => voted c | None => ∅ end in
          let completion := mkCompletions ({[unit_]} ∪ units) (now + ttl) in
          let s := mkRegistry (request_blocks_ s) (claimed_ s) (claimed_units_ s) (claimed_owners_ s)
                     (<[key := completion]> (completed_units_ s)) (cancelled_ s) in
          match expected with
          | Some us => if bool_decide (us ⊆ voted completion)
                       then let '(n, s) := RetireLocked key s in (Ok n, s)
                       else (Ok 0, s)
          | None => (Ok 0, s)
          end
  end.

Definition CancelIfUnclaimed (ttl now : Z) (req_id : string) (uuid : Z) (s : RequestBlockRegistry)
    : StatusOr bool * RequestBlockRegistry :=
  match check_key req_id uuid with
  | Err c => (Err c, s)
  | Ok _ =>
      let key := (req_id, uuid) in
      let s := PurgeExpiredLifecycleLocked now s in
      if bool_decide (is_Some (cancelled_ s !! key)) then (Ok true, s)
      else if bool_decide (is_Some (claimed_ s !! key)) then (Ok false, s)
      else (Ok true,
            mkRegistry (without_generation key (request_blocks_ s)) (claimed_ s)
              (delete key (claimed_units_ s)) (delete key (claimed_owners_ s))
              (delete key (completed_units_ s)) (<[key := now + ttl]> (cancelled_ s)))
  end.

(** ** Status, LookupAndClaim, AbandonClaim, InvalidateUnitLocked *)
Definition key_status (s : RequestBlockRegistry) (key : LifecycleKey) : RequestBlockStatus :=
  if bool_decide (is_Some (cancelled_ s !! key)) then kBlockCancelled
  else if bool_decide (is_Some (claimed_ s !! key)) then kClaimed
  else if bool_decide (generation_rows key (request_blocks_ s) = ∅) then kUnknown
  else kRegistered.

Definition RegistryStatus (now : Z) (keys : list LifecycleKey) (s : RequestBlockRegistry)
    : list RequestBlockStatus * RequestBlockRegistry :=
  let s := PurgeLocked now s in (key_status s <$> keys, s).

Fixpoint collect_rows (s : RequestBlockRegistry) (req_id : string) (uuid : Z)
    (units : list RaidenId) (result : gmap RaidenId RequestBlockRegistration)
    : StatusOr (gmap RaidenId RequestBlockRegistration) :=
  match units with
  | [] => Ok result
  | unit_ :: rest =>
      match request_blocks_ s !! (req_id, unit_) with
      | None => Err kInvalidArgument
      | Some row =>
          if negb (rb_uuid row =? uuid) then Err kInvalidArgument
          else collect_rows s req_id uuid rest
                 (match result !! unit_ with Some _ => result | None => <[unit_ := row]> result end)
      end
  end.

Definition LookupAndClaim (ttl now : Z) (req_id : string) (uuid : Z) (units : list RaidenId)
    (claim_owner : Z) (s : RequestBlockRegistry)
    : StatusOr (gmap RaidenId RequestBlockRegistration) * RequestBlockRegistry :=
  let key := (req_id, uuid) in
  let s := PurgeLocked now s in
  if bool_decide (is_Some (cancelled_ s !! key)) then (Err kInvalidArgument, s)
  else
    let claimed_units : gset RaidenId := list_to_set units in
    let different := match claimed_units_ s !! key with
                     | Some existing => negb (bool_decide (existing = claimed_units))
                     | None => false end in
    if different then (Err kInvalidArgument, s)
    else match collect_rows s req_id uuid units ∅ with
    | Err c => (Err c, s)
    | Ok result =>
        let owners := default ∅ (claimed_owners_ s !! key) in
        let claimed := <[key := now + ttl]> (claimed_ s) in
        let units_map := <[key := claimed_units]> (claimed_units_ s) in
        let owners_map := <[key := {[claim_owner]} ∪ owners]> (claimed_owners_ s) in
        match completed_units_ s !! key with
        | None =>
            (Ok result, mkRegistry (request_blocks_ s) claimed units_map owners_map
                          (completed_units_ s) (cancelled_ s))
        | Some completion =>
            let s := mkRegistry (request_blocks_ s) claimed units_map owners_map
                       (<[key := mkCompletions (voted completion) (now + ttl)]> (completed_units_ s))
                       (cancelled_ s) in
            if bool_decide (claimed_units ⊆ voted completion)
            then (Ok result, (RetireLocked key s).2)
            else (Ok result, s)
        end
    end.

Definition AbandonClaim (req_id : string) (uuid : Z) (claim_owner : Z) (s : RequestBlockRegistry)
    : bool * RequestBlockRegistry :=
  let key := (req_id, uuid) in
  match claimed_ s !! key, claimed_owners_ s !! key with
  | Some _, Some owners =>
      if negb (bool_decide (claim_owner ∈ owners)) then (false, s)
      else
        let owners := owners ∖ {[claim_owner]} in
        if bool_decide (owners = ∅)
        then (true, mkRegistry (request_blocks_ s) (delete key (claimed_ s))
                      (delete key (claimed_units_ s)) (delete key (claimed_owners_ s))
                      (completed_units_ s) (cancelled_ s))
        else (true, mkRegistry (request_blocks_ s) (claimed_ s) (claimed_units_ s)
                      (<[key := owners]> (claimed_owners_ s)) (completed_units_ s) (cancelled_ s))
  | _, _ => (false, s)
  end.

Definition InvalidateUnitLocked (unit_ : RaidenId) (s : RequestBlockRegistry)
    : RequestBlockRegistry :=
  mkRegistry (filter (λ kr, kr.1.2 ≠ unit_) (request_blocks_ s)) (claimed_ s) (claimed_units_ s)
    (claimed_owners_ s) (completed_units_ s) (cancelled_ s).

(** ** Lookups after a purge, a retirement or a cancellation *)
Section lookups.
Implicit Types (s : RequestBlockRegistry) (k key : LifecycleKey) (bk : BlockKey).

Lemma purge_row now s bk row :
  request_blocks_ (PurgeLocked now s) !! bk = Some row ↔
    request_blocks_ s !! bk = Some row ∧ now < expires_at row.
Proof. unfold PurgeLocked. simpl. by rewrite map_lookup_filter_Some. Qed.
Lemma purge_claimed now s k e :
  claimed_ (PurgeLocked now s) !! k = Some e ↔ claimed_ s !! k = Some e ∧ now < e.
Proof. unfold PurgeLocked. simpl. by rewrite map_lookup_filter_Some. Qed.
Lemma purge_cancelled now s k e :
  cancelled_ (PurgeLocked now s) !! k = Some e ↔ cancelled_ s !! k = Some e ∧ now < e.
Proof. unfold PurgeLocked. simpl. by rewrite map_lookup_filter_Some. Qed.
Lemma purge_completed now s k c :
  completed_units_ (PurgeLocked now s) !! k = Some c ↔
    completed_units_ s !! k = Some c ∧ now < vote_expires_at c.
Proof. unfold PurgeLocked. simpl. by rewrite map_lookup_filter_Some. Qed.
Lemma purge_units now s k us :
  claimed_units_ (PurgeLocked now s) !! k = Some us ↔
    claimed_units_ s !! k = Some us ∧ ∃ e, claimed_ s !! k = Some e ∧ now < e.
Proof.
  unfold PurgeLocked. simpl. rewrite map_lookup_filter_Some. simpl.
  destruct (filter _ (claimed_ s) !! k) as [e|] eqn:E.
  - apply map_lookup_filter_Some in E. simpl in E. naive_solver.
  - rewrite map_lookup_filter_None in E. simpl in E. naive_solver.
Qed.

(** The lifecycle invariant. *)
Record rinv s : Prop := {
  (* a claim has its unit set and its owners, and nothing else has *)
  rinv_units k : is_Some (claimed_ s !! k) ↔ is_Some (claimed_units_ s !! k);
  rinv_owners k : is_Some (claimed_ s !! k) ↔ is_Some (claimed_owners_ s !! k);
  rinv_owned k os : claimed_owners_ s !! k = Some os → os ≠ ∅;
  (* a cancelled generation is neither claimed nor registered *)
  rinv_cancelled k : is_Some (cancelled_ s !! k) → claimed_ s !! k = None;
  rinv_cancelled_rows k bk row :
    is_Some (cancelled_ s !! k) → request_blocks_ s !! bk = Some row →
    (bk.1, rb_uuid row) ≠ k;
  (* a generation all of whose ranks have voted is gone *)
  rinv_votes k us c :
    claimed_units_ s !! k = Some us → completed_units_ s !! k = Some c → ¬ us ⊆ voted c;
}.

Lemma purge_owners now s k os :
  rinv s →
  claimed_owners_ (PurgeLocked now s) !! k = Some os ↔
    claimed_owners_ s !! k = Some os ∧ ∃ e, claimed_ s !! k = Some e ∧ now < e.
Proof.
  intros Hinv. unfold PurgeLocked. simpl. rewrite map_lookup_filter_Some. simpl.
  destruct (filter _ (claimed_ s) !! k) as [e|] eqn:E.
  - apply map_lookup_filter_Some in E. simpl in E. naive_solver.
  - rewrite map_lookup_filter_None in E. simpl in E.
    pose proof (rinv_units s Hinv k) as Hu. pose proof (rinv_owners s Hinv k) as Ho.
    split; [|naive_solver]. intros [Hos Hn]. exfalso. apply Hn. split; [|done].
    apply Hu, Ho. eauto.
Qed.

Lemma purge_inv now s : rinv s → rinv (PurgeLocked now s).
Proof.
  intros Hinv. pose proof Hinv as [H1 H2 H3 H4 H5 H6]. split.
  - intros k. specialize (H1 k).
    split; intros [x Hx].
    + apply purge_claimed in Hx as [Hx Hn]. destruct (proj1 H1) as [us Hus]; [eauto|].
      exists us. apply purge_units. eauto.
    + apply purge_units in Hx as [Hx (e & He & Hn)]. exists e. by apply purge_claimed.
  - intros k. specialize (H2 k). split; intros [x Hx].
    + apply purge_claimed in Hx as [Hx Hn]. destruct (proj1 H2) as [us Hus]; [eauto|].
      exists us. apply purge_owners; [done|]. eauto.
    + apply purge_owners in Hx as [Hx (e & He & Hn)]; [|done]. exists e. by apply purge_claimed.
  - intros k os Hos. apply purge_owners in Hos as [Hos _]; [eauto|done].
  - intros k [e He]. apply purge_cancelled in He as [He _].
    destruct (claimed_ (PurgeLocked now s) !! k) as [e'|] eqn:E; [|done].
    apply purge_claimed in E as [E _]. rewrite H4 in E; [done|eauto].
  - intros k bk row [e He] Hrow. apply purge_cancelled in He as [He _].
    apply purge_row in Hrow as [Hrow _]. eauto.
  - intros k us c Hus Hc. apply purge_units in Hus as [Hus _].
    apply purge_completed in Hc as [Hc _]. eauto.
Qed.

Lemma without_generation_Some key m bk row :
  without_generation key m !! bk = Some row ↔
    m !! bk = Some row ∧ (bk.1, rb_uuid row) ≠ key.
Proof.
  unfold without_generation. rewrite map_lookup_filter_Some. simpl.
  destruct key as [r u]. simpl. naive_solver.
Qed.

(** [rinv] at one key; all fields but the rows are per key. *)
Lemma rinv_alt s :
  rinv s ↔
  (∀ k bk row, is_Some (cancelled_ s !! k) → request_blocks_ s !! bk = Some row →
     (bk.1, rb_uuid row) ≠ k) ∧
  ∀ k, (is_Some (claimed_ s !! k) ↔ is_Some (claimed_units_ s !! k)) ∧
       (is_Some (claimed_ s !! k) ↔ is_Some (claimed_owners_ s !! k)) ∧
       (∀ os, claimed_owners_ s !! k = Some os → os ≠ ∅) ∧
       (is_Some (cancelled_ s !! k) → claimed_ s !! k = None) ∧
       (∀ us c, claimed_units_ s !! k = Some us → completed_units_ s !! k = Some c →
          ¬ us ⊆ voted c).
Proof.
  split.
  - intros [H1 H2 H3 H4 H5 H6]. split; [done|]. intros k. repeat split; naive_solver.
  - intros [H1 H2]. split; [apply H2|apply H2|apply H2|apply H2|done|apply H2].
Qed.

Lemma retire_inv key s : rinv s → rinv (RetireLocked key s).2.
Proof.
  rewrite !rinv_alt. intros [H1 H2]. split; simpl.
  - intros k bk row Hk [Hrow Hne]%without_generation_Some.
    destruct (decide (k = key)) as [->|]; [done|]. rewrite lookup_delete_ne in Hk by done. eauto.
  - intros k. destruct (decide (k = key)) as [->|].
    + rewrite !lookup_delete_eq. repeat split; try done; by intros [].
    + rewrite !lookup_delete_ne by done. apply H2.
Qed.

Lemma cancel_inv ttl now req_id uuid s : rinv s → rinv (CancelIfUnclaimed ttl now req_id uuid s).2.
Proof.
  intros Hinv. unfold CancelIfUnclaimed. destruct (check_key req_id uuid); [|done].
  set (s1 := PurgeExpiredLifecycleLocked now s).
  assert (rinv s1) as Hinv1.
  { (* purging the lifecycle only *)
    pose proof (purge_inv now s Hinv) as Hp. rewrite !rinv_alt in *. destruct Hp as [_ Hp], Hinv as [Hr _].
    split; [|done]. intros k bk row [e He]. unfold s1, PurgeExpiredLifecycleLocked in He. simpl in He.
    apply map_lookup_filter_Some in He as [He _]. simpl. intros Hrow. eapply Hr; [|done]. eauto. }
  clearbody s1. case_bool_decide as Hc; [done|]. case_bool_decide as Hcl; [done|]. simpl.
  rewrite rinv_alt in *. destruct Hinv1 as [H1 H2]. split; simpl.
  - intros k bk row Hk [Hrow Hne]%without_generation_Some.
    destruct (decide (k = (req_id, uuid))) as [->|]; [done|]. rewrite lookup_insert_ne in Hk by done. eauto.
  - intros k. specialize (H2 k). destruct (decide (k = (req_id, uuid))) as [->|].
    + rewrite !lookup_delete_eq. assert (claimed_ s1 !! (req_id, uuid) = None) as -> by
        (by apply eq_None_not_Some). repeat split; try done; by intros [].
    + rewrite lookup_insert_ne, !lookup_delete_ne by done. done.
Qed.

Lemma register_inv directory ttl now req_id uuid u ids spans s :
  rinv s → rinv (Register_locked directory ttl now req_id uuid u ids spans s).2.
Proof.
  intros Hinv%(purge_inv now). unfold Register_locked.
  set (s1 := PurgeLocked now s) in *. clearbody s1.
  destruct (IsRegisteredLocked u directory); [|done]. simpl.
  case_bool_decide as Hc; [done|]. case_bool_decide as Hcl; [done|].
  destruct (match request_blocks_ s1 !! (req_id, u) with Some _ => _ | None => _ end); [done|]. simpl.
  rewrite rinv_alt in *. destruct Hinv as [H1 H2]. split; simpl; [|done].
  intros k bk row Hk. rewrite lookup_insert_Some. intros [[<- <-]|[_ Hrow]]; [|eauto].
  simpl. intros <-. done.
Qed.

Lemma complete_inv ttl now req_id uuid u s :
  rinv s → rinv (Complete ttl now req_id uuid u s).2.
Proof.
  intros Hinv. unfold Complete. destruct (check_key req_id uuid); [|done].
  apply (purge_inv now) in Hinv. set (s1 := PurgeLocked now s) in *. clearbody s1.
  destruct (negb (has_value _) && _ && _); [done|].
  destruct (negb _ && negb _); [done|].
  set (c := mkCompletions _ _).
  assert (∀ k us c', k ≠ (req_id, uuid) ∨ ¬ us ⊆ voted c →
    claimed_units_ s1 !! k = Some us →
    <[(req_id, uuid) := c]> (completed_units_ s1) !! k = Some c' → ¬ us ⊆ voted c') as Hvote.
  { intros k us c' Hor Hus Hc'. destruct (decide (k = (req_id, uuid))) as [->|].
    - rewrite lookup_insert_eq in Hc'. simplify_eq. naive_solver.
    - rewrite lookup_insert_ne in Hc' by done. by eapply (rinv_votes s1 Hinv). }
  destruct (claimed_units_ s1 !! (req_id, uuid)) as [us|] eqn:Eus.
  - case_bool_decide as Hall.
    + (* retired *)
      rewrite rinv_alt in *. destruct Hinv as [H1 H2]. split; simpl.
      * intros k bk row Hk [Hrow Hne]%without_generation_Some.
        destruct (decide (k = (req_id, uuid))) as [->|]; [done|].
        rewrite lookup_delete_ne in Hk by done. eauto.
      * intros k. specialize (H2 k). destruct (decide (k = (req_id, uuid))) as [->|].
        -- rewrite !lookup_delete_eq. repeat split; try done; by intros [].
        -- rewrite !lookup_delete_ne, lookup_insert_ne by done. done.
    + rewrite rinv_alt in *. destruct Hinv as [H1 H2]. split; simpl; [done|].
      intros k. destruct (H2 k) as (? & ? & ? & ? & _). repeat (split; [done|]).
      intros us' c' Hus'. apply Hvote; [|done].
      destruct (decide (k = (req_id, uuid))) as [->|]; [|by left]. simplify_eq. by right.
  - rewrite rinv_alt in *. destruct Hinv as [H1 H2]. split; simpl; [done|].
    intros k. destruct (H2 k) as (? & ? & ? & ? & _). repeat (split; [done|]).
    intros us' c' Hus'. apply Hvote; [|done]. left. congruence.
Qed.

Lemma claim_inv ttl now req_id uuid units owner s :
  rinv s → rinv (LookupAndClaim ttl now req_id uuid units owner s).2.
Proof.
  intros Hinv. unfold LookupAndClaim. apply (purge_inv now) in Hinv.
  set (s1 := PurgeLocked now s) in *. clearbody s1.
  case_bool_decide as Hc; [done|]. destruct (match claimed_units_ s1 !! _ with Some _ => _ | None => _ end); [done|].
  destruct (collect_rows s1 req_id uuid units ∅) as [result|]; [|done].
  set (key := (req_id, uuid)) in *. set (os := {[owner]} ∪ _).
  assert (os ≠ ∅) as Hos by set_solver.
  rewrite rinv_alt in Hinv. destruct Hinv as [H1 H2].
  destruct (completed_units_ s1 !! key) as [c|] eqn:Ec; [case_bool_decide as Hall|]; apply rinv_alt; simpl.
  - split.
    + intros k bk row Hk [Hrow Hne]%without_generation_Some.
      destruct (decide (k = key)) as [->|]; [done|]. rewrite lookup_delete_ne in Hk by done. eauto.
    + intros k. specialize (H2 k). destruct (decide (k = key)) as [->|].
      * rewrite !lookup_delete_eq. repeat split; try done; by intros [].
      * rewrite !lookup_delete_ne, !lookup_insert_ne by done. done.
  - split; [done|]. intros k. specialize (H2 k). destruct (decide (k = key)) as [->|].
    + rewrite !lookup_insert_eq. repeat split; try naive_solver.
    + rewrite !lookup_insert_ne by done. done.
  - split; [done|]. intros k. specialize (H2 k). destruct (decide (k = key)) as [->|].
    + rewrite !lookup_insert_eq. repeat split; try naive_solver.
    + rewrite !lookup_insert_ne by done. done.
Qed.

Lemma abandon_inv req_id uuid owner s : rinv s → rinv (AbandonClaim req_id uuid owner s).2.
Proof.
  intros Hinv. unfold AbandonClaim. set (key := (req_id, uuid)).
  destruct (claimed_ s !! key) eqn:Ec; [|done]. destruct (claimed_owners_ s !! key) as [os|] eqn:Eo; [|done].
  case_bool_decide as Hin; [|done]. simpl. rewrite rinv_alt in Hinv. destruct Hinv as [H1 H2].
  case_bool_decide as Hemp; apply rinv_alt; simpl; (split; [done|]); intros k; specialize (H2 k);
    destruct (decide (k = key)) as [->|].
  - rewrite !lookup_delete_eq. repeat split; try done; by intros [].
  - rewrite !lookup_delete_ne by done. done.
  - rewrite lookup_insert_eq, Ec in *. destruct H2 as (H3 & _ & _ & H6 & H7).
    split; [done|]. split; [naive_solver|]. split; [naive_solver|]. done.
  - rewrite lookup_insert_ne by done. done.
Qed.

Lemma invalidate_inv u s : rinv s → rinv (InvalidateUnitLocked u s).
Proof.
  rewrite !rinv_alt. intros [H1 H2]. split; simpl; [|done].
  intros k bk row Hk [Hrow _]%map_lookup_filter_Some. eauto.
Qed.

(** Any interleaving of the registry's calls. *)
Inductive registry_step (ttl : Z) : RequestBlockRegistry → RequestBlockRegistry → Prop :=
  | rs_register snapshot directory now req_id uuid u ids spans s :
      registry_step ttl s (Register snapshot directory ttl now req_id uuid u ids spans s).2
  | rs_release now req_id uuid s : registry_step ttl s (Release now req_id uuid s).2
  | rs_complete now req_id uuid u s : registry_step ttl s (Complete ttl now req_id uuid u s).2
  | rs_cancel now req_id uuid s : registry_step ttl s (CancelIfUnclaimed ttl now req_id uuid s).2
  | rs_status now keys s : registry_step ttl s (RegistryStatus now keys s).2
  | rs_claim now req_id uuid units owner s :
      registry_step ttl s (LookupAndClaim ttl now req_id uuid units owner s).2
  | rs_abandon req_id uuid owner s : registry_step ttl s (AbandonClaim req_id uuid owner s).2
  | rs_invalidate u s : registry_step ttl s (InvalidateUnitLocked u s).

Inductive registry_reachable (ttl : Z) : RequestBlockRegistry → Prop :=
  | rr_new : registry_reachable ttl RequestBlockRegistry_new
  | rr_step s s' : registry_reachable ttl s → registry_step ttl s s' → registry_reachable ttl s'.

Lemma registry_new_inv : rinv RequestBlockRegistry_new.
Proof.
  apply rinv_alt. split; simpl.
  - intros k bk row []. by rewrite lookup_empty in *.
  - intros k. rewrite !lookup_empty. repeat split; try done; by intros [].
Qed.

Lemma registry_step_inv ttl s s' : registry_step ttl s s' → rinv s → rinv s'.
Proof.
  intros [] Hinv.
  - unfold Register. destruct (Register_validate _ _ _ _ _ _); [by apply register_inv|done].
  - unfold Release. destruct (check_key req_id uuid); [|done]. by apply retire_inv, purge_inv.
  - by apply complete_inv.
  - by apply cancel_inv.
  - by apply purge_inv.
  - by apply claim_inv.
  - by apply abandon_inv.
  - by apply invalidate_inv.
Qed.

Lemma registry_reachable_inv ttl s : registry_reachable ttl s → rinv s.
Proof. induction 1; [apply registry_new_inv|by eapply registry_step_inv]. Qed.
End lookups.

(** ** Claim against cancellation *)
Lemma generation_rows_empty s k :
  (∀ bk row, request_blocks_ s !! bk = Some row → (bk.1, rb_uuid row) ≠ k) ↔
  generation_rows k (request_blocks_ s) = ∅.
Proof.
  split.
  - intros H. apply map_eq. intros bk. rewrite lookup_empty.
    apply map_lookup_filter_None. right. intros row Hrow [Ha Hb].
    apply (H bk row Hrow). destruct k; simpl in *; congruence.
  - intros H bk row Hrow <-. assert (generation_rows (bk.1, rb_uuid row) (request_blocks_ s) !! bk = Some row) as Hg.
    { by apply map_lookup_filter_Some. }
    by rewrite H, lookup_empty in Hg.
Qed.

Lemma cancelled_blocks_claim ttl now' req_id uuid s e units owner :
  cancelled_ s !! (req_id, uuid) = Some e → now' < e →
  (LookupAndClaim ttl now' req_id uuid units owner s).1 = Err kInvalidArgument.
Proof.
  intros He Hlt. unfold LookupAndClaim. rewrite bool_decide_true; [done|].
  exists e. by apply purge_cancelled.
Qed.
Lemma cancelled_blocks_register directory ttl now' req_id uuid s e u ids spans :
  cancelled_ s !! (req_id, uuid) = Some e → now' < e →
  (Register_locked directory ttl now' req_id uuid u ids spans s).1 = Err kInvalidArgument.
Proof.
  intros He Hlt. unfold Register_locked. destruct (IsRegisteredLocked u directory); [|done]. simpl.
  rewrite bool_decide_true; [done|]. exists e. by apply purge_cancelled.
Qed.

Lemma collect_rows_ok s req_id uuid units acc result :
  (∀ u row, acc !! u = Some row →
     request_blocks_ s !! (req_id, u) = Some row ∧ rb_uuid row = uuid) →
  collect_rows s req_id uuid units acc = Ok result →
  (∀ u row, result !! u = Some row →
     request_blocks_ s !! (req_id, u) = Some row ∧ rb_uuid row = uuid) ∧
  (∀ u, u ∈ units ∨ is_Some (acc !! u) → is_Some (result !! u)).
Proof.
  revert acc; induction units as [|u units IH]; intros acc Hacc; simpl.
  { intros [= <-]. split; [done|]. set_solver. }
  destruct (request_blocks_ s !! (req_id, u)) as [row|] eqn:E; [|done].
  destruct (Z.eqb_spec (rb_uuid row) uuid) as [Hu|]; [|done]. simpl. intros Hr.
  destruct (IH (match acc !! u with Some _ => acc | None => <[u:=row]> acc end)) as [H1 H2]; [|done|].
  { intros v row'. destruct (acc !! u) eqn:Eu; [by apply Hacc|].
    rewrite lookup_insert_Some. intros [[<- <-]|[_ Hv]]; [done|by apply Hacc]. }
  split; [done|]. intros v Hv. apply H2.
  destruct (decide (v = u)) as [->|Hne].
  - right. destruct (acc !! u) eqn:Eu; [by rewrite Eu; eauto|]. rewrite lookup_insert_eq. eauto.
  - destruct Hv as [Hv|Hv]; [left; set_solver|]. right.
    destruct (acc !! u) eqn:Eu; [done|]. by rewrite lookup_insert_ne.
Qed.

Lemma retired_unknown key s : key_status (RetireLocked key s).2 key = kUnknown.
Proof.
  unfold key_status. simpl. rewrite !lookup_delete_eq.
  rewrite !bool_decide_false by (intros []; done).
  rewrite bool_decide_true; [done|].
  apply (generation_rows_empty (RetireLocked key s).2). intros bk row Hrow.
  by apply without_generation_Some in Hrow as [_ ?].
Qed.

Lemma claimed_blocks_cancel ttl now' req_id uuid s e :
  rinv s → check_key req_id uuid = OkStatus →
  claimed_ s !! (req_id, uuid) = Some e → now' < e →
  (CancelIfUnclaimed ttl now' req_id uuid s).1 = Ok false ∧
  request_blocks_ (CancelIfUnclaimed ttl now' req_id uuid s).2 = request_blocks_ s.
Proof.
  intros Hinv Hk He Hlt. unfold CancelIfUnclaimed. rewrite Hk.
  rewrite (bool_decide_false (is_Some (cancelled_ _ !! _))).
  - rewrite bool_decide_true; [done|]. exists e. simpl. by apply map_lookup_filter_Some.
  - intros [e' He']. simpl in He'. apply map_lookup_filter_Some in He' as [He' _].
    pose proof (rinv_cancelled s Hinv (req_id, uuid)) as Hc. rewrite He in Hc.
    discriminate Hc. eauto.
Qed.

(** ** Properties *)

(** In every reachable registry, whatever the interleaving of calls and
    clock readings: a generation is claimed exactly when it has a recorded unit
    set and a non-empty set of owners; a cancelled generation is not claimed and
    no producer row of it exists; and a claimed generation always still waits
    for a vote (one all of whose ranks have voted has been retired). *)
Theorem registry_lifecycle_invariant ttl s :
  registry_reachable ttl s →
  (∀ k, is_Some (claimed_ s !! k) ↔
     is_Some (claimed_units_ s !! k) ∧ ∃ os, claimed_owners_ s !! k = Some os ∧ os ≠ ∅) ∧
  (∀ k, is_Some (cancelled_ s !! k) →
     claimed_ s !! k = None ∧ generation_rows k (request_blocks_ s) = ∅) ∧
  (∀ k us c, claimed_units_ s !! k = Some us → completed_units_ s !! k = Some c →
     ∃ u, u ∈ us ∧ u ∉ voted c).
Proof.
  intros Hinv%registry_reachable_inv. destruct Hinv as [H1 H2 H3 H4 H5 H6].
  split; [|split].
  - intros k. specialize (H1 k); specialize (H2 k). split.
    + intros Hk. split; [by apply H1|]. destruct (proj1 H2 Hk) as [os Hos]. eauto.
    + intros [_ (os & Hos & _)]. apply H2. eauto.
  - intros k Hk. split; [by apply H4|]. apply generation_rows_empty. eauto.
  - intros k us c Hus Hc. specialize (H6 k us c Hus Hc).
    destruct (decide (us ∖ voted c = ∅)) as [He|He].
    + exfalso. apply H6. set_solver.
    + apply set_choose_L in He as [u Hu]. exists u. set_solver.
Qed.

(** *** Completion votes *)

(** A vote of an expected unit on a live claim. *)
Lemma Complete_claimed ttl now req_id uuid u s us e :
  check_key req_id uuid = OkStatus →
  claimed_ s !! (req_id, uuid) = Some e → now < e →
  claimed_units_ s !! (req_id, uuid) = Some us → u ∈ us →
  let s1 := PurgeLocked now s in
  let votes := match completed_units_ s1 !! (req_id, uuid) with Some c => voted c | None => ∅ end in
  let s2 := mkRegistry (request_blocks_ s1) (claimed_ s1) (claimed_units_ s1) (claimed_owners_ s1)
              (<[(req_id, uuid) := mkCompletions ({[u]} ∪ votes) (now + ttl)]> (completed_units_ s1))
              (cancelled_ s1) in
  Complete ttl now req_id uuid u s =
    if bool_decide (us ⊆ {[u]} ∪ votes)
    then (Ok (RetireLocked (req_id, uuid) s2).1, (RetireLocked (req_id, uuid) s2).2)
    else (Ok 0, s2).
Proof.
  intros Hk He Hlt Hus Hu. unfold Complete. rewrite Hk.
  assert (claimed_units_ (PurgeLocked now s) !! (req_id, uuid) = Some us) as -> by
    (apply purge_units; eauto).
  cbn [has_value negb andb]. rewrite (bool_decide_true (u ∈ us)) by done.
  rewrite andb_false_r. done.
Qed.

(** Votes in order, each with its clock reading. *)
Fixpoint run_completes (ttl : Z) (req_id : string) (uuid : Z) (votes : list (Z * RaidenId))
    (s : RequestBlockRegistry) : list (StatusOr Z) * RequestBlockRegistry :=
  match votes with
  | [] => ([], s)
  | (now, u) :: rest =>
      let '(r, s) := Complete ttl now req_id uuid u s in
      let '(rs, s) := run_completes ttl req_id uuid rest s in (r :: rs, s)
  end.

(** Every vote arrives before the claim expires at [e], and before the votes
    so far expire at [v]. *)
Fixpoint timely (ttl e v : Z) (votes : list (Z * RaidenId)) : Prop :=
  match votes with
  | [] => True
  | (now, _) :: rest => now < e ∧ now < v ∧ timely ttl e (now + ttl) rest
  end.

Lemma run_completes_retires ttl req_id uuid votes s us done_ e v :
  check_key req_id uuid = OkStatus →
  claimed_ s !! (req_id, uuid) = Some e → claimed_units_ s !! (req_id, uuid) = Some us →
  completed_units_ s !! (req_id, uuid)
    = (if decide (done_ = ∅) then None else Some (mkCompletions done_ v)) →
  votes ≠ [] → NoDup votes.*2 → (list_to_set votes.*2 : gset RaidenId) = us ∖ done_ → done_ ⊆ us →
  timely ttl e v votes →
  ∃ n s', run_completes ttl req_id uuid votes s =
            (replicate (length votes - 1) (Ok 0) ++ [Ok n], s') ∧
    key_status s' (req_id, uuid) = kUnknown ∧ completed_units_ s' !! (req_id, uuid) = None.
Proof.
  intros Hk. revert s done_ v; induction votes as [|[now u] votes IH]; intros s done_ v He Hus Hc Hne Hnd Hset Hsub Ht; [done|].
  destruct Ht as (Hlt & Hv & Ht). apply NoDup_cons in Hnd as [Hu Hnd].
  assert (u ∈ us ∧ u ∉ done_) as [Huus Hud].
  { apply elem_of_difference. rewrite <- Hset. set_solver. }
  cbn [run_completes]. rewrite (Complete_claimed ttl now req_id uuid u s us e Hk He Hlt Hus Huus).
  assert (match completed_units_ (PurgeLocked now s) !! (req_id, uuid) with
          | Some c => voted c | None => ∅ end = done_) as Hvotes.
  { destruct (completed_units_ (PurgeLocked now s) !! (req_id, uuid)) as [c|] eqn:Ec.
    - apply purge_completed in Ec as [Ec _]. rewrite Hc in Ec. by case_decide; simplify_eq.
    - case_decide as Hd; [done|]. exfalso.
      assert (completed_units_ (PurgeLocked now s) !! (req_id, uuid) = Some (mkCompletions done_ v)) as E'.
      { apply purge_completed. split; [done|]. done. }
      congruence. }
  rewrite Hvotes. set (s2 := mkRegistry _ _ _ _ _ _).
  destruct votes as [|[now' u'] votes].
  - assert (us ⊆ {[u]} ∪ done_) as Hall.
    { intros x Hx. destruct (decide (x ∈ done_)); [set_solver|].
      assert (x ∈ us ∖ done_) as Hx' by set_solver. rewrite <- Hset in Hx'. set_solver. }
    rewrite bool_decide_true by done. eexists _, _. split; [reflexivity|].
    split; [apply retired_unknown|]. simpl. by rewrite lookup_delete_eq.
  - assert (u' ∈ us ∖ done_) as Hu'. { rewrite <- Hset. set_solver. }
    rewrite bool_decide_false by (cbn in Hu; set_solver).
    destruct (IH s2 ({[u]} ∪ done_) (now + ttl)) as (n & s' & E & Hst & Hcm).
    + apply purge_claimed. done.
    + apply purge_units. eauto.
    + rewrite decide_False by set_solver. simpl. by rewrite lookup_insert_eq.
    + done.
    + done.
    + replace (us ∖ ({[u]} ∪ done_)) with ((us ∖ done_) ∖ {[u]}) by set_solver.
      rewrite <- Hset. change (list_to_set (((now, u) :: (now', u') :: votes).*2) : gset RaidenId)
        with ({[u]} ∪ list_to_set (((now', u') :: votes).*2) : gset RaidenId).
      assert (u ∉ (list_to_set (((now', u') :: votes).*2) : gset RaidenId)) as Hu2
        by (by rewrite elem_of_list_to_set).
      generalize dependent (list_to_set (((now', u') :: votes).*2) : gset RaidenId).
      clear. set_solver.
    + set_solver.
    + done.
    + exists n, s'. rewrite E. simpl. by rewrite Nat.sub_0_r.
Qed.

(** The last vote retires the generation: once a unit set is claimed and no
    vote is in, the ranks' completion votes, in any order, each in time, all
    return 0 except the last, which retires the generation: it is then unknown,
    with no claim, vote or row left. *)
Theorem registry_last_vote_retires ttl s req_id uuid us e votes :
  registry_reachable ttl s → check_key req_id uuid = OkStatus →
  claimed_ s !! (req_id, uuid) = Some e → claimed_units_ s !! (req_id, uuid) = Some us →
  completed_units_ s !! (req_id, uuid) = None → us ≠ ∅ →
  NoDup votes.*2 → (list_to_set votes.*2 : gset RaidenId) = us → timely ttl e e votes →
  ∃ n s', run_completes ttl req_id uuid votes s =
            (replicate (length votes - 1) (Ok 0) ++ [Ok n], s') ∧
    key_status s' (req_id, uuid) = kUnknown ∧ completed_units_ s' !! (req_id, uuid) = None.
Proof.
  intros _ Hk He Hus Hc Hne Hnd Hset Ht.
  eapply (run_completes_retires ttl req_id uuid votes s us ∅ e e); try done; try set_solver.
  intros ->. set_solver.
Qed.

(** *** Claims and cancellations over whole histories *)

(** The calls, each with its clock reading. *)
Inductive Call :=
  | CRegister (snapshot directory : WorkUnitDirectory) (now : Z) (req_id : string) (uuid : Z) (u : RaidenId) (ids : list Z)
      (spans : list PoolSpanRegistration)
  | CRelease (now : Z) (req_id : string) (uuid : Z)
  | CComplete (now : Z) (req_id : string) (uuid : Z) (u : RaidenId)
  | CCancel (now : Z) (req_id : string) (uuid : Z)
  | CStatus (now : Z) (keys : list LifecycleKey)
  | CClaim (now : Z) (req_id : string) (uuid : Z) (units : list RaidenId) (owner : Z)
  | CAbandon (req_id : string) (uuid : Z) (owner : Z)
  | CInvalidate (u : RaidenId).
Definition run_call (ttl : Z) (c : Call) (s : RequestBlockRegistry) : RequestBlockRegistry :=
  match c with
  | CRegister snapshot directory now req_id uuid u ids spans => (Register snapshot directory ttl now req_id uuid u ids spans s).2
  | CRelease now req_id uuid => (Release now req_id uuid s).2
  | CComplete now req_id uuid u => (Complete ttl now req_id uuid u s).2
  | CCancel now req_id uuid => (CancelIfUnclaimed ttl now req_id uuid s).2
  | CStatus now keys => (RegistryStatus now keys s).2
  | CClaim now req_id uuid units owner => (LookupAndClaim ttl now req_id uuid units owner s).2
  | CAbandon req_id uuid owner => (AbandonClaim req_id uuid owner s).2
  | CInvalidate u => InvalidateUnitLocked u s
  end.
Definition run_calls (ttl : Z) (calls : list Call) (s : RequestBlockRegistry) : RequestBlockRegistry :=
  foldl (λ s c, run_call ttl c s) s calls.
(** The call reads the clock in [[from, until)], if at all. *)
Definition call_within (from until : Z) (c : Call) : Prop :=
  match c with
  | CRegister _ _ now _ _ _ _ _ | CRelease now _ _ | CComplete now _ _ _ | CCancel now _ _ | CStatus now _ | CClaim now _ _ _ _ =>
      from <= now < until
  | CAbandon _ _ _ | CInvalidate _ => True
  end.
(** Calls that end a generation by their own right. *)
Definition releases (key : LifecycleKey) (c : Call) : Prop :=
  match c with CRelease _ req_id uuid => (req_id, uuid) = key | _ => False end.
Definition abandons (key : LifecycleKey) (c : Call) : Prop :=
  match c with CAbandon req_id uuid _ => (req_id, uuid) = key | _ => False end.
Definition votes_for (key : LifecycleKey) (u : RaidenId) (c : Call) : Prop :=
  match c with CComplete _ req_id uuid u' => (req_id, uuid) = key ∧ u' = u | _ => False end.

Lemma run_call_step ttl c s : registry_step ttl s (run_call ttl c s).
Proof. destruct c; constructor. Qed.
Lemma run_call_inv ttl c s : rinv s → rinv (run_call ttl c s).
Proof. apply registry_step_inv with ttl, run_call_step. Qed.

(** A tombstone stands until it expires, unless the generation is released. *)
Lemma tombstone_stays ttl key e from c s :
  rinv s → cancelled_ s !! key = Some e → call_within from e c → ¬ releases key c →
  cancelled_ (run_call ttl c s) !! key = Some e.
Proof.
  intros Hinv He Ht Hr.
  assert (∀ now, now < e → cancelled_ (PurgeLocked now s) !! key = Some e) as Hp by (intros; by apply purge_cancelled).
  assert (∀ now, claimed_units_ (PurgeLocked now s) !! key = None) as Hu.
  { intros now. apply eq_None_not_Some. intros [us Hus]. apply purge_units in Hus as [_ (e' & He' & _)].
    rewrite (rinv_cancelled s Hinv key) in He'; [done|eauto]. }
  destruct c; cbn [run_call call_within releases] in *; [| | | | | | |done].
  - unfold Register. case_match; [|done]. unfold Register_locked. repeat case_match; cbn; apply Hp; lia.
  - unfold Release. destruct (check_key req_id uuid); [|done]. cbn. rewrite lookup_delete_ne by done. apply Hp. lia.
  - unfold Complete. destruct (check_key req_id uuid); [|done].
    destruct (negb (has_value _) && _ && _); [apply Hp; lia|]. destruct (negb _ && negb _); [apply Hp; lia|].
    destruct (claimed_units_ (PurgeLocked now s) !! (req_id, uuid)) as [us|] eqn:Eu; [|apply Hp; lia].
    case_bool_decide; [|apply Hp; lia]. cbn. rewrite lookup_delete_ne; [apply Hp; lia|]. intros <-. by rewrite Hu in Eu.
  - unfold CancelIfUnclaimed. destruct (check_key req_id uuid); [|done]. cbn [PurgeExpiredLifecycleLocked cancelled_ claimed_].
    pose proof (Hp now ltac:(lia)) as Hc. cbn in Hc. case_bool_decide as Hd; [done|]. case_bool_decide; [done|]. cbn.
    rewrite lookup_insert_ne; [done|]. intros <-. destruct Hd. eauto.
  - apply Hp. lia.
  - unfold LookupAndClaim. case_bool_decide as Hd; [apply Hp; lia|].
    destruct (match claimed_units_ _ !! _ with Some _ => _ | None => _ end); [apply Hp; lia|].
    destruct (collect_rows _ _ _ _ _); [|apply Hp; lia]. destruct (completed_units_ _ !! _); [|apply Hp; lia].
    case_bool_decide; [|apply Hp; lia]. cbn. rewrite lookup_delete_ne; [apply Hp; lia|].
    intros <-. destruct Hd. rewrite Hp by lia. eauto.
  - unfold AbandonClaim. by repeat case_match.
Qed.
Lemma tombstone_stands ttl key e from calls s :
  rinv s → cancelled_ s !! key = Some e → Forall (λ c, call_within from e c ∧ ¬ releases key c) calls →
  rinv (run_calls ttl calls s) ∧ cancelled_ (run_calls ttl calls s) !! key = Some e.
Proof.
  intros Hinv He Hc. revert s Hinv He; induction Hc as [|c calls [Ht Hr] _ IH]; intros s Hinv He; [done|]. cbn.
  apply IH; [by apply run_call_inv|by eapply tombstone_stays].
Qed.

(** A claim stands while one of its ranks has not voted, unless it is abandoned or the
    generation is released. *)
Definition votes_of (key : LifecycleKey) (s : RequestBlockRegistry) : gset RaidenId :=
  match completed_units_ s !! key with Some c => voted c | None => ∅ end.
Record claim_stands (key : LifecycleKey) (us : gset RaidenId) (u0 : RaidenId) (until : Z) (s : RequestBlockRegistry) : Prop := {
  cs_claimed : ∃ e, claimed_ s !! key = Some e ∧ until <= e;
  cs_units : claimed_units_ s !! key = Some us;
  cs_missing : u0 ∈ us ∧ u0 ∉ votes_of key s;
}.
Lemma claim_purged key us u0 until now s :
  claim_stands key us u0 until s → now < until → claim_stands key us u0 until (PurgeLocked now s).
Proof.
  intros [(e & He & Hle) Hus [Hin Hv]] Hlt. split.
  - exists e. split; [apply purge_claimed; split; [done|lia]|done].
  - apply purge_units. split; [done|]. exists e. split; [done|lia].
  - split; [done|]. unfold votes_of in *. destruct (completed_units_ (PurgeLocked now s) !! key) as [c|] eqn:Ec; [|set_solver].
    apply purge_completed in Ec as [Ec _]. by rewrite Ec in Hv.
Qed.
Lemma claim_purged_lifecycle key us u0 until now s :
  claim_stands key us u0 until s → now < until → claim_stands key us u0 until (PurgeExpiredLifecycleLocked now s).
Proof. intros Hs Hlt. destruct (claim_purged _ _ _ _ now _ Hs Hlt) as [H1 H2 H3]. by split. Qed.
(** The claim at [key] survives what changes other generations, or its rows. *)
Lemma claim_same key us u0 until s s' :
  claimed_ s' !! key = claimed_ s !! key → claimed_units_ s' !! key = claimed_units_ s !! key →
  completed_units_ s' !! key = completed_units_ s !! key → claim_stands key us u0 until s → claim_stands key us u0 until s'.
Proof. intros E1 E2 E3 [H1 H2 H3]. split; [by rewrite E1|by rewrite E2|]. unfold votes_of in *. by rewrite E3. Qed.
Lemma claim_retired_other key key' us u0 until s :
  key' ≠ key → claim_stands key us u0 until s → claim_stands key us u0 until (RetireLocked key' s).2.
Proof. intros Hne. apply claim_same; cbn; by rewrite lookup_delete_ne. Qed.

Lemma vote_keeps_claim ttl key us u0 until now req_id uuid u s :
  claim_stands key us u0 until s → now < until → ¬ ((req_id, uuid) = key ∧ u = u0) →
  claim_stands key us u0 until (Complete ttl now req_id uuid u s).2.
Proof.
  intros Hs Hlt Hno. unfold Complete. destruct (check_key req_id uuid); [|done].
  pose proof (claim_purged _ _ _ _ now _ Hs Hlt) as Hp. set (s1 := PurgeLocked now s) in *. clearbody s1. clear Hs s.
  destruct (negb (has_value _) && _ && _); [done|]. destruct (negb _ && negb _); [done|]. set (c := mkCompletions _ _). set (s2 := mkRegistry _ _ _ _ _ _).
  assert (claim_stands key us u0 until s2) as Hs2.
  { destruct (decide ((req_id, uuid) = key)) as [E|Hne].
    - destruct Hp as [H1 H2 [Hin Hv]]. split; [done|done|]. split; [done|]. unfold votes_of, s2, c in *. cbn. rewrite E, lookup_insert_eq. cbn.
      apply not_elem_of_union. split; [|done]. intros ->%elem_of_singleton. by destruct Hno.
    - eapply claim_same, Hp; [done|done|]. cbn. by rewrite lookup_insert_ne. }
  destruct (claimed_units_ s1 !! (req_id, uuid)) as [us'|] eqn:Eu; [|done]. case_bool_decide as Hall; [|done].
  destruct (decide ((req_id, uuid) = key)) as [E|Hne]; [exfalso|by apply claim_retired_other].
  rewrite E in Eu. rewrite (cs_units _ _ _ _ _ Hp) in Eu. injection Eu as <-. destruct (cs_missing _ _ _ _ _ Hs2) as [Hin Hv].
  apply Hv. unfold votes_of, s2. cbn. rewrite E, lookup_insert_eq. by apply Hall.
Qed.
Lemma reclaim_keeps_claim ttl key us u0 until now req_id uuid units owner s :
  claim_stands key us u0 until s → now < until → until <= now + ttl →
  claim_stands key us u0 until (LookupAndClaim ttl now req_id uuid units owner s).2.
Proof.
  intros Hs Hlt Hle. unfold LookupAndClaim. pose proof (claim_purged _ _ _ _ now _ Hs Hlt) as Hp. set (s1 := PurgeLocked now s) in *. clearbody s1. clear Hs s.
  case_bool_decide; [done|]. destruct (match claimed_units_ _ !! _ with Some _ => _ | None => _ end) eqn:Ed; [done|].
  destruct (collect_rows _ _ _ _ _); [|done].
  destruct (decide ((req_id, uuid) = key)) as [E|Hne].
  - destruct Hp as [H1 H2 [Hin Hv]]. rewrite E in *. rewrite H2 in Ed. apply negb_false_iff, bool_decide_eq_true in Ed. subst us.
    unfold votes_of in Hv. destruct (completed_units_ s1 !! key) as [c|] eqn:Ec.
    + rewrite bool_decide_false by (intros Hall; by apply Hv, Hall). split; cbn; rewrite ?lookup_insert_eq; [by eexists|done|].
      split; [done|]. unfold votes_of. cbn. by rewrite lookup_insert_eq.
    + split; cbn; rewrite ?lookup_insert_eq; [by eexists|done|]. split; [done|]. unfold votes_of. cbn. by rewrite Ec.
  - destruct (completed_units_ _ !! _); [case_bool_decide; [apply claim_retired_other; [done|]|]|]; (eapply claim_same, Hp); cbn; rewrite ?lookup_insert_ne by done; done.
Qed.
Lemma claim_stays ttl key us u0 from c s :
  rinv s → claim_stands key us u0 (from + ttl) s → call_within from (from + ttl) c →
  ¬ releases key c → ¬ abandons key c → ¬ votes_for key u0 c →
  claim_stands key us u0 (from + ttl) (run_call ttl c s).
Proof.
  intros Hinv Hs Ht Hr Ha Hv. destruct c; cbn [run_call call_within releases abandons votes_for] in *.
  - unfold Register. case_match; [|done]. unfold Register_locked. pose proof (claim_purged _ _ _ _ now _ Hs ltac:(lia)) as Hp.
    repeat case_match; try done; by eapply claim_same, Hp.
  - unfold Release. destruct (check_key req_id uuid); [|done]. apply claim_retired_other; [done|]. apply claim_purged; [done|lia].
  - apply vote_keeps_claim; [done|lia|done].
  - unfold CancelIfUnclaimed. destruct (check_key req_id uuid); [|done].
    pose proof (claim_purged_lifecycle _ _ _ _ now _ Hs ltac:(lia)) as Hp. case_bool_decide; [done|]. case_bool_decide as Hc; [done|].
    destruct (decide ((req_id, uuid) = key)) as [E|Hne]; [destruct Hc; destruct (cs_claimed _ _ _ _ _ Hp) as (e & He & _); rewrite E; eauto|].
    eapply claim_same, Hp; cbn; [done|by rewrite lookup_delete_ne|by rewrite lookup_delete_ne].
  - apply claim_purged; [done|lia].
  - apply reclaim_keeps_claim; [done|lia|lia].
  - unfold AbandonClaim. destruct (claimed_ s !! (req_id, uuid)); [|done]. destruct (claimed_owners_ s !! (req_id, uuid)); [|done].
    case_bool_decide; [|done]. cbn [negb]. case_bool_decide; (eapply claim_same, Hs); cbn; rewrite ?lookup_delete_ne; done.
  - by eapply claim_same, Hs.
Qed.
Lemma claim_holds ttl key us u0 from calls s :
  rinv s → claim_stands key us u0 (from + ttl) s →
  Forall (λ c, call_within from (from + ttl) c ∧ ¬ releases key c ∧ ¬ abandons key c ∧ ¬ votes_for key u0 c) calls →
  rinv (run_calls ttl calls s) ∧ claim_stands key us u0 (from + ttl) (run_calls ttl calls s).
Proof.
  intros Hinv Hs Hc. revert s Hinv Hs; induction Hc as [|c calls (? & ? & ? & ?) _ IH]; intros s Hinv Hs; [done|]. cbn.
  apply IH; [by apply run_call_inv|by apply claim_stays].
Qed.

(** What a claim that succeeds copies and records. *)
Lemma collect_rows_dom s req_id uuid units acc result :
  collect_rows s req_id uuid units acc = Ok result → ∀ u, is_Some (result !! u) → u ∈ units ∨ is_Some (acc !! u).
Proof.
  revert acc; induction units as [|u units IH]; intros acc; cbn; [intros [= <-]; by right|].
  destruct (request_blocks_ s !! (req_id, u)) as [row|]; [|done]. destruct (negb _); [done|]. intros E v Hv.
  destruct (IH _ E v Hv) as [Hi|Hi]; [left; by right|]. destruct (acc !! u) eqn:Eu; [by right|].
  destruct (decide (u = v)) as [->|Hne]; [left; by left|]. rewrite lookup_insert_ne in Hi by done. by right.
Qed.
Lemma collect_rows_total s req_id uuid units acc :
  (∀ u, u ∈ units → ∃ row, request_blocks_ s !! (req_id, u) = Some row ∧ rb_uuid row = uuid) →
  ∃ result, collect_rows s req_id uuid units acc = Ok result.
Proof.
  revert acc; induction units as [|u units IH]; intros acc Hrows; cbn; [eauto|].
  destruct (Hrows u) as (row & -> & <-); [by left|]. rewrite Z.eqb_refl. cbn. apply IH. intros v Hv. apply Hrows. by right.
Qed.

(** What a generation is at the time [now]: claimed, under a tombstone, the votes in
    force, its live rows, and the unit sets that can claim it. *)
Definition claimed_at (now : Z) (key : LifecycleKey) (s : RequestBlockRegistry) : bool :=
  match claimed_ s !! key with Some e => now <? e | None => false end.
Definition tombstone_at (now : Z) (key : LifecycleKey) (s : RequestBlockRegistry) : option Z :=
  match cancelled_ s !! key with Some e => if now <? e then Some e else None | None => None end.
Definition votes_at (now : Z) (key : LifecycleKey) (s : RequestBlockRegistry) : option (gset RaidenId) :=
  match completed_units_ s !! key with
  | Some c => if now <? vote_expires_at c then Some (voted c) else None
  | None => None
  end.
(** A vote of every unit is in force. *)
Definition voted_out (now : Z) (key : LifecycleKey) (units : list RaidenId) (s : RequestBlockRegistry) : bool :=
  match votes_at now key s with Some votes => bool_decide (list_to_set units ⊆ votes) | None => false end.
Definition row_at (now : Z) (key : LifecycleKey) (s : RequestBlockRegistry) (u : RaidenId) (row : RequestBlockRegistration) : Prop :=
  request_blocks_ s !! (key.1, u) = Some row ∧ rb_uuid row = key.2 ∧ now < expires_at row.
Definition claimable (now : Z) (key : LifecycleKey) (units : list RaidenId) (s : RequestBlockRegistry) : Prop :=
  tombstone_at now key s = None ∧
  (claimed_at now key s = true → claimed_units_ s !! key = Some (list_to_set units)) ∧
  ∀ u, u ∈ units → ∃ row, row_at now key s u row.

Lemma claimed_at_purge now key s : claimed_at now key s = bool_decide (is_Some (claimed_ (PurgeLocked now s) !! key)).
Proof.
  unfold claimed_at. cbn. destruct (claimed_ s !! key) as [e|] eqn:E.
  - destruct (Z.ltb_spec now e).
    + symmetry. apply bool_decide_eq_true. exists e. by apply map_lookup_filter_Some.
    + symmetry. apply bool_decide_eq_false. intros [e' [E' ?]%map_lookup_filter_Some]. simplify_eq/=. lia.
  - symmetry. apply bool_decide_eq_false. intros [e' [E' ?]%map_lookup_filter_Some]. by simplify_eq.
Qed.
Lemma tombstone_at_purge now key s : tombstone_at now key s = cancelled_ (PurgeLocked now s) !! key.
Proof.
  unfold tombstone_at. symmetry. destruct (cancelled_ s !! key) as [e|] eqn:E.
  - destruct (Z.ltb_spec now e); [by apply purge_cancelled|]. apply eq_None_not_Some. intros [e' [? ?]%purge_cancelled]. simplify_eq. lia.
  - apply eq_None_not_Some. intros [e' [? ?]%purge_cancelled]. by simplify_eq.
Qed.
Lemma votes_at_purge now key s : votes_at now key s = voted <$> completed_units_ (PurgeLocked now s) !! key.
Proof.
  unfold votes_at. destruct (completed_units_ (PurgeLocked now s) !! key) as [c|] eqn:Ec; cbn.
  - apply purge_completed in Ec as [-> Hlt]. by rewrite (proj2 (Z.ltb_lt _ _)).
  - destruct (completed_units_ s !! key) as [c|] eqn:E; [|done]. destruct (Z.ltb_spec now (vote_expires_at c)); [|done].
    rewrite (proj2 (purge_completed now s key c)) in Ec; done.
Qed.

(** After a cancellation: until [e], whatever else is called short of releasing the
    generation, it keeps no row, cannot be claimed or registered, and stays cancelled. *)
Definition closed_until (ttl e : Z) (req_id : string) (uuid : Z) (s : RequestBlockRegistry) : Prop :=
  ∀ from calls now', Forall (λ c, call_within from e c ∧ ¬ releases (req_id, uuid) c) calls → now' < e →
  let s' := run_calls ttl calls s in
  generation_rows (req_id, uuid) (request_blocks_ s') = ∅ ∧
  (∀ units owner, (LookupAndClaim ttl now' req_id uuid units owner s').1 = Err kInvalidArgument) ∧
  (∀ snapshot directory u ids spans, (Register snapshot directory ttl now' req_id uuid u ids spans s').1 ≠ OkStatus) ∧
  (CancelIfUnclaimed ttl now' req_id uuid s').1 = Ok true.
(** After a claim at [now] that the rank [u0] has not voted on: until [now + ttl], whatever
    else is called short of releasing or abandoning the generation or [u0]'s vote, the claim
    stands and a cancellation is refused and removes no row. *)
Definition held_until (ttl now : Z) (u0 : RaidenId) (req_id : string) (uuid : Z) (s : RequestBlockRegistry) : Prop :=
  ∀ calls now',
  Forall (λ c, call_within now (now + ttl) c ∧ ¬ releases (req_id, uuid) c ∧ ¬ abandons (req_id, uuid) c ∧
               ¬ votes_for (req_id, uuid) u0 c) calls → now' < now + ttl →
  let s' := run_calls ttl calls s in
  claimed_at now' (req_id, uuid) s' = true ∧
  CancelIfUnclaimed ttl now' req_id uuid s' = (Ok false, PurgeExpiredLifecycleLocked now' s').

Lemma tombstone_closes ttl e req_id uuid s :
  rinv s → check_key req_id uuid = OkStatus → cancelled_ s !! (req_id, uuid) = Some e → closed_until ttl e req_id uuid s.
Proof.
  intros Hinv Hk He from calls now' Hcalls Hlt s'. destruct (tombstone_stands ttl _ _ _ _ _ Hinv He Hcalls) as [Hinv' He'].
  fold s' in Hinv', He'. clearbody s'. split; [|split; [|split]].
  - apply generation_rows_empty. intros bk row. apply (rinv_cancelled_rows s' Hinv'). eauto.
  - intros. by eapply cancelled_blocks_claim.
  - intros. unfold Register. destruct (Register_validate _ _ _ _ _ _); [|done]. by erewrite cancelled_blocks_register.
  - unfold CancelIfUnclaimed. rewrite Hk. rewrite bool_decide_true; [done|]. exists e. cbn. by apply map_lookup_filter_Some.
Qed.
Lemma claim_refuses_cancel ttl now u0 us req_id uuid s :
  rinv s → check_key req_id uuid = OkStatus → claim_stands (req_id, uuid) us u0 (now + ttl) s → held_until ttl now u0 req_id uuid s.
Proof.
  intros Hinv Hk Hs calls now' Hcalls Hlt s'. destruct (claim_holds ttl _ _ _ _ _ _ Hinv Hs Hcalls) as [Hinv' Hs'].
  fold s' in Hinv', Hs'. clearbody s'. destruct (cs_claimed _ _ _ _ _ Hs') as (e & He & Hle). split.
  - unfold claimed_at. rewrite He. lia.
  - destruct (claimed_blocks_cancel ttl now' req_id uuid s' e Hinv' Hk He ltac:(lia)) as [H1 _]. revert H1.
    unfold CancelIfUnclaimed. rewrite Hk. by repeat case_bool_decide.
Qed.

(** The outcome of a cancellation. *)
Lemma cancel_outcome ttl now req_id uuid s :
  rinv s → check_key req_id uuid = OkStatus →
  let r := CancelIfUnclaimed ttl now req_id uuid s in
  r.1 = Ok (negb (claimed_at now (req_id, uuid) s)) ∧
  (r.1 = Ok true → cancelled_ r.2 !! (req_id, uuid) = Some (default (now + ttl) (tombstone_at now (req_id, uuid) s))).
Proof.
  intros Hinv Hk. cbn zeta. rewrite claimed_at_purge, tombstone_at_purge. pose proof (rinv_cancelled _ (purge_inv now s Hinv) (req_id, uuid)) as Hx.
  unfold CancelIfUnclaimed. rewrite Hk. cbn in *. case_bool_decide as Hc.
  - cbn. rewrite (Hx Hc), bool_decide_false by (by intros []). split; [done|]. intros _. by destruct Hc as [e ->].
  - apply eq_None_not_Some in Hc. rewrite Hc. case_bool_decide; cbn; [done|]. split; [done|]. intros _. by rewrite lookup_insert_eq.
Qed.

Lemma collect_ok_rows s req_id uuid units :
  (∃ result, collect_rows s req_id uuid units ∅ = Ok result) ↔
  ∀ u, u ∈ units → ∃ row, request_blocks_ s !! (req_id, u) = Some row ∧ rb_uuid row = uuid.
Proof.
  split; [|apply collect_rows_total]. intros [result Er] u Hu.
  apply collect_rows_ok in Er as [Hrow Hdom]; [|intros v row; by rewrite lookup_empty].
  destruct (Hdom u) as [row E]; [by left|]. eauto.
Qed.
(** When a claim succeeds, what it copies and what it records. *)
Lemma claim_succeeds ttl now req_id uuid units owner s :
  rinv s →
  (∃ result, (LookupAndClaim ttl now req_id uuid units owner s).1 = Ok result) ↔ claimable now (req_id, uuid) units s.
Proof.
  intros Hinv%(purge_inv now). unfold claimable. rewrite tombstone_at_purge, claimed_at_purge.
  assert (∀ us, claimed_units_ (PurgeLocked now s) !! (req_id, uuid) = Some us →
            claimed_units_ s !! (req_id, uuid) = Some us) as Hus by (intros us [? _]%purge_units; done).
  pose proof (rinv_units _ Hinv (req_id, uuid)) as Hcu.
  assert (∀ u row, row_at now (req_id, uuid) s u row ↔
            request_blocks_ (PurgeLocked now s) !! (req_id, u) = Some row ∧ rb_uuid row = uuid) as Hrow.
  { intros u row. unfold row_at. rewrite purge_row. naive_solver. }
  unfold LookupAndClaim. set (s1 := PurgeLocked now s) in *. clearbody s1. case_bool_decide as Hc.
  { split; [by intros []|]. intros [E _]. rewrite E in Hc. by destruct Hc. }
  apply eq_None_not_Some in Hc. pose proof (collect_ok_rows s1 req_id uuid units) as Hrows. set (different := match _ with Some _ => _ | None => _ end).
  assert (different = false ↔ (bool_decide (is_Some (claimed_ s1 !! (req_id, uuid))) = true →
            claimed_units_ s !! (req_id, uuid) = Some (list_to_set units))) as Hsame.
  { unfold different. destruct (claimed_units_ s1 !! (req_id, uuid)) as [us|].
    - rewrite (bool_decide_true (is_Some (claimed_ s1 !! _))) by (apply Hcu; eauto). rewrite (Hus us) by done. case_bool_decide; naive_solver.
    - rewrite (bool_decide_false (is_Some (claimed_ s1 !! _))) by (rewrite Hcu; by intros []). done. }
  destruct different; [split; [by intros []|naive_solver]|]. destruct (collect_rows s1 req_id uuid units ∅) as [r|].
  - split.
    { intros _. split; [done|]. split; [by apply Hsame|]. intros u Hu.
      destruct (proj1 Hrows (ex_intro _ r eq_refl) u Hu) as [row Hr]. exists row. by apply Hrow. }
    intros _. exists r. clear Hsame. destruct (completed_units_ s1 !! _); [case_bool_decide|]; done.
  - split; [by intros []|]. intros (_ & _ & H). destruct (proj2 Hrows) as [r Er]; [|done].
    intros u Hu. destruct (H u Hu) as [row Hr]. exists row. by apply Hrow.
Qed.
Lemma claim_copies ttl now req_id uuid units owner s result s' :
  LookupAndClaim ttl now req_id uuid units owner s = (Ok result, s') →
  ∀ u row, result !! u = Some row ↔ u ∈ units ∧ row_at now (req_id, uuid) s u row.
Proof.
  intros E. assert (collect_rows (PurgeLocked now s) req_id uuid units ∅ = Ok result) as Er.
  { revert E. unfold LookupAndClaim. case_bool_decide; [done|].
    destruct (match claimed_units_ _ !! _ with Some _ => _ | None => _ end); [done|].
    destruct (collect_rows _ _ _ _ _); [|done]. destruct (completed_units_ _ !! _); [case_bool_decide|]; by intros [= -> _]. }
  pose proof (collect_rows_dom _ _ _ _ _ _ Er) as Hin.
  apply collect_rows_ok in Er as [Hrow Hdom]; [|intros u row; by rewrite lookup_empty].
  intros u row. unfold row_at. cbn [fst snd]. split.
  - intros Hu. destruct (Hrow u row Hu) as [[? ?]%purge_row ?]. split; [|done].
    destruct (Hin u) as [|[? Hemp]]; [eauto|done|]. by rewrite lookup_empty in Hemp.
  - intros (Hu & Hr & _). destruct (Hdom u) as [row' Hrow']; [by left|]. rewrite Hrow'.
    destruct (Hrow u row' Hrow') as [[Hr' _]%purge_row _]. congruence.
Qed.
Lemma claim_records ttl now req_id uuid units owner s result s' :
  LookupAndClaim ttl now req_id uuid units owner s = (Ok result, s') →
  if voted_out now (req_id, uuid) units s then key_status s' (req_id, uuid) = kUnknown
  else claimed_ s' !! (req_id, uuid) = Some (now + ttl) ∧
       ∀ u0, u0 ∈ units → u0 ∉ default ∅ (votes_at now (req_id, uuid) s) →
         claim_stands (req_id, uuid) (list_to_set units) u0 (now + ttl) s'.
Proof.
  unfold voted_out. rewrite votes_at_purge. unfold LookupAndClaim. set (s1 := PurgeLocked now s). clearbody s1.
  case_bool_decide; [done|]. destruct (match claimed_units_ _ !! _ with Some _ => _ | None => _ end); [done|].
  destruct (collect_rows _ _ _ _ _) as [r|]; [|done].
  destruct (completed_units_ s1 !! (req_id, uuid)) as [c|] eqn:Ec; cbn [fmap option_fmap option_map].
  - case_bool_decide; intros E%(f_equal snd); cbn [snd] in E; subst s'; [apply retired_unknown|]. cbn. rewrite lookup_insert_eq. split; [done|].
    intros u0 Hu Hv. split; cbn; rewrite ?lookup_insert_eq; [by eexists|done|]. split; [set_solver|].
    unfold votes_of. cbn. by rewrite lookup_insert_eq.
  - intros E%(f_equal snd). cbn [snd] in E. subst s'. cbn. rewrite lookup_insert_eq. split; [done|].
    intros u0 Hu _. split; cbn; rewrite ?lookup_insert_eq; [by eexists|done|]. split; [set_solver|].
    unfold votes_of. cbn. rewrite Ec. set_solver.
Qed.

(** C38: Claim and cancellation exclude each other, over whole histories.
    [CancelIfUnclaimed] returns true exactly when no claim is in force, and the generation
    is then closed until the tombstone's expiry (the standing tombstone's, or [now + ttl]
    for a new one): whatever calls follow before it, short of a release, the generation
    keeps no row, every claim and registration fails, and it stays cancelled.
    [LookupAndClaim] succeeds exactly when no tombstone stands, a claim in force has the
    same units, and every unit has a live row of the generation; it then copies those rows
    and no others, and retires the generation if every unit's vote is in; otherwise the
    claim expires at [now + ttl] and, as long as one of its units has not voted, whatever
    calls follow before that, short of a release, an abandonment or that vote, a
    cancellation is refused and removes no row. *)
Theorem registry_claim_cancel_exclusive ttl s now req_id uuid :
  registry_reachable ttl s → check_key req_id uuid = OkStatus →
  (let '(cancelled, s') := CancelIfUnclaimed ttl now req_id uuid s in
   cancelled = Ok (negb (claimed_at now (req_id, uuid) s)) ∧
   (cancelled = Ok true →
    closed_until ttl (default (now + ttl) (tombstone_at now (req_id, uuid) s)) req_id uuid s')) ∧
  ∀ units owner,
    ((∃ result, (LookupAndClaim ttl now req_id uuid units owner s).1 = Ok result) ↔
       claimable now (req_id, uuid) units s) ∧
    ∀ result s', LookupAndClaim ttl now req_id uuid units owner s = (Ok result, s') →
      (∀ u row, result !! u = Some row ↔ u ∈ units ∧ row_at now (req_id, uuid) s u row) ∧
      (if voted_out now (req_id, uuid) units s then key_status s' (req_id, uuid) = kUnknown
       else claimed_ s' !! (req_id, uuid) = Some (now + ttl) ∧
            ∀ u0, u0 ∈ units → u0 ∉ default ∅ (votes_at now (req_id, uuid) s) →
              held_until ttl now u0 req_id uuid s').
Proof.
  intros Hinv%registry_reachable_inv Hk. split.
  - destruct (cancel_outcome ttl now req_id uuid s Hinv Hk) as [H1 H2]. pose proof (cancel_inv ttl now req_id uuid s Hinv) as Hinv'.
    destruct (CancelIfUnclaimed ttl now req_id uuid s) as [r s']. split; [done|]. intros ->. by apply tombstone_closes, H2.
  - intros units owner. split; [by apply claim_succeeds|]. intros result s' E. split; [by eapply claim_copies|].
    pose proof (claim_inv ttl now req_id uuid units owner s Hinv) as Hinv'. rewrite E in Hinv'.
    pose proof (claim_records _ _ _ _ _ _ _ _ _ E) as Hr. destruct (voted_out _ _ _ _); [done|]. destruct Hr as [Hc Hs].
    split; [done|]. intros u0 Hu Hv. by eapply claim_refuses_cancel, Hs.
Qed.

(** ** Witnesses: one request with two producer ranks *)
Definition dir_ab : WorkUnitDirectory :=
  mkDirectory [unit_a; unit_b] [empty_record; empty_record].
Definition registered : RequestBlockRegistry :=
  (Register dir_ab dir_ab 100 1 "r" 7 unit_b [5] []
    (Register dir_ab dir_ab 100 0 "r" 7 unit_a [3; 4] [] RequestBlockRegistry_new).2).2.
Definition claimed_ab : RequestBlockRegistry :=
  (LookupAndClaim 100 2 "r" 7 [unit_a; unit_b] 1 registered).2.

Lemma registered_reachable : registry_reachable 100 registered.
Proof.
  eapply rr_step; [eapply rr_step; [apply rr_new|apply (rs_register 100 dir_ab dir_ab 0)]|].
  apply (rs_register 100 dir_ab dir_ab 1).
Qed.
Lemma claimed_ab_reachable : registry_reachable 100 claimed_ab.
Proof. eapply rr_step; [apply registered_reachable|apply (rs_claim 100 2)]. Qed.

Lemma registry_lifecycle_invariant_witness :
  is_Some (claimed_ claimed_ab !! ("r"%string, 7)) ∧
  is_Some (claimed_units_ claimed_ab !! ("r"%string, 7)).
Proof.
  assert (is_Some (claimed_ claimed_ab !! ("r"%string, 7))) as H by (vm_compute; eauto).
  split; [exact H|].
  exact (proj1 (proj1 (proj1 (registry_lifecycle_invariant 100 claimed_ab claimed_ab_reachable) _) H)).
Defined.

Lemma claimed_ab_claims : ∃ result, LookupAndClaim 100 2 "r" 7 [unit_a; unit_b] 1 registered = (Ok result, claimed_ab).
Proof.
  unfold claimed_ab. assert (match (LookupAndClaim 100 2 "r" 7 [unit_a; unit_b] 1 registered).1 with Ok _ => true | Err _ => false end = true)
    as H by (vm_compute; reflexivity).
  destruct (LookupAndClaim 100 2 "r" 7 [unit_a; unit_b] 1 registered) as [[r|c] s']; [by exists r|done].
Qed.
(** Cancelled at time 2, the generation is closed until 102: a late registration at 50 and a
    claim at 51 fail.  Claimed at time 2 instead, with one vote in at 3 and its rows refreshed
    in vain at 40, a cancellation at 101 is refused. *)
Definition late_calls : list Call :=
  [CComplete 3 "r" 7 unit_b; CRegister dir_ab dir_ab 40 "r" 7 unit_a [9] []; CClaim 41 "r" 7 [unit_b; unit_a] 2].
Lemma late_calls_allowed :
  Forall (λ c, call_within 2 (2 + 100) c ∧ ¬ releases ("r"%string, 7) c ∧ ¬ abandons ("r"%string, 7) c ∧
               ¬ votes_for ("r"%string, 7) unit_a c) late_calls.
Proof.
  unfold late_calls. repeat (apply Forall_cons; split; [|]); [..|by apply Forall_nil];
    (split; [cbn; lia|split; [by intros []|split; [by intros []|]]]); cbn; try tauto.
  intros [_ E]. discriminate E.
Qed.
Lemma registry_claim_cancel_exclusive_witness :
  (CancelIfUnclaimed 100 2 "r" 7 registered).1 = Ok true ∧
  (LookupAndClaim 100 51 "r" 7 [unit_a; unit_b] 1
     (run_calls 100 late_calls (CancelIfUnclaimed 100 2 "r" 7 registered).2)).1 = Err kInvalidArgument ∧
  (CancelIfUnclaimed 100 101 "r" 7 (run_calls 100 late_calls claimed_ab)).1 = Ok false.
Proof.
  pose proof (registry_claim_cancel_exclusive 100 registered 2 "r" 7 registered_reachable eq_refl) as [Hcancel Hclaim].
  assert ((CancelIfUnclaimed 100 2 "r" 7 registered).1 = Ok true) as Ht by (vm_compute; reflexivity).
  split; [exact Ht|]. split.
  - destruct (CancelIfUnclaimed 100 2 "r" 7 registered) as [r s']. cbn [fst snd] in *.
    destruct Hcancel as [_ Hclosed]. refine (proj1 (proj2 (Hclosed Ht 2 late_calls 51 _ _)) _ _); [|vm_compute; reflexivity].
    eapply Forall_impl; [exact late_calls_allowed|]. cbn. tauto.
  - destruct (Hclaim [unit_a; unit_b] 1) as [_ Hok].
    destruct claimed_ab_claims as [r E].
    destruct (Hok _ _ E) as [_ Hheld]. change (voted_out 2 ("r"%string, 7) [unit_a; unit_b] registered) with false in Hheld.
    destruct Hheld as [_ Hheld]. refine (f_equal fst (proj2 (Hheld unit_a _ _ late_calls 101 _ _))).
    + by left.
    + change (votes_at 2 ("r"%string, 7) registered) with (@None (gset RaidenId)). cbn. apply not_elem_of_empty.
    + eapply Forall_impl; [exact late_calls_allowed|]. cbn. tauto.
    + lia.
Defined.

Lemma claimed_ab_facts :
  claimed_ claimed_ab !! ("r"%string, 7) = Some 102 ∧
  claimed_units_ claimed_ab !! ("r"%string, 7) = Some (list_to_set [unit_a; unit_b]) ∧
  completed_units_ claimed_ab !! ("r"%string, 7) = None.
Proof.
  split; [vm_compute; reflexivity|]. split; [|vm_compute; reflexivity].
  apply (bool_decide_eq_true_1 _). vm_compute. reflexivity.
Qed.
Lemma unit_ba_nodup : NoDup [unit_b; unit_a].
Proof. apply NoDup_cons. split; [|apply NoDup_singleton]. by intros ?%list_elem_of_singleton. Qed.
Lemma unit_ba_set : (list_to_set [unit_b; unit_a] : gset RaidenId) = list_to_set [unit_a; unit_b].
Proof. set_solver. Qed.
Lemma unit_ab_nonempty : (list_to_set [unit_a; unit_b] : gset RaidenId) ≠ ∅.
Proof. set_solver. Qed.

Lemma registry_last_vote_retires_witness :
  ∃ n s', run_completes 100 "r" 7 [(3, unit_b); (4, unit_a)] claimed_ab
          = (replicate 1 (Ok 0) ++ [Ok n], s').
Proof.
  pose proof claimed_ab_facts as (H1 & H2 & H3).
  pose proof (registry_last_vote_retires 100 claimed_ab "r" 7 (list_to_set [unit_a; unit_b]) 102
    [(3, unit_b); (4, unit_a)] claimed_ab_reachable eq_refl H1 H2 H3 unit_ab_nonempty
    unit_ba_nodup unit_ba_set ltac:(cbn; lia)) as (n & s' & E & _).
  exists n, s'. exact E.
Defined.

(** ** An unchecked product

    [Register] bounds a span's end by the live bytes of its block, but computes
    (count - 1) * src_stride_bytes in int64 without an overflow check: with a
    stride of 2^62 and five units the product wraps to 0, so a span whose later
    units lie far outside the block is accepted. *)
Lemma validate_span_accepts_wrapping_stride :
  validate_span 64 1 (mkSpan 0 0 0 0 8 (2 ^ 62) 8 5 (-1)) = OkStatus ∧
  64 < 0 + (5 - 1) * 2 ^ 62 + 8.
Proof. vm_compute. done. Qed.
