(* ===== verification/PoolReshardPlanner.v ===== *)
(** * Pool reshard planner: from declared byte spans to a push schedule
    (src/tpu_sync/kv_cache/reshard/pool_reshard_planner.{h,cc})

    Producers declare byte spans (source block, source offset, destination
    block, destination offset, size, repeats) in compact-live coordinates; the
    planner splits request-global spans at destination pages, checks that the
    spans of every destination tile its blocks exactly, and emits one schedule
    entry per physical chunk and destination.  This file translates the span
    pipeline (split, coverage, emission) and proves that an accepted plan
    writes every byte of every destination block's extent exactly once.

    Arithmetic is [int64_t]; sums and products the code does not check are
    written with their wrap-around.  [std::stable_sort] is [merge_sort], which
    keeps the order of equivalent elements. *)

From S2P Require Import Prelude RaidenTypes PoolLayout WorkUnitDirectory RequestBlockRegistry.

(** ** Data *)
Record ScheduleEntry := mkEntry {
  se_dst_peer : string;
  se_dst_shard_idx : Z;
  se_dst_offset_bytes : Z;
  se_src_offset_bytes : Z;
  se_size_bytes : Z;
  se_src_block_id : Z;
  se_dst_block_id : Z;
  se_src_stride_bytes : Z;
  se_dst_stride_bytes : Z;
  se_count : Z;
  se_layer_idx : Z;
  se_pool_group : Z;
}.

Record TagPrecheck := mkPrecheck {
  tp_selected : list Z;
  tp_src_live : Z;
  tp_dst_live : Z;
  tp_src_segments : list PoolLiveSegment;
  tp_dst_segments : list PoolLiveSegment;
  tp_identity_maps : bool;
  tp_window_skip : Z;
  tp_window_end : Z;
}.

Abbreviation DeclaredSpans := (list (RaidenId * PoolSpanRegistration)).
Abbreviation PeersByUnit := (gmap RaidenId string).
Abbreviation SchedulesByUnit := (gmap RaidenId (list ScheduleEntry)).
(** Pushes (destination peer, source block, destination block), by sender and
    then by destination unit. *)
Abbreviation TransferPairs := (gmap RaidenId (gmap RaidenId (gset (string * Z * Z)))).

Definition LiveSegments (pool_proto : PoolSpecProto) : StatusOr (list PoolLiveSegment) :=
  pool ← PoolSpecFromProto pool_proto;
  ExpandPoolLiveSegments pool.

Definition IdentityLiveMap (segments : list PoolLiveSegment) (live : Z) : bool :=
  match segments with
  | [s] => (logical_offset s =? 0) && (physical_offset s =? 0) && (segment_size s =? live)
  | _ => false
  end.

(** [MetadataByUnit]: exactly the requested units' metadata. *)
Fixpoint select_metadata (requested : gset RaidenId) (metadata : list RegisterWorkUnitRequest)
    (result : gmap RaidenId RegisterWorkUnitRequest)
    : StatusOr (gmap RaidenId RegisterWorkUnitRequest) :=
  match metadata with
  | [] => Ok result
  | item :: rest =>
      let u := RaidenIdFromProto (rq_unit item) in
      if negb (bool_decide (u ∈ requested)) then select_metadata requested rest result
      else if bool_decide (is_Some (result !! u)) then Err kInvalidArgument
      else select_metadata requested rest (<[u := item]> result)
  end.
Definition MetadataByUnit (metadata : list RegisterWorkUnitRequest) (units : list RaidenId)
    : StatusOr (gmap RaidenId RegisterWorkUnitRequest) :=
  result ← select_metadata (list_to_set units) metadata ∅;
  if existsb (λ u, negb (bool_decide (is_Some (result !! u)))) units
  then Err kInvalidArgument else Ok result.

(** [DefaultTransferStreams]; [raw] is getenv(kTransferStreamsEnvVar) and
    [SimpleAtoi] is absl's integer parser. *)
Definition DefaultTransferStreams (SimpleAtoi : string → option Z) (raw : option string)
    (topology_parallelism : Z) : StatusOr Z :=
  match raw with
  | None | Some EmptyString => Ok topology_parallelism
  | Some raw =>
      match SimpleAtoi raw with
      | None => Err kInvalidArgument
      | Some streams =>
          if streams <? 0 then Err kInvalidArgument
          else if streams =? 0 then Ok topology_parallelism
          else if topology_parallelism <? streams then Ok topology_parallelism
          else Ok streams
      end
  end.

(** ** Splitting request-global spans

    The accumulator of the split: [tag_global_end], [tag_clipped_bytes], and the
    spans produced so far. *)
Record SplitState := mkSplit {
  global_end : Z; clipped_bytes : Z; out_spans : list PoolByteSpan }.

Definition span_extent (stride : Z) (span : PoolByteSpan) : Z :=
  i64 (i64 ((span_count span - 1) * stride) + size_bytes span).

Definition RebaseStridedGlobalSpan (span : PoolByteSpan) (tag_skip tag_end dst_live : Z)
    (st : SplitState) : StatusOr SplitState :=
  if (src_stride_bytes span <=? 0) || (dst_stride_bytes span <=? 0) then Err kInvalidArgument
  else
    let in_page := Z.rem (dst_offset_bytes span) dst_live in
    let extent := span_extent (dst_stride_bytes span) span in
    if dst_live <? i64 (in_page + extent) then Err kInvalidArgument
    else
      let tag_global_end := Z.max (global_end st) (i64 (dst_offset_bytes span + extent)) in
      if (dst_offset_bytes span <? tag_skip) ||
         ((0 <? tag_end) && (tag_end <=? dst_offset_bytes span))
      then Ok (mkSplit tag_global_end
                 (i64 (clipped_bytes st + i64 (size_bytes span * span_count span)))
                 (out_spans st))
      else
        let strided_span :=
          mkSpan (src_block_ordinal span) (src_offset_bytes span)
            (Z.quot (dst_offset_bytes span - tag_skip) dst_live) in_page (size_bytes span)
            (src_stride_bytes span) (dst_stride_bytes span) (span_count span)
            (dst_unit_ordinal span) in
        Ok (mkSplit tag_global_end (clipped_bytes st) (out_spans st ++ [strided_span])).

(** The page loop of [SplitPlainGlobalSpan]. *)
Fixpoint split_pages (fuel : nat) (span : PoolByteSpan) (dst_live : Z)
    (global_offset src_offset remaining : Z) : list PoolByteSpan :=
  if negb (0 <? remaining) then []
  else match fuel with
       | O => []
       | S fuel =>
           let page_index := Z.quot global_offset dst_live in
           let in_page := Z.rem global_offset dst_live in
           let take := Z.min remaining (dst_live - in_page) in
           mkSpan (src_block_ordinal span) src_offset page_index in_page take 0 0 1
             (dst_unit_ordinal span)
           :: split_pages fuel span dst_live (global_offset + take) (src_offset + take)
                (remaining - take)
       end.

(** Every page but the first is filled from its start, so there are at most
    remaining / dst_live + 2 of them. *)
Definition SplitPlainGlobalSpan (span : PoolByteSpan) (tag_skip tag_end dst_live : Z)
    (st : SplitState) : SplitState :=
  let span_end := i64 (dst_offset_bytes span + size_bytes span) in
  let tag_global_end := Z.max (global_end st) span_end in
  if (span_end <=? tag_skip) || ((0 <? tag_end) && (tag_end <=? dst_offset_bytes span))
  then mkSplit tag_global_end (i64 (clipped_bytes st + size_bytes span)) (out_spans st)
  else
    let clip_advance :=
      if dst_offset_bytes span <? tag_skip then tag_skip - dst_offset_bytes span else 0 in
    let clip_tail :=
      if (0 <? tag_end) && (tag_end <? span_end) then span_end - tag_end else 0 in
    let remaining := size_bytes span - clip_advance - clip_tail in
    let global_offset := dst_offset_bytes span + clip_advance - tag_skip in
    let src_offset := i64 (src_offset_bytes span + clip_advance) in
    mkSplit tag_global_end (i64 (clipped_bytes st + clip_advance + clip_tail))
      (out_spans st ++
       split_pages (Z.to_nat (remaining `div` dst_live + 2)) span dst_live global_offset
         src_offset remaining).

Fixpoint split_spans (tag_skip tag_end dst_live : Z) (spans : list PoolByteSpan)
    (st : SplitState) : StatusOr SplitState :=
  match spans with
  | [] => Ok st
  | span :: rest =>
      if negb (dst_block_index span =? 0) then Err kInvalidArgument
      else if 1 <? span_count span then
        st ← RebaseStridedGlobalSpan span tag_skip tag_end dst_live st;
        split_spans tag_skip tag_end dst_live rest st
      else if negb (src_stride_bytes span =? 0) || negb (dst_stride_bytes span =? 0)
      then Err kInvalidArgument
      else split_spans tag_skip tag_end dst_live rest
             (SplitPlainGlobalSpan span tag_skip tag_end dst_live st)
  end.

(** The loop over the declarations: rewritten declarations, [tag_global_end] and
    [tag_clipped_bytes]. *)
Fixpoint split_declared (tag_skip tag_end dst_live : Z) (declared : DeclaredSpans)
    (tag_global_end tag_clipped_bytes : Z) : StatusOr (DeclaredSpans * Z * Z) :=
  match declared with
  | [] => Ok ([], tag_global_end, tag_clipped_bytes)
  | (u, entry) :: rest =>
      if dst_space_version entry =? 0 then
        if 0 <? tag_skip then Err kInvalidArgument
        else if 0 <? tag_end then Err kInvalidArgument
        else
          '(converted, ge, cb) ← split_declared tag_skip tag_end dst_live rest
                                   tag_global_end tag_clipped_bytes;
          Ok ((u, entry) :: converted, ge, cb)
      else
        st ← split_spans tag_skip tag_end dst_live (ps_spans entry)
               (mkSplit tag_global_end tag_clipped_bytes []);
        let split_entry := mkPoolSpans (ps_tag entry) (ps_block_ids entry) (out_spans st)
                             (declared_bytes entry) 0 in
        '(converted, ge, cb) ← split_declared tag_skip tag_end dst_live rest
                                 (global_end st) (clipped_bytes st);
        Ok ((u, split_entry) :: converted, ge, cb)
  end.

Definition SplitGlobalSpaceSpans (tag_skip tag_end dst_live : Z) (declared : DeclaredSpans)
    (tag_clipped_bytes : Z) : StatusOr (DeclaredSpans * Z) :=
  '(converted, tag_global_end, clipped) ←
    split_declared tag_skip tag_end dst_live declared 0 tag_clipped_bytes;
  if (0 <? tag_skip) && (tag_global_end <=? tag_skip) then Err kInvalidArgument
  else if (0 <? tag_end) && (tag_global_end <? tag_end) then Err kInvalidArgument
  else Ok (converted, clipped).

(** ** Coverage *)

(** The destination intervals of one span, one per repeat. *)
Definition span_intervals (span : PoolByteSpan) : list (Z * Z) :=
  (λ repeat,
     let start := i64 (dst_offset_bytes span + i64 (repeat * dst_stride_bytes span)) in
     (start, i64 (start + size_bytes span))) <$> seqZ 0 (span_count span).

(** [coverage_by_dst] indexed by destination unit, then by block. *)
Abbreviation Coverage := (list (list (list (Z * Z)))).

Definition add_coverage (span : PoolByteSpan) (coverage : Coverage) : Coverage :=
  let add := alter (λ l, l ++ span_intervals span) (Z.to_nat (dst_block_index span)) in
  if dst_unit_ordinal span <? 0 then add <$> coverage
  else alter add (Z.to_nat (dst_unit_ordinal span)) coverage.

Record CoverState := mkCover {
  coverage_by_dst : Coverage;
  expanded_repeats : Z;
  covered_total : Z;
  replicated_total : Z;
}.

Definition cover_span (num_dst num_dst_blocks src_live dst_live : Z) (span : PoolByteSpan)
    (st : CoverState) : StatusOr CoverState :=
  if num_dst <=? dst_unit_ordinal span then Err kInvalidArgument
  else if num_dst_blocks <=? dst_block_index span then Err kInvalidArgument
  else if src_live <? i64 (i64 (src_offset_bytes span +
                           i64 ((span_count span - 1) * src_stride_bytes span))
                           + size_bytes span)
       then Err kInvalidArgument
  else if dst_live <? i64 (i64 (dst_offset_bytes span +
                           i64 ((span_count span - 1) * dst_stride_bytes span))
                           + size_bytes span)
       then Err kInvalidArgument
  else
    let expanded := i64 (expanded_repeats st + span_count span) in
    if kMaxLiveSegments <? expanded then Err kInvalidArgument
    else
      let bytes := size_bytes span * span_count span in
      Ok (mkCover (add_coverage span (coverage_by_dst st)) expanded
            (i64 (covered_total st + bytes))
            (if dst_unit_ordinal span <? 0 then i64 (replicated_total st + bytes)
             else replicated_total st)).

Fixpoint cover_spans (num_dst num_dst_blocks src_live dst_live : Z) (spans : list PoolByteSpan)
    (st : CoverState) : StatusOr CoverState :=
  match spans with
  | [] => Ok st
  | span :: rest =>
      st ← cover_span num_dst num_dst_blocks src_live dst_live span st;
      cover_spans num_dst num_dst_blocks src_live dst_live rest st
  end.

(** The walk over one block's sorted intervals: where the coverage ends. *)
Fixpoint covered_until (cursor : Z) (intervals : list (Z * Z)) : StatusOr Z :=
  match intervals with
  | [] => Ok cursor
  | (start, end_) :: rest =>
      if negb (start =? cursor) then Err kInvalidArgument else covered_until end_ rest
  end.

(** One destination's blocks from index [index] on: their extents. *)
Fixpoint dst_extents (num_dst_blocks dst_live : Z) (index : Z)
    (blocks : list (list (Z * Z))) : StatusOr (list Z) :=
  match blocks with
  | [] => Ok []
  | intervals :: rest =>
      if bool_decide (intervals = []) then Err kInvalidArgument
      else
        extent ← covered_until 0 (merge_sort interval_le intervals);
        if negb (index =? num_dst_blocks - 1) && negb (extent =? dst_live)
        then Err kInvalidArgument
        else cons extent <$> dst_extents num_dst_blocks dst_live (index + 1) rest
  end.

(** The loop over destinations: the first one's extents, which the others share. *)
Fixpoint check_destinations (num_dst_blocks dst_live : Z) (d : Z) (extents : list Z)
    (coverage : Coverage) : StatusOr (list Z) :=
  match coverage with
  | [] => Ok extents
  | blocks :: rest =>
      exts ← dst_extents num_dst_blocks dst_live 0 blocks;
      if d =? 0 then check_destinations num_dst_blocks dst_live (d + 1) exts rest
      else if negb (bool_decide (exts = extents)) then Err kInvalidArgument
      else check_destinations num_dst_blocks dst_live (d + 1) extents rest
  end.

Definition ValidateSpanCoverage (declared : DeclaredSpans) (num_dst num_dst_blocks : nat)
    (src_live dst_live tag_clipped_bytes : Z) : StatusOr (list Z) :=
  let n := Z.of_nat num_dst in
  let declared_total := foldl (λ t ue, i64 (t + declared_bytes ue.2)) 0 declared in
  let spans := declared ≫= λ ue, ps_spans ue.2 in
  st ← cover_spans n (Z.of_nat num_dst_blocks) src_live dst_live spans
         (mkCover (replicate num_dst (replicate num_dst_blocks [])) 0 0 0);
  extents ← check_destinations (Z.of_nat num_dst_blocks) dst_live 0 [] (coverage_by_dst st);
  if negb (declared_total =? i64 (covered_total st + tag_clipped_bytes))
  then Err kInvalidArgument
  else
    let extent_sum := foldl (λ t e, i64 (t + e)) 0 extents in
    if negb (i64 (n * extent_sum)
             =? i64 (covered_total st + i64 ((n - 1) * replicated_total st)))
    then Err kInternal
    else Ok extents.

(** ** Emission *)
Definition AddTransferPairs (src_unit : RaidenId) (targets : list RaidenId)
    (dst_peers : PeersByUnit) (src_block_id dst_block_id : Z) (pairs : TransferPairs)
    : TransferPairs :=
  let sender_pairs := default ∅ (pairs !! src_unit) in
  <[src_unit :=
      foldl (λ m dst, <[dst := {[(dst_peers !!! dst, src_block_id, dst_block_id)]}
                                 ∪ default ∅ (m !! dst)]> m) sender_pairs targets]> pairs.

Record OrderedSpan := mkOrdered {
  os_span : PoolByteSpan; os_unit : RaidenId; os_entry : PoolSpanRegistration }.

Definition ordered_le (a b : OrderedSpan) : Prop :=
  dst_block_index (os_span a) < dst_block_index (os_span b) ∨
  (dst_block_index (os_span a) = dst_block_index (os_span b) ∧
   dst_offset_bytes (os_span a) <= dst_offset_bytes (os_span b)).
#[export] Instance ordered_le_dec a b : Decision (ordered_le a b).
Proof. unfold ordered_le. apply _. Defined.

Record EmitState := mkEmit {
  em_schedules : SchedulesByUnit;
  emitted_chunks : Z;
  em_pairs : TransferPairs;
}.

Definition push_entries (u : RaidenId) (entries : list ScheduleEntry) (m : SchedulesByUnit)
    : SchedulesByUnit :=
  match entries with
  | [] => m
  | _ => <[u := default [] (m !! u) ++ entries]> m
  end.

Definition chunk_entries (dst_peers : PeersByUnit) (targets : list RaidenId)
    (src_block_id dst_block_id pool_group : Z) (chunks : list LiveCopyChunk) : list ScheduleEntry :=
  chunks ≫= λ chunk,
    (λ dst, mkEntry (dst_peers !!! dst) 0 (dst_physical chunk) (src_physical chunk)
              (chunk_size chunk) src_block_id dst_block_id 0 0 1 0 pool_group) <$> targets.

(** The repeats of a span that is translated chunk by chunk. *)
Fixpoint emit_repeats (precheck : TagPrecheck) (dst_peers : PeersByUnit)
    (targets : list RaidenId) (src_unit : RaidenId) (src_block_id dst_block_id pool_group : Z)
    (span : PoolByteSpan) (repeats : list Z) (schedules : SchedulesByUnit) (emitted : Z)
    : StatusOr (SchedulesByUnit * Z) :=
  match repeats with
  | [] => Ok (schedules, emitted)
  | repeat :: rest =>
      let src_offset := i64 (src_offset_bytes span + i64 (repeat * src_stride_bytes span)) in
      let dst_offset := i64 (dst_offset_bytes span + i64 (repeat * dst_stride_bytes span)) in
      translated ← TranslateLiveCopy (tp_src_segments precheck) (tp_dst_segments precheck)
                     src_offset dst_offset (size_bytes span);
      let emitted := i64 (emitted +
        i64 (Z.of_nat (length translated) * Z.of_nat (length targets))) in
      if kMaxLiveSegments <? emitted then Err kInvalidArgument
      else
        emit_repeats precheck dst_peers targets src_unit src_block_id dst_block_id pool_group
          span rest
          (push_entries src_unit
             (chunk_entries dst_peers targets src_block_id dst_block_id pool_group translated)
             schedules)
          emitted
  end.

Definition span_targets (dst_units : list RaidenId) (span : PoolByteSpan) : list RaidenId :=
  if dst_unit_ordinal span <? 0 then dst_units
  else match dst_units !! Z.to_nat (dst_unit_ordinal span) with Some u => [u] | None => [] end.

Definition emit_span (dst_units : list RaidenId) (dst_peers : PeersByUnit) (dst_ids : list Z)
    (precheck : TagPrecheck) (pool_group : Z) (ordered : OrderedSpan) (st : EmitState)
    : StatusOr EmitState :=
  let span := os_span ordered in
  let src_unit := os_unit ordered in
  let src_block_id := ps_block_ids (os_entry ordered) !!! Z.to_nat (src_block_ordinal span) in
  let dst_block_id := dst_ids !!! Z.to_nat (dst_block_index span) in
  let targets := span_targets dst_units span in
  if (1 <? span_count span) && tp_identity_maps precheck then
    let emitted := i64 (emitted_chunks st + Z.of_nat (length targets)) in
    if kMaxLiveSegments <? emitted then Err kInvalidArgument
    else
      let entries :=
        (λ dst, mkEntry (dst_peers !!! dst) 0 (dst_offset_bytes span) (src_offset_bytes span)
                  (size_bytes span) src_block_id dst_block_id (src_stride_bytes span)
                  (dst_stride_bytes span) (span_count span) 0 pool_group) <$> targets in
      Ok (mkEmit (push_entries src_unit entries (em_schedules st)) emitted
            (AddTransferPairs src_unit targets dst_peers src_block_id dst_block_id (em_pairs st)))
  else
    '(schedules, emitted) ←
      emit_repeats precheck dst_peers targets src_unit src_block_id dst_block_id pool_group span
        (seqZ 0 (span_count span)) (em_schedules st) (emitted_chunks st);
    Ok (mkEmit schedules emitted
          (AddTransferPairs src_unit targets dst_peers src_block_id dst_block_id (em_pairs st))).

Fixpoint emit_spans (dst_units : list RaidenId) (dst_peers : PeersByUnit) (dst_ids : list Z)
    (precheck : TagPrecheck) (pool_group : Z) (spans : list OrderedSpan) (st : EmitState)
    : StatusOr EmitState :=
  match spans with
  | [] => Ok st
  | ordered :: rest =>
      st ← emit_span dst_units dst_peers dst_ids precheck pool_group ordered st;
      emit_spans dst_units dst_peers dst_ids precheck pool_group rest st
  end.

Definition ordered_spans (declared : DeclaredSpans) : list OrderedSpan :=
  declared ≫= λ ue, (λ span, mkOrdered span ue.1 ue.2) <$> ps_spans ue.2.

Definition EmitSpanSchedule (declared : DeclaredSpans) (dst_units : list RaidenId)
    (dst_peers : PeersByUnit) (dst_ids : list Z) (precheck : TagPrecheck) (pool_group : Z)
    (st : EmitState) : StatusOr EmitState :=
  emit_spans dst_units dst_peers dst_ids precheck pool_group
    (merge_sort ordered_le (ordered_spans declared)) st.

(** ** Splitting is exact *)

(** The destination bytes of a plain span in the request-global space, when its
    page indices are relative to [base]. *)
Definition piece_dst (dst_live base : Z) (s : PoolByteSpan) : list Z :=
  seqZ (base + dst_block_index s * dst_live + dst_offset_bytes s) (size_bytes s).
Definition piece_src (s : PoolByteSpan) : list Z := seqZ (src_offset_bytes s) (size_bytes s).

(** A plain piece of [span] that lies inside one destination page. *)
Definition page_piece (span : PoolByteSpan) (dst_live : Z) (s : PoolByteSpan) : Prop :=
  0 <= dst_block_index s ∧ 0 <= dst_offset_bytes s ∧ 0 < size_bytes s ∧
  dst_offset_bytes s + size_bytes s <= dst_live ∧
  span_count s = 1 ∧ src_stride_bytes s = 0 ∧ dst_stride_bytes s = 0 ∧
  src_block_ordinal s = src_block_ordinal span ∧ dst_unit_ordinal s = dst_unit_ordinal span.

Lemma split_pages_ok fuel span dst_live base g so rem :
  0 < dst_live → 0 <= g → 0 <= rem →
  rem <= Z.of_nat fuel * dst_live - g `mod` dst_live ∨ rem = 0 →
  let pieces := split_pages fuel span dst_live g so rem in
  (pieces ≫= piece_dst dst_live base) = seqZ (base + g) rem ∧
  (pieces ≫= piece_src) = seqZ so rem ∧
  Forall (page_piece span dst_live) pieces.
Proof.
  intros Hl. revert g so rem; induction fuel as [|fuel IH]; intros g so rem Hg Hr Hf; cbn [split_pages];
    (destruct (Z.ltb_spec 0 rem) as [Hpos|Hz]; cbn [negb];
     [|assert (rem = 0) as -> by lia; done]).
  { pose proof (Z.mod_pos_bound g dst_live Hl). lia. }
  rewrite Z.quot_div_nonneg, Z.rem_mod_nonneg by lia.
  pose proof (Z.mod_pos_bound g dst_live Hl) as Hm. pose proof (Z.div_mod g dst_live ltac:(lia)) as Hdm.
  pose proof (Z.div_pos g dst_live Hg Hl) as Hq.
  set (q := g `div` dst_live) in *. set (r := g `mod` dst_live) in *.
  set (k := Z.min rem (dst_live - r)).
  assert (rem - k = 0 ∨ (g + k) `mod` dst_live = 0 ∧ k = dst_live - r) as Hnext.
  { destruct (Z.le_gt_cases rem (dst_live - r)); [left; lia|right]. split; [|lia].
    replace (g + k) with ((q + 1) * dst_live) by lia. apply Z.mod_mul. lia. }
  destruct (IH (g + k) (so + k) (rem - k)) as (H1 & H2 & H3); [lia|lia| |].
  { destruct Hnext as [->|[-> ->]]; [by right|left; lia]. }
  split; [|split].
  - rewrite bind_cons, H1. unfold piece_dst. cbn.
    replace (base + q * dst_live + r) with (base + g) by lia.
    replace (base + (g + k)) with ((base + g) + k) by lia.
    rewrite <- seqZ_app by lia. f_equal. lia.
  - rewrite bind_cons, H2. unfold piece_src. cbn. rewrite <- seqZ_app by lia. f_equal. lia.
  - constructor; [|done]. unfold page_piece. cbn. lia.
Qed.

(** [SplitPlainGlobalSpan] keeps exactly the bytes inside the clip window:
    the pieces it emits, read in order, are the span's request-global bytes in
    [tag_skip, tag_end), paired with the corresponding source bytes; each lies
    inside one destination page; and what is not emitted is counted as clipped. *)
Theorem SplitPlainGlobalSpan_spec span tag_skip tag_end dst_live st :
  0 < dst_live → 0 <= dst_offset_bytes span → 0 < size_bytes span →
  dst_offset_bytes span + size_bytes span <= INT64_MAX →
  0 <= src_offset_bytes span → src_offset_bytes span + size_bytes span <= INT64_MAX →
  0 <= tag_skip → tag_end = 0 ∨ tag_skip < tag_end →
  0 <= clipped_bytes st → clipped_bytes st + size_bytes span <= INT64_MAX →
  let st' := SplitPlainGlobalSpan span tag_skip tag_end dst_live st in
  let span_end := dst_offset_bytes span + size_bytes span in
  let lo := Z.max (dst_offset_bytes span) tag_skip in
  let hi := if 0 <? tag_end then Z.min span_end tag_end else span_end in
  let kept := Z.max 0 (hi - lo) in
  ∃ pieces, out_spans st' = out_spans st ++ pieces ∧
    (pieces ≫= piece_dst dst_live tag_skip) = seqZ lo kept ∧
    (pieces ≫= piece_src) = seqZ (src_offset_bytes span + (lo - dst_offset_bytes span)) kept ∧
    Forall (page_piece span dst_live) pieces ∧
    clipped_bytes st' = clipped_bytes st + size_bytes span - kept ∧
    global_end st' = Z.max (global_end st) span_end.
Proof.
  intros Hl Hd Hs Hde Hso Hse Hsk He Hc Hce. unfold INT64_MAX in *.
  cbn zeta. unfold SplitPlainGlobalSpan.
  rewrite (i64_small (dst_offset_bytes span + size_bytes span)) by lia.
  set (span_end := dst_offset_bytes span + size_bytes span) in *.
  set (lo := Z.max (dst_offset_bytes span) tag_skip) in *.
  set (hi := if 0 <? tag_end then Z.min span_end tag_end else span_end) in *.
  destruct ((span_end <=? tag_skip) || ((0 <? tag_end) && (tag_end <=? dst_offset_bytes span))) eqn:Edrop.
  - assert (hi - lo <= 0) as Hk by (subst hi lo; destruct (Z.ltb_spec 0 tag_end); lia).
    exists []. cbn. rewrite app_nil_r, i64_small by lia. rewrite !seqZ_nil by lia.
    repeat (split; [done || lia|]). lia.
  - assert (0 < hi - lo) as Hk by (subst hi lo; destruct (Z.ltb_spec 0 tag_end); lia).
    cbn [out_spans clipped_bytes global_end].
    set (adv := if dst_offset_bytes span <? tag_skip then _ else 0).
    set (tail := if (0 <? tag_end) && (tag_end <? span_end) then _ else 0).
    assert (adv = lo - dst_offset_bytes span) as Hadv by
      (subst adv lo; destruct (Z.ltb_spec (dst_offset_bytes span) tag_skip); lia).
    assert (tail = span_end - hi) as Htail.
    { subst tail hi. destruct (Z.ltb_spec 0 tag_end), (Z.ltb_spec tag_end span_end); cbn; lia. }
    clearbody adv tail. rewrite Hadv, Htail.
    replace (size_bytes span - (lo - dst_offset_bytes span) - (span_end - hi)) with (hi - lo) by lia.
    replace (dst_offset_bytes span + (lo - dst_offset_bytes span) - tag_skip) with (lo - tag_skip) by lia.
    assert (hi <= span_end) by (subst hi; destruct (Z.ltb_spec 0 tag_end); lia).
    rewrite !i64_small by lia.
    eexists. split; [done|].
    pose proof (Z.mod_pos_bound (lo - tag_skip) dst_live Hl) as Hm.
    pose proof (Z.div_mod (hi - lo) dst_live ltac:(lia)) as Hdm.
    pose proof (Z.mod_pos_bound (hi - lo) dst_live Hl) as Hm2.
    pose proof (Z.div_pos (hi - lo) dst_live ltac:(lia) Hl) as Hdp.
    destruct (split_pages_ok (Z.to_nat ((hi - lo) `div` dst_live + 2)) span dst_live tag_skip
      (lo - tag_skip) (src_offset_bytes span + (lo - dst_offset_bytes span)) (hi - lo))
      as (H1 & H2 & H3); [done|lia|lia|left; nia|].
    rewrite Z.max_r by lia. rewrite H1, H2. replace (tag_skip + (lo - tag_skip)) with lo by lia.
    split; [done|]. split; [done|]. split; [done|]. lia.
Qed.

Lemma SplitPlainGlobalSpan_spec_witness :
  ∃ pieces, out_spans (SplitPlainGlobalSpan (mkSpan 0 100 0 5 20 0 0 1 (-1)) 8 24 8 (mkSplit 0 0 []))
      = pieces ∧
    (pieces ≫= piece_dst 8 8) = seqZ 8 16 ∧ (pieces ≫= piece_src) = seqZ 103 16.
Proof.
  destruct (SplitPlainGlobalSpan_spec (mkSpan 0 100 0 5 20 0 0 1 (-1)) 8 24 8 (mkSplit 0 0 []))
    as (pieces & E & H1 & H2 & _); try (unfold INT64_MAX; cbn; lia).
  exists pieces. exact (conj E (conj H1 H2)).
Defined.

(** ** Coverage is exact *)

(** A span whose fields are as registration leaves them and whose extents do not
    overflow int64. *)
Record span_ok (s : PoolByteSpan) : Prop := {
  sok_size : 0 < size_bytes s;
  sok_count : 0 < span_count s <= kMaxSpanCount;
  sok_src : 0 <= src_offset_bytes s ∧ 0 <= src_stride_bytes s;
  sok_dst : 0 <= dst_offset_bytes s ∧ 0 <= dst_stride_bytes s;
  sok_index : 0 <= dst_block_index s;
  sok_src_end :
    src_offset_bytes s + (span_count s - 1) * src_stride_bytes s + size_bytes s <= INT64_MAX;
  sok_dst_end :
    dst_offset_bytes s + (span_count s - 1) * dst_stride_bytes s + size_bytes s <= INT64_MAX;
}.

(** The compact-live destination bytes of a span. *)
Definition span_dst_bytes (s : PoolByteSpan) : list Z :=
  seqZ 0 (span_count s) ≫= λ k, seqZ (dst_offset_bytes s + k * dst_stride_bytes s) (size_bytes s).

Lemma repeat_bounds k n stride : 0 <= k < n → 0 <= stride → 0 <= k * stride <= (n - 1) * stride.
Proof. intros. nia. Qed.

Lemma strided_end_exact off count stride size :
  0 <= off → 0 <= stride → 0 < count → 0 < size →
  off + (count - 1) * stride + size <= INT64_MAX →
  i64 (i64 (off + i64 ((count - 1) * stride)) + size) = off + (count - 1) * stride + size.
Proof.
  intros Ho Hs Hc Hz He. unfold INT64_MAX in He.
  pose proof (repeat_bounds (count - 1) count stride ltac:(lia) Hs).
  rewrite (i64_small ((count - 1) * stride)) by lia. rewrite (i64_small (off + _)) by lia.
  by rewrite i64_small by lia.
Qed.

Lemma span_intervals_bytes s :
  span_ok s → interval_bytes (span_intervals s) = span_dst_bytes s ∧
    Forall (λ se, 0 <= se.1 < se.2) (span_intervals s) ∧ span_intervals s ≠ [].
Proof.
  intros [H1 H2 _ [H3 H4] _ _ H5]. unfold interval_bytes, span_intervals, span_dst_bytes, INT64_MAX in *.
  assert (∀ k, 0 <= k < span_count s →
    let start := i64 (dst_offset_bytes s + i64 (k * dst_stride_bytes s)) in
    start = dst_offset_bytes s + k * dst_stride_bytes s ∧
    i64 (start + size_bytes s) = dst_offset_bytes s + k * dst_stride_bytes s + size_bytes s) as Hk.
  { intros k Hk. pose proof (repeat_bounds k _ _ Hk H4). cbn zeta.
    rewrite (i64_small (k * _)) by lia. rewrite (i64_small (dst_offset_bytes s + _)) by lia.
    split; [done|]. by rewrite i64_small by lia. }
  split; [|split].
  - rewrite list_fmap_bind. apply Forall_bind_ext, Forall_forall. intros k Hin%elem_of_seqZ.
    destruct (Hk k ltac:(lia)) as [Ha Hb]. cbn. unfold run_bytes. cbn in Ha, Hb.
    rewrite Hb, Ha. f_equal. lia.
  - apply Forall_fmap, Forall_forall. intros k Hin%elem_of_seqZ.
    pose proof (repeat_bounds k (span_count s) (dst_stride_bytes s) ltac:(lia) H4).
    destruct (Hk k ltac:(lia)) as [Ha Hb]. cbn in *. rewrite Hb, Ha. lia.
  - rewrite seqZ_cons by lia. done.
Qed.

(** The spans that reach destination [d]'s block [b]. *)
Definition routed (d b : nat) (s : PoolByteSpan) : Prop :=
  (dst_unit_ordinal s < 0 ∨ dst_unit_ordinal s = Z.of_nat d) ∧ dst_block_index s = Z.of_nat b.
#[export] Instance routed_dec d b s : Decision (routed d b s).
Proof. unfold routed. apply _. Defined.

Definition cover_cell (c : Coverage) (d b : nat) : option (list (Z * Z)) :=
  blocks ← c !! d; blocks !! b.

Lemma add_coverage_cell s c d b l :
  span_ok s → cover_cell c d b = Some l →
  cover_cell (add_coverage s c) d b =
    Some (l ++ if decide (routed d b s) then span_intervals s else []).
Proof.
  intros Hok. unfold cover_cell, add_coverage. destruct (c !! d) as [blocks|] eqn:Ed; [|done]. cbn.
  intros Eb. pose proof (sok_index s Hok) as Hidx.
  assert (∀ n, alter (λ l, l ++ span_intervals s) n blocks !! b
    = Some (l ++ if decide (n = b) then span_intervals s else [])) as Halt.
  { intros n. case_decide as Hn.
    - subst n. by rewrite list_lookup_alter_eq, Eb.
    - rewrite list_lookup_alter_ne, Eb, app_nil_r by done. done. }
  assert (Z.to_nat (dst_block_index s) = b ↔ dst_block_index s = Z.of_nat b) as Hb by lia.
  destruct (Z.ltb_spec (dst_unit_ordinal s) 0) as [Hneg|Hpos].
  - rewrite list_lookup_fmap, Ed. cbn. rewrite Halt. do 2 f_equal.
    unfold routed. repeat case_decide; try done; exfalso; lia.
  - destruct (decide (Z.to_nat (dst_unit_ordinal s) = d)) as [<-|Hne].
    + rewrite list_lookup_alter_eq, Ed. cbn. rewrite Halt. do 2 f_equal.
      unfold routed. repeat case_decide; try done; exfalso; lia.
    + rewrite list_lookup_alter_ne, Ed by done. cbn. rewrite Eb.
      rewrite decide_False by (unfold routed; lia). by rewrite app_nil_r.
Qed.

Lemma cover_spans_ok n nb sl dl spans st st' :
  Forall span_ok spans → cover_spans n nb sl dl spans st = Ok st' →
  (∀ d b l, cover_cell (coverage_by_dst st) d b = Some l →
     cover_cell (coverage_by_dst st') d b =
       Some (l ++ (filter (routed d b) spans ≫= span_intervals))) ∧
  Forall (λ s, dst_unit_ordinal s < n ∧ dst_block_index s < nb ∧
     src_offset_bytes s + (span_count s - 1) * src_stride_bytes s + size_bytes s <= sl ∧
     dst_offset_bytes s + (span_count s - 1) * dst_stride_bytes s + size_bytes s <= dl) spans.
Proof.
  intros Hok. revert st; induction Hok as [|s spans Hs Hok IH]; intros st; cbn [cover_spans].
  { intros [= <-]. split; [|constructor]. intros d b l ->. cbn. by rewrite app_nil_r. }
  intros (st1 & E1 & E)%bind_Ok. destruct (IH st1 E) as [Hcell Hf].
  unfold cover_span in E1. do 2 (case_match; [done|]).
  pose proof Hs as [H1 H2 [H3 H4] [H5 H6] _ H7 H8].
  rewrite (strided_end_exact (src_offset_bytes s)), (strided_end_exact (dst_offset_bytes s)) in E1 by lia.
  do 3 (case_match; [done|]). injection E1 as <-. cbn in Hcell. split.
  - intros d b l Hl. rewrite (Hcell d b _ (add_coverage_cell s _ d b l Hs Hl)).
    f_equal. rewrite <- app_assoc. f_equal. rewrite filter_cons. by case_decide.
  - constructor; [|done]. lia.
Qed.

Lemma covered_until_ok ivs c e :
  Forall (λ se, 0 <= se.1 < se.2) ivs → covered_until c ivs = Ok e →
  c <= e ∧ interval_bytes ivs = run_bytes c e.
Proof.
  intros Hf. revert c; induction Hf as [|[s t] ivs Hst Hf IH]; intros c; simpl.
  { intros [= <-]. split; [lia|]. unfold run_bytes. by rewrite seqZ_nil by lia. }
  destruct (Z.eqb_spec s c) as [->|]; [|done]. cbn [negb]. intros E. destruct (IH t E) as [Hle Hb].
  cbn in Hst. split; [lia|]. unfold interval_bytes in *. cbn. rewrite Hb. by apply run_bytes_app; lia.
Qed.

(** One accepted block: its intervals tile [0, extent). *)
Definition block_tiled (ivs : list (Z * Z)) (e : Z) : Prop :=
  ivs ≠ [] ∧ covered_until 0 (merge_sort interval_le ivs) = Ok e.

Lemma dst_extents_ok nb dl i blocks exts :
  dst_extents nb dl i blocks = Ok exts →
  length exts = length blocks ∧
  ∀ b ivs, blocks !! b = Some ivs → ∃ e, exts !! b = Some e ∧ block_tiled ivs e ∧
    (i + Z.of_nat b ≠ nb - 1 → e = dl).
Proof.
  revert i exts; induction blocks as [|ivs blocks IH]; intros i exts; simpl.
  { intros [= <-]. split; [done|]. intros b ivs Hb. by rewrite lookup_nil in Hb. }
  case_bool_decide as Hne; [done|]. intros (e & Ee & E)%bind_Ok.
  destruct (negb (i =? nb - 1) && negb (e =? dl)) eqn:Ep; [done|].
  apply fmap_Ok in E as (rest & E & ->). destruct (IH _ _ E) as [Hlen Hb].
  split; [simpl; lia|]. intros [|b] ivs' Hl; simpl in Hl.
  - simplify_eq. exists e. split; [done|]. split; [done|]. lia.
  - destruct (Hb b ivs' Hl) as (e' & He' & Ht & Hd). exists e'. split; [done|]. split; [done|].
    intros Hi. apply Hd. lia.
Qed.

Lemma check_destinations_ok nb dl d extents coverage result :
  0 <= d → check_destinations nb dl d extents coverage = Ok result →
  (0 < d → result = extents) ∧
  ∀ i blocks, coverage !! i = Some blocks → dst_extents nb dl 0 blocks = Ok result.
Proof.
  revert d extents; induction coverage as [|blocks coverage IH]; intros d extents Hd; simpl.
  { intros [= <-]. split; [done|]. intros i blocks Hi. by rewrite lookup_nil in Hi. }
  intros (exts & Ee & E)%bind_Ok. destruct (Z.eqb_spec d 0) as [->|Hne].
  - destruct (IH 1 exts ltac:(lia) E) as [H1 H2]. split; [lia|].
    intros [|i] bl Hi; simpl in Hi; [|eauto]. simplify_eq. by rewrite (H1 ltac:(lia)).
  - case_bool_decide as Heq; [|done]. subst exts. cbn [negb] in E.
    destruct (IH (d + 1) extents ltac:(lia) E) as [H1 H2]. split; [intros _; apply H1; lia|].
    intros [|i] bl Hi; simpl in Hi; [|eauto]. simplify_eq. by rewrite (H1 ltac:(lia)).
Qed.

(** Everything an accepted coverage check establishes. *)
Lemma ValidateSpanCoverage_inv declared nd nb sl dl clipped extents :
  Forall (λ ue, Forall span_ok (ps_spans ue.2)) declared →
  ValidateSpanCoverage declared nd nb sl dl clipped = Ok extents →
  let spans := declared ≫= λ ue, ps_spans ue.2 in
  Forall (λ s, dst_unit_ordinal s < Z.of_nat nd ∧ dst_block_index s < Z.of_nat nb ∧
     src_offset_bytes s + (span_count s - 1) * src_stride_bytes s + size_bytes s <= sl ∧
     dst_offset_bytes s + (span_count s - 1) * dst_stride_bytes s + size_bytes s <= dl) spans ∧
  ∀ d b, (d < nd)%nat → (b < nb)%nat →
    ∃ e, extents !! b = Some e ∧ 0 < e ∧ (S b ≠ nb → e = dl) ∧
      (filter (routed d b) spans ≫= span_dst_bytes) ≡ₚ seqZ 0 e.
Proof.
  intros Hok E spans. unfold ValidateSpanCoverage in E. fold spans in E.
  assert (Forall span_ok spans) as Hspans.
  { apply Forall_forall. intros s (ue & Hs & Hue)%list_elem_of_bind.
    rewrite Forall_forall in Hok. specialize (Hok ue Hue). rewrite Forall_forall in Hok. auto. }
  apply bind_Ok in E as (st & Ec & E). apply bind_Ok in E as (exts & Ed & E).
  assert (exts = extents) as -> by (do 2 (case_match; [done|]); by simplify_eq).
  destruct (cover_spans_ok _ _ _ _ _ _ _ Hspans Ec) as [Hcell Hbnd].
  split; [done|]. intros d b Hd Hb.
  assert (cover_cell (coverage_by_dst st) d b
    = Some (filter (routed d b) spans ≫= span_intervals)) as Hc.
  { apply (Hcell d b []). unfold cover_cell. cbn. rewrite lookup_replicate_2 by done. cbn.
    by rewrite lookup_replicate_2 by done. }
  unfold cover_cell in Hc. destruct (coverage_by_dst st !! d) as [blocks|] eqn:Ebl; [|done]. cbn in Hc.
  destruct (check_destinations_ok _ _ _ _ _ _ (Z.le_refl 0) Ed) as [_ Hdst].
  destruct (dst_extents_ok _ _ _ _ _ (Hdst d blocks Ebl)) as [_ Hext].
  destruct (Hext b _ Hc) as (e & He & [Hne Htile] & Hlast). exists e. split; [done|].
  assert (Forall (λ se, 0 <= se.1 < se.2) (filter (routed d b) spans ≫= span_intervals)) as Hprop.
  { apply Forall_forall. intros se (s & Hse & [_ Hs]%list_elem_of_filter)%list_elem_of_bind.
    rewrite Forall_forall in Hspans. destruct (span_intervals_bytes s (Hspans s Hs)) as (_ & Hf & _).
    rewrite Forall_forall in Hf. auto. }
  pose proof (merge_sort_Permutation interval_le (filter (routed d b) spans ≫= span_intervals)) as HP.
  destruct (covered_until_ok (merge_sort interval_le (filter (routed d b) spans ≫= span_intervals)) 0 e)
    as [H0e Hbytes]; [by rewrite HP|done|].
  assert (interval_bytes (filter (routed d b) spans ≫= span_intervals)
    = (filter (routed d b) spans ≫= span_dst_bytes)) as Heq.
  { clear -Hspans. unfold interval_bytes. induction Hspans as [|s spans Hs _ IH]; [done|].
    rewrite filter_cons. case_decide; [|done]. rewrite !bind_cons, bind_app, IH.
    f_equal. apply (span_intervals_bytes s Hs). }
  assert ((filter (routed d b) spans ≫= span_dst_bytes) ≡ₚ seqZ 0 e) as Hperm.
  { rewrite <- Heq. rewrite <- (interval_bytes_Permutation _ _ HP), Hbytes. unfold run_bytes.
    by rewrite Z.sub_0_r. }
  split; [|split; [intros; apply Hlast; lia|done]].
  destruct (decide (e = 0)) as [->|]; [exfalso|lia].
  destruct (filter (routed d b) spans ≫= span_intervals) as [|[s t] ivs] eqn:Eivs; [done|].
  pose proof (interval_bytes_Permutation _ _ HP) as HP'. rewrite Hbytes in HP'.
  apply Forall_cons_1 in Hprop as [Hst _]. cbn in Hst.
  assert (s ∈ run_bytes 0 0) as Hin.
  { rewrite HP'. unfold interval_bytes. rewrite bind_cons. apply elem_of_app. left.
    apply elem_of_run_bytes. cbn. lia. }
  apply elem_of_run_bytes in Hin. lia.
Qed.

(** ** Emission is the reference copy *)

(** Byte copies (sender, source block, source byte, destination byte). *)
Abbreviation Copy := (RaidenId * Z * Z * Z)%type.

(** What a schedule entry of sender [u] copies. *)
Definition entry_pairs (e : ScheduleEntry) : list (Z * Z) :=
  seqZ 0 (se_count e) ≫= λ k,
    zip (seqZ (se_src_offset_bytes e + k * se_src_stride_bytes e) (se_size_bytes e))
        (seqZ (se_dst_offset_bytes e + k * se_dst_stride_bytes e) (se_size_bytes e)).
Definition entry_copies (ue : RaidenId * ScheduleEntry) : list Copy :=
  (λ st, (ue.1, se_src_block_id ue.2, st.1, st.2)) <$> entry_pairs ue.2.

(** All entries of a schedule with their sender. *)
Definition all_entries (m : SchedulesByUnit) : list (RaidenId * ScheduleEntry) :=
  map_to_list m ≫= λ ul, (λ e, (ul.1, e)) <$> ul.2.

(** What entries [l] copy into block [block] of pool group [g] of the destination
    at [peer]. *)
Definition written (g : Z) (peer : string) (block : Z) (l : list (RaidenId * ScheduleEntry))
    : list Copy :=
  filter (λ ue, se_pool_group ue.2 = g ∧ se_dst_peer ue.2 = peer ∧ se_dst_block_id ue.2 = block) l
    ≫= entry_copies.

(** What a declared span means: repeat by repeat, compact-live source bytes to
    compact-live destination bytes. *)
Definition span_pairs (src dst : list PoolLiveSegment) (s : PoolByteSpan) : list (Z * Z) :=
  seqZ 0 (span_count s) ≫= λ k,
    zip (slice (segment_bytes src) (src_offset_bytes s + k * src_stride_bytes s) (size_bytes s))
        (slice (segment_bytes dst) (dst_offset_bytes s + k * dst_stride_bytes s) (size_bytes s)).
Definition span_copies (src dst : list PoolLiveSegment) (o : OrderedSpan) : list Copy :=
  (λ st, (os_unit o, ps_block_ids (os_entry o) !!! Z.to_nat (src_block_ordinal (os_span o)), st.1, st.2))
    <$> span_pairs src dst (os_span o).

Section emission.
Implicit Types (m : SchedulesByUnit) (u : RaidenId) (entries : list ScheduleEntry).

(** A plain (unstrided) entry is one run. *)
Lemma plain_entry_copies u peer so do_ size sb db g :
  entry_copies (u, mkEntry peer 0 do_ so size sb db 0 0 1 0 g) =
    (λ st, (u, sb, st.1, st.2)) <$> zip (seqZ so size) (seqZ do_ size).
Proof.
  unfold entry_copies, entry_pairs.
  cbn [fst snd se_count se_src_offset_bytes se_src_stride_bytes se_size_bytes se_dst_offset_bytes
       se_dst_stride_bytes se_src_block_id].
  change (seqZ 0 1) with [0]. rewrite bind_cons. rewrite !Z.mul_0_r, !Z.add_0_r.
  change ([] ≫= _) with (@nil (Z * Z)). by rewrite app_nil_r.
Qed.

Lemma push_entries_all u entries m :
  all_entries (push_entries u entries m) ≡ₚ all_entries m ++ ((λ e, (u, e)) <$> entries).
Proof.
  unfold push_entries, all_entries. destruct entries as [|e entries]; [by rewrite app_nil_r|].
  generalize (e :: entries) as es. intros es. destruct (m !! u) as [l|] eqn:E; cbn [default from_option id].
  - rewrite <- (insert_delete_eq m), map_to_list_insert by apply lookup_delete_eq.
    rewrite <- (map_to_list_delete m u l E), !bind_cons. cbn. rewrite fmap_app.
    rewrite (Permutation_app_comm _ ((λ e, (u, e)) <$> es)) at 1.
    solve_Permutation.
  - rewrite map_to_list_insert by done. rewrite bind_cons. cbn. apply Permutation_app_comm.
Qed.

Lemma written_app g peer block l l' :
  written g peer block (l ++ l') = written g peer block l ++ written g peer block l'.
Proof. unfold written. by rewrite filter_app, bind_app. Qed.
Lemma written_Permutation g peer block l l' :
  l ≡ₚ l' → written g peer block l ≡ₚ written g peer block l'.
Proof. intros H. unfold written. by rewrite H. Qed.

(** Of the entries of one chunk, one per target, a destination keeps its own. *)
Lemma written_targets g (peers : PeersByUnit) (dst_units targets : list RaidenId) d u block f :
  NoDup ((λ v, peers !!! v) <$> dst_units) → targets ⊆ dst_units → NoDup targets →
  dst_units !! d = Some u →
  (∀ v, se_dst_peer (f v) = peers !!! v) → (∀ v, se_pool_group (f v) = g) →
  ∀ sender, written g (peers !!! u) block ((λ v, (sender, f v)) <$> targets) =
    if decide (u ∈ targets ∧ se_dst_block_id (f u) = block) then entry_copies (sender, f u) else [].
Proof.
  intros Hnd Hsub Hndt Hu Hf Hg sender. unfold written.
  assert (∀ v, v ∈ dst_units → peers !!! v = peers !!! u → v = u) as Hinj.
  { intros v [i Hi]%list_elem_of_lookup_1 Heq.
    assert (i = d) as ->; [|congruence].
    eapply (NoDup_lookup _ i d (peers !!! u) Hnd); rewrite list_lookup_fmap, ?Hi, ?Hu; cbn; congruence. }
  induction targets as [|v targets IH]; [by rewrite decide_False by set_solver|].
  apply NoDup_cons in Hndt as [Hv Hndt]. rewrite fmap_cons, filter_cons. cbn [snd fst].
  assert (v ∈ dst_units) as Hvd by set_solver. specialize (IH ltac:(set_solver) Hndt).
  destruct (decide (v = u)) as [->|Hne].
  - rewrite decide_False in IH by tauto. rewrite Hf, Hg. destruct (decide (se_dst_block_id (f u) = block)).
    + rewrite !decide_True by set_solver. rewrite bind_cons, IH, app_nil_r. done.
    + rewrite !decide_False by naive_solver. done.
  - rewrite decide_False by (rewrite Hf; naive_solver). rewrite IH.
    destruct (decide (u ∈ targets ∧ se_dst_block_id (f u) = block)).
    + rewrite decide_True by set_solver. done.
    + rewrite decide_False by set_solver. done.
Qed.
End emission.

(** The geometry a tag's precheck hands to the emission. *)
Record precheck_ok (pc : TagPrecheck) : Prop := {
  pc_src_wf : ∃ limit, 0 <= limit <= INT64_MAX ∧ segs_wf limit 0 0 (tp_src_segments pc);
  pc_dst_wf : ∃ limit, 0 <= limit <= INT64_MAX ∧ segs_wf limit 0 0 (tp_dst_segments pc);
  pc_src_live : tp_src_live pc = live_total (tp_src_segments pc);
  pc_dst_live : tp_dst_live pc = live_total (tp_dst_segments pc);
  pc_identity : tp_identity_maps pc =
    IdentityLiveMap (tp_src_segments pc) (tp_src_live pc) &&
    IdentityLiveMap (tp_dst_segments pc) (tp_dst_live pc);
}.

Lemma zip_bind {A} (l : list A) (f g : A → list Z) :
  (∀ x, x ∈ l → length (f x) = length (g x)) →
  zip (l ≫= f) (l ≫= g) = l ≫= λ x, zip (f x) (g x).
Proof.
  induction l as [|x l IH]; intros H; [done|].
  rewrite !bind_cons, zip_with_app by (apply H; set_solver). f_equal. apply IH. set_solver.
Qed.

Lemma written_bind {A} g peer block (l : list A) (h : A → list (RaidenId * ScheduleEntry)) :
  written g peer block (l ≫= h) = l ≫= λ x, written g peer block (h x).
Proof. induction l as [|x l IH]; [done|]. rewrite !bind_cons, written_app. by rewrite IH. Qed.

Lemma fmap_of_bind {A B C} (h : B → C) (l : list A) (g : A → list B) :
  h <$> (l ≫= g) = l ≫= λ x, h <$> g x.
Proof. induction l as [|x l IH]; [done|]. rewrite !bind_cons, fmap_app. by rewrite IH. Qed.

Lemma bind_if {A B} (c : bool) (l : list A) (f : A → list B) :
  (l ≫= λ x, if c then f x else []) = if c then l ≫= f else [].
Proof. destruct c; [done|]. induction l as [|x l IH]; [done|]. by rewrite bind_cons, IH. Qed.

(** Reading a slice byte by byte. *)
Lemma slice_lookup (l : list Z) off size :
  0 <= off → off + size <= Z.of_nat (length l) → 0 <= size →
  slice l off size = (λ i, l !!! Z.to_nat i) <$> seqZ off size.
Proof.
  intros Ho Hl Hs. apply list_eq. intros i. unfold slice.
  rewrite list_lookup_fmap.
  destruct (decide (i < Z.to_nat size)%nat) as [Hi|Hi].
  - rewrite lookup_take_lt, lookup_drop by lia.
    rewrite (lookup_seqZ_lt _ _ i) by lia. cbn.
    replace (Z.to_nat (off + Z.of_nat i)) with (Z.to_nat off + i)%nat by lia.
    apply list_lookup_lookup_total_lt. lia.
  - rewrite lookup_take_ge by lia. rewrite (lookup_seqZ_ge _ _ i) by lia. done.
Qed.

Lemma targets_ok dst_units s :
  NoDup dst_units →
  span_targets dst_units s ⊆ dst_units ∧ NoDup (span_targets dst_units s).
Proof.
  intros Hunits. unfold span_targets. destruct (dst_unit_ordinal s <? 0); [done|].
  destruct (dst_units !! Z.to_nat (dst_unit_ordinal s)) as [v|] eqn:E.
  - apply list_elem_of_lookup_2 in E. split; [set_solver|apply NoDup_singleton].
  - split; [set_solver|constructor].
Qed.

Section emit.
Context (pc : TagPrecheck) (Hpc : precheck_ok pc).
Context (dst_units : list RaidenId) (dst_peers : PeersByUnit) (dst_ids : list Z) (pool_group : Z).
Context (Hpeers : NoDup ((λ v, dst_peers !!! v) <$> dst_units)) (Hunits : NoDup dst_units).
Context (Hids : NoDup dst_ids).
Context (d b : nat) (u : RaidenId) (B : Z).
Context (Hu : dst_units !! d = Some u) (HB : dst_ids !! b = Some B).

Let S_bytes := segment_bytes (tp_src_segments pc).
Let D_bytes := segment_bytes (tp_dst_segments pc).

(** A span the coverage check accepted. *)
Definition span_in (s : PoolByteSpan) : Prop :=
  span_ok s ∧ dst_unit_ordinal s < Z.of_nat (length dst_units) ∧
  dst_block_index s < Z.of_nat (length dst_ids) ∧
  src_offset_bytes s + (span_count s - 1) * src_stride_bytes s + size_bytes s <= tp_src_live pc ∧
  dst_offset_bytes s + (span_count s - 1) * dst_stride_bytes s + size_bytes s <= tp_dst_live pc.

Lemma routed_iff s :
  span_in s →
  (u ∈ span_targets dst_units s ∧ dst_ids !!! Z.to_nat (dst_block_index s) = B) ↔ routed d b s.
Proof.
  intros (Hok & Hord & Hidx & _). pose proof (sok_index s Hok) as H0. unfold routed.
  assert (dst_ids !!! Z.to_nat (dst_block_index s) = B ↔ dst_block_index s = Z.of_nat b) as ->.
  { destruct (lookup_lt_is_Some_2 dst_ids (Z.to_nat (dst_block_index s))) as [y Hy]; [lia|].
    rewrite (list_lookup_total_correct _ _ _ Hy). split.
    - intros ->. pose proof (NoDup_lookup _ _ _ _ Hids Hy HB). lia.
    - intros Hi. rewrite Hi, Nat2Z.id in Hy. congruence. }
  assert (u ∈ span_targets dst_units s ↔
    dst_unit_ordinal s < 0 ∨ dst_unit_ordinal s = Z.of_nat d) as ->; [|done].
  unfold span_targets. destruct (Z.ltb_spec (dst_unit_ordinal s) 0) as [Hneg|Hpos].
  { split; [by left|]. intros _. by eapply list_elem_of_lookup_2. }
  destruct (lookup_lt_is_Some_2 dst_units (Z.to_nat (dst_unit_ordinal s))) as [v Hv]; [lia|].
  rewrite Hv, list_elem_of_singleton. split.
  - intros ->. right. pose proof (NoDup_lookup _ _ _ _ Hunits Hv Hu). lia.
  - intros [?|Hd]; [lia|]. rewrite Hd, Nat2Z.id in Hv. congruence.
Qed.

Lemma TranslateLiveCopy_sound so do_ size chunks :
  0 < size → so + size <= tp_src_live pc → do_ + size <= tp_dst_live pc →
  TranslateLiveCopy (tp_src_segments pc) (tp_dst_segments pc) so do_ size = Ok chunks →
  src_bytes chunks = slice S_bytes so size ∧ dst_bytes chunks = slice D_bytes do_ size ∧
  Forall (λ c, 0 < chunk_size c) chunks.
Proof.
  destruct Hpc as [(l1 & Hl1 & W1) (l2 & Hl2 & W2) E1 E2 _]. rewrite E1, E2.
  pose proof (live_total_bound _ _ _ _ W1 (proj1 Hl1)).
  pose proof (live_total_bound _ _ _ _ W2 (proj1 Hl2)).
  intros Hsz H1 H2. unfold TranslateLiveCopy. case_match; [done|].
  apply (translate_loop_sound l1 l2); try done; lia.
Qed.

(** What one translated repeat writes into the destination's block. *)
Lemma written_chunks sender sb s so do_ chunks :
  span_in s → 0 < size_bytes s →
  so + size_bytes s <= tp_src_live pc → do_ + size_bytes s <= tp_dst_live pc →
  TranslateLiveCopy (tp_src_segments pc) (tp_dst_segments pc) so do_ (size_bytes s) = Ok chunks →
  written pool_group (dst_peers !!! u) B
    ((λ e, (sender, e)) <$>
       chunk_entries dst_peers (span_targets dst_units s) sb
         (dst_ids !!! Z.to_nat (dst_block_index s)) pool_group chunks)
  = if decide (routed d b s)
    then (λ st, (sender, sb, st.1, st.2)) <$> zip (slice S_bytes so (size_bytes s)) (slice D_bytes do_ (size_bytes s))
    else [].
Proof.
  intros Hin Hsz Hs Hd E. destruct (TranslateLiveCopy_sound _ _ _ _ Hsz Hs Hd E) as (<- & <- & Hpos).
  destruct (targets_ok dst_units s Hunits) as [Hsub Hnd].
  unfold chunk_entries. rewrite fmap_of_bind, written_bind.
  assert (∀ c, written pool_group (dst_peers !!! u) B ((λ e, (sender, e)) <$>
     ((λ dst, mkEntry (dst_peers !!! dst) 0 (dst_physical c) (src_physical c) (chunk_size c) sb
         (dst_ids !!! Z.to_nat (dst_block_index s)) 0 0 1 0 pool_group) <$> span_targets dst_units s))
     = if bool_decide (routed d b s)
       then (λ st, (sender, sb, st.1, st.2)) <$>
              zip (seqZ (src_physical c) (chunk_size c)) (seqZ (dst_physical c) (chunk_size c))
       else []) as Hc.
  { intros c. rewrite <- list_fmap_compose. unfold compose.
    rewrite (written_targets pool_group dst_peers dst_units (span_targets dst_units s) d u B
      (λ dst, mkEntry (dst_peers !!! dst) 0 (dst_physical c) (src_physical c) (chunk_size c) sb
         (dst_ids !!! Z.to_nat (dst_block_index s)) 0 0 1 0 pool_group) Hpeers Hsub Hnd Hu
      (λ v, eq_refl) (λ v, eq_refl) sender). cbn [se_dst_block_id].
    pose proof (routed_iff s Hin) as Hr.
    case_bool_decide as Hrt; [rewrite decide_True by tauto|by rewrite decide_False by tauto].
    by rewrite plain_entry_copies. }
  rewrite (list_bind_ext _ _ chunks chunks Hc eq_refl), bind_if.
  case_bool_decide; [rewrite decide_True by done|by rewrite decide_False by done].
  rewrite <- fmap_of_bind. f_equal. symmetry. apply zip_bind. intros c _. by rewrite !length_seqZ.
Qed.

(** The repeats of a span, one after the other. *)
Lemma emit_repeats_ok sender sb s repeats m em m' em' :
  span_in s → Forall (λ k, 0 <= k < span_count s) repeats →
  emit_repeats pc dst_peers (span_targets dst_units s) sender sb
    (dst_ids !!! Z.to_nat (dst_block_index s)) pool_group s repeats m em = Ok (m', em') →
  ∃ new, all_entries m' ≡ₚ all_entries m ++ new ∧
    written pool_group (dst_peers !!! u) B new =
      if decide (routed d b s)
      then (λ st, (sender, sb, st.1, st.2)) <$>
             (repeats ≫= λ k,
                zip (slice S_bytes (src_offset_bytes s + k * src_stride_bytes s) (size_bytes s))
                    (slice D_bytes (dst_offset_bytes s + k * dst_stride_bytes s) (size_bytes s)))
      else [].
Proof.
  intros Hin Hk. revert m em; induction Hk as [|k repeats Hk _ IH]; intros m em; cbn [emit_repeats].
  { intros [= <- <-]. exists []. rewrite app_nil_r. split; [done|]. by destruct (decide _). }
  pose proof Hin as (Hok & _ & _ & Hse & Hde).
  destruct Hok as [H1 H2 [H3 H4] [H5 H6] _ H7 H8]. unfold INT64_MAX in *.
  pose proof (repeat_bounds k _ _ Hk H4). pose proof (repeat_bounds k _ _ Hk H6).
  rewrite (i64_small (k * src_stride_bytes s)), (i64_small (k * dst_stride_bytes s)) by lia.
  rewrite (i64_small (src_offset_bytes s + _)), (i64_small (dst_offset_bytes s + _)) by lia.
  intros (chunks & Et & E)%bind_Ok. case_match; [done|].
  destruct (IH _ _ E) as (new & Hall & Hw). rewrite push_entries_all in Hall.
  eexists. split; [rewrite Hall, <- app_assoc; done|].
  pose proof (written_chunks sender sb s (src_offset_bytes s + k * src_stride_bytes s)
    (dst_offset_bytes s + k * dst_stride_bytes s) chunks Hin H1 ltac:(lia) ltac:(lia) Et) as Hwc.
  rewrite written_app, Hwc, Hw.
  destruct (decide (routed d b s)); [|done]. by rewrite bind_cons, fmap_app.
Qed.

Lemma identity_slice segs live off size :
  IdentityLiveMap segs live = true → 0 <= off → 0 < size → off + size <= live →
  slice (segment_bytes segs) off size = seqZ off size.
Proof.
  destruct segs as [|s [|s' segs]]; try done. intros Hid Ho Hs Hl.
  apply andb_true_iff in Hid as [[_ Hp%Z.eqb_eq]%andb_true_iff Hsz%Z.eqb_eq].
  unfold slice. rewrite segment_bytes_cons, Hp, Hsz. change (segment_bytes []) with (@nil Z).
  rewrite app_nil_r, drop_seqZ_Z, take_seqZ_Z by lia. done.
Qed.

(** With identity maps a strided entry is the span itself. *)
Lemma strided_entry_copies sender sb s peer db :
  span_in s → tp_identity_maps pc = true →
  entry_copies (sender, mkEntry peer 0 (dst_offset_bytes s) (src_offset_bytes s) (size_bytes s) sb db
      (src_stride_bytes s) (dst_stride_bytes s) (span_count s) 0 pool_group) =
  (λ st, (sender, sb, st.1, st.2)) <$> span_pairs (tp_src_segments pc) (tp_dst_segments pc) s.
Proof.
  intros (Hok & _ & _ & Hse & Hde) Hid. destruct Hok as [H1 H2 [H3 H4] [H5 H6] _ _ _].
  rewrite (pc_identity pc Hpc) in Hid. apply andb_true_iff in Hid as [Hi1 Hi2].
  unfold entry_copies, entry_pairs, span_pairs. cbn [fst snd se_count se_src_offset_bytes
    se_src_stride_bytes se_size_bytes se_dst_offset_bytes se_dst_stride_bytes se_src_block_id].
  f_equal. apply Forall_bind_ext, Forall_forall. intros k Hk%elem_of_seqZ.
  pose proof (repeat_bounds k (span_count s) (src_stride_bytes s) ltac:(lia) H4).
  pose proof (repeat_bounds k (span_count s) (dst_stride_bytes s) ltac:(lia) H6).
  by rewrite (identity_slice _ _ _ _ Hi1), (identity_slice _ _ _ _ Hi2) by lia.
Qed.

Lemma emit_span_ok o st st' :
  span_in (os_span o) →
  emit_span dst_units dst_peers dst_ids pc pool_group o st = Ok st' →
  ∃ new, all_entries (em_schedules st') ≡ₚ all_entries (em_schedules st) ++ new ∧
    written pool_group (dst_peers !!! u) B new =
      if decide (routed d b (os_span o))
      then span_copies (tp_src_segments pc) (tp_dst_segments pc) o else [].
Proof.
  intros Hin. unfold emit_span. destruct ((1 <? span_count (os_span o)) && tp_identity_maps pc) eqn:Eid.
  - apply andb_true_iff in Eid as [_ Hid]. case_match; [done|]. intros [= <-]. cbn [em_schedules].
    eexists. split; [apply push_entries_all|]. rewrite <- list_fmap_compose. unfold compose.
    destruct (targets_ok dst_units (os_span o) Hunits) as [Hsub Hnd].
    rewrite (written_targets pool_group dst_peers dst_units (span_targets dst_units (os_span o)) d u B
      (λ dst, mkEntry (dst_peers !!! dst) 0 (dst_offset_bytes (os_span o)) (src_offset_bytes (os_span o))
         (size_bytes (os_span o)) (ps_block_ids (os_entry o) !!! Z.to_nat (src_block_ordinal (os_span o)))
         (dst_ids !!! Z.to_nat (dst_block_index (os_span o))) (src_stride_bytes (os_span o))
         (dst_stride_bytes (os_span o)) (span_count (os_span o)) 0 pool_group) Hpeers Hsub Hnd Hu
      (λ v, eq_refl) (λ v, eq_refl)). cbn [se_dst_block_id].
    pose proof (routed_iff _ Hin) as Hr. destruct (decide (routed d b (os_span o))).
    + rewrite decide_True by tauto. by rewrite strided_entry_copies.
    + by rewrite decide_False by tauto.
  - intros ([m em] & E & [= <-])%bind_Ok. cbn [em_schedules].
    apply (emit_repeats_ok _ _ (os_span o)) in E as (new & Hall & Hw); [|done|].
    + exists new. split; [done|]. rewrite Hw. done.
    + apply Forall_forall. intros k Hk%elem_of_seqZ. lia.
Qed.

Lemma emit_spans_ok os st st' :
  Forall (λ o, span_in (os_span o)) os →
  emit_spans dst_units dst_peers dst_ids pc pool_group os st = Ok st' →
  ∃ new, all_entries (em_schedules st') ≡ₚ all_entries (em_schedules st) ++ new ∧
    written pool_group (dst_peers !!! u) B new =
      (filter (λ o, routed d b (os_span o)) os ≫=
         span_copies (tp_src_segments pc) (tp_dst_segments pc)).
Proof.
  intros Hos. revert st; induction Hos as [|o os Ho _ IH]; intros st; cbn [emit_spans].
  { intros [= <-]. exists []. by rewrite app_nil_r. }
  intros (st1 & E1 & E)%bind_Ok. destruct (emit_span_ok o st st1 Ho E1) as (new1 & H1 & W1).
  destruct (IH st1 E) as (new2 & H2 & W2). exists (new1 ++ new2). split.
  - rewrite H2, H1. by rewrite app_assoc.
  - rewrite written_app, W1, W2, filter_cons. by destruct (decide _).
Qed.

(** The destination bytes a span's copies land on. *)
Lemma span_copies_dst o :
  span_in (os_span o) →
  (λ c : Copy, c.2) <$> span_copies (tp_src_segments pc) (tp_dst_segments pc) o =
  (λ l, D_bytes !!! Z.to_nat l) <$> span_dst_bytes (os_span o).
Proof.
  intros (Hok & _ & _ & Hse & Hde). destruct Hok as [H1 H2 [H3 H4] [H5 H6] _ _ _].
  rewrite (pc_src_live pc Hpc) in Hse. rewrite (pc_dst_live pc Hpc) in Hde.
  unfold span_copies, span_pairs, span_dst_bytes. rewrite <- list_fmap_compose. unfold compose. cbn [snd].
  rewrite !fmap_of_bind. apply Forall_bind_ext, Forall_forall. intros k Hk%elem_of_seqZ.
  pose proof (repeat_bounds k (span_count (os_span o)) (src_stride_bytes (os_span o)) ltac:(lia) H4).
  pose proof (repeat_bounds k (span_count (os_span o)) (dst_stride_bytes (os_span o)) ltac:(lia) H6).
  unfold live_total in Hse, Hde. fold D_bytes in Hde |- *. fold S_bytes in Hse |- *.
  rewrite <- slice_lookup by lia.
  apply snd_zip. unfold slice. rewrite !length_take, !length_drop. lia.
Qed.
End emit.

Lemma ordered_spans_spans declared :
  os_span <$> ordered_spans declared = declared ≫= λ ue, ps_spans ue.2.
Proof.
  unfold ordered_spans. rewrite fmap_of_bind. apply Forall_bind_ext, Forall_forall. intros ue _.
  rewrite <- list_fmap_compose. unfold compose. cbn. by rewrite list_fmap_id.
Qed.

Lemma routed_ordered_bytes declared d b :
  (filter (λ o, routed d b (os_span o)) (ordered_spans declared) ≫= λ o, span_dst_bytes (os_span o)) =
  (filter (routed d b) (declared ≫= λ ue, ps_spans ue.2) ≫= span_dst_bytes).
Proof.
  rewrite <- ordered_spans_spans. induction (ordered_spans declared) as [|o l IH]; [done|].
  rewrite fmap_cons, !filter_cons. case_decide; [|done]. rewrite !bind_cons. by rewrite IH.
Qed.

Lemma ordered_spans_in pc declared dst_units (dst_ids : list Z) :
  Forall (λ ue, Forall span_ok (ps_spans ue.2)) declared →
  Forall (λ s, dst_unit_ordinal s < Z.of_nat (length dst_units) ∧
     dst_block_index s < Z.of_nat (length dst_ids) ∧
     src_offset_bytes s + (span_count s - 1) * src_stride_bytes s + size_bytes s <= tp_src_live pc ∧
     dst_offset_bytes s + (span_count s - 1) * dst_stride_bytes s + size_bytes s <= tp_dst_live pc)
    (declared ≫= λ ue, ps_spans ue.2) →
  Forall (λ o, span_in pc dst_units dst_ids (os_span o)) (ordered_spans declared).
Proof.
  intros Hok. rewrite <- ordered_spans_spans, Forall_fmap. rewrite !Forall_forall in *.
  intros Hb o Ho. split; [|by apply Hb]. unfold ordered_spans in Ho.
  apply list_elem_of_bind in Ho as (ue & (s & -> & Hs)%list_elem_of_fmap & Hue).
  specialize (Hok ue Hue). rewrite Forall_forall in Hok. cbn. auto.
Qed.

(** An extent does not exceed the destination's live bytes. *)
Lemma extent_within d b spans nd nb sl dl e :
  Forall span_ok spans →
  Forall (λ s, dst_unit_ordinal s < nd ∧ dst_block_index s < nb ∧
     src_offset_bytes s + (span_count s - 1) * src_stride_bytes s + size_bytes s <= sl ∧
     dst_offset_bytes s + (span_count s - 1) * dst_stride_bytes s + size_bytes s <= dl) spans →
  (filter (routed d b) spans ≫= span_dst_bytes) ≡ₚ seqZ 0 e → 0 < e → e <= dl.
Proof.
  intros Hok Hb Hp He. rewrite Forall_forall in Hok, Hb.
  assert (e - 1 ∈ filter (routed d b) spans ≫= span_dst_bytes) as Hin.
  { rewrite Hp. apply elem_of_seqZ. lia. }
  apply list_elem_of_bind in Hin as (s & (k & Hx%elem_of_seqZ & Hk%elem_of_seqZ)%list_elem_of_bind
    & [_ Hs]%list_elem_of_filter).
  destruct (Hb s Hs) as (_ & _ & _ & Hd). destruct (Hok s Hs) as [_ _ _ [_ Hst] _ _ _].
  pose proof (repeat_bounds k (span_count s) (dst_stride_bytes s) ltac:(lia) Hst). lia.
Qed.

Lemma declared_spans_ok declared :
  Forall (λ ue, Forall span_ok (ps_spans ue.2)) declared →
  Forall span_ok (declared ≫= λ ue : RaidenId * PoolSpanRegistration, ps_spans ue.2).
Proof.
  intros Hok. apply Forall_forall. intros s (ue & Hs & Hue)%list_elem_of_bind.
  rewrite Forall_forall in Hok. specialize (Hok ue Hue). rewrite Forall_forall in Hok. auto.
Qed.

Section planned_block.
Context (pc : TagPrecheck) (declared : DeclaredSpans) (dst_units : list RaidenId).
Context (dst_peers : PeersByUnit) (dst_ids : list Z) (clipped : Z) (extents : list Z).
Context (Hpc : precheck_ok pc) (Hok : Forall (λ ue, Forall span_ok (ps_spans ue.2)) declared).
Context (Hcov : ValidateSpanCoverage declared (length dst_units) (length dst_ids) (tp_src_live pc)
                  (tp_dst_live pc) clipped = Ok extents).
Context (d b : nat) (u : RaidenId) (B : Z).
Context (Hu : dst_units !! d = Some u) (HB : dst_ids !! b = Some B).

Let meant := filter (λ o, routed d b (os_span o)) (ordered_spans declared) ≫=
               span_copies (tp_src_segments pc) (tp_dst_segments pc).

Lemma covered_spans_in :
  Forall (λ o, span_in pc dst_units dst_ids (os_span o)) (ordered_spans declared).
Proof. apply ordered_spans_in; [done|]. by eapply ValidateSpanCoverage_inv. Qed.

(** The declared spans cover the block's extent, byte for byte. *)
Lemma covered_bytes :
  ∃ e, extents !! b = Some e ∧ 0 < e ∧ (S b ≠ length dst_ids → e = tp_dst_live pc) ∧
    (λ c : Copy, c.2) <$> meant ≡ₚ slice (segment_bytes (tp_dst_segments pc)) 0 e.
Proof.
  destruct (ValidateSpanCoverage_inv _ _ _ _ _ _ _ Hok Hcov) as [Hbnd Htile].
  destruct (Htile d b ltac:(by eapply lookup_lt_Some) ltac:(by eapply lookup_lt_Some))
    as (e & He & Hpos & Hlast & Hperm).
  exists e. split; [done|]. split; [done|]. split; [done|].
  unfold meant. rewrite fmap_of_bind.
  rewrite (Forall_bind_ext _ (λ o, (λ l, segment_bytes (tp_dst_segments pc) !!! Z.to_nat l)
             <$> span_dst_bytes (os_span o))).
  - rewrite <- fmap_of_bind, routed_ordered_bytes, Hperm, <- slice_lookup; [done|lia| |lia].
    pose proof (extent_within _ _ _ _ _ _ _ _ (declared_spans_ok _ Hok) Hbnd Hperm Hpos) as Hle.
    rewrite (pc_dst_live pc Hpc) in Hle. unfold live_total in Hle. lia.
  - apply Forall_forall. intros o [_ Ho]%list_elem_of_filter.
    pose proof covered_spans_in as Hin. rewrite Forall_forall in Hin.
    apply (span_copies_dst pc Hpc dst_units dst_ids). auto.
Qed.

(** The emission adds exactly the copies the spans mean. *)
Lemma emitted_copies pool_group st st' :
  NoDup dst_units → NoDup ((λ v, dst_peers !!! v) <$> dst_units) → NoDup dst_ids →
  EmitSpanSchedule declared dst_units dst_peers dst_ids pc pool_group st = Ok st' →
  ∃ copies, copies ≡ₚ meant ∧
    written pool_group (dst_peers !!! u) B (all_entries (em_schedules st')) ≡ₚ
      written pool_group (dst_peers !!! u) B (all_entries (em_schedules st)) ++ copies.
Proof.
  intros Hun Hpeers Hids Hemit. unfold EmitSpanSchedule in Hemit.
  pose proof (merge_sort_Permutation ordered_le (ordered_spans declared)) as HP.
  destruct (emit_spans_ok pc Hpc dst_units dst_peers dst_ids pool_group Hpeers Hun Hids d b u B Hu HB
    (merge_sort ordered_le (ordered_spans declared)) st st') as (new & Hall & Hw);
    [rewrite HP; apply covered_spans_in|done|].
  exists (written pool_group (dst_peers !!! u) B new). split.
  - unfold meant. by rewrite Hw, HP.
  - rewrite <- written_app. by apply written_Permutation.
Qed.
End planned_block.

(** C15: An accepted plan writes every destination byte exactly once.  When the
    coverage check accepts the declared spans and the emission succeeds, then for
    every destination unit and every block of its list the new schedule entries
    copy exactly what the spans routed there declare (the right sender, source
    block and source byte for each destination byte), and the destination bytes
    they write are, each once, the first extent bytes of the block's live bytes;
    every block but the last is written in full. *)
Theorem plan_writes_exactly_once pc declared dst_units dst_peers dst_ids pool_group clipped extents st st' :
  precheck_ok pc → Forall (λ ue, Forall span_ok (ps_spans ue.2)) declared →
  NoDup dst_units → NoDup ((λ v, dst_peers !!! v) <$> dst_units) → NoDup dst_ids →
  ValidateSpanCoverage declared (length dst_units) (length dst_ids) (tp_src_live pc) (tp_dst_live pc)
    clipped = Ok extents →
  EmitSpanSchedule declared dst_units dst_peers dst_ids pc pool_group st = Ok st' →
  ∀ d b u B, dst_units !! d = Some u → dst_ids !! b = Some B →
  ∃ copies e,
    written pool_group (dst_peers !!! u) B (all_entries (em_schedules st')) ≡ₚ
      written pool_group (dst_peers !!! u) B (all_entries (em_schedules st)) ++ copies ∧
    copies ≡ₚ (filter (λ o, routed d b (os_span o)) (ordered_spans declared) ≫=
                 span_copies (tp_src_segments pc) (tp_dst_segments pc)) ∧
    extents !! b = Some e ∧ 0 < e ∧ (S b ≠ length dst_ids → e = tp_dst_live pc) ∧
    (λ c : Copy, c.2) <$> copies ≡ₚ slice (segment_bytes (tp_dst_segments pc)) 0 e.
Proof.
  intros Hpc Hok Hun Hpeers Hids Hcov Hemit d b u B Hu HB.
  destruct (covered_bytes _ _ _ _ _ _ Hpc Hok Hcov d b u B Hu HB) as (e & He & Hpos & Hlast & Hb).
  destruct (emitted_copies _ _ _ dst_peers _ _ _ Hpc Hok Hcov d b u B Hu HB _ _ _ Hun Hpeers Hids Hemit)
    as (copies & Hc & Hw).
  exists copies, e. split; [done|]. split; [done|]. split; [done|]. split; [done|]. split; [done|].
  by rewrite Hc.
Qed.

(** ** A two-rank example: each producer fills half of one destination page *)
Definition unit_d : RaidenId := mkRaidenId "decode" "0" "kv" 0.
Definition pc_ex : TagPrecheck :=
  mkPrecheck [0] 8 8 [mkSegment 0 0 8] [mkSegment 0 0 3; mkSegment 3 16 5] false 0 0.
Definition half (src_block dst_offset : Z) : PoolSpanRegistration :=
  mkPoolSpans "fa" [src_block] [mkSpan 0 0 0 dst_offset 4 0 0 1 (-1)] 4 0.
Definition declared_ex : DeclaredSpans := [(unit_a, half 2 0); (unit_b, half 5 4)].
Definition peers_ex : PeersByUnit := {[unit_d := "d:1"%string]}.
Definition emit0 : EmitState := mkEmit ∅ 0 ∅.
Definition emit_ex : StatusOr EmitState :=
  EmitSpanSchedule declared_ex [unit_d] peers_ex [7] pc_ex 0 emit0.

Lemma pc_ex_ok : precheck_ok pc_ex.
Proof.
  split; try reflexivity; exists 32; (split; [unfold INT64_MAX; lia|cbn; lia]).
Qed.
Lemma declared_ex_ok : Forall (λ ue, Forall span_ok (ps_spans ue.2)) declared_ex.
Proof.
  repeat constructor; cbn; unfold kMaxSpanCount, INT64_MAX; lia.
Qed.

Lemma plan_writes_exactly_once_witness :
  ∃ copies, written 0 "d:1" 7 (all_entries (em_schedules (ok_or emit0 emit_ex))) ≡ₚ
      written 0 "d:1" 7 (all_entries ∅) ++ copies ∧
    (λ c : Copy, c.2) <$> copies ≡ₚ slice (segment_bytes (tp_dst_segments pc_ex)) 0 8.
Proof.
  destruct (plan_writes_exactly_once pc_ex declared_ex [unit_d] peers_ex [7] 0 0 [8] emit0
    (ok_or emit0 emit_ex) pc_ex_ok declared_ex_ok (NoDup_singleton _) (NoDup_singleton _)
    (NoDup_singleton _) ltac:(vm_compute; reflexivity) (ok_or_eq emit0 emit_ex ltac:(vm_compute; reflexivity))
    0%nat 0%nat unit_d 7 eq_refl eq_refl) as (copies & e & H1 & _ & He & _ & _ & H2).
  injection He as <-. exists copies. exact (conj H1 H2).
Defined.
