(* ===== verification/WireTypes.v ===== *)
(** * Wire messages of a transfer
    (src/tpu_sync/rpc/raiden_service.proto)

    The part of the control protocol the reshard path exchanges: a singular field
    is its value (the default when unset), an [optional] field an option, a repeated
    field a list, a map a finite map.  [push_schedules] is what the accessors of a
    request's schedules read, as the planner's [ScheduleEntry]. *)

From S2P Require Import Prelude RaidenTypes WorkUnitDirectory PoolReshardPlanner.

Record PoolGroupProto := mkPoolGroup {
  gp_pool_indices : list Z;
  gp_dst_device_block_ids : list Z;
  gp_expected_pushes : Z;
  gp_dst_expected_extent_bytes : list Z;
  gp_order_rank : Z;
}.

Record PoolHostAddrsProto := mkPoolHostAddrs {
  host_base_addrs : list Z;
  ha_block_stride_bytes : Z;
  ha_num_blocks : Z;
  host_slot_by_block : gmap Z Z;
}.
(** [ReceiverAddrsProto]: addresses by pool index. *)
Abbreviation ReceiverAddrsProto := (gmap Z PoolHostAddrsProto).

Inductive MemoryType := MEMORY_TYPE_UNSPECIFIED | MEMORY_TYPE_DRAM | MEMORY_TYPE_HBM.
#[export] Instance MemoryType_eq_dec : EqDecision MemoryType.
Proof. solve_decision. Defined.

Record ShardPushEntryProto := mkPushEntry {
  pe_dst_peer : string;
  pe_dst_shard_idx : Z;
  pe_dst_offset_bytes : Z;
  pe_src_offset_bytes : Z;
  pe_size_bytes : Z;
  pe_src_block_id : Z;
  pe_dst_block_id : Z;
  pe_src_stride_bytes : Z;
  pe_dst_stride_bytes : Z;
  pe_count : Z;
  pe_layer_idx : option Z;
  pe_pool_group : option Z;
  pe_dst_peers : list string;
  pe_outer_src_strides_bytes : list Z;
  pe_outer_dst_strides_bytes : list Z;
  pe_outer_counts : list Z;
}.

Inductive HostTilingMode :=
  | HOST_TILING_MODE_UNSPECIFIED
  | HOST_TILING_MODE_DEFERRED
  | HOST_TILING_MODE_ON_ARRIVAL
  | HOST_TILING_MODE_PRE_TILED.

Record BroadcastRoundDestinationsProto := mkBroadcastRound {
  br_round_idx : Z; br_dst_units : list string; br_dst_peers : list string }.

Record StartTransferRequest := mkStartTransfer {
  st_src_units : list RaidenIdProto;
  st_dst_units : list RaidenIdProto;
  shard_push_schedules : gmap Z (list ShardPushEntryProto);
  st_uuid : Z;
  st_is_sender : bool;
  st_dst_mem_type : MemoryType;
  st_use_block_chunks : bool;
  st_expected_block_count : Z;
  st_req_id : string;
  st_pool_dtype_tags : list string;
  st_transfer_pool_indices : list Z;
  st_parallelism : Z;
  st_skip_d2h : option bool;
  st_pool_groups : list PoolGroupProto;
  wire_pool_indices : gmap Z Z;
  receiver_addrs : gmap string ReceiverAddrsProto;
  st_sub_plan_index : Z;
  st_sub_plan_count : Z;
  st_skip_tiling : gmap Z bool;
  st_expected_layer_chunk_counts : gmap Z Z;
  st_broadcast_round : option Z;
  st_broadcast_round_destinations : list BroadcastRoundDestinationsProto;
  st_host_tiling_mode : HostTilingMode;
}.

(** An entry read through its accessors: an absent field reads as zero. *)
Definition entry_value (e : ShardPushEntryProto) : ScheduleEntry :=
  mkEntry (pe_dst_peer e) (pe_dst_shard_idx e) (pe_dst_offset_bytes e) (pe_src_offset_bytes e)
    (pe_size_bytes e) (pe_src_block_id e) (pe_dst_block_id e) (pe_src_stride_bytes e)
    (pe_dst_stride_bytes e) (pe_count e) (default 0 (pe_layer_idx e)) (default 0 (pe_pool_group e)).
Definition push_schedules (r : StartTransferRequest) : gmap Z (list ScheduleEntry) :=
  (λ entries : list ShardPushEntryProto, entry_value <$> entries) <$> shard_push_schedules r.
