(* ===== verification/TransferProgram.v ===== *)
(** * TransferProgram: pool-reshard requests as worker programs
    (src/tpu_sync/core/transfer_program_reshard.{h,cc},
     messages of src/tpu_sync/proto/transfer_program.proto)

    A sender reached through the local controller gets its StartTransferRequest
    compiled to a transfer program, which the worker validates and lowers back.  The
    theorems show that the two conversions are inverse on the requests and the
    programs of the pool-reshard class, and that the validator admits compiled
    requests. *)

From S2P Require Import Prelude RaidenTypes PoolLayout WorkUnitDirectory RequestBlockRegistry.
From S2P Require Import PoolReshardPlanner WireTypes.

(** ** Messages *)
Inductive TransferKind :=
  | TRANSFER_KIND_UNSPECIFIED
  | TRANSFER_KIND_PREFIX_BLOCKS
  | TRANSFER_KIND_POOL_RESHARD
  | TRANSFER_KIND_WEIGHT_SYNC.
#[export] Instance TransferKind_eq_dec : EqDecision TransferKind.
Proof. solve_decision. Defined.

Inductive TransferRole :=
  | TRANSFER_ROLE_UNSPECIFIED
  | TRANSFER_ROLE_SENDER
  | TRANSFER_ROLE_RECEIVER_ARM
  | TRANSFER_ROLE_LOCAL_COPY.
#[export] Instance TransferRole_eq_dec : EqDecision TransferRole.
Proof. solve_decision. Defined.

Record TransferEnvelope := mkEnvelope {
  ev_uuid : Z;
  ev_req_id : string;
  ev_kind : TransferKind;
  ev_role : TransferRole;
  ev_layout_fingerprint : string;
  ev_deadline_ms : Z;
  ev_sub_plan_index : Z;
  ev_sub_plan_count : Z;
}.

Inductive MemorySpace :=
  | SpacePoolIndex (i : Z)
  | SpaceBufferHandle (h : Z)
  | SpaceVariableIndex (i : Z).

(** [mr_space = None] is SPACE_NOT_SET. *)
Record MemoryRef := mkMemoryRef {
  mr_space : option MemorySpace; mr_mem_type : MemoryType; mr_block_id : Z }.

Record Extent := mkExtent {
  ex_src_offset_bytes : Z; ex_dst_offset_bytes : Z; ex_size_bytes : Z;
  ex_src_stride_bytes : Z; ex_dst_stride_bytes : Z; ex_count : Z }.

Record TransferStep := mkStep {
  sp_src : MemoryRef;
  sp_dst : MemoryRef;
  sp_extents : list Extent;
  sp_dst_peer : string;
  sp_dst_shard_idx : Z;
  sp_group : option Z;
  sp_source_rank : Z;
  sp_layer_idx : option Z;
}.

Record FanInGroup := mkFanInGroup {
  fg_pool_indices : list Z;
  fg_dst_device_block_ids : list Z;
  fg_expected_pushes : Z;
  fg_dst_expected_extent_bytes : list Z;
  fg_order_rank : Z;
}.
Record FanIn := mkFanIn { fi_groups : list FanInGroup; fi_expected_block_count : Z }.

Inductive CompletionMode :=
  | AwaitInline
  | FanInMode (f : FanIn)
  | Barrier (round_id expected_census : Z).

Record ExecutionPolicy := mkPolicy {
  ep_parallelism : Z;
  ep_skip_d2h : option bool;
  ep_skip_tiling : gmap Z bool;
  ep_dst_mem_type : MemoryType;
  ep_use_block_chunks : bool;
}.

Record ReshardBinding := mkBinding {
  rb_src_units : list RaidenIdProto;
  rb_dst_units : list RaidenIdProto;
  rb_transfer_pool_indices : list Z;
  rb_pool_dtype_tags : list string;
  rb_wire_pool_indices : gmap Z Z;
  rb_receiver_addrs : gmap string ReceiverAddrsProto;
}.

(** [tp_completion = None] is MODE_NOT_SET. *)
Record TransferProgram := mkProgram {
  pg_steps : list TransferStep;
  pg_completion : option CompletionMode;
  pg_policy : ExecutionPolicy;
  pg_reshard : ReshardBinding;
}.
Record TransferProgramRequest := mkProgramRequest {
  tpr_envelope : TransferEnvelope; tpr_program : TransferProgram }.

Inductive ReshardLoweringClass := kPoolReshardSender | kPoolReshardArm.

(** ** Functions *)
Definition HasPoolReshardFields (r : StartTransferRequest) : bool :=
  negb (bool_decide (st_transfer_pool_indices r = [])) || negb (bool_decide (length (st_pool_groups r) = 0%nat)).

Definition CheckInt32 (value : Z) : Status :=
  if (value <? - 2 ^ 31) || (2 ^ 31 - 1 <? value) then Err kInvalidArgument else OkStatus.

Definition step_valid (num_groups : nat) (s : TransferStep) : bool :=
  (length (sp_extents s) =? 1)%nat &&
  negb (has_value (mr_space (sp_src s)) || has_value (mr_space (sp_dst s))) &&
  negb match sp_group s with
       | Some g => (g <? 0) || (Z.of_nat num_groups <=? g)
       | None => false
       end.

Definition NormalizeReshardProgram (request : TransferProgramRequest) : StatusOr ReshardLoweringClass :=
  let program := tpr_program request in
  let envelope := tpr_envelope request in
  match pg_completion program with
  | Some AwaitInline | Some (Barrier _ _) => Err kUnimplemented
  | None => Err kInvalidArgument
  | Some (FanInMode fan_in) =>
      if negb (bool_decide (ev_kind envelope = TRANSFER_KIND_POOL_RESHARD)) &&
         negb (bool_decide (ev_kind envelope = TRANSFER_KIND_UNSPECIFIED)) then Err kInvalidArgument
      else if bool_decide (length (fi_groups fan_in) = 0%nat) then Err kInvalidArgument
      else if bool_decide (rb_transfer_pool_indices (pg_reshard program) = []) then Err kInvalidArgument
      else if bool_decide (length (pg_steps program) = 0%nat) then Err kInvalidArgument
      else if negb (forallb (step_valid (length (fi_groups fan_in))) (pg_steps program))
      then Err kInvalidArgument
      else match ev_role envelope with
           | TRANSFER_ROLE_SENDER => Ok kPoolReshardSender
           | TRANSFER_ROLE_RECEIVER_ARM => Ok kPoolReshardArm
           | TRANSFER_ROLE_LOCAL_COPY => Err kUnimplemented
           | TRANSFER_ROLE_UNSPECIFIED => Err kInvalidArgument
           end
  end.

Definition group_to_fan_in (g : PoolGroupProto) : FanInGroup :=
  mkFanInGroup (gp_pool_indices g) (gp_dst_device_block_ids g) (gp_expected_pushes g)
    (gp_dst_expected_extent_bytes g) (gp_order_rank g).
Definition group_of_fan_in (g : FanInGroup) : PoolGroupProto :=
  mkPoolGroup (fg_pool_indices g) (fg_dst_device_block_ids g) (fg_expected_pushes g)
    (fg_dst_expected_extent_bytes g) (fg_order_rank g).

Definition block_ref (block_id : Z) : MemoryRef := mkMemoryRef None MEMORY_TYPE_UNSPECIFIED block_id.
Definition entry_to_step (rank : Z) (e : ShardPushEntryProto) : TransferStep :=
  mkStep (block_ref (pe_src_block_id e)) (block_ref (pe_dst_block_id e))
    [mkExtent (pe_src_offset_bytes e) (pe_dst_offset_bytes e) (pe_size_bytes e) (pe_src_stride_bytes e)
       (pe_dst_stride_bytes e) (pe_count e)]
    (pe_dst_peer e) (pe_dst_shard_idx e) (pe_pool_group e) rank (pe_layer_idx e).

(** The steps, rank by rank in ascending order. *)
Definition schedule_ranks (schedules : gmap Z (list ShardPushEntryProto)) : list Z :=
  merge_sort Z.le (map_to_list schedules).*1.
Definition schedule_steps (schedules : gmap Z (list ShardPushEntryProto)) : list TransferStep :=
  schedule_ranks schedules ≫= λ rank, entry_to_step rank <$> schedules !!! rank.

Definition CompileStartTransfer (r : StartTransferRequest) : StatusOr TransferProgramRequest :=
  if negb (HasPoolReshardFields r) then Err kInvalidArgument
  else
    Ok (mkProgramRequest
      (mkEnvelope (u64 (st_uuid r)) (st_req_id r) TRANSFER_KIND_POOL_RESHARD
         (if st_is_sender r then TRANSFER_ROLE_SENDER else TRANSFER_ROLE_RECEIVER_ARM) EmptyString 0
         (st_sub_plan_index r) (st_sub_plan_count r))
      (mkProgram (schedule_steps (shard_push_schedules r))
         (Some (FanInMode (mkFanIn (group_to_fan_in <$> st_pool_groups r) (st_expected_block_count r))))
         (mkPolicy (st_parallelism r) (st_skip_d2h r) (st_skip_tiling r) (st_dst_mem_type r)
            (st_use_block_chunks r))
         (mkBinding (st_src_units r) (st_dst_units r) (st_transfer_pool_indices r) (st_pool_dtype_tags r)
            (wire_pool_indices r) (receiver_addrs r)))).

(** The steps back into schedules, in step order. *)
Definition lower_step (s : TransferStep) : StatusOr (Z * ShardPushEntryProto) :=
  match sp_extents s with
  | [extent] =>
      _ ← CheckInt32 (mr_block_id (sp_src s));
      _ ← CheckInt32 (mr_block_id (sp_dst s));
      Ok (sp_source_rank s,
          mkPushEntry (sp_dst_peer s) (sp_dst_shard_idx s) (ex_dst_offset_bytes extent)
            (ex_src_offset_bytes extent) (ex_size_bytes extent) (i32 (mr_block_id (sp_src s)))
            (i32 (mr_block_id (sp_dst s))) (ex_src_stride_bytes extent) (ex_dst_stride_bytes extent)
            (ex_count extent) (sp_layer_idx s) (sp_group s) [] [] [] [])
  | _ => Err kInvalidArgument
  end.
Definition add_entry (schedules : gmap Z (list ShardPushEntryProto)) (re : Z * ShardPushEntryProto)
    : gmap Z (list ShardPushEntryProto) :=
  <[re.1 := default [] (schedules !! re.1) ++ [re.2]]> schedules.
Fixpoint lower_steps (steps : list TransferStep) (schedules : gmap Z (list ShardPushEntryProto))
    : StatusOr (gmap Z (list ShardPushEntryProto)) :=
  match steps with
  | [] => Ok schedules
  | s :: steps => re ← lower_step s; lower_steps steps (add_entry schedules re)
  end.

Definition LowerToStartTransfer (request : TransferProgramRequest) : StatusOr StartTransferRequest :=
  let program := tpr_program request in
  let envelope := tpr_envelope request in
  match pg_completion program with
  | Some (FanInMode fan_in) =>
      schedules ← lower_steps (pg_steps program) ∅;
      Ok {| st_src_units := rb_src_units (pg_reshard program);
            st_dst_units := rb_dst_units (pg_reshard program);
            shard_push_schedules := schedules;
            st_uuid := i64 (ev_uuid envelope);
            st_is_sender := bool_decide (ev_role envelope = TRANSFER_ROLE_SENDER);
            st_dst_mem_type := ep_dst_mem_type (pg_policy program);
            st_use_block_chunks := ep_use_block_chunks (pg_policy program);
            st_expected_block_count := fi_expected_block_count fan_in;
            st_req_id := ev_req_id envelope;
            st_pool_dtype_tags := rb_pool_dtype_tags (pg_reshard program);
            st_transfer_pool_indices := rb_transfer_pool_indices (pg_reshard program);
            st_parallelism := ep_parallelism (pg_policy program);
            st_skip_d2h := ep_skip_d2h (pg_policy program);
            st_pool_groups := group_of_fan_in <$> fi_groups fan_in;
            wire_pool_indices := rb_wire_pool_indices (pg_reshard program);
            receiver_addrs := rb_receiver_addrs (pg_reshard program);
            st_sub_plan_index := ev_sub_plan_index envelope;
            st_sub_plan_count := ev_sub_plan_count envelope;
            st_skip_tiling := ep_skip_tiling (pg_policy program);
            st_expected_layer_chunk_counts := ∅; st_broadcast_round := None;
            st_broadcast_round_destinations := [];
            st_host_tiling_mode := HOST_TILING_MODE_UNSPECIFIED |}
  | _ => Err kInvalidArgument
  end.

Definition DeriveSenderSourceBlockIds (r : StartTransferRequest) : list Z :=
  let src_id_set : gset Z :=
    list_to_set ((map_to_list (shard_push_schedules r)).*2 ≫= λ entries, pe_src_block_id <$> entries) in
  merge_sort Z.le (elements src_id_set).

Definition DeriveArmChipBlockIds (r : StartTransferRequest) : list Z :=
  st_pool_groups r ≫= gp_dst_device_block_ids.

(** ** The two classes that correspond *)

(** An entry of the pool-reshard class: int32 block ids, no broadcast fields. *)
Definition int32_range (z : Z) : Prop := - 2 ^ 31 <= z <= 2 ^ 31 - 1.
Definition pool_entry (e : ShardPushEntryProto) : Prop :=
  int32_range (pe_src_block_id e) ∧ int32_range (pe_dst_block_id e) ∧ pe_dst_peers e = [] ∧
  pe_outer_src_strides_bytes e = [] ∧ pe_outer_dst_strides_bytes e = [] ∧ pe_outer_counts e = [].

(** A request of the pool-reshard class: it names pools, every schedule has entries,
    and the fields of dense and weight-sync transfers are unset. *)
Record pool_request (r : StartTransferRequest) : Prop := {
  pq_fields : HasPoolReshardFields r = true;
  pq_uuid : - 2 ^ 63 <= st_uuid r < 2 ^ 63;
  pq_schedules : map_Forall (λ _ entries, entries ≠ [] ∧ Forall pool_entry entries) (shard_push_schedules r);
  pq_chunks : st_expected_layer_chunk_counts r = ∅;
  pq_round : st_broadcast_round r = None;
  pq_destinations : st_broadcast_round_destinations r = [];
  pq_tiling : st_host_tiling_mode r = HOST_TILING_MODE_UNSPECIFIED;
}.

(** A canonical program: what the compiler emits. *)
Definition canonical_step (s : TransferStep) : Prop :=
  (∃ extent, sp_extents s = [extent]) ∧
  sp_src s = block_ref (mr_block_id (sp_src s)) ∧ sp_dst s = block_ref (mr_block_id (sp_dst s)) ∧
  int32_range (mr_block_id (sp_src s)) ∧ int32_range (mr_block_id (sp_dst s)).
Record canonical_program (p : TransferProgramRequest) : Prop := {
  cp_uuid : 0 <= ev_uuid (tpr_envelope p) < 2 ^ 64;
  cp_kind : ev_kind (tpr_envelope p) = TRANSFER_KIND_POOL_RESHARD;
  cp_role : ev_role (tpr_envelope p) = TRANSFER_ROLE_SENDER ∨
            ev_role (tpr_envelope p) = TRANSFER_ROLE_RECEIVER_ARM;
  cp_reserved : ev_layout_fingerprint (tpr_envelope p) = EmptyString ∧ ev_deadline_ms (tpr_envelope p) = 0;
  cp_fan_in : ∃ f, pg_completion (tpr_program p) = Some (FanInMode f) ∧
    (rb_transfer_pool_indices (pg_reshard (tpr_program p)) ≠ [] ∨ fi_groups f ≠ []);
  cp_steps : Forall canonical_step (pg_steps (tpr_program p));
  cp_order : StronglySorted Z.le (sp_source_rank <$> pg_steps (tpr_program p));
}.

(** ** Schedules and their entries by rank *)
Definition at_rank (k : Z) (l : list (Z * ShardPushEntryProto)) : list ShardPushEntryProto :=
  (filter (λ re, re.1 = k) l).*2.
Definition ranked (schedules : gmap Z (list ShardPushEntryProto)) (ranks : list Z)
    : list (Z * ShardPushEntryProto) :=
  ranks ≫= λ rank, pair rank <$> schedules !!! rank.

Lemma add_entries_lookup l m k :
  foldl add_entry m l !! k =
  if bool_decide (at_rank k l = []) then m !! k else Some (default [] (m !! k) ++ at_rank k l).
Proof.
  revert m; induction l as [|[r e] l IH]; intros m; cbn [foldl]; [done|].
  rewrite IH. unfold add_entry, at_rank. fold (at_rank k l). cbn [fst snd]. destruct (decide (r = k)) as [->|Hne].
  - rewrite lookup_insert_eq, filter_cons_True by done. cbn [default]. rewrite fmap_cons.
    fold (at_rank k l). rewrite (bool_decide_false (_ :: _ = [])) by done. case_bool_decide as E.
    + by rewrite E.
    + cbn. by rewrite <- app_assoc.
  - by rewrite lookup_insert_ne, filter_cons_False by done.
Qed.

Lemma at_rank_ranked schedules ranks k :
  NoDup ranks → at_rank k (ranked schedules ranks) = if bool_decide (k ∈ ranks) then schedules !!! k else [].
Proof.
  unfold ranked, at_rank. induction 1 as [|r ranks Hr Hnd IH]; [done|]. cbn [mbind list_bind].
  rewrite filter_app, fmap_app, IH.
  assert ((filter (λ re, re.1 = k) (pair r <$> schedules !!! r)).*2 = if decide (r = k) then schedules !!! k else []) as ->.
  { clear. destruct (decide (r = k)) as [->|Hne]; induction (schedules !!! _) as [|e l IH]; cbn [fmap list_fmap]; try done.
    - rewrite filter_cons_True by done. by rewrite fmap_cons, IH.
    - by rewrite filter_cons_False. }
  destruct (decide (r = k)) as [->|Hne].
  - rewrite (bool_decide_true (k ∈ k :: ranks)), (bool_decide_false (k ∈ ranks)), app_nil_r by (done || by left). done.
  - rewrite (bool_decide_ext (k ∈ r :: ranks) (k ∈ ranks)); [done|].
    rewrite elem_of_cons. naive_solver.
Qed.

Lemma schedule_ranks_spec schedules :
  NoDup (schedule_ranks schedules) ∧ StronglySorted Z.le (schedule_ranks schedules) ∧
  ∀ k, k ∈ schedule_ranks schedules ↔ is_Some (schedules !! k).
Proof.
  unfold schedule_ranks. split; [|split].
  - rewrite merge_sort_Permutation. apply NoDup_fst_map_to_list.
  - apply (StronglySorted_merge_sort Z.le).
  - intros k. rewrite merge_sort_Permutation, list_elem_of_fmap. split.
    + intros ([k' v] & -> & H%elem_of_map_to_list). by eexists.
    + intros [v Hv]. exists (k, v). by rewrite elem_of_map_to_list.
Qed.

(** Non-empty schedules are what their entries, listed by rank, build. *)
Lemma add_ranked schedules :
  map_Forall (λ _ entries, entries ≠ []) schedules →
  foldl add_entry ∅ (ranked schedules (schedule_ranks schedules)) = schedules.
Proof.
  intros Hne. destruct (schedule_ranks_spec schedules) as (Hnd & _ & Hin). apply map_eq. intros k.
  rewrite add_entries_lookup, at_rank_ranked, lookup_empty by done. cbn [default app].
  rewrite lookup_total_alt. destruct (schedules !! k) as [entries|] eqn:Ek; cbn [default].
  - rewrite (bool_decide_true (k ∈ _)) by (apply Hin; by eexists). rewrite bool_decide_false; [done|].
    by apply (Hne k entries Ek).
  - rewrite (bool_decide_false (k ∈ _)); [done|]. rewrite Hin, Ek. by intros [].
Qed.

Lemma filter_all {A} (P : A → Prop) `{∀ x, Decision (P x)} (l : list A) : Forall P l → filter P l = l.
Proof. induction 1 as [|x l Hx _ IH]; [done|]. by rewrite filter_cons_True, IH. Qed.
Lemma filter_none {A} (P : A → Prop) `{∀ x, Decision (P x)} (l : list A) : Forall (λ x, ¬ P x) l → filter P l = [].
Proof. induction 1 as [|x l Hx _ IH]; [done|]. by rewrite filter_cons_False. Qed.

(** Entries listed by ascending rank are what their schedules list. *)
Lemma sorted_split (l : list (Z * ShardPushEntryProto)) r :
  StronglySorted Z.le l.*1 → Forall (λ re, r <= re.1) l →
  l = filter (λ re, re.1 = r) l ++ filter (λ re, re.1 ≠ r) l.
Proof.
  induction l as [|[k e] l IH]; [done|]. cbn [fmap list_fmap fst]. intros Hs Hr.
  apply StronglySorted_inv in Hs as [Hs Hk]. apply Forall_cons in Hr as [Hrk Hr]. cbn in Hrk.
  destruct (decide (k = r)) as [->|Hne].
  - rewrite filter_cons_True, filter_cons_False by (cbn; auto). cbn. f_equal. by apply IH.
  - assert (Forall (λ re, re.1 ≠ r) l) as Hall.
    { rewrite Forall_fmap in Hk. eapply Forall_impl; [exact Hk|]. unfold compose. cbn. lia. }
    rewrite filter_cons_False, filter_cons_True by done.
    rewrite (filter_all (λ re, re.1 ≠ r) l) by done. by rewrite (filter_none (λ re, re.1 = r) l).
Qed.

Lemma StronglySorted_sublist {A} (R : A → A → Prop) (l k : list A) :
  StronglySorted R k → sublist l k → StronglySorted R l.
Proof.
  intros Hs Hl. induction Hl as [|x l k Hl IH|x l k Hl IH]; [done| |];
    apply StronglySorted_inv in Hs as [Hs Hx]; [|by apply IH].
  constructor; [by apply IH|]. rewrite Forall_forall in Hx |- *. intros y Hy.
  by eapply Hx, elem_of_sublist.
Qed.

Lemma ranks_partition (ranks : list Z) (l : list (Z * ShardPushEntryProto)) :
  StronglySorted Z.le ranks → NoDup ranks → StronglySorted Z.le l.*1 → Forall (λ re, re.1 ∈ ranks) l →
  (ranks ≫= λ r, filter (λ re, re.1 = r) l) = l.
Proof.
  intros Hs. revert l; induction Hs as [|r ranks Hs IH Hr]; intros l Hnd Hl Hin.
  { destruct l as [|re l]; [done|]. apply Forall_cons in Hin as [Hin _]. set_solver. }
  apply NoDup_cons in Hnd as [Hnot Hnd]. cbn [mbind list_bind].
  assert (Forall (λ re, r <= re.1) l) as Hge.
  { rewrite Forall_forall in Hr. rewrite Forall_forall in Hin. apply Forall_forall. intros re Hre.
    apply Hin, elem_of_cons in Hre as [->|Hre']; [lia|]. by apply Hr. }
  etransitivity; [|symmetry; exact (sorted_split l r Hl Hge)]. f_equal.
  rewrite <- (IH (filter (λ re, re.1 ≠ r) l)); [|done| |].
  - apply Forall_bind_ext, Forall_forall. intros r' Hr'. rewrite list_filter_filter_l; [done|].
    intros re -> ->. done.
  - eapply (StronglySorted_sublist Z.le); [exact Hl|]. apply (fmap_sublist fst), sublist_filter.
  - apply Forall_forall. intros re [Hne Hre]%list_elem_of_filter. rewrite Forall_forall in Hin.
    by apply Hin, elem_of_cons in Hre as [?|?].
Qed.

Lemma pair_at_rank r (l : list (Z * ShardPushEntryProto)) :
  pair r <$> at_rank r l = filter (λ re, re.1 = r) l.
Proof.
  unfold at_rank. induction l as [|[k e] l IH]; [done|].
  destruct (decide (k = r)) as [->|Hne]; [|by rewrite filter_cons_False].
  rewrite filter_cons_True by done. rewrite !fmap_cons. by f_equal.
Qed.

Lemma ranked_add (l : list (Z * ShardPushEntryProto)) :
  StronglySorted Z.le l.*1 →
  ranked (foldl add_entry ∅ l) (schedule_ranks (foldl add_entry ∅ l)) = l.
Proof.
  intros Hs. set (m := foldl add_entry ∅ l). destruct (schedule_ranks_spec m) as (Hnd & Hsr & Hin).
  assert (∀ k, m !! k = if bool_decide (at_rank k l = []) then None else Some (at_rank k l)) as Hm.
  { intros k. unfold m. by rewrite add_entries_lookup, lookup_empty. }
  assert (∀ re, re ∈ l → at_rank re.1 l ≠ []) as Hne.
  { intros re Hre E. apply (not_elem_of_nil re.2). rewrite <- E. unfold at_rank. apply list_elem_of_fmap.
    exists re. split; [done|]. by apply list_elem_of_filter. }
  etransitivity; [|apply (ranks_partition (schedule_ranks m) l); try done].
  - unfold ranked. apply Forall_bind_ext, Forall_forall. intros r _. rewrite lookup_total_alt, Hm. unfold at_rank.
    destruct (filter (λ re, re.1 = r) l) as [|re rest] eqn:Ef; [done|]. rewrite bool_decide_false by done.
    rewrite <- Ef. apply (pair_at_rank r l).
  - apply Forall_forall. intros re Hre. apply Hin. rewrite Hm, bool_decide_false by auto. by eexists.
Qed.

(** ** Steps and entries *)
Lemma CheckInt32_ok z : int32_range z → CheckInt32 z = OkStatus.
Proof.
  unfold int32_range, CheckInt32. intros [H1 H2].
  by rewrite (proj2 (Z.ltb_ge z _)), (proj2 (Z.ltb_ge _ z)) by lia.
Qed.

Lemma lower_entry rank e : pool_entry e → lower_step (entry_to_step rank e) = Ok (rank, e).
Proof.
  intros (Hs & Hd & H1 & H2 & H3 & H4). unfold lower_step. cbn [entry_to_step sp_extents sp_src sp_dst block_ref mr_block_id].
  rewrite !CheckInt32_ok by done. cbn. rewrite !i32_small by (unfold int32_range in *; lia).
  destruct e; cbn in *. by subst.
Qed.

Lemma lower_canonical s :
  canonical_step s → ∃ e, lower_step s = Ok (sp_source_rank s, e) ∧ entry_to_step (sp_source_rank s) e = s.
Proof.
  intros ([extent He] & Hs & Hd & Hrs & Hrd). unfold lower_step. rewrite He, !CheckInt32_ok by done. cbn.
  eexists. split; [done|]. unfold entry_to_step. cbn.
  rewrite !i32_small, <- Hs, <- Hd by (unfold int32_range in *; lia). destruct extent, s; cbn in *. by subst.
Qed.

Lemma lower_steps_all steps l m :
  Forall2 (λ s re, lower_step s = Ok re) steps l → lower_steps steps m = Ok (foldl add_entry m l).
Proof.
  intros H. revert m; induction H as [|s re steps l Hs _ IH]; intros m; cbn [lower_steps foldl]; [done|].
  rewrite Hs. apply IH.
Qed.

Lemma schedule_steps_ranked schedules :
  schedule_steps schedules = (λ re, entry_to_step re.1 re.2) <$> ranked schedules (schedule_ranks schedules).
Proof.
  unfold schedule_steps, ranked. induction (schedule_ranks schedules) as [|r ranks IH]; [done|].
  cbn [mbind list_bind]. rewrite fmap_app. f_equal; [|exact IH]. by rewrite <- list_fmap_compose.
Qed.

Lemma i64_u64 z : - 2 ^ 63 <= z < 2 ^ 63 → i64 (u64 z) = z.
Proof.
  intros H. unfold i64, u64. rewrite Zplus_mod_idemp_l. rewrite Z.mod_small by lia. lia.
Qed.
Lemma u64_i64 z : 0 <= z < 2 ^ 64 → u64 (i64 z) = z.
Proof.
  intros H. unfold i64, u64. rewrite Zminus_mod_idemp_l. rewrite Z.mod_small by lia. lia.
Qed.

Lemma Lower_Compile_ok r :
  pool_request r → ∃ p, CompileStartTransfer r = Ok p ∧ LowerToStartTransfer p = Ok r.
Proof.
  intros [Hf Hu Hs H1 H2 H3 H4]. unfold CompileStartTransfer. rewrite Hf. cbn [negb].
  eexists. split; [reflexivity|]. unfold LowerToStartTransfer. cbn.
  rewrite schedule_steps_ranked.
  rewrite (lower_steps_all _ (ranked (shard_push_schedules r) (schedule_ranks (shard_push_schedules r)))).
  - cbn. rewrite add_ranked by (intros k es Hk; apply (Hs k es Hk)).
    rewrite i64_u64 by done. rewrite <- list_fmap_compose.
    rewrite (list_fmap_ext (group_of_fan_in ∘ group_to_fan_in) id) by (intros _ [] _; reflexivity).
    rewrite list_fmap_id. destruct r; cbn in *. subst.
    f_equal. f_equal. by destruct st_is_sender.
  - apply Forall2_fmap_l, Forall_Forall2_diag, Forall_forall. intros [k e] Hin. cbn. apply lower_entry.
    unfold ranked in Hin. apply list_elem_of_bind in Hin as (r' & Hin & Hr').
    apply list_elem_of_fmap in Hin as (e' & [= -> ->] & He).
    destruct (schedule_ranks_spec (shard_push_schedules r)) as (_ & _ & Hranks).
    apply Hranks in Hr' as [es Hes]. rewrite (lookup_total_correct _ _ _ Hes) in He.
    destruct (Hs _ _ Hes) as [_ Hall]. rewrite Forall_forall in Hall. by apply Hall.
Qed.

Lemma Compile_Lower_ok p :
  canonical_program p → ∃ r, LowerToStartTransfer p = Ok r ∧ CompileStartTransfer r = Ok p.
Proof.
  intros [Hu Hk Hrole [Hf0 Hd0] (f & Hf & Hne) Hsteps Horder].
  assert (∃ l, Forall2 (λ s re, lower_step s = Ok re) (pg_steps (tpr_program p)) l ∧
    (λ re, entry_to_step re.1 re.2) <$> l = pg_steps (tpr_program p) ∧
    l.*1 = sp_source_rank <$> pg_steps (tpr_program p)) as (l & Hl & Hback & Hfst).
  { clear -Hsteps. induction Hsteps as [|s steps Hs _ (l & IH1 & IH2 & IH3)]; [exists []; by split; [constructor|]|].
    destruct (lower_canonical s Hs) as (e & He & Hes). exists ((sp_source_rank s, e) :: l). cbn.
    split; [by constructor|]. rewrite Hes, IH2, IH3. done. }
  unfold LowerToStartTransfer. rewrite Hf, (lower_steps_all _ l _ Hl). cbn.
  eexists. split; [reflexivity|]. unfold CompileStartTransfer, HasPoolReshardFields. cbn.
  assert (negb (bool_decide (rb_transfer_pool_indices (pg_reshard (tpr_program p)) = []))
    || negb (bool_decide (length (group_of_fan_in <$> fi_groups f) = 0%nat)) = true) as ->.
  { rewrite length_fmap. destruct Hne as [Hne|Hne].
    - by rewrite bool_decide_false.
    - rewrite (bool_decide_false (length _ = _)), orb_true_r; [done|]. by destruct (fi_groups f). }
  cbn. rewrite schedule_steps_ranked, (ranked_add l) by (by rewrite Hfst). rewrite Hback, u64_i64 by done.
  rewrite <- list_fmap_compose.
  rewrite (list_fmap_ext (group_to_fan_in ∘ group_of_fan_in) id) by (intros _ [] _; reflexivity).
  rewrite list_fmap_id. destruct p as [[] [? ? [] []]], f; cbn in *. subst.
  by destruct Hrole as [-> | ->].
Qed.

(** Compiling and lowering are inverse.  Every request of the pool-reshard class
    compiles, and lowering its program gives back the request, field for field:
    schedules by rank with their entries in order, optional fields with their
    presence, the uuid through its unsigned cast.  Every canonical program, with its
    steps in ascending rank order, lowers to a request that compiles to it. *)
Theorem compile_lower_inverse r p :
  pool_request r → canonical_program p →
  (∃ p', CompileStartTransfer r = Ok p' ∧ LowerToStartTransfer p' = Ok r) ∧
  (∃ r', LowerToStartTransfer p = Ok r' ∧ CompileStartTransfer r' = Ok p).
Proof. intros Hr Hp. split; [by apply Lower_Compile_ok|by apply Compile_Lower_ok]. Qed.

(** The validator admits compiled requests.  The program of a request that names
    pools and groups, has an entry, and whose entries name existing groups, is
    admitted, as a sender or as a receiver arm by the request's side. *)
Theorem Normalize_admits_compiled r p :
  CompileStartTransfer r = Ok p →
  st_transfer_pool_indices r ≠ [] → st_pool_groups r ≠ [] →
  map_Exists (λ _ entries, entries ≠ []) (shard_push_schedules r) →
  map_Forall (λ _ entries, Forall (λ e, ∀ g, pe_pool_group e = Some g →
    0 <= g < Z.of_nat (length (st_pool_groups r))) entries) (shard_push_schedules r) →
  NormalizeReshardProgram p = Ok (if st_is_sender r then kPoolReshardSender else kPoolReshardArm).
Proof.
  unfold CompileStartTransfer. case_match; [done|]. intros [= <-] Hpools Hgroups (k & es & Hk & Hes) Hall.
  unfold NormalizeReshardProgram. cbn. rewrite length_fmap.
  rewrite (bool_decide_false (length (st_pool_groups r) = 0%nat)) by (by destruct (st_pool_groups r)).
  rewrite (bool_decide_false (_ = [])) by done.
  destruct (schedule_ranks_spec (shard_push_schedules r)) as (_ & _ & Hranks).
  rewrite (bool_decide_false (length (schedule_steps _) = 0%nat)).
  2: { intros Hnil%nil_length_inv. destruct es as [|e es]; [done|].
       apply (not_elem_of_nil (entry_to_step k e)). rewrite <- Hnil. apply list_elem_of_bind. exists k.
       rewrite (lookup_total_correct _ _ _ Hk). split; [left|]. apply Hranks. by eexists. }
  assert (forallb (step_valid (length (st_pool_groups r))) (schedule_steps (shard_push_schedules r)) = true) as ->.
  { apply Is_true_eq_true, forallb_True, Forall_forall. intros s Hs.
    apply list_elem_of_bind in Hs as (rank & Hs & [entries He]%Hranks).
    rewrite (lookup_total_correct _ _ _ He) in Hs. apply list_elem_of_fmap in Hs as (e & -> & Hin).
    pose proof (proj1 (Forall_forall _ _) (Hall rank entries He) e Hin) as Hg. unfold step_valid. cbn.
    destruct (pe_pool_group e) as [g|] eqn:Eg; [|done]. specialize (Hg g Eg).
    by rewrite (proj2 (Z.ltb_ge g 0)), (proj2 (Z.leb_gt _ g)) by lia. }
  cbn. by destruct (st_is_sender r).
Qed.

(** The derived block lists.  The sender's local list is the sorted, duplicate-free
    set of the source blocks its entries name; the receiver's is the groups'
    destination ids, concatenated. *)
Theorem derived_block_ids r :
  StronglySorted Z.le (DeriveSenderSourceBlockIds r) ∧ NoDup (DeriveSenderSourceBlockIds r) ∧
  (∀ b, b ∈ DeriveSenderSourceBlockIds r ↔
     ∃ rank entries e, shard_push_schedules r !! rank = Some entries ∧ e ∈ entries ∧ pe_src_block_id e = b) ∧
  DeriveArmChipBlockIds r = concat (gp_dst_device_block_ids <$> st_pool_groups r).
Proof.
  unfold DeriveSenderSourceBlockIds, DeriveArmChipBlockIds. split; [apply (StronglySorted_merge_sort Z.le)|].
  split; [rewrite merge_sort_Permutation; apply NoDup_elements|]. split.
  - intros b. rewrite merge_sort_Permutation, elem_of_elements, elem_of_list_to_set, list_elem_of_bind.
    setoid_rewrite list_elem_of_fmap. split.
    + intros (entries & (e & -> & He) & ([rank es] & -> & Hin%elem_of_map_to_list)). by exists rank, es, e.
    + intros (rank & entries & e & Hin%elem_of_map_to_list & He & <-). exists entries. split; [by exists e|].
      by exists (rank, entries).
  - induction (st_pool_groups r) as [|g gs IH]; [done|]. cbn. by f_equal.
Qed.

(** ** A sender's request: two ranks' entries for one group *)
Definition push_entry_ex (src dst : Z) : ShardPushEntryProto :=
  mkPushEntry "d:1" 0 0 0 8 src dst 0 0 1 None (Some 0) [] [] [] [].
Definition pool_request_ex : StartTransferRequest :=
  mkStartTransfer [] [] {[ 1 := [push_entry_ex 4 6]; 0 := [push_entry_ex 2 7; push_entry_ex 3 7] ]} (-5) true
    MEMORY_TYPE_HBM true 1 "r" [] [0] 1 (Some false) [mkPoolGroup [0] [7; 6] 2 [8; 8] 0] ∅ ∅ 0 0 ∅ ∅ None []
    HOST_TILING_MODE_UNSPECIFIED.
Definition program_ex : TransferProgramRequest :=
  mkProgramRequest (mkEnvelope (2 ^ 64 - 5) "r" TRANSFER_KIND_POOL_RESHARD TRANSFER_ROLE_SENDER "" 0 0 0)
    (mkProgram (entry_to_step 0 <$> [push_entry_ex 2 7; push_entry_ex 3 7] ++ [push_entry_ex 4 6])
       (Some (FanInMode (mkFanIn [mkFanInGroup [0] [7; 6] 2 [8; 8] 0] 1)))
       (mkPolicy 1 (Some false) ∅ MEMORY_TYPE_HBM true) (mkBinding [] [] [0] [] ∅ ∅)).

Lemma pool_request_ex_ok : pool_request pool_request_ex.
Proof.
  split; try done. intros k es. cbn. rewrite lookup_insert_Some, lookup_singleton_Some.
  intros [[_ <-]|[_ [_ <-]]]; (split; [done|]);
    repeat (apply Forall_cons_2; [unfold pool_entry, int32_range; cbn; repeat (split; [lia|]); done|]); constructor.
Qed.
Lemma program_ex_ok : canonical_program program_ex.
Proof.
  split; cbn; try done; [by left|eexists; split; [done|by left]| |repeat constructor; cbn; lia].
  repeat (apply Forall_cons_2; [split; [by eexists|]; do 2 (split; [done|]); unfold int32_range; cbn; lia|]).
  constructor.
Qed.

Lemma compile_lower_inverse_witness :
  (∃ p, CompileStartTransfer pool_request_ex = Ok p ∧ LowerToStartTransfer p = Ok pool_request_ex) ∧
  ∃ r, LowerToStartTransfer program_ex = Ok r ∧ CompileStartTransfer r = Ok program_ex.
Proof. exact (compile_lower_inverse pool_request_ex program_ex pool_request_ex_ok program_ex_ok). Defined.

Lemma Normalize_admits_compiled_witness :
  ∃ p, CompileStartTransfer pool_request_ex = Ok p ∧ NormalizeReshardProgram p = Ok kPoolReshardSender.
Proof.
  eexists. split; [reflexivity|]. apply (Normalize_admits_compiled pool_request_ex); [reflexivity|done|done| |].
  - exists 1, [push_entry_ex 4 6]. split; [reflexivity|done].
  - intros k es. cbn. rewrite lookup_insert_Some, lookup_singleton_Some.
    intros [[_ <-]|[_ [_ <-]]]; repeat (apply Forall_cons_2; [intros g [= <-]; cbn; lia|]); apply Forall_nil_2.
Defined.
