(* ===== verification/BuildReshardPlan.v ===== *)
(** * BuildPoolReshardPlan: the planner's entry point
    (src/tpu_sync/kv_cache/reshard/pool_reshard_planner.{h,cc}, BuildPoolReshardPlan)

    The request-level half of the planner, stage by stage in the code's order:
    request and metadata checks, pairing of source and destination pools by tag,
    per-tag geometry prechecks, the registry claim, per-tag planning (split,
    coverage, emission, push counts) and assembly of the plan.  The registry is
    threaded through; a failure after the claim does not roll it back.  Error
    texts are not modelled, so a loop that only chooses which error to report is
    a test over its elements. *)

From stdpp Require Import pretty.
From S2P Require Import Prelude RaidenTypes PoolLayout WorkUnitDirectory.
From S2P Require Import RequestBlockRegistry PoolReshardPlanner WireTypes.

(** ** Data *)
Record PlanRequest := mkPlanRequest {
  pr_src_units : list RaidenId;
  pr_dst_units : list RaidenId;
  pr_src_metadata : list RegisterWorkUnitRequest;
  pr_dst_metadata : list RegisterWorkUnitRequest;
  pr_req_id : string;
  pr_uuid : Z;
  pr_dst_device_block_ids : list Z;
  pr_num_tokens : Z;
  pr_transfer_pool_tags : list string;
  pr_parallelism : option Z;
  pr_dst_block_counts : list Z;
  pr_dst_skip_bytes : list Z;
  pr_dst_window_offset_blocks : list Z;
  pr_dst_window_total_blocks : list Z;
  pr_plan_uuid : Z;
}.

Record PlanPoolGroup := mkGroup {
  pg_pool_indices : list Z;
  pg_dst_device_block_ids : list Z;
  pg_expected_pushes_by_dst : gmap RaidenId Z;
  pg_dst_expected_extent_bytes : list Z;
  pg_order_rank : Z;
}.

Record PoolReshardPlan := mkPlan {
  plan_src_units : list RaidenId;
  plan_dst_units : list RaidenId;
  plan_schedules : SchedulesByUnit;
  plan_worker_rpc_addresses : gmap RaidenId string;
  plan_dst_peers : PeersByUnit;
  plan_uuid : Z;
  plan_req_id : string;
  plan_expected_block_count : Z;
  plan_expected_pushes_per_pool : Z;
  plan_transfer_pool_indices : list Z;
  plan_pool_dtype_tags : list string;
  plan_src_pool_indices : gmap RaidenId (gmap Z Z);
  plan_src_pool_dtype_tags : gmap RaidenId (list string);
  plan_dst_device_block_ids : list Z;
  plan_src_schedule_keys : gmap RaidenId Z;
  plan_parallelism : Z;
  plan_num_tokens : Z;
  plan_skipped_pool_counts : gmap string Z;
  plan_dst_expected_extent_bytes : list Z;
  plan_pool_groups : list PlanPoolGroup;
  plan_skip_d2h : bool;
  plan_receiver_addrs : gmap RaidenId ReceiverAddrsProto;
  plan_sub_plan_index : Z;
  plan_sub_plan_count : Z;
}.

(** ** Request checks *)
Definition guard_arg (ok : bool) : Status := if ok then OkStatus else Err kInvalidArgument.

Definition no_duplicates {A} `{Countable A} (l : list A) : bool :=
  Z.of_nat (size (list_to_set l : gset A)) =? Z.of_nat (length l).

Definition check_request (r : PlanRequest) : Status :=
  _ ← guard_arg (negb (bool_decide (pr_req_id r = EmptyString)));
  _ ← guard_arg (negb (pr_uuid r <=? 0));
  _ ← guard_arg (negb (bool_decide (pr_dst_units r = [])));
  _ ← guard_arg (no_duplicates (pr_src_units r));
  _ ← guard_arg (no_duplicates (pr_dst_units r));
  _ ← guard_arg (negb (bool_decide (pr_dst_device_block_ids r = [])));
  guard_arg (negb (existsb (λ b, b <? 0) (pr_dst_device_block_ids r))).

Definition check_unit_metadata (meta : RegisterWorkUnitRequest) : Status :=
  _ ← guard_arg (negb (bool_decide (rq_layout_fingerprint meta = EmptyString)));
  _ ← guard_arg (negb (bool_decide (rq_pools meta = [])));
  _ ← guard_arg (negb (bool_decide (rq_shards meta = [])));
  _ ← guard_arg (Z.of_nat (length (rq_shards meta)) =? 1);
  guard_arg (negb (bool_decide (rq_control_plane_rpc_address meta = EmptyString))).

Definition check_metadata (all_metadata : list RegisterWorkUnitRequest) : Status :=
  _ ← mapM check_unit_metadata all_metadata;
  guard_arg (Z.of_nat (size (list_to_set (rq_layout_fingerprint <$> all_metadata) : gset string)) =? 1).

(** ** Pools by tag *)
Fixpoint index_pools (i : Z) (pools : list PoolSpecProto) (by_tag : gmap string (list Z))
    : gmap string (list Z) :=
  match pools with
  | [] => by_tag
  | pool :: rest =>
      index_pools (i + 1) rest
        (<[pp_tag pool := default [] (by_tag !! pp_tag pool) ++ [i]]> by_tag)
  end.
Definition pools_by_tag (pools : list PoolSpecProto) : gmap string (list Z) :=
  index_pools 0 pools ∅.

Definition pool_at (pools : list PoolSpecProto) (i : Z) : PoolSpecProto :=
  default (mkPoolProto EmptyString 0 0 0 0 [] EmptyString) (pools !! Z.to_nat i).

(** Every tag both sides register has the same pool count and dtypes, in
    manifest order. *)
Definition tags_match (dst_pools src_pools : list PoolSpecProto) : bool :=
  forallb (λ tag_src : string * list Z,
    match pools_by_tag dst_pools !! tag_src.1 with
    | None => true
    | Some dst_indices =>
        bool_decide ((λ i, pp_dtype_tag (pool_at src_pools i)) <$> tag_src.2 =
                     (λ i, pp_dtype_tag (pool_at dst_pools i)) <$> dst_indices)
    end) (map_to_list (pools_by_tag src_pools)).

(** [GeometrySignature]: the fields separated by 0x1f, regions by 0x1e. *)
Definition us : string := String (Ascii.ascii_of_nat 31) EmptyString.
Definition rs : string := String (Ascii.ascii_of_nat 30) EmptyString.
Definition region_signature (r : RegionSpecProto) : string :=
  (rs ++ rp_name r ++ us ++ pretty (rp_offset_bytes r) ++ us ++ pretty (rp_stride_bytes r) ++ us ++
   pretty (rp_unit_bytes r) ++ us ++ pretty (rp_num_units r) ++ us ++
   pretty (rp_units_per_stride r))%string.
Definition GeometrySignature (pool : PoolSpecProto) : string :=
  foldl (λ sig r, sig ++ region_signature r)%string
    (pp_tag pool ++ us ++ pretty (pp_storage_index pool) ++ us ++
     pretty (pp_base_offset_bytes pool) ++ us ++ pretty (pp_block_stride_bytes pool) ++ us ++
     pretty (pp_num_blocks pool) ++ us ++ pp_dtype_tag pool)%string
    (pp_regions pool).

Definition pool_identity (pools : list PoolSpecProto) : list (string * string) :=
  (λ p, (pp_tag p, pp_dtype_tag p)) <$> pools.

(** The other destinations register the first one's pools. *)
Definition check_dst_geometry (dst_pools : list PoolSpecProto) (others : list (list PoolSpecProto))
    : Status :=
  guard_arg (forallb (λ pools,
    bool_decide (pool_identity pools = pool_identity dst_pools) &&
    bool_decide (GeometrySignature <$> pools = GeometrySignature <$> dst_pools)) others).

(** The source ranks agree on each tag's geometry; the first rank that
    registers a tag is its reference. *)
Fixpoint reference_units (units : list RaidenId) (pools_of : RaidenId → list PoolSpecProto)
    (geometry : gmap string (list string)) (reference : gmap string RaidenId)
    : StatusOr (gmap string RaidenId) :=
  match units with
  | [] => Ok reference
  | u :: rest =>
      let pools := pools_of u in
      let own := (λ l, (λ i, GeometrySignature (pool_at pools i)) <$> l) <$> pools_by_tag pools in
      if negb (forallb (λ tg : string * list string,
                 match geometry !! tg.1 with Some g => bool_decide (g = tg.2) | None => true end)
                 (map_to_list own))
      then Err kInvalidArgument
      else reference_units rest pools_of (geometry ∪ own)
             (reference ∪ ((λ _, u) <$> own))
  end.

(** ** Tags, block counts, skips and windows *)
Definition check_tags (tags : list string) : Status :=
  _ ← guard_arg (negb (bool_decide (tags = [])));
  guard_arg (no_duplicates tags).

Definition block_counts (tags : list string) (counts dst_ids : list Z) : StatusOr (list Z) :=
  match counts with
  | [] => match tags with
          | [_] => Ok [Z.of_nat (length dst_ids)]
          | _ => Err kInvalidArgument
          end
  | _ =>
      if negb (Z.of_nat (length counts) =? Z.of_nat (length tags)) then Err kInvalidArgument
      else if existsb (λ c, c <=? 0) counts ||
              negb (foldl (λ s c, i64 (s + c)) 0 counts =? Z.of_nat (length dst_ids))
           then Err kInvalidArgument
      else Ok counts
  end.

Fixpoint split_ids (counts dst_ids : list Z) : list (list Z) :=
  match counts with
  | [] => []
  | count :: rest => take (Z.to_nat count) dst_ids :: split_ids rest (drop (Z.to_nat count) dst_ids)
  end.

Definition tag_skips (tags : list string) (skips : list Z) : StatusOr (list Z) :=
  match skips with
  | [] => Ok (replicate (length tags) 0)
  | _ =>
      if negb (Z.of_nat (length skips) =? Z.of_nat (length tags)) then Err kInvalidArgument
      else if existsb (λ s, s <? 0) skips then Err kInvalidArgument
      else Ok skips
  end.

(** Per tag (offset, total), both 0 when not windowed. *)
Definition tag_windows (tags : list string) (counts offsets totals : list Z)
    : StatusOr (list (Z * Z)) :=
  if bool_decide (offsets = []) && bool_decide (totals = [])
  then Ok (replicate (length tags) (0, 0))
  else if negb (Z.of_nat (length offsets) =? Z.of_nat (length tags)) ||
          negb (Z.of_nat (length totals) =? Z.of_nat (length tags)) then Err kInvalidArgument
  else
    let windows := zip offsets totals in
    if existsb (λ wc : (Z * Z) * Z,
         let '((offset, total), count) := wc in
         (offset <? 0) || (total <? 0) || ((total =? 0) && negb (offset =? 0)) ||
         ((0 <? total) && (total <? i64 (offset + count)))) (zip windows counts)
    then Err kInvalidArgument else Ok windows.

(** ** Parallelism and ranks *)
Definition admitted_parallelism (metas : list RegisterWorkUnitRequest) : StatusOr Z :=
  let admitted : gset Z := list_to_set (rq_transfer_parallelism <$> metas) in
  match elements admitted with
  | [p] => if p =? 0 then Err kInvalidArgument else Ok p
  | _ => Err kInvalidArgument
  end.

Definition rank_le (a b : Z * RaidenId) : Prop := a.1 <= b.1.
#[export] Instance rank_le_dec a b : Decision (rank_le a b).
Proof. unfold rank_le. apply _. Defined.

(** [ranks], in key order. *)
Definition source_ranks (units : list RaidenId) (rank_of : RaidenId → Z)
    : StatusOr (list (Z * RaidenId)) :=
  let ranks : gmap Z RaidenId := foldl (λ m u, <[rank_of u := u]> m) ∅ units in
  let ordered := merge_sort rank_le (map_to_list ranks) in
  if negb (Z.of_nat (size ranks) =? Z.of_nat (length units)) then Err kInvalidArgument
  else if negb (bool_decide (ordered.*1 = seqZ 0 (Z.of_nat (length ordered))))
       then Err kInvalidArgument
  else Ok ordered.

Definition requested_parallelism (SimpleAtoi : string → option Z) (raw_env : option string)
    (requested : option Z) (topology : Z) : StatusOr Z :=
  p ← match requested with
      | Some p => Ok p
      | None => DefaultTransferStreams SimpleAtoi raw_env topology
      end;
  if p <=? 0 then Err kInvalidArgument
  else if topology <? p then Err kInvalidArgument
  else Ok p.

(** ** Per-tag prechecks *)
Definition live_sum (segments : list PoolLiveSegment) : Z :=
  foldl (λ t s, i64 (t + segment_size s)) 0 segments.

Record MapState := mkMaps {
  ms_src_live : gset Z; ms_dst_live : gset Z;
  ms_src_maps : list (list PoolLiveSegment); ms_dst_maps : list (list PoolLiveSegment) }.

Definition add_map (m : list PoolLiveSegment) (maps : list (list PoolLiveSegment))
    : list (list PoolLiveSegment) :=
  if existsb (λ existing, bool_decide (existing = m)) maps then maps else maps ++ [m].

(** The loop over the tag's pools, source and destination side by side. *)
Fixpoint collect_maps (pools : list (PoolSpecProto * PoolSpecProto)) (st : MapState)
    : StatusOr MapState :=
  match pools with
  | [] => Ok st
  | (src_pool, dst_pool) :: rest =>
      src_segments ← LiveSegments src_pool;
      dst_segments ← LiveSegments dst_pool;
      let src_live := live_sum src_segments in
      let dst_live := live_sum dst_segments in
      if (src_live <=? 0) || (dst_live <=? 0) then Err kInvalidArgument
      else collect_maps rest
             (mkMaps ({[src_live]} ∪ ms_src_live st) ({[dst_live]} ∪ ms_dst_live st)
                (add_map src_segments (ms_src_maps st)) (add_map dst_segments (ms_dst_maps st)))
  end.

(** The window's byte clip (skip, end). *)
Definition window_clip (skip offset total count dst_live : Z) : StatusOr (Z * Z) :=
  if 0 <? total then
    if (INT64_MAX ÷ dst_live <? offset) || (INT64_MAX - i64 (offset * dst_live) <? skip)
    then Err kInvalidArgument
    else
      let window_skip := skip + offset * dst_live in
      Ok (window_skip,
          if i64 (offset + count) <? total then i64 (window_skip + i64 (count * dst_live)) else 0)
  else Ok (0, 0).

Definition selected_pools (dst_pools : list PoolSpecProto) (tag : string) : list Z :=
  default [] (pools_by_tag dst_pools !! tag).

Definition tag_precheck (dst_pools : list PoolSpecProto) (src_pools_of : RaidenId → list PoolSpecProto)
    (reference : gmap string RaidenId) (tag : string) (dst_ids : list Z)
    (skip : Z) (window : Z * Z) (count : Z) : StatusOr TagPrecheck :=
  _ ← guard_arg (no_duplicates dst_ids);
  let selected := selected_pools dst_pools tag in
  match reference !! tag with
  | None => Err kInvalidArgument
  | Some src_reference_unit =>
      let src_pools := src_pools_of src_reference_unit in
      let src_selected := default [] (pools_by_tag src_pools !! tag) in
      st ← collect_maps
             (zip (pool_at src_pools <$> src_selected) (pool_at dst_pools <$> selected))
             (mkMaps ∅ ∅ [] []);
      match elements (ms_src_live st), elements (ms_dst_live st), ms_src_maps st, ms_dst_maps st with
      | [src_live], [dst_live], [src_segments], [dst_segments] =>
          if negb (Z.rem skip dst_live =? 0) then Err kInvalidArgument
          else
            clip ← window_clip skip window.1 window.2 count dst_live;
            Ok (mkPrecheck selected src_live dst_live src_segments dst_segments
                  (IdentityLiveMap src_segments src_live && IdentityLiveMap dst_segments dst_live)
                  clip.1 clip.2)
      | _, _, _, _ => Err kInvalidArgument
      end
  end.

(** One requested tag with its destination ids, skip, window and block count. *)
Record TagPlan := mkTagPlan {
  tg_tag : string; tg_dst_ids : list Z; tg_skip : Z; tg_window : Z * Z; tg_count : Z }.

Fixpoint tag_plans (tags : list string) (ids : list (list Z)) (skips : list Z)
    (windows : list (Z * Z)) (counts : list Z) : list TagPlan :=
  match tags, ids, skips, windows, counts with
  | t :: ts, i :: is_, s :: ss, w :: ws, c :: cs => mkTagPlan t i s w c :: tag_plans ts is_ ss ws cs
  | _, _, _, _, _ => []
  end.

(** ** Per-tag planning *)
Definition entry_declared (src_tags : gmap string (list Z)) (tag : string) (u : RaidenId)
    (entry : PoolSpanRegistration) : StatusOr DeclaredSpans :=
  if negb (bool_decide (ps_tag entry = tag)) then Ok []
  else if bool_decide (ps_spans entry = []) then Ok []
  else if bool_decide (src_tags !! tag = None) then Err kInvalidArgument
  else Ok [(u, entry)].

(** The declarations of [tag], in request order of the source units. *)
Definition declared_for (units : list RaidenId) (src_pools_of : RaidenId → list PoolSpecProto)
    (registrations : gmap RaidenId RequestBlockRegistration) (tag : string)
    : StatusOr DeclaredSpans :=
  (λ l, concat (concat l)) <$>
    mapM (λ u, mapM (entry_declared (pools_by_tag (src_pools_of u)) tag u)
                 (match registrations !! u with Some reg => rb_pool_spans reg | None => [] end))
      units.

(** Source and destination block ids fit the pools they address. *)
Definition block_ids_in_range (dst_pools : list PoolSpecProto)
    (src_pools_of : RaidenId → list PoolSpecProto) (tag : string) (selected : list Z)
    (declared : DeclaredSpans) (dst_ids : list Z) : bool :=
  forallb (λ k,
    forallb (λ ue : RaidenId * PoolSpanRegistration,
      let src_indices := default [] (pools_by_tag (src_pools_of ue.1) !! tag) in
      let limit := pp_num_blocks (pool_at (src_pools_of ue.1) (src_indices !!! k)) in
      forallb (λ b, b <? limit) (ps_block_ids ue.2)) declared &&
    forallb (λ b, b <? pp_num_blocks (pool_at dst_pools (selected !!! k))) dst_ids)
    (seq 0 (length selected)).

(** Streams a destination expects: per sender, at most [parallelism]. *)
Definition dst_pushes (parallelism : Z) (pairs : TransferPairs) (dst : RaidenId) : Z :=
  map_fold (λ _ by_dst n,
    match by_dst !! dst with
    | Some s => n + Z.min parallelism (Z.of_nat (size s))
    | None => n
    end) 0 pairs.

Record GroupState := mkGroups {
  gr_schedules : SchedulesByUnit;
  gr_emitted : Z;
  gr_groups : list PlanPoolGroup;
  gr_selected : list Z;
  gr_extents : list Z;
}.

Definition plan_group (r : PlanRequest) (dst_pools : list PoolSpecProto)
    (src_pools_of : RaidenId → list PoolSpecProto) (dst_peers : PeersByUnit) (parallelism : Z)
    (registrations : gmap RaidenId RequestBlockRegistration) (group_idx : Z)
    (tg : TagPlan) (precheck : TagPrecheck) (st : GroupState) : StatusOr GroupState :=
  let tag_skip := if 0 <? (tg_window tg).2 then tp_window_skip precheck else tg_skip tg in
  let tag_end := tp_window_end precheck in
  declared ← declared_for (pr_src_units r) src_pools_of registrations (tg_tag tg);
  if bool_decide (declared = []) then Err kInvalidArgument
  else
    '(declared, tag_clipped_bytes) ←
      SplitGlobalSpaceSpans tag_skip tag_end (tp_dst_live precheck) declared 0;
    if negb (block_ids_in_range dst_pools src_pools_of (tg_tag tg) (tp_selected precheck) declared
               (tg_dst_ids tg)) then Err kInvalidArgument
    else
      extents ← ValidateSpanCoverage declared (length (pr_dst_units r)) (length (tg_dst_ids tg))
                  (tp_src_live precheck) (tp_dst_live precheck) tag_clipped_bytes;
      em ← EmitSpanSchedule declared (pr_dst_units r) dst_peers (tg_dst_ids tg) precheck group_idx
             (mkEmit (gr_schedules st) (gr_emitted st) ∅);
      let pushes : gmap RaidenId Z :=
        list_to_map ((λ dst, (dst, i32 (dst_pushes parallelism (em_pairs em) dst))) <$>
                     pr_dst_units r) in
      if existsb (λ dst, default 0 (pushes !! dst) <=? 0) (pr_dst_units r)
      then Err kInvalidArgument
      else
        let group := mkGroup (tp_selected precheck) (tg_dst_ids tg) pushes extents
                       (if group_idx =? 0 then 0 else 1) in
        Ok (mkGroups (em_schedules em) (emitted_chunks em) (gr_groups st ++ [group])
              (gr_selected st ++ tp_selected precheck) (gr_extents st ++ extents)).

Fixpoint plan_groups (r : PlanRequest) (dst_pools : list PoolSpecProto)
    (src_pools_of : RaidenId → list PoolSpecProto) (dst_peers : PeersByUnit) (parallelism : Z)
    (registrations : gmap RaidenId RequestBlockRegistration) (group_idx : Z)
    (tags : list (TagPlan * TagPrecheck)) (st : GroupState) : StatusOr GroupState :=
  match tags with
  | [] => Ok st
  | (tg, precheck) :: rest =>
      st ← plan_group r dst_pools src_pools_of dst_peers parallelism registrations group_idx tg
             precheck st;
      plan_groups r dst_pools src_pools_of dst_peers parallelism registrations (group_idx + 1) rest st
  end.

(** Destination endpoints are distinct. *)
Definition destination_peers (dst_units : list RaidenId) (meta_of : RaidenId → RegisterWorkUnitRequest)
    : StatusOr PeersByUnit :=
  let peers := (λ u, default EmptyString (head (rq_shards (meta_of u)))) <$> dst_units in
  if negb (Z.of_nat (size (list_to_set peers : gset string)) =? Z.of_nat (length dst_units))
  then Err kInvalidArgument
  else Ok (list_to_map (zip dst_units peers)).

(** ** Assembly *)
Fixpoint skipped_counts (i : Z) (pools : list PoolSpecProto) (selected : gset Z)
    (counts : gmap string Z) : gmap string Z :=
  match pools with
  | [] => counts
  | pool :: rest =>
      skipped_counts (i + 1) rest selected
        (if bool_decide (i ∈ selected) then counts
         else <[pp_tag pool := default 0 (counts !! pp_tag pool) + 1]> counts)
  end.

(** A sender's pool index for each destination pool it registers. *)
Definition pool_remap (dst_pools src_pools : list PoolSpecProto) (prechecks : list TagPrecheck)
    : gmap Z Z :=
  foldl (λ (remap : gmap Z Z) precheck,
    match tp_selected precheck with
    | [] => remap
    | first :: _ =>
        match pools_by_tag src_pools !! pp_tag (pool_at dst_pools first) with
        | None => remap
        | Some own => foldl (λ (m : gmap Z Z) (ds : Z * Z), <[ds.1 := ds.2]> m) remap (zip (tp_selected precheck) own)
        end
    end) ∅ prechecks.

Definition assemble_plan (r : PlanRequest) (all_metadata : list RegisterWorkUnitRequest)
    (dst_pools : list PoolSpecProto) (src_pools_of : RaidenId → list PoolSpecProto)
    (rank_of : RaidenId → Z) (ranks : list (Z * RaidenId)) (dst_peers : PeersByUnit)
    (parallelism : Z) (prechecks : list TagPrecheck) (st : GroupState) : PoolReshardPlan :=
  let active := filter (λ u, is_Some (gr_schedules st !! u)) ranks.*2 in
  {| plan_src_units := active;
     plan_dst_units := pr_dst_units r;
     plan_schedules := gr_schedules st;
     plan_worker_rpc_addresses :=
       foldl (λ m meta, <[RaidenIdFromProto (rq_unit meta) := rq_control_plane_rpc_address meta]> m)
         ∅ all_metadata;
     plan_dst_peers := dst_peers;
     plan_uuid := if 0 <? pr_plan_uuid r then pr_plan_uuid r else pr_uuid r;
     plan_req_id := pr_req_id r;
     plan_expected_block_count := Z.of_nat (length (pr_dst_device_block_ids r));
     plan_expected_pushes_per_pool :=
       match gr_groups st, pr_dst_units r with
       | g :: _, u :: _ => default 0 (pg_expected_pushes_by_dst g !! u)
       | _, _ => 0
       end;
     plan_transfer_pool_indices := gr_selected st;
     plan_pool_dtype_tags := pp_dtype_tag <$> dst_pools;
     plan_src_pool_indices :=
       list_to_map ((λ u, (u, pool_remap dst_pools (src_pools_of u) prechecks)) <$> active);
     plan_src_pool_dtype_tags :=
       list_to_map ((λ u, (u, pp_dtype_tag <$> src_pools_of u)) <$> active);
     plan_dst_device_block_ids := pr_dst_device_block_ids r;
     plan_src_schedule_keys := list_to_map ((λ u, (u, i32 (rank_of u))) <$> active);
     plan_parallelism := i32 parallelism;
     plan_num_tokens := Z.max (pr_num_tokens r) 0;
     plan_skipped_pool_counts := skipped_counts 0 dst_pools (list_to_set (gr_selected st)) ∅;
     plan_dst_expected_extent_bytes := gr_extents st;
     plan_pool_groups := gr_groups st;
     plan_skip_d2h := false;
     plan_receiver_addrs := ∅;
     plan_sub_plan_index := 0;
     plan_sub_plan_count := 0 |}.

(** ** The whole build *)

(** What is computed before the claim. *)
Record Prepared := mkPrepared {
  pp_all_metadata : list RegisterWorkUnitRequest;
  pp_dst_pools : list PoolSpecProto;
  pp_src_pools_of : RaidenId → list PoolSpecProto;
  pp_dst_meta_of : RaidenId → RegisterWorkUnitRequest;
  pp_rank_of : RaidenId → Z;
  pp_ranks : list (Z * RaidenId);
  pp_parallelism : Z;
  pp_tags : list (TagPlan * TagPrecheck);
}.

Definition empty_request : RegisterWorkUnitRequest :=
  mkWorkUnitRequest (mkRaidenIdProto EmptyString EmptyString EmptyString 0) [] EmptyString 0 [] [] []
    [] EmptyString 0 0 0 [].

Definition prepare_plan (SimpleAtoi : string → option Z) (raw_env : option string) (r : PlanRequest)
    : StatusOr Prepared :=
  _ ← check_request r;
  src_by_unit ← MetadataByUnit (pr_src_metadata r) (pr_src_units r);
  dst_by_unit ← MetadataByUnit (pr_dst_metadata r) (pr_dst_units r);
  let src_meta u := default empty_request (src_by_unit !! u) in
  let dst_meta u := default empty_request (dst_by_unit !! u) in
  let src_pools_of u := rq_pools (src_meta u) in
  let dst_pools := match pr_dst_units r with [] => [] | u :: _ => rq_pools (dst_meta u) end in
  let all_metadata := (src_meta <$> pr_src_units r) ++ (dst_meta <$> pr_dst_units r) in
  _ ← check_metadata all_metadata;
  _ ← guard_arg (forallb (λ u, tags_match dst_pools (src_pools_of u)) (pr_src_units r));
  _ ← check_dst_geometry dst_pools ((λ u, rq_pools (dst_meta u)) <$> tail (pr_dst_units r));
  reference ← reference_units (pr_src_units r) src_pools_of ∅ ∅;
  let tags := pr_transfer_pool_tags r in
  _ ← check_tags tags;
  counts ← block_counts tags (pr_dst_block_counts r) (pr_dst_device_block_ids r);
  let ids := split_ids counts (pr_dst_device_block_ids r) in
  skips ← tag_skips tags (pr_dst_skip_bytes r);
  windows ← tag_windows tags counts (pr_dst_window_offset_blocks r) (pr_dst_window_total_blocks r);
  _ ← guard_arg (forallb (λ t, bool_decide (is_Some (pools_by_tag dst_pools !! t))) tags);
  topology ← admitted_parallelism (src_meta <$> pr_src_units r);
  let rank_of u := rq_transfer_rank (src_meta u) in
  ranks ← source_ranks (pr_src_units r) rank_of;
  parallelism ← requested_parallelism SimpleAtoi raw_env (pr_parallelism r) topology;
  let plans := tag_plans tags ids skips windows counts in
  prechecks ← mapM (λ tg, tag_precheck dst_pools src_pools_of reference (tg_tag tg) (tg_dst_ids tg)
                            (tg_skip tg) (tg_window tg) (tg_count tg)) plans;
  Ok (mkPrepared all_metadata dst_pools src_pools_of dst_meta rank_of ranks parallelism
        (zip plans prechecks)).

Definition finish_plan (r : PlanRequest) (pre : Prepared)
    (registrations : gmap RaidenId RequestBlockRegistration) : StatusOr PoolReshardPlan :=
  dst_peers ← destination_peers (pr_dst_units r) (pp_dst_meta_of pre);
  st ← plan_groups r (pp_dst_pools pre) (pp_src_pools_of pre) dst_peers (pp_parallelism pre)
         registrations 0 (pp_tags pre) (mkGroups ∅ 0 [] [] []);
  if negb (no_duplicates (gr_selected st)) then Err kInvalidArgument
  else Ok (assemble_plan r (pp_all_metadata pre) (pp_dst_pools pre) (pp_src_pools_of pre)
             (pp_rank_of pre) (pp_ranks pre) dst_peers (pp_parallelism pre) (pp_tags pre).*2 st).

Definition BuildPoolReshardPlan (SimpleAtoi : string → option Z) (raw_env : option string)
    (ttl now : Z) (r : PlanRequest) (claim_owner : Z) (registry : RequestBlockRegistry)
    : StatusOr PoolReshardPlan * RequestBlockRegistry :=
  match prepare_plan SimpleAtoi raw_env r with
  | Err c => (Err c, registry)
  | Ok pre =>
      match LookupAndClaim ttl now (pr_req_id r) (pr_uuid r) (pr_src_units r) claim_owner registry with
      | (Err c, registry) => (Err c, registry)
      | (Ok registrations, registry) => (finish_plan r pre registrations, registry)
      end
  end.

(** ** Lists without duplicates *)
Lemma size_list_to_set_le {A} `{Countable A} (l : list A) :
  (size (list_to_set l : gset A) <= length l)%nat.
Proof.
  induction l as [|x l IH]; cbn [list_to_set length]; [by rewrite size_empty|].
  rewrite size_union_alt, size_singleton.
  pose proof (subseteq_size (list_to_set l ∖ {[x]} : gset A) (list_to_set l) ltac:(set_solver)). lia.
Qed.
Lemma NoDup_of_size {A} `{Countable A} (l : list A) :
  size (list_to_set l : gset A) = length l → NoDup l.
Proof.
  induction l as [|x l IH]; cbn [list_to_set length]; [constructor|]. intros Hs.
  pose proof (size_list_to_set_le l) as Hle. destruct (decide (x ∈ l)) as [Hx|Hx].
  - replace ({[x]} ∪ list_to_set l : gset A) with (list_to_set l : gset A) in Hs by set_solver. lia.
  - constructor; [done|]. apply IH. rewrite size_union, size_singleton in Hs by set_solver. lia.
Qed.
Lemma no_duplicates_ok {A} `{Countable A} (l : list A) : no_duplicates l = true → NoDup l.
Proof. unfold no_duplicates. intros E%Z.eqb_eq. apply NoDup_of_size. lia. Qed.
Lemma guard_arg_ok (c : bool) u : guard_arg c = Ok u → c = true.
Proof. by destruct c. Qed.

(** ** Pools by tag *)
Lemma index_pools_ok i pools m tag l j :
  index_pools i pools m !! tag = Some l → j ∈ l →
  (∃ l0, m !! tag = Some l0 ∧ j ∈ l0) ∨
  ∃ k pool, pools !! k = Some pool ∧ j = i + Z.of_nat k ∧ pp_tag pool = tag.
Proof.
  revert i m; induction pools as [|pool pools IH]; intros i m; cbn [index_pools]; [eauto|].
  intros Hl Hj. destruct (IH _ _ Hl Hj) as [(l0 & Hl0 & Hj0)|(k & p & Hk & -> & Hp)].
  - apply lookup_insert_Some in Hl0 as [[Ht <-]|[_ Hl0]]; [|by eauto].
    apply elem_of_app in Hj0 as [Hj0|Hj0%list_elem_of_singleton].
    + left. destruct (m !! pp_tag pool) eqn:E; cbn in Hj0; [|set_solver].
      exists l0. by rewrite <- Ht.
    + right. exists 0%nat, pool. split; [done|]. split; [lia|done].
  - right. exists (S k), p. split; [done|]. split; [lia|done].
Qed.

Lemma pool_at_tagged pools tag l j :
  pools_by_tag pools !! tag = Some l → j ∈ l →
  pool_at pools j ∈ pools ∧ pp_tag (pool_at pools j) = tag.
Proof.
  intros Hl Hj. destruct (index_pools_ok _ _ _ _ _ _ Hl Hj) as [(l0 & E & _)|(k & p & Hk & -> & Hp)].
  { by rewrite lookup_empty in E. }
  unfold pool_at. rewrite Z.add_0_l, Nat2Z.id, Hk. split; [by eapply list_elem_of_lookup_2|done].
Qed.

Lemma pool_at_selected pools tag p :
  p ∈ pool_at pools <$> default [] (pools_by_tag pools !! tag) → p ∈ pools.
Proof.
  intros (j & -> & Hj)%list_elem_of_fmap. destruct (pools_by_tag pools !! tag) as [l|] eqn:E; [|set_solver].
  by eapply pool_at_tagged.
Qed.

(** ** The live maps of a tag *)

(** A manifest entry whose geometry registration accepted. *)
Definition manifest_ok (p : PoolSpecProto) : Prop :=
  ∀ spec, PoolSpecFromProto p = Ok spec → pool_ok spec.

Lemma live_sum_total limit logical lo segs t :
  limit <= INT64_MAX → segs_wf limit logical lo segs → 0 <= t <= lo → lo <= limit →
  foldl (λ t s, i64 (t + segment_size s)) t segs = t + live_total segs.
Proof.
  intros Hlim. revert logical lo t; induction segs as [|s segs IH]; intros logical lo t; cbn [foldl].
  { unfold live_total. cbn. lia. }
  intros (_ & Hp & Hs & He & Hw) Ht Hlo. unfold INT64_MAX in *.
  rewrite i64_small by lia. destruct (decide (physical_offset s + segment_size s + 1 <= limit)) as [Hc|Hc].
  - rewrite (IH _ _ (t + segment_size s) Hw) by lia.
    unfold live_total. rewrite segment_bytes_cons, length_app, length_seqZ. lia.
  - destruct segs as [|s' segs]; [|destruct Hw as (_ & ? & ? & ? & _); lia].
    unfold live_total. rewrite segment_bytes_cons, length_app, length_seqZ. cbn. lia.
Qed.

Lemma LiveSegments_ok p segs :
  manifest_ok p → LiveSegments p = Ok segs →
  (∃ limit, 0 <= limit <= INT64_MAX ∧ segs_wf limit 0 0 segs) ∧ live_sum segs = live_total segs.
Proof.
  intros Hp (spec & Hs & He)%bind_Ok. pose proof (Hp _ Hs) as Hok.
  destruct (Expand_inv _ _ Hok He) as [Hw _]. destruct (pok_stride _ Hok).
  split; [exists (block_stride_bytes spec); split; [lia|done]|].
  unfold live_sum. by rewrite (live_sum_total (block_stride_bytes spec) 0 0) by (done || lia).
Qed.

Lemma add_map_elem m maps x : x ∈ add_map m maps ↔ x = m ∨ x ∈ maps.
Proof.
  unfold add_map. destruct (existsb _ maps) eqn:E; [|set_solver].
  apply existsb_exists in E as (y & Hy%list_elem_of_In & ->%bool_decide_eq_true_1). naive_solver.
Qed.

Lemma collect_maps_ok pools st st' :
  collect_maps pools st = Ok st' →
  (∀ pq, pq ∈ pools → ∃ s d, LiveSegments pq.1 = Ok s ∧ LiveSegments pq.2 = Ok d ∧
     0 < live_sum s ∧ 0 < live_sum d ∧ s ∈ ms_src_maps st' ∧ d ∈ ms_dst_maps st' ∧
     live_sum s ∈ ms_src_live st' ∧ live_sum d ∈ ms_dst_live st') ∧
  (∀ m, m ∈ ms_src_maps st' → m ∈ ms_src_maps st ∨ ∃ pq, pq ∈ pools ∧ LiveSegments pq.1 = Ok m) ∧
  (∀ m, m ∈ ms_dst_maps st' → m ∈ ms_dst_maps st ∨ ∃ pq, pq ∈ pools ∧ LiveSegments pq.2 = Ok m) ∧
  (∀ m, m ∈ ms_src_maps st → m ∈ ms_src_maps st') ∧ (∀ m, m ∈ ms_dst_maps st → m ∈ ms_dst_maps st') ∧
  ms_src_live st ⊆ ms_src_live st' ∧ ms_dst_live st ⊆ ms_dst_live st'.
Proof.
  revert st; induction pools as [|[p q] pools IH]; intros st; cbn [collect_maps].
  { intros [= <-]. set_solver. }
  intros (s & Hs & (d & Hd & E)%bind_Ok)%bind_Ok. case_match eqn:El; [done|].
  apply orb_false_iff in El as [El1%Z.leb_gt El2%Z.leb_gt].
  destruct (IH _ E) as (H1 & H2 & H3 & H4 & H5 & H6 & H7). cbn in H2, H3, H4, H5, H6, H7.
  setoid_rewrite add_map_elem in H2. setoid_rewrite add_map_elem in H3.
  setoid_rewrite add_map_elem in H4. setoid_rewrite add_map_elem in H5.
  split; [|split; [|split; [|split; [|split; [|split]]]]].
  - intros pq [->|Hpq]%elem_of_cons; [|by auto]. exists s, d. cbn. set_solver.
  - intros m Hm. destruct (H2 m Hm) as [[->|Hin]|(pq & Hpq & Hl)]; [right|by left|right]; set_solver.
  - intros m Hm. destruct (H3 m Hm) as [[->|Hin]|(pq & Hpq & Hl)]; [right|by left|right]; set_solver.
  - auto.
  - auto.
  - set_solver.
  - set_solver.
Qed.

Lemma elements_singleton_elem (s : gset Z) v w : elements s = [v] → w ∈ s → w = v.
Proof. intros E Hw. apply elem_of_elements in Hw. rewrite E in Hw. set_solver. Qed.

(** What a precheck leaves behind: the shared live map of the tag's pools. *)
Record tag_ready (dst_pools : list PoolSpecProto) (tg : TagPlan) (pc : TagPrecheck) : Prop := {
  tr_ok : precheck_ok pc;
  tr_selected : tp_selected pc = selected_pools dst_pools (tg_tag tg);
  tr_nonempty : tp_selected pc ≠ [];
  tr_ids : NoDup (tg_dst_ids tg);
  tr_live : 0 < tp_dst_live pc;
  tr_skip : 0 <= tg_skip tg ∧ 0 <= tp_window_skip pc;
  tr_maps : ∀ i, i ∈ tp_selected pc → LiveSegments (pool_at dst_pools i) = Ok (tp_dst_segments pc);
}.

Lemma window_clip_ok skip offset total count dst_live clip :
  0 <= skip → 0 <= offset → 0 < dst_live →
  window_clip skip offset total count dst_live = Ok clip → 0 <= clip.1.
Proof.
  intros. unfold window_clip in *. case_match; [|by simplify_eq]. case_match; [done|]. simplify_eq/=. nia.
Qed.

Lemma zip_elem_l {A B} (l : list A) (k : list B) xy : xy ∈ zip l k → xy.1 ∈ l.
Proof. destruct xy. apply elem_of_zip_l. Qed.
Lemma zip_elem_r {A B} (l : list A) (k : list B) xy : xy ∈ zip l k → xy.2 ∈ k.
Proof. destruct xy. apply elem_of_zip_r. Qed.
Lemma elem_of_zip_ex {A B} (l : list A) (k : list B) y :
  (length k <= length l)%nat → y ∈ k → ∃ x, (x, y) ∈ zip l k.
Proof.
  intros Hl (i & Hi)%list_elem_of_lookup.
  destruct (lookup_lt_is_Some_2 l i) as [x Hx]; [apply lookup_lt_Some in Hi; lia|].
  exists x. apply list_elem_of_lookup. exists i. rewrite lookup_zip_with, Hx. cbn. by rewrite Hi.
Qed.

Lemma tag_precheck_ok dst_pools src_pools_of reference tg pc :
  tag_precheck dst_pools src_pools_of reference (tg_tag tg) (tg_dst_ids tg) (tg_skip tg)
    (tg_window tg) (tg_count tg) = Ok pc →
  0 <= tg_skip tg → 0 <= (tg_window tg).1 →
  Forall manifest_ok dst_pools → (∀ u, Forall manifest_ok (src_pools_of u)) →
  (∀ u, reference !! tg_tag tg = Some u →
     (length (selected_pools dst_pools (tg_tag tg)) <=
      length (default [] (pools_by_tag (src_pools_of u) !! tg_tag tg)))%nat) →
  tag_ready dst_pools tg pc.
Proof.
  intros (? & Hnd%guard_arg_ok%no_duplicates_ok & E)%bind_Ok Hsk Hoff Hdm Hsm Hlen.
  destruct (reference !! tg_tag tg) as [ru|] eqn:Er; [|done].
  apply bind_Ok in E as (st & Hc & E). specialize (Hlen ru eq_refl).
  destruct (elements (ms_src_live st)) as [|sl [|]] eqn:Esl; try done.
  destruct (elements (ms_dst_live st)) as [|dl [|]] eqn:Edl; try done.
  destruct (ms_src_maps st) as [|ss [|]] eqn:Ess; try done.
  destruct (ms_dst_maps st) as [|ds [|]] eqn:Eds; try done.
  case_match; [done|]. apply bind_Ok in E as (clip & Hclip & [= <-]).
  destruct (collect_maps_ok _ _ _ Hc) as (Hall & Hs & Hd & _). cbn in Hs, Hd.
  rewrite Ess in Hall, Hs. rewrite Eds in Hall, Hd.
  destruct (Hs ss ltac:(set_solver)) as [Habs|(pq & Hpq & Hss)]; [set_solver|].
  destruct (Hall pq Hpq) as (s & d & Es & Ed & Hsp & Hdp & Hsin & Hdin & Hsl & Hdl).
  apply list_elem_of_singleton in Hsin as ->. apply list_elem_of_singleton in Hdin as ->.
  apply (elements_singleton_elem _ _ _ Esl) in Hsl. apply (elements_singleton_elem _ _ _ Edl) in Hdl.
  destruct (LiveSegments_ok pq.1 ss) as [Hsw Hst]; [|done|].
  { eapply Forall_forall; [apply (Hsm ru)|]. by eapply pool_at_selected, zip_elem_l. }
  destruct (LiveSegments_ok pq.2 ds) as [Hdw Hdt]; [|done|].
  { eapply Forall_forall; [apply Hdm|]. by eapply pool_at_selected, zip_elem_r. }
  split; cbn; try done; [split; cbn; try done; lia| |lia| |].
  - intros Hnil. rewrite Hnil in Hpq. apply zip_elem_r in Hpq. set_solver.
  - split; [done|]. refine (window_clip_ok _ _ _ _ _ _ Hsk Hoff _ Hclip). lia.
  - intros i Hi. destruct (elem_of_zip_ex
      (pool_at (src_pools_of ru) <$> default [] (pools_by_tag (src_pools_of ru) !! tg_tag tg))
      (pool_at dst_pools <$> selected_pools dst_pools (tg_tag tg)) (pool_at dst_pools i)) as [src_pool Hx].
    { by rewrite !length_fmap. } { by apply list_elem_of_fmap_2. }
    destruct (Hall _ Hx) as (? & d & _ & Hdx & _ & _ & _ & Hin & _). cbn in Hdx.
    apply list_elem_of_singleton in Hin as ->. done.
Qed.

(** ** Splitting keeps spans well formed *)
Lemma split_pages_span_ok fuel span dst_live g so rem :
  0 < dst_live <= INT64_MAX → 0 <= g → 0 <= so → so + Z.max 0 rem <= INT64_MAX →
  Forall span_ok (split_pages fuel span dst_live g so rem).
Proof.
  intros Hl. revert g so rem; induction fuel as [|fuel IH]; intros g so rem Hg Hs He; cbn [split_pages];
    (destruct (Z.ltb_spec 0 rem); cbn [negb]; [|constructor]); [constructor|].
  rewrite Z.quot_div_nonneg, Z.rem_mod_nonneg by lia.
  pose proof (Z.mod_pos_bound g dst_live ltac:(lia)). pose proof (Z.div_pos g dst_live Hg ltac:(lia)).
  constructor; [split; cbn; unfold kMaxSpanCount; lia|]. apply IH; lia.
Qed.

Lemma SplitPlain_span_ok span tag_skip tag_end dst_live st :
  0 < dst_live <= INT64_MAX → 0 <= tag_skip → span_ok span → span_count span = 1 →
  Forall span_ok (out_spans st) →
  Forall span_ok (out_spans (SplitPlainGlobalSpan span tag_skip tag_end dst_live st)).
Proof.
  intros Hl Hk [H1 _ [H2 _] [H3 _] _ H4 H5] Hc Hst. rewrite Hc in H4, H5.
  unfold SplitPlainGlobalSpan, INT64_MAX in *.
  rewrite (i64_small (dst_offset_bytes span + size_bytes span)) by lia.
  destruct (_ || _) eqn:Ed; [done|]. cbn [out_spans]. apply orb_false_iff in Ed as [Ed%Z.leb_gt _].
  apply Forall_app. split; [done|].
  set (adv := if dst_offset_bytes span <? tag_skip then _ else 0).
  assert (0 <= adv < size_bytes span ∧ tag_skip <= dst_offset_bytes span + adv) as Ha.
  { subst adv. destruct (Z.ltb_spec (dst_offset_bytes span) tag_skip); lia. }
  set (tail := if (0 <? tag_end) && _ then _ else 0).
  assert (0 <= tail) as Ht.
  { subst tail. destruct (_ && _) eqn:E; [|lia]. apply andb_true_iff in E as [_ E%Z.ltb_lt]. lia. }
  rewrite i64_small by lia. apply split_pages_span_ok; unfold INT64_MAX; lia.
Qed.

Lemma Rebase_span_ok span tag_skip tag_end dst_live st st' :
  0 < dst_live <= INT64_MAX → 0 <= tag_skip → span_ok span → Forall span_ok (out_spans st) →
  RebaseStridedGlobalSpan span tag_skip tag_end dst_live st = Ok st' → Forall span_ok (out_spans st').
Proof.
  intros Hl Hk [H1 H2 [H3 H3'] [H4 H4'] _ H5 H6] Hst. unfold RebaseStridedGlobalSpan.
  case_match; [done|]. rewrite Z.rem_mod_nonneg by lia.
  pose proof (Z.mod_pos_bound (dst_offset_bytes span) dst_live ltac:(lia)) as Hm.
  pose proof (Z.mod_le (dst_offset_bytes span) dst_live H4 ltac:(lia)) as Hm'.
  case_match; [done|]. case_match eqn:Ed; intros [= <-]; [done|].
  apply orb_false_iff in Ed as [Ed%Z.ltb_ge _]. cbn [out_spans].
  apply Forall_app. split; [done|]. constructor; [|constructor].
  pose proof (Z.quot_pos (dst_offset_bytes span - tag_skip) dst_live ltac:(lia) ltac:(lia)).
  split; cbn; try done; lia.
Qed.

Lemma split_spans_ok tag_skip tag_end dst_live spans st st' :
  0 < dst_live <= INT64_MAX → 0 <= tag_skip → Forall span_ok spans → Forall span_ok (out_spans st) →
  split_spans tag_skip tag_end dst_live spans st = Ok st' → Forall span_ok (out_spans st').
Proof.
  intros Hl Hk Hs. revert st; induction Hs as [|s spans Hs _ IH]; intros st Hst; cbn [split_spans].
  { by intros [= <-]. }
  case_match; [done|]. case_match eqn:Ec.
  - intros (st1 & E1 & E)%bind_Ok. eapply IH; [|done]. by eapply Rebase_span_ok.
  - case_match; [done|]. apply Z.ltb_ge in Ec. apply IH, SplitPlain_span_ok; try done.
    destruct (sok_count _ Hs). lia.
Qed.

Lemma split_declared_ok tag_skip tag_end dst_live declared ge cb converted ge' cb' :
  0 < dst_live <= INT64_MAX → 0 <= tag_skip → Forall (λ ue, Forall span_ok (ps_spans ue.2)) declared →
  split_declared tag_skip tag_end dst_live declared ge cb = Ok (converted, ge', cb') →
  Forall (λ ue : RaidenId * PoolSpanRegistration, Forall span_ok (ps_spans ue.2)) converted.
Proof.
  intros Hl Hk Hd. revert ge cb converted; induction Hd as [|[u entry] declared Hu _ IH];
    intros ge cb converted; cbn [split_declared]; [by intros [= <-]|].
  case_match.
  - do 2 (case_match; [done|]). intros ([[c ge1] cb1] & E & [= <- <- <-])%bind_Ok.
    constructor; [done|by eapply IH].
  - intros (st & Es & ([[c ge1] cb1] & E & [= <- <- <-])%bind_Ok)%bind_Ok.
    constructor; [|by eapply IH]. by eapply split_spans_ok; [..|exact Es].
Qed.

Lemma SplitGlobalSpaceSpans_ok tag_skip tag_end dst_live declared cb converted cb' :
  0 < dst_live <= INT64_MAX → 0 <= tag_skip → Forall (λ ue, Forall span_ok (ps_spans ue.2)) declared →
  SplitGlobalSpaceSpans tag_skip tag_end dst_live declared cb = Ok (converted, cb') →
  Forall (λ ue : RaidenId * PoolSpanRegistration, Forall span_ok (ps_spans ue.2)) converted.
Proof.
  intros Hl Hk Hd ([[c ge] cb1] & E & H)%bind_Ok. do 2 (case_match; [done|]). injection H as <- <-.
  by eapply split_declared_ok.
Qed.

(** ** What an emission adds to the schedule and to the push pairs *)

(** The push a schedule entry belongs to. *)
Definition entry_push (e : ScheduleEntry) : string * Z * Z :=
  (se_dst_peer e, se_src_block_id e, se_dst_block_id e).

Definition recorded (pairs : TransferPairs) (s v : RaidenId) : gset (string * Z * Z) :=
  default ∅ (default ∅ (pairs !! s) !! v).

Lemma AddTransferPairs_recorded src targets dst_peers sb db pairs s v x :
  x ∈ recorded (AddTransferPairs src targets dst_peers sb db pairs) s v ↔
  x ∈ recorded pairs s v ∨ (s = src ∧ v ∈ targets ∧ x = (dst_peers !!! v, sb, db)).
Proof.
  unfold recorded, AddTransferPairs. destruct (decide (s = src)) as [->|Hne].
  - rewrite lookup_insert_eq. cbn [default from_option id].
    generalize (default ∅ (pairs !! src)) as m. induction targets as [|t targets IH]; intros m; cbn [foldl].
    { set_solver. }
    rewrite IH. destruct (decide (v = t)) as [->|Hv].
    + rewrite lookup_insert_eq. cbn [default from_option id]. set_solver.
    + rewrite lookup_insert_ne by done. set_solver.
  - rewrite lookup_insert_ne by done. naive_solver.
Qed.

Lemma elem_of_all_entries m s e : (s, e) ∈ all_entries m ↔ e ∈ default [] (m !! s).
Proof.
  unfold all_entries. rewrite list_elem_of_bind. split.
  - intros ([s' l] & (e' & [= -> ->] & He)%list_elem_of_fmap & Hl%elem_of_map_to_list). cbn in *.
    by rewrite Hl.
  - intros He. destruct (m !! s) as [l|] eqn:E; [|set_solver]. exists (s, l). cbn in *.
    split; [by apply list_elem_of_fmap_2|by apply elem_of_map_to_list].
Qed.

Section trace.
Context (pc : TagPrecheck) (Hpc : precheck_ok pc).
Context (dst_units : list RaidenId) (dst_peers : PeersByUnit) (dst_ids : list Z) (pool_group : Z).

(** New entries of [sender]: one push per target, all in the group. *)
Definition pushed (sender : RaidenId) (targets : list RaidenId) (sb db : Z)
    (new : list (RaidenId * ScheduleEntry)) : Prop :=
  Forall (λ ue, ue.1 = sender ∧ se_pool_group ue.2 = pool_group ∧
    ∃ v, v ∈ targets ∧ entry_push ue.2 = (dst_peers !!! v, sb, db)) new.

Lemma chunks_pushed sender targets sb db chunks :
  let new := (λ e, (sender, e)) <$> chunk_entries dst_peers targets sb db pool_group chunks in
  pushed sender targets sb db new ∧
  (chunks ≠ [] → ∀ v, v ∈ targets → ∃ e, (sender, e) ∈ new ∧ entry_push e = (dst_peers !!! v, sb, db)).
Proof.
  cbn zeta. split.
  - apply Forall_fmap, Forall_forall. intros e (c & (v & -> & Hv)%list_elem_of_fmap & Hc)%list_elem_of_bind.
    cbn. eauto.
  - intros Hne v Hv. destruct chunks as [|c chunks]; [done|]. eexists. split.
    + apply list_elem_of_fmap_2. unfold chunk_entries. rewrite bind_cons. apply elem_of_app. left.
      apply list_elem_of_fmap_2. exact Hv.
    + done.
Qed.

Lemma emit_repeats_pushed sender sb db s repeats m em m' em' :
  span_in pc dst_units dst_ids s → Forall (λ k, 0 <= k < span_count s) repeats →
  emit_repeats pc dst_peers (span_targets dst_units s) sender sb db pool_group s repeats m em
    = Ok (m', em') →
  ∃ new, all_entries m' ≡ₚ all_entries m ++ new ∧ pushed sender (span_targets dst_units s) sb db new ∧
    (repeats ≠ [] → ∀ v, v ∈ span_targets dst_units s →
       ∃ e, (sender, e) ∈ new ∧ entry_push e = (dst_peers !!! v, sb, db)).
Proof.
  intros (Hok & _ & _ & Hse & Hde) Hk.
  revert m em; induction Hk as [|k repeats Hk _ IH]; intros m em; cbn [emit_repeats].
  { intros [= <- <-]. exists []. rewrite app_nil_r. split; [done|]. split; [constructor|done]. }
  destruct Hok as [H1 H2 [H3 H4] [H5 H6] _ H7 H8]. unfold INT64_MAX in *.
  pose proof (repeat_bounds k _ _ Hk H4). pose proof (repeat_bounds k _ _ Hk H6).
  rewrite (i64_small (k * src_stride_bytes s)), (i64_small (k * dst_stride_bytes s)) by lia.
  rewrite (i64_small (src_offset_bytes s + _)), (i64_small (dst_offset_bytes s + _)) by lia.
  intros (chunks & Et & E)%bind_Ok. case_match; [done|].
  destruct (IH _ _ E) as (new & Hall & Hn & _). rewrite push_entries_all in Hall.
  destruct (chunks_pushed sender (span_targets dst_units s) sb db chunks) as [Hp Hex].
  eexists. split; [rewrite Hall, <- app_assoc; done|]. split; [by apply Forall_app|].
  intros _ v Hv. destruct Hex with v as (e & He & Hpush); [|done|exists e; set_solver].
  intros ->. apply (TranslateLiveCopy_sound pc Hpc) in Et as (Hb & _); [|lia|lia|lia].
  apply (f_equal length) in Hb. unfold slice in Hb. rewrite length_take, length_drop in Hb.
  destruct Hpc as [_ _ Hl _ _]. unfold live_total in Hl. cbn in Hb. lia.
Qed.

Lemma emit_span_pushed o st st' :
  span_in pc dst_units dst_ids (os_span o) →
  emit_span dst_units dst_peers dst_ids pc pool_group o st = Ok st' →
  let sb := ps_block_ids (os_entry o) !!! Z.to_nat (src_block_ordinal (os_span o)) in
  let db := dst_ids !!! Z.to_nat (dst_block_index (os_span o)) in
  ∃ new, all_entries (em_schedules st') ≡ₚ all_entries (em_schedules st) ++ new ∧
    pushed (os_unit o) (span_targets dst_units (os_span o)) sb db new ∧
    (∀ v, v ∈ span_targets dst_units (os_span o) →
       ∃ e, (os_unit o, e) ∈ new ∧ entry_push e = (dst_peers !!! v, sb, db)) ∧
    em_pairs st' = AddTransferPairs (os_unit o) (span_targets dst_units (os_span o)) dst_peers sb db
                     (em_pairs st).
Proof.
  intros Hin. unfold emit_span. case_match.
  - case_match; [done|]. intros [= <-]. cbn [em_schedules em_pairs]. eexists.
    split; [apply push_entries_all|]. split; [|split; [|done]].
    + apply Forall_fmap, Forall_fmap, Forall_forall. intros v Hv. cbn. eauto.
    + intros v Hv. eexists. split; [by do 2 apply list_elem_of_fmap_2; exact Hv|done].
  - intros ([m em] & E & [= <-])%bind_Ok. cbn [em_schedules em_pairs].
    apply emit_repeats_pushed in E as (new & Hall & Hp & Hex); [|done|].
    + exists new. split; [done|]. split; [done|]. split; [|done]. apply Hex.
      destruct Hin as (Hok & _). pose proof (sok_count _ Hok). by rewrite seqZ_cons by lia.
    + apply Forall_forall. intros k Hk%elem_of_seqZ. lia.
Qed.
End trace.

Lemma peer_inj (dst_peers : PeersByUnit) (dst_units : list RaidenId) v w :
  NoDup ((λ v, dst_peers !!! v) <$> dst_units) → v ∈ dst_units → w ∈ dst_units →
  dst_peers !!! v = dst_peers !!! w → v = w.
Proof.
  intros Hnd (i & Hi)%list_elem_of_lookup (j & Hj)%list_elem_of_lookup E.
  assert (i = j) as ->.
  { eapply (NoDup_lookup _ _ _ (dst_peers !!! v) Hnd); rewrite list_lookup_fmap.
    - by rewrite Hi.
    - by rewrite Hj, E. }
  congruence.
Qed.

(** The pushes entries [l] make from [s] to the peer of [v]. *)
Definition pushes_of (dst_peers : PeersByUnit) (l : list (RaidenId * ScheduleEntry)) (s v : RaidenId)
    (x : string * Z * Z) : Prop :=
  ∃ e, (s, e) ∈ l ∧ se_dst_peer e = dst_peers !!! v ∧ entry_push e = x.

Record emission (dst_units : list RaidenId) (dst_peers : PeersByUnit) (pool_group : Z)
    (senders : list RaidenId) (st st' : EmitState) (new : list (RaidenId * ScheduleEntry)) : Prop := {
  em_all : all_entries (em_schedules st') ≡ₚ all_entries (em_schedules st) ++ new;
  em_group : Forall (λ ue, se_pool_group ue.2 = pool_group ∧ ue.1 ∈ senders) new;
  em_recorded : ∀ s v x, v ∈ dst_units →
    x ∈ recorded (em_pairs st') s v ↔ x ∈ recorded (em_pairs st) s v ∨ pushes_of dst_peers new s v x;
  em_senders : dom (em_pairs st') ⊆ dom (em_pairs st) ∪ list_to_set senders;
}.

Lemma emit_span_emission pc dst_units dst_peers dst_ids pool_group o st st' :
  precheck_ok pc → NoDup ((λ v, dst_peers !!! v) <$> dst_units) → NoDup dst_units →
  span_in pc dst_units dst_ids (os_span o) →
  emit_span dst_units dst_peers dst_ids pc pool_group o st = Ok st' →
  ∃ new, emission dst_units dst_peers pool_group [os_unit o] st st' new.
Proof.
  intros Hpc Hpeers Hun Hin E.
  destruct (emit_span_pushed pc Hpc _ _ _ _ _ _ _ Hin E) as (new & Hall & Hp & Hex & Hpairs).
  destruct (targets_ok dst_units (os_span o) Hun) as [Hsub _].
  exists new. split; [done| | |].
  - eapply Forall_impl; [exact Hp|]. intros ue (Hu & Hg & _). set_solver.
  - intros s v x Hv. rewrite Hpairs, AddTransferPairs_recorded. apply or_iff_compat_l. split.
    + intros (-> & Ht & ->). destruct (Hex v Ht) as (e & He & Hpush). exists e.
      split; [done|]. split; [|done]. by injection Hpush.
    + intros (e & He & Hpeer & <-). unfold pushed in Hp. rewrite Forall_forall in Hp.
      destruct (Hp _ He) as (Hs & _ & w & Hw & Hpush). cbn in Hs, Hpush. rewrite Hpush.
      assert (w = v) as ->; [|done]. eapply peer_inj; [done|by apply Hsub|done|]. by injection Hpush; congruence.
  - rewrite Hpairs. unfold AddTransferPairs. rewrite dom_insert. set_solver.
Qed.

Lemma emit_spans_emission pc dst_units dst_peers dst_ids pool_group os st st' :
  precheck_ok pc → NoDup ((λ v, dst_peers !!! v) <$> dst_units) → NoDup dst_units →
  Forall (λ o, span_in pc dst_units dst_ids (os_span o)) os →
  emit_spans dst_units dst_peers dst_ids pc pool_group os st = Ok st' →
  ∃ new, emission dst_units dst_peers pool_group (os_unit <$> os) st st' new.
Proof.
  intros Hpc Hpeers Hun Hos. revert st; induction Hos as [|o os Ho _ IH]; intros st; cbn [emit_spans].
  { intros [= <-]. exists []. split; [by rewrite app_nil_r|constructor| |set_solver].
    intros. unfold pushes_of. set_solver. }
  intros (st1 & E1 & E)%bind_Ok.
  destruct (emit_span_emission _ _ _ _ _ _ _ _ Hpc Hpeers Hun Ho E1) as (n1 & [A1 G1 R1 S1]).
  destruct (IH st1 E) as (n2 & [A2 G2 R2 S2]). exists (n1 ++ n2). split.
  - by rewrite A2, A1, app_assoc.
  - apply Forall_app. split; (eapply Forall_impl; [eassumption|]); set_solver.
  - intros s v x Hv. rewrite R2, R1 by done. unfold pushes_of. setoid_rewrite elem_of_app. naive_solver.
  - clear -S1 S2. set_solver.
Qed.

(** ** One group *)
Definition dst_live_bytes (pc : TagPrecheck) : list Z := segment_bytes (tp_dst_segments pc).

(** The distinct pushes entries make in group [g] to [peer]. *)
Definition schedule_pushes (g : Z) (peer : string) (entries : list ScheduleEntry) : gset (string * Z * Z) :=
  list_to_set (entry_push <$> filter (λ e, se_pool_group e = g ∧ se_dst_peer e = peer) entries).
Definition push_set (g : Z) (peer : string) (l : list (RaidenId * ScheduleEntry)) (s : RaidenId)
    : gset (string * Z * Z) :=
  schedule_pushes g peer (filter (λ ue, ue.1 = s) l).*2.

Definition zsum {A} (f : A → Z) (l : list A) : Z := foldr (λ x n, f x + n) 0 l.

(** The streams [senders] open: each at most [parallelism]. *)
Definition streams (parallelism : Z) (senders : list RaidenId) (pushes : RaidenId → gset (string * Z * Z))
    : Z :=
  zsum (λ s, Z.min parallelism (Z.of_nat (size (pushes s)))) senders.

(** Group [g]: every block is written, byte for byte, over its extent, and the
    expected pushes are the streams the schedule opens. *)
Record group_done (senders dst_units : list RaidenId) (dst_peers : PeersByUnit) (parallelism g : Z)
    (tg : TagPlan) (pc : TagPrecheck) (group : PlanPoolGroup) (new : list (RaidenId * ScheduleEntry))
    : Prop := {
  gd_pools : pg_pool_indices group = tp_selected pc;
  gd_ids : pg_dst_device_block_ids group = tg_dst_ids tg;
  gd_bytes : ∀ d b u B, dst_units !! d = Some u → tg_dst_ids tg !! b = Some B →
    ∃ e, pg_dst_expected_extent_bytes group !! b = Some e ∧ 0 < e ∧
      (S b ≠ length (tg_dst_ids tg) → e = Z.of_nat (length (dst_live_bytes pc))) ∧
      (λ c : Copy, c.2) <$> written g (dst_peers !!! u) B new ≡ₚ slice (dst_live_bytes pc) 0 e;
  gd_pushes : ∀ v, v ∈ dst_units →
    pg_expected_pushes_by_dst group !! v =
      Some (i32 (streams parallelism senders (push_set g (dst_peers !!! v) new)));
}.

Lemma elem_of_push_set g peer l s x :
  x ∈ push_set g peer l s ↔
  ∃ e, (s, e) ∈ l ∧ se_pool_group e = g ∧ se_dst_peer e = peer ∧ entry_push e = x.
Proof.
  unfold push_set, schedule_pushes. rewrite elem_of_list_to_set, list_elem_of_fmap.
  setoid_rewrite list_elem_of_filter. setoid_rewrite list_elem_of_fmap.
  setoid_rewrite list_elem_of_filter. split.
  - intros (e & -> & [? ?] & [s' e'] & -> & Hs & Hl). cbn in Hs. subst. eauto.
  - intros (e & He & ? & ? & <-). exists e. split; [done|]. split; [done|]. by exists (s, e).
Qed.

Lemma zsum_ext {A} (f g : A → Z) l : (∀ x, x ∈ l → f x = g x) → zsum f l = zsum g l.
Proof.
  unfold zsum. induction l as [|x l IH]; cbn; [done|]. intros H.
  rewrite (H x), IH by set_solver. done.
Qed.
Lemma zsum_update {A} (f g : A → Z) l i :
  NoDup l → i ∈ l → (∀ x, x ≠ i → f x = g x) → zsum f l = zsum g l + (f i - g i).
Proof.
  intros Hnd Hi Hne. induction Hnd as [|x l Hx Hnd IH]; [set_solver|]. unfold zsum in *. cbn.
  apply elem_of_cons in Hi as [->|Hi].
  - pose proof (zsum_ext f g l ltac:(intros y Hy; apply Hne; set_solver)) as E. unfold zsum in E. lia.
  - rewrite (Hne x) by set_solver. rewrite IH by done. lia.
Qed.

Lemma dst_pushes_streams (parallelism : Z) (pairs : TransferPairs) (v : RaidenId) (units : list RaidenId) :
  0 <= parallelism → NoDup units → dom pairs ⊆ list_to_set units →
  dst_pushes parallelism pairs v = streams parallelism units (λ s, recorded pairs s v).
Proof.
  intros Hp Hnd. unfold dst_pushes, streams. induction pairs as [|s by_dst pairs Hs IH] using map_ind.
  { intros _. rewrite map_fold_empty. unfold zsum. induction units as [|x units IH]; [done|]. cbn.
    apply NoDup_cons in Hnd as [_ Hnd]. rewrite <- IH by done.
    unfold recorded. rewrite lookup_empty. cbn. rewrite lookup_empty. cbn. rewrite size_empty. lia. }
  rewrite dom_insert. intros Hd. rewrite map_fold_insert_L; [|intros; do 2 case_match; lia|done].
  rewrite IH by set_solver.
  rewrite (zsum_update (λ s0, Z.min parallelism (Z.of_nat (size (recorded (<[s:=by_dst]> pairs) s0 v))))
    (λ s0, Z.min parallelism (Z.of_nat (size (recorded pairs s0 v)))) units s Hnd); [|set_solver|].
  - unfold recorded. rewrite lookup_insert_eq, Hs. cbn. rewrite lookup_empty. cbn. rewrite size_empty.
    destruct (by_dst !! v); cbn; rewrite ?size_empty; lia.
  - intros x Hx. unfold recorded. by rewrite lookup_insert_ne.
Qed.

Lemma declared_for_ok units src_pools_of registrations tag declared :
  declared_for units src_pools_of registrations tag = Ok declared →
  ∀ u entry, (u, entry) ∈ declared →
    u ∈ units ∧ is_Some (pools_by_tag (src_pools_of u) !! tag) ∧
    ∃ reg, registrations !! u = Some reg ∧ entry ∈ rb_pool_spans reg.
Proof.
  intros (l & Hl & ->)%fmap_Ok u entry Hin. apply mapM_Ok in Hl.
  apply list_elem_of_In, in_concat in Hin as (l1 & Hl1 & Hin).
  apply in_concat in Hl1 as (l2 & Hl2 & Hl1).
  apply list_elem_of_In in Hl2. apply list_elem_of_In in Hl1. apply list_elem_of_In in Hin.
  apply list_elem_of_lookup in Hl2 as (i & Hi). destruct (Forall2_lookup_r _ _ _ _ _ Hl Hi) as (v & Hv & E).
  apply mapM_Ok in E. apply list_elem_of_lookup in Hl1 as (j & Hj).
  destruct (Forall2_lookup_r _ _ _ _ _ E Hj) as (en & Hen & Ee).
  unfold entry_declared in Ee.
  do 2 (case_match; [simplify_eq; set_solver|]). case_bool_decide as Ht; simplify_eq.
  apply list_elem_of_singleton in Hin. simplify_eq.
  split; [by eapply list_elem_of_lookup_2|]. split; [by apply not_eq_None_Some|].
  apply list_elem_of_lookup_2 in Hen. destruct (registrations !! v) as [reg|]; [eauto|set_solver].
Qed.

Lemma split_declared_units tag_skip tag_end dst_live declared ge cb converted ge' cb' :
  split_declared tag_skip tag_end dst_live declared ge cb = Ok (converted, ge', cb') →
  converted.*1 = declared.*1.
Proof.
  revert ge cb converted; induction declared as [|[u entry] declared IH]; intros ge cb converted;
    cbn [split_declared]; [by intros [= <-]|].
  case_match.
  - do 2 (case_match; [done|]). intros ([[c ge1] cb1] & E & [= <- <- <-])%bind_Ok.
    cbn. f_equal. by eapply IH.
  - intros (st & Es & ([[c ge1] cb1] & E & [= <- <- <-])%bind_Ok)%bind_Ok. cbn. f_equal. by eapply IH.
Qed.

Lemma ordered_units declared o : o ∈ ordered_spans declared → os_unit o ∈ declared.*1.
Proof.
  intros (ue & (s & -> & _)%list_elem_of_fmap & Hue)%list_elem_of_bind. cbn.
  by apply list_elem_of_fmap_2.
Qed.

Section planning.
Context (r : PlanRequest) (dst_pools : list PoolSpecProto) (src_pools_of : RaidenId → list PoolSpecProto).
Context (dst_peers : PeersByUnit) (parallelism : Z).
Context (registrations : gmap RaidenId RequestBlockRegistration).
Context (Hun : NoDup (pr_dst_units r)) (Hsrc : NoDup (pr_src_units r)) (Hpar : 0 < parallelism).
Context (Hpeers : NoDup ((λ v, dst_peers !!! v) <$> pr_dst_units r)).
Context (Hregs : ∀ u reg entry, registrations !! u = Some reg → entry ∈ rb_pool_spans reg →
  Forall span_ok (ps_spans entry)).

(** The emission of a group, from the point of view of its destinations. *)
Lemma group_emission declared tg pc clipped extents g em em' :
  tag_ready dst_pools tg pc → Forall (λ ue, Forall span_ok (ps_spans ue.2)) declared →
  declared.*1 ⊆ pr_src_units r → em_pairs em = ∅ →
  ValidateSpanCoverage declared (length (pr_dst_units r)) (length (tg_dst_ids tg)) (tp_src_live pc)
    (tp_dst_live pc) clipped = Ok extents →
  EmitSpanSchedule declared (pr_dst_units r) dst_peers (tg_dst_ids tg) pc g em = Ok em' →
  ∃ new, all_entries (em_schedules em') ≡ₚ all_entries (em_schedules em) ++ new ∧
    Forall (λ ue, se_pool_group ue.2 = g) new ∧
    (∀ v, v ∈ pr_dst_units r → dst_pushes parallelism (em_pairs em') v =
       streams parallelism (pr_src_units r) (push_set g (dst_peers !!! v) new)) ∧
    ∀ d b u B, pr_dst_units r !! d = Some u → tg_dst_ids tg !! b = Some B →
      ∃ e, extents !! b = Some e ∧ 0 < e ∧ (S b ≠ length (tg_dst_ids tg) → e = tp_dst_live pc) ∧
        (λ c : Copy, c.2) <$> written g (dst_peers !!! u) B new ≡ₚ slice (dst_live_bytes pc) 0 e.
Proof.
  intros [Hpc _ _ Hids _ _ _] Hok Hsub Hem Hcov Hemit.
  pose proof (merge_sort_Permutation ordered_le (ordered_spans declared)) as HP.
  destruct (emit_spans_emission pc (pr_dst_units r) dst_peers (tg_dst_ids tg) g
    (merge_sort ordered_le (ordered_spans declared)) em em') as (new & [Hall Hgr Hrec Hsend]); try done.
  { rewrite HP. by eapply covered_spans_in. }
  assert (∀ o, o ∈ merge_sort ordered_le (ordered_spans declared) → os_unit o ∈ pr_src_units r) as Hsnd.
  { intros o Ho. rewrite HP in Ho. by apply Hsub, ordered_units. }
  exists new. split; [done|]. split; [eapply Forall_impl; [exact Hgr|naive_solver]|]. split.
  - intros v Hv. rewrite (dst_pushes_streams _ _ _ (pr_src_units r)); [|lia|done|].
    + apply zsum_ext. intros s _. do 3 f_equal. apply set_eq. intros x.
      rewrite Hrec, elem_of_push_set by done. rewrite Hem. unfold recorded, pushes_of.
      rewrite lookup_empty. cbn. rewrite lookup_empty. cbn. rewrite Forall_forall in Hgr. split.
      * intros [?|(e & He & ? & ?)]; [set_solver|]. exists e. destruct (Hgr _ He). done.
      * intros (e & ? & _ & ? & ?). right. by exists e.
    + rewrite Hem in Hsend. intros s Hs%Hsend. rewrite dom_empty_L in Hs.
      apply elem_of_union in Hs as [Hs|Hs]; [set_solver|].
      apply elem_of_list_to_set, list_elem_of_fmap in Hs as (o & -> & Ho).
      apply elem_of_list_to_set. by apply Hsnd.
  - intros d b u B Hu HB.
    destruct (covered_bytes _ _ _ _ _ _ Hpc Hok Hcov d b u B Hu HB) as (e & He & Hpos & Hlast & Hb).
    destruct (emitted_copies _ _ _ dst_peers _ _ _ Hpc Hok Hcov d b u B Hu HB _ _ _ Hun Hpeers Hids Hemit)
      as (copies & Hc & Hw).
    exists e. split; [done|]. split; [done|]. split; [done|].
    rewrite (written_Permutation _ _ _ _ _ Hall), written_app in Hw.
    apply Permutation_app_inv_l in Hw. by rewrite Hw, Hc.
Qed.

Lemma plan_group_ok g tg pc st st' :
  tag_ready dst_pools tg pc →
  plan_group r dst_pools src_pools_of dst_peers parallelism registrations g tg pc st = Ok st' →
  ∃ group new, gr_groups st' = gr_groups st ++ [group] ∧
    gr_selected st' = gr_selected st ++ pg_pool_indices group ∧
    all_entries (gr_schedules st') ≡ₚ all_entries (gr_schedules st) ++ new ∧
    Forall (λ ue, se_pool_group ue.2 = g) new ∧
    group_done (pr_src_units r) (pr_dst_units r) dst_peers parallelism g tg pc group new.
Proof.
  intros Hready (declared & Hd & E)%bind_Ok. case_bool_decide; [done|].
  apply bind_Ok in E as ([converted clipped] & Hsplit & E). case_match; [done|].
  apply bind_Ok in E as (extents & Hcov & (em & Hem & E)%bind_Ok).
  cbn zeta in E. destruct (existsb _ (pr_dst_units r)); [done|]. injection E as <-.
  cbn [gr_groups gr_schedules gr_selected].
  pose proof (declared_for_ok _ _ _ _ _ Hd) as Hdecl.
  pose proof Hready as [Hpc _ _ _ Hlive [Hsk Hws] _].
  assert (tp_dst_live pc <= INT64_MAX) as Hmax.
  { destruct Hpc as [_ (lim & Hlim & Hw) _ -> _]. pose proof (live_total_bound _ _ _ _ Hw (proj1 Hlim)). lia. }
  assert (Forall (λ ue, Forall span_ok (ps_spans ue.2)) converted) as Hok.
  { eapply SplitGlobalSpaceSpans_ok; [..|exact Hsplit]; [lia|by destruct (0 <? _)|].
    apply Forall_forall. intros [u entry] Hin. destruct (Hdecl _ _ Hin) as (_ & _ & reg & Hr & He). eauto. }
  assert (converted.*1 ⊆ pr_src_units r) as Hsub.
  { apply bind_Ok in Hsplit as ([[c ge] cb1] & Es & H'). do 2 (case_match; [done|]). injection H' as <- <-.
    rewrite (split_declared_units _ _ _ _ _ _ _ _ _ Es).
    intros u ([u' entry] & -> & Hin)%list_elem_of_fmap. by apply (Hdecl _ _ Hin). }
  destruct (group_emission converted tg pc clipped extents g (mkEmit (gr_schedules st) (gr_emitted st) ∅) em
    Hready Hok Hsub eq_refl Hcov Hem)
    as (new & Hall & Hg & Hpush & Hbytes).
  eexists _, new. split; [done|]. split; [done|]. split; [exact Hall|]. split; [done|]. split; [done|done| |].
  - intros d b u B Hu HB. cbn. destruct (Hbytes d b u B Hu HB) as (e & He & Hpos & Hlast & Hw).
    exists e. split; [done|]. split; [done|]. split; [|done]. intros Hne. rewrite (Hlast Hne).
    by rewrite (pc_dst_live _ Hpc).
  - intros v Hv. cbn. rewrite <- Hpush by done. apply elem_of_list_to_map_1.
    + rewrite <- list_fmap_compose. unfold compose. cbn. by rewrite list_fmap_id.
    + apply list_elem_of_fmap. by exists v.
Qed.

Lemma written_other g peer B l :
  Forall (λ ue : RaidenId * ScheduleEntry, se_pool_group ue.2 ≠ g) l → written g peer B l = [].
Proof.
  intros Hl. unfold written. induction Hl as [|ue l Hue _ IH]; [done|]. by rewrite filter_cons_False by naive_solver.
Qed.

(** A group's guarantees do not depend on the entries of other groups. *)
Lemma group_done_other g tg pc group before new after :
  Forall (λ ue : RaidenId * ScheduleEntry, se_pool_group ue.2 ≠ g) before →
  Forall (λ ue : RaidenId * ScheduleEntry, se_pool_group ue.2 ≠ g) after →
  group_done (pr_src_units r) (pr_dst_units r) dst_peers parallelism g tg pc group new →
  group_done (pr_src_units r) (pr_dst_units r) dst_peers parallelism g tg pc group
    (before ++ new ++ after).
Proof.
  intros Hb Ha [H1 H2 H3 H4]. split; [done|done| |].
  - intros d b u B Hu HB. rewrite !written_app, (written_other _ _ _ before), (written_other _ _ _ after) by done.
    rewrite app_nil_l, app_nil_r. eauto.
  - intros v Hv. rewrite (H4 v Hv). do 2 f_equal. apply zsum_ext. intros s _. do 3 f_equal.
    apply set_eq. intros x. rewrite !elem_of_push_set. setoid_rewrite elem_of_app. setoid_rewrite elem_of_app.
    rewrite Forall_forall in Hb, Ha. split; [naive_solver|].
    intros (e & [He|[He|He]] & Hg & Hrest); [by destruct (Hb _ He)|eauto|by destruct (Ha _ He)].
Qed.

Lemma plan_groups_ok g tags st st' :
  Forall (λ tp, tag_ready dst_pools tp.1 tp.2) tags →
  plan_groups r dst_pools src_pools_of dst_peers parallelism registrations g tags st = Ok st' →
  ∃ groups new, gr_groups st' = gr_groups st ++ groups ∧
    gr_selected st' = gr_selected st ++ (groups ≫= pg_pool_indices) ∧
    all_entries (gr_schedules st') ≡ₚ all_entries (gr_schedules st) ++ new ∧
    Forall (λ ue, g <= se_pool_group ue.2) new ∧ length groups = length tags ∧
    ∀ i tg pc, tags !! i = Some (tg, pc) → ∃ group, groups !! i = Some group ∧
      group_done (pr_src_units r) (pr_dst_units r) dst_peers parallelism (g + Z.of_nat i) tg pc group new.
Proof.
  intros Ht. revert g st; induction Ht as [|[tg pc] tags Ht _ IH]; intros g st; cbn [plan_groups].
  { intros [= <-]. exists [], []. cbn. rewrite !app_nil_r. done. }
  intros (st1 & E1 & E)%bind_Ok.
  destruct (plan_group_ok _ _ _ _ _ Ht E1) as (group & n1 & G1 & S1 & A1 & F1 & D1).
  destruct (IH _ _ E) as (groups & n2 & G2 & S2 & A2 & F2 & L2 & D2).
  exists (group :: groups), (n1 ++ n2). rewrite G2, G1, S2, S1, A2, A1, bind_cons, <- !app_assoc.
  split; [done|]. split; [done|]. split; [done|]. split.
  { apply Forall_app. split; (eapply Forall_impl; [eassumption|]); cbn; lia. }
  split; [cbn; by rewrite L2|]. intros [|i] tg' pc' Hi; cbn in Hi.
  - injection Hi as <- <-. exists group. split; [done|]. rewrite Z.add_0_r.
    rewrite <- (app_nil_l (n1 ++ n2)). apply group_done_other; [constructor| |done].
    eapply Forall_impl; [exact F2|]. cbn. lia.
  - destruct (D2 i tg' pc' Hi) as (group' & Hg & Hd). exists group'. split; [done|].
    rewrite <- (app_nil_r n2). replace (g + Z.of_nat (S i)) with (g + 1 + Z.of_nat i) by lia.
    apply group_done_other; [|constructor|done].
    eapply Forall_impl; [exact F1|]. cbn. lia.
Qed.
End planning.

(** ** What the prechecks of a request establish *)
Lemma select_metadata_ok requested metadata acc result :
  select_metadata requested metadata acc = Ok result →
  (∀ u m, result !! u = Some m → acc !! u = Some m ∨ m ∈ metadata) ∧
  (∀ u m, acc !! u = Some m → result !! u = Some m) ∧
  (∀ m, m ∈ metadata → RaidenIdFromProto (rq_unit m) ∈ requested →
     result !! RaidenIdFromProto (rq_unit m) = Some m).
Proof.
  revert acc; induction metadata as [|item rest IH]; intros acc; cbn [select_metadata].
  { intros [= <-]. set_solver. }
  case_bool_decide as Hreq; cbn.
  - case_bool_decide as Hdup; [done|]. intros (H1 & H2 & H3)%IH.
    assert (acc !! RaidenIdFromProto (rq_unit item) = None) as Hn by (by apply eq_None_not_Some).
    split; [|split].
    + intros u m [[[<- <-]|[_ ?]]%lookup_insert_Some|?]%H1; set_solver.
    + intros u m Hm. apply H2. rewrite lookup_insert_ne; [done|congruence].
    + intros m [->|Hm]%elem_of_cons Hr; [|by apply H3]. apply H2, lookup_insert_eq.
  - intros (H1 & H2 & H3)%IH. split; [|split; [done|]].
    + intros u m [?|?]%H1; set_solver.
    + intros m [->|Hm]%elem_of_cons Hr; [done|by apply H3].
Qed.

(** The pools a unit's metadata lists are pools of the request's metadata. *)
Lemma MetadataByUnit_pools metadata units by_unit (P : PoolSpecProto → Prop) u :
  MetadataByUnit metadata units = Ok by_unit → Forall (λ m, Forall P (rq_pools m)) metadata →
  Forall P (rq_pools (default empty_request (by_unit !! u))).
Proof.
  intros (result & Hs & E)%bind_Ok HP. case_match; [done|]. injection E as <-.
  destruct (result !! u) as [m|] eqn:Eu; [|constructor].
  destruct (select_metadata_ok _ _ _ _ Hs) as (H1 & _ & _).
  destruct (H1 _ _ Eu) as [?|Hm]; [by rewrite lookup_empty in *|].
  rewrite Forall_forall in HP. by apply HP.
Qed.

Lemma reference_units_ok units pools_of geometry reference result tag u :
  reference_units units pools_of geometry reference = Ok result → result !! tag = Some u →
  reference !! tag = Some u ∨ u ∈ units ∧ is_Some (pools_by_tag (pools_of u) !! tag).
Proof.
  revert geometry reference; induction units as [|v units IH]; intros geometry reference;
    cbn [reference_units]; [intros [= <-]; auto|].
  case_match; [done|]. intros E Hu. destruct (IH _ _ E Hu) as [Hr|[Hin Hs]]; [|set_solver].
  apply lookup_union_Some_raw in Hr as [Hr|[_ Hr]]; [by left|right].
  rewrite !lookup_fmap in Hr. destruct (pools_by_tag (pools_of v) !! tag) eqn:Et; [|done].
  cbn in Hr. injection Hr as <-. rewrite Et. split; [set_solver|eauto].
Qed.

Lemma tags_match_length dst_pools src_pools tag ls ld :
  tags_match dst_pools src_pools = true →
  pools_by_tag src_pools !! tag = Some ls → pools_by_tag dst_pools !! tag = Some ld →
  length ld = length ls.
Proof.
  unfold tags_match. rewrite forallb_forall. intros H Hs Hd.
  specialize (H (tag, ls)). cbn in H. rewrite Hd in H.
  assert (In (tag, ls) (map_to_list (pools_by_tag src_pools))) as Hin
    by (by apply list_elem_of_In, elem_of_map_to_list).
  apply H, bool_decide_eq_true_1, (f_equal length) in Hin. by rewrite !length_fmap in Hin.
Qed.

(** Counts, skips and windows. *)
Lemma i64_le z : - 2 ^ 63 <= z → i64 z <= z.
Proof. intros. unfold i64. pose proof (Z.mod_le (z + 2 ^ 63) (2 ^ 64)). lia. Qed.
Lemma foldl_i64_le counts t :
  - 2 ^ 63 <= t → Forall (λ c, 0 < c) counts → foldl (λ s c, i64 (s + c)) t counts <= t + zsum id counts.
Proof.
  intros Ht Hc. revert t Ht; induction Hc as [|c counts Hc _ IH]; intros t Ht; cbn; [lia|].
  pose proof (i64_range (t + c)) as Hr. pose proof (i64_le (t + c) ltac:(lia)).
  pose proof (IH (i64 (t + c)) ltac:(lia)). unfold zsum, id in *. lia.
Qed.
Lemma zsum_nonneg counts : Forall (λ c, 0 < c) counts → 0 <= zsum id counts.
Proof. unfold zsum, id. induction 1; cbn; lia. Qed.

Lemma split_ids_concat counts ids :
  Forall (λ c, 0 < c) counts → concat (split_ids counts ids) = take (Z.to_nat (zsum id counts)) ids.
Proof.
  intros Hc. revert ids; induction Hc as [|c counts Hc Hcs IH]; intros ids; cbn [split_ids concat]; [done|].
  rewrite IH. pose proof (zsum_nonneg counts Hcs).
  replace (zsum id (c :: counts)) with (c + zsum id counts) by done.
  rewrite Z2Nat.inj_add by lia. by rewrite take_take_drop.
Qed.

Lemma block_counts_ok tags counts ids result :
  block_counts tags counts ids = Ok result →
  length result = length tags ∧ concat (split_ids result ids) = ids.
Proof.
  unfold block_counts. destruct counts as [|c counts].
  - destruct tags as [|t [|]]; try done. intros [= <-]. split; [done|]. cbn.
    rewrite Nat2Z.id, app_nil_r. by apply firstn_all.
  - generalize (c :: counts) as cs. intros cs. case_match eqn:El; [done|]. case_match eqn:Es; [done|].
    intros [= <-]. apply negb_false_iff, Z.eqb_eq in El.
    apply orb_false_iff in Es as [Hpos Hsum%negb_false_iff%Z.eqb_eq].
    assert (Forall (λ c, 0 < c) cs) as Hc.
    { apply Forall_forall. intros x Hx. destruct (Z.lt_ge_cases 0 x) as [|Hle]; [done|].
      assert (existsb (λ c, c <=? 0) cs = true) as Ht by
        (apply existsb_exists; exists x; split; [by apply list_elem_of_In|lia]). congruence. }
    split; [lia|]. rewrite split_ids_concat by done. apply take_ge.
    pose proof (foldl_i64_le cs 0 ltac:(lia) Hc). lia.
Qed.

Lemma tag_skips_ok tags skips result :
  tag_skips tags skips = Ok result → length result = length tags ∧ Forall (λ s, 0 <= s) result.
Proof.
  unfold tag_skips. destruct skips as [|s0 skips].
  - intros [= <-]. rewrite length_replicate. split; [done|]. apply Forall_replicate. lia.
  - generalize (s0 :: skips) as ss. intros ss. case_match eqn:El; [done|]. case_match eqn:Ee; [done|].
    intros [= <-]. apply negb_false_iff, Z.eqb_eq in El. split; [lia|].
    apply Forall_forall. intros x Hx. destruct (Z.le_gt_cases 0 x) as [|Hlt]; [done|].
    assert (existsb (λ s, s <? 0) ss = true) as Ht by
      (apply existsb_exists; exists x; split; [by apply list_elem_of_In|lia]). congruence.
Qed.

Lemma tag_windows_ok tags counts offsets totals result :
  tag_windows tags counts offsets totals = Ok result →
  length result = length tags ∧ ∀ wc, wc ∈ zip result counts → 0 <= wc.1.1.
Proof.
  unfold tag_windows. case_match.
  - intros [= <-]. rewrite length_replicate. split; [done|].
    intros wc Hin%zip_elem_l. apply list_elem_of_lookup in Hin as (i & Hi).
    apply lookup_replicate in Hi as [-> _]. done.
  - case_match eqn:El; [done|]. case_match eqn:Ee; [done|]. intros [= <-].
    apply orb_false_iff in El as [El1%negb_false_iff%Z.eqb_eq El2%negb_false_iff%Z.eqb_eq].
    split; [rewrite length_zip_with; lia|].
    intros [[o t] c] Hin. cbn. destruct (Z.le_gt_cases 0 o) as [|Hlt]; [done|].
    match type of Ee with existsb ?f ?l = _ => assert (existsb f l = true) as Ht end; [|congruence].
    apply existsb_exists. exists ((o, t), c). split; [by apply list_elem_of_In|].
    destruct (Z.ltb_spec o 0); [done|lia].
Qed.

(** The aligned per-tag lists. *)
Lemma tag_plans_ok tags ids skips windows counts :
  length ids = length tags → length skips = length tags → length windows = length tags →
  length counts = length tags →
  let plans := tag_plans tags ids skips windows counts in
  tg_tag <$> plans = tags ∧ tg_dst_ids <$> plans = ids ∧
  Forall (λ tg, tg_skip tg ∈ skips ∧ (tg_window tg, tg_count tg) ∈ zip windows counts) plans.
Proof.
  revert ids skips windows counts; induction tags as [|t tags IH];
    intros [|i ids] [|s skips] [|w windows] [|c counts]; try done. cbn. intros Hi Hs Hw Hc.
  destruct (IH ids skips windows counts) as (H1 & H2 & H3); [lia..|].
  rewrite H1, H2. split; [done|]. split; [done|]. constructor; [set_solver|].
  eapply Forall_impl; [exact H3|]. cbn. set_solver.
Qed.
Lemma length_split_ids counts ids : length (split_ids counts ids) = length counts.
Proof. revert ids; induction counts as [|c counts IH]; intros ids; cbn; [done|]. by rewrite IH. Qed.

Record prepared (r : PlanRequest) (pre : Prepared) : Prop := {
  pre_pools : ∀ m, m ∈ pr_dst_metadata r → head (pr_dst_units r) = Some (RaidenIdFromProto (rq_unit m)) →
    rq_pools m = pp_dst_pools pre;
  pre_tags : tg_tag <$> (pp_tags pre).*1 = pr_transfer_pool_tags r;
  pre_ids : concat (tg_dst_ids <$> (pp_tags pre).*1) = pr_dst_device_block_ids r;
  pre_ready : Forall (λ tp, tag_ready (pp_dst_pools pre) tp.1 tp.2) (pp_tags pre);
  pre_src : NoDup (pr_src_units r);
  pre_dst : NoDup (pr_dst_units r);
  pre_par : 0 < pp_parallelism pre;
}.

(** The manifests of a request are as registration accepted them. *)
Definition manifests_ok (r : PlanRequest) : Prop :=
  Forall (λ m, Forall manifest_ok (rq_pools m)) (pr_src_metadata r) ∧
  Forall (λ m, Forall manifest_ok (rq_pools m)) (pr_dst_metadata r).

Lemma requested_parallelism_pos SimpleAtoi raw_env requested topology p :
  requested_parallelism SimpleAtoi raw_env requested topology = Ok p → 0 < p.
Proof. intros (q & _ & E)%bind_Ok. do 2 (case_match; [done|]). simplify_eq. lia. Qed.

Lemma reference_lengths r dst_pools src_pools_of reference tag u :
  forallb (λ u, tags_match dst_pools (src_pools_of u)) (pr_src_units r) = true →
  reference_units (pr_src_units r) src_pools_of ∅ ∅ = Ok reference → reference !! tag = Some u →
  (length (selected_pools dst_pools tag) <=
   length (default [] (pools_by_tag (src_pools_of u) !! tag)))%nat.
Proof.
  intros Hm Hr Hu. destruct (reference_units_ok _ _ _ _ _ _ _ Hr Hu) as [?|[Hin [ls Hs]]];
    [by rewrite lookup_empty in *|].
  unfold selected_pools. destruct (pools_by_tag dst_pools !! tag) as [ld|] eqn:Ed; [|cbn; lia].
  rewrite Hs. cbn. rewrite forallb_forall in Hm.
  rewrite (tags_match_length dst_pools (src_pools_of u) tag ls ld); [done| |done|done].
  apply Hm. by apply list_elem_of_In.
Qed.

Tactic Notation "bind_ok" hyp(H) "as" "()" ident(Hx) := apply bind_Ok in H as (? & Hx & H).
Tactic Notation "bind_ok" hyp(H) "as" ident(x) ident(Hx) := apply bind_Ok in H as (x & Hx & H).

Lemma prepare_plan_ok SimpleAtoi raw_env r pre :
  manifests_ok r → prepare_plan SimpleAtoi raw_env r = Ok pre → prepared r pre.
Proof.
  intros [Hsm Hdm] E. bind_ok E as () Hreq. bind_ok E as src Hsrc. bind_ok E as dst Hdst.
  bind_ok E as () Hmeta. bind_ok E as () Hm. bind_ok E as () Hgeo. bind_ok E as reference Href.
  bind_ok E as () Hct. bind_ok E as counts Hcounts. bind_ok E as skips Hskips.
  bind_ok E as windows Hwin. bind_ok E as () Hav. bind_ok E as topology Htop.
  bind_ok E as ranks Hranks. bind_ok E as parallelism Hpar. bind_ok E as prechecks Hpc.
  injection E as <-. apply guard_arg_ok in Hm.
  bind_ok Hreq as () H1. bind_ok Hreq as () H2. bind_ok Hreq as () H3.
  bind_ok Hreq as () Hns. bind_ok Hreq as () Hnd.
  apply guard_arg_ok, no_duplicates_ok in Hns. apply guard_arg_ok, no_duplicates_ok in Hnd.
  clear H1 H2 H3.
  destruct (block_counts_ok _ _ _ _ Hcounts) as [Lc Hcat].
  destruct (tag_skips_ok _ _ _ Hskips) as [Ls Hsk].
  destruct (tag_windows_ok _ _ _ _ _ Hwin) as [Lw Hwn].
  destruct (tag_plans_ok (pr_transfer_pool_tags r) (split_ids counts (pr_dst_device_block_ids r)) skips
    windows counts) as (Ht & Hi & Hf); [by rewrite length_split_ids|done..|].
  set (plans := tag_plans _ _ _ _ _) in *. apply mapM_Ok in Hpc. cbn zeta in Hpc.
  pose proof (Forall2_length _ _ _ Hpc) as Lp.
  split; cbn [pp_dst_pools pp_tags pp_parallelism]; try done.
  - intros m Hin Hhead. destruct (pr_dst_units r) as [|u units] eqn:Eu; [done|]. injection Hhead as ->.
    apply bind_Ok in Hdst as (result & Hsel & E). case_match; [done|]. injection E as <-.
    destruct (select_metadata_ok _ _ _ _ Hsel) as (_ & _ & H3). rewrite H3; [done|done|set_solver].
  - by rewrite fst_zip by lia.
  - rewrite fst_zip by lia. by rewrite Hi.
  - apply Forall_lookup. intros i [tg pc] Hlk. apply lookup_zip_with_Some in Hlk as (tg' & pc' & [= <- <-] & H1 & H2).
    pose proof (Forall2_lookup_lr _ _ _ _ _ _ Hpc H1 H2) as Hc. cbn in Hc.
    rewrite Forall_lookup in Hf. destruct (Hf i tg H1) as [Hf1 Hf2]. rewrite Forall_forall in Hsk.
    apply tag_precheck_ok in Hc; [done|by apply Hsk|apply (Hwn _ Hf2)| | |].
    + destruct (pr_dst_units r); [constructor|]. by eapply MetadataByUnit_pools.
    + intros u. by eapply MetadataByUnit_pools.
    + intros u Hu.
      exact (reference_lengths r _ (λ u, rq_pools (default empty_request (src !! u))) _ _ _ Hm Href Hu).
  - by eapply requested_parallelism_pos.
Qed.

(** ** The built plan *)

(** The registered spans are as registration means them: no extent overflows. *)
Definition registered_spans_ok (s : RequestBlockRegistry) : Prop :=
  ∀ k row entry, request_blocks_ s !! k = Some row → entry ∈ rb_pool_spans row →
    Forall span_ok (ps_spans entry).

Lemma LookupAndClaim_rows ttl now req_id uuid units owner s result s' :
  LookupAndClaim ttl now req_id uuid units owner s = (Ok result, s') →
  ∀ u row, result !! u = Some row → request_blocks_ s !! (req_id, u) = Some row.
Proof.
  unfold LookupAndClaim. intros E u row Hu. do 2 (case_match; [done|]).
  destruct (collect_rows _ _ _ _ _) as [rows|] eqn:Ec; [|done].
  assert (rows = result) as -> by (repeat case_match; by simplify_eq).
  destruct (collect_rows_ok _ _ _ _ _ _ ltac:(by intros ? ? ?%lookup_empty_Some) Ec) as [H1 _].
  by apply H1, proj1, purge_row in Hu as [Hu _].
Qed.

Lemma destination_peers_ok dst_units meta_of peers :
  NoDup dst_units → destination_peers dst_units meta_of = Ok peers →
  NoDup ((λ v, peers !!! v) <$> dst_units) ∧
  ∀ v, v ∈ dst_units → peers !!! v = default EmptyString (head (rq_shards (meta_of v))).
Proof.
  unfold destination_peers. intros Hnd E. case_match eqn:Es; [done|]. injection E as <-.
  set (f := λ u, default EmptyString (head (rq_shards (meta_of u)))) in *.
  apply negb_false_iff, Z.eqb_eq in Es.
  assert (∀ v, v ∈ dst_units → (list_to_map (zip dst_units (f <$> dst_units)) : PeersByUnit) !!! v = f v) as Hv.
  { intros v (i & Hi)%list_elem_of_lookup. apply lookup_total_correct, elem_of_list_to_map_1.
    - by rewrite fst_zip by (rewrite length_fmap; lia).
    - apply list_elem_of_lookup. exists i. rewrite lookup_zip_with, Hi. cbn. by rewrite list_lookup_fmap, Hi. }
  split; [|done].
  rewrite (Forall_fmap_ext_1 _ f dst_units) by (apply Forall_forall; done).
  apply NoDup_of_size. rewrite length_fmap. lia.
Qed.

Lemma group_done_Permutation senders dst_units dst_peers parallelism g tg pc group l l' :
  l ≡ₚ l' → group_done senders dst_units dst_peers parallelism g tg pc group l →
  group_done senders dst_units dst_peers parallelism g tg pc group l'.
Proof.
  intros Hl [H1 H2 H3 H4]. split; [done|done| |].
  - intros d b u B Hu HB. destruct (H3 d b u B Hu HB) as (e & He & Hp & Hlast & Hw). exists e.
    split; [done|]. split; [done|]. split; [done|]. by rewrite <- (written_Permutation _ _ _ _ _ Hl).
  - intros v Hv. rewrite (H4 v Hv). do 2 f_equal. apply zsum_ext. intros s _. do 3 f_equal.
    apply set_eq. intros x. rewrite !elem_of_push_set. by setoid_rewrite Hl.
Qed.

(** A built plan: its groups are the requested tags', and each is done. *)
Lemma BuildPoolReshardPlan_inv SimpleAtoi raw_env ttl now r owner s plan s' :
  manifests_ok r → registered_spans_ok s →
  BuildPoolReshardPlan SimpleAtoi raw_env ttl now r owner s = (Ok plan, s') →
  ∃ pre, prepared r pre ∧ plan_parallelism plan = i32 (pp_parallelism pre) ∧
    length (plan_pool_groups plan) = length (pp_tags pre) ∧
    NoDup (plan_pool_groups plan ≫= pg_pool_indices) ∧
    ∀ i tg pc, pp_tags pre !! i = Some (tg, pc) → ∃ group, plan_pool_groups plan !! i = Some group ∧
      group_done (pr_src_units r) (pr_dst_units r) (plan_dst_peers plan) (pp_parallelism pre)
        (Z.of_nat i) tg pc group (all_entries (plan_schedules plan)).
Proof.
  intros Hman Hreg. unfold BuildPoolReshardPlan.
  destruct (prepare_plan _ _ _) as [pre|] eqn:Ep; [|done]. apply prepare_plan_ok in Ep; [|done].
  destruct (LookupAndClaim _ _ _ _ _ _ _) as [[regs|] s1] eqn:El; [|done]. intros [= E _].
  bind_ok E as peers Hpeers. bind_ok E as st Hst. case_match eqn:Ed; [done|]. injection E as <-.
  apply negb_false_iff, no_duplicates_ok in Ed.
  destruct (destination_peers_ok _ _ _ (pre_dst _ _ Ep) Hpeers) as [Hnd _].
  pose proof Ep as [_ _ _ Hready Hsrc Hdst Hpar].
  destruct (plan_groups_ok r (pp_dst_pools pre) (pp_src_pools_of pre) peers (pp_parallelism pre) regs
    Hdst Hsrc Hpar Hnd) with (2 := Hready) (3 := Hst) as (groups & new & HG & HS & HA & _ & HL & HD).
  { intros u reg entry Hu He. eapply Hreg; [|exact He]. by eapply LookupAndClaim_rows. }
  cbn in HG, HS, HA. exists pre. cbn. rewrite HG. rewrite HS in Ed.
  split; [done|]. split; [done|]. split; [done|]. split; [done|].
  intros i tg pc Hi. destruct (HD i tg pc Hi) as (group & Hg & Hd). exists group. split; [done|].
  apply (group_done_Permutation _ _ _ _ _ _ _ _ new); [|exact Hd].
  rewrite HA. unfold all_entries. by rewrite map_to_list_empty.
Qed.

(** C7: A built plan is complete and exact.  When [BuildPoolReshardPlan] succeeds on
    registered manifests and spans, its groups are the requested tags in order,
    together they hold the request's destination block ids, and they use disjoint
    destination pools.  Every pool of a group carries the group's tag and the same
    live map; and on every destination unit, every block of the group is written
    exactly once per byte over its expected extent by the whole schedule, the
    extent being the block's full live size except possibly for the last block. *)
Theorem reshard_plan_exact SimpleAtoi raw_env ttl now r owner s plan s' m :
  manifests_ok r → registered_spans_ok s →
  BuildPoolReshardPlan SimpleAtoi raw_env ttl now r owner s = (Ok plan, s') →
  m ∈ pr_dst_metadata r → head (pr_dst_units r) = Some (RaidenIdFromProto (rq_unit m)) →
  concat (pg_dst_device_block_ids <$> plan_pool_groups plan) = pr_dst_device_block_ids r ∧
  NoDup (plan_pool_groups plan ≫= pg_pool_indices) ∧
  ∀ g tag, pr_transfer_pool_tags r !! g = Some tag →
  ∃ group segs, plan_pool_groups plan !! g = Some group ∧ pg_pool_indices group ≠ [] ∧
    (∀ i, i ∈ pg_pool_indices group →
       pp_tag (pool_at (rq_pools m) i) = tag ∧ LiveSegments (pool_at (rq_pools m) i) = Ok segs) ∧
    ∀ d b u B, pr_dst_units r !! d = Some u → pg_dst_device_block_ids group !! b = Some B →
    ∃ e, pg_dst_expected_extent_bytes group !! b = Some e ∧ 0 < e ∧
      (S b ≠ length (pg_dst_device_block_ids group) → e = Z.of_nat (length (segment_bytes segs))) ∧
      (λ c : Copy, c.2) <$> written (Z.of_nat g) (plan_dst_peers plan !!! u) B
                              (all_entries (plan_schedules plan))
        ≡ₚ slice (segment_bytes segs) 0 e.
Proof.
  intros Hman Hreg HB Hm Hhead.
  destruct (BuildPoolReshardPlan_inv _ _ _ _ _ _ _ _ _ Hman Hreg HB) as (pre & Hpre & _ & HL & Hnd & HD).
  pose proof Hpre as [Hpools Htags Hids Hready _ _ _]. rewrite (Hpools m Hm Hhead).
  split; [|split; [done|]].
  - rewrite <- Hids. f_equal. apply list_eq_same_length with (n := length (pp_tags pre));
      [by rewrite !length_fmap|by rewrite length_fmap|].
    intros i x y _ Hx Hy. rewrite list_lookup_fmap in Hx. rewrite !list_lookup_fmap in Hy.
    destruct (pp_tags pre !! i) as [[tg pc]|] eqn:Et; [|done]. cbn in Hy.
    destruct (HD i tg pc Et) as (group & Hg & Hd). rewrite Hg in Hx. cbn in Hx.
    rewrite (gd_ids _ _ _ _ _ _ _ _ _ Hd) in Hx. congruence.
  - intros g tag Htag. rewrite <- Htags, !list_lookup_fmap in Htag.
    destruct (pp_tags pre !! g) as [[tg pc]|] eqn:Et; [|done]. cbn in Htag. injection Htag as <-.
    destruct (HD g tg pc Et) as (group & Hg & [Hp Hi Hb _]).
    rewrite Forall_lookup in Hready. destruct (Hready g _ Et) as [_ Hsel Hne _ _ _ Hmaps]. cbn in *.
    exists group, (tp_dst_segments pc). rewrite Hp, Hi. split; [done|]. split; [done|]. split.
    + intros i Hin. split; [|by apply Hmaps]. rewrite Hsel in Hin. unfold selected_pools in Hin.
      destruct (pools_by_tag _ !! tg_tag tg) as [l|] eqn:El; [|set_solver].
      by apply (pool_at_tagged _ _ _ _ El).
    + exact Hb.
Qed.

(** C20: Senders and receivers agree on the number of pushes.  For every group and
    destination unit of a built plan, the number of pushes the receiver is told to
    expect is the number of streams the schedule makes the source units open to
    it: per sender, its distinct (source block, destination block) pushes to that
    peer, capped at the plan's parallelism (stored as int32). *)
Theorem expected_pushes_match_schedule SimpleAtoi raw_env ttl now r owner s plan s' :
  manifests_ok r → registered_spans_ok s →
  BuildPoolReshardPlan SimpleAtoi raw_env ttl now r owner s = (Ok plan, s') →
  ∃ parallelism, 0 < parallelism ∧ plan_parallelism plan = i32 parallelism ∧
  ∀ g group u, plan_pool_groups plan !! g = Some group → u ∈ pr_dst_units r →
  pg_expected_pushes_by_dst group !! u =
    Some (i32 (streams parallelism (pr_src_units r) (λ src,
      schedule_pushes (Z.of_nat g) (plan_dst_peers plan !!! u)
        (default [] (plan_schedules plan !! src))))).
Proof.
  intros Hman Hreg HB.
  destruct (BuildPoolReshardPlan_inv _ _ _ _ _ _ _ _ _ Hman Hreg HB) as (pre & Hpre & Hpar & HL & _ & HD).
  exists (pp_parallelism pre). split; [apply Hpre|]. split; [done|]. intros g group u Hg Hu.
  destruct (lookup_lt_is_Some_2 (pp_tags pre) g) as [[tg pc] Et].
  { rewrite <- HL. by eapply lookup_lt_Some. }
  destruct (HD g tg pc Et) as (group' & Hg' & Hd). rewrite Hg in Hg'. injection Hg' as <-.
  rewrite (gd_pushes _ _ _ _ _ _ _ _ _ Hd u Hu). do 2 f_equal. apply zsum_ext. intros src _.
  do 3 f_equal. apply set_eq. intros x. rewrite elem_of_push_set. unfold schedule_pushes.
  rewrite elem_of_list_to_set, list_elem_of_fmap. setoid_rewrite list_elem_of_filter.
  setoid_rewrite elem_of_all_entries. naive_solver.
Qed.

(** ** A built plan: two producer ranks, each filling half of one destination page *)
Definition meta_ex (u : RaidenId) (shard : string) (pool : PoolSpecProto) (rank : Z)
    : RegisterWorkUnitRequest :=
  mkWorkUnitRequest (RaidenIdToProto u) [shard] "rpc" 0 [] [] [] [pool] "layout" 0 2 rank [].
Definition src_pool_ex : PoolSpecProto :=
  mkPoolProto "fa" 0 0 8 8 [mkRegionProto "kv" 0 8 8 1 1] "bf16".
Definition dst_pool_ex : PoolSpecProto :=
  mkPoolProto "fa" 0 0 32 8 [mkRegionProto "k" 0 3 3 1 1; mkRegionProto "v" 16 5 5 1 1] "bf16".
Definition request_ex : PlanRequest :=
  mkPlanRequest [unit_a; unit_b] [unit_d]
    [meta_ex unit_a "a:1" src_pool_ex 0; meta_ex unit_b "b:1" src_pool_ex 1]
    [meta_ex unit_d "d:1" dst_pool_ex 0] "r" 7 [7] 16 ["fa"%string] (Some 1) [] [] [] [] 0.
Definition registry_ex : RequestBlockRegistry :=
  mkRegistry {[ ("r"%string, unit_a) := mkRow 7 [2] 100 [half 2 0];
                ("r"%string, unit_b) := mkRow 7 [5] 100 [half 5 4] ]} ∅ ∅ ∅ ∅ ∅.
Definition build_ex : StatusOr PoolReshardPlan * RequestBlockRegistry :=
  BuildPoolReshardPlan (λ _, None) None 100 1 request_ex 1 registry_ex.
Definition plan_ex : PoolReshardPlan :=
  ok_or (assemble_plan request_ex [] [] (λ _, []) (λ _, 0) [] ∅ 1 [] (mkGroups ∅ 0 [] [] [])) build_ex.1.

Lemma build_ex_ok : build_ex = (Ok plan_ex, build_ex.2).
Proof.
  unfold plan_ex. rewrite <- (ok_or_eq _ build_ex.1) by (vm_compute; reflexivity). by destruct build_ex.
Qed.
Lemma manifests_ex_ok : manifests_ok request_ex.
Proof.
  assert (manifest_ok src_pool_ex ∧ manifest_ok dst_pool_ex) as [Hs Hd].
  { split; intros spec [= <-]; (split; cbn; [unfold INT64_MAX; lia|lia|lia|]);
      repeat constructor; cbn; unfold packed, INT64_MAX; cbn; lia. }
  split; repeat first [apply Forall_nil_2 | apply Forall_cons_2]; done.
Qed.
Lemma registry_ex_ok : registered_spans_ok registry_ex.
Proof.
  intros k row entry. cbn. rewrite lookup_insert_Some, lookup_singleton_Some.
  intros [[_ <-]|[_ [_ <-]]] ->%list_elem_of_singleton;
    repeat constructor; cbn; unfold kMaxSpanCount, INT64_MAX; lia.
Qed.


Definition group_ex : PlanPoolGroup := mkGroup [0] [7] {[unit_d := 2]} [8] 0.
Lemma plan_ex_group : plan_pool_groups plan_ex !! 0%nat = Some group_ex.
Proof. vm_compute. reflexivity. Qed.
Lemma dst_pool_ex_live : LiveSegments (pool_at [dst_pool_ex] 0) = Ok [mkSegment 0 0 3; mkSegment 3 16 5].
Proof. vm_compute. reflexivity. Qed.

Lemma reshard_plan_exact_witness :
  (λ c : Copy, c.2) <$> written 0 (plan_dst_peers plan_ex !!! unit_d) 7
    (all_entries (plan_schedules plan_ex)) ≡ₚ [0; 1; 2; 16; 17; 18; 19; 20].
Proof.
  destruct (reshard_plan_exact (λ _, None) None 100 1 request_ex 1 registry_ex plan_ex build_ex.2
    (meta_ex unit_d "d:1" dst_pool_ex 0) manifests_ex_ok registry_ex_ok build_ex_ok) as (_ & _ & H);
    [apply list_elem_of_here|reflexivity|].
  destruct (H 0%nat "fa"%string eq_refl) as (group & segs & Hg & _ & Hmap & Hb).
  rewrite plan_ex_group in Hg. injection Hg as <-.
  destruct (Hmap 0 (list_elem_of_here _ _)) as [_ Hl]. cbn [rq_pools meta_ex] in Hl.
  rewrite dst_pool_ex_live in Hl. injection Hl as <-.
  destruct (Hb 0%nat 0%nat unit_d 7 eq_refl eq_refl) as (e & He & _ & _ & Hw).
  cbn in He. injection He as <-. exact Hw.
Defined.

Lemma expected_pushes_match_schedule_witness :
  ∃ parallelism, 0 < parallelism ∧
    Some 2 = Some (i32 (streams parallelism [unit_a; unit_b] (λ src,
      schedule_pushes 0 (plan_dst_peers plan_ex !!! unit_d)
        (default [] (plan_schedules plan_ex !! src))))).
Proof.
  destruct (expected_pushes_match_schedule (λ _, None) None 100 1 request_ex 1 registry_ex plan_ex
    build_ex.2 manifests_ex_ok registry_ex_ok build_ex_ok) as (p & Hp & _ & H).
  exists p. split; [exact Hp|].
  exact (H 0%nat group_ex unit_d plan_ex_group (list_elem_of_here _ _)).
Defined.

(** Counts that overflow int64 pass the sum check. *)
Lemma block_counts_accepts_wrapping_sum :
  block_counts ["a"; "b"; "c"]%string [INT64_MAX; INT64_MAX; 3] [0]
    = Ok [INT64_MAX; INT64_MAX; 3].
Proof. vm_compute. reflexivity. Qed.
