(* ===== verification/PlanEntries.v ===== *)
(** * PlanEntries: what the entries of a built plan look like
    (EmitSpanSchedule and BuildPoolReshardPlan of
     src/tpu_sync/kv_cache/reshard/pool_reshard_planner.cc)

    Every schedule entry comes from a span its sender declared for the group's tag:
    it is in range, it reads live bytes of the sender's blocks and writes live bytes
    of the destination's.  From this follow the routing facts the coordinator
    relies on and that no planned copy leaves its block. *)

From S2P Require Import Prelude RaidenTypes PoolLayout WorkUnitDirectory RequestBlockRegistry.
From S2P Require Import PoolReshardPlanner WireTypes BuildReshardPlan.

(** ** The shape of an emitted entry *)
Record planned_entry (pc : TagPrecheck) (dst_ids : list Z) (g : Z) (e : ScheduleEntry) : Prop := {
  pl_count : 0 < se_count e < 2 ^ 31;
  pl_size : 0 < se_size_bytes e;
  pl_src : 0 <= se_src_offset_bytes e ∧ 0 <= se_src_stride_bytes e;
  pl_dst : 0 <= se_dst_offset_bytes e ∧ 0 <= se_dst_stride_bytes e;
  pl_shard : se_dst_shard_idx e = 0;
  pl_group : se_pool_group e = g;
  pl_block : se_dst_block_id e ∈ dst_ids;
  pl_bytes : ∀ st, st ∈ entry_pairs e →
    st.1 ∈ segment_bytes (tp_src_segments pc) ∧ st.2 ∈ segment_bytes (tp_dst_segments pc);
}.

Lemma segs_wf_bytes limit logical lo segs x :
  segs_wf limit logical lo segs → x ∈ segment_bytes segs → lo <= x < limit.
Proof.
  revert logical lo; induction segs as [|s segs IH]; intros logical lo; [set_solver|].
  rewrite segment_bytes_cons. intros (_ & Hlo & Hs & Hl & Hw) [Hx%elem_of_seqZ|Hx]%elem_of_app; [lia|].
  specialize (IH _ _ Hw Hx). lia.
Qed.

Lemma slice_elem (l : list Z) off size x : x ∈ slice l off size → x ∈ l.
Proof.
  unfold slice. intros Hx. rewrite <- (take_drop (Z.to_nat off) l). apply elem_of_app. right.
  rewrite <- (take_drop (Z.to_nat size) (drop _ l)). apply elem_of_app. by left.
Qed.

Lemma zip_elem {A B} (l : list A) (k : list B) x : x ∈ zip l k → x.1 ∈ l ∧ x.2 ∈ k.
Proof.
  revert k; induction l as [|a l IH]; intros [|b k]; cbn; set_solver.
Qed.

Section emitted.
Context (pc : TagPrecheck) (Hpc : precheck_ok pc) (dst_units : list RaidenId) (dst_peers : PeersByUnit).
Context (dst_ids : list Z) (g : Z).

Lemma live_nonneg :
  (∀ x, x ∈ segment_bytes (tp_src_segments pc) → 0 <= x) ∧
  (∀ x, x ∈ segment_bytes (tp_dst_segments pc) → 0 <= x).
Proof.
  destruct Hpc as [(l1 & _ & W1) (l2 & _ & W2) _ _ _].
  split; intros x Hx; [pose proof (segs_wf_bytes _ _ _ _ x W1 Hx)|pose proof (segs_wf_bytes _ _ _ _ x W2 Hx)]; lia.
Qed.

Lemma chunk_entries_planned s so do_ chunks targets sb db e :
  span_ok s → so + size_bytes s <= tp_src_live pc → do_ + size_bytes s <= tp_dst_live pc →
  TranslateLiveCopy (tp_src_segments pc) (tp_dst_segments pc) so do_ (size_bytes s) = Ok chunks →
  db ∈ dst_ids → e ∈ chunk_entries dst_peers targets sb db g chunks → planned_entry pc dst_ids g e.
Proof.
  intros Hs H1 H2 Ht Hdb He.
  destruct (TranslateLiveCopy_sound pc Hpc _ _ _ _ (sok_size _ Hs) H1 H2 Ht) as (Hsrc & Hdst & Hpos).
  apply list_elem_of_bind in He as (c & (dst & -> & _)%list_elem_of_fmap & Hc).
  rewrite Forall_forall in Hpos. specialize (Hpos c Hc). destruct live_nonneg as [Ls Ld].
  assert (∀ x, x ∈ seqZ (src_physical c) (chunk_size c) → x ∈ segment_bytes (tp_src_segments pc)) as Is.
  { intros x Hx. apply (slice_elem _ so (size_bytes s)). rewrite <- Hsrc. apply list_elem_of_bind. by exists c. }
  assert (∀ x, x ∈ seqZ (dst_physical c) (chunk_size c) → x ∈ segment_bytes (tp_dst_segments pc)) as Id.
  { intros x Hx. apply (slice_elem _ do_ (size_bytes s)). rewrite <- Hdst. apply list_elem_of_bind. by exists c. }
  split; cbn; try done; try lia.
  - split; [|lia]. apply Ls, Is, elem_of_seqZ. lia.
  - split; [|lia]. apply Ld, Id, elem_of_seqZ. lia.
  - intros st (k & Hz & _)%list_elem_of_bind. cbn [se_src_offset_bytes se_src_stride_bytes se_dst_offset_bytes
      se_dst_stride_bytes se_size_bytes] in Hz. rewrite !Z.mul_0_r, !Z.add_0_r in Hz.
    destruct (zip_elem _ _ _ Hz). auto.
Qed.

Lemma strided_entry_planned s peer sb db :
  span_in pc dst_units dst_ids s → tp_identity_maps pc = true → db ∈ dst_ids →
  planned_entry pc dst_ids g (mkEntry peer 0 (dst_offset_bytes s) (src_offset_bytes s) (size_bytes s) sb db
    (src_stride_bytes s) (dst_stride_bytes s) (span_count s) 0 g).
Proof.
  intros Hin Hid Hdb. pose proof Hin as (Hs & _).
  pose proof (strided_entry_copies pc Hpc dst_units dst_ids g (mkRaidenId "" "" "" 0) sb s peer db Hin Hid) as Hc.
  destruct Hs as [H1 H2 H3 H4 _ _ _]. split; cbn; try done; [unfold kMaxSpanCount in *; lia|].
  intros st Hst.
  assert (st ∈ span_pairs (tp_src_segments pc) (tp_dst_segments pc) s) as Hsp.
  { unfold entry_copies in Hc. cbn [fst snd se_src_block_id] in Hc.
    apply list_fmap_eq_inj in Hc; [by rewrite <- Hc|]. intros [] [] [= -> ->]. done. }
  unfold span_pairs in Hsp. apply list_elem_of_bind in Hsp as (k & Hz & _).
  destruct (zip_elem _ _ _ Hz) as [Ha Hb]. split; by eapply slice_elem.
Qed.

(** An emission adds entries of its sender only, and no empty schedule. *)
Definition adds (P : RaidenId → Prop) (m m' : SchedulesByUnit) : Prop :=
  (map_Forall (λ _ es, es ≠ []) m → map_Forall (λ _ es, es ≠ []) m') ∧
  ∀ u e, (u, e) ∈ all_entries m' → (u, e) ∈ all_entries m ∨ P u ∧ planned_entry pc dst_ids g e.

Lemma adds_refl P m : adds P m m.
Proof. split; auto. Qed.
Lemma adds_trans (P : RaidenId → Prop) m1 m2 m3 : adds P m1 m2 → adds P m2 m3 → adds P m1 m3.
Proof. intros [A1 A2] [B1 B2]. split; [auto|]. intros u e H. destruct (B2 u e H); [|auto]. auto. Qed.

Lemma push_entries_adds (P : RaidenId → Prop) u entries m :
  P u → (∀ e, e ∈ entries → planned_entry pc dst_ids g e) → adds P m (push_entries u entries m).
Proof.
  intros Hu He. split.
  - intros Hm. unfold push_entries. destruct entries as [|e es]; [done|]. apply map_Forall_insert_2; [|done].
    intros E%app_eq_nil. naive_solver.
  - intros u' e H. rewrite push_entries_all in H. apply elem_of_app in H as [H|H]; [by left|right].
    apply list_elem_of_fmap in H as (e' & [= -> ->] & He'). auto.
Qed.

Lemma emit_repeats_adds (P : RaidenId → Prop) s targets u sb db repeats m em m' em' :
  P u → span_in pc dst_units dst_ids s → db ∈ dst_ids → Forall (λ k, 0 <= k < span_count s) repeats →
  emit_repeats pc dst_peers targets u sb db g s repeats m em = Ok (m', em') → adds P m m'.
Proof.
  intros HP (Hs & _ & _ & Hse & Hde) Hdb Hk. revert m em; induction Hk as [|k repeats Hk _ IH]; intros m em;
    cbn [emit_repeats].
  { intros [= <- <-]. apply adds_refl. }
  pose proof Hs as [H1 H2 [H3 H4] [H5 H6] _ H7 H8]. unfold INT64_MAX in *.
  pose proof (repeat_bounds k _ _ Hk H4). pose proof (repeat_bounds k _ _ Hk H6).
  rewrite (i64_small (k * src_stride_bytes s)), (i64_small (k * dst_stride_bytes s)) by lia.
  rewrite (i64_small (src_offset_bytes s + _)), (i64_small (dst_offset_bytes s + _)) by lia.
  intros (chunks & Et & E)%bind_Ok. case_match; [done|]. eapply adds_trans; [|by eapply IH].
  apply push_entries_adds; [done|]. intros e He.
  eapply (chunk_entries_planned s); [done| | |exact Et|exact Hdb|exact He]; lia.
Qed.

Lemma emit_spans_adds (P : RaidenId → Prop) os st st' :
  Forall (λ o, span_in pc dst_units dst_ids (os_span o) ∧ P (os_unit o)) os →
  emit_spans dst_units dst_peers dst_ids pc g os st = Ok st' → adds P (em_schedules st) (em_schedules st').
Proof.
  intros Hos. revert st; induction Hos as [|o os [Ho HP] _ IH]; intros st; cbn [emit_spans].
  { intros [= <-]. apply adds_refl. }
  intros (st1 & E1 & E)%bind_Ok. eapply adds_trans; [|by eapply IH]. revert E1. unfold emit_span.
  assert (dst_ids !!! Z.to_nat (dst_block_index (os_span o)) ∈ dst_ids) as Hdb.
  { destruct Ho as (Hs & _ & Hlt & _). pose proof (sok_index _ Hs).
    apply list_elem_of_lookup_total_2. lia. }
  destruct ((1 <? span_count (os_span o)) && tp_identity_maps pc) eqn:Eid.
  - apply andb_true_iff in Eid as [_ Hid]. case_match; [done|]. intros [= <-]. cbn [em_schedules].
    apply push_entries_adds; [done|]. intros e (dst & -> & _)%list_elem_of_fmap. by apply strided_entry_planned.
  - intros ([m em] & E2 & [= <-])%bind_Ok. cbn [em_schedules].
    eapply (emit_repeats_adds P (os_span o)); [exact HP|exact Ho|exact Hdb| |exact E2].
    apply Forall_forall. intros k Hk%elem_of_seqZ. lia.
Qed.
End emitted.

(** ** The entries of a group and of a plan *)
Section planned.
Context (r : PlanRequest) (dst_pools : list PoolSpecProto) (src_pools_of : RaidenId → list PoolSpecProto).
Context (dst_peers : PeersByUnit) (parallelism : Z).
Context (registrations : gmap RaidenId RequestBlockRegistration).
Context (Hregs : ∀ u reg entry, registrations !! u = Some reg → entry ∈ rb_pool_spans reg →
  Forall span_ok (ps_spans entry)).

(** The senders of a tag are source units that registered pools of it. *)
Definition tag_sender (tag : string) (u : RaidenId) : Prop :=
  u ∈ pr_src_units r ∧ is_Some (pools_by_tag (src_pools_of u) !! tag).

Lemma plan_group_adds g tg pc st st' :
  tag_ready dst_pools tg pc →
  plan_group r dst_pools src_pools_of dst_peers parallelism registrations g tg pc st = Ok st' →
  adds pc (tg_dst_ids tg) g (tag_sender (tg_tag tg)) (gr_schedules st) (gr_schedules st').
Proof.
  intros Hready (declared & Hd & E)%bind_Ok. case_bool_decide; [done|].
  apply bind_Ok in E as ([converted clipped] & Hsplit & E). case_match; [done|].
  apply bind_Ok in E as (extents & Hcov & (em & Hem & E)%bind_Ok).
  cbn zeta in E. destruct (existsb _ (pr_dst_units r)); [done|]. injection E as <-. cbn [gr_schedules].
  pose proof (declared_for_ok _ _ _ _ _ Hd) as Hdecl.
  pose proof Hready as [Hpc _ _ _ Hlive [Hsk Hws] _].
  assert (tp_dst_live pc <= INT64_MAX) as Hmax.
  { destruct Hpc as [_ (lim & Hlim & Hw) _ -> _]. pose proof (live_total_bound _ _ _ _ Hw (proj1 Hlim)). lia. }
  assert (Forall (λ ue, Forall span_ok (ps_spans ue.2)) converted) as Hok.
  { eapply SplitGlobalSpaceSpans_ok; [..|exact Hsplit]; [lia|by destruct (0 <? _)|].
    apply Forall_forall. intros [u entry] Hin. destruct (Hdecl _ _ Hin) as (_ & _ & reg & Hr & He). eauto. }
  assert (∀ u, u ∈ converted.*1 → tag_sender (tg_tag tg) u) as Hsub.
  { apply bind_Ok in Hsplit as ([[c ge] cb1] & Es & H'). do 2 (case_match; [done|]). injection H' as <- <-.
    rewrite (split_declared_units _ _ _ _ _ _ _ _ _ Es).
    intros u ([u' entry] & -> & Hin)%list_elem_of_fmap. destruct (Hdecl _ _ Hin) as (? & ? & _). by split. }
  eapply (emit_spans_adds pc Hpc (pr_dst_units r) dst_peers (tg_dst_ids tg) g) in Hem; [exact Hem|].
  rewrite merge_sort_Permutation. apply Forall_forall. intros o Ho. split.
  - assert (Forall (λ o, span_in pc (pr_dst_units r) (tg_dst_ids tg) (os_span o)) (ordered_spans converted)) as Hin
      by (apply ordered_spans_in; [done|]; by eapply ValidateSpanCoverage_inv).
    rewrite Forall_forall in Hin. by apply Hin.
  - by apply Hsub, ordered_units.
Qed.

Lemma plan_groups_adds g tags st st' u e :
  Forall (λ tp, tag_ready dst_pools tp.1 tp.2) tags →
  plan_groups r dst_pools src_pools_of dst_peers parallelism registrations g tags st = Ok st' →
  (map_Forall (λ _ es, es ≠ []) (gr_schedules st) → map_Forall (λ _ es, es ≠ []) (gr_schedules st')) ∧
  ((u, e) ∈ all_entries (gr_schedules st') → (u, e) ∈ all_entries (gr_schedules st) ∨
     ∃ i tg pc, tags !! i = Some (tg, pc) ∧ tag_sender (tg_tag tg) u ∧ planned_entry pc (tg_dst_ids tg) (g + Z.of_nat i) e).
Proof.
  intros Ht. revert g st; induction Ht as [|[tg pc] tags Ht _ IH]; intros g st; cbn [plan_groups].
  { intros [= <-]. auto. }
  intros (st1 & E1 & E)%bind_Ok. destruct (plan_group_adds _ _ _ _ _ Ht E1) as [A1 A2].
  destruct (IH _ _ E) as [B1 B2]. split; [auto|]. intros Hin.
  destruct (B2 Hin) as [Hin1|(i & tg' & pc' & Hi & Hs & He)].
  - destruct (A2 u e Hin1) as [?|[Hs He]]; [by left|]. right. exists 0%nat, tg, pc.
    rewrite Z.add_0_r. done.
  - right. exists (S i), tg', pc'. split; [done|]. split; [done|].
    by replace (g + Z.of_nat (S i)) with (g + 1 + Z.of_nat i) by lia.
Qed.

(** The destination blocks of a group exist in each of its pools. *)
Lemma plan_group_blocks g tg pc st st' :
  plan_group r dst_pools src_pools_of dst_peers parallelism registrations g tg pc st = Ok st' →
  ∀ b i, b ∈ tg_dst_ids tg → i ∈ tp_selected pc → b < pp_num_blocks (pool_at dst_pools i).
Proof.
  intros (declared & Hd & E)%bind_Ok b i Hb Hi. case_bool_decide; [done|].
  apply bind_Ok in E as ([converted clipped] & Hsplit & E). case_match eqn:Er; [done|]. clear E.
  apply negb_false_iff, Is_true_eq_left, forallb_True in Er. rewrite Forall_forall in Er.
  apply list_elem_of_lookup in Hi as [k Hk].
  pose proof (Er k) as Hr. rewrite andb_True in Hr. destruct Hr as [_ Hr].
  { apply elem_of_seq. pose proof (lookup_lt_Some _ _ _ Hk). lia. }
  apply forallb_True in Hr. rewrite Forall_forall in Hr.
  specialize (Hr b Hb). rewrite (list_lookup_total_correct _ _ _ Hk) in Hr. by apply Z.ltb_lt, Is_true_eq_true.
Qed.

Lemma plan_groups_blocks g tags st st' i tg pc :
  plan_groups r dst_pools src_pools_of dst_peers parallelism registrations g tags st = Ok st' →
  tags !! i = Some (tg, pc) →
  ∀ b j, b ∈ tg_dst_ids tg → j ∈ tp_selected pc → b < pp_num_blocks (pool_at dst_pools j).
Proof.
  revert g st i; induction tags as [|[tg' pc'] tags IH]; intros g st i; [done|]. cbn [plan_groups].
  intros (st1 & E1 & E)%bind_Ok Hi. destruct i as [|i]; [|by eapply IH].
  injection Hi as -> ->. by eapply plan_group_blocks.
Qed.
End planned.

(** ** Inverting the whole build *)
Record built (SimpleAtoi : string → option Z) (raw_env : option string) (r : PlanRequest)
    (s : RequestBlockRegistry) (plan : PoolReshardPlan) (pre : Prepared) (st : GroupState) : Prop := {
  bt_prepare : prepare_plan SimpleAtoi raw_env r = Ok pre;
  bt_prepared : prepared r pre;
  bt_selected : NoDup (gr_selected st);
  bt_groups : ∃ registrations, (∀ u reg entry, registrations !! u = Some reg → entry ∈ rb_pool_spans reg →
      Forall span_ok (ps_spans entry)) ∧
    plan_groups r (pp_dst_pools pre) (pp_src_pools_of pre) (plan_dst_peers plan) (pp_parallelism pre)
      registrations 0 (pp_tags pre) (mkGroups ∅ 0 [] [] []) = Ok st;
  bt_peers : destination_peers (pr_dst_units r) (pp_dst_meta_of pre) = Ok (plan_dst_peers plan);
  bt_plan : plan = assemble_plan r (pp_all_metadata pre) (pp_dst_pools pre) (pp_src_pools_of pre)
    (pp_rank_of pre) (pp_ranks pre) (plan_dst_peers plan) (pp_parallelism pre) (pp_tags pre).*2 st;
}.

Lemma built_plan SimpleAtoi raw_env ttl now r owner s plan s' :
  manifests_ok r → registered_spans_ok s →
  BuildPoolReshardPlan SimpleAtoi raw_env ttl now r owner s = (Ok plan, s') →
  ∃ pre st, built SimpleAtoi raw_env r s plan pre st.
Proof.
  intros Hman Hreg. unfold BuildPoolReshardPlan.
  destruct (prepare_plan _ _ _) as [pre|] eqn:Ep; [|done].
  destruct (LookupAndClaim _ _ _ _ _ _ _) as [[regs|] s1] eqn:El; [|done]. intros [= E _].
  bind_ok E as peers Hpeers. bind_ok E as st Hst. case_match eqn:Ed; [done|]. injection E as <-.
  exists pre, st. split; try done.
  - by apply (prepare_plan_ok SimpleAtoi raw_env).
  - by apply negb_false_iff, no_duplicates_ok in Ed.
  - exists regs. split; [|exact Hst]. intros u reg entry Hu He. eapply Hreg; [|exact He].
    by eapply LookupAndClaim_rows.
Qed.

Section built_facts.
Context {SimpleAtoi : string → option Z} {raw_env : option string} {r : PlanRequest}.
Context {s : RequestBlockRegistry} {plan : PoolReshardPlan} {pre : Prepared} {st : GroupState}.
Context (Hb : built SimpleAtoi raw_env r s plan pre st).

Lemma built_groups_ok :
  length (plan_pool_groups plan) = length (pp_tags pre) ∧
  NoDup (plan_pool_groups plan ≫= pg_pool_indices) ∧
  ∀ i tg pc, pp_tags pre !! i = Some (tg, pc) → ∃ group, plan_pool_groups plan !! i = Some group ∧
    group_done (pr_src_units r) (pr_dst_units r) (plan_dst_peers plan) (pp_parallelism pre) (Z.of_nat i) tg pc
      group (all_entries (plan_schedules plan)).
Proof.
  destruct Hb as [_ Hp Hsel (regs & Hregs & Hg) Hpeers Hplan].
  destruct (destination_peers_ok _ _ _ (pre_dst _ _ Hp) Hpeers) as [Hnd _].
  destruct (plan_groups_ok r (pp_dst_pools pre) (pp_src_pools_of pre) (plan_dst_peers plan) (pp_parallelism pre)
    regs (pre_dst _ _ Hp) (pre_src _ _ Hp) (pre_par _ _ Hp) Hnd Hregs) with (1 := pre_ready _ _ Hp) (2 := Hg)
    as (groups & new & HG & HS & HA & _ & HL & HD).
  assert (plan_pool_groups plan = groups) as -> by (rewrite Hplan; exact HG).
  assert (all_entries (plan_schedules plan) ≡ₚ new) as Hnew.
  { rewrite Hplan. cbn [plan_schedules assemble_plan]. rewrite HA. unfold all_entries. cbn [gr_schedules].
    by rewrite map_to_list_empty. }
  split; [done|]. split; [by rewrite HS in Hsel|]. intros i tg pc Hi.
  destruct (HD i tg pc Hi) as (group & Hgi & Hd). exists group. split; [done|].
  by apply (group_done_Permutation _ _ _ _ _ _ _ _ new).
Qed.

Lemma built_groups g group :
  plan_pool_groups plan !! g = Some group →
  ∃ tg pc, pp_tags pre !! g = Some (tg, pc) ∧ pg_pool_indices group = tp_selected pc ∧
    pg_dst_device_block_ids group = tg_dst_ids tg ∧ tag_ready (pp_dst_pools pre) tg pc ∧
    tp_selected pc = selected_pools (pp_dst_pools pre) (tg_tag tg).
Proof.
  intros Hgr. destruct built_groups_ok as (HL & _ & HD). destruct (lookup_lt_is_Some_2 (pp_tags pre) g) as [[tg pc] Ht].
  { rewrite <- HL. by eapply lookup_lt_Some. }
  exists tg, pc. destruct (HD g tg pc Ht) as (group' & Hg' & [Hsel Hids _ _]). rewrite Hgr in Hg'. injection Hg' as <-.
  pose proof (proj1 (Forall_lookup _ _) (pre_ready _ _ (bt_prepared _ _ _ _ _ _ _ Hb)) g _ Ht) as Hready. cbn in Hready.
  split; [done|]. split; [done|]. split; [done|]. split; [done|]. apply Hready.
Qed.

Lemma built_entries u entries :
  plan_schedules plan !! u = Some entries → entries ≠ [] ∧ ∀ e, e ∈ entries →
  ∃ i tg pc, pp_tags pre !! i = Some (tg, pc) ∧ tag_sender r (pp_src_pools_of pre) (tg_tag tg) u ∧
    planned_entry pc (tg_dst_ids tg) (Z.of_nat i) e.
Proof.
  destruct Hb as [_ Hp _ (regs & Hregs & Hg) _ Hplan]. rewrite Hplan. cbn. intros Hu. split.
  - pose proof (plan_groups_adds r _ _ _ _ regs Hregs 0 _ _ _ u (mkEntry "" 0 0 0 0 0 0 0 0 0 0 0) (pre_ready _ _ Hp) Hg)
      as [Hne _]. by apply (Hne (map_Forall_empty _) u entries).
  - intros e He.
    destruct (plan_groups_adds r _ _ _ _ regs Hregs 0 _ _ _ u e (pre_ready _ _ Hp) Hg) as [_ Hall].
    assert ((u, e) ∈ all_entries (gr_schedules st)) as Hin.
    { apply list_elem_of_bind. exists (u, entries). rewrite elem_of_map_to_list.
      split; [|done]. by apply list_elem_of_fmap_2. }
    destruct (Hall Hin) as [Habs|(i & tg & pc & Hi & Hs & Hpe)]; [|by exists i, tg, pc].
    unfold all_entries in Habs. cbn in Habs. rewrite map_to_list_empty in Habs. cbn in Habs. set_solver.
Qed.
End built_facts.

Lemma LiveSegments_within p segs x :
  manifest_ok p → LiveSegments p = Ok segs → x ∈ segment_bytes segs → 0 <= x < pp_block_stride_bytes p.
Proof.
  intros Hp (spec & Hs & He)%bind_Ok Hx. pose proof (Hp _ Hs) as Hok.
  destruct (Expand_inv _ _ Hok He) as [Hw _]. pose proof (segs_wf_bytes _ _ _ _ x Hw Hx) as Hlt.
  unfold PoolSpecFromProto in Hs. case_match; [done|]. apply bind_Ok in Hs as (regions & _ & [= <-]). done.
Qed.

Lemma MetadataByUnit_elem metadata units by_unit u :
  MetadataByUnit metadata units = Ok by_unit →
  let pools := rq_pools (default empty_request (by_unit !! u)) in
  pools = [] ∨ ∃ m, m ∈ metadata ∧ pools = rq_pools m.
Proof.
  intros (result & Hs & E)%bind_Ok pools. case_match; [done|]. injection E as <-.
  destruct (select_metadata_ok _ _ _ _ Hs) as (H1 & _ & _). unfold pools.
  destruct (result !! u) as [m|] eqn:Eu; [|by left]. right. exists m. split; [|done].
  destruct (H1 _ _ Eu) as [?|Hm]; [by rewrite lookup_empty in *|done].
Qed.

Lemma prepare_request SimpleAtoi raw_env r pre :
  prepare_plan SimpleAtoi raw_env r = Ok pre →
  Forall (λ b, 0 <= b) (pr_dst_device_block_ids r) ∧
  Forall (λ u, tags_match (pp_dst_pools pre) (pp_src_pools_of pre u) = true) (pr_src_units r) ∧
  NoDup (pr_transfer_pool_tags r) ∧ source_ranks (pr_src_units r) (pp_rank_of pre) = Ok (pp_ranks pre) ∧
  (∀ u, pp_src_pools_of pre u = [] ∨ ∃ m, m ∈ pr_src_metadata r ∧ pp_src_pools_of pre u = rq_pools m) ∧
  (pp_dst_pools pre = [] ∨ ∃ m, m ∈ pr_dst_metadata r ∧ pp_dst_pools pre = rq_pools m).
Proof.
  intros E. bind_ok E as () Hreq. bind_ok E as src Hsrc. bind_ok E as dst Hdst.
  bind_ok E as () Hmeta. bind_ok E as () Hm. bind_ok E as () Hgeo. bind_ok E as reference Href.
  bind_ok E as () Hct. bind_ok E as counts Hcounts. bind_ok E as skips Hskips.
  bind_ok E as windows Hwin. bind_ok E as () Hav. bind_ok E as topology Htop.
  bind_ok E as ranks Hranks. bind_ok E as parallelism Hpar. bind_ok E as prechecks Hpc.
  injection E as <-. cbn. apply guard_arg_ok in Hm.
  bind_ok Hreq as () H1. bind_ok Hreq as () H2. bind_ok Hreq as () H3. bind_ok Hreq as () H4.
  bind_ok Hreq as () H5. bind_ok Hreq as () H6. apply guard_arg_ok, negb_true_iff in Hreq.
  bind_ok Hct as () H7. apply guard_arg_ok, no_duplicates_ok in Hct.
  split; [|split; [|split; [done|split; [done|split]]]].
  - clear -Hreq. induction (pr_dst_device_block_ids r) as [|b l IH]; [constructor|].
    apply orb_false_iff in Hreq as [Hb%Z.ltb_ge Hl]. constructor; [done|by apply IH].
  - apply Is_true_eq_left, forallb_True in Hm. eapply Forall_impl; [exact Hm|]. cbn. intros u. apply Is_true_eq_true.
  - intros u. by eapply MetadataByUnit_elem.
  - destruct (pr_dst_units r); [by left|]. by eapply MetadataByUnit_elem.
Qed.

(** C6: No planned write leaves its block.  In a plan built from accepted manifests
    and spans, every schedule entry names a group of the plan and one of the
    group's destination blocks; in every pool of the group that block exists, and
    every byte the entry writes lies inside it. *)
Theorem planned_writes_inside_blocks SimpleAtoi raw_env ttl now r owner s plan s' m u entries e :
  manifests_ok r → registered_spans_ok s →
  BuildPoolReshardPlan SimpleAtoi raw_env ttl now r owner s = (Ok plan, s') →
  m ∈ pr_dst_metadata r → head (pr_dst_units r) = Some (RaidenIdFromProto (rq_unit m)) →
  plan_schedules plan !! u = Some entries → e ∈ entries →
  ∃ group, 0 <= se_pool_group e ∧ plan_pool_groups plan !! Z.to_nat (se_pool_group e) = Some group ∧
    se_dst_block_id e ∈ pg_dst_device_block_ids group ∧
    ∀ i, i ∈ pg_pool_indices group →
    let pool := pool_at (rq_pools m) i in
    0 <= se_dst_block_id e < pp_num_blocks pool ∧
    ∀ st, st ∈ entry_pairs e → 0 <= st.2 < pp_block_stride_bytes pool.
Proof.
  intros Hman Hreg HB Hm Hhead Hu He.
  destruct (built_plan _ _ _ _ _ _ _ _ _ Hman Hreg HB) as (pre & st & Hb).
  destruct (built_entries Hb u entries Hu) as [_ Hall].
  destruct (Hall e He) as (g & tg & pc & Hg & _ & [_ _ _ _ _ Hgr Hblock Hbytes]).
  pose proof Hb as [Hprep Hp _ (regs & Hregs & Hgs) _ Hplan].
  destruct (prepare_request _ _ _ _ Hprep) as (Hids & _).
  assert (is_Some (plan_pool_groups plan !! g)) as [group Hgroup].
  { apply lookup_lt_is_Some_2. rewrite (proj1 (built_groups_ok Hb)). by eapply lookup_lt_Some. }
  destruct (built_groups Hb g group Hgroup) as (tg' & pc' & Ht' & Hsel & Hdst & Hready & _).
  rewrite Hg in Ht'. injection Ht' as <- <-.
  exists group. rewrite Hgr, Nat2Z.id, Hdst. split; [lia|]. split; [done|]. split; [done|]. rewrite Hsel.
  intros i Hi pool. unfold pool. rewrite (pre_pools _ _ Hp m Hm Hhead). split.
  - split; [|by eapply plan_groups_blocks].
    rewrite Forall_forall in Hids. apply Hids. rewrite <- (pre_ids _ _ Hp). apply list_elem_of_In, in_concat.
    exists (tg_dst_ids tg). rewrite <- !list_elem_of_In. split; [|done].
    apply list_elem_of_fmap_2, list_elem_of_fmap. exists (tg, pc). split; [done|]. by eapply list_elem_of_lookup_2.
  - intros st0 Hst. destruct (Hbytes st0 Hst) as [_ Hd]. eapply LiveSegments_within; [|by apply Hready|exact Hd].
    destruct Hman as [_ Hdm]. rewrite Forall_forall in Hdm. pose proof (Hdm m Hm) as Hpools.
    rewrite (pre_pools _ _ Hp m Hm Hhead) in Hpools. rewrite Forall_forall in Hpools. apply Hpools.
    rewrite (tr_selected _ _ _ Hready) in Hi. eapply (pool_at_selected _ (tg_tag tg)), list_elem_of_fmap_2.
    exact Hi.
Qed.

Definition entries_a_ex : list ScheduleEntry :=
  [mkEntry "d:1" 0 0 0 3 2 7 0 0 1 0 0; mkEntry "d:1" 0 16 3 1 2 7 0 0 1 0 0].
Lemma plan_ex_entries : plan_schedules plan_ex !! unit_a = Some entries_a_ex.
Proof. vm_compute. reflexivity. Qed.

(** The write of bytes 16.. of destination block 7 stays inside its 32 bytes. *)
Lemma planned_writes_inside_blocks_witness :
  0 <= 7 < 8 ∧ (∀ st, st ∈ entry_pairs (mkEntry "d:1" 0 16 3 1 2 7 0 0 1 0 0) → 0 <= st.2 < 32).
Proof.
  destruct (planned_writes_inside_blocks (λ _, None) None 100 1 request_ex 1 registry_ex plan_ex build_ex.2
    (meta_ex unit_d "d:1" dst_pool_ex 0) unit_a entries_a_ex (mkEntry "d:1" 0 16 3 1 2 7 0 0 1 0 0)
    manifests_ex_ok registry_ex_ok build_ex_ok (list_elem_of_here _ _) eq_refl plan_ex_entries
    (list_elem_of_further _ _ _ (list_elem_of_here _ _)))
    as (group & _ & Hg & _ & H).
  change (plan_pool_groups plan_ex !! 0%nat = Some group) in Hg. rewrite plan_ex_group in Hg. injection Hg as <-.
  destruct (H 0 (list_elem_of_here _ _)) as [H1 H2]. split; [exact H1|exact H2].
Defined.

(** ** Ranks and pool pairing *)
Lemma foldl_insert_lookup {A} (f : A → Z) (l : list A) (m : gmap Z A) k v :
  NoDup (f <$> l) →
  (foldl (λ m u, <[f u := u]> m) m l) !! k = Some v ↔ (v ∈ l ∧ k = f v) ∨ (k ∉ (f <$> l)) ∧ m !! k = Some v.
Proof.
  revert m; induction l as [|a l IH]; intros m; cbn [foldl fmap list_fmap]; [set_solver|].
  intros [Ha Hnd]%NoDup_cons. rewrite IH by done. rewrite lookup_insert_Some, not_elem_of_cons, elem_of_cons.
  assert (f a ∉ (f <$> l)) as Hna by done. split.
  - intros [?|[Hk [[<- <-]|[Hne Hm]]]]; [naive_solver|naive_solver|]. right. split; [|done]. split; [congruence|done].
  - intros [[[->|Hv] ->]|[[Hne Hk] Hm]].
    + right. split; [done|]. by left.
    + by left.
    + right. split; [done|]. right. split; [congruence|done].
Qed.

Lemma foldl_insert_dom {A} (f : A → Z) (l : list A) (m : gmap Z A) :
  dom (foldl (λ m u, <[f u := u]> m) m l) = list_to_set (f <$> l) ∪ dom m.
Proof.
  revert m; induction l as [|a l IH]; intros m; cbn [foldl fmap list_fmap list_to_set]; [set_solver|].
  rewrite IH, dom_insert_L. set_solver.
Qed.

Lemma source_ranks_ok units rank_of ranks :
  source_ranks units rank_of = Ok ranks →
  (∀ u, u ∈ ranks.*2 ↔ u ∈ units) ∧
  (∀ u, u ∈ units → 0 <= rank_of u < Z.of_nat (length units)) ∧
  (∀ u v, u ∈ units → v ∈ units → rank_of u = rank_of v → u = v).
Proof.
  unfold source_ranks. set (m := foldl _ _ _). destruct (Z.eqb_spec (Z.of_nat (size m)) (Z.of_nat (length units))) as [Hs|];
    [|done]. cbn [negb]. case_bool_decide as Hseq; [|done]. intros [= <-].
  assert (NoDup (rank_of <$> units)) as Hnd.
  { apply NoDup_of_size. rewrite length_fmap. pose proof (foldl_insert_dom rank_of units ∅) as Hd.
    rewrite dom_empty_L, union_empty_r_L in Hd. rewrite <- Hd. fold m. rewrite size_dom. lia. }
  assert (∀ k u, (k, u) ∈ merge_sort rank_le (map_to_list m) ↔ u ∈ units ∧ k = rank_of u) as Hin.
  { intros k u. rewrite merge_sort_Permutation, elem_of_map_to_list. unfold m.
    rewrite (foldl_insert_lookup rank_of units ∅ k u Hnd), lookup_empty. naive_solver. }
  assert (length (merge_sort rank_le (map_to_list m)) = length units) as Hlen.
  { rewrite merge_sort_Permutation, length_map_to_list. lia. }
  split; [|split].
  - intros u. rewrite list_elem_of_fmap. split; [intros ([k v] & -> & H); by apply Hin in H as [? _]|].
    intros Hu. exists (rank_of u, u). split; [done|]. by apply Hin.
  - intros u Hu. assert (rank_of u ∈ (merge_sort rank_le (map_to_list m)).*1) as Hr.
    { apply list_elem_of_fmap. exists (rank_of u, u). split; [done|]. by apply Hin. }
    rewrite Hseq, Hlen in Hr. apply elem_of_seqZ in Hr. lia.
  - intros u v [i Hi]%list_elem_of_lookup [j Hj]%list_elem_of_lookup E.
    assert (i = j) as ->; [|congruence].
    eapply (NoDup_lookup _ _ _ (rank_of u) Hnd); rewrite list_lookup_fmap; [by rewrite Hi|by rewrite Hj, E].
Qed.

Lemma list_to_map_fn {B} (f : RaidenId → B) (l : list RaidenId) u v :
  (list_to_map ((λ u, (u, f u)) <$> l) : gmap RaidenId B) !! u = Some v ↔ u ∈ l ∧ v = f u.
Proof.
  induction l as [|a l IH]; [rewrite fmap_nil, list_to_map_nil, lookup_empty; set_solver|].
  rewrite fmap_cons, list_to_map_cons, lookup_insert_Some, IH, elem_of_cons. destruct (decide (a = u)) as [->|]; naive_solver.
Qed.

(** The indices of a tag's pools are distinct and in range. *)
Lemma index_pools_bounds i pools m tag l :
  index_pools i pools m !! tag = Some l →
  (∀ l0 t, m !! t = Some l0 → NoDup l0 ∧ Forall (λ j, 0 <= j < i) l0) → 0 <= i →
  NoDup l ∧ Forall (λ j, 0 <= j < i + Z.of_nat (length pools)) l.
Proof.
  revert i m; induction pools as [|pool pools IH]; intros i m; cbn [index_pools length].
  { intros Hl Hm Hi. rewrite Z.add_0_r. by eapply Hm. }
  intros Hl Hm Hi. destruct (IH _ _ Hl) as [Hnd Hf]; [|lia|split; [done|]].
  - intros l0 t. rewrite lookup_insert_Some. intros [[<- <-]|[_ Ht]].
    + destruct (m !! pp_tag pool) as [l1|] eqn:E; cbn.
      * destruct (Hm _ _ E) as [H1 H2]. rewrite Forall_forall in H2. split.
        -- apply NoDup_app. split; [done|]. split; [|apply NoDup_singleton].
           intros x Hx ->%list_elem_of_singleton. specialize (H2 i Hx). lia.
        -- apply Forall_app. split; [|constructor; [lia|constructor]].
           apply Forall_forall. intros x Hx. specialize (H2 x Hx). lia.
      * split; [apply NoDup_singleton|constructor; [lia|constructor]].
    + destruct (Hm _ _ Ht) as [H1 H2]. split; [done|]. eapply Forall_impl; [exact H2|]. cbn. lia.
  - eapply Forall_impl; [exact Hf|]. cbn. lia.
Qed.
Lemma pools_by_tag_bounds pools tag l :
  pools_by_tag pools !! tag = Some l → NoDup l ∧ Forall (λ j, 0 <= j < Z.of_nat (length pools)) l.
Proof.
  intros Hl. destruct (index_pools_bounds 0 pools ∅ tag l Hl) as [H1 H2]; [|lia|split; [done|]].
  - intros l0 t. by rewrite lookup_empty.
  - done.
Qed.

(** The own indices a precheck pairs with its selected pools. *)
Definition paired (dst_pools src_pools : list PoolSpecProto) (pc : TagPrecheck) (k : nat) (i j : Z) : Prop :=
  ∃ first own, head (tp_selected pc) = Some first ∧
    pools_by_tag src_pools !! pp_tag (pool_at dst_pools first) = Some own ∧
    tp_selected pc !! k = Some i ∧ own !! k = Some j.

Lemma foldl_pairs_lookup (l : list (Z * Z)) (m : gmap Z Z) i j :
  foldl (λ (m : gmap Z Z) (ds : Z * Z), <[ds.1 := ds.2]> m) m l !! i = Some j →
  (i, j) ∈ l ∨ m !! i = Some j.
Proof.
  revert m; induction l as [|[a b] l IH]; intros m; cbn [foldl]; [by right|].
  intros [?|H]%IH; [left; by right|]. cbn in H. apply lookup_insert_Some in H as [[-> ->]|[_ ?]]; [left; left|by right].
Qed.
Lemma foldl_pairs_is_Some (l : list (Z * Z)) (m : gmap Z Z) i :
  i ∈ l.*1 ∨ is_Some (m !! i) →
  is_Some (foldl (λ (m : gmap Z Z) (ds : Z * Z), <[ds.1 := ds.2]> m) m l !! i).
Proof.
  revert m; induction l as [|[a b] l IH]; intros m; cbn [foldl fmap list_fmap]; [by intros [?%not_elem_of_nil|?]|].
  intros H. apply IH. cbn [fst snd]. rewrite lookup_insert_is_Some, elem_of_cons in *.
  destruct (decide (a = i)); naive_solver.
Qed.

(** One precheck's contribution. *)
Definition remap_one (dst_pools src_pools : list PoolSpecProto) (remap : gmap Z Z) (pc : TagPrecheck) : gmap Z Z :=
  match tp_selected pc with
  | [] => remap
  | first :: _ =>
      match pools_by_tag src_pools !! pp_tag (pool_at dst_pools first) with
      | None => remap
      | Some own =>
          foldl (λ (m : gmap Z Z) (ds : Z * Z), <[ds.1 := ds.2]> m) remap (zip (tp_selected pc) own)
      end
  end.

Lemma remap_one_lookup dst_pools src_pools m pc i j :
  remap_one dst_pools src_pools m pc !! i = Some j → m !! i = Some j ∨ ∃ k, paired dst_pools src_pools pc k i j.
Proof.
  unfold remap_one, paired. destruct (tp_selected pc) as [|first rest]; [by left|].
  destruct (pools_by_tag src_pools !! _) as [own|] eqn:Eo; [|by left].
  intros [Hin|?]%foldl_pairs_lookup; [|by left]. right.
  apply list_elem_of_lookup in Hin as [k Hk]. apply lookup_zip_with_Some in Hk as (a & b & [= <- <-] & Ha & Hb).
  exists k, first, own. done.
Qed.
Lemma remap_one_is_Some dst_pools src_pools m pc i :
  is_Some (m !! i) → is_Some (remap_one dst_pools src_pools m pc !! i).
Proof.
  intros H. unfold remap_one. destruct (tp_selected pc); [done|]. case_match; [|done].
  apply foldl_pairs_is_Some. by right.
Qed.

Lemma pool_remap_paired dst_pools src_pools prechecks i j :
  pool_remap dst_pools src_pools prechecks !! i = Some j →
  ∃ pc k, pc ∈ prechecks ∧ paired dst_pools src_pools pc k i j.
Proof.
  assert (∀ m, foldl (remap_one dst_pools src_pools) m prechecks !! i = Some j →
    m !! i = Some j ∨ ∃ pc k, pc ∈ prechecks ∧ paired dst_pools src_pools pc k i j) as H.
  { induction prechecks as [|pc l IH]; intros m; cbn [foldl]; [by left|].
    intros [Hm|(pc' & k & Hpc & Hp)]%IH; [|right; exists pc', k; split; [by right|done]].
    apply remap_one_lookup in Hm as [?|[k Hp]]; [by left|]. right. exists pc, k. split; [left|done]. }
  intros E. destruct (H ∅ E) as [Habs|?]; [|done]. by rewrite lookup_empty in Habs.
Qed.

Lemma pool_remap_defined dst_pools src_pools prechecks pc own i :
  pc ∈ prechecks → i ∈ tp_selected pc →
  (∀ first, head (tp_selected pc) = Some first →
     pools_by_tag src_pools !! pp_tag (pool_at dst_pools first) = Some own) →
  (length (tp_selected pc) <= length own)%nat →
  is_Some (pool_remap dst_pools src_pools prechecks !! i).
Proof.
  intros Hpc Hi Hown Hlen. change (is_Some (foldl (remap_one dst_pools src_pools) ∅ prechecks !! i)).
  assert (∀ l m, is_Some (m !! i) → is_Some (foldl (remap_one dst_pools src_pools) m l !! i)) as Hkeep.
  { intros l. induction l as [|x l IH]; intros m Hm; cbn [foldl]; [done|]. by apply IH, remap_one_is_Some. }
  generalize (∅ : gmap Z Z) as m. induction prechecks as [|x l IH]; intros m; [set_solver|]. cbn [foldl].
  apply elem_of_cons in Hpc as [<-|Hpc]; [|by apply IH]. apply Hkeep. unfold remap_one.
  destruct (tp_selected pc) as [|first rest] eqn:Es; [set_solver|]. rewrite (Hown first eq_refl).
  apply foldl_pairs_is_Some. left. by rewrite fst_zip.
Qed.

(** Pools are paired one to one when every precheck selects all pools of its tag. *)
Lemma paired_inj dst_pools src_pools pc pc' k k' i i' j :
  tp_selected pc = selected_pools dst_pools (pp_tag (pool_at dst_pools (default 0 (head (tp_selected pc))))) →
  tp_selected pc' = selected_pools dst_pools (pp_tag (pool_at dst_pools (default 0 (head (tp_selected pc'))))) →
  paired dst_pools src_pools pc k i j → paired dst_pools src_pools pc' k' i' j → i = i'.
Proof.
  intros Hs Hs' (f & own & Hf & Ho & Hk & Hj) (f' & own' & Hf' & Ho' & Hk' & Hj').
  rewrite Hf in Hs. rewrite Hf' in Hs'. cbn [default from_option id] in Hs, Hs'.
  pose proof (proj2 (pool_at_tagged _ _ _ _ Ho (list_elem_of_lookup_2 _ _ _ Hj))) as Ht.
  pose proof (proj2 (pool_at_tagged _ _ _ _ Ho' (list_elem_of_lookup_2 _ _ _ Hj'))) as Ht'.
  rewrite Ht in Ht'. rewrite <- Ht' in Ho', Hs'. rewrite Ho in Ho'. injection Ho' as <-.
  destruct (pools_by_tag_bounds _ _ _ Ho) as [Hnd _].
  pose proof (NoDup_lookup _ _ _ _ Hnd Hj Hj') as <-. congruence.
Qed.
