(* ===== verification/TransferPlan.v ===== *)
(** * TransferPlan: chunk resolution for an armed transfer
    (src/tpu_sync/kv_cache/transfer_plan.{h,cc})

    The engine side of a plan: a validated StartTransferRequest, the schedule
    indexed by block, and the resolution of a push into local memory chunks on
    either end.  Pointers are 64-bit addresses with 0 for nullptr; hash
    maps are finite maps, and where the code iterates one the iteration order is an
    argument. *)

From S2P Require Import Prelude RaidenTypes PoolLayout PoolReshardPlanner WireTypes.

(** ** Data *)
Record BlockChunk := mkBlockChunk { bc_ptr : Z; bc_size : Z; bc_raddr : Z }.
Record PoolPushProgressSpec := mkProgressSpec { expected_pushes : Z; expected_pools : Z }.

Abbreviation BlockEntryMap := (gmap Z (list ScheduleEntry)).
Record TransferPlan := mkTransferPlan {
  request_ : StartTransferRequest;
  is_sender_ : bool;
  host_block_of_ : gmap Z Z;
  staged_device_blocks_ : gset Z;
  schedule_by_block_ : gmap Z BlockEntryMap;
}.

Definition pool_addressed (r : StartTransferRequest) : bool :=
  negb (bool_decide (st_pool_groups r = [])).

(** ** Receiver addresses *)
Definition FindReceiverAddrs (request : StartTransferRequest) (peer : string) (idx : Z)
    : option PoolHostAddrsProto :=
  if bool_decide (peer = EmptyString) then None
  else
    pools ← receiver_addrs request !! peer;
    pool ← pools !! idx;
    if bool_decide (host_base_addrs pool = []) then None else Some pool.

Definition GetReceiverPoolAddrs (request : StartTransferRequest) (peer : string) (pool_idx : Z)
    : option PoolHostAddrsProto :=
  if negb (pool_addressed request) then None
  else
    let wire_pool_idx := i32 pool_idx in
    FindReceiverAddrs request peer (default wire_pool_idx (wire_pool_indices request !! wire_pool_idx)).

Definition GetReceiverLayerAddrs (request : StartTransferRequest) (peer : string) (layer_idx : Z)
    : option PoolHostAddrsProto :=
  if pool_addressed request then None else FindReceiverAddrs request peer (i32 layer_idx).

(** 0 is nullptr. *)
Definition RemoteAddress (pool : option PoolHostAddrsProto)
    (dst_shard_idx dst_block_id dst_offset size : Z) : Z :=
  match pool with
  | None => 0
  | Some pool =>
      let slots := host_slot_by_block pool in
      match (if bool_decide (slots = ∅) then Some dst_block_id else slots !! dst_block_id) with
      | None => 0
      | Some host_block =>
          if (dst_shard_idx <? 0) || (Z.of_nat (length (host_base_addrs pool)) <=? dst_shard_idx) ||
             (host_block <? 0) || (ha_num_blocks pool <=? host_block) ||
             (ha_block_stride_bytes pool <=? 0) || (dst_offset <? 0) || (size <? 0) ||
             (i64 (ha_block_stride_bytes pool - size) <? dst_offset)
          then 0
          else u64 (host_base_addrs pool !!! Z.to_nat dst_shard_idx +
                    u64 host_block * u64 (ha_block_stride_bytes pool) + u64 dst_offset)
      end
  end.

(** ** Validate and Create *)
Fixpoint check_pool_indices (num_pools : Z) (seen : gset Z) (indices : list Z) : Status :=
  match indices with
  | [] => OkStatus
  | i :: rest =>
      if (i <? 0) || (num_pools <=? i) then Err kInvalidArgument
      else if bool_decide (i ∈ seen) then Err kInvalidArgument
      else check_pool_indices num_pools ({[i]} ∪ seen) rest
  end.

Definition Validate (request : StartTransferRequest) (num_pools : Z) (explicit_pools : bool)
    (pools : list PoolSpec) : Status :=
  let has_transfer_pools := negb (bool_decide (st_transfer_pool_indices request = [])) in
  if negb (eqb has_transfer_pools (pool_addressed request)) then Err kInvalidArgument
  else
    _ ← (if has_transfer_pools then
           if existsb (λ g, gp_expected_pushes g <=? 0) (st_pool_groups request)
           then Err kInvalidArgument
           else if bool_decide (st_req_id request = EmptyString) then Err kInvalidArgument
           else check_pool_indices num_pools ∅ (st_transfer_pool_indices request)
         else OkStatus);
    if negb (bool_decide (st_pool_dtype_tags request = [])) && explicit_pools then
      if bool_decide (st_pool_dtype_tags request = (dtype_tag <$> pools)) then OkStatus
      else Err kInvalidArgument
    else OkStatus.

(** The block id an entry is indexed under. *)
Definition entry_block (is_sender : bool) (e : ScheduleEntry) : Z :=
  if is_sender then se_src_block_id e else se_dst_block_id e.

Fixpoint index_entries (is_sender : bool) (entries : list ScheduleEntry) (m : BlockEntryMap)
    : BlockEntryMap :=
  match entries with
  | [] => m
  | e :: rest =>
      let b := entry_block is_sender e in
      index_entries is_sender rest (<[b := default [] (m !! b) ++ [e]]> m)
  end.
Definition RebuildScheduleIndex (request : StartTransferRequest) (is_sender : bool)
    : gmap Z BlockEntryMap :=
  (λ entries, index_entries is_sender entries ∅) <$> push_schedules request.

Definition staged_blocks (request : StartTransferRequest) (is_sender : bool) : gset Z :=
  if pool_addressed request then ∅
  else list_to_set ((map_to_list (push_schedules request)).*2 ≫=
                      λ entries, entry_block is_sender <$> entries).

Definition Create (request : StartTransferRequest) (is_sender : bool) (num_pools : Z)
    (explicit_pools : bool) (pools : list PoolSpec) (host_block_of : gmap Z Z) : StatusOr TransferPlan :=
  _ ← Validate request num_pools explicit_pools pools;
  Ok (mkTransferPlan request is_sender host_block_of (staged_blocks request is_sender)
        (RebuildScheduleIndex request is_sender)).

(** ** Queries *)
Definition GetPoolPushProgressSpec (p : TransferPlan) (pool_idx : Z)
    : StatusOr (option PoolPushProgressSpec) :=
  let r := request_ p in
  if negb (pool_addressed r) then Ok None
  else if negb (existsb (λ i, (0 <=? i) && (i =? pool_idx)) (st_transfer_pool_indices r))
       then Err kInvalidArgument
  else match find (λ g, bool_decide (i32 pool_idx ∈ gp_pool_indices g)) (st_pool_groups r) with
       | Some g => Ok (Some (mkProgressSpec (u64 (gp_expected_pushes g))
                               (Z.of_nat (length (st_transfer_pool_indices r)))))
       | None => Err kInvalidArgument
       end.

Definition ExpectedPushSenders (p : TransferPlan) : option Z :=
  let r := request_ p in
  if is_sender_ p || pool_addressed r || bool_decide (push_schedules r = ∅) then None
  else Some (Z.of_nat (size (push_schedules r))).

Fixpoint plan_host_blocks (p : TransferPlan) (block_ids : list Z) : StatusOr (list Z) :=
  match block_ids with
  | [] => Ok []
  | id :: rest =>
      if negb (bool_decide (id ∈ staged_device_blocks_ p)) then Err kInvalidArgument
      else
        host ← (if bool_decide (host_block_of_ p = ∅) then Ok id
                else match host_block_of_ p !! id with
                     | Some h => Ok h
                     | None => Err kInvalidArgument
                     end);
        out ← plan_host_blocks p rest;
        Ok (host :: out)
  end.
Definition PlanHostBlocks (p : TransferPlan) (block_ids : list Z) : StatusOr (list Z) :=
  if pool_addressed (request_ p) then Err kFailedPrecondition else plan_host_blocks p block_ids.

(** ** ResolvePlanBlockChunks *)
Definition block_entries (block_map : BlockEntryMap) (block_id : Z) : list ScheduleEntry :=
  default [] (block_map !! block_id).

Definition entry_targets_pool (r : StartTransferRequest) (layer_idx : Z) (e : ScheduleEntry) : bool :=
  if negb (pool_addressed r) then true
  else
    let group_idx := se_pool_group e in
    if group_idx <? 0 then false
    else match st_pool_groups r !! Z.to_nat group_idx with
         | None => false
         | Some g => bool_decide (i32 layer_idx ∈ gp_pool_indices g)
         end.

Definition entry_count (e : ScheduleEntry) : Z := if se_count e <=? 0 then 1 else se_count e.

Definition sender_entry_chunks (dst_addrs : option PoolHostAddrsProto) (block_base : Z)
    (e : ScheduleEntry) : list BlockChunk :=
  (λ c,
     mkBlockChunk
       (u64 (block_base + u64 (u64 (se_src_offset_bytes e) + u64 (c * u64 (se_src_stride_bytes e)))))
       (u64 (se_size_bytes e))
       (RemoteAddress dst_addrs (se_dst_shard_idx e) (se_dst_block_id e)
          (i64 (se_dst_offset_bytes e + i64 (c * se_dst_stride_bytes e))) (se_size_bytes e)))
  <$> seqZ 0 (entry_count e).

Definition receiver_entry_chunks (block_base : Z) (e : ScheduleEntry) : list BlockChunk :=
  (λ c,
     mkBlockChunk
       (u64 (block_base + u64 (u64 (se_dst_offset_bytes e) + u64 (c * u64 (se_dst_stride_bytes e)))))
       (u64 (se_size_bytes e)) 0)
  <$> seqZ 0 (entry_count e).

Section resolve.
Context (p : TransferPlan) (layer_idx shard_idx total_bytes sender_node_id : Z) (peer : string).
Context (src_block_id dst_block_id : Z) (explicit_pools : bool).
Context (block_host_base : Z → Z → Z).
(** The order in which the code iterates over the schedule map. *)
Context (iteration : list (Z * BlockEntryMap)).

Definition peer_matches (e : ScheduleEntry) : bool :=
  bool_decide (peer = EmptyString) || bool_decide (se_dst_peer e = peer).

Definition fixed_schedule : option BlockEntryMap :=
  let fixed_src_shard := if is_sender_ p then i32 shard_idx else i32 sender_node_id in
  if fixed_src_shard =? -1 then None else schedule_by_block_ p !! fixed_src_shard.

Definition dst_addrs : option PoolHostAddrsProto :=
  if is_sender_ p then
    if explicit_pools then GetReceiverPoolAddrs (request_ p) peer layer_idx
    else GetReceiverLayerAddrs (request_ p) peer layer_idx
  else None.

Definition sender_wants (block_id : Z) (e : ScheduleEntry) : bool :=
  entry_targets_pool (request_ p) layer_idx e && peer_matches e &&
  ((dst_block_id =? -1) || (se_dst_block_id e =? dst_block_id)) &&
  (u64 (se_src_block_id e) =? u64 block_id).

Definition receiver_entry (block_id : Z) (e : ScheduleEntry) : bool :=
  entry_targets_pool (request_ p) layer_idx e &&
  (u64 (se_dst_shard_idx e) =? shard_idx) && (u64 (se_dst_block_id e) =? u64 block_id) &&
  ((src_block_id =? -1) || (u64 (se_src_block_id e) =? u64 src_block_id)).

Definition found_schedule (block_id : Z) : option BlockEntryMap :=
  if negb (sender_node_id =? -1)
  then if i32 sender_node_id =? -1 then None else fixed_schedule
  else
    match find (λ ss : Z * BlockEntryMap,
                  existsb (receiver_entry block_id) (block_entries ss.2 block_id) &&
                  negb (ss.1 =? -1)) iteration with
    | Some (src_shard, _) => schedule_by_block_ p !! src_shard
    | None => None
    end.

Definition block_resolved_chunks (block_id block_base : Z) : list BlockChunk :=
  if is_sender_ p then
    match fixed_schedule with
    | None => []
    | Some schedule =>
        filter (λ e, sender_wants block_id e = true) (block_entries schedule block_id)
          ≫= sender_entry_chunks dst_addrs block_base
    end
  else
    match found_schedule block_id with
    | None => []
    | Some schedule =>
        filter (λ e, receiver_entry block_id e && peer_matches e = true) (block_entries schedule block_id)
          ≫= receiver_entry_chunks block_base
    end.

(** The budgeted copy of a block's chunks: (chunks, accumulated bytes). *)
Fixpoint add_chunks (resolved chunks : list BlockChunk) (accumulated_bytes : Z) : list BlockChunk * Z :=
  match resolved with
  | [] => (chunks, accumulated_bytes)
  | chunk :: rest =>
      if total_bytes <=? accumulated_bytes then (chunks, accumulated_bytes)
      else
        let size_to_add := Z.min (bc_size chunk) (total_bytes - accumulated_bytes) in
        if 0 <? size_to_add
        then add_chunks rest (chunks ++ [mkBlockChunk (bc_ptr chunk) size_to_add (bc_raddr chunk)])
               (accumulated_bytes + size_to_add)
        else add_chunks rest chunks accumulated_bytes
  end.

Fixpoint resolve_blocks (block_ids : list Z) (chunks : list BlockChunk) (accumulated_bytes : Z)
    : list BlockChunk :=
  match block_ids with
  | [] => chunks
  | block_id :: rest =>
      if total_bytes <=? accumulated_bytes then chunks
      else
        match (if bool_decide (host_block_of_ p = ∅) then Some block_id
               else host_block_of_ p !! block_id) with
        | None => []
        | Some host_block =>
            let block_base := block_host_base block_id host_block in
            if block_base =? 0 then []
            else
              let '(chunks, accumulated_bytes) :=
                add_chunks (block_resolved_chunks block_id block_base) chunks accumulated_bytes in
              resolve_blocks rest chunks accumulated_bytes
        end
  end.

Definition ResolvePlanBlockChunks (block_ids : list Z) : list BlockChunk :=
  resolve_blocks block_ids [] 0.
End resolve.

(** ** The schedule index *)
Lemma index_entries_block is_sender entries m b :
  block_entries (index_entries is_sender entries m) b =
  block_entries m b ++ filter (λ e, entry_block is_sender e = b) entries.
Proof.
  unfold block_entries. revert m; induction entries as [|e entries IH]; intros m; cbn [index_entries].
  { by rewrite app_nil_r. }
  rewrite IH, filter_cons. destruct (decide (entry_block is_sender e = b)) as [<-|Hne].
  - rewrite lookup_insert_eq. cbn. by rewrite <- app_assoc.
  - by rewrite lookup_insert_ne.
Qed.

Lemma Create_ok request is_sender num_pools explicit_pools pools host_block_of p :
  Create request is_sender num_pools explicit_pools pools host_block_of = Ok p →
  request_ p = request ∧ is_sender_ p = is_sender ∧ host_block_of_ p = host_block_of ∧
  schedule_by_block_ p = RebuildScheduleIndex request is_sender ∧
  Validate request num_pools explicit_pools pools = OkStatus.
Proof. intros ([] & Hv & [= <-])%bind_Ok. done. Qed.

Lemma schedule_index request is_sender shard entries :
  push_schedules request !! shard = Some entries →
  ∃ schedule, RebuildScheduleIndex request is_sender !! shard = Some schedule ∧
    ∀ b, block_entries schedule b = filter (λ e, entry_block is_sender e = b) entries.
Proof.
  intros He. eexists. split; [unfold RebuildScheduleIndex; rewrite lookup_fmap, He; reflexivity|].
  intros b. rewrite index_entries_block. unfold block_entries. by rewrite lookup_empty.
Qed.

Lemma filter_ext_in {A} (P Q : A → Prop) `{∀ x, Decision (P x), ∀ x, Decision (Q x)} (l : list A) :
  (∀ x, x ∈ l → P x ↔ Q x) → filter P l = filter Q l.
Proof.
  induction l as [|x l IH]; intros HPQ; [done|]. rewrite !filter_cons, IH by set_solver.
  pose proof (HPQ x ltac:(set_solver)). repeat case_decide; tauto.
Qed.

(** ** The byte stream of resolved chunks *)
Definition chunk_bytes (chunks : list BlockChunk) : list Z :=
  chunks ≫= λ c, seqZ (bc_ptr c) (bc_size c).

Lemma chunk_bytes_app l l' : chunk_bytes (l ++ l') = chunk_bytes l ++ chunk_bytes l'.
Proof. apply bind_app. Qed.

Lemma add_chunks_bytes total resolved chunks acc :
  Forall (λ c, 0 <= bc_size c) resolved → 0 <= acc →
  chunk_bytes (add_chunks total resolved chunks acc).1 =
  chunk_bytes chunks ++ take (Z.to_nat (total - acc)) (chunk_bytes resolved).
Proof.
  intros Hr. revert chunks acc; induction Hr as [|c resolved Hc Hr IH]; intros chunks acc Ha;
    cbn [add_chunks].
  { cbn [fst chunk_bytes]. unfold chunk_bytes at 3. cbn. by rewrite take_nil, app_nil_r. }
  destruct (Z.leb_spec total acc) as [Hle|Hlt].
  { replace (Z.to_nat (total - acc)) with 0%nat by lia. by rewrite app_nil_r. }
  replace (chunk_bytes (c :: resolved)) with (seqZ (bc_ptr c) (bc_size c) ++ chunk_bytes resolved) by done.
  destruct (Z.ltb_spec 0 (Z.min (bc_size c) (total - acc))) as [Hpos|Hz].
  - rewrite IH by lia. rewrite chunk_bytes_app. unfold chunk_bytes at 2. cbn. rewrite app_nil_r, <- app_assoc.
    f_equal. destruct (Z.le_ge_cases (bc_size c) (total - acc)) as [Hs|Hs].
    + rewrite Z.min_l by lia. rewrite take_app_ge by (rewrite length_seqZ; lia). f_equal. f_equal.
      rewrite length_seqZ. lia.
    + rewrite Z.min_r by lia. rewrite take_app_le by (rewrite length_seqZ; lia).
      rewrite take_seqZ_Z by lia. replace (total - (acc + (total - acc))) with 0 by lia.
      by rewrite app_nil_r.
  - assert (bc_size c = 0) as -> by lia. rewrite seqZ_nil by lia. by apply IH.
Qed.

(** ** Both ends of a push *)

(** An entry as the planner emits it: in range, without wrap-around. *)
Record entry_ok (e : ScheduleEntry) : Prop := {
  eo_count : 0 < se_count e < 2 ^ 31;
  eo_size : 0 <= se_size_bytes e;
  eo_src : 0 <= se_src_offset_bytes e ∧ 0 <= se_src_stride_bytes e;
  eo_dst : 0 <= se_dst_offset_bytes e ∧ 0 <= se_dst_stride_bytes e;
  eo_ids : 0 <= se_src_block_id e < 2 ^ 31 ∧ 0 <= se_dst_block_id e < 2 ^ 31;
}.
(** The bytes an entry addresses fit above the block bases. *)
Definition entry_within (src_base dst_base : Z) (e : ScheduleEntry) : Prop :=
  src_base + se_src_offset_bytes e + (se_count e - 1) * se_src_stride_bytes e + se_size_bytes e < 2 ^ 63 ∧
  dst_base + se_dst_offset_bytes e + (se_count e - 1) * se_dst_stride_bytes e + se_size_bytes e < 2 ^ 63.

Lemma u64_offset base off c stride count size :
  0 <= base → 0 <= off → 0 <= stride → 0 <= c < count → 0 <= size →
  base + off + (count - 1) * stride + size < 2 ^ 63 →
  u64 (base + u64 (u64 off + u64 (c * u64 stride))) = base + (off + c * stride).
Proof.
  intros Hb Ho Hs Hc Hz Hlt. pose proof (repeat_bounds c count stride Hc Hs).
  destruct (Z.eq_dec c 0) as [->|Hne].
  - rewrite !Z.mul_0_l, (u64_small 0), (u64_small off), !u64_small by (rewrite ?u64_small; lia). lia.
  - assert (stride <= c * stride) by nia.
    rewrite (u64_small stride), (u64_small (c * stride)), (u64_small off) by lia.
    rewrite (u64_small (off + c * stride)) by lia. by rewrite u64_small by lia.
Qed.

Lemma zip_fmap_l {A B C} (f : A → C) (l : list A) (k : list B) :
  length l = length k → (λ xy, f xy.1) <$> zip l k = f <$> l.
Proof. revert k; induction l as [|x l IH]; intros [|y k]; cbn; try done. intros [= H]. f_equal. by apply IH. Qed.
Lemma zip_fmap_r {A B C} (f : B → C) (l : list A) (k : list B) :
  length l = length k → (λ xy, f xy.2) <$> zip l k = f <$> k.
Proof. revert k; induction l as [|x l IH]; intros [|y k]; cbn; try done. intros [= H]. f_equal. by apply IH. Qed.

Lemma sender_entry_bytes addrs src_base dst_base e :
  entry_ok e → entry_within src_base dst_base e → 0 <= src_base →
  chunk_bytes (sender_entry_chunks addrs src_base e) = (λ st, src_base + st.1) <$> entry_pairs e ∧
  Forall (λ c, 0 <= bc_size c) (sender_entry_chunks addrs src_base e).
Proof.
  intros [H1 H2 [H3 H3'] _ _] [Hw _] Hb.
  assert (se_size_bytes e < 2 ^ 63) by nia.
  unfold sender_entry_chunks, chunk_bytes, entry_pairs, entry_count.
  rewrite (proj2 (Z.leb_gt _ _)) by lia. split.
  - rewrite list_fmap_bind, fmap_of_bind. apply Forall_bind_ext, Forall_forall. intros c Hc%elem_of_seqZ. cbn.
    rewrite (u64_offset src_base _ c _ (se_count e) (se_size_bytes e)) by (done || lia).
    rewrite u64_small by lia.
    rewrite zip_fmap_l by (by rewrite !length_seqZ). by rewrite fmap_add_seqZ.
  - apply Forall_fmap, Forall_forall. intros c _. cbn. apply u64_range.
Qed.

Lemma receiver_entry_bytes src_base dst_base e :
  entry_ok e → entry_within src_base dst_base e → 0 <= dst_base →
  chunk_bytes (receiver_entry_chunks dst_base e) = (λ st, dst_base + st.2) <$> entry_pairs e ∧
  Forall (λ c, 0 <= bc_size c) (receiver_entry_chunks dst_base e).
Proof.
  intros [H1 H2 _ [H3 H3'] _] [_ Hw] Hb.
  assert (se_size_bytes e < 2 ^ 63) by nia.
  unfold receiver_entry_chunks, chunk_bytes, entry_pairs, entry_count.
  rewrite (proj2 (Z.leb_gt _ _)) by lia. split.
  - rewrite list_fmap_bind, fmap_of_bind. apply Forall_bind_ext, Forall_forall. intros c Hc%elem_of_seqZ. cbn.
    rewrite (u64_offset dst_base _ c _ (se_count e) (se_size_bytes e)) by (done || lia).
    rewrite u64_small by lia.
    rewrite zip_fmap_r by (by rewrite !length_seqZ). by rewrite fmap_add_seqZ.
  - apply Forall_fmap, Forall_forall. intros c _. cbn. apply u64_range.
Qed.

(** A side whose entries each resolve to [f] of their byte pairs streams the
    first [total] bytes of the push. *)
Lemma resolve_one_block total (push : list ScheduleEntry) (chunks_of : ScheduleEntry → list BlockChunk)
    (f : Z * Z → Z) :
  (∀ e, e ∈ push → chunk_bytes (chunks_of e) = f <$> entry_pairs e ∧
     Forall (λ c, 0 <= bc_size c) (chunks_of e)) →
  chunk_bytes (add_chunks total (push ≫= chunks_of) [] 0).1 =
  f <$> take (Z.to_nat total) (push ≫= entry_pairs).
Proof.
  intros Hp. rewrite add_chunks_bytes, Z.sub_0_r; [|apply Forall_bind, Forall_forall; naive_solver|lia].
  rewrite fmap_take. cbn. f_equal.
  induction push as [|e push IH]; [done|]. rewrite !bind_cons, chunk_bytes_app, fmap_app.
  f_equal; [apply Hp|apply IH; intros; apply Hp]; set_solver.
Qed.

(** The entries of one push: block [sb] of the sender to block [db] of [peer] (of
    any peer when [peer] is empty), for the pool a side addresses as [layer]. *)
Definition push_entries_of (r : StartTransferRequest) (layer : Z) (peer : string) (sb db : Z)
    (entries : list ScheduleEntry) : list ScheduleEntry :=
  filter (λ e, entry_targets_pool r layer e = true ∧ (peer = EmptyString ∨ se_dst_peer e = peer) ∧
               se_src_block_id e = sb ∧ se_dst_block_id e = db) entries.

Section one_push.
Context (entries : list ScheduleEntry) (Hok : Forall entry_ok entries).
Context (shard sb db : Z) (Hshard : 0 <= shard < 2 ^ 31) (Hsb : 0 <= sb < 2 ^ 31) (Hdb : 0 <= db < 2 ^ 31).

Lemma sender_push p layer total node peer src explicit base iteration host :
  is_sender_ p = true → schedule_by_block_ p = RebuildScheduleIndex (request_ p) true →
  push_schedules (request_ p) !! shard = Some entries →
  (if bool_decide (host_block_of_ p = ∅) then Some sb else host_block_of_ p !! sb) = Some host →
  base sb host ≠ 0 → 0 < total →
  ResolvePlanBlockChunks p layer shard total node peer src db explicit base iteration [sb] =
  (add_chunks total (push_entries_of (request_ p) layer peer sb db entries ≫=
     sender_entry_chunks (dst_addrs p layer peer explicit) (base sb host)) [] 0).1.
Proof.
  intros Hs Hidx He Hhost Hbase Htot. unfold ResolvePlanBlockChunks. cbn [resolve_blocks].
  rewrite (proj2 (Z.leb_gt total 0)) by lia. rewrite Hhost, (proj2 (Z.eqb_neq _ _) Hbase).
  unfold block_resolved_chunks, fixed_schedule. rewrite Hs, i32_small by lia.
  rewrite (proj2 (Z.eqb_neq shard (-1))) by lia. rewrite Hidx.
  destruct (schedule_index (request_ p) true shard entries He) as (schedule & -> & Hsched).
  rewrite Hsched, list_filter_filter. unfold push_entries_of.
  rewrite (filter_ext_in _ (λ e, entry_targets_pool (request_ p) layer e = true ∧
    (peer = EmptyString ∨ se_dst_peer e = peer) ∧ se_src_block_id e = sb ∧ se_dst_block_id e = db)).
  - by destruct (add_chunks _ _ _ _).
  - intros e Hin. rewrite Forall_forall in Hok. destruct (Hok e Hin) as [_ _ _ _ [Hi1 Hi2]].
    unfold sender_wants, entry_block, peer_matches. rewrite !andb_true_iff, !orb_true_iff, !Z.eqb_eq.
    rewrite !bool_decide_eq_true, !u64_small by lia. intuition lia.
Qed.

Lemma receiver_push p layer dst_shard total dst explicit base iteration host :
  is_sender_ p = false → schedule_by_block_ p = RebuildScheduleIndex (request_ p) false →
  push_schedules (request_ p) !! shard = Some entries →
  (∀ e, e ∈ push_entries_of (request_ p) layer EmptyString sb db entries →
     u64 (se_dst_shard_idx e) = dst_shard) →
  (if bool_decide (host_block_of_ p = ∅) then Some db else host_block_of_ p !! db) = Some host →
  base db host ≠ 0 → 0 < total →
  ResolvePlanBlockChunks p layer dst_shard total shard EmptyString sb dst explicit base iteration [db] =
  (add_chunks total (push_entries_of (request_ p) layer EmptyString sb db entries ≫=
     receiver_entry_chunks (base db host)) [] 0).1.
Proof.
  intros Hs Hidx He Hdst Hhost Hbase Htot. unfold ResolvePlanBlockChunks. cbn [resolve_blocks].
  rewrite (proj2 (Z.leb_gt total 0)) by lia. rewrite Hhost, (proj2 (Z.eqb_neq _ _) Hbase).
  unfold block_resolved_chunks, found_schedule, fixed_schedule. rewrite Hs, i32_small by lia.
  rewrite (proj2 (Z.eqb_neq shard (-1))) by lia. cbn [negb]. rewrite Hidx.
  destruct (schedule_index (request_ p) false shard entries He) as (schedule & -> & Hsched).
  rewrite Hsched, list_filter_filter. unfold push_entries_of in *.
  rewrite (filter_ext_in _ (λ e, entry_targets_pool (request_ p) layer e = true ∧
    (EmptyString = EmptyString ∨ se_dst_peer e = EmptyString) ∧ se_src_block_id e = sb ∧
    se_dst_block_id e = db)).
  - by destruct (add_chunks _ _ _ _).
  - intros e Hin. rewrite Forall_forall in Hok. destruct (Hok e Hin) as [_ _ _ _ [Hi1 Hi2]].
    unfold receiver_entry, entry_block, peer_matches. rewrite !andb_true_iff, !orb_true_iff, !Z.eqb_eq.
    rewrite !bool_decide_eq_true, (u64_small (se_dst_block_id e)), (u64_small db), (u64_small sb),
      (u64_small (se_src_block_id e)) by lia. split; [intuition lia|].
    intros (Ht & _ & Hes & Hed). pose proof (Hdst e) as Hd.
    rewrite list_elem_of_filter in Hd. intuition lia.
Qed.
End one_push.

(** What both ends know about one push of the entries [push]. *)
Record push_ready (push : list ScheduleEntry) (dst_shard src_base dst_base : Z) : Prop := {
  pr_entries : Forall (λ e, entry_ok e ∧ u64 (se_dst_shard_idx e) = dst_shard ∧
                            entry_within src_base dst_base e) push;
  pr_src_base : 0 < src_base;
  pr_dst_base : 0 < dst_base;
}.

(** The bytes of the two ends, for a sender budget of [total] bytes; the receiver
    resolves as many bytes as the sender announces. *)
Lemma push_streams reqS reqR S R entriesS entriesR shardS shardR layerS layerR sb db peer dst_shard
    num_poolsS num_poolsR explicitS explicitR poolsS poolsR hostsS hostsR hostS hostR baseS baseR
    itS itR total :
  Create reqS true num_poolsS explicitS poolsS hostsS = Ok S →
  Create reqR false num_poolsR explicitR poolsR hostsR = Ok R →
  push_schedules reqS !! shardS = Some entriesS →
  push_schedules reqR !! shardR = Some entriesR →
  Forall entry_ok entriesS → Forall entry_ok entriesR →
  0 <= shardS < 2 ^ 31 → 0 <= shardR < 2 ^ 31 → 0 <= sb < 2 ^ 31 → 0 <= db < 2 ^ 31 →
  push_entries_of reqR layerR EmptyString sb db entriesR = push_entries_of reqS layerS peer sb db entriesS →
  push_ready (push_entries_of reqS layerS peer sb db entriesS) dst_shard (baseS sb hostS) (baseR db hostR) →
  (if bool_decide (hostsS = ∅) then Some sb else hostsS !! sb) = Some hostS →
  (if bool_decide (hostsR = ∅) then Some db else hostsR !! db) = Some hostR →
  0 < total →
  let pairs := take (Z.to_nat total) (push_entries_of reqS layerS peer sb db entriesS ≫= entry_pairs) in
  let sent := chunk_bytes (ResolvePlanBlockChunks S layerS shardS total (-1) peer (-1) db explicitS
                             baseS itS [sb]) in
  let landed n := chunk_bytes (ResolvePlanBlockChunks R layerR dst_shard n shardR EmptyString sb (-1)
                                 explicitR baseR itR [db]) in
  sent = (λ st, baseS sb hostS + st.1) <$> pairs ∧
  landed (Z.of_nat (length sent)) = (λ st, baseR db hostR + st.2) <$> pairs.
Proof.
  intros (ES & SS & HS & IS & _)%Create_ok (ER & SR & HR & IR & _)%Create_ok HeS HeR HokS HokR HsS HsR
    Hsb Hdb Hsame [Hpush HbS HbR] HhS HhR Htot pairs sent landed. rewrite Forall_forall in Hpush.
  assert (sent = (λ st, baseS sb hostS + st.1) <$> pairs) as Hsent.
  { unfold sent. rewrite (sender_push entriesS HokS shardS sb db HsS Hsb Hdb S _ _ _ _ _ _ _ _ hostS);
      rewrite ?ES, ?HS; try done; [|lia].
    apply (resolve_one_block _ _ _ (λ st, baseS sb hostS + st.1)). intros e He.
    destruct (Hpush e He) as (Hok & _ & Hw). eapply sender_entry_bytes; [done|done|lia]. }
  split; [done|]. assert (length sent = length pairs) as Hlen by (by rewrite Hsent, length_fmap).
  destruct (decide (length pairs = 0%nat)) as [H0|Hne].
  { rewrite Hlen, H0. apply nil_length_inv in H0. rewrite H0. unfold landed, ResolvePlanBlockChunks.
    cbn [resolve_blocks]. reflexivity. }
  unfold landed. rewrite (receiver_push entriesR HokR shardR sb db HsR Hsb Hdb R _ _ _ _ _ _ _ hostR);
    rewrite ?ER, ?HR; try done; [|rewrite Hsame; intros e He; by destruct (Hpush e He) as (_ & ? & _)|lia|lia].
  rewrite Hsame, (resolve_one_block _ _ _ (λ st, baseR db hostR + st.2)).
  - f_equal. rewrite Hlen, Nat2Z.id. unfold pairs. rewrite length_take.
    destruct (decide (Z.to_nat total <= length (push_entries_of reqS layerS peer sb db entriesS ≫= entry_pairs))%nat).
    + by rewrite Nat.min_l by done.
    + rewrite Nat.min_r by lia. rewrite !take_ge by lia. done.
  - intros e He. destruct (Hpush e He) as (Hok & _ & Hw). eapply receiver_entry_bytes; [done|done|lia].
Qed.

(** C21: Both ends of a push agree byte for byte.  Let the sender and the receiver
    create their plans from requests in which the entries of the push (source block
    [sb], destination block [db] of [peer], the pool each side addresses) are the
    same.  Then the sender's chunks and the chunks the receiver resolves for the
    announced number of bytes have the same length, and the i-th byte on the stream
    comes from the source byte, and lands on the destination byte, of the i-th byte
    pair the schedule entries mean, up to the sender's byte budget. *)
Theorem push_sides_agree reqS reqR S R entriesS entriesR shardS shardR layerS layerR sb db peer dst_shard
    num_poolsS num_poolsR explicitS explicitR poolsS poolsR hostsS hostsR hostS hostR baseS baseR
    itS itR total :
  Create reqS true num_poolsS explicitS poolsS hostsS = Ok S →
  Create reqR false num_poolsR explicitR poolsR hostsR = Ok R →
  push_schedules reqS !! shardS = Some entriesS →
  push_schedules reqR !! shardR = Some entriesR →
  Forall entry_ok entriesS → Forall entry_ok entriesR →
  0 <= shardS < 2 ^ 31 → 0 <= shardR < 2 ^ 31 → 0 <= sb < 2 ^ 31 → 0 <= db < 2 ^ 31 →
  push_entries_of reqR layerR EmptyString sb db entriesR = push_entries_of reqS layerS peer sb db entriesS →
  push_ready (push_entries_of reqS layerS peer sb db entriesS) dst_shard (baseS sb hostS) (baseR db hostR) →
  (if bool_decide (hostsS = ∅) then Some sb else hostsS !! sb) = Some hostS →
  (if bool_decide (hostsR = ∅) then Some db else hostsR !! db) = Some hostR →
  0 < total →
  let pairs := take (Z.to_nat total) (push_entries_of reqS layerS peer sb db entriesS ≫= entry_pairs) in
  let sent := chunk_bytes (ResolvePlanBlockChunks S layerS shardS total (-1) peer (-1) db explicitS
                             baseS itS [sb]) in
  let landed n := chunk_bytes (ResolvePlanBlockChunks R layerR dst_shard n shardR EmptyString sb (-1)
                                 explicitR baseR itR [db]) in
  length sent = length (landed (Z.of_nat (length sent))) ∧
  zip sent (landed (Z.of_nat (length sent))) = (λ st, (baseS sb hostS + st.1, baseR db hostR + st.2)) <$> pairs.
Proof.
  intros HS HR HeS HeR HokS HokR HsS HsR Hsb Hdb Hsame Hready HhS HhR Htot pairs sent landed.
  destruct (push_streams reqS reqR S R entriesS entriesR shardS shardR layerS layerR sb db peer dst_shard
    num_poolsS num_poolsR explicitS explicitR poolsS poolsR hostsS hostsR hostS hostR baseS baseR
    itS itR total) as [H1 H2]; try done.
  change (sent = (λ st, baseS sb hostS + st.1) <$> pairs) in H1.
  change (landed (Z.of_nat (length sent)) = (λ st, baseR db hostR + st.2) <$> pairs) in H2.
  rewrite H2, H1. split; [by rewrite !length_fmap|].
  generalize pairs as l. intros l. induction l as [|x l IH]; [done|]. cbn. by rewrite IH.
Qed.

(** ** One-sided addresses *)

(** The receiver's pool memory does not wrap around the address space. *)
Definition pool_memory_ok (pool : PoolHostAddrsProto) : Prop :=
  0 < ha_block_stride_bytes pool < 2 ^ 63 ∧ 0 <= ha_num_blocks pool ∧
  Forall (λ base, 0 < base ∧ base + ha_num_blocks pool * ha_block_stride_bytes pool < 2 ^ 63)
    (host_base_addrs pool).

(** A remote address stays inside the block it names.  When the sender computes
    a non-null remote address for [size] bytes, the named shard exists, the block
    maps to an in-range host block of the receiver's pool, and the whole range lies
    inside that host block, without wrap-around. *)
Theorem RemoteAddress_within pool dst_shard_idx dst_block_id dst_offset size :
  pool_memory_ok pool → 0 <= size < 2 ^ 63 →
  let addr := RemoteAddress (Some pool) dst_shard_idx dst_block_id dst_offset size in
  addr ≠ 0 →
  ∃ base host_block, 0 <= dst_shard_idx ∧ host_base_addrs pool !! Z.to_nat dst_shard_idx = Some base ∧
    (if bool_decide (host_slot_by_block pool = ∅) then Some dst_block_id
     else host_slot_by_block pool !! dst_block_id) = Some host_block ∧
    0 <= host_block < ha_num_blocks pool ∧
    addr = base + host_block * ha_block_stride_bytes pool + dst_offset ∧
    base + host_block * ha_block_stride_bytes pool <= addr ∧
    addr + size <= base + (host_block + 1) * ha_block_stride_bytes pool.
Proof.
  intros ([Hst Hst'] & Hnb & Hbases) Hsz addr. subst addr. unfold RemoteAddress.
  destruct (if bool_decide (host_slot_by_block pool = ∅) then _ else _) as [host_block|] eqn:Eh; [|done].
  destruct (_ || _) eqn:Ec; [done|]. intros Hne.
  rewrite !orb_false_iff in Ec. destruct Ec as [[[[[[[E1 E2] E3] E4] E5] E6] E7] E8].
  rewrite i64_small in E8 by lia.
  destruct (lookup_lt_is_Some_2 (host_base_addrs pool) (Z.to_nat dst_shard_idx)) as [base Hb]; [lia|].
  rewrite (list_lookup_total_correct _ _ _ Hb) in *.
  rewrite Forall_lookup in Hbases. destruct (Hbases _ _ Hb) as [Hb0 Hb1].
  assert (host_block * ha_block_stride_bytes pool + ha_block_stride_bytes pool
            <= ha_num_blocks pool * ha_block_stride_bytes pool) by nia.
  assert (0 <= host_block * ha_block_stride_bytes pool) by nia.
  assert (host_block <= host_block * ha_block_stride_bytes pool) by nia.
  rewrite (u64_small host_block), (u64_small (ha_block_stride_bytes pool)), (u64_small dst_offset),
    u64_small by lia.
  exists base, host_block. split; [lia|]. split; [done|]. split; [done|]. split; [lia|]. split; [done|]. lia.
Qed.

(** ** Push progress *)
Lemma check_pool_indices_ok num_pools seen indices :
  check_pool_indices num_pools seen indices = OkStatus →
  NoDup indices ∧ Forall (λ i, (i ∉ seen) ∧ 0 <= i < num_pools) indices.
Proof.
  revert seen; induction indices as [|i indices IH]; intros seen; cbn [check_pool_indices].
  { intros _. split; constructor. }
  destruct (_ || _) eqn:Er; [done|]. apply orb_false_iff in Er as [E1%Z.ltb_ge E2%Z.leb_gt].
  case_bool_decide as Hin; [done|]. intros [Hnd Hf]%IH.
  assert (i ∉ indices) by (intros Hi; rewrite Forall_forall in Hf; destruct (Hf i Hi) as [Hs _]; set_solver).
  split; [by constructor|]. constructor; [split; [done|lia]|].
  eapply Forall_impl; [exact Hf|]. set_solver.
Qed.

Lemma Validate_ok request num_pools explicit_pools pools :
  Validate request num_pools explicit_pools pools = OkStatus → pool_addressed request = true →
  NoDup (st_transfer_pool_indices request) ∧
  Forall (λ i, 0 <= i < num_pools) (st_transfer_pool_indices request) ∧
  Forall (λ g, 0 < gp_expected_pushes g) (st_pool_groups request).
Proof.
  unfold Validate. intros Hv Hpa. rewrite Hpa in Hv.
  destruct (bool_decide (st_transfer_pool_indices request = [])); [done|].
  cbn [negb eqb] in Hv. apply bind_Ok in Hv as (? & Hv & _).
  destruct (existsb _ _) eqn:Ee; [done|]. case_bool_decide; [done|].
  destruct (check_pool_indices num_pools ∅ _) as [[]|] eqn:Ec; [|done].
  apply check_pool_indices_ok in Ec as [Hnd Hf]. split; [done|]. split.
  { eapply Forall_impl; [exact Hf|]. naive_solver. }
  apply Forall_forall. intros g Hg. destruct (Z.lt_ge_cases 0 (gp_expected_pushes g)) as [|Hle]; [done|].
  assert (existsb (λ g, gp_expected_pushes g <=? 0) (st_pool_groups request) = true) as Ht by
    (apply existsb_exists; exists g; split; [by apply list_elem_of_In|lia]). congruence.
Qed.

Lemma NoDup_range_length (l : list Z) n :
  NoDup l → Forall (λ i, 0 <= i < n) l → Z.of_nat (length l) <= Z.max 0 n.
Proof.
  intros Hnd Hf. assert (l ⊆ seqZ 0 n) as Hsub.
  { intros i Hi. rewrite Forall_forall in Hf. specialize (Hf i Hi). apply elem_of_seqZ. lia. }
  pose proof (submseteq_length _ _ (NoDup_submseteq _ _ Hnd Hsub)) as Hl. rewrite length_seqZ in Hl. lia.
Qed.

(** What a receiver waits for.  On a created plan, [GetPoolPushProgressSpec]
    declares no expectation exactly for plans that are not pool-addressed; an
    expectation it returns is for a transferred pool, is the positive push count of
    a group containing that pool, and its pool count is the number of (distinct,
    registered) transferred pools, hence positive and at most the number of
    pools; and it returns one whenever the pool is transferred and in a group. *)
Theorem progress_spec_created request is_sender num_pools explicit_pools pools hosts p pool_idx :
  Create request is_sender num_pools explicit_pools pools hosts = Ok p →
  Forall (λ g, gp_expected_pushes g < 2 ^ 31) (st_pool_groups request) → 0 <= pool_idx < 2 ^ 31 →
  (GetPoolPushProgressSpec p pool_idx = Ok None ↔ pool_addressed request = false) ∧
  (∀ spec, GetPoolPushProgressSpec p pool_idx = Ok (Some spec) →
     pool_idx ∈ st_transfer_pool_indices request ∧
     (∃ g, g ∈ st_pool_groups request ∧ pool_idx ∈ gp_pool_indices g ∧
        expected_pushes spec = gp_expected_pushes g) ∧
     0 < expected_pushes spec ∧ 0 < expected_pools spec <= num_pools) ∧
  (pool_addressed request = true → pool_idx ∈ st_transfer_pool_indices request →
   (∃ g, g ∈ st_pool_groups request ∧ pool_idx ∈ gp_pool_indices g) →
   ∃ spec, GetPoolPushProgressSpec p pool_idx = Ok (Some spec)).
Proof.
  intros (Er & _ & _ & _ & Hv)%Create_ok Hlt Hidx. unfold GetPoolPushProgressSpec. rewrite Er.
  destruct (pool_addressed request) eqn:Epa; cbn [negb]; [|naive_solver].
  destruct (Validate_ok _ _ _ _ Hv Epa) as (Hnd & Hrange & Hpos). rewrite i32_small by lia.
  pose proof (NoDup_range_length _ _ Hnd Hrange) as Hlen.
  assert (existsb (λ i, (0 <=? i) && (i =? pool_idx)) (st_transfer_pool_indices request) = true ↔
    pool_idx ∈ st_transfer_pool_indices request) as Hex.
  { rewrite existsb_exists. split.
    - intros (i & Hi%list_elem_of_In & [_ ->%Z.eqb_eq]%andb_true_iff). done.
    - intros Hi. exists pool_idx. split; [by apply list_elem_of_In|lia]. }
  destruct (existsb _ _); cbn [negb]; [|split; [done|split; [done|]]; naive_solver].
  assert (pool_idx ∈ st_transfer_pool_indices request) as Hin by (by apply Hex).
  assert (0 < Z.of_nat (length (st_transfer_pool_indices request)) <= num_pools) as Hn.
  { rewrite Forall_forall in Hrange. pose proof (Hrange _ Hin). apply list_elem_of_In, in_split in Hin as (l1 & l2 & Hl).
    rewrite Hl, length_app in *. cbn in *. lia. }
  destruct (find _ (st_pool_groups request)) as [g|] eqn:Ef.
  - apply find_some in Ef as [Hg%list_elem_of_In Hgi%bool_decide_eq_true_1].
    rewrite Forall_forall in Hpos, Hlt. pose proof (Hpos g Hg). pose proof (Hlt g Hg).
    rewrite u64_small by lia.
    split; [done|]. split; [|eauto]. intros spec [= <-]. cbn. split; [done|]. split; [eauto|]. lia.
  - split; [done|]. split; [done|]. intros _ _ (g & Hg & Hgi).
    pose proof (find_none _ _ Ef g) as Hnone. cbn in Hnone.
    rewrite bool_decide_true in Hnone by done. by apply list_elem_of_In, Hnone in Hg.
Qed.

(** ** Witnesses: one push of an 8-byte source block into a 32-byte destination block *)
Definition entries_ex : list ScheduleEntry :=
  [mkEntry "d:1" 0 0 0 3 2 7 0 0 1 0 0; mkEntry "d:1" 0 16 3 5 2 7 0 0 1 0 0;
   mkEntry "d:1" 0 0 0 8 4 6 0 0 1 0 0].
Definition addrs_ex : PoolHostAddrsProto := mkPoolHostAddrs [4096] 32 8 ∅.
Definition transfer_ex : StartTransferRequest :=
  mkStartTransfer [] [] {[ 0 := (λ e, mkPushEntry (se_dst_peer e) (se_dst_shard_idx e) (se_dst_offset_bytes e)
      (se_src_offset_bytes e) (se_size_bytes e) (se_src_block_id e) (se_dst_block_id e) (se_src_stride_bytes e)
      (se_dst_stride_bytes e) (se_count e) None (Some (se_pool_group e)) [] [] [] []) <$> entries_ex ]} 7 true MEMORY_TYPE_HBM true 1 "r" [] [0] 1 None
    [mkPoolGroup [0] [7] 1 [8] 0] ∅ {[ "d:1"%string := {[ 0 := addrs_ex ]} ]} 0 0 ∅ ∅ None []
    HOST_TILING_MODE_UNSPECIFIED.
Definition base_ex (start stride block host : Z) : Z := start + host * stride.

Lemma entries_ex_ok : Forall entry_ok entries_ex.
Proof. repeat constructor; cbn; lia. Qed.

Lemma push_sides_agree_witness :
  zip (chunk_bytes (ResolvePlanBlockChunks (mkTransferPlan transfer_ex true ∅ ∅ (RebuildScheduleIndex transfer_ex true))
         0 0 6 (-1) "d:1" (-1) 7 true (base_ex 1000 8) [] [2]))
      (chunk_bytes (ResolvePlanBlockChunks (mkTransferPlan transfer_ex false ∅ ∅ (RebuildScheduleIndex transfer_ex false))
         0 0 6 0 EmptyString 2 (-1) true (base_ex 4096 32) [] [7]))
  = [(1016, 4320); (1017, 4321); (1018, 4322); (1019, 4336); (1020, 4337); (1021, 4338)].
Proof.
  refine (proj2 (push_sides_agree transfer_ex transfer_ex _ _ entries_ex entries_ex 0 0 0 0 2 7 "d:1" 0 1 1
    true true [] [] ∅ ∅ 2 7 (base_ex 1000 8) (base_ex 4096 32) [] [] 6 eq_refl eq_refl eq_refl eq_refl
    entries_ex_ok entries_ex_ok _ _ _ _ eq_refl _ eq_refl eq_refl _)); try lia.
  split; [repeat constructor; cbn; lia|reflexivity|reflexivity].
Defined.

Lemma RemoteAddress_within_witness :
  ∃ base host, 4096 + 7 * 32 + 16 = base + host * 32 + 16 ∧ 0 <= host < 8.
Proof.
  destruct (RemoteAddress_within addrs_ex 0 7 16 5) as (base & host & _ & _ & _ & Hh & Ha & _).
  - split; [cbn; lia|]. split; [cbn; lia|]. repeat constructor; cbn; lia.
  - lia.
  - vm_compute. discriminate.
  - exists base, host. exact (conj Ha Hh).
Defined.

Lemma progress_spec_created_witness :
  ∃ spec, GetPoolPushProgressSpec
    (mkTransferPlan transfer_ex false ∅ ∅ (RebuildScheduleIndex transfer_ex false)) 0 = Ok (Some spec).
Proof.
  refine (proj2 (proj2 (progress_spec_created transfer_ex false 1 true [] ∅ _ 0 eq_refl _ _)) eq_refl _ _).
  - repeat constructor.
  - lia.
  - apply list_elem_of_here.
  - exists (mkPoolGroup [0] [7] 1 [8] 0). split; apply list_elem_of_here.
Defined.

(** [Validate] does not check that the groups partition the transferred pools: a
    plan whose group misses a transferred pool is accepted, and the pool has no
    expectation. *)
Definition missing_pool_ex : StartTransferRequest :=
  mkStartTransfer [] [] ∅ 7 false MEMORY_TYPE_HBM true 2 "r" [] [0; 1] 1 None
    [mkPoolGroup [0] [7] 1 [8] 0; mkPoolGroup [0] [6] 2 [8] 1] ∅ ∅ 0 0 ∅ ∅ None []
    HOST_TILING_MODE_UNSPECIFIED.
Lemma Validate_accepts_unpartitioned_groups :
  is_ok (Create missing_pool_ex false 2 false [] ∅) = true ∧
  ∀ p, Create missing_pool_ex false 2 false [] ∅ = Ok p →
    GetPoolPushProgressSpec p 1 = Err kInvalidArgument.
Proof. split; [reflexivity|]. intros p [= <-]. reflexivity. Qed.
