(* ===== verification/ReshardCoordinator.v ===== *)
(** * ReshardCoordinator: requests, sub-transfer chains and their execution
    (src/tpu_sync/kv_cache/reshard/reshard_coordinator.{h,cc})

    The coordinator turns a plan into one StartTransferRequest per unit, splits a
    request into sub-transfers by its staging windows, and runs each sub-transfer:
    plan under the registry claim, arm every receiver, dispatch the senders.  The
    replies of remote workers, the remote controller's metadata, the random uuid
    and the environment are arguments; every call the coordinator makes to a worker
    or to the registry's claim is recorded in an event list, in order. *)

From S2P Require Import Prelude RaidenTypes PoolLayout WorkUnitDirectory RequestBlockRegistry.
From S2P Require Import PoolReshardPlanner WireTypes TransferProgram BuildReshardPlan.

(** ** Data *)
Record PoolReshardArgs := mkArgs {
  ar_src_units : list RaidenId;
  ar_dst_units : list RaidenId;
  ar_req_id : string;
  ar_dst_device_block_ids : list Z;
  ar_has_dst_device_block_ids : bool;
  ar_use_block_chunks : bool;
  ar_dst_mem_type : MemoryType;
  ar_dst_controller_address : string;
  ar_uuid : Z;
  ar_is_sender : bool;
  ar_num_tokens : option Z;
  ar_transfer_pool_tags : list string;
  ar_has_transfer_pool_tags : bool;
  ar_parallelism : option Z;
  ar_skip_d2h : bool;
  ar_dst_block_counts : list Z;
  ar_dst_skip_bytes : list Z;
  ar_dst_window_blocks : list Z;
}.

Record SubTransferSlice := mkSlice {
  sl_tag_index : nat; sl_offset : Z; sl_count : Z; sl_total : Z }.
Record SubTransferChain := mkChain {
  ch_count : Z; ch_sub_plans : list (list SubTransferSlice) }.

(** The fields the coordinator sets on a built plan. *)
Definition set_run_fields (p : PoolReshardPlan) (skip_d2h : bool) (sub_plan_index sub_plan_count : Z)
    (addrs : gmap RaidenId ReceiverAddrsProto) : PoolReshardPlan :=
  {| plan_src_units := plan_src_units p; plan_dst_units := plan_dst_units p;
     plan_schedules := plan_schedules p; plan_worker_rpc_addresses := plan_worker_rpc_addresses p;
     plan_dst_peers := plan_dst_peers p; plan_uuid := plan_uuid p; plan_req_id := plan_req_id p;
     plan_expected_block_count := plan_expected_block_count p;
     plan_expected_pushes_per_pool := plan_expected_pushes_per_pool p;
     plan_transfer_pool_indices := plan_transfer_pool_indices p;
     plan_pool_dtype_tags := plan_pool_dtype_tags p; plan_src_pool_indices := plan_src_pool_indices p;
     plan_src_pool_dtype_tags := plan_src_pool_dtype_tags p;
     plan_dst_device_block_ids := plan_dst_device_block_ids p;
     plan_src_schedule_keys := plan_src_schedule_keys p; plan_parallelism := plan_parallelism p;
     plan_num_tokens := plan_num_tokens p; plan_skipped_pool_counts := plan_skipped_pool_counts p;
     plan_dst_expected_extent_bytes := plan_dst_expected_extent_bytes p;
     plan_pool_groups := plan_pool_groups p; plan_skip_d2h := skip_d2h; plan_receiver_addrs := addrs;
     plan_sub_plan_index := sub_plan_index; plan_sub_plan_count := sub_plan_count |}.
Definition set_receiver_addrs (p : PoolReshardPlan) (addrs : gmap RaidenId ReceiverAddrsProto)
    : PoolReshardPlan :=
  set_run_fields p (plan_skip_d2h p) (plan_sub_plan_index p) (plan_sub_plan_count p) addrs.

(** ** BuildStartTransferForTarget *)

(** [entries_to_proto]: block ids are narrowed to int32. *)
Definition entry_to_proto (e : ScheduleEntry) : ShardPushEntryProto :=
  mkPushEntry (se_dst_peer e) (se_dst_shard_idx e) (se_dst_offset_bytes e) (se_src_offset_bytes e)
    (se_size_bytes e) (i32 (se_src_block_id e)) (i32 (se_dst_block_id e)) (se_src_stride_bytes e)
    (se_dst_stride_bytes e) (se_count e) (Some (se_layer_idx e)) (Some (se_pool_group e)) [] [] [] [].

Section target.
Context (plan : PoolReshardPlan) (target : RaidenId).

Definition target_is_sender : bool := bool_decide (target ∈ plan_src_units plan).
Definition target_is_receiver : bool := bool_decide (target ∈ plan_dst_units plan).

Definition sender_remap : option (gmap Z Z) :=
  if target_is_sender && negb target_is_receiver then plan_src_pool_indices plan !! target else None.

Definition local_pool_index (index : Z) : Z :=
  match sender_remap with
  | None => index
  | Some remap => default (-1) (remap !! index)
  end.
Definition local_pool_indices (indices : list Z) : list Z :=
  filter (λ local, 0 <= local) (local_pool_index <$> indices).

(** A rewritten sender names its pools on the wire by destination index. *)
Definition wire_indices : gmap Z Z :=
  match sender_remap with
  | None => ∅
  | Some remap => map_fold (λ dst_index local m, <[local := dst_index]> m) ∅ remap
  end.

Definition group_expected_pushes (group : PlanPoolGroup) : Z :=
  if target_is_receiver then default 0 (pg_expected_pushes_by_dst group !! target)
  else map_fold (λ _ count m, Z.max m count) 0 (pg_expected_pushes_by_dst group).

Definition group_to_proto (group : PlanPoolGroup) : PoolGroupProto :=
  mkPoolGroup (local_pool_indices (pg_pool_indices group)) (pg_dst_device_block_ids group)
    (group_expected_pushes group) (pg_dst_expected_extent_bytes group) (pg_order_rank group).

(** Every source's entries for the target, keyed by the source's transfer rank. *)
Definition receiver_schedules : gmap Z (list ShardPushEntryProto) :=
  let target_peer := plan_dst_peers plan !!! target in
  map_fold (λ src_unit entries m,
    match plan_src_schedule_keys plan !! src_unit with
    | None => m
    | Some key =>
        let filtered := filter (λ e, se_dst_peer e = target_peer) entries in
        if bool_decide (filtered = []) then m else <[key := entry_to_proto <$> filtered]> m
    end) ∅ (plan_schedules plan).

(** The target's own entries under key 0. *)
Definition sender_schedules : gmap Z (list ShardPushEntryProto) :=
  match plan_schedules plan !! target with
  | None => ∅
  | Some entries => if bool_decide (entries = []) then ∅ else {[0 := entry_to_proto <$> entries]}
  end.

Definition BuildStartTransferForTarget : StartTransferRequest :=
  {| st_src_units := RaidenIdToProto <$> plan_src_units plan;
     st_dst_units := if target_is_receiver then [RaidenIdToProto target]
                     else RaidenIdToProto <$> plan_dst_units plan;
     shard_push_schedules := if target_is_receiver then receiver_schedules else sender_schedules;
     st_uuid := plan_uuid plan;
     st_is_sender := target_is_sender;
     st_dst_mem_type := MEMORY_TYPE_HBM;
     st_use_block_chunks := true;
     st_expected_block_count := plan_expected_block_count plan;
     st_req_id := plan_req_id plan;
     st_pool_dtype_tags := match sender_remap with
                           | Some _ => default [] (plan_src_pool_dtype_tags plan !! target)
                           | None => plan_pool_dtype_tags plan
                           end;
     st_transfer_pool_indices := local_pool_indices (plan_transfer_pool_indices plan);
     st_parallelism := plan_parallelism plan;
     st_skip_d2h := Some (plan_skip_d2h plan);
     st_pool_groups := group_to_proto <$> plan_pool_groups plan;
     wire_pool_indices := wire_indices;
     receiver_addrs := if target_is_sender
                       then map_fold (λ u addrs m, <[plan_dst_peers plan !!! u := addrs]> m) ∅
                              (plan_receiver_addrs plan)
                       else ∅;
     st_sub_plan_index := if 1 <? plan_sub_plan_count plan then plan_sub_plan_index plan else 0;
     st_sub_plan_count := if 1 <? plan_sub_plan_count plan then plan_sub_plan_count plan else 0;
     st_skip_tiling := ∅; st_expected_layer_chunk_counts := ∅; st_broadcast_round := None;
     st_broadcast_round_destinations := []; st_host_tiling_mode := HOST_TILING_MODE_UNSPECIFIED |}.
End target.

(** [ControlRequest] of COMMAND_START_TRANSFER: the peers and the request. *)
Definition BuildStartTransferControlRequest (plan : PoolReshardPlan) (target : RaidenId)
    : list string * StartTransferRequest :=
  ((λ u, plan_dst_peers plan !!! u) <$> plan_dst_units plan, BuildStartTransferForTarget plan target).

(** ** Sub-transfers *)

(** splitmix64 over (uuid, index), kept positive. *)
Definition SubPlanUuid (uuid index : Z) : Z :=
  if index <=? 0 then uuid
  else
    let z := u64 (u64 uuid + u64 (0x9E3779B97F4A7C15 * u64 index)) in
    let z := u64 (Z.lxor z (Z.shiftr z 30) * 0xBF58476D1CE4E5B9) in
    let z := u64 (Z.lxor z (Z.shiftr z 27) * 0x94D049BB133111EB) in
    let z := Z.lxor z (Z.shiftr z 31) in
    let mixed := Z.land z 0x7FFFFFFFFFFFFFFF in
    if 0 <? mixed then mixed else 1.

Definition single_chain : SubTransferChain := mkChain 1 [].

(** The per-tag block counts; [None] leaves a malformed split to the planner. *)
Definition chain_counts (num_tags : nat) (counts ids : list Z) : option (list Z) :=
  let counts :=
    match counts with
    | [] => if (num_tags =? 1)%nat then Some [Z.of_nat (length ids)] else None
    | _ => if (length counts =? num_tags)%nat then Some counts else None
    end in
  match counts with
  | None => None
  | Some counts =>
      if existsb (λ c, c <=? 0) counts then None
      else if foldl (λ s c, i64 (s + c)) 0 counts =? Z.of_nat (length ids) then Some counts else None
  end.

(** The number of windows of a tag. *)
Definition tag_num_windows (window count : Z) : Z :=
  if (0 <? window) && (window <? count) then i32 (Z.quot (i64 (i64 (count + window) - 1)) window) else 1.

(** A windowed tag shares a destination id with another tag. *)
Definition windows_aliased (num_windows : list Z) (ids_by_tag : list (list Z)) : bool :=
  existsb (λ i,
    negb (num_windows !!! i =? 1) &&
    existsb (λ j, negb (j =? i)%nat &&
                  existsb (λ id, bool_decide (id ∈ ids_by_tag !!! i)) (ids_by_tag !!! j))
      (seq 0 (length ids_by_tag))) (seq 0 (length ids_by_tag)).

Definition window_slice (tag_index : nat) (k_i window count w : Z) : SubTransferSlice :=
  if k_i =? 1 then mkSlice tag_index 0 count 0
  else
    let offset := w * window in
    mkSlice tag_index offset (Z.min window (count - offset)) count.

(** One tag's windows, appended to the last [k_i] sub-plans. *)
Definition add_tag_windows (longest : Z) (sub_plans : list (list SubTransferSlice)) (tag_index : nat)
    (k_i window count : Z) : list (list SubTransferSlice) :=
  foldl (λ sp w, alter (λ l, l ++ [window_slice tag_index k_i window count w])
                       (Z.to_nat (longest - k_i + w)) sp) sub_plans (seqZ 0 k_i).

Definition PlanSubTransfers (args : PoolReshardArgs) : StatusOr SubTransferChain :=
  let num_tags := length (ar_transfer_pool_tags args) in
  let windows := ar_dst_window_blocks args in
  if existsb (λ w, w <? 0) windows then Err kInvalidArgument
  else if negb (existsb (λ w, 0 <? w) windows) then Ok single_chain
  else if negb (length windows =? num_tags)%nat then Err kInvalidArgument
  else
    match chain_counts num_tags (ar_dst_block_counts args) (ar_dst_device_block_ids args) with
    | None => Ok single_chain
    | Some counts =>
        let num_windows := zip_with tag_num_windows windows counts in
        let longest := foldl Z.max 1 num_windows in
        if windows_aliased num_windows (split_ids counts (ar_dst_device_block_ids args))
        then Ok single_chain
        else if longest =? 1 then Ok single_chain
        else
          Ok (mkChain longest
                (foldl (λ sp i, add_tag_windows longest sp i (num_windows !!! i) (windows !!! i)
                                  (counts !!! i))
                   (replicate (Z.to_nat longest) []) (seq 0 num_tags)))
    end.

(** ** Running one sub-transfer *)
Record ChainContext := mkContext {
  cx_args : PoolReshardArgs;
  cx_src_metadata : list RegisterWorkUnitRequest;
  cx_dst_metadata : list RegisterWorkUnitRequest;
  cx_uuid : Z;
  cx_claim_owner : Z;
  cx_chain : SubTransferChain;
  cx_tag_starts : list Z;
  cx_tag_counts : list Z;
}.

(** [tag_starts] and [tag_counts] of a chained request. *)
Fixpoint tag_starts (cursor : Z) (counts : list Z) : list Z :=
  match counts with
  | [] => []
  | count :: rest => cursor :: tag_starts (i64 (cursor + count)) rest
  end.

Definition make_context (args : PoolReshardArgs) (src_metadata dst_metadata : list RegisterWorkUnitRequest)
    (uuid claim_owner : Z) (chain : SubTransferChain) : ChainContext :=
  let counts := match ar_dst_block_counts args with
                | [] => [Z.of_nat (length (ar_dst_device_block_ids args))]
                | counts => counts
                end in
  if 1 <? ch_count chain
  then mkContext args src_metadata dst_metadata uuid claim_owner chain (tag_starts 0 counts) counts
  else mkContext args src_metadata dst_metadata uuid claim_owner chain [] [].

(** The destination ids of a slice. *)
Definition slice_ids (ctx : ChainContext) (slice : SubTransferSlice) : list Z :=
  let start := cx_tag_starts ctx !!! sl_tag_index slice + sl_offset slice in
  take (Z.to_nat (sl_count slice)) (drop (Z.to_nat start) (ar_dst_device_block_ids (cx_args ctx))).

Definition sub_plan_request (ctx : ChainContext) (index : Z) : PlanRequest :=
  let args := cx_args ctx in
  let num_tokens := default 0 (ar_num_tokens args) in
  if negb (1 <? ch_count (cx_chain ctx)) then
    mkPlanRequest (ar_src_units args) (ar_dst_units args) (cx_src_metadata ctx) (cx_dst_metadata ctx)
      (ar_req_id args) (cx_uuid ctx) (ar_dst_device_block_ids args) num_tokens
      (ar_transfer_pool_tags args) (ar_parallelism args) (ar_dst_block_counts args)
      (ar_dst_skip_bytes args) [] [] 0
  else
    let slices := ch_sub_plans (cx_chain ctx) !!! Z.to_nat index in
    mkPlanRequest (ar_src_units args) (ar_dst_units args) (cx_src_metadata ctx) (cx_dst_metadata ctx)
      (ar_req_id args) (cx_uuid ctx) (slices ≫= slice_ids ctx) num_tokens
      ((λ sl, ar_transfer_pool_tags args !!! sl_tag_index sl) <$> slices) (ar_parallelism args)
      (sl_count <$> slices) ((λ sl, default 0 (ar_dst_skip_bytes args !! sl_tag_index sl)) <$> slices)
      (sl_offset <$> slices) (sl_total <$> slices) (SubPlanUuid (cx_uuid ctx) index).

(** A receiver's answer to its arm request; [busy] is whether the error text says
    that the staging arena is held (ArmRefusedForBusyStaging). *)
Inductive ArmReply :=
  | ArmOk (receiver_pool_addrs : ReceiverAddrsProto)
  | ArmErr (code : StatusCode) (busy : bool).

Inductive WorkerDelivery := kFramed | kController (controller : bool).

Inductive Event :=
  | EvArm (u : RaidenId) (request : list string * StartTransferRequest) (reply : ArmReply)
  | EvDispatch (u : RaidenId) (request : list string * StartTransferRequest)
  | EvSubmit (worker : Z) (program : TransferProgramRequest)
  | EvAbandon.

(** What the outside world answers: receivers per attempt, senders, the local
    controller's workers (by rank, for [worker_<rank>]), the shutdown flag at each
    retry decision, the process environment. *)
Record Environment := mkEnvironment {
  env_arm : Z → RaidenId → list string * StartTransferRequest → ArmReply;
  env_dispatch : RaidenId → list string * StartTransferRequest → Status;
  env_submit : Z → TransferProgramRequest → Status;
  env_stopping : Z → RaidenId → bool;
  env_forward_addrs : bool;
  env_streams : option string;
  env_atoi : string → option Z;
}.

Definition kChainArmAttempts : Z := 12.

Section run.
Context (env : Environment) (delivery : WorkerDelivery).

(** One armer thread. *)
Definition arm_one (plan : PoolReshardPlan) (attempt : Z) (u : RaidenId) : ArmReply * list Event :=
  match plan_worker_rpc_addresses plan !! u with
  | None => (ArmErr kInternal false, [])
  | Some _ =>
      let request := BuildStartTransferControlRequest plan u in
      let reply := env_arm env attempt u request in
      (reply, [EvArm u request reply])
  end.

(** One attempt: every receiver not armed yet, then the retry decision in
    destination order. *)
Fixpoint arm_round (plan : PoolReshardPlan) (attempt : Z)
    (armed : list (RaidenId * option ReceiverAddrsProto))
    : list (RaidenId * ArmReply) * list Event :=
  match armed with
  | [] => ([], [])
  | (u, Some addrs) :: rest =>
      let '(replies, events) := arm_round plan attempt rest in ((u, ArmOk addrs) :: replies, events)
  | (u, None) :: rest =>
      let '(reply, event) := arm_one plan attempt u in
      let '(replies, events) := arm_round plan attempt rest in
      ((u, reply) :: replies, event ++ events)
  end.

(** The first receiver that is neither armed nor worth a retry. *)
Definition arm_failure (attempt attempts : Z) (replies : list (RaidenId * ArmReply)) : option StatusCode :=
  head (omap (λ ur : RaidenId * ArmReply,
    match ur.2 with
    | ArmOk _ => None
    | ArmErr c busy =>
        if (attempt + 1 <? attempts) && busy && negb (env_stopping env attempt ur.1) then None else Some c
    end) replies).

Definition after_round (replies : list (RaidenId * ArmReply))
    : list (RaidenId * option ReceiverAddrsProto) :=
  (λ ur : RaidenId * ArmReply,
     (ur.1, match ur.2 with ArmOk addrs => Some addrs | ArmErr _ _ => None end)) <$> replies.

(** The attempts loop; [fuel] is the number of attempts left. *)
Fixpoint arm_loop (plan : PoolReshardPlan) (fuel : nat) (attempt attempts : Z)
    (armed : list (RaidenId * option ReceiverAddrsProto))
    : StatusOr (list (RaidenId * option ReceiverAddrsProto)) * list Event :=
  match fuel with
  | O => (Ok armed, [])
  | S fuel =>
      let '(replies, events) := arm_round plan attempt armed in
      match arm_failure attempt attempts replies with
      | Some c => (Err c, events)
      | None =>
          let armed := after_round replies in
          if forallb (λ ua, bool_decide (is_Some ua.2)) armed then (Ok armed, events)
          else
            let '(result, more) := arm_loop plan fuel (attempt + 1) attempts armed in
            (result, events ++ more)
      end
  end.

Definition forward_addrs (plan : PoolReshardPlan) (armed : list (RaidenId * option ReceiverAddrsProto))
    : gmap RaidenId ReceiverAddrsProto :=
  if env_forward_addrs env then
    foldl (λ (m : gmap RaidenId ReceiverAddrsProto) (ua : RaidenId * option ReceiverAddrsProto),
      match ua.2 with
      | Some addrs => if bool_decide (addrs = ∅) then m else <[ua.1 := addrs]> m
      | None => m
      end) ∅ armed
  else ∅.

(** A sender's status before its program runs, and whether it is submitted. *)
Definition dispatch_one (plan : PoolReshardPlan) (u : RaidenId) : Status * list Event :=
  match plan_worker_rpc_addresses plan !! u with
  | None => (Err kInternal, [])
  | Some _ =>
      let request := BuildStartTransferControlRequest plan u in
      (env_dispatch env u request, [EvDispatch u request])
  end.
Definition submit_one (plan : PoolReshardPlan) (u : RaidenId) : Status * option Status * list Event :=
  match plan_src_schedule_keys plan !! u with
  | None => (Err kInternal, None, [])
  | Some key =>
      match CompileStartTransfer (BuildStartTransferForTarget plan u) with
      | Err c => (Err c, None, [])
      | Ok compiled => (OkStatus, Some (env_submit env key compiled), [EvSubmit key compiled])
      end
  end.

(** The awaited replies are stored by their position among the submitted ones. *)
Definition await_replies (statuses : list Status) (replies : list Status) : list Status :=
  imap (λ i st, match replies !! i with Some (Err c) => Err c | _ => st end) statuses.

Definition first_error (statuses : list Status) : Status :=
  default OkStatus (head (filter (λ st, st ≠ OkStatus) statuses)).

Definition dispatch_senders (plan : PoolReshardPlan) : StatusOr (Status * list Event) :=
  match delivery with
  | kFramed =>
      let results := dispatch_one plan <$> plan_src_units plan in
      Ok (first_error results.*1, results ≫= snd)
  | kController false => Err kInternal
  | kController true =>
      let results := submit_one plan <$> plan_src_units plan in
      Ok (first_error (await_replies (fst <$> results.*1) (omap snd results.*1)), results ≫= snd)
  end.

Definition with_abandon (index : Z) (ctx : ChainContext) (registry : RequestBlockRegistry)
    : RequestBlockRegistry * list Event :=
  if index =? 0
  then ((AbandonClaim (ar_req_id (cx_args ctx)) (cx_uuid ctx) (cx_claim_owner ctx) registry).2, [EvAbandon])
  else (registry, []).

Definition RunSubPlan (ttl now : Z) (ctx : ChainContext) (index : Z) (registry : RequestBlockRegistry)
    : Status * RequestBlockRegistry * list Event :=
  let '(plan, registry) :=
    BuildPoolReshardPlan (env_atoi env) (env_streams env) ttl now (sub_plan_request ctx index)
      (cx_claim_owner ctx) registry in
  match plan with
  | Err c =>
      let '(registry, events) := with_abandon index ctx registry in (Err c, registry, events)
  | Ok plan =>
      let chained := 1 <? ch_count (cx_chain ctx) in
      let plan := set_run_fields plan (ar_skip_d2h (cx_args ctx)) (if chained then index else 0)
                    (if chained then ch_count (cx_chain ctx) else 0) ∅ in
      let attempts := if index =? 0 then 1 else kChainArmAttempts in
      let '(armed, arm_events) :=
        arm_loop plan (Z.to_nat attempts) 0 attempts ((λ u, (u, None)) <$> plan_dst_units plan) in
      match armed with
      | Err c =>
          let '(registry, events) := with_abandon index ctx registry in
          (Err c, registry, arm_events ++ events)
      | Ok armed =>
          let plan := set_receiver_addrs plan (forward_addrs plan armed) in
          match dispatch_senders plan with
          | Err c =>
              let '(registry, events) := with_abandon index ctx registry in
              (Err c, registry, arm_events ++ events)
          | Ok (status, events) => (status, registry, arm_events ++ events)
          end
      end
  end.
End run.

(** ** The sub-transfer chain *)
Lemma foldl_alter_range {A} (f : Z → A → A) (first a : Z) (m : nat) (sp : list A) (j : nat) :
  0 <= first + a →
  foldl (λ sp w, alter (f w) (Z.to_nat (first + w)) sp) sp (seqZ a (Z.of_nat m)) !! j =
  (if bool_decide (first + a <= Z.of_nat j < first + a + Z.of_nat m) then f (Z.of_nat j - first) else id)
    <$> sp !! j.
Proof.
  revert a sp; induction m as [|m IH]; intros a sp Ha.
  { rewrite bool_decide_false, seqZ_nil by lia. cbn [foldl]. by destruct (sp !! j). }
  rewrite seqZ_cons by lia. cbn [foldl]. replace (Z.pred (Z.of_nat (S m))) with (Z.of_nat m) by lia.
  rewrite IH by lia. destruct (decide (Z.to_nat (first + a) = j)) as [<-|Hne].
  - rewrite list_lookup_alter_eq, bool_decide_false, bool_decide_true by lia.
    replace (Z.of_nat (Z.to_nat (first + a)) - first) with a by lia. by destruct (sp !! _).
  - rewrite list_lookup_alter_ne by done. f_equal. case_bool_decide.
    + by rewrite bool_decide_true by lia.
    + by rewrite bool_decide_false by lia.
Qed.

Section chain.
Context (longest : Z) (k window count : nat → Z).
Context (Hk : ∀ i, 1 <= k i <= longest).

Definition slice_at (i : nat) (j : Z) : list SubTransferSlice :=
  if bool_decide (longest - k i <= j < longest)
  then [window_slice i (k i) (window i) (count i) (j - (longest - k i))] else [].

Lemma add_tag_windows_lookup sp i j :
  add_tag_windows longest sp i (k i) (window i) (count i) !! j =
  (λ l, l ++ slice_at i (Z.of_nat j)) <$> sp !! j.
Proof.
  pose proof (Hk i). unfold add_tag_windows. replace (seqZ 0 (k i)) with (seqZ 0 (Z.of_nat (Z.to_nat (k i)))) by (f_equal; lia).
  rewrite (foldl_alter_range (λ w l, l ++ [window_slice i (k i) (window i) (count i) w])) by lia.
  unfold slice_at. rewrite Z2Nat.id by lia. destruct (sp !! j) as [l|]; [|done]. cbn. f_equal.
  case_bool_decide.
  - by rewrite bool_decide_true by lia.
  - rewrite bool_decide_false by lia. by rewrite app_nil_r.
Qed.

Definition chain_plans (n : nat) : list (list SubTransferSlice) :=
  foldl (λ sp i, add_tag_windows longest sp i (k i) (window i) (count i))
    (replicate (Z.to_nat longest) []) (seq 0 n).

Lemma chain_plans_eq n :
  chain_plans n = (λ j, seq 0 n ≫= λ i, slice_at i j) <$> seqZ 0 longest.
Proof.
  unfold chain_plans. apply list_eq. intros j.
  assert (∀ l sp, foldl (λ sp i, add_tag_windows longest sp i (k i) (window i) (count i)) sp l !! j =
    (λ x, x ++ (l ≫= λ i, slice_at i (Z.of_nat j))) <$> sp !! j) as H.
  { induction l as [|i l IH]; intros sp; cbn [foldl].
    - destruct (sp !! j) as [x|]; [|done]. cbn. by rewrite app_nil_r.
    - rewrite IH, add_tag_windows_lookup. destruct (sp !! j) as [x|]; [|done]. cbn. by rewrite <- app_assoc. }
  rewrite H, list_lookup_fmap. destruct (decide (j < Z.to_nat longest)%nat) as [Hj|Hj].
  - rewrite lookup_replicate_2 by done. rewrite lookup_seqZ_lt by lia. cbn. done.
  - rewrite !lookup_ge_None_2 by (rewrite ?length_replicate, ?length_seqZ; lia). done.
Qed.

(** A tag's slices, in sub-plan order. *)
Definition tag_slices (i : nat) (plans : list (list SubTransferSlice)) : list SubTransferSlice :=
  plans ≫= filter (λ sl, sl_tag_index sl = i).

Lemma window_slice_tag i ki w c x : sl_tag_index (window_slice i ki w c x) = i.
Proof. unfold window_slice. by case_match. Qed.

Lemma filter_slice_at i i' j : filter (λ sl, sl_tag_index sl = i) (slice_at i' j) =
  if decide (i' = i) then slice_at i' j else [].
Proof.
  unfold slice_at. destruct (bool_decide _); [|by destruct (decide _)].
  rewrite filter_cons, window_slice_tag. by destruct (decide (i' = i)).
Qed.

Lemma filter_bind_seq {A} (P : A → Prop) `{∀ x, Decision (P x)} (l : list nat) (f : nat → list A) :
  filter P (l ≫= f) = l ≫= λ i, filter P (f i).
Proof. induction l as [|x l IH]; [done|]. by rewrite !bind_cons, filter_app, IH. Qed.

Lemma bind_seq_single {A} (i a n : nat) (f : nat → list A) :
  (a <= i < a + n)%nat → (seq a n ≫= λ x, if decide (x = i) then f x else []) = f i.
Proof.
  revert a; induction n as [|n IH]; intros a Hi; [lia|]. cbn. destruct (decide (a = i)) as [->|Hne].
  - rewrite (Forall_bind_ext _ (λ _, []) (seq (S i) n)).
    + assert (∀ l : list nat, (l ≫= λ _, @nil A) = []) as -> by (induction l; done). apply app_nil_r.
    + apply Forall_seq. intros x Hx. by rewrite decide_False by lia.
  - rewrite IH by lia. done.
Qed.

Lemma seqZ_last_part (first : Z) (f : Z → SubTransferSlice) :
  0 <= first <= longest →
  (seqZ 0 longest ≫= λ j, if bool_decide (first <= j < longest) then [f (j - first)] else []) =
  f <$> seqZ 0 (longest - first).
Proof.
  intros Hf. replace longest with (first + (longest - first)) at 1 by lia.
  rewrite seqZ_app by lia. rewrite bind_app.
  rewrite (Forall_bind_ext _ (λ _, []) (seqZ 0 first)).
  2:{ apply Forall_forall. intros x Hx%elem_of_seqZ. by rewrite bool_decide_false by lia. }
  assert (∀ l : list Z, (l ≫= λ _, @nil SubTransferSlice) = []) as -> by (induction l; done).
  rewrite (Forall_bind_ext _ (λ j, [f (j - first)]) (seqZ (0 + first) _)).
  2:{ apply Forall_forall. intros x Hx%elem_of_seqZ. by rewrite bool_decide_true by lia. }
  rewrite app_nil_l, Z.add_comm, <- (fmap_add_seqZ first 0 (longest - first)), list_fmap_bind.
  induction (seqZ 0 (longest - first)) as [|x l IH]; [done|]. rewrite bind_cons, IH. cbn. f_equal.
  f_equal. lia.
Qed.

Lemma tag_slices_chain i n :
  (i < n)%nat →
  tag_slices i (chain_plans n) = window_slice i (k i) (window i) (count i) <$> seqZ 0 (k i).
Proof.
  intros Hi. unfold tag_slices. rewrite chain_plans_eq, list_fmap_bind. pose proof (Hk i).
  rewrite (Forall_bind_ext _ (λ j, if bool_decide (longest - k i <= j < longest)
    then [window_slice i (k i) (window i) (count i) (j - (longest - k i))] else [])).
  - rewrite seqZ_last_part by lia. do 2 f_equal. lia.
  - apply Forall_forall. intros j _. unfold compose. rewrite filter_bind_seq.
    rewrite (Forall_bind_ext _ (λ x, if decide (x = i) then slice_at x j else [])).
    + rewrite bind_seq_single by lia. done.
    + apply Forall_forall. intros x _. by rewrite filter_slice_at.
Qed.
End chain.

(** A tag's windows tile its destination list. *)
Lemma tag_num_windows_ceil window count :
  0 < count < 2 ^ 31 → 0 <= window →
  (tag_num_windows window count = 1 ∧ (0 < window → count <= window)) ∨
  (0 < window < count ∧ 2 <= tag_num_windows window count < 2 ^ 31 ∧
   (tag_num_windows window count - 1) * window < count <= tag_num_windows window count * window).
Proof.
  intros Hc Hw. unfold tag_num_windows.
  destruct (Z.ltb_spec 0 window), (Z.ltb_spec window count); cbn [andb]; try (left; lia).
  right. rewrite (i64_small (count + window)), (i64_small (_ - 1)) by lia.
  rewrite Z.quot_div_nonneg by lia.
  pose proof (Z.div_mod (count + window - 1) window ltac:(lia)).
  pose proof (Z.mod_pos_bound (count + window - 1) window ltac:(lia)).
  set (q := (count + window - 1) `div` window) in *.
  assert (2 <= q) by nia. assert (q < 2 ^ 31) by nia.
  rewrite i32_small by lia. split; [lia|]. split; [lia|]. nia.
Qed.

Lemma windows_prefix_tile i ki window count (m : nat) :
  0 < window → 2 <= ki → Z.of_nat m <= ki → (ki - 1) * window < count <= ki * window →
  ((window_slice i ki window count <$> seqZ 0 (Z.of_nat m)) ≫= λ sl, seqZ (sl_offset sl) (sl_count sl)) =
  seqZ 0 (Z.min (Z.of_nat m * window) count).
Proof.
  intros Hw Hk. induction m as [|m IH]; intros Hm Hc.
  { rewrite !seqZ_nil by lia. done. }
  rewrite seqZ_S, fmap_app, bind_app, IH by lia. cbn [fmap list_fmap].
  unfold window_slice. rewrite (proj2 (Z.eqb_neq ki 1)) by lia. cbn. rewrite app_nil_r.
  assert (Z.of_nat m * window <= (ki - 1) * window) by nia.
  rewrite (Z.min_l (Z.of_nat m * window)) by lia.
  replace (Z.of_nat m * window) with (0 + Z.of_nat m * window) at 2 by lia.
  rewrite <- seqZ_app by lia. f_equal. lia.
Qed.

Lemma windows_tile i window count :
  0 < count < 2 ^ 31 → 0 <= window →
  let ki := tag_num_windows window count in
  let slices := window_slice i ki window count <$> seqZ 0 ki in
  (slices ≫= λ sl, seqZ (sl_offset sl) (sl_count sl)) = seqZ 0 count ∧
  Forall (λ sl, 0 <= sl_offset sl ∧ 0 < sl_count sl ∧ sl_offset sl + sl_count sl <= count ∧
    (0 < window → sl_count sl <= window) ∧ (sl_total sl = 0 ∨ sl_total sl = count)) slices.
Proof.
  intros Hc Hw ki slices. destruct (tag_num_windows_ceil window count Hc Hw) as [[Hk Hle]|(Hw' & Hk & Hb)].
  - unfold slices, ki. rewrite Hk. change (seqZ 0 1) with [0]. cbn. rewrite app_nil_r. split; [done|].
    constructor; [|constructor]. cbn. split; [lia|]. split; [lia|]. split; [lia|]. auto.
  - subst slices. fold ki in Hk, Hb. split.
    + rewrite <- (Z2Nat.id ki) at 2 by lia. rewrite windows_prefix_tile by lia. f_equal. lia.
    + apply Forall_fmap, Forall_forall. intros w Hin%elem_of_seqZ. unfold compose, window_slice.
      rewrite (proj2 (Z.eqb_neq ki 1)) by lia. cbn.
      assert (0 <= w * window <= (ki - 1) * window) by nia. lia.
Qed.

(** ** Inverting PlanSubTransfers *)
Lemma foldl_i64_exact counts t :
  0 <= t → Forall (λ c, 0 < c) counts → t + zsum id counts < 2 ^ 63 →
  foldl (λ s c, i64 (s + c)) t counts = t + zsum id counts.
Proof.
  intros Ht Hc. revert t Ht; induction Hc as [|c counts Hc Hcs IH]; intros t Ht Hlt; cbn [foldl]; [cbn; lia|].
  pose proof (zsum_nonneg counts Hcs).
  replace (zsum id (c :: counts)) with (c + zsum id counts) in * by done.
  rewrite i64_small by lia. rewrite IH by lia. lia.
Qed.

Lemma existsb_false_Forall {A} (f : A → bool) (l : list A) :
  existsb f l = false → Forall (λ x, f x = false) l.
Proof.
  induction l as [|x l IH]; cbn; [constructor|]. intros [H1 H2]%orb_false_iff. constructor; auto.
Qed.

Lemma chain_counts_ok tags counts ids result :
  chain_counts (length tags) counts ids = Some result →
  block_counts tags counts ids = Ok result ∧ length result = length tags ∧ Forall (λ c, 0 < c) result ∧
  foldl (λ s c, i64 (s + c)) 0 result = Z.of_nat (length ids) ∧ (counts = [] ∨ result = counts).
Proof.
  unfold chain_counts, block_counts.
  assert (∀ cs, existsb (λ c, c <=? 0) cs = false → Forall (λ c, 0 < c) cs) as Hpos.
  { intros cs E%existsb_false_Forall. eapply Forall_impl; [exact E|]. cbn. intros x Hx%Z.leb_gt. lia. }
  destruct counts as [|c counts].
  - destruct (Nat.eqb_spec (length tags) 1) as [H1|]; [|done]. destruct tags as [|t [|]]; try done.
    case_match eqn:Ep; [done|]. case_match eqn:Es; [|done]. intros [= <-].
    split; [done|]. split; [done|]. split; [by apply Hpos|]. split; [by apply Z.eqb_eq|by left].
  - destruct (Nat.eqb_spec (length (c :: counts)) (length tags)) as [Hl|]; [|done].
    rewrite (proj2 (Z.eqb_eq (Z.of_nat (length (c :: counts))) (Z.of_nat (length tags)))) by lia.
    cbn [negb]. case_match eqn:Ep; [done|]. case_match eqn:Es; [|done]. intros [= <-]. cbn [orb negb].
    split; [done|]. split; [done|]. split; [by apply Hpos|]. split; [by apply Z.eqb_eq|by right].
Qed.

Lemma foldl_max_ge_Z (l : list Z) e :
  e <= foldl Z.max e l ∧ Forall (λ x, x <= foldl Z.max e l) l.
Proof.
  revert e; induction l as [|x l IH]; intros e; cbn; [split; [lia|constructor]|].
  destruct (IH (Z.max e x)) as [H1 H2]. split; [lia|]. constructor; [lia|done].
Qed.

Lemma PlanSubTransfers_inv args chain :
  PlanSubTransfers args = Ok chain → 1 < ch_count chain →
  ∃ counts, let windows := ar_dst_window_blocks args in
    let nw i := tag_num_windows (windows !!! i) (counts !!! i) in
    chain_counts (length (ar_transfer_pool_tags args)) (ar_dst_block_counts args)
      (ar_dst_device_block_ids args) = Some counts ∧
    length windows = length (ar_transfer_pool_tags args) ∧ Forall (λ w, 0 <= w) windows ∧
    (∀ i, (i < length windows)%nat → nw i <= ch_count chain) ∧
    ch_sub_plans chain = chain_plans (ch_count chain) nw (λ i, windows !!! i) (λ i, counts !!! i)
                           (length windows).
Proof.
  unfold PlanSubTransfers. destruct (existsb _ _) eqn:En; [done|].
  destruct (existsb (λ w, 0 <? w) _); cbn [negb]; [|intros [= <-]; cbn; lia].
  destruct (Nat.eqb_spec (length (ar_dst_window_blocks args)) (length (ar_transfer_pool_tags args)))
    as [Hl|]; [|done]. cbn [negb].
  destruct (chain_counts _ _ _) as [counts|] eqn:Ec; [|intros [= <-]; cbn; lia].
  destruct (windows_aliased _ _); [intros [= <-]; cbn; lia|].
  set (nws := zip_with tag_num_windows _ _). case_match; intros [= <-]; cbn [ch_count ch_sub_plans];
    [cbn; lia|]. intros Hlong. exists counts.
  apply chain_counts_ok in Ec as Hcc. destruct Hcc as (_ & Lc & _).
  assert (∀ i, (i < length (ar_dst_window_blocks args))%nat →
    nws !! i = Some (tag_num_windows (ar_dst_window_blocks args !!! i) (counts !!! i))) as Hnw.
  { intros i Hi. destruct (lookup_lt_is_Some_2 (ar_dst_window_blocks args) i Hi) as [w Hw].
    destruct (lookup_lt_is_Some_2 counts i) as [c Hc]; [lia|].
    unfold nws. rewrite lookup_zip_with, Hw. cbn. rewrite Hc. cbn.
    by rewrite (list_lookup_total_correct _ _ _ Hw), (list_lookup_total_correct _ _ _ Hc). }
  split; [done|]. split; [done|]. split.
  { apply existsb_false_Forall in En. eapply Forall_impl; [exact En|]. cbn. intros x Hx%Z.ltb_ge. done. }
  split.
  { intros i Hi. destruct (foldl_max_ge_Z nws 1) as [_ Hf]. rewrite Forall_lookup in Hf.
    exact (Hf i _ (Hnw i Hi)). }
  unfold chain_plans. rewrite Hl. generalize (replicate (Z.to_nat (foldl Z.max 1 nws)) (@nil SubTransferSlice)) as sp.
  assert (Forall (λ i, (i < length (ar_dst_window_blocks args))%nat) (seq 0 (length (ar_transfer_pool_tags args)))) as Hall.
  { apply Forall_seq. lia. }
  induction Hall as [|i l Hi _ IH]; intros sp; [done|]. cbn [foldl]. rewrite IH.
  by rewrite (list_lookup_total_correct _ _ _ (Hnw i Hi)).
Qed.

(** The tag's ids, in the planner's split and from the chain's tag starts. *)
Lemma split_ids_lookup counts ids i c :
  Forall (λ c, 0 < c) counts → counts !! i = Some c →
  split_ids counts ids !! i =
    Some (take (Z.to_nat c) (drop (Z.to_nat (zsum id (take i counts))) ids)).
Proof.
  intros Hc. revert ids i; induction Hc as [|x counts Hx Hcs IH]; intros ids i Hi; [done|].
  destruct i as [|i]; [by injection Hi as ->|].
  change (split_ids (x :: counts) ids !! S i) with (split_ids counts (drop (Z.to_nat x) ids) !! i).
  rewrite IH, drop_drop by done. cbn [take].
  assert (0 <= zsum id (take i counts)) by (by apply zsum_nonneg, Forall_take).
  change (zsum id (x :: take i counts)) with (x + zsum id (take i counts)).
  by rewrite Z2Nat.inj_add by lia.
Qed.

Lemma tag_starts_lookup counts cursor i c :
  0 <= cursor → Forall (λ c, 0 < c) counts → cursor + zsum id counts < 2 ^ 63 → counts !! i = Some c →
  tag_starts cursor counts !! i = Some (cursor + zsum id (take i counts)).
Proof.
  intros Hcur Hc. revert cursor i Hcur; induction Hc as [|x counts Hx Hcs IH]; intros cursor i Hcur Hlt Hi; [done|].
  pose proof (zsum_nonneg counts Hcs).
  change (zsum id (x :: counts)) with (x + zsum id counts) in Hlt.
  destruct i as [|i]; [cbn; f_equal; lia|]. cbn [tag_starts take].
  change ((cursor :: tag_starts (i64 (cursor + x)) counts) !! S i) with (tag_starts (i64 (cursor + x)) counts !! i).
  rewrite i64_small, IH by (done || lia). f_equal.
  change (zsum id (x :: take i counts)) with (x + zsum id (take i counts)). lia.
Qed.

Lemma zsum_take_drop counts i c :
  counts !! i = Some c → Forall (λ c, 0 < c) counts → zsum id (take i counts) + c <= zsum id counts.
Proof.
  intros Hi Hc. revert i Hi; induction Hc as [|x counts Hx Hcs IH]; intros i Hi; [done|].
  change (zsum id (x :: counts)) with (x + zsum id counts). pose proof (zsum_nonneg counts Hcs).
  destruct i as [|i]; [injection Hi as ->; cbn; lia|]. cbn [take].
  change (zsum id (x :: take i counts)) with (x + zsum id (take i counts)). specialize (IH i Hi). lia.
Qed.

(** Slices that tile a range of a list read the range. *)
Lemma tiled_slices (l : list Z) (start c : Z) (slices : list SubTransferSlice) :
  0 <= start → 0 <= c → start + c <= Z.of_nat (length l) →
  (slices ≫= λ sl, seqZ (sl_offset sl) (sl_count sl)) = seqZ 0 c →
  Forall (λ sl, 0 <= sl_offset sl ∧ 0 < sl_count sl ∧ sl_offset sl + sl_count sl <= c) slices →
  (slices ≫= λ sl, take (Z.to_nat (sl_count sl)) (drop (Z.to_nat (start + sl_offset sl)) l)) =
  take (Z.to_nat c) (drop (Z.to_nat start) l).
Proof.
  intros Hs Hc Hle Ht Hf.
  rewrite (Forall_bind_ext _ (λ sl, (λ x, l !!! Z.to_nat (start + x)) <$> seqZ (sl_offset sl) (sl_count sl))).
  - rewrite <- fmap_of_bind, Ht. pose proof (slice_lookup l start c Hs Hle Hc) as Hsl. unfold slice in Hsl.
    rewrite Hsl. replace (seqZ start c) with (Z.add start <$> seqZ 0 c) by (by rewrite fmap_add_seqZ, Z.add_0_r).
    by rewrite <- list_fmap_compose.
  - eapply Forall_impl; [exact Hf|]. intros sl (H1 & H2 & H3).
    pose proof (slice_lookup l (start + sl_offset sl) (sl_count sl) ltac:(lia) ltac:(lia) ltac:(lia)) as Hsl.
    unfold slice in Hsl. rewrite Hsl.
    replace (seqZ (start + sl_offset sl) (sl_count sl)) with (Z.add start <$> seqZ (sl_offset sl) (sl_count sl))
      by (by rewrite fmap_add_seqZ).
    by rewrite <- list_fmap_compose.
Qed.

(** What a split request looks like. *)
Definition num_windows_of (args : PoolReshardArgs) (counts : list Z) (i : nat) : Z :=
  tag_num_windows (ar_dst_window_blocks args !!! i) (counts !!! i).

Record chain_shape (args : PoolReshardArgs) (chain : SubTransferChain) (counts : list Z) : Prop := {
  cs_long : 1 < ch_count chain;
  cs_counts : block_counts (ar_transfer_pool_tags args) (ar_dst_block_counts args)
                (ar_dst_device_block_ids args) = Ok counts;
  cs_given : ar_dst_block_counts args = [] ∧ counts = [Z.of_nat (length (ar_dst_device_block_ids args))] ∨
             counts = ar_dst_block_counts args;
  cs_length : length (ar_dst_window_blocks args) = length counts;
  cs_pos : Forall (λ c, 0 < c < 2 ^ 31) counts;
  cs_total : zsum id counts = Z.of_nat (length (ar_dst_device_block_ids args)) ∧ zsum id counts < 2 ^ 31;
  cs_windows : Forall (λ w, 0 <= w) (ar_dst_window_blocks args);
  cs_k : ∀ i, 1 <= num_windows_of args counts i <= ch_count chain;
  cs_plans : ch_sub_plans chain =
    (λ j, seq 0 (length counts) ≫= λ i, slice_at (ch_count chain) (num_windows_of args counts)
       (λ i, ar_dst_window_blocks args !!! i) (λ i, counts !!! i) i j) <$> seqZ 0 (ch_count chain);
}.

Lemma counts_bounded counts n :
  Forall (λ c, 0 < c) counts → zsum id counts < n → Forall (λ c, 0 < c < n) counts.
Proof.
  intros Hpos Hn. apply Forall_lookup. intros i c Hi. pose proof (zsum_take_drop counts i c Hi Hpos).
  pose proof (zsum_nonneg (take i counts) ltac:(by apply Forall_take)).
  rewrite Forall_lookup in Hpos. specialize (Hpos i c Hi). lia.
Qed.

Lemma PlanSubTransfers_shape args chain :
  PlanSubTransfers args = Ok chain → 1 < ch_count chain →
  zsum id (ar_dst_block_counts args) < 2 ^ 63 →
  Z.of_nat (length (ar_dst_device_block_ids args)) < 2 ^ 31 →
  ∃ counts, chain_shape args chain counts.
Proof.
  intros HP Hlong Hsum Hlen. destruct (PlanSubTransfers_inv _ _ HP Hlong) as (counts & Hcc & Lw & Hw & Hnw & Hsp).
  apply chain_counts_ok in Hcc as (Hbc & Lc & Hpos & Hfold & Hor).
  assert (ar_dst_block_counts args = [] ∧ counts = [Z.of_nat (length (ar_dst_device_block_ids args))] ∨
          counts = ar_dst_block_counts args) as Hgiven.
  { destruct Hor as [He| ->]; [left|by right]. split; [done|]. rewrite He in Hbc. unfold block_counts in Hbc.
    destruct (ar_transfer_pool_tags args) as [|t [|]]; try done. by injection Hbc as <-. }
  assert (zsum id counts = Z.of_nat (length (ar_dst_device_block_ids args))) as Hz.
  { destruct Hgiven as [[_ ->]| ->]; [cbn; lia|]. rewrite foldl_i64_exact in Hfold by (done || lia). lia. }
  pose proof (counts_bounded counts (2 ^ 31) Hpos ltac:(lia)) as Hcs.
  assert (∀ i, 1 <= num_windows_of args counts i <= ch_count chain) as Hk.
  { intros i. destruct (decide (i < length (ar_dst_window_blocks args))%nat) as [Hi|Hi].
    - specialize (Hnw i Hi). destruct (lookup_lt_is_Some_2 counts i) as [c Hc]; [lia|].
      destruct (lookup_lt_is_Some_2 _ i Hi) as [w Hwi]. rewrite Forall_lookup in Hw, Hcs.
      unfold num_windows_of. rewrite (list_lookup_total_correct _ _ _ Hc), (list_lookup_total_correct _ _ _ Hwi) in *.
      destruct (tag_num_windows_ceil w c (Hcs i c Hc) (Hw i w Hwi)) as [[? _]|(_ & ? & _)]; lia.
    - unfold num_windows_of. rewrite !list_lookup_total_alt, !lookup_ge_None_2 by lia. cbn. lia. }
  exists counts. split; try done; [lia|lia|]. rewrite Hsp, <- (chain_plans_eq _ _ _ _ Hk). by rewrite Lw, Lc.
Qed.

Lemma shape_pos {args chain counts} : chain_shape args chain counts → Forall (λ c, 0 < c) counts.
Proof. intros Hs. eapply Forall_impl; [exact (cs_pos _ _ _ Hs)|]. cbn. lia. Qed.

Section shape.
Context {args : PoolReshardArgs} {chain : SubTransferChain} {counts : list Z}.
Context (Hshape : chain_shape args chain counts) (i : nat) (c : Z) (Hc : counts !! i = Some c).
Let window := ar_dst_window_blocks args !!! i.
Let slices := tag_slices i (ch_sub_plans chain).
Let ids := ar_dst_device_block_ids args.

Lemma shape_index : (i < length counts)%nat ∧ 0 <= window.
Proof.
  destruct Hshape as [_ _ _ Lw _ _ Hw _ _]. pose proof (lookup_lt_Some _ _ _ Hc). split; [done|].
  destruct (lookup_lt_is_Some_2 (ar_dst_window_blocks args) i) as [w Hwi]; [lia|].
  unfold window. rewrite (list_lookup_total_correct _ _ _ Hwi). rewrite Forall_lookup in Hw. by eapply Hw.
Qed.

Lemma shape_slices : slices = window_slice i (tag_num_windows window c) window c <$>
                                seqZ 0 (tag_num_windows window c).
Proof.
  destruct Hshape as [_ _ _ _ _ _ _ Hk Hsp]. unfold slices.
  rewrite Hsp, <- (chain_plans_eq _ _ _ _ Hk), (tag_slices_chain _ _ _ _ Hk i _ (proj1 shape_index)).
  unfold num_windows_of. by rewrite (list_lookup_total_correct _ _ _ Hc).
Qed.

Lemma shape_tiles :
  (slices ≫= λ sl, seqZ (sl_offset sl) (sl_count sl)) = seqZ 0 c ∧
  Forall (λ sl, 0 <= sl_offset sl ∧ 0 < sl_count sl ∧ sl_offset sl + sl_count sl <= c ∧
    (0 < window → sl_count sl <= window) ∧ (sl_total sl = 0 ∨ sl_total sl = c)) slices.
Proof.
  rewrite shape_slices. apply windows_tile; [|apply shape_index].
  pose proof (cs_pos _ _ _ Hshape) as Hp. rewrite Forall_lookup in Hp. by eapply Hp.
Qed.

Lemma shape_range :
  0 <= zsum id (take i counts) ∧ zsum id (take i counts) + c <= Z.of_nat (length ids).
Proof.
  destruct (cs_total _ _ _ Hshape) as [Ht _]. split; [apply zsum_nonneg, Forall_take, (shape_pos Hshape)|].
  pose proof (zsum_take_drop counts i c Hc (shape_pos Hshape)). unfold ids. lia.
Qed.

Lemma shape_ids src_meta dst_meta uuid owner :
  (slices ≫= slice_ids (make_context args src_meta dst_meta uuid owner chain)) =
  take (Z.to_nat c) (drop (Z.to_nat (zsum id (take i counts))) ids).
Proof.
  pose proof shape_range as [Hr1 Hr2]. destruct shape_tiles as [Htile Hall].
  rewrite (Forall_bind_ext _ (λ sl, take (Z.to_nat (sl_count sl))
    (drop (Z.to_nat (zsum id (take i counts) + sl_offset sl)) ids))).
  { apply tiled_slices; [lia| |lia|done|eapply Forall_impl; [exact Hall|cbn; tauto]].
    pose proof (shape_pos Hshape) as Hp. rewrite Forall_lookup in Hp. specialize (Hp i c Hc). lia. }
  apply Forall_forall. intros sl Hin. unfold slice_ids, make_context.
  rewrite (proj2 (Z.ltb_lt 1 _) (cs_long _ _ _ Hshape)). cbn [cx_tag_starts cx_args].
  rewrite shape_slices in Hin. apply list_elem_of_fmap in Hin as (w & -> & _). rewrite window_slice_tag.
  f_equal. f_equal. f_equal. f_equal. apply list_lookup_total_correct.
  destruct (cs_total _ _ _ Hshape) as [Ht Ht'].
  pose proof (tag_starts_lookup counts 0 i c ltac:(lia) (shape_pos Hshape) ltac:(lia) Hc) as Hts.
  destruct (cs_given _ _ _ Hshape) as [[-> Heq]|Heq]; [by rewrite <- Heq|].
  rewrite <- Heq. by destruct counts.
Qed.

Lemma shape_once :
  Forall (λ plan, (length (filter (λ sl, sl_tag_index sl = i) plan) <= 1)%nat) (ch_sub_plans chain).
Proof.
  rewrite (cs_plans _ _ _ Hshape). apply Forall_fmap, Forall_forall. intros j _. unfold compose.
  rewrite filter_bind_seq. rewrite (Forall_bind_ext _ (λ x, if decide (x = i) then
    slice_at (ch_count chain) (num_windows_of args counts) (λ i, ar_dst_window_blocks args !!! i)
      (λ i, counts !!! i) x j else [])).
  - rewrite bind_seq_single by (pose proof shape_index; lia). unfold slice_at. case_bool_decide; cbn; lia.
  - apply Forall_forall. intros x _. by rewrite filter_slice_at.
Qed.

Lemma shape_last :
  ∃ last_plan sl, last (ch_sub_plans chain) = Some last_plan ∧ sl ∈ last_plan ∧ sl_tag_index sl = i.
Proof.
  pose proof (cs_long _ _ _ Hshape). pose proof (cs_k _ _ _ Hshape i) as Hki. rewrite (cs_plans _ _ _ Hshape).
  rewrite fmap_last, last_lookup, length_seqZ, lookup_seqZ_lt by lia. cbn [fmap option_fmap option_map].
  replace (0 + Z.of_nat (pred (Z.to_nat (ch_count chain)))) with (ch_count chain - 1) by lia.
  eexists _, (window_slice i (num_windows_of args counts i) window (counts !!! i)
                (num_windows_of args counts i - 1)).
  split; [reflexivity|]. split; [|apply window_slice_tag].
  apply list_elem_of_bind. exists i. split; [|apply elem_of_seq; pose proof shape_index; lia].
  unfold slice_at. rewrite bool_decide_true by lia. apply list_elem_of_singleton. f_equal. lia.
Qed.
End shape.

(** A sub-transfer chain partitions the request.  When a request is split, the
    planner accepts its per-tag counts; the chain has [ch_count] sub-plans; and for
    every tag its slices, in sub-plan order, tile the tag's destination list, so
    the block ids they name are the tag's ids in order; each slice is non-empty and
    no longer than the tag's window; no sub-plan has two slices of a tag, and the
    last sub-plan has one of every tag. *)
Theorem PlanSubTransfers_tiles args chain :
  PlanSubTransfers args = Ok chain → 1 < ch_count chain →
  zsum id (ar_dst_block_counts args) < 2 ^ 63 →
  Z.of_nat (length (ar_dst_device_block_ids args)) < 2 ^ 31 →
  ∃ counts,
    block_counts (ar_transfer_pool_tags args) (ar_dst_block_counts args) (ar_dst_device_block_ids args)
      = Ok counts ∧
    Z.of_nat (length (ch_sub_plans chain)) = ch_count chain ∧
    ∀ i ids_i, split_ids counts (ar_dst_device_block_ids args) !! i = Some ids_i →
    let window := ar_dst_window_blocks args !!! i in
    let slices := tag_slices i (ch_sub_plans chain) in
    (slices ≫= λ sl, seqZ (sl_offset sl) (sl_count sl)) = seqZ 0 (Z.of_nat (length ids_i)) ∧
    (∀ src_meta dst_meta uuid owner,
       (slices ≫= slice_ids (make_context args src_meta dst_meta uuid owner chain)) = ids_i) ∧
    Forall (λ sl, 0 < sl_count sl ∧ (0 < window → sl_count sl <= window)) slices ∧
    Forall (λ plan, (length (filter (λ sl, sl_tag_index sl = i) plan) <= 1)%nat) (ch_sub_plans chain) ∧
    ∃ last_plan sl, last (ch_sub_plans chain) = Some last_plan ∧ sl ∈ last_plan ∧ sl_tag_index sl = i.
Proof.
  intros HP Hlong Hsum Hlen. destruct (PlanSubTransfers_shape _ _ HP Hlong Hsum Hlen) as (counts & Hs).
  exists counts. split; [apply Hs|]. split.
  { rewrite (cs_plans _ _ _ Hs), length_fmap, length_seqZ. lia. }
  intros i ids_i Hids window slices.
  destruct (lookup_lt_is_Some_2 counts i) as [c Hc].
  { apply lookup_lt_Some in Hids. by rewrite length_split_ids in Hids. }
  rewrite (split_ids_lookup counts _ i c (shape_pos Hs) Hc) in Hids. injection Hids as <-.
  destruct (shape_tiles Hs i c Hc) as [Htile Hall]. pose proof (shape_range Hs i c Hc).
  assert (0 < c) by exact (proj1 (Forall_lookup _ _) (shape_pos Hs) i c Hc).
  split; [|split; [|split; [|split]]].
  - unfold slices. rewrite Htile. f_equal. rewrite length_take, length_drop. lia.
  - intros. by apply (shape_ids Hs).
  - eapply Forall_impl; [exact Hall|]. cbn. tauto.
  - by apply (shape_once Hs i c).
  - by apply (shape_last Hs i c).
Qed.

(** ** A chain of three sub-transfers: a windowed tag of five blocks and a whole tag of two *)
Definition chain_args_ex : PoolReshardArgs :=
  mkArgs [] [] "req" [10; 11; 12; 13; 14; 20; 21] true true MEMORY_TYPE_HBM "" 77 true None
    ["kv"; "state"] true None false [5; 2] [] [2; 0].
Definition chain_ex : SubTransferChain :=
  mkChain 3 [[mkSlice 0 0 2 5]; [mkSlice 0 2 2 5]; [mkSlice 0 4 1 5; mkSlice 1 0 2 0]].

Lemma PlanSubTransfers_tiles_witness :
  PlanSubTransfers chain_args_ex = Ok chain_ex ∧
  ∃ counts, block_counts ["kv"; "state"] [5; 2] [10; 11; 12; 13; 14; 20; 21] = Ok counts.
Proof.
  split; [reflexivity|].
  destruct (PlanSubTransfers_tiles chain_args_ex chain_ex) as (counts & H & _);
    [reflexivity|reflexivity|reflexivity|reflexivity|]. exists counts. exact H.
Defined.

(** ** Requests as programs *)
Lemma entry_to_proto_pool e : pool_entry (entry_to_proto e).
Proof.
  pose proof (i32_range (se_src_block_id e)). pose proof (i32_range (se_dst_block_id e)).
  unfold pool_entry, int32_range, entry_to_proto. cbn. repeat (split; [lia|]). done.
Qed.

Lemma proto_entries_ok (entries : list ScheduleEntry) :
  entries ≠ [] → entry_to_proto <$> entries ≠ [] ∧ Forall pool_entry (entry_to_proto <$> entries).
Proof.
  intros Hne. split; [by destruct entries|]. apply Forall_fmap, Forall_forall. intros e _. apply entry_to_proto_pool.
Qed.

Lemma target_schedules_ok plan u :
  map_Forall (λ _ entries, entries ≠ [] ∧ Forall pool_entry entries)
    (shard_push_schedules (BuildStartTransferForTarget plan u)).
Proof.
  cbn. destruct (target_is_receiver plan u).
  - unfold receiver_schedules. apply (map_fold_weak_ind (λ m _, map_Forall _ m)); [by apply map_Forall_empty|].
    intros src entries m r _ Hr. case_match; [|done]. case_bool_decide as E; [done|].
    apply map_Forall_insert_2; [|done]. by apply proto_entries_ok.
  - unfold sender_schedules. case_match; [|apply map_Forall_empty]. case_bool_decide; [apply map_Forall_empty|].
    apply map_Forall_singleton. by apply proto_entries_ok.
Qed.

(** C37: A worker gets the same request through either door.  For every plan with a pool
    group, each unit's StartTransferRequest compiles, and what the worker lowers
    from the program is the request the framed control pipe would carry; in
    particular a sender's program never fails to compile. *)
Theorem program_door_equals_framed_door plan u :
  plan_pool_groups plan ≠ [] → - 2 ^ 63 <= plan_uuid plan < 2 ^ 63 →
  ∃ p, CompileStartTransfer (BuildStartTransferForTarget plan u) = Ok p ∧
    LowerToStartTransfer p = Ok (BuildStartTransferControlRequest plan u).2.
Proof.
  intros Hg Hu. apply Lower_Compile_ok. split; try done; [|apply target_schedules_ok].
  unfold HasPoolReshardFields. cbn. rewrite length_fmap.
  rewrite (bool_decide_false (length _ = _)), orb_true_r; [done|]. by destruct (plan_pool_groups plan).
Qed.

Lemma program_door_equals_framed_door_witness :
  ∃ p, CompileStartTransfer (BuildStartTransferForTarget plan_ex unit_a) = Ok p ∧
    LowerToStartTransfer p = Ok (BuildStartTransferControlRequest plan_ex unit_a).2.
Proof.
  apply (program_door_equals_framed_door plan_ex unit_a).
  - intros E. pose proof plan_ex_group as G. rewrite E in G. discriminate G.
  - vm_compute. split; congruence.
Defined.
