(* ===== verification/Delivery.v ===== *)
(** * Delivery: from a plan to the bytes at the receivers
    (the composition of pool_reshard_planner.cc, reshard_coordinator.cc and
     transfer_plan.cc under src/tpu_sync/kv_cache)

    The planner's schedule, cut by the coordinator into one request per unit, is
    resolved by the sending and the receiving engines into memory ranges.  The
    theorems connect the three: both ends of every push resolve the same entries,
    and all pushes of a destination block together write every live byte of its
    expected extent exactly once. *)

From S2P Require Import Prelude RaidenTypes PoolLayout WorkUnitDirectory RequestBlockRegistry.
From S2P Require Import PoolReshardPlanner WireTypes TransferProgram BuildReshardPlan TransferPlan.
From S2P Require Import PlanEntries ReshardCoordinator.

(** ** Plans whose pushes can be routed *)

(** What the coordinator relies on: no unit is on both sides, the active senders are
    the units with a schedule, their ranks tell them apart on the wire, endpoints
    are not empty, groups use disjoint pools, and every sender pairs the pools of
    the groups it sends to with pools of its own, one to one. *)
Record routed (plan : PoolReshardPlan) : Prop := {
  rt_sides u : u ∈ plan_src_units plan → u ∉ plan_dst_units plan;
  rt_active u entries : plan_schedules plan !! u = Some entries → u ∈ plan_src_units plan ∧ entries ≠ [];
  rt_key u : u ∈ plan_src_units plan → ∃ key, plan_src_schedule_keys plan !! u = Some key ∧ 0 <= key < 2 ^ 31;
  rt_keys_inj u u' key : plan_src_schedule_keys plan !! u = Some key →
    plan_src_schedule_keys plan !! u' = Some key → u = u';
  rt_peer v : v ∈ plan_dst_units plan → plan_dst_peers plan !!! v ≠ EmptyString;
  rt_groups : NoDup (plan_pool_groups plan ≫= pg_pool_indices);
  rt_indices i : i ∈ plan_pool_groups plan ≫= pg_pool_indices → 0 <= i < 2 ^ 31;
  rt_remap u : u ∈ plan_src_units plan → ∃ remap, plan_src_pool_indices plan !! u = Some remap ∧
    (∀ i j, remap !! i = Some j → 0 <= j < 2 ^ 31) ∧
    (∀ i i' j, remap !! i = Some j → remap !! i' = Some j → i = i');
  rt_paired u entries e g group remap i : plan_schedules plan !! u = Some entries → e ∈ entries →
    se_pool_group e = Z.of_nat g → plan_pool_groups plan !! g = Some group → i ∈ pg_pool_indices group →
    plan_src_pool_indices plan !! u = Some remap → is_Some (remap !! i);
}.

(** Entries the wire and the engines can represent. *)
Definition entries_in_range (plan : PoolReshardPlan) : Prop :=
  map_Forall (λ _ entries, Forall (λ e, entry_ok e ∧ se_dst_shard_idx e = 0) entries) (plan_schedules plan).

(** The pool a sender addresses for destination pool [i]. *)
Definition sender_pool (plan : PoolReshardPlan) (u : RaidenId) (i : Z) : Z :=
  match plan_src_pool_indices plan !! u with
  | Some remap => default (-1) (remap !! i)
  | None => -1
  end.

(** The entries of the push of block [sb] of [u] into block [db] of the unit at [peer],
    for pool group [g]. *)
Definition planned_push (plan : PoolReshardPlan) (u : RaidenId) (g : Z) (peer : string) (sb db : Z)
    : list ScheduleEntry :=
  filter (λ e, se_pool_group e = g ∧ se_dst_peer e = peer ∧ se_src_block_id e = sb ∧ se_dst_block_id e = db)
    (default [] (plan_schedules plan !! u)).

Lemma entry_proto_value e : entry_ok e → entry_value (entry_to_proto e) = e.
Proof.
  intros [_ _ _ _ [H1 H2]]. unfold entry_value, entry_to_proto. cbn.
  rewrite !i32_small by lia. by destruct e.
Qed.
Lemma entries_proto_value (entries : list ScheduleEntry) :
  Forall entry_ok entries → entry_value <$> (entry_to_proto <$> entries) = entries.
Proof. induction 1 as [|e es He _ IH]; [done|]. rewrite !fmap_cons, entry_proto_value, IH; done. Qed.

Lemma NoDup_bind_same {A B} (f : A → list B) (l : list A) i j x y z :
  NoDup (l ≫= f) → l !! i = Some x → l !! j = Some y → z ∈ f x → z ∈ f y → i = j.
Proof.
  revert i j; induction l as [|a l IH]; intros i j; [done|]. cbn [mbind list_bind].
  intros (_ & Hdis & Hnd)%NoDup_app Hi Hj Hx Hy.
  destruct i as [|i], j as [|j]; cbn in Hi, Hj; [done| | |f_equal; by eapply IH]; exfalso.
  - injection Hi as ->. apply (Hdis z Hx), list_elem_of_bind. exists y. split; [done|]. by eapply list_elem_of_lookup_2.
  - injection Hj as ->. apply (Hdis z Hy), list_elem_of_bind. exists x. split; [done|]. by eapply list_elem_of_lookup_2.
Qed.

Section routes.
Context (plan : PoolReshardPlan) (Hr : routed plan) (Hin : entries_in_range plan).

Lemma range_entries u entries : plan_schedules plan !! u = Some entries → Forall entry_ok entries.
Proof. intros Hu. eapply Forall_impl; [exact (Hin u entries Hu)|]. by intros e [? _]. Qed.

Lemma sender_schedule u entries :
  plan_schedules plan !! u = Some entries →
  push_schedules (BuildStartTransferForTarget plan u) !! 0 = Some entries.
Proof.
  intros Hu. destruct (rt_active _ Hr u entries Hu) as [Hs Hne]. unfold push_schedules. rewrite lookup_fmap. cbn.
  unfold target_is_receiver. rewrite bool_decide_false by (by apply (rt_sides _ Hr)).
  unfold sender_schedules. rewrite Hu, bool_decide_false by done. rewrite lookup_singleton_eq. cbn.
  by rewrite entries_proto_value by (by eapply range_entries).
Qed.

Lemma receiver_schedules_lookup v u key :
  plan_src_schedule_keys plan !! u = Some key →
  receiver_schedules plan v !! key =
  match plan_schedules plan !! u with
  | None => None
  | Some entries =>
      let filtered := filter (λ e, se_dst_peer e = plan_dst_peers plan !!! v) entries in
      if bool_decide (filtered = []) then None else Some (entry_to_proto <$> filtered)
  end.
Proof.
  intros Hk. unfold receiver_schedules.
  apply (map_fold_weak_ind (λ acc m, acc !! key = match m !! u with
    | None => None
    | Some entries =>
        let filtered := filter (λ e, se_dst_peer e = plan_dst_peers plan !!! v) entries in
        if bool_decide (filtered = []) then None else Some (entry_to_proto <$> filtered)
    end)); [by rewrite !lookup_empty|].
  intros u' entries m acc Hm Hacc. destruct (decide (u' = u)) as [->|Hne].
  - rewrite lookup_insert_eq, Hk. rewrite Hm in Hacc. cbn zeta. case_bool_decide; [done|].
    by rewrite lookup_insert_eq.
  - rewrite lookup_insert_ne by done. destruct (plan_src_schedule_keys plan !! u') as [key'|] eqn:Ek; [|done].
    case_bool_decide; [done|]. rewrite lookup_insert_ne; [done|].
    intros ->. apply Hne. by eapply (rt_keys_inj _ Hr).
Qed.

Lemma receiver_schedule v u key entries :
  v ∈ plan_dst_units plan → plan_src_schedule_keys plan !! u = Some key →
  plan_schedules plan !! u = Some entries →
  filter (λ e, se_dst_peer e = plan_dst_peers plan !!! v) entries ≠ [] →
  push_schedules (BuildStartTransferForTarget plan v) !! key =
    Some (filter (λ e, se_dst_peer e = plan_dst_peers plan !!! v) entries).
Proof.
  intros Hv Hk Hu Hne. unfold push_schedules. rewrite lookup_fmap. cbn. unfold target_is_receiver.
  rewrite bool_decide_true by done. rewrite (receiver_schedules_lookup v u key Hk), Hu. cbn zeta.
  rewrite bool_decide_false by done. cbn. rewrite entries_proto_value; [done|].
  pose proof (range_entries u entries Hu) as Hok. rewrite Forall_forall in Hok.
  apply Forall_forall. intros e [_ He]%list_elem_of_filter. by apply Hok.
Qed.

Lemma group_of_pool g group e i :
  plan_pool_groups plan !! g = Some group → i ∈ pg_pool_indices group →
  (∃ group', 0 <= se_pool_group e ∧ plan_pool_groups plan !! Z.to_nat (se_pool_group e) = Some group' ∧
     i ∈ pg_pool_indices group') ↔ se_pool_group e = Z.of_nat g.
Proof.
  intros Hg Hi. split.
  - intros (group' & H0 & Hg' & Hi').
    pose proof (NoDup_bind_same _ _ _ _ _ _ i (rt_groups _ Hr) Hg' Hg Hi' Hi). lia.
  - intros ->. exists group. rewrite Nat2Z.id. split; [lia|done].
Qed.

Lemma target_groups t e layer :
  plan_pool_groups plan ≠ [] → 0 <= layer < 2 ^ 31 →
  entry_targets_pool (BuildStartTransferForTarget plan t) layer e = true ↔
  ∃ group', 0 <= se_pool_group e ∧ plan_pool_groups plan !! Z.to_nat (se_pool_group e) = Some group' ∧
    layer ∈ local_pool_indices plan t (pg_pool_indices group').
Proof.
  intros Hne Hl. unfold entry_targets_pool, pool_addressed. cbn.
  rewrite bool_decide_false by (by destruct (plan_pool_groups plan)). cbn [negb].
  destruct (Z.ltb_spec (se_pool_group e) 0) as [Hneg|Hpos]; [split; [done|]; intros (? & ? & _); lia|].
  rewrite list_lookup_fmap, i32_small by lia.
  destruct (plan_pool_groups plan !! _) as [group'|]; cbn; [|split; [done|by intros (? & _ & ? & _)]].
  rewrite bool_decide_eq_true. split; [by exists group'|]. by intros (? & _ & [= <-] & ?).
Qed.

Lemma receiver_targets v g group i e :
  v ∈ plan_dst_units plan → plan_pool_groups plan !! g = Some group → i ∈ pg_pool_indices group →
  entry_targets_pool (BuildStartTransferForTarget plan v) i e = true ↔ se_pool_group e = Z.of_nat g.
Proof.
  intros Hv Hg Hi. assert (0 <= i < 2 ^ 31) as Hrange.
  { apply (rt_indices _ Hr), list_elem_of_bind. exists group. split; [done|]. by eapply list_elem_of_lookup_2. }
  rewrite target_groups by (done || by intros E; rewrite E in Hg). rewrite <- (group_of_pool g group e i Hg Hi).
  assert (∀ l, i ∈ local_pool_indices plan v l ↔ i ∈ l) as Hl.
  { intros l. unfold local_pool_indices. rewrite list_elem_of_filter, list_elem_of_fmap.
    unfold local_pool_index, sender_remap, target_is_receiver. rewrite (bool_decide_true (v ∈ _)) by done.
    rewrite andb_false_r. naive_solver lia. }
  by setoid_rewrite Hl.
Qed.

Lemma sender_targets u entries e0 g group i e :
  plan_schedules plan !! u = Some entries → e0 ∈ entries → se_pool_group e0 = Z.of_nat g →
  plan_pool_groups plan !! g = Some group → i ∈ pg_pool_indices group →
  entry_targets_pool (BuildStartTransferForTarget plan u) (sender_pool plan u i) e = true ↔
    se_pool_group e = Z.of_nat g.
Proof.
  intros Hu He0 Hg0 Hg Hi. destruct (rt_active _ Hr u entries Hu) as [Hs _].
  destruct (rt_remap _ Hr u Hs) as (remap & Hm & Hran & Hinj).
  destruct (rt_paired _ Hr u entries e0 g group remap i Hu He0 Hg0 Hg Hi Hm) as [j Hj].
  pose proof (Hran i j Hj) as Hjr. unfold sender_pool. rewrite Hm, Hj.
  change (default (-1) (Some j)) with j.
  rewrite target_groups by (done || by intros E; rewrite E in Hg). rewrite <- (group_of_pool g group e i Hg Hi).
  assert (∀ l, j ∈ local_pool_indices plan u l ↔ i ∈ l) as Hl.
  { intros l. unfold local_pool_indices. rewrite list_elem_of_filter, list_elem_of_fmap.
    unfold local_pool_index, sender_remap, target_is_receiver, target_is_sender.
    rewrite bool_decide_true, bool_decide_false, Hm by (done || by apply (rt_sides _ Hr)). cbn. split.
    - intros (_ & i' & Hi' & Hin'). destruct (remap !! i') as [j'|] eqn:Ej; cbn in Hi'; [|lia]. subst j'.
      by rewrite (Hinj i i' j Hj Ej).
    - intros Hin'. split; [lia|]. exists i. by rewrite Hj. }
  by setoid_rewrite Hl.
Qed.

(** Both requests hold exactly the planned entries of a push. *)
Lemma sender_push_entries u entries e0 g group i v sb db :
  plan_schedules plan !! u = Some entries → e0 ∈ entries → se_pool_group e0 = Z.of_nat g →
  v ∈ plan_dst_units plan →
  plan_pool_groups plan !! g = Some group → i ∈ pg_pool_indices group →
  push_entries_of (BuildStartTransferForTarget plan u) (sender_pool plan u i) (plan_dst_peers plan !!! v) sb db
    entries = planned_push plan u (Z.of_nat g) (plan_dst_peers plan !!! v) sb db.
Proof.
  intros Hu He0 Hg0 Hv Hg Hi.
  unfold push_entries_of, planned_push. rewrite Hu. cbn [default]. apply filter_ext_in. intros e _.
  rewrite (sender_targets u entries e0 g group i e Hu He0 Hg0 Hg Hi). pose proof (rt_peer _ Hr v Hv). naive_solver.
Qed.

Lemma receiver_push_entries u entries g group i v sb db :
  plan_schedules plan !! u = Some entries → v ∈ plan_dst_units plan →
  plan_pool_groups plan !! g = Some group → i ∈ pg_pool_indices group →
  push_entries_of (BuildStartTransferForTarget plan v) i EmptyString sb db
    (filter (λ e, se_dst_peer e = plan_dst_peers plan !!! v) entries) =
  planned_push plan u (Z.of_nat g) (plan_dst_peers plan !!! v) sb db.
Proof.
  intros Hu Hv Hg Hi. unfold push_entries_of, planned_push. rewrite Hu, list_filter_filter. cbn [default].
  apply filter_ext_in. intros e _. rewrite (receiver_targets v g group i e Hv Hg Hi). naive_solver.
Qed.
End routes.

(** ** The engines *)

(** A worker's engine: its pools, the staged host blocks, their addresses, and the
    order in which it iterates over schedules. *)
Record Engine := mkEngine {
  en_num_pools : Z;
  en_explicit : bool;
  en_specs : list PoolSpec;
  en_hosts : gmap Z Z;
  en_base : Z → Z → Z;
  en_iteration : list (Z * BlockEntryMap);
}.
Definition host_of (en : Engine) (b : Z) : option Z :=
  if bool_decide (en_hosts en = ∅) then Some b else en_hosts en !! b.
(** The address of a staged block; 0 when it is not staged. *)
Definition block_addr (en : Engine) (b : Z) : Z :=
  match host_of en b with Some h => en_base en b h | None => 0 end.

(** The fields the coordinator sets on a plan before it cuts the requests; the senders'
    requests carry the receivers' addresses, which the receivers' own do not. *)
Record RunFields := mkRunFields {
  rf_skip_d2h : bool; rf_index : Z; rf_count : Z; rf_addrs : gmap RaidenId ReceiverAddrsProto }.
Definition with_run (plan : PoolReshardPlan) (f : RunFields) : PoolReshardPlan :=
  set_run_fields plan (rf_skip_d2h f) (rf_index f) (rf_count f) (rf_addrs f).

(** A worker creates its transfer plan from its own request. *)
Definition engine_plan (plan : PoolReshardPlan) (f : RunFields) (u : RaidenId) (is_sender : bool) (en : Engine)
    : StatusOr TransferPlan :=
  Create (BuildStartTransferForTarget (with_run plan f) u) is_sender (en_num_pools en) (en_explicit en) (en_specs en)
    (en_hosts en).

(** The addresses a sender reads for a push, and those a receiver writes when it is
    announced [n] bytes. *)
Definition sent (S : TransferPlan) (en : Engine) (pool total : Z) (peer : string) (sb db : Z) : list Z :=
  chunk_bytes (ResolvePlanBlockChunks S pool 0 total (-1) peer (-1) db (en_explicit en) (en_base en)
                 (en_iteration en) [sb]).
Definition landed (R : TransferPlan) (en : Engine) (pool n rank sb db : Z) : list Z :=
  chunk_bytes (ResolvePlanBlockChunks R pool 0 n rank EmptyString sb (-1) (en_explicit en) (en_base en)
                 (en_iteration en) [db]).

(** One push is set up: both blocks are staged at non-null addresses, the bytes of its
    entries do not wrap around, and the sender's budget covers them. *)
Record push_set_up (push : list ScheduleEntry) (src_addr dst_addr total : Z) : Prop := {
  ps_src : 0 < src_addr;
  ps_dst : 0 < dst_addr;
  ps_within : Forall (entry_within src_addr dst_addr) push;
  ps_budget : 0 < total ∧ Z.of_nat (length (push ≫= entry_pairs)) <= total;
}.

Section push.
Context (plan : PoolReshardPlan) (Hr : routed plan) (Hin : entries_in_range plan).
Context (v : RaidenId) (Hv : v ∈ plan_dst_units plan) (g : nat) (group : PlanPoolGroup).
Context (Hg : plan_pool_groups plan !! g = Some group) (i : Z) (Hi : i ∈ pg_pool_indices group).
Context (R : TransferPlan) (enR : Engine) (fS fR : RunFields) (HR : engine_plan plan fR v false enR = Ok R).
Let peer := plan_dst_peers plan !!! v.

Lemma block_addr_host en b : 0 < block_addr en b → ∃ h, host_of en b = Some h ∧ en_base en b h = block_addr en b.
Proof. unfold block_addr. destruct (host_of en b) as [h|]; [eauto|lia]. Qed.

Lemma planned_push_elem u sb db e :
  e ∈ planned_push plan u (Z.of_nat g) peer sb db →
  ∃ entries, plan_schedules plan !! u = Some entries ∧ e ∈ entries ∧ se_pool_group e = Z.of_nat g ∧
    se_dst_peer e = peer ∧ se_src_block_id e = sb ∧ se_dst_block_id e = db ∧ entry_ok e ∧ se_dst_shard_idx e = 0.
Proof.
  unfold planned_push. intros [(Hgr & Hp & Hs & Hd) He]%list_elem_of_filter.
  destruct (plan_schedules plan !! u) as [entries|] eqn:Eu; [|set_solver]. exists entries.
  pose proof (Hin u entries Eu) as Hall. cbn in Hall. rewrite Forall_forall in Hall.
  destruct (Hall e He) as [Hok Hshard]. naive_solver.
Qed.

Lemma push_delivered u key S enS sb db total :
  plan_src_schedule_keys plan !! u = Some key →
  engine_plan plan fS u true enS = Ok S →
  planned_push plan u (Z.of_nat g) peer sb db ≠ [] →
  push_set_up (planned_push plan u (Z.of_nat g) peer sb db) (block_addr enS sb) (block_addr enR db) total →
  let pairs := planned_push plan u (Z.of_nat g) peer sb db ≫= entry_pairs in
  let bytes := sent S enS (sender_pool plan u i) total peer sb db in
  bytes = (λ st, block_addr enS sb + st.1) <$> pairs ∧
  landed R enR i (Z.of_nat (length bytes)) key sb db = (λ st, block_addr enR db + st.2) <$> pairs.
Proof.
  intros Hk HS Hne [Hsa Hda Hw [Ht Hb]] pairs bytes.
  assert (∃ e0, e0 ∈ planned_push plan u (Z.of_nat g) peer sb db) as [e0 He0'].
  { clear -Hne. destruct (planned_push _ _ _ _ _ _); [done|]. eexists. left. }
  destruct (planned_push_elem u sb db e0 He0') as (entries & Hu & He0 & Hg0 & Hp0 & Hs0 & Hd0 & Hok0 & _).
  destruct (rt_active _ Hr u entries Hu) as [Hact _].
  destruct (rt_key _ Hr u Hact) as (key' & Hk' & Hkr). rewrite Hk in Hk'. injection Hk' as <-.
  destruct (block_addr_host enS sb Hsa) as (hS & HhS & HbS).
  destruct (block_addr_host enR db Hda) as (hR & HhR & HbR).
  pose proof (eo_ids _ Hok0) as [Hsr Hdr]. rewrite Hs0 in Hsr. rewrite Hd0 in Hdr.
  pose proof (range_entries plan Hin u entries Hu) as Hok.
  assert (filter (λ e, se_dst_peer e = peer) entries ≠ []) as Hfne.
  { intros E. apply (not_elem_of_nil e0). rewrite <- E. by apply list_elem_of_filter. }
  assert (Forall entry_ok (filter (λ e, se_dst_peer e = peer) entries)) as HokR.
  { rewrite Forall_forall in Hok. apply Forall_forall. intros e [_ He]%list_elem_of_filter. by apply Hok. }
  assert (push_entries_of (BuildStartTransferForTarget (with_run plan fS) u) (sender_pool plan u i) peer sb db
    entries = planned_push plan u (Z.of_nat g) peer sb db) as HpS
    by exact (sender_push_entries plan Hr u entries e0 g group i v sb db Hu He0 Hg0 Hv Hg Hi).
  assert (push_entries_of (BuildStartTransferForTarget (with_run plan fR) v) i EmptyString sb db
    (filter (λ e, se_dst_peer e = peer) entries) = planned_push plan u (Z.of_nat g) peer sb db) as HpR
    by exact (receiver_push_entries plan Hr u entries g group i v sb db Hu Hv Hg Hi).
  destruct (push_streams _ _ S R entries _ 0 key (sender_pool plan u i) i sb db peer 0 _ _ _ _ _ _
    _ _ hS hR (en_base enS) (en_base enR) (en_iteration enS) (en_iteration enR) total HS HR
    (sender_schedule plan Hr Hin u entries Hu) (receiver_schedule plan Hr Hin v u key entries Hv Hk Hu Hfne)
    Hok HokR ltac:(lia) Hkr Hsr Hdr) as [H1 H2]; rewrite ?HpS, ?HpR; try done.
  { split; [|lia|lia]. rewrite HbS, HbR. apply Forall_forall. intros e He. rewrite Forall_forall in Hw.
    destruct (planned_push_elem u sb db e He) as (_ & _ & _ & _ & _ & _ & _ & Hoke & ->).
    split; [done|]. split; [reflexivity|]. by apply Hw. }
  rewrite HpS, HbS, take_ge in H1 by lia. rewrite HpS, HbR, take_ge in H2 by lia. split; [exact H1|exact H2].
Qed.
End push.

(** ** Built plans are routed *)
Definition small_manifests (r : PlanRequest) : Prop :=
  Forall (λ m, Z.of_nat (length (rq_pools m)) < 2 ^ 31) (pr_src_metadata r ++ pr_dst_metadata r) ∧
  Z.of_nat (length (pr_src_units r)) < 2 ^ 31.

(** No unit is on both sides, and destination endpoints are not empty. *)
Definition separate_sides (r : PlanRequest) (plan : PoolReshardPlan) : Prop :=
  (∀ u, u ∈ pr_src_units r → u ∉ pr_dst_units r) ∧
  (∀ v, v ∈ pr_dst_units r → plan_dst_peers plan !!! v ≠ EmptyString).

Section built_routes.
Context {SimpleAtoi : string → option Z} {raw_env : option string} {r : PlanRequest}.
Context {s : RequestBlockRegistry} {plan : PoolReshardPlan} {pre : Prepared} {st : GroupState}.
Context (Hb : built SimpleAtoi raw_env r s plan pre st) (Hsmall : small_manifests r).
Context (Hsides : separate_sides r plan).

Lemma pools_small u : Z.of_nat (length (pp_src_pools_of pre u)) < 2 ^ 31 ∧ Z.of_nat (length (pp_dst_pools pre)) < 2 ^ 31.
Proof.
  destruct (prepare_request _ _ _ _ (bt_prepare _ _ _ _ _ _ _ Hb)) as (_ & _ & _ & _ & Hs & Hd).
  destruct Hsmall as [Hm _]. rewrite Forall_forall in Hm. split.
  - destruct (Hs u) as [->|(m & Hin & ->)]; [done|]. apply Hm, elem_of_app. by left.
  - destruct Hd as [->|(m & Hin & ->)]; [done|]. apply Hm, elem_of_app. by right.
Qed.

Lemma built_active u : u ∈ plan_src_units plan ↔ u ∈ pr_src_units r ∧ is_Some (plan_schedules plan !! u).
Proof.
  destruct (prepare_request _ _ _ _ (bt_prepare _ _ _ _ _ _ _ Hb)) as (_ & _ & _ & Hr & _).
  destruct (source_ranks_ok _ _ _ Hr) as (Hin & _ & _). rewrite (bt_plan _ _ _ _ _ _ _ Hb). cbn.
  rewrite list_elem_of_filter, Hin. tauto.
Qed.

Lemma built_schedule_active u entries :
  plan_schedules plan !! u = Some entries → u ∈ plan_src_units plan ∧ entries ≠ [].
Proof.
  intros Hu. destruct (built_entries Hb u entries Hu) as [Hne Hall]. split; [|done].
  apply built_active. split; [|by eexists]. destruct entries as [|e es]; [done|].
  destruct (Hall e (list_elem_of_here _ _)) as (i & tg & pc & _ & [Hsrc _] & _). done.
Qed.

Lemma built_keys u key :
  plan_src_schedule_keys plan !! u = Some key ↔ u ∈ plan_src_units plan ∧ key = i32 (pp_rank_of pre u).
Proof.
  rewrite (bt_plan _ _ _ _ _ _ _ Hb) at 1 2. cbn.
  apply (list_to_map_fn (λ u, i32 (pp_rank_of pre u))).
Qed.

Lemma built_selected pc : pc ∈ (pp_tags pre).*2 → ∃ tg, (tg, pc) ∈ pp_tags pre ∧ tag_ready (pp_dst_pools pre) tg pc ∧
  (∀ first, head (tp_selected pc) = Some first → pp_tag (pool_at (pp_dst_pools pre) first) = tg_tag tg).
Proof.
  intros ([tg pc'] & -> & Hin)%list_elem_of_fmap. exists tg. split; [done|].
  pose proof (proj1 (Forall_forall _ _) (pre_ready _ _ (bt_prepared _ _ _ _ _ _ _ Hb)) _ Hin) as Hready. cbn in *.
  split; [done|]. intros first Hf. rewrite (tr_selected _ _ _ Hready) in Hf. unfold selected_pools in Hf.
  destruct (pools_by_tag (pp_dst_pools pre) !! tg_tag tg) as [l|] eqn:El; [|done]. cbn in Hf.
  apply (pool_at_tagged _ _ _ _ El). by apply head_Some_elem_of.
Qed.

Lemma built_selected_self pc :
  pc ∈ (pp_tags pre).*2 → tp_selected pc = selected_pools (pp_dst_pools pre)
    (pp_tag (pool_at (pp_dst_pools pre) (default 0 (head (tp_selected pc))))).
Proof.
  intros Hin. destruct (built_selected pc Hin) as (tg & _ & Hready & Htag).
  destruct (head (tp_selected pc)) as [first|] eqn:Eh; [cbn; rewrite (Htag first eq_refl); apply Hready|].
  apply head_None in Eh. by pose proof (tr_nonempty _ _ _ Hready).
Qed.

Lemma built_remap u :
  u ∈ plan_src_units plan →
  plan_src_pool_indices plan !! u =
    Some (pool_remap (pp_dst_pools pre) (pp_src_pools_of pre u) (pp_tags pre).*2).
Proof.
  intros Hu. rewrite (bt_plan _ _ _ _ _ _ _ Hb). cbn.
  apply (list_to_map_fn (λ u, pool_remap (pp_dst_pools pre) (pp_src_pools_of pre u) (pp_tags pre).*2)).
  split; [|done]. rewrite (bt_plan _ _ _ _ _ _ _ Hb) in Hu. exact Hu.
Qed.

Lemma built_paired u entries e g group i :
  plan_schedules plan !! u = Some entries → e ∈ entries → se_pool_group e = Z.of_nat g →
  plan_pool_groups plan !! g = Some group → i ∈ pg_pool_indices group →
  is_Some (pool_remap (pp_dst_pools pre) (pp_src_pools_of pre u) (pp_tags pre).*2 !! i).
Proof.
  intros Hu He Hg Hgr Hi. destruct (built_entries Hb u entries Hu) as [_ Hall].
  destruct (Hall e He) as (i0 & tg & pc & Ht & [Hsrc [own Hown]] & Hpe).
  assert (i0 = g) as -> by (pose proof (pl_group _ _ _ _ Hpe); lia).
  destruct (built_groups Hb g group Hgr) as (tg' & pc' & Ht' & Hsel & _ & Hready & Hs).
  rewrite Ht in Ht'. injection Ht' as <- <-. rewrite Hsel in Hi.
  assert (pc ∈ (pp_tags pre).*2) as Hpc
    by (apply list_elem_of_fmap; exists (tg, pc); split; [done|]; by eapply list_elem_of_lookup_2).
  apply (pool_remap_defined _ _ _ pc own); [done|done| |].
  - intros first Hf. destruct (built_selected pc Hpc) as (tg' & Hin & Hready' & Htag). rewrite (Htag first Hf).
    enough (tg_tag tg' = tg_tag tg) as -> by done. rewrite <- (Htag first Hf).
    rewrite Hs in Hf. unfold selected_pools in Hf.
    destruct (pools_by_tag (pp_dst_pools pre) !! tg_tag tg) as [l|] eqn:El; [|done]. cbn in Hf.
    apply (pool_at_tagged _ _ _ _ El). by apply head_Some_elem_of.
  - destruct (prepare_request _ _ _ _ (bt_prepare _ _ _ _ _ _ _ Hb)) as (_ & Hm & _).
    rewrite Forall_forall in Hm. rewrite Hs. unfold selected_pools.
    destruct (pools_by_tag (pp_dst_pools pre) !! tg_tag tg) as [l|] eqn:El; [|cbn; lia]. cbn.
    by rewrite (tags_match_length _ _ _ _ _ (Hm u Hsrc) Hown El).
Qed.

Lemma built_index i : i ∈ plan_pool_groups plan ≫= pg_pool_indices → 0 <= i < 2 ^ 31.
Proof.
  intros (group & Hi & [g Hg]%list_elem_of_lookup)%list_elem_of_bind.
  destruct (built_groups Hb g group Hg) as (tg & pc & _ & Hsel & _ & _ & Hs). rewrite Hsel, Hs in Hi.
  unfold selected_pools in Hi. destruct (pools_by_tag _ !! _) as [l|] eqn:El; [|set_solver]. cbn in Hi.
  destruct (pools_by_tag_bounds _ _ _ El) as [_ Hf]. rewrite Forall_forall in Hf. specialize (Hf i Hi).
  pose proof (pools_small (mkRaidenId "" "" "" 0)). lia.
Qed.

Lemma built_routed : routed plan.
Proof.
  pose proof (bt_prepared _ _ _ _ _ _ _ Hb) as Hp. destruct Hsides as [Hsep Hpeer].
  destruct (prepare_request _ _ _ _ (bt_prepare _ _ _ _ _ _ _ Hb)) as (_ & _ & _ & Hr & _).
  destruct (source_ranks_ok _ _ _ Hr) as (_ & Hrange & Hinj).
  assert (plan_dst_units plan = pr_dst_units r) as Hdst by (by rewrite (bt_plan _ _ _ _ _ _ _ Hb)).
  split.
  - intros u Hu. rewrite Hdst. apply Hsep. by apply built_active in Hu as [? _].
  - apply built_schedule_active.
  - intros u Hu. exists (i32 (pp_rank_of pre u)). split; [by apply built_keys|].
    apply built_active in Hu as [Hu _]. specialize (Hrange u Hu). destruct Hsmall as [_ Hlen].
    rewrite i32_small by lia. lia.
  - intros u u' key [Hu ->]%built_keys [Hu' E]%built_keys. apply built_active in Hu as [Hu _].
    apply built_active in Hu' as [Hu' _]. pose proof (Hrange u Hu). pose proof (Hrange u' Hu').
    destruct Hsmall as [_ Hlen]. rewrite !i32_small in E by lia. by apply Hinj.
  - rewrite Hdst. done.
  - apply (built_groups_ok Hb).
  - apply built_index.
  - intros u Hu. eexists. split; [by apply built_remap|]. split.
    + intros i j (pc & k & _ & first & own & _ & Ho & _ & Hj)%pool_remap_paired.
      destruct (pools_by_tag_bounds _ _ _ Ho) as [_ Hf]. rewrite Forall_forall in Hf.
      specialize (Hf j (list_elem_of_lookup_2 _ _ _ Hj)). pose proof (pools_small u). lia.
    + intros i i' j (pc & k & Hpc & H1)%pool_remap_paired (pc' & k' & Hpc' & H2)%pool_remap_paired.
      eapply (paired_inj (pp_dst_pools pre)); [| |exact H1|exact H2]; by apply built_selected_self.
  - intros u entries e g group remap i Hu He Hg Hgr Hi Hm.
    rewrite built_remap in Hm by (by eapply built_schedule_active). injection Hm as <-. by eapply built_paired.
Qed.
End built_routes.

(** ** All pushes of a destination block *)
Lemma group_by_add {A} (f : A → Z) (ks : list Z) x (l : list A) :
  NoDup ks → f x ∈ ks →
  (ks ≫= λ k, filter (λ y, f y = k) (x :: l)) ≡ₚ x :: (ks ≫= λ k, filter (λ y, f y = k) l).
Proof.
  induction 1 as [|k ks Hk Hnd IH]; [set_solver|]. cbn [mbind list_bind]. intros [E|Hin]%elem_of_cons.
  - assert ((ks ≫= λ k', filter (λ y, f y = k') (x :: l)) = ks ≫= λ k', filter (λ y, f y = k') l) as ->.
    { apply Forall_bind_ext, Forall_forall. intros k' Hk'. rewrite filter_cons_False; [done|]. congruence. }
    by rewrite filter_cons_True by done.
  - rewrite filter_cons_False by congruence. rewrite (IH Hin). by rewrite Permutation_middle.
Qed.

Lemma group_by_permutation {A} (f : A → Z) (l : list A) :
  (remove_dups (f <$> l) ≫= λ k, filter (λ x, f x = k) l) ≡ₚ l.
Proof.
  assert (∀ ks, NoDup ks → Forall (λ x, f x ∈ ks) l → (ks ≫= λ k, filter (λ x, f x = k) l) ≡ₚ l) as H.
  { intros ks Hnd. induction 1 as [|x l Hx _ IH].
    - induction ks as [|k ks IH]; [done|]. cbn. apply IH. by apply NoDup_cons in Hnd as [_ ?].
    - by rewrite group_by_add, IH. }
  apply H; [apply NoDup_remove_dups|]. apply Forall_forall. intros x Hx.
  apply elem_of_remove_dups. by apply list_elem_of_fmap_2.
Qed.

(** The pushes into block [B] of the unit at [peer], for group [g]: the senders and
    their source blocks. *)
Definition block_entries_of (g : Z) (peer : string) (B : Z) (entries : list ScheduleEntry) : list ScheduleEntry :=
  filter (λ e, se_pool_group e = g ∧ se_dst_peer e = peer ∧ se_dst_block_id e = B) entries.
Definition block_pushes (plan : PoolReshardPlan) (g : Z) (peer : string) (B : Z) : list (RaidenId * Z) :=
  map_to_list (plan_schedules plan) ≫= λ ue,
    pair ue.1 <$> remove_dups (se_src_block_id <$> block_entries_of g peer B ue.2).

Lemma planned_push_block plan u entries g peer sb B :
  plan_schedules plan !! u = Some entries →
  planned_push plan u g peer sb B = filter (λ e, se_src_block_id e = sb) (block_entries_of g peer B entries).
Proof.
  intros Hu. unfold planned_push, block_entries_of. rewrite Hu, list_filter_filter. cbn [default].
  apply list_filter_iff. intros e. tauto.
Qed.

Lemma bind_bind {A B C} (f : A → list B) (h : B → list C) (l : list A) :
  (l ≫= f) ≫= h = l ≫= λ x, f x ≫= h.
Proof. induction l as [|x l IH]; [done|]. cbn [mbind list_bind]. rewrite bind_app. by f_equal. Qed.

Lemma bind_Permutation_ext {A B} (f h : A → list B) (l : list A) :
  (∀ x, x ∈ l → f x ≡ₚ h x) → l ≫= f ≡ₚ l ≫= h.
Proof.
  induction l as [|x l IH]; intros H; [done|]. cbn [mbind list_bind]. rewrite (H x) by left.
  f_equiv. apply IH. intros y Hy. apply H. by right.
Qed.

(** The planned pushes of a block together are what the schedule writes into it. *)
Lemma pushes_written plan g peer B :
  (block_pushes plan g peer B ≫= λ us, (planned_push plan us.1 g peer us.2 B ≫= entry_pairs)) .*2
  ≡ₚ (λ c : Copy, c.2) <$> written g peer B (all_entries (plan_schedules plan)).
Proof.
  unfold block_pushes, written, all_entries.
  assert (∀ l : list (RaidenId * list ScheduleEntry),
    (λ c : Copy, c.2) <$> (filter (λ ue : RaidenId * ScheduleEntry,
        se_pool_group ue.2 = g ∧ se_dst_peer ue.2 = peer ∧ se_dst_block_id ue.2 = B)
      (l ≫= λ ul, (λ e, (ul.1, e)) <$> ul.2) ≫= entry_copies) =
    (l ≫= λ ul, block_entries_of g peer B ul.2 ≫= entry_pairs).*2) as ->.
  { induction l as [|[u es] l IH]; [done|]. cbn [mbind list_bind]. rewrite filter_app, bind_app, !fmap_app.
    f_equal; [|exact IH]. cbn [fst snd]. clear. unfold block_entries_of. induction es as [|e es IH]; [done|].
    cbn [fmap list_fmap]. rewrite !filter_cons. cbn [snd]. case_decide; [|exact IH].
    cbn [mbind list_bind]. rewrite !fmap_app. f_equal; [|exact IH]. unfold entry_copies. cbn.
    by rewrite <- list_fmap_compose. }
  apply fmap_Permutation.
  rewrite bind_bind. apply bind_Permutation_ext. intros [u es] Hu%elem_of_map_to_list. cbn [fst snd].
  rewrite list_fmap_bind.
  rewrite (Forall_bind_ext _ (λ sb, filter (λ e, se_src_block_id e = sb) (block_entries_of g peer B es) ≫= entry_pairs)).
  - rewrite <- bind_bind. apply bind_Permutation. apply group_by_permutation.
  - apply Forall_forall. intros sb _. unfold compose. cbn [fst snd]. by rewrite (planned_push_block plan u es).
Qed.

(** ** Delivery of a built plan *)
Definition ids_int32 (plan : PoolReshardPlan) : Prop :=
  map_Forall (λ _ entries, Forall (λ e, 0 <= se_src_block_id e < 2 ^ 31 ∧ 0 <= se_dst_block_id e < 2 ^ 31) entries)
    (plan_schedules plan).

Lemma built_in_range {SimpleAtoi raw_env r s plan pre st} :
  built SimpleAtoi raw_env r s plan pre st → ids_int32 plan → entries_in_range plan.
Proof.
  intros Hb Hids u entries Hu. destruct (built_entries Hb u entries Hu) as [_ Hall].
  specialize (Hids u entries Hu). cbn in Hids. rewrite Forall_forall in Hids. apply Forall_forall. intros e He.
  destruct (Hall e He) as (i & tg & pc & _ & _ & [H1 H2 H3 H4 H5 _ _ _]). split; [|done].
  split; try done; [lia|]. by apply Hids.
Qed.

Section delivery.
Context (plan : PoolReshardPlan) (Hr : routed plan) (Hin : entries_in_range plan).
Context (v : RaidenId) (Hv : v ∈ plan_dst_units plan) (g : nat) (group : PlanPoolGroup).
Context (Hg : plan_pool_groups plan !! g = Some group) (i : Z) (Hi : i ∈ pg_pool_indices group).
Context (R : TransferPlan) (enR : Engine) (fS fR : RunFields) (HR : engine_plan plan fR v false enR = Ok R).
Context (S : RaidenId → TransferPlan) (enS : RaidenId → Engine) (total : RaidenId → Z → Z).
Context (HS : ∀ u, u ∈ plan_src_units plan → engine_plan plan fS u true (enS u) = Ok (S u)).
Let peer := plan_dst_peers plan !!! v.

(** What a sender reads and the receiver writes for the push of [us]. *)
Definition push_sent (B : Z) (us : RaidenId * Z) : list Z :=
  sent (S us.1) (enS us.1) (sender_pool plan us.1 i) (total us.1 us.2) (plan_dst_peers plan !!! v) us.2 B.
Definition push_landed (B : Z) (us : RaidenId * Z) : list Z :=
  landed R enR i (Z.of_nat (length (push_sent B us))) (plan_src_schedule_keys plan !!! us.1) us.2 B.

Lemma block_push_elem B us :
  us ∈ block_pushes plan (Z.of_nat g) peer B →
  planned_push plan us.1 (Z.of_nat g) peer us.2 B ≠ [] ∧ us.1 ∈ plan_src_units plan.
Proof.
  unfold block_pushes. intros ([u es] & Hus & Hu%elem_of_map_to_list)%list_elem_of_bind.
  apply list_elem_of_fmap in Hus as (sb & -> & Hsb). rewrite elem_of_remove_dups in Hsb. cbn [fst snd].
  split; [|by eapply rt_active]. rewrite (planned_push_block plan u es) by done.
  apply list_elem_of_fmap in Hsb as (e & -> & He). intros E. apply (not_elem_of_nil e). rewrite <- E.
  by apply list_elem_of_filter.
Qed.

Lemma block_delivered B :
  (∀ us, us ∈ block_pushes plan (Z.of_nat g) peer B →
     push_set_up (planned_push plan us.1 (Z.of_nat g) peer us.2 B) (block_addr (enS us.1) us.2)
       (block_addr enR B) (total us.1 us.2)) →
  (∀ us, us ∈ block_pushes plan (Z.of_nat g) peer B →
     let pairs := planned_push plan us.1 (Z.of_nat g) peer us.2 B ≫= entry_pairs in
     push_sent B us = (λ st, block_addr (enS us.1) us.2 + st.1) <$> pairs ∧
     push_landed B us = (λ st, block_addr enR B + st.2) <$> pairs) ∧
  (block_pushes plan (Z.of_nat g) peer B ≫= push_landed B) ≡ₚ
    (λ o, block_addr enR B + o) <$>
      ((λ c : Copy, c.2) <$> written (Z.of_nat g) peer B (all_entries (plan_schedules plan))).
Proof.
  intros Hset.
  assert (∀ us, us ∈ block_pushes plan (Z.of_nat g) peer B →
     let pairs := planned_push plan us.1 (Z.of_nat g) peer us.2 B ≫= entry_pairs in
     push_sent B us = (λ st, block_addr (enS us.1) us.2 + st.1) <$> pairs ∧
     push_landed B us = (λ st, block_addr enR B + st.2) <$> pairs) as Hpush.
  { intros us Hus. destruct (block_push_elem B us Hus) as [Hne Hact].
    destruct (rt_key _ Hr us.1 Hact) as (key & Hk & _). unfold push_landed.
    rewrite (lookup_total_correct _ _ _ Hk).
    exact (push_delivered plan Hr Hin v Hv g group Hg i Hi R enR fS fR HR us.1 key (S us.1) (enS us.1) us.2 B
      (total us.1 us.2) Hk (HS us.1 Hact) Hne (Hset us Hus)). }
  split; [exact Hpush|].
  rewrite (Forall_bind_ext _ (λ us, (λ st : Z * Z, block_addr enR B + st.2) <$>
    (planned_push plan us.1 (Z.of_nat g) peer us.2 B ≫= entry_pairs)))
    by (apply Forall_forall; intros us Hus; by apply Hpush).
  rewrite <- pushes_written, <- fmap_of_bind, <- list_fmap_compose. done.
Qed.
End delivery.

(** C1: Every planned byte is delivered.  Take a plan built from accepted manifests and
    spans whose two sides are separate, and let every unit's engine create its
    transfer plan from the request the coordinator cuts for it.  For every pool of
    every group and every destination block, if the block's pushes are set up (both
    blocks staged, addresses that do not wrap around), then for each push the
    sender reads and the receiver writes the same planned byte pairs in the same
    order, and the addresses written by all pushes together are exactly the live
    bytes of the block's expected extent, each once. *)
Theorem reshard_delivers_blocks SimpleAtoi raw_env ttl now r owner s plan s' m v g group i B b
    R enR fS fR (S : RaidenId → TransferPlan) enS total :
  manifests_ok r → registered_spans_ok s →
  BuildPoolReshardPlan SimpleAtoi raw_env ttl now r owner s = (Ok plan, s') →
  small_manifests r → separate_sides r plan → ids_int32 plan →
  m ∈ pr_dst_metadata r → head (pr_dst_units r) = Some (RaidenIdFromProto (rq_unit m)) →
  v ∈ pr_dst_units r → plan_pool_groups plan !! g = Some group → i ∈ pg_pool_indices group →
  pg_dst_device_block_ids group !! b = Some B →
  engine_plan plan fR v false enR = Ok R →
  (∀ u, u ∈ plan_src_units plan → engine_plan plan fS u true (enS u) = Ok (S u)) →
  let pushes := block_pushes plan (Z.of_nat g) (plan_dst_peers plan !!! v) B in
  let entries us := planned_push plan us.1 (Z.of_nat g) (plan_dst_peers plan !!! v) us.2 B in
  (∀ us, us ∈ pushes →
     push_set_up (entries us) (block_addr (enS us.1) us.2) (block_addr enR B) (total us.1 us.2)) →
  (∀ us, us ∈ pushes →
     push_sent plan v i S enS total B us = (λ st, block_addr (enS us.1) us.2 + st.1) <$> (entries us ≫= entry_pairs) ∧
     push_landed plan v i R enR S enS total B us = (λ st, block_addr enR B + st.2) <$> (entries us ≫= entry_pairs)) ∧
  ∃ segs e, LiveSegments (pool_at (rq_pools m) i) = Ok segs ∧
    pg_dst_expected_extent_bytes group !! b = Some e ∧ 0 < e ∧
    (pushes ≫= push_landed plan v i R enR S enS total B) ≡ₚ
      (λ o, block_addr enR B + o) <$> slice (segment_bytes segs) 0 e.
Proof.
  intros Hman Hreg HB Hsmall Hsides Hids Hm Hhead Hv Hg Hi Hb HR HS pushes entries Hset.
  destruct (built_plan _ _ _ _ _ _ _ _ _ Hman Hreg HB) as (pre & st & Hbuilt).
  assert (v ∈ plan_dst_units plan) as Hv' by (by rewrite (bt_plan _ _ _ _ _ _ _ Hbuilt)).
  destruct (block_delivered plan (built_routed Hbuilt Hsmall Hsides) (built_in_range Hbuilt Hids) v Hv' g group Hg i Hi
    R enR fS fR HR S enS total HS B Hset) as [Hpush Hall]. split; [exact Hpush|].
  destruct (built_groups Hbuilt g group Hg) as (tg & pc & Ht & Hsel & Hdst & Hready & _).
  destruct (proj2 (proj2 (built_groups_ok Hbuilt)) g tg pc Ht) as (group' & Hg' & Hdone).
  rewrite Hg in Hg'. injection Hg' as <-. apply list_elem_of_lookup in Hv as [d Hd].
  rewrite Hdst in Hb. destruct (gd_bytes _ _ _ _ _ _ _ _ _ Hdone d b v B Hd Hb) as (e & He & Hpos & _ & Hw).
  exists (tp_dst_segments pc), e. split.
  { rewrite (pre_pools _ _ (bt_prepared _ _ _ _ _ _ _ Hbuilt) m Hm Hhead). apply Hready. by rewrite <- Hsel. }
  split; [done|]. split; [done|]. etrans; [exact Hall|]. by apply fmap_Permutation.
Qed.

(** ** A delivered block: two producers, each filling half of block 7 *)
Definition engine_ex (pool : PoolSpecProto) (start : Z) : Engine :=
  mkEngine 1 true (match PoolSpecFromProto pool with Ok spec => [spec] | Err _ => [] end) ∅
    (base_ex start (pp_block_stride_bytes pool)) [].
Definition fields_ex : RunFields := mkRunFields false 0 1 ∅.
Definition sender_ex : Engine := engine_ex src_pool_ex 1000.
Definition receiver_ex : Engine := engine_ex dst_pool_ex 4096.
Definition engine_plan_ex (is_sender : bool) (en : Engine) (u : RaidenId) : TransferPlan :=
  ok_or (mkTransferPlan (BuildStartTransferForTarget plan_ex u) is_sender ∅ ∅ ∅)
    (engine_plan plan_ex fields_ex u is_sender en).

Lemma receiver_plan_ex :
  engine_plan plan_ex fields_ex unit_d false receiver_ex = Ok (engine_plan_ex false receiver_ex unit_d).
Proof. apply ok_or_eq. vm_compute. reflexivity. Qed.
Lemma sender_plans_ex u : u ∈ plan_src_units plan_ex →
  engine_plan plan_ex fields_ex u true sender_ex = Ok (engine_plan_ex true sender_ex u).
Proof.
  assert (plan_src_units plan_ex = [unit_a; unit_b]) as -> by (vm_compute; reflexivity).
  intros [->|[->|[]%not_elem_of_nil]%elem_of_cons]%elem_of_cons; apply ok_or_eq; vm_compute; reflexivity.
Qed.
Lemma pushes_ex : block_pushes plan_ex 0 "d:1" 7 = [(unit_b, 5); (unit_a, 2)].
Proof. vm_compute. reflexivity. Qed.
Lemma push_a_ex : planned_push plan_ex unit_a 0 "d:1" 2 7 = entries_a_ex.
Proof. vm_compute. reflexivity. Qed.
Lemma push_b_ex : planned_push plan_ex unit_b 0 "d:1" 5 7 = [mkEntry "d:1" 0 17 0 4 5 7 0 0 1 0 0].
Proof. vm_compute. reflexivity. Qed.
Lemma sides_ex : small_manifests request_ex ∧ separate_sides request_ex plan_ex ∧ ids_int32 plan_ex.
Proof.
  split; [split; [repeat constructor; cbn; lia|cbn; lia]|]. split; [split|].
  - intros u [->|[->|[]%not_elem_of_nil]%elem_of_cons]%elem_of_cons [E|[]%not_elem_of_nil]%elem_of_cons; done.
  - intros v [->|[]%not_elem_of_nil]%elem_of_cons. vm_compute. discriminate.
  - apply map_Forall_to_list.
    assert (map_to_list (plan_schedules plan_ex) =
      [(unit_b, [mkEntry "d:1" 0 17 0 4 5 7 0 0 1 0 0]); (unit_a, entries_a_ex)]) as -> by (vm_compute; reflexivity).
    repeat constructor; cbn; lia.
Qed.

Lemma reshard_delivers_blocks_witness :
  (block_pushes plan_ex 0 (plan_dst_peers plan_ex !!! unit_d) 7 ≫=
     push_landed plan_ex unit_d 0 (engine_plan_ex false receiver_ex unit_d) receiver_ex
       (engine_plan_ex true sender_ex) (λ _, sender_ex) (λ _ _, 8) 7) ≡ₚ
  [4320; 4321; 4322; 4336; 4337; 4338; 4339; 4340].
Proof.
  destruct sides_ex as (Hsmall & Hsides & Hids).
  destruct (reshard_delivers_blocks (λ _, None) None 100 1 request_ex 1 registry_ex plan_ex build_ex.2
    (meta_ex unit_d "d:1" dst_pool_ex 0) unit_d 0 group_ex 0 7 0 (engine_plan_ex false receiver_ex unit_d) receiver_ex
    fields_ex fields_ex (engine_plan_ex true sender_ex) (λ _, sender_ex) (λ _ _, 8)
    manifests_ex_ok registry_ex_ok build_ex_ok Hsmall Hsides Hids (list_elem_of_here _ _) eq_refl
    (list_elem_of_here _ _) plan_ex_group (list_elem_of_here _ _) eq_refl receiver_plan_ex sender_plans_ex)
    as (_ & segs & e & Hs & He & _ & Hl).
  - assert (plan_dst_peers plan_ex !!! unit_d = "d:1"%string) as -> by (vm_compute; reflexivity).
    change (Z.of_nat 0) with 0. rewrite pushes_ex.
    intros us [->|[->|[]%not_elem_of_nil]%elem_of_cons]%elem_of_cons; cbn [fst snd];
      rewrite ?push_a_ex, ?push_b_ex; split; [done|done| |by vm_compute|done|done| |by vm_compute];
      repeat (apply Forall_cons; split); try apply Forall_nil_2; split; vm_compute; reflexivity.
  - cbn [rq_pools meta_ex] in Hs. rewrite dst_pool_ex_live in Hs. injection Hs as <-.
    cbn in He. injection He as <-. exact Hl.
Defined.
