(* ===== verification/ReshardRun.v ===== *)
(** * ReshardRun: serving a pool-reshard request
    (StartPoolReshard, ExecutePoolReshard, StartChain and the chain thread of
    src/tpu_sync/kv_cache/reshard/reshard_coordinator.cc)

    The coordinator's own state is the transfer status by request, the running
    chains and the claim counter; it shares the directory and the registry with the
    service.  [coordinator_step] interleaves requests, the turns of the chain
    threads, shutdown, and the registry and directory changes others make, and
    records every sub-plan run in a log.  The theorems show the order of arm and
    dispatch calls, the fate of the claim and what a final status means. *)

From S2P Require Import Prelude RaidenTypes PoolLayout WorkUnitDirectory RequestBlockRegistry.
From S2P Require Import PoolReshardPlanner WireTypes TransferProgram BuildReshardPlan ReshardCoordinator.

(** ** State *)
Inductive TransferStatus := kNotStarted | kInProgress | kCompleted | kFailed.
#[export] Instance TransferStatus_eq_dec : EqDecision TransferStatus.
Proof. solve_decision. Defined.

(** A chain and its thread: the next sub-plan to run and the [finished] flag. *)
Record RunningChain := mkRunning {
  rc_ctx : ChainContext; rc_next : Z; rc_finished : bool }.

Record Coordinator := mkCoordinator {
  directory_ : WorkUnitDirectory;
  registry_ : RequestBlockRegistry;
  transfer_status_ : gmap string TransferStatus;
  chains_ : list RunningChain;
  claim_counter : Z;
  stopping_ : bool;
}.

Definition set_registry (r : RequestBlockRegistry) (co : Coordinator) : Coordinator :=
  mkCoordinator (directory_ co) r (transfer_status_ co) (chains_ co) (claim_counter co) (stopping_ co).
Definition set_status (req_id : string) (s : TransferStatus) (co : Coordinator) : Coordinator :=
  mkCoordinator (directory_ co) (registry_ co) (<[req_id := s]> (transfer_status_ co)) (chains_ co)
    (claim_counter co) (stopping_ co).
Definition set_chains (l : list RunningChain) (co : Coordinator) : Coordinator :=
  mkCoordinator (directory_ co) (registry_ co) (transfer_status_ co) l (claim_counter co) (stopping_ co).
Definition set_directory (d : WorkUnitDirectory) (co : Coordinator) : Coordinator :=
  mkCoordinator d (registry_ co) (transfer_status_ co) (chains_ co) (claim_counter co) (stopping_ co).

(** [GetTransferStatus]. *)
Definition GetTransferStatus (req_id : string) (co : Coordinator) : TransferStatus :=
  default kNotStarted (transfer_status_ co !! req_id).

(** ** Requests *)

(** The synchronous validation of StartPoolReshard; every failure is an
    InvalidArgument error. *)
Definition args_valid (args : PoolReshardArgs) : bool :=
  negb (bool_decide (ar_src_units args = [])) &&
  negb (bool_decide (ar_dst_units args = [])) &&
  negb (bool_decide (ar_req_id args = EmptyString)) &&
  ar_has_dst_device_block_ids args &&
  (0 <=? default 0 (ar_num_tokens args)) &&
  negb (bool_decide (ar_transfer_pool_tags args = [])) &&
  ar_use_block_chunks args &&
  bool_decide (ar_dst_mem_type args = MEMORY_TYPE_HBM) &&
  match ar_parallelism args with Some p => 0 <? p | None => true end.

(** What the outside answers to one request: the remote controller's metadata, the
    random uuid, the clock, and the workers. *)
Record World := mkWorld {
  wo_remote : string → StatusOr (list RegisterWorkUnitRequest);
  wo_random : Z;
  wo_now : Z;
  wo_env : Environment;
}.

(** The log of sub-plan runs: the claim owner, the sub-plan and its status. *)
Abbreviation RunLog := (list (Z * Z * Status)).

Section coordinator.
Context (delivery : WorkerDelivery) (ttl : Z).

(** ExecutePoolReshard up to the sub-plans: the metadata of both sides, the uuid,
    the chain and a fresh claim owner. *)
Definition prepare_reshard (w : World) (args : PoolReshardArgs) (co : Coordinator)
    : StatusOr ChainContext * Coordinator :=
  let prepared :=
    if negb (ar_is_sender args) then Err kInvalidArgument
    else
      src_metadata ← LocalMetadata (ar_src_units args) (directory_ co);
      dst_metadata ← (if bool_decide (ar_dst_controller_address args = EmptyString)
                      then LocalMetadata (ar_dst_units args) (directory_ co)
                      else wo_remote w (ar_dst_controller_address args));
      let uuid := if ar_uuid args <=? 0 then wo_random w else ar_uuid args in
      chain ← PlanSubTransfers args;
      Ok (make_context args src_metadata dst_metadata uuid (claim_counter co) chain) in
  match prepared with
  | Err c => (Err c, co)
  | Ok ctx =>
      (Ok ctx, mkCoordinator (directory_ co) (registry_ co) (transfer_status_ co) (chains_ co)
                 (u64 (claim_counter co + 1)) (stopping_ co))
  end.

Definition ReapFinishedChainsLocked (chains : list RunningChain) : list RunningChain :=
  filter (λ c, rc_finished c = false) chains.

Definition StartChain (ctx : ChainContext) (co : Coordinator) : Coordinator :=
  set_chains (ReapFinishedChainsLocked (chains_ co) ++ [mkRunning ctx 1 false]) co.

(** ExecutePoolReshard: the status, [chain_started], the state and the calls made. *)
Definition ExecutePoolReshard (w : World) (args : PoolReshardArgs) (co : Coordinator)
    : Status * bool * Coordinator * list Event :=
  match prepare_reshard w args co with
  | (Err c, co) => (Err c, false, co, [])
  | (Ok ctx, co) =>
      let '(first, registry, events) := RunSubPlan (wo_env w) delivery ttl (wo_now w) ctx 0 (registry_ co) in
      let co := set_registry registry co in
      match first with
      | Err c => (Err c, false, co, events)
      | Ok _ =>
          if 1 <? ch_count (cx_chain ctx) then (OkStatus, true, StartChain ctx co, events)
          else (OkStatus, false, co, events)
      end
  end.

Definition StartPoolReshard (w : World) (args : PoolReshardArgs) (co : Coordinator)
    : Status * Coordinator * list Event :=
  if negb (args_valid args) then (Err kInvalidArgument, co, [])
  else
    let co := set_status (ar_req_id args) kInProgress co in
    let '(status, chain_started, co, events) := ExecutePoolReshard w args co in
    if chain_started then (status, co, events)
    else
      let final := match status with Ok _ => kCompleted | Err _ => kFailed end in
      (status, set_status (ar_req_id args) final co, events).

(** One turn of the thread of chain [k]: shut down, run the next sub-plan, or finish. *)
Definition finish_chain (k : nat) (rc : RunningChain) (ok : bool) (co : Coordinator) : Coordinator :=
  set_status (ar_req_id (cx_args (rc_ctx rc))) (if ok then kCompleted else kFailed)
    (set_chains (<[k := mkRunning (rc_ctx rc) (rc_next rc) true]> (chains_ co)) co).

Definition chain_turn (w : World) (k : nat) (co : Coordinator) : Coordinator * RunLog * list Event :=
  match chains_ co !! k with
  | None => (co, [], [])
  | Some rc =>
      let ctx := rc_ctx rc in
      if rc_finished rc then (co, [], [])
      else if negb (rc_next rc <? ch_count (cx_chain ctx)) then (finish_chain k rc true co, [], [])
      else if stopping_ co then (finish_chain k rc false co, [], [])
      else
        let '(status, registry, events) :=
          RunSubPlan (wo_env w) delivery ttl (wo_now w) ctx (rc_next rc) (registry_ co) in
        let co := set_registry registry co in
        let log := [(cx_claim_owner ctx, rc_next rc, status)] in
        match status with
        | Err _ => (finish_chain k rc false co, log, events)
        | Ok _ => (set_chains (<[k := mkRunning ctx (rc_next rc + 1) false]> (chains_ co)) co, log, events)
        end
  end.

(** The destructor raises the flag, then joins. *)
Definition Shutdown (co : Coordinator) : Coordinator :=
  mkCoordinator (directory_ co) (registry_ co) (transfer_status_ co) (chains_ co) (claim_counter co) true.

(** WaitForSubTransferChains and the joins of the destructor return, with the
    vector swapped out, once every chain has finished; [None] is blocked. *)
Definition WaitForSubTransferChains (co : Coordinator) : option Coordinator :=
  if forallb rc_finished (chains_ co) then Some (set_chains [] co) else None.

(** The sub-plan runs of a request. *)
Definition start_log (w : World) (args : PoolReshardArgs) (co : Coordinator) : RunLog :=
  if negb (args_valid args) then []
  else
    match prepare_reshard w args co with
    | (Err _, _) => []
    | (Ok ctx, _) =>
        [(cx_claim_owner ctx, 0,
          (RunSubPlan (wo_env w) delivery ttl (wo_now w) ctx 0 (registry_ co)).1.1)]
    end.

Inductive coordinator_step : Coordinator → RunLog → Coordinator → Prop :=
  | step_start w args co :
      claim_counter co < 2 ^ 64 - 1 →
      coordinator_step co (start_log w args co) (StartPoolReshard w args co).1.2
  | step_turn w k co : coordinator_step co (chain_turn w k co).1.2 (chain_turn w k co).1.1
  | step_shutdown co : coordinator_step co [] (Shutdown co)
  | step_wait co co' : WaitForSubTransferChains co = Some co' → coordinator_step co [] co'
  | step_registry co r : registry_step ttl (registry_ co) r → coordinator_step co [] (set_registry r co)
  | step_directory co d : coordinator_step co [] (set_directory d co).

Definition Coordinator_new (d : WorkUnitDirectory) (r : RequestBlockRegistry) : Coordinator :=
  mkCoordinator d r ∅ [] 1 false.

Inductive coordinator_reachable : Coordinator → RunLog → Prop :=
  | co_start d r : registry_reachable ttl r → coordinator_reachable (Coordinator_new d r) []
  | co_step co log co' more :
      coordinator_reachable co log → coordinator_step co more co' →
      coordinator_reachable co' (log ++ more).
End coordinator.

(** ** Calls of one sub-transfer *)
Definition arm_target (e : Event) : option RaidenId :=
  match e with EvArm u _ _ => Some u | _ => None end.
Definition is_dispatch (e : Event) : Prop :=
  match e with EvDispatch _ _ | EvSubmit _ _ => True | _ => False end.
Definition is_arm (e : Event) : Prop := match e with EvArm _ _ _ => True | _ => False end.

Lemma BuildPoolReshardPlan_units SimpleAtoi raw_env ttl now r owner s plan s' :
  BuildPoolReshardPlan SimpleAtoi raw_env ttl now r owner s = (Ok plan, s') →
  plan_dst_units plan = pr_dst_units r ∧ NoDup (pr_dst_units r).
Proof.
  unfold BuildPoolReshardPlan. destruct (prepare_plan _ _ _) as [pre|] eqn:Ep; [|done].
  destruct (LookupAndClaim _ _ _ _ _ _ _) as [[regs|] s1] eqn:El; [|done]. intros [= E _].
  bind_ok E as peers Hpeers. bind_ok E as st Hst. case_match; [done|]. injection E as <-.
  split; [done|].
  bind_ok Ep as () Hreq. clear Ep. bind_ok Hreq as () H1. bind_ok Hreq as () H2. bind_ok Hreq as () H3.
  bind_ok Hreq as () Hns. bind_ok Hreq as () Hnd. by apply guard_arg_ok, no_duplicates_ok in Hnd.
Qed.

Section arming.
Context (env : Environment) (plan : PoolReshardPlan).

Lemma arm_round_spec attempt armed replies events :
  arm_round env plan attempt armed = (replies, events) →
  replies.*1 = armed.*1 ∧ Forall is_arm events ∧
  sublist (omap arm_target events) (filter (λ ua, ua.2 = None) armed).*1 ∧
  (∀ u rq addrs, EvArm u rq (ArmOk addrs) ∈ events → (u, ArmOk addrs) ∈ replies) ∧
  ∀ u addrs, (u, ArmOk addrs) ∈ replies → (u, Some addrs) ∈ armed ∨
    EvArm u (BuildStartTransferControlRequest plan u) (ArmOk addrs) ∈ events.
Proof.
  revert replies events; induction armed as [|[u [addrs|]] armed IH]; intros replies events; cbn [arm_round].
  { intros [= <- <-]. split; [done|]. split; [done|]. split; [done|].
    split; intros * []%not_elem_of_nil. }
  - destruct (arm_round env plan attempt armed) as [rs es]. intros [= <- <-].
    destruct (IH rs es eq_refl) as (H1 & H2 & H3 & H4 & H5). rewrite filter_cons_False by done.
    split; [by cbn; rewrite H1|]. split; [done|]. split; [done|].
    split; [intros v rq a Hin; right; by eapply H4|].
    intros v a [[= -> ->]|Hin]%elem_of_cons; [left; left|]. destruct (H5 v a Hin); [left; by right|by right].
  - unfold arm_one. rewrite filter_cons_True by done.
    destruct (arm_round env plan attempt armed) as [rs es].
    destruct (IH rs es eq_refl) as (H1 & H2 & H3 & H4 & H5).
    set (request := BuildStartTransferControlRequest plan u).
    destruct (plan_worker_rpc_addresses plan !! u); intros [= <- <-]; cbn [app].
    + split; [by cbn; rewrite H1|]. split; [by constructor|]. split; [by apply sublist_skip|]. split.
      * intros v rq a [[= -> _ Ha]|Hin]%elem_of_cons; [rewrite <- Ha; left|right; by eapply H4].
      * intros v a [[= -> Ha]|Hin]%elem_of_cons; [right; rewrite <- Ha; left|].
        destruct (H5 v a Hin); [left; by right|right; by right].
    + split; [by cbn; rewrite H1|]. split; [done|]. split; [by apply sublist_cons|].
      split; [intros v rq a Hin; right; by eapply H4|].
      intros v a [?|Hin]%elem_of_cons; [done|]. destruct (H5 v a Hin); [left; by right|by right].
Qed.

Lemma after_round_fst replies : (after_round replies).*1 = replies.*1.
Proof. unfold after_round. rewrite <- list_fmap_compose. done. Qed.

Lemma after_round_armed replies u addrs :
  (u, Some addrs) ∈ after_round replies ↔ (u, ArmOk addrs) ∈ replies.
Proof.
  unfold after_round. rewrite list_elem_of_fmap. split.
  - intros ([v [a|]] & [= <- <-] & ?). done.
  - intros H. exists (u, ArmOk addrs). done.
Qed.

(** The last attempt either fails or arms everyone. *)
Lemma arm_failure_last attempt attempts replies :
  arm_failure env attempt attempts replies = None → attempts <= attempt + 1 →
  Forall (λ ua, is_Some ua.2) (after_round replies).
Proof.
  unfold arm_failure. intros Hh Ha. apply Forall_fmap, Forall_forall. intros [u reply] Hin. cbn.
  destruct reply as [a|c busy]; [by eexists|]. exfalso.
  assert (c ∈ omap (λ ur : RaidenId * ArmReply, match ur.2 with
    | ArmOk _ => None
    | ArmErr c busy => if (attempt + 1 <? attempts) && busy && negb (env_stopping env attempt ur.1)
                       then None else Some c end) replies) as Hc.
  { apply list_elem_of_omap. exists (u, ArmErr c busy). split; [done|]. cbn.
    by rewrite (proj2 (Z.ltb_ge _ _)) by lia. }
  apply head_None in Hh. rewrite Hh in Hc. set_solver.
Qed.

(** Facts about one round's targets. *)
Lemma round_targets (armed : list (RaidenId * option ReceiverAddrsProto)) events :
  NoDup armed.*1 → sublist (omap arm_target events) (filter (λ ua, ua.2 = None) armed).*1 →
  (∀ u, u ∈ omap arm_target events → (u, None) ∈ armed) ∧ NoDup (omap arm_target events).
Proof.
  intros Hnd Hsub. split.
  - intros u Hu. apply (elem_of_sublist _ _ _ Hu) in Hsub.
    apply list_elem_of_fmap in Hsub as ([v o] & -> & [Ho Hin]%list_elem_of_filter). cbn in *. by subst.
  - eapply sublist_NoDup; [|exact Hsub]. eapply sublist_NoDup; [exact Hnd|].
    apply (fmap_sublist fst), sublist_filter.
Qed.

Lemma target_once before after u rq reply :
  NoDup (omap arm_target (before ++ EvArm u rq reply :: after)) → u ∉ omap arm_target after.
Proof. rewrite omap_app. cbn. intros (_ & _ & [H _]%NoDup_cons)%NoDup_app. done. Qed.

Lemma round_then_more (events more : list Event) (replies : list (RaidenId * ArmReply)) before after u rq addrs :
  NoDup replies.*1 → NoDup (omap arm_target events) →
  (∀ u rq addrs, EvArm u rq (ArmOk addrs) ∈ events → (u, ArmOk addrs) ∈ replies) →
  (∀ u, u ∈ omap arm_target more → (u, None) ∈ after_round replies) →
  (∀ before after u rq addrs, more = before ++ EvArm u rq (ArmOk addrs) :: after →
     u ∉ omap arm_target after) →
  events ++ more = before ++ EvArm u rq (ArmOk addrs) :: after → u ∉ omap arm_target after.
Proof.
  intros Hnr Hnd Hok Hmore Hone E. apply app_eq_app in E as (l & [[-> E]|[-> E]]).
  - destruct l as [|e l]; cbn in E; [symmetry in E; by apply (Hone [] _ _ _ _ E)|]. injection E as <- ->.
    rewrite omap_app. intros [Hin|Hin]%elem_of_app; [by eapply target_once|].
    apply Hmore in Hin. assert ((u, Some addrs) ∈ after_round replies) as Hs.
    { apply after_round_armed, (Hok u rq), elem_of_app. right. left. }
    rewrite <- after_round_fst in Hnr.
    apply list_elem_of_lookup in Hin as [i Hi]. apply list_elem_of_lookup in Hs as [j Hj].
    assert (i = j) as ->; [|congruence].
    eapply (NoDup_lookup _ _ _ u Hnr); rewrite list_lookup_fmap; [by rewrite Hi|by rewrite Hj].
  - by apply (Hone l after u rq addrs).
Qed.

Lemma all_armed (armed : list (RaidenId * option ReceiverAddrsProto)) (replies : list (RaidenId * ArmReply)) P u :
  forallb (λ ua, bool_decide (is_Some ua.2)) (after_round replies) = true → u ∈ replies.*1 →
  (∀ u addrs, (u, ArmOk addrs) ∈ replies → (u, Some addrs) ∈ armed ∨ P u addrs) →
  ∃ addrs, (u, Some addrs) ∈ after_round replies ∧ ((u, Some addrs) ∈ armed ∨ P u addrs).
Proof.
  intros Hall%Is_true_eq_left%forallb_True Hu HP. rewrite <- after_round_fst in Hu. rewrite Forall_forall in Hall.
  apply list_elem_of_fmap in Hu as ([v o] & Hv & Hin). cbn in Hv. subst v.
  pose proof (bool_decide_unpack _ (Hall _ Hin)) as [addrs Ho].
  cbn in Ho. subst o. exists addrs. split; [done|]. by apply HP, after_round_armed.
Qed.

Lemma pending_before attempt armed replies events u :
  arm_round env plan attempt armed = (replies, events) → (u, None) ∈ after_round replies → (u, None) ∈ armed.
Proof.
  revert replies events; induction armed as [|[v [addrs|]] armed IH]; intros replies events; cbn [arm_round].
  { intros [= <- <-]. cbn. set_solver. }
  - destruct (arm_round _ _ _ armed) as [rs es]. intros [= <- <-]. cbn.
    intros [?|Hin]%elem_of_cons; [done|]. right. by eapply IH.
  - destruct (arm_one _ _ _ _) as [reply ev]. destruct (arm_round _ _ _ armed) as [rs es]. intros [= <- <-]. cbn.
    intros [[= ->]|Hin]%elem_of_cons; [left|]. right. by eapply IH.
Qed.

(** Every receiver is acknowledged exactly once: an armed one is not asked again. *)
Lemma arm_loop_spec fuel attempt attempts armed result events :
  (0 < fuel)%nat → Z.of_nat fuel = attempts - attempt → NoDup armed.*1 →
  arm_loop env plan fuel attempt attempts armed = (result, events) →
  Forall is_arm events ∧
  (∀ u, u ∈ omap arm_target events → (u, None) ∈ armed) ∧
  (∀ before after u rq addrs, events = before ++ EvArm u rq (ArmOk addrs) :: after →
     u ∉ omap arm_target after) ∧
  ∀ armed', result = Ok armed' → armed'.*1 = armed.*1 ∧ ∀ u, u ∈ armed.*1 →
    ∃ addrs, (u, Some addrs) ∈ armed' ∧
      ((u, Some addrs) ∈ armed ∨ EvArm u (BuildStartTransferControlRequest plan u) (ArmOk addrs) ∈ events).
Proof.
  revert attempt armed result events; induction fuel as [|fuel IH]; intros attempt armed result events Hf Hat Hnd;
    [lia|]. cbn [arm_loop].
  destruct (arm_round env plan attempt armed) as [replies evs] eqn:Er.
  destruct (arm_round_spec _ _ _ _ Er) as (H1 & H2 & H3 & H4 & H5).
  pose proof (round_targets armed evs Hnd H3) as [Hnone Hnde].
  destruct (arm_failure _ _ _ _) as [c|] eqn:Ef.
  { intros [= <- <-]. split; [done|]. split; [done|]. split; [|done].
    intros before after u rq addrs ->. by eapply target_once. }
  destruct (forallb _ _) eqn:Ea.
  - intros [= <- <-]. split; [done|]. split; [done|]. split.
    { intros before after u rq addrs ->. by eapply target_once. }
    intros armed' [= <-]. rewrite after_round_fst, H1. split; [done|]. intros u Hu.
    apply (all_armed armed replies (λ u addrs,
      EvArm u (BuildStartTransferControlRequest plan u) (ArmOk addrs) ∈ evs) u Ea); [by rewrite H1|exact H5].
  - destruct (arm_loop env plan fuel (attempt + 1) attempts (after_round replies)) as [res more] eqn:El.
    intros [= <- <-].
    assert (0 < fuel)%nat as Hpos.
    { destruct fuel; [|lia]. pose proof (arm_failure_last _ _ _ Ef ltac:(lia)) as Hall.
      exfalso. apply not_true_iff_false in Ea. apply Ea, Is_true_eq_true, forallb_True, Forall_forall. intros ua Hin.
      apply bool_decide_pack. rewrite Forall_forall in Hall. by apply Hall. }
    destruct (IH (attempt + 1) (after_round replies) res more Hpos ltac:(lia) ltac:(by rewrite after_round_fst, H1) El) as (J1 & J2 & J3 & J4).
    split; [by apply Forall_app|]. split; [|split].
    + intros u. rewrite omap_app. intros [Hu|Hu]%elem_of_app; [by apply Hnone|].
      by eapply (pending_before _ _ _ _ _ Er), J2.
    + intros before after u rq addrs E. eapply (round_then_more evs more replies before after u rq addrs); try done. by rewrite H1.
    + intros armed' ->. destruct (J4 armed' eq_refl) as [K1 K2]. rewrite K1, after_round_fst. split; [done|].
      intros u Hu. destruct (K2 u) as (addrs & Ka & Kb); [by rewrite after_round_fst, H1|]. exists addrs.
      split; [done|]. destruct Kb as [Kb|Kb]; [|right; apply elem_of_app; by right].
      apply after_round_armed in Kb. destruct (H5 u addrs Kb); [by left|right; apply elem_of_app; by left].
Qed.
End arming.

(** ** Dispatching *)
Lemma first_error_ok statuses : first_error statuses = OkStatus ↔ Forall (λ st, st = OkStatus) statuses.
Proof.
  unfold first_error. induction statuses as [|st statuses IH]; [by split|].
  destruct (decide (st = OkStatus)) as [->|Hne].
  - rewrite filter_cons_False by (intros []; done). rewrite IH, Forall_cons. tauto.
  - rewrite filter_cons_True by done. cbn. rewrite Forall_cons. split; [done|]. by intros [].
Qed.

(** The position at which a reply is stored does not matter for success. *)
Lemma await_replies_ok (results : list (Status * option Status)) :
  Forall (λ r, r.1 = OkStatus ↔ is_Some r.2) results →
  Forall (λ st, st = OkStatus) (await_replies results.*1 (omap snd results)) →
  Forall (λ r, r = (OkStatus, Some OkStatus)) results.
Proof.
  intros Hshape Hall.
  assert (Forall (λ r, r.1 = OkStatus) results) as H1.
  { apply Forall_lookup. intros i r Hi. pose proof (proj1 (Forall_lookup _ _) Hall) as Hi'.
    specialize (Hi' i (match omap snd results !! i with Some (Err c) => Err c | _ => r.1 end)).
    unfold await_replies in Hi'. rewrite list_lookup_imap, list_lookup_fmap, Hi in Hi'. cbn in Hi'.
    specialize (Hi' eq_refl). by destruct (omap snd results !! i) as [[]|]. }
  assert (Forall (λ r, is_Some r.2) results) as H2.
  { apply Forall_lookup. intros i r Hi. rewrite Forall_lookup in Hshape, H1. by apply (Hshape i r Hi), (H1 i r). }
  assert (∀ i r, results !! i = Some r → omap snd results !! i = r.2) as Hpos.
  { clear -H2. induction H2 as [|r results [s Hs] _ IH]; [done|]. intros i r'.
    cbn [omap list_omap]. rewrite Hs. destruct i; cbn; [by intros [= <-]|by apply IH]. }
  apply Forall_lookup. intros i [st o] Hi. rewrite Forall_lookup in H1, H2. rewrite Forall_lookup in Hall.
  pose proof (H1 i _ Hi) as Hst. destruct (H2 i _ Hi) as [s Hs]. cbn in Hst, Hs. subst.
  specialize (Hall i (match s with Err c => Err c | _ => OkStatus end)).
  unfold await_replies in Hall. rewrite list_lookup_imap, list_lookup_fmap, Hi in Hall. cbn in Hall.
  rewrite (Hpos i _ Hi) in Hall. specialize (Hall eq_refl). by destruct s as [[]|].
Qed.

Section dispatching.
Context (env : Environment) (delivery : WorkerDelivery) (plan : PoolReshardPlan).

Lemma dispatch_senders_events st events :
  dispatch_senders env delivery plan = Ok (st, events) → Forall is_dispatch events.
Proof.
  unfold dispatch_senders. destruct delivery as [|[]]; [| |done]; intros [= _ <-]; apply Forall_bind, Forall_fmap,
    Forall_forall; intros u _; unfold compose, dispatch_one, submit_one; repeat case_match; repeat constructor.
Qed.

(** The sender was sent its request, or its compiled program, and took it. *)
Definition sender_took (events : list Event) (u : RaidenId) : Prop :=
  match delivery with
  | kFramed =>
      let request := BuildStartTransferControlRequest plan u in
      EvDispatch u request ∈ events ∧ env_dispatch env u request = OkStatus
  | kController _ =>
      ∃ key program, plan_src_schedule_keys plan !! u = Some key ∧
        CompileStartTransfer (BuildStartTransferForTarget plan u) = Ok program ∧
        EvSubmit key program ∈ events ∧ env_submit env key program = OkStatus
  end.

Lemma dispatch_senders_ok events u :
  dispatch_senders env delivery plan = Ok (OkStatus, events) → u ∈ plan_src_units plan → sender_took events u.
Proof.
  unfold dispatch_senders, sender_took. destruct delivery as [|[]]; [| |done]; intros [= Hst <-] Hu.
  - apply first_error_ok in Hst. rewrite !Forall_fmap, Forall_forall in Hst. specialize (Hst u Hu).
    unfold compose, dispatch_one in Hst. case_match eqn:Ea; [|done]. cbn in Hst. split; [|done].
    apply list_elem_of_bind. exists (dispatch_one env plan u). split; [|by apply list_elem_of_fmap_2].
    unfold dispatch_one. rewrite Ea. left.
  - apply first_error_ok, await_replies_ok in Hst.
    + rewrite !Forall_fmap, Forall_forall in Hst. specialize (Hst u Hu). unfold compose, submit_one in Hst.
      case_match eqn:Ea; [|done]. case_match eqn:Ec; [|done]. cbn in Hst. injection Hst as Hst.
      eexists _, _. split; [done|]. split; [done|]. split; [|done].
      apply list_elem_of_bind. exists (submit_one env plan u). split; [|by apply list_elem_of_fmap_2].
      unfold submit_one. rewrite Ea, Ec. left.
    + rewrite !Forall_fmap. apply Forall_forall. intros v _. unfold compose, submit_one.
      repeat case_match; cbn; split; try done; intros []; done.
Qed.
End dispatching.

(** ** The phases of RunSubPlan *)
Section phases.
Context (env : Environment) (delivery : WorkerDelivery) (ttl now : Z) (ctx : ChainContext) (index : Z).

Definition sub_plan_attempts : Z := if index =? 0 then 1 else kChainArmAttempts.
Definition run_plan (plan : PoolReshardPlan) : PoolReshardPlan :=
  let chained := 1 <? ch_count (cx_chain ctx) in
  set_run_fields plan (ar_skip_d2h (cx_args ctx)) (if chained then index else 0)
    (if chained then ch_count (cx_chain ctx) else 0) ∅.
Definition build (registry : RequestBlockRegistry) : StatusOr PoolReshardPlan * RequestBlockRegistry :=
  BuildPoolReshardPlan (env_atoi env) (env_streams env) ttl now (sub_plan_request ctx index)
    (cx_claim_owner ctx) registry.

Inductive phases (registry : RequestBlockRegistry) : Status → RequestBlockRegistry → list Event → Prop :=
  | failed_before_dispatch c registry1 registry' arms events plan :
      build registry = (plan, registry1) →
      Forall is_arm arms →
      (∀ before after u rq addrs, arms = before ++ EvArm u rq (ArmOk addrs) :: after →
         u ∉ omap arm_target after) →
      with_abandon index ctx registry1 = (registry', events) →
      phases registry (Err c) registry' (arms ++ events)
  | dispatched plan registry1 armed arms status events :
      build registry = (Ok plan, registry1) →
      Forall is_arm arms →
      (∀ before after u rq addrs, arms = before ++ EvArm u rq (ArmOk addrs) :: after →
         u ∉ omap arm_target after) →
      (∀ u, u ∈ plan_dst_units plan → ∃ addrs,
         EvArm u (BuildStartTransferControlRequest (run_plan plan) u) (ArmOk addrs) ∈ arms) →
      dispatch_senders env delivery
        (set_receiver_addrs (run_plan plan) (forward_addrs env (run_plan plan) armed)) = Ok (status, events) →
      phases registry status registry1 (arms ++ events).

Lemma RunSubPlan_phases registry :
  let '(status, registry', events) := RunSubPlan env delivery ttl now ctx index registry in
  phases registry status registry' events.
Proof.
  unfold RunSubPlan. fold (build registry). destruct (build registry) as [[plan|c] registry1] eqn:Eb.
  2: { destruct (with_abandon index ctx registry1) as [registry' events] eqn:Ea.
       apply (failed_before_dispatch _ _ registry1 _ [] events (Err c)); try done.
       intros before after u rq addrs E%(f_equal length). rewrite length_app in E. cbn in E. lia. }
  destruct (BuildPoolReshardPlan_units _ _ _ _ _ _ _ _ _ Eb) as [Hdst Hnd].
  fold (run_plan plan). fold sub_plan_attempts.
  destruct (arm_loop _ _ _ _ _ _) as [result arms] eqn:El.
  assert (plan_dst_units (run_plan plan) = plan_dst_units plan) as Hu by done.
  destruct (arm_loop_spec env (run_plan plan) (Z.to_nat sub_plan_attempts) 0 sub_plan_attempts
    ((λ u, (u, None)) <$> plan_dst_units (run_plan plan)) result arms) as (H1 & _ & H3 & H4); [| | |done|].
  { unfold sub_plan_attempts, kChainArmAttempts. case_match; lia. }
  { unfold sub_plan_attempts, kChainArmAttempts. case_match; lia. }
  { rewrite <- list_fmap_compose. cbn. by rewrite list_fmap_id, Hdst. }
  destruct result as [armed|c].
  2: { destruct (with_abandon index ctx registry1) as [registry' events] eqn:Ea. by econstructor. }
  destruct (dispatch_senders _ _ _) as [[status events]|c] eqn:Ed.
  2: { destruct (with_abandon index ctx registry1) as [registry' events] eqn:Ea. by econstructor. }
  eapply dispatched; try done. intros u Hin. destruct (H4 armed eq_refl) as [_ H5].
  destruct (H5 u) as (addrs & _ & [Hno|Hev]).
  { rewrite <- list_fmap_compose. cbn. by rewrite list_fmap_id. }
  - apply list_elem_of_fmap in Hno as (v & [=] & _).
  - by exists addrs.
Qed.

(** Where a call stands in the event list. *)
Lemma dispatch_after_arms arms events before after e0 :
  Forall is_arm arms → is_dispatch e0 → arms ++ events = before ++ e0 :: after →
  ∃ rest, before = arms ++ rest ∧ events = rest ++ e0 :: after.
Proof.
  intros Ha He0 E. apply app_eq_app in E as (l & [[-> E]|[-> E]]); [|by exists l].
  destruct l as [|e l]; [exists []; by rewrite !app_nil_r|]. injection E as <- ->.
  apply Forall_app in Ha as [_ Ha]. apply Forall_cons in Ha as [Ha _]. by destruct e0.
Qed.

Lemma no_rearm arms events before after u rq addrs :
  Forall (λ e, ¬ is_arm e) events → Forall is_arm arms →
  (∀ before after u rq addrs, arms = before ++ EvArm u rq (ArmOk addrs) :: after → u ∉ omap arm_target after) →
  arms ++ events = before ++ EvArm u rq (ArmOk addrs) :: after → u ∉ omap arm_target after.
Proof.
  intros Hev Ha Hone E.
  assert (∀ l, Forall (λ e, ¬ is_arm e) l → omap arm_target l = []) as Hnil.
  { induction 1 as [|[] l Hn _ IH]; cbn; done. }
  apply app_eq_app in E as (l & [[-> E]|[-> E]]).
  - destruct l as [|e l]; cbn in E.
    { exfalso. rewrite <- E in Hev. apply Forall_cons in Hev as [Hn _]. by apply Hn. }
    injection E as <- ->. rewrite omap_app, (Hnil events Hev), app_nil_r. by eapply Hone.
  - rewrite E in Hev. apply Forall_app in Hev as [_ [Hn _]%Forall_cons]. by destruct Hn.
Qed.

Lemma with_abandon_events registry registry' events :
  with_abandon index ctx registry = (registry', events) →
  (index = 0 ∧ events = [EvAbandon] ∧
     registry' = (AbandonClaim (ar_req_id (cx_args ctx)) (cx_uuid ctx) (cx_claim_owner ctx) registry).2) ∨
  (index ≠ 0 ∧ events = [] ∧ registry' = registry).
Proof.
  unfold with_abandon. destruct (Z.eqb_spec index 0); intros [= <- <-]; [by left|by right].
Qed.
End phases.

Lemma abandoned_owner req_id uuid owner s :
  rinv s → owner ∉ default ∅ (claimed_owners_ (AbandonClaim req_id uuid owner s).2 !! (req_id, uuid)).
Proof.
  intros Hinv. unfold AbandonClaim. pose proof (rinv_owners s Hinv (req_id, uuid)) as Hc.
  destruct (claimed_owners_ s !! (req_id, uuid)) as [os|] eqn:Eo.
  - destruct (claimed_ s !! (req_id, uuid)) as [e|]; [|by destruct (proj2 Hc ltac:(by eexists))].
    case_bool_decide as Hin; cbn [negb]; [|cbn [snd]; by rewrite Eo].
    case_bool_decide; cbn; [rewrite lookup_delete_eq; cbn; set_solver|].
    rewrite lookup_insert_eq. cbn. set_solver.
  - destruct (claimed_ s !! (req_id, uuid)); cbn; rewrite Eo; cbn; set_solver.
Qed.

Lemma build_inv env ttl now ctx index registry :
  rinv registry → rinv (build env ttl now ctx index registry).2.
Proof.
  intros H. unfold build, BuildPoolReshardPlan. destruct (prepare_plan _ _ _); [|done].
  pose proof (claim_inv ttl now (pr_req_id (sub_plan_request ctx index)) (pr_uuid (sub_plan_request ctx index))
    (pr_src_units (sub_plan_request ctx index)) (cx_claim_owner ctx) registry H) as Hc.
  by destruct (LookupAndClaim _ _ _ _ _ _ _) as [[] s1].
Qed.

Lemma sub_plan_dst_units ctx index : pr_dst_units (sub_plan_request ctx index) = ar_dst_units (cx_args ctx).
Proof. unfold sub_plan_request. by destruct (negb _). Qed.

(** C30: Receivers are armed before senders run.  In the calls of one sub-transfer,
    every dispatch to a sender comes after an acknowledged arm of every
    destination unit of the request, and a receiver that acknowledged is not armed
    again, however often busy receivers are retried. *)
Theorem senders_wait_for_receivers env delivery ttl now ctx index registry :
  let '(_, _, events) := RunSubPlan env delivery ttl now ctx index registry in
  (∀ before e after, is_dispatch e → events = before ++ e :: after →
     ∀ d, d ∈ ar_dst_units (cx_args ctx) → ∃ request addrs, EvArm d request (ArmOk addrs) ∈ before) ∧
  ∀ before after d rq addrs, events = before ++ EvArm d rq (ArmOk addrs) :: after →
    ∀ rq' reply, EvArm d rq' reply ∉ after.
Proof.
  pose proof (RunSubPlan_phases env delivery ttl now ctx index registry) as H.
  destruct (RunSubPlan _ _ _ _ _ _ _) as [[st reg] evs].
  assert (∀ (l : list Event) d rq reply, EvArm d rq reply ∈ l → d ∈ omap arm_target l) as Htarget.
  { intros l d rq reply Hin. apply list_elem_of_omap. by exists (EvArm d rq reply). }
  destruct H as [c r1 r' arms events plan Hb Ha Hone Hw|plan r1 armed arms st events Hb Ha Hone Hall Hd].
  - apply with_abandon_events in Hw.
    assert (Forall (λ e, ¬ is_arm e ∧ ¬ is_dispatch e) events) as Hev
      by (destruct Hw as [(_ & -> & _)|(_ & -> & _)]; repeat constructor; tauto).
    split.
    + intros before e after He E. destruct (dispatch_after_arms _ _ _ _ _ Ha He E) as (rest & _ & Ee).
      rewrite Ee in Hev. apply Forall_app in Hev as [_ [[_ Hn] _]%Forall_cons]. by destruct Hn.
    + intros before after d rq addrs E rq' reply Hin%Htarget. revert Hin. eapply no_rearm; [|done..].
      eapply Forall_impl; [exact Hev|]. cbn. tauto.
  - apply dispatch_senders_events in Hd. apply BuildPoolReshardPlan_units in Hb as [Hdst _].
    rewrite sub_plan_dst_units in Hdst. split.
    + intros before e after He E d Hin. destruct (dispatch_after_arms _ _ _ _ _ Ha He E) as (rest & -> & _).
      destruct (Hall d) as [addrs Hd']; [by rewrite Hdst|]. eexists _, addrs. apply elem_of_app. by left.
    + intros before after d rq addrs E rq' reply Hin%Htarget. revert Hin. eapply no_rearm; [|done..].
      eapply Forall_impl; [exact Hd|]. intros [] ? []; done.
Qed.

(** The fate of the claim.  A sub-transfer gives the registry claim up only
    when it is the first of its request and failed with nothing dispatched; it then
    owns no claim of the request's generation any more.  Otherwise the registry is
    left as planning left it.  A first sub-transfer that fails without abandoning
    had every receiver armed: the failure is a sender's. *)
Theorem claim_abandoned_only_before_dispatch env delivery ttl now ctx index registry :
  registry_reachable ttl registry →
  let '(status, registry', events) := RunSubPlan env delivery ttl now ctx index registry in
  let key := (ar_req_id (cx_args ctx), cx_uuid ctx) in
  (EvAbandon ∈ events → index = 0 ∧ status ≠ OkStatus ∧ Forall (λ e, ¬ is_dispatch e) events ∧
     cx_claim_owner ctx ∉ default ∅ (claimed_owners_ registry' !! key)) ∧
  (EvAbandon ∉ events → registry' = (build env ttl now ctx index registry).2) ∧
  (EvAbandon ∉ events → index = 0 → ∀ d, d ∈ ar_dst_units (cx_args ctx) →
     ∃ request addrs, EvArm d request (ArmOk addrs) ∈ events).
Proof.
  intros Hr%registry_reachable_inv. pose proof (RunSubPlan_phases env delivery ttl now ctx index registry) as H.
  pose proof (build_inv env ttl now ctx index registry Hr) as Hinv.
  destruct (RunSubPlan _ _ _ _ _ _ _) as [[st reg] evs].
  destruct H as [c r1 r' arms events plan Hb Ha Hone Hw|plan r1 armed arms st events Hb Ha Hone Hall Hd];
    rewrite Hb in *; cbn [snd] in *.
  - apply with_abandon_events in Hw as [(-> & -> & ->)|(Hi & -> & ->)]; cbn zeta.
    + split; [intros _|split; intros Hno; destruct Hno; apply elem_of_app; right; left].
      split; [done|]. split; [done|]. split; [|by apply abandoned_owner].
      apply Forall_app. split; [|by constructor; [intros []|]]. eapply Forall_impl; [exact Ha|]. intros [] ? []; done.
    + rewrite app_nil_r. split; [|by split].
      intros Hin. rewrite Forall_forall in Ha. by destruct (Ha _ Hin).
  - apply dispatch_senders_events in Hd. split.
    + intros [Hin|Hin]%elem_of_app; rewrite Forall_forall in Ha, Hd; [by destruct (Ha _ Hin)|by destruct (Hd _ Hin)].
    + split; [done|]. intros _ _ d Hin. apply BuildPoolReshardPlan_units in Hb as [Hdst _].
      rewrite sub_plan_dst_units in Hdst. destruct (Hall d) as [addrs Hd']; [by rewrite Hdst|].
      eexists _, addrs. apply elem_of_app. by left.
Qed.

(** Success means every sender took its program.  When a sub-transfer
    succeeds, planning gave a plan, and every active source unit was sent its
    request (or its compiled program) and answered without error, also in the controller mode, where a reply
    is stored by its position among the submitted programs. *)
Theorem RunSubPlan_ok_dispatches_all env delivery ttl now ctx index registry registry' events :
  RunSubPlan env delivery ttl now ctx index registry = (OkStatus, registry', events) →
  ∃ plan addrs, build env ttl now ctx index registry = (Ok plan, registry') ∧
    ∀ u, u ∈ plan_src_units plan →
      sender_took env delivery (set_receiver_addrs (run_plan ctx index plan) addrs) events u.
Proof.
  intros E. pose proof (RunSubPlan_phases env delivery ttl now ctx index registry) as H. rewrite E in H.
  inversion H as [|plan r1 armed arms st evs Hb Ha Hone Hall Hd]; subst.
  eexists plan, _. split; [exact Hb|]. intros u Hu.
  pose proof (dispatch_senders_ok _ _ _ _ u Hd Hu) as Ht. unfold sender_took in *. destruct delivery.
  - destruct Ht as [H1 H2]. split; [|exact H2]. apply elem_of_app. by right.
  - destruct Ht as (key & p & H1 & H2 & H3 & H4). exists key, p. do 2 (split; [done|]).
    split; [|exact H4]. apply elem_of_app. by right.
Qed.

(** ** Chains of sub-transfers *)
Definition owner_of (rc : RunningChain) : Z := cx_claim_owner (rc_ctx rc).
Definition count_of (rc : RunningChain) : Z := ch_count (cx_chain (rc_ctx rc)).

(** The runs of one claim owner, and the log of [n] successful sub-plans. *)
Definition runs (owner : Z) (log : RunLog) : RunLog := filter (λ e, e.1.1 = owner) log.
Definition ok_runs (owner n : Z) : RunLog := (λ j, (owner, j, OkStatus)) <$> seqZ 0 n.

(** The sub-plans of a chain have run in order, each once and after the success of
    the one before; a finished chain ran them all, or stopped at a failure or at
    shutdown. *)
Record chain_ok (counter : Z) (log : RunLog) (rc : RunningChain) : Prop := {
  ck_owner : owner_of rc < counter;
  ck_next : 1 <= rc_next rc <= count_of rc ∧ 1 < count_of rc;
  ck_runs : runs (owner_of rc) log = ok_runs (owner_of rc) (rc_next rc) ∨
            rc_finished rc = true ∧ rc_next rc < count_of rc ∧
            ∃ c, runs (owner_of rc) log = ok_runs (owner_of rc) (rc_next rc) ++ [(owner_of rc, rc_next rc, Err c)];
}.

Record chains_ok (counter : Z) (log : RunLog) (chains : list RunningChain) : Prop := {
  cks_log : Forall (λ e, e.1.1 < counter) log;
  cks_each : Forall (chain_ok counter log) chains;
  cks_owners : NoDup (owner_of <$> chains);
}.

Lemma runs_app owner log more : runs owner (log ++ more) = runs owner log ++ runs owner more.
Proof. apply filter_app. Qed.

Lemma runs_other owner log : Forall (λ e, e.1.1 ≠ owner) log → runs owner log = [].
Proof.
  unfold runs. induction 1 as [|e log He _ IH]; [done|]. by rewrite filter_cons_False by done.
Qed.

Lemma ok_runs_succ owner n : 0 <= n → ok_runs owner (n + 1) = ok_runs owner n ++ [(owner, n, OkStatus)].
Proof.
  intros Hn. unfold ok_runs. rewrite <- (Z2Nat.id n) by done.
  replace (Z.of_nat (Z.to_nat n) + 1) with (Z.of_nat (S (Z.to_nat n))) by lia.
  rewrite seqZ_S, fmap_app. cbn. done.
Qed.

Lemma chain_ok_frame counter counter' log more rc :
  chain_ok counter log rc → counter <= counter' → runs (owner_of rc) more = [] → chain_ok counter' (log ++ more) rc.
Proof. intros [H1 H2 H3] Hc Hm. split; [lia|done|]. by rewrite runs_app, Hm, app_nil_r. Qed.

Lemma chains_ok_sublist counter log chains chains' :
  chains_ok counter log chains → sublist chains' chains → chains_ok counter log chains'.
Proof.
  intros [H1 H2 H3] Hs. split; [done| |].
  - rewrite Forall_forall in *. intros rc Hrc. by eapply H2, elem_of_sublist.
  - eapply sublist_NoDup; [exact H3|]. by apply (fmap_sublist owner_of).
Qed.

(** A new owner's run, with or without a chain of its own. *)
Lemma chains_ok_start counter log chains index status :
  chains_ok counter log chains → chains_ok (counter + 1) (log ++ [(counter, index, status)]) chains.
Proof.
  intros [H1 H2 H3]. split; [|eapply Forall_impl; [exact H2|]|done].
  - apply Forall_app. split; [eapply Forall_impl; [exact H1|]; cbn; lia|]. constructor; [cbn; lia|constructor].
  - intros rc Hrc. apply (chain_ok_frame counter); [done|lia|]. apply runs_other. pose proof (ck_owner _ _ _ Hrc).
    constructor; [cbn; lia|constructor].
Qed.

Lemma chains_ok_new counter log chains ctx :
  chains_ok counter log chains → cx_claim_owner ctx = counter → 1 < ch_count (cx_chain ctx) →
  chains_ok (counter + 1) (log ++ [(counter, 0, OkStatus)]) (chains ++ [mkRunning ctx 1 false]).
Proof.
  intros Hok Ho Hn. pose proof (chains_ok_start _ _ _ 0 OkStatus Hok) as [H1 H2 H3].
  pose proof Hok as [L1 L2 _]. split; [done| |].
  - apply Forall_app. split; [done|]. constructor; [|constructor].
    split; unfold owner_of, count_of; cbn [rc_ctx rc_next rc_finished]; [lia|lia|]. left. rewrite runs_app, Ho.
    rewrite (runs_other counter log) by (eapply Forall_impl; [exact L1|]; cbn; lia). unfold runs.
    by rewrite filter_cons_True by done.
  - rewrite fmap_app. apply NoDup_app. split; [done|]. split; [|apply NoDup_singleton].
    intros o (rc & -> & Hrc)%list_elem_of_fmap [= E]%list_elem_of_singleton. rewrite Forall_forall in L2.
    pose proof (ck_owner _ _ _ (L2 rc Hrc)). unfold owner_of at 2 in E. cbn in E. lia.
Qed.

(** A turn changes one chain, which keeps its owner, and adds runs of that owner only. *)
Lemma chains_ok_turn counter log more chains k rc rc' :
  chains_ok counter log chains → chains !! k = Some rc → rc_ctx rc' = rc_ctx rc →
  Forall (λ e, e.1.1 = owner_of rc) more → chain_ok counter (log ++ more) rc' →
  chains_ok counter (log ++ more) (<[k := rc']> chains).
Proof.
  intros [H1 H2 H3] Hk Hctx Hmore Hrc'. pose proof Hk as Hrc. rewrite Forall_lookup in H2.
  pose proof (ck_owner _ _ _ (H2 k rc Hrc)) as Ho. split.
  - apply Forall_app. split; [done|]. eapply Forall_impl; [exact Hmore|]. cbn. intros e ->. done.
  - apply Forall_lookup. intros j c [(<- & <- & _)|[Hne Hj]]%list_lookup_insert_Some; [done|].
    apply (chain_ok_frame counter); [by eapply H2|lia|]. apply runs_other. eapply Forall_impl; [exact Hmore|].
    cbn. intros e -> E. apply Hne. eapply (NoDup_lookup _ k j _ H3); rewrite list_lookup_fmap;
      [by rewrite Hk|by rewrite Hj; cbn; rewrite E].
  - rewrite list_fmap_insert. rewrite list_insert_id; [done|].
    rewrite list_lookup_fmap, Hk. cbn. unfold owner_of. by rewrite Hctx.
Qed.

Lemma build_registry env ttl now ctx index registry :
  registry_reachable ttl registry → registry_reachable ttl (build env ttl now ctx index registry).2.
Proof.
  intros H. unfold build, BuildPoolReshardPlan. destruct (prepare_plan _ _ _); [|done].
  set (r := sub_plan_request ctx index).
  pose proof (rr_step ttl _ _ H (rs_claim ttl now (pr_req_id r) (pr_uuid r) (pr_src_units r)
    (cx_claim_owner ctx) registry)) as Hc.
  by destruct (LookupAndClaim _ _ _ _ _ _ _) as [[] s1].
Qed.

Lemma RunSubPlan_registry env delivery ttl now ctx index registry :
  registry_reachable ttl registry →
  registry_reachable ttl (RunSubPlan env delivery ttl now ctx index registry).1.2.
Proof.
  intros Hr. pose proof (build_registry env ttl now ctx index registry Hr) as Hb.
  pose proof (RunSubPlan_phases env delivery ttl now ctx index registry) as H.
  destruct (RunSubPlan _ _ _ _ _ _ _) as [[st reg] evs]. cbn [fst snd].
  destruct H as [c r1 r' arms events plan E _ _ Hw|plan r1 armed arms st events E _ _ _ _];
    rewrite E in Hb; [|done].
  apply with_abandon_events in Hw as [(_ & _ & ->)|(_ & _ & ->)]; [|done].
  eapply rr_step; [exact Hb|apply rs_abandon].
Qed.

Section machine.
Context (delivery : WorkerDelivery) (ttl : Z).

Record coordinator_ok (co : Coordinator) (log : RunLog) : Prop := {
  cok_registry : registry_reachable ttl (registry_ co);
  cok_chains : chains_ok (claim_counter co) log (chains_ co);
  cok_counter : 1 <= claim_counter co < 2 ^ 64;
}.

Lemma prepare_reshard_ok w args co ctx co' :
  prepare_reshard w args co = (Ok ctx, co') →
  cx_claim_owner ctx = claim_counter co ∧ cx_args ctx = args ∧
  co' = mkCoordinator (directory_ co) (registry_ co) (transfer_status_ co) (chains_ co)
          (u64 (claim_counter co + 1)) (stopping_ co).
Proof.
  unfold prepare_reshard. destruct (negb _); [done|].
  destruct (LocalMetadata (ar_src_units args) _) as [src|]; [|done]. cbn.
  destruct (if bool_decide _ then _ else _) as [dst|]; [|done]. cbn.
  destruct (PlanSubTransfers args) as [chain|]; [|done]. cbn. intros [= <- <-].
  split; [|split]; [| |done]; unfold make_context; by destruct (1 <? ch_count chain).
Qed.

Lemma start_ok w args co log :
  coordinator_ok co log → claim_counter co < 2 ^ 64 - 1 →
  coordinator_ok (StartPoolReshard delivery ttl w args co).1.2 (log ++ start_log delivery ttl w args co).
Proof.
  intros [Hr Hc Hn] Hlt. unfold StartPoolReshard, start_log.
  destruct (args_valid args); cbn [negb]; [|by rewrite app_nil_r].
  unfold ExecutePoolReshard. set (co1 := set_status (ar_req_id args) kInProgress co).
  assert (prepare_reshard w args co1 =
    ((prepare_reshard w args co).1, set_status (ar_req_id args) kInProgress (prepare_reshard w args co).2)) as ->.
  { unfold prepare_reshard. cbn [directory_ claim_counter co1 set_status]. by case_match. }
  destruct (prepare_reshard w args co) as [[ctx|c] co2] eqn:Ep; cbn [fst snd].
  2: { rewrite app_nil_r. unfold prepare_reshard in Ep. case_match; [done|]. by injection Ep as _ <-. }
  destruct (prepare_reshard_ok _ _ _ _ _ Ep) as (Ho & _ & ->). cbn [registry_ set_status].
  pose proof (RunSubPlan_registry (wo_env w) delivery ttl (wo_now w) ctx 0 (registry_ co) Hr) as Hr'.
  assert (u64 (claim_counter co + 1) = claim_counter co + 1) as Hu by (apply u64_small; lia).
  destruct (RunSubPlan _ _ _ _ _ _ _) as [[st reg] evs]. cbn [fst snd] in *. rewrite Hu, Ho.
  pose proof (chains_ok_start _ _ _ 0 st Hc) as Hstart.
  destruct st as [[]|c]; [|split; [done|done|cbn; lia]].
  destruct (Z.ltb_spec 1 (ch_count (cx_chain ctx))) as [Hlong|]; [|split; [done|done|cbn; lia]].
  split; [done| |cbn; lia]. apply chains_ok_new; [|done|done].
  eapply chains_ok_sublist; [exact Hc|apply sublist_filter].
Qed.

(** What a turn does to its chain and to the log. *)
Lemma turn_ok w k co log :
  coordinator_ok co log →
  coordinator_ok (chain_turn delivery ttl w k co).1.1 (log ++ (chain_turn delivery ttl w k co).1.2).
Proof.
  intros [Hr Hc Hn]. unfold chain_turn.
  destruct (chains_ co !! k) as [rc|] eqn:Ek; [|by rewrite app_nil_r].
  destruct (rc_finished rc) eqn:Ef; [by rewrite app_nil_r|].
  pose proof (proj1 (Forall_lookup _ _) (cks_each _ _ _ Hc) k rc Ek) as [Ho [Hb Hcount] [Hruns|(? & _)]];
    [|congruence].
  destruct (Z.ltb_spec (rc_next rc) (ch_count (cx_chain (rc_ctx rc)))) as [Hlt|Hge]; cbn [negb].
  2: { split; [done| |done]. apply (chains_ok_turn _ _ _ _ _ rc); try done; [].
       rewrite app_nil_r. split; [done|done|by left]. }
  destruct (stopping_ co).
  { split; [done| |done]. apply (chains_ok_turn _ _ _ _ _ rc); try done; [].
    rewrite app_nil_r. split; [done|done|by left]. }
  pose proof (RunSubPlan_registry (wo_env w) delivery ttl (wo_now w) (rc_ctx rc) (rc_next rc) (registry_ co) Hr) as Hr'.
  destruct (RunSubPlan _ _ _ _ _ _ _) as [[st reg] evs]. cbn [fst snd] in *.
  assert (Forall (λ e : Z * Z * Status, e.1.1 = owner_of rc) [(cx_claim_owner (rc_ctx rc), rc_next rc, st)]) as Hm
    by (constructor; [done|constructor]).
  assert (runs (owner_of rc) (log ++ [(owner_of rc, rc_next rc, st)]) =
    ok_runs (owner_of rc) (rc_next rc) ++ [(owner_of rc, rc_next rc, st)]) as Hruns'.
  { rewrite runs_app, Hruns. unfold runs. by rewrite filter_cons_True. }
  destruct st as [[]|c]; (split; [done| |done]); apply (chains_ok_turn _ _ _ _ _ rc); try done.
  - split; unfold owner_of, count_of in *; cbn [rc_ctx rc_next rc_finished]; [done|lia|].
    left. by rewrite ok_runs_succ by lia.
  - split; unfold owner_of, count_of in *; cbn [rc_ctx rc_next rc_finished]; [done|lia|].
    right. split; [done|]. split; [done|]. by exists c.
Qed.

Lemma coordinator_reachable_ok co log : coordinator_reachable delivery ttl co log → coordinator_ok co log.
Proof.
  induction 1 as [d r Hr|co log co' more _ IH Hstep].
  - split; [done| |cbn; lia]. split; constructor.
  - destruct Hstep as [w args co Hlt|w k co|co|co co' Hw|co r Hr|co d];
      [by apply start_ok|by apply turn_ok|..]; rewrite app_nil_r; destruct IH as [Hr0 Hc Hn].
    + done.
    + unfold WaitForSubTransferChains in Hw. case_match; [|done]. injection Hw as <-.
      split; [done| |done]. eapply chains_ok_sublist; [exact Hc|apply sublist_nil_l].
    + split; [|done|done]. by eapply rr_step.
    + done.
Qed.
End machine.

(** Sub-transfers of a request run in order.  However requests, chain threads,
    shutdown and the other clients of the registry and the directory interleave,
    the runs made under a chain's claim are its sub-plans 0, 1, 2, ... in order, each
    once and only after the success of all before it; a chain that stopped early
    has at most one more run, the failed one, and only a chain that ran them all
    has reached its count.  The registry stays reachable throughout. *)
Theorem chains_run_in_order delivery ttl co log k rc :
  coordinator_reachable delivery ttl co log → chains_ co !! k = Some rc →
  registry_reachable ttl (registry_ co) ∧
  1 <= rc_next rc <= count_of rc ∧
  (rc_finished rc = false → runs (owner_of rc) log = ok_runs (owner_of rc) (rc_next rc)) ∧
  (runs (owner_of rc) log = ok_runs (owner_of rc) (rc_next rc) ∨
   rc_next rc < count_of rc ∧
   ∃ c, runs (owner_of rc) log = ok_runs (owner_of rc) (rc_next rc) ++ [(owner_of rc, rc_next rc, Err c)]).
Proof.
  intros [Hr Hc _]%coordinator_reachable_ok Hk. split; [done|].
  pose proof (proj1 (Forall_lookup _ _) (cks_each _ _ _ Hc) k rc Hk) as [_ [Hn _] Hruns].
  split; [done|]. split; [|naive_solver]. intros Hf. destruct Hruns as [?|(? & _)]; [done|congruence].
Qed.

Lemma length_ok_runs owner n : 0 <= n → Z.of_nat (length (ok_runs owner n)) = n.
Proof. intros. unfold ok_runs. rewrite length_fmap, length_seqZ. lia. Qed.

(** What a final status means.  When a turn finishes a chain it records
    kCompleted exactly when every sub-plan of the request has run and succeeded,
    and kFailed otherwise; a turn that does not finish its chain leaves every
    transfer status as it was. *)
Theorem chain_completed_iff_all_ran delivery ttl co log w k rc rc' :
  coordinator_reachable delivery ttl co log →
  chains_ co !! k = Some rc → rc_finished rc = false →
  let '(co', more, _) := chain_turn delivery ttl w k co in
  chains_ co' !! k = Some rc' →
  if rc_finished rc'
  then GetTransferStatus (ar_req_id (cx_args (rc_ctx rc))) co' =
         (if bool_decide (runs (owner_of rc) (log ++ more) = ok_runs (owner_of rc) (count_of rc))
          then kCompleted else kFailed)
  else transfer_status_ co' = transfer_status_ co.
Proof.
  intros [_ Hc _]%coordinator_reachable_ok Hk Hf.
  pose proof (proj1 (Forall_lookup _ _) (cks_each _ _ _ Hc) k rc Hk) as [_ [Hn Hlong] [Hruns|(? & _)]];
    [|congruence].
  pose proof (lookup_lt_Some _ _ _ Hk) as Hlt. unfold chain_turn. rewrite Hk, Hf.
  assert (∀ ok co1, GetTransferStatus (ar_req_id (cx_args (rc_ctx rc))) (finish_chain k rc ok co1) =
    if ok then kCompleted else kFailed) as Hst
    by (intros; unfold GetTransferStatus, finish_chain; cbn; by rewrite lookup_insert_eq).
  assert (∀ l, length (runs (owner_of rc) l) ≠ Z.to_nat (count_of rc) →
    runs (owner_of rc) l ≠ ok_runs (owner_of rc) (count_of rc)) as Hlen.
  { intros l Hl E. pose proof (length_ok_runs (owner_of rc) (count_of rc)). rewrite E in Hl. lia. }
  pose proof (length_ok_runs (owner_of rc) (rc_next rc)) as Hl.
  assert (Z.of_nat (length (runs (owner_of rc) log)) = rc_next rc) as Hlog by (rewrite Hruns; lia).
  fold (count_of rc). destruct (Z.ltb_spec (rc_next rc) (count_of rc)) as [Hlt'|Hge]; cbn [negb].
  2: { cbn [chains_ finish_chain set_status set_chains]. rewrite list_lookup_insert_eq by done. intros [= <-].
       cbn [rc_finished]. rewrite Hst, app_nil_r, bool_decide_true; [done|]. rewrite Hruns. f_equal. lia. }
  destruct (stopping_ co).
  { cbn [chains_ finish_chain set_status set_chains]. rewrite list_lookup_insert_eq by done. intros [= <-].
    cbn [rc_finished]. rewrite Hst, app_nil_r, bool_decide_false; [done|]. apply Hlen. lia. }
  destruct (RunSubPlan _ _ _ _ _ _ _) as [[st reg] evs]. destruct st as [[]|c].
  - cbn [chains_ set_chains set_registry]. rewrite list_lookup_insert_eq by done. by intros [= <-].
  - cbn [chains_ finish_chain set_status set_chains set_registry]. rewrite list_lookup_insert_eq by done.
    intros [= <-]. cbn [rc_finished]. rewrite Hst, bool_decide_false; [done|].
    rewrite runs_app, Hruns. unfold runs, owner_of. rewrite filter_cons_True by done. cbn [filter list_filter].
    intros E%(f_equal last). rewrite last_snoc in E. symmetry in E. unfold ok_runs in E.
    rewrite fmap_last in E. destruct (last (seqZ 0 (count_of rc))); [|done]. cbn in E. congruence.
Qed.

(** Turns of one chain's thread. *)
Definition chain_turns (delivery : WorkerDelivery) (ttl : Z) (ws : list World) (k : nat) (co : Coordinator)
    : Coordinator :=
  foldl (λ co w, (chain_turn delivery ttl w k co).1.1) co ws.

Lemma chain_turn_progress delivery ttl w k co rc :
  chains_ co !! k = Some rc → rc_next rc <= count_of rc →
  ∃ rc', chains_ (chain_turn delivery ttl w k co).1.1 !! k = Some rc' ∧
    (rc_finished rc = true → rc' = rc) ∧
    (rc_finished rc' = true ∨ count_of rc' = count_of rc ∧ rc_next rc' = rc_next rc + 1 ∧ rc_next rc' <= count_of rc).
Proof.
  intros Hk Hle. pose proof (lookup_lt_Some _ _ _ Hk) as Hlt. unfold chain_turn. rewrite Hk.
  destruct (rc_finished rc) eqn:Ef; [exists rc; auto|]. fold (count_of rc).
  destruct (Z.ltb_spec (rc_next rc) (count_of rc)); cbn [negb].
  - destruct (stopping_ co); [|destruct (RunSubPlan _ _ _ _ _ _ _) as [[[[]|c] reg] evs]];
      cbn [fst chains_ finish_chain set_status set_chains set_registry]; rewrite list_lookup_insert_eq by done;
      eexists; (split; [done|]); (split; [done|]); [by left| |by left].
    right. split; [done|]. cbn. split; lia.
  - cbn [fst chains_ finish_chain set_status set_chains]. rewrite list_lookup_insert_eq by done.
    eexists. split; [done|]. split; [done|]. by left.
Qed.

(** A chain's thread ends.  Whatever the workers answer, the thread of a chain
    has set [finished] after at most one turn per remaining sub-plan and one more. *)
Theorem chain_thread_terminates delivery ttl ws k co rc :
  chains_ co !! k = Some rc → rc_next rc <= count_of rc →
  count_of rc - rc_next rc < Z.of_nat (length ws) →
  ∃ rc', chains_ (chain_turns delivery ttl ws k co) !! k = Some rc' ∧ rc_finished rc' = true.
Proof.
  revert co rc; induction ws as [|w ws IH]; intros co rc Hk Hle Hlen; [cbn in Hlen; lia|].
  cbn [chain_turns foldl length] in *. destruct (chain_turn_progress delivery ttl w k co rc Hk Hle) as (rc' & Hk' & _ & H).
  destruct (rc_finished rc') eqn:Ef.
  - exists rc'. split; [|done]. clear -Hk' Ef. revert Hk'. generalize ((chain_turn delivery ttl w k co).1.1) as co1.
    induction ws as [|w' ws IHs]; intros co1 Hk; [done|]. cbn [foldl]. apply IHs.
    unfold chain_turn. rewrite Hk, Ef. done.
  - destruct H as [?|(Hc & Hn & Hn')]; [congruence|]. eapply IH; [exact Hk'|lia|lia].
Qed.

(** What a request leaves behind.  An invalid request is refused with
    InvalidArgument, makes no call and changes nothing.  A valid one that fails is
    recorded as failed and leaves the chains alone; one that succeeds is recorded as
    completed, or stays in progress with a chain of its own that starts at sub-plan
    1 beside the unfinished chains.  No other request's status changes. *)
Theorem StartPoolReshard_status delivery ttl w args co :
  let '(status, co', events) := StartPoolReshard delivery ttl w args co in
  let now_status := GetTransferStatus (ar_req_id args) co' in
  (∀ req_id, req_id ≠ ar_req_id args → GetTransferStatus req_id co' = GetTransferStatus req_id co) ∧
  if negb (args_valid args) then status = Err kInvalidArgument ∧ co' = co ∧ events = []
  else match status with
       | Err _ => now_status = kFailed ∧ chains_ co' = chains_ co
       | Ok _ =>
           now_status = kCompleted ∧ chains_ co' = chains_ co ∨
           now_status = kInProgress ∧ ∃ ctx, cx_args ctx = args ∧ 1 < ch_count (cx_chain ctx) ∧
             chains_ co' = filter (λ c, rc_finished c = false) (chains_ co) ++ [mkRunning ctx 1 false]
       end.
Proof.
  unfold StartPoolReshard. destruct (args_valid args); cbn [negb]; [|done].
  unfold ExecutePoolReshard. set (co1 := set_status (ar_req_id args) kInProgress co).
  destruct (prepare_reshard w args co1) as [[ctx|c] co2] eqn:Ep.
  2: { assert (co2 = co1) as -> by (unfold prepare_reshard in Ep; case_match; congruence).
       unfold GetTransferStatus. cbn. rewrite !lookup_insert_eq. split; [|done].
       intros req_id Hne. by rewrite !lookup_insert_ne by done. }
  apply prepare_reshard_ok in Ep as (_ & Hargs & ->). cbn [registry_ set_status co1].
  destruct (RunSubPlan _ _ _ _ _ _ _) as [[[[]|c] reg] evs].
  2: { unfold GetTransferStatus. cbn. rewrite !lookup_insert_eq. split; [|done].
       intros req_id Hne. by rewrite !lookup_insert_ne by done. }
  destruct (Z.ltb_spec 1 (ch_count (cx_chain ctx))) as [Hlong|]; unfold GetTransferStatus; cbn;
    rewrite !lookup_insert_eq; (split; [intros req_id Hne; by rewrite !lookup_insert_ne by done|]); [right|by left].
  split; [done|]. by exists ctx.
Qed.

(** ** A request of two sub-transfers: two producer ranks, one page each *)
Definition chained_args : PoolReshardArgs :=
  mkArgs [unit_a; unit_b] [unit_d] "r" [6; 7] true true MEMORY_TYPE_HBM "dst:9" 7 true None
    ["fa"] true (Some 1) false [] [] [1].
Definition page_span (src_block dst_offset : Z) : PoolSpanRegistration :=
  mkPoolSpans "fa" [src_block] [mkSpan 0 0 0 dst_offset 8 0 0 1 (-1)] 8 1.
Definition rank_ex (u : RaidenId) (shard : string) (rank : Z) : WorkUnitRegistration :=
  mkRegistration u [shard] (Some "rpc") None None None None (Some [src_pool_ex]) (Some "layout") None (Some 2)
    (Some rank) None.
Definition run_directory : WorkUnitDirectory :=
  RegisterLocked (rank_ex unit_b "b:1" 1) (RegisterLocked (rank_ex unit_a "a:1" 0) WorkUnitDirectory_new).
Definition run_registry : RequestBlockRegistry :=
  (Register run_directory run_directory 100 1 "r" 7 unit_b [5] [page_span 5 8]
    (Register run_directory run_directory 100 0 "r" 7 unit_a [2] [page_span 2 0] RequestBlockRegistry_new).2).2.
Definition agreeable : Environment :=
  mkEnvironment (λ _ _ _, ArmOk ∅) (λ _ _, OkStatus) (λ _ _, OkStatus) (λ _ _, false) false None (λ _, None).
Definition world_ex : World := mkWorld (λ _, Ok [meta_ex unit_d "d:1" dst_pool_ex 0]) 1 1 agreeable.
Definition co_started : Coordinator :=
  (StartPoolReshard kFramed 100 world_ex chained_args (Coordinator_new run_directory run_registry)).1.2.
Definition log_started : RunLog :=
  [] ++ start_log kFramed 100 world_ex chained_args (Coordinator_new run_directory run_registry).
Definition chain_started : RunningChain :=
  default (mkRunning (make_context chained_args [] [] 0 0 single_chain) 0 false) (chains_ co_started !! 0%nat).

Lemma run_registry_reachable : registry_reachable 100 run_registry.
Proof.
  eapply rr_step; [eapply rr_step; [apply rr_new|apply (rs_register 100 run_directory run_directory 0)]|].
  apply (rs_register 100 run_directory run_directory 1).
Qed.
Lemma co_started_reachable : coordinator_reachable kFramed 100 co_started log_started.
Proof. eapply co_step; [apply co_start, run_registry_reachable|]. apply step_start. reflexivity. Qed.
Lemma chain_started_lookup : chains_ co_started !! 0%nat = Some chain_started.
Proof. vm_compute. reflexivity. Qed.
Lemma chain_started_args : cx_args (rc_ctx chain_started) = chained_args.
Proof. vm_compute. reflexivity. Qed.
Lemma run_projections (x : Status * RequestBlockRegistry * list Event) :
  x.1.1 = OkStatus → x = (OkStatus, x.1.2, x.2).
Proof. destruct x as [[st r] e]. cbn. by intros ->. Qed.

Lemma senders_wait_for_receivers_witness :
  ∃ before u rq after request addrs,
    (RunSubPlan agreeable kFramed 100 1 (rc_ctx chain_started) 1 (registry_ co_started)).2 =
      before ++ EvDispatch u rq :: after ∧ EvArm unit_d request (ArmOk addrs) ∈ before.
Proof.
  pose proof (senders_wait_for_receivers agreeable kFramed 100 1 (rc_ctx chain_started) 1 (registry_ co_started)) as H.
  set (run := RunSubPlan _ _ _ _ _ _ _) in *.
  assert (∃ e1 u rq, run.2 = [e1; EvDispatch u rq]) as (e1 & u & rq & E)
    by (vm_compute; do 3 eexists; reflexivity).
  destruct run as [[st r] events]. cbn [snd] in *. subst events. destruct H as [H _].
  destruct (H [e1] (EvDispatch u rq) [] I eq_refl unit_d) as (request & addrs & Hin).
  { rewrite chain_started_args. left. }
  exists [e1], u, rq, [], request, addrs. exact (conj eq_refl Hin).
Defined.

(** A receiver that refuses its arm. *)
Definition refusing : Environment :=
  mkEnvironment (λ _ _ _, ArmErr kInternal false) (λ _ _, OkStatus) (λ _ _, OkStatus) (λ _ _, false) false None
    (λ _, None).
Lemma claim_abandoned_only_before_dispatch_witness :
  let run := RunSubPlan refusing kFramed 100 1 (rc_ctx chain_started) 0 run_registry in
  run.1.1 ≠ OkStatus ∧
  cx_claim_owner (rc_ctx chain_started) ∉ default ∅ (claimed_owners_ run.1.2 !! ("r"%string, 7)).
Proof.
  pose proof (claim_abandoned_only_before_dispatch refusing kFramed 100 1 (rc_ctx chain_started) 0 run_registry
    run_registry_reachable) as H. cbn zeta.
  assert ((RunSubPlan refusing kFramed 100 1 (rc_ctx chain_started) 0 run_registry).2 !! 1%nat = Some EvAbandon) as E
    by (vm_compute; reflexivity).
  destruct (RunSubPlan _ _ _ _ _ _ _) as [[st r] events]. cbn [fst snd] in *.
  destruct H as [H _]. destruct (H (list_elem_of_lookup_2 _ _ _ E)) as (_ & H1 & _ & H2).
  exact (conj H1 H2).
Defined.

Lemma RunSubPlan_ok_dispatches_all_witness :
  ∃ plan, build agreeable 100 1 (rc_ctx chain_started) 1 (registry_ co_started) =
    (Ok plan, (RunSubPlan agreeable kFramed 100 1 (rc_ctx chain_started) 1 (registry_ co_started)).1.2).
Proof.
  assert ((RunSubPlan agreeable kFramed 100 1 (rc_ctx chain_started) 1 (registry_ co_started)).1.1 = OkStatus) as E
    by (vm_compute; reflexivity).
  destruct (RunSubPlan_ok_dispatches_all agreeable kFramed 100 1 (rc_ctx chain_started) 1 (registry_ co_started)
    _ _ (run_projections _ E)) as (plan & addrs & H & _).
  exists plan. exact H.
Defined.

Lemma chains_run_in_order_witness :
  runs 1 log_started = ok_runs 1 1.
Proof.
  destruct (chains_run_in_order kFramed 100 co_started log_started 0 chain_started co_started_reachable
    chain_started_lookup) as (_ & _ & H & _).
  exact (H ltac:(vm_compute; reflexivity)).
Defined.

Lemma chain_completed_iff_all_ran_witness :
  GetTransferStatus "r" (chain_turns kFramed 100 [world_ex; world_ex] 0 co_started) = kCompleted.
Proof.
  pose (turn := chain_turn kFramed 100 world_ex 0 co_started).
  pose (rc := mkRunning (rc_ctx chain_started) 2 false).
  pose proof (chain_completed_iff_all_ran kFramed 100 turn.1.1 (log_started ++ turn.1.2) world_ex 0 rc
    (mkRunning (rc_ctx chain_started) 2 true)) as H.
  assert (∀ P : Coordinator → RunLog → Prop,
    (let '(co', more, _) := chain_turn kFramed 100 world_ex 0 turn.1.1 in P co' more) =
    P (chain_turn kFramed 100 world_ex 0 turn.1.1).1.1 (chain_turn kFramed 100 world_ex 0 turn.1.1).1.2) as E
    by (intros P; destruct (chain_turn kFramed 100 world_ex 0 turn.1.1) as [[? ?] ?]; reflexivity).
  rewrite E in H. etransitivity; [apply H|].
  - eapply co_step; [apply co_started_reachable|apply step_turn].
  - vm_compute. reflexivity.
  - reflexivity.
  - vm_compute. reflexivity.
  - vm_compute. reflexivity.
Defined.

Lemma chain_thread_terminates_witness :
  ∃ rc, chains_ (chain_turns kFramed 100 [world_ex; world_ex] 0 co_started) !! 0%nat = Some rc ∧
    rc_finished rc = true.
Proof.
  apply (chain_thread_terminates kFramed 100 [world_ex; world_ex] 0 co_started chain_started
    chain_started_lookup); vm_compute; congruence.
Defined.
