(* ===== verification/SessionThreads.v ===== *)
(** * SessionThreads: threads of a transfer session

    A transfer session (src/tpu_sync/transport/transfer_session.h) is an object shared by
    a pipeline thread, completion callbacks of copies and pushes, and callers from
    outside.  Each of them is a stack of actions, one per critical section of its code:
    performing an action changes the session, pushes further actions on the stack and
    may start new threads.  [act] is the session's code; an [X] is what the environment
    answers (results of copies and pushes, an expired deadline).  Nothing is assumed of
    the order in which threads run. *)

From S2P Require Import Prelude.

Section threads.
Context {S A X : Type}.
Context (act : X → S → A → option (S * list A * list (list A))).
(** The calls that come from outside. *)
Context (entry : S → A → bool).
Implicit Types (s : S) (a : A) (l others : list A).

Record World := mkWorld { sess : S; threads : list (list A) }.
Definition pending (w : World) : list A := concat (threads w).

(** One critical section of one thread. *)
Inductive step : World → World → Prop :=
  | step_act s t1 a rest t2 x s' pre new :
      act x s a = Some (s', pre, new) →
      step (mkWorld s (t1 ++ (a :: rest) :: t2)) (mkWorld s' (t1 ++ (pre ++ rest) :: t2 ++ new)).
(** A call runs its first critical section at once. *)
Inductive call : World → World → Prop :=
  | call_act s ths a x s' pre new :
      entry s a = true → act x s a = Some (s', pre, new) → call (mkWorld s ths) (mkWorld s' (ths ++ pre :: new)).
Definition move (w w' : World) : Prop := step w w' ∨ call w w'.
Definition reachable (s0 : S) : World → Prop := rtc move (mkWorld s0 []).

Lemma step_pending w w' :
  step w w' → ∃ a x pre new others,
    act x (sess w) a = Some (sess w', pre, new) ∧ pending w ≡ₚ a :: others ∧ pending w' ≡ₚ pre ++ concat new ++ others.
Proof.
  intros [s t1 a rest t2 x s' pre new E]. exists a, x, pre, new, (concat t1 ++ rest ++ concat t2). cbn. split; [done|].
  unfold pending. cbn. rewrite !concat_app. cbn. rewrite !concat_app. cbn. split; solve_Permutation.
Qed.
Lemma call_pending w w' :
  call w w' → ∃ a x pre new,
    entry (sess w) a = true ∧ act x (sess w) a = Some (sess w', pre, new) ∧ pending w' ≡ₚ pre ++ concat new ++ pending w.
Proof.
  intros [s ths a x s' pre new He E]. exists a, x, pre, new. cbn. split; [done|]. split; [done|].
  unfold pending. cbn. rewrite concat_app. cbn. solve_Permutation.
Qed.

(** ** Invariants over the session and the actions still to be performed *)
Lemma invariant (I : S → list A → Prop) s0 w :
  (∀ s l l', l ≡ₚ l' → I s l → I s l') → I s0 [] →
  (∀ s a others x s' pre new, I s (a :: others) → act x s a = Some (s', pre, new) → I s' (pre ++ concat new ++ others)) →
  (∀ s a others x s' pre new, I s others → entry s a = true → act x s a = Some (s', pre, new) → I s' (pre ++ concat new ++ others)) →
  reachable s0 w → I (sess w) (pending w).
Proof.
  intros HP H0 Hstep Hcall Hw. unfold reachable in Hw. remember (mkWorld s0 []) as w0. assert (I (sess w0) (pending w0)) as HI by (by subst).
  clear Heqw0 H0. induction Hw as [w|w1 w2 w3 [Hs|Hc] _ IH]; [done|apply IH..].
  - apply step_pending in Hs as (a & x & pre & new & others & E & P1 & P2). eapply HP; [symmetry; exact P2|]. eapply Hstep; [|exact E]. by eapply HP.
  - apply call_pending in Hc as (a & x & pre & new & He & E & P). eapply HP; [symmetry; exact P|]. by eapply Hcall.
Qed.

(** ** The last action of a thread

    When a thread that has begun an operation always has its [final] action ahead, a
    world without final actions has no thread left. *)
Section ends.
Context (final : A → bool).
Definition ends (t : list A) : Prop := t = [] ∨ ∃ body e, t = body ++ [e] ∧ final e = true.
Lemma ends_app l t : t ≠ [] → ends t → ends (l ++ t).
Proof. intros Hne [->|(b & e & -> & He)]; [done|]. right. exists (l ++ b), e. by rewrite app_assoc. Qed.
Lemma threads_end s0 w :
  (∀ x s a s' pre new, act x s a = Some (s', pre, new) → Forall ends new ∧ (final a = true → ends pre)) →
  (∀ x s a s' pre new, entry s a = true → act x s a = Some (s', pre, new) → ends pre) →
  reachable s0 w → Forall ends (threads w).
Proof.
  intros Hact Hcall Hw. unfold reachable in Hw. remember (mkWorld s0 []) as w0. assert (Forall ends (threads w0)) as H0 by (by subst).
  clear Heqw0. induction Hw as [w|w1 w2 w3 [Hs|Hc] _ IH]; [done|apply IH..].
  - destruct Hs as [s t1 a rest t2 x s' pre new E]. cbn in *. destruct (Hact _ _ _ _ _ _ E) as [Hnew Hfin].
    apply Forall_app in H0 as [H1 [Ht H2]%Forall_cons]. apply Forall_app. split; [done|]. apply Forall_cons. split; [|by apply Forall_app].
    destruct rest as [|b rest]; [|apply ends_app; [done|]].
    + rewrite app_nil_r. apply Hfin. destruct Ht as [?|(bd & e & Eq & He)]; [done|]. destruct bd as [|? bd]; [by injection Eq as ->|].
      injection Eq as _ Eq. by destruct bd.
    + destruct Ht as [?|(bd & e & Eq & He)]; [done|]. right. destruct bd as [|c bd]; [done|]. injection Eq as -> Eq. by exists bd, e.
  - destruct Hc as [s ths a x s' pre new He E]. cbn in *. apply Forall_app. split; [done|]. apply Forall_cons. split; [by eapply Hcall|].
    by destruct (Hact _ _ _ _ _ _ E).
Qed.
Lemma ends_pending w : Forall ends (threads w) → pending w ≠ [] → ∃ e, e ∈ pending w ∧ final e = true.
Proof.
  intros H Hne. unfold pending in *. induction H as [|t ths Ht _ IH]; [done|]. cbn in *. destruct Ht as [->|(b & e & -> & He)].
  - by apply IH.
  - exists e. split; [set_solver|done].
Qed.
(** Invariants of sessions whose threads end so: beside an action there is a final
    action, or nothing. *)
Definition beside (others : list A) : Prop := others = [] ∨ ∃ e, e ∈ others ∧ final e = true.
Lemma invariant_ends (I : S → list A → Prop) s0 w :
  (∀ x s a s' pre new, act x s a = Some (s', pre, new) → Forall ends new ∧ (final a = true → ends pre)) →
  (∀ x s a s' pre new, entry s a = true → act x s a = Some (s', pre, new) → ends pre) →
  (∀ s l l', l ≡ₚ l' → I s l → I s l') → I s0 [] →
  (∀ s a others x s' pre new, beside others ∧ (others = [] → final a = true) →
     I s (a :: others) → act x s a = Some (s', pre, new) → I s' (pre ++ concat new ++ others)) →
  (∀ s a others x s' pre new, beside others → I s others → entry s a = true → act x s a = Some (s', pre, new) → I s' (pre ++ concat new ++ others)) →
  reachable s0 w → I (sess w) (pending w).
Proof.
  intros Hact Hent HP H0 Hstep Hcall. unfold reachable. revert w. apply rtc_ind_r; [done|]. intros w1 w2 Hr [Hs|Hc] IH.
  - pose proof (threads_end s0 w1 Hact Hent Hr) as Hends. destruct Hs as [s t1 a rest t2 x s' pre new E]. unfold pending in *. cbn in *.
    rewrite !concat_app in *. cbn in *. rewrite !concat_app in *.
    apply (HP _ (pre ++ concat new ++ (concat t1 ++ rest ++ concat t2))); [solve_Permutation|]. eapply Hstep; [|eapply HP; [|exact IH]|exact E]; [|solve_Permutation].
    apply Forall_app in Hends as [H1 [Ht H2]%Forall_cons]. assert (ends rest) as Hrest.
    { destruct Ht as [?|(body & e & Eq & He)]; [done|]. destruct body as [|? body]; injection Eq as -> Eq; [by left|]. right. by exists body, e. }
    split.
    + destruct (concat t1 ++ rest ++ concat t2) eqn:E0; [by left|]. right. rewrite <- E0.
      destruct (ends_pending (mkWorld s (t1 ++ rest :: t2))) as (e & He & Hf).
      * apply Forall_app. split; [done|]. by constructor.
      * unfold pending. cbn. rewrite concat_app. cbn. by rewrite E0.
      * exists e. split; [|done]. unfold pending in He. cbn in He. by rewrite concat_app in He.
    + intros [_ [-> _]%app_nil]%app_nil. destruct Ht as [?|(body & e & Eq & He)]; [done|]. destruct body as [|? body]; [by injection Eq as ->|].
      injection Eq as _ Eq. by destruct body.
  - pose proof (threads_end s0 w1 Hact Hent Hr) as Hends. apply call_pending in Hc as (a & x & pre & new & He & E & P). eapply HP; [symmetry; exact P|].
    eapply Hcall; [|exact IH|done|exact E]. destruct (pending w1) eqn:E1; [by left|]. right. rewrite <- E1. apply ends_pending; [done|by rewrite E1].
Qed.
End ends.

(** A shape that every thread has. *)
Lemma threads_forall (P : list A → Prop) s0 w :
  (∀ x s a rest s' pre new, P (a :: rest) → act x s a = Some (s', pre, new) → P (pre ++ rest) ∧ Forall P new) →
  (∀ x s a s' pre new, entry s a = true → act x s a = Some (s', pre, new) → P pre ∧ Forall P new) →
  reachable s0 w → Forall P (threads w).
Proof.
  intros Hact Hcall. unfold reachable. revert w. apply rtc_ind_r; [by constructor|]. intros w1 w2 _ [Hs|Hc] IH.
  - destruct Hs as [s t1 a rest t2 x s' pre new E]. cbn in *. apply Forall_app in IH as [H1 [Ht H2]%Forall_cons]. destruct (Hact _ _ _ _ _ _ _ Ht E) as [Hp Hn].
    apply Forall_app. split; [done|]. apply Forall_cons. split; [done|]. by apply Forall_app.
  - destruct Hc as [s ths a x s' pre new He E]. cbn in *. destruct (Hcall _ _ _ _ _ _ He E) as [Hp Hn]. apply Forall_app. split; [done|]. by apply Forall_cons.
Qed.

(** ** Sums over the pending actions *)
Fixpoint sum_of (f : A → Z) l : Z := match l with [] => 0 | a :: l => f a + sum_of f l end.
Lemma sum_of_app f l k : sum_of f (l ++ k) = sum_of f l + sum_of f k.
Proof. induction l as [|a l IH]; cbn; [done|]. rewrite IH. lia. Qed.
#[export] Instance sum_of_perm f : Proper ((≡ₚ) ==> eq) (sum_of f).
Proof. induction 1; cbn; lia. Qed.
Lemma sum_of_nonneg f l : (∀ a, 0 <= f a) → 0 <= sum_of f l.
Proof. intros H. induction l as [|a l IH]; cbn; [lia|]. specialize (H a). lia. Qed.
Lemma sum_of_elem f l a : (∀ a, 0 <= f a) → a ∈ l → f a <= sum_of f l.
Proof. intros H. induction 1 as [a l|a b l _ IH]; cbn; [pose proof (sum_of_nonneg f l H)|specialize (H b)]; lia. Qed.

(** ** Termination

    When every action costs more than what it leaves, a run has no more steps than the
    world it starts from costs. *)
Section bounded.
Context (cost : A → Z) (potential : S → Z) (cost_nonneg : ∀ a, 0 <= cost a) (potential_nonneg : ∀ s, 0 <= potential s).
Definition work (w : World) : Z := potential (sess w) + sum_of cost (pending w).
Context (decreases : ∀ x s a s' pre new, act x s a = Some (s', pre, new) → potential s' + sum_of cost (pre ++ concat new) < potential s + cost a).
Lemma work_step w w' : step w w' → work w' < work w.
Proof using decreases.
  intros (a & x & pre & new & others & E & P1 & P2)%step_pending. unfold work. rewrite P1, P2. apply decreases in E.
  rewrite !sum_of_app in *. cbn. lia.
Qed.
Lemma run_bounded n w w' : nsteps step n w w' → Z.of_nat n + work w' <= work w.
Proof using decreases. induction 1 as [|n w1 w2 w3 H%work_step _ IH]; lia. Qed.
Lemma work_nonneg w : 0 <= work w.
Proof using cost_nonneg potential_nonneg. unfold work. pose proof (sum_of_nonneg cost (pending w) cost_nonneg). specialize (potential_nonneg (sess w)). lia. Qed.
End bounded.

(** A world with pending actions can go on when every action can. *)
Lemma pending_head (w : World) : pending w ≠ [] → ∃ t1 a rest t2, threads w = t1 ++ (a :: rest) :: t2.
Proof.
  destruct w as [s ths]. unfold pending. cbn. intros Hne. induction ths as [|[|a rest] ths IH]; [done| |by exists [], a, rest, ths].
  destruct IH as (t1 & a & rest & t2 & ->); [done|]. by exists ([] :: t1), a, rest, t2.
Qed.
Lemma step_head w t1 a rest t2 x o : threads w = t1 ++ (a :: rest) :: t2 → act x (sess w) a = Some o → ∃ w', step w w'.
Proof. destruct w as [s ths], o as [[s' pre] new]. cbn. intros -> E. eexists. by econstructor. Qed.
Lemma progress w : (∀ s a, ∃ x o, act x s a = Some o) → pending w ≠ [] → ∃ w', step w w'.
Proof. intros Hact (t1 & a & rest & t2 & E)%pending_head. destruct (Hact (sess w) a) as (x & o & Ea). by eapply step_head. Qed.

(** ** Running a session

    Choices of a scheduler and of the environment, as far as they are possible. *)
Inductive Choice := Run (i : nat) (x : X) | Invoke (a : A) (x : X).
Definition choose (c : Choice) (w : World) : option World :=
  match c with
  | Run i x =>
      match threads w !! i with
      | Some (a :: rest) =>
          match act x (sess w) a with
          | Some (s', pre, new) => Some (mkWorld s' (take i (threads w) ++ (pre ++ rest) :: drop (i + 1) (threads w) ++ new))
          | None => None
          end
      | _ => None
      end
  | Invoke a x =>
      if entry (sess w) a
      then match act x (sess w) a with
           | Some (s', pre, new) => Some (mkWorld s' (threads w ++ pre :: new))
           | None => None
           end
      else None
  end.
Fixpoint execute (cs : list Choice) (w : World) : option World :=
  match cs with [] => Some w | c :: cs => match choose c w with Some w' => execute cs w' | None => None end end.
Lemma choose_move c w w' : choose c w = Some w' → move w w'.
Proof.
  destruct w as [s ths]. destruct c as [i x|a x]; cbn.
  - destruct (ths !! i) as [[|a rest]|] eqn:Ei; [done| |done]. destruct (act x s a) as [[[s' pre] new]|] eqn:E; [|done]. intros [= <-]. left.
    rewrite <- (take_drop_middle ths i _ Ei) at 1. rewrite Nat.add_1_r. by constructor 1 with (x := x).
  - destruct (entry s a) eqn:He; [|done]. destruct (act x s a) as [[[s' pre] new]|] eqn:E; [|done]. intros [= <-]. right. by econstructor.
Qed.
Lemma execute_reach cs w w' : execute cs w = Some w' → rtc move w w'.
Proof.
  revert w; induction cs as [|c cs IH]; intros w; cbn; [intros [= ->]; done|]. destruct (choose c w) as [w1|] eqn:E; [|done]. intros H.
  eapply rtc_l; [by eapply choose_move|by apply IH].
Qed.
(** The world a list of choices leads to; the first one when they are not possible. *)
Definition run_of (s0 : S) (cs : list Choice) : World := default (mkWorld s0 []) (execute cs (mkWorld s0 [])).
Lemma run_of_reach s0 cs : reachable s0 (run_of s0 cs).
Proof. unfold run_of, reachable. destruct (execute cs _) eqn:E; [by eapply execute_reach|apply rtc_refl]. Qed.
End threads.
Arguments Run {A X} _ _.
Arguments Invoke {A X} _ _.
Arguments World : clear implicits.
Arguments mkWorld {S A} _ _.
