(* ===== verification/StagingSlots.v ===== *)
(** * StagingSlots: host staging buffers of a session
    (class StagingLayerManager: src/tpu_sync/kv_cache/transfer_session.h and
    transfer_receive_session.cc)

    A session with fewer host buffers than units (layers or pools) leases them: a unit
    takes the free slot at the head of a queue and keeps it until its host work is done. *)

From S2P Require Import Prelude.

Record StagingLayerManager := mkManager {
  free_ : list Z;
  leases_ : gmap Z Z;
  shutdown_ : bool;
}.

Definition StagingLayerManager_new (num_slots : Z) : StagingLayerManager := mkManager (seqZ 0 num_slots) ∅ false.
(** The condition [Acquire] waits for. *)
Definition ready (unit : Z) (cancelled : bool) (m : StagingLayerManager) : bool :=
  shutdown_ m || cancelled || bool_decide (is_Some (leases_ m !! unit)) || negb (bool_decide (free_ m = [])).
(** [None]: the caller goes on waiting; [expired]: the deadline has passed. *)
Definition Acquire (expired : bool) (unit : Z) (cancelled : bool) (m : StagingLayerManager)
    : option (StatusOr Z * StagingLayerManager) :=
  if bool_decide (free_ m = []) && bool_decide (leases_ m = ∅) then Some (Err kFailedPrecondition, m)
  else if negb (ready unit cancelled m) then if expired then Some (Err kDeadlineExceeded, m) else None
  else if shutdown_ m || cancelled then Some (Err kCancelled, m)
  else match leases_ m !! unit with
       | Some slot => Some (Ok slot, m)
       | None =>
           match free_ m with
           | slot :: free => Some (Ok slot, mkManager free (<[unit := slot]> (leases_ m)) (shutdown_ m))
           | [] => None
           end
       end.
Definition Lookup (unit : Z) (m : StagingLayerManager) : option Z := leases_ m !! unit.
Definition Release (unit : Z) (m : StagingLayerManager) : StagingLayerManager :=
  match leases_ m !! unit with
  | None => m
  | Some slot => mkManager (free_ m ++ [slot]) (delete unit (leases_ m)) (shutdown_ m)
  end.
(** In the order of the hash map, which nothing observes: sessions call it when the
    manager is shut down. *)
Definition ReleaseAll (m : StagingLayerManager) : StagingLayerManager :=
  mkManager (free_ m ++ (map_to_list (leases_ m)).*2) ∅ (shutdown_ m).
Definition Shutdown (m : StagingLayerManager) : StagingLayerManager := mkManager (free_ m) (leases_ m) true.
Definition num_free (m : StagingLayerManager) : Z := Z.of_nat (length (free_ m)).

(** ** No slot is lost or handed out twice *)
Definition leased (m : StagingLayerManager) : list Z := (map_to_list (leases_ m)).*2.
Definition slots_ok (num_slots : Z) (m : StagingLayerManager) : Prop := free_ m ++ leased m ≡ₚ seqZ 0 num_slots.

Lemma slots_new n : slots_ok n (StagingLayerManager_new n).
Proof. unfold slots_ok, leased. cbn. by rewrite map_to_list_empty, app_nil_r. Qed.
Lemma slots_shutdown n m : slots_ok n m → slots_ok n (Shutdown m).
Proof. done. Qed.
Lemma slots_release_all n m : slots_ok n m → slots_ok n (ReleaseAll m).
Proof. unfold slots_ok, leased. cbn. by rewrite map_to_list_empty, app_nil_r. Qed.
Lemma slots_release n unit m : slots_ok n m → slots_ok n (Release unit m).
Proof.
  unfold Release. destruct (leases_ m !! unit) as [slot|] eqn:E; [|done]. unfold slots_ok, leased. cbn. intros <-.
  rewrite <- (map_to_list_delete (leases_ m) unit slot E). cbn. solve_Permutation.
Qed.
Lemma acquire_inv expired unit cancelled m r m' :
  Acquire expired unit cancelled m = Some (r, m') →
  (m' = m ∧ ∀ slot, r = Ok slot → leases_ m !! unit = Some slot) ∨
  ∃ slot free, r = Ok slot ∧ leases_ m !! unit = None ∧ free_ m = slot :: free ∧ m' = mkManager free (<[unit := slot]> (leases_ m)) (shutdown_ m).
Proof.
  unfold Acquire. destruct (_ && _); [intros [= <- <-]; by left|]. destruct (negb _); [destruct expired; [|done]; intros [= <- <-]; by left|].
  destruct (shutdown_ m || cancelled); [intros [= <- <-]; by left|].
  destruct (leases_ m !! unit) eqn:El; [intros [= <- <-]; left; split; [done|]; by intros ? [= ->]|].
  destruct (free_ m) as [|slot free] eqn:Ef; [done|]. intros [= <- <-]. right. by exists slot, free.
Qed.
Lemma slots_acquire n expired unit cancelled m r m' :
  slots_ok n m → Acquire expired unit cancelled m = Some (r, m') → slots_ok n m'.
Proof.
  intros H [[-> _]|(slot & free & -> & El & Ef & ->)]%acquire_inv; [done|]. revert H. unfold slots_ok, leased. cbn. intros <-.
  rewrite map_to_list_insert by done. rewrite Ef. cbn. solve_Permutation.
Qed.
(** Two units never hold the same slot. *)
Lemma slots_exclusive n m u u' slot :
  slots_ok n m → leases_ m !! u = Some slot → leases_ m !! u' = Some slot → u = u'.
Proof.
  intros H E E'. destruct (decide (u = u')) as [|Hne]; [done|]. exfalso.
  assert (NoDup (leased m)) as Hnd. { assert (NoDup (free_ m ++ leased m)) as (_ & _ & ?)%NoDup_app; [|done]. rewrite H. apply NoDup_seqZ. }
  unfold leased in Hnd. rewrite <- (map_to_list_delete (leases_ m) u slot E) in Hnd. cbn in Hnd. apply NoDup_cons in Hnd as [Hno _].
  apply Hno, list_elem_of_fmap. exists (u', slot). split; [done|]. apply elem_of_map_to_list. by rewrite lookup_delete_ne.
Qed.

(** ** What the operations do to the leases *)
Lemma leases_acquire expired unit cancelled m slot m' :
  Acquire expired unit cancelled m = Some (Ok slot, m') → leases_ m' = <[unit := slot]> (leases_ m) ∧ shutdown_ m' = shutdown_ m.
Proof. intros [[-> H]|(slot' & free & [= ->] & El & Ef & ->)]%acquire_inv; [|done]. by rewrite insert_id by auto. Qed.
Lemma acquire_err expired unit cancelled m c m' : Acquire expired unit cancelled m = Some (Err c, m') → m' = m.
Proof. by intros [[-> H]|(slot' & free & [=] & _)]%acquire_inv. Qed.
Lemma acquire_shutdown expired unit cancelled m r m' : Acquire expired unit cancelled m = Some (r, m') → shutdown_ m' = shutdown_ m.
Proof. by intros [[-> _]|(slot & free & _ & _ & _ & ->)]%acquire_inv. Qed.
Lemma acquire_open expired unit cancelled m slot m' : Acquire expired unit cancelled m = Some (Ok slot, m') → shutdown_ m = false.
Proof. unfold Acquire, ready. destruct (shutdown_ m); [|done]. cbn. by destruct (_ && _). Qed.
Lemma leases_release unit m : leases_ (Release unit m) = delete unit (leases_ m).
Proof. unfold Release. case_match; [done|]. by rewrite delete_id. Qed.
Lemma shutdown_release unit m : shutdown_ (Release unit m) = shutdown_ m.
Proof. unfold Release. by case_match. Qed.
(** A caller whose deadline has passed is not kept waiting. *)
Lemma acquire_total unit cancelled m : ∃ r, Acquire true unit cancelled m = Some r.
Proof.
  unfold Acquire, ready. destruct (leases_ m !! unit) eqn:El, (free_ m) eqn:Ef; destruct (_ && _); try (by eauto);
    destruct (shutdown_ m || cancelled) eqn:Es; cbn; rewrite ?El, ?Ef; cbn; eauto.
Qed.
