(* ===== verification/ReshardChecks.v ===== *)
(** * ReshardChecks: what an engine checks before it runs a reshard plan
    (src/tpu_sync/core/utils.h, and ValidatePlan of kv_cache/reshard_send_session.cc and
    kv_cache/reshard_receive_session.cc)

    Both sides check the common structure of a plan and that its spans lie in live regions
    of their own pools; a receiver also checks that the schedules cover every live byte of
    its destination blocks exactly once.  Every check that fails gives the same code, and
    no check depends on the order of the hash maps that are walked, so a sequence of
    checks is a conjunction. *)

From S2P Require Import Prelude RaidenTypes PoolLayout PoolReshardPlanner WireTypes.

(** [l[i]] for an index that was cast to [size_t]. *)
Definition at_index {A} (l : list A) (i : Z) : option A := if 0 <=? i then l !! Z.to_nat i else None.

(** The manager, as far as a session reads it. *)
Record ManagerBase := mkBase {
  mb_pools : list PoolSpec;
  mb_explicit_pools : bool;
  mb_num_shards : Z;
  mb_num_host_layers : Z;
  mb_device_buffers : bool;
  mb_transport_running : bool;
}.
Definition num_pools (base : ManagerBase) : Z := Z.of_nat (length (mb_pools base)).
(** [base->pool(idx)]: null out of range (the index is a [size_t]). *)
Definition pool (base : ManagerBase) (idx : Z) : option PoolSpec := at_index (mb_pools base) idx.

Definition StridedSpanFitsBlock (offset stride size count block_size : Z) : bool :=
  if (offset <? 0) || (stride <? 0) || (size <=? 0) || (count <=? 0) || (block_size <=? 0) ||
     (block_size <? offset) || (block_size - offset <? size) then false
  else if count =? 1 then true
  else
    let remaining := block_size - offset - size in
    stride <=? remaining / (count - 1).
Definition StridedSpanFitsRegions (offset stride size count block_size : Z) (rs : list RegionSpec) : bool :=
  StridedSpanFitsBlock offset stride size count block_size &&
  forallb (λ repeat, let start := offset + repeat * stride in RegionsCoverRange rs start (start + size)) (seqZ 0 count).

Definition block_id_ok (id : Z) : bool := (0 <=? id) && (id <=? INT_MAX).
Definition entry_fields_ok (groups : Z) (e : ScheduleEntry) : bool :=
  negb (bool_decide (se_dst_peer e = EmptyString)) &&
  block_id_ok (se_src_block_id e) && block_id_ok (se_dst_block_id e) && (0 <=? se_dst_shard_idx e) &&
  (0 <=? se_src_offset_bytes e) && (0 <=? se_dst_offset_bytes e) && (0 <? se_size_bytes e) &&
  (0 <=? se_src_stride_bytes e) && (0 <=? se_dst_stride_bytes e) && (0 <? se_count e) && (se_count e <=? 2 ^ 20) &&
  ((se_count e <=? 1) || (negb (se_src_stride_bytes e =? 0) && negb (se_dst_stride_bytes e =? 0))) &&
  (0 <=? se_pool_group e) && (se_pool_group e <? groups).
(** The entries of every schedule with the rank they come from. *)
Definition ranked_entries (plan : StartTransferRequest) : list (Z * ScheduleEntry) :=
  map_to_list (push_schedules plan) ≫= λ re, (re.1,.) <$> re.2.

Definition ValidateCommonPoolReshardPlan (base : ManagerBase) (plan : StartTransferRequest) (local_block_ids : list Z) : Status :=
  if negb (bool_decide (st_req_id plan = EmptyString)) && (0 <? st_uuid plan) && st_use_block_chunks plan &&
     negb (bool_decide (st_transfer_pool_indices plan = [])) && negb (bool_decide (st_pool_groups plan = [])) &&
     forallb (λ g, 0 <? gp_expected_pushes g) (st_pool_groups plan) &&
     (Z.of_nat (length (st_pool_dtype_tags plan)) =? num_pools base) &&
     negb (bool_decide (local_block_ids = [])) && forallb block_id_ok local_block_ids &&
     bool_decide (NoDup (st_transfer_pool_indices plan)) &&
     forallb (λ idx, match pool base idx with
                     | Some spec => bool_decide (st_pool_dtype_tags plan !! Z.to_nat idx = Some (dtype_tag spec))
                     | None => false end) (st_transfer_pool_indices plan) &&
     forallb (λ re : Z * list ScheduleEntry, 0 <=? re.1) (map_to_list (push_schedules plan)) &&
     forallb (λ re : Z * ScheduleEntry, entry_fields_ok (Z.of_nat (length (st_pool_groups plan))) re.2) (ranked_entries plan) &&
     negb (bool_decide (ranked_entries plan = []))
  then OkStatus else Err kInvalidArgument.

Definition ValidatePoolBlockBounds (base : ManagerBase) (plan : StartTransferRequest) (local_block_ids : list Z) : Status :=
  if forallb (λ idx, match pool base idx with
                     | Some spec => forallb (λ id, id <? num_blocks spec) local_block_ids
                     | None => false end) (st_transfer_pool_indices plan)
  then OkStatus else Err kInvalidArgument.

(** The pools of an entry's group. *)
Definition group_pools (plan : StartTransferRequest) (group_idx : Z) : list Z :=
  match at_index (st_pool_groups plan) group_idx with Some g => gp_pool_indices g | None => [] end.
(** [None]: the code reads through a null pointer, because a group names a pool the
    manager does not have. *)
Definition spans_fit (base : ManagerBase) (plan : StartTransferRequest) (group_idx offset stride size count : Z) : option bool :=
  specs ← mapM (pool base) (group_pools plan group_idx);
  Some (forallb (λ spec, StridedSpanFitsRegions offset stride size count (block_stride_bytes spec) (regions spec)) specs).
Fixpoint all_true (l : list (option bool)) : option bool :=
  match l with
  | [] => Some true
  | Some true :: l => all_true l
  | Some false :: _ => Some false
  | None :: _ => None
  end.

(** ** The sender's checks *)
Definition sender_entry_ok (base : ManagerBase) (plan : StartTransferRequest) (local_ids : list Z) (e : ScheduleEntry) : option bool :=
  if bool_decide (se_src_block_id e ∈ local_ids)
  then spans_fit base plan (se_pool_group e) (se_src_offset_bytes e) (se_src_stride_bytes e) (se_size_bytes e) (se_count e)
  else Some false.
Definition sender_ValidatePlan (base : ManagerBase) (plan : StartTransferRequest) (src_block_ids : list Z) : option Status :=
  match ValidateCommonPoolReshardPlan base plan src_block_ids, ValidatePoolBlockBounds base plan src_block_ids with
  | Ok _, Ok _ =>
      (λ b : bool, if b then OkStatus else Err kInvalidArgument) <$>
        all_true ((λ re : Z * ScheduleEntry, sender_entry_ok base plan src_block_ids re.2) <$> ranked_entries plan)
  | _, _ => Some (Err kInvalidArgument)
  end.

(** ** The receiver's checks *)
(** The live segments of a group, which its pools share. *)
Fixpoint group_segments (base : ManagerBase) (idxs : list Z) (segments : list PoolLiveSegment) : StatusOr (list PoolLiveSegment) :=
  match idxs with
  | [] => Ok segments
  | idx :: idxs =>
      match pool base idx with
      | None => Err kInvalidArgument
      | Some spec =>
          s ← ExpandPoolLiveSegments spec;
          if bool_decide (segments = []) then group_segments base idxs s
          else if bool_decide (segments = s) then group_segments base idxs segments
          else Err kInvalidArgument
      end
  end.
Definition segments_bytes (segments : list PoolLiveSegment) : Z := foldl (λ n s, n + segment_size s) 0 segments.
(** Every block is covered fully, the last one up to its extent. *)
Definition extents_ok (live : Z) (extents : list Z) : bool :=
  forallb (λ e, (0 <? e) && (e <=? live)) extents && forallb (λ e, e =? live) (take (length extents - 1) extents).
Definition group_state (base : ManagerBase) (group : PoolGroupProto) : StatusOr (list PoolLiveSegment) :=
  if bool_decide (gp_pool_indices group = []) then Err kInvalidArgument
  else
    segments ← group_segments base (gp_pool_indices group) [];
    let live := segments_bytes segments in
    if (live <=? 0) || bool_decide (gp_dst_expected_extent_bytes group = []) ||
       negb (length (gp_dst_expected_extent_bytes group) =? length (gp_dst_device_block_ids group))%nat ||
       negb (extents_ok live (gp_dst_expected_extent_bytes group))
    then Err kInvalidArgument else Ok segments.

Definition kMaxExpandedRepeats : Z := 2 ^ 24.
(** The ordinal of a destination block in its group, whose blocks are distinct. *)
Definition ordinal (group : PoolGroupProto) (block : Z) : option nat :=
  fst <$> list_find (λ b, b = block) (gp_dst_device_block_ids group).
(** Where an entry writes: the block's ordinal, and one logical interval per repeat. *)
Definition entry_ranges (plan : StartTransferRequest) (states : list (list PoolLiveSegment)) (e : ScheduleEntry)
    : StatusOr (nat * list (Z * Z)) :=
  match at_index (st_pool_groups plan) (se_pool_group e), at_index states (se_pool_group e) with
  | Some group, Some segments =>
      match ordinal group (se_dst_block_id e) with
      | None => Err kInvalidArgument
      | Some o =>
          let extent := gp_dst_expected_extent_bytes group !!! o in
          ranges ← mapM (λ repeat,
              match PhysicalLiveRangeToLogical segments (se_dst_offset_bytes e + repeat * se_dst_stride_bytes e) (se_size_bytes e) with
              | Err _ => Err kInvalidArgument
              | Ok range => if extent <? range.2 then Err kInvalidArgument else Ok range
              end) (seqZ 0 (se_count e));
          Ok (o, ranges)
      end
  | _, _ => Err kInvalidArgument
  end.
(** The pushes a group is to expect: per sender its distinct pairs, at most [parallelism]. *)
Definition group_pairs (g : Z) (entries : list ScheduleEntry) : gset (string * Z * Z) :=
  list_to_set ((λ e, (se_dst_peer e, se_src_block_id e, se_dst_block_id e)) <$> filter (λ e, se_pool_group e = g) entries).
Definition calculated_pushes (plan : StartTransferRequest) (g : Z) : Z :=
  foldr (λ (re : Z * list ScheduleEntry) n, Z.min (st_parallelism plan) (Z.of_nat (size (group_pairs g re.2))) + n) 0 (map_to_list (push_schedules plan)).
(** The intervals written to block [o] of group [g]. *)
Definition block_coverage (g : Z) (o : nat) (covered : list (Z * (nat * list (Z * Z)))) : list (Z * Z) :=
  covered ≫= λ c, if (c.1 =? g) && (c.2.1 =? o)%nat then c.2.2 else [].
Definition block_covered (intervals : list (Z * Z)) (extent : Z) : bool :=
  bool_decide (covered_until 0 (merge_sort interval_le intervals) = Ok extent).
Definition group_covered (plan : StartTransferRequest) (covered : list (Z * (nat * list (Z * Z)))) (g : Z) (group : PoolGroupProto) : bool :=
  (calculated_pushes plan g =? gp_expected_pushes group) &&
  forallb (λ o, block_covered (block_coverage g o covered) (gp_dst_expected_extent_bytes group !!! o)) (seq 0 (length (gp_dst_device_block_ids group))).
Definition ValidateReceiverCoverage (base : ManagerBase) (plan : StartTransferRequest) : Status :=
  let grouped := st_pool_groups plan ≫= gp_pool_indices in
  if negb (forallb (λ idx, 0 <=? idx) grouped && bool_decide (NoDup grouped)) then Err kInvalidArgument
  else if negb ((length grouped =? length (st_transfer_pool_indices plan))%nat &&
                forallb (λ idx, bool_decide (idx ∈ grouped)) (st_transfer_pool_indices plan)) then Err kInvalidArgument
  else if st_parallelism plan <=? 0 then Err kInvalidArgument
  else
    states ← mapM (group_state base) (st_pool_groups plan);
    let entries := (ranked_entries plan).*2 in
    if kMaxExpandedRepeats <? foldr (λ e n, se_count e + n) 0 entries then Err kInvalidArgument
    else
      covered ← mapM (λ e, (se_pool_group e,.) <$> entry_ranges plan states e) entries;
      if forallb (λ ig : Z * PoolGroupProto, group_covered plan covered ig.1 ig.2) (zip (seqZ 0 (Z.of_nat (length (st_pool_groups plan)))) (st_pool_groups plan))
      then OkStatus else Err kInvalidArgument.

Definition receiver_entry_ok (base : ManagerBase) (plan : StartTransferRequest) (local_ids : list Z) (e : ScheduleEntry) : option bool :=
  if (se_dst_shard_idx e <? mb_num_shards base) && bool_decide (se_dst_block_id e ∈ local_ids)
  then spans_fit base plan (se_pool_group e) (se_dst_offset_bytes e) (se_dst_stride_bytes e) (se_size_bytes e) (se_count e)
  else Some false.
Definition receiver_ValidatePlan (base : ManagerBase) (plan : StartTransferRequest) (chip_blocks : list Z) : option Status :=
  match ValidateCommonPoolReshardPlan base plan chip_blocks with
  | Err c => Some (Err c)
  | Ok _ =>
      if negb (forallb (λ g, bool_decide (NoDup (gp_dst_device_block_ids g))) (st_pool_groups plan) &&
               bool_decide ((st_pool_groups plan ≫= gp_dst_device_block_ids) = chip_blocks)) then Some (Err kInvalidArgument)
      else match ValidatePoolBlockBounds base plan chip_blocks with
           | Err c => Some (Err c)
           | Ok _ =>
               (λ b : bool, if negb b then Err kInvalidArgument
                     else if negb (forallb (λ id, existsb (λ re : Z * ScheduleEntry, (se_dst_offset_bytes re.2 =? 0) && (se_dst_block_id re.2 =? id)) (ranked_entries plan)) chip_blocks)
                     then Err kInvalidArgument
                     else ValidateReceiverCoverage base plan) <$>
               all_true ((λ re : Z * ScheduleEntry, receiver_entry_ok base plan chip_blocks re.2) <$> ranked_entries plan)
           end
  end.
