(* ===== verification/ReshardCoverage.v ===== *)
(** * ReshardCoverage: an accepted receive plan fills its blocks
    (ValidatePlan of src/tpu_sync/kv_cache/reshard_receive_session.cc)

    The receiver's checks work on compact-live intervals; what they mean is stated on the
    bytes of a block: the pushes of an accepted plan write every live byte below the
    block's extent exactly once, and nothing else. *)

From S2P Require Import Prelude RaidenTypes PoolLayout PoolReshardPlanner WireTypes ReshardChecks.

(** The bytes of a destination block an entry writes, repeat by repeat. *)
Definition entry_dst_bytes (e : ScheduleEntry) : list Z :=
  seqZ 0 (se_count e) ≫= λ repeat, seqZ (se_dst_offset_bytes e + repeat * se_dst_stride_bytes e) (se_size_bytes e).

Lemma all_true_inv l : all_true l = Some true → Forall (λ o, o = Some true) l.
Proof. induction l as [|[[]|] l IH]; cbn; [constructor|intros H; constructor; auto|done|done]. Qed.

(** ** The segments of a group *)
Lemma group_segments_inv base idxs segs0 segs :
  group_segments base idxs segs0 = Ok segs → (segs0 ≠ [] → segs = segs0) ∧
  ∀ p, p ∈ idxs → ∃ spec l, pool base p = Some spec ∧ ExpandPoolLiveSegments spec = Ok l ∧ (l ≠ [] → l = segs).
Proof.
  revert segs0; induction idxs as [|i idxs IH]; intros segs0; cbn; [intros [= <-]; split; [done|set_solver]|].
  destruct (pool base i) as [spec|] eqn:Ei; [|done]. intros (l & El & E)%bind_Ok. case_bool_decide as H0.
  - destruct (IH _ E) as [H1 H2]. split; [done|]. intros p [->|Hp]%elem_of_cons; [|auto]. exists spec, l. split_and!; [done..|]. intros Hl. by rewrite H1.
  - case_bool_decide as H1; [|done]. subst l. destruct (IH _ E) as [H1 H2]. split; [done|]. intros p [->|Hp]%elem_of_cons; [|auto].
    exists spec, segs0. split_and!; [done..|]. intros _. by rewrite H1.
Qed.
Lemma group_state_inv base group segs :
  group_state base group = Ok segs →
  length (gp_dst_expected_extent_bytes group) = length (gp_dst_device_block_ids group) ∧
  Forall (λ e, 0 < e <= segments_bytes segs) (gp_dst_expected_extent_bytes group) ∧
  ∀ p, p ∈ gp_pool_indices group → ∃ spec l, pool base p = Some spec ∧ ExpandPoolLiveSegments spec = Ok l ∧ (l ≠ [] → l = segs).
Proof.
  unfold group_state. case_bool_decide; [done|]. intros (segs' & Es & E)%bind_Ok. destruct (_ || _) eqn:Eb; [done|]. injection E as ->.
  repeat (apply orb_false_iff in Eb as [Eb ?]). split; [by eapply Nat.eqb_eq, negb_false_iff|]. split; [|by apply group_segments_inv in Es as [_ ?]].
  assert (extents_ok (segments_bytes segs) (gp_dst_expected_extent_bytes group) = true) as [He _]%andb_true_iff by (by apply negb_false_iff).
  apply Forall_forall. intros e Hin. rewrite forallb_forall in He. specialize (He e). rewrite <- list_elem_of_In in He. specialize (He Hin). lia.
Qed.
Lemma segments_bytes_total limit logical lo segs : segs_wf limit logical lo segs → segments_bytes segs = live_total segs.
Proof.
  unfold segments_bytes. assert (∀ acc, segs_wf limit logical lo segs → foldl (λ n s, n + segment_size s) acc segs = acc + live_total segs) as H; [|intros; rewrite H; done || lia].
  revert logical lo; induction segs as [|s segs IH]; intros logical lo acc; cbn; [unfold live_total; cbn; lia|]. intros (_ & _ & Hs & _ & Hw).
  rewrite (IH _ _ _ Hw). unfold live_total. rewrite segment_bytes_cons, length_app, length_seqZ. lia.
Qed.

(** ** From compact-live intervals to bytes *)
Definition live_byte (segs : list PoolLiveSegment) (i : Z) : Z := segment_bytes segs !!! Z.to_nat i.
Lemma slice_live segs l n : 0 <= l → 0 <= n → l + n <= live_total segs → slice (segment_bytes segs) l n = live_byte segs <$> seqZ l n.
Proof.
  intros Hl Hn Ht. unfold slice, live_byte, live_total in *. apply list_eq. intros i. destruct (decide (i < Z.to_nat n)%nat) as [Hi|Hi].
  - rewrite lookup_take_lt, lookup_drop by done. rewrite list_lookup_fmap, lookup_seqZ_lt by lia. cbn.
    replace (Z.to_nat (l + Z.of_nat i)) with (Z.to_nat l + i)%nat by lia. apply list_lookup_lookup_total_lt. lia.
  - rewrite lookup_take_ge by lia. rewrite list_lookup_fmap, lookup_seqZ_ge by lia. done.
Qed.
Lemma take_live segs n : 0 <= n <= live_total segs → take (Z.to_nat n) (segment_bytes segs) = live_byte segs <$> run_bytes 0 n.
Proof. intros H. unfold run_bytes. rewrite Z.sub_0_r, <- slice_live by lia. done. Qed.
Lemma range_bytes limit segs phys size l l' :
  segs_wf limit 0 0 segs → limit <= INT64_MAX → phys + size <= INT64_MAX → PhysicalLiveRangeToLogical segs phys size = Ok (l, l') →
  0 <= l < l' ∧ seqZ phys size = live_byte segs <$> run_bytes l l'.
Proof.
  intros Hw Hlim Hmax E. assert (0 <= phys ∧ 0 < size) as [Hp Hs]. { unfold PhysicalLiveRangeToLogical in E. destruct (Z.ltb_spec phys 0), (Z.leb_spec size 0); done || lia. }
  destruct (PhysicalLiveRangeToLogical_spec limit segs phys size Hw Hlim Hp Hs Hmax) as [_ H]. destruct (H l l' E) as (Hl & -> & Hb). split; [lia|].
  rewrite <- Hb. unfold run_bytes. replace (l + size - l) with size by lia. apply slice_live; [lia..|].
  apply (f_equal length) in Hb. unfold slice in Hb. rewrite length_take, length_drop, length_seqZ in Hb. unfold live_total. lia.
Qed.
Lemma span_bound offset stride size count block_size r :
  StridedSpanFitsBlock offset stride size count block_size = true → 0 <= r < count →
  0 <= offset + r * stride ∧ 0 < size ∧ offset + r * stride + size <= block_size.
Proof.
  unfold StridedSpanFitsBlock. destruct (_ || _) eqn:Eb; [done|]. repeat (apply orb_false_iff in Eb as [Eb ?]). intros Hfit Hr.
  assert (0 <= r * stride) by nia. split; [lia|]. split; [lia|]. destruct (Z.eqb_spec count 1) as [->|Hc]; [assert (r = 0) as -> by lia; lia|].
  assert (stride * (count - 1) <= block_size - offset - size); [|nia]. apply Z.leb_le in Hfit.
  pose proof (Z.mul_div_le (block_size - offset - size) (count - 1) ltac:(lia)). nia.
Qed.
Section entry.
Context (plan : StartTransferRequest) (states : list (list PoolLiveSegment)) (e : ScheduleEntry) (group : PoolGroupProto).
Context (segs : list PoolLiveSegment) (limit : Z) (Hwf : segs_wf limit 0 0 segs) (Hlim : limit <= INT64_MAX).
Context (Hgroup : at_index (st_pool_groups plan) (se_pool_group e) = Some group) (Hstate : at_index states (se_pool_group e) = Some segs).
Context (Hfits : StridedSpanFitsBlock (se_dst_offset_bytes e) (se_dst_stride_bytes e) (se_size_bytes e) (se_count e) limit = true).
Lemma entry_ranges_bytes o ranges :
  entry_ranges plan states e = Ok (o, ranges) →
  ordinal group (se_dst_block_id e) = Some o ∧ Forall (λ r, 0 <= r.1 < r.2) ranges ∧ entry_dst_bytes e = live_byte segs <$> interval_bytes ranges.
Proof using Hwf Hlim Hgroup Hstate Hfits.
  unfold entry_ranges. rewrite Hgroup, Hstate. destruct (ordinal group (se_dst_block_id e)) as [o'|]; [|done]. intros (rs & Hm & [= -> ->])%bind_Ok.
  split; [done|]. apply mapM_Ok in Hm. unfold entry_dst_bytes, interval_bytes.
  assert (∀ r, r ∈ seqZ 0 (se_count e) → 0 <= r < se_count e) as Hr by (intros r ?%elem_of_seqZ; lia).
  induction Hm as [|r [l l'] rs ranges' E _ IH]; cbn; [done|]. destruct IH as [IH1 IH2]; [intros; apply Hr; set_solver|].
  destruct (span_bound _ _ _ _ _ r Hfits) as (H1 & H2 & H3); [apply Hr; set_solver|].
  destruct (PhysicalLiveRangeToLogical _ _ _) as [[a b]|] eqn:EP; [|done]. destruct (_ <? _); [done|]. injection E as -> ->.
  destruct (range_bytes limit segs (se_dst_offset_bytes e + r * se_dst_stride_bytes e) (se_size_bytes e) l l' Hwf Hlim ltac:(lia) EP) as [Hl Hb]. split; [by constructor|]. by rewrite fmap_app, <- Hb, IH2.
Qed.
End entry.
Lemma ordinal_spec group o b : ordinal group b = Some o → gp_dst_device_block_ids group !! o = Some b.
Proof.
  unfold ordinal. destruct (list_find _ _) as [[i x]|] eqn:E; [|done]. intros [= <-]. apply list_find_Some in E as (H & -> & _). done.
Qed.

(** ** What acceptance means *)
Lemma receiver_plan_inv base plan chip_blocks :
  receiver_ValidatePlan base plan chip_blocks = Some OkStatus →
  Forall (λ g, NoDup (gp_dst_device_block_ids g)) (st_pool_groups plan) ∧
  Forall (λ e, receiver_entry_ok base plan chip_blocks e = Some true) (ranked_entries plan).*2 ∧
  ∃ states covered, Forall2 (λ g s, group_state base g = Ok s) (st_pool_groups plan) states ∧
    Forall2 (λ e c, (se_pool_group e,.) <$> entry_ranges plan states e = Ok c) (ranked_entries plan).*2 covered ∧
    ∀ g group, at_index (st_pool_groups plan) g = Some group → group_covered plan covered g group = true.
Proof.
  unfold receiver_ValidatePlan. destruct (ValidateCommonPoolReshardPlan _ _ _); [|done]. destruct (negb _) eqn:En; [done|].
  apply negb_false_iff, andb_true_iff in En as [Hnd _]. destruct (ValidatePoolBlockBounds _ _ _); [|done]. destruct (all_true _) as [[]|] eqn:Ea; [|done..].
  apply all_true_inv in Ea. cbn. destruct (negb _); [done|]. unfold ValidateReceiverCoverage. do 3 (case_match; [done|]).
  intros [= H']. apply bind_Ok in H' as (states & Hst & H'). destruct (_ <? _); [done|]. apply bind_Ok in H' as (covered & Hcov & H').
  destruct (forallb _ (zip _ _)) eqn:Eg; [|done]. apply mapM_Ok in Hst, Hcov. split; [|split].
  - apply Forall_forall. intros g Hg. rewrite forallb_forall in Hnd. specialize (Hnd g). rewrite <- list_elem_of_In in Hnd. by eapply bool_decide_eq_true, Hnd.
  - rewrite Forall_fmap in Ea. by apply Forall_fmap.
  - exists states, covered. split_and!; [done..|]. intros g group Hg. rewrite forallb_forall in Eg. specialize (Eg (g, group)). rewrite <- list_elem_of_In in Eg. apply Eg.
    unfold at_index in Hg. destruct (Z.leb_spec 0 g); [|done]. pose proof (lookup_lt_Some _ _ _ Hg). apply list_elem_of_lookup. exists (Z.to_nat g).
    apply lookup_zip_Some. split; [|done]. rewrite lookup_seqZ_lt by lia. f_equal. lia.
Qed.
Lemma spans_fit_pool base plan g offset stride size count group p spec :
  spans_fit base plan g offset stride size count = Some true → at_index (st_pool_groups plan) g = Some group → p ∈ gp_pool_indices group → pool base p = Some spec →
  StridedSpanFitsRegions offset stride size count (block_stride_bytes spec) (regions spec) = true.
Proof.
  unfold spans_fit, group_pools. intros H Hg Hp Hs. rewrite Hg in H. destruct (mapM _ _) as [specs|] eqn:Em; [|done]. cbn in H. injection H as H.
  rewrite forallb_forall in H. apply H, list_elem_of_In. apply mapM_Some in Em. apply list_elem_of_lookup in Hp as [i Hi].
  destruct (Forall2_lookup_l _ _ _ _ _ Em Hi) as (y & Hy & E). rewrite Hs in E. injection E as ->. by eapply list_elem_of_lookup_2.
Qed.
(** A span that fits lies on live bytes, so its pool has some. *)
Lemma span_has_segments spec offset stride size count segs :
  pool_ok spec → ExpandPoolLiveSegments spec = Ok segs →
  StridedSpanFitsRegions offset stride size count (block_stride_bytes spec) (regions spec) = true → segs ≠ [].
Proof.
  intros Hok Hex [Hf Hr]%andb_true_iff ->. assert (0 < count) as Hc. { unfold StridedSpanFitsBlock in Hf. destruct (_ || _) eqn:Eb in Hf; [done|]. lia. }
  destruct (span_bound _ _ _ _ _ 0 Hf) as (H1 & H2 & H3); [lia|]. rewrite forallb_forall in Hr. specialize (Hr 0).
  rewrite <- list_elem_of_In, elem_of_seqZ in Hr. specialize (Hr ltac:(lia)). cbn in Hr. pose proof (pok_stride _ Hok) as Hs. unfold INT64_MAX in Hs.
  apply (RegionsCoverRange_spec (block_stride_bytes spec)) with (x := offset) in Hr as (r & Hr & Hl); try (unfold INT64_MAX; lia); [|by apply Hok].
  destruct (Expand_inv _ _ Hok Hex) as [_ HP]. assert (offset ∈ block_bytes spec) as Hin. { apply elem_of_block_bytes. by exists r. }
  rewrite <- HP in Hin. by apply elem_of_nil in Hin.
Qed.
(** The intervals of one block, byte by byte. *)
Lemma block_coverage_bytes plan states segs limit g group o block entries covered :
  segs_wf limit 0 0 segs → limit <= INT64_MAX → at_index (st_pool_groups plan) g = Some group → at_index states g = Some segs →
  NoDup (gp_dst_device_block_ids group) → gp_dst_device_block_ids group !! o = Some block →
  (∀ e, e ∈ entries → se_pool_group e = g → StridedSpanFitsBlock (se_dst_offset_bytes e) (se_dst_stride_bytes e) (se_size_bytes e) (se_count e) limit = true) →
  Forall2 (λ e c, (se_pool_group e,.) <$> entry_ranges plan states e = Ok c) entries covered →
  Forall (λ r, 0 <= r.1 < r.2) (block_coverage g o covered) ∧
  (filter (λ e, se_pool_group e = g ∧ se_dst_block_id e = block) entries ≫= entry_dst_bytes) = live_byte segs <$> interval_bytes (block_coverage g o covered).
Proof.
  intros Hw Hlim Hg Hs Hnd Ho Hf HF. induction HF as [|e c entries covered E _ IH]; [done|]. destruct IH as [IH1 IH2]; [intros; apply Hf; set_solver|].
  apply fmap_Ok in E as ([o' ranges] & E & ->). rewrite filter_cons. unfold block_coverage, interval_bytes in *. rewrite bind_cons. cbn.
  destruct (Z.eqb_spec (se_pool_group e) g) as [Eg|Eg]; cbn; [|rewrite decide_False by naive_solver; done].
  destruct (entry_ranges_bytes plan states e group segs limit Hw Hlim) with (o := o') (ranges := ranges) as (Eo & Hr & Hb); [by rewrite Eg..|apply Hf; set_solver|done|].
  apply ordinal_spec in Eo. destruct (Nat.eqb_spec o' o) as [->|Hne].
  - rewrite decide_True by (split; [done|congruence]). split; [by apply Forall_app|]. rewrite bind_cons, bind_app, fmap_app, IH2. by f_equal.
  - rewrite decide_False; [done|]. intros [_ <-]. apply Hne. by eapply NoDup_lookup.
Qed.
Lemma covered_entry plan states g o entries covered :
  Forall2 (λ e c, (se_pool_group e,.) <$> entry_ranges plan states e = Ok c) entries covered → block_coverage g o covered ≠ [] →
  ∃ e, e ∈ entries ∧ se_pool_group e = g.
Proof.
  intros HF. unfold block_coverage. induction HF as [|e c entries covered E _ IH]; [done|]. apply fmap_Ok in E as (x & _ & ->). rewrite bind_cons. cbn.
  destruct (Z.eqb_spec (se_pool_group e) g) as [Eg|Eg]; [intros _; exists e; set_solver|]. cbn. intros (e' & ? & ?)%IH. exists e'. set_solver.
Qed.
(** C16: A receive plan that passes validation fills its blocks exactly: for every pool of
    every group, the pushes into a destination block write each of its first [extent]
    live bytes once, and no other byte of the block. *)
Theorem receiver_plan_covers base plan chip_blocks g group o block extent p :
  Forall pool_ok (mb_pools base) → receiver_ValidatePlan base plan chip_blocks = Some OkStatus →
  at_index (st_pool_groups plan) g = Some group → p ∈ gp_pool_indices group →
  gp_dst_device_block_ids group !! o = Some block → gp_dst_expected_extent_bytes group !! o = Some extent →
  ∃ spec segs, pool base p = Some spec ∧ ExpandPoolLiveSegments spec = Ok segs ∧ 0 < extent <= live_total segs ∧
    (filter (λ e, se_pool_group e = g ∧ se_dst_block_id e = block) (ranked_entries plan).*2 ≫= entry_dst_bytes)
      ≡ₚ take (Z.to_nat extent) (segment_bytes segs).
Proof.
  intros Hpools (Hnd & Hent & states & covered & Hst & Hcov & Hgc)%receiver_plan_inv Hg Hp Ho He.
  specialize (Hgc g group Hg). apply andb_true_iff in Hgc as [_ Hgc]. rewrite forallb_forall in Hgc. specialize (Hgc o).
  rewrite <- list_elem_of_In, elem_of_seq in Hgc. pose proof (lookup_lt_Some _ _ _ Ho). specialize (Hgc ltac:(lia)). rewrite (list_lookup_total_correct _ _ _ He) in Hgc.
  apply bool_decide_eq_true in Hgc.
  assert (∃ segs, at_index states g = Some segs ∧ group_state base group = Ok segs) as (segs & Hs & Hgs).
  { unfold at_index in *. destruct (0 <=? g); [|done]. by eapply Forall2_lookup_l in Hst. }
  destruct (group_state_inv _ _ _ Hgs) as (_ & Hext & Hpool). destruct (Hpool p Hp) as (spec & l & Hspec & Hl & Hsame).
  assert (pool_ok spec) as Hok. { rewrite Forall_forall in Hpools. apply Hpools. unfold pool, at_index in Hspec. destruct (0 <=? p); [|done]. by eapply list_elem_of_lookup_2. }
  assert (∀ e, e ∈ (ranked_entries plan).*2 → se_pool_group e = g →
    StridedSpanFitsRegions (se_dst_offset_bytes e) (se_dst_stride_bytes e) (se_size_bytes e) (se_count e) (block_stride_bytes spec) (regions spec) = true) as Hfit.
  { intros e Hin <-. rewrite Forall_forall in Hent. specialize (Hent e Hin). unfold receiver_entry_ok in Hent. destruct (_ && _) in Hent; [|done]. by eapply spans_fit_pool. }
  assert (0 < extent <= segments_bytes segs) as Hbound. { rewrite Forall_forall in Hext. apply Hext. by eapply list_elem_of_lookup_2. }
  assert (l = segs) as ->.
  { apply Hsame. destruct (covered_entry plan states g o _ _ Hcov) as (e & Hin & Eg).
    - intros E0. rewrite E0 in Hgc. injection Hgc as <-. lia.
    - eapply span_has_segments; [done|done|by apply (Hfit e)]. }
  destruct (Expand_inv _ _ Hok Hl) as [Hw _]. pose proof (pok_stride _ Hok) as [_ Hlim]. rewrite (segments_bytes_total _ _ _ _ Hw) in Hbound.
  destruct (block_coverage_bytes plan states segs (block_stride_bytes spec) g group o block (ranked_entries plan).*2 covered) as [Hr Hb]; [done..| |done| |done|].
  { rewrite Forall_forall in Hnd. apply Hnd. unfold at_index in Hg. destruct (0 <=? g); [|done]. by eapply list_elem_of_lookup_2. }
  { intros e Hin Eg. specialize (Hfit e Hin Eg). by apply andb_true_iff in Hfit as [? _]. }
  exists spec, segs. split_and!; [done..|lia|lia|]. rewrite Hb, take_live by lia. apply fmap_Permutation.
  pose proof (merge_sort_Permutation interval_le (block_coverage g o covered)) as HP. rewrite <- (interval_bytes_Permutation _ _ HP).
  destruct (covered_until_ok (merge_sort interval_le (block_coverage g o covered)) 0 extent) as [_ ->]; [by rewrite HP|done|done].
Qed.
