(* ===== verification/ReshardPlanExamples.v ===== *)
(** * ReshardPlanExamples: small reshard plans
    (src/tpu_sync/core/utils.h, kv_cache/reshard_receive_session.cc)

    Two pools of one 16-byte region, uploaded in the order of their groups' ranks.  The
    receiver gets the first pool's block in two halves from two senders; the sender pushes
    the first pool to two peers. *)

From S2P Require Import Prelude RaidenTypes PoolLayout PoolReshardPlanner WireTypes TransferPlan ReshardChecks ReshardCoverage.

Definition pool_16 (name : string) (storage : Z) : PoolSpec := mkPool name storage 0 16 4 [mkRegion "live" 0 16 16 1 1] "bf16" 0.
Definition base_ex (host_layers : Z) : ManagerBase := mkBase [pool_16 "k" 0; pool_16 "v" 1] true 1 host_layers true true.
Definition entry_ex (peer : string) (dst_offset src_offset size src dst group : Z) : ShardPushEntryProto :=
  mkPushEntry peer 0 dst_offset src_offset size src dst 0 0 1 None (Some group) [] [] [] [].
Definition plan_ex (schedules : gmap Z (list ShardPushEntryProto)) (groups : list PoolGroupProto) : StartTransferRequest :=
  mkStartTransfer [] [] schedules 7 false MEMORY_TYPE_HBM true 0 "r" ["bf16"; "bf16"] [0; 1] 1 None groups ∅ ∅ 0 0 ∅ ∅ None [] HOST_TILING_MODE_UNSPECIFIED.
Definition groups_ex : list PoolGroupProto := [mkPoolGroup [0] [2] 2 [16] 0; mkPoolGroup [1] [3] 1 [16] 1].
Definition recv_plan_ex : StartTransferRequest :=
  plan_ex {[ 0 := [entry_ex "p" 0 0 8 1 2 0; entry_ex "p" 0 0 16 1 3 1]; 1 := [entry_ex "p" 8 0 8 1 2 0] ]} groups_ex.
Definition send_plan_ex : StartTransferRequest :=
  plan_ex {[ 0 := [entry_ex "p" 0 0 16 1 2 0; entry_ex "q" 0 0 16 1 2 0; entry_ex "p" 0 0 16 1 3 1] ]} groups_ex.

Lemma pool_16_ok name storage : pool_ok (pool_16 name storage).
Proof. split; cbn; unfold INT64_MAX; try lia. apply Forall_singleton. by apply RegionSpec_Validate_ok. Qed.
Lemma receiver_plan_covers_witness :
  ∃ spec segs, pool (base_ex 2) 0 = Some spec ∧ ExpandPoolLiveSegments spec = Ok segs ∧ 0 < 16 <= live_total segs ∧
    (filter (λ e, se_pool_group e = 0 ∧ se_dst_block_id e = 2) (ranked_entries recv_plan_ex).*2 ≫= entry_dst_bytes)
      ≡ₚ take (Z.to_nat 16) (segment_bytes segs).
Proof.
  apply (receiver_plan_covers (base_ex 2) recv_plan_ex [2; 3] 0 (mkPoolGroup [0] [2] 2 [16] 0) 0 2 16 0); [|vm_compute; reflexivity|reflexivity|by left|reflexivity|reflexivity].
  apply Forall_cons; split; [apply pool_16_ok|]. apply Forall_singleton, pool_16_ok.
Defined.

(** A plan that leaves the last half of a block out is refused. *)
Example recv_plan_gap :
  receiver_ValidatePlan (base_ex 2) (plan_ex {[ 0 := [entry_ex "p" 0 0 8 1 2 0; entry_ex "p" 0 0 16 1 3 1] ]}
    [mkPoolGroup [0] [2] 1 [16] 0; mkPoolGroup [1] [3] 1 [16] 1]) [2; 3] = Some (Err kInvalidArgument).
Proof. vm_compute. reflexivity. Qed.
(** A group that names a pool the manager does not have: validation reads the pool's
    layout through a null pointer, on both sides. *)
Definition stray_groups : list PoolGroupProto := [mkPoolGroup [0; 9] [2] 2 [16] 0; mkPoolGroup [1] [3] 1 [16] 1].
Example stray_group_sender : sender_ValidatePlan (base_ex 2) (plan_ex (shard_push_schedules send_plan_ex) stray_groups) [1] = None.
Proof. vm_compute. reflexivity. Qed.
Example stray_group_receiver : receiver_ValidatePlan (base_ex 2) (plan_ex (shard_push_schedules recv_plan_ex) stray_groups) [2; 3] = None.
Proof. vm_compute. reflexivity. Qed.
