(* ===== verification/ReshardSend.v ===== *)
(** * ReshardSend: the sending side of a pool reshard
    (src/tpu_sync/kv_cache/reshard_send_session.cc, core/pool_reshard_send_slots.cc)

    A send session copies each pool of its plan from the device into a leased host buffer
    and pushes it to the peers of the plan.  A pipeline thread leases buffers and issues
    the copies; the completion of a copy starts the pushes of its pool; the completions of
    the pushes count down, and the operation that finds nothing left settles the session.
    Each critical section is an action ([SessionThreads]).  [pushed], [started] and
    [finished] record what has happened and are not read by the code. *)

From S2P Require Import Prelude RaidenTypes PoolLayout PoolReshardPlanner WireTypes TransferPlan SessionThreads StagingSlots ReshardChecks.

(** ** The pushes of a plan *)
(** The group a pool belongs to, or -1. *)
Definition pool_group_index (r : StartTransferRequest) (pool_idx : Z) : Z :=
  match list_find (λ g, pool_idx ∈ gp_pool_indices g) (st_pool_groups r) with Some (i, _) => Z.of_nat i | None => -1 end.
Definition CountPoolReshardSendSlots (plan : StartTransferRequest) (schedule : list ScheduleEntry) : Z :=
  let peers_by_group : gmap Z (gset string) :=
    foldl (λ m e, <[se_pool_group e := {[se_dst_peer e]} ∪ default ∅ (m !! se_pool_group e)]> m) ∅ schedule in
  foldl (λ slots idx, match peers_by_group !! pool_group_index plan idx with
                      | Some peers => slots + Z.of_nat (size peers)
                      | None => slots end) 0 (st_transfer_pool_indices plan).
(** The distinct block pairs per peer that a pool pushes. *)
Definition add_transfer (m : gmap string (list (Z * Z))) (e : ScheduleEntry) : gmap string (list (Z * Z)) :=
  let pair := (se_src_block_id e, se_dst_block_id e) in
  let transfers := default [] (m !! se_dst_peer e) in
  <[se_dst_peer e := if decide (pair ∈ transfers) then transfers else transfers ++ [pair]]> m.
Definition transfers_by_peer (r : StartTransferRequest) (schedule : list ScheduleEntry) (pool_idx : Z) : gmap string (list (Z * Z)) :=
  foldl add_transfer ∅ (filter (λ e, se_pool_group e = pool_group_index r pool_idx) schedule).
(** In the order of a [std::map]. *)
Definition peer_le (a b : string * list (Z * Z)) : Prop := String.leb a.1 b.1 = true.
#[export] Instance peer_le_dec a b : Decision (peer_le a b).
Proof. unfold peer_le. apply _. Defined.
Definition pushes (r : StartTransferRequest) (schedule : list ScheduleEntry) (pool_idx : Z) : list (string * list (Z * Z)) :=
  merge_sort peer_le (map_to_list (transfers_by_peer r schedule pool_idx)).

Definition order_rank (r : StartTransferRequest) (pool_idx : Z) : Z :=
  match at_index (st_pool_groups r) (pool_group_index r pool_idx) with Some g => gp_order_rank g | None => 0 end.
(** [std::stable_sort] by rank. *)
Fixpoint insert_ranked (rank : Z → Z) (x : Z) (l : list Z) : list Z :=
  match l with [] => [x] | y :: l' => if rank x <? rank y then x :: l else y :: insert_ranked rank x l' end.
Definition ordered_pools (r : StartTransferRequest) : list Z :=
  foldl (λ l x, insert_ranked (order_rank r) x l) [] (st_transfer_pool_indices r).

(** ** The session *)
Record Send := mkSend {
  remaining_pool_peer_pushes : Z;
  in_flight : Z;
  status : Status;
  finalizing : bool;
  done : bool;
  leases_released : bool;
  connections_released : bool;
  slots : StagingLayerManager;
  cancelled : bool;
  push_left : gmap Z Z;                 (* [remaining_pushes] of the pools whose pushes were issued *)
  arena : list (Z * list Z);            (* staging leases the manager holds for this uuid *)
  pushed : list (Z * string);
  started : bool;
  finished : bool;
}.
Definition with_remaining v s := mkSend v (in_flight s) (status s) (finalizing s) (done s) (leases_released s) (connections_released s) (slots s) (cancelled s) (push_left s) (arena s) (pushed s) (started s) (finished s).
Definition with_in_flight v s := mkSend (remaining_pool_peer_pushes s) v (status s) (finalizing s) (done s) (leases_released s) (connections_released s) (slots s) (cancelled s) (push_left s) (arena s) (pushed s) (started s) (finished s).
Definition with_slots v s := mkSend (remaining_pool_peer_pushes s) (in_flight s) (status s) (finalizing s) (done s) (leases_released s) (connections_released s) v (cancelled s) (push_left s) (arena s) (pushed s) (started s) (finished s).
Definition with_arena v s := mkSend (remaining_pool_peer_pushes s) (in_flight s) (status s) (finalizing s) (done s) (leases_released s) (connections_released s) (slots s) (cancelled s) (push_left s) v (pushed s) (started s) (finished s).
Definition with_push_left v s := mkSend (remaining_pool_peer_pushes s) (in_flight s) (status s) (finalizing s) (done s) (leases_released s) (connections_released s) (slots s) (cancelled s) v (arena s) (pushed s) (started s) (finished s).
Definition with_pushed v s := mkSend (remaining_pool_peer_pushes s) (in_flight s) (status s) (finalizing s) (done s) (leases_released s) (connections_released s) (slots s) (cancelled s) (push_left s) (arena s) v (started s) (finished s).
Definition with_started s := mkSend (remaining_pool_peer_pushes s) (in_flight s) (status s) (finalizing s) (done s) (leases_released s) (connections_released s) (slots s) (cancelled s) (push_left s) (arena s) (pushed s) true (finished s).
Definition with_finished s := mkSend (remaining_pool_peer_pushes s) (in_flight s) (status s) (finalizing s) (done s) (leases_released s) (connections_released s) (slots s) (cancelled s) (push_left s) (arena s) (pushed s) (started s) true.
Definition with_connections_released s := mkSend (remaining_pool_peer_pushes s) (in_flight s) (status s) (finalizing s) (done s) (leases_released s) true (slots s) (cancelled s) (push_left s) (arena s) (pushed s) (started s) (finished s).

Definition draining (s : Send) : bool := done s || finalizing s.
(** What a draining session answers. *)
Definition drain_code (s : Send) : StatusCode := match status s with Err c => c | Ok _ => kCancelled end.
Definition free_slot (pool_idx : Z) (s : Send) : Send := with_slots (Release pool_idx (slots s)) s.
(** The outcome is decided: keep the first error and let nobody wait for a slot. *)
Definition begin_drain (st : Status) (s : Send) : Send :=
  mkSend (remaining_pool_peer_pushes s) (in_flight s) (if is_ok (status s) then st else status s) true (done s)
    (leases_released s) (connections_released s) (Shutdown (slots s)) true (push_left s) (arena s) (pushed s) (started s) (finished s).
Definition RecordPushCompletion (st : Status) (s : Send) : Send :=
  if draining s then s
  else match st with
       | Err c => begin_drain (Err c) s
       | Ok _ =>
           let s := with_remaining (remaining_pool_peer_pushes s - 1) s in
           if remaining_pool_peer_pushes s =? 0 then begin_drain OkStatus s else s
       end.
Definition ReleaseLeasesLocked (s : Send) : Send :=
  mkSend (remaining_pool_peer_pushes s) (in_flight s) (status s) (finalizing s) (done s) true (connections_released s)
    (ReleaseAll (slots s)) (cancelled s) (push_left s) (if leases_released s then arena s else []) (pushed s) (started s) (finished s).
Definition SettleLocked (s : Send) : Send :=
  let s := ReleaseLeasesLocked s in
  mkSend (remaining_pool_peer_pushes s) (in_flight s) (status s) (finalizing s) true (leases_released s) (connections_released s)
    (Shutdown (slots s)) true (push_left s) (arena s) (pushed s) (started s) (finished s).
Definition Finish (st : Status) (s : Send) : Send :=
  if draining s then s
  else
    let s := with_finished (begin_drain st s) in
    if in_flight s =? 0 then SettleLocked s else s.
Definition LookupStagingSlot (pool_idx : Z) (s : Send) : StatusOr Z :=
  match Lookup pool_idx (slots s) with
  | Some slot => Ok slot
  | None => Err (if draining s then drain_code s else kFailedPrecondition)
  end.

(** What the environment answers: the result of a copy, a push, a lease or a thread
    creation; [Deadline]: the session's deadline has passed. *)
Inductive Env := Result (r : Status) | Deadline.

Inductive Action :=
  | Start                                    (* its first section *)
  | StartChecks                              (* preconditions, and the pipeline thread *)
  | Pipeline (pools : list Z)                (* the head of the pipeline's loop *)
  | AcquireSlot (p : Z) (rest : list Z)      (* waiting for a host buffer *)
  | SlotAcquired (p : Z) (rest : list Z)
  | SlotChecked (p : Z) (rest : list Z)
  | LeaseArena (p : Z) (rest : list Z)
  | IssueCopy (p : Z) (rest : list Z)
  | Copying (p : Z)                          (* a device-to-host copy in flight *)
  | StartPoolPush (p : Z)
  | CountPushes (p : Z)
  | IssuePushes (p : Z) (peers : list (string * list (Z * Z)))
  | Pushing (p : Z) (peer : string)          (* a push in flight *)
  | RecordPush (st : Status)
  | FreeSlot (p : Z)
  | EndOp
  | CloseConnections
  | FinishCall (st : Status).

Section send.
Context (base : ManagerBase) (request : StartTransferRequest) (src_block_ids : list Z) (per_transfer : bool).

(** The schedule the pipeline stages from; [None]: stage the whole block list. *)
Definition local_schedule : option (list ScheduleEntry) :=
  match push_schedules request !! 0 with
  | Some schedule => Some schedule
  | None => match map_to_list (push_schedules request) with [(_, schedule)] => Some schedule | _ => None end
  end.
(** The schedule the pushes follow. *)
Definition push_schedule : list ScheduleEntry :=
  match push_schedules request !! 0 with
  | Some schedule => schedule
  | None => default [] (head ((map_to_list (push_schedules request)).*2))
  end.
(** [std::set] of the group's source blocks. *)
Definition pool_src_block_ids (p : Z) : list Z :=
  match local_schedule with
  | None => src_block_ids
  | Some schedule =>
      merge_sort Z.le (elements (list_to_set (C := gset Z)
        (se_src_block_id <$> filter (λ e, se_pool_group e = pool_group_index request p) schedule)))
  end.
(** A pool of which this sender has no bytes is skipped. *)
Definition skips (p : Z) : bool :=
  match local_schedule with Some _ => bool_decide (pool_src_block_ids p = []) | None => false end.
Definition ValidatePushPreconditions : Status :=
  if negb (mb_transport_running base) then Err kFailedPrecondition
  else if mb_num_host_layers base =? 0 then Err kFailedPrecondition
  else if forallb (λ p, bool_decide (is_Some (pool base p))) (st_transfer_pool_indices request) then OkStatus
  else Err kInvalidArgument.

Definition Outcome : Type := Send * list Action * list (list Action).
(** Start: admission, and the checks it makes before the pipeline thread runs. *)
Definition start_op (s : Send) : Outcome :=
  if draining s then (with_started s, [], []) else (with_in_flight (in_flight s + 1) (with_started s), [StartChecks; EndOp], []).
Definition start_checks (x : Env) (s : Send) : option Outcome :=
  match ValidatePushPreconditions, x with
  | Err c, _ => Some (s, [RecordPush (Err c)], [])
  | Ok _, Result (Ok _) => Some (s, [Pipeline (ordered_pools request)], [])
  | Ok _, Result (Err _) => Some (s, [RecordPush (Err kInternal)], [])   (* no thread *)
  | Ok _, Deadline => None
  end.
(** StartPoolPush up to its second section, and that section. *)
Definition start_pool_push (p : Z) (s : Send) : Outcome :=
  if draining s then (free_slot p s, [], [])
  else if bool_decide (pushes request push_schedule p = []) then (free_slot p s, [], [])
  else if negb (mb_transport_running base) then (s, [RecordPush (Err kFailedPrecondition); FreeSlot p], [])
  else (s, [CountPushes p], []).
Definition count_pool_pushes (p : Z) (s : Send) : Outcome :=
  if draining s then (free_slot p s, [], [])
  else
    let n := Z.of_nat (length (pushes request push_schedule p)) in
    (with_push_left (<[p := n]> (push_left s)) (with_in_flight (in_flight s + n) s), [IssuePushes p (pushes request push_schedule p)], []).
(** The completion of a push; the last one of a pool frees its buffer. *)
Definition push_completed (p : Z) (peer : string) (x : Env) (s : Send) : option Outcome :=
  let left := default 0 (push_left s !! p) in
  let free := if left =? 1 then [FreeSlot p] else [] in
  let s := with_push_left (<[p := left - 1]> (push_left s)) s in
  match x with
  | Result (Ok _) => Some (with_pushed ((p, peer) :: pushed s) s, free ++ [RecordPush OkStatus], [])
  | Result (Err c) => Some (s, RecordPush (Err c) :: free, [])
  | Deadline => None
  end.
Definition end_op (s : Send) : Outcome :=
  if per_transfer && (in_flight s =? 1) && finalizing s && negb (done s) && negb (connections_released s)
  then (with_connections_released s, [CloseConnections], [])
  else
    let s := with_in_flight (in_flight s - 1) s in
    (if finalizing s && (in_flight s =? 0) && negb (done s) then SettleLocked s else s, [], []).
(** The pipeline's loop, the completions of its copies, and the sections above. *)
Definition act (x : Env) (s : Send) (a : Action) : option Outcome :=
  match a with
  | Start => Some (start_op s)
  | StartChecks => start_checks x s
  | Pipeline [] => Some (s, [], [])
  | Pipeline (p :: rest) =>
      if skips p then Some (s, [Pipeline rest], [])
      else if draining s then Some (s, [RecordPush (Err (drain_code s))], [])
      else Some (s, [AcquireSlot p rest], [])
  | AcquireSlot p rest =>
      match Acquire (match x with Deadline => true | _ => false end) p (cancelled s) (slots s) with
      | None => None
      | Some (Ok _, m) => Some (with_slots m s, [SlotAcquired p rest], [])
      | Some (Err c, m) => Some (with_slots m s, [RecordPush (Err c)], [])
      end
  | SlotAcquired p rest =>
      if draining s then Some (free_slot p s, [RecordPush (Err (drain_code s))], []) else Some (s, [SlotChecked p rest], [])
  | SlotChecked p rest =>
      if draining s then Some (free_slot p s, [], []) else Some (s, [LeaseArena p rest], [])
  | LeaseArena p rest =>
      match pool base p, x with
      | None, _ => Some (s, [IssueCopy p rest], [])
      | Some _, Result (Ok _) => Some (with_arena ((p, pool_src_block_ids p) :: arena s) s, [IssueCopy p rest], [])
      | Some _, Result (Err c) => Some (s, [RecordPush (Err c); FreeSlot p], [])
      | Some _, Deadline => None
      end
  | IssueCopy p rest =>
      match x with
      | Result (Ok _) => Some (with_in_flight (in_flight s + 1) s, [Pipeline rest], [[Copying p; EndOp]])
      | Result (Err c) => Some (s, [RecordPush (Err c); FreeSlot p], [])
      | Deadline => None
      end
  | Copying p =>
      match x with
      | Result (Ok _) => Some (s, [StartPoolPush p], [])
      | Result (Err c) => Some (s, [RecordPush (Err c); FreeSlot p], [])
      | Deadline => None
      end
  | StartPoolPush p => Some (start_pool_push p s)
  | CountPushes p => Some (count_pool_pushes p s)
  | IssuePushes p [] => Some (s, [], [])
  | IssuePushes p ((peer, _) :: peers) => Some (s, [IssuePushes p peers], [[Pushing p peer; EndOp]])
  | Pushing p peer => push_completed p peer x s
  | RecordPush st => Some (RecordPushCompletion st s, [], [])
  | FreeSlot p => Some (free_slot p s, [], [])
  | EndOp => Some (end_op s)
  | CloseConnections => Some (s, [EndOp], [])
  | FinishCall st => Some (Finish st s, [], [])
  end.
(** Start is called at most once; Finish at any time. *)
Definition entry (s : Send) (a : Action) : bool :=
  match a with Start => negb (started s) | FinishCall _ => true | _ => false end.
End send.

Definition Send_new (remaining num_slots : Z) : Send :=
  mkSend remaining 0 OkStatus false false false false (StagingLayerManager_new num_slots) false ∅ [] [] false false.
(** [None]: undefined behaviour in ValidatePlan. *)
Definition CreateReshardSendSession (base : ManagerBase) (staging_allocator : bool) (src_block_ids : list Z) (parallelism : Z)
    (plan : StartTransferRequest) (reuse : StatusOr bool) : option (StatusOr Send) :=
  if negb staging_allocator then Some (Err kInvalidArgument)
  else match reuse with
  | Err c => Some (Err c)
  | Ok _ =>
      match sender_ValidatePlan base plan src_block_ids with
      | None => None
      | Some (Err c) => Some (Err c)
      | Some (Ok _) =>
          Some (if negb (mb_device_buffers base) then Err kFailedPrecondition
                else if parallelism <=? 0 then Err kInvalidArgument
                else match local_schedule plan with
                | None => Err kInvalidArgument
                | Some schedule =>
                    if bool_decide (schedule = []) then Err kInvalidArgument
                    else
                      let remaining := i32 (CountPoolReshardSendSlots plan schedule) in
                      if remaining <=? 0 then Err kInvalidArgument
                      else match Create plan true (num_pools base) (mb_explicit_pools base) (mb_pools base) ∅ with
                           | Err c => Err c
                           | Ok _ => Ok (Send_new remaining (mb_num_host_layers base))
                           end
                end)
      end
  end.
