(* ===== verification/ReshardSendFacts.v ===== *)
(** * ReshardSendFacts: invariants of a sending session
    (src/tpu_sync/kv_cache/reshard_send_session.cc)

    The count of operations in flight, the ownership of the host buffers, and the account
    of the pushes: scheduled ones are done, under way or still to come. *)

From S2P Require Import Prelude RaidenTypes PoolLayout PoolReshardPlanner WireTypes TransferPlan SessionThreads StagingSlots ReshardChecks ReshardSend.

(** ** The pushes of a plan *)
Lemma insert_ranked_perm rank x l : insert_ranked rank x l ≡ₚ x :: l.
Proof. induction l as [|y l IH]; cbn; [done|]. case_match; [done|]. rewrite IH. solve_Permutation. Qed.
Lemma ordered_pools_perm r : ordered_pools r ≡ₚ st_transfer_pool_indices r.
Proof.
  unfold ordered_pools. assert (∀ l acc, foldl (λ l x, insert_ranked (order_rank r) x l) acc l ≡ₚ acc ++ l) as H; [|by rewrite H].
  induction l as [|x l IH]; intros acc; cbn; [by rewrite app_nil_r|]. rewrite IH, insert_ranked_perm. solve_Permutation.
Qed.
Lemma dom_add_transfers entries m :
  dom (foldl add_transfer m entries) = dom m ∪ list_to_set (se_dst_peer <$> entries).
Proof.
  revert m; induction entries as [|e entries IH]; intros m; cbn; [set_solver|]. rewrite IH. unfold add_transfer. rewrite dom_insert_L. set_solver.
Qed.
Section plan.
Context (r : StartTransferRequest) (schedule : list ScheduleEntry).
Abbreviation group_entries p := (filter (λ e, se_pool_group e = pool_group_index r p) schedule).
Lemma pushes_length p : length (pushes r schedule p) = size (list_to_set (C := gset string) (se_dst_peer <$> group_entries p)).
Proof.
  unfold pushes. rewrite (Permutation_length (merge_sort_Permutation peer_le _)), length_map_to_list, <- size_dom.
  unfold transfers_by_peer. rewrite dom_add_transfers, dom_empty_L. f_equal. set_solver.
Qed.
Lemma pushes_nil p : pushes r schedule p = [] ↔ group_entries p = [].
Proof.
  rewrite <- length_zero_iff_nil, pushes_length, size_empty_iff. destruct (group_entries p); [split; [done|set_solver]|].
  cbn. split; [set_solver|done].
Qed.
Lemma peers_by_group_spec entries (m : gmap Z (gset string)) g :
  foldl (λ m e, <[se_pool_group e := {[se_dst_peer e]} ∪ default ∅ (m !! se_pool_group e)]> m) m entries !! g =
  match filter (λ e, se_pool_group e = g) entries with
  | [] => m !! g
  | es => Some (list_to_set (se_dst_peer <$> es) ∪ default ∅ (m !! g))
  end.
Proof.
  revert m; induction entries as [|e entries IH]; intros m; [done|]. cbn [foldl]. rewrite IH, filter_cons. case_decide as Hg.
  - subst g. rewrite lookup_insert_eq. destruct (filter _ entries); cbn; f_equal; set_solver.
  - by rewrite lookup_insert_ne.
Qed.
(** The count that is waited for is the number of pushes that are made. *)
Lemma count_pushes :
  CountPoolReshardSendSlots r schedule = foldr (λ p n, Z.of_nat (length (pushes r schedule p)) + n) 0 (st_transfer_pool_indices r).
Proof.
  unfold CountPoolReshardSendSlots. generalize (st_transfer_pool_indices r). intros l.
  set (m := foldl _ ∅ schedule). assert (∀ acc, foldl (λ slots idx, match m !! pool_group_index r idx with Some peers => slots + Z.of_nat (size peers) | None => slots end) acc l
    = acc + foldr (λ p n, Z.of_nat (length (pushes r schedule p)) + n) 0 l) as H; [|by rewrite H].
  induction l as [|p l IH]; intros acc; cbn; [lia|]. rewrite IH, pushes_length. unfold m. rewrite peers_by_group_spec, lookup_empty.
  destruct (group_entries p) as [|e es]; [cbn; by rewrite size_empty|]. change (default ∅ None) with (∅ : gset string). rewrite union_empty_r_L. lia.
Qed.
End plan.

Lemma push_schedule_local r schedule : local_schedule r = Some schedule → push_schedule r = schedule.
Proof.
  unfold local_schedule, push_schedule. case_match; [by intros [= ->]|]. destruct (map_to_list _) as [|[k sc] [|]]; [done| |done]. by intros [= ->].
Qed.
Lemma skips_pushes r ids schedule p : local_schedule r = Some schedule → skips r ids p = true ↔ pushes r schedule p = [].
Proof.
  intros E. unfold skips, pool_src_block_ids. rewrite E, bool_decide_eq_true, pushes_nil.
  set (es := filter _ _). split; [|by intros ->]. intros H. destruct es as [|e es']; [done|]. exfalso.
  assert (se_src_block_id e ∈ merge_sort Z.le (elements (list_to_set (C := gset Z) (se_src_block_id <$> e :: es')))) as Hin.
  { rewrite merge_sort_Permutation. set_solver. }
  rewrite H in Hin. by apply elem_of_nil in Hin.
Qed.

Definition final (a : Action) : bool := match a with EndOp | CloseConnections => true | _ => false end.
(** The operations an action answers for. *)
Definition weight (a : Action) : Z :=
  match a with EndOp | CloseConnections => 1 | IssuePushes _ peers => Z.of_nat (length peers) | _ => 0 end.
Lemma weight_nonneg a : 0 <= weight a.
Proof. destruct a; cbn; lia. Qed.
Lemma weight_final a : final a = true → weight a = 1.
Proof. by destruct a. Qed.

Section session.
Context (base : ManagerBase) (request : StartTransferRequest) (src_block_ids : list Z) (per_transfer : bool).
Abbreviation act := (act base request src_block_ids per_transfer).
Abbreviation reached := (reachable act entry).

(** Case analysis of one action. *)
Ltac act_cases E :=
  unfold ReshardSend.act, start_op, start_checks, start_pool_push, count_pool_pushes, push_completed, end_op in E; repeat case_match; simplify_eq.

Lemma act_ends x s a s' pre new :
  act x s a = Some (s', pre, new) → Forall (ends final) new ∧ (final a = true → ends final pre).
Proof.
  intros E. destruct a; act_cases E; (split; [repeat (apply Forall_cons; split; [by right; eexists [_], EndOp|]); apply Forall_nil_2|intros; try done]);
    (by left) || (right; by exists [], CloseConnections) || (right; by exists [], EndOp).
Qed.
Lemma call_ends x s a s' pre new : entry s a = true → act x s a = Some (s', pre, new) → ends final pre.
Proof. intros He E. destruct a; act_cases E; (by left) || (right; by exists [StartChecks], EndOp). Qed.

(** ** Operations in flight *)
Record counted (s : Send) (acts : list Action) : Prop := {
  ct_flight : in_flight s = sum_of weight acts;
  ct_done : done s = true → finalizing s = true ∧ in_flight s = 0 ∧ leases_ (slots s) = ∅ ∧ arena s = [];
  ct_settled : finalizing s = true → in_flight s = 0 → done s = true;
  ct_leases : leases_released s = done s;
}.
Lemma counted_alive s a others :
  counted s (a :: others) → beside final others ∧ (others = [] → final a = true) → done s = false ∧ 1 <= in_flight s.
Proof.
  intros [Hf Hd _ _] Hfin. assert (1 <= in_flight s) as Hpos.
  { rewrite Hf. cbn. destruct Hfin as [[->|(e & He & Hw%weight_final)] Ha].
    - rewrite (weight_final a) by auto. done.
    - pose proof (sum_of_elem weight others e weight_nonneg He). pose proof (weight_nonneg a). lia. }
  split; [|done]. destruct (done s); [|done]. destruct (Hd eq_refl) as (_ & ? & _). lia.
Qed.
Lemma counted_step s a others x s' pre new :
  beside final others ∧ (others = [] → final a = true) → counted s (a :: others) → act x s a = Some (s', pre, new) →
  counted s' (pre ++ concat new ++ others).
Proof.
  intros Hfin Hc E. destruct (counted_alive s a others Hc Hfin) as [Hnd Hpos]. destruct Hc as [Hf Hd Hs Hl]. clear Hd.
  rewrite Hnd in *. destruct a; act_cases E; cbn in *; unfold draining, RecordPushCompletion, Finish in *; rewrite ?Hnd in *; cbn in *;
    repeat case_match; split; cbn in *; intros; rewrite ?Hnd in *; try done; try lia; try (split_and!; done || lia).
  - rewrite Hl. destruct (finalizing s); [|done]. split_and!; done || lia.
  - exfalso. destruct (finalizing s), (Z.eqb_spec (in_flight s - 1) 0); done || lia.
Qed.
Lemma counted_call s a others x s' pre new :
  beside final others → counted s others → entry s a = true → act x s a = Some (s', pre, new) → counted s' (pre ++ concat new ++ others).
Proof.
  intros _ [Hf Hd Hs Hl] He E. destruct a; act_cases E; cbn in *; unfold Finish, draining in *; repeat case_match; split; cbn in *; intros; try done; try lia;
    destruct (done s) eqn:Hdn, (finalizing s) eqn:Hfn; cbn in *; rewrite ?Hl; try done; try (destruct (Hd eq_refl) as (? & ? & ? & ?); done); try (split_and!; done || lia); by apply Hs.
Qed.
Lemma counted_reach n k w : reached (Send_new n k) w → counted (sess w) (pending w).
Proof.
  apply (invariant_ends _ _ final counted); [apply act_ends|apply call_ends| | |apply counted_step|apply counted_call].
  - intros s l l' HP [Hf Hd Hs Hl]. split; [by rewrite <- HP|done..].
  - by split.
Qed.
(** No operation in flight, no thread. *)
Lemma idle n k w : reached (Send_new n k) w → in_flight (sess w) = 0 → pending w = [].
Proof.
  intros Hw H0. destruct (counted_reach n k w Hw) as [Hf _ _ _]. pose proof (threads_end _ _ final _ w act_ends call_ends Hw) as He.
  destruct (pending w) as [|a l] eqn:E; [done|]. exfalso. destruct (ends_pending final w He) as (e & Hin & Hw1%weight_final); [by rewrite E|].
  rewrite E in Hin. pose proof (sum_of_elem weight (a :: l) e weight_nonneg Hin). lia.
Qed.

(** ** Host buffers

    [own p]: how often an action is responsible for pool [p], as a pool its thread will
    come to included; [hold p]: whether it has the buffer of [p].  The pushes of a pool
    own it together, counted by [push_left]. *)
Definition occ (p : Z) (l : list Z) : Z := Z.of_nat (length (filter (λ q, q = p) l)).
Definition same (p q : Z) : Z := if decide (q = p) then 1 else 0.
Definition own (p : Z) (a : Action) : Z :=
  match a with
  | Start | StartChecks => occ p (ordered_pools request)
  | Pipeline pools => occ p pools
  | AcquireSlot q rest | SlotAcquired q rest | SlotChecked q rest | LeaseArena q rest | IssueCopy q rest => same p q + occ p rest
  | Copying q | StartPoolPush q | CountPushes q | FreeSlot q => same p q
  | _ => 0
  end.
Definition hold (p : Z) (a : Action) : Z :=
  match a with
  | SlotAcquired q _ | SlotChecked q _ | LeaseArena q _ | IssueCopy q _ | Copying q | StartPoolPush q | CountPushes q | FreeSlot q => same p q
  | _ => 0
  end.
Definition pushing (p : Z) (a : Action) : Z :=
  match a with IssuePushes q peers => same p q * Z.of_nat (length peers) | Pushing q _ => same p q | _ => 0 end.
Lemma occ_cons p q l : occ p (q :: l) = same p q + occ p l.
Proof. unfold occ, same. rewrite filter_cons. case_decide; cbn; lia. Qed.
Lemma same_01 p q : 0 <= same p q <= 1.
Proof. unfold same. case_decide; lia. Qed.
Lemma same_refl p : same p p = 1.
Proof. unfold same. by case_decide. Qed.
Lemma same_other p q : p ≠ q → same p q = 0.
Proof. unfold same. by case_decide. Qed.
Lemma hold_own p a : 0 <= hold p a <= own p a.
Proof. destruct a; cbn; rewrite ?occ_cons; pose proof (same_01 p) as H; unfold occ in *; try specialize (H p0); lia. Qed.
Lemma pushing_nonneg p a : 0 <= pushing p a.
Proof. destruct a; cbn; pose proof (same_01 p) as H; try specialize (H p0); nia. Qed.
Lemma hold_own_sum p l : 0 <= sum_of (hold p) l <= sum_of (own p) l.
Proof. induction l as [|a l IH]; cbn; [lia|]. pose proof (hold_own p a). lia. Qed.

Definition shared (p : Z) (acts : list Action) : Z := if 0 <? sum_of (pushing p) acts then 1 else 0.
Record buffered (k : Z) (s : Send) (acts : list Action) : Prop := {
  bf_slots : slots_ok k (slots s);
  bf_left : ∀ p, default 0 (push_left s !! p) = sum_of (pushing p) acts;
  bf_owner : ∀ p, sum_of (own p) acts + shared p acts <= 1;
  bf_held : ∀ p, 0 < sum_of (hold p) acts + sum_of (pushing p) acts → is_Some (leases_ (slots s) !! p);
  bf_started : started s = false → acts = [];
}.
Lemma buffered_begun k s a others : buffered k s (a :: others) → started s = true.
Proof. intros [_ _ _ _ H]. destruct (started s); [done|]. by specialize (H eq_refl). Qed.
(** The owner of [p] acts and leaves others as they are. *)
Lemma buffered_same k s a others s' l :
  buffered k s (a :: others) → slots s' = slots s ∨ slots s' = Shutdown (slots s) → push_left s' = push_left s → started s' = true →
  (∀ p, sum_of (own p) l <= own p a ∧ sum_of (hold p) l <= hold p a ∧ sum_of (pushing p) l = pushing p a) → buffered k s' (l ++ others).
Proof.
  intros [Hs Hl Ho Hh _] Es Ep Et H. assert (slots_ok k (slots s') ∧ leases_ (slots s') = leases_ (slots s)) as [Hs' El] by (by destruct Es as [-> | ->]).
  split; [done|intros p; specialize (H p)..|by rewrite Et].
  - rewrite Ep, Hl, sum_of_app. cbn. lia.
  - specialize (Ho p). unfold shared in *. rewrite !sum_of_app. cbn in Ho. destruct H as (? & ? & ->). lia.
  - rewrite El, !sum_of_app. intros Hp. apply Hh. cbn. lia.
Qed.
(** The owner of [p] gives its buffer back. *)
Lemma buffered_release k s a others s' l p :
  buffered k s (a :: others) → slots s' = Release p (slots s) → push_left s' = push_left s → started s' = true → sum_of (own p) l + 1 <= own p a →
  (∀ q, sum_of (own q) l <= own q a ∧ sum_of (hold q) l <= hold q a ∧ sum_of (pushing q) l = pushing q a) → buffered k s' (l ++ others).
Proof.
  intros [Hs Hl Ho Hh _] Es Ep Et Hp H. split; [by rewrite Es; apply slots_release|intros q; specialize (H q)..|by rewrite Et].
  - rewrite Ep, Hl, sum_of_app. cbn. lia.
  - specialize (Ho q). unfold shared in *. rewrite !sum_of_app. cbn in Ho. destruct H as (? & ? & ->). lia.
  - rewrite Es, leases_release, !sum_of_app. intros Hq. destruct (decide (q = p)) as [->|Hne].
    + specialize (Ho p). unfold shared in Ho. cbn in Ho. pose proof (hold_own_sum p l). pose proof (hold_own_sum p others).
      destruct (Z.ltb_spec 0 (pushing p a + sum_of (pushing p) others)); lia.
    + rewrite lookup_delete_ne by done. apply Hh. cbn. lia.
Qed.
(** The three ways an action changes the buffers besides. *)
Lemma buffered_acquire k s p rest others expired slot m :
  buffered k s (AcquireSlot p rest :: others) → Acquire expired p (cancelled s) (slots s) = Some (Ok slot, m) →
  buffered k (with_slots m s) (SlotAcquired p rest :: others).
Proof.
  intros Hb E. pose proof (buffered_begun _ _ _ _ Hb) as Et. destruct Hb as [Hs Hl Ho Hh _]. pose proof (slots_acquire k _ _ _ _ _ _ Hs E) as Hs'. apply leases_acquire in E as [Em _].
  split; [done|exact Hl|exact Ho| |by cbn; rewrite Et]. intros q Hq. cbn in *. rewrite Em. destruct (decide (q = p)) as [->|Hne]; [rewrite lookup_insert_eq; eauto|].
  rewrite lookup_insert_ne by done. apply Hh. cbn. rewrite same_other in Hq by done. lia.
Qed.
Lemma buffered_count k s p others :
  let peers := pushes request (push_schedule request) p in
  buffered k s (CountPushes p :: others) →
  buffered k (with_push_left (<[p := Z.of_nat (length peers)]> (push_left s)) (with_in_flight (in_flight s + Z.of_nat (length peers)) s)) (IssuePushes p peers :: others).
Proof.
  intros peers Hb. pose proof (buffered_begun _ _ _ _ Hb) as Et. destruct Hb as [Hs Hl Ho Hh _]. assert (sum_of (pushing p) others = 0) as H0.
  { specialize (Ho p). unfold shared in Ho. cbn in Ho. rewrite same_refl in Ho. pose proof (hold_own_sum p others). pose proof (sum_of_nonneg _ others (pushing_nonneg p)).
    destruct (Z.ltb_spec 0 (0 + sum_of (pushing p) others)); lia. }
  split; [done|intros q; specialize (Hl q); specialize (Ho q); specialize (Hh q); cbn in *; destruct (decide (q = p)) as [->|Hne]; rewrite ?same_refl, ?same_other in * by done..|by cbn; rewrite Et].
  - rewrite lookup_insert_eq. cbn. lia.
  - rewrite lookup_insert_ne by done. lia.
  - unfold shared in *. cbn in *. rewrite same_refl in *. destruct (0 <? _), (0 <? _); lia.
  - unfold shared in *. cbn in *. rewrite same_other in * by done. done.
  - intros _. apply Hh. pose proof (hold_own_sum p others). lia.
  - intros H. apply Hh. lia.
Qed.
Lemma buffered_pushed k s p peer others s' l :
  buffered k s (Pushing p peer :: others) → slots s' = slots s → started s' = started s → push_left s' = <[p := default 0 (push_left s !! p) - 1]> (push_left s) →
  (∀ q, sum_of (own q) l = sum_of (hold q) l ∧ sum_of (pushing q) l = 0 ∧ sum_of (own q) l = if default 0 (push_left s !! p) =? 1 then same q p else 0) →
  buffered k s' (l ++ others).
Proof.
  intros Hb Es Et Ep H. pose proof (buffered_begun _ _ _ _ Hb) as Eb. destruct Hb as [Hs Hl Ho Hh _]. split; [by rewrite Es|intros q; specialize (H q)..|by rewrite Et, Eb].
  - rewrite Ep, sum_of_app. pose proof (Hl q) as Hq. pose proof (Hl p) as Hp. cbn in Hq, Hp. rewrite same_refl in Hp. destruct (decide (q = p)) as [->|Hne].
    + rewrite lookup_insert_eq. cbn. lia.
    + rewrite lookup_insert_ne, Hq by done. rewrite same_other by done. lia.
  - specialize (Ho q). specialize (Hl p). unfold shared in *. rewrite !sum_of_app. cbn in Ho, Hl. rewrite same_refl in Hl. destruct H as (_ & -> & ->).
    destruct (decide (q = p)) as [->|Hne]; [|rewrite same_other in * by done; destruct (_ =? 1); exact Ho].
    rewrite same_refl in *. pose proof (sum_of_nonneg _ others (pushing_nonneg p)). rewrite (proj2 (Z.ltb_lt 0 (1 + _))) in Ho by lia.
    destruct (Z.eqb_spec (default 0 (push_left s !! p)) 1), (Z.ltb_spec 0 (0 + sum_of (pushing p) others)); lia.
  - rewrite Es, !sum_of_app. intros Hq. apply Hh. cbn. destruct H as (E1 & E2 & E3). pose proof (same_01 q p). rewrite E1 in E3. rewrite E3, E2 in Hq.
    pose proof (hold_own_sum q others). pose proof (sum_of_nonneg _ others (pushing_nonneg q)). destruct (_ =? 1); lia.
Qed.
(** Nothing is left beside an operation that is the last. *)
Lemma counted_last s a others : beside final others → counted s (a :: others) → in_flight s = weight a → others = [].
Proof.
  intros [->|(e & He & Hw%weight_final)] [Hf _ _ _] E; [done|]. cbn in Hf. pose proof (sum_of_elem weight others e weight_nonneg He). lia.
Qed.
Lemma buffered_settle k s s' : buffered k s [EndOp] → slots s' = Shutdown (ReleaseAll (slots s)) → push_left s' = push_left s → started s' = started s → buffered k s' [].
Proof.
  intros Hb Es Ep Et. pose proof (buffered_begun _ _ _ _ Hb) as E. destruct Hb as [Hs Hl Ho Hh _]. split; [rewrite Es; by apply slots_shutdown, slots_release_all|..|done].
  - intros p. rewrite Ep, Hl. done.
  - intros p. cbn. lia.
  - intros p. cbn. lia.
Qed.
Ltac ownership :=
  cbn; intros; rewrite ?occ_cons, ?same_refl;
  repeat match goal with |- context [same ?q ?p] => lazymatch goal with _ : 0 <= same q p <= 1 |- _ => fail | _ => pose proof (same_01 q p) end end;
  unfold occ; lia.
Lemma buffered_step k s a others x s' pre new :
  beside final others ∧ (others = [] → final a = true) → counted s (a :: others) → buffered k s (a :: others) →
  act x s a = Some (s', pre, new) → buffered k s' (pre ++ concat new ++ others).
Proof.
  intros Hfin Hc Hb E. destruct (counted_alive s a others Hc Hfin) as [Hnd Hpos]. pose proof (buffered_begun _ _ _ _ Hb) as Et.
  rewrite app_assoc. destruct a; act_cases E; unfold RecordPushCompletion, Finish, draining in *; rewrite ?Hnd in *; cbn [orb] in *; repeat case_match;
    try (eapply buffered_same; [exact Hb|by (left + right)|done|done|ownership]);
    try (eapply (buffered_release _ _ _ _ _ _ p); [exact Hb|done|done|done|ownership..]);
    try (by eapply buffered_acquire); try (by apply buffered_count);
    try (eapply buffered_pushed; [exact Hb|done|done|done|]; intros q; rewrite ?H0, ?H1; ownership);
    try (match goal with H : Acquire _ _ _ _ = Some (Err _, _) |- _ => apply acquire_err in H as -> end;
         eapply buffered_same; [exact Hb|by left|done|done|ownership]).
  - cbn in H0. assert (in_flight s = 1) as E1 by (destruct (Z.eqb_spec (in_flight s - 1) 0); [lia|by rewrite andb_false_r in H0]).
    rewrite (counted_last s EndOp others (proj1 Hfin) Hc E1) in *. by eapply buffered_settle.
  - cbn in H0. lia.
Qed.
Context (pools_distinct : NoDup (st_transfer_pool_indices request)).
Lemma occ_distinct p : occ p (ordered_pools request) <= 1.
Proof using pools_distinct.
  assert (NoDup (ordered_pools request)) as Hnd by (by rewrite ordered_pools_perm). unfold occ.
  assert (NoDup (filter (λ q, q = p) (ordered_pools request))) as Hf by (by apply NoDup_filter).
  destruct (filter _ _) as [|a [|b l]] eqn:E; [cbn; lia..|]. exfalso.
  assert (∀ c, c ∈ a :: b :: l → c = p) as Hc by (intros c Hc; rewrite <- E in Hc; by apply list_elem_of_filter in Hc as [? _]).
  rewrite (Hc a), (Hc b) in Hf by set_solver. inversion Hf as [|?? Hn]; subst. apply Hn. set_solver.
Qed.
Lemma buffered_call k s a others x s' pre new :
  beside final others → counted s others → buffered k s others → entry s a = true → act x s a = Some (s', pre, new) → buffered k s' (pre ++ concat new ++ others).
Proof using pools_distinct.
  intros Hbe [Hf _ _ _] [Hs Hl Ho Hh Hst] He E. destruct a; act_cases E; cbn in *.
  - destruct (started s) eqn:Es; [done|]. rewrite (Hst eq_refl) in *. by split.
  - destruct (started s) eqn:Es; [done|]. rewrite (Hst eq_refl) in *. split; cbn; [done..| |lia|done]. intros p. unfold shared. cbn. change (0 <? 0 + (0 + 0)) with false. pose proof (occ_distinct p). lia.
  - unfold Finish. destruct (draining s); [by split|]. cbn. destruct (Z.eqb_spec (in_flight s) 0) as [H0|]; [|by split].
    assert (others = []) as ->. { destruct Hbe as [|(e & He' & Hw%weight_final)]; [done|]. pose proof (sum_of_elem weight others e weight_nonneg He'). lia. }
    split; cbn; [by apply slots_shutdown, slots_release_all|done..|lia|done].
Qed.
Lemma buffered_reach n k w : reached (Send_new n k) w → buffered k (sess w) (pending w).
Proof using pools_distinct.
  intros Hw. assert (counted (sess w) (pending w) ∧ buffered k (sess w) (pending w)) as [_ ?]; [|done]. revert Hw.
  apply (invariant_ends _ _ final (λ s l, counted s l ∧ buffered k s l)); [apply act_ends|apply call_ends|..].
  - intros s l l' HP [[Hf Hd Hs Hl] [Bs Bl Bo Bh Bt]]. split; (split; try done).
    + by rewrite <- HP. + intros p. by rewrite <- HP. + intros p. unfold shared. rewrite <- HP. apply Bo.
    + intros p. rewrite <- HP. apply Bh. + intros E. apply Bt in E as ->. by apply Permutation_nil in HP.
  - split; split; try done; cbn; [apply slots_new|intros p; cbn; lia..].
  - intros s a others x s' pre new Hfin [Hc Hb] E. split; [by eapply counted_step|by eapply buffered_step].
  - intros s a others x s' pre new Hbe [Hc Hb] He E. split; [by eapply counted_call|by eapply buffered_call].
Qed.

(** ** The pushes

    A push of the plan is still to come ([todo]), has succeeded ([pushed]), or was given
    up, which only happens once an error is about to be recorded or the outcome is
    decided. *)
Context (schedule : list ScheduleEntry) (Hlocal : local_schedule request = Some schedule).
Definition scheduled (p : Z) : list (Z * string) := (λ pt, (p, pt.1)) <$> pushes request schedule p.
Definition all_pushes : list (Z * string) := ordered_pools request ≫= scheduled.
Definition todo (a : Action) : list (Z * string) :=
  match a with
  | Start | StartChecks => all_pushes
  | Pipeline pools => pools ≫= scheduled
  | AcquireSlot p rest | SlotAcquired p rest | SlotChecked p rest | LeaseArena p rest | IssueCopy p rest => scheduled p ++ (rest ≫= scheduled)
  | Copying p | StartPoolPush p | CountPushes p => scheduled p
  | IssuePushes p peers => (λ pt, (p, pt.1)) <$> peers
  | Pushing p peer => [(p, peer)]
  | _ => []
  end.
Definition recording (a : Action) : Z := match a with RecordPush (Ok _) => 1 | _ => 0 end.
Definition failing (acts : list Action) : Prop := ∃ c, RecordPush (Err c) ∈ acts.
Definition planned (s : Send) (acts : list Action) : list (Z * string) := if started s then acts ≫= todo else all_pushes.
Record accounted (s : Send) (acts : list Action) : Prop := {
  ac_all : ∃ dropped, planned s acts ++ pushed s ++ dropped ≡ₚ all_pushes ∧ (dropped = [] ∨ finalizing s = true ∨ failing acts);
  ac_count : finalizing s = false → 0 < remaining_pool_peer_pushes s ∧
    remaining_pool_peer_pushes s = Z.of_nat (length all_pushes) - Z.of_nat (length (pushed s)) + sum_of recording acts;
  ac_final : finalizing s = true → is_ok (status s) = false ∨ finished s = true ∨ pushed s ≡ₚ all_pushes;
}.
Lemma scheduled_nil p : pushes request schedule p = [] → scheduled p = [].
Proof. unfold scheduled. by intros ->. Qed.
Lemma failing_app l k : failing (l ++ k) ↔ failing l ∨ failing k.
Proof. unfold failing. setoid_rewrite elem_of_app. naive_solver. Qed.
Lemma recording_nonneg a : 0 <= recording a.
Proof. by destruct a as [| | | | | | | | | | | | | [] | | | |]. Qed.
(** An action that decides nothing: its pushes go to the actions it leaves, or are given up. *)
Lemma accounted_keep s a others s' l dropped :
  accounted s (a :: others) → started s = true → started s' = true → pushed s' = pushed s →
  todo a ≡ₚ (l ≫= todo) ++ dropped → dropped = [] ∨ finalizing s = true ∨ failing l →
  finalizing s' = finalizing s → remaining_pool_peer_pushes s' = remaining_pool_peer_pushes s → status s' = status s → finished s' = finished s →
  recording a = sum_of recording l → (∀ c, a ≠ RecordPush (Err c)) → accounted s' (l ++ others).
Proof.
  intros [(dr & HP & Hdr) Hc Hf] Es Es' Ep Ht Hd Efi Er Est Efs Erec Hne. split.
  - exists (dropped ++ dr). unfold planned in *. rewrite Es, Es', Ep in *. cbn in HP. rewrite Ht in HP. split; [rewrite <- HP, bind_app; solve_Permutation|].
    rewrite Efi, failing_app. destruct Hd as [->|[]]; [|tauto..]. destruct Hdr as [->|[|(c & Hin)]]; [by left|tauto|].
    right. right. right. apply elem_of_cons in Hin as [<-|Hin]; [by destruct (Hne c)|by exists c].
  - rewrite Efi, Er, Ep, sum_of_app, <- Erec. exact Hc.
  - rewrite Efi, Est, Efs, Ep. exact Hf.
Qed.
Lemma accounted_drop s a others s' l :
  accounted s (a :: others) → started s = true → started s' = true → pushed s' = pushed s →
  (l ≫= todo) = [] → finalizing s = true ∨ failing l →
  finalizing s' = finalizing s → remaining_pool_peer_pushes s' = remaining_pool_peer_pushes s → status s' = status s → finished s' = finished s →
  recording a = sum_of recording l → (∀ c, a ≠ RecordPush (Err c)) → accounted s' (l ++ others).
Proof. intros Ha Es Es' Ep El Hd. apply (accounted_keep s a others s' l (todo a)); try done; [by rewrite El|by right]. Qed.
Lemma accounted_pushed s p peer others s' l :
  accounted s (Pushing p peer :: others) → started s = true → started s' = true → pushed s' = (p, peer) :: pushed s → (l ≫= todo) = [] →
  finalizing s' = finalizing s → remaining_pool_peer_pushes s' = remaining_pool_peer_pushes s → status s' = status s → finished s' = finished s →
  sum_of recording l = 1 → accounted s' (l ++ others).
Proof.
  intros [(dr & HP & Hdr) Hc Hf] Es Es' Ep El Efi Er Est Efs Erec. unfold planned in *. rewrite Es in HP. cbn in HP.
  split; rewrite ?Efi, ?Er, ?Est, ?Efs, ?Ep.
  - exists dr. unfold planned. rewrite Es', bind_app, El. cbn. split; [rewrite <- HP; solve_Permutation|]. destruct Hdr as [|[|(c & Hin)]]; [tauto..|].
    right. right. apply failing_app. right. exists c. by apply elem_of_cons in Hin as [|].
  - intros H0. rewrite sum_of_app, Erec. specialize (Hc H0). cbn in *. lia.
  - intros [|[|H]]%Hf; [tauto..|]. exfalso. rewrite <- H, Permutation_app_swap_app in HP. cbn in HP. apply Permutation_length in HP. rewrite !length_cons, !length_app in HP. lia.
Qed.
Lemma accounted_final s a others s' :
  accounted s (a :: others) → started s = true → started s' = true → todo a = [] → pushed s' = pushed s → finalizing s' = true →
  is_ok (status s') = false ∨ finished s' = true ∨ pushed s' ≡ₚ all_pushes → accounted s' others.
Proof.
  intros [(dr & HP & Hdr) Hc Hf] Es Es' Et Ep Efi H. split; [|by rewrite Efi|done]. exists dr. unfold planned in *. rewrite Es in HP. rewrite Es', Ep. cbn in HP. rewrite Et in HP.
  split; [done|]. right. by left.
Qed.
(** The last success has everything pushed. *)
Lemma accounted_last s acts : accounted s acts → finalizing s = false → Z.of_nat (length all_pushes) <= Z.of_nat (length (pushed s)) → pushed s ≡ₚ all_pushes.
Proof.
  intros [(dr & HP & _) _ _] _ Hlen. pose proof (Permutation_length HP) as El. rewrite !length_app in El.
  destruct (planned s acts), dr; cbn in *; [by rewrite app_nil_r in HP|lia..].
Qed.
Lemma accounted_record s st others : done s = false → started s = true → accounted s (RecordPush st :: others) → accounted (RecordPushCompletion st s) others.
Proof.
  intros Hnd Es Ha. pose proof (sum_of_nonneg recording others recording_nonneg) as Hr. unfold RecordPushCompletion, draining. rewrite Hnd. cbn [orb].
  destruct (finalizing s) eqn:Efi; [apply (accounted_final s _ _ _ Ha); try done; by apply (ac_final _ _ Ha)|]. destruct (ac_count _ _ Ha Efi) as [Hpos Hcnt]. destruct st as [[]|c].
  - cbn in *. destruct (Z.eqb_spec (remaining_pool_peer_pushes s - 1) 0).
    + apply (accounted_final s _ _ _ Ha); try done. right. right. apply (accounted_last s _ Ha Efi). cbn. lia.
    + destruct Ha as [(dr & HP & Hdr) _ _]. split; cbn; [|intros _; lia|by rewrite Efi]. exists dr. split; [done|]. destruct Hdr as [|[|(c & Hin)]]; [tauto..|].
      right. right. exists c. by apply elem_of_cons in Hin as [|].
  - apply (accounted_final s _ _ _ Ha); try done. cbn. left. by destruct (status s).
Qed.
Ltac same_pushes := cbn; rewrite ?app_nil_r; done || solve_Permutation.
Ltac gives_up := (left; done) || (right; eexists; cbn; constructor).
Lemma accounted_step s a others x s' pre new :
  done s = false → started s = true → accounted s (a :: others) → act x s a = Some (s', pre, new) → accounted s' (pre ++ concat new ++ others).
Proof using Hlocal.
  intros Hnd Es Ha E. rewrite app_assoc. pose proof (push_schedule_local _ _ Hlocal) as Epush.
  destruct a; act_cases E; rewrite ?Epush in *; unfold draining, Finish in *; rewrite ?Hnd in *; cbn [orb] in *; repeat case_match;
    try (eapply (accounted_keep _ _ _ _ _ []); [exact Ha|done|done|done|same_pushes|by left|done..]);
    try (eapply accounted_drop; [exact Ha|done|done|done|done|gives_up|done..]);
    try (eapply accounted_pushed; [exact Ha|done..]);
    try (by apply accounted_record);
    try (eapply accounted_final; [exact Ha|done..|by right; left]).
  - eapply (accounted_keep _ _ _ _ _ []); [exact Ha|done|done|done| |by left|done..]. cbn. rewrite (scheduled_nil z); [same_pushes|].
    by apply (skips_pushes request src_block_ids schedule z Hlocal).
  - eapply (accounted_keep _ _ _ _ _ []); [exact Ha|done|done|done| |by left|done..]. cbn. rewrite scheduled_nil; [done|]. by eapply bool_decide_eq_true.
Qed.
Lemma accounted_call s a others x s' pre new :
  counted s others → (started s = false → others = []) → accounted s others → entry s a = true → act x s a = Some (s', pre, new) → accounted s' (pre ++ concat new ++ others).
Proof.
  intros Hct Hst Ha He E. pose proof Ha as [(dr & HP & Hdr) Hc Hf]. destruct a; act_cases E; cbn in *.
  - destruct (started s) eqn:Es; [done|]. rewrite (Hst eq_refl) in *. unfold planned in HP. rewrite Es in HP.
    assert (finalizing s = true) as Efi. { unfold draining in *. destruct (done s) eqn:Ed; [by apply (ct_done _ _ Hct)|done]. }
    split; cbn; [|by rewrite Efi|done]. exists (all_pushes ++ dr). unfold planned. cbn. split; [etrans; [|exact HP]; solve_Permutation|by right; left].
  - destruct (started s) eqn:Es; [done|]. rewrite (Hst eq_refl) in *. unfold planned in HP. rewrite Es in HP. unfold draining in *.
    assert (finalizing s = false) as Efi by (by destruct (done s), (finalizing s)). split; cbn; [|exact Hc|exact Hf]. exists dr. unfold planned. cbn. rewrite !app_nil_r.
    split; [done|]. destruct Hdr as [|[?|(c & Hin)]]; [by left|congruence|by apply elem_of_nil in Hin].
  - unfold Finish. destruct (draining s); [done|]. assert (accounted (with_finished (begin_drain st s)) others) as Hn.
    { split; [|done|by intros _; right; left]. exists dr. split; [done|by right; left]. }
    cbn. case_match; [|done]. destruct Hn as [Ha1 Ha2 Ha3]. by split.
Qed.
Lemma accounted_reach n k w :
  0 < n → n = Z.of_nat (length all_pushes) → reached (Send_new n k) w → accounted (sess w) (pending w).
Proof using pools_distinct Hlocal.
  intros Hn En Hw. assert (counted (sess w) (pending w) ∧ buffered k (sess w) (pending w) ∧ accounted (sess w) (pending w)) as (_ & _ & ?); [|done].
  pose proof (λ w Hw, conj (counted_reach n k w Hw) (buffered_reach n k w Hw)) as Hall. revert Hw. unfold reachable. revert w. apply rtc_ind_r.
  - split_and!; [by apply (counted_reach n k), rtc_refl|by apply (buffered_reach n k), rtc_refl|]. split; cbn; [|intros _; lia|done]. exists []. by rewrite app_nil_r; auto.
  - intros w1 w2 Hr Hm (Hc & Hb & Ha). assert (reached (Send_new n k) w2) as Hr2 by (by eapply rtc_r). destruct (Hall w2 Hr2) as [Hc2 Hb2]. split_and!; [done..|].
    assert (∀ s l l', l ≡ₚ l' → accounted s l → accounted s l') as HPerm.
    { intros s l l' HP [(dr & H1 & H2) H3 H4]. split; [|by rewrite <- HP|done]. exists dr. unfold planned, failing in *. split; [destruct (started s); [by rewrite <- HP|done]|by setoid_rewrite <- HP]. }
    destruct Hm as [Hs|Hcall].
    + pose proof (threads_end _ _ final _ w1 act_ends call_ends Hr) as Hends. apply step_pending in Hs as (a & x & pre & new & others & E & P1 & P2).
      apply (HPerm _ _ _ (symmetry P2)). eapply accounted_step; [| |by apply (HPerm _ _ _ P1)|exact E].
      * destruct (done (sess w1)) eqn:Ed; [|done]. destruct (ct_done _ _ Hc Ed) as (_ & H0 & _). apply (idle n k w1 Hr) in H0. rewrite H0 in P1. by apply Permutation_nil in P1.
      * destruct (started (sess w1)) eqn:Es; [done|]. apply (bf_started _ _ _ Hb) in Es. rewrite Es in P1. by apply Permutation_nil in P1.
    + apply call_pending in Hcall as (a & x & pre & new & He & E & P). apply (HPerm _ _ _ (symmetry P)). eapply accounted_call; [exact Hc| |exact Ha|exact He|exact E].
      apply (bf_started _ _ _ Hb).
Qed.

(** ** Termination *)
Definition pool_cost (p : Z) : Z := 5 * Z.of_nat (length (pushes request (push_schedule request) p)).
Definition pools_cost (pools : list Z) : Z := 1 + foldr (λ p n, 12 + pool_cost p + n) 0 pools.
Definition cost (a : Action) : Z :=
  match a with
  | Start => 3 + pools_cost (ordered_pools request)
  | StartChecks => 1 + pools_cost (ordered_pools request)
  | Pipeline pools => pools_cost pools
  | AcquireSlot p rest => 10 + pool_cost p + pools_cost rest
  | SlotAcquired p rest => 9 + pool_cost p + pools_cost rest
  | SlotChecked p rest => 8 + pool_cost p + pools_cost rest
  | LeaseArena p rest => 7 + pool_cost p + pools_cost rest
  | IssueCopy p rest => 6 + pool_cost p + pools_cost rest
  | Copying p => 4 + pool_cost p
  | StartPoolPush p => 3 + pool_cost p
  | CountPushes p => 2 + pool_cost p
  | IssuePushes _ peers => 1 + 5 * Z.of_nat (length peers)
  | Pushing _ _ => 3
  | CloseConnections => 2
  | _ => 1
  end.
Definition potential (s : Send) : Z := if connections_released s then 0 else 2.
Lemma pools_cost_pos pools : 1 <= pools_cost pools.
Proof. unfold pools_cost. induction pools as [|p l IH]; cbn; [lia|]. unfold pool_cost in *. lia. Qed.
Lemma pools_cost_cons p rest : pools_cost (p :: rest) = 12 + pool_cost p + pools_cost rest.
Proof. unfold pools_cost. cbn. lia. Qed.
Lemma cost_nonneg a : 0 <= cost a.
Proof. destruct a; cbn; try pose proof (pools_cost_pos (ordered_pools request)); try pose proof (pools_cost_pos rest); try pose proof (pools_cost_pos pools); unfold pool_cost; lia. Qed.
Lemma cost_decreases x s a s' pre new : act x s a = Some (s', pre, new) → potential s' + sum_of cost (pre ++ concat new) < potential s + cost a.
Proof.
  intros E. unfold potential. destruct a; act_cases E; unfold RecordPushCompletion, Finish in *; repeat case_match; cbn in *; rewrite ?pools_cost_cons;
    repeat match goal with |- context [pools_cost ?l] => lazymatch goal with _ : 1 <= pools_cost l |- _ => fail | _ => pose proof (pools_cost_pos l) end end;
    unfold pool_cost; lia || congruence.
Qed.
Lemma act_enabled s a : ∃ x o, act x s a = Some o.
Proof.
  destruct a; try (exists Deadline; eexists; cbn; done); try (exists (Result OkStatus); unfold ReshardSend.act, start_checks, push_completed; repeat case_match; eauto; done).
  exists Deadline. cbn. destruct (acquire_total p (cancelled s) (slots s)) as [[[?|?] m] ->]; eauto.
Qed.
End session.
