(* ===== verification/ReshardSendProperties.v ===== *)
(** * ReshardSendProperties: what a reshard sender guarantees
    (src/tpu_sync/kv_cache/reshard_send_session.cc)

    Over every interleaving of the pipeline, the completions of copies and pushes and the
    calls from outside, with any results of copies, pushes and leases: host buffers are
    never shared, the session settles exactly when nothing is in flight, success means
    that every push of the plan was made, and every run ends. *)

From S2P Require Import Prelude RaidenTypes PoolLayout PoolReshardPlanner WireTypes TransferPlan SessionThreads StagingSlots ReshardChecks ReshardSend ReshardSendFacts.

Section created.
Context (base : ManagerBase) (plan : StartTransferRequest) (src_block_ids : list Z) (parallelism : Z) (per_transfer : bool) (s0 : Send).
Context (Hcreate : CreateReshardSendSession base true src_block_ids parallelism plan (Ok per_transfer) = Some (Ok s0)).
Abbreviation act := (act base plan src_block_ids per_transfer).
Abbreviation reached := (reachable act entry s0).

Lemma create_inv :
  NoDup (st_transfer_pool_indices plan) ∧ ∃ schedule, local_schedule plan = Some schedule ∧
    0 < i32 (CountPoolReshardSendSlots plan schedule) ∧ s0 = Send_new (i32 (CountPoolReshardSendSlots plan schedule)) (mb_num_host_layers base).
Proof using Hcreate.
  unfold CreateReshardSendSession in Hcreate. cbn [negb] in Hcreate. destruct (sender_ValidatePlan base plan src_block_ids) as [[[]|]|] eqn:Ev; [|done..].
  destruct (negb (mb_device_buffers base)); [done|]. destruct (parallelism <=? 0); [done|]. destruct (local_schedule plan) as [schedule|]; [|done].
  destruct (bool_decide (schedule = [])); [done|]. destruct (Z.leb_spec (i32 (CountPoolReshardSendSlots plan schedule)) 0); [done|].
  destruct (Create _ _ _ _ _ _); [|done]. injection Hcreate as <-. split; [|by exists schedule].
  unfold sender_ValidatePlan in Ev. destruct (ValidateCommonPoolReshardPlan _ _ _) eqn:Ec; [|done]. unfold ValidateCommonPoolReshardPlan in Ec.
  destruct (_ && _) eqn:Eb in Ec; [|done]. repeat (apply andb_true_iff in Eb as [Eb ?]). by eapply bool_decide_eq_true.
Qed.
(** The pushes of the plan, one per pool and peer. *)
Definition plan_pushes : list (Z * string) :=
  st_transfer_pool_indices plan ≫= λ p, (λ pt : string * list (Z * Z), (p, pt.1)) <$> pushes plan (default [] (local_schedule plan)) p.
Lemma plan_pushes_all schedule : local_schedule plan = Some schedule → all_pushes plan schedule ≡ₚ plan_pushes.
Proof. intros E. unfold all_pushes, plan_pushes. rewrite E. cbn. by rewrite ordered_pools_perm. Qed.
Lemma plan_pushes_count schedule : local_schedule plan = Some schedule → CountPoolReshardSendSlots plan schedule = Z.of_nat (length plan_pushes).
Proof.
  intros E. rewrite count_pushes. unfold plan_pushes. rewrite E. cbn. induction (st_transfer_pool_indices plan) as [|p l IH]; cbn; [done|].
  rewrite length_app, length_fmap, IH. lia.
Qed.
Lemma all_count schedule : local_schedule plan = Some schedule → Z.of_nat (length plan_pushes) = Z.of_nat (length (all_pushes plan schedule)).
Proof. intros E. by rewrite (Permutation_length (plan_pushes_all schedule E)). Qed.

(** Pool [p] is being copied into its host buffer or pushed from it. *)
Definition in_use (p : Z) (acts : list Action) : Prop := ∃ a, a ∈ acts ∧ (a = Copying p ∨ ∃ peer, a = Pushing p peer).
(** C32: Host buffers of a sender: while a pool is copied into its buffer or pushed from
    it, also after another pool's failure has decided the outcome, its slot resolves and
    is no other pool's. *)
Theorem send_buffers_exclusive w p :
  reached w → in_use p (pending w) →
  ∃ slot, LookupStagingSlot p (sess w) = Ok slot ∧ 0 <= slot < mb_num_host_layers base ∧
    ∀ q, LookupStagingSlot q (sess w) = Ok slot → q = p.
Proof using Hcreate.
  intros Hw (a & Ha & Hp). destruct create_inv as (Hnd & schedule & _ & _ & E). rewrite E in Hw.
  destruct (buffered_reach base plan src_block_ids per_transfer Hnd _ _ w Hw) as [Hs _ _ Hh _].
  destruct (Hh p) as [slot Hslot].
  { pose proof (hold_own_sum plan p (pending w)). pose proof (sum_of_nonneg _ (pending w) (pushing_nonneg p)). destruct Hp as [->|[peer ->]].
    - pose proof (sum_of_elem (hold p) (pending w) _ (λ a, proj1 (hold_own plan p a)) Ha) as H1. cbn in H1. rewrite same_refl in H1. lia.
    - pose proof (sum_of_elem (pushing p) (pending w) _ (pushing_nonneg p) Ha) as H1. cbn in H1. rewrite same_refl in H1. lia. }
  exists slot. unfold LookupStagingSlot, Lookup. rewrite Hslot. split; [done|]. split.
  - assert (slot ∈ seqZ 0 (mb_num_host_layers base)) as Hin%elem_of_seqZ; [|lia]. rewrite <- Hs. apply elem_of_app. right. apply list_elem_of_fmap. exists (p, slot). split; [done|]. by apply elem_of_map_to_list.
  - intros q. destruct (leases_ (slots (sess w)) !! q) eqn:Eq; intros [= ->]. by eapply slots_exclusive.
Qed.
(** A sender settles exactly when its outcome is decided and nothing is in flight any
    more: then every host buffer is free again and no staging lease is left behind. *)
Theorem send_settles w :
  reached w →
  (done (sess w) = true ↔ finalizing (sess w) = true ∧ pending w = []) ∧
  (done (sess w) = true → num_free (slots (sess w)) = Z.max 0 (mb_num_host_layers base) ∧ arena (sess w) = []).
Proof using Hcreate.
  intros Hw. destruct create_inv as (Hnd & schedule & _ & _ & E). rewrite E in Hw. pose proof (counted_reach _ _ _ _ _ _ w Hw) as [Hf Hd Hs _].
  split; [split|].
  - intros (H1 & H2 & _)%Hd. split; [done|]. by eapply idle.
  - intros [H1 H2]. apply Hs; [done|]. by rewrite Hf, H2.
  - intros (_ & _ & El & Ea)%Hd. split; [|done]. destruct (buffered_reach base plan src_block_ids per_transfer Hnd _ _ w Hw) as [Hb _ _ _ _].
    unfold slots_ok, leased in Hb. rewrite El, map_to_list_empty, app_nil_r in Hb. unfold num_free. rewrite Hb, length_seqZ. lia.
Qed.
(** C19: Success of a sender means success of every push: a session that is done with an OK
    status and was not finished from outside has pushed every pool to every peer of the
    plan, each once. *)
Theorem send_ok_means_pushed w :
  Z.of_nat (length plan_pushes) <= INT_MAX → reached w →
  done (sess w) = true → status (sess w) = OkStatus → finished (sess w) = false → pushed (sess w) ≡ₚ plan_pushes.
Proof using Hcreate.
  intros Hmax Hw Hd Hst Hfin. destruct create_inv as (Hnd & schedule & El & Hpos & E). rewrite E in Hw. unfold INT_MAX in Hmax.
  rewrite (plan_pushes_count schedule El), i32_small in * by lia.
  destruct (ct_done _ _ (counted_reach _ _ _ _ _ _ w Hw) Hd) as (Hfz & _).
  destruct (accounted_reach base plan src_block_ids per_transfer Hnd schedule El _ _ w Hpos (all_count schedule El) Hw) as [_ _ Hf].
  destruct (Hf Hfz) as [H|[H|H]]; [by rewrite Hst in H|congruence|by rewrite H, plan_pushes_all].
Qed.
(** C22: A sender always comes to an end: from any reachable state the number of further
    steps is bounded, a thread that is not finished can go on, and when no thread is left
    a session that was started has settled, with success or an error. *)
Theorem send_always_settles w :
  Z.of_nat (length plan_pushes) <= INT_MAX → reached w →
  (∃ bound, ∀ n w', nsteps (step act) n w w' → (n <= bound)%nat) ∧
  (pending w ≠ [] → ∃ w', step act w w') ∧
  (pending w = [] → started (sess w) = true → done (sess w) = true).
Proof using Hcreate.
  intros Hmax Hw. destruct create_inv as (Hnd & schedule & El & Hpos & E). rewrite E in Hw. unfold INT_MAX in Hmax. split_and!.
  - exists (Z.to_nat (work (cost plan) potential w)). intros n w' Hn.
    pose proof (run_bounded act (cost plan) potential (cost_decreases base plan src_block_ids per_transfer) n w w' Hn) as H1.
    assert (0 <= work (cost plan) potential w'); [|lia]. apply work_nonneg; [apply cost_nonneg|]. intros s. unfold potential. case_match; lia.
  - apply progress. apply act_enabled.
  - intros Hp Hst. rewrite (plan_pushes_count schedule El), i32_small in * by lia.
    destruct (accounted_reach base plan src_block_ids per_transfer Hnd schedule El _ _ w Hpos (all_count schedule El) Hw) as [(dr & HP & Hdr) Hcnt _].
    destruct (counted_reach _ _ _ _ _ _ w Hw) as [Hf _ Hs _]. rewrite Hp in *. destruct (finalizing (sess w)) eqn:Efz; [by apply Hs|]. exfalso.
    destruct (Hcnt eq_refl) as [H1 H2]. destruct Hdr as [->|[|(c & Hc)]]; [|done|by apply elem_of_nil in Hc].
    unfold planned in HP. rewrite Hst in HP. cbn in HP. rewrite app_nil_r in HP. rewrite HP in H2. cbn in H2. lia.
Qed.
End created.
