(* ===== verification/ReshardSendExamples.v ===== *)
(** * ReshardSendExamples: runs of a sender
    (src/tpu_sync/kv_cache/reshard_send_session.cc)

    One run of a session that pushes two pools to two peers, at the moment when three
    pushes are in flight and at its end, and a run in which a push fails. *)

From S2P Require Import Prelude RaidenTypes PoolLayout PoolReshardPlanner WireTypes TransferPlan SessionThreads StagingSlots ReshardChecks ReshardPlanExamples ReshardSend ReshardSendProperties.

Definition send_new_ex : Send := Send_new 3 2.
Definition send_ok : Env := Result OkStatus.
Definition send_run (choices : list (Choice (A := Action) (X := Env))) : World Send Action :=
  run_of (act (base_ex 2) send_plan_ex [1] true) entry send_new_ex choices.
(** Start, the pipeline, and the copies of both pools. *)
Definition copies_ex : list (Choice (A := Action) (X := Env)) :=
  Invoke Start send_ok :: replicate 15 (Run 0 send_ok) ++ replicate 6 (Run 1 send_ok) ++ replicate 5 (Run 2 send_ok).
Definition pushes_ex : list (Choice (A := Action) (X := Env)) :=
  [Run 1 send_ok; Run 2 send_ok] ++ replicate 3 (Run 3 send_ok) ++ replicate 4 (Run 4 send_ok) ++ replicate 6 (Run 5 send_ok).
Lemma send_create_ex : CreateReshardSendSession (base_ex 2) true [1] 1 send_plan_ex (Ok true) = Some (Ok send_new_ex).
Proof. vm_compute. reflexivity. Qed.

Lemma send_buffers_exclusive_witness :
  ∃ slot, LookupStagingSlot 0 (sess (send_run copies_ex)) = Ok slot ∧ 0 <= slot < 2 ∧
    ∀ q, LookupStagingSlot q (sess (send_run copies_ex)) = Ok slot → q = 0.
Proof.
  apply (send_buffers_exclusive (base_ex 2) send_plan_ex [1] 1 true send_new_ex send_create_ex); [apply run_of_reach|].
  exists (Pushing 0 "q"). split; [|right; by exists "q"]. vm_compute. apply list_elem_of_In. cbn. tauto.
Defined.
Lemma send_ok_means_pushed_witness : pushed (sess (send_run (copies_ex ++ pushes_ex))) ≡ₚ plan_pushes send_plan_ex.
Proof.
  apply (send_ok_means_pushed (base_ex 2) send_plan_ex [1] 1 true send_new_ex send_create_ex); [vm_compute; discriminate|apply run_of_reach|vm_compute; reflexivity..].
Defined.
Lemma send_always_settles_witness :
  done (sess (send_run (copies_ex ++ pushes_ex))) = true ∧
  ∃ w', step (act (base_ex 2) send_plan_ex [1] true) (send_run copies_ex) w'.
Proof.
  split.
  - apply (send_always_settles (base_ex 2) send_plan_ex [1] 1 true send_new_ex send_create_ex (send_run (copies_ex ++ pushes_ex)));
      [vm_compute; discriminate|apply run_of_reach|vm_compute; reflexivity..].
  - apply (send_always_settles (base_ex 2) send_plan_ex [1] 1 true send_new_ex send_create_ex (send_run copies_ex));
      [vm_compute; discriminate|apply run_of_reach|vm_compute; discriminate].
Defined.
(** After a failed push the session settles with that error, once the others have ended. *)
Example send_failure :
  let w := send_run (copies_ex ++ [Run 3 (Result (Err kUnavailable)); Run 3 send_ok; Run 3 send_ok; Run 1 send_ok; Run 2 send_ok] ++
                     replicate 4 (Run 4 send_ok) ++ replicate 6 (Run 5 send_ok)) in
  (done (sess w), status (sess w), free_ (slots (sess w)), pushed (sess w)) = (true, Err kUnavailable, [0; 1], [(1, "p"); (0, "q")]).
Proof. vm_compute. reflexivity. Qed.
