(* ===== verification/ReshardReceive.v ===== *)
(** * ReshardReceive: the receiving side of a pool reshard
    (src/tpu_sync/kv_cache/reshard_receive_session.cc)

    A receive session takes the pushes of its senders into leased host buffers; a pool
    whose pushes have all landed is uploaded to the device, after every pool of a lower
    order rank.  Pushes are admitted by the transport, which reports a pool when its last
    byte has landed; uploads complete on callbacks.  Each critical section is an action
    ([SessionThreads]).  [finished] records a Finish from outside and [uploaded] the copies
    that have succeeded, in order; the code reads neither. *)

From S2P Require Import Prelude RaidenTypes PoolLayout PoolReshardPlanner WireTypes TransferPlan SessionThreads StagingSlots ReshardChecks.

Record Receive := mkReceive {
  in_flight : Z;
  status : Status;
  draining : bool;
  done : bool;
  staging_released : bool;
  reshard_finalizing : bool;
  started_pools : gset Z;
  completed_pools : gset Z;
  launched_pools : gset Z;
  slots : StagingLayerManager;
  cancelled : bool;
  arena : list (Z * list Z);      (* staging leases the manager holds for this uuid *)
  finished : bool;
  uploaded : list Z;
}.
Definition with_in_flight v s := mkReceive v (status s) (draining s) (done s) (staging_released s) (reshard_finalizing s) (started_pools s) (completed_pools s) (launched_pools s) (slots s) (cancelled s) (arena s) (finished s) (uploaded s).
Definition with_slots v s := mkReceive (in_flight s) (status s) (draining s) (done s) (staging_released s) (reshard_finalizing s) (started_pools s) (completed_pools s) (launched_pools s) v (cancelled s) (arena s) (finished s) (uploaded s).
Definition with_status v s := mkReceive (in_flight s) v (draining s) (done s) (staging_released s) (reshard_finalizing s) (started_pools s) (completed_pools s) (launched_pools s) (slots s) (cancelled s) (arena s) (finished s) (uploaded s).
Definition with_started_pools v s := mkReceive (in_flight s) (status s) (draining s) (done s) (staging_released s) (reshard_finalizing s) v (completed_pools s) (launched_pools s) (slots s) (cancelled s) (arena s) (finished s) (uploaded s).
Definition with_launched_pools v s := mkReceive (in_flight s) (status s) (draining s) (done s) (staging_released s) (reshard_finalizing s) (started_pools s) (completed_pools s) v (slots s) (cancelled s) (arena s) (finished s) (uploaded s).
Definition with_result fin completed s := mkReceive (in_flight s) (status s) (draining s) (done s) (staging_released s) fin (started_pools s) completed (launched_pools s) (slots s) (cancelled s) (arena s) (finished s) (uploaded s).
Definition with_finished s := mkReceive (in_flight s) (status s) (draining s) (done s) (staging_released s) (reshard_finalizing s) (started_pools s) (completed_pools s) (launched_pools s) (slots s) (cancelled s) (arena s) true (uploaded s).
Definition with_uploaded v s := mkReceive (in_flight s) (status s) (draining s) (done s) (staging_released s) (reshard_finalizing s) (started_pools s) (completed_pools s) (launched_pools s) (slots s) (cancelled s) (arena s) (finished s) v.

Definition closing (s : Receive) : bool := done s || draining s.
Definition free_slot (p : Z) (s : Receive) : Receive := with_slots (Release p (slots s)) s.
(** ReleaseStagingLocked, and [done_]. *)
Definition settle (s : Receive) : Receive :=
  mkReceive (in_flight s) (status s) (draining s) true true (reshard_finalizing s) (started_pools s) (completed_pools s) (launched_pools s)
    (ReleaseAll (slots s)) (cancelled s) (if staging_released s then arena s else []) (finished s) (uploaded s).
Definition begin_drain (s : Receive) : Receive :=
  mkReceive (in_flight s) (status s) true (done s) (staging_released s) (reshard_finalizing s) (started_pools s) (completed_pools s) (launched_pools s)
    (Shutdown (slots s)) true (arena s) (finished s) (uploaded s).
Definition FinishLocked (st : Status) (s : Receive) : Receive :=
  let s := if negb (is_ok st) && is_ok (status s) then with_status st s else s in
  if draining s then s
  else
    let s := begin_drain s in
    if (in_flight s =? 0) && negb (done s) then settle s else s.
Definition EndRecvOpLocked (s : Receive) : Receive :=
  if in_flight s <=? 0 then s
  else
    let s := with_in_flight (in_flight s - 1) s in
    if draining s && (in_flight s =? 0) && negb (done s) then settle s else s.

(** What the environment does: results, an expired deadline, and what an admitted push
    does next. *)
Inductive Env := Result (r : Status) | Deadline | Resolves (p : Z) | Reports (p : Z) | Ends (r : Status).

Inductive Action :=
  | TryBeginOp                            (* a push asks to be admitted *)
  | Push                                  (* an admitted push *)
  | ResolveSlot (p : Z)                   (* AcquireStagingSlot: its first section, *)
  | WaitSlot (p : Z)                      (* waiting for a host buffer, *)
  | SlotDone (p : Z) (r : StatusOr Z)     (* and its last section *)
  | Received (p : Z)                      (* OnPoolReceived *)
  | Collect                               (* ExecuteEligiblePoolH2ds: what can be uploaded *)
  | Launch (p : Z)                        (* and for each pool: not finished since, *)
  | CheckBlocks (p : Z)
  | LookupLive (p : Z)
  | LookupSlot (p : Z)
  | IssueUpload (p slot : Z)
  | Uploading (p slot : Z)                (* a host-to-device copy in flight *)
  | RecordUpload (p : Z) (st : Status)    (* FinishPoolH2d *)
  | FinishUpload (st : Status)            (* and the Finish it ends in *)
  | FreeSlot (p : Z)
  | EndOp
  | FinishCall (st : Status)              (* Finish from outside *)
  | FailPush (st : Status).               (* Finish by a push that failed *)

Section receive.
Context (request : StartTransferRequest) (chip_block_ids : list Z).

Definition expected : gset Z := list_to_set (st_transfer_pool_indices request).
Definition pool_order_ranks : gmap Z Z :=
  foldl (λ m g, foldl (λ m p, <[p := gp_order_rank g]> m) m (gp_pool_indices g))
    (foldl (λ m p, <[p := 0]> m) ∅ (st_transfer_pool_indices request)) (st_pool_groups request).
Definition pool_dst_block_ids : gmap Z (list Z) :=
  foldl (λ m g, foldl (λ m p, <[p := gp_dst_device_block_ids g]> m) m (gp_pool_indices g)) ∅ (st_pool_groups request).
Definition rank (p : Z) : Z := default 0 (pool_order_ranks !! p).
Definition upload_blocks (p : Z) : list Z := default chip_block_ids (pool_dst_block_ids !! p).

Definition prerequisites_uploaded (s : Receive) (p : Z) : bool :=
  forallb (λ o, if rank o <? rank p then bool_decide (o ∈ completed_pools s) else true) (elements expected).
Definition eligible (s : Receive) (p : Z) : Prop := (p ∉ launched_pools s) ∧ prerequisites_uploaded s p = true.
#[export] Instance eligible_dec s p : Decision (eligible s p).
Proof. unfold eligible. apply _. Defined.
(** In ascending order of the pools. *)
Definition CollectEligiblePoolH2dsLocked (s : Receive) : list Z * Receive :=
  if reshard_finalizing s then ([], s)
  else
    let to_launch := filter (eligible s) (started_pools s) in
    (merge_sort Z.le (elements to_launch), with_launched_pools (launched_pools s ∪ to_launch) s).
Definition RecordPoolReceivedLocked (p : Z) (s : Receive) : StatusOr Receive :=
  if negb (bool_decide (p ∈ expected)) then Err kInvalidArgument
  else if bool_decide (p ∈ started_pools s) then Err kAlreadyExists
  else Ok (with_started_pools ({[p]} ∪ started_pools s) s).
(** Whether the outcome is decided now, and the session. *)
Definition RecordPoolH2dResultLocked (p : Z) (st : Status) (s : Receive) : bool * Receive :=
  if reshard_finalizing s then (false, s)
  else match st with
       | Err _ => (true, with_result true (completed_pools s) s)
       | Ok _ =>
           let completed := {[p]} ∪ completed_pools s in
           let all := bool_decide (completed = expected) in
           (all, with_result all completed s)
       end.

Definition expired (x : Env) : bool := match x with Deadline => true | _ => false end.
(** AcquireStagingSlot after the wait: a failure ends the session, a buffer that comes
    too late goes back. *)
Definition slot_resolved (p : Z) (r : StatusOr Z) (s : Receive) : Receive :=
  match r with
  | Err c => if bool_decide (c = kCancelled) then s else FinishLocked (Err c) s
  | Ok _ => if closing s then free_slot p s else s
  end.
Definition Outcome : Type := Receive * list Action * list (list Action).
(** OnPoolReceived. *)
Definition OnPoolReceived (p : Z) (s : Receive) : Outcome :=
  if done s then (s, [], [])
  else match RecordPoolReceivedLocked p s with
       | Err _ => (s, [], [])
       | Ok s => (s, [Collect], [])
       end.
(** FinishPoolH2d: what it records, and how it goes on. *)
Definition FinishPoolH2d (p : Z) (st : Status) (s : Receive) : Outcome :=
  if done s then (s, [], [])
  else
    let '(fin, s) := RecordPoolH2dResultLocked p st s in
    (s, if fin then [FinishUpload st] else if is_ok st then [Collect] else [], []).
(** The sections of TryBeginOp, AcquireStagingSlot, OnPoolReceived,
    ExecuteEligiblePoolH2ds and its callbacks. *)
Definition act (x : Env) (s : Receive) (a : Action) : option Outcome :=
  match a with
  | TryBeginOp => if closing s then Some (s, [], []) else Some (with_in_flight (in_flight s + 1) s, [Push; EndOp], [])
  | Push =>
      match x with
      | Resolves p => Some (s, [ResolveSlot p; Push], [])
      | Reports p => Some (s, [Received p; Push], [])
      | Ends (Ok _) => Some (s, [], [])
      | Ends (Err c) => Some (s, [FailPush (Err c)], [])
      | _ => None
      end
  | ResolveSlot p => if closing s then Some (s, [], []) else Some (with_in_flight (in_flight s + 1) s, [WaitSlot p], [])
  | WaitSlot p =>
      match Acquire (expired x) p (cancelled s) (slots s) with
      | None => None
      | Some (r, m) => Some (with_slots m s, [SlotDone p r], [])
      end
  | SlotDone p r => Some (EndRecvOpLocked (slot_resolved p r s), [], [])
  | Received p => Some (OnPoolReceived p s)
  | Collect =>
      if closing s then Some (s, [], [])
      else
        let '(to_launch, s) := CollectEligiblePoolH2dsLocked s in
        Some (with_in_flight (in_flight s + Z.of_nat (length to_launch)) s, Launch <$> to_launch, [])
  | Launch p =>
      if closing s then Some (EndRecvOpLocked (free_slot p s), [], []) else Some (s, [CheckBlocks p], [])
  | CheckBlocks p =>
      if bool_decide (upload_blocks p = []) then Some (s, [RecordUpload p (Err kInternal); FreeSlot p; EndOp], [])
      else Some (s, [LookupLive p], [])
  | LookupLive p =>
      if closing s then Some (s, [RecordUpload p (Err kCancelled); EndOp], []) else Some (s, [LookupSlot p], [])
  | LookupSlot p =>
      match Lookup p (slots s) with
      | None => Some (s, [RecordUpload p (Err kFailedPrecondition); EndOp], [])
      | Some slot => Some (s, [IssueUpload p slot], [])
      end
  | IssueUpload p slot =>
      match x with
      | Result (Ok _) => Some (s, [], [[Uploading p slot; EndOp]])
      | Result (Err c) => Some (s, [RecordUpload p (Err c); FreeSlot p; EndOp], [])
      | _ => None
      end
  | Uploading p slot =>
      match x with
      | Result (Ok _) => Some (with_uploaded (uploaded s ++ [p]) s, [FreeSlot p; RecordUpload p OkStatus], [])
      | Result (Err c) => Some (s, [RecordUpload p (Err c); FreeSlot p], [])
      | _ => None
      end
  | RecordUpload p st => Some (FinishPoolH2d p st s)
  | FinishUpload st => Some (FinishLocked st s, [], [])
  | FailPush st => Some (FinishLocked st s, [], [])
  | FreeSlot p => Some (free_slot p s, [], [])
  | EndOp => Some (EndRecvOpLocked s, [], [])
  | FinishCall st => Some (FinishLocked st (with_finished s), [], [])
  end.
(** The transport admits pushes and resolves slots; Finish comes at any time. *)
Definition entry (s : Receive) (a : Action) : bool :=
  match a with TryBeginOp | ResolveSlot _ | FinishCall _ => true | _ => false end.
End receive.

Definition Receive_new (num_slots : Z) (arena : list (Z * list Z)) : Receive :=
  mkReceive 0 OkStatus false false (bool_decide (arena = [])) false ∅ ∅ ∅ (StagingLayerManager_new num_slots) false arena false [].
(** The destination blocks to be leased, by storage: those of the pools in bounded storages. *)
Definition dst_ids_by_storage (base : ManagerBase) (bounded : Z → bool) (plan : StartTransferRequest) (chip_blocks : list Z) : gmap Z (gset Z) :=
  foldl (λ m p, match pool base p with
                | Some spec => if bounded (storage_index spec)
                               then <[storage_index spec := list_to_set (upload_blocks plan chip_blocks p) ∪ default ∅ (m !! storage_index spec)]> m
                               else m
                | None => m end) ∅ (st_transfer_pool_indices plan).
Definition storage_leases (base : ManagerBase) (bounded : Z → bool) (plan : StartTransferRequest) (chip_blocks : list Z) : list (Z * list Z) :=
  (λ si : Z * gset Z, (si.1, merge_sort Z.le (elements si.2))) <$> map_to_list (dst_ids_by_storage base bounded plan chip_blocks).
(** [lease]: the manager's answer per storage; [None]: undefined behaviour in ValidatePlan. *)
Definition CreateReshardReceiveSession (base : ManagerBase) (staging_allocator : bool) (plan : StartTransferRequest) (chip_blocks : list Z)
    (bounded : Z → bool) (lease : Z → Status) : option (StatusOr Receive) :=
  if negb staging_allocator then Some (Err kInvalidArgument)
  else match receiver_ValidatePlan base plan chip_blocks with
  | None => None
  | Some (Err c) => Some (Err c)
  | Some (Ok _) =>
      Some (if negb (mb_device_buffers base) then Err kFailedPrecondition
            else if negb (bool_decide (st_dst_mem_type plan = MEMORY_TYPE_HBM)) then Err kInvalidArgument
            else
              _ ← Create plan false (num_pools base) (mb_explicit_pools base) (mb_pools base) ∅;
              let leases := storage_leases base bounded plan chip_blocks in
              _ ← mapM (λ sl : Z * list Z, lease sl.1) leases;
              Ok (Receive_new (mb_num_host_layers base) leases))
  end.
