(* ===== verification/ReshardReceiveFacts.v ===== *)
(** * ReshardReceiveFacts: invariants of a receiving session
    (src/tpu_sync/kv_cache/reshard_receive_session.cc)

    The count of operations in flight, the progress of the uploads, the ownership of the
    host buffers, and that a pool that can be uploaded is never forgotten. *)

From S2P Require Import Prelude RaidenTypes PoolLayout PoolReshardPlanner WireTypes TransferPlan SessionThreads StagingSlots ReshardChecks ReshardReceive.

Definition final (a : Action) : bool := match a with EndOp | WaitSlot _ | SlotDone _ _ => true | _ => false end.
(** The operations an action answers for. *)
Definition weight (a : Action) : Z :=
  match a with
  | EndOp | WaitSlot _ | SlotDone _ _ | Launch _ | CheckBlocks _ | LookupLive _ | LookupSlot _ | IssueUpload _ _ => 1
  | _ => 0
  end.
Lemma recv_weight_nonneg a : 0 <= weight a.
Proof. destruct a; cbn; lia. Qed.
Lemma recv_weight_final a : final a = true → weight a = 1.
Proof. by destruct a. Qed.
Lemma recv_weight_launch l : sum_of weight (Launch <$> l) = Z.of_nat (length l).
Proof. induction l as [|p l IH]; cbn; [done|]. rewrite IH. lia. Qed.

Section session.
Context (request : StartTransferRequest) (chip_block_ids : list Z).
Abbreviation act := (act request chip_block_ids).
Abbreviation expected := (expected request).
Abbreviation rank := (rank request).
Abbreviation reached := (reachable act entry).

Ltac act_cases E :=
  unfold ReshardReceive.act, OnPoolReceived, FinishPoolH2d, RecordPoolReceivedLocked, CollectEligiblePoolH2dsLocked, RecordPoolH2dResultLocked in E; repeat case_match; simplify_eq.

Lemma recv_act_ends x s a s' pre new :
  act x s a = Some (s', pre, new) → Forall (ends final) new ∧ (final a = true → ends final pre).
Proof.
  intros E. destruct a; act_cases E; (split; [repeat (apply Forall_cons; split; [by right; eexists [_], EndOp|]); apply Forall_nil_2|intros; try done]);
    (by left) || (right; by eexists [], _).
Qed.
Lemma recv_call_ends x s a s' pre new : entry s a = true → act x s a = Some (s', pre, new) → ends final pre.
Proof. intros He E. destruct a; act_cases E; (by left) || (right; by eexists [], _) || (right; by eexists [_], _). Qed.

(** ** Operations in flight *)
Record counted (s : Receive) (acts : list Action) : Prop := {
  ct_flight : in_flight s = sum_of weight acts;
  ct_done : done s = true → draining s = true ∧ in_flight s = 0 ∧ leases_ (slots s) = ∅ ∧ arena s = [];
  ct_settled : draining s = true → in_flight s = 0 → done s = true;
  ct_arena : staging_released s = true → arena s = [];
  ct_shutdown : draining s = shutdown_ (slots s);
}.
Lemma recv_alive s a others :
  counted s (a :: others) → beside final others ∧ (others = [] → final a = true) → done s = false ∧ 1 <= in_flight s.
Proof.
  intros [Hf Hd _ _ _] Hfin. assert (1 <= in_flight s) as Hpos.
  { rewrite Hf. cbn. destruct Hfin as [[->|(e & He & Hw%recv_weight_final)] Ha].
    - rewrite (recv_weight_final a) by auto. done.
    - pose proof (sum_of_elem weight others e recv_weight_nonneg He). pose proof (recv_weight_nonneg a). lia. }
  split; [|done]. destruct (done s); [|done]. destruct (Hd eq_refl) as (_ & ? & _). lia.
Qed.
Lemma counted_same s acts s' acts' :
  counted s acts → done s = false → 1 <= in_flight s' → in_flight s' = sum_of weight acts' →
  draining s' = shutdown_ (slots s') → done s' = false → staging_released s' = staging_released s → arena s' = arena s → counted s' acts'.
Proof. intros [Hf Hd Hs Ha Hsh] Hnd Hp Hf' Hd' Hn' Hr' Ha'. split; [done|congruence|lia|by rewrite Hr', Ha'|done]. Qed.
(** The last operation of a draining session settles it. *)
Lemma counted_end s acts :
  1 <= in_flight s → in_flight s = sum_of weight acts + 1 → done s = false → (staging_released s = true → arena s = []) →
  draining s = shutdown_ (slots s) → counted (EndRecvOpLocked s) acts.
Proof.
  intros Hp Hf Hn Ha Hsh. unfold EndRecvOpLocked. destruct (Z.leb_spec (in_flight s) 0); [lia|]. cbn. rewrite Hn.
  destruct (draining s) eqn:Hd; cbn; [|split; cbn; rewrite ?Hn, ?Hd; done || lia].
  destruct (Z.eqb_spec (in_flight s - 1) 0) as [H0|H0]; cbn; split; cbn; rewrite ?Hn, ?Hd; try done; try lia.
  - intros _. split_and!; [done|done|done|]. destruct (staging_released s); auto.
  - intros _. destruct (staging_released s); auto.
Qed.
Lemma counted_finish st s acts :
  counted s acts → done s = false → 1 <= in_flight s → counted (FinishLocked st s) acts.
Proof.
  intros [Hf Hd Hs Ha Hsh] Hnd Hp. unfold FinishLocked. destruct (negb (is_ok st) && _); cbn; destruct (draining s) eqn:Hdr; cbn;
    try (destruct (Z.eqb_spec (in_flight s) 0); [lia|]; cbn); split; cbn; rewrite ?Hdr, ?Hnd; intros; done || lia || auto.
Qed.
Lemma finish_alive st s : 1 <= in_flight s → in_flight (FinishLocked st s) = in_flight s ∧ done (FinishLocked st s) = done s.
Proof.
  intros Hp. unfold FinishLocked. destruct (negb (is_ok st) && _); cbn; destruct (draining s); cbn; try done; destruct (Z.eqb_spec (in_flight s) 0); cbn; done || lia.
Qed.
Lemma recv_counted_resolved p r s acts :
  counted s acts → done s = false → 1 <= in_flight s →
  counted (slot_resolved p r s) acts ∧ done (slot_resolved p r s) = false ∧ in_flight (slot_resolved p r s) = in_flight s.
Proof.
  intros Hc Hnd Hp. unfold slot_resolved. destruct r as [slot|c].
  - destruct (closing s); [|done]. split; [|done]. pose proof Hc as [Hf Hd Hs Ha Hsh]. apply (counted_same s acts); cbn; rewrite ?shutdown_release; done.
  - case_bool_decide; [done|]. pose proof (finish_alive (Err c) s Hp) as [-> ->]. split; [|done]. by apply counted_finish.
Qed.
Lemma counted_perm s acts acts' : sum_of weight acts = sum_of weight acts' → counted s acts → counted s acts'.
Proof. intros H [Hf Hd Hs Ha Hsh]. split; congruence || done. Qed.
Lemma recv_counted_step s a others x s' pre new :
  beside final others ∧ (others = [] → final a = true) → counted s (a :: others) → act x s a = Some (s', pre, new) →
  counted s' (pre ++ concat new ++ others).
Proof.
  intros Hfin Hc E. destruct (recv_alive s a others Hc Hfin) as [Hnd Hpos]. pose proof Hc as [Hf Hd Hs Ha Hsh]. cbn in Hf.
  destruct a; act_cases E; cbn [app concat weight] in *; try (eapply counted_perm, Hc; cbn; lia);
    try (eapply counted_same; [exact Hc|assumption|cbn; rewrite ?shutdown_release; done || lia..]);
    try (apply counted_finish; [eapply counted_perm, Hc; cbn; lia|done..]).
  - eapply counted_same; [exact Hc|assumption|cbn; try (done || lia)..]. rewrite Hsh. symmetry. by eapply acquire_shutdown.
  - destruct (recv_counted_resolved p r s _ Hc Hnd Hpos) as ([Hf' _ _ Ha' Hsh'] & Hnd' & Hp'). cbn in *. apply counted_end; done || lia.
  - eapply counted_same; [exact Hc|assumption|cbn; rewrite ?sum_of_app, ?recv_weight_launch; done || lia..].
  - apply counted_end; cbn; rewrite ?shutdown_release; done || lia.
  - apply counted_end; done || lia.
  - apply counted_finish; [|done..]. eapply counted_same; [exact Hc|assumption|cbn; done || lia..].
Qed.
Lemma recv_counted_call s a others x s' pre new :
  beside final others → counted s others → entry s a = true → act x s a = Some (s', pre, new) → counted s' (pre ++ concat new ++ others).
Proof.
  intros _ Hc He E. pose proof Hc as [Hf Hd Hs Ha Hsh].
  pose proof (sum_of_nonneg weight others recv_weight_nonneg) as Hnn. destruct a; act_cases E; cbn [app concat weight] in *; try done.
  - unfold closing in *. apply orb_false_iff in H as [??]. eapply counted_same; [exact Hc|done|cbn; done || lia..].
  - unfold closing in *. apply orb_false_iff in H as [??]. eapply counted_same; [exact Hc|done|cbn; done || lia..].
  - assert (counted (with_finished s) others) as Hc' by (by split). destruct (done s) eqn:Hdn.
    + destruct (Hd eq_refl) as (Hdr & H0 & Hl & Har). unfold FinishLocked. destruct (negb (is_ok st) && _); cbn; rewrite Hdr; [by split|done].
    + destruct (Z.eq_dec (in_flight s) 0) as [H0|]; [|apply counted_finish; cbn; done || lia]. clear Hc'. unfold FinishLocked.
      destruct (draining s) eqn:Hdr; [by specialize (Hs eq_refl H0)|].
      destruct (negb (is_ok st) && _); cbn; rewrite Hdr, H0, Hdn; cbn; split; cbn; try done; try lia; 
        repeat (intros _ || split; try done); destruct (staging_released s); auto.
Qed.
Lemma recv_counted n ar w : reached (Receive_new n ar) w → counted (sess w) (pending w).
Proof.
  apply (invariant_ends _ _ final counted); [apply recv_act_ends|apply recv_call_ends| | |apply recv_counted_step|apply recv_counted_call].
  - intros s l l' HP. apply counted_perm. by rewrite HP.
  - split; cbn; try done. by case_bool_decide.
Qed.
(** No operation in flight, no thread. *)
Lemma recv_idle n ar w : reached (Receive_new n ar) w → in_flight (sess w) = 0 → pending w = [].
Proof.
  intros Hw H0. destruct (recv_counted n ar w Hw) as [Hf _ _ _ _]. pose proof (threads_end _ _ final _ w recv_act_ends recv_call_ends Hw) as He.
  destruct (pending w) as [|a l] eqn:E; [done|]. exfalso. destruct (ends_pending final w He) as (e & Hin & Hw1%recv_weight_final); [by rewrite E|].
  rewrite E in Hin. pose proof (sum_of_elem weight (a :: l) e recv_weight_nonneg Hin). lia.
Qed.
(** Further invariants: a call counts as an action that is pending already. *)
Lemma recv_invariant (I : Receive → list Action → Prop) n ar w :
  (∀ s l l', l ≡ₚ l' → I s l → I s l') → I (Receive_new n ar) [] →
  (∀ s a others, entry s a = true → I s others → I s (a :: others)) →
  (∀ s a others x s' pre new, (done s = true → draining s = true ∧ entry s a = true) → draining s = shutdown_ (slots s) →
     I s (a :: others) → act x s a = Some (s', pre, new) → I s' (pre ++ concat new ++ others)) →
  reached (Receive_new n ar) w → I (sess w) (pending w).
Proof.
  intros HP H0 Hcall Hstep Hw. assert (counted (sess w) (pending w) ∧ I (sess w) (pending w)) as [_ ?]; [|done]. revert Hw.
  apply (invariant_ends _ _ final (λ s l, counted s l ∧ I s l)); [apply recv_act_ends|apply recv_call_ends|..].
  - intros s l l' Hl [Hc HI]. split; [|by eapply HP]. eapply counted_perm, Hc. by rewrite Hl.
  - split; [exact (recv_counted n ar (mkWorld _ []) (rtc_refl _ _))|done].
  - intros s a others x s' pre new Hb [Hc HI] E. split; [by eapply recv_counted_step|]. eapply Hstep; [|by apply Hc|exact HI|exact E].
    destruct (recv_alive _ _ _ Hc Hb) as [-> _]. done.
  - intros s a others x s' pre new Hb [Hc HI] He E. split; [by eapply recv_counted_call|].
    eapply Hstep; [|by apply Hc|by apply Hcall|exact E]. intros Hd. by split; [apply (ct_done _ _ Hc)|].
Qed.

(** ** Progress of the uploads *)
(** What an operation on the buffers or on the outcome leaves as it is. *)
Definition progress (s : Receive) : gset Z * gset Z * gset Z * bool * list Z :=
  (started_pools s, completed_pools s, launched_pools s, reshard_finalizing s, uploaded s).
Definition settled_by (s s' : Receive) : Prop :=
  progress s' = progress s ∧ (draining s = true → draining s' = true) ∧ (is_ok (status s) = false → is_ok (status s') = false) ∧
  (finished s = true → finished s' = true).
Lemma finish_progress st s : settled_by s (FinishLocked st s) ∧ finished (FinishLocked st s) = finished s ∧ draining (FinishLocked st s) = true ∧
  (is_ok st = false → is_ok (status (FinishLocked st s)) = false).
Proof.
  unfold settled_by, progress, FinishLocked. destruct (is_ok st) eqn:Est, (is_ok (status s)) eqn:Es; cbn; destruct (draining s) eqn:Hd; cbn; rewrite ?Es; try done;
    destruct (_ && _); cbn; by rewrite ?Es, ?Est.
Qed.
Lemma end_progress s : settled_by s (EndRecvOpLocked s) ∧ finished (EndRecvOpLocked s) = finished s ∧ draining (EndRecvOpLocked s) = draining s ∧ status (EndRecvOpLocked s) = status s.
Proof. unfold settled_by, progress, EndRecvOpLocked. destruct (_ <=? _); cbn; [done|]. destruct (_ && _); cbn; done. Qed.
Lemma resolved_progress p r s : settled_by s (slot_resolved p r s) ∧ finished (slot_resolved p r s) = finished s ∧
  (draining (slot_resolved p r s) = draining s ∨ is_ok (status (slot_resolved p r s)) = false).
Proof.
  unfold slot_resolved. destruct r as [slot|c].
  - destruct (closing s); split; unfold settled_by, progress; cbn; auto.
  - case_bool_decide; [split; unfold settled_by, progress; cbn; auto|]. destruct (finish_progress (Err c) s) as (H1 & H2 & _ & H3). split_and!; auto.
Qed.
Lemma settled_by_trans s1 s2 s3 : settled_by s1 s2 → settled_by s2 s3 → settled_by s1 s3.
Proof. unfold settled_by. intros (H1 & H2 & H3 & H4) (H5 & H6 & H7 & H8). split_and!; [by rewrite H5|auto..]. Qed.

(** The actions that carry the upload of [p] to its end. *)
Definition copying (p : Z) (a : Action) : Z :=
  match a with
  | Launch q | CheckBlocks q | LookupLive q | LookupSlot q | IssueUpload q _ | Uploading q _ => if decide (q = p) then 1 else 0
  | _ => 0
  end.
Definition occ (p : Z) (l : list Z) : Z := Z.of_nat (length (filter (λ q, q = p) l)).
Definition claimed (p : Z) (X : gset Z) : Z := if decide (p ∈ X) then 1 else 0.
Definition fine (s : Receive) (a : Action) : Prop :=
  match a with
  | FailPush st => is_ok st = false
  | FinishUpload st => reshard_finalizing s = true ∧ (is_ok st = true → completed_pools s = expected)
  | RecordUpload p (Ok _) => p ∈ uploaded s ∧ p ∈ launched_pools s
  | _ => True
  end.
Record uploading (s : Receive) (acts : list Action) : Prop := {
  up_started : started_pools s ⊆ expected;
  up_launched : launched_pools s ⊆ started_pools s;
  up_completed : completed_pools s ⊆ launched_pools s;
  up_order : ∀ p o, p ∈ launched_pools s → o ∈ expected → rank o < rank p → o ∈ completed_pools s;
  up_once : ∀ p, occ p (uploaded s) + sum_of (copying p) acts <= claimed p (launched_pools s);
  up_done : ∀ p, p ∈ completed_pools s → p ∈ uploaded s;
  up_sorted : StronglySorted (λ p q, rank p <= rank q) (uploaded s);
  up_fine : Forall (fine s) acts;
  up_outcome : draining s = true → is_ok (status s) = false ∨ finished s = true ∨ (reshard_finalizing s = true ∧ completed_pools s = expected);
}.
Lemma occ_app p l k : occ p (l ++ k) = occ p l + occ p k.
Proof. unfold occ. rewrite filter_app, length_app. lia. Qed.
Lemma copying_nonneg p a : 0 <= copying p a.
Proof. destruct a; cbn; try case_decide; lia. Qed.
Lemma occ_elem p l : p ∈ l ↔ 1 <= occ p l.
Proof.
  unfold occ. split.
  - intros H. assert (p ∈ filter (λ q, q = p) l) as Hin by (by apply list_elem_of_filter). destruct (filter _ l); [by apply elem_of_nil in Hin|cbn; lia].
  - intros H. destruct (filter _ l) as [|q k] eqn:E; [cbn in H; lia|]. assert (q ∈ filter (λ q, q = p) l) as Hin by (rewrite E; set_solver).
    apply list_elem_of_filter in Hin as [-> ?]. done.
Qed.
Lemma up_uploaded s acts p : uploading s acts → p ∈ uploaded s → p ∈ launched_pools s.
Proof.
  intros H Hp%occ_elem. pose proof (up_once _ _ H p) as H1. unfold claimed in H1. pose proof (sum_of_nonneg _ acts (copying_nonneg p)). case_decide; [done|lia].
Qed.
Lemma fine_progress s s' a : progress s' = progress s → fine s a → fine s' a.
Proof. unfold progress. intros [= E1 E2 E3 E4 E5]. destruct a as [| | | | | | | | | | | | | ? [|]| | | | |]; cbn; rewrite ?E2, ?E3, ?E4, ?E5; done. Qed.
(** Most actions leave the uploads as they are. *)
Lemma uploading_keep s a others s' l :
  uploading s (a :: others) → settled_by s s' →
  (draining s' = true → draining s = true ∨ is_ok (status s') = false ∨ finished s' = true ∨ (reshard_finalizing s = true ∧ completed_pools s = expected)) →
  (∀ p, sum_of (copying p) l <= copying p a) → Forall (fine s) l → uploading s' (l ++ others).
Proof.
  intros [H1 H2 H3 H4 H5 H6 H7 H8 H9] (Hp & Hd & Hs & Hf) Hdr Hc Hl. pose proof Hp as Hp'. injection Hp' as E1 E2 E3 E4 E5.
  split; rewrite ?E1, ?E2, ?E3, ?E5; try done.
  - intros p. rewrite sum_of_app. specialize (H5 p). specialize (Hc p). cbn in H5. lia.
  - apply Forall_cons in H8 as [_ H8]. apply Forall_app. split; (eapply Forall_impl; [eassumption|intros b; by apply fine_progress]).
  - rewrite E4. intros [H|[H|H]]%Hdr; [|auto..]. destruct (H9 H) as [H'|[H'|H']]; auto.
Qed.
Lemma uploading_received s p others :
  uploading s (Received p :: others) → p ∈ expected → uploading (with_started_pools ({[p]} ∪ started_pools s) s) (Collect :: others).
Proof.
  intros [H1 H2 H3 H4 H5 H6 H7 H8 H9] Hp. split; cbn; [clear -H1 Hp; set_solver|clear -H2; set_solver|done..| |done].
  apply Forall_cons in H8 as [_ H8]. apply Forall_cons. split; [done|]. eapply Forall_impl; [exact H8|]. intros b; by destruct b as [| | | | | | | | | | | | | ? [|]| | | | |].
Qed.
Lemma prerequisites_spec s p : prerequisites_uploaded request s p = true ↔ ∀ o, o ∈ expected → rank o < rank p → o ∈ completed_pools s.
Proof.
  unfold prerequisites_uploaded. rewrite forallb_forall. split.
  - intros H o Ho Hr. specialize (H o). rewrite <- list_elem_of_In, elem_of_elements in H. specialize (H Ho). destruct (Z.ltb_spec (rank o) (rank p)); [by eapply bool_decide_eq_true|lia].
  - intros H o Ho. rewrite <- list_elem_of_In, elem_of_elements in Ho. destruct (Z.ltb_spec (rank o) (rank p)); [|done]. apply bool_decide_eq_true. auto.
Qed.
Lemma copying_launch p l : sum_of (copying p) (Launch <$> l) = occ p l.
Proof.
  induction l as [|q l IH]; [done|]. change (occ p (q :: l)) with (occ p ([q] ++ l)). rewrite occ_app. unfold occ at 1. cbn. rewrite IH. by case_decide.
Qed.
Lemma occ_nodup p l : NoDup l → occ p l <= 1.
Proof.
  induction 1 as [|q l Hq _ IH]; [done|]. change (q :: l) with ([q] ++ l). rewrite occ_app. unfold occ at 1. cbn. case_decide as Hqp; cbn; [|lia]. subst q.
  destruct (Z.le_gt_cases 1 (occ p l)) as [H%occ_elem|H]; [done|]. lia.
Qed.
Lemma NoDup_occ l : (∀ p, occ p l <= 1) → NoDup l.
Proof.
  induction l as [|q l IH]; [constructor|]. intros H. assert (∀ p, occ p (q :: l) = occ p [q] + occ p l) as Hc by (intros p; apply (occ_app p [q] l)). constructor.
  - intros Hin%occ_elem. specialize (H q). rewrite Hc in H. unfold occ at 1 in H. cbn in H. rewrite decide_True in H by done. cbn in H. lia.
  - apply IH. intros p. specialize (H p). rewrite Hc in H. unfold occ at 1 in H. cbn in H. destruct (decide _) in H; cbn in H; lia.
Qed.
Lemma occ_elements p (X : gset Z) : occ p (merge_sort Z.le (elements X)) = claimed p X.
Proof.
  assert (occ p (merge_sort Z.le (elements X)) = occ p (elements X)) as -> by (unfold occ; by rewrite merge_sort_Permutation).
  pose proof (occ_nodup p _ (NoDup_elements X)). pose proof (occ_elem p (elements X)) as He. rewrite elem_of_elements in He.
  unfold claimed. case_decide as Hp; [apply He in Hp; lia|]. destruct (Z.le_gt_cases 1 (occ p (elements X))) as [?%He|?]; [done|unfold occ in *; lia].
Qed.
Lemma uploading_collect s others :
  let new := filter (eligible request s) (started_pools s) in
  uploading s (Collect :: others) → reshard_finalizing s = false →
  uploading (with_in_flight (in_flight s + Z.of_nat (length (merge_sort Z.le (elements new)))) (with_launched_pools (launched_pools s ∪ new) s))
    ((Launch <$> merge_sort Z.le (elements new)) ++ others).
Proof.
  intros new [H1 H2 H3 H4 H5 H6 H7 H8 H9] Hfin. assert (∀ p, p ∈ new ↔ eligible request s p ∧ p ∈ started_pools s) as Hnew by (intros p; apply elem_of_filter).
  split; cbn; try done.
  - intros p [?|[_ ?]%Hnew]%elem_of_union; auto.
  - clear -H3. set_solver.
  - intros p o [Hp|[[_ Hp] _]%Hnew]%elem_of_union Ho Hr; [by eapply H4|]. by eapply prerequisites_spec.
  - intros p. rewrite sum_of_app, copying_launch, occ_elements. specialize (H5 p). cbn in H5. unfold claimed in *. pose proof (Hnew p) as Hn. unfold eligible in Hn.
    destruct (decide (p ∈ launched_pools s ∪ new)) as [Hu|Hu], (decide (p ∈ new)) as [Ha|Ha], (decide (p ∈ launched_pools s)) as [Hb|Hb]; try lia; exfalso; clear -Hu Ha Hb Hn; set_solver.
  - apply Forall_app. split; [by apply Forall_fmap, Forall_true|]. apply Forall_cons in H8 as [_ H8]. eapply Forall_impl; [exact H8|].
    intros b; destruct b as [| | | | | | | | | | | | | ? [|]| | | | |]; cbn; try done. clear. set_solver.
Qed.
Lemma uploading_copied s p slot others :
  uploading s (Uploading p slot :: others) → uploading (with_uploaded (uploaded s ++ [p]) s) (FreeSlot p :: RecordUpload p OkStatus :: others).
Proof.
  intros H. pose proof (λ q, up_uploaded s _ q H) as Hup. destruct H as [H1 H2 H3 H4 H5 H6 H7 H8 H9].
  assert (p ∈ launched_pools s ∧ p ∉ uploaded s) as [Hl Hn].
  { specialize (H5 p). cbn in H5. rewrite decide_True in H5 by done. pose proof (sum_of_nonneg _ others (copying_nonneg p)). unfold claimed in H5.
    rewrite occ_elem. case_decide; [split; [done|lia]|unfold occ in *; lia]. }
  split; cbn; try done.
  - intros q. specialize (H5 q). cbn in H5. rewrite occ_app. unfold occ at 2. cbn. destruct (decide (p = q)); cbn; lia.
  - intros q Hq. apply elem_of_app. auto.
  - apply StronglySorted_app_2; [|done|apply SSorted_cons; [apply SSorted_nil|apply Forall_nil_2]].
    intros q p' Hq ->%list_elem_of_singleton. destruct (Z.le_gt_cases (rank q) (rank p)); [done|]. exfalso. apply Hn, H6. eapply H4; [by apply Hup|auto|lia].
  - apply Forall_cons in H8 as [_ H8]. apply Forall_cons; split; [done|]. apply Forall_cons; split; [cbn; split; [set_solver|done]|].
    eapply Forall_impl; [exact H8|]. intros b; destruct b as [| | | | | | | | | | | | | ? [|]| | | | |]; cbn; try done. clear. set_solver.
Qed.
Lemma uploading_result s p st others fin completed l :
  uploading s (RecordUpload p st :: others) → reshard_finalizing s = false → completed_pools s ⊆ completed →
  (∀ q, q ∈ completed → q ∈ completed_pools s ∨ (is_ok st = true ∧ q = p)) → (∀ q, sum_of (copying q) l = 0) →
  (∀ s', reshard_finalizing s' = fin → completed_pools s' = completed → Forall (fine s') l) → uploading (with_result fin completed s) (l ++ others).
Proof.
  intros [H1 H2 H3 H4 H5 H6 H7 H8 H9] Hfin Hsub Hnew Hl Hfine. apply Forall_cons in H8 as [Hp H8].
  assert (∀ q, q ∈ completed → q ∈ uploaded s ∧ q ∈ launched_pools s) as Hc.
  { intros q [Hq|[Hst ->]]%Hnew; [split; [by apply H6|by apply H3]|]. by destruct st. }
  split; cbn; try done.
  - intros q Hq. by apply Hc.
  - intros q o Hq Ho Hr. by eapply Hsub, H4.
  - intros q. rewrite sum_of_app, Hl. specialize (H5 q). cbn in H5. lia.
  - intros q Hq. by apply Hc.
  - apply Forall_app. split; [by apply Hfine|]. eapply Forall_impl; [exact H8|]. intros b; destruct b as [| | | | | | | | | | | | | ? [|]| | | | |]; cbn; try done.
    rewrite Hfin. by intros [? _].
  - intros [?|[?|[? _]]]%H9; [by left|by right; left|congruence].
Qed.
Lemma uploading_step s a others x s' pre new :
  (done s = true → draining s = true ∧ entry s a = true) → draining s = shutdown_ (slots s) →
  uploading s (a :: others) → act x s a = Some (s', pre, new) → uploading s' (pre ++ concat new ++ others).
Proof.
  intros Hdn _ Hu E. rewrite app_assoc. pose proof (up_fine _ _ Hu) as [Hfa _]%Forall_cons. 
  destruct a; act_cases E; cbn [concat] in *; rewrite ?app_nil_r;
    try (eapply uploading_keep; [exact Hu|by split_and!|by auto|intros q; cbn; repeat case_decide; lia|by repeat constructor]).
  - destruct (resolved_progress p r s) as (Hb & Hf & Hd), (end_progress (slot_resolved p r s)) as (Hb' & Hf' & Hd' & Hs').
    eapply uploading_keep; [exact Hu|by eapply settled_by_trans| |intros q; cbn; lia|by constructor]. rewrite Hd', Hs'. destruct Hd as [->|?]; auto.
  - apply uploading_received; [done|]. by eapply bool_decide_eq_true, negb_false_iff.
  - exact (uploading_collect s others Hu H1).
  - destruct (end_progress (free_slot p s)) as (Hb' & Hf' & Hd' & Hs').
    eapply uploading_keep; [exact Hu|eapply settled_by_trans, Hb'; by split_and!| |intros q; cbn; case_decide; lia|by constructor]. rewrite Hd'. auto.
  - by eapply uploading_copied.
  - eapply uploading_result; [exact Hu|done|clear; set_solver| |done|].
    + intros q [->%elem_of_singleton|]%elem_of_union; auto.
    + intros s' Hf Hc. apply Forall_singleton. split; [by rewrite Hf|]. intros _. rewrite Hc. by eapply bool_decide_eq_true.
  - eapply uploading_result; [exact Hu|done|done|auto|done|]. intros s' Hf Hc. by apply Forall_singleton.
  - eapply uploading_result; [exact Hu|done|clear; set_solver| |done|by repeat constructor]. intros q [->%elem_of_singleton|]%elem_of_union; auto.
  - destruct (finish_progress st s) as (Hb & Hf & Hd & Hs). eapply uploading_keep; [exact Hu|done| |intros q; cbn; lia|by constructor].
    intros _. destruct Hfa as [Hfz Hok]. destruct (is_ok st) eqn:Est; [by right; right; right; split; [|apply Hok]|]. right. left. by apply Hs.
  - destruct (end_progress s) as (Hb' & Hf' & Hd' & Hs'). eapply uploading_keep; [exact Hu|done| |intros q; cbn; lia|by constructor]. rewrite Hd'. auto.
  - destruct (finish_progress st (with_finished s)) as (Hb & Hf & Hd & Hs).
    eapply uploading_keep; [exact Hu|eapply settled_by_trans, Hb; by split_and!| |intros q; cbn; lia|by constructor]. rewrite Hf. cbn. auto.
  - destruct (finish_progress st s) as (Hb & Hf & Hd & Hs). eapply uploading_keep; [exact Hu|done| |intros q; cbn; lia|by constructor]. auto.
Qed.
Lemma uploading_reach n ar w : reached (Receive_new n ar) w → uploading (sess w) (pending w).
Proof.
  apply recv_invariant; [| | |apply uploading_step].
  - intros s l l' HP [H1 H2 H3 H4 H5 H6 H7 H8 H9]. split; try done; [|by rewrite <- HP]. intros p. by rewrite <- HP.
  - split; cbn; try done; set_solver || apply SSorted_nil.
  - intros s a others He [H1 H2 H3 H4 H5 H6 H7 H8 H9]. destruct a; try done; split; cbn; try done; by constructor.
Qed.

(** ** Host buffers

    An upload reads the buffer its pool has leased.  After the session began to drain a
    buffer may be given back under an upload, but then nobody gets it any more. *)
Definition owner (p : Z) (a : Action) : Z := match a with FreeSlot q => if decide (q = p) then 1 else 0 | _ => copying p a end.
Definition private (p slot : Z) (m : StagingLayerManager) : Prop :=
  (shutdown_ m = false → leases_ m !! p = Some slot) ∧ ∀ q, leases_ m !! q = Some slot → q = p.
Definition reads_own (s : Receive) (a : Action) : Prop :=
  match a with IssueUpload p slot | Uploading p slot => private p slot (slots s) | _ => True end.
Record leasing (k : Z) (s : Receive) (acts : list Action) : Prop := {
  ls_slots : slots_ok k (slots s);
  ls_owner : ∀ p, sum_of (owner p) acts <= claimed p (launched_pools s);
  ls_reads : Forall (reads_own s) acts;
}.
Lemma owner_nonneg p a : 0 <= owner p a.
Proof. destruct a; cbn; try case_decide; lia. Qed.
(** Buffers only come back, and if any does the manager is shut down. *)
Definition returns (m m' : StagingLayerManager) : Prop :=
  (∀ k, slots_ok k m → slots_ok k m') ∧ leases_ m' ⊆ leases_ m ∧ (shutdown_ m' = false → m' = m).
Lemma returns_trans m1 m2 m3 : returns m1 m2 → returns m2 m3 → returns m1 m3.
Proof.
  intros (H1 & H2 & H3) (H4 & H5 & H6). split_and!; [auto|by etrans|]. intros H. pose proof (H6 H) as ->. auto.
Qed.
Lemma returns_refl m : returns m m.
Proof. done. Qed.
Lemma returns_shutdown m : returns m (Shutdown m).
Proof. done. Qed.
Lemma returns_all m : shutdown_ m = true → returns m (ReleaseAll m).
Proof. intros H. split_and!; [by intros; apply slots_release_all|apply map_empty_subseteq|cbn; congruence]. Qed.
Lemma returns_one m p : shutdown_ m = true → returns m (Release p m).
Proof.
  intros H. split_and!; [by intros; apply slots_release|rewrite leases_release; apply delete_subseteq|rewrite shutdown_release; congruence].
Qed.
Lemma returns_private p slot m m' : returns m m' → private p slot m → private p slot m'.
Proof.
  intros (_ & H2 & H3) [H4 H5]. split; [intros H; rewrite H3 by done; apply H4; by rewrite <- (H3 H)|]. intros q Hq. apply H5. by eapply lookup_weaken.
Qed.
Lemma finish_returns st s : returns (slots s) (slots (FinishLocked st s)).
Proof.
  unfold FinishLocked. destruct (negb _ && _); cbn; destruct (draining s); cbn; try done; destruct (_ && _); cbn; try done;
    (eapply returns_trans; [apply returns_shutdown|by apply returns_all]).
Qed.
Lemma end_returns s : (draining s = true → shutdown_ (slots s) = true) → returns (slots s) (slots (EndRecvOpLocked s)).
Proof.
  intros H. unfold EndRecvOpLocked. destruct (_ <=? _); [done|]. cbn. destruct (draining s); cbn; [|done]. destruct (_ && _); cbn; [|done]. by apply returns_all, H.
Qed.
Lemma resolved_returns p r s :
  (done s = true → draining s = true) → draining s = shutdown_ (slots s) →
  returns (slots s) (slots (slot_resolved p r s)) ∧ (draining (slot_resolved p r s) = true → shutdown_ (slots (slot_resolved p r s)) = true).
Proof.
  intros Hd Hsh. unfold slot_resolved. destruct r as [slot|c].
  - unfold closing. destruct (done s) eqn:E, (draining s) eqn:E'; cbn; try (by specialize (Hd eq_refl)); rewrite ?shutdown_release, ?E'; split; try done; by apply returns_one.
  - case_bool_decide; [by rewrite Hsh|]. split; [apply finish_returns|]. intros _. unfold FinishLocked. destruct (negb _ && _); cbn; destruct (draining s) eqn:E; cbn; try done; by case_match.
Qed.
Lemma settled_launched s s' : settled_by s s' → launched_pools s' = launched_pools s.
Proof. by intros ([= E1 E2 E3 E4 E5] & _). Qed.
Lemma leasing_keep k s a others s' l :
  leasing k s (a :: others) → returns (slots s) (slots s') → launched_pools s' = launched_pools s →
  (∀ p, sum_of (owner p) l <= owner p a) → Forall (reads_own s) l → leasing k s' (l ++ others).
Proof.
  intros [H1 H2 H3] Hr El Ho Hl. split; [by apply Hr| |].
  - intros p. rewrite El, sum_of_app. specialize (H2 p). specialize (Ho p). cbn in H2. lia.
  - apply Forall_cons in H3 as [_ H3]. apply Forall_app. split; (eapply Forall_impl; [eassumption|]); intros [] ; cbn; try done; by apply returns_private.
Qed.
Lemma private_open k p slot m : slots_ok k m → leases_ m !! p = Some slot → private p slot m.
Proof. intros H E. split; [done|]. intros q Hq. by eapply slots_exclusive. Qed.
Lemma leasing_acquire k s p others e r m :
  leasing k s (WaitSlot p :: others) → Acquire e p (cancelled s) (slots s) = Some (r, m) → leasing k (with_slots m s) (SlotDone p r :: others).
Proof.
  intros [H1 H2 H3] E. split; [cbn; by eapply slots_acquire|exact H2|]. apply Forall_cons in H3 as [_ H3]. apply Forall_cons. split; [done|]. eapply Forall_impl; [exact H3|].
  pose proof (slots_acquire k _ _ _ _ _ _ H1 E) as Hm. destruct (acquire_inv _ _ _ _ _ _ E) as [[-> _]|(slot & free & -> & Hn & Hf & ->)]; [by intros []|].
  apply acquire_open in E. assert (∀ q sl, private q sl (slots s) → private q sl (mkManager free (<[p:=slot]> (leases_ (slots s))) (shutdown_ (slots s)))) as Hq.
  { intros q sl [Hp _]. eapply private_open; [exact Hm|]. cbn. rewrite lookup_insert_ne; [auto|]. intros <-. rewrite Hp in Hn by done. done. }
  intros []; cbn; auto.
Qed.
Lemma leasing_free k s p others : leasing k s (FreeSlot p :: others) → leasing k (free_slot p s) others.
Proof.
  intros [H1 H2 H3]. split; [cbn; by apply slots_release|intros q; specialize (H2 q); pose proof (owner_nonneg q (FreeSlot p)); cbn in *; lia|].
  apply Forall_cons in H3 as [_ H3]. assert (∀ a q sl, a ∈ others → owner q a = 1 → private q sl (slots s) → private q sl (Release p (slots s))) as Hq.
  { intros a q sl Ha Ho [Hp1 Hp2]. pose proof (sum_of_elem (owner q) others a (owner_nonneg q) Ha) as Hge. specialize (H2 q). cbn in H2. unfold claimed in H2.
    assert (q ≠ p) as Hne. { intros ->. rewrite decide_True in H2 by done. case_decide; lia. }
    split; rewrite leases_release, ?shutdown_release; [rewrite lookup_delete_ne by done; exact Hp1|]. intros u [_ Hu]%lookup_delete_Some. auto. }
  rewrite Forall_forall in H3 |- *. intros a Ha. specialize (H3 a Ha). destruct a; cbn in *; try done; (eapply Hq; [exact Ha|cbn; by rewrite decide_True|done]).
Qed.
Lemma owner_launch p l : sum_of (owner p) (Launch <$> l) = occ p l.
Proof. rewrite <- copying_launch. induction l as [|q l IH]; cbn; [done|]. by rewrite IH. Qed.
Lemma leasing_collect k s others :
  let new := filter (eligible request s) (started_pools s) in
  leasing k s (Collect :: others) →
  leasing k (with_in_flight (in_flight s + Z.of_nat (length (merge_sort Z.le (elements new)))) (with_launched_pools (launched_pools s ∪ new) s))
    ((Launch <$> merge_sort Z.le (elements new)) ++ others).
Proof.
  intros new [H1 H2 H3]. split; cbn; [done| |].
  - intros p. rewrite sum_of_app, owner_launch, occ_elements. specialize (H2 p). cbn in H2. unfold claimed in *.
    assert (p ∈ new → p ∉ launched_pools s) as Hn by (by intros [[? _] _]%elem_of_filter).
    destruct (decide (p ∈ launched_pools s ∪ new)) as [Hu|Hu], (decide (p ∈ new)) as [Ha|Ha], (decide (p ∈ launched_pools s)) as [Hb|Hb]; try lia; exfalso; clear -Hu Ha Hb Hn; set_solver.
  - apply Forall_app. split; [by apply Forall_fmap, Forall_true|]. by apply Forall_cons in H3 as [_ H3].
Qed.
Lemma leasing_step k s a others x s' pre new :
  (done s = true → draining s = true ∧ entry s a = true) → draining s = shutdown_ (slots s) →
  leasing k s (a :: others) → act x s a = Some (s', pre, new) → leasing k s' (pre ++ concat new ++ others).
Proof.
  intros Hdn Hsh Hu E. rewrite app_assoc. assert (done s = true → draining s = true) as Hd by (intros ?; by apply Hdn).
  pose proof (ls_reads _ _ _ Hu) as [Hra _]%Forall_cons.
  destruct a; act_cases E; cbn [concat] in *; rewrite ?app_nil_r;
    try (eapply leasing_keep; [exact Hu|exact (returns_refl _)|done|intros q; cbn; repeat case_decide; lia|by repeat constructor]);
    try (eapply leasing_keep; [exact Hu|apply finish_returns|apply settled_launched, finish_progress|intros q; cbn; lia|by constructor]).
  - by eapply leasing_acquire.
  - destruct (resolved_returns p r s Hd Hsh) as [Hr Hs]. eapply leasing_keep; [exact Hu|eapply returns_trans; [exact Hr|by apply end_returns]| |intros q; cbn; lia|by constructor].
    eapply settled_launched, settled_by_trans; [apply resolved_progress|apply end_progress].
  - exact (leasing_collect k s others Hu).
  - assert (draining s = true) as Ed by (unfold closing in *; destruct (done s), (draining s); auto).
    eapply leasing_keep; [exact Hu| | |intros q; cbn; case_decide; lia|by constructor].
    + eapply returns_trans; [apply (returns_one _ p); congruence|apply (end_returns (free_slot p s)); cbn; rewrite shutdown_release; congruence].
    + exact (settled_launched _ _ (proj1 (end_progress (free_slot p s)))).
  - eapply leasing_keep; [exact Hu|exact (returns_refl _)|done|intros q; cbn; case_decide; lia|]. apply Forall_singleton. eapply private_open; [by apply Hu|done].
  - eapply leasing_keep; [exact Hu|exact (returns_refl _)|done|intros q; cbn; case_decide; lia|]. cbn. apply Forall_cons. split; [exact Hra|by constructor].
  - by apply leasing_free.
  - eapply leasing_keep; [exact Hu|apply end_returns; congruence|apply settled_launched, end_progress|intros q; cbn; lia|by constructor].
  - eapply leasing_keep; [exact Hu|exact (finish_returns st (with_finished s))|exact (settled_launched _ _ (proj1 (finish_progress st (with_finished s))))|intros q; cbn; lia|by constructor].
Qed.
Lemma leasing_reach n ar w : reached (Receive_new n ar) w → leasing n (sess w) (pending w).
Proof.
  apply recv_invariant; [| | |apply leasing_step].
  - intros s l l' HP [H1 H2 H3]. split; [done| |by rewrite <- HP]. intros p. by rewrite <- HP.
  - split; cbn; [apply slots_new|done|done].
  - intros s a others He [H1 H2 H3]. destruct a; try done; split; cbn; try done; by constructor.
Qed.

(** ** No pool is forgotten *)
Definition stopping (s : Receive) : Prop := draining s = true ∨ reshard_finalizing s = true.
Definition attends (p : Z) (a : Action) : Prop := match a with RecordUpload q _ => q = p | _ => copying p a = 1 end.
Record awake (s : Receive) (acts : list Action) : Prop := {
  aw_started : ∀ p, p ∈ started_pools s → p ∉ launched_pools s →
    stopping s ∨ Collect ∈ acts ∨ ∃ o, o ∈ expected ∧ rank o < rank p ∧ o ∉ completed_pools s;
  aw_launched : ∀ p, p ∈ launched_pools s → stopping s ∨ p ∈ completed_pools s ∨ ∃ a, a ∈ acts ∧ attends p a;
  aw_final : reshard_finalizing s = true → draining s = true ∨ ∃ st, FinishUpload st ∈ acts;
  aw_all : completed_pools s = expected → reshard_finalizing s = true;
}.
(** An action that is not the last to attend to a pool. *)
Definition hands_on (a : Action) (l : list Action) : Prop :=
  (a ≠ Collect ∨ Collect ∈ l) ∧ ∀ p, attends p a → ∃ b, b ∈ l ∧ attends p b.
Lemma awake_keep s a others s' l :
  awake s (a :: others) → settled_by s s' →
  (draining s' = true ∨ (reshard_finalizing s = true ∨ hands_on a l) ∧ (∀ st, a ≠ FinishUpload st)) → awake s' (l ++ others).
Proof.
  intros [H1 H2 H3 H4] (Hp & Hd & _) Hor. injection Hp as E1 E2 E3 E4 E5. destruct Hor as [Hdr|(HC & HF)].
  - split; unfold stopping; [by auto..|]. by rewrite E2, E4.
  - assert (∀ P : Prop, stopping s ∨ P → stopping s' ∨ P) as Hst. { unfold stopping. rewrite E4. intros P [[?%Hd|?]|?]; auto. }
    split; rewrite ?E1, ?E2, ?E3, ?E4; [intros p Hs Hl; apply Hst|intros p Hs; apply Hst| |done].
    + destruct (H1 p Hs Hl) as [?|[[<-|?]%elem_of_cons|?]]; [auto| |right; left; set_solver|auto]. destruct HC as [?|[[?|?] _]]; [left; by right|congruence|right; left; set_solver].
    + destruct (H2 p Hs) as [?|[?|(b & [->|?]%elem_of_cons & Hb)]]; [auto|auto| |right; right; set_solver].
      destruct HC as [?|[_ HA]]; [left; by right|]. apply HA in Hb as (c & ? & ?). right; right; set_solver.
    + intros [?%Hd|(st & [?|?]%elem_of_cons)]%H3; [auto|by destruct (HF st)|right; set_solver].
Qed.
Lemma hands_on_next p a b l : (∀ q, attends q a → q = p) → attends p b → b ∈ l → a ≠ Collect → hands_on a l.
Proof. intros Ha Hb Hl Hn. split; [by left|]. intros q ->%Ha. by exists b. Qed.
Lemma hands_on_none a l : (∀ q, ¬ attends q a) → a ≠ Collect → hands_on a l.
Proof. intros Ha Hn. split; [by left|]. by intros q ?%Ha. Qed.
Lemma awake_result s p st others fin completed l :
  awake s (RecordUpload p st :: others) → reshard_finalizing s = false → (completed = expected → fin = true) → completed_pools s ⊆ completed →
  (fin = true ∧ (∃ st, FinishUpload st ∈ l)) ∨ (fin = false ∧ p ∈ completed ∧ Collect ∈ l) → awake (with_result fin completed s) (l ++ others).
Proof.
  intros [H1 H2 H3 H4] Hfin Hall Hsub [[-> (e & Hl)]|(-> & Hp & Hl)]; split; cbn; try done; unfold stopping; cbn; try (by auto).
  - intros _. right. exists e. set_solver.
  - intros q _ _. right. left. set_solver.
  - intros q Hq. destruct (H2 q Hq) as [[?|?]|[?|(b & [->|?]%elem_of_cons & Hb)]]; [by left; left|congruence|right; left; set_solver| |right; right; set_solver].
    cbn in Hb. subst q. auto.
Qed.
Lemma awake_started s acts X : awake s acts → Collect ∈ acts → awake (with_started_pools X s) acts.
Proof. intros [H1 H2 H3 H4] HC. split; cbn; [by right; left|exact H2|exact H3|exact H4]. Qed.
Lemma awake_collect s others :
  let new := filter (eligible request s) (started_pools s) in
  awake s (Collect :: others) →
  awake (with_in_flight (in_flight s + Z.of_nat (length (merge_sort Z.le (elements new)))) (with_launched_pools (launched_pools s ∪ new) s))
    ((Launch <$> merge_sort Z.le (elements new)) ++ others).
Proof.
  intros new [H1 H2 H3 H4]. assert (∀ p, p ∈ new ↔ eligible request s p ∧ p ∈ started_pools s) as Hnew by (intros p; apply elem_of_filter). split; cbn.
  - intros p Hs Hl. right. right. assert (prerequisites_uploaded request s p ≠ true) as Hno.
    { intros Hpre. apply Hl, elem_of_union. destruct (decide (p ∈ launched_pools s)); [by left|]. right. by apply Hnew. }
    rewrite prerequisites_spec in Hno. destruct (decide (Exists (λ o, rank o < rank p ∧ o ∉ completed_pools s) (elements expected))) as [He|He].
    + apply Exists_exists in He as (o & ?%elem_of_elements & ? & ?). by exists o.
    + destruct Hno. intros o Ho Hr. destruct (decide (o ∈ completed_pools s)); [done|]. destruct He. apply Exists_exists. exists o. by rewrite elem_of_elements.
  - intros p [Hp|Hp]%elem_of_union.
    + destruct (H2 p Hp) as [?|[?|(b & [->|?]%elem_of_cons & Hb)]]; [by left|by right; left|done|]. right. right. exists b. split; [by apply elem_of_app; right|done].
    + right. right. exists (Launch p). split; [|cbn; by rewrite decide_True]. apply elem_of_app. left. apply list_elem_of_fmap. exists p. split; [done|].
      by rewrite merge_sort_Permutation, elem_of_elements.
  - intros [?|(st & [?|?]%elem_of_cons)]%H3; [by left|done|]. right. exists st. by apply elem_of_app; right.
  - exact H4.
Qed.
Lemma awake_step s a others x s' pre new :
  (done s = true → draining s = true ∧ entry s a = true) → draining s = shutdown_ (slots s) →
  awake s (a :: others) → act x s a = Some (s', pre, new) → awake s' (pre ++ concat new ++ others).
Proof.
  intros Hdn Hsh Hu E. rewrite app_assoc. assert (done s = true → draining s = true) as Hd by (intros ?; by apply Hdn).
  assert (closing s = true → draining s = true) as Hcl by (unfold closing; intros [?|?]%orb_true_iff; auto).
  destruct a; act_cases E; cbn [concat] in *; rewrite ?app_nil_r;
    try (eapply awake_keep; [exact Hu|by split_and!|]; right; split; [|done]; right; by apply hands_on_none);
    try (eapply awake_keep; [exact Hu|by split_and!|]; right; split; [|done]; right; eapply (hands_on_next p); [intros q; cbn; by case_decide|..|left|done]; cbn; done || by rewrite decide_True).
  all: try (eapply awake_keep; [exact Hu|by split_and!|left; by auto]).
  all: try (eapply awake_keep; [exact Hu|apply finish_progress|left; apply finish_progress]).
  - eapply awake_keep; [exact Hu|eapply settled_by_trans; [apply resolved_progress|apply end_progress]|]. right. split; [|done]. right. by apply hands_on_none.
  - apply awake_started; [|by left]. eapply (awake_keep _ _ _ s); [exact Hu|by split_and!|]. right. split; [|done]. right. by apply hands_on_none.
  - eapply awake_keep; [exact Hu|by split_and!|]. right. split; [by left|done].
  - exact (awake_collect s others Hu).
  - eapply awake_keep; [exact Hu|eapply (settled_by_trans _ (free_slot p s)); [by split_and!|apply end_progress]|]. left.
    rewrite (proj1 (proj2 (proj2 (end_progress (free_slot p s))))). by apply Hcl.
  - assert (awake s ([FreeSlot p; RecordUpload p OkStatus] ++ others)) as [H1 H2 H3 H4]; [|by split].
    eapply awake_keep; [exact Hu|by split_and!|]. right. split; [|done]. right. eapply (hands_on_next p); [intros q; cbn; by case_decide| |right; left|done]. done.
  - eapply awake_result; [exact Hu|done|by intros ?; apply bool_decide_eq_true|set_solver|]. left. split; [done|]. eexists. by left.
  - eapply awake_result; [exact Hu|done|done|done|]. left. split; [done|]. eexists. by left.
  - eapply awake_keep; [exact Hu|by split_and!|]. right. split; [by left|done].
  - eapply awake_result; [exact Hu|done|by intros ?; apply bool_decide_eq_true|set_solver|]. right. split; [done|]. split; [set_solver|by left].
  - eapply awake_keep; [exact Hu|by split_and!|]. right. split; [by left|done].
  - eapply awake_keep; [exact Hu|apply end_progress|]. right. split; [|done]. right. by apply hands_on_none.
  - eapply awake_keep; [exact Hu|eapply (settled_by_trans _ (with_finished s)); [by split_and!|apply finish_progress]|]. left. by apply finish_progress.
Qed.
Lemma awake_reach n ar w : expected ≠ ∅ → reached (Receive_new n ar) w → awake (sess w) (pending w).
Proof.
  intros Hne. apply recv_invariant; [| | |apply awake_step].
  - intros s l l' HP [H1 H2 H3 H4]. split; try done; by setoid_rewrite <- HP.
  - split; cbn; try done; set_solver.
  - intros s a others He [H1 H2 H3 H4]. split; [| | |done]; set_solver.
Qed.
(** A session in which every pool has arrived and nothing is pending has been decided. *)
Lemma awake_ends s acts : expected ≠ ∅ → uploading s acts → awake s acts → acts = [] → started_pools s = expected → draining s = true.
Proof.
  intros Hne Hu [H1 H2 H3 H4] -> Est. destruct (draining s) eqn:Ed; [done|]. exfalso.
  assert (reshard_finalizing s = false) as Ef. { destruct (reshard_finalizing s); [|done]. destruct (H3 eq_refl) as [?|(st & Hin)]; [done|]. by apply elem_of_nil in Hin. }
  assert (¬ stopping s) as Hns by (unfold stopping; intros []; congruence).
  assert (expected ∖ completed_pools s ≠ ∅) as Hmin.
  { intros H0. rewrite H4 in Ef; [done|]. apply set_eq. intros p. pose proof (up_completed _ _ Hu p). pose proof (up_launched _ _ Hu p). pose proof (up_started _ _ Hu p).
    split; [auto|]. intros Hp. destruct (decide (p ∈ completed_pools s)); [done|]. set_solver. }
  assert (Transitive (λ p q, rank p <= rank q)) by (intros ???; lia).
  assert (∀ x y, Decision ((λ p q, rank p <= rank q) x y)) by (intros; cbn; apply _).
  apply (minimal_exists_elem_of_L (λ p q, rank p <= rank q)) in Hmin as (p & [Hp Hnc]%elem_of_difference & Hmin).
  destruct (decide (p ∈ launched_pools s)) as [Hl|Hl].
  - destruct (H2 p Hl) as [?|[?|(a & Ha & _)]]; [done..|by apply elem_of_nil in Ha].
  - destruct (H1 p) as [?|[Ha|(o & Ho & Hr & Hc)]]; [by rewrite Est|done|done|by apply elem_of_nil in Ha|]. specialize (Hmin o). rewrite elem_of_difference in Hmin.
    specialize (Hmin (conj Ho Hc)). lia.
Qed.
(** Every action can be performed, when the environment lets it. *)
Lemma recv_enabled s a : ∃ x o, act x s a = Some o.
Proof.
  destruct a; try (exists Deadline; cbn; repeat case_match; eauto; done); try (exists (Result OkStatus); cbn; repeat case_match; eauto; done).
  - exists (Ends OkStatus). cbn. eauto.
  - exists Deadline. cbn. destruct (acquire_total p (cancelled s) (slots s)) as [[r m] ->]. eauto.
Qed.
End session.
