(* ===== verification/ReshardReceiveProperties.v ===== *)
(** * ReshardReceiveProperties: what a reshard receiver guarantees
    (src/tpu_sync/kv_cache/reshard_receive_session.cc)

    Over every interleaving of pushes, uploads and calls from outside, with any results:
    the session settles exactly when nothing is in flight, pools are uploaded once and in
    the order of their ranks, from host buffers that no other pool gets, success means that
    every pool was uploaded, and a session whose pools have all arrived is never stuck. *)

From S2P Require Import Prelude RaidenTypes PoolLayout PoolReshardPlanner WireTypes TransferPlan SessionThreads StagingSlots ReshardChecks ReshardReceive ReshardReceiveFacts.

Section created.
Context (base : ManagerBase) (plan : StartTransferRequest) (chip_blocks : list Z) (bounded : Z → bool) (lease : Z → Status) (s0 : Receive).
Context (Hcreate : CreateReshardReceiveSession base true plan chip_blocks bounded lease = Some (Ok s0)).
Abbreviation act := (act plan chip_blocks).
Abbreviation reached := (reachable act entry s0).

Lemma recv_create_inv :
  NoDup (st_transfer_pool_indices plan) ∧ expected plan ≠ ∅ ∧ s0 = Receive_new (mb_num_host_layers base) (storage_leases base bounded plan chip_blocks).
Proof using Hcreate.
  unfold CreateReshardReceiveSession in Hcreate. cbn [negb] in Hcreate. destruct (receiver_ValidatePlan base plan chip_blocks) as [[[]|]|] eqn:Ev; [|done..].
  destruct (negb (mb_device_buffers base)); [done|]. destruct (negb _); [done|]. destruct (Create _ _ _ _ _ _); [|done]. cbn in Hcreate.
  destruct (mapM _ _); [|done]. injection Hcreate as <-. unfold receiver_ValidatePlan in Ev. destruct (ValidateCommonPoolReshardPlan _ _ _) eqn:Ec; [|done].
  unfold ValidateCommonPoolReshardPlan in Ec. destruct (_ && _) eqn:Eb in Ec; [|done]. repeat (apply andb_true_iff in Eb as [Eb ?]).
  split; [by eapply bool_decide_eq_true|]. split; [|done]. unfold expected. 
  assert (st_transfer_pool_indices plan ≠ []) as Hne by (by eapply bool_decide_eq_false, negb_true_iff). destruct (st_transfer_pool_indices plan) as [|p l]; [done|]. cbn. set_solver.
Qed.

(** C34: A receiver settles exactly when its outcome is decided and nothing is in flight
    any more, neither a push nor an upload: then every host buffer is free again and no
    staging lease is left behind. *)
Theorem receive_settles w :
  reached w →
  (done (sess w) = true ↔ draining (sess w) = true ∧ pending w = []) ∧
  (done (sess w) = true → num_free (slots (sess w)) = Z.max 0 (mb_num_host_layers base) ∧ arena (sess w) = []).
Proof using Hcreate.
  intros Hw. destruct recv_create_inv as (_ & _ & E). rewrite E in Hw. pose proof (recv_counted _ _ _ _ w Hw) as [Hf Hd Hs _ _].
  split; [split|].
  - intros (H1 & H2 & _)%Hd. split; [done|]. by eapply recv_idle.
  - intros [H1 H2]. apply Hs; [done|]. by rewrite Hf, H2.
  - intros (_ & _ & El & Ea)%Hd. split; [|done]. destruct (leasing_reach _ _ _ _ w Hw) as [Hb _ _].
    unfold slots_ok, leased in Hb. rewrite El, map_to_list_empty, app_nil_r in Hb. unfold num_free. rewrite Hb, length_seqZ. lia.
Qed.
(** C17: Uploads keep the order of the pool groups: no pool is uploaded twice, the uploads
    are done in the order of the ranks, and while a pool is uploaded every pool of a lower
    rank has been. *)
Theorem receive_upload_order w :
  reached w →
  NoDup (uploaded (sess w)) ∧ StronglySorted (λ p q, rank plan p <= rank plan q) (uploaded (sess w)) ∧
  ∀ p slot q, Uploading p slot ∈ pending w → q ∈ st_transfer_pool_indices plan → rank plan q < rank plan p →
    q ∈ uploaded (sess w) ∧ p ∉ uploaded (sess w).
Proof using Hcreate.
  intros Hw. destruct recv_create_inv as (_ & _ & E). rewrite E in Hw. pose proof (uploading_reach _ _ _ _ w Hw) as Hu. split; [|split; [apply Hu|]].
  - apply NoDup_occ. intros p. pose proof (up_once _ _ _ Hu p). pose proof (sum_of_nonneg _ (pending w) (copying_nonneg p)). unfold claimed in *. case_decide; lia.
  - intros p slot q Hp Hq Hr. pose proof (up_once _ _ _ Hu p) as H1. pose proof (sum_of_elem _ _ _ (copying_nonneg p) Hp) as H2. cbn in H2.
    rewrite decide_True in H2 by done. unfold claimed in H1. rewrite (occ_elem p). case_decide; [|unfold occ in *; lia]. split; [|lia].
    apply (up_done _ _ _ Hu). eapply (up_order _ _ _ Hu); [done| |done]. by apply elem_of_list_to_set.
Qed.
(** C33: Host buffers of a receiver: the buffer an upload reads is leased to no other pool
    until the upload is done, and it is the pool's own as long as the session has not
    begun to drain; after that nobody leases a buffer any more. *)
Theorem receive_buffers_exclusive w p slot :
  reached w → Uploading p slot ∈ pending w →
  (∀ q, Lookup q (slots (sess w)) = Some slot → q = p) ∧
  (draining (sess w) = false → Lookup p (slots (sess w)) = Some slot) ∧
  (draining (sess w) = true → ∀ expired q cancelled r m, Acquire expired q cancelled (slots (sess w)) = Some (r, m) → is_ok r = false).
Proof using Hcreate.
  intros Hw Hin. destruct recv_create_inv as (_ & _ & E). rewrite E in Hw. pose proof (leasing_reach _ _ _ _ w Hw) as [Hs _ Hr].
  pose proof (ct_shutdown _ _ (recv_counted _ _ _ _ w Hw)) as Hsh. rewrite Forall_forall in Hr. destruct (Hr _ Hin) as [H1 H2]. rewrite Hsh. split_and!; [done|done|].
  intros Hd expired q cancelled r m E'. destruct r as [sl|]; [|done]. apply acquire_open in E'. congruence.
Qed.
(** C23: Success of a receiver means success of every upload: a session that is done with
    an OK status and was not finished from outside has uploaded every pool of the plan,
    each once. *)
Theorem receive_ok_means_uploaded w :
  reachable act entry s0 w → done (sess w) = true → status (sess w) = OkStatus → finished (sess w) = false →
  uploaded (sess w) ≡ₚ st_transfer_pool_indices plan.
Proof using Hcreate.
  intros Hw Hd Hst Hfin. destruct recv_create_inv as (Hnd & _ & E). rewrite E in Hw. pose proof (uploading_reach _ _ _ _ w Hw) as Hu.
  destruct (ct_done _ _ (recv_counted _ _ _ _ w Hw) Hd) as (Hdr & _). destruct (up_outcome _ _ _ Hu Hdr) as [H|[H|[_ Hall]]]; [by rewrite Hst in H|congruence|].
  apply NoDup_Permutation; [|done|].
  - apply NoDup_occ. intros p. pose proof (up_once _ _ _ Hu p). pose proof (sum_of_nonneg _ (pending w) (copying_nonneg p)). unfold claimed in *. case_decide; lia.
  - intros p. assert (p ∈ st_transfer_pool_indices plan ↔ p ∈ expected plan) as -> by (unfold expected; by rewrite elem_of_list_to_set). split.
    + intros Hp%(up_uploaded _ _ _ _ Hu). by apply (up_started _ _ _ Hu), (up_launched _ _ _ Hu).
    + rewrite <- Hall. apply (up_done _ _ _ Hu).
Qed.
(** C25: A receiver is never stuck: a thread that is not finished can go on, and when no
    thread is left a session in which every pool has arrived has settled, whatever the
    order in which pools arrived and uploads ended. *)
Theorem receive_no_lost_wakeup w :
  reached w →
  (pending w ≠ [] → ∃ w', step act w w') ∧
  (pending w = [] → started_pools (sess w) = list_to_set (st_transfer_pool_indices plan) → done (sess w) = true).
Proof using Hcreate.
  intros Hw. destruct recv_create_inv as (_ & Hne & E). rewrite E in Hw. split; [apply SessionThreads.progress, recv_enabled|]. intros Hp Hst.
  assert (draining (sess w) = true) as Hd. { eapply awake_ends; [exact Hne|by eapply uploading_reach|by eapply awake_reach|done|exact Hst]. }
  destruct (recv_counted _ _ _ _ w Hw) as [Hf _ Hs _ _]. apply Hs; [done|]. by rewrite Hf, Hp.
Qed.
End created.
