(* ===== verification/ReshardReceiveExamples.v ===== *)
(** * ReshardReceiveExamples: runs of a receiver
    (src/tpu_sync/kv_cache/reshard_receive_session.cc)

    One push delivers two pools, the one of the higher rank first: its upload waits for
    the other's.  With one host buffer the two wait for each other. *)

From S2P Require Import Prelude RaidenTypes PoolLayout PoolReshardPlanner WireTypes TransferPlan SessionThreads StagingSlots ReshardChecks ReshardPlanExamples ReshardReceive ReshardReceiveProperties.

(** Pool storage 0 is bounded; its lease is granted. *)
Definition bounded_ex (storage : Z) : bool := storage =? 0.
Definition lease_ex (storage : Z) : Status := OkStatus.
Definition recv_new_ex (host_layers : Z) : Receive := Receive_new host_layers [(0, [2])].
Definition recv_run (host_layers : Z) (choices : list (Choice (A := Action) (X := Env))) : World Receive Action :=
  run_of (act recv_plan_ex [2; 3]) entry (recv_new_ex host_layers) choices.
Lemma recv_create_ex n : CreateReshardReceiveSession (base_ex n) true recv_plan_ex [2; 3] bounded_ex lease_ex = Some (Ok (recv_new_ex n)).
Proof. vm_compute. reflexivity. Qed.
Definition recv_ok : Env := Result OkStatus.
(** A push resolves a buffer for pool 1 and reports it; its upload is not due. *)
Definition high_first : list (Choice (A := Action) (X := Env)) :=
  [Invoke TryBeginOp recv_ok; Run 0 (Resolves 1)] ++ replicate 3 (Run 0 recv_ok) ++ [Run 0 (Reports 1); Run 0 recv_ok; Run 0 recv_ok].
(** Then pool 0 arrives and is uploaded, after it pool 1. *)
Definition then_low : list (Choice (A := Action) (X := Env)) :=
  Run 0 (Resolves 0) :: replicate 3 (Run 0 recv_ok) ++ Run 0 (Reports 0) :: replicate 7 (Run 0 recv_ok) ++ replicate 9 (Run 1 recv_ok).
Definition finish_recv : list (Choice (A := Action) (X := Env)) :=
  replicate 5 (Run 2 recv_ok) ++ [Run 1 recv_ok; Run 0 (Ends OkStatus); Run 0 recv_ok].
Definition uploading_1 : World Receive Action := recv_run 2 (high_first ++ then_low).
Definition recv_done : World Receive Action := recv_run 2 (high_first ++ then_low ++ finish_recv).

Lemma uploading_1_pending : Uploading 1 0 ∈ pending uploading_1.
Proof. vm_compute. apply list_elem_of_In. cbn. tauto. Qed.

Lemma receive_settles_witness : num_free (slots (sess recv_done)) = Z.max 0 2 ∧ arena (sess recv_done) = [].
Proof. apply (receive_settles (base_ex 2) recv_plan_ex [2; 3] bounded_ex lease_ex (recv_new_ex 2) (recv_create_ex 2)); [apply run_of_reach|vm_compute; reflexivity]. Defined.
Lemma receive_upload_order_witness : rank recv_plan_ex 0 < rank recv_plan_ex 1 ∧ 0 ∈ uploaded (sess uploading_1) ∧ 1 ∉ uploaded (sess uploading_1).
Proof.
  split; [vm_compute; reflexivity|].
  apply (receive_upload_order (base_ex 2) recv_plan_ex [2; 3] bounded_ex lease_ex (recv_new_ex 2) (recv_create_ex 2) uploading_1 ltac:(apply run_of_reach)) with (slot := 0);
    [apply uploading_1_pending|by left|vm_compute; reflexivity].
Defined.
Lemma receive_buffers_exclusive_witness : Lookup 1 (slots (sess uploading_1)) = Some 0 ∧ ∀ q, Lookup q (slots (sess uploading_1)) = Some 0 → q = 1.
Proof.
  pose proof (receive_buffers_exclusive (base_ex 2) recv_plan_ex [2; 3] bounded_ex lease_ex (recv_new_ex 2) (recv_create_ex 2) uploading_1 1 0
    ltac:(apply run_of_reach) uploading_1_pending) as (H1 & H2 & _).
  split; [apply H2; vm_compute; reflexivity|exact H1].
Defined.
Lemma receive_ok_means_uploaded_witness : uploaded (sess recv_done) ≡ₚ st_transfer_pool_indices recv_plan_ex.
Proof.
  apply (receive_ok_means_uploaded (base_ex 2) recv_plan_ex [2; 3] bounded_ex lease_ex (recv_new_ex 2) (recv_create_ex 2)); [apply run_of_reach|vm_compute; reflexivity..].
Defined.
Lemma receive_no_lost_wakeup_witness : done (sess recv_done) = true.
Proof.
  apply (receive_no_lost_wakeup (base_ex 2) recv_plan_ex [2; 3] bounded_ex lease_ex (recv_new_ex 2) (recv_create_ex 2)); [apply run_of_reach|vm_compute; reflexivity..].
Defined.

(** With one host buffer pool 1 holds it until pool 0 is uploaded, and pool 0 waits for
    it: nothing can happen but a call from outside, until the deadline ends the session. *)
Definition stuck : World Receive Action := recv_run 1 (high_first ++ [Run 0 (Resolves 0); Run 0 recv_ok]).
Example rank_and_buffer_wait :
  pending stuck = [WaitSlot 0; Push; EndOp] ∧ (∀ x, x ≠ Deadline → act recv_plan_ex [2; 3] x (sess stuck) (WaitSlot 0) = None) ∧
  let w := recv_run 1 (high_first ++ [Run 0 (Resolves 0); Run 0 recv_ok; Run 0 Deadline; Run 0 recv_ok; Run 0 (Ends (Err kDeadlineExceeded)); Run 0 recv_ok; Run 0 recv_ok]) in
  (done (sess w), status (sess w), uploaded (sess w)) = (true, Err kDeadlineExceeded, []).
Proof. split; [vm_compute; reflexivity|]. split; [|vm_compute; reflexivity]. intros [] Hx; done || vm_compute; reflexivity. Qed.
