(* ===== verification/PushProgress.v ===== *)
(** * PushProgress: what a receiver counts
    (src/tpu_sync/transport/block_transport_session.cc)

    A transport session counts the streams that have landed for each block array (layer or
    pool) and reports an array when it is complete.  Three sources say what complete is:
    the pushes a plan declares for a pool, the senders a plan declares for an array, or the
    streams a push header declares.  A push may be split over streams that carry some of
    the shards each; shards are counted per sender and folded back into pushes. *)

From S2P Require Import Prelude RaidenTypes PoolLayout PoolReshardPlanner WireTypes TransferPlan SessionThreads.

(** ** Headers *)
Definition kMaxShardMaskBits : Z := 16.
Definition AllShards (num_shards : Z) : list Z := seqZ 0 num_shards.
Definition ShardsFromMask (mask num_shards : Z) : StatusOr (list Z) :=
  if mask =? 0 then Ok (AllShards num_shards)
  else
    let shards := filter (λ sh, Z.land (Z.shiftr mask sh) 1 ≠ 0) (seqZ 0 kMaxShardMaskBits) in
    if existsb (λ sh, num_shards <=? sh) shards then Err kOutOfRange else Ok shards.
Inductive MajorOrder := kLayerMajor | kBlockMajor.
Definition kUseBlockChunksFlag : Z := 128.
Definition ParseMajorOrder (value : Z) : StatusOr MajorOrder :=
  let order_val := Z.land value (Z.lxor 255 kUseBlockChunksFlag) in
  if order_val =? 0 then Ok kLayerMajor else if order_val =? 1 then Ok kBlockMajor else Err kInvalidArgument.
(** The payloads of a stream, (layer, shard, index of the block), in the order of the wire. *)
Definition ForEachPayload (order : MajorOrder) (layers shards : list Z) (num_blocks : Z) : list (Z * Z * Z) :=
  match order with
  | kLayerMajor => layers ≫= λ l, shards ≫= λ sh, (λ k, (l, sh, k)) <$> seqZ 0 num_blocks
  | kBlockMajor => seqZ 0 num_blocks ≫= λ k, layers ≫= λ l, (λ sh, (l, sh, k)) <$> shards
  end.
(** The block arrays a push addresses and what its plan declares.  [specs]: the delegate's
    answer per array; [unspecified]: the wire's "every array". *)
Fixpoint resolve_specs (specs : Z → StatusOr (option PoolPushProgressSpec)) (single : bool) (layers : list Z) (acc : option PoolPushProgressSpec)
    : StatusOr (option PoolPushProgressSpec) :=
  match layers with
  | [] => Ok acc
  | l :: layers =>
      candidate ← specs l;
      match candidate with
      | None => if bool_decide (is_Some acc) then Err kInvalidArgument else resolve_specs specs single layers acc
      | Some c =>
          if negb single then Err kInvalidArgument
          else if (expected_pushes c =? 0) || (expected_pools c =? 0) then Err kInvalidArgument
          else resolve_specs specs single layers (Some c)
      end
  end.
Definition ResolveIncomingPushSpec (unspecified num_block_arrays : Z) (specs : Z → StatusOr (option PoolPushProgressSpec)) (planless_ok : bool)
    (local_id : Z) (explicit_dst : bool) : StatusOr (option PoolPushProgressSpec * list Z) :=
  layers ← (if local_id =? unspecified then Ok (seqZ 0 num_block_arrays)
            else if num_block_arrays <=? local_id then Err kOutOfRange else Ok [local_id]);
  spec ← resolve_specs specs (length layers =? 1)%nat layers None;
  if explicit_dst && bool_decide (spec = None) && negb planless_ok then Err kFailedPrecondition else Ok (spec, layers).

(** ** Progress of a block array *)
Record SenderStreams := mkStreams { landed : Z; declared : Z; landed_shards : Z }.
Record LayerProgress := mkProgress {
  completed_chunks : Z;
  sender_streams : gmap Z SenderStreams;
  senders_complete : Z;
  expected_senders_resolved : bool;
  expected_senders : option Z;
  on_layer_received_called : bool;
}.
Definition no_streams : SenderStreams := mkStreams 0 0 0.
Definition no_progress : LayerProgress := mkProgress 0 ∅ 0 false None false.
Definition with_completed_chunks v p := mkProgress v (sender_streams p) (senders_complete p) (expected_senders_resolved p) (expected_senders p) (on_layer_received_called p).
Definition with_streams remote st p := mkProgress (completed_chunks p) (<[remote := st]> (sender_streams p)) (senders_complete p) (expected_senders_resolved p) (expected_senders p) (on_layer_received_called p).
Definition with_senders_complete v p := mkProgress (completed_chunks p) (sender_streams p) v (expected_senders_resolved p) (expected_senders p) (on_layer_received_called p).
Definition with_expected v p := mkProgress (completed_chunks p) (sender_streams p) (senders_complete p) true v (on_layer_received_called p).
Definition with_called p := mkProgress (completed_chunks p) (sender_streams p) (senders_complete p) (expected_senders_resolved p) (expected_senders p) true.
(** [sender_streams[remote]], which makes an entry for a new sender. *)
Definition streams_of (remote : Z) (p : LayerProgress) : SenderStreams := default no_streams (sender_streams p !! remote).

(** [shards] of 0: the stream carried every shard.  The pushes that are full now, too. *)
Definition AccumulateLandedShards (streams : SenderStreams) (shards full_shards : Z) : Z * SenderStreams :=
  let total := landed_shards streams + (if shards =? 0 then full_shards else shards) in
  (total / full_shards, mkStreams (landed streams + total / full_shards) (declared streams) (total mod full_shards)).
Definition plan_pushes (p : LayerProgress) : Z := sum_of landed (map_to_list (sender_streams p)).*2.
(** Whether the array is complete, by the plan's pushes, *)
Definition count_plan (expected full_shards remote shards : Z) (p : LayerProgress) : StatusOr bool * LayerProgress :=
  let p := with_streams remote (AccumulateLandedShards (streams_of remote p) shards full_shards).2 p in
  if expected <? plan_pushes p then (Err kAlreadyExists, p) else (Ok (plan_pushes p =? expected), p).
(** by one push of each sender, *)
Definition count_posts (senders : option Z) (full_shards remote shards : Z) (p : LayerProgress) : StatusOr bool * LayerProgress :=
  let senders := default 1 senders in
  if senders =? 0 then (Err kInvalidArgument, p)
  else
    let p := with_streams remote (streams_of remote p) p in
    if senders <? Z.of_nat (size (sender_streams p)) then (Err kAlreadyExists, p)
    else
      let '(pushes, streams) := AccumulateLandedShards (streams_of remote p) shards full_shards in
      let p := with_streams remote streams p in
      if (1 <? landed streams) || ((landed streams =? 1) && (0 <? landed_shards streams)) then (Err kAlreadyExists, p)
      else
        let p := if (0 <? pushes) && (landed streams =? pushes) then with_senders_complete (senders_complete p + 1) p else p in
        (Ok (senders <=? senders_complete p), p).
(** or by the streams each sender declares. *)
Definition count_streams (senders num_streams remote : Z) (p : LayerProgress) : StatusOr bool * LayerProgress :=
  let streams := streams_of remote p in
  let p := with_streams remote streams p in
  let land streams p :=
    let streams := mkStreams (landed streams + 1) (declared streams) (landed_shards streams) in
    let p := with_streams remote streams p in
    if landed streams =? declared streams then let p := with_senders_complete (senders_complete p + 1) p in (Ok (senders_complete p =? senders), p)
    else if declared streams <? landed streams then (Err kAlreadyExists, p)
    else (Ok (senders_complete p =? senders), p) in
  if landed streams =? 0 then
    if num_streams =? 0 then (Err kInvalidArgument, p)
    else
      let streams := mkStreams (landed streams) num_streams (landed_shards streams) in
      let p := with_streams remote streams p in
      if senders <? Z.of_nat (size (sender_streams p)) then (Err kAlreadyExists, p) else land streams p
  else if negb (declared streams =? num_streams) then (Err kFailedPrecondition, p)
  else land streams p.

(** ** The session's counting *)
Record Pushes := mkPushes { layer_progress_ : gmap Z LayerProgress; done_ : bool }.
Definition progress_of (l : Z) (s : Pushes) : LayerProgress := default no_progress (layer_progress_ s !! l).
Definition called_pools (m : gmap Z LayerProgress) : Z := Z.of_nat (size (filter (λ lp : Z * LayerProgress, on_layer_received_called lp.2 = true) m)).
(** The section of CompleteIncomingPush that counts a stream.  [senders]: what the
    delegate declared, where no plan does.  [Ok true]: the array is to be reported. *)
Definition count_push (num_shards num_layers l remote num_streams shards : Z) (spec : option PoolPushProgressSpec) (is_peregrine : bool)
    (senders : option Z) (s : Pushes) : StatusOr bool * Pushes :=
  let p := progress_of l s in
  let p := if bool_decide (spec = None) && negb (expected_senders_resolved p) then with_expected senders p else p in
  let senders := expected_senders p in
  let p := with_completed_chunks (completed_chunks p + 1) p in
  let full_shards := Z.max 1 num_shards in
  let '(complete, p) :=
    match spec with
    | Some spec => count_plan (expected_pushes spec) full_shards remote shards p
    | None =>
        if is_peregrine then count_posts senders full_shards remote shards p
        else match senders with
             | Some senders => count_streams senders num_streams remote p
             | None => (Ok (completed_chunks p =? num_streams), p)
             end
    end in
  match complete with
  | Err c => (Err c, mkPushes (<[l := p]> (layer_progress_ s)) (done_ s))
  | Ok array_complete =>
      if array_complete && negb (on_layer_received_called p) then
        let m := <[l := with_called p]> (layer_progress_ s) in
        let retired :=
          match spec with
          | Some spec => called_pools m =? expected_pools spec
          | None => forallb (λ layer, match m !! layer with Some p => on_layer_received_called p | None => false end) (seqZ 0 num_layers)
          end in
        (Ok true, mkPushes m (done_ s || retired))
      else (Ok false, mkPushes (<[l := p]> (layer_progress_ s)) (done_ s))
  end.

(** ** Plan-declared pools

    A landing: a pool, the sender and the shards its stream carried. *)
Abbreviation Landing := (Z * Z * Z)%type.
Section plan.
Context (num_shards num_layers : Z) (specs : Z → PoolPushProgressSpec).
Abbreviation full := (Z.max 1 num_shards).
Definition land (s : Pushes) (x : Landing) : StatusOr bool * Pushes :=
  let '(l, remote, shards) := x in count_push num_shards num_layers l remote 1 shards (Some (specs l)) true None s.
(** The answers to a sequence of landings, and the session after it. *)
Fixpoint land_all (s : Pushes) (xs : list Landing) : list (StatusOr bool) * Pushes :=
  match xs with
  | [] => ([], s)
  | x :: xs => let '(r, s) := land s x in let '(rs, s) := land_all s xs in (r :: rs, s)
  end.
(** Shards of pool [l] that sender [r] has landed. *)
Definition carried (shards : Z) : Z := if shards =? 0 then full else shards.
Fixpoint total (l r : Z) (xs : list Landing) : Z :=
  match xs with
  | [] => 0
  | (l', r', shards) :: xs => (if decide (l' = l ∧ r' = r) then carried shards else 0) + total l r xs
  end.
Lemma total_app l r xs ys : total l r (xs ++ ys) = total l r xs + total l r ys.
Proof. induction xs as [|[[l' r'] sh] xs IH]; cbn; [done|]. rewrite IH. lia. Qed.
Lemma total_nonneg l r xs : Forall (λ x : Landing, 0 <= x.2 <= full) xs → 0 <= total l r xs.
Proof. induction 1 as [|[[l' r'] sh] xs Hx _ IH]; [done|]. cbn [total]. cbn [snd] in Hx. unfold carried. case_decide; [|lia]. destruct (Z.eqb_spec sh 0); lia. Qed.

Lemma sum_of_ext (f g : Z → Z) l : (∀ r, r ∈ l → f r = g r) → sum_of f l = sum_of g l.
Proof. induction l as [|r l IH]; intros H; cbn; [done|]. rewrite (H r), IH by set_solver. done. Qed.
Lemma sum_of_zero (l : list Z) : sum_of (λ _, 0) l = 0.
Proof. induction l as [|r l IH]; cbn; [done|]. by rewrite IH. Qed.
Lemma sum_of_le (f g : Z → Z) l : (∀ r, r ∈ l → f r <= g r) → sum_of f l <= sum_of g l ∧ (sum_of f l = sum_of g l ↔ ∀ r, r ∈ l → f r = g r).
Proof.
  induction l as [|r l IH]; intros H; cbn; [split; [done|]; split; [set_solver|done]|]. destruct IH as [H1 H2]; [set_solver|]. pose proof (H r ltac:(set_solver)) as Hr.
  split; [lia|]. split.
  - intros E. assert (f r = g r ∧ sum_of f l = sum_of g l) as [E1 E2] by lia. intros q [->|Hq]%elem_of_cons; [done|]. by apply H2.
  - intros Hall. rewrite (Hall r) by set_solver. f_equal. apply H2. set_solver.
Qed.
(** The pushes counted are those of any set of senders that contains all seen. *)
Lemma plan_pushes_over p X :
  dom (sender_streams p) ⊆ X → plan_pushes p = sum_of (λ r, landed (streams_of r p)) (elements X).
Proof.
  intros Hsub. unfold plan_pushes, streams_of. set (m := sender_streams p) in *. clearbody m. revert X Hsub. induction m as [|k st m Hk IH] using map_ind; intros X Hsub.
  - rewrite map_to_list_empty. cbn. rewrite (sum_of_ext _ (λ _, 0)) by (intros; by rewrite lookup_empty). by rewrite sum_of_zero.
  - rewrite dom_insert_L in Hsub. rewrite map_to_list_insert by done. cbn.
    assert (X = {[k]} ∪ (X ∖ {[k]})) as EX by (apply set_eq; intros r; destruct (decide (r = k)); set_solver).
    rewrite EX, elements_union_singleton by set_solver. cbn. rewrite lookup_insert_eq. cbn. f_equal.
    rewrite (IH (X ∖ {[k]})) by (apply not_elem_of_dom in Hk; set_solver). apply sum_of_ext. intros r Hr%elem_of_elements. rewrite lookup_insert_ne by set_solver. done.
Qed.
(** ** What the counters hold *)
Definition tracks (xs : list Landing) (s : Pushes) : Prop :=
  ∀ l r, landed (streams_of r (progress_of l s)) = total l r xs / full ∧ landed_shards (streams_of r (progress_of l s)) = total l r xs `mod` full.
Definition seen_by (xs : list Landing) (s : Pushes) : Prop := ∀ l r, r ∈ dom (sender_streams (progress_of l s)) → ∃ sh, (l, r, sh) ∈ xs.
Lemma land_cases s l r sh :
  let p := with_streams r (AccumulateLandedShards (streams_of r (progress_of l s)) sh full).2 (with_completed_chunks (completed_chunks (progress_of l s) + 1) (progress_of l s)) in
  land s (l, r, sh) =
    if expected_pushes (specs l) <? plan_pushes p then (Err kAlreadyExists, mkPushes (<[l := p]> (layer_progress_ s)) (done_ s))
    else if (plan_pushes p =? expected_pushes (specs l)) && negb (on_layer_received_called p)
         then let m := <[l := with_called p]> (layer_progress_ s) in (Ok true, mkPushes m (done_ s || (called_pools m =? expected_pools (specs l))))
         else (Ok false, mkPushes (<[l := p]> (layer_progress_ s)) (done_ s)).
Proof.
  intros p. unfold land, count_push, count_plan. rewrite bool_decide_false by done. cbn [andb].
  change (streams_of r (with_completed_chunks ?v (progress_of l s))) with (streams_of r (progress_of l s)). fold p.
  by destruct (expected_pushes (specs l) <? plan_pushes p).
Qed.
(** The progress of an array after a landing, whatever the answer. *)
Lemma land_progress s l r sh l' :
  let p := progress_of l s in
  sender_streams (progress_of l' (land s (l, r, sh)).2) =
    if decide (l' = l) then <[r := (AccumulateLandedShards (streams_of r p) sh full).2]> (sender_streams p) else sender_streams (progress_of l' s).
Proof.
  intros p. rewrite land_cases. fold p. set (q := with_streams _ _ _). unfold progress_of.
  destruct (_ <? _); [|destruct (_ && _)]; cbn; (case_decide as Hl; [subst l'; by rewrite lookup_insert_eq|by rewrite lookup_insert_ne]).
Qed.
Lemma tracks_land xs s l r sh :
  0 <= sh <= full → tracks xs s → tracks (xs ++ [(l, r, sh)]) (land s (l, r, sh)).2.
Proof.
  intros Hsh Ht l' r'. unfold streams_of. rewrite land_progress, total_app. cbn [total]. rewrite Z.add_0_r. case_decide as Hl.
  - subst l'. destruct (decide (r' = r)) as [->|Hr].
    + rewrite lookup_insert_eq, decide_True by done. cbn [default AccumulateLandedShards snd landed landed_shards]. destruct (Ht l r) as [H1 H2]. rewrite H1, H2.
      fold (carried sh). split; [|by rewrite Zplus_mod_idemp_l].
      replace (total l r xs + carried sh) with (total l r xs / full * full + (total l r xs `mod` full + carried sh))
        by (pose proof (Z.div_mod (total l r xs) full ltac:(lia)); lia).
      by rewrite Z.div_add_l by lia.
    + rewrite lookup_insert_ne by done. rewrite decide_False by naive_solver. rewrite Z.add_0_r. exact (Ht l r').
  - rewrite decide_False by naive_solver. rewrite Z.add_0_r. exact (Ht l' r').
Qed.
Lemma seen_land xs s l r sh : seen_by xs s → seen_by (xs ++ [(l, r, sh)]) (land s (l, r, sh)).2.
Proof.
  intros Hs l' r'. rewrite land_progress. case_decide as Hl; [subst l'; rewrite dom_insert_L; intros [->%elem_of_singleton|Hr]%elem_of_union|intros Hr].
  - exists sh. set_solver.
  - destruct (Hs l r' Hr) as [sh' ?]. exists sh'. set_solver.
  - destruct (Hs l' r' Hr) as [sh' ?]. exists sh'. set_solver.
Qed.

(** ** A pool is reported when every sender's shards have landed *)
Section quotas.
(** The pools of a plan, the senders of each, and how many pushes each sender makes. *)
Context (pools : gset Z) (senders : Z → gset Z) (quota : Z → Z → Z).
Context (Hpools : pools ≠ ∅) (Hspec : ∀ l, l ∈ pools → 0 < expected_pushes (specs l) ∧ expected_pushes (specs l) = sum_of (quota l) (elements (senders l)) ∧
  expected_pools (specs l) = Z.of_nat (size pools)).
Definition within_quota (xs : list Landing) : Prop :=
  Forall (λ x : Landing, x.1.1 ∈ pools ∧ x.1.2 ∈ senders x.1.1 ∧ 0 <= x.2 <= full) xs ∧ ∀ l r, r ∈ senders l → total l r xs <= quota l r * full.
Definition complete (l : Z) (xs : list Landing) : Prop := ∀ r, r ∈ senders l → total l r xs = quota l r * full.
Record reported (xs : list Landing) (s : Pushes) : Prop := {
  rp_tracks : tracks xs s;
  rp_seen : seen_by xs s;
  rp_dom : dom (layer_progress_ s) ⊆ pools;
  rp_called : ∀ l, l ∈ pools → on_layer_received_called (progress_of l s) = true ↔ complete l xs;
  rp_done : done_ s = true ↔ ∀ l, l ∈ pools → complete l xs;
}.
Lemma within_quota_prefix xs ys : within_quota (xs ++ ys) → within_quota xs.
Proof.
  intros [H1 H2]. apply Forall_app in H1 as [H1 H3]. split; [done|]. intros l r Hr. specialize (H2 l r Hr). rewrite total_app in H2.
  assert (Forall (λ x : Landing, 0 <= x.2 <= full) ys) as Hy by (eapply Forall_impl; [exact H3|naive_solver]). pose proof (total_nonneg l r ys Hy). lia.
Qed.
Lemma complete_app l xs ys : within_quota (xs ++ ys) → complete l xs → complete l (xs ++ ys).
Proof.
  intros [H1 H2] Hc r Hr. specialize (H2 l r Hr). specialize (Hc r Hr). rewrite total_app in *. apply Forall_app in H1 as [_ H1].
  assert (Forall (λ x : Landing, 0 <= x.2 <= full) ys) as Hy by (eapply Forall_impl; [exact H1|naive_solver]). pose proof (total_nonneg l r ys Hy). lia.
Qed.
Lemma complete_other l l' r sh xs : l ≠ l' → complete l (xs ++ [(l', r, sh)]) ↔ complete l xs.
Proof. intros Hl. unfold complete. setoid_rewrite total_app. cbn. setoid_rewrite decide_False; [|naive_solver]. setoid_rewrite Z.add_0_r. done. Qed.
Lemma incomplete_nil l : l ∈ pools → ¬ complete l [].
Proof.
  intros [H1 [H2 _]]%Hspec Hc. rewrite H2 in H1. rewrite (sum_of_ext _ (λ _, 0)) in H1; [rewrite sum_of_zero in H1; lia|].
  intros r Hr%elem_of_elements. specialize (Hc r Hr). cbn in Hc. nia.
Qed.
(** The pushes counted for a pool after [xs]. *)
Lemma counted_pushes l xs p :
  l ∈ pools → within_quota xs → (∀ r, landed (streams_of r p) = total l r xs / full) → (∀ r, r ∈ dom (sender_streams p) → r ∈ senders l) →
  plan_pushes p <= expected_pushes (specs l) ∧ (plan_pushes p = expected_pushes (specs l) ↔ complete l xs).
Proof.
  intros Hl [_ Ha] Hp Hd. destruct (Hspec l Hl) as (_ & -> & _). rewrite (plan_pushes_over p (senders l)) by (intros r; apply Hd).
  destruct (sum_of_le (λ r, landed (streams_of r p)) (quota l) (elements (senders l))) as [H1 H2].
  - intros r Hr%elem_of_elements. rewrite Hp. apply Z.div_le_upper_bound; [lia|]. rewrite Z.mul_comm. auto.
  - split; [done|]. rewrite H2. unfold complete. setoid_rewrite elem_of_elements. setoid_rewrite Hp. apply forall_proper; intros r. split.
    + intros H Hr. specialize (H Hr). specialize (Ha l r Hr). pose proof (Z.mul_div_le (total l r xs) full ltac:(lia)). nia.
    + intros H Hr. rewrite (H Hr). by rewrite Z.div_mul by lia.
Qed.
Lemma called_all m : dom m ⊆ pools →
  called_pools m = Z.of_nat (size pools) ↔ ∀ l, l ∈ pools → ∃ p, m !! l = Some p ∧ on_layer_received_called p = true.
Proof.
  intros Hd. unfold called_pools. set (F := filter _ m). rewrite <- (size_dom F). assert (dom F ⊆ pools) as HF. { etrans; [|exact Hd]. apply dom_filter_subseteq. }
  assert (∀ l, l ∈ dom F ↔ ∃ p, m !! l = Some p ∧ on_layer_received_called p = true) as Hin. { intros l. unfold F. rewrite elem_of_dom. unfold is_Some. setoid_rewrite map_lookup_filter_Some. naive_solver. }
  setoid_rewrite <- Hin. split.
  - intros Hs. assert (dom F = pools) as ->; [|done]. apply set_subseteq_size_eq; [done|lia].
  - intros H. do 2 f_equal. apply set_eq. set_solver.
Qed.
Lemma progress_insert l l' p m d : progress_of l (mkPushes (<[l' := p]> m) d) = if decide (l = l') then p else progress_of l (mkPushes m d).
Proof. unfold progress_of. cbn. case_decide; [subst; by rewrite lookup_insert_eq|by rewrite lookup_insert_ne]. Qed.
Lemma called_lookup l s : (∃ p, layer_progress_ s !! l = Some p ∧ on_layer_received_called p = true) ↔ on_layer_received_called (progress_of l s) = true.
Proof. unfold progress_of. destruct (layer_progress_ s !! l); cbn; naive_solver. Qed.
(** The landing that completes a pool, *)
Lemma reported_trigger xs s l r sh p d :
  let xs' := xs ++ [(l, r, sh)] in let m := <[l := with_called p]> (layer_progress_ s) in
  reported xs s → l ∈ pools → complete l xs' → ¬ complete l xs → tracks xs' (mkPushes m d) → seen_by xs' (mkPushes m d) →
  d = done_ s || (called_pools m =? expected_pools (specs l)) → reported xs' (mkPushes m d).
Proof using Hpools Hspec.
  intros xs' m [Ht Hs Hd Hc Hdn] Hl Hnow Hbefore Ht' Hs' Ed.
  assert (dom m ⊆ pools) as Hdm by (unfold m; rewrite dom_insert_L; set_solver).
  assert (∀ l', l' ∈ pools → on_layer_received_called (progress_of l' (mkPushes m d)) = true ↔ complete l' xs') as Hc'.
  { intros l' Hl'. unfold m. rewrite progress_insert. case_decide as Hll; [subst l'; by cbn|]. unfold xs'. rewrite complete_other by done. by apply (Hc l'). }
  split; [done|done|done|done|]. cbn. destruct (done_ s) eqn:Edn; [destruct Hbefore; by apply Hdn|]. rewrite Ed, (proj2 (proj2 (Hspec l Hl))). cbn. rewrite Z.eqb_eq, called_all by done.
  split; intros H l' Hl'; [|].
  - apply Hc'; [done|]. apply called_lookup. by apply H.
  - apply (called_lookup l' (mkPushes m d)). by apply Hc', H.
Qed.
(** and any other. *)
Lemma reported_quiet xs s l r sh p :
  let xs' := xs ++ [(l, r, sh)] in let m := <[l := p]> (layer_progress_ s) in
  reported xs s → within_quota xs' → l ∈ pools → on_layer_received_called p = on_layer_received_called (progress_of l s) → (complete l xs' → complete l xs) →
  tracks xs' (mkPushes m (done_ s)) → seen_by xs' (mkPushes m (done_ s)) → reported xs' (mkPushes m (done_ s)).
Proof.
  intros xs' m [Ht Hs Hd Hc Hdn] Ha Hl Ep Hsame Ht' Hs'.
  assert (∀ l', complete l' xs' ↔ complete l' xs) as Hcc.
  { intros l'. destruct (decide (l' = l)) as [->|]; [split; [done|by apply complete_app]|]. by apply complete_other. }
  split; [done|done|unfold m; cbn; rewrite dom_insert_L; set_solver| |cbn; setoid_rewrite Hcc; done].
  intros l' Hl'. rewrite Hcc, <- (Hc l' Hl'). unfold m. rewrite progress_insert. case_decide; [subst l'; by rewrite Ep|done].
Qed.
(** A landing is counted, and reports its pool when it is the one that completes it. *)
Lemma reported_land xs s l r sh :
  within_quota (xs ++ [(l, r, sh)]) → reported xs s →
  let '(a, s') := land s (l, r, sh) in
  reported (xs ++ [(l, r, sh)]) s' ∧ (∃ b, a = Ok b ∧ (b = true ↔ complete l (xs ++ [(l, r, sh)]) ∧ ¬ complete l xs)).
Proof using Hpools Hspec.
  intros Ha [Ht Hs Hd Hc Hdn]. pose proof Ha as [HF _]. apply Forall_app in HF as [HF [[Hl [Hr Hsh]] _]%Forall_cons]. cbn in Hl, Hr.
  pose proof (tracks_land xs s l r sh Hsh Ht) as Ht'. pose proof (seen_land xs s l r sh Hs) as Hs'. rewrite land_cases in *.
  set (p := with_streams _ _ _) in *. set (xs' := xs ++ _) in *.
  assert (plan_pushes p <= expected_pushes (specs l) ∧ (plan_pushes p = expected_pushes (specs l) ↔ complete l xs')) as [Hle Heq].
  { apply counted_pushes; [done|done| |].
    - intros q. specialize (Ht' l q) as [Ht' _]. revert Ht'. destruct (_ <? _); [|destruct (_ && _)]; cbn [snd]; rewrite progress_insert, decide_True; done.
    - intros q Hq. assert (∃ sh', (l, q, sh') ∈ xs') as [sh' Hin].
      { apply (Hs' l). destruct (_ <? _); [|destruct (_ && _)]; cbn [snd]; rewrite progress_insert, decide_True; done. }
      destruct Ha as [Ha _]. rewrite Forall_forall in Ha. by apply (Ha _ Hin). }
  destruct (Z.ltb_spec (expected_pushes (specs l)) (plan_pushes p)); [lia|].
  assert (on_layer_received_called p = true ↔ complete l xs) as Hcp by (by rewrite <- (Hc l Hl)).
  destruct (Z.eqb_spec (plan_pushes p) (expected_pushes (specs l))) as [E|E], (on_layer_received_called p) eqn:Ep; cbn in Ht', Hs' |- *.
  2: { split; [|exists true; split; [done|]; split; [|done]; intros _; split; [by apply Heq|by rewrite <- Hcp]].
       eapply reported_trigger; [by split|done|by apply Heq|by rewrite <- Hcp|done..]. }
  all: split; [apply reported_quiet; [by split|done|done|done| |done|done]|exists false; split; [done|]; split; [done|]]; tauto.
Qed.
(** How often a sequence of landings reports a pool. *)
Definition reports (l : Z) (xs : list Landing) (answers : list (StatusOr bool)) : Z :=
  Z.of_nat (length (filter (λ xa : Landing * StatusOr bool, xa.1.1.1 = l ∧ xa.2 = Ok true) (zip xs answers))).
Definition bitZ (b : bool) : Z := if b then 1 else 0.
Lemma land_all_reported ys s xs :
  within_quota (ys ++ xs) → reported ys s →
  let '(answers, s') := land_all s xs in
  reported (ys ++ xs) s' ∧ Forall (λ a, is_ok a = true) answers ∧
  ∀ l, l ∈ pools → reports l xs answers = bitZ (on_layer_received_called (progress_of l s')) - bitZ (on_layer_received_called (progress_of l s)).
Proof using Hpools Hspec.
  revert ys s; induction xs as [|[[l r] sh] xs IH]; intros ys s Ha Hr; cbn [land_all].
  { rewrite app_nil_r in *. split; [done|]. split; [constructor|]. intros l _. unfold reports. cbn. lia. }
  rewrite (cons_middle _ ys xs) in Ha. rewrite app_assoc in Ha. pose proof (within_quota_prefix _ _ Ha) as Ha1.
  pose proof (reported_land ys s l r sh Ha1 Hr) as H1. destruct (land s (l, r, sh)) as [a s1]. destruct H1 as (Hr1 & b & -> & Hb).
  specialize (IH _ s1 Ha Hr1). destruct (land_all s1 xs) as [answers s2]. destruct IH as (Hr2 & Hok & Hrep).
  rewrite (cons_middle _ ys xs), app_assoc. split; [done|]. split; [by constructor|]. intros l' Hl'. specialize (Hrep l' Hl'). unfold reports in *. cbn [zip_with]. rewrite filter_cons.
  pose proof (rp_called _ _ Hr l' Hl') as C0. pose proof (rp_called _ _ Hr1 l' Hl') as C1. pose proof (complete_app l' ys [(l, r, sh)] Ha1) as Hmono.
  assert (bitZ (on_layer_received_called (progress_of l' s1)) = bitZ (on_layer_received_called (progress_of l' s)) + (if decide (l = l' ∧ Ok b = Ok true) then 1 else 0)) as E.
  { case_decide as D.
    - destruct D as [-> [= ->]]. destruct Hb as [Hb _]. destruct (Hb eq_refl) as [Hb1 Hb2]. rewrite <- C1 in Hb1. rewrite <- C0 in Hb2. rewrite Hb1. by destruct (on_layer_received_called (progress_of l' s)).
    - destruct (decide (l = l')) as [->|Hne]; [|rewrite complete_other in C1 by done; destruct (on_layer_received_called (progress_of l' s1)), (on_layer_received_called (progress_of l' s)); cbn; naive_solver].
      assert (b = false) as -> by (destruct b; naive_solver). destruct Hb as [_ Hb].
      destruct (on_layer_received_called (progress_of l' s1)), (on_layer_received_called (progress_of l' s)); cbn; naive_solver. }
  cbn [fst snd] in *. case_decide; cbn [length]; lia.
Qed.
Lemma reported_start : reported [] (mkPushes ∅ false).
Proof using Hpools Hspec.
  split.
  - intros l r. unfold progress_of, streams_of. cbn. rewrite !lookup_empty. cbn. rewrite lookup_empty. cbn. rewrite Z.div_0_l, Z.mod_0_l by lia. done.
  - intros l r. unfold progress_of. cbn. rewrite lookup_empty. cbn. set_solver.
  - cbn. set_solver.
  - intros l Hl. unfold progress_of. cbn. rewrite lookup_empty. cbn. split; [done|]. by intros ?%incomplete_nil.
  - cbn. split; [done|]. intros H. apply set_choose_L in Hpools as [l Hl]. by destruct (incomplete_nil l Hl (H l Hl)).
Qed.
End quotas.
End plan.
