(* ===== verification/PushReport.v ===== *)
(** * PushReport: pools are reported when their pushes have landed
    (src/tpu_sync/transport/block_transport_session.cc with the checks of
    kv_cache/reshard_receive_session.cc)

    The pushes a receive plan announces for a pool are what its schedules give each sender
    to push, so the transport reports a pool to the receive session exactly when every
    sender's shards of it have landed, once. *)

From S2P Require Import Prelude RaidenTypes PoolLayout PoolReshardPlanner WireTypes TransferPlan SessionThreads ReshardChecks ReshardCoverage ReshardPlanExamples ReshardSend PushProgress.

(** The pushes sender [r] makes of pool [l]: its distinct pairs, at most the parallelism. *)
Definition scheduled_pushes (plan : StartTransferRequest) (l r : Z) : Z :=
  Z.min (st_parallelism plan) (Z.of_nat (size (group_pairs (pool_group_index plan l) (default [] (push_schedules plan !! r))))).

Lemma calculated_pushes_sum plan g :
  calculated_pushes plan g = sum_of (λ r, Z.min (st_parallelism plan) (Z.of_nat (size (group_pairs g (default [] (push_schedules plan !! r)))))) (elements (dom (push_schedules plan))).
Proof.
  unfold calculated_pushes. generalize (push_schedules plan). intros m. 
  assert (∀ l : list (Z * list ScheduleEntry), (∀ k es, (k, es) ∈ l → m !! k = Some es) →
    foldr (λ (re : Z * list ScheduleEntry) n, Z.min (st_parallelism plan) (Z.of_nat (size (group_pairs g re.2))) + n) 0 l =
    sum_of (λ r, Z.min (st_parallelism plan) (Z.of_nat (size (group_pairs g (default [] (m !! r)))))) l.*1) as H.
  { induction l as [|[k es] l IH]; intros Hl; cbn; [done|]. rewrite IH by (intros; apply Hl; set_solver). by rewrite (Hl k es) by set_solver. }
  rewrite H by (intros k es; apply elem_of_map_to_list). apply sum_of_perm, NoDup_Permutation; [apply NoDup_fst_map_to_list|apply NoDup_elements|].
  intros k. rewrite elem_of_elements, elem_of_dom, list_elem_of_fmap. split.
  - intros ([k' es] & -> & ?%elem_of_map_to_list). by eexists.
  - intros [es Hes]. exists (k, es). split; [done|]. by apply elem_of_map_to_list.
Qed.
(** The transferred pools of an accepted plan are distinct, and each is in a group. *)
Lemma receiver_plan_pools base plan chip_blocks :
  receiver_ValidatePlan base plan chip_blocks = Some OkStatus →
  st_transfer_pool_indices plan ≠ [] ∧ NoDup (st_transfer_pool_indices plan) ∧ Forall (λ l, 0 <= l ∧ l ∈ st_pool_groups plan ≫= gp_pool_indices) (st_transfer_pool_indices plan) ∧
  Forall (λ g, 0 < gp_expected_pushes g) (st_pool_groups plan).
Proof.
  unfold receiver_ValidatePlan. destruct (ValidateCommonPoolReshardPlan _ _ _) eqn:Ec; [|done]. unfold ValidateCommonPoolReshardPlan in Ec.
  destruct (_ && _) eqn:Eb in Ec; [|done]. repeat (apply andb_true_iff in Eb as [Eb ?]).
  assert (st_transfer_pool_indices plan ≠ []) as Hne by (by eapply bool_decide_eq_false, negb_true_iff).
  assert (NoDup (st_transfer_pool_indices plan)) as Hnd by (by eapply bool_decide_eq_true).
  assert (forallb (λ g, 0 <? gp_expected_pushes g) (st_pool_groups plan) = true) as Hexp by done. clear -Hne Hnd Hexp.
  destruct (negb _); [done|]. destruct (ValidatePoolBlockBounds _ _ _); [|done].
  destruct (all_true _) as [[]|]; [|done..]. cbn. destruct (negb _); [done|]. unfold ValidateReceiverCoverage. destruct (negb (_ && _)) eqn:Eg; [done|].
  destruct (negb (_ && _)) eqn:Et in |- *; [done|]. intros _. apply negb_false_iff, andb_true_iff in Eg as [Hpos _]. apply negb_false_iff, andb_true_iff in Et as [_ Hin].
  split_and!; [done|done| |].
  - apply Forall_forall. intros l Hl. rewrite forallb_forall in Hin, Hpos. specialize (Hin l). rewrite <- list_elem_of_In in Hin. specialize (Hin Hl). apply bool_decide_eq_true in Hin.
    split; [|done]. specialize (Hpos l). rewrite <- list_elem_of_In in Hpos. specialize (Hpos Hin). lia.
  - apply Forall_forall. intros g Hg. rewrite forallb_forall in Hexp. specialize (Hexp g). rewrite <- list_elem_of_In in Hexp. specialize (Hexp Hg). lia.
Qed.
(** The group of a pool, for the plan's queries and for its schedules. *)
Lemma find_group plan l group :
  find (λ g, bool_decide (l ∈ gp_pool_indices g)) (st_pool_groups plan) = Some group →
  at_index (st_pool_groups plan) (pool_group_index plan l) = Some group.
Proof.
  unfold pool_group_index. intros H. assert (∃ i, list_find (λ g, l ∈ gp_pool_indices g) (st_pool_groups plan) = Some (i, group)) as [i Hi].
  { revert H. induction (st_pool_groups plan) as [|g gs IH]; cbn; [done|]. case_bool_decide as Hb.
    - intros [= ->]. exists 0%nat. by rewrite decide_True.
    - intros [i Hi]%IH. exists (S i). rewrite decide_False by done. by rewrite Hi. }
  rewrite Hi. apply list_find_Some in Hi as (Hi & _). unfold at_index. rewrite Nat2Z.id. by destruct (Z.leb_spec 0 (Z.of_nat i)); [|lia].
Qed.

Section accepted.
Context (base : ManagerBase) (plan : StartTransferRequest) (chip_blocks : list Z) (tp : TransferPlan) (specs : Z → PoolPushProgressSpec) (num_layers : Z).
Context (Hvalid : receiver_ValidatePlan base plan chip_blocks = Some OkStatus).
Context (Htp : Create plan false (num_pools base) (mb_explicit_pools base) (mb_pools base) ∅ = Ok tp).
(** The counts of a message fit its fields. *)
Context (Hint : Forall (λ g, gp_expected_pushes g < 2 ^ 31) (st_pool_groups plan) ∧ Forall (λ l, l < 2 ^ 31) (st_transfer_pool_indices plan)).
Context (Hspecs : ∀ l, l ∈ st_transfer_pool_indices plan → GetPoolPushProgressSpec tp l = Ok (Some (specs l))).
Lemma plan_specs l :
  l ∈ st_transfer_pool_indices plan →
  0 < expected_pushes (specs l) ∧ expected_pushes (specs l) = sum_of (scheduled_pushes plan l) (elements (dom (push_schedules plan))) ∧
  expected_pools (specs l) = Z.of_nat (size (list_to_set (C := gset Z) (st_transfer_pool_indices plan))).
Proof using Hvalid Htp Hint Hspecs.
  intros Hl. destruct (receiver_plan_pools _ _ _ Hvalid) as (_ & Hnd & Hin & Hpos). destruct Hint as [Hi1 Hi2].
  destruct (receiver_plan_inv _ _ _ Hvalid) as (_ & _ & states & covered & _ & _ & Hgc). specialize (Hspecs l Hl).
  rewrite Forall_forall in Hin. rewrite Forall_forall in Hpos. rewrite Forall_forall in Hi1. rewrite Forall_forall in Hi2. destruct (Hin l Hl) as [Hl0 _]. specialize (Hi2 l Hl).
  assert (request_ tp = plan) as Er. { unfold Create in Htp. destruct (Validate _ _ _ _); [|done]. by injection Htp as <-. }
  unfold GetPoolPushProgressSpec in Hspecs. rewrite Er, (i32_small l) in Hspecs by lia. do 2 (destruct (negb _); [done|]).
  destruct (find _ _) as [group|] eqn:Ef; [|done]. injection Hspecs as <-. cbn. pose proof (find_group _ _ _ Ef) as Hg.
  assert (group ∈ st_pool_groups plan) as Hgin by (by apply find_some in Ef as [?%list_elem_of_In _]). specialize (Hpos group Hgin). specialize (Hi1 group Hgin).
  rewrite u64_small by lia. split; [done|]. specialize (Hgc _ _ Hg). apply andb_true_iff in Hgc as [Hgc%Z.eqb_eq _]. split.
  - rewrite <- Hgc, calculated_pushes_sum. by apply sum_of_ext.
  - by rewrite size_list_to_set.
Qed.
(** Every sender's shards of pool [l] are among the landings. *)
Definition all_landed (l : Z) (xs : list Landing) : Prop :=
  ∀ r, r ∈ dom (push_schedules plan) → total (mb_num_shards base) l r xs = scheduled_pushes plan l r * Z.max 1 (mb_num_shards base).
(** C18: The transport reports pools to a receive session exactly when they are complete:
    with senders that push no more than the accepted plan schedules for them, in any order
    and split over any streams, no stream is refused, a pool is reported when the last
    shard of the last sender has landed, once and never before, and the session is retired
    when all pools have been. *)
Theorem receiver_reports_complete_pools xs :
  Forall (λ x : Landing, x.1.1 ∈ st_transfer_pool_indices plan ∧ x.1.2 ∈ dom (push_schedules plan) ∧ 0 <= x.2 <= Z.max 1 (mb_num_shards base)) xs →
  (∀ l r, r ∈ dom (push_schedules plan) → total (mb_num_shards base) l r xs <= scheduled_pushes plan l r * Z.max 1 (mb_num_shards base)) →
  let '(answers, s) := land_all (mb_num_shards base) num_layers specs (mkPushes ∅ false) xs in
  Forall (λ a, is_ok a = true) answers ∧
  (∀ l, l ∈ st_transfer_pool_indices plan →
     (reports l xs answers = 1 ∧ all_landed l xs) ∨ (reports l xs answers = 0 ∧ ¬ all_landed l xs)) ∧
  (done_ s = true ↔ ∀ l, l ∈ st_transfer_pool_indices plan → all_landed l xs).
Proof using Hvalid Htp Hint Hspecs.
  intros HF Hq. set (pools := list_to_set (C := gset Z) (st_transfer_pool_indices plan)).
  assert (∀ l, l ∈ pools ↔ l ∈ st_transfer_pool_indices plan) as Hpl by (intros l; apply elem_of_list_to_set).
  assert (pools ≠ ∅) as Hne. { destruct (receiver_plan_pools _ _ _ Hvalid) as (Hne & _). destruct (st_transfer_pool_indices plan) as [|l k]; [done|]. unfold pools. set_solver. }
  assert (∀ l, l ∈ pools → _) as Hsp by (intros l Hl%Hpl; exact (plan_specs l Hl)).
  pose proof (land_all_reported (mb_num_shards base) num_layers specs pools (λ _, dom (push_schedules plan)) (scheduled_pushes plan) Hne Hsp [] (mkPushes ∅ false) xs) as H.
  destruct (land_all _ _ _ _ _) as [answers s]. destruct H as (Hr & Hok & Hrep).
  - split; [|done]. eapply Forall_impl; [exact HF|]. intros x. by rewrite Hpl.
  - eapply reported_start; [exact Hne|exact Hsp].
  - split; [done|]. destruct Hr as [_ _ _ Hc Hd]. cbn [app] in *. split.
    + intros l Hl%Hpl. specialize (Hrep l Hl). specialize (Hc l Hl). unfold progress_of at 2 in Hrep. cbn in Hrep. rewrite lookup_empty in Hrep. cbn in Hrep.
      destruct (on_layer_received_called (progress_of l s)); [left|right]; (split; [rewrite Hrep; cbn; lia|]); [by apply Hc|intros Hall; by apply Hc in Hall].
    + rewrite Hd. by setoid_rewrite Hpl.
Qed.
End accepted.

Definition tp_ex : TransferPlan := match Create recv_plan_ex false 2 true (mb_pools (base_ex 2)) ∅ with Ok p => p | Err _ => mkTransferPlan recv_plan_ex false ∅ ∅ ∅ end.
Definition specs_ex (l : Z) : PoolPushProgressSpec := mkProgressSpec (if l =? 0 then 2 else 1) 2.
(** Pool 1 is complete, pool 0 lacks its second sender. *)
Definition landings_ex : list Landing := [(0, 0, 1); (1, 0, 0)].
Lemma senders_ex r : r ∈ dom (push_schedules recv_plan_ex) → r = 0 ∨ r = 1.
Proof. unfold push_schedules. rewrite dom_fmap_L. cbn. rewrite !dom_insert_L. set_solver. Qed.
Lemma landings_ex_ok :
  Forall (λ x : Landing, x.1.1 ∈ st_transfer_pool_indices recv_plan_ex ∧ x.1.2 ∈ dom (push_schedules recv_plan_ex) ∧ 0 <= x.2 <= Z.max 1 (mb_num_shards (base_ex 2))) landings_ex.
Proof. repeat (apply Forall_cons; split; [split; [cbn; set_solver|split; [|cbn; lia]]|]); [..|done]; cbn; apply elem_of_dom; by eexists. Qed.
Lemma landings_ex_quota l r :
  r ∈ dom (push_schedules recv_plan_ex) → total (mb_num_shards (base_ex 2)) l r landings_ex <= scheduled_pushes recv_plan_ex l r * Z.max 1 (mb_num_shards (base_ex 2)).
Proof.
  intros Hr%senders_ex. unfold landings_ex. cbn [total]. unfold scheduled_pushes.
  destruct (decide (l = 0)) as [->|H0]; [destruct Hr as [-> | ->]; vm_compute; discriminate|].
  destruct (decide (l = 1)) as [->|H1]; [destruct Hr as [-> | ->]; vm_compute; discriminate|].
  rewrite !decide_False by naive_solver. cbn. lia.
Qed.
Lemma receiver_reports_complete_pools_witness :
  (reports 1 landings_ex (land_all 1 0 specs_ex (mkPushes ∅ false) landings_ex).1 = 1 ∧ all_landed (base_ex 2) recv_plan_ex 1 landings_ex) ∨
  (reports 1 landings_ex (land_all 1 0 specs_ex (mkPushes ∅ false) landings_ex).1 = 0 ∧ ¬ all_landed (base_ex 2) recv_plan_ex 1 landings_ex).
Proof.
  apply (proj1 (proj2 (receiver_reports_complete_pools (base_ex 2) recv_plan_ex [2; 3] tp_ex specs_ex 0 ltac:(vm_compute; reflexivity) ltac:(vm_compute; reflexivity)
    ltac:(split; repeat constructor) ltac:(intros l [->|[->|[]%elem_of_nil]%elem_of_cons]%elem_of_cons; vm_compute; reflexivity) landings_ex
    landings_ex_ok landings_ex_quota)) 1). right. left.
Defined.
