(* ===== verification/PushServer.v ===== *)
(** * PushServer: the operations a transport holds on a receive session
    (class BlockTransportServerPushSession, src/tpu_sync/transport/block_transport_session.cc)

    An incoming push counts as an operation of the session it lands in: BeginIncomingPush
    takes it, EndIncomingPush gives it back.  A stream over a socket holds its operation on
    its own stack.  The requests of a Peregrine post come in concurrently: the first one
    admits the post, the others wait for it, and the operation is kept in a lease until
    the post completes, is refused or is cancelled.  Leases are shared objects, so they are
    named by a number, and a thread may hold one that the map no longer has.  [ops] is the
    number of operations held, and [lease_key] the post a lease was made for; the code
    reads neither. *)

From S2P Require Import Prelude RaidenTypes SessionThreads.

(** [PostKey]: remote id, local id, shard mask. *)
Abbreviation PostKey := (Z * Z * Z)%type.
Inductive LeaseState := kAdmitting | kAdmitted | kReleased.
#[export] Instance LeaseState_eq_dec : EqDecision LeaseState.
Proof. solve_decision. Defined.
(** [session]: whether the lease holds an operation (a push of uuid 0 has no session).  The
    status of a lease only goes into log messages. *)
Record PostLease := mkLease { lease_key : PostKey; state : LeaseState; session : bool }.
Record Server := mkServer {
  done : bool;
  status : Status;
  posts : gmap PostKey nat;
  leases : gmap nat PostLease;
  ops : Z;
}.
Definition with_done v s := mkServer v (status s) (posts s) (leases s) (ops s).
Definition with_posts v s := mkServer (done s) (status s) v (leases s) (ops s).
Definition with_leases v s := mkServer (done s) (status s) (posts s) v (ops s).
Definition with_ops v s := mkServer (done s) (status s) (posts s) (leases s) v.

Definition settled (id : nat) (s : Server) : bool :=
  match leases s !! id with Some l => negb (bool_decide (state l = kAdmitting)) | None => true end.
Definition admitted (id : nat) (s : Server) : bool :=
  match leases s !! id with Some l => bool_decide (state l = kAdmitted) | None => false end.
Definition holds_op (id : nat) (s : Server) : bool := match leases s !! id with Some l => session l | None => false end.
(** The lease moves to [st]; its operation is moved out unless it stays admitted. *)
Definition set_lease (id : nat) (st : LeaseState) (op : bool) (s : Server) : Server :=
  match leases s !! id with Some l => with_leases (<[id := mkLease (lease_key l) st op]> (leases s)) s | None => s end.
Definition DropLeaseLocked (k : PostKey) (id : nat) (s : Server) : Server :=
  let s := set_lease id kReleased false s in
  if bool_decide (posts s !! k = Some id) then with_posts (delete k (posts s)) s else s.
Definition HasAdmittedPosts (s : Server) : bool := negb (bool_decide (posts s = ∅)).
(** EndIncomingPush on a session that is there. *)
Definition end_push (op : bool) : nat := if op then 1 else 0.

(** What the environment answers: BeginIncomingPush with the checks before it ([Ok true]:
    an operation was taken), whether a request or a post is fine, and whether the streams
    counted so far retire the session ([PushProgress]). *)
Inductive Env := Begin (r : StatusOr bool) | Result (r : Status) | Counted (retired : bool).
Inductive Action :=
  | Resolve (k : PostKey)                            (* ResolveRecvBuffer: a request of a post *)
  | AwaitOther (k : PostKey) (id : nat)              (* behind another request *)
  | Admit (k : PostKey) (id : nat)                   (* the first request *)
  | AdmitDone (k : PostKey) (id : nat) (r : StatusOr bool)
  | CheckRequest (k : PostKey)
  | Reject (k : PostKey)                             (* RejectPost *)
  | PostComplete (k : PostKey)                       (* OnPeregrinePostComplete *)
  | AwaitLease (k : PostKey) (id : nat)
  | FinishPost (held op : bool)
  | BeginPost
  | Count (op : bool)                                (* CompleteIncomingPush *)
  | Stream                                           (* StartStream *)
  | StreamBody (op : bool)
  | EndPush                                          (* EndIncomingPush *)
  | Cancel.                                          (* ReleaseAdmittedPosts *)
Definition EndPushes (op : bool) : list Action := replicate (end_push op) EndPush.

(** The first section of ResolveRecvBuffer. *)
Definition resolve (k : PostKey) (s : Server) : Server * list Action * list (list Action) :=
  if negb (is_ok (status s)) then (s, [], [])
  else match posts s !! k with
       | None =>
           if done s then (s, [], [])
           else
             let id := fresh (dom (leases s)) in
             (with_posts (<[k := id]> (posts s)) (with_leases (<[id := mkLease k kAdmitting false]> (leases s)) s), [Admit k id], [])
       | Some id => (s, [AwaitOther k id], [])
       end.
(** Its second section, after BeginIncomingPush. *)
Definition admit_done (k : PostKey) (id : nat) (r : StatusOr bool) (s : Server) : Server * list Action * list (list Action) :=
  match r with
  | Err _ => (DropLeaseLocked k id s, [], [])
  | Ok op =>
      if negb (is_ok (status s)) || done s
      then (DropLeaseLocked k id s, EndPushes op, [])
      else (set_lease id kAdmitted op s, [CheckRequest k], [])
  end.
Definition RejectPost (k : PostKey) (s : Server) : Server * list Action * list (list Action) :=
  match posts s !! k with
  | Some id => if admitted id s then (DropLeaseLocked k id s, EndPushes (holds_op id s), []) else (s, [], [])
  | None => (s, [], [])
  end.
(** The first section of OnPeregrinePostComplete, from its wait on: the operation is taken
    out of the lease; a session cancelled by then returns, without giving it back. *)
Definition take_lease (k : PostKey) (id : nat) (s : Server) : Server * list Action * list (list Action) :=
  let held := admitted id s in
  let op := held && holds_op id s in
  let s := if held then DropLeaseLocked k id s else s in
  if negb (is_ok (status s)) then (s, [], []) else (s, [FinishPost held op], []).
(** The posts that hold an operation, and all leases released. *)
Definition release_post (s : Server) (ki : PostKey * nat) : Server :=
  if admitted ki.2 s then set_lease ki.2 kReleased false s else s.
Definition ReleaseAdmittedPosts (s : Server) : Server * list Action * list (list Action) :=
  if done s && bool_decide (posts s = ∅) then (s, [], [])
  else
    let held := filter (λ ki : PostKey * nat, admitted ki.2 s && holds_op ki.2 s = true) (map_to_list (posts s)) in
    let s := foldl release_post s (map_to_list (posts s)) in
    (mkServer true (if is_ok (status s) then Err kCancelled else status s) ∅ (leases s) (ops s), replicate (length held) EndPush, []).

Definition act (x : Env) (s : Server) (a : Action) : option (Server * list Action * list (list Action)) :=
  match a with
  | Resolve k => Some (resolve k s)
  | AwaitOther k id =>
      if settled id s
      then Some (s, if is_ok (status s) && admitted id s then [CheckRequest k] else [], [])
      else None
  | Admit k id =>
      match x with
      | Begin r => Some (with_ops (ops s + match r with Ok true => 1 | _ => 0 end) s, [AdmitDone k id r], [])
      | _ => None
      end
  | AdmitDone k id r => Some (admit_done k id r s)
  | CheckRequest k => match x with Result (Ok _) => Some (s, [], []) | Result (Err _) => Some (s, [Reject k], []) | _ => None end
  | Reject k => Some (RejectPost k s)
  | PostComplete k =>
      if negb (is_ok (status s)) then Some (s, [], [])
      else Some (s, match posts s !! k with Some id => [AwaitLease k id] | None => [FinishPost false false] end, [])
  | AwaitLease k id => if settled id s then Some (take_lease k id s) else None
  | FinishPost held op =>
      match x with
      | Result (Ok _) => Some (s, if held then [Count op] else [BeginPost], [])
      | Result (Err _) => Some (s, EndPushes op, [])
      | _ => None
      end
  | BeginPost =>
      match x with
      | Begin (Ok op) => Some (with_ops (ops s + (if op then 1 else 0)) s, [Count op], [])
      | Begin (Err _) => Some (s, [], [])
      | _ => None
      end
  | Count op => match x with Counted retired => Some (with_done (done s || retired) s, EndPushes op, []) | _ => None end
  | Stream =>
      match x with
      | Begin (Ok op) => Some (with_ops (ops s + (if op then 1 else 0)) s, [StreamBody op], [])
      | Begin (Err _) => Some (s, [], [])
      | _ => None
      end
  | StreamBody op =>
      match x with
      | Counted retired => Some (with_done (done s || retired) s, EndPushes op, [])
      | Result (Err _) => Some (s, EndPushes op, [])
      | _ => None
      end
  | EndPush => Some (with_ops (ops s - 1) s, [], [])
  | Cancel => Some (ReleaseAdmittedPosts s)
  end.
Definition entry (s : Server) (a : Action) : bool :=
  match a with Resolve _ | PostComplete _ | Stream | Cancel => true | _ => false end.
Definition Server_new : Server := mkServer false OkStatus ∅ ∅ 0.
