(* ===== verification/PushServerFacts.v ===== *)
(** * PushServerFacts: every operation is given back
    (class BlockTransportServerPushSession, src/tpu_sync/transport/block_transport_session.cc)

    The operations held are those in leases and those on the stacks of threads; a lease
    that is being admitted has a thread that admits it. *)

From S2P Require Import Prelude RaidenTypes SessionThreads PushServer.

Definition carry (a : Action) : Z :=
  match a with
  | EndPush | AdmitDone _ _ (Ok true) | FinishPost _ true | Count true | StreamBody true => 1
  | _ => 0
  end.
Definition admitting (id : nat) (a : Action) : Z :=
  match a with Admit _ i | AdmitDone _ i _ => if decide (i = id) then 1 else 0 | _ => 0 end.
Definition named (s : Server) (a : Action) : Prop :=
  match a with
  | Admit k id | AdmitDone k id _ | AwaitOther k id | AwaitLease k id => ∃ l, leases s !! id = Some l ∧ lease_key l = k
  | FinishPost held op => op = true → held = true
  | _ => True
  end.
Definition in_leases (s : Server) : Z := Z.of_nat (count_map session (leases s)).
Definition unsettled (id : nat) (s : Server) : Z := if settled id s then 0 else 1.
Record balanced (s : Server) (acts : list Action) : Prop := {
  bl_ops : ops s = in_leases s + sum_of carry acts;
  bl_session : ∀ id l, leases s !! id = Some l → session l = true → state l = kAdmitted;
  bl_posts : ∀ k id, posts s !! k = Some id → ∃ l, leases s !! id = Some l ∧ lease_key l = k;
  bl_live : ∀ id l, leases s !! id = Some l → state l ≠ kReleased → is_ok (status s) = true → posts s !! lease_key l = Some id;
  bl_cancelled : ∀ id l, leases s !! id = Some l → state l = kAdmitted → is_ok (status s) = true;
  bl_admitting : ∀ id, sum_of (admitting id) acts = unsettled id s;
  bl_named : Forall (named s) acts;
}.
Lemma carry_nonneg a : 0 <= carry a.
Proof. destruct a as [| | |? ? [[]|]| | | | |? []| |[]| |[]| |]; cbn; lia. Qed.
Lemma admitting_nonneg id a : 0 <= admitting id a.
Proof. destruct a; cbn; try case_decide; lia. Qed.
Lemma named_mono s s' a :
  (∀ id l, leases s !! id = Some l → ∃ l', leases s' !! id = Some l' ∧ lease_key l' = lease_key l) → named s a → named s' a.
Proof. intros H. destruct a; cbn; try done; intros (l & Hl & Hk); destruct (H _ _ Hl) as (l' & Hl' & Hk'); exists l'; by rewrite Hk'. Qed.
Lemma carry_ends op : sum_of carry (EndPushes op) = if op then 1 else 0.
Proof. by destruct op. Qed.
Lemma admitting_ends id n : sum_of (admitting id) (replicate n EndPush) = 0.
Proof. induction n as [|n IH]; cbn; [done|]. by rewrite IH. Qed.
Lemma named_ends s n : Forall (named s) (replicate n EndPush).
Proof. induction n; by constructor. Qed.

Lemma balanced_perm s acts acts' : acts ≡ₚ acts' → balanced s acts → balanced s acts'.
Proof. intros HP [H1 H2 H3 H4 H5 H6 H7]. split; try done; [by rewrite <- HP|intros id; by rewrite <- HP|by rewrite <- HP]. Qed.
Lemma balanced_call s a others : entry s a = true → balanced s others → balanced s (a :: others).
Proof. intros He [H1 H2 H3 H4 H5 H6 H7]. destruct a; try done; split; cbn; try done; by constructor. Qed.
(** An action that leaves leases and map alone. *)
Lemma balanced_keep s s' a others l :
  balanced s (a :: others) → leases s' = leases s → posts s' = posts s → status s' = status s → ops s' + carry a = ops s + sum_of carry l →
  (∀ id, sum_of (admitting id) l = admitting id a) → Forall (named s) l → balanced s' (l ++ others).
Proof.
  intros [H1 H2 H3 H4 H5 H6 H7] El Ep Es Eo Ha Hn. cbn in *. split; rewrite ?El, ?Ep, ?Es; try done.
  - unfold in_leases in *. rewrite El, sum_of_app. lia.
  - intros id. specialize (H6 id). unfold unsettled, settled in *. rewrite El, sum_of_app, Ha. done.
  - apply Forall_cons in H7 as [_ H7]. apply Forall_app. split; (eapply Forall_impl; [eassumption|]); intros b; apply named_mono; rewrite El; eauto.
Qed.
Lemma set_lease_leases id st op s l : leases s !! id = Some l → leases (set_lease id st op s) = <[id := mkLease (lease_key l) st op]> (leases s).
Proof. intros E. unfold set_lease. by rewrite E. Qed.
Lemma set_lease_rest id st op s : posts (set_lease id st op s) = posts s ∧ status (set_lease id st op s) = status s ∧ ops (set_lease id st op s) = ops s ∧ done (set_lease id st op s) = done s.
Proof. unfold set_lease. by case_match. Qed.
Lemma drop_rest k id s : status (DropLeaseLocked k id s) = status s ∧ ops (DropLeaseLocked k id s) = ops s ∧ leases (DropLeaseLocked k id s) = leases (set_lease id kReleased false s) ∧
  ∀ k' id', posts (DropLeaseLocked k id s) !! k' = Some id' ↔ posts s !! k' = Some id' ∧ ¬ (k' = k ∧ id' = id).
Proof.
  unfold DropLeaseLocked. destruct (set_lease_rest id kReleased false s) as (Hp & Hst & Ho & _). rewrite Hp. case_bool_decide as E; cbn; rewrite ?Hp, ?Hst, ?Ho; split_and!; try done; intros k' id'.
  - rewrite lookup_delete_Some. destruct (decide (k = k')) as [<-|]; [rewrite E; naive_solver|naive_solver].
  - split; [|by intros [? _]]. intros H. split; [done|]. by intros [-> ->].
Qed.
Lemma count_set_lease id st op s l :
  leases s !! id = Some l → Z.of_nat (count_map session (<[id := mkLease (lease_key l) st op]> (leases s))) = in_leases s - (if session l then 1 else 0) + (if op then 1 else 0).
Proof.
  intros E. pose proof (count_map_insert session (leases s) id l (mkLease (lease_key l) st op) E) as H. unfold in_leases. cbn in H. unfold bit in H. destruct (session l), op; cbn in H; lia.
Qed.
(** ** A lease settles

    It is admitted by the thread that began the push, or released by whoever takes its
    operation out. *)
Section settle.
Context (s s' : Server) (a : Action) (others pre : list Action) (id : nat) (l : PostLease) (st : LeaseState) (op : bool).
Context (HB : balanced s (a :: others)) (El : leases s !! id = Some l).
Context (Hleases : leases s' = <[id := mkLease (lease_key l) st op]> (leases s)) (Hstatus : status s' = status s) (Hops : ops s' = ops s).
Context (Hposts : ∀ k' id', posts s' !! k' = Some id' ↔ posts s !! k' = Some id' ∧ (st = kReleased → ¬ (k' = lease_key l ∧ id' = id))).
Context (Hst : st ≠ kAdmitting) (Hlive : st = kAdmitted → state l = kAdmitting ∧ is_ok (status s) = true) (Hop : op = true → st = kAdmitted).
Lemma settle_live i l' : leases s' !! i = Some l' → state l' ≠ kReleased → is_ok (status s') = true → posts s' !! lease_key l' = Some i.
Proof using HB El Hleases Hstatus Hposts Hst Hlive Hop.
  rewrite Hleases, lookup_insert_Some, Hstatus, Hposts. intros [[<- <-]|[Hne E]]; cbn; intros Hs Hok; (split; [|naive_solver]).
  - destruct st; try done. destruct (Hlive eq_refl) as [E _]. apply (bl_live _ _ HB _ _ El); [by rewrite E|done].
  - by apply (bl_live _ _ HB _ _ E).
Qed.
Lemma settle_admitting i :
  admitting i a = (if decide (id = i) then unsettled id s else 0) → sum_of (admitting i) pre = 0 → sum_of (admitting i) (pre ++ others) = unsettled i s'.
Proof using HB Hleases Hst.
  intros Ha Hp. rewrite sum_of_app, Hp. pose proof (bl_admitting _ _ HB i) as H. cbn in H. rewrite Ha in H. unfold unsettled, settled in *. rewrite Hleases.
  destruct (decide (id = i)) as [<-|Hne]; [rewrite lookup_insert_eq; cbn; rewrite bool_decide_eq_false_2 by done; cbn; lia|].
  rewrite lookup_insert_ne by done. lia.
Qed.
Lemma balanced_settle :
  sum_of carry pre + (if op then 1 else 0) = carry a + (if session l then 1 else 0) →
  (∀ i, admitting i a = if decide (id = i) then unsettled id s else 0) → (∀ i, sum_of (admitting i) pre = 0) → Forall (named s) pre →
  balanced s' (pre ++ others).
Proof using HB El Hleases Hstatus Hops Hposts Hst Hlive Hop.
  intros Hc Ha Hp Hn. split.
  - unfold in_leases. rewrite Hleases, count_set_lease, Hops, sum_of_app by done. pose proof (bl_ops _ _ HB) as H. cbn in H. lia.
  - intros i l'. rewrite Hleases, lookup_insert_Some. intros [[<- <-]|[_ E]]; [done|by apply (bl_session _ _ HB i)].
  - intros k' i [[l' [E Ek]]%(bl_posts _ _ HB) _]%Hposts. rewrite Hleases. destruct (decide (id = i)) as [<-|Hne]; [|rewrite lookup_insert_ne by done; eauto].
    rewrite lookup_insert_eq. eexists. split; [done|]. cbn. congruence.
  - apply settle_live.
  - intros i l'. rewrite Hleases, lookup_insert_Some, Hstatus. intros [[<- <-]|[_ E]]; [apply Hlive|by apply (bl_cancelled _ _ HB i)].
  - intros i. by apply settle_admitting.
  - pose proof (bl_named _ _ HB) as [_ Ho]%Forall_cons. apply Forall_app. split; (eapply Forall_impl; [eassumption|]); intros b; apply named_mono; intros i l' E; rewrite Hleases.
    all: destruct (decide (id = i)) as [<-|Hne]; [rewrite lookup_insert_eq|rewrite lookup_insert_ne by done; eauto]; eexists; split; [done|]; cbn; congruence.
Qed.
End settle.
Lemma balanced_drop s a others pre id l :
  balanced s (a :: others) → leases s !! id = Some l → sum_of carry pre = carry a + (if session l then 1 else 0) →
  (∀ i, admitting i a = if decide (id = i) then unsettled id s else 0) → (∀ i, sum_of (admitting i) pre = 0) → Forall (named s) pre →
  balanced (DropLeaseLocked (lease_key l) id s) (pre ++ others).
Proof.
  intros HB El Hc Ha Hp Hn. destruct (drop_rest (lease_key l) id s) as (Hst & Ho & Hl & Hposts). rewrite (set_lease_leases _ _ _ _ _ El) in Hl.
  eapply (balanced_settle s _ a others pre id l kReleased false); eauto; try done; [|lia]. intros k' i. rewrite Hposts. naive_solver.
Qed.
(** Taking out an admitted lease. *)
Lemma balanced_take s a others pre id k :
  balanced s (a :: others) → admitted id s = true → (∃ l, leases s !! id = Some l ∧ lease_key l = k) → (∀ i, admitting i a = 0) →
  sum_of carry pre = carry a + (if holds_op id s then 1 else 0) → (∀ i, sum_of (admitting i) pre = 0) → Forall (named s) pre →
  balanced (DropLeaseLocked k id s) (pre ++ others).
Proof.
  intros HB Hadm (l & El & <-) Ha Hc Hp Hn. unfold admitted, holds_op in *. rewrite El in *. apply bool_decide_eq_true in Hadm. apply (balanced_drop s a); try done.
  intros i. rewrite Ha. unfold unsettled, settled. rewrite El, Hadm. by case_decide.
Qed.

(** ** A post gets its lease *)
Lemma unsettled_insert i id l m s :
  leases s = <[id := l]> m → unsettled i s = if decide (id = i) then (if bool_decide (state l = kAdmitting) then 1 else 0) else unsettled i (with_leases m s).
Proof.
  intros E. unfold unsettled, settled. rewrite E. cbn. case_decide as Hd; [subst i; rewrite lookup_insert_eq|by rewrite lookup_insert_ne by done].
  by destruct (bool_decide _).
Qed.
Lemma balanced_new s k others :
  let id := fresh (dom (leases s)) in
  balanced s (Resolve k :: others) → posts s !! k = None →
  balanced (with_posts (<[k := id]> (posts s)) (with_leases (<[id := mkLease k kAdmitting false]> (leases s)) s)) (Admit k id :: others).
Proof.
  intros id HB Hk. assert (leases s !! id = None) as Hid by (apply not_elem_of_dom, is_fresh). assert (∀ i l, leases s !! i = Some l → id ≠ i) as Hne by (intros i l E <-; congruence).
  split; cbn.
  - pose proof (bl_ops _ _ HB) as H. cbn in H. unfold in_leases in *. cbn. rewrite count_map_insert_new by done. cbn. lia.
  - intros i l'. rewrite lookup_insert_Some. intros [[<- <-]|[_ E]]; [done|by apply (bl_session _ _ HB i)].
  - intros k' i. rewrite lookup_insert_Some. intros [[<- <-]|[_ (l' & E & Ek)%(bl_posts _ _ HB)]]; [rewrite lookup_insert_eq; eauto|].
    rewrite lookup_insert_ne by eauto. eauto.
  - intros i l'. rewrite lookup_insert_Some. intros [[<- <-]|[_ E]] Hs Hok; cbn; [apply lookup_insert_eq|].
    pose proof (bl_live _ _ HB i l' E Hs Hok) as Hp. rewrite lookup_insert_ne; congruence.
  - intros i l'. rewrite lookup_insert_Some. intros [[<- <-]|[_ E]]; [done|by apply (bl_cancelled _ _ HB i)].
  - intros i. pose proof (bl_admitting _ _ HB i) as H. cbn in H. rewrite (unsettled_insert i id (mkLease k kAdmitting false) (leases s)) by done. cbn.
    unfold unsettled, settled in *. cbn. destruct (decide (id = i)) as [<-|]; [rewrite Hid in H; rewrite bool_decide_eq_true_2 by done; lia|lia].
  - pose proof (bl_named _ _ HB) as [_ Ho]%Forall_cons. constructor; [cbn; rewrite lookup_insert_eq; eauto|].
    eapply Forall_impl; [exact Ho|]. intros b. apply named_mono. intros i l' E. cbn. rewrite lookup_insert_ne by eauto. eauto.
Qed.

(** ** All leases at once *)
Definition released (l : PostLease) : PostLease := if bool_decide (state l = kAdmitted) then mkLease (lease_key l) kReleased false else l.
Lemma release_post_spec s ki :
  posts (release_post s ki) = posts s ∧ status (release_post s ki) = status s ∧ ops (release_post s ki) = ops s ∧
  leases (release_post s ki) = alter released ki.2 (leases s).
Proof.
  destruct (leases s !! ki.2) as [l|] eqn:E; unfold release_post, admitted; rewrite E.
  - assert (alter released ki.2 (leases s) = <[ki.2 := released l]> (leases s)) as ->.
    { apply map_eq. intros i. destruct (decide (ki.2 = i)) as [<-|]; [by rewrite lookup_alter_eq, lookup_insert_eq, E|by rewrite lookup_alter_ne, lookup_insert_ne]. }
    unfold released. case_bool_decide as Hs; [destruct (set_lease_rest ki.2 kReleased false s) as (? & ? & ? & _); by rewrite (set_lease_leases _ _ _ _ _ E)|].
    split_and!; try done. symmetry. by apply insert_id.
  - split_and!; try done. symmetry. apply map_eq. intros i. destruct (decide (ki.2 = i)) as [<-|]; [by rewrite lookup_alter_eq, E|by rewrite lookup_alter_ne].
Qed.
Lemma release_post_count s ki : in_leases (release_post s ki) + (if admitted ki.2 s && holds_op ki.2 s then 1 else 0) = in_leases s.
Proof.
  unfold release_post. destruct (admitted ki.2 s) eqn:Ea; cbn; [|lia]. unfold admitted, holds_op in *. destruct (leases s !! ki.2) as [l|] eqn:E; [|done].
  unfold in_leases at 1. rewrite (set_lease_leases _ _ _ _ _ E), (count_set_lease _ _ _ _ _ E). destruct (session l); lia.
Qed.
Lemma release_all_rest L s : let s' := foldl release_post s L in posts s' = posts s ∧ status s' = status s ∧ ops s' = ops s.
Proof. revert s; induction L as [|ki L IH]; intros s; cbn; [done|]. destruct (IH (release_post s ki)) as (-> & -> & ->). by destruct (release_post_spec s ki) as (-> & -> & -> & _). Qed.
Lemma released_idem l : released (released l) = released l.
Proof. unfold released. by destruct (bool_decide (state l = kAdmitted)) eqn:E; cbn; rewrite ?E. Qed.
Lemma release_all_lookup L s i : leases (foldl release_post s L) !! i = if decide (i ∈ L.*2) then released <$> leases s !! i else leases s !! i.
Proof.
  revert s; induction L as [|ki L IH]; intros s; cbn; [done|]. destruct (release_post_spec s ki) as (_ & _ & _ & E). rewrite IH, E.
  destruct (decide (ki.2 = i)) as [<-|Hne]; [rewrite lookup_alter_eq, (decide_True (P := ki.2 ∈ ki.2 :: L.*2)) by set_solver|rewrite lookup_alter_ne by done].
  - case_decide; [|done]. destruct (leases s !! ki.2); cbn; by rewrite ?released_idem.
  - repeat case_decide; set_solver.
Qed.
Lemma filter_bool_ext {A} (f g : A → bool) (l : list A) : (∀ x, x ∈ l → f x = g x) → filter (λ x, f x = true) l = filter (λ x, g x = true) l.
Proof.
  induction l as [|x l IH]; intros H; [done|]. rewrite !filter_cons, IH by set_solver. specialize (H x ltac:(set_solver)).
  destruct (f x), (g x); done.
Qed.
Lemma release_all_count L s :
  NoDup L.*2 → in_leases (foldl release_post s L) + Z.of_nat (length (filter (λ ki : PostKey * nat, admitted ki.2 s && holds_op ki.2 s = true) L)) = in_leases s.
Proof.
  revert s; induction L as [|ki L IH]; intros s; cbn [fmap list_fmap foldl]; [cbn; lia|]. intros [Hni Hnd]%NoDup_cons. specialize (IH (release_post s ki) Hnd).
  pose proof (release_post_count s ki) as Hc. rewrite filter_cons. destruct (release_post_spec s ki) as (_ & _ & _ & E).
  rewrite (filter_bool_ext _ (λ ki0 : PostKey * nat, admitted ki0.2 s && holds_op ki0.2 s)) in IH.
  - destruct (admitted ki.2 s && holds_op ki.2 s); (destruct (decide _); [|try done]); cbn [length]; lia.
  - intros [k' i] Hi. cbn. unfold admitted, holds_op. rewrite E, lookup_alter_ne; [done|]. intros Heq. apply Hni. rewrite Heq. apply list_elem_of_fmap. by exists (k', i).
Qed.
Lemma carry_replicate n : sum_of carry (replicate n EndPush) = Z.of_nat n.
Proof. induction n as [|n IH]; cbn [replicate sum_of carry]; lia. Qed.
Lemma leases_distinct s acts : balanced s acts → NoDup (map_to_list (posts s)).*2.
Proof.
  intros HB. apply NoDup_fmap_2_strong; [|apply NoDup_map_to_list]. intros [k1 i1] [k2 i2] H1%elem_of_map_to_list H2%elem_of_map_to_list. cbn. intros <-.
  apply (bl_posts _ _ HB) in H1 as (l1 & E1 & <-), H2 as (l2 & E2 & <-). congruence.
Qed.
Lemma released_key l : lease_key (released l) = lease_key l.
Proof. unfold released. by case_bool_decide. Qed.
Lemma released_admitting l : bool_decide (state (released l) = kAdmitting) = bool_decide (state l = kAdmitting).
Proof. unfold released. by destruct l as [? [] ?]. Qed.
Lemma balanced_release s a others s' pre new :
  balanced s (a :: others) → (∀ i, admitting i a = 0) → carry a = 0 → ReleaseAdmittedPosts s = (s', pre, new) → balanced s' (pre ++ others) ∧ new = [].
Proof.
  intros HB Ha Hc. unfold ReleaseAdmittedPosts. destruct (done s && _).
  { intros [= <- <- <-]. split; [|done]. apply (balanced_keep s s a others []); try done; cbn; lia. }
  set (L := map_to_list (posts s)). pose proof (leases_distinct _ _ HB) as Hnd. pose proof (release_all_count L s Hnd) as Hcount.
  destruct (release_all_rest L s) as (Hp & Hst & Ho). pose proof (release_all_lookup L s) as Hl. set (s1 := foldl release_post s L) in *.
  intros [= <- <- <-]. split; [|done].
  assert (∀ i l, leases s1 !! i = Some l → ∃ l0, leases s !! i = Some l0 ∧ state l ≠ kAdmitted ∧ (l = l0 ∨ l = released l0)) as Hold.
  { intros i l. rewrite Hl. destruct (leases s !! i) as [l0|] eqn:E; [|by case_decide]. case_decide as Hin; cbn; intros [= <-]; exists l0; (split; [done|]).
    - split; [|by right]. unfold released. by case_bool_decide.
    - split; [|by left]. intros Hadm. apply Hin, list_elem_of_fmap. exists (lease_key l0, i). split; [done|]. apply elem_of_map_to_list.
      apply (bl_live _ _ HB); [done|by rewrite Hadm|by apply (bl_cancelled _ _ HB i l0)]. }
  split; cbn.
  - unfold in_leases at 1. cbn. change (Z.of_nat (count_map session (leases s1))) with (in_leases s1). rewrite sum_of_app, carry_replicate. pose proof (bl_ops _ _ HB) as H. cbn in H. lia.
  - intros i l (l0 & E & Hna & Hor)%Hold Hs. exfalso. apply Hna. destruct Hor as [->| ->]; [by apply (bl_session _ _ HB i)|].
    unfold released in *. case_bool_decide; [done|]. by apply (bl_session _ _ HB i).
  - intros k i. by rewrite lookup_empty.
  - intros i l _ _ Hok. by destruct (status s1).
  - intros i l (l0 & E & Hna & _)%Hold Hs. done.
  - intros i. rewrite sum_of_app, admitting_ends. pose proof (bl_admitting _ _ HB i) as H. cbn in H. rewrite Ha in H. unfold unsettled, settled in *. cbn.
    rewrite Hl. rewrite H. destruct (leases s !! i), (decide (i ∈ L.*2)); try done. cbn [fmap option_fmap option_map]. by rewrite released_admitting.
  - pose proof (bl_named _ _ HB) as [_ Hn]%Forall_cons. apply Forall_app. split; [apply named_ends|]. eapply Forall_impl; [exact Hn|]. intros b. apply named_mono.
    intros i l E. cbn. rewrite Hl, E. case_decide; cbn; eexists; (split; [done|]); by rewrite ?released_key.
Qed.

(** ** Every critical section *)
Ltac keep HB := eapply (balanced_keep _ _ _ _ _ HB); try done; cbn in *; try (intros; lia).
Lemma named_ends_bit s op : Forall (named s) (EndPushes op).
Proof. apply named_ends. Qed.
Lemma admitting_ends_bit id op : sum_of (admitting id) (EndPushes op) = 0.
Proof. apply admitting_ends. Qed.
Lemma balanced_resolve k s others s' pre new :
  balanced s (Resolve k :: others) → resolve k s = (s', pre, new) → balanced s' (pre ++ others) ∧ new = [].
Proof.
  intros HB. unfold resolve. destruct (negb _); [intros [= <- <- <-]; split; [keep HB|done]|]. destruct (posts s !! k) as [id|] eqn:Ek.
  - intros [= <- <- <-]. split; [|done]. keep HB. apply Forall_singleton. cbn. by apply (bl_posts _ _ HB).
  - destruct (done s); intros [= <- <- <-]; (split; [|done]); [keep HB|by apply balanced_new].
Qed.
Lemma admitting_unsettled k id r s others : balanced s (AdmitDone k id r :: others) → ∃ l, leases s !! id = Some l ∧ lease_key l = k ∧ state l = kAdmitting ∧ session l = false.
Proof.
  intros HB. pose proof (bl_named _ _ HB) as [(l & El & Ek) _]%Forall_cons. exists l. split; [done|]. split; [done|].
  pose proof (bl_admitting _ _ HB id) as H. cbn in H. rewrite decide_True in H by done. pose proof (sum_of_nonneg (admitting id) others (admitting_nonneg id)).
  unfold unsettled, settled in H. rewrite El in H. case_bool_decide as Hs; [|cbn in H; lia]. split; [done|]. destruct (session l) eqn:E; [|done].
  apply (bl_session _ _ HB) in El; [congruence|done].
Qed.
Lemma balanced_admit k id r s others s' pre new :
  balanced s (AdmitDone k id r :: others) → admit_done k id r s = (s', pre, new) → balanced s' (pre ++ others) ∧ new = [].
Proof.
  intros HB. destruct (admitting_unsettled _ _ _ _ _ HB) as (l & El & <- & Hs & Hses).
  assert (∀ i, admitting i (AdmitDone (lease_key l) id r) = if decide (id = i) then unsettled id s else 0) as Ha.
  { intros i. cbn. unfold unsettled, settled. rewrite El, Hs. by case_decide. }
  unfold admit_done. destruct r as [op|e]; [destruct (negb (is_ok (status s)) || done s) eqn:Ed|]; intros [= <- <- <-]; (split; [|done]).
  - eapply balanced_drop; eauto using named_ends_bit, admitting_ends_bit. rewrite carry_ends, Hses. destruct op; cbn; lia.
  - apply orb_false_iff in Ed as [Hok%negb_false_iff _]. destruct (set_lease_rest id kAdmitted op s) as (Hp & Hst & Ho & _).
    eapply (balanced_settle s _ _ others _ id l kAdmitted op HB El); eauto using set_lease_leases; try done; [| |by apply Forall_singleton].
    + intros k' i. rewrite Hp. naive_solver.
    + cbn. rewrite Hses. destruct op; cbn; lia.
  - eapply (balanced_drop _ _ _ [] id); eauto. cbn. rewrite Hses. lia.
Qed.
Lemma balanced_reject k s others s' pre new :
  balanced s (Reject k :: others) → RejectPost k s = (s', pre, new) → balanced s' (pre ++ others) ∧ new = [].
Proof.
  intros HB. unfold RejectPost. destruct (posts s !! k) as [id|] eqn:Ek; [destruct (admitted id s) eqn:Ea|]; intros [= <- <- <-]; (split; [|done]); [|keep HB..].
  eapply balanced_take; eauto using named_ends_bit, admitting_ends_bit; [by apply (bl_posts _ _ HB)|]. by rewrite carry_ends.
Qed.
(** A session that is cancelled holds no operation in a lease, so OnPeregrinePostComplete
    may return without giving one back. *)
Lemma balanced_complete k id s others s' pre new :
  balanced s (AwaitLease k id :: others) → take_lease k id s = (s', pre, new) → balanced s' (pre ++ others) ∧ new = [].
Proof.
  intros HB. unfold take_lease. pose proof (bl_named _ _ HB) as [Hn _]%Forall_cons. cbn in Hn. destruct (admitted id s) eqn:Ea; cbn.
  - destruct (drop_rest k id s) as (-> & _). assert (is_ok (status s) = true) as Hok.
    { unfold admitted in Ea. destruct (leases s !! id) as [l|] eqn:El; [|done]. apply bool_decide_eq_true in Ea. by apply (bl_cancelled _ _ HB id l). }
    rewrite Hok. intros [= <- <- <-]. split; [|done]. eapply (balanced_take _ _ _ [_]); eauto; [by destruct (holds_op id s)|by apply Forall_singleton].
  - destruct (negb _); intros [= <- <- <-]; (split; [|done]); keep HB. by apply Forall_singleton.
Qed.
Lemma balanced_step x s a others s' pre new : balanced s (a :: others) → act x s a = Some (s', pre, new) → balanced s' (pre ++ others) ∧ new = [].
Proof.
  intros HB. destruct a as [k|k id|k id|k id r|k|k|k|k id|held op| |op| |op| |]; cbn [act].
  - intros [= E]. by eapply balanced_resolve.
  - destruct (settled id s); [|done]. intros [= <- <- <-]. split; [|done]. destruct (is_ok _ && _); keep HB. by apply Forall_singleton.
  - destruct x as [r| |]; try done. intros [= <- <- <-]. split; [|done]. pose proof (bl_named _ _ HB) as [Hn _]%Forall_cons. keep HB. by apply Forall_singleton.
  - intros [= E]. by eapply balanced_admit.
  - destruct x as [|[]|]; try done; intros [= <- <- <-]; (split; [|done]); keep HB. by apply Forall_singleton.
  - intros [= E]. by eapply balanced_reject.
  - destruct (negb _); intros [= <- <- <-]; (split; [|done]); [keep HB|]. destruct (posts s !! k) as [id|] eqn:Ek; keep HB; apply Forall_singleton; [by apply (bl_posts _ _ HB)|done].
  - destruct (settled id s); [|done]. intros [= E]. by eapply balanced_complete.
  - pose proof (bl_named _ _ HB) as [Hn _]%Forall_cons. destruct x as [|[]|]; try done; intros [= <- <- <-]; (split; [|done]).
    + destruct held; [keep HB; by (apply Forall_singleton || destruct op)|]. destruct op; [by specialize (Hn eq_refl)|]. keep HB. by apply Forall_singleton.
    + eapply balanced_keep; eauto using named_ends_bit, admitting_ends_bit. rewrite carry_ends. by destruct op.
  - destruct x as [[op|]| |]; try done; intros [= <- <- <-]; (split; [|done]); keep HB; by (apply Forall_singleton || destruct op).
  - destruct x as [| |r]; try done. intros [= <- <- <-]. split; [|done]. eapply balanced_keep; eauto using named_ends_bit, admitting_ends_bit. rewrite carry_ends. by destruct op.
  - destruct x as [[op|]| |]; try done; intros [= <- <- <-]; (split; [|done]); keep HB; by (apply Forall_singleton || destruct op).
  - destruct x as [|[]|r]; try done; intros [= <- <- <-]; (split; [|done]); (eapply balanced_keep; eauto using named_ends_bit, admitting_ends_bit); rewrite carry_ends; by destruct op.
  - intros [= <- <- <-]. split; [|done]. keep HB.
  - intros [= E]. by eapply balanced_release.
Qed.
