(* ===== verification/PushServerProperties.v ===== *)
(** * PushServerProperties: operations are given back and posts settle
    (class BlockTransportServerPushSession, src/tpu_sync/transport/block_transport_session.cc)

    The transport may run any number of requests, completions, streams and cancellations
    of a session at once. *)

From S2P Require Import Prelude RaidenTypes SessionThreads PushServer PushServerFacts.

Abbreviation served := (reachable act entry Server_new).
Lemma balanced_start : balanced Server_new [].
Proof. split; cbn; try done. Qed.
Lemma balanced_reach w : served w → balanced (sess w) (pending w).
Proof.
  apply invariant; [intros s l l'; apply balanced_perm|apply balanced_start|..].
  - intros s a others x s' pre new HB E. destruct (balanced_step _ _ _ _ _ _ _ HB E) as [HB' ->]. done.
  - intros s a others x s' pre new HB He E. destruct (balanced_step _ _ _ _ _ _ _ (balanced_call _ _ _ He HB) E) as [HB' ->]. done.
Qed.
Lemma in_leases_none s : (∀ id l, leases s !! id = Some l → session l = false) → in_leases s = 0.
Proof.
  intros H. unfold in_leases, count_map. apply Nat2Z.inj_iff with (m := 0%nat), map_size_empty_iff, map_empty. intros id.
  apply map_lookup_filter_None. right. intros l E%H. cbn. congruence.
Qed.
Lemma in_leases_cancelled s acts : balanced s acts → (is_ok (status s) = false ∨ posts s = ∅) → in_leases s = 0.
Proof.
  intros HB Hd. apply in_leases_none. intros id l El. destruct (session l) eqn:Es; [|done]. pose proof (bl_session _ _ HB id l El Es) as Ha.
  pose proof (bl_cancelled _ _ HB id l El Ha) as Hok. destruct Hd as [Hd|Hd]; [congruence|]. pose proof (bl_live _ _ HB id l El ltac:(congruence) Hok) as Hp.
  by rewrite Hd, lookup_empty in Hp.
Qed.

(** C27: No operation of a receive session is lost or given back twice, however requests,
    completions, streams and cancellations interleave: the operations held are those in
    the leases of admitted posts and those on the way in a running call.  When no call
    runs, only admitted posts hold one, and a session that is cancelled, or has no
    post left, holds none. *)
Theorem push_ops_balanced w :
  served w →
  in_leases (sess w) <= ops (sess w) ∧
  (pending w = [] → ops (sess w) = in_leases (sess w)) ∧
  (pending w = [] → (is_ok (status (sess w)) = false ∨ HasAdmittedPosts (sess w) = false) → ops (sess w) = 0).
Proof.
  intros HB%balanced_reach. pose proof (bl_ops _ _ HB) as Ho. pose proof (sum_of_nonneg carry (pending w) carry_nonneg). split_and!; [lia|..].
  - intros Hp. rewrite Ho, Hp. cbn. lia.
  - intros Hp Hd. rewrite Ho, Hp, (in_leases_cancelled _ _ HB); [done|]. destruct Hd as [Hd|Hd%negb_false_iff%bool_decide_eq_true]; [by left|by right].
Qed.

(** ** Waiting

    A thread has one action ahead of it, or gives back operations. *)
Definition thread_shape (t : list Action) : Prop := (length t <= 1)%nat ∨ Forall (EndPush =.) t.
Lemma ends_shape n : thread_shape (replicate n EndPush).
Proof. right. by apply Forall_replicate. Qed.
Lemma act_shape x s a s' pre new : act x s a = Some (s', pre, new) → thread_shape pre ∧ new = [] ∧ (a = EndPush → pre = []).
Proof.
  assert (∀ op, thread_shape (EndPushes op)) as He by (intros; apply ends_shape).
  destruct a as [k|k id|k id|k id r|k|k|k|k id|held op| |op| |op| |]; cbn; unfold resolve, admit_done, RejectPost, take_lease, ReleaseAdmittedPosts; intros E; repeat case_match; simplify_eq; split_and!; try done.
  all: try (by left; cbn; lia). all: try apply He. all: apply ends_shape.
Qed.
Lemma threads_shape w : served w → Forall thread_shape (threads w).
Proof.
  apply threads_forall.
  - intros x s a rest s' pre new Ht (Hp & -> & Ha)%act_shape. split; [|by constructor]. destruct Ht as [Hl|[<- Hr]%Forall_cons].
    + destruct rest; [by rewrite app_nil_r|cbn in Hl; lia].
    + rewrite Ha by done. by right.
  - intros x s a s' pre new He (Hp & -> & Ha)%act_shape. split; [done|by constructor].
Qed.
Lemma admitter_heads w id : served w → settled id (sess w) = false → ∃ t1 a rest t2, threads w = t1 ++ (a :: rest) :: t2 ∧ admitting id a ≠ 0.
Proof.
  intros Hw Hs. pose proof (bl_admitting _ _ (balanced_reach w Hw) id) as H. unfold unsettled in H. rewrite Hs in H.
  assert (∃ a, a ∈ pending w ∧ admitting id a ≠ 0) as (a & (t & Ht & Ha)%list_elem_of_In%in_concat & Hn).
  { clear Hw. induction (pending w) as [|b l IH]; [done|]. cbn in H. destruct (decide (admitting id b = 0)) as [E|E]; [|exists b; split; [by left|done]].
    destruct IH as (a & ? & ?); [lia|]. exists a. split; [by right|done]. }
  apply list_elem_of_In in Ht, Ha. apply list_elem_of_split in Ht as (t1 & t2 & E). pose proof (threads_shape w Hw) as HF. rewrite E in HF.
  apply Forall_app in HF as [_ [[Hl|HE] _]%Forall_cons].
  - destruct t as [|b [|]]; [by apply not_elem_of_nil in Ha|apply list_elem_of_singleton in Ha as <-|cbn in Hl; lia]. by exists t1, a, [], t2.
  - rewrite Forall_forall in HE. by specialize (HE a Ha) as <-.
Qed.
Lemma push_enabled s a : (∃ id, settled id s = false ∧ admitting id a = 0) ∨ ∃ x o, act x s a = Some o.
Proof.
  destruct a as [k|k id|k id|k id r|k|k|k|k id|held op| |op| |op| |].
  all: try (right; exists (Result OkStatus); eexists; reflexivity). all: try (right; exists (Begin (Err kInternal)); eexists; reflexivity). all: try (right; exists (Counted false); eexists; reflexivity).
  all: cbn; try (destruct (settled id s) eqn:E; [right; exists (Result OkStatus); eauto|left; eauto]).
  right. exists (Result OkStatus). case_match; eauto.
Qed.
Definition effort (a : Action) : Z :=
  match a with
  | EndPush => 0
  | Reject _ | Cancel | Count _ | StreamBody _ => 1
  | CheckRequest _ => 2
  | AwaitOther _ _ | AdmitDone _ _ _ | BeginPost | Stream => 3
  | FinishPost _ _ => 4
  | Admit _ _ | AwaitLease _ _ => 5
  | Resolve _ | PostComplete _ => 6
  end.
Lemma effort_nonneg a : 0 <= effort a.
Proof. destruct a; cbn; lia. Qed.
Lemma effort_ends n : sum_of effort (replicate n EndPush) = 0.
Proof. induction n as [|n IH]; cbn; [done|]. by rewrite IH. Qed.
Lemma effort_decreases x s a s' pre new : act x s a = Some (s', pre, new) → sum_of effort pre + ops s' < effort a + ops s.
Proof.
  assert (∀ op, sum_of effort (EndPushes op) = 0) as He by (intros; apply effort_ends).
  assert (∀ k id, ops (DropLeaseLocked k id s) = ops s) as Hd by (intros k id; apply drop_rest). assert (∀ id st op, ops (set_lease id st op s) = ops s) as Hs by (intros; apply set_lease_rest).
  destruct (release_all_rest (map_to_list (posts s)) s) as (_ & _ & Hr).
  destruct a as [k|k id|k id|k id r|k|k|k|k id|held op| |op| |op| |]; cbn; unfold resolve, admit_done, RejectPost, take_lease, ReleaseAdmittedPosts; intros E; repeat case_match; simplify_eq; cbn; rewrite ?He, ?Hd, ?Hs, ?effort_ends; cbn; lia.
Qed.
Lemma admitter_enabled id s a : admitting id a ≠ 0 → ∃ x o, act x s a = Some o.
Proof. destruct a; cbn; try done; intros _; exists (Begin (Ok false)); eauto. Qed.
Lemma push_bounded n w w' : served w → nsteps (step act) n w w' → (n <= Z.to_nat (work effort ops w))%nat.
Proof.
  intros Hw Hn. assert (Z.of_nat n + work effort ops w' <= work effort ops w) as Hb.
  { eapply run_bounded; [|exact Hn]. intros x s a s' pre new E. destruct (act_shape _ _ _ _ _ _ E) as (_ & -> & _). apply effort_decreases in E. cbn. rewrite app_nil_r. lia. }
  assert (served w') as HB%balanced_reach.
  { unfold reachable in *. etransitivity; [exact Hw|]. eapply rtc_subrel; [|by eapply rtc_nsteps_2]. by left. }
  assert (0 <= work effort ops w'); [|lia]. unfold work. pose proof (bl_ops _ _ HB). pose proof (sum_of_nonneg carry (pending w') carry_nonneg).
  pose proof (sum_of_nonneg effort (pending w') effort_nonneg). unfold in_leases in *. lia.
Qed.

(** C35: Calls of the transport never block each other: from every state that can be reached
    the running calls finish after a bounded number of critical sections, and as long as
    one of them is not finished, some thread can go on, a request that waits for a
    lease to settle included. *)
Theorem push_settles w :
  served w →
  (∃ bound, ∀ n w', nsteps (step act) n w w' → (n <= bound)%nat) ∧
  (pending w ≠ [] → ∃ w', step act w w').
Proof.
  intros Hw. split; [exists (Z.to_nat (work effort ops w)); intros n w'; by apply push_bounded|]. intros Hp.
  destruct (pending_head w Hp) as (t1 & a & rest & t2 & E).
  destruct (push_enabled (sess w) a) as [(id & Hs & _)|(x & o & Ea)]; [|by eapply step_head].
  destruct (admitter_heads w id Hw Hs) as (u1 & b & rest' & u2 & E' & Hb). destruct (admitter_enabled id (sess w) b Hb) as (x & o & Eb). by eapply step_head.
Qed.

(** ** A post that is cancelled while it is admitted

    Two requests of one post: the first takes an operation, the second waits for it; the
    session is cancelled before the first one has put its operation into the lease. *)
Definition any : Env := Result OkStatus.
Definition waiting_ex : list (Choice (A := Action) (X := Env)) :=
  [Invoke (Resolve (7, 0, 3)) any; Invoke (Resolve (7, 0, 3)) any; Run 0 (Begin (Ok true)); Invoke Cancel any].
Definition cancelled_ex : list (Choice (A := Action) (X := Env)) := waiting_ex ++ [Run 0 any; Run 1 any; Run 0 any].
Definition served_ex : list (Choice (A := Action) (X := Env)) → World Server Action := run_of act entry Server_new.
Example waiting_holds_ex :
  ops (sess (served_ex waiting_ex)) = 1 ∧ threads (served_ex waiting_ex) !! 1%nat = Some [AwaitOther (7, 0, 3) 0] ∧ act any (sess (served_ex waiting_ex)) (AwaitOther (7, 0, 3) 0) = None.
Proof. vm_compute. auto. Qed.
Lemma push_ops_balanced_witness : ops (sess (served_ex cancelled_ex)) = 0.
Proof. apply push_ops_balanced; [apply run_of_reach|vm_compute; reflexivity|left; vm_compute; reflexivity]. Defined.
Lemma push_settles_witness : ∃ w', step act (served_ex waiting_ex) w'.
Proof. apply push_settles; [apply run_of_reach|vm_compute; discriminate]. Defined.
(** A request that comes in after its post has completed is admitted once more. *)
Definition readmitted_ex : list (Choice (A := Action) (X := Env)) :=
  [Invoke (Resolve (7, 0, 3)) any; Run 0 (Begin (Ok true)); Run 0 any; Run 0 any; Invoke (PostComplete (7, 0, 3)) any; Run 1 any; Run 1 any; Run 1 (Counted false); Run 1 any;
   Invoke (Resolve (7, 0, 3)) any; Run 2 (Begin (Ok true)); Run 2 any; Run 2 any].
Example post_admitted_twice :
  pending (served_ex readmitted_ex) = [] ∧ ops (sess (served_ex readmitted_ex)) = 1 ∧ size (leases (sess (served_ex readmitted_ex))) = 2%nat ∧
  HasAdmittedPosts (sess (served_ex readmitted_ex)) = true.
Proof. vm_compute. auto. Qed.
