(* ===== verification/RawDmaPacer.v ===== *)
(** * RawDmaPacer: how much raw DMA a process keeps queued
    (src/tpu_sync/core/raw_dma_pacer.{h,cc})

    Copies are split into pieces, queued first in, first out, and issued while they fit a
    window of bytes in flight; a worker thread issues what completed pieces make room for.
    The pieces of one Submit are a job, whose future is set when the last of them has
    completed.  Jobs are shared objects and named by a number.  What a piece's issue
    function and its completion answer are inputs.

    [submitted], [issued], [completed], [answered] and [widest] record what has happened;
    no action reads them.  [started] and [running] say whether the constructor has run and
    whether the worker thread is there, which a join observes. *)

From S2P Require Import Prelude SessionThreads.

Record RawDmaPacerOptions := mkOptions { max_inflight_bytes : Z; chunk_bytes : Z }.
Definition RawDmaPacerOptions_default : RawDmaPacerOptions := mkOptions (64 * 2 ^ 20) (16 * 2 ^ 20).
Definition kPieceAlignment : Z := 4096.
Definition Normalize (o : RawDmaPacerOptions) : RawDmaPacerOptions :=
  let chunk := if 0 <? chunk_bytes o then chunk_bytes o else chunk_bytes RawDmaPacerOptions_default in
  mkOptions (max_inflight_bytes o) (Z.max kPieceAlignment (chunk / kPieceAlignment * kPieceAlignment)).
(** [value]: what the environment holds; [parse]: absl::SimpleAtoi. *)
Definition BytesFromEnv (parse : string → option Z) (value : option string) (default_bytes : Z) : StatusOr Z :=
  match value with
  | None | Some "" => Ok default_bytes
  | Some v => match parse v with Some parsed => Ok parsed | None => Err kInvalidArgument end
  end.
Definition OptionsFromEnv (parse : string → option Z) (limit chunk : option string) : StatusOr RawDmaPacerOptions :=
  m ← BytesFromEnv parse limit (max_inflight_bytes RawDmaPacerOptions_default);
  c ← BytesFromEnv parse chunk (chunk_bytes RawDmaPacerOptions_default);
  Ok (mkOptions m c).

Record Piece := mkPiece { piece_job : nat; copy_index : nat; offset : Z; piece_size : Z }.
(** [promise]: whether the promise is still to be set. *)
Record Job := mkJob { remaining : Z; job_status : Status; promise : bool }.
Record Pacer := mkPacer {
  options_ : RawDmaPacerOptions;
  pending_ : list Piece;
  inflight_bytes : Z;
  peak_inflight_bytes : Z;
  issued_pieces : Z;
  shutdown : bool;
  jobs : gmap nat Job;
  started : bool;
  running : bool;
  submitted : list Piece;
  issued : list Piece;
  completed : list (nat * Status);
  answered : list (nat * Status);
  widest : option Z;
}.
(** The window the options allow; without pacing there is none. *)
Definition window (o : RawDmaPacerOptions) : option Z := if 0 <? max_inflight_bytes o then Some (Z.max (max_inflight_bytes o) (chunk_bytes o)) else None.
Definition widen (w : option Z) (o : RawDmaPacerOptions) : option Z := match w, window o with Some a, Some b => Some (Z.max a b) | _, _ => None end.
Definition Pacer_new (o : RawDmaPacerOptions) : Pacer :=
  mkPacer (Normalize o) [] 0 0 0 false ∅ false false [] [] [] [] (window (Normalize o)).

(** ** Splitting a submission

    The loop over the offsets of a copy; it ends after one round per piece. *)
Fixpoint split_from (fuel : nat) (step total off : Z) : list (Z * Z) :=
  match fuel with
  | O => []
  | S fuel => if off <? total then (off, Z.min step (total - off)) :: split_from fuel step total (off + step) else []
  end.
Definition split_copy (o : RawDmaPacerOptions) (total : Z) : list (Z * Z) :=
  let step := if 0 <? max_inflight_bytes o then chunk_bytes o else total in
  if total <=? 0 then [] else split_from (Z.to_nat (total / step + 1)) step total 0.
Definition job_pieces (o : RawDmaPacerOptions) (job : nat) (copies : list Z) : list Piece :=
  concat (imap (λ i total, (λ os : Z * Z, mkPiece job i os.1 os.2) <$> split_copy o total) copies).

(** ** The queue *)
Definition CanIssueFrontLocked (s : Pacer) : bool :=
  match pending_ s with
  | [] => false
  | p :: _ =>
      if (max_inflight_bytes (options_ s) <=? 0) || (inflight_bytes s =? 0) then true
      else inflight_bytes s + piece_size p <=? max_inflight_bytes (options_ s)
  end.
Definition WorkerShouldWakeLocked (s : Pacer) : bool := shutdown s || CanIssueFrontLocked s.
Definition issue_front (p : Piece) (q : list Piece) (s : Pacer) : Pacer :=
  let inflight := inflight_bytes s + piece_size p in
  mkPacer (options_ s) q inflight (Z.max (peak_inflight_bytes s) inflight) (issued_pieces s + 1) (shutdown s) (jobs s) (started s) (running s)
    (submitted s) (issued s ++ [p]) (completed s) (answered s) (widest s).
Fixpoint take_loop (fuel : nat) (s : Pacer) : Pacer * list Piece :=
  match fuel with
  | O => (s, [])
  | S fuel =>
      if CanIssueFrontLocked s
      then match pending_ s with
           | p :: q => let '(s, out) := take_loop fuel (issue_front p q s) in (s, p :: out)
           | [] => (s, [])
           end
      else (s, [])
  end.
Definition TakeIssuableLocked (s : Pacer) : Pacer * list Piece := take_loop (length (pending_ s)) s.
(** A piece of [j] has ended with [st]: the bookkeeping that OnPieceDone and the destructor
    share.  The answer: a promise that is to be set now. *)
Definition count_down (j : nat) (st : Status) (m : gmap nat Job) : gmap nat Job * list (nat * Status) :=
  match m !! j with
  | Some job =>
      let st := if negb (is_ok st) && is_ok (job_status job) then st else job_status job in
      let left := remaining job - 1 in
      if (left =? 0) && promise job then (<[j := mkJob left st false]> m, [(j, st)]) else (<[j := mkJob left st (promise job)]> m, [])
  | None => (m, [])
  end.
(** The destructor's loop over the pieces never issued. *)
Fixpoint cancel_all (q : list Piece) (m : gmap nat Job) : gmap nat Job * list (nat * Status) :=
  match q with
  | [] => (m, [])
  | p :: q =>
      let '(m, out) := count_down (piece_job p) (Err kCancelled) m in
      let '(m, outs) := cancel_all q m in (m, out ++ outs)
  end.

(** ** Threads

    An environment answers what an issue function returned ([Issued false]: an invalid
    future) and how a piece completed. *)
Inductive Env := Issued (valid : bool) | Result (st : Status).
Inductive Action :=
  | Start                                            (* the constructor *)
  | Submit (copies : list Z)                         (* the sizes of the copies *)
  | SetOptions (o : RawDmaPacerOptions)
  | ResetPeak
  | WorkerLoop
  | Issue (p : Piece)
  | OnPieceDone (p : Piece) (st : option Status)     (* None: as the environment says *)
  | SetPromise (j : nat) (st : Status)
  | Destroy                                          (* the destructor: its first section, *)
  | Join                                             (* worker_.join(), *)
  | AwaitIdle.                                       (* and its last section *)
Definition set_promises (out : list (nat * Status)) : list Action := (λ js : nat * Status, SetPromise js.1 js.2) <$> out.

Definition submit (copies : list Z) (s : Pacer) : Pacer * list Action :=
  if forallb (λ total, total <=? 0) copies then (s, [])
  else
    let j := fresh (dom (jobs s)) in
    let pieces := job_pieces (options_ s) j copies in
    let s := mkPacer (options_ s) (pending_ s ++ pieces) (inflight_bytes s) (peak_inflight_bytes s) (issued_pieces s) (shutdown s)
               (<[j := mkJob (Z.of_nat (length pieces)) OkStatus true]> (jobs s)) (started s) (running s) (submitted s ++ pieces) (issued s) (completed s) (answered s) (widest s) in
    let '(s, batch) := TakeIssuableLocked s in (s, Issue <$> batch).
Definition set_options (o : RawDmaPacerOptions) (s : Pacer) : Pacer :=
  mkPacer (Normalize o) (pending_ s) (inflight_bytes s) (peak_inflight_bytes s) (issued_pieces s) (shutdown s) (jobs s) (started s) (running s)
    (submitted s) (issued s) (completed s) (answered s) (widen (widest s) (Normalize o)).
Definition reset_peak (s : Pacer) : Pacer :=
  mkPacer (options_ s) (pending_ s) (inflight_bytes s) (inflight_bytes s) (issued_pieces s) (shutdown s) (jobs s) (started s) (running s)
    (submitted s) (issued s) (completed s) (answered s) (widest s).
Definition set_running (started running : bool) (s : Pacer) : Pacer :=
  mkPacer (options_ s) (pending_ s) (inflight_bytes s) (peak_inflight_bytes s) (issued_pieces s) (shutdown s) (jobs s) started running
    (submitted s) (issued s) (completed s) (answered s) (widest s).
Definition piece_done (p : Piece) (st : Status) (s : Pacer) : Pacer * list Action :=
  let '(m, out) := count_down (piece_job p) st (jobs s) in
  (mkPacer (options_ s) (pending_ s) (inflight_bytes s - piece_size p) (peak_inflight_bytes s) (issued_pieces s) (shutdown s) m (started s) (running s)
     (submitted s) (issued s) (completed s ++ [(piece_job p, st)]) (answered s) (widest s), set_promises out).
Definition set_promise (j : nat) (st : Status) (s : Pacer) : Pacer :=
  mkPacer (options_ s) (pending_ s) (inflight_bytes s) (peak_inflight_bytes s) (issued_pieces s) (shutdown s) (jobs s) (started s) (running s)
    (submitted s) (issued s) (completed s) (answered s ++ [(j, st)]) (widest s).
Definition destroy (s : Pacer) : Pacer * list Action :=
  let '(m, out) := cancel_all (pending_ s) (jobs s) in
  (mkPacer (options_ s) [] (inflight_bytes s) (peak_inflight_bytes s) (issued_pieces s) true m (started s) (running s)
     (submitted s) (issued s) (completed s ++ ((λ p, (piece_job p, Err kCancelled)) <$> pending_ s)) (answered s) (widest s),
   Join :: set_promises out ++ [AwaitIdle]).

Definition act (x : Env) (s : Pacer) (a : Action) : option (Pacer * list Action * list (list Action)) :=
  match a with
  | Start => Some (set_running true true s, [], [[WorkerLoop]])
  | Submit copies => let '(s, pre) := submit copies s in Some (s, pre, [])
  | SetOptions o => Some (set_options o s, [], [])
  | ResetPeak => Some (reset_peak s, [], [])
  | WorkerLoop =>
      if negb (WorkerShouldWakeLocked s) then None
      else if shutdown s then Some (set_running (started s) false s, [], [])
      else let '(s, batch) := TakeIssuableLocked s in Some (s, (Issue <$> batch) ++ [WorkerLoop], [])
  | Issue p =>
      match x with
      | Issued true => Some (s, [], [[OnPieceDone p None]])
      | Issued false => Some (s, [OnPieceDone p (Some (Err kInternal))], [])
      | _ => None
      end
  | OnPieceDone p (Some st) => let '(s, pre) := piece_done p st s in Some (s, pre, [])
  | OnPieceDone p None => match x with Result st => let '(s, pre) := piece_done p st s in Some (s, pre, []) | _ => None end
  | SetPromise j st => Some (set_promise j st s, [], [])
  | Destroy => let '(s, pre) := destroy s in Some (s, pre, [])
  | Join => if running s then None else Some (s, [], [])
  | AwaitIdle => if inflight_bytes s =? 0 then Some (s, [], []) else None
  end.
(** Nobody calls a pacer before its constructor or after its destructor. *)
Definition entry (s : Pacer) (a : Action) : bool :=
  match a with
  | Start => negb (started s)
  | Submit _ | SetOptions _ | ResetPeak | Destroy => started s && negb (shutdown s)
  | _ => false
  end.
