(* ===== verification/RawDmaPacerFacts.v ===== *)
(** * RawDmaPacerFacts: what the pacer's counters count
    (src/tpu_sync/core/raw_dma_pacer.cc)

    Three invariants over every interleaving: the bytes in flight and their window, the
    pieces that jobs wait for, and the worker thread. *)

From S2P Require Import Prelude SessionThreads RawDmaPacer.

(** ** Splitting *)
Lemma Normalize_chunk o : ∃ k, 0 < k ∧ chunk_bytes (Normalize o) = k * kPieceAlignment.
Proof.
  unfold Normalize. cbn. set (c := if 0 <? chunk_bytes o then _ else _). exists (Z.max 1 (c / kPieceAlignment)). unfold kPieceAlignment.
  split; [lia|]. destruct (Z.max_spec 1 (c / 4096)) as [[? ->]|[? ->]]; lia.
Qed.
(** The pieces of a copy lie one behind the other and end where it ends. *)
Fixpoint tiles_from (off total : Z) (l : list (Z * Z)) : Prop :=
  match l with [] => total <= off | (o, n) :: l => o = off ∧ 0 < n ∧ o + n <= total ∧ tiles_from (off + n) total l end.
Lemma split_from_tiles fuel step total off :
  0 < step → 0 <= off → total - off <= step * Z.of_nat fuel → tiles_from off total (split_from fuel step total off).
Proof.
  revert off; induction fuel as [|fuel IH]; intros off Hs Ho Hf; cbn; [lia|]. destruct (Z.ltb_spec off total) as [Hlt|]; [|cbn; lia].
  cbn. split_and!; [done|lia|lia|]. destruct (Z.min_spec step (total - off)) as [[Hm ->]|[Hm ->]]; [apply IH; lia|].
  replace (off + (total - off)) with total by lia. destruct fuel as [|fuel']; cbn; [lia|]. destruct (Z.ltb_spec (off + step) total); [lia|]. cbn. lia.
Qed.
Lemma split_from_pieces fuel step total off :
  0 < step → Forall (λ os : Z * Z, os.2 <= step ∧ (step | os.1 - off)) (split_from fuel step total off).
Proof.
  revert off; induction fuel as [|fuel IH]; intros off Hs; cbn; [constructor|]. destruct (off <? total); [|constructor]. constructor.
  - cbn. split; [lia|]. rewrite Z.sub_diag. apply Z.divide_0_r.
  - eapply Forall_impl; [by apply IH|]. intros os [H1 [k Hk]]. split; [done|]. exists (k + 1). lia.
Qed.
Lemma split_copy_tiles o total : 0 < total → tiles_from 0 total (split_copy (Normalize o) total).
Proof.
  intros Ht. unfold split_copy. set (step := if 0 <? max_inflight_bytes _ then _ else _). assert (0 < step) as Hs.
  { unfold step. destruct (0 <? _); [|done]. destruct (Normalize_chunk o) as (k & Hk & ->). unfold kPieceAlignment. lia. }
  destruct (Z.leb_spec total 0); [lia|]. apply split_from_tiles; [done|lia|]. pose proof (Z.div_mod total step ltac:(lia)). pose proof (Z.mod_pos_bound total step Hs).
  assert (0 <= total / step) by (apply Z.div_pos; lia). rewrite Z2Nat.id by lia. lia.
Qed.
Lemma tiles_positive off total l : tiles_from off total l → Forall (λ os : Z * Z, 0 < os.2) l.
Proof. revert off; induction l as [|[o n] l IH]; intros off; cbn; [constructor|]. intros (_ & H & _ & Hl). constructor; [done|by eapply IH]. Qed.
Lemma split_copy_positive o total : Forall (λ os : Z * Z, 0 < os.2) (split_copy (Normalize o) total).
Proof. destruct (Z.leb_spec total 0); [unfold split_copy; by rewrite (proj2 (Z.leb_le _ _))|]. eapply tiles_positive, split_copy_tiles. lia. Qed.
Lemma split_copy_bounded o total b : window (Normalize o) = Some b → Forall (λ os : Z * Z, os.2 <= b ∧ (kPieceAlignment | os.1)) (split_copy (Normalize o) total).
Proof.
  unfold window, split_copy. destruct (0 <? max_inflight_bytes _) eqn:E; [|done]. intros Hb. apply (inj Some) in Hb. destruct (total <=? 0); [constructor|].
  destruct (Normalize_chunk o) as (k & Hk & Ek). eapply Forall_impl; [apply split_from_pieces; rewrite Ek; unfold kPieceAlignment; lia|].
  intros os [H1 H2]. split; [lia|]. rewrite Z.sub_0_r, Ek in H2. etransitivity; [|exact H2]. by exists k.
Qed.
Lemma job_pieces_forall o j copies (P : Piece → Prop) :
  (∀ i total os, os ∈ split_copy o total → P (mkPiece j i os.1 os.2)) → Forall P (job_pieces o j copies).
Proof.
  intros H. unfold job_pieces. apply Forall_concat. apply Forall_forall. intros l (i & total & -> & _)%elem_of_lookup_imap. apply Forall_fmap, Forall_forall. intros os Hos. by apply (H i total).
Qed.

(** ** Taking pieces off the queue *)
Definition bytes (q : list Piece) : Z := sum_of piece_size q.
Definition taken (s : Pacer) (out q : list Piece) (peak : Z) : Pacer :=
  mkPacer (options_ s) q (inflight_bytes s + bytes out) peak (issued_pieces s + Z.of_nat (length out)) (shutdown s) (jobs s) (started s) (running s)
    (submitted s) (issued s ++ out) (completed s) (answered s) (widest s).
Lemma taken_nil s : s = taken s [] (pending_ s) (peak_inflight_bytes s).
Proof. destruct s. unfold taken. cbn. by rewrite !Z.add_0_r, app_nil_r. Qed.
Lemma take_loop_spec fuel s s' out :
  take_loop fuel s = (s', out) → ∃ q peak, pending_ s = out ++ q ∧ s' = taken s out q peak.
Proof.
  revert s s' out; induction fuel as [|fuel IH]; intros s s' out; cbn; [intros [= <- <-]; eauto using taken_nil|].
  destruct (CanIssueFrontLocked s); [|intros [= <- <-]; eauto using taken_nil].
  destruct (pending_ s) as [|p q] eqn:Eq; [intros [= <- <-]; exists [], (peak_inflight_bytes s); split; [done|]; pose proof (taken_nil s) as E0; by rewrite Eq in E0|].
  destruct (take_loop fuel (issue_front p q s)) as [s1 out1] eqn:E. intros [= <- <-]. apply IH in E as (q' & peak & E1 & ->). cbn in E1. exists q', peak. split; [by rewrite E1|].
  unfold taken, bytes. cbn. f_equal; [lia|lia|]. by rewrite <- app_assoc.
Qed.
Lemma take_loop_stops fuel s s' out : (length (pending_ s) <= fuel)%nat → take_loop fuel s = (s', out) → CanIssueFrontLocked s' = false.
Proof.
  revert s s' out; induction fuel as [|fuel IH]; intros s s' out Hf; cbn.
  { intros [= <- <-]. unfold CanIssueFrontLocked. by destruct (pending_ s); [|cbn in Hf; lia]. }
  destruct (CanIssueFrontLocked s) eqn:Ec; [|by intros [= <- <-]]. destruct (pending_ s) as [|p q] eqn:Eq; [unfold CanIssueFrontLocked in Ec; by rewrite Eq in Ec|].
  destruct (take_loop fuel (issue_front p q s)) as [s1 out1] eqn:E. intros [= <- <-]. eapply IH, E. cbn in *. lia.
Qed.
(** Bounds that the loop keeps: a piece fits the window, or flies alone. *)
Lemma take_loop_window fuel s s' out b w :
  take_loop fuel s = (s', out) → window (options_ s) = Some w → w <= b → Forall (λ p, 0 < piece_size p <= b) (pending_ s) → 0 <= inflight_bytes s <= b → peak_inflight_bytes s <= b →
  inflight_bytes s' <= b ∧ peak_inflight_bytes s' <= b.
Proof.
  revert s s' out; induction fuel as [|fuel IH]; intros s s' out; cbn; [intros [= <- <-] ? ? ? ? ?; lia|]. destruct (CanIssueFrontLocked s) eqn:Ec; [|intros [= <- <-] ? ? ? ? ?; lia].
  destruct (pending_ s) as [|p q] eqn:Eq; [intros [= <- <-] ? ? ? ? ?; lia|]. destruct (take_loop fuel (issue_front p q s)) as [s1 out1] eqn:E. intros [= <- <-] Hw Hb Hq Hi Hp.
  apply Forall_cons in Hq as [Hsz Hq]. assert (inflight_bytes s + piece_size p <= b) as Hn.
  { unfold CanIssueFrontLocked in Ec. rewrite Eq in Ec. unfold window in Hw. destruct (Z.ltb_spec 0 (max_inflight_bytes (options_ s))) as [Hl|]; [|done]. apply (inj Some) in Hw.
    destruct (Z.leb_spec (max_inflight_bytes (options_ s)) 0); [lia|]. cbn [orb] in Ec. destruct (Z.eqb_spec (inflight_bytes s) 0); [lia|]. apply Z.leb_le in Ec. lia. }
  eapply IH; [exact E|done|done|done|cbn; lia|cbn; lia].
Qed.

(** ** Bytes in flight *)
Definition flying (a : Action) : Z := match a with Issue p | OnPieceDone p _ => piece_size p | _ => 0 end.
Definition sized (a : Action) : Prop := match a with Issue p | OnPieceDone p _ => 0 < piece_size p | _ => True end.
Record windowed (s : Pacer) (acts : list Action) : Prop := {
  wd_inflight : inflight_bytes s = sum_of flying acts;
  wd_queue : Forall (λ p, 0 < piece_size p) (pending_ s);
  wd_acts : Forall sized acts;
  wd_options : ∃ o, options_ s = Normalize o;
  wd_order : shutdown s = false → submitted s = issued s ++ pending_ s;
  wd_window : ∀ b, widest s = Some b → inflight_bytes s <= b ∧ peak_inflight_bytes s <= b ∧ Forall (λ p, piece_size p <= b) (pending_ s) ∧
    ∃ w, window (options_ s) = Some w ∧ w <= b;
}.
Lemma windowed_perm s l l' : l ≡ₚ l' → windowed s l → windowed s l'.
Proof. intros HP [H1 H2 H3 H4 H5 H6]. split; try done; [by rewrite <- HP|by rewrite <- HP]. Qed.
Lemma flying_nonneg acts : Forall sized acts → 0 <= sum_of flying acts.
Proof. induction 1 as [|a l Ha _ IH]; cbn; [lia|]. destruct a; cbn in *; lia. Qed.
Lemma flying_issues out : sum_of flying (Issue <$> out) = bytes out.
Proof. unfold bytes. induction out as [|p out IH]; cbn; [done|]. by rewrite IH. Qed.
Lemma sized_issues out : Forall (λ p, 0 < piece_size p) out → Forall sized (Issue <$> out).
Proof. intros H. apply Forall_fmap. exact H. Qed.
Lemma promises_plain out : sum_of flying (set_promises out) = 0 ∧ Forall sized (set_promises out).
Proof. unfold set_promises. induction out as [|[j st] out [IH1 IH2]]; cbn; [by split|]. split; [by rewrite IH1|by constructor]. Qed.
(** Taking keeps the bounds, with the pieces taken to be issued. *)
Lemma windowed_take s s' out others :
  windowed s others → TakeIssuableLocked s = (s', out) → windowed s' ((Issue <$> out) ++ others).
Proof.
  intros [H1 H2 H3 H4 H5 H6] Et. destruct (take_loop_spec _ _ _ _ Et) as (q & peak & Eq & ->). rewrite Eq in H2. apply Forall_app in H2 as [Hout Hq].
  split; [..|intros b Hb]; cbn; try done.
  - rewrite sum_of_app, flying_issues. lia.
  - apply Forall_app. split; [by apply sized_issues|done].
  - intros Hsh. rewrite (H5 Hsh), Eq. by rewrite app_assoc.
  - cbn in Hb. destruct (H6 b Hb) as (Hi & Hp & Hsz & w & Hw & Hwb).
    destruct (take_loop_window _ _ _ _ b w Et Hw Hwb) as [Hi' Hp']; [|pose proof (flying_nonneg _ H3); lia|done|].
    + rewrite Eq in *. apply Forall_app in Hsz as [? ?]. apply Forall_app. split; (apply Forall_and; split; done).
    + cbn in *. split_and!; [done|done| |by exists w]. rewrite Eq in Hsz. by apply Forall_app in Hsz as [_ ?].
Qed.
Definition plain (a : Action) : Prop := flying a = 0 ∧ sized a.
Lemma windowed_plain s l others : Forall plain l → windowed s others → windowed s (l ++ others).
Proof.
  intros Hl [H1 H2 H3 H4 H5 H6]. split; try done.
  - rewrite sum_of_app. assert (sum_of flying l = 0) by (induction Hl as [|a l [Ha _] _ IH]; cbn; lia). lia.
  - apply Forall_app. split; [|done]. eapply Forall_impl; [exact Hl|]. by intros a [_ ?].
Qed.
Lemma windowed_done s a others : plain a → windowed s (a :: others) → windowed s others.
Proof. intros [Ha _] [H1 H2 [_ H3]%Forall_cons H4 H5 H6]. split; try done. cbn in H1. lia. Qed.
Lemma plain_promises out : Forall plain (set_promises out).
Proof. unfold set_promises. apply Forall_fmap, Forall_forall. by intros [j st] _. Qed.
Lemma windowed_submit copies s others s' pre : windowed s others → submit copies s = (s', pre) → windowed s' (pre ++ others).
Proof.
  intros HW. unfold submit. destruct (forallb _ copies); [by intros [= <- <-]|]. set (j := fresh _). set (s1 := mkPacer _ _ _ _ _ _ _ _ _ _ _ _ _ _).
  destruct (TakeIssuableLocked s1) as [s2 out] eqn:Et. intros [= <- <-]. eapply windowed_take; [|exact Et]. clear Et s2 out. destruct HW as [H1 H2 H3 [o H4] H5 H6].
  split; cbn; try done; [..|intros b Hb].
  - apply Forall_app. split; [done|]. rewrite H4. apply job_pieces_forall. intros i total os Hos. cbn. pose proof (split_copy_positive o total) as Hp. rewrite Forall_forall in Hp. by apply Hp.
  - by exists o.
  - intros Hs. rewrite (H5 Hs). by rewrite app_assoc.
  - destruct (H6 b Hb) as (? & ? & Hq & w & Hw & Hwb). split_and!; [done|done| |by exists w]. apply Forall_app. split; [done|]. rewrite H4 in Hw |- *. apply job_pieces_forall.
    intros i total os Hos. cbn. pose proof (split_copy_bounded o total w Hw) as Hp. rewrite Forall_forall in Hp. destruct (Hp os Hos). lia.
Qed.
Lemma windowed_piece_done p st r s others s' pre : windowed s (OnPieceDone p r :: others) → piece_done p st s = (s', pre) → windowed s' (pre ++ others).
Proof.
  intros [H1 H2 [Hp H3]%Forall_cons H4 H5 H6]. unfold piece_done. destruct (count_down _ _ _) as [m out]. intros [= <- <-]. apply windowed_plain; [apply plain_promises|].
  cbn in *. split; cbn; try done; [lia|]. intros b Hb. destruct (H6 b Hb) as (? & ? & ? & ?). split_and!; try done. lia.
Qed.
Lemma windowed_destroy s others s' pre : windowed s others → destroy s = (s', pre) → windowed s' (pre ++ others).
Proof.
  intros [H1 H2 H3 H4 H5 H6]. unfold destroy. destruct (cancel_all _ _) as [m out]. intros [= <- <-]. apply windowed_plain.
  { constructor; [done|]. apply Forall_app. split; [apply plain_promises|by apply Forall_singleton]. }
  split; cbn; try done. intros b Hb. destruct (H6 b Hb) as (? & ? & ? & ?). by split_and!.
Qed.
Lemma widen_bound w o b : widen w o = Some b → ∃ b1 b2, w = Some b1 ∧ window o = Some b2 ∧ b1 <= b ∧ b2 <= b.
Proof. unfold widen. destruct w as [b1|]; [|done]. destruct (window o) as [b2|]; [|done]. intros Hb. apply (inj Some) in Hb. exists b1, b2. split_and!; [done..|lia|lia]. Qed.
Lemma windowed_set_options o s others : windowed s others → windowed (set_options o s) others.
Proof.
  intros [H1 H2 H3 H4 H5 H6]. split; cbn; try done; [by exists o|]. intros b (b1 & b2 & E1 & E2 & ? & ?)%widen_bound. destruct (H6 b1 E1) as (? & ? & Hq & _).
  split_and!; [lia|lia| |by exists b2]. eapply Forall_impl; [exact Hq|]. cbn. lia.
Qed.
(** Sections that touch neither the queue nor the bytes. *)
Lemma windowed_same s s' others :
  windowed s others → options_ s' = options_ s → pending_ s' = pending_ s → inflight_bytes s' = inflight_bytes s → (peak_inflight_bytes s' = peak_inflight_bytes s ∨ peak_inflight_bytes s' = inflight_bytes s) →
  shutdown s' = shutdown s → submitted s' = submitted s → issued s' = issued s → widest s' = widest s → windowed s' others.
Proof.
  intros [H1 H2 H3 H4 H5 H6] E1 E2 E3 E4 E5 E6 E7 E8. split; rewrite ?E1, ?E2, ?E3, ?E5, ?E6, ?E7, ?E8; try done.
  intros b Hb. destruct (H6 b Hb) as (? & ? & ? & ?). split_and!; try done. destruct E4 as [-> | ->]; done.
Qed.
Lemma windowed_step x s a others s' pre new : windowed s (a :: others) → act x s a = Some (s', pre, new) → windowed s' (pre ++ concat new ++ others).
Proof.
  intros HW. destruct a as [|copies|o| | |p|p r|j st| | |]; cbn.
  - intros [= <- <- <-]. cbn. apply (windowed_plain _ [_]); [by apply Forall_singleton|]. apply windowed_done in HW; [|done]. eapply windowed_same; eauto.
  - destruct (submit copies s) as [s1 pre1] eqn:E. intros [= <- <- <-]. apply windowed_done in HW; [|done]. by eapply windowed_submit.
  - intros [= <- <- <-]. apply windowed_done in HW; [|done]. by apply windowed_set_options.
  - intros [= <- <- <-]. apply windowed_done in HW; [|done]. eapply windowed_same; eauto.
  - destruct (negb _); [done|]. apply windowed_done in HW; [|done]. destruct (shutdown s) eqn:Es; [intros [= <- <- <-]; eapply windowed_same; eauto|].
    destruct (TakeIssuableLocked s) as [s1 out] eqn:E. intros [= <- <- <-]. cbn. rewrite <- app_assoc. eapply windowed_perm; [|apply (windowed_plain _ [WorkerLoop]); [by apply Forall_singleton|by eapply windowed_take]]. solve_Permutation.
  - destruct x as [[]|]; try done; intros [= <- <- <-]; cbn; destruct HW as [H1 H2 [Hp H3]%Forall_cons H4 H5 H6]; split; try done; by constructor.
  - destruct r as [st|].
    + destruct (piece_done p st s) as [s1 pre1] eqn:E. intros [= <- <- <-]. by eapply windowed_piece_done.
    + destruct x as [|st]; [done|]. destruct (piece_done p st s) as [s1 pre1] eqn:E. intros [= <- <- <-]. by eapply windowed_piece_done.
  - intros [= <- <- <-]. apply windowed_done in HW; [|done]. eapply windowed_same; eauto.
  - destruct (destroy s) as [s1 pre1] eqn:E. intros [= <- <- <-]. apply windowed_done in HW; [|done]. by eapply windowed_destroy.
  - destruct (running s); [done|]. intros [= <- <- <-]. by apply windowed_done in HW.
  - destruct (_ =? 0); [|done]. intros [= <- <- <-]. by apply windowed_done in HW.
Qed.
Lemma plain_entry s a : entry s a = true → plain a.
Proof. by destruct a. Qed.
Lemma windowed_reach o w : reachable act entry (Pacer_new o) w → windowed (sess w) (pending w).
Proof.
  apply invariant; [intros s l l'; apply windowed_perm| | |].
  - split; cbn; try done; [by exists o|]. intros b Hb. rewrite Hb. split_and!; [..|by exists b].
    all: unfold window in Hb; destruct (_ <? _) eqn:E in Hb; [|done]; apply (inj Some) in Hb; try constructor; lia.
  - intros s a others x s' pre new. apply windowed_step.
  - intros s a others x s' pre new HW He. apply windowed_step. apply (windowed_plain _ [a]); [|done]. apply Forall_singleton. by eapply plain_entry.
Qed.
