(* ===== verification/RawDmaPacerJobs.v ===== *)
(** * RawDmaPacerJobs: what a job waits for
    (src/tpu_sync/core/raw_dma_pacer.cc)

    A job's counter is the number of its pieces that are queued or in flight; its promise
    is set once, when the counter reaches zero, with the first error of its pieces. *)

From S2P Require Import Prelude SessionThreads RawDmaPacer RawDmaPacerFacts.

Definition of_job (j : nat) (p : Piece) : Z := if decide (piece_job p = j) then 1 else 0.
Definition done_of (j : nat) (x : nat * Status) : Z := if decide (x.1 = j) then 1 else 0.
(** The first error among the pieces of [j] that have ended, in the order they did. *)
Definition outcome (j : nat) (log : list (nat * Status)) : Status :=
  foldl (λ st x, if decide (x.1 = j) then (if negb (is_ok x.2) && is_ok st then x.2 else st) else st) OkStatus log.
Definition settles_to (m : gmap nat Job) (x : nat * Status) : Prop :=
  ∃ job, m !! x.1 = Some job ∧ promise job = false ∧ job_status job = x.2.
Definition known (m : gmap nat Job) (j : nat) : Prop := is_Some (m !! j).

(** The books of the jobs [m], when [W j] pieces of [j] are still out, [log] is what has
    ended and [ans] are the promises set or about to be. *)
Record books (m : gmap nat Job) (W : nat → Z) (log ans : list (nat * Status)) : Prop := {
  bk_jobs : ∀ j job, m !! j = Some job → remaining job = W j ∧ promise job = negb (remaining job =? 0) ∧ job_status job = outcome j log;
  bk_answers : ∀ j, sum_of (done_of j) ans = match m !! j with Some job => if promise job then 0 else 1 | None => 0 end;
  bk_settled : Forall (settles_to m) ans;
  bk_log : Forall (λ x, known m x.1) log;
}.
Lemma books_ext m W W' log ans ans' : (∀ j, W j = W' j) → ans ≡ₚ ans' → books m W log ans → books m W' log ans'.
Proof.
  intros HW HP [H1 H2 H3 H4]. split; try done; [|intros j; by rewrite <- HP|by rewrite <- HP]. intros j job Hj. rewrite <- HW. by apply H1.
Qed.
Lemma outcome_snoc j log i st : outcome j (log ++ [(i, st)]) = if decide (i = j) then (if negb (is_ok st) && is_ok (outcome j log) then st else outcome j log) else outcome j log.
Proof. unfold outcome. by rewrite foldl_app. Qed.
Lemma known_insert m i job j : known m j → known (<[i := job]> m) j.
Proof. unfold known. destruct (decide (i = j)) as [<-|]; [by rewrite lookup_insert_eq|by rewrite lookup_insert_ne]. Qed.
Lemma books_count_down m W log ans i st m' out :
  books m W log ans → known m i → 0 < W i → count_down i st m = (m', out) →
  books m' (λ j, W j - if decide (i = j) then 1 else 0) (log ++ [(i, st)]) (ans ++ out).
Proof.
  intros [H1 H2 H3 H4] [job Ej] Hi. unfold count_down. rewrite Ej. destruct (H1 i job Ej) as (Hr & Hp & Hs). rewrite Hr in Hp.
  assert (promise job = true) as Hpr by (rewrite Hp; destruct (Z.eqb_spec (W i) 0); [lia|done]). rewrite Hpr, andb_true_r. rewrite Hs.
  set (st' := if negb (is_ok st) && _ then st else _). intros E.
  assert (∃ b, m' = <[i := mkJob (W i - 1) st' b]> m ∧ b = negb (W i - 1 =? 0) ∧ out = if b then [] else [(i, st')]) as (b & -> & Eb & ->).
  { rewrite Hr in E. destruct (W i - 1 =? 0); injection E as <- <-; by eexists. }
  clear E. split.
  - intros j job'. rewrite outcome_snoc. destruct (decide (i = j)) as [<-|Hne]; [rewrite lookup_insert_eq|rewrite lookup_insert_ne, Z.sub_0_r by done; apply H1]. intros [= <-]. by split_and!.
  - intros j. rewrite sum_of_app, H2. destruct (decide (i = j)) as [<-|Hne].
    + rewrite lookup_insert_eq, Ej, Hpr. destruct b; cbn; [done|]. unfold done_of. cbn. by rewrite decide_True.
    + rewrite lookup_insert_ne by done. destruct b; cbn; [lia|]. unfold done_of. cbn. rewrite decide_False by done. lia.
  - apply Forall_app. split.
    + eapply Forall_impl; [exact H3|]. intros [j st0] (job0 & E0 & Hf & Hst). exists job0. cbn in *. rewrite lookup_insert_ne by (intros <-; congruence). done.
    + destruct b; [constructor|]. apply Forall_singleton. eexists. cbn. by rewrite lookup_insert_eq.
  - apply Forall_app. split; [|apply Forall_singleton; unfold known; cbn; by rewrite lookup_insert_eq]. eapply Forall_impl; [exact H4|]. intros x Hx. by apply known_insert.
Qed.
Lemma count_down_known i st m m' out : count_down i st m = (m', out) → ∀ j, known m j → known m' j.
Proof. unfold count_down. intros E k Hk. repeat case_match; simplify_eq; try done; by apply known_insert. Qed.
Lemma books_cancel_all q m W log ans m' out :
  books m (λ j, sum_of (of_job j) q + W j) log ans → (∀ j, 0 <= W j) → Forall (λ p, known m (piece_job p)) q → cancel_all q m = (m', out) →
  books m' W (log ++ ((λ p, (piece_job p, Err kCancelled)) <$> q)) (ans ++ out) ∧ ∀ j, known m j → known m' j.
Proof.
  revert m log ans m' out; induction q as [|p q IH]; intros m log ans m' out HB HW Hq; cbn.
  { intros [= <- <-]. rewrite !app_nil_r. split; [|done]. by eapply books_ext, HB. }
  destruct (count_down (piece_job p) (Err kCancelled) m) as [m1 out1] eqn:E1. destruct (cancel_all q m1) as [m2 out2] eqn:E2. intros [= <- <-]. apply Forall_cons in Hq as [Hp Hq].
  assert (∀ j, 0 <= sum_of (of_job j) q) as Hnn by (intros j; apply sum_of_nonneg; intros p'; unfold of_job; case_decide; lia).
  assert (0 < sum_of (of_job (piece_job p)) (p :: q) + W (piece_job p)) as Hpos.
  { cbn. unfold of_job at 1. rewrite decide_True by done. specialize (Hnn (piece_job p)). specialize (HW (piece_job p)). lia. }
  pose proof (books_count_down _ _ _ _ _ _ _ _ HB Hp Hpos E1) as HB1. pose proof (count_down_known _ _ _ _ _ E1) as Hk1.
  edestruct (IH m1 (log ++ [(piece_job p, Err kCancelled)]) (ans ++ out1) m2 out2) as [HB2 Hk2]; [|done| |exact E2|].
  - eapply books_ext; [|reflexivity|exact HB1]. intros j. cbn. unfold of_job at 1. case_decide; lia.
  - eapply Forall_impl; [exact Hq|]. intros p' Hp'. by apply Hk1.
  - split; [|intros j Hj; by apply Hk2, Hk1]. rewrite <- !app_assoc in HB2. exact HB2.
Qed.

(** ** Every section of the pacer *)
Definition piece_of (a : Action) : option Piece := match a with Issue p | OnPieceDone p _ => Some p | _ => None end.
Definition promise_of (a : Action) : option (nat * Status) := match a with SetPromise j st => Some (j, st) | _ => None end.
(** The pieces that are out, queued or in flight. *)
Definition out_pieces (s : Pacer) (acts : list Action) : list Piece := pending_ s ++ omap piece_of acts.
Record tallied (s : Pacer) (acts : list Action) : Prop := {
  ct_books : books (jobs s) (λ j, sum_of (of_job j) (out_pieces s acts)) (completed s) (answered s ++ omap promise_of acts);
  ct_known : Forall (λ p, known (jobs s) (piece_job p)) (out_pieces s acts);
  ct_total : ∀ j, sum_of (of_job j) (submitted s) = sum_of (done_of j) (completed s) + sum_of (of_job j) (out_pieces s acts);
}.
Lemma of_job_nonneg j p : 0 <= of_job j p.
Proof. unfold of_job. case_decide; lia. Qed.
(** Sections that neither create nor end pieces. *)
Lemma tallied_same s s' acts acts' :
  tallied s acts → jobs s' = jobs s → completed s' = completed s → submitted s' = submitted s → out_pieces s acts ≡ₚ out_pieces s' acts' →
  answered s ++ omap promise_of acts ≡ₚ answered s' ++ omap promise_of acts' → tallied s' acts'.
Proof.
  intros [H1 H2 H3] Ej Ec Es Hp Ha. split; rewrite ?Ej, ?Ec, ?Es.
  - eapply books_ext; [|exact Ha|exact H1]. intros j. cbn. by rewrite Hp.
  - by rewrite <- Hp.
  - intros j. by rewrite <- Hp.
Qed.
Lemma tallied_perm s l l' : l ≡ₚ l' → tallied s l → tallied s l'.
Proof. intros HP HC. eapply tallied_same; [exact HC|done|done|done|unfold out_pieces; by rewrite HP|by rewrite HP]. Qed.
Lemma pieces_issues (out : list Piece) : omap piece_of (Issue <$> out) = out.
Proof. induction out as [|p out IH]; cbn; [done|]. by rewrite IH. Qed.
Lemma promises_issues (out : list Piece) : omap promise_of (Issue <$> out) = [].
Proof. by induction out. Qed.
Lemma pieces_promises out : omap piece_of (set_promises out) = [].
Proof. unfold set_promises. by induction out. Qed.
Lemma promises_promises out : omap promise_of (set_promises out) = out.
Proof. unfold set_promises. induction out as [|[j st] out IH]; cbn; [done|]. by rewrite IH. Qed.
Lemma tallied_take s s' out others : tallied s others → TakeIssuableLocked s = (s', out) → tallied s' ((Issue <$> out) ++ others).
Proof.
  intros HC (q & peak & Eq & ->)%take_loop_spec. eapply tallied_same; [exact HC|done|done|done| |].
  - unfold out_pieces. cbn. rewrite Eq, omap_app, pieces_issues. solve_Permutation.
  - cbn. by rewrite omap_app, promises_issues.
Qed.
Lemma books_new m W log ans j n :
  books m W log ans → m !! j = None → 0 < n → W j = 0 → books (<[j := mkJob n OkStatus true]> m) (λ i, W i + if decide (j = i) then n else 0) log ans.
Proof.
  intros [H1 H2 H3 H4] Hj Hn HW. assert (outcome j log = OkStatus) as Ho.
  { clear -H4 Hj. unfold outcome. generalize OkStatus. induction H4 as [|[i st] log Hi _ IH]; intros st0; cbn; [done|]. rewrite decide_False; [apply IH|]. intros ->. unfold known in Hi. cbn in Hi. rewrite Hj in Hi. by destruct Hi. }
  split.
  - intros i job. destruct (decide (j = i)) as [<-|Hne]; [rewrite lookup_insert_eq|rewrite lookup_insert_ne, Z.add_0_r by done; apply H1].
    intros [= <-]. cbn. rewrite Ho. split_and!; [lia| |done]. by destruct (Z.eqb_spec n 0); [lia|].
  - intros i. rewrite H2. destruct (decide (j = i)) as [<-|Hne]; [by rewrite lookup_insert_eq, Hj|by rewrite lookup_insert_ne].
  - eapply Forall_impl; [exact H3|]. intros x (job & E & ?). exists job. rewrite lookup_insert_ne by (intros ->; congruence). done.
  - eapply Forall_impl; [exact H4|]. intros x. apply known_insert.
Qed.
Lemma job_pieces_of o j copies i : sum_of (of_job i) (job_pieces o j copies) = if decide (j = i) then Z.of_nat (length (job_pieces o j copies)) else 0.
Proof.
  assert (Forall (λ p, piece_job p = j) (job_pieces o j copies)) as HF by (by apply job_pieces_forall).
  induction HF as [|p l <- _ IH]; cbn [sum_of length]; [by case_decide|]. rewrite IH. unfold of_job. case_decide; lia.
Qed.
Lemma job_pieces_some o j copies : forallb (λ total, total <=? 0) copies = false → 0 < Z.of_nat (length (job_pieces (Normalize o) j copies)).
Proof.
  intros Hf. assert (∃ p, p ∈ job_pieces (Normalize o) j copies) as [p Hp]; [|destruct (job_pieces _ _ _); [by apply not_elem_of_nil in Hp|cbn; lia]].
  assert (∃ i total, copies !! i = Some total ∧ 0 < total) as (i & total & Hi & Ht).
  { induction copies as [|c copies IH]; [done|]. cbn in Hf. destruct (Z.leb_spec c 0); [destruct IH as (i & t & ? & ?); [done|]; by exists (S i), t|]. by exists 0%nat, c. }
  pose proof (split_copy_tiles o total Ht) as Hs. destruct (split_copy (Normalize o) total) as [|os l] eqn:E; [cbn in Hs; lia|]. exists (mkPiece j i os.1 os.2).
  unfold job_pieces. apply list_elem_of_In, in_concat. eexists. split; [apply list_elem_of_In, elem_of_lookup_imap; exists i, total; split; [reflexivity|done]|].
  rewrite E. apply list_elem_of_In. cbn. by left.
Qed.
Lemma tallied_submit copies s others s' pre : (∃ o, options_ s = Normalize o) → tallied s others → submit copies s = (s', pre) → tallied s' (pre ++ others).
Proof.
  intros [o Ho] HC. unfold submit. destruct (forallb _ copies) eqn:Ef; [by intros [= <- <-]|]. set (j := fresh _). set (s1 := mkPacer _ _ _ _ _ _ _ _ _ _ _ _ _ _).
  destruct (TakeIssuableLocked s1) as [s2 out] eqn:Et. intros [= <- <-]. eapply tallied_take; [|exact Et]. clear Et s2 out. destruct HC as [H1 H2 H3].
  assert (jobs s !! j = None) as Hj by (apply not_elem_of_dom, is_fresh). set (pieces := job_pieces (options_ s) j copies) in *.
  assert (∀ i, sum_of (of_job i) (out_pieces s1 others) = sum_of (of_job i) (out_pieces s others) + if decide (j = i) then Z.of_nat (length pieces) else 0) as Hsum.
  { intros i. unfold out_pieces. cbn. rewrite !sum_of_app. unfold pieces. rewrite job_pieces_of. lia. }
  assert (sum_of (of_job j) (out_pieces s others) = 0) as H0.
  { clear -H2 Hj. induction H2 as [|p l Hp _ IH]; cbn; [done|]. rewrite IH. unfold of_job. rewrite decide_False; [done|]. intros E. unfold known in Hp. rewrite E, Hj in Hp. by destruct Hp. }
  split; cbn.
  - eapply books_ext; [|reflexivity|apply (books_new _ _ _ _ j (Z.of_nat (length pieces)) H1 Hj); [unfold pieces; rewrite Ho; by apply job_pieces_some|done]]. intros i. cbn. by rewrite Hsum.
  - unfold out_pieces. cbn. rewrite <- app_assoc. unfold out_pieces in H2. apply Forall_app in H2 as [Ha Hb]. rewrite !Forall_app. split_and!.
    + eapply Forall_impl; [exact Ha|]. intros p. apply known_insert.
    + unfold pieces. apply job_pieces_forall. intros. unfold known. cbn. by rewrite lookup_insert_eq.
    + eapply Forall_impl; [exact Hb|]. intros p. apply known_insert.
  - intros i. rewrite Hsum, sum_of_app, H3. unfold pieces. rewrite job_pieces_of. lia.
Qed.
Lemma tallied_piece_done p st r s others s' pre : tallied s (OnPieceDone p r :: others) → piece_done p st s = (s', pre) → tallied s' (pre ++ others).
Proof.
  intros [H1 H2 H3]. unfold piece_done. destruct (count_down _ _ _) as [m out] eqn:E. intros [= <- <-].
  assert (∀ j, sum_of (of_job j) (out_pieces s (OnPieceDone p r :: others)) = sum_of (of_job j) (pending_ s ++ omap piece_of others) + if decide (piece_job p = j) then 1 else 0) as Hsum.
  { intros j. unfold out_pieces. cbn. rewrite !sum_of_app. cbn. unfold of_job. case_decide; lia. }
  assert (∀ s2, pending_ s2 = pending_ s → out_pieces s2 (set_promises out ++ others) = pending_ s ++ omap piece_of others) as Hout.
  { intros s2 E2. unfold out_pieces. by rewrite E2, omap_app, pieces_promises. }
  assert (known (jobs s) (piece_job p)) as Hp. { rewrite Forall_forall in H2. apply H2. unfold out_pieces. cbn. apply elem_of_app. right. by left. }
  pose proof (sum_of_nonneg (of_job (piece_job p)) (pending_ s ++ omap piece_of others) (of_job_nonneg _)) as Hnn.
  eapply (books_count_down _ _ _ _ _ st) in H1; [|exact Hp|cbn; rewrite Hsum, decide_True by done; lia|exact E]. split; cbn [jobs completed answered submitted].
  - eapply books_ext; [| |exact H1].
    + intros j. cbn beta. rewrite Hsum, Hout by done. case_decide; lia.
    + rewrite omap_app, promises_promises. cbn. solve_Permutation.
  - rewrite Hout by done. pose proof (count_down_known _ _ _ _ _ E) as Hk. rewrite Forall_forall in H2 |- *. intros p' Hp'. apply Hk, H2. unfold out_pieces. cbn.
    apply elem_of_app in Hp' as [|]; apply elem_of_app; [by left|right; by right].
  - intros j. rewrite Hout, H3, Hsum, !sum_of_app by done. cbn. unfold done_of. cbn. case_decide; lia.
Qed.
Lemma cancelled_of j q : sum_of (done_of j) ((λ p, (piece_job p, Err kCancelled : Status)) <$> q) = sum_of (of_job j) q.
Proof. induction q as [|p q IH]; cbn; [done|]. by rewrite IH. Qed.
Lemma tallied_destroy s others s' pre : tallied s others → destroy s = (s', pre) → tallied s' (pre ++ others).
Proof.
  intros [H1 H2 H3]. unfold destroy. destruct (cancel_all _ _) as [m out] eqn:E. intros [= <- <-]. unfold out_pieces in *. apply Forall_app in H2 as [Hq Ho].
  assert (∀ l, omap piece_of ((Join :: set_promises out ++ [AwaitIdle]) ++ l) = omap piece_of l) as Hp. { intros l. cbn. rewrite !omap_app, pieces_promises. done. }
  assert (∀ l, omap promise_of ((Join :: set_promises out ++ [AwaitIdle]) ++ l) = out ++ omap promise_of l) as Hpr. { intros l. cbn. rewrite !omap_app, promises_promises. cbn. by rewrite app_nil_r. }
  eapply (books_cancel_all _ _ (λ j, sum_of (of_job j) (omap piece_of others))) in E as [HB Hk]; [|..].
  - split; unfold out_pieces; cbn [pending_ jobs completed answered submitted].
    + eapply books_ext; [| |exact HB]; [intros j; cbn beta; by rewrite (Hp others)|]. rewrite (Hpr others), <- app_assoc. apply Permutation_app_head, Permutation_app_comm.
    + rewrite (Hp others). eapply Forall_impl; [exact Ho|]. intros p. apply Hk.
    + intros j. rewrite (Hp others), H3, !sum_of_app, cancelled_of. cbn. lia.
  - eapply books_ext; [|reflexivity|exact H1]. intros j. cbn. by rewrite sum_of_app.
  - intros j. apply sum_of_nonneg, of_job_nonneg.
  - done.
Qed.
Lemma tallied_step x s a others s' pre new :
  (∃ o, options_ s = Normalize o) → tallied s (a :: others) → act x s a = Some (s', pre, new) → tallied s' (pre ++ concat new ++ others).
Proof.
  intros Ho HC. destruct a as [|copies|o| | |p|p r|j st| | |]; cbn.
  - intros [= <- <- <-]. eapply tallied_same; try done; eauto.
  - destruct (submit copies s) as [s1 pre1] eqn:E. intros [= <- <- <-]. eapply tallied_submit; [done| |exact E]. by eapply tallied_same.
  - intros [= <- <- <-]. by eapply tallied_same.
  - intros [= <- <- <-]. by eapply tallied_same.
  - destruct (negb _); [done|]. destruct (shutdown s) eqn:Es; [intros [= <- <- <-]; by eapply tallied_same|].
    destruct (TakeIssuableLocked s) as [s1 out] eqn:E. intros [= <- <- <-]. cbn. rewrite <- app_assoc. eapply tallied_perm; [|eapply (tallied_take s s1 out (WorkerLoop :: others)); [done|exact E]]. done.
  - destruct x as [[]|]; try done; intros [= <- <- <-]; by eapply tallied_same.
  - destruct r as [st|].
    + destruct (piece_done p st s) as [s1 pre1] eqn:E. intros [= <- <- <-]. by eapply tallied_piece_done.
    + destruct x as [|st]; [done|]. destruct (piece_done p st s) as [s1 pre1] eqn:E. intros [= <- <- <-]. by eapply tallied_piece_done.
  - intros [= <- <- <-]. eapply tallied_same; try done. cbn. solve_Permutation.
  - destruct (destroy s) as [s1 pre1] eqn:E. intros [= <- <- <-]. eapply tallied_destroy; [|exact E]. by eapply tallied_same.
  - destruct (running s); [done|]. intros [= <- <- <-]. by eapply tallied_same.
  - destruct (_ =? 0); [|done]. intros [= <- <- <-]. by eapply tallied_same.
Qed.
Lemma tallied_reach o w : reachable act entry (Pacer_new o) w → tallied (sess w) (pending w).
Proof.
  intros Hw. enough (windowed (sess w) (pending w) ∧ tallied (sess w) (pending w)) by naive_solver. revert Hw.
  apply (invariant act entry (λ s l, windowed s l ∧ tallied s l)).
  - intros s l l' HP [HW HC]. split; [by eapply windowed_perm|by eapply tallied_perm].
  - split; [by apply (windowed_reach o (mkWorld (Pacer_new o) [])), rtc_refl|]. split; cbn; by try split.
  - intros s a others x s' pre new [HW HC] E. split; [by eapply windowed_step|]. eapply tallied_step; [apply HW|done|exact E].
  - intros s a others x s' pre new [HW HC] He E. assert (windowed s (a :: others)) as HW1 by (apply (windowed_plain _ [a]); [apply Forall_singleton; by eapply plain_entry|done]).
    split; [by eapply windowed_step|]. eapply tallied_step; [apply HW| |exact E]. eapply tallied_same; [exact HC|done..| |]; by destruct a.
Qed.
