(* ===== verification/RawDmaPacerProperties.v ===== *)
(** * RawDmaPacerProperties: the window, futures and progress of the pacer
    (src/tpu_sync/core/raw_dma_pacer.{h,cc}) *)

From S2P Require Import Prelude SessionThreads RawDmaPacer RawDmaPacerFacts RawDmaPacerJobs.

Abbreviation used o := (reachable act entry (Pacer_new o)).

(** ** The worker thread *)
Definition working (a : Action) : Z := match a with WorkerLoop => 1 | _ => 0 end.
Definition fine (s : Pacer) (a : Action) : Prop :=
  match a with
  | Join | AwaitIdle => shutdown s = true
  | Start | Submit _ | SetOptions _ | ResetPeak | Destroy => False
  | _ => True
  end.
Record manned (s : Pacer) (acts : list Action) : Prop := {
  mn_worker : sum_of working acts = if running s then 1 else 0;
  mn_running : if started s then (shutdown s = false → running s = true) else running s = false;
  mn_empty : started s = false ∨ shutdown s = true → pending_ s = [];
  mn_fine : Forall (fine s) acts;
}.
Lemma manned_perm s l l' : l ≡ₚ l' → manned s l → manned s l'.
Proof. intros HP [H1 H2 H3 H4]. split; try done; [by rewrite <- HP|by rewrite <- HP]. Qed.
(** Actions that go on without the worker's state. *)
Definition runnable (a : Action) : Prop := match a with Issue _ | OnPieceDone _ _ | SetPromise _ _ => True | _ => False end.
Lemma runnable_working l : Forall runnable l → sum_of working l = 0.
Proof. induction 1 as [|a l Ha _ IH]; cbn; [done|]. by destruct a. Qed.
Lemma runnable_fine s l : Forall runnable l → Forall (fine s) l.
Proof. intros H. eapply Forall_impl; [exact H|]. by intros []. Qed.
Lemma runnable_issues (out : list Piece) : Forall runnable (Issue <$> out).
Proof. apply Forall_fmap, Forall_forall. done. Qed.
Lemma runnable_promises out : Forall runnable (set_promises out).
Proof. apply Forall_fmap, Forall_forall. done. Qed.
Lemma manned_same s s' pre others :
  manned s others → Forall runnable pre → running s' = running s → started s' = started s → shutdown s' = shutdown s → (pending_ s = [] → pending_ s' = []) → manned s' (pre ++ others).
Proof.
  intros [H1 H2 H3 H4] Hp Er Est Esh Ep. split; rewrite ?Er, ?Est, ?Esh; try done.
  - rewrite sum_of_app, runnable_working; done.
  - intros H. by apply Ep, H3.
  - apply Forall_app. split; [by apply runnable_fine|]. eapply Forall_impl; [exact H4|]. intros []; cbn; rewrite ?Esh; done.
Qed.
Lemma manned_done s a others : runnable a → manned s (a :: others) → manned s others.
Proof. intros Ha [H1 H2 H3 [_ H4]%Forall_cons]. split; try done. by destruct a. Qed.
(** What an action that is always runnable leaves. *)
Lemma runnable_act x s a s' pre new :
  runnable a → act x s a = Some (s', pre, new) →
  Forall runnable pre ∧ Forall runnable (concat new) ∧ running s' = running s ∧ started s' = started s ∧ shutdown s' = shutdown s ∧ pending_ s' = pending_ s.
Proof.
  destruct a as [| | | | |p|p r|j st| | |]; try done; intros _; cbn.
  - destruct x as [[]|]; try done; intros [= <- <- <-]; split_and!; try done; by repeat constructor.
  - assert (∀ st, let '(s1, pre1) := piece_done p st s in Some (s1, pre1, []) = Some (s', pre, new) →
      Forall runnable pre ∧ Forall runnable (concat new) ∧ running s' = running s ∧ started s' = started s ∧ shutdown s' = shutdown s ∧ pending_ s' = pending_ s) as H.
    { intros st. unfold piece_done. destruct (count_down _ _ _) as [m out]. intros [= <- <- <-]. split_and!; try done. apply runnable_promises. }
    destruct r as [st|]; [|destruct x as [|st]; [done|]]; specialize (H st); by destruct (piece_done p st s).
  - intros [= <- <- <-]. by split_and!.
Qed.
Lemma manned_runnable x s a others s' pre new : runnable a → manned s (a :: others) → act x s a = Some (s', pre, new) → manned s' (pre ++ concat new ++ others).
Proof.
  intros Hr HM%manned_done (H1 & H2 & H3 & H4 & H5 & H6)%runnable_act; [|done..]. rewrite app_assoc. eapply manned_same; eauto; [by apply Forall_app|by rewrite H6].
Qed.
Lemma manned_worker x s others s' pre new : manned s (WorkerLoop :: others) → act x s WorkerLoop = Some (s', pre, new) → manned s' (pre ++ concat new ++ others).
Proof.
  intros HM. pose proof HM as [H1 H2 H3 [_ H4]%Forall_cons]. cbn in *. assert (0 <= sum_of working others) as Hnn by (apply sum_of_nonneg; intros []; cbn; lia).
  destruct (running s) eqn:Er; [|lia]. destruct (negb _); [done|]. destruct (shutdown s) eqn:Esh.
  - intros [= <- <- <-]. split; cbn; try done; [lia|destruct (started s); [intros; congruence|done]|auto].
  - destruct (TakeIssuableLocked s) as [s1 out] eqn:Et. intros [= <- <- <-]. apply take_loop_spec in Et as (q & peak & Eq & ->). cbn. rewrite <- app_assoc.
    apply (manned_same s _ (Issue <$> out)); cbn; try done; [apply runnable_issues|].
    intros E. rewrite E in Eq. symmetry in Eq. by apply app_nil in Eq as [_ ->].
Qed.
Lemma manned_step x s a others s' pre new : manned s (a :: others) → act x s a = Some (s', pre, new) → manned s' (pre ++ concat new ++ others).
Proof.
  intros HM. pose proof (mn_fine _ _ HM) as [Hf _]%Forall_cons. destruct a; try done; try (by apply manned_runnable); [by apply manned_worker|..]; cbn.
  - destruct (running s) eqn:Er; [done|]. intros [= <- <- <-]. destruct HM as [H1 H2 H3 [_ H4]%Forall_cons]. by split.
  - destruct (_ =? 0); [|done]. intros [= <- <- <-]. destruct HM as [H1 H2 H3 [_ H4]%Forall_cons]. by split.
Qed.
Lemma manned_call x s a others s' pre new :
  manned s others → entry s a = true → act x s a = Some (s', pre, new) → manned s' (pre ++ concat new ++ others).
Proof.
  intros HM He. destruct a; try done; cbn in *.
  - intros [= <- <- <-]. apply negb_true_iff in He. destruct HM as [H1 H2 H3 H4]. rewrite He in H2. rewrite H2 in H1. split; cbn; try done; [lia|by intros [?|?]; [|auto]|by constructor].
  - apply andb_true_iff in He as [Hs Hd%negb_true_iff]. unfold submit. destruct (forallb _ _); [by intros [= <- <- <-]|]. destruct (TakeIssuableLocked _) as [s1 out] eqn:Et. intros [= <- <- <-].
    apply take_loop_spec in Et as (q & peak & Eq & ->). destruct HM as [H1 H2 H3 H4]. split; cbn; try done; [by rewrite sum_of_app, runnable_working by apply runnable_issues|by intros [|]; congruence|].
    apply Forall_app. split; [apply runnable_fine, runnable_issues|]. by eapply Forall_impl; [exact H4|intros []].
  - intros [= <- <- <-]. by apply (manned_same s _ []).
  - intros [= <- <- <-]. by apply (manned_same s _ []).
  - apply andb_true_iff in He as [Hs Hd%negb_true_iff]. unfold destroy. destruct (cancel_all _ _) as [m out]. intros [= <- <- <-]. destruct HM as [H1 H2 H3 H4]. rewrite Hs in H2. split; cbn; try done.
    + rewrite !sum_of_app, runnable_working by apply runnable_promises. cbn. lia.
    + by rewrite Hs.
    + constructor; [done|]. rewrite <- app_assoc. apply Forall_app. split; [apply runnable_fine, runnable_promises|]. constructor; [done|]. eapply Forall_impl; [exact H4|by intros []].
Qed.
Lemma manned_reach o w : used o w → manned (sess w) (pending w).
Proof. apply invariant; [intros s l l'; apply manned_perm|by split|intros s a others x s' pre new; apply manned_step|intros s a others x s' pre new; apply manned_call]. Qed.

(** ** The shape of threads

    Ready actions, then what a thread waits for: the worker for room, the destructor for
    the worker and for the pieces in flight. *)
Definition waits (t : list Action) : Prop :=
  t = [] ∨ t = [WorkerLoop] ∨ t = [AwaitIdle] ∨ ∃ out, t = Join :: set_promises out ++ [AwaitIdle].
Definition pacer_shape (t : list Action) : Prop := ∃ body tail, t = body ++ tail ∧ Forall runnable body ∧ waits tail.
Lemma shape_runnable body tail : Forall runnable body → waits tail → pacer_shape (body ++ tail).
Proof. intros H1 H2. by exists body, tail. Qed.
Lemma shape_all_runnable body : Forall runnable body → pacer_shape body.
Proof. intros H. exists body, []. rewrite app_nil_r. split_and!; try done. by left. Qed.
Lemma shape_new x s a s' pre new : runnable a → act x s a = Some (s', pre, new) → Forall pacer_shape new.
Proof.
  intros Hr (_ & Hn & _)%runnable_act; [|done]. induction new as [|t new IH]; [constructor|]. cbn in Hn. apply Forall_app in Hn as [? ?]. constructor; [by apply shape_all_runnable|by apply IH].
Qed.
Lemma shape_step x s a rest s' pre new : pacer_shape (a :: rest) → act x s a = Some (s', pre, new) → pacer_shape (pre ++ rest) ∧ Forall pacer_shape new.
Proof.
  intros ([|b body] & tail & E & Hb & Ht); cbn in E.
  - subst tail. destruct Ht as [?|[[= -> ->]|[[= -> ->]|(out & [= -> ->])]]]; [done|..]; cbn.
    + destruct (negb _); [done|]. destruct (shutdown s); [intros [= <- <- <-]; split; [by apply shape_all_runnable|constructor]|]. destruct (TakeIssuableLocked s) as [s1 out]. intros [= <- <- <-].
      rewrite app_nil_r. split; [|constructor]. apply shape_runnable; [apply runnable_issues|]. by right; left.
    + destruct (_ =? 0); [|done]. intros [= <- <- <-]. split; [by apply shape_all_runnable|constructor].
    + destruct (running s); [done|]. intros [= <- <- <-]. split; [|constructor]. apply (shape_runnable (set_promises out)); [apply runnable_promises|]. by right; right; left.
  - injection E as <- ->. apply Forall_cons in Hb as [Ha Hb]. intros E. pose proof (shape_new _ _ _ _ _ _ Ha E). apply runnable_act in E as (Hp & _); [|done].
    split; [|done]. rewrite app_assoc. apply shape_runnable; [by apply Forall_app|done].
Qed.
Lemma shape_call x s a s' pre new : entry s a = true → act x s a = Some (s', pre, new) → pacer_shape pre ∧ Forall pacer_shape new.
Proof.
  intros He. destruct a; try done; cbn.
  - intros [= <- <- <-]. split; [by apply shape_all_runnable|]. apply Forall_singleton. apply (shape_runnable []); [constructor|]. by right; left.
  - unfold submit. destruct (forallb _ _); [intros [= <- <- <-]; split; [by apply shape_all_runnable|constructor]|]. destruct (TakeIssuableLocked _) as [s1 out]. intros [= <- <- <-].
    split; [apply shape_all_runnable, runnable_issues|constructor].
  - intros [= <- <- <-]. split; [by apply shape_all_runnable|constructor].
  - intros [= <- <- <-]. split; [by apply shape_all_runnable|constructor].
  - unfold destroy. destruct (cancel_all _ _) as [m out]. intros [= <- <- <-]. split; [|constructor]. apply (shape_runnable []); [constructor|]. right; right; right. by exists out.
Qed.
Lemma shapes o w : used o w → Forall pacer_shape (threads w).
Proof. apply threads_forall; [intros x s a rest s' pre new; apply shape_step|intros x s a s' pre new; apply shape_call]. Qed.
(** When nobody can go on, nothing is runnable. *)
Lemma stuck_waits o w : used o w → (∀ w', ¬ step act w w') → Forall waits (threads w).
Proof.
  intros Hw Hs. pose proof (shapes o w Hw) as Hsh. rewrite Forall_forall in Hsh |- *. intros t Ht. destruct (Hsh t Ht) as ([|a body] & tail & -> & Hb & Hwt); [done|].
  apply Forall_cons in Hb as [Ha _]. apply list_elem_of_split in Ht as (t1 & t2 & E). exfalso.
  assert (∃ x o', act x (sess w) a = Some o') as (x & o' & Ea).
  { destruct a as [| | | | |p|p r|j st| | |]; try done; cbn; [exists (Issued true); eauto|exists (Result OkStatus)|exists (Result OkStatus); eauto].
    destruct r as [st|]; [|set (st := OkStatus)]; destruct (piece_done p st (sess w)); eauto. }
  destruct (step_head act w t1 a (body ++ tail) t2 x o' E Ea) as [w' Hst]. by apply (Hs w').
Qed.
Lemma stuck_head w a rest x : (∀ w', ¬ step act w w') → a :: rest ∈ threads w → act x (sess w) a = None.
Proof.
  intros Hs (t1 & t2 & E)%list_elem_of_split. destruct (act x (sess w) a) as [o|] eqn:Ea; [|done]. destruct (step_head act w t1 a rest t2 x o E Ea) as [w' Hst]. by destruct (Hs w').
Qed.
Lemma flying_pieces acts : sum_of flying acts = bytes (omap piece_of acts).
Proof. induction acts as [|a acts IH]; cbn; [done|]. rewrite IH. by destruct a. Qed.
Lemma waits_no_pieces ths : Forall waits ths → omap piece_of (concat ths) = [].
Proof.
  induction 1 as [|t ths Ht _ IH]; cbn; [done|]. rewrite omap_app, IH, app_nil_r. destruct Ht as [->|[->|[->|(out & ->)]]]; try done. cbn. by rewrite omap_app, pieces_promises.
Qed.
Lemma pending_thread (w : World Pacer Action) a : a ∈ pending w → ∃ t, t ∈ threads w ∧ a ∈ t.
Proof. intros (t & Ht & Ha)%list_elem_of_In%in_concat. exists t. by rewrite !list_elem_of_In. Qed.
Lemma worker_waits (w : World Pacer Action) : sum_of working (pending w) = 1 → Forall waits (threads w) → [WorkerLoop] ∈ threads w.
Proof.
  intros Hs Hw. assert (WorkerLoop ∈ pending w) as (t & Ht & Ha)%pending_thread.
  { induction (pending w) as [|a l IH]; [done|]. cbn in Hs. destruct a; cbn in Hs; try (right; apply IH; lia). by left. }
  rewrite Forall_forall in Hw. destruct (Hw t Ht) as [->|[->|[->|(out & ->)]]]; [by apply not_elem_of_nil in Ha|done|apply list_elem_of_singleton in Ha; done|].
  apply elem_of_cons in Ha as [?|[Ha|Ha%list_elem_of_singleton]%elem_of_app]; [done| |done]. unfold set_promises in Ha. apply list_elem_of_fmap in Ha as (js & ? & _). done.
Qed.
Section stuck.
Context (o : RawDmaPacerOptions) (w : World Pacer Action) (Hw : used o w) (Hs : ∀ w', ¬ step act w w').
Lemma stuck_idle : inflight_bytes (sess w) = 0 ∧ omap piece_of (pending w) = [].
Proof using Hw Hs.
  pose proof (waits_no_pieces _ (stuck_waits o w Hw Hs)) as E. rewrite (wd_inflight _ _ (windowed_reach o w Hw)), flying_pieces. unfold pending. by rewrite E.
Qed.
Lemma stuck_destroyed : shutdown (sess w) = true → pending w = [].
Proof using Hw Hs.
  intros Hd. destruct stuck_idle as [Hi _]. pose proof (stuck_waits o w Hw Hs) as Hwt. pose proof (manned_reach o w Hw) as HM.
  assert ([WorkerLoop] ∉ threads w) as Hno.
  { intros Hin. pose proof (stuck_head w WorkerLoop [] (Issued true) Hs Hin) as E. cbn in E. unfold WorkerShouldWakeLocked in E. by rewrite Hd in E. }
  assert (running (sess w) = false) as Hr. { pose proof (mn_worker _ _ HM) as E. destruct (running (sess w)); [|done]. by destruct (Hno (worker_waits w E Hwt)). }
  unfold pending. assert (Forall (.= []) (threads w)) as Hall; [|clear -Hall; by induction Hall as [|t ths E _ IH]; [|cbn; rewrite E]].
  rewrite Forall_forall in Hwt |- *. intros t Ht. destruct (Hwt t Ht) as [->|[->|[->|(out & ->)]]]; [done|done|..].
  - pose proof (stuck_head w AwaitIdle [] (Issued true) Hs Ht) as E. cbn in E. by rewrite Hi in E.
  - pose proof (stuck_head w Join _ (Issued true) Hs Ht) as E. cbn in E. by rewrite Hr in E.
Qed.
Lemma stuck_queue : pending_ (sess w) = [].
Proof using Hw Hs.
  pose proof (manned_reach o w Hw) as HM. destruct (shutdown (sess w)) eqn:Hd; [by apply (mn_empty _ _ HM); right|]. destruct (started (sess w)) eqn:Hst; [|by apply (mn_empty _ _ HM); left].
  pose proof (mn_running _ _ HM) as Hr. rewrite Hst in Hr. pose proof (mn_worker _ _ HM) as Hk. rewrite (Hr Hd) in Hk.
  pose proof (stuck_head w WorkerLoop [] (Issued true) Hs (worker_waits w Hk (stuck_waits o w Hw Hs))) as E. cbn in E. rewrite Hd in E.
  unfold WorkerShouldWakeLocked, CanIssueFrontLocked in E. rewrite Hd in E. destruct (pending_ (sess w)) as [|p q]; [done|]. rewrite (proj1 stuck_idle), orb_true_r in E. cbn in E.
  by destruct (TakeIssuableLocked (sess w)).
Qed.
Lemma stuck_promises : omap promise_of (pending w) = [].
Proof using Hw Hs.
  destruct (shutdown (sess w)) eqn:Hd; [by rewrite (stuck_destroyed Hd)|]. pose proof (mn_fine _ _ (manned_reach o w Hw)) as Hf. pose proof (stuck_waits o w Hw Hs) as Hwt.
  unfold pending in *. induction Hwt as [|t ths Ht _ IH]; [done|]. cbn in *. apply Forall_app in Hf as [Hf1 Hf2]. rewrite omap_app, (IH Hf2), app_nil_r.
  destruct Ht as [->|[->|[->|(out & ->)]]]; try done. apply Forall_cons in Hf1 as [Hf1 _]. cbn in Hf1. congruence.
Qed.
End stuck.

(** ** Every run ends *)
Definition cost (a : Action) : Z := match a with Issue _ => 3 | OnPieceDone _ _ => 2 | SetPromise _ _ | WorkerLoop | Join | AwaitIdle => 1 | _ => 0 end.
Definition queue_cost (s : Pacer) : Z := 4 * Z.of_nat (length (pending_ s)).
Lemma cost_issues (out : list Piece) : sum_of cost (Issue <$> out) = 3 * Z.of_nat (length out).
Proof. induction out as [|p out IH]; cbn [fmap list_fmap sum_of length cost]; lia. Qed.
Lemma count_down_out i st m m' out : count_down i st m = (m', out) → (length out <= 1)%nat.
Proof. unfold count_down. intros E. repeat case_match; simplify_eq; cbn; lia. Qed.
Lemma piece_done_cost p st s s' pre : piece_done p st s = (s', pre) → sum_of cost pre <= 1 ∧ pending_ s' = pending_ s.
Proof.
  unfold piece_done. destruct (count_down _ _ _) as [m out] eqn:E. intros [= <- <-]. split; [|done]. apply count_down_out in E. destruct out as [|? [|]]; cbn in *; lia.
Qed.
Lemma pacer_cost_decreases x s a s' pre new : fine s a → act x s a = Some (s', pre, new) → queue_cost s' + sum_of cost (pre ++ concat new) < queue_cost s + cost a.
Proof.
  unfold queue_cost. intros Hf. destruct a as [| | | | |p|p r|j st| | |]; try done; cbn [act cost].
  - unfold WorkerShouldWakeLocked. destruct (shutdown s) eqn:Hd; cbn; [intros [= <- <- <-]; cbn; lia|]. destruct (CanIssueFrontLocked s) eqn:Ec; [|done]. cbn.
    destruct (TakeIssuableLocked s) as [s1 out] eqn:Et. intros [= <- <- <-]. assert (out ≠ []) as Hne.
    { unfold TakeIssuableLocked in Et. destruct (pending_ s) as [|p q] eqn:Eq; [unfold CanIssueFrontLocked in Ec; by rewrite Eq in Ec|]. cbn in Et. rewrite Ec, Eq in Et. destruct (take_loop _ _) as [s2 o2]. by injection Et as <- <-. }
    apply take_loop_spec in Et as (q & peak & Eq & ->). cbn. rewrite Eq, app_nil_r, sum_of_app, cost_issues, length_app. destruct out; [done|]. cbn [length sum_of cost]. lia.
  - destruct x as [[]|]; try done; intros [= <- <- <-]; cbn; lia.
  - destruct r as [st|]; [|destruct x as [|st]; [done|]]; destruct (piece_done p st s) as [s1 pre1] eqn:E; intros [= <- <- <-]; apply piece_done_cost in E as [? ->]; cbn; rewrite app_nil_r; lia.
  - intros [= <- <- <-]. cbn. lia.
  - destruct (running s); [done|]. intros [= <- <- <-]. cbn. lia.
  - destruct (_ =? 0); [|done]. intros [= <- <- <-]. cbn. lia.
Qed.
Lemma pacer_bounded o n w w' : used o w → nsteps (step act) n w w' → Z.of_nat n + work cost queue_cost w' <= work cost queue_cost w.
Proof.
  intros Hw Hn. induction Hn as [w|n w1 w2 w3 Hst _ IH]; [lia|]. assert (used o w2) as Hw2 by (eapply rtc_r; [exact Hw|by left]). specialize (IH Hw2).
  pose proof (mn_fine _ _ (manned_reach o w1 Hw)) as Hf. apply step_pending in Hst as (a & x & pre & new & others & E & P1 & P2). rewrite P1 in Hf. apply Forall_cons in Hf as [Hf _].
  apply pacer_cost_decreases in E; [|done]. unfold work in *. rewrite P1, P2 in *. rewrite !sum_of_app in *. cbn in *. lia.
Qed.
Lemma work_positive w : 0 <= work cost queue_cost w.
Proof. unfold work, queue_cost. pose proof (sum_of_nonneg cost (pending w)) as H. specialize (H ltac:(intros []; cbn; lia)). lia. Qed.

(** C28: The pacer keeps its window: however submissions, completions and changes of the
    options interleave, the bytes it counts are those of the pieces that are in flight, and
    they never exceed the widest window that has been in force (the limit, or one piece
    where a piece is larger); pieces are issued first in, first out. *)
Theorem pacer_window o w b :
  used o w → widest (sess w) = Some b →
  inflight_bytes (sess w) = bytes (omap piece_of (pending w)) ∧ inflight_bytes (sess w) <= b ∧ peak_inflight_bytes (sess w) <= b ∧
  (shutdown (sess w) = false → submitted (sess w) = issued (sess w) ++ pending_ (sess w)).
Proof.
  intros Hw Hb. pose proof (windowed_reach o w Hw) as HW. destruct (wd_window _ _ HW b Hb) as (? & ? & _). split_and!; [|done|done|apply HW].
  by rewrite <- flying_pieces, (wd_inflight _ _ HW).
Qed.
(** C29: A future of the pacer tells the truth: it is set once, when no piece of its
    submission is queued or in flight any more, all of them have ended, and its status is
    the first error among them. *)
Theorem pacer_futures o w j st :
  used o w → (j, st) ∈ answered (sess w) →
  st = outcome j (completed (sess w)) ∧ sum_of (done_of j) (completed (sess w)) = sum_of (of_job j) (submitted (sess w)) ∧
  (∀ p, p ∈ out_pieces (sess w) (pending w) → piece_job p ≠ j) ∧ sum_of (done_of j) (answered (sess w)) = 1.
Proof.
  intros Hw Hin. pose proof (tallied_reach o w Hw) as HC. pose proof (ct_books _ _ HC) as [Hj Ha Hst _]. rewrite Forall_forall in Hst.
  destruct (Hst (j, st)) as (job & Ej & Hp & Es); [apply elem_of_app; by left|]. cbn in Ej, Es. destruct (Hj j job Ej) as (Hr & Hpr & Ho). rewrite Hp in Hpr.
  assert (sum_of (of_job j) (out_pieces (sess w) (pending w)) = 0) as H0. { destruct (Z.eqb_spec (remaining job) 0); [lia|done]. }
  split_and!; [congruence|rewrite (ct_total _ _ HC); lia| |].
  - intros p Hpin Hpj. pose proof (sum_of_elem _ _ _ (of_job_nonneg j) Hpin) as Hle. unfold of_job in Hle at 1. rewrite decide_True in Hle by done. lia.
  - specialize (Ha j). rewrite Ej, Hp, sum_of_app in Ha. assert (∀ x, 0 <= done_of j x) as Hd by (intros x; unfold done_of; case_decide; lia).
    pose proof (sum_of_elem _ _ _ Hd Hin) as H1. unfold done_of in H1 at 1. cbn in H1. rewrite decide_True in H1 by done.
    pose proof (sum_of_nonneg _ (omap promise_of (pending w)) Hd). lia.
Qed.
(** C36: The pacer comes to rest: from every state that can be reached the running
    threads take a bounded number of steps, and when none can go on any more nothing is
    queued or in flight, every future has been set, and after the destructor no thread is
    left. *)
Theorem pacer_settles o w :
  used o w →
  (∃ bound, ∀ n w', nsteps (step act) n w w' → (n <= bound)%nat) ∧
  ((∀ w', ¬ step act w w') →
     inflight_bytes (sess w) = 0 ∧ pending_ (sess w) = [] ∧ (∀ j, known (jobs (sess w)) j → ∃ st, (j, st) ∈ answered (sess w)) ∧
     (shutdown (sess w) = true → pending w = [])).
Proof.
  intros Hw. split.
  { exists (Z.to_nat (work cost queue_cost w)). intros n w' Hn. pose proof (pacer_bounded o n w w' Hw Hn). pose proof (work_positive w'). lia. }
  intros Hs. destruct (stuck_idle o w Hw Hs) as [Hi Hnp]. split_and!; [done|by eapply stuck_queue| |by eapply stuck_destroyed].
  intros j [job Ej]. pose proof (ct_books _ _ (tallied_reach o w Hw)) as [Hj Ha _ _]. destruct (Hj j job Ej) as (Hr & Hp & _). unfold out_pieces in Hr.
  rewrite (stuck_queue o w Hw Hs), Hnp in Hr. cbn in Hr. rewrite Hr in Hp. cbn in Hp. specialize (Ha j). rewrite Ej, Hp, (stuck_promises o w Hw Hs), app_nil_r in Ha.
  induction (answered (sess w)) as [|[i st] l IH]; [done|]. cbn in Ha. unfold done_of in Ha at 1. cbn in Ha. case_decide as Hd; [subst i; exists st; by left|].
  destruct IH as [st' ?]; [lia|]. exists st'. by right.
Qed.

(** ** A run

    Two copies in a window of two pieces: the second piece cannot be issued, the others are
    issued as room is made and complete, and the pacer is destroyed. *)
Definition pacer_opts_ex : RawDmaPacerOptions := mkOptions 8192 4096.
Definition dma_ok : Env := Result OkStatus.
Definition pacer_run : list (Choice (A := Action) (X := Env)) → World Pacer Action := run_of act entry (Pacer_new pacer_opts_ex).
Definition half_ex : list (Choice (A := Action) (X := Env)) :=
  [Invoke Start dma_ok; Invoke (Submit [10000; 5000]) dma_ok; Run 2 (Issued true); Run 2 (Issued false); Run 3 dma_ok; Run 1 dma_ok].
Definition rest_ex : list (Choice (A := Action) (X := Env)) :=
  [Run 2 dma_ok; Run 1 (Issued true); Run 1 dma_ok; Run 1 (Issued true); Run 1 (Issued true); Run 4 dma_ok; Run 5 dma_ok; Run 6 dma_ok; Run 6 dma_ok;
   Invoke Destroy dma_ok; Run 1 dma_ok; Run 7 dma_ok; Run 7 dma_ok].
Example pacer_half_ex : inflight_bytes (sess (pacer_run half_ex)) = 5904 ∧ length (pending_ (sess (pacer_run half_ex))) = 2%nat ∧ peak_inflight_bytes (sess (pacer_run half_ex)) = 8192.
Proof. vm_compute. auto. Qed.
Lemma pacer_window_witness : inflight_bytes (sess (pacer_run half_ex)) <= 8192.
Proof. apply (pacer_window pacer_opts_ex (pacer_run half_ex) 8192); [apply run_of_reach|vm_compute; reflexivity]. Defined.
Lemma pacer_futures_witness : Err kInternal = outcome 0 (completed (sess (pacer_run (half_ex ++ rest_ex)))).
Proof. apply (pacer_futures pacer_opts_ex (pacer_run (half_ex ++ rest_ex)) 0%nat (Err kInternal)); [apply run_of_reach|vm_compute; left]. Defined.
Lemma no_threads_stuck w : pending w = [] → ∀ w', ¬ step act w w'.
Proof. intros E w' (a & x & pre & new & others & _ & HP & _)%step_pending. rewrite E in HP. by apply Permutation_nil_l in HP. Qed.
Lemma pacer_settles_witness : inflight_bytes (sess (pacer_run (half_ex ++ rest_ex))) = 0.
Proof. apply (pacer_settles pacer_opts_ex); [apply run_of_reach|apply no_threads_stuck; vm_compute; reflexivity]. Defined.
