(* ===== verification/TileMemory.v ===== *)
(** * TileMemory: byte buffers, memory commands and vector operations
    (the memory model under src/tpu_sync/weight_sync/tiling_utils.cc)

    The tilers compute addresses from shapes only, never from the bytes they move: a
    run of one is a list of memory commands.  A command reads byte ranges, computes,
    and writes byte ranges; a range outside its buffer is an error, so a theorem that
    a program runs is also the theorem that it never touches memory it must not.
    [does] is the program logic: what every written byte satisfies, and which bytes
    are written.  The operations of the Highway vector library are the class
    [Highway], with what its documentation says of them as [HighwayLaws]. *)

From S2P Require Import Prelude.

(** ** Buffers *)
Abbreviation bytes := (list Z).
Definition blen (l : bytes) : Z := Z.of_nat (length l).
Definition byte_at (l : bytes) (i : Z) : Z := l !!! Z.to_nat i.
Definition zeros (n : Z) : bytes := replicate (Z.to_nat n) 0.

Inductive Buffer := BSrc | BDst | BBounce.
#[export] Instance Buffer_eq_dec : EqDecision Buffer.
Proof. solve_decision. Defined.
Record Memory := mkMem { m_src : bytes; m_dst : bytes; m_bounce : bytes }.
Definition buffer (b : Buffer) (m : Memory) : bytes :=
  match b with BSrc => m_src m | BDst => m_dst m | BBounce => m_bounce m end.
Definition set_buffer (b : Buffer) (l : bytes) (m : Memory) : Memory :=
  match b with
  | BSrc => mkMem l (m_dst m) (m_bounce m)
  | BDst => mkMem (m_src m) l (m_bounce m)
  | BBounce => mkMem (m_src m) (m_dst m) l
  end.

Record Ptr := mkPtr { p_buf : Buffer; p_off : Z }.
Definition shift (p : Ptr) (k : Z) : Ptr := mkPtr (p_buf p) (p_off p + k).
Declare Scope ptr_scope.
Notation "p ⊕ k" := (shift p k) (at level 50, left associativity) : ptr_scope.
#[global] Open Scope ptr_scope.

(** ** Commands *)
Definition in_range (p : Ptr) (n : Z) (m : Memory) : bool :=
  (0 <=? p_off p) && (0 <=? n) && (p_off p + n <=? blen (buffer (p_buf p) m)).
Definition load (m : Memory) (r : Ptr * Z) : option bytes :=
  if in_range r.1 r.2 m then Some (take (Z.to_nat r.2) (drop (Z.to_nat (p_off r.1)) (buffer (p_buf r.1) m))) else None.
Definition overwrite (l : bytes) (off : Z) (v : bytes) : bytes :=
  take (Z.to_nat off) l ++ v ++ drop (Z.to_nat off + length v) l.
Definition store (r : Ptr * Z) (v : bytes) (m : Memory) : option Memory :=
  if in_range r.1 r.2 m && (blen v =? r.2)
  then Some (set_buffer (p_buf r.1) (overwrite (buffer (p_buf r.1) m) (p_off r.1) v) m) else None.
Fixpoint store_all (rs : list (Ptr * Z)) (vs : list bytes) (m : Memory) : option Memory :=
  match rs, vs with
  | [], [] => Some m
  | r :: rs, v :: vs => store r v m ≫= store_all rs vs
  | _, _ => None
  end.

Record Cmd := Op { reads : list (Ptr * Z); compute : list bytes → list bytes; writes : list (Ptr * Z) }.
Definition exec1 (c : Cmd) (m : Memory) : option Memory :=
  vs ← mapM (load m) (reads c); store_all (writes c) (compute c vs) m.
Fixpoint exec (prog : list Cmd) (m : Memory) : option Memory :=
  match prog with [] => Some m | c :: prog => exec1 c m ≫= exec prog end.

(** std::memcpy and std::memmove of [n] bytes, and std::memset to zero. *)
Definition memcpy (d s : Ptr) (n : Z) : Cmd := Op [(s, n)] id [(d, n)].
Definition memset0 (d : Ptr) (n : Z) : Cmd := Op [] (λ _, [zeros n]) [(d, n)].

(** ** Bytes of buffers *)
Lemma blen_nonneg l : 0 <= blen l.
Proof. unfold blen. lia. Qed.
Lemma byte_at_app l k i : 0 <= i →
  byte_at (l ++ k) i = if decide (i < blen l) then byte_at l i else byte_at k (i - blen l).
Proof.
  intros Hi. unfold byte_at, blen. case_decide.
  - apply lookup_total_app_l. lia.
  - rewrite lookup_total_app_r by lia. f_equal. lia.
Qed.
Lemma byte_at_take l n i : 0 <= i < n → byte_at (take (Z.to_nat n) l) i = byte_at l i.
Proof. intros Hi. unfold byte_at. by rewrite lookup_total_take_lt by lia. Qed.
Lemma byte_at_drop l n i : 0 <= i → 0 <= n → byte_at (drop (Z.to_nat n) l) i = byte_at l (n + i).
Proof. intros Hi Hn. unfold byte_at. rewrite lookup_total_drop. f_equal. lia. Qed.
Lemma byte_at_zeros n i : 0 <= i < n → byte_at (zeros n) i = 0.
Proof. intros Hi. unfold byte_at, zeros. apply lookup_total_replicate_2. lia. Qed.
Lemma blen_zeros n : 0 <= n → blen (zeros n) = n.
Proof. intros Hn. unfold blen, zeros. rewrite length_replicate. lia. Qed.
Lemma blen_overwrite l off v : 0 <= off → off + blen v <= blen l → blen (overwrite l off v) = blen l.
Proof. unfold blen, overwrite. rewrite !length_app, length_take, length_drop. lia. Qed.
Lemma byte_at_overwrite l off v i :
  0 <= off → off + blen v <= blen l → 0 <= i →
  byte_at (overwrite l off v) i = if decide (off <= i < off + blen v) then byte_at v (i - off) else byte_at l i.
Proof.
  intros Ho Hl Hi. unfold overwrite. pose proof (blen_nonneg v).
  assert (blen (take (Z.to_nat off) l) = off) as Ht by (unfold blen in *; rewrite length_take; lia).
  rewrite byte_at_app, Ht by done. destruct (decide (i < off)) as [H1|H1]; [rewrite byte_at_take by lia; by rewrite decide_False by lia|].
  rewrite byte_at_app by lia. destruct (decide (i - off < blen v)); [by rewrite decide_True by lia|]. rewrite decide_False by lia.
  replace (Z.to_nat off + length v)%nat with (Z.to_nat (off + blen v)) by (unfold blen; lia).
  rewrite byte_at_drop by lia. f_equal. lia.
Qed.
Lemma bytes_eq l k : blen l = blen k → (∀ i, 0 <= i < blen l → byte_at l i = byte_at k i) → l = k.
Proof.
  intros Hl Hb. apply (list_eq_same_length _ _ (length l)); [unfold blen in Hl; lia|done|].
  intros i x y Hi Hx Hy. specialize (Hb (Z.of_nat i) ltac:(unfold blen; lia)).
  unfold byte_at in Hb. rewrite Nat2Z.id in Hb. apply list_lookup_total_correct in Hx, Hy. congruence.
Qed.

Lemma buffer_set_eq b l m : buffer b (set_buffer b l m) = l.
Proof. by destruct b. Qed.
Lemma buffer_set_ne b b' l m : b ≠ b' → buffer b (set_buffer b' l m) = buffer b m.
Proof. by destruct b, b'. Qed.
Lemma buffers_eq m m' : (∀ b, buffer b m = buffer b m') → m = m'.
Proof.
  intros H. pose proof (H BSrc). pose proof (H BDst). pose proof (H BBounce). destruct m, m'. cbn in *. congruence.
Qed.

Lemma in_range_iff p n m : in_range p n m = true ↔ 0 <= p_off p ∧ 0 <= n ∧ p_off p + n <= blen (buffer (p_buf p) m).
Proof. unfold in_range. rewrite !andb_true_iff, !Z.leb_le. tauto. Qed.
Lemma load_spec m p n :
  0 <= p_off p → 0 <= n → p_off p + n <= blen (buffer (p_buf p) m) →
  ∃ v, load m (p, n) = Some v ∧ blen v = n ∧ ∀ k, 0 <= k < n → byte_at v k = byte_at (buffer (p_buf p) m) (p_off p + k).
Proof.
  intros Ho Hn Hl. unfold load. cbn. rewrite (proj2 (in_range_iff p n m)) by done. eexists. split; [done|]. split.
  - unfold blen in *. rewrite length_take, length_drop. lia.
  - intros k Hk. rewrite byte_at_take, byte_at_drop by lia. done.
Qed.
Lemma store_spec p n v m :
  0 <= p_off p → blen v = n → p_off p + n <= blen (buffer (p_buf p) m) →
  ∃ m', store (p, n) v m = Some m' ∧ (∀ b, b ≠ p_buf p → buffer b m' = buffer b m) ∧
    blen (buffer (p_buf p) m') = blen (buffer (p_buf p) m) ∧
    ∀ i, 0 <= i → byte_at (buffer (p_buf p) m') i =
      if decide (p_off p <= i < p_off p + n) then byte_at v (i - p_off p) else byte_at (buffer (p_buf p) m) i.
Proof.
  intros Ho <- Hl. unfold store. cbn. rewrite (proj2 (in_range_iff p _ m)) by (pose proof (blen_nonneg v); done).
  rewrite Z.eqb_refl. eexists. split; [done|]. split; [intros b Hb; by apply buffer_set_ne|].
  rewrite buffer_set_eq. split; [by apply blen_overwrite|]. intros i Hi. by apply byte_at_overwrite.
Qed.
(** What a load sees depends on its buffer alone. *)
Lemma load_same m m' r : buffer (p_buf r.1) m = buffer (p_buf r.1) m' → load m r = load m' r.
Proof. intros E. unfold load, in_range. by rewrite E. Qed.
Lemma exec_app p q m : exec (p ++ q) m = exec p m ≫= exec q.
Proof. revert m. induction p as [|c p IH]; intros m; [done|]. cbn. destruct (exec1 c m); [apply IH|done]. Qed.

(** ** The program logic

    [outcome M0 prog pos] is the byte the last write of [prog] leaves at position [pos]
    of the buffer it writes, when the buffers it reads are as in [M0].
    [does w M0 cap T prog C]: run with buffer [w] of [cap] bytes and the other buffers
    as in [M0], every command of [prog] reads other buffers only and stays in bounds,
    every byte it leaves satisfies [T], and every position of [C] is written. *)
Fixpoint landed (ws : list (Ptr * Z)) (vs : list bytes) (pos : Z) : option Z :=
  match ws, vs with
  | r :: ws, v :: vs =>
      match landed ws vs pos with
      | Some x => Some x
      | None => if decide (p_off r.1 <= pos < p_off r.1 + r.2) then Some (byte_at v (pos - p_off r.1)) else None
      end
  | _, _ => None
  end.
Definition outcome1 (M0 : Memory) (c : Cmd) (pos : Z) : option Z :=
  vs ← mapM (load M0) (reads c); landed (writes c) (compute c vs) pos.
Fixpoint outcome (M0 : Memory) (prog : list Cmd) (pos : Z) : option Z :=
  match prog with
  | [] => None
  | c :: prog => match outcome M0 prog pos with Some v => Some v | None => outcome1 M0 c pos end
  end.

Definition writes_in (w : Buffer) (cap : Z) (r : Ptr * Z) (v : bytes) : Prop :=
  p_buf r.1 = w ∧ 0 <= p_off r.1 ∧ blen v = r.2 ∧ p_off r.1 + r.2 <= cap.
Definition safe (w : Buffer) (M0 : Memory) (cap : Z) (c : Cmd) : Prop :=
  Forall (λ r, p_buf r.1 ≠ w) (reads c) ∧
  ∃ vs, mapM (load M0) (reads c) = Some vs ∧ Forall2 (writes_in w cap) (writes c) (compute c vs).
Definition does (w : Buffer) (M0 : Memory) (cap : Z) (T : Z → Z → Prop) (prog : list Cmd) (C : Z → Prop) : Prop :=
  Forall (safe w M0 cap) prog ∧ (∀ pos v, outcome M0 prog pos = Some v → T pos v) ∧
  ∀ pos, C pos → is_Some (outcome M0 prog pos).

Lemma outcome_app M0 p q pos :
  outcome M0 (p ++ q) pos = match outcome M0 q pos with Some v => Some v | None => outcome M0 p pos end.
Proof.
  induction p as [|c p IH]; cbn; [by destruct (outcome M0 q pos)|]. rewrite IH. by destruct (outcome M0 q pos).
Qed.

Section logic.
Context (w : Buffer) (M0 : Memory) (cap : Z).
Implicit Types (T : Z → Z → Prop) (C : Z → Prop).

Lemma does_nil T C : (∀ pos, ¬ C pos) → does w M0 cap T [] C.
Proof. intros H. split; [constructor|]. split; [done|]. intros pos Hp. by destruct (H pos). Qed.
Lemma does_weaken T p C C' : does w M0 cap T p C → (∀ pos, C' pos → C pos) → does w M0 cap T p C'.
Proof. intros (Hp & HT & HC) H. split; [done|]. split; [done|]. intros pos Hpos%H. by apply HC. Qed.
Lemma does_mono T T' p C : does w M0 cap T p C → (∀ pos v, T pos v → T' pos v) → does w M0 cap T' p C.
Proof. intros (Hp & HT & HC) H. split; [done|]. split; [|done]. intros pos v Hv. by apply H, HT. Qed.
(** Two programs, the second of which may overwrite what the first leaves. *)
Lemma does_over T0 T p q C D :
  does w M0 cap T0 p C → does w M0 cap T q D → (∀ pos v, T0 pos v → ¬ D pos → T pos v) →
  does w M0 cap T (p ++ q) (λ pos, C pos ∨ D pos).
Proof.
  intros (Hp & Tp & Cp) (Hq & Tq & Cq) H. split; [by apply Forall_app|]. split.
  - intros pos v. rewrite outcome_app. destruct (outcome M0 q pos) eqn:E; [intros [= <-]; by apply Tq|].
    intros Hv%Tp. apply (H _ _ Hv). intros HD. destruct (Cq pos HD). congruence.
  - intros pos [Hc%Cp|Hc%Cq]; rewrite outcome_app; [by destruct (outcome M0 q pos)|]. by destruct Hc as [v ->].
Qed.
Lemma does_app T p q C D : does w M0 cap T p C → does w M0 cap T q D → does w M0 cap T (p ++ q) (λ pos, C pos ∨ D pos).
Proof. intros Hp Hq. by eapply does_over. Qed.
(** A loop. *)
Lemma does_bind {A} T (l : list A) (f : A → list Cmd) (C : A → Z → Prop) :
  (∀ x, x ∈ l → does w M0 cap T (f x) (C x)) → does w M0 cap T (l ≫= f) (λ pos, ∃ x, x ∈ l ∧ C x pos).
Proof.
  induction l as [|x l IH]; intros H; [apply does_nil; intros pos (? & []%not_elem_of_nil & _)|].
  eapply does_weaken; [apply does_app; [apply H; by left|apply IH; intros y Hy; apply H; by right]|].
  intros pos (y & [->|Hy]%elem_of_cons & Hc); eauto.
Qed.
Lemma does_range_from T m n (f : Z → list Cmd) (C : Z → Z → Prop) :
  (∀ i, m <= i < m + n → does w M0 cap T (f i) (C i)) →
  does w M0 cap T (seqZ m n ≫= f) (λ pos, ∃ i, m <= i < m + n ∧ C i pos).
Proof.
  intros H. eapply does_weaken; [apply (does_bind T _ f C)|].
  - intros i Hi%elem_of_seqZ. by apply H.
  - intros pos (i & Hi & Hc). exists i. split; [by apply elem_of_seqZ|done].
Qed.
Lemma does_range T n (f : Z → list Cmd) (C : Z → Z → Prop) :
  (∀ i, 0 <= i < n → does w M0 cap T (f i) (C i)) → does w M0 cap T (seqZ 0 n ≫= f) (λ pos, ∃ i, 0 <= i < n ∧ C i pos).
Proof. intros H. by apply (does_range_from T 0 n). Qed.

(** One command. *)
Definition writes_well T (r : Ptr * Z) (v : bytes) : Prop :=
  writes_in w cap r v ∧ ∀ k, 0 <= k < r.2 → T (p_off r.1 + k) (byte_at v k).
Lemma landed_well T ws vs pos v : Forall2 (writes_well T) ws vs → landed ws vs pos = Some v → T pos v.
Proof.
  induction 1 as [|r x ws vs [_ HT] _ IH]; [done|]. cbn. destruct (landed ws vs pos); [auto|]. case_decide; [|done].
  intros [= <-]. replace pos with (p_off r.1 + (pos - p_off r.1)) at 1 by lia. apply HT. lia.
Qed.
Lemma landed_covers ws vs pos p n : length ws = length vs → (p, n) ∈ ws → p_off p <= pos < p_off p + n → is_Some (landed ws vs pos).
Proof.
  revert vs. induction ws as [|r ws IH]; intros [|v vs] Hl Hin Hp; try done; [by apply not_elem_of_nil in Hin|]. cbn.
  destruct (landed ws vs pos) eqn:E; [done|]. apply elem_of_cons in Hin as [<-|Hin]; [by rewrite decide_True|].
  destruct (IH vs) as [x Hx]; [cbn in Hl; lia|done|done|congruence].
Qed.
Lemma does_op T rs f ws vs :
  Forall (λ r, p_buf r.1 ≠ w) rs → mapM (load M0) rs = Some vs → Forall2 (writes_well T) ws (f vs) →
  does w M0 cap T [Op rs f ws] (λ pos, ∃ p n, (p, n) ∈ ws ∧ p_off p <= pos < p_off p + n).
Proof.
  intros Hr Hl Hw. split.
  { apply Forall_singleton. split; [done|]. exists vs. split; [done|]. eapply Forall2_impl; [done|]. by intros r v []. }
  unfold outcome, outcome1. cbn. rewrite Hl. cbn. split; [intros pos v; by apply landed_well|].
  intros pos (p & n & Hin & Hp). eapply landed_covers; [by eapply Forall2_length|done|done].
Qed.
Lemma does_copy T d s n :
  p_buf d = w → p_buf s ≠ w → 0 <= n → 0 <= p_off d → p_off d + n <= cap →
  0 <= p_off s → p_off s + n <= blen (buffer (p_buf s) M0) →
  (∀ k, 0 <= k < n → T (p_off d + k) (byte_at (buffer (p_buf s) M0) (p_off s + k))) →
  does w M0 cap T [memcpy d s n] (λ pos, p_off d <= pos < p_off d + n).
Proof.
  intros Hd Hs Hn Hd0 Hdn Hs0 Hsn HT. destruct (load_spec M0 s n Hs0 Hn Hsn) as (v & Hl & Hv & Hb).
  eapply does_weaken; [apply (does_op T [(s, n)] id [(d, n)] [v])|].
  - by apply Forall_singleton.
  - cbn [mapM]. by rewrite Hl.
  - constructor; [|constructor]. split; [by split_and!|]. intros k Hk. cbn in *. rewrite Hb by done. by apply HT.
  - intros pos Hp. exists d, n. split; [by left|done].
Qed.
Lemma does_zero T d n :
  p_buf d = w → 0 <= n → 0 <= p_off d → p_off d + n <= cap → (∀ k, 0 <= k < n → T (p_off d + k) 0) →
  does w M0 cap T [memset0 d n] (λ pos, p_off d <= pos < p_off d + n).
Proof.
  intros Hd Hn Hd0 Hdn HT. eapply does_weaken; [apply (does_op T [] _ [(d, n)] []); [done|done|]|].
  - constructor; [|constructor]. split; [split_and!; try done; by apply blen_zeros|]. intros k Hk. cbn in Hk.
    rewrite byte_at_zeros by done. by apply HT.
  - intros pos Hp. exists d, n. split; [by left|done].
Qed.

(** Running a program. *)
Definition agrees (M : Memory) : Prop := (∀ b, b ≠ w → buffer b M = buffer b M0) ∧ blen (buffer w M) = cap.
Lemma mapM_loads M rs : agrees M → Forall (λ r, p_buf r.1 ≠ w) rs → mapM (load M) rs = mapM (load M0) rs.
Proof.
  intros [HM _] H. induction H as [|r rs Hr _ IH]; [done|]. cbn [mapM]. by rewrite (load_same M M0 r), IH by auto.
Qed.
Lemma store_all_spec ws vs M :
  agrees M → Forall2 (writes_in w cap) ws vs →
  ∃ M', store_all ws vs M = Some M' ∧ agrees M' ∧
    ∀ pos, 0 <= pos → byte_at (buffer w M') pos = default (byte_at (buffer w M) pos) (landed ws vs pos).
Proof.
  intros HM Hw. revert M HM. induction Hw as [|[p n] v ws vs (Hb & H0 & Hl & Hc) _ IH]; intros M HM; [by exists M|].
  cbn in Hb, H0, Hl, Hc. destruct HM as [HM Hcap].
  destruct (store_spec p n v M H0 Hl) as (M1 & E & Hother & Hlen & Hat); [rewrite Hb; lia|]. rewrite Hb in *.
  destruct (IH M1) as (M' & E' & HA & HU).
  { split; [|lia]. intros b Hne. rewrite Hother by done. by apply HM. }
  exists M'. cbn [store_all]. rewrite E. cbn. split; [done|]. split; [done|]. intros pos Hp.
  rewrite HU, Hat by done. destruct (landed ws vs pos); [done|]. by case_decide.
Qed.
Lemma exec1_safe c M : agrees M → safe w M0 cap c →
  ∃ M', exec1 c M = Some M' ∧ agrees M' ∧
    ∀ pos, 0 <= pos → byte_at (buffer w M') pos = default (byte_at (buffer w M) pos) (outcome1 M0 c pos).
Proof.
  intros HM (Hr & vs & Hl & Hw). unfold exec1, outcome1. rewrite (mapM_loads M), Hl by done. by apply store_all_spec.
Qed.
Lemma exec_safe p M : agrees M → Forall (safe w M0 cap) p →
  ∃ M', exec p M = Some M' ∧ agrees M' ∧
    ∀ pos, 0 <= pos → byte_at (buffer w M') pos = default (byte_at (buffer w M) pos) (outcome M0 p pos).
Proof.
  intros HM Hp. revert M HM. induction Hp as [|c p Hc _ IH]; intros M HM; [by exists M|]. cbn [exec].
  destruct (exec1_safe c M HM Hc) as (M1 & -> & HA1 & HU1). cbn. destruct (IH M1 HA1) as (M' & E & HA & HU).
  exists M'. split; [done|]. split; [done|]. intros pos Hpos. rewrite HU, HU1 by done. by destruct (outcome M0 p pos).
Qed.
(** What a program that [does] leaves behind. *)
Definition leaves T C (M M' : Memory) : Prop :=
  agrees M' ∧ (∀ pos, 0 <= pos → C pos → T pos (byte_at (buffer w M') pos)) ∧
  ∀ pos, 0 <= pos → (∀ v, ¬ T pos v) → byte_at (buffer w M') pos = byte_at (buffer w M) pos.
Lemma exec_does T p C M : agrees M → does w M0 cap T p C → ∃ M', exec p M = Some M' ∧ leaves T C M M'.
Proof.
  intros HM (Hp & HT & HC). destruct (exec_safe p M HM Hp) as (M' & E & HA & HU). exists M'. split; [done|].
  split; [done|]. split.
  - intros pos H0 [v Hv]%HC. rewrite HU, Hv by done. by apply HT.
  - intros pos H0 Hn. rewrite HU by done. destruct (outcome M0 p pos) as [v|] eqn:Ev; [|done]. by destruct (Hn v (HT _ _ Ev)).
Qed.
End logic.
