(* ===== verification/Highway.v ===== *)
(** * Highway: the vector operations of the tilers
    (the calls of hwy/highway.h in src/tpu_sync/weight_sync/tiling_utils.cc)

    The library is not part of the repository: its operations are the class [Highway]
    and what its documentation promises of them the class [HighwayLaws].  A vector is
    the list of its bytes; a BitCast keeps the bytes.  [portable] is an instance. *)

From S2P Require Import Prelude TileMemory.

Class Highway := {
  hwy_scalar : bool;                              (* HWY_TARGET == HWY_SCALAR *)
  Lanes : Z → Z;                                  (* of elements of so many bytes *)
  LoadN : Z → bytes → bytes;                      (* the bytes read, zeros up to a vector of so many bytes *)
  StoreInterleaved : Z → list bytes → bytes;      (* StoreInterleaved2 and 4 *)
  LoadInterleaved : Z → nat → bytes → list bytes; (* LoadInterleaved2 and 4 *)
  InterleaveLower : Z → bytes → bytes → bytes;
  InterleaveUpper : Z → bytes → bytes → bytes;
}.
(** Element widths and vector counts the tilers use. *)
Definition packing (P w : Z) : Prop := (P = 2 ∧ w = 2) ∨ (P = 4 ∧ w = 1).
Class HighwayLaws `{Highway} : Prop := {
  Lanes_pos w : 0 < w → 0 < Lanes w;
  LoadN_spec n v : blen v <= n → blen (LoadN n v) = n ∧
    ∀ k, 0 <= k < n → byte_at (LoadN n v) k = if decide (k < blen v) then byte_at v k else 0;
  StoreInterleaved_spec P w vs : packing P w → Z.of_nat (length vs) = P → Forall (λ v, blen v = Lanes w * w) vs →
    blen (StoreInterleaved w vs) = P * Lanes w * w ∧
    ∀ i p v k, 0 <= i < Lanes w → vs !! p = Some v → 0 <= k < w →
      byte_at (StoreInterleaved w vs) ((i * P + Z.of_nat p) * w + k) = byte_at v (i * w + k);
  LoadInterleaved_spec P w v : packing P w → blen v = P * Lanes w * w →
    length (LoadInterleaved w (Z.to_nat P) v) = Z.to_nat P ∧
    ∀ p o, LoadInterleaved w (Z.to_nat P) v !! p = Some o → blen o = Lanes w * w ∧
      ∀ i k, 0 <= i < Lanes w → 0 <= k < w → byte_at o (i * w + k) = byte_at v ((i * P + Z.of_nat p) * w + k);
  InterleaveLower_spec w a b : w ∈ [2; 4; 8] → blen a = 16 → blen b = 16 →
    blen (InterleaveLower w a b) = 16 ∧
    ∀ i k, 0 <= i < 8 / w → 0 <= k < w →
      byte_at (InterleaveLower w a b) (2 * i * w + k) = byte_at a (i * w + k) ∧
      byte_at (InterleaveLower w a b) ((2 * i + 1) * w + k) = byte_at b (i * w + k);
  InterleaveUpper_spec w a b : w ∈ [2; 4; 8] → blen a = 16 → blen b = 16 →
    blen (InterleaveUpper w a b) = 16 ∧
    ∀ i k, 0 <= i < 8 / w → 0 <= k < w →
      byte_at (InterleaveUpper w a b) (2 * i * w + k) = byte_at a (8 + i * w + k) ∧
      byte_at (InterleaveUpper w a b) ((2 * i + 1) * w + k) = byte_at b (8 + i * w + k);
}.

Section commands.
Context {hw : Highway}.
(** hn::LoadU of [P] vectors and hn::StoreInterleaved of them, and back. *)
Definition store_interleaved (w : Z) (srcs : list Ptr) (d : Ptr) : Cmd :=
  Op ((λ s, (s, Lanes w * w)) <$> srcs) (λ vs, [StoreInterleaved w vs]) [(d, Z.of_nat (length srcs) * Lanes w * w)].
Definition load_interleaved (w : Z) (s : Ptr) (dsts : list Ptr) : Cmd :=
  Op [(s, Z.of_nat (length dsts) * Lanes w * w)] (λ vs, LoadInterleaved w (length dsts) (default [] (head vs)))
     ((λ d, (d, Lanes w * w)) <$> dsts).
(** hn::LoadN of [n] bytes and hn::StoreN of the first [m] of the vector. *)
Definition load_store_n (d s : Ptr) (n m : Z) : Cmd :=
  Op [(s, n)] (λ vs, [take (Z.to_nat m) (LoadN (Lanes 1) (default [] (head vs)))]) [(d, m)].

(** The 4x4 transposition of 32-bit and the 8x8 transposition of 16-bit elements. *)
Definition transpose4x4 (rows : list bytes) : list bytes :=
  match rows with
  | [r0; r1; r2; r3] =>
      let t0 := InterleaveLower 4 r0 r1 in
      let t1 := InterleaveUpper 4 r0 r1 in
      let t2 := InterleaveLower 4 r2 r3 in
      let t3 := InterleaveUpper 4 r2 r3 in
      [InterleaveLower 8 t0 t2; InterleaveUpper 8 t0 t2; InterleaveLower 8 t1 t3; InterleaveUpper 8 t1 t3]
  | _ => []
  end.
Definition transpose8x8 (rows : list bytes) : list bytes :=
  match rows with
  | [r0; r1; r2; r3; r4; r5; r6; r7] =>
      let s0 := InterleaveLower 2 r0 r1 in let s1 := InterleaveUpper 2 r0 r1 in
      let s2 := InterleaveLower 2 r2 r3 in let s3 := InterleaveUpper 2 r2 r3 in
      let s4 := InterleaveLower 2 r4 r5 in let s5 := InterleaveUpper 2 r4 r5 in
      let s6 := InterleaveLower 2 r6 r7 in let s7 := InterleaveUpper 2 r6 r7 in
      let t0 := InterleaveLower 4 s0 s2 in let t1 := InterleaveUpper 4 s0 s2 in
      let t2 := InterleaveLower 4 s1 s3 in let t3 := InterleaveUpper 4 s1 s3 in
      let t4 := InterleaveLower 4 s4 s6 in let t5 := InterleaveUpper 4 s4 s6 in
      let t6 := InterleaveLower 4 s5 s7 in let t7 := InterleaveUpper 4 s5 s7 in
      [InterleaveLower 8 t0 t4; InterleaveUpper 8 t0 t4; InterleaveLower 8 t1 t5; InterleaveUpper 8 t1 t5;
       InterleaveLower 8 t2 t6; InterleaveUpper 8 t2 t6; InterleaveLower 8 t3 t7; InterleaveUpper 8 t3 t7]
  | _ => []
  end.
Definition Transpose4x4U32 (rs cs : list Ptr) : Cmd := Op ((λ r, (r, 16)) <$> rs) transpose4x4 ((λ c, (c, 16)) <$> cs).
Definition Transpose8x8U16 (rs cs : list Ptr) : Cmd := Op ((λ r, (r, 16)) <$> rs) transpose8x8 ((λ c, (c, 16)) <$> cs).
End commands.

(** ** Mixed-radix positions *)
Lemma split_pos j n w : 0 < w → 0 <= j < n * w → ∃ i k, 0 <= i < n ∧ 0 <= k < w ∧ j = i * w + k.
Proof.
  intros Hw Hj. exists (j / w), (j `mod` w). pose proof (Z.mod_pos_bound j w Hw). pose proof (Z.div_mod j w ltac:(lia)).
  split; [|split; [done|lia]]. split; [apply Z.div_pos; lia|]. apply Z.div_lt_upper_bound; lia.
Qed.
Lemma split_pos3 j n P w : 0 < P → 0 < w → 0 <= j < P * n * w →
  ∃ i p k, 0 <= i < n ∧ 0 <= p < P ∧ 0 <= k < w ∧ j = (i * P + p) * w + k.
Proof.
  intros HP Hw Hj. destruct (split_pos j (n * P) w) as (q & k & Hq & Hk & ->); [done|lia|].
  destruct (split_pos q n P) as (i & p & Hi & Hp & ->); [done|done|]. eauto 10.
Qed.

Lemma join_pos i k n w : 0 <= i < n → 0 <= k < w → 0 <= i * w + k < n * w.
Proof. nia. Qed.
Lemma join_pos3 i p k n P w : 0 <= i < n → 0 <= p < P → 0 <= k < w → 0 <= (i * P + p) * w + k < P * n * w.
Proof. intros Hi Hp Hk. rewrite (Z.mul_comm P n). apply join_pos; [by apply join_pos|done]. Qed.
Lemma mul3_nonneg a b c : 0 <= a → 0 <= b → 0 <= c → 0 <= a * b * c.
Proof. intros. apply Z.mul_nonneg_nonneg; [by apply Z.mul_nonneg_nonneg|done]. Qed.

(** ** What the commands do *)
Section laws.
Context {hw : Highway} {hwl : HighwayLaws} (w : Buffer) (M0 : Memory) (cap : Z).
Implicit Types (T : Z → Z → Prop).

(** The vectors a command loads. *)
Lemma loads_spec (ss : list Ptr) n :
  0 <= n → Forall (λ s, 0 <= p_off s ∧ p_off s + n <= blen (buffer (p_buf s) M0)) ss →
  ∃ vs, mapM (load M0) ((λ s, (s, n)) <$> ss) = Some vs ∧ length vs = length ss ∧ Forall (λ v, blen v = n) vs ∧
    ∀ p s v k, ss !! p = Some s → vs !! p = Some v → 0 <= k < n → byte_at v k = byte_at (buffer (p_buf s) M0) (p_off s + k).
Proof.
  intros Hn Hs. induction Hs as [|s ss [H0 Hl] _ (vs & E & Hlen & Hv & Hb)]; [by exists []|].
  destruct (load_spec M0 s n H0 Hn Hl) as (v & Ev & Hlv & Hbv). exists (v :: vs). split; [cbn; by rewrite Ev; cbn; rewrite E|].
  split; [cbn; lia|]. split; [by constructor|]. intros [|p] s' v' k Hs' Hv' Hk; cbn in *; simplify_eq; [by apply Hbv|by eapply Hb].
Qed.
Lemma reads_elsewhere (ss : list Ptr) n : Forall (λ s, p_buf s ≠ w) ss → Forall (λ r : Ptr * Z, p_buf r.1 ≠ w) ((λ s, (s, n)) <$> ss).
Proof. intros Hs. apply Forall_fmap. by eapply Forall_impl. Qed.

Lemma does_interleave T P wd srcs d :
  packing P wd → Z.of_nat (length srcs) = P → p_buf d = w → Forall (λ s, p_buf s ≠ w) srcs →
  0 <= p_off d → p_off d + P * Lanes wd * wd <= cap →
  Forall (λ s, 0 <= p_off s ∧ p_off s + Lanes wd * wd <= blen (buffer (p_buf s) M0)) srcs →
  (∀ i p s k, 0 <= i < Lanes wd → srcs !! p = Some s → 0 <= k < wd →
     T (p_off d + ((i * P + Z.of_nat p) * wd + k)) (byte_at (buffer (p_buf s) M0) (p_off s + (i * wd + k)))) →
  does w M0 cap T [store_interleaved wd srcs d] (λ pos, p_off d <= pos < p_off d + P * Lanes wd * wd).
Proof.
  intros Hpk HP Hd Hs H0 Hcap Hin HT. assert (0 < P ∧ 0 < wd) as [HP0 Hw0] by (unfold packing in Hpk; lia).
  pose proof (Lanes_pos wd Hw0) as HL. destruct (loads_spec srcs (Lanes wd * wd)) as (vs & E & Hlen & Hv & Hb); [nia|done|].
  destruct (StoreInterleaved_spec P wd vs Hpk) as [Hl Hat]; [lia|done|].
  eapply does_weaken; [eapply does_op; [by apply reads_elsewhere|exact E|]|].
  - constructor; [|constructor]. cbn [fst snd]. rewrite HP. split; [by split_and!|]. intros j Hj. cbn in Hj.
    destruct (split_pos3 j (Lanes wd) P wd) as (i & p & k & Hi & Hp & Hk & ->); [done..|].
    destruct (lookup_lt_is_Some_2 srcs (Z.to_nat p)) as [s Es]; [lia|]. destruct (lookup_lt_is_Some_2 vs (Z.to_nat p)) as [v Ev]; [lia|].
    pose proof (Hat i _ v k Hi Ev Hk) as Ha. rewrite Z2Nat.id in Ha by lia. rewrite Ha, (Hb _ s v) by (done || nia).
    pose proof (HT i _ s k Hi Es Hk) as Ht. by rewrite Z2Nat.id in Ht by lia.
  - intros pos Hp. rewrite HP. eexists _, _. split; [by left|done].
Qed.

(** A command with one vector per destination. *)
Lemma does_scatter T rs f dsts vs n :
  Forall (λ r : Ptr * Z, p_buf r.1 ≠ w) rs → mapM (load M0) rs = Some vs → length (f vs) = length dsts →
  Forall (λ d, p_buf d = w ∧ 0 <= p_off d ∧ p_off d + n <= cap) dsts →
  (∀ p d o, dsts !! p = Some d → f vs !! p = Some o → blen o = n ∧ ∀ k, 0 <= k < n → T (p_off d + k) (byte_at o k)) →
  does w M0 cap T [Op rs f ((λ d, (d, n)) <$> dsts)] (λ pos, ∃ d, d ∈ dsts ∧ p_off d <= pos < p_off d + n).
Proof.
  intros Hr E Hl Hd HT. eapply does_weaken; [eapply does_op; [done|exact E|]|].
  - apply Forall2_fmap_l, Forall2_same_length_lookup_2; [done|]. intros p d o Ed Eo.
    destruct (HT p d o Ed Eo). destruct (proj1 (Forall_lookup _ _) Hd p d Ed) as (? & ? & ?). split; [by split_and!|done].
  - intros pos (d & Hin & Hp). exists d, n. split; [apply list_elem_of_fmap; eauto|done].
Qed.
Lemma does_deinterleave T P wd s dsts :
  packing P wd → Z.of_nat (length dsts) = P → p_buf s ≠ w →
  Forall (λ d, p_buf d = w ∧ 0 <= p_off d ∧ p_off d + Lanes wd * wd <= cap) dsts →
  0 <= p_off s → p_off s + P * Lanes wd * wd <= blen (buffer (p_buf s) M0) →
  (∀ i p d k, 0 <= i < Lanes wd → dsts !! p = Some d → 0 <= k < wd →
     T (p_off d + (i * wd + k)) (byte_at (buffer (p_buf s) M0) (p_off s + ((i * P + Z.of_nat p) * wd + k)))) →
  does w M0 cap T [load_interleaved wd s dsts] (λ pos, ∃ d, d ∈ dsts ∧ p_off d <= pos < p_off d + Lanes wd * wd).
Proof.
  intros Hpk HP Hs Hd H0 Hcap HT. assert (0 < P ∧ 0 < wd) as [HP0 Hw0] by (unfold packing in Hpk; lia).
  pose proof (Lanes_pos wd Hw0) as HL. assert (0 <= P * Lanes wd * wd) as Hpos by (apply mul3_nonneg; lia).
  destruct (load_spec M0 s (P * Lanes wd * wd) H0 Hpos Hcap) as (v & E & Hv & Hb).
  destruct (LoadInterleaved_spec P wd v Hpk Hv) as [Hl Hat]. unfold load_interleaved. rewrite HP.
  replace (length dsts) with (Z.to_nat P) by lia.
  apply (does_scatter T _ _ _ [v]); [by apply Forall_singleton|cbn; by rewrite E|change (length (LoadInterleaved wd (Z.to_nat P) v) = length dsts); rewrite Hl; lia|done|].
  intros p d o Ed Eo. change (LoadInterleaved wd (Z.to_nat P) v !! p = Some o) in Eo. destruct (Hat p o Eo) as [Hlo Hbo]. split; [done|]. intros j Hj.
  destruct (split_pos j (Lanes wd) wd) as (i & k & Hi & Hk & ->); [done..|]. pose proof (lookup_lt_Some _ _ _ Ed).
  rewrite Hbo, Hb by (done || nia). by apply HT.
Qed.
Lemma does_load_store_n T d s n m :
  p_buf d = w → p_buf s ≠ w → 0 <= n <= Lanes 1 → n <= m <= Lanes 1 → 0 <= p_off d → p_off d + m <= cap →
  0 <= p_off s → p_off s + n <= blen (buffer (p_buf s) M0) →
  (∀ k, 0 <= k < n → T (p_off d + k) (byte_at (buffer (p_buf s) M0) (p_off s + k))) → (∀ k, n <= k < m → T (p_off d + k) 0) →
  does w M0 cap T [load_store_n d s n m] (λ pos, p_off d <= pos < p_off d + m).
Proof.
  intros Hd Hs Hn Hm Hd0 Hdm Hs0 Hsn HT HZ. destruct (load_spec M0 s n Hs0 ltac:(lia) Hsn) as (v & E & Hv & Hb).
  destruct (LoadN_spec (Lanes 1) v) as [Hl Hat]; [lia|].
  eapply does_weaken; [eapply (does_op _ _ _ _ _ _ _ [v]); [by apply Forall_singleton|cbn; by rewrite E|]|].
  - constructor; [|constructor]. change (default [] (head [v])) with v. split; [split_and!; try done|].
    + cbn. unfold blen in *. rewrite length_take. lia.
    + cbn [fst snd]. intros k Hk. rewrite byte_at_take, Hat by lia. case_decide; [rewrite Hb by lia; apply HT|apply HZ]; lia.
  - intros pos Hp. eexists _, _. split; [by left|done].
Qed.
End laws.

(** ** Reference operations, and an instance *)
Definition tabulate (n : Z) (f : Z → Z) : bytes := f <$> seqZ 0 n.
Lemma blen_tabulate n f : 0 <= n → blen (tabulate n f) = n.
Proof. intros Hn. unfold blen, tabulate. rewrite length_fmap, length_seqZ. lia. Qed.
Lemma byte_at_tabulate n f i : 0 <= i < n → byte_at (tabulate n f) i = f i.
Proof.
  intros Hi. unfold byte_at, tabulate. rewrite (list_lookup_total_correct _ _ (f i)); [done|].
  rewrite list_lookup_fmap, lookup_seqZ_lt by lia. cbn. f_equal. f_equal. lia.
Qed.
(** Lane [j / w] of the result comes from [a] when it is even, from [b] when odd. *)
Definition interleave_from (base w : Z) (a b : bytes) : bytes :=
  tabulate 16 (λ j, let i := j / w / 2 in let k := j `mod` w in
                    byte_at (if Z.even (j / w) then a else b) (base + i * w + k)).
Definition interleave_vectors (w : Z) (vs : list bytes) (n : Z) : bytes :=
  let P := Z.of_nat (length vs) in
  tabulate (P * n * w) (λ j, byte_at (vs !!! Z.to_nat ((j / w) `mod` P)) (j / w / P * w + j `mod` w)).
Definition deinterleave_vectors (w : Z) (P : nat) (v : bytes) (n : Z) : list bytes :=
  (λ p, tabulate (n * w) (λ j, byte_at v ((j / w * Z.of_nat P + Z.of_nat p) * w + j `mod` w))) <$> seq 0 P.
Definition portable_lanes (w : Z) : Z := if decide (0 < 16 / w) then 16 / w else 1.
#[export] Instance portable : Highway := {
  hwy_scalar := false;
  Lanes := portable_lanes;
  LoadN n v := v ++ zeros (n - blen v);
  StoreInterleaved w vs := interleave_vectors w vs (portable_lanes w);
  LoadInterleaved w P v := deinterleave_vectors w P v (portable_lanes w);
  InterleaveLower := interleave_from 0;
  InterleaveUpper := interleave_from 8;
}.

Lemma digits i w k : 0 <= k < w → (i * w + k) / w = i ∧ (i * w + k) `mod` w = k.
Proof.
  intros Hk. split; [symmetry; apply Z.div_unique with k; lia|]. symmetry. apply Z.mod_unique with i; lia.
Qed.
Lemma interleave_from_spec base w a b :
  w ∈ [2; 4; 8] → blen (interleave_from base w a b) = 16 ∧
    ∀ i k, 0 <= i < 8 / w → 0 <= k < w →
      byte_at (interleave_from base w a b) (2 * i * w + k) = byte_at a (base + i * w + k) ∧
      byte_at (interleave_from base w a b) ((2 * i + 1) * w + k) = byte_at b (base + i * w + k).
Proof.
  intros Hw. split; [by apply blen_tabulate|]. intros i k Hi Hk.
  assert (0 < w ∧ 8 / w * w = 8) as [Hw0 H8] by (rewrite !elem_of_cons, elem_of_nil in Hw; destruct Hw as [->|[->|[->|[]]]]; done).
  unfold interleave_from. split; (rewrite byte_at_tabulate by nia); cbv zeta.
  - destruct (digits (2 * i) w k Hk) as [-> ->]. rewrite Z.even_mul. cbn [orb Z.even].
    by replace (2 * i / 2) with i by (Z.div_mod_to_equations; lia).
  - destruct (digits (2 * i + 1) w k Hk) as [-> ->]. rewrite Z.even_add, Z.even_mul. cbn [orb Z.even Bool.eqb].
    by replace ((2 * i + 1) / 2) with i by (Z.div_mod_to_equations; lia).
Qed.
#[export] Instance portable_laws : HighwayLaws.
Proof.
  split.
  - intros w Hw. cbn. unfold portable_lanes. case_decide; lia.
  - intros n v Hv. cbn. pose proof (blen_nonneg v). split; [pose proof (blen_zeros (n - blen v)); unfold blen in *; rewrite length_app; lia|].
    intros k Hk. rewrite byte_at_app by lia. case_decide; [done|]. apply byte_at_zeros. lia.
  - intros P w vs Hpk HP Hv. cbn [Lanes StoreInterleaved portable] in *. set (n := portable_lanes w) in *.
    assert (0 < P ∧ 0 < w ∧ 0 < n) as (HP0 & Hw & Hn) by (unfold packing in Hpk; unfold n, portable_lanes; case_decide; lia).
    unfold interleave_vectors. rewrite HP. split; [apply blen_tabulate, mul3_nonneg; lia|]. intros i p v k Hi Hp Hk.
    apply lookup_lt_Some in Hp as Hlt. rewrite byte_at_tabulate by (apply join_pos3; lia). destruct (digits (i * P + Z.of_nat p) w k Hk) as [-> ->].
    destruct (digits i P (Z.of_nat p)) as [-> ->]; [lia|]. rewrite Nat2Z.id. by rewrite (list_lookup_total_correct _ _ _ Hp).
  - intros P w v Hpk Hv. cbn [Lanes LoadInterleaved portable] in *. set (n := portable_lanes w) in *.
    assert (0 < P ∧ 0 < w ∧ 0 < n) as (HP0 & Hw & Hn) by (unfold packing in Hpk; unfold n, portable_lanes; case_decide; lia).
    unfold deinterleave_vectors. split; [by rewrite length_fmap, length_seq|]. intros p o Ho.
    apply list_lookup_fmap_Some in Ho as (q & -> & [-> Hq]%lookup_seq). cbn [Nat.add].
    split; [apply blen_tabulate; nia|]. intros i k Hi Hk. rewrite byte_at_tabulate by nia. destruct (digits i w k Hk) as [-> ->].
    by rewrite Z2Nat.id by lia.
  - intros w a b Hw Ha Hb. apply (interleave_from_spec 0 w a b Hw).
  - intros w a b Hw Ha Hb. apply (interleave_from_spec 8 w a b Hw).
Qed.

(** ** Transpositions *)
Definition transposes (n : nat) (w : Z) (f : list bytes → list bytes) : Prop :=
  ∀ vs, length vs = n → Forall (λ v, blen v = 16) vs → length (f vs) = n ∧
    ∀ j o, f vs !! j = Some o → blen o = 16 ∧
      ∀ i v k, vs !! i = Some v → 0 <= k < w → byte_at o (Z.of_nat i * w + k) = byte_at v (Z.of_nat j * w + k).
Lemma bytes16 v : blen v = 16 → ∃ x0 x1 x2 x3 x4 x5 x6 x7 x8 x9 x10 x11 x12 x13 x14 x15,
  v = [x0; x1; x2; x3; x4; x5; x6; x7; x8; x9; x10; x11; x12; x13; x14; x15].
Proof.
  unfold blen. intros Hl. do 16 (destruct v as [|? v]; [cbn in Hl; lia|]). destruct v; [by repeat eexists|cbn in Hl; lia].
Qed.
Section transpositions.
Context {hw : Highway} {hwl : HighwayLaws}.
(** The laws leave no choice. *)
Lemma interleave_unique base w a b c :
  w ∈ [2; 4; 8] → blen c = 16 →
  (∀ i k, 0 <= i < 8 / w → 0 <= k < w →
     byte_at c (2 * i * w + k) = byte_at a (base + i * w + k) ∧ byte_at c ((2 * i + 1) * w + k) = byte_at b (base + i * w + k)) →
  c = interleave_from base w a b.
Proof.
  intros Hw Hl Hc. destruct (interleave_from_spec base w a b Hw) as [Hl' Hc']. apply bytes_eq; [lia|]. intros j Hj.
  assert (0 < w ∧ 8 / w * w = 8) as [Hw0 H8] by (rewrite !elem_of_cons, elem_of_nil in Hw; destruct Hw as [->|[->|[->|[]]]]; done).
  destruct (split_pos3 j (8 / w) 2 w) as (i & p & k & Hi & Hp & Hk & ->); [lia|lia|lia|].
  destruct (Hc i k Hi Hk) as [E1 E2], (Hc' i k Hi Hk) as [E1' E2'].
  assert (p = 0 ∨ p = 1) as [->| ->] by lia.
  - replace ((i * 2 + 0) * w + k) with (2 * i * w + k) by ring. congruence.
  - replace ((i * 2 + 1) * w + k) with ((2 * i + 1) * w + k) by ring. congruence.
Qed.
Lemma InterleaveLower_eq w a b : w ∈ [2; 4; 8] → blen a = 16 → blen b = 16 → InterleaveLower w a b = interleave_from 0 w a b.
Proof. intros Hw Ha Hb. destruct (InterleaveLower_spec w a b Hw Ha Hb). by apply interleave_unique. Qed.
Lemma InterleaveUpper_eq w a b : w ∈ [2; 4; 8] → blen a = 16 → blen b = 16 → InterleaveUpper w a b = interleave_from 8 w a b.
Proof. intros Hw Ha Hb. destruct (InterleaveUpper_spec w a b Hw Ha Hb). by apply interleave_unique. Qed.

Ltac rows vs Hl Hv := repeat (destruct vs as [|? vs]; [discriminate Hl|]); destruct vs; [|discriminate Hl];
  rewrite !Forall_cons in Hv; destruct_and! Hv.
Ltac name16 := repeat match goal with H : blen ?v = 16 |- _ =>
  is_var v; destruct (bytes16 v H) as (? & ? & ? & ? & ? & ? & ? & ? & ? & ? & ? & ? & ? & ? & ? & ? & ->); clear H end.
Ltac each_lookup i H := repeat (destruct i as [|i]; [injection H as <-|]); try (cbn in H; discriminate H).
Ltac of_laws w := rewrite ?(InterleaveLower_eq w), ?(InterleaveUpper_eq w)
  by (done || (by apply blen_tabulate) || (rewrite !elem_of_cons; lia)).
Lemma transpose4x4_spec : transposes 4 4 transpose4x4.
Proof.
  intros vs Hl Hv. rows vs Hl Hv. unfold transpose4x4. of_laws 4. of_laws 8.
  name16. split; [done|]. intros j o Ho. split; [each_lookup j Ho; done|]. intros i v k Hi Hk.
  assert (k = 0 ∨ k = 1 ∨ k = 2 ∨ k = 3) as Hk' by lia. clear Hk.
  destruct j as [|[|[|[|j]]]]; [..|discriminate Ho]; injection Ho as <-;
    (destruct i as [|[|[|[|i]]]]; [..|discriminate Hi]; injection Hi as <-); destruct Hk' as [->|[->|[->| ->]]]; vm_compute; reflexivity.
Qed.
Lemma transpose8x8_spec : transposes 8 2 transpose8x8.
Proof.
  intros vs Hl Hv. rows vs Hl Hv. unfold transpose8x8. of_laws 2. of_laws 4. of_laws 8.
  name16. split; [done|]. intros j o Ho. split; [each_lookup j Ho; done|]. intros i v k Hi Hk.
  assert (k = 0 ∨ k = 1) as Hk' by lia. clear Hk.
  destruct j as [|[|[|[|[|[|[|[|j]]]]]]]]; [..|discriminate Ho]; injection Ho as <-;
    (destruct i as [|[|[|[|[|[|[|[|i]]]]]]]]; [..|discriminate Hi]; injection Hi as <-); destruct Hk' as [->| ->]; vm_compute; reflexivity.
Qed.

Lemma does_transpose w M0 cap T n wd f rs cs :
  transposes n wd f → 0 < wd → Z.of_nat n * wd = 16 → length rs = n → length cs = n → Forall (λ r, p_buf r ≠ w) rs →
  Forall (λ r, 0 <= p_off r ∧ p_off r + 16 <= blen (buffer (p_buf r) M0)) rs →
  Forall (λ c, p_buf c = w ∧ 0 <= p_off c ∧ p_off c + 16 <= cap) cs →
  (∀ i j r c k, rs !! i = Some r → cs !! j = Some c → 0 <= k < wd →
     T (p_off c + (Z.of_nat i * wd + k)) (byte_at (buffer (p_buf r) M0) (p_off r + (Z.of_nat j * wd + k)))) →
  does w M0 cap T [Op ((λ r, (r, 16)) <$> rs) f ((λ c, (c, 16)) <$> cs)] (λ pos, ∃ c, c ∈ cs ∧ p_off c <= pos < p_off c + 16).
Proof.
  intros Hf Hw H16 Hrs Hcs Hb Hr Hc HT. destruct (loads_spec M0 rs 16 ltac:(lia) Hr) as (vs & E & Hlen & Hv & Hat).
  destruct (Hf vs ltac:(congruence) Hv) as [Hlf Hof].
  eapply does_scatter; [by apply reads_elsewhere|exact E|congruence|done|]. intros j c o Ec Eo. destruct (Hof j o Eo) as [Hl Ho].
  split; [done|]. intros q Hq. destruct (split_pos q (Z.of_nat n) wd) as (i & k & Hi & Hk & ->); [done|lia|].
  destruct (lookup_lt_is_Some_2 rs (Z.to_nat i)) as [r Er]; [lia|]. destruct (lookup_lt_is_Some_2 vs (Z.to_nat i)) as [v Ev]; [lia|].
  pose proof (Ho _ v k Ev Hk) as Hb'. rewrite Z2Nat.id in Hb' by lia. apply lookup_lt_Some in Ec as Hj.
  rewrite Hb', (Hat _ r v _ Er Ev) by nia. pose proof (HT _ j r c k Er Ec Hk) as Ht. by rewrite Z2Nat.id in Ht by lia.
Qed.
End transpositions.
