(* ===== verification/TilingUtils.v ===== *)
(** * TilingUtils: tiled layouts of weight buffers
    (src/tpu_sync/weight_sync/tiling_utils.{h,cc})

    A tensor in device memory is tiled: its last two dimensions are cut into tiles, and
    a tile may be packed further.  These functions move a tensor between the linear and
    the tiled layout, out of place and in place, with a vectorised copier per kind of
    layout.  Each is the list of memory commands it issues ([TileMemory]); work that
    goes to the thread pool is a [Parallel] plan.  XLA's shape functions and the Highway
    operations are not part of the repository and are classes.  Dimensions and offsets
    are [int64_t], whose overflow is undefined in C++: on every defined run they are the
    integers of the model. *)

From S2P Require Import Prelude TileMemory Highway.

(** ** Shapes and layouts *)
Abbreviation Tile := (list Z).
Record Layout := mkLayout { minor_to_major : list Z; tiles : list Tile }.
Record Shape := mkShape { element_type : Z; dimensions : list Z; shape_layout : option Layout }.
(** [dim l i] is [l(i)]. *)
Definition dim (l : list Z) (i : Z) : Z := l !!! Z.to_nat i.
Definition rank (shape : Shape) : Z := Z.of_nat (length (dimensions shape)).
Definition tile_at (layout : Layout) (i : nat) : Tile := default [] (tiles layout !! i).
Definition with_layout (shape : Shape) (layout : Layout) : Shape :=
  mkShape (element_type shape) (dimensions shape) (Some layout).

Class Xla := {
  CeilOfRatio : Z → Z → Z;
  ByteSizeOfPrimitiveType : Z → Z;
  ElementsIn : Shape → Z;
  ByteSizeOf : Shape → Z;
  MakeShape : Z → list Z → Shape;
  ForEachIndex : Shape → list (list Z);             (* the indices, in the order of the visits *)
  MultidimensionalIndexToLinearIndex : Shape → list Z → Z;
  LinearIndexForNestedTiling : Shape → list Z → Z;
}.

(** Common to both tests: [minor_to_major] is as expected and every tile is non-empty
    and positive. *)
Definition tiles_ok (layout : Layout) : bool :=
  negb (bool_decide (tiles layout = [])) &&
  forallb (λ t, negb (bool_decide (t = [])) && forallb (λ d, 0 <? d) t) (tiles layout).
Definition tile_rank (t : Tile) (n : nat) : bool := (length t =? n)%nat.

Section tiling.
Context {xla : Xla} {hw : Highway}.
Implicit Types (shape : Shape) (layout : Layout) (src dst : Ptr).

Definition packs (P sub_W itemsize : Z) : bool :=
  (sub_W =? 1) && (((P =? 2) && (itemsize =? 2)) || ((P =? 4) && (itemsize =? 1))).
Definition IsStandardRowMajorTiled shape layout : bool :=
  let R := rank shape in
  let itemsize := ByteSizeOfPrimitiveType (element_type shape) in
  (1 <=? R) && (Z.of_nat (length (minor_to_major layout)) =? R) &&
  forallb (λ i, dim (minor_to_major layout) i =? R - 1 - i) (seqZ 0 R) &&
  tiles_ok layout &&
  match tiles layout with
  | [t0] => tile_rank t0 2 || ((R =? 1) && tile_rank t0 1)
  | [t0; t1] =>
      if tile_rank t0 2 && tile_rank t1 2
      then packs (dim t1 0) (dim t1 1) itemsize && (dim t0 0 `mod` dim t1 0 =? 0)
      else if (R =? 1) && tile_rank t0 1 && tile_rank t1 2 then packs (dim t1 0) (dim t1 1) itemsize
      else if (R =? 1) && tile_rank t0 1 && tile_rank t1 1 then dim t0 0 `mod` dim t1 0 =? 0
      else false
  | [t0; t1; t2] =>
      (R =? 1) && tile_rank t0 1 && tile_rank t1 1 && tile_rank t2 2 &&
      packs (dim t2 0) (dim t2 1) itemsize && (dim t0 0 `mod` dim t1 0 =? 0) &&
      ((dim t0 0 / dim t1 0) `mod` dim t2 0 =? 0)
  | _ => false
  end.
Definition IsStandardColMajorTiled shape layout : bool :=
  let R := rank shape in
  (2 <=? R) && (Z.of_nat (length (minor_to_major layout)) =? R) &&
  (dim (minor_to_major layout) 0 =? R - 2) && (dim (minor_to_major layout) 1 =? R - 1) &&
  forallb (λ i, dim (minor_to_major layout) i =? R - 1 - i) (seqZ 2 (R - 2)) &&
  tiles_ok layout &&
  match tiles layout with
  | [t0] => tile_rank t0 2
  | [t0; t1] =>
      tile_rank t0 2 && tile_rank t1 2 && (dim t1 1 =? 1) && ((dim t1 0 =? 2) || (dim t1 0 =? 4)) &&
      (dim t0 0 `mod` dim t1 0 =? 0)
  | _ => false
  end.

(** ** Geometry *)
Definition kParallelizationThresholdBytes : Z := 4 * 1024 * 1024.
Definition kMaxChunksPerTensor : Z := 8.
Definition kMaxNumThreads : Z := 16.

Record RowMajorTileGeometry := mkGeom {
  g_H : Z; g_W : Z; g_itemsize : Z; g_tile_H : Z; g_tile_W : Z; g_packing_factor : Z;
  g_num_tiles_0 : Z; g_num_tiles_1 : Z; g_batch_size : Z }.
Definition tile_size_bytes (g : RowMajorTileGeometry) : Z := g_tile_H g * g_tile_W g * g_itemsize g.
Definition matrix_size_bytes (g : RowMajorTileGeometry) : Z := g_H g * g_W g * g_itemsize g.
Definition tiled_matrix_size_bytes (g : RowMajorTileGeometry) : Z := g_num_tiles_0 g * g_num_tiles_1 g * tile_size_bytes g.
Definition has_padding (g : RowMajorTileGeometry) : bool :=
  negb (g_H g `mod` g_tile_H g =? 0) || negb (g_W g `mod` g_tile_W g =? 0).
Definition total_tiled_bytes (g : RowMajorTileGeometry) : Z := g_batch_size g * tiled_matrix_size_bytes g.

(** The dimension of the shape that is [i]-th from minor to major. *)
Definition minor_dim shape layout (i : Z) : Z := dim (dimensions shape) (dim (minor_to_major layout) i).
Definition batch_of shape layout : Z :=
  foldl (λ n i, n * minor_dim shape layout i) 1 (seqZ 2 (rank shape - 2)).
Definition packing_of layout : Z := if (2 <=? length (tiles layout))%nat then dim (tile_at layout 1) 0 else 1.
Definition ComputeRowMajorTileGeometry shape layout : RowMajorTileGeometry :=
  let R := rank shape in
  let H := if R =? 1 then 1 else minor_dim shape layout 1 in
  let W := minor_dim shape layout 0 in
  let tile := tile_at layout 0 in
  let tile_H := if (length tile <=? 1)%nat then 1 else dim tile 0 in
  let tile_W := if tile_rank tile 1 then dim tile 0 else if (2 <=? length tile)%nat then dim tile 1 else 1 in
  mkGeom H W (ByteSizeOfPrimitiveType (element_type shape)) tile_H tile_W (packing_of layout)
    (CeilOfRatio H tile_H) (CeilOfRatio W tile_W) (batch_of shape layout).

Record Packed1DTileGeometry := mkPacked { k_P : Z; k_tile_W : Z; k_total_groups : Z }.
Definition group_elems (g : Packed1DTileGeometry) : Z := k_P g * k_tile_W g.
Definition group_bytes (g : Packed1DTileGeometry) (itemsize : Z) : Z := group_elems g * itemsize.
Definition ComputePacked1DTileGeometry (W : Z) layout : Packed1DTileGeometry :=
  let num_tiles := length (tiles layout) in
  let P := dim (tile_at layout (num_tiles - 1)) 0 in
  if (num_tiles =? 2)%nat then
    let tile_W := dim (tile_at layout 0) 0 in
    mkPacked P tile_W (CeilOfRatio (CeilOfRatio W tile_W) P)
  else
    let outer_W := dim (tile_at layout 0) 0 in
    let tile_W := dim (tile_at layout 1) 0 in
    mkPacked P tile_W (CeilOfRatio W outer_W * (outer_W / tile_W / P)).

(** ** Parallel work *)
Inductive Plan :=
  | Inline (prog : list Cmd)
  | Parallel (total_tasks max_threads step : Z) (task : Z → list Cmd).
Definition pool_size (hw_threads : Z) : Z :=
  if 0 <? hw_threads then Z.max 4 (Z.min hw_threads kMaxNumThreads) else kMaxNumThreads.
Definition ExecuteParallelTasks (pool_threads total_tasks num_tiles_0 desired_chunks : Z) (run_task : Z → Z → list Cmd) : Plan :=
  let max_threads := Z.min kMaxChunksPerTensor (Z.min pool_threads desired_chunks) in
  let task i := run_task (i / num_tiles_0) (i `mod` num_tiles_0) in
  if (1 <? max_threads) && (max_threads <=? total_tasks)
  then Parallel total_tasks max_threads (Z.max 1 (total_tasks / (max_threads * 8))) task
  else Inline (seqZ 0 total_tasks ≫= task).
Definition DispatchByPackingFactor (packing_factor : Z) : Z :=
  if (packing_factor =? 2) || (packing_factor =? 4) then packing_factor else 1.
(** The row width known at compile time; 0 when it is not one of the common ones. *)
Definition DispatchByRowBytes (row_bytes : Z) : Z :=
  if existsb (Z.eqb row_bytes) [8; 16; 32; 64; 128; 256; 512] then row_bytes else 0.

(** ** Rows *)
Definition CopyRowWithPaddingHighway src dst (valid_bytes total_row_bytes : Z) : list Cmd :=
  let N := Lanes 1 in
  let full := valid_bytes / N in
  let offset := full * N in
  let num_stored := Z.min N (total_row_bytes - offset) in
  let tail := if offset <? valid_bytes
              then [load_store_n (dst ⊕ offset) (src ⊕ offset) (valid_bytes - offset) num_stored] else [] in
  let offset' := if offset <? valid_bytes then offset + num_stored else offset in
  let pads := (total_row_bytes - offset') / N in
  let offset'' := offset' + Z.max 0 pads * N in
  (seqZ 0 full ≫= λ j, [memcpy (dst ⊕ j * N) (src ⊕ j * N) N]) ++ tail ++
  (seqZ 0 pads ≫= λ j, [memset0 (dst ⊕ (offset' + j * N)) N]) ++
  (if offset'' <? total_row_bytes then [memset0 (dst ⊕ offset'') (total_row_bytes - offset'')] else []).
Definition DetileRowWithPaddingHighway src dst (valid_bytes : Z) : list Cmd :=
  let N := Lanes 1 in
  let full := valid_bytes / N in
  let offset := full * N in
  (seqZ 0 full ≫= λ j, [memcpy (dst ⊕ j * N) (src ⊕ j * N) N]) ++
  (if offset <? valid_bytes
   then [load_store_n (dst ⊕ offset) (src ⊕ offset) (valid_bytes - offset) (valid_bytes - offset)] else []).
Definition ZeroRowHighway dst (total_row_bytes : Z) : list Cmd :=
  let N := Lanes 1 in
  let full := total_row_bytes / N in
  let offset := full * N in
  (seqZ 0 full ≫= λ j, [memset0 (dst ⊕ j * N) N]) ++
  (if offset <? total_row_bytes then [memset0 (dst ⊕ offset) (total_row_bytes - offset)] else []).

(** ** Row-major tiles

    The packed copiers for packing factors 2 (16-bit elements) and 4 (8-bit elements)
    are one text: [w] is the element width. *)
Definition unit_width (kPackingFactor : Z) : Z := if kPackingFactor =? 2 then 2 else 1.
(** The [P] rows of a packing group from row [r0] on, at column [col]. *)
Definition group_rows (batch : Ptr) (P w W r0 col : Z) : list Ptr :=
  (λ p, batch ⊕ ((r0 + p) * W + col) * w) <$> seqZ 0 P.
Definition copy_group (P w : Z) (rows : list Ptr) (dst_group : Ptr) (tile_W : Z) : list Cmd :=
  let N := Lanes w in
  let full := tile_W / N in
  (seqZ 0 full ≫= λ j, [store_interleaved w ((λ s, s ⊕ j * N * w) <$> rows) (dst_group ⊕ j * N * P * w)]) ++
  (seqZ (full * N) (tile_W - full * N) ≫= λ c,
     imap (λ p s, memcpy (dst_group ⊕ (P * c + Z.of_nat p) * w) (s ⊕ c * w) w) rows).
Definition CopyTilePackedNoPadding (kPackingFactor kRowBytes : Z) src_batch dst_tile
    (tile_row tile_col tile_H tile_W W itemsize : Z) : list Cmd :=
  let logical_col_start := tile_col * tile_W in
  if kPackingFactor =? 1 then
    let row_stride := if 0 <? kRowBytes then kRowBytes else tile_W * itemsize in
    seqZ 0 tile_H ≫= λ r,
      let logical_row := tile_row * tile_H + r in
      [memcpy (dst_tile ⊕ r * row_stride) (src_batch ⊕ (logical_row * W + logical_col_start) * itemsize)
         (if 0 <? kRowBytes then kRowBytes else row_stride)]
  else
    let w := unit_width kPackingFactor in
    seqZ 0 (tile_H / kPackingFactor) ≫= λ g,
      let r0 := tile_row * tile_H + g * kPackingFactor in
      copy_group kPackingFactor w (group_rows src_batch kPackingFactor w W r0 logical_col_start)
        (dst_tile ⊕ g * (tile_W * kPackingFactor * w)) tile_W.
Definition CopyTilePackedWithPadding (kPackingFactor : Z) src_batch dst_tile
    (tile_row tile_col tile_H tile_W H W itemsize tile_bytes : Z) : list Cmd :=
  let logical_col_start := tile_col * tile_W in
  let valid_elements := Z.min tile_W (W - logical_col_start) in
  if valid_elements <=? 0 then ZeroRowHighway dst_tile tile_bytes
  else if kPackingFactor =? 1 then
    let valid_bytes := valid_elements * itemsize in
    let total_row_bytes := tile_W * itemsize in
    seqZ 0 tile_H ≫= λ r,
      let logical_row := tile_row * tile_H + r in
      let dst_row := dst_tile ⊕ r * total_row_bytes in
      if H <=? logical_row then ZeroRowHighway dst_row total_row_bytes
      else CopyRowWithPaddingHighway (src_batch ⊕ (logical_row * W + logical_col_start) * itemsize) dst_row
             valid_bytes total_row_bytes
  else
    let w := unit_width kPackingFactor in
    let group_stride_bytes := tile_W * kPackingFactor * w in
    seqZ 0 (tile_H / kPackingFactor) ≫= λ g,
      let r0 := tile_row * tile_H + g * kPackingFactor in
      let dst_group := dst_tile ⊕ g * group_stride_bytes in
      if H <=? r0 then ZeroRowHighway dst_group group_stride_bytes
      else
        seqZ 0 tile_W ≫= λ c,
          imap (λ p s, let d := dst_group ⊕ (kPackingFactor * c + Z.of_nat p) * w in
                       if (c <? valid_elements) && (r0 + Z.of_nat p <? H) then memcpy d (s ⊕ c * w) w else memset0 d w)
            (group_rows src_batch kPackingFactor w W r0 logical_col_start).

Definition detile_group (P w : Z) (src_group : Ptr) (rows : list Ptr) (tile_W : Z) : list Cmd :=
  let N := Lanes w in
  let full := tile_W / N in
  (seqZ 0 full ≫= λ j, [load_interleaved w (src_group ⊕ j * N * P * w) ((λ d, d ⊕ j * N * w) <$> rows)]) ++
  (seqZ (full * N) (tile_W - full * N) ≫= λ c,
     imap (λ p d, memcpy (d ⊕ c * w) (src_group ⊕ (P * c + Z.of_nat p) * w) w) rows).
Definition DetileSingleTilePackedNoPadding (kPackingFactor kRowBytes : Z) src_tile dst_batch
    (tile_row tile_col tile_H tile_W W itemsize : Z) : list Cmd :=
  let logical_col_start := tile_col * tile_W in
  if kPackingFactor =? 1 then
    let row_stride := if 0 <? kRowBytes then kRowBytes else tile_W * itemsize in
    seqZ 0 tile_H ≫= λ r,
      let logical_row := tile_row * tile_H + r in
      [memcpy (dst_batch ⊕ (logical_row * W + logical_col_start) * itemsize) (src_tile ⊕ r * row_stride)
         (if 0 <? kRowBytes then kRowBytes else row_stride)]
  else
    let w := unit_width kPackingFactor in
    seqZ 0 (tile_H / kPackingFactor) ≫= λ g,
      let r0 := tile_row * tile_H + g * kPackingFactor in
      detile_group kPackingFactor w (src_tile ⊕ g * (tile_W * kPackingFactor * w))
        (group_rows dst_batch kPackingFactor w W r0 logical_col_start) tile_W.
Definition DetileSingleTilePackedWithPadding (kPackingFactor : Z) src_tile dst_batch
    (tile_row tile_col tile_H tile_W H W itemsize : Z) : list Cmd :=
  let logical_col_start := tile_col * tile_W in
  let valid_elements := Z.min tile_W (W - logical_col_start) in
  if valid_elements <=? 0 then []
  else if kPackingFactor =? 1 then
    let total_row_bytes := tile_W * itemsize in
    seqZ 0 tile_H ≫= λ r,
      let logical_row := tile_row * tile_H + r in
      if H <=? logical_row then []
      else DetileRowWithPaddingHighway (src_tile ⊕ r * total_row_bytes)
             (dst_batch ⊕ (logical_row * W + logical_col_start) * itemsize) (valid_elements * itemsize)
  else
    let w := unit_width kPackingFactor in
    seqZ 0 (tile_H / kPackingFactor) ≫= λ g,
      let r0 := tile_row * tile_H + g * kPackingFactor in
      let src_group := src_tile ⊕ g * (tile_W * kPackingFactor * w) in
      if H <=? r0 then []
      else
        seqZ 0 valid_elements ≫= λ c,
          concat (imap (λ p d, if r0 + Z.of_nat p <? H
                               then [memcpy (d ⊕ c * w) (src_group ⊕ (kPackingFactor * c + Z.of_nat p) * w) w] else [])
                    (group_rows dst_batch kPackingFactor w W r0 logical_col_start)).

(** ** One-dimensional tensors *)
Definition last_tile layout : Tile := tile_at layout (length (tiles layout) - 1).
Definition physical_elements (W outer_W : Z) : Z := CeilOfRatio W outer_W * outer_W.
Definition TileBuffer1DOptimized src_linear dst_tiled shape layout : list Cmd :=
  let W := dim (dimensions shape) 0 in
  let itemsize := ByteSizeOfPrimitiveType (element_type shape) in
  if tile_rank (last_tile layout) 1 then
    let total_physical_elements := physical_elements W (dim (tile_at layout 0) 0) in
    (if 0 <? W then [memcpy dst_tiled src_linear (W * itemsize)] else []) ++
    (if W <? total_physical_elements
     then ZeroRowHighway (dst_tiled ⊕ W * itemsize) ((total_physical_elements - W) * itemsize) else [])
  else
    let geom := ComputePacked1DTileGeometry W layout in
    let tile_W := k_tile_W geom in
    let kPackingFactor := DispatchByPackingFactor (k_P geom) in
    seqZ 0 (k_total_groups geom) ≫= λ g,
      let dst_group := dst_tiled ⊕ g * group_bytes geom itemsize in
      let group_start := g * group_elems geom in
      if group_start + group_elems geom <=? W
      then CopyTilePackedNoPadding kPackingFactor 0 src_linear dst_group g 0 kPackingFactor tile_W tile_W itemsize
      else if W <=? group_start then ZeroRowHighway dst_group (group_bytes geom itemsize)
      else
        ZeroRowHighway dst_group (group_bytes geom itemsize) ++
        (seqZ 0 kPackingFactor ≫= λ p,
           let row_start := (g * kPackingFactor + p) * tile_W in
           seqZ 0 tile_W ≫= λ c,
             let idx := row_start + c in
             if idx <? W
             then [memcpy (dst_group ⊕ (c * kPackingFactor + p) * itemsize) (src_linear ⊕ idx * itemsize) itemsize]
             else []).
Definition DetileBuffer1DOptimized src_tiled dst_linear shape layout : list Cmd :=
  let W := dim (dimensions shape) 0 in
  let itemsize := ByteSizeOfPrimitiveType (element_type shape) in
  if tile_rank (last_tile layout) 1 then
    if 0 <? W then [memcpy dst_linear src_tiled (W * itemsize)] else []
  else
    let geom := ComputePacked1DTileGeometry W layout in
    let tile_W := k_tile_W geom in
    let kPackingFactor := DispatchByPackingFactor (k_P geom) in
    (* the groups before the one where the loop breaks *)
    filter (λ g, g * group_elems geom < W) (seqZ 0 (k_total_groups geom)) ≫= λ g,
      let src_group := src_tiled ⊕ g * group_bytes geom itemsize in
      if g * group_elems geom + group_elems geom <=? W
      then DetileSingleTilePackedNoPadding kPackingFactor 0 src_group dst_linear g 0 kPackingFactor tile_W tile_W itemsize
      else
        seqZ 0 kPackingFactor ≫= λ p,
          let row_start := (g * kPackingFactor + p) * tile_W in
          seqZ 0 tile_W ≫= λ c,
            let idx := row_start + c in
            if idx <? W
            then [memcpy (dst_linear ⊕ idx * itemsize) (src_group ⊕ (c * kPackingFactor + p) * itemsize) itemsize]
            else [].

(** ** Row-major tensors *)
Definition identical_bytes (g : RowMajorTileGeometry) : bool :=
  (g_packing_factor g =? 1) && negb (has_padding g) &&
  ((g_W g =? g_tile_W g) || ((g_H g =? 1) && (g_tile_H g =? 1))).
Definition desired_chunks (g : RowMajorTileGeometry) : Z :=
  Z.max 1 (g_batch_size g * g_H g * g_W g * g_itemsize g / kParallelizationThresholdBytes).
Definition static_row_bytes (g : RowMajorTileGeometry) : Z :=
  DispatchByRowBytes (if g_packing_factor g =? 1 then g_tile_W g * g_itemsize g else 0).
(** One row of tiles of one matrix. *)
Definition tile_row_task (g : RowMajorTileGeometry) src_linear dst_tiled (b tile_row : Z) : list Cmd :=
  let kP := DispatchByPackingFactor (g_packing_factor g) in
  let src_batch := src_linear ⊕ b * matrix_size_bytes g in
  let dst_batch := dst_tiled ⊕ b * tiled_matrix_size_bytes g in
  let is_row_interior := tile_row * g_tile_H g + g_tile_H g <=? g_H g in
  seqZ 0 (g_num_tiles_1 g) ≫= λ tile_col,
    let dst_tile := dst_batch ⊕ (tile_row * g_num_tiles_1 g + tile_col) * tile_size_bytes g in
    let is_col_interior := tile_col * g_tile_W g + g_tile_W g <=? g_W g in
    if negb (has_padding g) || (is_row_interior && is_col_interior)
    then CopyTilePackedNoPadding kP (static_row_bytes g) src_batch dst_tile tile_row tile_col (g_tile_H g) (g_tile_W g) (g_W g) (g_itemsize g)
    else CopyTilePackedWithPadding kP src_batch dst_tile tile_row tile_col (g_tile_H g) (g_tile_W g) (g_H g) (g_W g) (g_itemsize g)
           (tile_size_bytes g).
Definition detile_row_task (g : RowMajorTileGeometry) src_tiled dst_linear (b tile_row : Z) : list Cmd :=
  let kP := DispatchByPackingFactor (g_packing_factor g) in
  let src_batch := src_tiled ⊕ b * tiled_matrix_size_bytes g in
  let dst_batch := dst_linear ⊕ b * matrix_size_bytes g in
  let is_row_interior := tile_row * g_tile_H g + g_tile_H g <=? g_H g in
  seqZ 0 (g_num_tiles_1 g) ≫= λ tile_col,
    let src_tile := src_batch ⊕ (tile_row * g_num_tiles_1 g + tile_col) * tile_size_bytes g in
    let is_col_interior := tile_col * g_tile_W g + g_tile_W g <=? g_W g in
    if negb (has_padding g) || (is_row_interior && is_col_interior)
    then DetileSingleTilePackedNoPadding kP (static_row_bytes g) src_tile dst_batch tile_row tile_col (g_tile_H g) (g_tile_W g) (g_W g) (g_itemsize g)
    else DetileSingleTilePackedWithPadding kP src_tile dst_batch tile_row tile_col (g_tile_H g) (g_tile_W g) (g_H g) (g_W g) (g_itemsize g).
(** All the tasks, on the calling thread when the tensor is small. *)
Definition run_tasks (pool_threads chunks batch n : Z) (run_task : Z → Z → list Cmd) : Plan :=
  let total_tasks := batch * n in
  if (chunks <=? 1) || (total_tasks <=? 1)
  then Inline (seqZ 0 batch ≫= λ b, seqZ 0 n ≫= run_task b)
  else ExecuteParallelTasks pool_threads total_tasks n chunks run_task.

(** A single logical row under a 2D tile without packing. *)
Definition single_row_tile (g : RowMajorTileGeometry) (dst_tile src : Ptr) (tile_col : Z) : list Cmd :=
  let valid_elements := Z.min (g_tile_W g) (g_W g - tile_col * g_tile_W g) in
  (if 0 <? valid_elements then
     memcpy dst_tile (src ⊕ tile_col * g_tile_W g * g_itemsize g) (valid_elements * g_itemsize g) ::
     (if valid_elements <? g_tile_W g
      then [memset0 (dst_tile ⊕ valid_elements * g_itemsize g) ((g_tile_W g - valid_elements) * g_itemsize g)] else [])
   else [memset0 dst_tile (g_tile_W g * g_itemsize g)]) ++
  (if 1 <? g_tile_H g
   then [memset0 (dst_tile ⊕ g_tile_W g * g_itemsize g) ((g_tile_H g - 1) * g_tile_W g * g_itemsize g)] else []).
(** A tensor of matrices under a 2D tile. *)
Definition tile_matrices (pool_threads : Z) src_linear dst_tiled (g : RowMajorTileGeometry) : Plan :=
  if identical_bytes g then Inline [memcpy dst_tiled src_linear (g_batch_size g * matrix_size_bytes g)]
  else if (g_packing_factor g =? 1) && (g_H g =? 1) then
    Inline (seqZ 0 (g_batch_size g) ≫= λ b,
              seqZ 0 (g_num_tiles_1 g) ≫= λ tile_col,
                single_row_tile g (dst_tiled ⊕ b * tiled_matrix_size_bytes g ⊕ tile_col * tile_size_bytes g)
                  (src_linear ⊕ b * matrix_size_bytes g) tile_col)
  else run_tasks pool_threads (desired_chunks g) (g_batch_size g) (g_num_tiles_0 g) (tile_row_task g src_linear dst_tiled).
Definition TileBufferNDOptimized (pool_threads : Z) src_linear dst_tiled shape layout : Plan :=
  if (rank shape =? 1) && tile_rank (tile_at layout 0) 1
  then Inline (TileBuffer1DOptimized src_linear dst_tiled shape layout)
  else tile_matrices pool_threads src_linear dst_tiled (ComputeRowMajorTileGeometry shape layout).
(** The loop over the columns of a single row breaks at the first one without elements. *)
Definition detile_matrices (pool_threads : Z) src_tiled dst_linear (g : RowMajorTileGeometry) : Plan :=
  if identical_bytes g then Inline [memcpy dst_linear src_tiled (g_batch_size g * matrix_size_bytes g)]
  else if (g_packing_factor g =? 1) && (g_H g =? 1) then
    Inline (seqZ 0 (g_batch_size g) ≫= λ b,
              filter (λ tile_col, 0 < Z.min (g_tile_W g) (g_W g - tile_col * g_tile_W g)) (seqZ 0 (g_num_tiles_1 g)) ≫= λ tile_col,
                [memcpy (dst_linear ⊕ b * matrix_size_bytes g ⊕ tile_col * g_tile_W g * g_itemsize g)
                   (src_tiled ⊕ b * tiled_matrix_size_bytes g ⊕ tile_col * tile_size_bytes g)
                   (Z.min (g_tile_W g) (g_W g - tile_col * g_tile_W g) * g_itemsize g)])
  else run_tasks pool_threads (desired_chunks g) (g_batch_size g) (g_num_tiles_0 g) (detile_row_task g src_tiled dst_linear).
Definition DetileBufferNDOptimized (pool_threads : Z) src_tiled dst_linear shape layout : Plan :=
  if (rank shape =? 1) && tile_rank (tile_at layout 0) 1
  then Inline (DetileBuffer1DOptimized src_tiled dst_linear shape layout)
  else detile_matrices pool_threads src_tiled dst_linear (ComputeRowMajorTileGeometry shape layout).

(** ** Column-major tiles

    [H] is the stride-one dimension of the linear buffer.  A packed unit of
    [kWordBytes] bytes is contiguous on both sides. *)
Definition word_columns (kWordBytes num_groups tile_W : Z) : Z :=
  if negb hwy_scalar then
    if (num_groups =? 4) && (kWordBytes =? 4) then tile_W / 4 * 4
    else if (num_groups =? 8) && (kWordBytes =? 2) then tile_W / 8 * 8
    else 0
  else 0.
Definition copy_words (kWordBytes num_groups tile_W : Z) (src_col dst_tile : Ptr) (c : Z) : list Cmd :=
  seqZ 0 num_groups ≫= λ g, [memcpy (dst_tile ⊕ g * (tile_W * kWordBytes) ⊕ c * kWordBytes) (src_col ⊕ g * kWordBytes) kWordBytes].
Definition CopyTileColMajorUnitsNoPadding (kWordBytes : Z) src_batch dst_tile
    (tile_row tile_col tile_H tile_W H itemsize num_groups : Z) : list Cmd :=
  let src_stride_bytes := H * itemsize in
  let src_base := src_batch ⊕ (tile_col * tile_W * H + tile_row * tile_H) * itemsize in
  let dst_group_stride := tile_W * kWordBytes in
  let vectored := word_columns kWordBytes num_groups tile_W in
  (seqZ 0 (vectored / num_groups) ≫= λ j,
     let c := j * num_groups in
     let rows := (λ i, src_base ⊕ c * src_stride_bytes ⊕ i * src_stride_bytes) <$> seqZ 0 num_groups in
     let cols := (λ g, dst_tile ⊕ g * dst_group_stride ⊕ c * kWordBytes) <$> seqZ 0 num_groups in
     [if num_groups =? 4 then Transpose4x4U32 rows cols else Transpose8x8U16 rows cols]) ++
  (seqZ vectored (tile_W - vectored) ≫= λ c, copy_words kWordBytes num_groups tile_W (src_base ⊕ c * src_stride_bytes) dst_tile c).
Definition CopyTileColMajorNoPadding src_batch dst_tile
    (tile_row tile_col tile_H tile_W H itemsize packing_factor : Z) : list Cmd :=
  let num_groups := tile_H / packing_factor in
  let unit_bytes := packing_factor * itemsize in
  if existsb (Z.eqb unit_bytes) [4; 2; 1; 8]
  then CopyTileColMajorUnitsNoPadding unit_bytes src_batch dst_tile tile_row tile_col tile_H tile_W H itemsize num_groups
  else
    let src_base := src_batch ⊕ (tile_col * tile_W * H + tile_row * tile_H) * itemsize in
    seqZ 0 tile_W ≫= λ c, seqZ 0 num_groups ≫= λ g,
      [memcpy (dst_tile ⊕ (g * tile_W + c) * unit_bytes) (src_base ⊕ c * (H * itemsize) ⊕ g * unit_bytes) unit_bytes].
Definition clamp (x lo hi : Z) : Z := Z.max lo (Z.min x hi).
Definition CopyTileColMajorWithPadding src_batch dst_tile
    (tile_row tile_col tile_H tile_W H W itemsize packing_factor tile_bytes : Z) : list Cmd :=
  let logical_row_start := tile_row * tile_H in
  let logical_col_start := tile_col * tile_W in
  let valid_H := clamp (H - logical_row_start) 0 tile_H in
  let valid_W := clamp (W - logical_col_start) 0 tile_W in
  ZeroRowHighway dst_tile tile_bytes ++
  (if (valid_H <=? 0) || (valid_W <=? 0) then []
   else seqZ 0 valid_W ≫= λ c, seqZ 0 valid_H ≫= λ r,
     let dst_elem_idx := (r / packing_factor * tile_W + c) * packing_factor + r `mod` packing_factor in
     [memcpy (dst_tile ⊕ dst_elem_idx * itemsize)
        (src_batch ⊕ ((logical_col_start + c) * H + logical_row_start) * itemsize ⊕ r * itemsize) itemsize]).
Definition DetileSingleTileColMajorUnitsNoPadding (kWordBytes : Z) src_tile dst_batch
    (tile_row tile_col tile_H tile_W H itemsize num_groups : Z) : list Cmd :=
  let dst_stride_bytes := H * itemsize in
  let dst_base := dst_batch ⊕ (tile_col * tile_W * H + tile_row * tile_H) * itemsize in
  let src_group_stride := tile_W * kWordBytes in
  let vectored := word_columns kWordBytes num_groups tile_W in
  (seqZ 0 (vectored / num_groups) ≫= λ j,
     let c := j * num_groups in
     let rows := (λ g, src_tile ⊕ g * src_group_stride ⊕ c * kWordBytes) <$> seqZ 0 num_groups in
     let cols := (λ i, dst_base ⊕ c * dst_stride_bytes ⊕ i * dst_stride_bytes) <$> seqZ 0 num_groups in
     [if num_groups =? 4 then Transpose4x4U32 rows cols else Transpose8x8U16 rows cols]) ++
  (seqZ vectored (tile_W - vectored) ≫= λ c, seqZ 0 num_groups ≫= λ g,
     [memcpy (dst_base ⊕ c * dst_stride_bytes ⊕ g * kWordBytes) (src_tile ⊕ g * src_group_stride ⊕ c * kWordBytes) kWordBytes]).
Definition DetileSingleTileColMajorNoPadding src_tile dst_batch
    (tile_row tile_col tile_H tile_W H itemsize packing_factor : Z) : list Cmd :=
  let num_groups := tile_H / packing_factor in
  let unit_bytes := packing_factor * itemsize in
  if existsb (Z.eqb unit_bytes) [4; 2; 1; 8]
  then DetileSingleTileColMajorUnitsNoPadding unit_bytes src_tile dst_batch tile_row tile_col tile_H tile_W H itemsize num_groups
  else
    let dst_base := dst_batch ⊕ (tile_col * tile_W * H + tile_row * tile_H) * itemsize in
    seqZ 0 tile_W ≫= λ c, seqZ 0 num_groups ≫= λ g,
      [memcpy (dst_base ⊕ c * (H * itemsize) ⊕ g * unit_bytes) (src_tile ⊕ (g * tile_W + c) * unit_bytes) unit_bytes].
Definition DetileSingleTileColMajorWithPadding src_tile dst_batch
    (tile_row tile_col tile_H tile_W H W itemsize packing_factor : Z) : list Cmd :=
  let logical_row_start := tile_row * tile_H in
  let logical_col_start := tile_col * tile_W in
  let valid_H := clamp (H - logical_row_start) 0 tile_H in
  let valid_W := clamp (W - logical_col_start) 0 tile_W in
  if (valid_H <=? 0) || (valid_W <=? 0) then []
  else seqZ 0 valid_W ≫= λ c, seqZ 0 valid_H ≫= λ r,
    let src_elem_idx := (r / packing_factor * tile_W + c) * packing_factor + r `mod` packing_factor in
    [memcpy (dst_batch ⊕ ((logical_col_start + c) * H + logical_row_start) * itemsize ⊕ r * itemsize)
       (src_tile ⊕ src_elem_idx * itemsize) itemsize].

(** ** Column-major tensors: tile columns outside, tile rows inside *)
Definition ColMajorGeometry shape layout : RowMajorTileGeometry :=
  let H := minor_dim shape layout 1 in
  let W := minor_dim shape layout 0 in
  let tile_H := dim (tile_at layout 0) 0 in
  let tile_W := dim (tile_at layout 0) 1 in
  mkGeom H W (ByteSizeOfPrimitiveType (element_type shape)) tile_H tile_W (packing_of layout)
    (CeilOfRatio H tile_H) (CeilOfRatio W tile_W) (batch_of shape layout).
Definition tile_col_task (g : RowMajorTileGeometry) src_linear dst_tiled (b tile_col : Z) : list Cmd :=
  let src_batch := src_linear ⊕ b * matrix_size_bytes g in
  let dst_batch := dst_tiled ⊕ b * tiled_matrix_size_bytes g in
  let is_col_interior := tile_col * g_tile_W g + g_tile_W g <=? g_W g in
  seqZ 0 (g_num_tiles_0 g) ≫= λ tile_row,
    let dst_tile := dst_batch ⊕ (tile_row * g_num_tiles_1 g + tile_col) * tile_size_bytes g in
    let is_row_interior := tile_row * g_tile_H g + g_tile_H g <=? g_H g in
    if negb (has_padding g) || (is_row_interior && is_col_interior)
    then CopyTileColMajorNoPadding src_batch dst_tile tile_row tile_col (g_tile_H g) (g_tile_W g) (g_H g) (g_itemsize g) (g_packing_factor g)
    else CopyTileColMajorWithPadding src_batch dst_tile tile_row tile_col (g_tile_H g) (g_tile_W g) (g_H g) (g_W g) (g_itemsize g)
           (g_packing_factor g) (tile_size_bytes g).
Definition detile_col_task (g : RowMajorTileGeometry) src_tiled dst_linear (b tile_col : Z) : list Cmd :=
  let src_batch := src_tiled ⊕ b * tiled_matrix_size_bytes g in
  let dst_batch := dst_linear ⊕ b * matrix_size_bytes g in
  let is_col_interior := tile_col * g_tile_W g + g_tile_W g <=? g_W g in
  seqZ 0 (g_num_tiles_0 g) ≫= λ tile_row,
    let src_tile := src_batch ⊕ (tile_row * g_num_tiles_1 g + tile_col) * tile_size_bytes g in
    let is_row_interior := tile_row * g_tile_H g + g_tile_H g <=? g_H g in
    if negb (has_padding g) || (is_row_interior && is_col_interior)
    then DetileSingleTileColMajorNoPadding src_tile dst_batch tile_row tile_col (g_tile_H g) (g_tile_W g) (g_H g) (g_itemsize g) (g_packing_factor g)
    else DetileSingleTileColMajorWithPadding src_tile dst_batch tile_row tile_col (g_tile_H g) (g_tile_W g) (g_H g) (g_W g) (g_itemsize g)
           (g_packing_factor g).
Definition TileBufferColMajorOptimized (pool_threads : Z) src_linear dst_tiled shape layout : Plan :=
  let g := ColMajorGeometry shape layout in
  run_tasks pool_threads (desired_chunks g) (g_batch_size g) (g_num_tiles_1 g) (tile_col_task g src_linear dst_tiled).
Definition DetileBufferColMajorOptimized (pool_threads : Z) src_tiled dst_linear shape layout : Plan :=
  let g := ColMajorGeometry shape layout in
  run_tasks pool_threads (desired_chunks g) (g_batch_size g) (g_num_tiles_1 g) (detile_col_task g src_tiled dst_linear).

(** ** In place

    The buffer is the destination; a bounce vector of the given size is allocated. *)
Record Run := mkRun { bounce_bytes : Z; run_plans : list Plan }.
Definition downto (n : Z) : list Z := reverse (seqZ 0 n).
Definition bounce : Ptr := mkPtr BBounce 0.

Definition ZeroPadUnpacked1DInPlace (buffer : Ptr) (buffer_capacity W itemsize : Z) layout : StatusOr Run :=
  let total_physical_elements := physical_elements W (dim (tile_at layout 0) 0) in
  if buffer_capacity <? total_physical_elements * itemsize then Err kInvalidArgument
  else Ok (mkRun 0 [Inline (if W <? total_physical_elements
                            then ZeroRowHighway (buffer ⊕ W * itemsize) ((total_physical_elements - W) * itemsize) else [])]).
(** One group through the bounce buffer. *)
Definition packed_group_in_place (geom : Packed1DTileGeometry) (kPackingFactor : Z) (buffer : Ptr) (W itemsize g : Z) : list Cmd :=
  let tile_W := k_tile_W geom in
  let dst_group := buffer ⊕ g * group_bytes geom itemsize in
  let group_start := g * group_elems geom in
  if W <=? group_start then ZeroRowHighway dst_group (group_bytes geom itemsize)
  else
    let valid_elements := Z.min (group_elems geom) (W - group_start) in
    memcpy bounce dst_group (valid_elements * itemsize) ::
    (if valid_elements <? group_elems geom
     then [memset0 (bounce ⊕ valid_elements * itemsize) ((group_elems geom - valid_elements) * itemsize)] else []) ++
    (if group_start + group_elems geom <=? W
     then CopyTilePackedNoPadding kPackingFactor 0 bounce dst_group 0 0 kPackingFactor tile_W tile_W itemsize
     else ZeroRowHighway dst_group (group_bytes geom itemsize) ++
          (seqZ 0 kPackingFactor ≫= λ p, seqZ 0 tile_W ≫= λ c,
             let idx := p * tile_W + c in
             if idx <? valid_elements
             then [memcpy (dst_group ⊕ (c * kPackingFactor + p) * itemsize) (bounce ⊕ idx * itemsize) itemsize] else [])).
Definition TilePacked1DInPlace (buffer : Ptr) (buffer_capacity W itemsize : Z) layout : StatusOr Run :=
  let geom := ComputePacked1DTileGeometry W layout in
  if buffer_capacity <? k_total_groups geom * group_bytes geom itemsize then Err kInvalidArgument
  else Ok (mkRun (group_bytes geom itemsize)
             [Inline (downto (k_total_groups geom) ≫= packed_group_in_place geom (DispatchByPackingFactor (k_P geom)) buffer W itemsize)]).
(** Tiles of a single row, from last to first; the copy of [single_row_tile] is a
    memmove here. *)
Definition TileSingleRowInPlace (buffer : Ptr) (g : RowMajorTileGeometry) : list Cmd :=
  downto (g_batch_size g) ≫= λ b,
    downto (g_num_tiles_1 g) ≫= λ tile_col,
      single_row_tile g (buffer ⊕ b * tiled_matrix_size_bytes g ⊕ tile_col * tile_size_bytes g)
        (buffer ⊕ b * matrix_size_bytes g) tile_col.
(** One band: [tile_H] rows to the bounce buffer, and back as tiles. *)
Definition band_in_place (buffer : Ptr) (g : RowMajorTileGeometry) (b tile_row : Z) : list Cmd :=
  let kP := DispatchByPackingFactor (g_packing_factor g) in
  let src_batch := buffer ⊕ b * matrix_size_bytes g in
  let dst_batch := buffer ⊕ b * tiled_matrix_size_bytes g in
  let logical_row_start := tile_row * g_tile_H g in
  let valid_band_H := Z.min (g_H g - logical_row_start) (g_tile_H g) in
  if valid_band_H <=? 0 then []
  else
    let linear_bytes_to_copy := valid_band_H * g_W g * g_itemsize g in
    memcpy bounce (src_batch ⊕ logical_row_start * g_W g * g_itemsize g) linear_bytes_to_copy ::
    (if valid_band_H <? g_tile_H g
     then [memset0 (bounce ⊕ linear_bytes_to_copy) ((g_tile_H g - valid_band_H) * g_W g * g_itemsize g)] else []) ++
    (seqZ 0 (g_num_tiles_1 g) ≫= λ tile_col,
       let dst_tile := dst_batch ⊕ (tile_row * g_num_tiles_1 g + tile_col) * tile_size_bytes g in
       let is_row_interior := valid_band_H =? g_tile_H g in
       let is_col_interior := tile_col * g_tile_W g + g_tile_W g <=? g_W g in
       if is_row_interior && is_col_interior
       then CopyTilePackedNoPadding kP (static_row_bytes g) bounce dst_tile 0 tile_col (g_tile_H g) (g_tile_W g) (g_W g) (g_itemsize g)
       else CopyTilePackedWithPadding kP bounce dst_tile 0 tile_col (g_tile_H g) (g_tile_W g) valid_band_H (g_W g) (g_itemsize g)
              (tile_size_bytes g)).
Definition TileRowMajorBandsInPlace (buffer : Ptr) (g : RowMajorTileGeometry) : list Cmd :=
  downto (g_batch_size g) ≫= λ b, downto (g_num_tiles_0 g) ≫= band_in_place buffer g b.
Definition TileBufferInPlaceRowMajor (buffer : Ptr) (buffer_capacity : Z) shape layout : StatusOr Run :=
  if (rank shape =? 1) && tile_rank (tile_at layout 0) 1 then
    let W := dim (dimensions shape) 0 in
    let itemsize := ByteSizeOfPrimitiveType (element_type shape) in
    if tile_rank (last_tile layout) 1 then ZeroPadUnpacked1DInPlace buffer buffer_capacity W itemsize layout
    else TilePacked1DInPlace buffer buffer_capacity W itemsize layout
  else
    let g := ComputeRowMajorTileGeometry shape layout in
    if buffer_capacity <? total_tiled_bytes g then Err kInvalidArgument
    else if identical_bytes g then Ok (mkRun 0 [])
    else if (g_packing_factor g =? 1) && (g_H g =? 1) then Ok (mkRun 0 [Inline (TileSingleRowInPlace buffer g)])
    else Ok (mkRun (g_tile_H g * g_W g * g_itemsize g) [Inline (TileRowMajorBandsInPlace buffer g)]).

(** ** The entry points *)
(** The shape after each tile; [None] when a tile dimension is not positive. *)
Definition tile_step (current_shape : list Z) (tile : Tile) : option (list Z) :=
  let current_shape := replicate (length tile - length current_shape) 1 ++ current_shape in
  let suffix_start := (length current_shape - length tile)%nat in
  if forallb (λ t, 0 <? t) tile
  then Some (take suffix_start current_shape ++ zip_with CeilOfRatio (drop suffix_start current_shape) tile ++ tile)
  else None.
Fixpoint tile_steps (current_shape : list Z) (ts : list Tile) : option (list Z) :=
  match ts with [] => Some current_shape | t :: ts => tile_step current_shape t ≫= λ s, tile_steps s ts end.
Definition product (l : list Z) : Z := foldl Z.mul 1 l.
(** The dimensions from major to minor. *)
Definition physical_dims shape layout : list Z :=
  (λ i, minor_dim shape layout i) <$> reverse (seqZ 0 (rank shape)).
Definition GetTiledBufferElements shape : Z :=
  if rank shape =? 0 then 1
  else match shape_layout shape with
       | None => ElementsIn shape
       | Some layout =>
           if negb (Z.of_nat (length (minor_to_major layout)) =? rank shape) then ElementsIn shape
           else match tile_steps (physical_dims shape layout) (tiles layout) with
                | Some s => product s
                | None => ElementsIn shape
                end
       end.

(** Element by element, for every other layout. *)
Definition element_moves (move : Z → Z → Cmd) shape layout : list Cmd :=
  let itemsize := ByteSizeOfPrimitiveType (element_type shape) in
  let standard_shape := MakeShape (element_type shape) (dimensions shape) in
  (λ indices, move (MultidimensionalIndexToLinearIndex standard_shape indices * itemsize)
                   (LinearIndexForNestedTiling (with_layout shape layout) indices * itemsize))
    <$> ForEachIndex (with_layout shape layout).
Definition DetileBuffer (pool_threads : Z) src_tiled dst_linear shape layout : Plan :=
  let itemsize := ByteSizeOfPrimitiveType (element_type shape) in
  if bool_decide (tiles layout = []) then
    let n := ByteSizeOf shape in Inline (if 0 <? n then [memcpy dst_linear src_tiled n] else [])
  else if IsStandardRowMajorTiled shape layout then DetileBufferNDOptimized pool_threads src_tiled dst_linear shape layout
  else if IsStandardColMajorTiled shape layout then DetileBufferColMajorOptimized pool_threads src_tiled dst_linear shape layout
  else Inline (element_moves (λ linear physical, memcpy (dst_linear ⊕ linear) (src_tiled ⊕ physical) itemsize) shape layout).
(** TileBuffer between different buffers. *)
Definition TileBufferTo (pool_threads : Z) src_linear dst_tiled shape layout : Plan :=
  let itemsize := ByteSizeOfPrimitiveType (element_type shape) in
  if bool_decide (tiles layout = []) then
    let n := ByteSizeOf shape in Inline (if 0 <? n then [memcpy dst_tiled src_linear n] else [])
  else if IsStandardRowMajorTiled shape layout then TileBufferNDOptimized pool_threads src_linear dst_tiled shape layout
  else if IsStandardColMajorTiled shape layout then TileBufferColMajorOptimized pool_threads src_linear dst_tiled shape layout
  else
    let total_physical_elements := GetTiledBufferElements (with_layout shape layout) in
    Inline ((if product (dimensions shape) <? total_physical_elements
             then [memset0 dst_tiled (total_physical_elements * itemsize)] else []) ++
            element_moves (λ linear physical, memcpy (dst_tiled ⊕ physical) (src_linear ⊕ linear) itemsize) shape layout).
Definition TileBufferInPlace (pool_threads : Z) (buffer : Ptr) (buffer_capacity : Z) shape layout : StatusOr Run :=
  if bool_decide (tiles layout = []) then Ok (mkRun 0 [])
  else if IsStandardRowMajorTiled shape layout then TileBufferInPlaceRowMajor buffer buffer_capacity shape layout
  else
    let itemsize := ByteSizeOfPrimitiveType (element_type shape) in
    let total := GetTiledBufferElements (with_layout shape layout) * itemsize in
    if buffer_capacity <? total then Err kInvalidArgument
    else Ok (mkRun total [TileBufferTo pool_threads buffer bounce shape layout; Inline [memcpy buffer bounce total]]).
(** [aliased]: source and destination are the same pointer. *)
Definition TileBuffer (pool_threads : Z) (aliased : bool) src_linear dst_tiled shape layout : StatusOr Run :=
  if aliased then
    TileBufferInPlace pool_threads dst_tiled
      (GetTiledBufferElements (with_layout shape layout) * ByteSizeOfPrimitiveType (element_type shape)) shape layout
  else Ok (mkRun 0 [TileBufferTo pool_threads src_linear dst_tiled shape layout]).
End tiling.
