(* ===== verification/TilingTiles.v ===== *)
(** * TilingTiles: what the copiers of one tile do
    (src/tpu_sync/weight_sync/tiling_utils.cc)

    A row-major tile of [tile_H] x [tile_W] elements packed by [P] keeps element
    (g * P + p, c) at ((g * tile_W + c) * P + p); the lemmas say of every copier that
    it leaves the right bytes in the cells of its tile and covers them all. *)

From S2P Require Import Prelude TileMemory Highway TilingUtils.

(** A byte placed at an equal position. *)
Ltac by_ring Ht :=
  match type of Ht with ?T ?a (byte_at ?l ?x) =>
    match goal with |- T ?b (byte_at l ?y) => replace b with a by ring; replace y with x by ring; exact Ht end end.

Section rows.
Context {hw : Highway} {hwl : HighwayLaws} (w : Buffer) (M0 : Memory) (cap : Z) (T : Z → Z → Prop).
Implicit Types (src dst : Ptr).

(** A loop whose rounds fill consecutive chunks. *)
Lemma does_chunks base N m (f : Z → list Cmd) :
  0 < N → (∀ j, 0 <= j < m → does w M0 cap T (f j) (λ pos, base + j * N <= pos < base + (j + 1) * N)) →
  does w M0 cap T (seqZ 0 m ≫= f) (λ pos, base <= pos < base + m * N).
Proof.
  intros HN H. eapply does_weaken; [exact (does_range _ _ _ T m f _ H)|]. intros pos Hp. cbv beta.
  destruct (split_pos (pos - base) m N) as (i & k & Hi & Hk & E); [done|lia|]. exists i. split; [done|]. lia.
Qed.
(** Guarded commands. *)
Lemma does_if (b : bool) p C : (b = true → does w M0 cap T p C) → does w M0 cap T (if b then p else []) (λ pos, b = true ∧ C pos).
Proof. intros H. destruct b; [eapply does_weaken; [by apply H|naive_solver]|]. apply does_nil. naive_solver. Qed.

Definition in_dst (p : Ptr) (n : Z) : Prop := p_buf p = w ∧ 0 <= p_off p ∧ p_off p + n <= cap.
Definition in_src (p : Ptr) (n : Z) : Prop := p_buf p ≠ w ∧ 0 <= p_off p ∧ p_off p + n <= blen (buffer (p_buf p) M0).
Definition src_byte (p : Ptr) (k : Z) : Z := byte_at (buffer (p_buf p) M0) (p_off p + k).

Lemma does_memcpy dst src n :
  0 <= n → in_dst dst n → in_src src n → (∀ k, 0 <= k < n → T (p_off dst + k) (src_byte src k)) →
  does w M0 cap T [memcpy dst src n] (λ pos, p_off dst <= pos < p_off dst + n).
Proof. intros Hn (? & ? & ?) (? & ? & ?) HT. by apply does_copy. Qed.
Lemma does_memset0 dst n :
  0 <= n → in_dst dst n → (∀ k, 0 <= k < n → T (p_off dst + k) 0) →
  does w M0 cap T [memset0 dst n] (λ pos, p_off dst <= pos < p_off dst + n).
Proof. intros Hn (? & ? & ?) HT. by apply does_zero. Qed.

Lemma does_zero_row dst n :
  0 <= n → in_dst dst n → (∀ k, 0 <= k < n → T (p_off dst + k) 0) →
  does w M0 cap T (ZeroRowHighway dst n) (λ pos, p_off dst <= pos < p_off dst + n).
Proof.
  intros Hn (Hb & H0 & Hc) HT. unfold ZeroRowHighway. pose proof (Lanes_pos 1 ltac:(lia)) as HN. set (N := Lanes 1) in *.
  pose proof (Z.mul_div_le n N HN) as Hle. pose proof (Z.div_pos n N Hn HN) as Hf. set (full := n / N) in *.
  eapply does_weaken; [apply does_app|].
  - apply (does_chunks (p_off dst) N); [done|]. intros j Hj. eapply does_weaken; [apply does_memset0|]; cbn [p_off shift].
    + lia.
    + split_and!; [done|cbn; nia|cbn; nia].
    + intros k Hk. rewrite <- Z.add_assoc. apply HT. nia.
    + lia.
  - apply does_if. intros Ht%Z.ltb_lt. apply does_memset0; [lia|split_and!; [done|cbn; lia|cbn; lia]|].
    intros k Hk. cbn. rewrite <- Z.add_assoc. apply HT. lia.
  - intros pos Hp. cbn. destruct (Z.ltb_spec (full * N) n); [|left; lia].
    destruct (decide (pos < p_off dst + full * N)); [left; lia|right; split; [done|lia]].
Qed.
(** The full vectors of a row. *)
Lemma does_vectors dst src m :
  0 <= m → in_dst dst (m * Lanes 1) → in_src src (m * Lanes 1) →
  (∀ k, 0 <= k < m * Lanes 1 → T (p_off dst + k) (src_byte src k)) →
  does w M0 cap T (seqZ 0 m ≫= λ j, [memcpy (dst ⊕ j * Lanes 1) (src ⊕ j * Lanes 1) (Lanes 1)])
    (λ pos, p_off dst <= pos < p_off dst + m * Lanes 1).
Proof.
  intros Hm (Hb & H0 & Hc) (Hs & Hs0 & Hsc) HT. pose proof (Lanes_pos 1 ltac:(lia)) as HN. set (N := Lanes 1) in *.
  apply (does_chunks (p_off dst) N); [done|]. intros j Hj. eapply does_weaken; [apply does_memcpy|]; cbn [p_off shift].
  - lia.
  - split_and!; [done|cbn; nia|cbn; nia].
  - split_and!; [done|cbn; nia|cbn; nia].
  - intros k Hk. unfold src_byte. cbn. rewrite <- !Z.add_assoc. apply HT. nia.
  - lia.
Qed.
Lemma does_copy_row dst src valid total :
  0 <= valid <= total → in_dst dst total → in_src src valid →
  (∀ k, 0 <= k < valid → T (p_off dst + k) (src_byte src k)) → (∀ k, valid <= k < total → T (p_off dst + k) 0) →
  does w M0 cap T (CopyRowWithPaddingHighway src dst valid total) (λ pos, p_off dst <= pos < p_off dst + total).
Proof.
  intros Hv (Hb & H0 & Hc) (Hs & Hs0 & Hsc) HT HZ. unfold CopyRowWithPaddingHighway.
  pose proof (Lanes_pos 1 ltac:(lia)) as HN. assert (Lanes 1 ≠ 0) as HN' by lia.
  pose proof (Z.div_mod valid (Lanes 1) HN') as Hdm.
  pose proof (Z.mod_pos_bound valid (Lanes 1) HN) as Hmod. assert (0 <= valid / Lanes 1) as Hf by (apply Z.div_pos; lia).
  set (full := valid / Lanes 1) in *. set (num_stored := Z.min (Lanes 1) (total - full * Lanes 1)).
  set (off := if full * Lanes 1 <? valid then full * Lanes 1 + num_stored else full * Lanes 1).
  assert (valid <= off <= total) as Hoff by (unfold off, num_stored; destruct (Z.ltb_spec (full * Lanes 1) valid); lia).
  set (pads := (total - off) / Lanes 1). pose proof (Z.mul_div_le (total - off) (Lanes 1) HN) as Hpl.
  assert (0 <= (total - off) / Lanes 1) as Hpp by (apply Z.div_pos; lia). fold pads in Hpl, Hpp. rewrite Z.max_r by done.
  eapply does_weaken; [apply does_app; [apply does_vectors|apply does_app; [apply does_if|apply does_app; [|apply does_if]]]|].
  - done.
  - split_and!; [done|done|lia].
  - split_and!; [done|done|lia].
  - intros k Hk. apply HT. lia.
  - intros Ht%Z.ltb_lt. apply does_load_store_n; try (cbn; unfold num_stored; done || lia).
    + intros k Hk. cbn. rewrite <- !Z.add_assoc. apply HT. lia.
    + intros k Hk. cbn. rewrite <- Z.add_assoc. apply HZ. unfold num_stored in Hk. lia.
  - apply (does_chunks (p_off dst + off) (Lanes 1)); [done|]. intros j Hj. eapply does_weaken; [apply does_memset0|]; cbn [p_off shift].
    + lia.
    + split_and!; [done|cbn; nia|cbn; nia].
    + intros k Hk. rewrite <- Z.add_assoc. apply HZ. nia.
    + lia.
  - intros Ht%Z.ltb_lt. apply does_memset0; [lia|split_and!; [done|cbn; lia|cbn; lia]|].
    intros k Hk. cbn. rewrite <- Z.add_assoc. apply HZ. lia.
  - intros pos Hp. cbn [p_off shift]. destruct (decide (pos < p_off dst + full * Lanes 1)); [left; lia|right].
    destruct (decide (pos < p_off dst + off)) as [Hlt|Hge].
    + left. unfold off in Hlt. destruct (Z.ltb_spec (full * Lanes 1) valid); [split; [done|lia]|lia].
    + right. destruct (decide (pos < p_off dst + off + pads * Lanes 1)); [left; lia|right].
      destruct (Z.ltb_spec (off + pads * Lanes 1) total); [split; [done|lia]|lia].
Qed.
Lemma does_detile_row dst src valid :
  0 <= valid → in_dst dst valid → in_src src valid → (∀ k, 0 <= k < valid → T (p_off dst + k) (src_byte src k)) →
  does w M0 cap T (DetileRowWithPaddingHighway src dst valid) (λ pos, p_off dst <= pos < p_off dst + valid).
Proof.
  intros Hv (Hb & H0 & Hc) (Hs & Hs0 & Hsc) HT. unfold DetileRowWithPaddingHighway.
  pose proof (Lanes_pos 1 ltac:(lia)) as HN. assert (Lanes 1 ≠ 0) as HN' by lia.
  pose proof (Z.div_mod valid (Lanes 1) HN') as Hdm.
  pose proof (Z.mod_pos_bound valid (Lanes 1) HN) as Hmod. assert (0 <= valid / Lanes 1) as Hf by (apply Z.div_pos; lia).
  set (full := valid / Lanes 1) in *. eapply does_weaken; [apply does_app; [apply does_vectors|apply does_if]|].
  - done.
  - split_and!; [done|done|lia].
  - split_and!; [done|done|lia].
  - intros k Hk. apply HT. lia.
  - intros Ht%Z.ltb_lt. apply does_load_store_n; try (cbn; done || lia). intros k Hk. cbn. rewrite <- !Z.add_assoc. apply HT. lia.
  - intros pos Hp. cbn [p_off shift]. destruct (decide (pos < p_off dst + full * Lanes 1)); [left; lia|right].
    destruct (Z.ltb_spec (full * Lanes 1) valid); [split; [done|lia]|lia].
Qed.

Lemma does_imap {A} (f : nat → A → Cmd) (C : nat → A → Z → Prop) (l : list A) :
  (∀ p x, l !! p = Some x → does w M0 cap T [f p x] (C p x)) →
  does w M0 cap T (imap f l) (λ pos, ∃ p x, l !! p = Some x ∧ C p x pos).
Proof.
  revert f C. induction l as [|x l IH]; intros f C H; [apply does_nil; naive_solver|]. cbn [imap].
  change (f 0%nat x :: imap (f ∘ S) l) with ([f 0%nat x] ++ imap (f ∘ S) l).
  eapply does_weaken; [apply does_app; [by apply H|apply (IH _ (λ p, C (S p))); intros p y Hp; by apply (H (S p))]|].
  intros pos ([|p] & y & Hy & Hc); [left; by simplify_eq/=|right; eauto].
Qed.

Lemma does_concat_imap {A} (f : nat → A → list Cmd) (C : nat → A → Z → Prop) (l : list A) :
  (∀ p x, l !! p = Some x → does w M0 cap T (f p x) (C p x)) →
  does w M0 cap T (concat (imap f l)) (λ pos, ∃ p x, l !! p = Some x ∧ C p x pos).
Proof.
  revert f C. induction l as [|x l IH]; intros f C H; [apply does_nil; naive_solver|]. cbn [imap concat].
  eapply does_weaken; [apply does_app; [by apply H|apply (IH _ (λ p, C (S p))); intros p y Hp; by apply (H (S p))]|].
  intros pos ([|p] & y & Hy & Hc); [left; by simplify_eq/=|right; eauto].
Qed.

(** ** Packing groups *)
Section groups.
Context (P wd : Z) (Hpk : packing P wd).
Lemma packing_pos : 0 < P ∧ 0 < wd.
Proof using Hpk. unfold packing in Hpk. lia. Qed.

Lemma does_copy_group rows dst tile_W :
  Z.of_nat (length rows) = P → 0 <= tile_W → in_dst dst (tile_W * P * wd) → Forall (λ s, in_src s (tile_W * wd)) rows →
  (∀ p s c k, rows !! p = Some s → 0 <= c < tile_W → 0 <= k < wd →
     T (p_off dst + ((c * P + Z.of_nat p) * wd + k)) (src_byte s (c * wd + k))) →
  does w M0 cap T (copy_group P wd rows dst tile_W) (λ pos, p_off dst <= pos < p_off dst + tile_W * P * wd).
Proof using Hpk hwl.
  destruct packing_pos as [HP Hw]. intros Hlen Htw (Hb & H0 & Hc) Hin HT. unfold copy_group.
  pose proof (Lanes_pos wd Hw) as HN. set (N := Lanes wd) in *. pose proof (Z.mul_div_le tile_W N HN) as Hle.
  assert (0 <= tile_W / N) as Hf by (apply Z.div_pos; lia). set (full := tile_W / N) in *.
  eapply does_weaken; [apply does_app|].
  - apply (does_chunks (p_off dst) (N * P * wd)); [nia|]. intros j Hj.
    assert (0 <= j * N ∧ j * N + N <= tile_W) as [Hj0 Hj1] by nia.
    assert (0 <= j * N * wd ∧ j * N * wd + N * wd <= tile_W * wd) as [Ha0 Ha1] by nia.
    assert (0 <= j * N * P * wd ∧ j * N * P * wd + N * P * wd <= tile_W * P * wd) as [Hb0 Hb1] by nia.
    eapply does_weaken; [eapply (does_interleave _ _ _ T P wd)|]; cbn [p_off shift p_buf]; fold N.
    + done.
    + by rewrite length_fmap.
    + done.
    + apply Forall_fmap. eapply Forall_impl; [exact Hin|]. intros s (? & _). done.
    + lia.
    + lia.
    + apply Forall_fmap. eapply Forall_impl; [exact Hin|]. intros s (_ & ? & ?). cbn. lia.
    + intros i p s k Hi Hp Hk. apply list_lookup_fmap_Some in Hp as (s' & -> & Hs'). cbn [p_off shift p_buf].
      pose proof (HT p s' (j * N + i) k Hs' ltac:(lia) Hk) as Ht. unfold src_byte in Ht.
      replace (p_off dst + j * N * P * wd + ((i * P + Z.of_nat p) * wd + k)) with (p_off dst + (((j * N + i) * P + Z.of_nat p) * wd + k)) by ring.
      by replace (p_off s' + j * N * wd + (i * wd + k)) with (p_off s' + ((j * N + i) * wd + k)) by ring.
    + intros pos Hp. split; [lia|]. replace (P * N * wd) with (N * P * wd) by ring. lia.
  - apply does_range_from. intros c Hcr. apply does_imap. intros p s Hs.
    destruct (proj1 (Forall_lookup _ _) Hin p s Hs) as (? & ? & ?). apply lookup_lt_Some in Hs as Hlt.
    assert (0 <= c < tile_W) as Hct by nia. assert (0 <= (P * c + Z.of_nat p) * wd ∧ (P * c + Z.of_nat p) * wd + wd <= tile_W * P * wd) by nia.
    apply does_memcpy; [lia|split_and!; [done|cbn; lia|cbn; lia]|split_and!; [done|cbn; nia|cbn; nia]|].
    intros k Hk. cbn. pose proof (HT p s c k Hs Hct Hk) as Ht. unfold src_byte in *. cbn.
    replace (p_off dst + (P * c + Z.of_nat p) * wd + k) with (p_off dst + ((c * P + Z.of_nat p) * wd + k)) by ring.
    by replace (p_off s + c * wd + k) with (p_off s + (c * wd + k)) by ring.
  - intros pos Hp. cbn [p_off shift]. destruct (decide (pos < p_off dst + full * (N * P * wd))) as [|Hge]; [left; lia|right].
    destruct (split_pos3 (pos - p_off dst) tile_W P wd) as (c & p & k & Hcw & Hpp & Hk & E); [done|done|lia|].
    exists c. split.
    { split; [|lia]. apply Z.nlt_ge. intros Hlt. apply Hge. enough ((c * P + p) * wd + k < full * (N * P * wd)) by lia.
      assert (c * P + p < full * N * P) by nia. nia. }
    destruct (lookup_lt_is_Some_2 rows (Z.to_nat p)) as [s Hs]; [lia|]. exists (Z.to_nat p), s. split; [done|].
    rewrite Z2Nat.id by lia. nia.
Qed.

Lemma does_detile_group rows src tile_W :
  Z.of_nat (length rows) = P → 0 <= tile_W → in_src src (tile_W * P * wd) → Forall (λ d, in_dst d (tile_W * wd)) rows →
  (∀ p d c k, rows !! p = Some d → 0 <= c < tile_W → 0 <= k < wd →
     T (p_off d + (c * wd + k)) (src_byte src ((c * P + Z.of_nat p) * wd + k))) →
  does w M0 cap T (detile_group P wd src rows tile_W) (λ pos, ∃ d, d ∈ rows ∧ p_off d <= pos < p_off d + tile_W * wd).
Proof using Hpk hwl.
  destruct packing_pos as [HP Hw]. intros Hlen Htw (Hb & H0 & Hc) Hin HT. unfold detile_group.
  pose proof (Lanes_pos wd Hw) as HN. set (N := Lanes wd) in *. pose proof (Z.mul_div_le tile_W N HN) as Hle.
  assert (0 <= tile_W / N) as Hf by (apply Z.div_pos; lia). set (full := tile_W / N) in *.
  eapply does_weaken; [apply does_app|].
  - apply does_range. intros j Hj.
    assert (0 <= j * N ∧ j * N + N <= tile_W) as [Hj0 Hj1] by nia.
    assert (0 <= j * N * wd ∧ j * N * wd + N * wd <= tile_W * wd) as [Ha0 Ha1] by nia.
    assert (0 <= j * N * P * wd ∧ j * N * P * wd + P * N * wd <= tile_W * P * wd) as [Hb0 Hb1] by nia.
    eapply (does_deinterleave _ _ _ T P wd); cbn [p_off shift p_buf]; fold N.
    + done.
    + by rewrite length_fmap.
    + done.
    + apply Forall_fmap. eapply Forall_impl; [exact Hin|]. intros d (? & ? & ?). cbn. split_and!; [done|lia|lia].
    + lia.
    + lia.
    + intros i p d k Hi Hp Hk. apply list_lookup_fmap_Some in Hp as (d' & -> & Hd'). cbn [p_off shift p_buf].
      pose proof (HT p d' (j * N + i) k Hd' ltac:(lia) Hk) as Ht. unfold src_byte in Ht.
      replace (p_off src + j * N * P * wd + ((i * P + Z.of_nat p) * wd + k)) with (p_off src + (((j * N + i) * P + Z.of_nat p) * wd + k)) by ring.
      by replace (p_off d' + j * N * wd + (i * wd + k)) with (p_off d' + ((j * N + i) * wd + k)) by ring.
  - apply does_range_from. intros c Hcr. apply does_imap. intros p d Hd.
    destruct (proj1 (Forall_lookup _ _) Hin p d Hd) as (? & ? & ?). apply lookup_lt_Some in Hd as Hlt.
    assert (0 <= c < tile_W) as Hct by nia. assert (0 <= (P * c + Z.of_nat p) * wd ∧ (P * c + Z.of_nat p) * wd + wd <= tile_W * P * wd) by nia.
    apply does_memcpy; [lia|split_and!; [done|cbn; nia|cbn; nia]|split_and!; [done|cbn; lia|cbn; lia]|].
    intros k Hk. cbn. pose proof (HT p d c k Hd Hct Hk) as Ht. unfold src_byte in *. cbn.
    replace (p_off src + (P * c + Z.of_nat p) * wd + k) with (p_off src + ((c * P + Z.of_nat p) * wd + k)) by ring.
    by replace (p_off d + c * wd + k) with (p_off d + (c * wd + k)) by ring.
  - intros pos (d & [p Hd]%list_elem_of_lookup & Hp). fold N. destruct (decide (pos < p_off d + full * N * wd)) as [Hlt|Hge].
    + left. destruct (split_pos (pos - p_off d) full (N * wd)) as (j & k & Hj & Hk & E); [nia|lia|]. exists j. split; [done|].
      exists (d ⊕ j * N * wd). split; [apply list_elem_of_fmap; exists d; split; [done|by eapply list_elem_of_lookup_2]|]. cbn. lia.
    + right. destruct (split_pos (pos - p_off d) tile_W wd) as (c & k & Hcw & Hk & E); [done|lia|]. exists c. split; [split; [nia|lia]|].
      exists p, d. split; [done|]. cbn. lia.
Qed.
End groups.

(** ** Tiles *)
Definition group_of (kP isz : Z) : Prop := kP = 1 ∨ packing kP isz.
Lemma unit_width_packing kP isz : packing kP isz → unit_width kP = isz ∧ (kP =? 1) = false ∧ 0 < kP ∧ 0 < isz.
Proof. unfold packing, unit_width. intros [[-> ->]|[-> ->]]; done. Qed.
Lemma length_group_rows batch kP wd W r0 col : 0 <= kP → Z.of_nat (length (group_rows batch kP wd W r0 col)) = kP.
Proof. intros H. unfold group_rows. rewrite length_fmap, length_seqZ. lia. Qed.
Lemma lookup_group_rows batch kP wd W r0 col p s :
  group_rows batch kP wd W r0 col !! p = Some s → s = batch ⊕ ((r0 + Z.of_nat p) * W + col) * wd ∧ Z.of_nat p < kP.
Proof. unfold group_rows. intros (i & -> & [-> Hp]%lookup_seqZ)%list_lookup_fmap_Some. split; [|lia]. repeat f_equal. Qed.

Section tile.
Context (kP tile_H tile_W W isz : Z) (Hk : group_of kP isz) (HtH : tile_H `mod` kP = 0) (HtH0 : 0 < tile_H) (HtW : 0 < tile_W) (Hisz : 0 < isz).
Lemma groups_exact : 0 < kP ∧ tile_H / kP * kP = tile_H.
Proof using Hk HtH.
  assert (0 < kP) by (destruct Hk as [->|[[-> _]|[-> _]]]; lia). split; [done|]. pose proof (Z.div_mod tile_H kP). lia.
Qed.
Lemma tile_groups : tile_H / kP * (tile_W * kP * isz) = tile_H * tile_W * isz.
Proof using Hk HtH.
  destruct groups_exact as [_ Hg]. replace (tile_H / kP * (tile_W * kP * isz)) with (tile_H / kP * kP * tile_W * isz) by ring. by rewrite Hg.
Qed.
Lemma group_bounds g : 0 <= g < tile_H / kP → 0 <= g * (tile_W * kP * isz) ∧ (g + 1) * (tile_W * kP * isz) <= tile_H * tile_W * isz.
Proof using Hk HtH HtW Hisz.
  intros Hgr. destruct groups_exact as [HkP Hg]. split; [apply Z.mul_nonneg_nonneg; [lia|apply mul3_nonneg; lia]|].
  rewrite <- tile_groups. apply Z.mul_le_mono_nonneg_r; [apply mul3_nonneg; lia|lia].
Qed.
(** The cells of the tile at [dst] hold [V row column byte]. *)
Definition tile_holds (dst : Ptr) (V : Z → Z → Z → Z) : Prop :=
  ∀ g p c k, 0 <= g < tile_H / kP → 0 <= p < kP → 0 <= c < tile_W → 0 <= k < isz →
    T (p_off dst + (((g * tile_W + c) * kP + p) * isz + k)) (V (g * kP + p) c k).
(** The pointer to element (row, first column) of the tile's part of the matrix. *)
Definition tile_row_ptr (batch : Ptr) (tile_row tile_col r : Z) : Ptr :=
  batch ⊕ ((tile_row * tile_H + r) * W + tile_col * tile_W) * isz.
Definition static_width (kRowBytes : Z) : Prop := kRowBytes = 0 ∨ kP = 1 ∧ kRowBytes = tile_W * isz.

Lemma does_tile_copy kRowBytes src dst tile_row tile_col :
  static_width kRowBytes → in_dst dst (tile_H * tile_W * isz) →
  (∀ r, 0 <= r < tile_H → in_src (tile_row_ptr src tile_row tile_col r) (tile_W * isz)) →
  tile_holds dst (λ r c k, src_byte (tile_row_ptr src tile_row tile_col r) (c * isz + k)) →
  does w M0 cap T (CopyTilePackedNoPadding kP kRowBytes src dst tile_row tile_col tile_H tile_W W isz)
    (λ pos, p_off dst <= pos < p_off dst + tile_H * tile_W * isz).
Proof using Hk HtH HtH0 HtW Hisz hwl.
  intros Hst (Hb & H0 & Hc) Hsrc HT. destruct groups_exact as [HkP Hg]. unfold CopyTilePackedNoPadding.
  destruct Hk as [E|Hpk].
  - rewrite E. cbn [Z.eqb Pos.eqb].
    assert ((if 0 <? kRowBytes then kRowBytes else tile_W * isz) = tile_W * isz) as Hrow by (destruct Hst as [->|[_ ->]]; [done|by case_match]).
    cbv zeta. rewrite !Hrow.
    eapply does_weaken; [apply (does_chunks (p_off dst) (tile_W * isz) tile_H); [nia|]|intros pos Hp; by rewrite Z.mul_assoc]. intros r Hr.
    eapply does_weaken; [apply does_memcpy|]; cbn [p_off shift].
    + nia.
    + split_and!; [done|cbn; nia|cbn; nia].
    + apply (Hsrc r Hr).
    + intros j Hj. destruct (split_pos j tile_W isz) as (c & k & Hcc & Hkk & ->); [done..|].
      pose proof (HT r 0 c k ltac:(rewrite E, Z.div_1_r; lia) ltac:(lia) Hcc Hkk) as Ht.
      rewrite E in Ht. replace (r * 1 + 0) with r in Ht by ring. unfold tile_row_ptr in Ht.
      by replace (p_off dst + r * (tile_W * isz) + (c * isz + k)) with (p_off dst + (((r * tile_W + c) * 1 + 0) * isz + k)) by ring.
    + lia.
  - destruct (unit_width_packing _ _ Hpk) as (-> & -> & _ & _). cbv zeta.
    eapply does_weaken; [apply (does_chunks (p_off dst) (tile_W * kP * isz) (tile_H / kP)); [nia|]|].
    + intros g Hgr. destruct (group_bounds g Hgr) as [Hg0 Hg1].
      eapply does_weaken; [apply (does_copy_group kP isz Hpk)|]; cbn [p_off shift].
      * apply length_group_rows. lia.
      * lia.
      * split_and!; [done|cbn; lia|cbn; lia].
      * apply Forall_lookup. intros p s [-> Hp]%lookup_group_rows.
        pose proof (Hsrc (g * kP + Z.of_nat p) ltac:(nia)) as Hs. unfold tile_row_ptr in Hs.
        by replace (tile_row * tile_H + g * kP + Z.of_nat p) with (tile_row * tile_H + (g * kP + Z.of_nat p)) by ring.
      * intros p s c k [-> Hp]%lookup_group_rows Hcc Hkk. pose proof (HT g (Z.of_nat p) c k Hgr ltac:(lia) Hcc Hkk) as Ht.
        unfold tile_row_ptr in Ht. rewrite (Z.add_assoc (tile_row * tile_H)) in Ht.
        by replace (p_off dst + g * (tile_W * kP * isz) + ((c * kP + Z.of_nat p) * isz + k))
          with (p_off dst + (((g * tile_W + c) * kP + Z.of_nat p) * isz + k)) by ring.
      * lia.
    + intros pos Hp. by rewrite tile_groups.
Qed.

(** Rows below the matrix and columns beside it are zero. *)
Definition padded (H : Z) (src : Ptr) (tile_row tile_col r c k : Z) : Z :=
  if (tile_row * tile_H + r <? H) && (tile_col * tile_W + c <? W)
  then src_byte (tile_row_ptr src tile_row tile_col r) (c * isz + k) else 0.
Lemma does_zero_group dst V g :
  in_dst dst (tile_H * tile_W * isz) → tile_holds dst V → 0 <= g < tile_H / kP →
  (∀ p c k, 0 <= p < kP → 0 <= c < tile_W → V (g * kP + p) c k = 0) →
  does w M0 cap T (ZeroRowHighway (dst ⊕ g * (tile_W * kP * isz)) (tile_W * kP * isz))
    (λ pos, p_off dst + g * (tile_W * kP * isz) <= pos < p_off dst + (g + 1) * (tile_W * kP * isz)).
Proof using Hk HtH HtH0 HtW Hisz hwl.
  intros (Hb & H0 & Hc) HT Hg HV. destruct (group_bounds g Hg) as [Hg0 Hg1]. destruct groups_exact as [HkP _].
  eapply does_weaken; [apply does_zero_row|]; cbn [p_off shift].
  - apply mul3_nonneg; lia.
  - split_and!; [done|cbn; lia|cbn; lia].
  - intros j Hj. destruct (split_pos3 j tile_W kP isz) as (c & p & k & Hcc & Hp & Hkk & ->); [done|done|lia|].
    pose proof (HT g p c k Hg Hp Hcc Hkk) as Ht. rewrite HV in Ht by done.
    by replace (p_off dst + g * (tile_W * kP * isz) + ((c * kP + p) * isz + k)) with (p_off dst + (((g * tile_W + c) * kP + p) * isz + k)) by ring.
  - lia.
Qed.
Lemma does_zero_tile dst V :
  in_dst dst (tile_H * tile_W * isz) → tile_holds dst V → (∀ r c k, 0 <= r < tile_H → 0 <= c < tile_W → V r c k = 0) →
  does w M0 cap T (ZeroRowHighway dst (tile_H * tile_W * isz)) (λ pos, p_off dst <= pos < p_off dst + tile_H * tile_W * isz).
Proof using Hk HtH HtH0 HtW Hisz hwl.
  intros Hd HT HV. destruct groups_exact as [HkP Hg]. apply does_zero_row; [apply mul3_nonneg; lia|done|]. intros j Hj.
  destruct (split_pos j (tile_H / kP) (tile_W * kP * isz)) as (g & q & Hgr & Hq & ->); [nia|by rewrite tile_groups|].
  destruct (split_pos3 q tile_W kP isz) as (c & p & k & Hcc & Hp & Hkk & ->); [done|done|lia|].
  pose proof (HT g p c k Hgr Hp Hcc Hkk) as Ht. rewrite HV in Ht by nia.
  by replace (p_off dst + (g * (tile_W * kP * isz) + ((c * kP + p) * isz + k))) with (p_off dst + (((g * tile_W + c) * kP + p) * isz + k)) by ring.
Qed.

(** One row of an unpacked tile, and one element of a packed one. *)
Lemma does_pad_row H src dst tile_row tile_col r :
  kP = 1 → in_dst dst (tile_H * tile_W * isz) → 0 <= r < tile_H → tile_col * tile_W < W →
  (tile_row * tile_H + r < H → in_src (tile_row_ptr src tile_row tile_col r) (Z.min tile_W (W - tile_col * tile_W) * isz)) →
  tile_holds dst (padded H src tile_row tile_col) →
  does w M0 cap T (if H <=? tile_row * tile_H + r then ZeroRowHighway (dst ⊕ r * (tile_W * isz)) (tile_W * isz)
                   else CopyRowWithPaddingHighway (src ⊕ ((tile_row * tile_H + r) * W + tile_col * tile_W) * isz)
                          (dst ⊕ r * (tile_W * isz)) (Z.min tile_W (W - tile_col * tile_W) * isz) (tile_W * isz))
    (λ pos, p_off dst + r * (tile_W * isz) <= pos < p_off dst + (r + 1) * (tile_W * isz)).
Proof using Hk HtH HtH0 HtW Hisz hwl.
  intros E (Hb & H0 & Hc) Hr Hcol Hsrc HT.
  assert (∀ c k, 0 <= c < tile_W → 0 <= k < isz → T (p_off dst + r * (tile_W * isz) + (c * isz + k)) (padded H src tile_row tile_col r c k)) as Ht.
  { intros c k Hcc Hkk. pose proof (HT r 0 c k ltac:(rewrite E, Z.div_1_r; lia) ltac:(lia) Hcc Hkk) as Ht. rewrite E in Ht.
    replace (r * 1 + 0) with r in Ht by ring.
    by replace (p_off dst + r * (tile_W * isz) + (c * isz + k)) with (p_off dst + (((r * tile_W + c) * 1 + 0) * isz + k)) by ring. }
  assert (in_dst (dst ⊕ r * (tile_W * isz)) (tile_W * isz)) as Hd by (split_and!; [done|cbn; nia|cbn; nia]).
  destruct (Z.leb_spec H (tile_row * tile_H + r)) as [HH|HH]; [|].
  - eapply does_weaken; [apply does_zero_row; [nia|done|]|intros pos Hp; cbn; lia]. intros j Hj. cbn.
    destruct (split_pos j tile_W isz) as (c & k & Hcc & Hkk & ->); [done..|]. pose proof (Ht c k Hcc Hkk) as Hv.
    unfold padded in Hv. by rewrite (proj2 (Z.ltb_ge _ H)) in Hv.
  - eapply does_weaken; [apply does_copy_row; [nia|done|by apply Hsrc| |]|intros pos Hp; cbn; lia]; intros j Hj; cbn.
    + destruct (split_pos j tile_W isz) as (c & k & Hcc & Hkk & ->); [done|nia|]. pose proof (Ht c k Hcc Hkk) as Hv. unfold padded in Hv.
      rewrite (proj2 (Z.ltb_lt _ H) HH), (proj2 (Z.ltb_lt _ W)) in Hv by nia. done.
    + destruct (split_pos j tile_W isz) as (c & k & Hcc & Hkk & ->); [done|nia|]. pose proof (Ht c k Hcc Hkk) as Hv. unfold padded in Hv.
      rewrite (proj2 (Z.ltb_ge _ W)), andb_false_r in Hv by nia. done.
Qed.
Lemma does_pad_element H src dst tile_row tile_col g p c :
  0 <= g < tile_H / kP → 0 <= p < kP → 0 <= c < tile_W → in_dst dst (tile_H * tile_W * isz) →
  (tile_row * tile_H + (g * kP + p) < H →
     in_src (tile_row_ptr src tile_row tile_col (g * kP + p)) (Z.min tile_W (W - tile_col * tile_W) * isz)) →
  tile_holds dst (padded H src tile_row tile_col) →
  let d := dst ⊕ g * (tile_W * kP * isz) ⊕ (kP * c + p) * isz in
  does w M0 cap T
    [if (c <? Z.min tile_W (W - tile_col * tile_W)) && (tile_row * tile_H + g * kP + p <? H)
     then memcpy d (src ⊕ ((tile_row * tile_H + g * kP + p) * W + tile_col * tile_W) * isz ⊕ c * isz) isz else memset0 d isz]
    (λ pos, p_off d <= pos < p_off d + isz).
Proof using Hk HtH HtH0 HtW Hisz.
  intros Hg Hp Hcc (Hb & H0 & Hc) Hsrc HT d. destruct groups_exact as [HkP HgE]. destruct (group_bounds g Hg) as [Hg0 Hg1].
  assert (0 <= (kP * c + p) * isz ∧ (kP * c + p) * isz + isz <= tile_W * kP * isz) as [He0 He1].
  { pose proof (join_pos3 c p 0 tile_W kP isz Hcc Hp). pose proof (join_pos3 c p (isz - 1) tile_W kP isz Hcc Hp). lia. }
  assert (in_dst d isz) as Hd by (split_and!; [done|cbn; lia|cbn; lia]).
  assert (∀ k, 0 <= k < isz → T (p_off d + k) (padded H src tile_row tile_col (g * kP + p) c k)) as Ht.
  { intros k Hkk. pose proof (HT g p c k Hg Hp Hcc Hkk) as Ht. unfold d. cbn.
    by replace (p_off dst + g * (tile_W * kP * isz) + (kP * c + p) * isz + k) with (p_off dst + (((g * tile_W + c) * kP + p) * isz + k)) by ring. }
  unfold padded in Ht. rewrite (Z.add_assoc (tile_row * tile_H)) in Ht.
  assert ((c <? Z.min tile_W (W - tile_col * tile_W)) = (tile_col * tile_W + c <? W)) as ->
    by (destruct (Z.ltb_spec (tile_col * tile_W + c) W), (Z.ltb_spec c (Z.min tile_W (W - tile_col * tile_W))); lia).
  rewrite andb_comm. destruct (Z.ltb_spec (tile_row * tile_H + g * kP + p) H) as [HH|HH]; cbn [andb] in *;
    [destruct (Z.ltb_spec (tile_col * tile_W + c) W) as [HW|HW]|].
  - destruct Hsrc as (Hs & Hs0 & Hsc); [lia|]. unfold tile_row_ptr in Hs, Hs0, Hsc. cbn in Hs, Hs0, Hsc. rewrite !Z.add_assoc in Hs0, Hsc.
    apply does_memcpy; [lia|done|split_and!; [done|cbn; nia|cbn; nia]|]. intros k Hkk. pose proof (Ht k Hkk) as Hv.
    unfold src_byte, tile_row_ptr in *. cbn in *. rewrite !Z.add_assoc in Hv. done.
  - apply does_memset0; [lia|done|]. apply Ht.
  - apply does_memset0; [lia|done|]. apply Ht.
Qed.
Lemma does_tile_pad H src dst tile_row tile_col :
  in_dst dst (tile_H * tile_W * isz) →
  (∀ r, 0 <= r < tile_H → tile_row * tile_H + r < H → tile_col * tile_W < W →
     in_src (tile_row_ptr src tile_row tile_col r) (Z.min tile_W (W - tile_col * tile_W) * isz)) →
  tile_holds dst (padded H src tile_row tile_col) →
  does w M0 cap T (CopyTilePackedWithPadding kP src dst tile_row tile_col tile_H tile_W H W isz (tile_H * tile_W * isz))
    (λ pos, p_off dst <= pos < p_off dst + tile_H * tile_W * isz).
Proof using Hk HtH HtH0 HtW Hisz hwl.
  intros Hd Hsrc HT. unfold CopyTilePackedWithPadding. destruct groups_exact as [HkP Hg].
  destruct (Z.leb_spec (Z.min tile_W (W - tile_col * tile_W)) 0) as [Hv|Hv].
  { eapply does_zero_tile; [done|exact HT|]. intros r c k Hr Hcc. unfold padded. by rewrite (proj2 (Z.ltb_ge _ W)), andb_false_r by lia. }
  pose proof Hk as [E|Hpk].
  - rewrite (proj2 (Z.eqb_eq kP 1) E). eapply does_weaken; [apply (does_chunks (p_off dst) (tile_W * isz) tile_H); [nia|]|intros pos Hp; by rewrite Z.mul_assoc].
    intros r Hr. apply does_pad_row; try done; [lia|]. intros HH. apply Hsrc; [done|done|lia].
  - destruct (unit_width_packing _ _ Hpk) as (-> & -> & _ & _). cbv zeta.
    eapply does_weaken; [apply (does_chunks (p_off dst) (tile_W * kP * isz) (tile_H / kP)); [nia|]|intros pos Hp; by rewrite tile_groups].
    intros g Hgr. destruct (Z.leb_spec H (tile_row * tile_H + g * kP)) as [HH|HH].
    { eapply does_zero_group; [done|exact HT|done|]. intros p c k Hp Hcc. unfold padded. by rewrite (proj2 (Z.ltb_ge _ H)) by lia. }
    eapply does_weaken; [apply (does_chunks (p_off dst + g * (tile_W * kP * isz)) (kP * isz) tile_W); [nia|]|intros pos Hp; cbv beta in *; lia].
    intros c Hcc. eapply does_weaken; [apply (does_imap _ (λ p _ pos,
      let o := p_off dst + g * (tile_W * kP * isz) + (kP * c + Z.of_nat p) * isz in o <= pos < o + isz))|].
    + intros p s [-> Hp]%lookup_group_rows. apply (does_pad_element H src dst tile_row tile_col g (Z.of_nat p) c); try done; [lia|]. intros HH'. apply Hsrc; [nia|done|lia].
    + intros pos Hp. destruct (split_pos (pos - (p_off dst + g * (tile_W * kP * isz) + c * (kP * isz))) kP isz) as (p & k & Hpp & Hkk & E); [done|lia|].
      destruct (lookup_lt_is_Some_2 (group_rows src kP isz W (tile_row * tile_H + g * kP) (tile_col * tile_W)) (Z.to_nat p)) as [s Hs].
      { pose proof (length_group_rows src kP isz W (tile_row * tile_H + g * kP) (tile_col * tile_W)). lia. }
      exists (Z.to_nat p), s. split; [done|]. cbn. rewrite Z2Nat.id by lia. nia.
Qed.

(** Back: the cells of the tile at [src] go to the rows of the matrix. *)
Definition rows_hold (H : Z) (src dst : Ptr) (tile_row tile_col : Z) : Prop :=
  ∀ g p c k, 0 <= g < tile_H / kP → 0 <= p < kP → 0 <= c < tile_W → 0 <= k < isz →
    tile_row * tile_H + (g * kP + p) < H → tile_col * tile_W + c < W →
    T (p_off (tile_row_ptr dst tile_row tile_col (g * kP + p)) + (c * isz + k)) (src_byte src (((g * tile_W + c) * kP + p) * isz + k)).
Definition row_part (dst : Ptr) (tile_row tile_col r n pos : Z) : Prop :=
  p_off (tile_row_ptr dst tile_row tile_col r) <= pos < p_off (tile_row_ptr dst tile_row tile_col r) + n * isz.

Lemma does_tile_detile H kRowBytes src dst tile_row tile_col :
  static_width kRowBytes → in_src src (tile_H * tile_W * isz) →
  tile_row * tile_H + tile_H <= H → tile_col * tile_W + tile_W <= W →
  (∀ r, 0 <= r < tile_H → in_dst (tile_row_ptr dst tile_row tile_col r) (tile_W * isz)) →
  rows_hold H src dst tile_row tile_col →
  does w M0 cap T (DetileSingleTilePackedNoPadding kP kRowBytes src dst tile_row tile_col tile_H tile_W W isz)
    (λ pos, ∃ r, 0 <= r < tile_H ∧ row_part dst tile_row tile_col r tile_W pos).
Proof using Hk HtH HtH0 HtW Hisz hwl.
  intros Hst (Hb & H0 & Hc) HH HW Hdst HT. destruct groups_exact as [HkP Hg]. unfold DetileSingleTilePackedNoPadding.
  pose proof Hk as [E|Hpk].
  - rewrite (proj2 (Z.eqb_eq kP 1) E).
    assert ((if 0 <? kRowBytes then kRowBytes else tile_W * isz) = tile_W * isz) as Hrow by (destruct Hst as [->|[_ ->]]; [done|by case_match]).
    cbv zeta. rewrite !Hrow. apply does_range. intros r Hr. apply does_memcpy.
    + nia.
    + by apply Hdst.
    + split_and!; [done|cbn; nia|cbn; nia].
    + intros j Hj. destruct (split_pos j tile_W isz) as (c & k & Hcc & Hkk & ->); [done..|].
      pose proof (HT r 0 c k ltac:(rewrite E, Z.div_1_r; lia) ltac:(lia) Hcc Hkk) as Ht. rewrite E in Ht. replace (r * 1 + 0) with r in Ht by ring.
      unfold src_byte in *. cbn in *. rewrite <- !Z.add_assoc.
      replace (r * (tile_W * isz) + (c * isz + k)) with (((r * tile_W + c) * 1 + 0) * isz + k) by ring. rewrite Z.add_assoc. apply Ht; lia.
  - destruct (unit_width_packing _ _ Hpk) as (-> & -> & _ & _). cbv zeta.
    eapply does_weaken; [apply does_range|].
    + intros g Hgr. destruct (group_bounds g Hgr) as [Hg0 Hg1]. apply (does_detile_group kP isz Hpk).
      * apply length_group_rows. lia.
      * lia.
      * split_and!; [done|cbn; lia|cbn; lia].
      * apply Forall_lookup. intros p s [-> Hp]%lookup_group_rows. rewrite <- Z.add_assoc. apply (Hdst (g * kP + Z.of_nat p)). nia.
      * intros p s c k [-> Hp]%lookup_group_rows Hcc Hkk. pose proof (HT g (Z.of_nat p) c k Hgr ltac:(lia) Hcc Hkk) as Ht.
        rewrite <- (Z.add_assoc (tile_row * tile_H)). unfold src_byte in *. cbn in *. rewrite <- (Z.add_assoc (p_off src)).
        replace (g * (tile_W * kP * isz) + ((c * kP + Z.of_nat p) * isz + k)) with (((g * tile_W + c) * kP + Z.of_nat p) * isz + k) by ring.
        apply Ht; nia.
    + intros pos (r & Hr & Hp). destruct (split_pos r (tile_H / kP) kP) as (g & p & Hgr & Hpp & ->); [done|lia|]. exists g. split; [done|].
      exists (tile_row_ptr dst tile_row tile_col (g * kP + p)). split; [|done]. apply list_elem_of_fmap. exists p.
      split; [unfold tile_row_ptr; by rewrite Z.add_assoc|apply elem_of_seqZ; lia].
Qed.
Lemma does_tile_detile_pad H src dst tile_row tile_col :
  in_src src (tile_H * tile_W * isz) →
  (∀ r, 0 <= r < tile_H → tile_row * tile_H + r < H → tile_col * tile_W < W →
     in_dst (tile_row_ptr dst tile_row tile_col r) (Z.min tile_W (W - tile_col * tile_W) * isz)) →
  rows_hold H src dst tile_row tile_col →
  does w M0 cap T (DetileSingleTilePackedWithPadding kP src dst tile_row tile_col tile_H tile_W H W isz)
    (λ pos, ∃ r, 0 <= r < tile_H ∧ tile_row * tile_H + r < H ∧
       row_part dst tile_row tile_col r (Z.min tile_W (W - tile_col * tile_W)) pos).
Proof using Hk HtH HtH0 HtW Hisz hwl.
  intros (Hb & H0 & Hc) Hdst HT. destruct groups_exact as [HkP Hg]. unfold DetileSingleTilePackedWithPadding.
  set (valid := Z.min tile_W (W - tile_col * tile_W)) in *.
  assert (valid <= tile_W ∧ tile_col * tile_W + valid <= W) as [Hv1 Hv2] by lia. clearbody valid.
  destruct (Z.leb_spec valid 0) as [Hv|Hv].
  { assert (valid * isz <= 0) by (apply Z.mul_nonpos_nonneg; lia). apply does_nil. intros pos (r & _ & _ & Hp). unfold row_part in Hp. lia. }
  pose proof Hk as [E|Hpk].
  - rewrite (proj2 (Z.eqb_eq kP 1) E). cbv zeta. eapply does_weaken; [apply does_range|].
    + intros r Hr. instantiate (1 := λ r pos, tile_row * tile_H + r < H ∧ row_part dst tile_row tile_col r valid pos). cbv beta.
      destruct (Z.leb_spec H (tile_row * tile_H + r)) as [HH|HH]; [apply does_nil; lia|].
      eapply does_weaken; [apply does_detile_row|].
      * nia.
      * apply Hdst; [done|done|lia].
      * assert (0 <= r * (tile_W * isz) ∧ (r + 1) * (tile_W * isz) <= tile_H * (tile_W * isz)) as [? ?] by nia.
        assert (valid * isz <= tile_W * isz) by (apply Z.mul_le_mono_nonneg_r; lia). split_and!; [done|cbn; lia|cbn; lia].
      * intros j Hj. destruct (split_pos j valid isz) as (c & k & Hcc & Hkk & ->); [done..|].
        pose proof (HT r 0 c k ltac:(rewrite E, Z.div_1_r; lia) ltac:(lia) ltac:(lia) Hkk) as Ht. rewrite E in Ht. replace (r * 1 + 0) with r in Ht by ring.
        unfold src_byte in *. cbn in *. rewrite <- !Z.add_assoc.
        replace (r * (tile_W * isz) + (c * isz + k)) with (((r * tile_W + c) * 1 + 0) * isz + k) by ring. rewrite Z.add_assoc. apply Ht; lia.
      * intros pos [_ Hp]. exact Hp.
    + intros pos (r & Hr & HH & Hp). eauto.
  - destruct (unit_width_packing _ _ Hpk) as (-> & -> & _ & _). cbv zeta. eapply does_weaken; [apply does_range|].
    + intros g Hgr. instantiate (1 := λ g pos, ∃ p, 0 <= p < kP ∧ tile_row * tile_H + (g * kP + p) < H ∧ row_part dst tile_row tile_col (g * kP + p) valid pos).
      cbv beta. destruct (group_bounds g Hgr) as [Hg0 Hg1]. destruct (Z.leb_spec H (tile_row * tile_H + g * kP)) as [HH|HH]; [apply does_nil; intros pos (p & ? & ? & ?); lia|].
      eapply does_weaken; [apply does_range|].
      * intros c Hcc. apply (does_concat_imap _ (λ p s pos, (tile_row * tile_H + (g * kP + Z.of_nat p) <? H) = true ∧ p_off s + c * isz <= pos < p_off s + c * isz + isz)).
        intros p s [-> Hp]%lookup_group_rows. rewrite <- (Z.add_assoc (tile_row * tile_H)). apply does_if. intros HH'%Z.ltb_lt.
        destruct (Hdst (g * kP + Z.of_nat p)) as (Hd & Hd0 & Hdc); [nia|done|lia|]. cbn in Hd, Hd0, Hdc.
        assert (0 <= c * isz ∧ c * isz + isz <= valid * isz) by nia.
        assert (0 <= (kP * c + Z.of_nat p) * isz ∧ (kP * c + Z.of_nat p) * isz + isz <= tile_W * kP * isz).
        { pose proof (join_pos3 c (Z.of_nat p) 0 tile_W kP isz). pose proof (join_pos3 c (Z.of_nat p) (isz - 1) tile_W kP isz). lia. }
        apply does_memcpy; [lia|split_and!; [done|cbn; lia|cbn; lia]|split_and!; [done|cbn; lia|cbn; lia]|].
        intros k Hkk. pose proof (HT g (Z.of_nat p) c k Hgr ltac:(lia) ltac:(lia) Hkk HH' ltac:(lia)) as Ht. unfold src_byte in *. cbn in *.
        by_ring Ht.
      * intros pos (p & Hp & HH' & Hpos). unfold row_part in Hpos.
        destruct (split_pos (pos - p_off (tile_row_ptr dst tile_row tile_col (g * kP + p))) valid isz) as (c & k & Hcc & Hkk & E'); [done|lia|].
        exists c. split; [done|]. exists (Z.to_nat p), (tile_row_ptr dst tile_row tile_col (g * kP + p)). split.
        { unfold group_rows. rewrite list_lookup_fmap, lookup_seqZ_lt by lia. cbn. unfold tile_row_ptr. rewrite Z2Nat.id, Z.add_0_l by lia. by rewrite Z.add_assoc. }
        rewrite Z2Nat.id by lia. split; [by apply Z.ltb_lt|]. cbn in E' |- *. lia.
    + intros pos (r & Hr & HH & Hp). destruct (split_pos r (tile_H / kP) kP) as (g & p & Hgr & Hpp & ->); [done|lia|]. exists g. split; [done|]. eauto.
Qed.
End tile.
End rows.

(** A range that is zeroed first and then partly written. *)
Lemma does_zero_then {hw : Highway} {hwl : HighwayLaws} w M0 cap T dst n q D :
  0 <= n → in_dst w cap dst n → does w M0 cap T q D → (∀ k, 0 <= k < n → ¬ D (p_off dst + k) → T (p_off dst + k) 0) →
  does w M0 cap T (ZeroRowHighway dst n ++ q) (λ pos, p_off dst <= pos < p_off dst + n).
Proof.
  intros Hn Hd Hq HT. eapply does_weaken; [apply (does_over w M0 cap (λ pos v, v = 0 ∧ p_off dst <= pos < p_off dst + n) T);
    [by apply does_zero_row; [..|intros k Hk; split; [done|lia]]|exact Hq|]|intros pos Hp; by left].
  intros pos v [-> Hp] Hno. replace pos with (p_off dst + (pos - p_off dst)) by lia. apply HT; [lia|]. by replace (p_off dst + (pos - p_off dst)) with pos by lia.
Qed.
