(* ===== verification/TilingParallel.v ===== *)
(** * TilingParallel: running a plan on the thread pool
    (ExecuteParallelTasks of src/tpu_sync/weight_sync/tiling_utils.cc)

    The calling thread and its helpers draw chunks of tasks from an atomic counter and
    run them; a step of the relation is one access to the counter or one memory command
    of one thread, so that the commands of different threads interleave in any order.
    The caller returns when every thread is done.  When the tasks write disjoint parts
    of the destination, every schedule is finite, never goes wrong, and leaves what
    running the tasks one after another leaves. *)

From S2P Require Import Prelude TileMemory Highway TilingUtils TilingTiles.

Inductive Thread :=
  | TStart                                  (* a helper before its look at the counter *)
  | TFetch                                  (* in work_loop, about to draw *)
  | TRun (i e : Z) (rest : list Cmd)        (* in task [i] of a chunk that ends at [e] *)
  | TDone.
Record Pool := mkPool { next_idx : Z; threads : list Thread; pool_mem : Memory }.

Section schedule.
Context (total step : Z) (task : Z → list Cmd).
Inductive pool_step : Pool → Pool → Prop :=
  | step_start n ths m t :
      ths !! t = Some TStart → pool_step (mkPool n ths m) (mkPool n (<[t := if n <? total then TFetch else TDone]> ths) m)
  | step_fetch n ths m t :
      ths !! t = Some TFetch →
      pool_step (mkPool n ths m)
        (mkPool (n + step) (<[t := if total <=? n then TDone else TRun n (Z.min (n + step) total) (task n)]> ths) m)
  | step_command n ths m t i e c rest m' :
      ths !! t = Some (TRun i e (c :: rest)) → exec1 c m = Some m' →
      pool_step (mkPool n ths m) (mkPool n (<[t := TRun i e rest]> ths) m')
  | step_next n ths m t i e :
      ths !! t = Some (TRun i e []) →
      pool_step (mkPool n ths m) (mkPool n (<[t := if i + 1 <? e then TRun (i + 1) e (task (i + 1)) else TFetch]> ths) m).
Definition pool_done (s : Pool) : Prop := Forall (λ t, t = TDone) (threads s).
Definition pool_start (max_threads : Z) (m : Memory) : Pool :=
  mkPool 0 (TFetch :: replicate (Z.to_nat (max_threads - 1)) TStart) m.
End schedule.

Definition plan_runs (p : Plan) (m m' : Memory) : Prop :=
  match p with
  | Inline prog => exec prog m = Some m'
  | Parallel total max_threads step task =>
      ∃ s, rtc (pool_step total step task) (pool_start max_threads m) s ∧ pool_done s ∧ pool_mem s = m'
  end.

(** Tasks that write disjoint regions [R i], which cover [C]. *)
Definition tasks_do (w : Buffer) (M0 : Memory) (cap : Z) (T : Z → Z → Prop) (C : Z → Prop) (n : Z) (task : Z → list Cmd) (R : Z → Z → Prop) : Prop :=
  (∀ i j pos, R i pos → R j pos → i = j) ∧
  (∀ i, 0 <= i < n → does w M0 cap (λ pos v, T pos v ∧ R i pos) (task i) (λ pos, C pos ∧ R i pos)) ∧
  (∀ pos, C pos → ∃ i, 0 <= i < n ∧ R i pos).
Definition plan_ok (w : Buffer) (M0 : Memory) (cap : Z) (T : Z → Z → Prop) (C : Z → Prop) (p : Plan) : Prop :=
  match p with
  | Inline prog => does w M0 cap T prog C
  | Parallel total max_threads step task => 0 < step ∧ 0 < max_threads ∧ ∃ R, tasks_do w M0 cap T C total task R
  end.

Lemma tasks_do_inline w M0 cap T C n task R : tasks_do w M0 cap T C n task R → does w M0 cap T (seqZ 0 n ≫= task) C.
Proof.
  intros (_ & Hd & HC). eapply does_weaken; [apply does_range; intros i Hi; eapply does_mono; [by apply Hd|naive_solver]|].
  intros pos Hp. destruct (HC pos Hp) as (i & Hi & HR). eauto.
Qed.

Section correct.
Context (w : Buffer) (M0 : Memory) (cap : Z) (T : Z → Z → Prop) (C : Z → Prop).
Context (total step : Z) (task : Z → list Cmd) (R : Z → Z → Prop).
Context (Hstep : 0 < step) (Htasks : tasks_do w M0 cap T C total task R).
Implicit Types (s : Pool) (t : nat) (th : Thread) (rem : Z → list Cmd) (M : Memory).

(** Thread [th] has the tasks from its current one to the end of its chunk. *)
Definition owns th (j : Z) : Prop := match th with TRun i e _ => i <= j < e | _ => False end.
Lemma owns_dec th j : owns th j ∨ ¬ owns th j.
Proof. destruct th as [| |i e rest|]; [right; tauto|right; tauto| |right; tauto]. cbn. lia. Qed.
(** [rem i] is what is left of task [i]. *)
Definition thread_ok (n : Z) rem th : Prop :=
  match th with
  | TRun i e rest => 0 <= i < e ∧ e <= n ∧ e <= total ∧ rem i = rest ∧ ∀ j, i < j < e → rem j = task j
  | TDone => total <= n
  | _ => True
  end.
Record pool_ok (M : Memory) s rem : Prop := {
  po_next : 0 <= next_idx s;
  po_agrees : agrees w M0 cap (pool_mem s);
  po_new j : next_idx s <= j < total → rem j = task j;
  po_threads : ∀ t th, threads s !! t = Some th → thread_ok (next_idx s) rem th;
  po_once : ∀ t t' th th' j, threads s !! t = Some th → threads s !! t' = Some th' → owns th j → owns th' j → t = t';
  po_finished j : 0 <= j < next_idx s → j < total → (∀ t th, threads s !! t = Some th → ¬ owns th j) → rem j = [];
  po_suffix j : 0 <= j < total → ∃ p, task j = p ++ rem j;
  po_here j pos : 0 <= j < total → R j pos → 0 <= pos →
    default (byte_at (buffer w (pool_mem s)) pos) (outcome M0 (rem j) pos) = default (byte_at (buffer w M) pos) (outcome M0 (task j) pos);
  po_elsewhere pos : 0 <= pos → (∀ j, 0 <= j < total → outcome M0 (task j) pos = None) → byte_at (buffer w (pool_mem s)) pos = byte_at (buffer w M) pos;
}.

Lemma pool_start_ok M max_threads : agrees w M0 cap M → pool_ok M (pool_start max_threads M) task.
Proof.
  intros HM. assert (∀ t th, threads (pool_start max_threads M) !! t = Some th → th = TFetch ∨ th = TStart) as Hth.
  { intros [|t] th H; cbn in H; [left; congruence|]. apply lookup_replicate in H as [-> _]. by right. }
  split; cbn; try done; try lia.
  - intros t th H. destruct (Hth t th H) as [->| ->]; done.
  - intros t t' th th' j H H' Ho. destruct (Hth t th H) as [->| ->]; done.
  - intros j _. by exists [].
Qed.

(** Threads after an update. *)
Lemma lookup_threads {A} (l : list A) t x t' y : <[t := x]> l !! t' = Some y → (t' = t ∧ y = x) ∨ (t' ≠ t ∧ l !! t' = Some y).
Proof. intros H. apply list_lookup_insert_Some in H as [(-> & -> & _)|[Hne H]]; [by left|by right]. Qed.

(** A step that only moves one thread, from one that owns what the new one owns. *)
Lemma move_ok M n ths m rem t th th' :
  pool_ok M (mkPool n ths m) rem → ths !! t = Some th → thread_ok n rem th' → (∀ j, owns th' j → owns th j) →
  (∀ j, owns th j → ¬ owns th' j → rem j = []) → pool_ok M (mkPool n (<[t := th']> ths) m) rem.
Proof.
  intros [H1 H2 H3 H4 H5 H6 H7 H8 H9] Ht Hok Hsub Hfin. cbn in *. split; cbn; try done.
  - intros t' x [(-> & ->)|(Hne & Hx)]%lookup_threads; [done|by eapply H4].
  - intros t1 t2 x1 x2 j E1 E2 O1 O2. apply lookup_threads in E1 as [(-> & ->)|(Hn1 & E1)], E2 as [(-> & ->)|(Hn2 & E2)]; [done|..].
    + by apply (H5 t t2 th x2 j); auto.
    + by apply (H5 t1 t x1 th j); auto.
    + by apply (H5 t1 t2 x1 x2 j).
  - intros j Hj Hjt Hno. apply lookup_lt_Some in Ht as Hlt.
    assert (¬ owns th' j) as Hn' by (apply (Hno t); by apply list_lookup_insert_eq).
    destruct (owns_dec th j) as [Ho|Ho]; [by apply Hfin|]. apply H6; [done|done|]. intros t' x Hx.
    destruct (decide (t' = t)) as [->|Hne]; [by simplify_eq|]. apply (Hno t'). by rewrite list_lookup_insert_ne.
Qed.
Lemma thread_ok_later n n' rem th : n <= n' → thread_ok n rem th → thread_ok n' rem th.
Proof. intros Hn. destruct th; cbn; try done; [|lia]. intros (? & ? & ? & ? & ?). split_and!; try done; lia. Qed.
Lemma fetch_ok M n ths m rem t :
  pool_ok M (mkPool n ths m) rem → ths !! t = Some TFetch →
  pool_ok M (mkPool (n + step) (<[t := if total <=? n then TDone else TRun n (Z.min (n + step) total) (task n)]> ths) m) rem.
Proof using Hstep.
  intros [H1 H2 H3 H4 H5 H6 H7 H8 H9] Ht. cbn in *. apply lookup_lt_Some in Ht as Hlt.
  assert (∀ t' th j, ths !! t' = Some th → owns th j → 0 <= j < n) as Hown.
  { intros t' th j Hth Ho. pose proof (H4 t' th Hth) as Hok. destruct th; cbn in *; try done. lia. }
  set (th' := if total <=? n then _ else _). assert (∀ j, owns th' j ↔ n <= j < n + step ∧ j < total) as Hth'.
  { intros j. unfold th'. destruct (Z.leb_spec total n); cbn; lia. }
  split; cbn; try done; try lia.
  - intros j Hj. apply H3. lia.
  - intros t' x [(-> & ->)|(Hne & Hx)]%lookup_threads; [|apply (thread_ok_later n); [lia|by eapply H4]].
    unfold th'. destruct (Z.leb_spec total n); cbn; [lia|]. split_and!; try lia; [apply H3; lia|]. intros j Hj. apply H3. lia.
  - intros t1 t2 x1 x2 j E1 E2 O1 O2. apply lookup_threads in E1 as [(-> & ->)|(Hn1 & E1)], E2 as [(-> & ->)|(Hn2 & E2)]; [done|..].
    + apply Hth' in O1. pose proof (Hown _ _ _ E2 O2). lia.
    + apply Hth' in O2. pose proof (Hown _ _ _ E1 O1). lia.
    + by apply (H5 t1 t2 x1 x2 j).
  - intros j Hj Hjt Hno. assert (¬ owns th' j) as Hn' by (apply (Hno t); by apply list_lookup_insert_eq).
    rewrite Hth' in Hn'. apply H6; [lia|done|]. intros t' x Hx. destruct (decide (t' = t)) as [->|Hne]; [simplify_eq; cbn; tauto|].
    apply (Hno t'). by rewrite list_lookup_insert_ne.
Qed.

(** A command writes in its task's region only. *)
Lemma command_outcome i p c rest pos v :
  task i = p ++ c :: rest → outcome1 M0 c pos = Some v → ∃ v', outcome M0 (task i) pos = Some v'.
Proof. intros E Hc. rewrite E, outcome_app. cbn. rewrite Hc. by destruct (outcome M0 rest pos); eauto. Qed.
Lemma command_region i p c rest pos v :
  0 <= i < total → task i = p ++ c :: rest → outcome1 M0 c pos = Some v → R i pos.
Proof using Htasks.
  intros Hi E Hc. destruct Htasks as (_ & Hd & _). destruct (Hd i Hi) as (_ & HT & _).
  destruct (command_outcome i p c rest pos v E Hc) as [v' Hv']. by destruct (HT pos v' Hv').
Qed.
Lemma command_safe i p c rest : 0 <= i < total → task i = p ++ c :: rest → safe w M0 cap c.
Proof using Htasks.
  intros Hi E. destruct Htasks as (_ & Hd & _). destruct (Hd i Hi) as (Hs & _ & _). rewrite E in Hs.
  apply Forall_app in Hs as [_ Hs]. by apply Forall_cons in Hs as [Hs _].
Qed.
Lemma command_ok M n ths m rem t i e c rest m' :
  pool_ok M (mkPool n ths m) rem → ths !! t = Some (TRun i e (c :: rest)) → exec1 c m = Some m' →
  pool_ok M (mkPool n (<[t := TRun i e rest]> ths) m') (λ j, if decide (j = i) then rest else rem j).
Proof using Htasks.
  intros [H1 H2 H3 H4 H5 H6 H7 H8 H9] Ht Hex. cbn in *. pose proof (H4 t _ Ht) as (Hi & Hen & Het & Hri & Hrj). cbn in *.
  apply lookup_lt_Some in Ht as Hlt. destruct (H7 i ltac:(lia)) as [p Ep]. rewrite Hri in Ep.
  destruct (exec1_safe w M0 cap c m H2 (command_safe i p c rest ltac:(lia) Ep)) as (m1 & E1 & HA & HU).
  rewrite Hex in E1. injection E1 as <-.
  assert (∀ j pos, j ≠ i → R j pos → outcome1 M0 c pos = None) as Hother.
  { intros j pos Hne HR. destruct (outcome1 M0 c pos) eqn:Ec; [|done]. destruct Hne. destruct Htasks as (Hdis & _).
    apply (Hdis j i pos HR). by eapply (command_region i p c rest); [lia|..]. }
  split; cbn; try done.
  - intros j Hj. rewrite decide_False by lia. by apply H3.
  - intros t' x [(-> & ->)|(Hne & Hx)]%lookup_threads.
    + cbn. do 3 (split; [lia|]). split; [by rewrite decide_True|]. intros j Hj. rewrite decide_False by lia. by apply Hrj.
    + pose proof (H4 t' x Hx) as Hok. destruct x as [| |i' e' rest'|]; try done. cbn in *. destruct Hok as (? & ? & ? & ? & Hr).
      assert (i < i' ∨ e' <= i) as Hdisj.
      { destruct (decide (i' <= i < e')); [|lia]. destruct Hne. by apply (H5 t' t (TRun i' e' rest') (TRun i e (c :: rest)) i); auto; cbn; lia. }
      do 3 (split; [lia|]). split; [by rewrite decide_False by lia|]. intros j Hj. rewrite decide_False by lia. by apply Hr.
  - intros t1 t2 x1 x2 j E1 E2 O1 O2. apply lookup_threads in E1 as [(-> & ->)|(Hn1 & E1)], E2 as [(-> & ->)|(Hn2 & E2)]; [done|..].
    + by apply (H5 t t2 _ x2 j Ht).
    + by apply (H5 t1 t x1 _ j E1 Ht).
    + by apply (H5 t1 t2 x1 x2 j).
  - intros j Hj Hjt Hno. assert (¬ (i <= j < e)) as Hn' by (apply (Hno t (TRun i e rest)); by apply list_lookup_insert_eq).
    rewrite decide_False by lia. apply H6; [done|done|]. intros t' x Hx. destruct (decide (t' = t)) as [->|Hne]; [by simplify_eq|].
    apply (Hno t'). by rewrite list_lookup_insert_ne.
  - intros j Hj. case_decide as Hd; [|by apply H7]. subst j. exists (p ++ [c]). by rewrite <- app_assoc.
  - intros j pos Hj HR Hp. rewrite HU by done. case_decide as Hd.
    + subst j. rewrite <- (H8 i pos Hj HR Hp), Hri. cbn. by destruct (outcome M0 rest pos).
    + rewrite (Hother j pos Hd HR). cbn. by apply H8.
  - intros pos Hp Hno. rewrite HU by done. destruct (outcome1 M0 c pos) eqn:Ec; [|by apply H9].
    destruct (command_outcome i p c rest pos _ Ep Ec) as [v' Hv']. by rewrite (Hno i ltac:(lia)) in Hv'.
Qed.
Lemma pool_step_ok M s s' rem : pool_ok M s rem → pool_step total step task s s' → ∃ rem', pool_ok M s' rem'.
Proof using Hstep Htasks.
  intros Hok Hst. destruct Hst as [n ths m t Ht|n ths m t Ht|n ths m t i e c rest m' Ht Hex|n ths m t i e Ht].
  - exists rem. eapply move_ok; [exact Hok|exact Ht|..]; destruct (Z.ltb_spec n total); cbn; try done; lia.
  - exists rem. by apply fetch_ok.
  - eexists. by eapply command_ok.
  - pose proof (po_threads _ _ _ Hok t _ Ht) as (Hi & Hen & Het & Hri & Hrj). cbn in *.
    exists rem. eapply move_ok; [exact Hok|exact Ht|..]; destruct (Z.ltb_spec (i + 1) e); cbn; try done; try lia.
    + split_and!; try done; try lia; [apply Hrj; lia|]. intros j Hj. apply Hrj. lia.
    + intros j Hj Hn. by replace j with i by lia.
    + intros j Hj _. by replace j with i by lia.
Qed.

(** When all threads are done, the tasks are. *)
Lemma pool_done_leaves M s rem : pool_ok M s rem → threads s ≠ [] → pool_done s → leaves w M0 cap T C M (pool_mem s).
Proof using Htasks.
  intros [H1 H2 H3 H4 H5 H6 H7 H8 H9] Hne Hdone. unfold pool_done in Hdone.
  assert (total <= next_idx s) as Hnext.
  { destruct (threads s) as [|th l] eqn:El; [done|]. apply Forall_cons in Hdone as [-> _]. by apply (H4 0%nat TDone). }
  assert (∀ j, 0 <= j < total → rem j = []) as Hrem.
  { intros j Hj. apply H6; [lia|lia|]. intros t th Hth. rewrite Forall_lookup in Hdone. rewrite (Hdone t th Hth). cbn. tauto. }
  destruct Htasks as (Hdis & Hd & HC). split; [done|]. split.
  - intros pos Hp Hpos. destruct (HC pos Hpos) as (i & Hi & HR). destruct (Hd i Hi) as (_ & HT & Hcov).
    pose proof (H8 i pos Hi HR Hp) as E. rewrite Hrem in E by done. cbn in E. rewrite E. destruct (Hcov pos) as [v Hv]; [done|].
    rewrite Hv. cbn. by apply HT.
  - intros pos Hp Hno. apply H9; [done|]. intros j Hj. destruct (outcome M0 (task j) pos) as [v|] eqn:Ev; [|done].
    destruct (Hd j Hj) as (_ & HT & _). by destruct (Hno v), (HT pos v Ev).
Qed.

(** Some thread can always go on. *)
Lemma pool_progress M s rem : pool_ok M s rem → pool_done s ∨ ∃ s', pool_step total step task s s'.
Proof using Htasks.
  intros Hok. destruct (decide (Forall (λ b, b = true) ((λ th, match th with TDone => true | _ => false end) <$> threads s))) as [Hd|Hd].
  { left. apply Forall_fmap in Hd. eapply Forall_impl; [exact Hd|]. by intros [| | |]. }
  right. apply not_Forall_Exists in Hd; [|apply _]. apply Exists_exists in Hd as (b & (th & -> & Hin)%list_elem_of_fmap & Hb).
  apply list_elem_of_lookup in Hin as [t Ht]. destruct s as [n ths m]. destruct th as [| |i e [|c rest]|]; cbn in *.
  - eexists. by apply (step_start _ _ _ _ _ _ t).
  - eexists. by apply (step_fetch _ _ _ _ _ _ t).
  - eexists. by apply (step_next _ _ _ _ _ _ t).
  - pose proof (po_threads _ _ _ Hok t _ Ht) as (Hi & Hen & Het & Hri & _). cbn in *.
    destruct (po_suffix _ _ _ Hok i ltac:(lia)) as [p Ep]. rewrite Hri in Ep.
    destruct (exec1_safe w M0 cap c m (po_agrees _ _ _ Hok) (command_safe i p c rest ltac:(lia) Ep)) as (m' & E & _).
    eexists. by eapply (step_command _ _ _ _ _ _ t).
  - by destruct Hb.
Qed.

(** Every step uses up some of the work. *)
Definition cost (j : Z) : nat := length (task j) + 4.
Definition costs (a b : Z) : nat := sum_list_with cost (seqZ a (b - a)).
Lemma costs_first a b : a < b → costs a b = (cost a + costs (a + 1) b)%nat.
Proof. intros H. unfold costs. rewrite seqZ_cons by lia. by replace (Z.pred (b - a)) with (b - (a + 1)) by lia. Qed.
Lemma costs_split a b c : a <= b <= c → costs a c = (costs a b + costs b c)%nat.
Proof.
  intros H. unfold costs. replace (c - a) with ((b - a) + (c - b)) by lia. rewrite seqZ_app by lia.
  rewrite sum_list_with_app. by replace (a + (b - a)) with b by lia.
Qed.
Definition thread_work (th : Thread) : nat :=
  match th with
  | TStart => 2 | TFetch => 1 | TDone => 0
  | TRun i e rest => length rest + 2 + costs (i + 1) e
  end.
Definition pool_work (s : Pool) : nat := sum_list_with thread_work (threads s) + costs (next_idx s) total.
Lemma work_update ths t th th' : ths !! t = Some th →
  (sum_list_with thread_work (<[t := th']> ths) + thread_work th = sum_list_with thread_work ths + thread_work th')%nat.
Proof.
  revert t. induction ths as [|x ths IH]; intros [|t] H; try done; cbn in *; [injection H as ->; lia|].
  rewrite <- !Nat.add_assoc. f_equal. exact (IH t H).
Qed.
Lemma pool_step_work M s s' rem : pool_ok M s rem → pool_step total step task s s' → (pool_work s' < pool_work s)%nat.
Proof using Hstep.
  intros Hok Hst. unfold pool_work. destruct Hst as [n ths m t Ht|n ths m t Ht|n ths m t i e c rest m' Ht Hex|n ths m t i e Ht]; cbn [threads next_idx].
  - pose proof (work_update ths t _ (if n <? total then TFetch else TDone) Ht). destruct (n <? total); cbn in *; lia.
  - pose proof (work_update ths t _ (if total <=? n then TDone else TRun n (Z.min (n + step) total) (task n)) Ht) as Hw.
    destruct (Z.leb_spec total n) as [Hn|Hn].
    + assert (costs n total = 0%nat ∧ costs (n + step) total = 0%nat) as [-> ->] by (unfold costs; by rewrite !seqZ_nil by lia). cbn in *. lia.
    + assert (costs n total = costs n (Z.min (n + step) total) + costs (n + step) total)%nat as ->.
      { destruct (Z.min_spec (n + step) total) as [[? ->]|[? ->]]; [apply costs_split; lia|].
        assert (costs (n + step) total = 0%nat) as -> by (unfold costs; by rewrite seqZ_nil by lia). lia. }
      rewrite (costs_first n) by lia. cbn in *. unfold cost at 1. lia.
  - pose proof (work_update ths t _ (TRun i e rest) Ht). cbn in *. lia.
  - pose proof (po_threads _ _ _ Hok t _ Ht) as (Hi & _). cbn in *.
    pose proof (work_update ths t _ (if i + 1 <? e then TRun (i + 1) e (task (i + 1)) else TFetch) Ht) as Hw.
    destruct (Z.ltb_spec (i + 1) e) as [He|He]; cbn in *; [|lia]. rewrite (costs_first (i + 1) e) in Hw by lia. unfold cost in Hw. lia.
Qed.
Lemma pool_reach M s s' rem : pool_ok M s rem → rtc (pool_step total step task) s s' → ∃ rem', pool_ok M s' rem'.
Proof using Hstep Htasks.
  intros Hok Hr. revert rem Hok. induction Hr as [|s s1 s' Hst _ IH]; intros rem Hok; [by exists rem|].
  destruct (pool_step_ok M s s1 rem Hok Hst) as [rem' Hok']. by apply (IH rem').
Qed.
Lemma step_keeps_threads s s' : pool_step total step task s s' → length (threads s') = length (threads s).
Proof. destruct 1; cbn; by rewrite length_insert. Qed.
Lemma reach_keeps_threads s s' : rtc (pool_step total step task) s s' → length (threads s') = length (threads s).
Proof. induction 1 as [|s s1 s' Hst _ IH]; [done|]. by rewrite IH, (step_keeps_threads s s1). Qed.
Lemma pool_finishes M s rem : pool_ok M s rem → ∃ s', rtc (pool_step total step task) s s' ∧ pool_done s'.
Proof using Hstep Htasks.
  remember (pool_work s) as n eqn:En. revert s rem En. induction (lt_wf n) as [n _ IH]. intros s rem -> Hok.
  destruct (pool_progress M s rem Hok) as [Hd|[s1 Hst]]; [by exists s; split; [apply rtc_refl|]|].
  destruct (pool_step_ok M s s1 rem Hok Hst) as [rem' Hok'].
  destruct (IH _ (pool_step_work M s s1 rem Hok Hst) s1 rem' eq_refl Hok') as (s' & Hr & Hd).
  exists s'. split; [by eapply rtc_l|done].
Qed.
Lemma pool_bounded M n s s' rem : pool_ok M s rem → nsteps (pool_step total step task) n s s' → (n + pool_work s' <= pool_work s)%nat.
Proof using Hstep Htasks.
  intros Hok Hn. revert rem Hok. induction Hn as [s|n s s1 s' Hst _ IH]; intros rem Hok; [lia|].
  destruct (pool_step_ok M s s1 rem Hok Hst) as [rem' Hok']. pose proof (IH rem' Hok'). pose proof (pool_step_work M s s1 rem Hok Hst). lia.
Qed.
End correct.

(** A plan that is fine runs, and every run of it leaves what it should. *)
Lemma plan_correct w M0 cap T C p M :
  plan_ok w M0 cap T C p → agrees w M0 cap M →
  (∃ M', plan_runs p M M') ∧ ∀ M', plan_runs p M M' → leaves w M0 cap T C M M'.
Proof.
  intros Hp HM. destruct p as [prog|total max_threads step task]; cbn in *.
  - destruct (exec_does w M0 cap T prog C M HM Hp) as (M' & E & HL). split; [by exists M'|]. intros M1 E1. congruence.
  - destruct Hp as (Hs & Hm & R & HT). pose proof (pool_start_ok w M0 cap total task R M max_threads HM) as Hok. split.
    + destruct (pool_finishes w M0 cap T C total step task R Hs HT M _ _ Hok) as (s & Hr & Hd). by exists (pool_mem s), s.
    + intros M' (s & Hr & Hd & <-). destruct (pool_reach w M0 cap T C total step task R Hs HT M _ _ _ Hok Hr) as [rem Hok'].
      eapply pool_done_leaves; [exact HT|exact Hok'| |done]. intros E. apply reach_keeps_threads in Hr. by rewrite E in Hr.
Qed.

(** Work split over batches and rows of tiles. *)
Lemma run_tasks_ok w M0 cap T C pool_threads chunks batch n (run : Z → Z → list Cmd) (R : Z → Z → Z → Prop) :
  0 <= batch → 0 <= n →
  (∀ b i b' i' pos, R b i pos → R b' i' pos → b = b' ∧ i = i') →
  (∀ b i, 0 <= b < batch → 0 <= i < n → does w M0 cap (λ pos v, T pos v ∧ R b i pos) (run b i) (λ pos, C pos ∧ R b i pos)) →
  (∀ pos, C pos → ∃ b i, 0 <= b < batch ∧ 0 <= i < n ∧ R b i pos) →
  plan_ok w M0 cap T C (run_tasks pool_threads chunks batch n run).
Proof.
  intros Hb Hn Hdis Hd Hcov. unfold run_tasks. destruct ((chunks <=? 1) || (batch * n <=? 1)) eqn:E.
  - cbn. eapply does_weaken; [apply does_range; intros b Hbb; apply does_range; intros i Hi; eapply does_mono; [by apply Hd|naive_solver]|].
    intros pos Hp. destruct (Hcov pos Hp) as (b & i & ? & ? & ?). eauto 10.
  - assert (0 < n) as Hn0 by (apply orb_false_iff in E as [_ E%Z.leb_gt]; nia).
    assert (tasks_do w M0 cap T C (batch * n) (λ i, run (i / n) (i `mod` n)) (λ i, R (i / n) (i `mod` n))) as HT.
    { split; [|split].
      - intros i j pos H1 H2. destruct (Hdis _ _ _ _ _ H1 H2) as [E1 E2].
        rewrite (Z.div_mod i n), (Z.div_mod j n) by lia. congruence.
      - intros i Hi. apply Hd; [split; [apply Z.div_pos; lia|apply Z.div_lt_upper_bound; lia]|by apply Z.mod_pos_bound].
      - intros pos Hp. destruct (Hcov pos Hp) as (b & i & Hbb & Hi & HR). exists (b * n + i). split; [nia|].
        by destruct (digits b n i Hi) as [-> ->]. }
    unfold ExecuteParallelTasks. destruct ((1 <? _) && (_ <=? batch * n)) eqn:E2; cbn.
    + apply andb_true_iff in E2 as [E2%Z.ltb_lt _]. split; [lia|]. split; [lia|]. by eexists.
    + by eapply tasks_do_inline.
Qed.
