(* ===== verification/TilingRowMajor.v ===== *)
(** * TilingRowMajor: row-major tensors, tile by tile
    (the N-dimensional paths of src/tpu_sync/weight_sync/tiling_utils.cc)

    [tile_cell] is the reference position of a cell in the tiled buffer and [cell_value]
    the byte it must hold: a byte of the linear tensor, or zero in the padding. *)

From S2P Require Import Prelude TileMemory Highway TilingUtils TilingTiles TilingParallel.

(** ** Geometry *)
Record geom_ok (g : RowMajorTileGeometry) : Prop := {
  go_H : 0 <= g_H g; go_W : 0 <= g_W g; go_batch : 0 <= g_batch_size g;
  go_isz : 0 < g_itemsize g; go_tH : 0 < g_tile_H g; go_tW : 0 < g_tile_W g; go_P : 0 < g_packing_factor g;
  go_groups : g_tile_H g `mod` g_packing_factor g = 0;
  go_n0 : g_num_tiles_0 g = (g_H g + g_tile_H g - 1) / g_tile_H g;
  go_n1 : g_num_tiles_1 g = (g_W g + g_tile_W g - 1) / g_tile_W g;
}.
Lemma ceil_spec a b n : 0 <= a → 0 < b → n = (a + b - 1) / b → 0 <= n ∧ a <= n * b < a + b.
Proof. intros Ha Hb ->. pose proof (Z.div_mod (a + b - 1) b ltac:(lia)). pose proof (Z.mod_pos_bound (a + b - 1) b Hb). nia. Qed.
Lemma ceil_exact a b n : 0 <= a → 0 < b → n = (a + b - 1) / b → a `mod` b = 0 → n * b = a.
Proof.
  intros Ha Hb Hn Hm. destruct (ceil_spec a b n Ha Hb Hn) as [_ Hs]. pose proof (Z.div_mod a b ltac:(lia)) as Hd. rewrite Hm in Hd.
  assert (n = a / b) by nia. nia.
Qed.
(** A position of a matrix of [n] rows of [m] bytes. *)
Lemma join_bound i k n w : 0 <= i < n → 0 <= k <= w → 0 <= i * w + k <= n * w.
Proof. nia. Qed.

Section geometry.
Context (g : RowMajorTileGeometry) (Hg : geom_ok g).
Abbreviation H := (g_H g).
Abbreviation W := (g_W g).
Abbreviation isz := (g_itemsize g).
Abbreviation tH := (g_tile_H g).
Abbreviation tW := (g_tile_W g).
Abbreviation P := (g_packing_factor g).
Abbreviation n0 := (g_num_tiles_0 g).
Abbreviation n1 := (g_num_tiles_1 g).
Abbreviation batch := (g_batch_size g).

Definition tile_cell (b tr tc gr p c k : Z) : Z :=
  ((((((b * n0 + tr) * n1 + tc) * (tH / P) + gr) * tW + c) * P + p) * isz) + k.
Definition in_cells (b tr tc gr p c k : Z) : Prop :=
  0 <= b < batch ∧ 0 <= tr < n0 ∧ 0 <= tc < n1 ∧ 0 <= gr < tH / P ∧ 0 <= p < P ∧ 0 <= c < tW ∧ 0 <= k < isz.
(** [lin b row col] is the linear index of an element, [S] the linear bytes. *)
Definition cell_value (lin : Z → Z → Z → Z) (S : bytes) (b row col k : Z) : Z :=
  if (row <? H) && (col <? W) then byte_at S (lin b row col * isz + k) else 0.
Definition tiled (lin : Z → Z → Z → Z) (S : bytes) (pos v : Z) : Prop :=
  ∃ b tr tc gr p c k, in_cells b tr tc gr p c k ∧ pos = tile_cell b tr tc gr p c k ∧
    v = cell_value lin S b (tr * tH + (gr * P + p)) (tc * tW + c) k.
Definition row_major (b row col : Z) : Z := (b * H + row) * W + col.

Lemma rows_bound : 0 <= n0 ∧ H <= n0 * tH < H + tH.
Proof using Hg. destruct Hg. by apply ceil_spec. Qed.
Lemma cols_bound : 0 <= n1 ∧ W <= n1 * tW < W + tW.
Proof using Hg. destruct Hg. by apply ceil_spec. Qed.
Lemma tile_groups_exact : tH / P * P = tH.
Proof using Hg. destruct Hg. pose proof (Z.div_mod tH P ltac:(lia)). lia. Qed.
Lemma tile_size_eq : tile_size_bytes g = tH / P * (tW * P * isz).
Proof using Hg. unfold tile_size_bytes. rewrite <- tile_groups_exact at 1. ring. Qed.
Lemma tile_size_pos : 0 < tile_size_bytes g.
Proof using Hg. destruct Hg. unfold tile_size_bytes. apply Z.mul_pos_pos; [nia|done]. Qed.
Lemma tile_cell_eq b tr tc gr p c k :
  tile_cell b tr tc gr p c k = ((b * n0 + tr) * n1 + tc) * tile_size_bytes g + (((gr * tW + c) * P + p) * isz + k).
Proof using Hg. rewrite tile_size_eq. unfold tile_cell. ring. Qed.
Lemma in_tile gr p c k : 0 <= gr < tH / P → 0 <= p < P → 0 <= c < tW → 0 <= k < isz →
  0 <= ((gr * tW + c) * P + p) * isz + k < tile_size_bytes g.
Proof using Hg.
  intros Hr Hp Hc Hk. rewrite tile_size_eq. replace (tH / P * (tW * P * isz)) with (P * (tH / P * tW) * isz) by ring.
  apply join_pos3; [by apply join_pos|done|done].
Qed.
Lemma tile_index b tr tc : 0 <= b < batch → 0 <= tr < n0 → 0 <= tc < n1 → 0 <= (b * n0 + tr) * n1 + tc < batch * n0 * n1.
Proof. intros. apply join_pos; [|done]. by apply join_pos. Qed.
Lemma total_eq : total_tiled_bytes g = batch * n0 * n1 * tile_size_bytes g.
Proof. unfold total_tiled_bytes, tiled_matrix_size_bytes. ring. Qed.
Lemma tile_range b tr tc : 0 <= b < batch → 0 <= tr < n0 → 0 <= tc < n1 →
  0 <= ((b * n0 + tr) * n1 + tc) * tile_size_bytes g ∧
  ((b * n0 + tr) * n1 + tc) * tile_size_bytes g + tile_size_bytes g <= total_tiled_bytes g.
Proof using Hg. intros Hb Ht Hc. pose proof (tile_index b tr tc Hb Ht Hc) as Hq1. pose proof tile_size_pos as Hq2. rewrite total_eq. nia. Qed.

(** The cells are the bytes of the tiled buffer, once each. *)
Lemma cells_cover pos : 0 <= pos < total_tiled_bytes g → ∃ b tr tc gr p c k, in_cells b tr tc gr p c k ∧ pos = tile_cell b tr tc gr p c k.
Proof using Hg.
  intros Hp. pose proof Hg as []. rewrite total_eq in Hp. destruct (split_pos pos (batch * n0 * n1) (tile_size_bytes g)) as (q & o & Hq & Ho & ->); [apply tile_size_pos|done|].
  pose proof (proj1 rows_bound) as Hq3. pose proof (proj1 cols_bound) as Hq4.
  assert (n1 ≠ 0) as Hn1 by (intros E0; rewrite E0 in Hq; lia). destruct (split_pos q (batch * n0) n1) as (q' & tc & Hq' & Htc & ->); [lia|done|].
  assert (n0 ≠ 0) as Hn0 by (intros E0; rewrite E0 in Hq'; lia). destruct (split_pos q' batch n0) as (b & tr & Hb & Htr & ->); [lia|done|].
  rewrite tile_size_eq in Ho. destruct (split_pos o (tH / P) (tW * P * isz)) as (gr & o' & Hgr & Ho' & ->); [apply Z.mul_pos_pos; nia|done|].
  destruct (split_pos3 o' tW P isz) as (c & p & k & Hc & Hpp & Hk & ->); [done|done|lia|].
  exists b, tr, tc, gr, p, c, k. split; [done|]. rewrite tile_cell_eq. ring.
Qed.
Lemma cells_inj b tr tc gr p c k b' tr' tc' gr' p' c' k' :
  in_cells b tr tc gr p c k → in_cells b' tr' tc' gr' p' c' k' → tile_cell b tr tc gr p c k = tile_cell b' tr' tc' gr' p' c' k' →
  (b, tr, tc, gr, p, c, k) = (b', tr', tc', gr', p', c', k').
Proof.
  intros (Hb & Htr & Htc & Hgr & Hp & Hc & Hk) (Hb' & Htr' & Htc' & Hgr' & Hp' & Hc' & Hk') E. unfold tile_cell in E.
  assert (∀ i x i' x' w, 0 <= x < w → 0 <= x' < w → i * w + x = i' * w + x' → i = i' ∧ x = x') as U.
  { intros i x i' x' w Hx Hx' Ee. destruct (digits i w x Hx) as [E1 E2], (digits i' w x' Hx') as [E1' E2']. split; congruence. }
  apply U in E as [E ->]; [|done..]. apply U in E as [E ->]; [|done..]. apply U in E as [E ->]; [|done..]. apply U in E as [E ->]; [|done..].
  apply U in E as [E ->]; [|done..]. apply U in E as [-> ->]; done.
Qed.
Lemma tiled_unique lin S pos v v' : tiled lin S pos v → tiled lin S pos v' → v = v'.
Proof.
  intros (b & tr & tc & gr & p & c & k & Hin & -> & ->) (b' & tr' & tc' & gr' & p' & c' & k' & Hin' & E & ->).
  pose proof (cells_inj _ _ _ _ _ _ _ _ _ _ _ _ _ _ Hin Hin' E) as [= -> -> -> -> -> -> ->]. done.
Qed.
Lemma tiled_range lin S pos v : tiled lin S pos v → 0 <= pos < total_tiled_bytes g.
Proof using Hg.
  intros (b & tr & tc & gr & p & c & k & (Hb & Htr & Htc & Hgr & Hp & Hc & Hk) & -> & _). rewrite tile_cell_eq.
  pose proof (in_tile gr p c k Hgr Hp Hc Hk) as Hq5. pose proof (tile_range b tr tc Hb Htr Htc) as Hq6. lia.
Qed.

(** The way back: an element of the linear tensor is its cell. *)
Definition untiled (lin : Z → Z → Z → Z) (S : bytes) (pos v : Z) : Prop :=
  ∃ b tr tc gr p c k, in_cells b tr tc gr p c k ∧ tr * tH + (gr * P + p) < H ∧ tc * tW + c < W ∧
    pos = lin b (tr * tH + (gr * P + p)) (tc * tW + c) * isz + k ∧ v = byte_at S (tile_cell b tr tc gr p c k).
(** The cell of an element. *)
Lemma element_cell b row col k : 0 <= b < batch → 0 <= row < H → 0 <= col < W → 0 <= k < isz →
  ∃ tr tc gr p c, in_cells b tr tc gr p c k ∧ row = tr * tH + (gr * P + p) ∧ col = tc * tW + c.
Proof using Hg.
  intros Hb Hr Hc Hk. pose proof Hg as []. destruct rows_bound as [_ Hrb], cols_bound as [_ Hcb].
  destruct (split_pos row n0 tH) as (tr & r & Htr & Hrr & ->); [done|lia|]. destruct (split_pos col n1 tW) as (tc & c & Htc & Hcc & ->); [done|lia|].
  destruct (split_pos r (tH / P) P) as (gr & p & Hgr & Hp & ->); [done|by rewrite tile_groups_exact|]. exists tr, tc, gr, p, c. done.
Qed.

(** Linear positions. *)
Definition linear_ok (S : bytes) : Prop := batch * matrix_size_bytes g <= blen S.
Lemma span_range b row col n : 0 <= b < batch → 0 <= row < H → 0 <= col → col + n <= W → 0 <= n →
  0 <= row_major b row col * isz ∧ row_major b row col * isz + n * isz <= batch * matrix_size_bytes g.
Proof using Hg.
  intros Hb Hr Hc Hn Hn0. pose proof Hg as []. unfold row_major, matrix_size_bytes. pose proof (join_pos b row batch H Hb Hr) as Hq7.
  assert (0 <= (b * H + row) * W ∧ (b * H + row) * W + W <= batch * H * W) as Hw by nia. nia.
Qed.
Lemma padding_free : has_padding g = false → n0 * tH = H ∧ n1 * tW = W.
Proof using Hg.
  unfold has_padding. intros [E0%negb_false_iff%Z.eqb_eq E1%negb_false_iff%Z.eqb_eq]%orb_false_iff. destruct Hg. split; by apply ceil_exact.
Qed.

(** Tiles in the order of rows are the linear bytes. *)
Lemma identical_cells b tr tc gr p c k :
  identical_bytes g = true → in_cells b tr tc gr p c k →
  tr * tH + (gr * P + p) < H ∧ tc * tW + c < W ∧ row_major b (tr * tH + (gr * P + p)) (tc * tW + c) * isz + k = tile_cell b tr tc gr p c k.
Proof using Hg.
  unfold identical_bytes. intros [[EP%Z.eqb_eq Hpad%negb_true_iff]%andb_true_iff Hor]%andb_true_iff (Hb & Htr & Htc & Hgr & Hp & Hc & Hk).
  destruct (padding_free Hpad) as [E0 E1]. pose proof Hg as []. unfold tile_cell, row_major. rewrite EP in *. rewrite Z.div_1_r in *.
  assert (p = 0) as -> by lia. split; [nia|]. split; [nia|]. apply orb_true_iff in Hor as [EW%Z.eqb_eq|[EH%Z.eqb_eq EtH%Z.eqb_eq]%andb_true_iff].
  - assert (n1 = 1) as Hn1 by nia. assert (tc = 0) as -> by lia. rewrite Hn1, <- E0, EW. ring.
  - assert (n0 = 1) as Hn0 by nia. assert (tr = 0 ∧ gr = 0) as [-> ->] by lia. rewrite EH, EtH, Hn0, <- E1. ring.
Qed.
Lemma identical_total : identical_bytes g = true → total_tiled_bytes g = batch * matrix_size_bytes g.
Proof using Hg.
  unfold identical_bytes. intros [[_ Hpad%negb_true_iff]%andb_true_iff _]%andb_true_iff. destruct (padding_free Hpad) as [E0 E1].
  unfold total_tiled_bytes, tiled_matrix_size_bytes, tile_size_bytes, matrix_size_bytes. rewrite <- E0, <- E1. ring.
Qed.
Lemma identical_tiled S pos : identical_bytes g = true → 0 <= pos < total_tiled_bytes g → tiled row_major S pos (byte_at S pos).
Proof using Hg.
  intros Eid Hp. destruct (cells_cover pos Hp) as (b & tr & tc & gr & p & c & k & Hin & ->).
  destruct (identical_cells b tr tc gr p c k Eid Hin) as (Hh & Hw & E). exists b, tr, tc, gr, p, c, k. split; [done|]. split; [done|].
  unfold cell_value. rewrite (proj2 (Z.ltb_lt _ H)), (proj2 (Z.ltb_lt _ W)) by done. cbn [andb]. by rewrite E.
Qed.

Section tasks.
Context {hw : Highway} {hwl : HighwayLaws} (w bs : Buffer) (M0 : Memory) (cap : Z) (Hbs : bs ≠ w) (Hkind : group_of P isz).
Abbreviation kP := (DispatchByPackingFactor P).
Lemma dispatch_exact : kP = P.
Proof using Hkind. destruct Hkind as [->|[[-> _]|[-> _]]]; done. Qed.
Lemma static_width_ok : static_width P tW isz (static_row_bytes g).
Proof.
  unfold static_width, static_row_bytes, DispatchByRowBytes. destruct (Z.eqb_spec P 1) as [E|_]; [|by left].
  destruct (existsb (Z.eqb (tW * isz)) _); [right|by left]. done.
Qed.

(** The part of the tiled buffer that a row of tiles fills. *)
Definition row_region (b tr pos : Z) : Prop :=
  (b * n0 + tr) * (n1 * tile_size_bytes g) <= pos < (b * n0 + tr + 1) * (n1 * tile_size_bytes g).
Section tile_side.
Context (Hcap : total_tiled_bytes g <= cap) (HS : linear_ok (buffer bs M0)).
Abbreviation S := (buffer bs M0).
Definition row_target (b tr pos v : Z) : Prop := tiled row_major S pos v ∧ row_region b tr pos.

(** The cells of one tile. *)
Lemma tile_target b tr tc V :
  0 <= b < batch → 0 <= tr < n0 → 0 <= tc < n1 →
  (∀ r c k, 0 <= r < tH → 0 <= c < tW → 0 <= k < isz → V r c k = cell_value row_major S b (tr * tH + r) (tc * tW + c) k) →
  tile_holds (row_target b tr) P tH tW isz (mkPtr w (((b * n0 + tr) * n1 + tc) * tile_size_bytes g)) V.
Proof using Hg.
  intros Hb Htr Htc HV gr p c k Hgr Hp Hc Hk. cbn [p_off]. rewrite <- tile_cell_eq. pose proof tile_groups_exact as Hq8. split.
  - exists b, tr, tc, gr, p, c, k. split; [done|]. split; [done|]. apply HV; [nia|done|done].
  - unfold row_region. rewrite tile_cell_eq. pose proof (in_tile gr p c k Hgr Hp Hc Hk) as Hq9. pose proof tile_size_pos as Hq10. nia.
Qed.
Lemma tile_row_task_does b tr :
  0 <= b < batch → 0 <= tr < n0 →
  does w M0 cap (row_target b tr) (tile_row_task g (mkPtr bs 0) (mkPtr w 0) b tr) (row_region b tr).
Proof using Hg hwl Hbs Hkind Hcap HS.
  intros Hb Htr. unfold tile_row_task. rewrite dispatch_exact. pose proof tile_size_pos as Hts. pose proof rows_bound as Hq11. pose proof cols_bound as Hq12.
  eapply does_weaken; [apply (does_chunks _ _ _ _ ((b * n0 + tr) * (n1 * tile_size_bytes g)) (tile_size_bytes g) n1); [done|]|
    unfold row_region; intros pos Hp; cbv beta; lia].
  intros tc Htc. cbv zeta. pose proof (tile_range b tr tc Hb Htr Htc) as Hr. pose proof Hg as [].
  assert (mkPtr w 0 ⊕ b * tiled_matrix_size_bytes g ⊕ (tr * n1 + tc) * tile_size_bytes g = mkPtr w (((b * n0 + tr) * n1 + tc) * tile_size_bytes g)) as ->
    by (unfold shift, tiled_matrix_size_bytes; cbn; f_equal; ring).
  assert (in_dst w cap (mkPtr w (((b * n0 + tr) * n1 + tc) * tile_size_bytes g)) (tH * tW * isz)) as Hd
    by (split_and!; [done|cbn; lia|cbn; unfold tile_size_bytes in *; lia]).
  assert (∀ r, tile_row_ptr tH tW W isz (mkPtr bs 0 ⊕ b * matrix_size_bytes g) tr tc r = mkPtr bs (row_major b (tr * tH + r) (tc * tW) * isz)) as Erow.
  { intros r. unfold tile_row_ptr, shift, row_major, matrix_size_bytes. cbn. f_equal. ring. }
  destruct (negb (has_padding g) || _) eqn:Ein.
  - assert (tr * tH + tH <= H ∧ tc * tW + tW <= W) as [HH HW].
    { apply orb_true_iff in Ein as [Hp%negb_true_iff|[Ea%Z.leb_le Eb%Z.leb_le]%andb_true_iff]; [|lia].
      destruct (padding_free Hp) as [E0 E1]. nia. }
    eapply does_weaken; [apply does_tile_copy; try done|].
    + apply static_width_ok.
    + intros r Hr'. rewrite Erow. destruct (span_range b (tr * tH + r) (tc * tW) tW) as [Hl1 Hl2]; [done|nia|nia|lia|lia|].
      split_and!; [done|cbn; lia|cbn; unfold linear_ok in HS; lia].
    + apply tile_target; [done..|]. intros r c k Hr' Hc Hk. unfold cell_value. rewrite (proj2 (Z.ltb_lt _ H)), (proj2 (Z.ltb_lt _ W)) by nia.
      cbn [andb]. rewrite Erow. unfold src_byte. cbn. f_equal. unfold row_major. ring.
    + cbn [p_off]. intros pos Hp. fold (tile_size_bytes g). lia.
  - eapply does_weaken; [apply does_tile_pad; try done|].
    + intros r Hr' HH HW. rewrite Erow. destruct (span_range b (tr * tH + r) (tc * tW) (Z.min tW (W - tc * tW))) as [Hl1 Hl2]; [done|nia|nia|lia|lia|].
      split_and!; [done|cbn; lia|cbn; unfold linear_ok in HS; lia].
    + apply tile_target; [done..|]. intros r c k Hr' Hc Hk. unfold padded, cell_value. destruct ((tr * tH + r <? H) && (tc * tW + c <? W)); [|done].
      rewrite Erow. unfold src_byte. cbn. f_equal. unfold row_major. ring.
    + cbn [p_off]. intros pos Hp. fold (tile_size_bytes g). lia.
Qed.

(** A single row under a taller tile. *)
Definition slot (b tc pos : Z) : Prop := (b * n1 + tc) * tile_size_bytes g <= pos < (b * n1 + tc + 1) * tile_size_bytes g.
Lemma single_row_does b tc :
  P = 1 → H = 1 → 0 <= b < batch → 0 <= tc < n1 →
  does w M0 cap (λ pos v, tiled row_major S pos v ∧ slot b tc pos)
    (single_row_tile g (mkPtr w 0 ⊕ b * tiled_matrix_size_bytes g ⊕ tc * tile_size_bytes g) (mkPtr bs 0 ⊕ b * matrix_size_bytes g) tc)
    (slot b tc).
Proof using Hg hwl Hbs Hcap HS.
  intros EP EH Hb Htc. pose proof Hg as []. destruct rows_bound as [_ Hrb]. assert (n0 = 1) as En0 by nia. destruct cols_bound as [_ Hcb].
  pose proof (tile_range b 0 tc Hb ltac:(lia) Htc) as Hr. rewrite En0 in Hr. replace ((b * 1 + 0) * n1 + tc) with (b * n1 + tc) in Hr by ring.
  assert (mkPtr w 0 ⊕ b * tiled_matrix_size_bytes g ⊕ tc * tile_size_bytes g = mkPtr w ((b * n1 + tc) * tile_size_bytes g)) as ->
    by (unfold shift, tiled_matrix_size_bytes; rewrite En0; cbn; f_equal; ring).
  assert (∀ r c k, 0 <= r < tH → 0 <= c < tW → 0 <= k < isz →
    tiled row_major S ((b * n1 + tc) * tile_size_bytes g + ((r * tW + c) * isz + k)) (cell_value row_major S b r (tc * tW + c) k) ∧
    slot b tc ((b * n1 + tc) * tile_size_bytes g + ((r * tW + c) * isz + k))) as HT.
  { intros r c k Hr' Hc Hk. split; [|pose proof (in_tile r 0 c k) as Hq; rewrite EP, Z.div_1_r in Hq; unfold slot; lia]. exists b, 0, tc, r, 0, c, k. split; [split_and!; try done; try lia; rewrite EP, Z.div_1_r; lia|]. split.
    - rewrite tile_cell_eq, En0, EP. ring.
    - f_equal. rewrite EP. ring. }
  set (T := λ pos v, tiled row_major S pos v ∧ slot b tc pos) in *. change (∀ r c k, 0 <= r < tH → 0 <= c < tW → 0 <= k < isz →
    T ((b * n1 + tc) * tile_size_bytes g + ((r * tW + c) * isz + k)) (cell_value row_major S b r (tc * tW + c) k)) in HT.
  assert (∀ pos, slot b tc pos → (b * n1 + tc) * tile_size_bytes g <= pos < (b * n1 + tc + 1) * tile_size_bytes g) as Hslot by done. clearbody T.
  assert (0 <= tc * tW < W) as Htc' by nia. set (valid := Z.min tW (W - tc * tW)).
  assert (0 < valid <= tW ∧ tc * tW + valid <= W ∧ (valid < tW → tc * tW + valid = W)) as (Hv & Hv2 & Hv3) by lia.
  unfold single_row_tile. fold valid. clearbody valid. rewrite (proj2 (Z.ltb_lt 0 valid)) by lia. set (ts := tile_size_bytes g) in *.
  assert (ts = tW * isz + (tH - 1) * tW * isz) as Ets by (unfold ts, tile_size_bytes; ring).
  assert (valid * isz <= tW * isz ∧ 0 <= valid * isz ∧ 0 <= (tW - valid) * isz ∧ 0 <= (tH - 1) * tW * isz) as (Hm1 & Hm2 & Hm3 & Hm4)
    by (split_and!; [nia|nia|nia|apply mul3_nonneg; lia]).
  destruct (span_range b 0 (tc * tW) valid) as [Hl1 Hl2]; [done|lia|lia|lia|lia|]. unfold row_major in Hl1, Hl2. rewrite EH in Hl1, Hl2.
  assert (b * matrix_size_bytes g + tc * tW * isz = ((b * 1 + 0) * W + tc * tW) * isz) as Ebt by (unfold matrix_size_bytes; rewrite EH; ring).
  clearbody ts. change (memcpy ?d ?s ?n :: ?l) with ([memcpy d s n] ++ l).
  eapply does_weaken; [apply does_app; [apply does_app; [apply does_memcpy|apply does_if; intros Hlt%Z.ltb_lt; apply does_memset0]|apply does_if; intros Hlt%Z.ltb_lt; apply does_memset0]|];
    try (split_and!; [done|cbn; lia|cbn; lia]); try lia.
  - split_and!; [done|cbn; lia|cbn; unfold linear_ok in HS; lia].
  - intros j Hj. destruct (split_pos j valid isz) as (c & k & Hc & Hk & ->); [done|lia|]. pose proof (HT 0 c k ltac:(lia) ltac:(lia) Hk) as Ht.
    unfold cell_value in Ht. rewrite (proj2 (Z.ltb_lt _ H)), (proj2 (Z.ltb_lt _ W)) in Ht by lia. cbn [andb] in Ht.
    replace (row_major b 0 (tc * tW + c) * isz + k) with (0 + b * matrix_size_bytes g + tc * tW * isz + (c * isz + k)) in Ht
      by (unfold row_major, matrix_size_bytes; rewrite EH; ring). unfold src_byte. cbn [p_off p_buf shift]. by_ring Ht.
  - intros j Hj. destruct (split_pos j (tW - valid) isz) as (c & k & Hc & Hk & ->); [done|lia|]. pose proof (HT 0 (valid + c) k ltac:(lia) ltac:(lia) Hk) as Ht.
    unfold cell_value in Ht. rewrite (proj2 (Z.ltb_ge _ W)), andb_false_r in Ht by lia. cbn.
    by replace ((b * n1 + tc) * ts + valid * isz + (c * isz + k)) with ((b * n1 + tc) * ts + ((0 * tW + (valid + c)) * isz + k)) by ring.
  - intros j Hj. destruct (split_pos j ((tH - 1) * tW) isz) as (q & k & Hq & Hk & ->); [done|lia|].
    destruct (split_pos q (tH - 1) tW) as (r & c & Hr' & Hc & ->); [done|lia|]. pose proof (HT (r + 1) c k ltac:(lia) Hc Hk) as Ht.
    unfold cell_value in Ht. rewrite (proj2 (Z.ltb_ge _ H)) in Ht by lia. cbn in Ht |- *.
    by replace ((b * n1 + tc) * ts + tW * isz + ((r * tW + c) * isz + k)) with ((b * n1 + tc) * ts + (((r + 1) * tW + c) * isz + k)) by ring.
  - intros pos Hp%Hslot. cbn [p_off shift]. destruct (decide (pos < (b * n1 + tc) * ts + tW * isz)).
    + left. destruct (decide (pos < (b * n1 + tc) * ts + valid * isz)); [left; lia|right]. split; [apply Z.ltb_lt; nia|lia].
    + right. assert (1 < tH) by nia. split; [by apply Z.ltb_lt|lia].
Qed.
(** The plan of the whole tensor. *)
Lemma row_regions b tr b' tr' pos :
  0 <= tr < n0 → 0 <= tr' < n0 → row_region b tr pos → row_region b' tr' pos → b = b' ∧ tr = tr'.
Proof using Hg.
  intros Ht Ht' [H1 H2] [H1' H2']. pose proof cols_bound as [Hc _]. pose proof tile_size_pos as Hs.
  set (m := n1 * tile_size_bytes g) in *. assert (0 <= m) as Hm by (unfold m; nia). clearbody m.
  assert (b * n0 + tr = b' * n0 + tr') as E by nia. destruct (digits b n0 tr Ht) as [E1 E2], (digits b' n0 tr' Ht') as [E1' E2']. split; congruence.
Qed.
Lemma tile_matrices_ok pool_threads :
  plan_ok w M0 cap (tiled row_major S) (λ pos, 0 <= pos < total_tiled_bytes g) (tile_matrices pool_threads (mkPtr bs 0) (mkPtr w 0) g).
Proof using Hg hwl Hbs Hkind Hcap HS.
  unfold tile_matrices. pose proof Hg as []. pose proof rows_bound as [Hr0 Hr1]. pose proof cols_bound as [Hc0 Hc1]. pose proof tile_size_pos as Hts.
  destruct (identical_bytes g) eqn:Eid; [|destruct ((P =? 1) && (H =? 1)) eqn:E1].
  - pose proof (identical_total Eid) as Et. cbn. rewrite <- Et. assert (0 <= total_tiled_bytes g) as Ht0 by (rewrite total_eq; apply Z.mul_nonneg_nonneg; [by apply mul3_nonneg|lia]).
    apply does_memcpy; [done|split_and!; [done|done|cbn; lia]|split_and!; [done|done|cbn; unfold linear_ok in HS; lia]|].
    intros pos Hp. by apply identical_tiled.
  - apply andb_true_iff in E1 as [EP%Z.eqb_eq EH%Z.eqb_eq]. assert (n0 = 1) as En0 by nia. cbn.
    eapply does_weaken; [apply does_range; intros b Hb; apply does_range; intros tc Htc; eapply does_mono; [by apply single_row_does|by intros pos v []]|].
    intros pos Hp. rewrite total_eq, En0 in Hp. destruct (split_pos pos (batch * n1) (tile_size_bytes g)) as (q & o & Hq & Ho & ->); [done|lia|].
    assert (n1 ≠ 0) as Hn1 by (intros E0; rewrite E0 in Hq; lia). destruct (split_pos q batch n1) as (b & tc & Hb & Htc & ->); [lia|done|].
    exists b. split; [done|]. exists tc. split; [done|]. unfold slot. lia.
  - apply (run_tasks_ok _ _ _ _ _ _ _ _ _ _ (λ b tr pos, 0 <= tr < n0 ∧ row_region b tr pos)); [done|done|..].
    + intros b tr b' tr' pos [Ht1 Hr] [Ht2 Hr']. by apply (row_regions b tr b' tr' pos).
    + intros b tr Hb Ht. eapply does_weaken; [eapply does_mono; [by apply tile_row_task_does|]|]; [by intros pos v []|by intros pos (_ & _ & ?)].
    + intros pos Hp. rewrite total_eq in Hp. destruct (split_pos pos (batch * n0 * n1) (tile_size_bytes g)) as (q & o & Hq & Ho & ->); [done..|].
      assert (n1 ≠ 0) as Hn1 by (intros E0; rewrite E0 in Hq; lia). destruct (split_pos q (batch * n0) n1) as (q' & tc & Hq' & Htc & ->); [lia|done|].
      assert (n0 ≠ 0) as Hn0 by (intros E0; rewrite E0 in Hq'; lia). destruct (split_pos q' batch n0) as (b & tr & Hb & Htr & ->); [lia|done|].
      exists b, tr. split; [done|]. split; [done|]. split; [done|]. unfold row_region. nia.
Qed.
End tile_side.

Section linear_side.
Context (Hcap : batch * matrix_size_bytes g <= cap) (HS : total_tiled_bytes g <= blen (buffer bs M0)).
Abbreviation S := (buffer bs M0).
(** The rows of one band. *)
Definition band (b tr pos : Z) : Prop :=
  ∃ row, tr * tH <= row < tr * tH + tH ∧ 0 <= row < H ∧ (b * H + row) * (W * isz) <= pos < (b * H + row) * (W * isz) + W * isz.
Definition band_target (b tr pos v : Z) : Prop := untiled row_major S pos v ∧ band b tr pos.
Lemma rows_target b tr tc :
  0 <= b < batch → 0 <= tr < n0 → 0 <= tc < n1 →
  rows_hold M0 (band_target b tr) P tH tW W isz H (mkPtr bs (((b * n0 + tr) * n1 + tc) * tile_size_bytes g))
    (mkPtr w 0 ⊕ b * matrix_size_bytes g) tr tc.
Proof using Hg.
  intros Hb Htr Htc gr p c k Hgr Hp Hc Hk HH HW. pose proof tile_groups_exact as Hq. pose proof Hg as [].
  assert (0 <= tc * tW) as Hq1 by nia. assert (0 <= tr * tH) as Hq2 by nia. assert (0 <= gr * P + p < tH) as Hq3 by nia.
  unfold src_byte. cbn [p_off p_buf tile_row_ptr shift]. rewrite <- tile_cell_eq. split.
  - exists b, tr, tc, gr, p, c, k. split; [done|]. split; [done|]. split; [done|]. split; [|done]. unfold row_major, matrix_size_bytes. ring.
  - exists (tr * tH + (gr * P + p)). split; [lia|]. split; [lia|]. unfold matrix_size_bytes.
    pose proof (join_pos (tc * tW + c) k W isz) as Hj.
    replace (0 + b * (H * W * isz) + ((tr * tH + (gr * P + p)) * W + tc * tW) * isz + (c * isz + k))
      with ((b * H + (tr * tH + (gr * P + p))) * (W * isz) + ((tc * tW + c) * isz + k)) by ring. lia.
Qed.
Lemma detile_row_task_does b tr :
  0 <= b < batch → 0 <= tr < n0 →
  does w M0 cap (band_target b tr) (detile_row_task g (mkPtr bs 0) (mkPtr w 0) b tr) (band b tr).
Proof using Hg hwl Hbs Hkind Hcap HS.
  intros Hb Htr. unfold detile_row_task. rewrite dispatch_exact. pose proof Hg as []. pose proof cols_bound as Hcb.
  assert (∀ tc r, tile_row_ptr tH tW W isz (mkPtr w 0 ⊕ b * matrix_size_bytes g) tr tc r = mkPtr w (row_major b (tr * tH + r) (tc * tW) * isz)) as Erow.
  { intros tc r. unfold tile_row_ptr, shift, row_major, matrix_size_bytes. cbn. f_equal. ring. }
  eapply does_weaken; [apply does_range|].
  - intros tc Htc. instantiate (1 := λ tc pos, ∃ r, 0 <= r < tH ∧ tr * tH + r < H ∧
      row_part tH tW W isz (mkPtr w 0 ⊕ b * matrix_size_bytes g) tr tc r (Z.min tW (W - tc * tW)) pos). cbv zeta beta.
    assert (mkPtr bs 0 ⊕ b * tiled_matrix_size_bytes g ⊕ (tr * n1 + tc) * tile_size_bytes g = mkPtr bs (((b * n0 + tr) * n1 + tc) * tile_size_bytes g)) as ->
      by (unfold shift, tiled_matrix_size_bytes; cbn; f_equal; ring).
    pose proof (tile_range b tr tc Hb Htr Htc) as Hr. pose proof (rows_target b tr tc Hb Htr Htc) as HT.
    assert (in_src w M0 (mkPtr bs (((b * n0 + tr) * n1 + tc) * tile_size_bytes g)) (tH * tW * isz)) as Hs
      by (split_and!; [done|cbn; lia|cbn; unfold tile_size_bytes in *; lia]).
    assert (0 <= tr * tH ∧ 0 <= tc * tW) as [Htr0 Htc0] by nia.
    assert (∀ r n, 0 <= r → tr * tH + r < H → 0 <= n → tc * tW + n <= W → in_dst w cap (tile_row_ptr tH tW W isz (mkPtr w 0 ⊕ b * matrix_size_bytes g) tr tc r) (n * isz)) as Hd.
    { intros r n Hr0 HH Hn HW. rewrite Erow. destruct (span_range b (tr * tH + r) (tc * tW) n) as [Hl1 Hl2]; [done|lia|lia|lia|lia|].
      split_and!; [done|cbn; lia|cbn; lia]. }
    destruct (negb (has_padding g) || _) eqn:Ein.
    + assert (tr * tH + tH <= H ∧ tc * tW + tW <= W) as [HH HW].
      { apply orb_true_iff in Ein as [Hp%negb_true_iff|[Ea%Z.leb_le Eb%Z.leb_le]%andb_true_iff]; [|lia]. destruct (padding_free Hp) as [E0 E1]. nia. }
      eapply does_weaken; [eapply does_tile_detile; try done|].
      * apply static_width_ok.
      * intros r Hr'. apply Hd; lia.
      * intros pos (r & Hr' & _ & Hp). exists r. split; [done|]. by rewrite Z.min_l in Hp by lia.
    + apply does_tile_detile_pad; try done. intros r Hr' HH HW. apply Hd; lia.
  - intros pos (row & Hrow & HH & Hp).
    destruct (split_pos (pos - (b * H + row) * (W * isz)) W isz) as (col & k & Hcol & Hk & E); [done|lia|].
    destruct (split_pos col n1 tW) as (tc & c & Htc & Hc & ->); [done|lia|]. exists tc. split; [done|]. exists (row - tr * tH).
    split; [lia|]. split; [lia|]. unfold row_part. rewrite Erow. cbn [p_off]. unfold row_major. replace (tr * tH + (row - tr * tH)) with row by ring.
    assert (0 <= c * isz + k < Z.min tW (W - tc * tW) * isz) as Hin by (apply join_pos; lia). lia.
Qed.
Lemma band_regions b tr b' tr' pos :
  0 <= b → 0 <= b' → 0 <= tr → 0 <= tr' → band b tr pos → band b' tr' pos → b = b' ∧ tr = tr'.
Proof using Hg.
  intros Hb Hb' Ht Ht' (row & Hr & HH & Hp) (row' & Hr' & HH' & Hp'). pose proof Hg as [].
  set (m := W * isz) in *. assert (0 <= m) as Hm by (unfold m; nia). clearbody m. assert (b * H + row = b' * H + row') as E by nia.
  destruct (digits b H row HH) as [E1 E2], (digits b' H row' HH') as [E1' E2']. assert (b = b' ∧ row = row') as [-> ->] by (split; congruence).
  split; [done|]. nia.
Qed.
Lemma linear_cells pos : 0 <= pos < batch * matrix_size_bytes g →
  ∃ b row col k, 0 <= b < batch ∧ 0 <= row < H ∧ 0 <= col < W ∧ 0 <= k < isz ∧ pos = row_major b row col * isz + k.
Proof using Hg.
  intros Hp. pose proof Hg as []. unfold matrix_size_bytes in Hp. destruct (split_pos pos (batch * H * W) isz) as (q & k & Hq & Hk & ->); [done|lia|].
  assert (W ≠ 0) as HW0 by (intros E0; rewrite E0 in Hq; lia). destruct (split_pos q (batch * H) W) as (q' & col & Hq' & Hcol & ->); [lia|done|].
  assert (H ≠ 0) as HH0 by (intros E0; rewrite E0 in Hq'; lia). destruct (split_pos q' batch H) as (b & row & Hb & Hrow & ->); [lia|done|].
  by exists b, row, col, k.
Qed.
(** The tiles of a single row, back. *)
Lemma single_row_back b tc :
  P = 1 → H = 1 → 0 <= b < batch → 0 <= tc < n1 →
  does w M0 cap (untiled row_major S)
    [memcpy (mkPtr w 0 ⊕ b * matrix_size_bytes g ⊕ tc * tW * isz) (mkPtr bs 0 ⊕ b * tiled_matrix_size_bytes g ⊕ tc * tile_size_bytes g)
       (Z.min tW (W - tc * tW) * isz)]
    (λ pos, b * (W * isz) + tc * (tW * isz) <= pos < b * (W * isz) + tc * (tW * isz) + Z.min tW (W - tc * tW) * isz).
Proof using Hg Hbs Hcap HS.
  intros EP EH Hb Htc. pose proof Hg as []. destruct rows_bound as [_ Hrb]. assert (n0 = 1) as En0 by nia. destruct cols_bound as [_ Hcb].
  pose proof (tile_range b 0 tc Hb ltac:(lia) Htc) as Hr. rewrite En0 in Hr. assert (0 <= tc * tW < W) as Htc' by nia.
  set (valid := Z.min tW (W - tc * tW)). assert (0 < valid <= tW ∧ tc * tW + valid <= W) as (Hv & Hv2) by lia. clearbody valid.
  destruct (span_range b 0 (tc * tW) valid) as [Hl1 Hl2]; [done|lia|lia|lia|lia|].
  assert (0 + b * matrix_size_bytes g + tc * tW * isz = row_major b 0 (tc * tW) * isz) as Ed by (unfold row_major, matrix_size_bytes; rewrite EH; ring).
  assert (0 + b * tiled_matrix_size_bytes g + tc * tile_size_bytes g = ((b * 1 + 0) * n1 + tc) * tile_size_bytes g) as Es
    by (unfold tiled_matrix_size_bytes; rewrite En0; ring).
  assert (valid * isz <= tile_size_bytes g) as Hvs by (unfold tile_size_bytes; assert (valid <= tH * tW) by nia; nia).
  eapply does_weaken; [apply does_memcpy|].
  - nia.
  - split_and!; [done|cbn [p_off shift]; lia|cbn [p_off shift]; lia].
  - split_and!; [done|cbn [p_off shift]; lia|cbn [p_off shift p_buf]; lia].
  - intros j Hj. destruct (split_pos j valid isz) as (c & k & Hc & Hk & ->); [done|lia|].
    exists b, 0, tc, 0, 0, c, k. split; [split_and!; try done; try lia; rewrite EP, Z.div_1_r; lia|]. split; [lia|]. split; [lia|].
    unfold src_byte. cbn [p_off p_buf shift]. split.
    + rewrite Ed. unfold row_major. ring.
    + f_equal. rewrite Es, tile_cell_eq, En0, EP. ring.
  - intros pos Hp. cbn [p_off shift]. rewrite Ed. unfold row_major. rewrite EH. lia.
Qed.
Lemma detile_matrices_ok pool_threads :
  plan_ok w M0 cap (untiled row_major S) (λ pos, 0 <= pos < batch * matrix_size_bytes g) (detile_matrices pool_threads (mkPtr bs 0) (mkPtr w 0) g).
Proof using Hg hwl Hbs Hkind Hcap HS.
  unfold detile_matrices. pose proof Hg as []. pose proof rows_bound as [Hr0 Hr1]. pose proof cols_bound as [Hc0 Hc1].
  destruct (identical_bytes g) eqn:Eid; [|destruct ((P =? 1) && (H =? 1)) eqn:E1].
  - pose proof (identical_total Eid) as Et. cbn. assert (0 <= batch * matrix_size_bytes g) as Ht0 by (unfold matrix_size_bytes; apply Z.mul_nonneg_nonneg; [done|apply mul3_nonneg; lia]).
    apply does_memcpy; [done|split_and!; [done|done|cbn; lia]|split_and!; [done|done|cbn; lia]|].
    intros pos Hp. unfold src_byte. cbn. rewrite <- Et in Hp. destruct (cells_cover pos Hp) as (b & tr & tc & gr & p & c & k & Hin & ->).
    destruct (identical_cells b tr tc gr p c k Eid Hin) as (Hh & Hw & E). by exists b, tr, tc, gr, p, c, k.
  - apply andb_true_iff in E1 as [EP%Z.eqb_eq EH%Z.eqb_eq]. cbn. eapply does_weaken; [apply does_range; intros b Hb; apply does_bind|].
    + intros tc [_ Htc%elem_of_seqZ]%list_elem_of_filter. apply single_row_back; done.
    + intros pos Hp. destruct (linear_cells pos Hp) as (b & row & col & k & Hb & Hrow & Hcol & Hk & ->). exists b. split; [done|].
      destruct (split_pos col n1 tW) as (tc & c & Htc & Hc & ->); [done|lia|]. exists tc.
      split; [apply list_elem_of_filter; split; [lia|apply elem_of_seqZ; lia]|]. unfold row_major. rewrite EH in *. assert (row = 0) as -> by lia.
      assert (0 <= c * isz + k < Z.min tW (W - tc * tW) * isz) as Hin by (apply join_pos; lia). lia.
  - apply (run_tasks_ok _ _ _ _ _ _ _ _ _ _ (λ b tr pos, 0 <= b ∧ 0 <= tr ∧ band b tr pos)); [done|done|..].
    + intros b tr b' tr' pos (? & ? & ?) (? & ? & ?). by apply (band_regions b tr b' tr' pos).
    + intros b tr Hb Ht. eapply does_weaken; [eapply does_mono; [by apply detile_row_task_does|]|].
      * intros pos v [? ?]. split; [done|]. split; [lia|]. split; [lia|done].
      * by intros pos (_ & _ & _ & ?).
    + intros pos Hp. destruct (linear_cells pos Hp) as (b & row & col & k & Hb & Hrow & Hcol & Hk & ->).
      destruct (split_pos row n0 tH) as (tr & r & Htr & Hr & ->); [done|lia|]. exists b, tr. split; [done|]. split; [done|]. split; [lia|]. split; [lia|].
      exists (tr * tH + r). split; [lia|]. split; [done|]. unfold row_major. pose proof (join_pos col k W isz Hcol Hk). lia.
Qed.
End linear_side.
End tasks.
End geometry.
