(* ===== verification/TilingLine.v ===== *)
(** * TilingLine: one-dimensional tensors
    (the 1D paths of src/tpu_sync/weight_sync/tiling_utils.cc)

    A one-dimensional tensor of [W] elements is cut into rows of [tile_W] elements, and
    groups of [P] rows are interleaved; the last group is padded with zeros. *)

From S2P Require Import Prelude TileMemory Highway TilingUtils TilingTiles.

(** ** The cells of a packed line *)
Section line.
Context (geom : Packed1DTileGeometry) (W isz : Z).
Abbreviation P := (k_P geom).
Abbreviation tW := (k_tile_W geom).
Abbreviation n := (k_total_groups geom).
Record line_ok : Prop := {
  lo_P : 0 < P; lo_tW : 0 < tW; lo_n : 0 <= n; lo_W : 0 <= W; lo_isz : 0 < isz;
  lo_fits : W <= n * group_elems geom;
}.
Definition line_cell (g p c k : Z) : Z := ((g * tW + c) * P + p) * isz + k.
Definition in_line (g p c k : Z) : Prop := 0 <= g < n ∧ 0 <= p < P ∧ 0 <= c < tW ∧ 0 <= k < isz.
Definition line_element (g p c : Z) : Z := (g * P + p) * tW + c.
Definition line_value (S : bytes) (e k : Z) : Z := if e <? W then byte_at S (e * isz + k) else 0.
Definition tiled_line (S : bytes) (pos v : Z) : Prop :=
  ∃ g p c k, in_line g p c k ∧ pos = line_cell g p c k ∧ v = line_value S (line_element g p c) k.
Definition untiled_line (S : bytes) (pos v : Z) : Prop :=
  ∃ g p c k, in_line g p c k ∧ line_element g p c < W ∧ pos = line_element g p c * isz + k ∧ v = byte_at S (line_cell g p c k).
Definition line_bytes : Z := n * group_bytes geom isz.

Context (Hok : line_ok).
Lemma group_bytes_pos : 0 < group_bytes geom isz.
Proof using Hok. destruct Hok. unfold group_bytes, group_elems. apply Z.mul_pos_pos; nia. Qed.
Lemma cell_in_group g p c k : in_line g p c k → 0 <= (c * P + p) * isz + k < group_bytes geom isz.
Proof. intros (Hg & Hp & Hc & Hk). unfold group_bytes, group_elems. by apply join_pos3. Qed.
Lemma line_cell_eq g p c k : line_cell g p c k = g * group_bytes geom isz + ((c * P + p) * isz + k).
Proof. unfold line_cell, group_bytes, group_elems. ring. Qed.
Lemma element_range g p c k : in_line g p c k → 0 <= line_element g p c < n * group_elems geom.
Proof.
  intros (Hg & Hp & Hc & Hk). unfold line_element, group_elems. rewrite Z.mul_assoc. apply join_pos; [by apply join_pos|done].
Qed.
(** Every element of the line has its cell. *)
Lemma line_element_cell e : 0 <= e < n * group_elems geom → ∃ g p c, 0 <= g < n ∧ 0 <= p < P ∧ 0 <= c < tW ∧ e = line_element g p c.
Proof using Hok.
  intros He. destruct Hok. unfold group_elems in He. destruct (split_pos3 e (n * P) 1 tW) as (r & z & c & Hr & Hz & Hc & ->); [lia|done|lia|].
  assert (z = 0) as -> by lia. destruct (split_pos r n P) as (g & p & Hg & Hp & ->); [done..|]. exists g, p, c. unfold line_element. split_and!; try lia.
Qed.
Lemma line_cells_cover pos : 0 <= pos < line_bytes → ∃ g p c k, in_line g p c k ∧ pos = line_cell g p c k.
Proof using Hok.
  intros Hp. pose proof group_bytes_pos as Hb. destruct Hok. destruct (split_pos pos n (group_bytes geom isz)) as (g & o & Hg & Ho & ->); [done..|].
  unfold group_bytes, group_elems in Ho. destruct (split_pos3 o tW P isz) as (c & p & k & Hc & Hpp & Hk & ->); [done|done|done|].
  exists g, p, c, k. split; [done|]. by rewrite line_cell_eq.
Qed.

Section copies.
Context {hw : Highway} {hwl : HighwayLaws} (w bs : Buffer) (M0 : Memory) (cap : Z) (Hbs : bs ≠ w).

(** A group that is zeroed and filled element by element, from [src p c] where [sel p c]. *)
Lemma does_group_elements T dst (sel : Z → Z → bool) (src : Z → Z → Ptr) :
  in_dst w cap dst (group_bytes geom isz) →
  (∀ p c, 0 <= p < P → 0 <= c < tW → sel p c = true → in_src w M0 (src p c) isz) →
  (∀ p c k, 0 <= p < P → 0 <= c < tW → 0 <= k < isz →
     T (p_off dst + ((c * P + p) * isz + k)) (if sel p c then src_byte M0 (src p c) k else 0)) →
  does w M0 cap T
    (ZeroRowHighway dst (group_bytes geom isz) ++
     (seqZ 0 P ≫= λ p, seqZ 0 tW ≫= λ c, if sel p c then [memcpy (dst ⊕ (c * P + p) * isz) (src p c) isz] else []))
    (λ pos, p_off dst <= pos < p_off dst + group_bytes geom isz).
Proof using Hok hwl.
  intros (Hd & Hd0 & Hdc) Hsrc HT. pose proof Hok as []. pose proof group_bytes_pos as Hgb.
  assert (∀ p c k, 0 <= p < P → 0 <= c < tW → 0 <= k < isz → 0 <= (c * P + p) * isz + k < group_bytes geom isz) as Hin
    by (intros p c k Hp Hc Hk; unfold group_bytes, group_elems; by apply join_pos3).
  apply (does_zero_then _ _ _ _ _ _ _ (λ pos, ∃ p, 0 <= p < P ∧ ∃ c, 0 <= c < tW ∧ sel p c = true ∧
    p_off dst + (c * P + p) * isz <= pos < p_off dst + (c * P + p) * isz + isz)); [lia|done|..].
  - apply does_range. intros p Hp. apply does_range. intros c Hc. apply does_if. intros Hs.
    pose proof (Hin p c 0 Hp Hc ltac:(lia)) as H0. pose proof (Hin p c (isz - 1) Hp Hc ltac:(lia)) as H1.
    apply does_memcpy; [lia|split_and!; [done|cbn; lia|cbn; lia]|by apply Hsrc|]. intros k Hk. cbn. rewrite <- Z.add_assoc.
    pose proof (HT p c k Hp Hc Hk) as Ht. by rewrite Hs in Ht.
  - intros j Hj Hno. destruct (split_pos3 j tW P isz) as (c & p & k & Hc & Hp & Hk & ->); [done|done|done|].
    pose proof (HT p c k Hp Hc Hk) as Ht. destruct (sel p c) eqn:Es; [|done]. destruct Hno. exists p. split; [done|]. exists c. split_and!; try done; lia.
Qed.

(** A full group, [tW] elements per row. *)
Lemma does_full_group T src dst g :
  group_of P isz → in_dst w cap dst (group_bytes geom isz) → in_src w M0 src ((g + 1) * group_bytes geom isz) → 0 <= g →
  (∀ p c k, 0 <= p < P → 0 <= c < tW → 0 <= k < isz →
     T (p_off dst + ((c * P + p) * isz + k)) (src_byte M0 src (line_element g p c * isz + k))) →
  does w M0 cap T (CopyTilePackedNoPadding P 0 src dst g 0 P tW tW isz)
    (λ pos, p_off dst <= pos < p_off dst + group_bytes geom isz).
Proof using Hok hwl.
  intros Hk (Hd & Hd0 & Hdc) (Hs & Hs0 & Hsc) Hg HT. pose proof Hok as []. unfold group_bytes, group_elems in *.
  assert (P / P = 1) as EP by (apply Z.div_same; lia). apply does_tile_copy; try done.
  - apply Z.mod_same. lia.
  - by left.
  - intros r Hr. unfold tile_row_ptr. split_and!; [done|cbn; nia|cbn].
    assert (((g * P + r) * tW + 0 * tW) * isz + tW * isz <= (g + 1) * (P * tW * isz)); [|lia].
    replace (((g * P + r) * tW + 0 * tW) * isz + tW * isz) with ((g * P + r + 1) * (tW * isz)) by ring.
    replace ((g + 1) * (P * tW * isz)) with ((g + 1) * P * (tW * isz)) by ring. apply Z.mul_le_mono_nonneg_r; nia.
  - intros g' p c k Hg' Hp Hc Hkk. assert (g' = 0) as -> by lia. pose proof (HT p c k Hp Hc Hkk) as Ht. unfold src_byte, tile_row_ptr, line_element in *.
    cbn [p_off p_buf shift]. by_ring Ht.
Qed.
Lemma does_full_group_back T src dst g :
  group_of P isz → in_src w M0 src (group_bytes geom isz) → in_dst w cap dst ((g + 1) * group_bytes geom isz) → 0 <= g →
  (∀ p c k, 0 <= p < P → 0 <= c < tW → 0 <= k < isz →
     T (p_off dst + (line_element g p c * isz + k)) (src_byte M0 src ((c * P + p) * isz + k))) →
  does w M0 cap T (DetileSingleTilePackedNoPadding P 0 src dst g 0 P tW tW isz)
    (λ pos, ∃ p c k, 0 <= p < P ∧ 0 <= c < tW ∧ 0 <= k < isz ∧ pos = p_off dst + (line_element g p c * isz + k)).
Proof using Hok hwl.
  intros Hk (Hs & Hs0 & Hsc) (Hd & Hd0 & Hdc) Hg HT. pose proof Hok as []. unfold group_bytes, group_elems in *.
  assert (P / P = 1) as EP by (apply Z.div_same; lia).
  eapply does_weaken; [apply (does_tile_detile w M0 cap T P P tW tW isz) with (H := (g + 1) * P); try done|].
  - apply Z.mod_same. lia.
  - by left.
  - lia.
  - intros r Hr. unfold tile_row_ptr. split_and!; [done|cbn; nia|cbn].
    assert (((g * P + r) * tW + 0 * tW) * isz + tW * isz <= (g + 1) * (P * tW * isz)); [|lia].
    replace (((g * P + r) * tW + 0 * tW) * isz + tW * isz) with ((g * P + r + 1) * (tW * isz)) by ring.
    replace ((g + 1) * (P * tW * isz)) with ((g + 1) * P * (tW * isz)) by ring. apply Z.mul_le_mono_nonneg_r; nia.
  - intros g' p c k Hg' Hp Hc Hkk _ _. assert (g' = 0) as -> by lia. pose proof (HT p c k Hp Hc Hkk) as Ht. unfold src_byte, tile_row_ptr, line_element in *.
    cbn [p_off p_buf shift]. by_ring Ht.
  - intros pos (p & c & k & Hp & Hc & Hkk & ->). exists p. split; [done|]. unfold row_part, tile_row_ptr, line_element. cbn [p_off shift].
    pose proof (join_pos c k tW isz Hc Hkk). lia.
Qed.
End copies.
End line.

(** ** The programs *)
Definition flat_line (W n isz : Z) (S : bytes) (pos v : Z) : Prop :=
  ∃ e k, 0 <= e < n ∧ 0 <= k < isz ∧ pos = e * isz + k ∧ v = line_value W isz S e k.
Section programs.
Context {xla : Xla} {hw : Highway} {hwl : HighwayLaws} (w bs : Buffer) (M0 : Memory) (cap : Z) (Hbs : bs ≠ w).
Context (shape : Shape) (layout : Layout).
Abbreviation S := (buffer bs M0).
Abbreviation W := (dim (dimensions shape) 0).
Abbreviation isz := (ByteSizeOfPrimitiveType (element_type shape)).
Context (HW : 0 <= W) (Hisz : 0 < isz).

Section unpacked.
Abbreviation total := (physical_elements W (dim (tile_at layout 0) 0)).
Context (Hlast : tile_rank (last_tile layout) 1 = true) (Htotal : W <= total).
(** The zeros behind the elements. *)
Lemma does_line_padding :
  total * isz <= cap →
  does w M0 cap (λ pos v, flat_line W total isz S pos v ∧ W * isz <= pos < total * isz)
    (if W <? total then ZeroRowHighway (mkPtr w 0 ⊕ W * isz) ((total - W) * isz) else [])
    (λ pos, W * isz <= pos < total * isz).
Proof using HW Hisz hwl.
  intros Hcap. eapply does_weaken; [apply does_if; intros Hlt%Z.ltb_lt; apply does_zero_row; cbn [p_off shift]|].
  - nia.
  - split_and!; [done|cbn; nia|cbn; nia].
  - intros j Hj. destruct (split_pos j (total - W) isz) as (e & k & He & Hk & ->); [done..|]. split; [|nia]. exists (W + e), k.
    unfold line_value. rewrite (proj2 (Z.ltb_ge _ W)) by lia. split_and!; try lia; done.
  - intros pos Hp. split; [apply Z.ltb_lt, (Z.mul_lt_mono_pos_r isz); lia|]. cbn [p_off shift]. lia.
Qed.
Lemma unpacked_1d_does :
  total * isz <= cap → W * isz <= blen S →
  does w M0 cap (flat_line W total isz S) (TileBuffer1DOptimized (mkPtr bs 0) (mkPtr w 0) shape layout) (λ pos, 0 <= pos < total * isz).
Proof using HW Hisz hwl Hlast Htotal Hbs.
  intros Hcap HS. unfold TileBuffer1DOptimized. rewrite Hlast.
  eapply does_weaken; [apply does_app; [apply does_if; intros Hlt%Z.ltb_lt; apply does_memcpy|eapply does_mono; [by apply does_line_padding|by intros pos v []]]|].
  - nia.
  - split_and!; [done|done|cbn; nia].
  - split_and!; [done|done|cbn; lia].
  - intros j Hj. destruct (split_pos j W isz) as (e & k & He & Hk & ->); [done..|]. exists e, k.
    unfold line_value. rewrite (proj2 (Z.ltb_lt _ W)) by lia. split_and!; try lia; done.
  - intros pos Hp. cbn [p_off]. destruct (decide (pos < W * isz)); [left; split; [apply Z.ltb_lt; nia|lia]|right; lia].
Qed.
Lemma unpacked_1d_back :
  W * isz <= cap → total * isz <= blen S →
  does w M0 cap (λ pos v, v = byte_at S pos ∧ 0 <= pos < W * isz) (DetileBuffer1DOptimized (mkPtr bs 0) (mkPtr w 0) shape layout) (λ pos, 0 <= pos < W * isz).
Proof using HW Hisz Hlast Htotal Hbs.
  intros Hcap HS. unfold DetileBuffer1DOptimized. rewrite Hlast.
  eapply does_weaken; [apply does_if; intros Hlt%Z.ltb_lt; apply does_memcpy|].
  - nia.
  - split_and!; [done|done|cbn; nia].
  - split_and!; [done|done|cbn; nia].
  - intros k Hk. split; [done|cbn; lia].
  - intros pos Hp. split; [apply Z.ltb_lt; nia|]. cbn. lia.
Qed.
End unpacked.

Section packed.
Abbreviation geom := (ComputePacked1DTileGeometry W layout).
Context (Hlast : tile_rank (last_tile layout) 1 = false) (Hpk : packing (k_P geom) isz) (Hok : line_ok geom W isz).
Lemma dispatch_packed : DispatchByPackingFactor (k_P geom) = k_P geom.
Proof using Hpk. destruct Hpk as [[-> _]|[-> _]]; done. Qed.
Lemma group_in_line g : 0 <= g < k_total_groups geom →
  0 <= g * group_bytes geom isz ∧ g * group_bytes geom isz + group_bytes geom isz <= line_bytes geom isz.
Proof using Hok. intros Hg. pose proof (group_bytes_pos geom W isz Hok). unfold line_bytes. nia. Qed.
Lemma packed_1d_does :
  line_bytes geom isz <= cap → W * isz <= blen S →
  does w M0 cap (tiled_line geom W isz S) (TileBuffer1DOptimized (mkPtr bs 0) (mkPtr w 0) shape layout) (λ pos, 0 <= pos < line_bytes geom isz).
Proof using HW hwl Hisz Hbs Hlast Hpk Hok.
  intros Hcap HS. unfold TileBuffer1DOptimized. rewrite Hlast, dispatch_packed. cbv zeta. set (G := geom) in *. pose proof Hok as [].
  pose proof (group_bytes_pos G W isz Hok) as Hgb.
  eapply does_weaken; [apply (does_chunks w M0 cap _ 0 (group_bytes G isz)); [done|]|unfold line_bytes; intros pos Hp; cbv beta; lia].
  intros g Hg. destruct (group_in_line g Hg) as [Hg0 Hg1]. fold G in Hg0, Hg1.
  assert (in_dst w cap (mkPtr w 0 ⊕ g * group_bytes G isz) (group_bytes G isz)) as Hd by (split_and!; [done|cbn; lia|cbn; lia]).
  assert (∀ p c k, 0 <= p < k_P G → 0 <= c < k_tile_W G → 0 <= k < isz →
    tiled_line G W isz S (0 + g * group_bytes G isz + ((c * k_P G + p) * isz + k)) (line_value W isz S (line_element G g p c) k)) as HT.
  { intros p c k Hp Hc Hk. exists g, p, c, k. split; [done|]. split; [|done]. rewrite line_cell_eq. ring. }
  assert (∀ p c k, 0 <= p < k_P G → 0 <= c < k_tile_W G → 0 <= k < isz →
    g * group_elems G <= line_element G g p c < g * group_elems G + group_elems G) as Hel.
  { intros p c k Hp Hc Hk. unfold line_element, group_elems. pose proof (join_pos p c (k_P G) (k_tile_W G) Hp Hc). lia. }
  destruct (Z.leb_spec (g * group_elems G + group_elems G) W) as [Hfull|Hpart]; [|destruct (Z.leb_spec W (g * group_elems G)) as [Hout|Hin]].
  - eapply does_weaken; [apply (does_full_group G W isz Hok); try done|cbn [p_off shift]; intros pos Hp; lia].
    + by right.
    + split_and!; [done|done|cbn]. assert ((g + 1) * group_bytes G isz <= W * isz); [|lia]. unfold group_bytes. nia.
    + lia.
    + intros p c k Hp Hc Hk. pose proof (HT p c k Hp Hc Hk) as Ht. unfold line_value in Ht. pose proof (Hel p c k Hp Hc Hk).
      rewrite (proj2 (Z.ltb_lt _ W)) in Ht by lia. done.
  - eapply does_weaken; [apply does_zero_row; [lia|done|]|cbn [p_off shift]; intros pos Hp; lia]. intros j Hj. cbn [p_off shift].
    destruct (split_pos3 j (k_tile_W G) (k_P G) isz) as (c & p & k & Hc & Hp & Hk & ->); [done|done|done|].
    pose proof (HT p c k Hp Hc Hk) as Ht. unfold line_value in Ht. pose proof (Hel p c k Hp Hc Hk). rewrite (proj2 (Z.ltb_ge _ W)) in Ht by lia. done.
  - eapply does_weaken; [apply (does_group_elements G W isz Hok w M0 cap _ _ (λ p c, (g * k_P G + p) * k_tile_W G + c <? W)
      (λ p c, mkPtr bs 0 ⊕ ((g * k_P G + p) * k_tile_W G + c) * isz)); [done|..]|cbn [p_off shift]; intros pos Hp; lia].
    + intros p c Hp Hc Hs%Z.ltb_lt. split_and!; [done|cbn; nia|cbn; nia].
    + intros p c k Hp Hc Hk. exact (HT p c k Hp Hc Hk).
Qed.
Lemma packed_1d_back :
  W * isz <= cap → line_bytes geom isz <= blen S →
  does w M0 cap (untiled_line geom W isz S) (DetileBuffer1DOptimized (mkPtr bs 0) (mkPtr w 0) shape layout) (λ pos, 0 <= pos < W * isz).
Proof using HW hwl Hisz Hbs Hlast Hpk Hok.
  intros Hcap HS. unfold DetileBuffer1DOptimized. rewrite Hlast, dispatch_packed. cbv zeta. set (G := geom) in *. pose proof Hok as [].
  eapply does_weaken; [apply does_bind with (C := λ g pos, ∃ p c k, 0 <= p < k_P G ∧ 0 <= c < k_tile_W G ∧ 0 <= k < isz ∧
    line_element G g p c < W ∧ pos = line_element G g p c * isz + k)|].
  - intros g [Hgw Hg%elem_of_seqZ]%list_elem_of_filter. destruct (group_in_line g ltac:(fold G; lia)) as [Hg0 Hg1]. fold G in Hg0, Hg1.
    assert (∀ p c k, 0 <= p < k_P G → 0 <= c < k_tile_W G → 0 <= k < isz → line_element G g p c < W →
      untiled_line G W isz S (line_element G g p c * isz + k) (byte_at S (0 + g * group_bytes G isz + ((c * k_P G + p) * isz + k)))) as HT.
    { intros p c k Hp Hc Hk Hlt. exists g, p, c, k. split; [split_and!; lia|]. split_and!; try done. rewrite line_cell_eq. f_equal. }
    destruct (Z.leb_spec (g * group_elems G + group_elems G) W) as [Hfull|Hpart].
    + eapply does_weaken; [apply (does_full_group_back G W isz Hok w M0 cap); try done|].
      * by right.
      * split_and!; [done|cbn; lia|cbn; lia].
      * split_and!; [done|done|cbn]. assert ((g + 1) * group_bytes G isz <= W * isz); [|lia]. unfold group_bytes. nia.
      * lia.
      * intros p c k Hp Hc Hk. cbn [p_off]. rewrite Z.add_0_l. apply HT; try done. unfold line_element, group_elems in *.
        pose proof (join_pos p c (k_P G) (k_tile_W G) Hp Hc). lia.
      * intros pos (p & c & k & Hp & Hc & Hk & Hlt & ->). exists p, c, k. cbn [p_off]; split_and!; lia.
    + eapply does_weaken; [apply does_range; intros p Hp; apply does_range; intros c Hc; apply does_if; intros Hs%Z.ltb_lt; apply does_memcpy|].
      * lia.
      * split_and!; [done|cbn; nia|cbn; nia].
      * pose proof (cell_in_group G isz g p c 0 ltac:(split_and!; lia)). pose proof (cell_in_group G isz g p c (isz - 1) ltac:(split_and!; lia)).
        split_and!; [done|cbn; lia|cbn; lia].
      * intros k Hk. unfold src_byte. cbn [p_off p_buf shift]. rewrite Z.add_0_l, <- Z.add_assoc. by apply HT.
      * intros pos (p & c & k & Hp & Hc & Hk & Hlt & ->). exists p. split; [done|]. exists c. split; [done|]. split; [by apply Z.ltb_lt|].
        cbn [p_off shift]. unfold line_element. lia.
  - intros pos Hp. destruct (split_pos pos W isz) as (e & k & He & Hk & ->); [done..|].
    destruct (line_element_cell G W isz Hok e ltac:(lia)) as (g & p & c & Hg & Hpp & Hc & ->). exists g. split.
    + apply list_elem_of_filter. split; [|apply elem_of_seqZ; lia]. unfold line_element, group_elems in *. pose proof (join_pos p c (k_P G) (k_tile_W G) Hpp Hc). lia.
    + exists p, c, k. split_and!; lia.
Qed.
End packed.
End programs.
