(* ===== verification/TilingColMajor.v ===== *)
(** * TilingColMajor: column-major tensors, tile by tile
    (the column-major paths of src/tpu_sync/weight_sync/tiling_utils.cc)

    The rows of the matrix are the stride-one dimension of the linear tensor.  The
    packed unit of [P] elements is contiguous on both sides, so that tiles move by
    words, in squares of words through the vector registers where there is a
    transposition for their size. *)

From S2P Require Import Prelude TileMemory Highway TilingUtils TilingTiles TilingParallel TilingRowMajor.

Lemma word_columns_spec {hw : Highway} G tW u :
  0 < tW →
  let v := word_columns u G tW in
  v = 0 ∨ ((G = 4 ∧ u = 4) ∨ (G = 8 ∧ u = 2)) ∧ v = tW / G * G ∧ v <= tW ∧ 0 <= v.
Proof.
  intros HtW. cbv zeta. unfold word_columns. destruct (negb hwy_scalar); [|by left].
  destruct ((G =? 4) && (u =? 4)) eqn:E4; [|destruct ((G =? 8) && (u =? 2)) eqn:E8; [|by left]]; right.
  - apply andb_true_iff in E4 as [->%Z.eqb_eq ->%Z.eqb_eq]. split_and!; [by left|done|Z.div_mod_to_equations; lia|Z.div_mod_to_equations; lia].
  - apply andb_true_iff in E8 as [->%Z.eqb_eq ->%Z.eqb_eq]. split_and!; [by right|done|Z.div_mod_to_equations; lia|Z.div_mod_to_equations; lia].
Qed.

Section words.
Context {hw : Highway} {hwl : HighwayLaws} (w : Buffer) (M0 : Memory) (cap : Z) (T : Z → Z → Prop).
Implicit Types (src dst : Ptr).

(** One square of words through the registers. *)
Lemma does_square N u (rowp colp : Z → Ptr) :
  (N = 4 ∧ u = 4) ∨ (N = 8 ∧ u = 2) →
  (∀ i, 0 <= i < N → in_src w M0 (rowp i) 16) → (∀ g, 0 <= g < N → in_dst w cap (colp g) 16) →
  (∀ i g k, 0 <= i < N → 0 <= g < N → 0 <= k < u → T (p_off (colp g) + (i * u + k)) (src_byte M0 (rowp i) (g * u + k))) →
  does w M0 cap T [if N =? 4 then Transpose4x4U32 (rowp <$> seqZ 0 N) (colp <$> seqZ 0 N) else Transpose8x8U16 (rowp <$> seqZ 0 N) (colp <$> seqZ 0 N)]
    (λ pos, ∃ g, 0 <= g < N ∧ p_off (colp g) <= pos < p_off (colp g) + 16).
Proof using hwl.
  intros HN Hr Hc HT. assert (∃ f, transposes (Z.to_nat N) u f ∧
    [if N =? 4 then Transpose4x4U32 (rowp <$> seqZ 0 N) (colp <$> seqZ 0 N) else Transpose8x8U16 (rowp <$> seqZ 0 N) (colp <$> seqZ 0 N)] =
    [Op ((λ r, (r, 16)) <$> (rowp <$> seqZ 0 N)) f ((λ c, (c, 16)) <$> (colp <$> seqZ 0 N))]) as (f & Hf & ->).
  { destruct HN as [[-> ->]|[-> ->]]; [exists transpose4x4|exists transpose8x8]; split; try done; [apply transpose4x4_spec|apply transpose8x8_spec]. }
  eapply does_weaken; [apply (does_transpose w M0 cap T (Z.to_nat N) u)|].
  - done.
  - lia.
  - lia.
  - by rewrite length_fmap, length_seqZ.
  - by rewrite length_fmap, length_seqZ.
  - apply Forall_fmap, Forall_forall. intros i Hi%elem_of_seqZ. apply Hr. lia.
  - apply Forall_fmap, Forall_forall. intros i Hi%elem_of_seqZ. apply Hr. lia.
  - apply Forall_fmap, Forall_forall. intros i Hi%elem_of_seqZ. apply Hc. lia.
  - intros i j r c k (i' & -> & [-> Hi]%lookup_seqZ)%list_lookup_fmap_Some (j' & -> & [-> Hj]%lookup_seqZ)%list_lookup_fmap_Some Hk.
    rewrite !Z.add_0_l. apply HT; lia.
  - intros pos (g & Hg & Hp). exists (colp g). split; [|done]. apply list_elem_of_fmap. exists g. split; [done|]. apply elem_of_seqZ. lia.
Qed.

(** The words of a tile: group [g], column [c]. *)
Context (G tW u stride : Z) (HG : 0 <= G) (HtW : 0 < tW) (Hu : 0 < u).
Lemma word_columns_bounds :
  let v := word_columns u G tW in
  0 <= v <= tW ∧ 0 <= v / G ∧ v / G * G = v ∧ (v ≠ 0 → (G = 4 ∧ u = 4) ∨ (G = 8 ∧ u = 2)).
Proof using HtW.
  pose proof (word_columns_spec G tW u HtW) as Hs. cbv zeta in *. revert Hs. generalize (word_columns u G tW) as v. intros v [E|(HG' & E & Hle & H0)].
  - rewrite E, Zdiv_0_l. split_and!; lia.
  - assert (0 < G) by lia. pose proof (Z.div_mul (tW / G) G ltac:(lia)) as Hdm. rewrite <- E in Hdm.
    pose proof (Z.div_pos tW G ltac:(lia) ltac:(lia)). rewrite Hdm. split_and!; lia.
Qed.
Lemma word_bounds g c : 0 <= g < G → 0 <= c < tW → 0 <= (g * tW + c) * u ∧ (g * tW + c) * u + u <= G * tW * u.
Proof using HG HtW Hu. intros Hg Hc. pose proof (join_pos g c G tW Hg Hc). nia. Qed.
Lemma words_cover (dst : Ptr) pos : p_off dst <= pos < p_off dst + G * tW * u →
  ∃ g c j, 0 <= g < G ∧ 0 <= c < tW ∧ 0 <= j < u ∧ pos = p_off dst + ((g * tW + c) * u + j).
Proof using HG HtW Hu.
  intros Hp. destruct (split_pos (pos - p_off dst) (G * tW) u) as (q & j & Hq & Hj & E); [done|lia|].
  destruct (split_pos q G tW) as (g & c & Hg & Hc & ->); [done..|]. exists g, c, j. split_and!; lia.
Qed.

(** Into the tile at [dst], from columns [stride] bytes apart. *)
Section into.
Context (src dst : Ptr) (Hdst : in_dst w cap dst (G * tW * u)) (Hsrc : ∀ c, 0 <= c < tW → in_src w M0 (src ⊕ c * stride) (G * u)).
Context (HT : ∀ g c j, 0 <= g < G → 0 <= c < tW → 0 <= j < u →
  T (p_off dst + ((g * tW + c) * u + j)) (src_byte M0 src (c * stride + (g * u + j)))).
Lemma does_word g c d s :
  0 <= g < G → 0 <= c < tW → d = dst ⊕ (g * tW + c) * u → s = src ⊕ (c * stride + g * u) →
  does w M0 cap T [memcpy d s u] (λ pos, p_off dst + (g * tW + c) * u <= pos < p_off dst + (g * tW + c) * u + u).
Proof using HG HtW Hu Hdst Hsrc HT.
  intros Hg Hc -> ->. destruct (word_bounds g c Hg Hc) as [H0 H1]. destruct Hdst as (Hd & Hd0 & Hdc). destruct (Hsrc c Hc) as (Hs & Hs0 & Hsc).
  cbn in Hs, Hs0, Hsc. assert (g * u + u <= G * u) by nia. apply does_memcpy; [lia|split_and!; [done|cbn; lia|cbn; lia]|split_and!; [done|cbn; nia|cbn; nia]|].
  intros j Hj. pose proof (HT g c j Hg Hc Hj) as Ht. unfold src_byte in *. cbn. by_ring Ht.
Qed.
Lemma does_words_into :
  does w M0 cap T
    ((seqZ 0 (word_columns u G tW / G) ≫= λ j,
        let c := j * G in
        let rows := (λ i, src ⊕ c * stride ⊕ i * stride) <$> seqZ 0 G in
        let cols := (λ g, dst ⊕ g * (tW * u) ⊕ c * u) <$> seqZ 0 G in
        [if G =? 4 then Transpose4x4U32 rows cols else Transpose8x8U16 rows cols]) ++
     (seqZ (word_columns u G tW) (tW - word_columns u G tW) ≫= λ c, copy_words u G tW (src ⊕ c * stride) dst c))
    (λ pos, p_off dst <= pos < p_off dst + G * tW * u).
Proof using hwl HG HtW Hu Hdst Hsrc HT.
  destruct word_columns_bounds as (Hv & Hv0 & HvG & Hsq). set (v := word_columns u G tW) in *.
  clearbody v. eapply does_weaken; [apply does_app; [apply does_range|apply does_range_from]|].
  - intros j Hj. cbv zeta. assert (v ≠ 0) as Hne by (intros E; rewrite E, Zdiv_0_l in Hj; lia). specialize (Hsq Hne). assert (0 <= j * G ∧ j * G + G <= v) as [Hj0 Hj1] by nia.
    assert (G * u = 16) as H16 by lia. eapply (does_square G u (λ i, src ⊕ j * G * stride ⊕ i * stride) (λ g, dst ⊕ g * (tW * u) ⊕ j * G * u)).
    + done.
    + intros i Hi. pose proof (Hsrc (j * G + i) ltac:(lia)) as Hs. rewrite H16 in Hs. destruct Hs as (Hs & Hs0 & Hsc). cbn in *. split_and!; [done|cbn; lia|cbn; lia].
    + intros g Hg. destruct (word_bounds g (j * G) Hg ltac:(lia)) as [H0 _]. destruct (word_bounds g (j * G + G - 1) Hg ltac:(lia)) as [_ H1].
      destruct Hdst as (Hd & Hd0 & Hdc). split_and!; [done|cbn; lia|cbn; lia].
    + intros i g k Hi Hg Hk. pose proof (HT g (j * G + i) k Hg ltac:(lia) Hk) as Ht. unfold src_byte in *. cbn [p_off p_buf shift]. by_ring Ht.
  - intros c Hc. unfold copy_words. apply does_range. intros g Hg. apply (does_word g c); [lia|lia|..]; unfold shift; cbn; f_equal; ring.
  - intros pos Hp. destruct (words_cover dst pos Hp) as (g & c & k & Hg & Hc & Hk & ->). cbn [p_off shift].
    destruct (decide (c < v)) as [Hlt|Hge].
    + left. assert (v ≠ 0) as Hne by lia. specialize (Hsq Hne). destruct (split_pos c (v / G) G) as (j & i & Hj & Hi & ->); [lia|lia|].
      exists j. split; [done|]. exists g. split; [done|]. cbn [p_off shift]. assert (0 <= i * u + k < G * u) by (apply join_pos; lia). assert (G * u = 16) by lia. lia.
    + right. exists c. split; [lia|]. exists g. split; [done|]. lia.
Qed.
End into.

(** Out of the tile at [src], to columns [stride] bytes apart. *)
Section out_of.
Context (src dst : Ptr) (Hsrc : in_src w M0 src (G * tW * u)) (Hdst : ∀ c, 0 <= c < tW → in_dst w cap (dst ⊕ c * stride) (G * u)).
Context (HT : ∀ g c j, 0 <= g < G → 0 <= c < tW → 0 <= j < u →
  T (p_off dst + (c * stride + (g * u + j))) (src_byte M0 src ((g * tW + c) * u + j))).
Definition column_part (g c pos : Z) : Prop := p_off dst + (c * stride + g * u) <= pos < p_off dst + (c * stride + g * u) + u.
Lemma does_word_back g c d s :
  0 <= g < G → 0 <= c < tW → d = dst ⊕ (c * stride + g * u) → s = src ⊕ (g * tW + c) * u →
  does w M0 cap T [memcpy d s u] (column_part g c).
Proof using HG HtW Hu Hdst Hsrc HT.
  intros Hg Hc -> ->. destruct (word_bounds g c Hg Hc) as [H0 H1]. destruct Hsrc as (Hs & Hs0 & Hsc). destruct (Hdst c Hc) as (Hd & Hd0 & Hdc).
  cbn in Hd, Hd0, Hdc. assert (g * u + u <= G * u) by nia. apply does_memcpy; [lia|split_and!; [done|cbn; nia|cbn; nia]|split_and!; [done|cbn; lia|cbn; lia]|].
  intros j Hj. pose proof (HT g c j Hg Hc Hj) as Ht. unfold src_byte in *. cbn. by_ring Ht.
Qed.
Lemma does_words_out :
  does w M0 cap T
    ((seqZ 0 (word_columns u G tW / G) ≫= λ j,
        let c := j * G in
        let rows := (λ g, src ⊕ g * (tW * u) ⊕ c * u) <$> seqZ 0 G in
        let cols := (λ i, dst ⊕ c * stride ⊕ i * stride) <$> seqZ 0 G in
        [if G =? 4 then Transpose4x4U32 rows cols else Transpose8x8U16 rows cols]) ++
     (seqZ (word_columns u G tW) (tW - word_columns u G tW) ≫= λ c, seqZ 0 G ≫= λ g,
        [memcpy (dst ⊕ c * stride ⊕ g * u) (src ⊕ g * (tW * u) ⊕ c * u) u]))
    (λ pos, ∃ c, 0 <= c < tW ∧ ∃ g, 0 <= g < G ∧ column_part g c pos).
Proof using hwl HG HtW Hu Hdst Hsrc HT.
  destruct word_columns_bounds as (Hv & Hv0 & HvG & Hsq). set (v := word_columns u G tW) in *.
  clearbody v. eapply does_weaken; [apply does_app; [apply does_range|apply does_range_from]|].
  - intros j Hj. cbv zeta. assert (v ≠ 0) as Hne by (intros E; rewrite E, Zdiv_0_l in Hj; lia). specialize (Hsq Hne). assert (0 <= j * G ∧ j * G + G <= v) as [Hj0 Hj1] by nia.
    assert (G * u = 16) as H16 by lia. eapply (does_square G u (λ g, src ⊕ g * (tW * u) ⊕ j * G * u) (λ i, dst ⊕ j * G * stride ⊕ i * stride)).
    + done.
    + intros g Hg. destruct (word_bounds g (j * G) Hg ltac:(lia)) as [H0 _]. destruct (word_bounds g (j * G + G - 1) Hg ltac:(lia)) as [_ H1].
      destruct Hsrc as (Hs & Hs0 & Hsc). split_and!; [done|cbn; lia|cbn; lia].
    + intros i Hi. pose proof (Hdst (j * G + i) ltac:(lia)) as Hd. rewrite H16 in Hd. destruct Hd as (Hd & Hd0 & Hdc). cbn in *. split_and!; [done|cbn; lia|cbn; lia].
    + intros g i k Hg Hi Hk. pose proof (HT g (j * G + i) k Hg ltac:(lia) Hk) as Ht. unfold src_byte in *. cbn [p_off p_buf shift]. by_ring Ht.
  - intros c Hc. apply does_range. intros g Hg. apply (does_word_back g c); [lia|lia|..]; unfold shift; cbn; f_equal; ring.
  - intros pos (c & Hc & g & Hg & Hp). unfold column_part in Hp. cbn [p_off shift].
    destruct (decide (c < v)) as [Hlt|Hge].
    + left. assert (v ≠ 0) as Hne by lia. specialize (Hsq Hne). destruct (split_pos c (v / G) G) as (j & i & Hj & Hi & ->); [lia|lia|].
      exists j. split; [done|]. exists i. split; [done|]. cbn [p_off shift]. assert (g * u + u <= G * u) by nia. assert (0 <= g * u) by nia. assert (G * u = 16) by lia. lia.
    + right. exists c. split; [lia|]. exists g. split; [done|]. done.
Qed.
End out_of.
End words.

(** ** One tile *)
Lemma clamp_lt a t x : 0 < t → 0 <= x < clamp a 0 t ↔ 0 <= x < t ∧ x < a.
Proof. unfold clamp. lia. Qed.
Section tile.
Context {hw : Highway} {hwl : HighwayLaws} (w : Buffer) (M0 : Memory) (cap : Z) (T : Z → Z → Prop).
Context (P tH tW H W isz : Z) (HP : 0 < P) (HtH : tH `mod` P = 0) (HtH0 : 0 < tH) (HtW : 0 < tW) (Hisz : 0 < isz).
Implicit Types (src dst : Ptr).
(** Element (row [r], column [c]) of tile ([tr], [tc]) in the linear matrix. *)
Definition col_offset (tr tc r c : Z) : Z := ((tc * tW + c) * H + (tr * tH + r)) * isz.
Lemma col_groups : tH / P * P = tH.
Proof using HP HtH. pose proof (Z.div_mod tH P ltac:(lia)). lia. Qed.
Lemma col_words : tH / P * tW * (P * isz) = tH * tW * isz.
Proof using HP HtH. replace (tH / P * tW * (P * isz)) with (tH / P * P * tW * isz) by ring. by rewrite col_groups. Qed.

Lemma does_col_copy src dst tr tc :
  in_dst w cap dst (tH * tW * isz) → (∀ c, 0 <= c < tW → in_src w M0 (src ⊕ col_offset tr tc 0 c) (tH * isz)) →
  tile_holds T P tH tW isz dst (λ r c k, src_byte M0 src (col_offset tr tc r c + k)) →
  does w M0 cap T (CopyTileColMajorNoPadding src dst tr tc tH tW H isz P) (λ pos, p_off dst <= pos < p_off dst + tH * tW * isz).
Proof using hwl HP HtH HtH0 HtW Hisz.
  intros Hd Hs HT. pose proof (Z.div_pos tH P ltac:(lia) HP) as HG. assert (0 < P * isz) as Hu by nia. rewrite <- col_words in Hd |- *.
  assert (∀ c, 0 <= c < tW → in_src w M0 (src ⊕ (tc * tW * H + tr * tH) * isz ⊕ c * (H * isz)) (tH / P * (P * isz))) as Hs'.
  { intros c Hc. rewrite (Z.mul_assoc (tH / P)), col_groups. destruct (Hs c Hc) as (? & ? & ?). unfold col_offset in *. cbn in *. split_and!; [done|cbn; lia|cbn; lia]. }
  assert (∀ g c j, 0 <= g < tH / P → 0 <= c < tW → 0 <= j < P * isz → T (p_off dst + ((g * tW + c) * (P * isz) + j))
    (src_byte M0 (src ⊕ (tc * tW * H + tr * tH) * isz) (c * (H * isz) + (g * (P * isz) + j)))) as HT'.
  { intros g c j Hg Hc Hj. destruct (split_pos j P isz) as (p & k & Hp & Hk & ->); [done..|]. pose proof (HT g p c k Hg Hp Hc Hk) as Ht.
    unfold src_byte, col_offset in *. cbn [p_off p_buf shift]. by_ring Ht. }
  unfold CopyTileColMajorNoPadding. destruct (existsb _ _).
  - by apply does_words_into.
  - eapply does_weaken; [apply does_range; intros c Hc; apply does_range; intros g Hg|].
    + apply (does_word w M0 cap T (tH / P) tW (P * isz) (H * isz)) with (g := g) (c := c) (src := src ⊕ (tc * tW * H + tr * tH) * isz); try done.
      unfold shift. cbn. f_equal. ring.
    + intros pos Hp. destruct (words_cover (tH / P) tW (P * isz) HG HtW Hu dst pos Hp) as (g & c & j & Hg & Hc & Hj & ->).
      exists c. split; [done|]. exists g. split; [done|]. lia.
Qed.
(** The position of an element in the tile, as the padded copiers compute it. *)
Lemma packed_position r c : 0 <= r < tH → 0 <= c < tW →
  ∃ g p, 0 <= g < tH / P ∧ 0 <= p < P ∧ r = g * P + p ∧ (r / P * tW + c) * P + r `mod` P = (g * tW + c) * P + p ∧
    0 <= ((g * tW + c) * P + p) * isz ∧ ((g * tW + c) * P + p) * isz + isz <= tH * tW * isz.
Proof using HP HtH HtW Hisz.
  intros Hr Hc. destruct (split_pos r (tH / P) P) as (g & p & Hg & Hp & ->); [done|by rewrite col_groups|]. exists g, p.
  destruct (digits g P p Hp) as [-> ->]. split_and!; try lia; pose proof (join_pos3 c p 0 tW P isz Hc Hp ltac:(lia)) as H0;
    pose proof (join_pos3 c p (isz - 1) tW P isz Hc Hp ltac:(lia)) as H1; rewrite <- col_words; nia.
Qed.
Definition col_padded src (tr tc r c k : Z) : Z :=
  if (tr * tH + r <? H) && (tc * tW + c <? W) then src_byte M0 src (col_offset tr tc r c + k) else 0.
Lemma does_col_pad src dst tr tc :
  in_dst w cap dst (tH * tW * isz) →
  (∀ r c, 0 <= r < tH → 0 <= c < tW → tr * tH + r < H → tc * tW + c < W → in_src w M0 (src ⊕ col_offset tr tc r c) isz) →
  tile_holds T P tH tW isz dst (col_padded src tr tc) →
  does w M0 cap T (CopyTileColMajorWithPadding src dst tr tc tH tW H W isz P (tH * tW * isz)) (λ pos, p_off dst <= pos < p_off dst + tH * tW * isz).
Proof using hwl HP HtH HtH0 HtW Hisz.
  intros Hd Hs HT. unfold CopyTileColMajorWithPadding. set (vH := clamp (H - tr * tH) 0 tH). set (vW := clamp (W - tc * tW) 0 tW).
  assert (∀ r, 0 <= r < vH ↔ 0 <= r < tH ∧ tr * tH + r < H) as HvH by (intros r; unfold vH; rewrite clamp_lt by done; lia).
  assert (∀ c, 0 <= c < vW ↔ 0 <= c < tW ∧ tc * tW + c < W) as HvW by (intros c; unfold vW; rewrite clamp_lt by done; lia).
  clearbody vH vW. destruct Hd as (Hd & Hd0 & Hdc).
  apply (does_zero_then w M0 cap T _ _ _ (λ pos, ∃ c, 0 <= c < vW ∧ ∃ r, 0 <= r < vH ∧
    p_off dst + ((r / P * tW + c) * P + r `mod` P) * isz <= pos < p_off dst + ((r / P * tW + c) * P + r `mod` P) * isz + isz)); [nia|done|..].
  - destruct ((vH <=? 0) || (vW <=? 0)) eqn:E; [apply does_nil; intros pos (c & Hc & r & Hr & _); apply orb_true_iff in E as [E%Z.leb_le|E%Z.leb_le]; lia|].
    apply does_range. intros c [Hc Hcw]%HvW. apply does_range. intros r [Hr Hrh]%HvH.
    destruct (packed_position r c Hr Hc) as (g & p & Hg & Hp & -> & -> & H0 & H1). cbv zeta.
    assert (src ⊕ ((tc * tW + c) * H + tr * tH) * isz ⊕ (g * P + p) * isz = src ⊕ col_offset tr tc (g * P + p) c) as ->
      by (unfold shift, col_offset; cbn; f_equal; ring).
    apply does_memcpy; [lia|split_and!; [done|cbn; lia|cbn; lia]|by apply Hs|]. intros k Hk. pose proof (HT g p c k Hg Hp Hc Hk) as Ht.
    unfold col_padded in Ht. rewrite (proj2 (Z.ltb_lt _ H)), (proj2 (Z.ltb_lt _ W)) in Ht by done. unfold src_byte in *. cbn in *. by_ring Ht.
  - intros j Hj Hno. rewrite <- col_words in Hj. destruct (split_pos j (tH / P * tW) (P * isz)) as (q & j' & Hq & Hj' & ->); [nia|done|].
    destruct (split_pos q (tH / P) tW) as (g & c & Hg & Hc & ->); [done..|]. destruct (split_pos j' P isz) as (p & k & Hp & Hk & ->); [done..|].
    pose proof (HT g p c k Hg Hp Hc Hk) as Ht. pose proof col_groups as Hcg. assert (0 <= g * P + p < tH) as Hr by nia.
    unfold col_padded in Ht. destruct ((tr * tH + (g * P + p) <? H) && (tc * tW + c <? W)) eqn:E.
    + destruct Hno. apply andb_true_iff in E as [E1%Z.ltb_lt E2%Z.ltb_lt]. exists c. split; [by apply HvW|]. exists (g * P + p). split; [by apply HvH|].
      destruct (digits g P p Hp) as [-> ->]. lia.
    + by replace (p_off dst + ((g * tW + c) * (P * isz) + (p * isz + k))) with (p_off dst + (((g * tW + c) * P + p) * isz + k)) by ring.
Qed.

(** Back. *)
Definition cols_hold src dst (tr tc : Z) : Prop :=
  ∀ g p c k, 0 <= g < tH / P → 0 <= p < P → 0 <= c < tW → 0 <= k < isz → tr * tH + (g * P + p) < H → tc * tW + c < W →
    T (p_off dst + (col_offset tr tc (g * P + p) c + k)) (src_byte M0 src (((g * tW + c) * P + p) * isz + k)).
Definition col_part dst (tr tc r c pos : Z) : Prop :=
  p_off dst + col_offset tr tc r c <= pos < p_off dst + col_offset tr tc r c + isz.
Lemma does_col_back src dst tr tc :
  in_src w M0 src (tH * tW * isz) → tr * tH + tH <= H → tc * tW + tW <= W →
  (∀ c, 0 <= c < tW → in_dst w cap (dst ⊕ col_offset tr tc 0 c) (tH * isz)) → cols_hold src dst tr tc →
  does w M0 cap T (DetileSingleTileColMajorNoPadding src dst tr tc tH tW H isz P)
    (λ pos, ∃ r c, 0 <= r < tH ∧ 0 <= c < tW ∧ col_part dst tr tc r c pos).
Proof using hwl HP HtH HtH0 HtW Hisz.
  intros Hs HH HW Hd HT. pose proof (Z.div_pos tH P ltac:(lia) HP) as HG. assert (0 < P * isz) as Hu by nia. rewrite <- col_words in Hs.
  assert (∀ c, 0 <= c < tW → in_dst w cap (dst ⊕ (tc * tW * H + tr * tH) * isz ⊕ c * (H * isz)) (tH / P * (P * isz))) as Hd'.
  { intros c Hc. rewrite (Z.mul_assoc (tH / P)), col_groups. destruct (Hd c Hc) as (? & ? & ?). unfold col_offset in *. cbn in *. split_and!; [done|cbn; lia|cbn; lia]. }
  assert (∀ g c j, 0 <= g < tH / P → 0 <= c < tW → 0 <= j < P * isz →
    T (p_off (dst ⊕ (tc * tW * H + tr * tH) * isz) + (c * (H * isz) + (g * (P * isz) + j))) (src_byte M0 src ((g * tW + c) * (P * isz) + j))) as HT'.
  { intros g c j Hg Hc Hj. destruct (split_pos j P isz) as (p & k & Hp & Hk & ->); [done..|].
    pose proof col_groups as Hcg. assert (g * P + p < tH) as Hr by nia. pose proof (HT g p c k Hg Hp Hc Hk ltac:(lia) ltac:(lia)) as Ht.
    unfold src_byte, col_offset in *. cbn [p_off p_buf shift]. by_ring Ht. }
  unfold DetileSingleTileColMajorNoPadding, DetileSingleTileColMajorUnitsNoPadding. cbv zeta.
  set (base := dst ⊕ (tc * tW * H + tr * tH) * isz) in *.
  assert (does w M0 cap T (if existsb (Z.eqb (P * isz)) [4; 2; 1; 8] then
    (seqZ 0 (word_columns (P * isz) (tH / P) tW / (tH / P)) ≫= λ j,
       [if tH / P =? 4 then Transpose4x4U32 ((λ g, src ⊕ g * (tW * (P * isz)) ⊕ j * (tH / P) * (P * isz)) <$> seqZ 0 (tH / P)) ((λ i, base ⊕ j * (tH / P) * (H * isz) ⊕ i * (H * isz)) <$> seqZ 0 (tH / P))
        else Transpose8x8U16 ((λ g, src ⊕ g * (tW * (P * isz)) ⊕ j * (tH / P) * (P * isz)) <$> seqZ 0 (tH / P)) ((λ i, base ⊕ j * (tH / P) * (H * isz) ⊕ i * (H * isz)) <$> seqZ 0 (tH / P))]) ++
    (seqZ (word_columns (P * isz) (tH / P) tW) (tW - word_columns (P * isz) (tH / P) tW) ≫= λ c, seqZ 0 (tH / P) ≫= λ g,
       [memcpy (base ⊕ c * (H * isz) ⊕ g * (P * isz)) (src ⊕ g * (tW * (P * isz)) ⊕ c * (P * isz)) (P * isz)])
    else seqZ 0 tW ≫= λ c, seqZ 0 (tH / P) ≫= λ g, [memcpy (base ⊕ c * (H * isz) ⊕ g * (P * isz)) (src ⊕ (g * tW + c) * (P * isz)) (P * isz)])
    (λ pos, ∃ c, 0 <= c < tW ∧ ∃ g, 0 <= g < tH / P ∧ column_part (P * isz) (H * isz) base g c pos)) as Hall.
  { destruct (existsb _ _).
    - by apply does_words_out.
    - apply does_range. intros c Hc. apply does_range. intros g Hg.
      apply (does_word_back w M0 cap T (tH / P) tW (P * isz) (H * isz)) with (src := src); try done. unfold shift. cbn. f_equal. ring. }
  eapply does_weaken; [exact Hall|]. intros pos (r & c & Hr & Hc & Hp). exists c. split; [done|].
  destruct (split_pos r (tH / P) P) as (g & p & Hg & Hpp & ->); [done|by rewrite col_groups|]. exists g. split; [done|].
  unfold column_part, col_part, col_offset, base in *. cbn [p_off shift]. assert (p * isz + isz <= P * isz) by nia. assert (0 <= p * isz) by nia. lia.
Qed.
Lemma does_col_back_pad src dst tr tc :
  in_src w M0 src (tH * tW * isz) →
  (∀ r c, 0 <= r < tH → 0 <= c < tW → tr * tH + r < H → tc * tW + c < W → in_dst w cap (dst ⊕ col_offset tr tc r c) isz) →
  cols_hold src dst tr tc →
  does w M0 cap T (DetileSingleTileColMajorWithPadding src dst tr tc tH tW H W isz P)
    (λ pos, ∃ r c, (0 <= r < tH ∧ tr * tH + r < H) ∧ (0 <= c < tW ∧ tc * tW + c < W) ∧ col_part dst tr tc r c pos).
Proof using HP HtH HtH0 HtW Hisz.
  intros (Hs & Hs0 & Hsc) Hd HT. unfold DetileSingleTileColMajorWithPadding. set (vH := clamp (H - tr * tH) 0 tH). set (vW := clamp (W - tc * tW) 0 tW).
  assert (∀ r, 0 <= r < vH ↔ 0 <= r < tH ∧ tr * tH + r < H) as HvH by (intros r; unfold vH; rewrite clamp_lt by done; lia).
  assert (∀ c, 0 <= c < vW ↔ 0 <= c < tW ∧ tc * tW + c < W) as HvW by (intros c; unfold vW; rewrite clamp_lt by done; lia).
  clearbody vH vW. destruct ((vH <=? 0) || (vW <=? 0)) eqn:E.
  { apply does_nil; intros pos (r & c & Hr%HvH & Hc%HvW & _); apply orb_true_iff in E as [E%Z.leb_le|E%Z.leb_le]; lia. }
  eapply does_weaken; [apply does_range with (C := λ c pos, ∃ r, 0 <= r < vH ∧ col_part dst tr tc r c pos); intros c Hcw; apply does_range; intros r Hrh|].
  - pose proof Hcw as [Hc Hcw']%HvW. pose proof Hrh as [Hr Hrh']%HvH. destruct (packed_position r c Hr Hc) as (g & p & Hg & Hp & -> & -> & H0 & H1). cbv zeta.
    assert (dst ⊕ ((tc * tW + c) * H + tr * tH) * isz ⊕ (g * P + p) * isz = dst ⊕ col_offset tr tc (g * P + p) c) as ->
      by (unfold shift, col_offset; cbn; f_equal; ring).
    eapply does_weaken; [apply does_memcpy; [lia|by apply Hd|split_and!; [done|cbn; lia|cbn; lia]|]|by intros pos Hpos].
    intros k Hk. pose proof (HT g p c k Hg Hp Hc Hk ltac:(lia) ltac:(lia)) as Ht. unfold src_byte in *. cbn [p_off p_buf shift]. by_ring Ht.
  - intros pos (r & c & Hr & Hc & Hp). exists c. split; [by apply HvW|]. exists r. split; [by apply HvH|done].
Qed.
End tile.

(** ** The whole tensor *)
Section geometry.
Context (g : RowMajorTileGeometry) (Hg : geom_ok g).
Abbreviation H := (g_H g).
Abbreviation W := (g_W g).
Abbreviation isz := (g_itemsize g).
Abbreviation tH := (g_tile_H g).
Abbreviation tW := (g_tile_W g).
Abbreviation P := (g_packing_factor g).
Abbreviation n0 := (g_num_tiles_0 g).
Abbreviation n1 := (g_num_tiles_1 g).
Abbreviation batch := (g_batch_size g).
Abbreviation ts := (tile_size_bytes g).
Definition col_major (b row col : Z) : Z := (b * W + col) * H + row.
Lemma col_range b row col m : 0 <= b < batch → 0 <= col < W → 0 <= row → row + m <= H → 0 <= m →
  0 <= col_major b row col * isz ∧ col_major b row col * isz + m * isz <= batch * matrix_size_bytes g.
Proof using Hg.
  intros Hb Hc Hr Hm Hm0. pose proof Hg as []. unfold col_major, matrix_size_bytes. pose proof (join_pos b col batch W Hb Hc) as Hq.
  assert (0 <= (b * W + col) * H ∧ (b * W + col) * H + H <= batch * W * H) as Hw by nia. nia.
Qed.
Lemma col_cells pos : 0 <= pos < batch * matrix_size_bytes g →
  ∃ b row col k, 0 <= b < batch ∧ 0 <= row < H ∧ 0 <= col < W ∧ 0 <= k < isz ∧ pos = col_major b row col * isz + k.
Proof using Hg.
  intros Hp. pose proof Hg as []. unfold matrix_size_bytes in Hp. destruct (split_pos pos (batch * W * H) isz) as (q & k & Hq & Hk & ->); [done|lia|].
  assert (H ≠ 0) as HH0 by (intros E0; rewrite E0 in Hq; lia). destruct (split_pos q (batch * W) H) as (q' & row & Hq' & Hrow & ->); [lia|done|].
  assert (W ≠ 0) as HW0 by (intros E0; rewrite E0 in Hq'; lia). destruct (split_pos q' batch W) as (b & col & Hb & Hcol & ->); [lia|done|].
  by exists b, row, col, k.
Qed.

Section tasks.
Context {hw : Highway} {hwl : HighwayLaws} (w bs : Buffer) (M0 : Memory) (cap : Z) (Hbs : bs ≠ w).
Abbreviation S := (buffer bs M0).
Lemma batch_offset b tr tc r c : b * matrix_size_bytes g + col_offset tH tW H isz tr tc r c = col_major b (tr * tH + r) (tc * tW + c) * isz.
Proof. unfold col_offset, col_major, matrix_size_bytes. ring. Qed.
(** The tiles of column [tc]. *)
Definition in_tile_at (b tr tc pos : Z) : Prop := ((b * n0 + tr) * n1 + tc) * ts <= pos < ((b * n0 + tr) * n1 + tc) * ts + ts.
Definition col_region (b tc pos : Z) : Prop := ∃ tr, 0 <= tr < n0 ∧ in_tile_at b tr tc pos.
Section tile_side.
Context (Hcap : total_tiled_bytes g <= cap) (HS : linear_ok g S).
Definition col_target (b tc pos v : Z) : Prop := tiled g col_major S pos v ∧ col_region b tc pos.
Lemma col_tile_target b tr tc V :
  0 <= b < batch → 0 <= tr < n0 → 0 <= tc < n1 →
  (∀ r c k, 0 <= r < tH → 0 <= c < tW → 0 <= k < isz → V r c k = cell_value g col_major S b (tr * tH + r) (tc * tW + c) k) →
  tile_holds (col_target b tc) P tH tW isz (mkPtr w (((b * n0 + tr) * n1 + tc) * ts)) V.
Proof using Hg.
  intros Hb Htr Htc HV gr p c k Hgr Hp Hc Hk. cbn [p_off]. rewrite <- tile_cell_eq by done. pose proof (tile_groups_exact g Hg) as Hq8. split.
  - exists b, tr, tc, gr, p, c, k. split; [done|]. split; [done|]. apply HV; [nia|done|done].
  - exists tr. split; [done|]. unfold in_tile_at. rewrite tile_cell_eq by done. pose proof (in_tile g Hg gr p c k Hgr Hp Hc Hk). lia.
Qed.
Lemma tile_col_task_does b tc :
  0 <= b < batch → 0 <= tc < n1 →
  does w M0 cap (col_target b tc) (tile_col_task g (mkPtr bs 0) (mkPtr w 0) b tc) (col_region b tc).
Proof using Hg hwl Hbs Hcap HS.
  intros Hb Htc. unfold tile_col_task. apply does_range. intros tr Htr. cbv zeta. pose proof (tile_range g Hg b tr tc Hb Htr Htc) as Hr. pose proof Hg as [].
  assert (mkPtr w 0 ⊕ b * tiled_matrix_size_bytes g ⊕ (tr * n1 + tc) * ts = mkPtr w (((b * n0 + tr) * n1 + tc) * ts)) as ->
    by (unfold shift, tiled_matrix_size_bytes; cbn; f_equal; ring).
  assert (in_dst w cap (mkPtr w (((b * n0 + tr) * n1 + tc) * ts)) (tH * tW * isz)) as Hd
    by (split_and!; [done|cbn; lia|cbn; unfold tile_size_bytes in *; lia]).
  assert (0 <= tr * tH ∧ 0 <= tc * tW) as [Htr0 Htc0] by nia.
  assert (∀ r c m, 0 <= r → 0 <= c → 0 <= m → tr * tH + r + m <= H → tc * tW + c < W →
    in_src w M0 (mkPtr bs 0 ⊕ b * matrix_size_bytes g ⊕ col_offset tH tW H isz tr tc r c) (m * isz)) as Hs.
  { intros r c m Hr0 Hc0 Hm0 HH HW. destruct (col_range b (tr * tH + r) (tc * tW + c) m) as [Hl1 Hl2]; [done|lia|lia|lia|lia|].
    pose proof (batch_offset b tr tc r c) as E. unfold linear_ok in HS. split_and!; [done|cbn [p_off shift]; lia|cbn [p_off p_buf shift]; lia]. }
  assert (∀ r c k, src_byte M0 (mkPtr bs 0 ⊕ b * matrix_size_bytes g) (col_offset tH tW H isz tr tc r c + k) =
    byte_at S (col_major b (tr * tH + r) (tc * tW + c) * isz + k)) as Eb.
  { intros r c k. unfold src_byte. cbn [p_off p_buf shift]. f_equal. rewrite <- batch_offset. ring. }
  destruct (negb (has_padding g) || _) eqn:Ein.
  - assert (tr * tH + tH <= H ∧ tc * tW + tW <= W) as [HH HW].
    { apply orb_true_iff in Ein as [Hp%negb_true_iff|[Ea%Z.leb_le Eb'%Z.leb_le]%andb_true_iff]; [|lia]. destruct (padding_free g Hg Hp) as [E0 E1]. nia. }
    apply does_col_copy; try done.
    + intros c Hc. apply Hs; lia.
    + apply col_tile_target; [done..|]. intros r c k Hr' Hc Hk. unfold cell_value. rewrite (proj2 (Z.ltb_lt _ H)), (proj2 (Z.ltb_lt _ W)) by lia. apply Eb.
  - apply does_col_pad; try done.
    + intros r c Hr' Hc HH HW. replace isz with (1 * isz) at 2 by ring. apply Hs; lia.
    + apply col_tile_target; [done..|]. intros r c k Hr' Hc Hk. unfold col_padded, cell_value. by rewrite Eb.
Qed.
Lemma col_regions b tc b' tc' pos :
  0 <= b → 0 <= b' → 0 <= tc < n1 → 0 <= tc' < n1 → col_region b tc pos → col_region b' tc' pos → b = b' ∧ tc = tc'.
Proof using Hg.
  intros Hb Hb' Ht Ht' (tr & Htr & Hp) (tr' & Htr' & Hp'). unfold in_tile_at in *. pose proof (tile_size_pos g Hg) as Hs.
  assert ((b * n0 + tr) * n1 + tc = (b' * n0 + tr') * n1 + tc') as E by nia.
  destruct (digits (b * n0 + tr) n1 tc Ht) as [E1 E2], (digits (b' * n0 + tr') n1 tc' Ht') as [E1' E2'].
  assert (b * n0 + tr = b' * n0 + tr') as E3 by congruence. destruct (digits b n0 tr Htr) as [E4 _], (digits b' n0 tr' Htr') as [E4' _].
  split; congruence.
Qed.
Lemma tile_cols_ok pool_threads chunks :
  plan_ok w M0 cap (tiled g col_major S) (λ pos, 0 <= pos < total_tiled_bytes g)
    (run_tasks pool_threads chunks batch n1 (tile_col_task g (mkPtr bs 0) (mkPtr w 0))).
Proof using Hg hwl Hbs Hcap HS.
  pose proof Hg as []. pose proof (rows_bound g Hg) as [Hr0 Hr1]. pose proof (cols_bound g Hg) as [Hc0 Hc1]. pose proof (tile_size_pos g Hg) as Hts.
  apply (run_tasks_ok _ _ _ _ _ _ _ _ _ _ (λ b tc pos, 0 <= b ∧ 0 <= tc < n1 ∧ col_region b tc pos)); [done|done|..].
  - intros b tr b' tr' pos (? & ? & ?) (? & ? & ?). by apply (col_regions b tr b' tr' pos).
  - intros b tc Hb Ht. eapply does_weaken; [eapply does_mono; [by apply tile_col_task_does|]|].
    + intros pos v [? ?]. split; [done|]. split; [lia|done].
    + by intros pos (_ & _ & _ & ?).
  - intros pos Hp. rewrite total_eq in Hp. destruct (split_pos pos (batch * n0 * n1) ts) as (q & o & Hq & Ho & ->); [done..|].
    assert (n1 ≠ 0) as Hn1 by (intros E0; rewrite E0 in Hq; lia). destruct (split_pos q (batch * n0) n1) as (q' & tc & Hq' & Htc & ->); [lia|done|].
    assert (n0 ≠ 0) as Hn0 by (intros E0; rewrite E0 in Hq'; lia). destruct (split_pos q' batch n0) as (b & tr & Hb & Htr & ->); [lia|done|].
    exists b, tc. split; [done|]. split; [done|]. split; [lia|]. split; [done|]. exists tr. split; [done|]. unfold in_tile_at. lia.
Qed.
End tile_side.

Section linear_side.
Context (Hcap : batch * matrix_size_bytes g <= cap) (HS : total_tiled_bytes g <= blen S).
Definition col_band (b tc pos : Z) : Prop :=
  ∃ col, tc * tW <= col < tc * tW + tW ∧ 0 <= col < W ∧ (b * W + col) * (H * isz) <= pos < (b * W + col) * (H * isz) + H * isz.
Definition col_band_target (b tc pos v : Z) : Prop := untiled g col_major S pos v ∧ col_band b tc pos.
Lemma cols_target b tr tc :
  0 <= b < batch → 0 <= tr < n0 → 0 <= tc < n1 →
  cols_hold M0 (col_band_target b tc) P tH tW H W isz (mkPtr bs (((b * n0 + tr) * n1 + tc) * ts)) (mkPtr w 0 ⊕ b * matrix_size_bytes g) tr tc.
Proof using Hg.
  intros Hb Htr Htc gr p c k Hgr Hp Hc Hk HH HW. pose proof (tile_groups_exact g Hg) as Hq. pose proof Hg as [].
  assert (0 <= tc * tW) as Hq1 by nia. assert (0 <= tr * tH) as Hq2 by nia. assert (0 <= gr * P + p < tH) as Hq3 by nia.
  unfold src_byte. cbn [p_off p_buf shift]. rewrite <- tile_cell_eq by done.
  replace (0 + b * matrix_size_bytes g + (col_offset tH tW H isz tr tc (gr * P + p) c + k)) with (col_major b (tr * tH + (gr * P + p)) (tc * tW + c) * isz + k)
    by (rewrite <- batch_offset; ring). split.
  - by exists b, tr, tc, gr, p, c, k.
  - exists (tc * tW + c). split; [lia|]. split; [lia|]. unfold col_major. pose proof (join_pos (tr * tH + (gr * P + p)) k H isz ltac:(lia) Hk). lia.
Qed.
Lemma detile_col_task_does b tc :
  0 <= b < batch → 0 <= tc < n1 →
  does w M0 cap (col_band_target b tc) (detile_col_task g (mkPtr bs 0) (mkPtr w 0) b tc) (col_band b tc).
Proof using Hg hwl Hbs Hcap HS.
  intros Hb Htc. unfold detile_col_task. pose proof Hg as []. pose proof (rows_bound g Hg) as Hrb.
  eapply does_weaken; [apply does_range with (C := λ tr pos, ∃ r c, (0 <= r < tH ∧ tr * tH + r < H) ∧ (0 <= c < tW ∧ tc * tW + c < W) ∧
    col_part tH tW H isz (mkPtr w 0 ⊕ b * matrix_size_bytes g) tr tc r c pos)|].
  - intros tr Htr. cbv zeta. pose proof (tile_range g Hg b tr tc Hb Htr Htc) as Hr. pose proof (cols_target b tr tc Hb Htr Htc) as HT.
    assert (mkPtr bs 0 ⊕ b * tiled_matrix_size_bytes g ⊕ (tr * n1 + tc) * ts = mkPtr bs (((b * n0 + tr) * n1 + tc) * ts)) as ->
      by (unfold shift, tiled_matrix_size_bytes; cbn; f_equal; ring).
    assert (in_src w M0 (mkPtr bs (((b * n0 + tr) * n1 + tc) * ts)) (tH * tW * isz)) as Hs
      by (split_and!; [done|cbn; lia|cbn; unfold tile_size_bytes in *; lia]).
    assert (0 <= tr * tH ∧ 0 <= tc * tW) as [Htr0 Htc0] by nia.
    assert (∀ r c m, 0 <= r → 0 <= c → 0 <= m → tr * tH + r + m <= H → tc * tW + c < W →
      in_dst w cap (mkPtr w 0 ⊕ b * matrix_size_bytes g ⊕ col_offset tH tW H isz tr tc r c) (m * isz)) as Hd.
    { intros r c m Hr0 Hc0 Hm0 HH HW. destruct (col_range b (tr * tH + r) (tc * tW + c) m) as [Hl1 Hl2]; [done|lia|lia|lia|lia|].
      pose proof (batch_offset b tr tc r c) as E. split_and!; [done|cbn [p_off shift]; lia|cbn [p_off p_buf shift]; lia]. }
    destruct (negb (has_padding g) || _) eqn:Ein.
    + assert (tr * tH + tH <= H ∧ tc * tW + tW <= W) as [HH HW].
      { apply orb_true_iff in Ein as [Hp%negb_true_iff|[Ea%Z.leb_le Eb'%Z.leb_le]%andb_true_iff]; [|lia]. destruct (padding_free g Hg Hp) as [E0 E1]. nia. }
      eapply does_weaken; [apply (does_col_back w M0 cap _ P tH tW H W isz); try done|].
      * intros c Hc. apply Hd; lia.
      * intros pos (r & c & [Hr' _] & [Hc _] & Hp). eauto.
    + apply does_col_back_pad; try done. intros r c Hr' Hc HH HW. replace isz with (1 * isz) at 2 by ring. apply Hd; lia.
  - intros pos (col & Hcol & HW & Hp). destruct (split_pos (pos - (b * W + col) * (H * isz)) H isz) as (row & k & Hrow & Hk & E); [done|lia|].
    destruct (split_pos row n0 tH) as (tr & r & Htr & Hr & ->); [done|lia|]. exists tr. split; [done|]. exists r, (col - tc * tW).
    split; [lia|]. split; [lia|]. unfold col_part. cbn [p_off shift]. pose proof (batch_offset b tr tc r (col - tc * tW)) as Eo. unfold col_major in Eo.
    replace (tc * tW + (col - tc * tW)) with col in Eo by ring. lia.
Qed.
Lemma col_bands b tc b' tc' pos :
  0 <= b → 0 <= b' → 0 <= tc → 0 <= tc' → col_band b tc pos → col_band b' tc' pos → b = b' ∧ tc = tc'.
Proof using Hg.
  intros Hb Hb' Ht Ht' (col & Hc & HW & Hp) (col' & Hc' & HW' & Hp'). pose proof Hg as [].
  set (m := H * isz) in *. assert (0 <= m) as Hm by (unfold m; nia). clearbody m. assert (b * W + col = b' * W + col') as E by nia.
  destruct (digits b W col HW) as [E1 E2], (digits b' W col' HW') as [E1' E2']. assert (b = b' ∧ col = col') as [-> ->] by (split; congruence).
  split; [done|]. nia.
Qed.
Lemma detile_cols_ok pool_threads chunks :
  plan_ok w M0 cap (untiled g col_major S) (λ pos, 0 <= pos < batch * matrix_size_bytes g)
    (run_tasks pool_threads chunks batch n1 (detile_col_task g (mkPtr bs 0) (mkPtr w 0))).
Proof using Hg hwl Hbs Hcap HS.
  pose proof Hg as []. pose proof (cols_bound g Hg) as [Hc0 Hc1].
  apply (run_tasks_ok _ _ _ _ _ _ _ _ _ _ (λ b tc pos, 0 <= b ∧ 0 <= tc ∧ col_band b tc pos)); [done|done|..].
  - intros b tr b' tr' pos (? & ? & ?) (? & ? & ?). by apply (col_bands b tr b' tr' pos).
  - intros b tc Hb Ht. eapply does_weaken; [eapply does_mono; [by apply detile_col_task_does|]|].
    + intros pos v [? ?]. split; [done|]. split; [lia|]. split; [lia|done].
    + by intros pos (_ & _ & _ & ?).
  - intros pos Hp. destruct (col_cells pos Hp) as (b & row & col & k & Hb & Hrow & Hcol & Hk & ->).
    destruct (split_pos col n1 tW) as (tc & c & Htc & Hc & ->); [done|lia|]. exists b, tc. split; [done|]. split; [done|]. split; [lia|]. split; [lia|].
    exists (tc * tW + c). split; [lia|]. split; [done|]. unfold col_major. pose proof (join_pos row k H isz Hrow Hk). lia.
Qed.
End linear_side.
End tasks.
End geometry.
