(* ===== verification/TilingIndex.v ===== *)
(** * TilingIndex: nested tiling, as a reference
    (what src/tpu_sync/weight_sync/tiling_utils.cc implements)

    The physical dimensions of a tensor are its dimensions from major to minor.  A tile
    splits the last dimensions into a grid of tiles and the cells of a tile; the next
    tile splits the result again.  [position] is where an element ends up.  [XlaLaws]
    is what the code relies on in XLA, with these definitions as its meaning. *)

From S2P Require Import Prelude TileMemory Highway TilingUtils TilingRowMajor.

(** ** Indices *)
Definition in_dims (dims idx : list Z) : Prop := Forall2 (λ d i, 0 <= i < d) dims idx.
Fixpoint linear_from (a : Z) (dims idx : list Z) : Z :=
  match dims, idx with d :: dims, i :: idx => linear_from (a * d + i) dims idx | _, _ => a end.
(** The row-major linear index. *)
Definition linear (dims idx : list Z) : Z := linear_from 0 dims idx.
Definition ceil_div (a b : Z) : Z := (a + b - 1) / b.

(** ** Tiles *)
Definition widen (tile : Tile) (x : Z) (l : list Z) : list Z := replicate (length tile - length l) x ++ l.
Definition tile_shape (dims : list Z) (tile : Tile) : list Z :=
  let dims := widen tile 1 dims in
  let s := (length dims - length tile)%nat in
  take s dims ++ zip_with ceil_div (drop s dims) tile ++ tile.
Definition tile_index (idx : list Z) (tile : Tile) : list Z :=
  let idx := widen tile 0 idx in
  let s := (length idx - length tile)%nat in
  take s idx ++ zip_with Z.div (drop s idx) tile ++ zip_with Z.modulo (drop s idx) tile.
Definition nested_shape (dims : list Z) (ts : list Tile) : list Z := foldl tile_shape dims ts.
Definition nested_index (idx : list Z) (ts : list Tile) : list Z := foldl tile_index idx ts.
(** From major to minor. *)
Definition permuted (m : list Z) (l : list Z) : list Z := (λ i, dim l (dim m i)) <$> reverse (seqZ 0 (Z.of_nat (length l))).
Definition tiled_dims (shape : Shape) (layout : Layout) : list Z :=
  nested_shape (permuted (minor_to_major layout) (dimensions shape)) (tiles layout).
Definition position (shape : Shape) (layout : Layout) (idx : list Z) : Z :=
  linear (tiled_dims shape layout) (nested_index (permuted (minor_to_major layout) idx) (tiles layout)).

Class XlaLaws `{Xla} : Prop := {
  CeilOfRatio_spec a b : 0 <= a → 0 < b → CeilOfRatio a b = ceil_div a b;
  ElementsIn_spec shape : ElementsIn shape = product (dimensions shape);
  ByteSizeOf_spec shape : ByteSizeOf shape = product (dimensions shape) * ByteSizeOfPrimitiveType (element_type shape);
  ForEachIndex_spec shape idx : idx ∈ ForEachIndex shape ↔ in_dims (dimensions shape) idx;
  MultidimensionalIndexToLinearIndex_spec t dims idx : in_dims dims idx →
    MultidimensionalIndexToLinearIndex (MakeShape t dims) idx = linear dims idx;
  LinearIndexForNestedTiling_spec shape layout idx :
    shape_layout shape = Some layout → in_dims (dimensions shape) idx → LinearIndexForNestedTiling shape idx = position shape layout idx;
}.

(** A layout of the shape: a permutation of its dimensions and positive tiles. *)
Record layout_ok (shape : Shape) (layout : Layout) : Prop := {
  lk_dims : Forall (λ d, 0 <= d) (dimensions shape);
  lk_rank : dimensions shape ≠ [];
  lk_order : minor_to_major layout ≡ₚ seqZ 0 (rank shape);
  lk_tiles : Forall (Forall (λ t, 0 < t)) (tiles layout);
}.

(** ** Linear indices *)
Lemma in_dims_length dims idx : in_dims dims idx → length dims = length idx.
Proof. apply Forall2_length. Qed.
Lemma product_cons d l : product (d :: l) = d * product l.
Proof.
  unfold product. cbn [foldl]. rewrite Z.mul_1_l.
  assert (∀ a, foldl Z.mul a l = a * foldl Z.mul 1 l) as H; [|apply H]. clear d. induction l as [|d l IH]; intros a; cbn [foldl]; [ring|].
  rewrite (IH (a * d)), (IH (1 * d)). ring.
Qed.
Lemma product_app l k : product (l ++ k) = product l * product k.
Proof. induction l as [|d l IH]; [change (product []) with 1; rewrite Z.mul_1_l; done|]. cbn [app]. rewrite !product_cons, IH. ring. Qed.
Lemma product_perm l k : l ≡ₚ k → product l = product k.
Proof. induction 1; [done| | |congruence]; rewrite !product_cons; [congruence|ring]. Qed.
Lemma product_nonneg l : Forall (λ d, 0 <= d) l → 0 <= product l.
Proof. induction 1; [done|]. rewrite product_cons. nia. Qed.
Lemma linear_from_app a dims idx dims' idx' :
  length dims = length idx → linear_from a (dims ++ dims') (idx ++ idx') = linear_from (linear_from a dims idx) dims' idx'.
Proof. revert a idx. induction dims as [|d dims IH]; intros a [|i idx] Hl; try done. cbn. apply IH. cbn in Hl. lia. Qed.
Lemma linear_from_eq a dims idx : length dims = length idx → linear_from a dims idx = a * product dims + linear dims idx.
Proof.
  revert a idx. unfold linear. induction dims as [|d dims IH]; intros a [|i idx] Hl; try done; [cbn; change (product []) with 1; ring|].
  cbn [linear_from]. rewrite IH, (IH (0 * d + i)), product_cons by (cbn in Hl; lia). ring.
Qed.
Lemma linear_cons d dims i idx : length dims = length idx → linear (d :: dims) (i :: idx) = i * product dims + linear dims idx.
Proof. intros Hl. unfold linear at 1. cbn [linear_from]. rewrite linear_from_eq by done. ring. Qed.
Lemma linear_range dims idx : in_dims dims idx → 0 <= linear dims idx < product dims.
Proof.
  induction 1 as [|d i dims idx Hd Hi IH]; [done|]. rewrite linear_cons, product_cons by (by eapply Forall2_length). by apply join_pos.
Qed.
Lemma linear_inj dims idx idx' : in_dims dims idx → in_dims dims idx' → linear dims idx = linear dims idx' → idx = idx'.
Proof.
  intros H. revert idx'. induction H as [|d i dims idx Hd Hi IH]; intros idx' H' E; [by inversion H'|].
  inversion H' as [|? i' ? idx1 Hd' Hi' E1 E2]; subst. rewrite !linear_cons in E by (by eapply Forall2_length).
  pose proof (linear_range _ _ Hi) as Hr. pose proof (linear_range _ _ Hi') as Hr'.
  destruct (digits i _ _ Hr) as [E1 E2], (digits i' _ _ Hr') as [E1' E2']. f_equal; [congruence|]. apply IH; [done|congruence].
Qed.
Lemma linear_surj dims q : Forall (λ d, 0 <= d) dims → 0 <= q < product dims → ∃ idx, in_dims dims idx ∧ linear dims idx = q.
Proof.
  intros Hd. revert q. induction Hd as [|d dims Hd0 Hds IH]; intros q Hq.
  { exists []. split; [constructor|]. change (product []) with 1 in Hq. cbn. lia. }
  rewrite product_cons in Hq. pose proof (product_nonneg dims Hds) as Hp. assert (product dims ≠ 0) as Hne by (intros E; rewrite E in Hq; lia).
  destruct (split_pos q d (product dims)) as (i & r & Hi & Hr & ->); [lia|done|]. destruct (IH r Hr) as (idx & Hidx & <-).
  exists (i :: idx). split; [by constructor|]. apply linear_cons. by eapply Forall2_length.
Qed.

(** ** Tiles keep indices in range and apart *)
Lemma ceil_above i d t : 0 <= i < d → 0 < t → 0 <= i / t < ceil_div d t.
Proof.
  intros Hi Ht. split; [apply Z.div_pos; lia|]. destruct (ceil_spec d t (ceil_div d t)) as [_ Hc]; [lia|done|done|].
  pose proof (Z.mul_div_le i t Ht). apply (Z.mul_lt_mono_pos_r t); lia.
Qed.
Lemma split_in_dims ds xs ts : in_dims ds xs → length ds = length ts → Forall (λ t, 0 < t) ts →
  in_dims (zip_with ceil_div ds ts) (zip_with Z.div xs ts) ∧ in_dims ts (zip_with Z.modulo xs ts).
Proof.
  intros H. revert ts. induction H as [|d i ds xs Hi _ IH]; intros [|t ts] Hl Ht; try done; [by split; constructor|].
  apply Forall_cons in Ht as [Ht Hts]. destruct (IH ts) as [H1 H2]; [cbn in Hl; lia|done|]. cbn. split; constructor; try done.
  - by apply ceil_above.
  - by apply Z.mod_pos_bound.
Qed.
Lemma split_inj xs ys ts :
  length xs = length ts → length ys = length ts → zip_with Z.div xs ts = zip_with Z.div ys ts →
  zip_with Z.modulo xs ts = zip_with Z.modulo ys ts → Forall (λ t, 0 < t) ts → xs = ys.
Proof.
  revert ys ts. induction xs as [|i xs IH]; intros [|j ys] [|t ts] H1 H2 Ed Em Ht; try done. apply Forall_cons in Ht as [Ht Hts]. cbn in *.
  injection Ed as Ed0 Ed. injection Em as Em0 Em. f_equal; [|by apply (IH ys ts); try lia].
  rewrite (Z.div_mod i t), (Z.div_mod j t) by lia. congruence.
Qed.
Lemma widen_in_dims tile dims idx : in_dims dims idx → in_dims (widen tile 1 dims) (widen tile 0 idx).
Proof.
  intros H. unfold widen. rewrite (in_dims_length _ _ H). apply Forall2_app; [|done]. apply Forall2_replicate. lia.
Qed.
Lemma length_widen tile x l : (length tile <= length (widen tile x l))%nat.
Proof. unfold widen. rewrite length_app, length_replicate. lia. Qed.
Lemma tile_in_dims tile dims idx : in_dims dims idx → Forall (λ t, 0 < t) tile → in_dims (tile_shape dims tile) (tile_index idx tile).
Proof.
  intros H%(widen_in_dims tile) Ht. pose proof (length_widen tile 1 dims) as Hw. unfold tile_shape, tile_index. rewrite <- (in_dims_length _ _ H).
  set (s := (length (widen tile 1 dims) - length tile)%nat) in *.
  destruct (split_in_dims (drop s (widen tile 1 dims)) (drop s (widen tile 0 idx)) tile) as [H1 H2]; [by apply Forall2_drop|rewrite length_drop; lia|done|].
  apply Forall2_app; [by apply Forall2_take|]. by apply Forall2_app.
Qed.
Lemma tile_index_inj tile dims i j :
  in_dims dims i → in_dims dims j → Forall (λ t, 0 < t) tile → tile_index i tile = tile_index j tile → i = j.
Proof.
  intros Hi Hj Ht E. assert (length i = length j) as Hl by (rewrite <- (in_dims_length _ _ Hi), <- (in_dims_length _ _ Hj); done).
  assert (widen tile 0 i = widen tile 0 j) as Ew.
  { pose proof (length_widen tile 0 i) as Hwi. assert (length (widen tile 0 i) = length (widen tile 0 j)) as Hlw by (unfold widen; rewrite !length_app, !length_replicate; lia).
    unfold tile_index in E. rewrite <- Hlw in E. set (s := (length (widen tile 0 i) - length tile)%nat) in *.
    apply app_inj_1 in E as [Et E]; [|rewrite !length_take; lia]. apply app_inj_1 in E as [Ed Em]; [|rewrite !length_zip_with, !length_drop; lia].
    rewrite <- (take_drop s (widen tile 0 i)), <- (take_drop s (widen tile 0 j)), Et. f_equal.
    eapply (split_inj _ _ tile); try done; rewrite length_drop; lia. }
  unfold widen in Ew. rewrite Hl in Ew. by apply app_inj_2 in Ew as [_ ?].
Qed.
Lemma nested_in_dims dims idx ts : in_dims dims idx → Forall (Forall (λ t, 0 < t)) ts → in_dims (nested_shape dims ts) (nested_index idx ts).
Proof.
  intros H Ht. revert dims idx H. induction Ht as [|t ts Ht _ IH]; intros dims idx H; [done|]. cbn. by apply IH, tile_in_dims.
Qed.
Lemma nested_inj dims i j ts :
  in_dims dims i → in_dims dims j → Forall (Forall (λ t, 0 < t)) ts → nested_index i ts = nested_index j ts → i = j.
Proof.
  intros Hi Hj Ht. revert dims i j Hi Hj. induction Ht as [|t ts Ht _ IH]; intros dims i j Hi Hj E; [done|]. cbn in E.
  apply (tile_index_inj t dims); try done. apply (IH (tile_shape dims t)); try done; by apply tile_in_dims.
Qed.

(** ** The order of the dimensions *)
Lemma length_permuted m l : length (permuted m l) = length l.
Proof. unfold permuted. rewrite length_fmap, length_reverse, length_seqZ. lia. Qed.
Lemma lookup_permuted m l (j : nat) : (j < length l)%nat →
  permuted m l !! j = Some (dim l (dim m (Z.of_nat (length l) - 1 - Z.of_nat j))).
Proof.
  intros Hj. unfold permuted. rewrite list_lookup_fmap, reverse_lookup by (rewrite length_seqZ; lia). rewrite length_seqZ, lookup_seqZ_lt by lia.
  cbn. do 3 f_equal. lia.
Qed.
Lemma dim_lookup l (j : nat) x : l !! j = Some x → dim l (Z.of_nat j) = x.
Proof. intros H. unfold dim. rewrite Nat2Z.id. by apply list_lookup_total_correct. Qed.
Lemma dim_in l i : 0 <= i < Z.of_nat (length l) → l !! Z.to_nat i = Some (dim l i).
Proof. intros Hi. destruct (lookup_lt_is_Some_2 l (Z.to_nat i)) as [x Hx]; [lia|]. rewrite Hx. unfold dim. by rewrite (list_lookup_total_correct _ _ _ Hx). Qed.
Lemma order_range m n i : m ≡ₚ seqZ 0 n → 0 <= i < n → 0 <= dim m i < n.
Proof.
  intros Hm Hi. pose proof (Permutation_length Hm) as Hl. rewrite length_seqZ in Hl. pose proof (dim_in m i ltac:(lia)) as H.
  apply list_elem_of_lookup_2 in H. apply (elem_of_Permutation_proper (dim m i) _ _ Hm), elem_of_seqZ in H. lia.
Qed.
Lemma permuted_in_dims m dims idx : m ≡ₚ seqZ 0 (Z.of_nat (length dims)) → in_dims dims idx → in_dims (permuted m dims) (permuted m idx).
Proof.
  intros Hm H. pose proof (in_dims_length _ _ H) as Hl. apply Forall2_same_length_lookup_2; [by rewrite !length_permuted|].
  intros j d i Hd Hi. pose proof (lookup_lt_Some _ _ _ Hd) as Hj. rewrite length_permuted in Hj. rewrite lookup_permuted in Hd, Hi by lia.
  injection Hd as <-. injection Hi as <-. rewrite <- Hl.
  pose proof (order_range m _ (Z.of_nat (length dims) - 1 - Z.of_nat j) Hm ltac:(lia)) as Hr.
  set (q := dim m _) in *. apply (Forall2_lookup_lr (λ d i, 0 <= i < d) dims idx (Z.to_nat q)); [done|apply dim_in; lia|apply dim_in; lia].
Qed.
Lemma permuted_inj m i j : m ≡ₚ seqZ 0 (Z.of_nat (length i)) → length i = length j → permuted m i = permuted m j → i = j.
Proof.
  intros Hm Hl E. apply (list_eq_same_length _ _ (length i)); [done|done|]. intros q x y Hq Hx Hy.
  assert (Z.of_nat q ∈ m) as [p Hp]%list_elem_of_lookup by (rewrite Hm; apply elem_of_seqZ; lia).
  pose proof (lookup_lt_Some _ _ _ Hp) as Hlt. pose proof (Permutation_length Hm) as Hlm. rewrite length_seqZ in Hlm.
  pose proof (lookup_permuted m i (length i - 1 - p) ltac:(lia)) as Ei. pose proof (lookup_permuted m j (length i - 1 - p) ltac:(lia)) as Ej.
  rewrite E, Ej in Ei. rewrite <- Hl in Ei. replace (Z.of_nat (length i) - 1 - Z.of_nat (length i - 1 - p)) with (Z.of_nat p) in Ei by lia.
  rewrite (dim_lookup m p _ Hp), (dim_lookup i q x Hx), (dim_lookup j q y Hy) in Ei. by injection Ei.
Qed.
Lemma permuted_row m l : (∀ i, 0 <= i < Z.of_nat (length l) → dim m i = Z.of_nat (length l) - 1 - i) → permuted m l = l.
Proof.
  intros Hm. apply (list_eq_same_length _ _ (length l)); [done|by rewrite length_permuted|]. intros j x y Hj Hx Hy.
  rewrite lookup_permuted in Hx by done. injection Hx as <-. rewrite Hm by lia.
  replace (Z.of_nat (length l) - 1 - (Z.of_nat (length l) - 1 - Z.of_nat j)) with (Z.of_nat j) by lia. by apply dim_lookup.
Qed.
Lemma permuted_col m l x y :
  let n := Z.of_nat (length l) + 2 in
  dim m 0 = n - 2 → dim m 1 = n - 1 → (∀ i, 2 <= i < n → dim m i = n - 1 - i) → permuted m (l ++ [x; y]) = l ++ [y; x].
Proof.
  intros n H0 H1 Hm. apply (list_eq_same_length _ _ (length l + 2)); [by rewrite length_app|by rewrite length_permuted, length_app|].
  intros j a b Hj Ha Hb. rewrite lookup_permuted in Ha by (rewrite length_app; cbn; lia). rewrite length_app in Ha. cbn [length] in Ha.
  replace (Z.of_nat (length l + 2)) with n in Ha by (unfold n; lia). injection Ha as <-. rewrite lookup_app in Hb.
  destruct (l !! j) as [z|] eqn:Ez.
  - injection Hb as ->. apply lookup_lt_Some in Ez as Hlt. rewrite Hm by lia. replace (n - 1 - (n - 1 - Z.of_nat j)) with (Z.of_nat j) by lia.
    apply dim_lookup. by apply lookup_app_l_Some.
  - apply lookup_ge_None in Ez. assert (j = length l ∨ j = S (length l)) as [->| ->] by lia.
    + rewrite Nat.sub_diag in Hb. injection Hb as <-. replace (n - 1 - Z.of_nat (length l)) with 1 by lia. rewrite H1.
      replace (n - 1) with (Z.of_nat (length l + 1)) by lia. apply dim_lookup. by rewrite lookup_app_r, Nat.add_comm, Nat.add_sub by lia.
    + replace (S (length l) - length l)%nat with 1%nat in Hb by lia. injection Hb as <-. replace (n - 1 - Z.of_nat (S (length l))) with 0 by lia. rewrite H0.
      replace (n - 2) with (Z.of_nat (length l)) by lia. apply dim_lookup. by rewrite lookup_app_r, Nat.sub_diag by lia.
Qed.

(** ** Tiles of the last dimensions *)
Lemma widen_app t x bs l : length l = length t → widen t x (bs ++ l) = bs ++ l.
Proof. intros Hl. unfold widen. rewrite length_app. by replace (length t - (length bs + length l))%nat with 0%nat by lia. Qed.
Lemma tile_shape_app bs l t : length l = length t → tile_shape (bs ++ l) t = bs ++ zip_with ceil_div l t ++ t.
Proof.
  intros Hl. unfold tile_shape. rewrite widen_app, length_app, Hl, Nat.add_sub by done. by rewrite take_app_length, drop_app_length.
Qed.
Lemma tile_index_app bs l t : length l = length t → tile_index (bs ++ l) t = bs ++ zip_with Z.div l t ++ zip_with Z.modulo l t.
Proof.
  intros Hl. unfold tile_index. rewrite widen_app, length_app, Hl, Nat.add_sub by done. by rewrite take_app_length, drop_app_length.
Qed.
Lemma tile_shape_nonneg dims t : Forall (λ d, 0 <= d) dims → Forall (λ t, 0 < t) t → Forall (λ d, 0 <= d) (tile_shape dims t).
Proof.
  intros Hd Ht. unfold tile_shape. assert (Forall (λ d, 0 <= d) (widen t 1 dims)) as Hw by (apply Forall_app; split; [by apply Forall_replicate|done]).
  apply Forall_app. split; [by apply Forall_take|]. apply Forall_app. split; [|eapply Forall_impl; [exact Ht|]; cbn; lia].
  apply (Forall_drop _ (length (widen t 1 dims) - length t)) in Hw. revert Hw. generalize (drop (length (widen t 1 dims) - length t) (widen t 1 dims)) as l.
  intros l Hl. revert t Ht. induction Hl as [|d l Hd0 _ IH]; intros [|x t] Ht; try constructor; apply Forall_cons in Ht as [Hx Ht]; [|by apply IH].
  apply Z.div_pos; lia.
Qed.
Lemma nested_shape_nonneg dims ts : Forall (λ d, 0 <= d) dims → Forall (Forall (λ t, 0 < t)) ts → Forall (λ d, 0 <= d) (nested_shape dims ts).
Proof. intros Hd Ht. revert dims Hd. induction Ht as [|t ts Ht _ IH]; intros dims Hd; [done|]. by apply IH, tile_shape_nonneg. Qed.
Lemma permuted_nonneg m l : m ≡ₚ seqZ 0 (Z.of_nat (length l)) → Forall (λ d, 0 <= d) l → Forall (λ d, 0 <= d) (permuted m l).
Proof.
  intros Hm Hl. apply Forall_lookup. intros j d Hd. pose proof (lookup_lt_Some _ _ _ Hd) as Hj. rewrite length_permuted in Hj.
  rewrite lookup_permuted in Hd by done. injection Hd as <-. pose proof (order_range m _ (Z.of_nat (length l) - 1 - Z.of_nat j) Hm ltac:(lia)) as Hr.
  rewrite Forall_lookup in Hl. eapply Hl. apply dim_in. lia.
Qed.

(** ** Positions *)
Section positions.
Context (shape : Shape) (layout : Layout) (Hok : layout_ok shape layout).
Abbreviation dims := (dimensions shape).
Lemma order_length : Z.of_nat (length (minor_to_major layout)) = rank shape.
Proof using Hok. rewrite (Permutation_length (lk_order _ _ Hok)), length_seqZ. unfold rank. lia. Qed.
Lemma nested_dims idx : in_dims dims idx →
  in_dims (tiled_dims shape layout) (nested_index (permuted (minor_to_major layout) idx) (tiles layout)).
Proof using Hok. destruct Hok. intros Hi. apply nested_in_dims; [|done]. by apply permuted_in_dims. Qed.
Lemma position_range idx : in_dims dims idx → 0 <= position shape layout idx < product (tiled_dims shape layout).
Proof using Hok. intros Hi. by apply linear_range, nested_dims. Qed.
Lemma position_inj i j : in_dims dims i → in_dims dims j → position shape layout i = position shape layout j → i = j.
Proof using Hok.
  intros Hi Hj E. apply (linear_inj (tiled_dims shape layout)) in E; [|by apply nested_dims..]. pose proof Hok as [].
  apply (nested_inj (permuted (minor_to_major layout) dims)) in E; [|by apply permuted_in_dims..|done].
  pose proof (in_dims_length _ _ Hi) as Li. pose proof (in_dims_length _ _ Hj) as Lj.
  apply (permuted_inj (minor_to_major layout)); [by rewrite <- Li|congruence|done].
Qed.
Lemma tiled_dims_nonneg : Forall (λ d, 0 <= d) (tiled_dims shape layout).
Proof using Hok. pose proof Hok as []. by apply nested_shape_nonneg; [apply permuted_nonneg|]. Qed.

Context {xla : Xla} {xlal : XlaLaws}.
Lemma tile_step_spec ds t : Forall (λ d, 0 <= d) ds → Forall (λ t, 0 < t) t → tile_step ds t = Some (tile_shape ds t).
Proof using xlal.
  intros Hd Ht. unfold tile_step. assert (forallb (λ t, 0 <? t) t = true) as -> by (apply forallb_forall; intros x Hx%list_elem_of_In; rewrite Forall_forall in Ht; by apply Z.ltb_lt, Ht).
  f_equal. unfold tile_shape, widen. f_equal. f_equal. set (D := replicate (length t - length ds) 1 ++ ds).
  assert (Forall (λ d, 0 <= d) (drop (length D - length t) D)) as Hl by (apply Forall_drop, Forall_app; split; [by apply Forall_replicate|done]).
  revert Hl. generalize (drop (length D - length t) D) as l. clear Hd. intros l Hl. clear D. revert t Ht. induction Hl as [|d l Hd _ IH]; intros [|x t] Ht; try done.
  apply Forall_cons in Ht as [Hx Ht]. cbn. rewrite CeilOfRatio_spec by lia. by rewrite IH.
Qed.
Lemma tile_steps_spec ds ts : Forall (λ d, 0 <= d) ds → Forall (Forall (λ t, 0 < t)) ts → tile_steps ds ts = Some (nested_shape ds ts).
Proof using xlal.
  intros Hd Ht. revert ds Hd. induction Ht as [|t ts Ht _ IH]; intros ds Hd; [done|]. cbn. rewrite tile_step_spec by done. cbn. apply IH. by apply tile_shape_nonneg.
Qed.
(** GetTiledBufferElements counts the cells of the nested tiling. *)
Lemma elements_spec : GetTiledBufferElements (with_layout shape layout) = product (tiled_dims shape layout).
Proof using Hok xlal.
  pose proof Hok as []. pose proof order_length as Ho. unfold GetTiledBufferElements. cbn [with_layout shape_layout].
  change (rank (with_layout shape layout)) with (rank shape). rewrite Ho, Z.eqb_refl.
  assert ((rank shape =? 0) = false) as -> by (apply Z.eqb_neq; unfold rank; destruct dims; [done|cbn; lia]). cbn [negb].
  change (physical_dims (with_layout shape layout) layout) with (permuted (minor_to_major layout) dims).
  rewrite tile_steps_spec; [done| |done]. by apply permuted_nonneg.
Qed.
End positions.
