(* ===== verification/TilingCharts.v ===== *)
(** * TilingCharts: the fast paths compute nested tilings
    (src/tpu_sync/weight_sync/tiling_utils.cc)

    [tiles_to] is what a tiled buffer must hold: at the position of each element its
    bytes, and zeros in every other cell.  A [chart] relates the tile geometry of a fast
    path to the positions of the reference; the layouts the code accepts as standard
    have one. *)

From S2P Require Import Prelude TileMemory Highway TilingUtils TilingTiles TilingRowMajor TilingLine TilingColMajor TilingIndex.

Section target.
Context {xla : Xla} (shape : Shape) (layout : Layout).
Abbreviation dims := (dimensions shape).
Abbreviation isz := (ByteSizeOfPrimitiveType (element_type shape)).
Abbreviation cells := (product (tiled_dims shape layout)).
Definition tiles_to (S : bytes) (pos v : Z) : Prop :=
  (∃ idx k, in_dims dims idx ∧ 0 <= k < isz ∧ pos = position shape layout idx * isz + k ∧ v = byte_at S (linear dims idx * isz + k)) ∨
  (∃ q k, 0 <= q < cells ∧ 0 <= k < isz ∧ (∀ idx, in_dims dims idx → position shape layout idx ≠ q) ∧ pos = q * isz + k ∧ v = 0).
Definition untiles_to (S : bytes) (pos v : Z) : Prop :=
  ∃ idx k, in_dims dims idx ∧ 0 <= k < isz ∧ pos = linear dims idx * isz + k ∧ v = byte_at S (position shape layout idx * isz + k).

(** ** Charts *)
Definition tile_pos (g : RowMajorTileGeometry) (b row col : Z) : Z :=
  ((((b * g_num_tiles_0 g + row / g_tile_H g) * g_num_tiles_1 g + col / g_tile_W g) * (g_tile_H g / g_packing_factor g) +
      row `mod` g_tile_H g / g_packing_factor g) * g_tile_W g + col `mod` g_tile_W g) * g_packing_factor g +
  (row `mod` g_tile_H g) `mod` g_packing_factor g.
Definition in_matrix (g : RowMajorTileGeometry) (b row col : Z) : Prop :=
  0 <= b < g_batch_size g ∧ 0 <= row < g_H g ∧ 0 <= col < g_W g.
Record chart (g : RowMajorTileGeometry) (lin : Z → Z → Z → Z) : Prop := {
  ch_geom : geom_ok g;
  ch_itemsize : g_itemsize g = isz;
  ch_total : cells * isz = total_tiled_bytes g;
  ch_linear : product dims * isz = g_batch_size g * matrix_size_bytes g;
  ch_to idx : in_dims dims idx → ∃ b row col, in_matrix g b row col ∧ linear dims idx = lin b row col ∧ position shape layout idx = tile_pos g b row col;
  ch_from b row col : in_matrix g b row col → ∃ idx, in_dims dims idx ∧ linear dims idx = lin b row col ∧ position shape layout idx = tile_pos g b row col;
}.
Lemma tile_pos_cell g b tr tc gr p c k :
  geom_ok g → in_cells g b tr tc gr p c k →
  tile_cell g b tr tc gr p c k = tile_pos g b (tr * g_tile_H g + (gr * g_packing_factor g + p)) (tc * g_tile_W g + c) * g_itemsize g + k.
Proof.
  intros Hg (Hb & Htr & Htc & Hgr & Hp & Hc & Hk). pose proof (tile_groups_exact g Hg) as Hq. unfold tile_cell, tile_pos.
  assert (0 <= gr * g_packing_factor g + p < g_tile_H g) as Hr by (rewrite <- Hq; by apply join_pos).
  destruct (digits tr _ _ Hr) as [-> ->], (digits tc _ _ Hc) as [-> ->], (digits gr _ _ Hp) as [-> ->]. done.
Qed.
Lemma chart_untiled g lin S pos v : chart g lin → untiled g lin S pos v → untiles_to S pos v.
Proof.
  intros [] (b & tr & tc & gr & p & c & k & Hin & HH & HW & -> & ->). rewrite tile_pos_cell by done. pose proof (tile_groups_exact g ch_geom0) as Hq. pose proof ch_geom0 as [].
  pose proof Hin as (Hb & Htr & Htc & Hgr & Hp & Hc & Hk).
  destruct (ch_from0 b (tr * g_tile_H g + (gr * g_packing_factor g + p)) (tc * g_tile_W g + c)) as (idx & Hidx & <- & <-); [split_and!; nia|].
  rewrite ch_itemsize0 in *. by exists idx, k.
Qed.
Lemma chart_tiled g lin S pos v : chart g lin → tiled g lin S pos v → tiles_to S pos v.
Proof.
  intros [] Ht. pose proof (tiled_range g ch_geom0 _ _ _ _ Ht) as Hrange. destruct Ht as (b & tr & tc & gr & p & c & k & Hin & -> & ->).
  pose proof Hin as (Hb & Htr & Htc & Hgr & Hp & Hc & Hk). pose proof (tile_groups_exact g ch_geom0) as Hq. pose proof ch_geom0 as [].
  rewrite tile_pos_cell in * by done. unfold cell_value. set (row := tr * g_tile_H g + (gr * g_packing_factor g + p)) in *. set (col := tc * g_tile_W g + c) in *.
  destruct ((row <? g_H g) && (col <? g_W g)) eqn:E.
  - apply andb_true_iff in E as [HH%Z.ltb_lt HW%Z.ltb_lt]. destruct (ch_from0 b row col) as (idx & Hidx & <- & <-); [unfold row, col in *; split_and!; nia|].
    rewrite ch_itemsize0 in *. left. by exists idx, k.
  - right. rewrite <- ch_total0, ch_itemsize0 in *. exists (tile_pos g b row col), k. split; [nia|]. split; [done|]. split; [|done].
    intros idx Hidx Epos. destruct (ch_to0 idx Hidx) as (b' & row' & col' & (Hb' & Hr' & Hc') & _ & E'). rewrite E' in Epos.
    destruct (element_cell g ch_geom0 b' row' col' k Hb' Hr' Hc') as (tr' & tc' & gr' & p' & c' & Hin' & -> & ->); [by rewrite ch_itemsize0|].
    assert (tile_cell g b' tr' tc' gr' p' c' k = tile_cell g b tr tc gr p c k) as Ecell by (rewrite !tile_pos_cell by done; by rewrite Epos).
    pose proof (cells_inj g _ _ _ _ _ _ _ _ _ _ _ _ _ _ Hin' Hin Ecell) as [= -> -> -> -> -> ->]. fold row in Hr'. fold col in Hc'.
    apply andb_false_iff in E as [E%Z.ltb_ge|E%Z.ltb_ge]; lia.
Qed.
End target.

(** ** Matrices under a two-dimensional tile *)
Definition matrix_tiles (ts : list Tile) (P tH tW : Z) : Prop :=
  (ts = [[tH; tW]] ∧ P = 1) ∨ ts = [[tH; tW]; [P; 1]].
Lemma ceil_exact_div a b : 0 < b → a `mod` b = 0 → ceil_div a b = a / b.
Proof.
  intros Hb Hm. unfold ceil_div. pose proof (Z.div_mod a b ltac:(lia)) as Hd. rewrite Hm in Hd. symmetry. apply Z.div_unique with (b - 1); lia.
Qed.
Section matrix.
Context (ts : list Tile) (P tH tW : Z) (Hts : matrix_tiles ts P tH tW).
Context (HP : 0 < P) (HtH : 0 < tH) (HtW : 0 < tW) (Hdiv : tH `mod` P = 0).
Lemma nested_matrix_shape bd H W :
  product (nested_shape (bd ++ [H; W]) ts) = product bd * ceil_div H tH * ceil_div W tW * (tH * tW).
Proof using HP HtH HtW Hdiv Hts.
  destruct Hts as [[-> ->]| ->]; cbn [nested_shape foldl]; rewrite tile_shape_app by done; cbn [zip_with app].
  - rewrite product_app, !product_cons. change (product []) with 1. ring.
  - change (bd ++ [ceil_div H tH; ceil_div W tW; tH; tW]) with (bd ++ [ceil_div H tH; ceil_div W tW] ++ [tH; tW]). rewrite app_assoc.
    rewrite tile_shape_app by done. cbn [zip_with app]. rewrite (ceil_exact_div tH P), (ceil_exact_div tW 1), Z.div_1_r by (done || apply Z.mod_1_r).
    rewrite !product_app, !product_cons. change (product []) with 1. pose proof (Z.div_mod tH P ltac:(lia)) as Hd. rewrite Hdiv in Hd.
    replace (tH * tW) with (tH / P * P * tW) by (rewrite (Z.mul_comm (tH / P)); lia). ring.
Qed.
Lemma nested_matrix_index bd bi H W row col : length bd = length bi →
  linear (nested_shape (bd ++ [H; W]) ts) (nested_index (bi ++ [row; col]) ts) =
  ((((linear bd bi * ceil_div H tH + row / tH) * ceil_div W tW + col / tW) * (tH / P) + row `mod` tH / P) * tW + col `mod` tW) * P + (row `mod` tH) `mod` P.
Proof using HP HtH HtW Hdiv Hts.
  intros Hl. destruct Hts as [[-> ->]| ->]; cbn [nested_shape nested_index foldl]; rewrite tile_shape_app, tile_index_app by done; cbn [zip_with app].
  - unfold linear. rewrite linear_from_app by done. cbn [linear_from]. rewrite !Z.div_1_r, !Z.mod_1_r. ring.
  - change (bd ++ [ceil_div H tH; ceil_div W tW; tH; tW]) with (bd ++ [ceil_div H tH; ceil_div W tW] ++ [tH; tW]).
    change (bi ++ [row / tH; col / tW; row `mod` tH; col `mod` tW]) with (bi ++ [row / tH; col / tW] ++ [row `mod` tH; col `mod` tW]). rewrite !app_assoc.
    rewrite tile_shape_app, tile_index_app by done. cbn [zip_with app]. rewrite (ceil_exact_div tH P), (ceil_exact_div tW 1), !Z.div_1_r, !Z.mod_1_r by (done || apply Z.mod_1_r).
    unfold linear. rewrite !linear_from_app by (rewrite ?length_app; cbn; lia). cbn [linear_from]. ring.
Qed.
Lemma nested_widen W c : nested_shape [W] ts = nested_shape [1; W] ts ∧ nested_index [c] ts = nested_index [0; c] ts.
Proof using HP Hdiv Hts. destruct Hts as [[-> ->]| ->]; done. Qed.
End matrix.

(** ** What the tests of the layout say *)
Ltac split_bools := repeat match goal with
  | H : (_ && _) = true |- _ => apply andb_true_iff in H as [? ?]
  | H : (_ =? _) = true |- _ => apply Z.eqb_eq in H
  | H : (_ <=? _) = true |- _ => apply Z.leb_le in H
  end.
Lemma tile_rank_1 t : tile_rank t 1 = true → ∃ a, t = [a].
Proof. unfold tile_rank. intros H%Nat.eqb_eq. destruct t as [|a [|b t]]; try done. by exists a. Qed.
Lemma tile_rank_2 t : tile_rank t 2 = true → ∃ a b, t = [a; b].
Proof. unfold tile_rank. intros H%Nat.eqb_eq. destruct t as [|a [|b [|c t]]]; try done. by exists a, b. Qed.
Lemma forallb_seqZ (f : Z → bool) a n : forallb f (seqZ a n) = true → ∀ i, a <= i < a + n → f i = true.
Proof. intros H i Hi. rewrite forallb_forall in H. apply H, list_elem_of_In, elem_of_seqZ. lia. Qed.
Lemma tiles_ok_pos layout : tiles_ok layout = true → Forall (Forall (λ t, 0 < t)) (tiles layout).
Proof.
  unfold tiles_ok. intros [_ H]%andb_true_iff. apply Forall_forall. intros t Ht%list_elem_of_In. rewrite forallb_forall in H.
  apply H, andb_true_iff in Ht as [_ Ht]. apply Forall_forall. intros x Hx%list_elem_of_In. rewrite forallb_forall in Ht. by apply Z.ltb_lt, Ht.
Qed.

#[local] Arguments tile_rank : simpl never.

Section standard.
Context {xla : Xla} {xlal : XlaLaws} (shape : Shape) (layout : Layout).
Abbreviation dims := (dimensions shape).
Abbreviation m := (minor_to_major layout).
Abbreviation isz := (ByteSizeOfPrimitiveType (element_type shape)).
Context (Hdims : Forall (λ d, 0 <= d) dims) (Hisz : 0 < isz).
Lemma packs_packing P sub : packs P sub isz = true → packing P isz ∧ sub = 1.
Proof. unfold packs, packing. intros [->%Z.eqb_eq [[->%Z.eqb_eq ->%Z.eqb_eq]%andb_true_iff|[->%Z.eqb_eq ->%Z.eqb_eq]%andb_true_iff]%orb_true_iff]%andb_true_iff; lia. Qed.

Section rows.
Context (Hstd : IsStandardRowMajorTiled shape layout = true).
Lemma row_rank : 1 <= rank shape.
Proof using Hstd. unfold IsStandardRowMajorTiled in Hstd. split_bools. done. Qed.
Lemma row_tiles_pos : Forall (Forall (λ t, 0 < t)) (tiles layout).
Proof using Hstd. unfold IsStandardRowMajorTiled in Hstd. split_bools. by apply tiles_ok_pos. Qed.
Lemma row_order i : 0 <= i < rank shape → dim m i = rank shape - 1 - i.
Proof using Hstd.
  intros Hi. unfold IsStandardRowMajorTiled in Hstd. split_bools. apply Z.eqb_eq. by apply (forallb_seqZ (λ i, dim m i =? rank shape - 1 - i) 0 (rank shape)).
Qed.
Lemma row_permuted l : length l = length dims → permuted m l = l.
Proof using Hstd. intros Hl. apply permuted_row. rewrite Hl. apply row_order. Qed.
(** A two-dimensional tile, perhaps packed further; or a one-dimensional tensor with
    one-dimensional tiles. *)
Lemma row_matrix_tiles :
  ((rank shape =? 1) && tile_rank (tile_at layout 0) 1) = false →
  ∃ tH tW, matrix_tiles (tiles layout) (packing_of layout) tH tW ∧ group_of (packing_of layout) isz ∧ tH `mod` packing_of layout = 0.
Proof using Hstd.
  intros Hline. pose proof Hstd as Hs. unfold IsStandardRowMajorTiled in Hs. apply andb_true_iff in Hs as [_ Hs]. unfold packing_of, tile_at in *.
  destruct (tiles layout) as [|t0 [|t1 [|t2 [|t3 ts]]]]; try done; cbn in *.
  - apply orb_true_iff in Hs as [(tH & tW & ->)%tile_rank_2|Hs]; [|by rewrite Hs in Hline]. exists tH, tW. split; [by left|]. split; [by left|]. apply Z.mod_1_r.
  - destruct (tile_rank t0 2 && tile_rank t1 2) eqn:E2; [|destruct ((rank shape =? 1) && tile_rank t0 1) eqn:E1; [done|cbn in Hs; done]].
    apply andb_true_iff in E2 as [(tH & tW & ->)%tile_rank_2 (P & sub & ->)%tile_rank_2]. apply andb_true_iff in Hs as [[Hp Hsub]%packs_packing Hm%Z.eqb_eq].
    change (sub = 1) in Hsub. subst sub. exists tH, tW. split; [by right|]. split; [by right|done].
  - destruct ((rank shape =? 1) && tile_rank t0 1) eqn:E1; [done|]. cbn in Hs. done.
Qed.
End rows.

Section cols.
Context (Hstd : IsStandardColMajorTiled shape layout = true).
Lemma col_rank : 2 <= rank shape.
Proof using Hstd. unfold IsStandardColMajorTiled in Hstd. split_bools. done. Qed.
Lemma col_tiles_pos : Forall (Forall (λ t, 0 < t)) (tiles layout).
Proof using Hstd. unfold IsStandardColMajorTiled in Hstd. split_bools. by apply tiles_ok_pos. Qed.
Lemma col_order : dim m 0 = rank shape - 2 ∧ dim m 1 = rank shape - 1 ∧ ∀ i, 2 <= i < rank shape → dim m i = rank shape - 1 - i.
Proof using Hstd.
  unfold IsStandardColMajorTiled in Hstd. split_bools. split; [done|]. split; [done|]. intros i Hi. apply Z.eqb_eq.
  apply (forallb_seqZ (λ i, dim m i =? rank shape - 1 - i) 2 (rank shape - 2)); [done|lia].
Qed.
Lemma col_permuted l x y : length (l ++ [x; y]) = length dims → permuted m (l ++ [x; y]) = l ++ [y; x].
Proof using Hstd.
  intros Hl. destruct col_order as (H0 & H1 & H2). assert (rank shape = Z.of_nat (length l) + 2) as E by (unfold rank; rewrite <- Hl, length_app; cbn; lia).
  rewrite E in *. by apply permuted_col.
Qed.
Lemma col_matrix_tiles : ∃ tH tW, matrix_tiles (tiles layout) (packing_of layout) tH tW ∧ tH `mod` packing_of layout = 0.
Proof using Hstd.
  pose proof Hstd as Hs. unfold IsStandardColMajorTiled in Hs. apply andb_true_iff in Hs as [_ Hs]. unfold packing_of, tile_at in *.
  destruct (tiles layout) as [|t0 [|t1 [|t2 ts]]]; try done; cbn in *.
  - apply tile_rank_2 in Hs as (tH & tW & ->). exists tH, tW. split; [by left|]. apply Z.mod_1_r.
  - repeat apply andb_true_iff in Hs as [Hs ?]. split_bools. apply tile_rank_2 in Hs as (tH & tW & ->).
    match goal with H : tile_rank t1 2 = true |- _ => apply tile_rank_2 in H as (P & sub & ->) end. match goal with H : dim [P; sub] 1 = 1 |- _ => change (sub = 1) in H; subst sub end. exists tH, tW. split; [by right|done].
Qed.
End cols.
End standard.

(** ** The charts of the standard layouts *)
Section matrix_charts.
Context {xla : Xla} {xlal : XlaLaws} (shape : Shape) (layout : Layout).
Abbreviation dims := (dimensions shape).
Abbreviation m := (minor_to_major layout).
Abbreviation isz := (ByteSizeOfPrimitiveType (element_type shape)).
Abbreviation P := (packing_of layout).
Context (Hdims : Forall (λ d, 0 <= d) dims) (Hisz : 0 < isz).
Context (tH tW : Z) (Hts : matrix_tiles (tiles layout) P tH tW) (Hpos : Forall (Forall (λ t, 0 < t)) (tiles layout)) (Hdiv : tH `mod` P = 0).
Lemma matrix_tiles_pos : 0 < P ∧ 0 < tH ∧ 0 < tW.
Proof using Hts Hpos.
  clear Hdiv. set (p := P) in *. clearbody p. destruct Hts as [[E ->]|E]; rewrite E, !Forall_cons in Hpos; destruct_and! Hpos; lia.
Qed.
Lemma tile_dims : tile_at layout 0 = [tH; tW].
Proof using Hts. clear Hdiv Hpos. unfold tile_at. by destruct Hts as [[-> _]| ->]. Qed.
Definition matrix_geometry (bd : list Z) (H W : Z) : RowMajorTileGeometry :=
  mkGeom H W isz tH tW P (ceil_div H tH) (ceil_div W tW) (product bd).

Section chart.
Context (bd : list Z) (H W : Z) (Hbd : Forall (λ d, 0 <= d) bd) (HH : 0 <= H) (HW : 0 <= W).
Context (mk : list Z → Z → Z → list Z) (lin : Z → Z → Z → Z).
Context (mk_all : ∀ idx, in_dims dims idx → ∃ bi row col, idx = mk bi row col ∧ in_dims bd bi ∧ 0 <= row < H ∧ 0 <= col < W).
Context (mk_in : ∀ bi row col, in_dims bd bi → 0 <= row < H → 0 <= col < W → in_dims dims (mk bi row col)).
Context (mk_linear : ∀ bi row col, in_dims bd bi → 0 <= row < H → 0 <= col < W → linear dims (mk bi row col) = lin (linear bd bi) row col).
Context (mk_position : ∀ bi row col, in_dims bd bi → 0 <= row < H → 0 <= col < W →
  position shape layout (mk bi row col) = linear (nested_shape (bd ++ [H; W]) (tiles layout)) (nested_index (bi ++ [row; col]) (tiles layout))).
Context (mk_cells : product (tiled_dims shape layout) = product (nested_shape (bd ++ [H; W]) (tiles layout))).
Context (mk_size : product dims = product bd * H * W).
Lemma matrix_chart : chart shape layout (matrix_geometry bd H W) lin.
Proof using All.
  pose proof matrix_tiles_pos as (HP & HtH & HtW). pose proof (product_nonneg bd Hbd) as Hb.
  split; cbn; try done.
  - rewrite mk_cells, (nested_matrix_shape _ P tH tW) by done. unfold total_tiled_bytes, tiled_matrix_size_bytes, tile_size_bytes. cbn. ring.
  - rewrite mk_size. unfold matrix_size_bytes. cbn. ring.
  - intros idx Hi. destruct (mk_all idx Hi) as (bi & row & col & -> & Hbi & Hr & Hc). exists (linear bd bi), row, col.
    split; [split_and!; try lia; cbn; apply linear_range in Hbi; lia|]. rewrite mk_linear, mk_position by done. split; [done|].
    unfold tile_pos. cbn. apply nested_matrix_index; try done. by eapply Forall2_length.
  - intros b row col (Hbb & Hr & Hc). cbn in *. destruct (linear_surj bd b Hbd Hbb) as (bi & Hbi & <-). exists (mk bi row col).
    split; [by apply mk_in|]. rewrite mk_linear, mk_position by done. split; [done|]. unfold tile_pos. cbn. apply nested_matrix_index; try done. by eapply Forall2_length.
Qed.
End chart.

(** The last two dimensions and the batch. *)
Lemma last_two (l : list Z) : (2 <= length l)%nat → ∃ bd x y, l = bd ++ [x; y].
Proof.
  intros Hl. destruct l as [|y l _] using rev_ind; [cbn in Hl; lia|]. rewrite length_app in Hl. destruct l as [|x l _] using rev_ind; [cbn in Hl; lia|].
  exists l, x, y. by rewrite <- app_assoc.
Qed.
Lemma in_dims_last bd x y idx : in_dims (bd ++ [x; y]) idx → ∃ bi i j, idx = bi ++ [i; j] ∧ in_dims bd bi ∧ 0 <= i < x ∧ 0 <= j < y.
Proof.
  intros (bi & l & Hbi & Hl & ->)%Forall2_app_inv_l. inversion Hl as [|? i ? l1 Hi Hl1]; subst. inversion Hl1 as [|? j ? l2 Hj Hl2]; subst. inversion Hl2; subst. by exists bi, i, j.
Qed.
Lemma in_dims_snoc bd x y bi i j : in_dims bd bi → 0 <= i < x → 0 <= j < y → in_dims (bd ++ [x; y]) (bi ++ [i; j]).
Proof. intros Hb Hi Hj. apply Forall2_app; [done|]. constructor; [done|]. constructor; [done|]. constructor. Qed.
Lemma linear_last bd x y bi i j : in_dims bd bi → linear (bd ++ [x; y]) (bi ++ [i; j]) = (linear bd bi * x + i) * y + j.
Proof. intros Hb. unfold linear. by rewrite linear_from_app by (by eapply Forall2_length). Qed.
Lemma batch_spec bd x y : dims = bd ++ [x; y] → (∀ i, 2 <= i < rank shape → dim m i = rank shape - 1 - i) → batch_of shape layout = product bd.
Proof.
  intros E Hm. assert (rank shape = Z.of_nat (length bd) + 2) as Hr by (unfold rank; rewrite E, length_app; cbn; lia).
  rewrite <- (product_perm (reverse bd) bd) by apply reverse_Permutation. unfold batch_of.
  assert (∀ l a, foldl (λ n i, n * minor_dim shape layout i) a l = foldl Z.mul a (minor_dim shape layout <$> l)) as -> by (induction l; intros; cbn; [done|auto]).
  unfold product. f_equal. rewrite Hr. replace (Z.of_nat (length bd) + 2 - 2) with (Z.of_nat (length bd)) by lia.
  apply (list_eq_same_length _ _ (length bd)); [by rewrite length_reverse|rewrite length_fmap, length_seqZ; lia|].
  intros j a b Hj Ha Hb. rewrite list_lookup_fmap, lookup_seqZ_lt in Ha by lia. injection Ha as <-. rewrite reverse_lookup in Hb by done.
  unfold minor_dim. rewrite Hm, Hr by lia. replace (Z.of_nat (length bd) + 2 - 1 - (2 + Z.of_nat j)) with (Z.of_nat (length bd - S j)) by lia.
  apply dim_lookup. rewrite E. by apply lookup_app_l_Some.
Qed.
Lemma dim_last bd x y : dims = bd ++ [x; y] → dim dims (rank shape - 2) = x ∧ dim dims (rank shape - 1) = y.
Proof.
  intros E. unfold rank. rewrite E, length_app. cbn [length]. split.
  - replace (Z.of_nat (length bd + 2) - 2) with (Z.of_nat (length bd)) by lia. apply dim_lookup. by rewrite lookup_app_r, Nat.sub_diag by lia.
  - replace (Z.of_nat (length bd + 2) - 1) with (Z.of_nat (length bd + 1)) by lia. apply dim_lookup. by rewrite lookup_app_r, Nat.add_comm, Nat.add_sub by lia.
Qed.

Lemma row_chart :
  IsStandardRowMajorTiled shape layout = true →
  chart shape layout (ComputeRowMajorTileGeometry shape layout) (row_major (ComputeRowMajorTileGeometry shape layout)).
Proof using xlal Hdims Hisz Hts Hpos Hdiv.
  intros Hstd. pose proof matrix_tiles_pos as (HP & HtH & HtW). pose proof (row_rank shape layout Hstd) as Hr.
  pose proof (row_permuted shape layout Hstd) as Hperm. pose proof (row_order shape layout Hstd) as Hord.
  destruct (decide (rank shape = 1)) as [E1|E1].
  - assert (∃ W, dims = [W]) as [W EW] by (unfold rank in E1; destruct dims as [|W [|? ?]]; cbn in E1; try lia; by exists W).
    assert (0 <= W) as HW by (rewrite EW in Hdims; by apply Forall_cons in Hdims as [? _]).
    assert (ComputeRowMajorTileGeometry shape layout = matrix_geometry [] 1 W) as ->.
    { unfold ComputeRowMajorTileGeometry, matrix_geometry, batch_of, minor_dim. rewrite E1, tile_dims. cbn -[dim CeilOfRatio packing_of]. rewrite Hord, E1, EW by lia. cbn -[CeilOfRatio packing_of].
      by rewrite !CeilOfRatio_spec by (done || lia). }
    assert (∀ bi, in_dims [] bi → bi = []) as Hnil by (intros bi Hb; by inversion Hb).
    apply (matrix_chart [] 1 W) with (mk := λ _ _ col, [col]); try done.
    + intros idx Hi. rewrite EW in Hi. inversion Hi as [|? col ? l Hc Hl]; subst. inversion Hl; subst. exists [], 0, col. split_and!; try done; lia.
    + intros bi row col _ _ Hc. rewrite EW. constructor; [done|constructor].
    + intros bi row col ->%Hnil Hr' Hc. rewrite EW. cbn. unfold row_major. cbn. lia.
    + intros bi row col ->%Hnil Hr' Hc. assert (row = 0) as -> by lia. unfold position, tiled_dims. rewrite !Hperm by (by rewrite EW). rewrite EW.
      destruct (nested_widen _ _ _ _ Hts HP Hdiv W col) as [-> ->]. done.
    + unfold tiled_dims. rewrite Hperm, EW by done. by destruct (nested_widen _ _ _ _ Hts HP Hdiv W 0) as [-> _].
    + rewrite EW. cbn. lia.
  - destruct (last_two dims) as (bd & H & W & E); [unfold rank in *; lia|]. destruct (dim_last bd H W E) as [EH EW].
    assert (Forall (λ d, 0 <= d) bd ∧ 0 <= H ∧ 0 <= W) as (Hbd & HH & HW) by (rewrite E, Forall_app, !Forall_cons in Hdims; tauto).
    assert (ComputeRowMajorTileGeometry shape layout = matrix_geometry bd H W) as ->.
    { unfold ComputeRowMajorTileGeometry, matrix_geometry. rewrite (batch_spec bd H W E), tile_dims by (intros i Hi; apply Hord; lia).
      unfold minor_dim. rewrite !Hord by lia. rewrite (proj2 (Z.eqb_neq _ _) E1). replace (rank shape - 1 - 1) with (rank shape - 2) by lia. rewrite Z.sub_0_r, EH, EW. cbn -[packing_of CeilOfRatio].
      by rewrite !CeilOfRatio_spec. }
    apply (matrix_chart bd H W) with (mk := λ bi row col, bi ++ [row; col]); try done; rewrite ?E.
    + intros idx Hi. by apply in_dims_last.
    + intros bi row col Hb Hr' Hc. by apply in_dims_snoc.
    + intros bi row col Hb Hr' Hc. by rewrite linear_last.
    + intros bi row col Hb Hr' Hc. unfold position, tiled_dims. rewrite !Hperm, E; [done| |done]. rewrite E, !length_app. f_equal. symmetry. by eapply Forall2_length.
    + unfold tiled_dims. by rewrite Hperm, E.
    + rewrite product_app, !product_cons. change (product []) with 1. ring.
Qed.
Lemma col_chart :
  IsStandardColMajorTiled shape layout = true →
  chart shape layout (ColMajorGeometry shape layout) (col_major (ColMajorGeometry shape layout)).
Proof using xlal Hdims Hisz Hts Hpos Hdiv.
  intros Hstd. pose proof matrix_tiles_pos as (HP & HtH & HtW). pose proof (col_rank shape layout Hstd) as Hr.
  pose proof (col_permuted shape layout Hstd) as Hperm. destruct (col_order shape layout Hstd) as (Hm0 & Hm1 & Hm2).
  destruct (last_two dims) as (bd & W & H & E); [unfold rank in *; lia|]. destruct (dim_last bd W H E) as [EW EH].
  assert (Forall (λ d, 0 <= d) bd ∧ 0 <= W ∧ 0 <= H) as (Hbd & HW & HH) by (rewrite E, Forall_app, !Forall_cons in Hdims; tauto).
  assert (ColMajorGeometry shape layout = matrix_geometry bd H W) as ->.
  { unfold ColMajorGeometry, matrix_geometry. rewrite (batch_spec bd W H E), tile_dims by done. unfold minor_dim. rewrite Hm0, Hm1, EW, EH. cbn -[packing_of CeilOfRatio].
    by rewrite !CeilOfRatio_spec. }
  apply (matrix_chart bd H W) with (mk := λ bi row col, bi ++ [col; row]); try done; rewrite ?E.
  - intros idx Hi. destruct (in_dims_last _ _ _ _ Hi) as (bi & col & row & -> & Hbi & Hc & Hr'). by exists bi, row, col.
  - intros bi row col Hb Hr' Hc. by apply in_dims_snoc.
  - intros bi row col Hb Hr' Hc. by rewrite linear_last.
  - intros bi row col Hb Hr' Hc. unfold position, tiled_dims. rewrite E, (Hperm bd), (Hperm bi); [done| |by rewrite E]. rewrite E, !length_app. f_equal. symmetry. by eapply Forall2_length.
  - unfold tiled_dims. by rewrite E, Hperm by (by rewrite E).
  - rewrite product_app, !product_cons. change (product []) with 1. ring.
Qed.
End matrix_charts.

(** ** One-dimensional tensors *)
Section line_charts.
Context {xla : Xla} {xlal : XlaLaws} (shape : Shape) (layout : Layout).
Abbreviation isz := (ByteSizeOfPrimitiveType (element_type shape)).
Context (W : Z) (EW : dimensions shape = [W]) (HW : 0 <= W) (Hisz : 0 < isz) (Hstd : IsStandardRowMajorTiled shape layout = true).
Context (Hline : tile_rank (tile_at layout 0) 1 = true).
Lemma line_index idx : in_dims (dimensions shape) idx ↔ ∃ e, idx = [e] ∧ 0 <= e < W.
Proof using EW.
  rewrite EW. split.
  - intros Hi. inversion Hi as [|? e ? l He Hl]; subst. inversion Hl; subst. by exists e.
  - intros (e & -> & He). constructor; [done|constructor].
Qed.
Lemma line_position e : position shape layout [e] = linear (nested_shape [W] (tiles layout)) (nested_index [e] (tiles layout)).
Proof using EW Hstd. unfold position, tiled_dims. by rewrite !(row_permuted shape layout Hstd), EW by (by rewrite EW). Qed.
Lemma line_cells : product (tiled_dims shape layout) = product (nested_shape [W] (tiles layout)).
Proof using EW Hstd. unfold tiled_dims. by rewrite (row_permuted shape layout Hstd), EW by done. Qed.

Section flat.
Context (n : Z) (Hn : product (tiled_dims shape layout) = n) (Hpos : ∀ e, 0 <= e < W → position shape layout [e] = e).
Lemma flat_tiled S pos v : flat_line W n isz S pos v → tiles_to shape layout S pos v.
Proof using EW Hn Hpos.
  intros (e & k & He & Hk & -> & ->). unfold line_value. destruct (Z.ltb_spec e W) as [Hlt|Hge].
  - left. exists [e], k. split; [apply line_index; exists e; split; [done|lia]|]. split; [done|]. rewrite Hpos by lia. rewrite EW. done.
  - right. exists e, k. split; [lia|]. split; [done|]. split; [|done]. intros idx (e' & -> & He')%line_index. rewrite Hpos by lia. lia.
Qed.
Lemma flat_untiled S pos : 0 <= pos < W * isz → untiles_to shape layout S pos (byte_at S pos).
Proof using EW Hisz Hpos.
  intros Hp. destruct (split_pos pos W isz) as (e & k & He & Hk & ->); [done..|]. exists [e], k. split; [by apply line_index; exists e|].
  split; [done|]. rewrite Hpos, EW by done. done.
Qed.
End flat.

Section packed.
Context (geom : Packed1DTileGeometry) (Hok : line_ok geom W isz) (Hn : product (tiled_dims shape layout) * isz = line_bytes geom isz).
Context (Hpos : ∀ g p c k, in_line geom isz g p c k → line_element geom g p c < W →
  position shape layout [line_element geom g p c] * isz + k = line_cell geom isz g p c k).
Lemma packed_untiled S pos v : untiled_line geom W isz S pos v → untiles_to shape layout S pos v.
Proof using EW Hpos.
  intros (g & p & c & k & Hin & Hlt & -> & ->). pose proof Hin as (_ & _ & _ & Hk). exists [line_element geom g p c], k.
  split; [apply line_index; eexists; split; [done|]; pose proof (element_range geom isz g p c k Hin); lia|]. split; [done|]. rewrite EW. split; [done|]. by rewrite Hpos.
Qed.
Lemma packed_tiled S pos v : tiled_line geom W isz S pos v → tiles_to shape layout S pos v.
Proof using EW Hisz Hn Hpos Hok.
  intros (g & p & c & k & Hin & -> & ->). pose proof Hin as (Hg & Hp & Hc & Hk). pose proof (element_range geom isz g p c k Hin) as He. unfold line_value.
  destruct (Z.ltb_spec (line_element geom g p c) W) as [Hlt|Hge].
  - left. exists [line_element geom g p c], k. split; [apply line_index; eexists; split; [done|lia]|]. split; [done|]. rewrite EW. split; [|done]. by rewrite Hpos.
  - right. exists ((g * k_tile_W geom + c) * k_P geom + p), k. split; [|split; [done|split; [|done]]].
    + pose proof (cell_in_group geom isz g p c k Hin) as Hcell. pose proof (group_bytes_pos geom W isz Hok) as Hgb. pose proof (line_cell_eq geom isz g p c k) as El.
      unfold line_bytes, line_cell in *. nia.
    + intros idx (e & -> & He')%line_index Eq. destruct (line_element_cell geom W isz Hok e) as (g' & p' & c' & Hg' & Hp' & Hc' & ->); [lia|].
      assert (in_line geom isz g' p' c' k) as Hin' by done. pose proof (Hpos _ _ _ _ Hin' ltac:(lia)) as E. rewrite Eq in E. unfold line_cell in E.
      assert ((g * k_tile_W geom + c) * k_P geom + p = (g' * k_tile_W geom + c') * k_P geom + p') as E1 by nia.
      destruct (digits (g * k_tile_W geom + c) _ _ Hp) as [Ea Eb], (digits (g' * k_tile_W geom + c') _ _ Hp') as [Ea' Eb'].
      assert (g * k_tile_W geom + c = g' * k_tile_W geom + c' ∧ p = p') as [E2 ->] by (split; congruence).
      destruct (digits g _ _ Hc) as [Ec Ed], (digits g' _ _ Hc') as [Ec' Ed']. assert (g = g' ∧ c = c') as [-> ->] by (split; congruence). lia.
Qed.
End packed.

(** The tiles of the standard one-dimensional layouts. *)
Lemma line_tiles :
  (∃ a, tiles layout = [[a]]) ∨ (∃ a b, tiles layout = [[a]; [b]] ∧ a `mod` b = 0) ∨
  (∃ tW P, tiles layout = [[tW]; [P; 1]] ∧ packing P isz) ∨
  (∃ o tW P, tiles layout = [[o]; [tW]; [P; 1]] ∧ packing P isz ∧ o `mod` tW = 0 ∧ (o / tW) `mod` P = 0).
Proof using Hstd Hline.
  pose proof Hstd as Hs. unfold IsStandardRowMajorTiled in Hs. apply andb_true_iff in Hs as [_ Hs]. unfold tile_at in Hline.
  destruct (tiles layout) as [|t0 [|t1 [|t2 [|t3 ts]]]]; try done; cbn in *; apply tile_rank_1 in Hline as [a ->]; cbn in Hs.
  - left. by exists a.
  - right. change (tile_rank [a] 2) with false in Hs. change (tile_rank [a] 1) with true in Hs. cbn in Hs. rewrite andb_true_r in Hs.
    destruct (rank shape =? 1); [|done]. cbn in Hs. destruct (tile_rank t1 2) eqn:E2.
    + right. left. apply tile_rank_2 in E2 as (P & sub & ->). apply packs_packing in Hs as [Hp Hsub]. change (sub = 1) in Hsub. subst sub. by exists a, P.
    + left. destruct (tile_rank t1 1) eqn:E1; [|done]. apply tile_rank_1 in E1 as [b ->]. apply Z.eqb_eq in Hs. by exists a, b.
  - right. right. right. split_bools. repeat match goal with H : tile_rank _ 1 = true |- _ => apply tile_rank_1 in H as [? ?] | H : tile_rank _ 2 = true |- _ => apply tile_rank_2 in H as (? & ? & ?) end. subst.
    match goal with H : packs _ _ _ = true |- _ => apply packs_packing in H as [Hp Hsub] end. cbn in Hsub. eexists _, _, _. split; [by rewrite <- Hsub|done].
Qed.
Lemma line_unpacked :
  tile_rank (last_tile layout) 1 = true →
  product (tiled_dims shape layout) = physical_elements W (dim (tile_at layout 0) 0) ∧
  W <= physical_elements W (dim (tile_at layout 0) 0) ∧ ∀ e, 0 <= e < W → position shape layout [e] = e.
Proof using xlal EW HW Hstd Hline.
  intros Hlast. rewrite line_cells. pose proof line_position as Hp. pose proof (row_tiles_pos shape layout Hstd) as Hpos. unfold last_tile, tile_at in *.
  destruct line_tiles as [(a & E)|[(a & b & E & Hm)|[(tW & P & E & _)|(o & tW & P & E & _)]]]; rewrite E in *; try done; rewrite !Forall_cons in Hpos; destruct_and! Hpos;
    change (dim (default [] (_ !! 0%nat)) 0) with a; unfold physical_elements; (rewrite CeilOfRatio_spec by lia); (destruct (ceil_spec W a (ceil_div W a)) as [Hc0 Hc1]; [done..|]).
  - split; [cbn; ring|]. split; [lia|]. intros e He. rewrite Hp. cbn. pose proof (Z.div_mod e a ltac:(lia)). lia.
  - pose proof (Z.div_mod a b ltac:(lia)) as Hd. rewrite Hm in Hd. split.
    + cbn -[ceil_div Z.mul]. rewrite (ceil_exact_div a b) by lia. unfold product. cbn -[Z.mul]. rewrite (Z.mul_comm (1 * _)). nia.
    + split; [lia|]. intros e He. rewrite Hp. cbn -[ceil_div Z.mul Z.add Z.div Z.modulo]. rewrite (ceil_exact_div a b) by lia.
      pose proof (Z.div_mod e a ltac:(lia)). pose proof (Z.div_mod (e `mod` a) b ltac:(lia)). nia.
Qed.

Abbreviation geom := (ComputePacked1DTileGeometry W layout).
Lemma line_packed :
  tile_rank (last_tile layout) 1 = false →
  packing (k_P geom) isz ∧ line_ok geom W isz ∧ product (tiled_dims shape layout) * isz = line_bytes geom isz ∧
  ∀ g p c k, in_line geom isz g p c k → line_element geom g p c < W →
    position shape layout [line_element geom g p c] * isz + k = line_cell geom isz g p c k.
Proof using xlal EW HW Hisz Hstd Hline.
  intros Hlast. rewrite line_cells. pose proof line_position as Hp. pose proof (row_tiles_pos shape layout Hstd) as Hpos.
  unfold ComputePacked1DTileGeometry, last_tile, tile_at in *.
  destruct line_tiles as [(a & E)|[(a & b & E & Hm)|[(tW & P & E & Hpk)|(o & tW & P & E & Hpk & Hm1 & Hm2)]]]; rewrite E in *; try done;
    rewrite !Forall_cons in Hpos; destruct_and! Hpos; assert (0 < P) as HP by lia; assert (0 < tW) as HtW by lia; cbn -[ceil_div Z.mul Z.add Z.div Z.modulo CeilOfRatio product in_line line_cell line_element];
    unfold line_bytes, in_line, line_cell, line_element, group_bytes, group_elems; cbn -[ceil_div Z.mul Z.add Z.div Z.modulo CeilOfRatio product];
    change (dim [P; 1] 0) with P; change (dim [tW] 0) with tW.
  - destruct (ceil_spec W tW (ceil_div W tW)) as [Hc0 Hc1]; [done..|]. rewrite (CeilOfRatio_spec W tW), (CeilOfRatio_spec (ceil_div W tW) P) by lia.
    destruct (ceil_spec (ceil_div W tW) P (ceil_div (ceil_div W tW) P)) as [Hd0 Hd1]; [done..|]. set (n := ceil_div (ceil_div W tW) P) in *.
    rewrite (ceil_exact_div tW 1), Z.div_1_r by (lia || apply Z.mod_1_r). split; [done|]. split; [|split].
    + split; unfold group_elems; cbn [k_P k_tile_W k_total_groups]; try done. assert (ceil_div W tW * tW <= n * P * tW) by (apply Z.mul_le_mono_nonneg_r; lia). lia.
    + unfold product. cbn -[Z.mul]. ring.
    + intros g p c k (Hg & Hpp & Hc & Hk) Hlt. rewrite Hp. cbn -[ceil_div Z.mul Z.add Z.div Z.modulo]. fold n. rewrite (ceil_exact_div tW 1), !Z.div_1_r, !Z.mod_1_r by (lia || apply Z.mod_1_r).
      destruct (digits (g * P + p) tW c Hc) as [-> ->], (digits g P p Hpp) as [-> ->]. ring.
  - change (dim [o] 0) with o. destruct (ceil_spec W o (ceil_div W o)) as [Hc0 Hc1]; [done..|lia|done|]. rewrite CeilOfRatio_spec by lia. set (no := ceil_div W o) in *.
    pose proof (Z.div_mod o tW ltac:(lia)) as Ho. pose proof (Z.div_mod (o / tW) P ltac:(lia)) as Hq. rewrite Hm1 in Ho. rewrite Hm2 in Hq.
    assert (0 <= o / tW) as Ho0 by (apply Z.div_pos; lia). pose proof (Z.div_pos (o / tW) P Ho0 HP) as Hg3. 
    rewrite (ceil_exact_div o tW), (ceil_exact_div (o / tW) P), (ceil_exact_div tW 1), Z.div_1_r by (lia || apply Z.mod_1_r).
    set (G := o / tW / P) in *. assert (o = G * P * tW) as Eo by nia. assert (o / tW = G * P) as Ediv by lia. clearbody G. split; [done|]. split; [|split].
    + split; unfold group_elems; cbn [k_P k_tile_W k_total_groups]; try done; nia.
    + unfold product. cbn -[Z.mul]. ring.
    + intros g p c k (Hg & Hpp & Hc & Hk) Hlt. rewrite Hp. cbn -[ceil_div Z.mul Z.add Z.div Z.modulo]. 
      rewrite (ceil_exact_div o tW), Ediv, (ceil_exact_div (G * P) P), (ceil_exact_div tW 1), Z.div_mul, !Z.div_1_r, !Z.mod_1_r by (lia || apply Z.mod_1_r || (apply Z.mod_mul; lia)).
      destruct (split_pos g no G) as (a & g' & Ha & Hg' & ->); [nia|done|]. assert (0 <= (g' * P + p) * tW + c < G * P * tW) as Hr by (apply join_pos; [by apply join_pos|done]).
      replace (((a * G + g') * P + p) * tW + c) with (a * o + ((g' * P + p) * tW + c)) by (rewrite Eo; ring). rewrite <- Eo in Hr.
      destruct (digits a o _ Hr) as [-> ->], (digits (g' * P + p) tW c Hc) as [-> ->], (digits g' P p Hpp) as [-> ->]. ring.
Qed.
End line_charts.
