(* ===== verification/TilingBuffers.v ===== *)
(** * TilingBuffers: tiling and detiling a buffer
    (TileBuffer between different buffers and DetileBuffer of
    src/tpu_sync/weight_sync/tiling_utils.cc)

    Whatever path the code takes for a layout, it leaves the nested tiling of the
    tensor, and back. *)

From S2P Require Import Prelude TileMemory Highway TilingUtils TilingTiles TilingParallel TilingRowMajor TilingLine TilingColMajor TilingIndex TilingCharts.

Lemma plan_ok_mono w M0 cap T T' C C' p :
  plan_ok w M0 cap T C p → (∀ pos v, T pos v → T' pos v) → (∀ pos, C' pos → C pos) → plan_ok w M0 cap T' C' p.
Proof.
  intros Hp HT HC. destruct p as [prog|total max_threads step task]; cbn in *; [eapply does_weaken; [by eapply does_mono|done]|].
  destruct Hp as (Hs & Hm & R & Hdis & Hd & Hcov). split; [done|]. split; [done|]. exists R. split; [done|]. split; [|by auto].
  intros i Hi. eapply does_weaken; [eapply does_mono; [by apply Hd|]|]; naive_solver.
Qed.
Lemma does_fmap {A} w M0 cap T (l : list A) (f : A → Cmd) (C : A → Z → Prop) :
  (∀ x, x ∈ l → does w M0 cap T [f x] (C x)) → does w M0 cap T (f <$> l) (λ pos, ∃ x, x ∈ l ∧ C x pos).
Proof. intros H. assert (f <$> l = l ≫= λ x, [f x]) as -> by (induction l as [|x l IH]; cbn; [done|rewrite IH; [done|intros y Hy; apply H; by right]]). by apply does_bind. Qed.

Section buffers.
Context {xla : Xla} {xlal : XlaLaws} {hw : Highway} {hwl : HighwayLaws} (shape : Shape) (layout : Layout).
Abbreviation dims := (dimensions shape).
Abbreviation isz := (ByteSizeOfPrimitiveType (element_type shape)).
Definition linear_bytes : Z := product dims * isz.
Definition tiled_bytes : Z := product (tiled_dims shape layout) * isz.
(** Without tiles the bytes are copied as they are, which is the layout only when the
    order of the dimensions is the default. *)
Definition tiled_or_default : Prop := tiles layout = [] → ∀ i, 0 <= i < rank shape → dim (minor_to_major layout) i = rank shape - 1 - i.
Context (Hok : layout_ok shape layout) (Hisz : 0 < isz).

(** ** Elements and cells *)
Lemma linear_bytes_nonneg : 0 <= linear_bytes.
Proof using Hok Hisz. pose proof (lk_dims _ _ Hok) as Hdims. unfold linear_bytes. pose proof (product_nonneg dims Hdims). nia. Qed.
Lemma tiled_bytes_nonneg : 0 <= tiled_bytes.
Proof using Hok Hisz. unfold tiled_bytes. pose proof (product_nonneg _ (tiled_dims_nonneg shape layout Hok)). nia. Qed.
Lemma byte_of_cell pos : 0 <= pos < tiled_bytes → ∃ q k, 0 <= q < product (tiled_dims shape layout) ∧ 0 <= k < isz ∧ pos = q * isz + k.
Proof using Hisz. intros Hp. destruct (split_pos pos (product (tiled_dims shape layout)) isz) as (q & k & Hq & Hk & ->); [done..|]. by exists q, k. Qed.
Lemma byte_of_element pos : 0 <= pos < linear_bytes → ∃ idx k, in_dims dims idx ∧ 0 <= k < isz ∧ pos = linear dims idx * isz + k.
Proof using Hok Hisz.
  intros Hp. pose proof (lk_dims _ _ Hok) as Hdims. destruct (split_pos pos (product dims) isz) as (q & k & Hq & Hk & ->); [done..|].
  destruct (linear_surj dims q Hdims Hq) as (idx & Hidx & <-). by exists idx, k.
Qed.
Lemma element_bytes idx : in_dims dims idx → 0 <= linear dims idx * isz ∧ linear dims idx * isz + isz <= linear_bytes.
Proof using Hisz. intros Hi%linear_range. unfold linear_bytes. nia. Qed.
Lemma cell_bytes idx : in_dims dims idx → 0 <= position shape layout idx * isz ∧ position shape layout idx * isz + isz <= tiled_bytes.
Proof using Hok Hisz. intros Hi%(position_range shape layout Hok). unfold tiled_bytes. nia. Qed.

Lemma line_dims : rank shape = 1 → ∃ W, dims = [W] ∧ 0 <= W ∧ dim dims 0 = W ∧ linear_bytes = W * isz.
Proof using Hok.
  intros E1. pose proof (lk_dims _ _ Hok) as Hdims. unfold rank in E1. destruct dims as [|W [|? ?]] eqn:EW; cbn in E1; try lia. exists W.
  apply Forall_cons in Hdims as [HW _]. split; [done|]. split; [done|]. split; [done|]. unfold linear_bytes. rewrite EW. unfold product. cbn [foldl]. ring.
Qed.

(** The cells of the elements. *)
Lemma element_cells : ∃ l : list Z, NoDup l ∧ (Z.to_nat (product dims) <= length l)%nat ∧
  (∀ q, q ∈ l → ∃ idx, in_dims dims idx ∧ position shape layout idx = q) ∧ l ⊆+ seqZ 0 (product (tiled_dims shape layout)).
Proof using Hok xlal.
  set (l := remove_dups (ForEachIndex shape)).
  assert (∀ idx, idx ∈ l ↔ in_dims dims idx) as Hl by (intros idx; unfold l; rewrite elem_of_remove_dups; apply ForEachIndex_spec).
  assert (seqZ 0 (product dims) ⊆+ linear dims <$> l) as Hsub.
  { apply NoDup_submseteq; [apply NoDup_seqZ|]. intros p Hp%elem_of_seqZ. apply list_elem_of_fmap. pose proof (lk_dims _ _ Hok) as Hdims.
    destruct (linear_surj dims p Hdims ltac:(lia)) as (idx & Hidx & <-). exists idx. split; [done|]. by apply Hl. }
  apply submseteq_length in Hsub. rewrite length_seqZ, length_fmap in Hsub.
  assert (NoDup (position shape layout <$> l)) as Hnd.
  { apply NoDup_fmap_2_strong; [|apply NoDup_remove_dups]. intros i j Hi%Hl Hj%Hl. by apply position_inj. }
  exists (position shape layout <$> l). split; [done|]. split; [by rewrite length_fmap|]. split.
  - intros q (idx & -> & Hi%Hl)%list_elem_of_fmap. by exists idx.
  - apply NoDup_submseteq; [done|]. intros p (idx & -> & Hi%Hl)%list_elem_of_fmap. apply elem_of_seqZ. pose proof (position_range shape layout Hok idx Hi). lia.
Qed.
Lemma elements_le_cells : product dims <= product (tiled_dims shape layout).
Proof using Hok xlal.
  destruct element_cells as (l & _ & Hlen & _ & Hsub%submseteq_length). rewrite length_seqZ in Hsub.
  pose proof (product_nonneg _ (tiled_dims_nonneg shape layout Hok)). lia.
Qed.
(** When there are no more cells than elements, every cell is an element's. *)
Lemma cells_full q :
  product (tiled_dims shape layout) <= product dims → 0 <= q < product (tiled_dims shape layout) →
  ∃ idx, in_dims dims idx ∧ position shape layout idx = q.
Proof using Hok xlal.
  intros Hle Hq. destruct element_cells as (l & _ & Hlen & Hl & Hsub). apply submseteq_length_Permutation in Hsub; [|rewrite length_seqZ; lia].
  apply Hl. rewrite Hsub. apply elem_of_seqZ. lia.
Qed.

Section copies.
Context (w bs : Buffer) (M0 : Memory) (cap : Z) (Hbs : bs ≠ w).
Abbreviation S := (buffer bs M0).
(** ** Into the tiled buffer *)
Section tile.
Context (Hcap : tiled_bytes <= cap) (HS : linear_bytes <= blen S).
Lemma generic_tile_ok :
  does w M0 cap (tiles_to shape layout S)
    ((if product dims <? GetTiledBufferElements (with_layout shape layout)
      then [memset0 (mkPtr w 0) (GetTiledBufferElements (with_layout shape layout) * isz)] else []) ++
     element_moves (λ linear physical, memcpy (mkPtr w 0 ⊕ physical) (mkPtr bs 0 ⊕ linear) isz) shape layout)
    (λ pos, 0 <= pos < tiled_bytes).
Proof using Hok Hisz xlal Hbs Hcap HS.
  rewrite (elements_spec shape layout Hok). fold tiled_bytes. pose proof tiled_bytes_nonneg as Hn.
  set (D := λ pos, ∃ idx, idx ∈ ForEachIndex (with_layout shape layout) ∧ position shape layout idx * isz <= pos < position shape layout idx * isz + isz).
  assert (∀ q k, 0 <= q < product (tiled_dims shape layout) → 0 <= k < isz → ¬ D (q * isz + k) →
    ∀ idx, in_dims dims idx → position shape layout idx ≠ q) as Hno.
  { intros q k Hq Hk HD idx Hi E. apply HD. exists idx. split; [by apply ForEachIndex_spec|]. rewrite E. lia. }
  eapply does_weaken; [apply (does_over w M0 cap (λ pos v, v = 0 ∧ 0 <= pos < tiled_bytes) _ _ _ (λ pos, (product dims <? product (tiled_dims shape layout)) = true ∧ 0 <= pos < tiled_bytes) D)|].
  - apply does_if. intros _. eapply does_weaken; [apply does_memset0; [done|split_and!; [done|done|cbn; lia]|]|by cbn].
    intros k Hk. cbn. split; [done|lia].
  - unfold element_moves. apply does_fmap. intros idx Hi%ForEachIndex_spec. cbn [dimensions with_layout] in Hi.
    rewrite MultidimensionalIndexToLinearIndex_spec, (LinearIndexForNestedTiling_spec _ layout) by done.
    change (position (with_layout shape layout) layout idx) with (position shape layout idx).
    destruct (element_bytes idx Hi) as [H0 H1], (cell_bytes idx Hi) as [H2 H3]. unfold linear_bytes in *.
    eapply does_weaken; [apply does_memcpy; [lia|split_and!; [done|cbn; lia|cbn; lia]|split_and!; [done|cbn; lia|cbn; lia]|]|by cbn].
    intros k Hk. cbn. left. by exists idx, k.
  - intros pos v [-> Hp] HD. destruct (byte_of_cell pos Hp) as (q & k & Hq & Hk & ->). right. exists q, k. split; [done|]. split; [done|]. split; [|done]. by apply (Hno q k).
  - intros pos Hp. destruct (Z.ltb_spec (product dims) (product (tiled_dims shape layout))) as [Hlt|Hge]; [by left|right].
    destruct (byte_of_cell pos Hp) as (q & k & Hq & Hk & ->). destruct (cells_full q Hge Hq) as (idx & Hi & <-). exists idx. split; [by apply ForEachIndex_spec|]. lia.
Qed.
Lemma untiled_position : tiles layout = [] → tiled_or_default → tiled_dims shape layout = dims ∧ ∀ idx, in_dims dims idx → position shape layout idx = linear dims idx.
Proof.
  intros E Hd. specialize (Hd E). assert (∀ l, length l = length dims → permuted (minor_to_major layout) l = l) as Hp.
  { intros l Hl. apply permuted_row. rewrite Hl. exact Hd. }
  assert (tiled_dims shape layout = dims) as Et by (unfold tiled_dims; rewrite Hp, E by done; done). split; [done|]. intros idx Hi.
  unfold position. rewrite Et, Hp, E by (symmetry; by eapply Forall2_length). done.
Qed.
Lemma untiled_tile_ok : tiles layout = [] → tiled_or_default →
  does w M0 cap (tiles_to shape layout S) (if 0 <? ByteSizeOf shape then [memcpy (mkPtr w 0) (mkPtr bs 0) (ByteSizeOf shape)] else []) (λ pos, 0 <= pos < tiled_bytes).
Proof using Hok Hisz xlal Hbs Hcap HS.
  intros E Hd. destruct (untiled_position E Hd) as [Et Hp]. rewrite ByteSizeOf_spec. pose proof tiled_bytes_nonneg as Hn. unfold tiled_bytes in *. rewrite Et in *. fold linear_bytes in *.
  eapply does_weaken; [apply does_if; intros _; apply does_memcpy; [done|split_and!; [done|done|cbn; lia]|split_and!; [done|done|cbn; lia]|]|].
  - intros pos Hpos. unfold src_byte. cbn. destruct (byte_of_element pos Hpos) as (idx & k & Hi & Hk & ->). left. exists idx, k. by rewrite Hp.
  - cbn. intros pos Hpos. split; [apply Z.ltb_lt; lia|done].
Qed.
Lemma TileBufferTo_ok pool_threads :
  tiled_or_default →
  plan_ok w M0 cap (tiles_to shape layout S) (λ pos, 0 <= pos < tiled_bytes) (TileBufferTo pool_threads (mkPtr bs 0) (mkPtr w 0) shape layout).
Proof using Hok Hisz xlal hwl Hbs Hcap HS.
  intros Hdef. unfold TileBufferTo. pose proof (lk_dims _ _ Hok) as Hdims. case_bool_decide as Et; [by apply untiled_tile_ok|].
  destruct (IsStandardRowMajorTiled shape layout) eqn:Erow; [|destruct (IsStandardColMajorTiled shape layout) eqn:Ecol; [|by apply generic_tile_ok]].
  - unfold TileBufferNDOptimized. destruct ((rank shape =? 1) && tile_rank (tile_at layout 0) 1) eqn:El.
    + apply andb_true_iff in El as [E1%Z.eqb_eq El]. destruct (line_dims E1) as (W & EW & HW & Ed & Elb). cbn.
      destruct (tile_rank (last_tile layout) 1) eqn:Elast.
      * destruct (line_unpacked shape layout W EW HW Erow El Elast) as (Hc & Hle & Hp). unfold tiled_bytes in *. rewrite Hc in *.
        eapply does_mono; [rewrite <- Ed in *; apply unpacked_1d_does; (done || lia)|]. intros pos v. rewrite Ed. by apply flat_tiled.
      * destruct (line_packed shape layout W EW HW Hisz Erow El Elast) as (Hpk & Hlo & Hc & Hp). unfold tiled_bytes in *. rewrite Hc in *.
        eapply does_mono; [rewrite <- Ed in *; apply packed_1d_does; (done || lia)|]. intros pos v. rewrite Ed. by apply packed_tiled.
    + destruct (row_matrix_tiles shape layout Erow El) as (tH & tW & Hts & Hgr & Hdiv).
      pose proof (row_chart shape layout Hdims Hisz tH tW Hts (row_tiles_pos shape layout Erow) Hdiv Erow) as Hch. pose proof (ch_geom _ _ _ _ Hch) as Hgo. pose proof (ch_total _ _ _ _ Hch) as Htot. pose proof (ch_linear _ _ _ _ Hch) as Hlin. pose proof (ch_itemsize _ _ _ _ Hch) as Hits.
      eapply plan_ok_mono; [apply tile_matrices_ok; try done|intros pos v; by apply chart_tiled|].
      * rewrite <- Htot. done.
      * unfold linear_ok. rewrite <- Hlin. done.
      * intros pos Hp. by rewrite <- Htot.
  - destruct (col_matrix_tiles shape layout Ecol) as (tH & tW & Hts & Hdiv).
    pose proof (col_chart shape layout Hdims Hisz tH tW Hts (col_tiles_pos shape layout Ecol) Hdiv Ecol) as Hch. pose proof (ch_geom _ _ _ _ Hch) as Hgo. pose proof (ch_total _ _ _ _ Hch) as Htot. pose proof (ch_linear _ _ _ _ Hch) as Hlin. pose proof (ch_itemsize _ _ _ _ Hch) as Hits.
    eapply plan_ok_mono; [apply tile_cols_ok; try done|intros pos v; by apply chart_tiled|].
    + rewrite <- Htot. done.
    + unfold linear_ok. rewrite <- Hlin. done.
    + intros pos Hp. by rewrite <- Htot.
Qed.
End tile.

(** ** Back to the linear buffer *)
Section detile.
Context (Hcap : linear_bytes <= cap) (HS : tiled_bytes <= blen S).
Lemma generic_detile_ok :
  does w M0 cap (untiles_to shape layout S)
    (element_moves (λ linear physical, memcpy (mkPtr w 0 ⊕ linear) (mkPtr bs 0 ⊕ physical) isz) shape layout) (λ pos, 0 <= pos < linear_bytes).
Proof using Hok Hisz xlal Hbs Hcap HS.
  unfold element_moves. eapply does_weaken; [apply does_fmap with (C := λ idx pos, linear dims idx * isz <= pos < linear dims idx * isz + isz)|].
  - intros idx Hi%ForEachIndex_spec. cbn [dimensions with_layout] in Hi.
    rewrite MultidimensionalIndexToLinearIndex_spec, (LinearIndexForNestedTiling_spec _ layout) by done.
    change (position (with_layout shape layout) layout idx) with (position shape layout idx).
    destruct (element_bytes idx Hi) as [H0 H1], (cell_bytes idx Hi) as [H2 H3].
    eapply does_weaken; [apply does_memcpy; [lia|split_and!; [done|cbn; lia|cbn; lia]|split_and!; [done|cbn; lia|cbn; lia]|]|by cbn].
    intros k Hk. cbn. by exists idx, k.
  - intros pos Hp. destruct (byte_of_element pos Hp) as (idx & k & Hi & Hk & ->). exists idx. split; [by apply ForEachIndex_spec|]. lia.
Qed.
Lemma untiled_detile_ok : tiles layout = [] → tiled_or_default →
  does w M0 cap (untiles_to shape layout S) (if 0 <? ByteSizeOf shape then [memcpy (mkPtr w 0) (mkPtr bs 0) (ByteSizeOf shape)] else []) (λ pos, 0 <= pos < linear_bytes).
Proof using Hok Hisz xlal Hbs Hcap HS.
  intros E Hd. destruct (untiled_position E Hd) as [Et Hp]. rewrite ByteSizeOf_spec. pose proof linear_bytes_nonneg as Hn.
  unfold tiled_bytes in *. rewrite Et in *. fold linear_bytes in *.
  eapply does_weaken; [apply does_if; intros _; apply does_memcpy; [done|split_and!; [done|done|cbn; lia]|split_and!; [done|done|cbn; lia]|]|].
  - intros pos Hpos. unfold src_byte. cbn. destruct (byte_of_element pos Hpos) as (idx & k & Hi & Hk & ->). exists idx, k. by rewrite Hp.
  - cbn. intros pos Hpos. split; [apply Z.ltb_lt; lia|done].
Qed.
Lemma DetileBuffer_ok pool_threads :
  tiled_or_default →
  plan_ok w M0 cap (untiles_to shape layout S) (λ pos, 0 <= pos < linear_bytes) (DetileBuffer pool_threads (mkPtr bs 0) (mkPtr w 0) shape layout).
Proof using Hok Hisz xlal hwl Hbs Hcap HS.
  intros Hdef. unfold DetileBuffer. pose proof (lk_dims _ _ Hok) as Hdims. case_bool_decide as Et; [by apply untiled_detile_ok|].
  destruct (IsStandardRowMajorTiled shape layout) eqn:Erow; [|destruct (IsStandardColMajorTiled shape layout) eqn:Ecol; [|by apply generic_detile_ok]].
  - unfold DetileBufferNDOptimized. destruct ((rank shape =? 1) && tile_rank (tile_at layout 0) 1) eqn:El.
    + apply andb_true_iff in El as [E1%Z.eqb_eq El]. destruct (line_dims E1) as (W & EW & HW & Ed & Elb). cbn. rewrite Elb in *.
      destruct (tile_rank (last_tile layout) 1) eqn:Elast.
      * destruct (line_unpacked shape layout W EW HW Erow El Elast) as (Hc & Hle & Hp). unfold tiled_bytes in *. rewrite Hc in *.
        eapply does_mono; [rewrite <- Ed in *; apply unpacked_1d_back; (done || lia)|]. intros pos v. rewrite Ed. intros [-> Hin]. by eapply flat_untiled.
      * destruct (line_packed shape layout W EW HW Hisz Erow El Elast) as (Hpk & Hlo & Hc & Hp). unfold tiled_bytes in *. rewrite Hc in *.
        eapply does_mono; [rewrite <- Ed in *; apply packed_1d_back; (done || lia)|]. intros pos v. rewrite Ed. by apply packed_untiled.
    + destruct (row_matrix_tiles shape layout Erow El) as (tH & tW & Hts & Hgr & Hdiv).
      pose proof (row_chart shape layout Hdims Hisz tH tW Hts (row_tiles_pos shape layout Erow) Hdiv Erow) as Hch.
      pose proof (ch_geom _ _ _ _ Hch) as Hgo. pose proof (ch_total _ _ _ _ Hch) as Htot. pose proof (ch_linear _ _ _ _ Hch) as Hlin. pose proof (ch_itemsize _ _ _ _ Hch) as Hits.
      eapply plan_ok_mono; [apply detile_matrices_ok; try done|intros pos v; by apply chart_untiled|].
      * by rewrite <- Hlin.
      * by rewrite <- Htot.
      * intros pos Hp. by rewrite <- Hlin.
  - destruct (col_matrix_tiles shape layout Ecol) as (tH & tW & Hts & Hdiv).
    pose proof (col_chart shape layout Hdims Hisz tH tW Hts (col_tiles_pos shape layout Ecol) Hdiv Ecol) as Hch.
    pose proof (ch_geom _ _ _ _ Hch) as Hgo. pose proof (ch_total _ _ _ _ Hch) as Htot. pose proof (ch_linear _ _ _ _ Hch) as Hlin.
    eapply plan_ok_mono; [apply detile_cols_ok; try done|intros pos v; by apply chart_untiled|].
    + by rewrite <- Hlin.
    + by rewrite <- Htot.
    + intros pos Hp. by rewrite <- Hlin.
Qed.
End detile.
End copies.
End buffers.
