(* ===== verification/TilingInPlace.v ===== *)
(** * TilingInPlace: tiling a buffer in its own memory
    (TileBufferInPlace of src/tpu_sync/weight_sync/tiling_utils.cc)

    The tiled bytes of a row of tiles start at or behind its linear bytes, so the code
    works from the last to the first: what a round overwrites has been read.  A round
    goes through a bounce buffer, or is one memmove. *)

From S2P Require Import Prelude TileMemory Highway TilingUtils TilingTiles TilingParallel TilingRowMajor TilingLine TilingColMajor TilingIndex TilingCharts TilingBuffers.

(** ** Runs *)
Fixpoint plans_run (ps : list Plan) (m m' : Memory) : Prop :=
  match ps with [] => m' = m | p :: ps => ∃ m1, plan_runs p m m1 ∧ plans_run ps m1 m' end.
(** The bounce vector is allocated, zeroed, before the plans run. *)
Definition run_runs (r : Run) (m m' : Memory) : Prop := plans_run (run_plans r) (set_buffer BBounce (zeros (bounce_bytes r)) m) m'.

(** A loop from the last round to the first. *)
Lemma downto_S n : 0 <= n → downto (n + 1) = n :: downto n.
Proof. intros Hn. unfold downto. rewrite seqZ_app by lia. rewrite reverse_app. by rewrite Z.add_0_l. Qed.
Lemma exec_downto (Inv : Z → Memory → Prop) n f M :
  0 <= n → Inv n M → (∀ i M, 0 <= i < n → Inv (i + 1) M → ∃ M', exec (f i) M = Some M' ∧ Inv i M') →
  ∃ M', exec (downto n ≫= f) M = Some M' ∧ Inv 0 M'.
Proof.
  intros Hn. revert M. pattern n. apply natlike_ind; [|clear n Hn; intros n Hn IH|done].
  - intros M HI _. by exists M.
  - intros M HI Hstep. unfold Z.succ in *. rewrite downto_S by done. destruct (Hstep n M ltac:(lia) HI) as (M1 & E1 & HI1).
    destruct (IH M1 HI1) as (M' & E' & HI'); [intros i M2 Hi; apply Hstep; lia|]. exists M'. split; [|done].
    change (exec (f n ++ (downto n ≫= f)) M = Some M'). by rewrite exec_app, E1.
Qed.
(** One program in the memory it starts from. *)
Lemma exec_from w T p C M : does w M (blen (buffer w M)) T p C → ∃ M', exec p M = Some M' ∧ leaves w M (blen (buffer w M)) T C M M'.
Proof. intros H. by apply exec_does. Qed.

(** A move within a buffer, of bytes that are as in a snapshot, as a copy from it. *)
Lemma load_agree M M' p p' n :
  0 <= p_off p → 0 <= n → p_off p' = p_off p →
  p_off p + n <= blen (buffer (p_buf p) M) → p_off p + n <= blen (buffer (p_buf p') M') →
  (∀ i, p_off p <= i < p_off p + n → byte_at (buffer (p_buf p) M) i = byte_at (buffer (p_buf p') M') i) → load M (p, n) = load M' (p', n).
Proof.
  intros H0 Hn Eo Hl Hl' Hb. destruct (load_spec M p n H0 Hn Hl) as (v & -> & Hv & Hat).
  destruct (load_spec M' p' n) as (v' & -> & Hv' & Hat'); [lia|done|lia|]. f_equal. apply bytes_eq; [lia|]. intros i Hi.
  rewrite Hat, Hat', Eo by lia. apply Hb. lia.
Qed.
Definition only_writes_dst (c : Cmd) : Prop := reads c = [] ∧ Forall (λ r : Ptr * Z, p_buf r.1 = BDst) (writes c).
Lemma store_snapshot r v x M : p_buf r.1 = BDst → store r v (set_buffer BSrc x M) = set_buffer BSrc x <$> store r v M.
Proof. intros Hr. unfold store, in_range. rewrite Hr. cbn [buffer set_buffer m_dst]. by destruct (_ && _). Qed.
#[local] Arguments set_buffer : simpl never.
Lemma store_all_snapshot rs vs x M : Forall (λ r : Ptr * Z, p_buf r.1 = BDst) rs → store_all rs vs (set_buffer BSrc x M) = set_buffer BSrc x <$> store_all rs vs M.
Proof.
  intros Hr. revert vs M. induction Hr as [|r rs Hr _ IH]; intros [|v vs] M; try done. cbn. rewrite store_snapshot by done.
  destruct (store r v M); [apply IH|done].
Qed.
Lemma exec_snapshot p x M : Forall only_writes_dst p → exec p (set_buffer BSrc x M) = set_buffer BSrc x <$> exec p M.
Proof.
  intros Hp. revert M. induction Hp as [|c p [Er Hw] _ IH]; intros M; [done|]. cbn. unfold exec1. rewrite Er. cbn. rewrite store_all_snapshot by done.
  destruct (store_all (writes c) (compute c []) M); [apply IH|done].
Qed.
Lemma exec_memmove d o n p S M M' :
  p_buf d = BDst → Forall only_writes_dst p → 0 <= o → 0 <= n → o + n <= blen (buffer BDst M) → o + n <= blen S →
  (∀ i, o <= i < o + n → byte_at (buffer BDst M) i = byte_at S i) →
  exec (memcpy d (mkPtr BSrc o) n :: p) (set_buffer BSrc S M) = Some M' →
  ∃ M'', exec (memcpy d (mkPtr BDst o) n :: p) M = Some M'' ∧ buffer BDst M'' = buffer BDst M' ∧ buffer BBounce M'' = buffer BBounce M'.
Proof.
  intros Hd Hp Ho Hn Hl HlS Hb. cbn [exec]. unfold exec1. cbn [reads writes memcpy mapM].
  rewrite (load_agree M (set_buffer BSrc S M) (mkPtr BDst o) (mkPtr BSrc o) n) by (cbn in *; try done; intros; by apply Hb).
  destruct (load (set_buffer BSrc S M) (mkPtr BSrc o, n)) as [v|]; [|done]. cbn.
  rewrite store_snapshot by done.
  destruct (store (d, n) v M) as [M1|]; [|done]. cbn. rewrite exec_snapshot by done. destruct (exec p M1) as [M2|]; [|done]. cbn. intros [= <-]. by exists M2.
Qed.

(** ** Sweeps

    Of the memory [M0] at the start, a sweep has kept the first [L] bytes and rewritten
    the bytes from [D] on to what they must be. *)
Section sweep.
Context (M0 : Memory) (T : Z → Z → Prop) (total bb : Z).
Abbreviation old := (byte_at (buffer BDst M0)).
Abbreviation now M := (byte_at (buffer BDst M)).
Record swept (L D : Z) (M : Memory) : Prop := {
  sw_len : blen (buffer BDst M) = blen (buffer BDst M0);
  sw_bounce : blen (buffer BBounce M) = bb;
  sw_kept pos : 0 <= pos < L → now M pos = old pos;
  sw_done pos : D <= pos < total → T pos (now M pos);
  sw_rest pos : 0 <= pos → total <= pos → now M pos = old pos;
}.
Lemma swept_start L D M : buffer BDst M = buffer BDst M0 → blen (buffer BBounce M) = bb → L <= blen (buffer BDst M0) → total <= D → swept L D M.
Proof. intros E Hb HL HD. split; rewrite ?E; try done. intros pos Hp. lia. Qed.
Lemma sweep_move L D L' D' M M' :
  swept L' D' M → L <= L' → L <= D → 0 <= D → D' <= total →
  blen (buffer BDst M') = blen (buffer BDst M) → blen (buffer BBounce M') = blen (buffer BBounce M) →
  (∀ pos, 0 <= pos → ¬ (D <= pos < D') → now M' pos = now M pos) → (∀ pos, D <= pos < D' → T pos (now M' pos)) →
  swept L D M'.
Proof.
  intros [H1 H2 H3 H4 H5] HL HLD HD HDt Hl Hb Hout Hin. split; try congruence.
  - intros pos Hp. rewrite Hout by lia. apply H3. lia.
  - intros pos Hp. destruct (decide (pos < D')); [apply Hin; lia|]. rewrite Hout by lia. apply H4. lia.
  - intros pos Hp Ht. rewrite Hout by lia. by apply H5.
Qed.
Lemma exec_sweep batch n f (L D : Z → Z → Z) M :
  0 <= batch → 0 <= n → (∀ b, L b n = L (b + 1) 0) → (∀ b, D b n = D (b + 1) 0) →
  (∀ b i M, 0 <= b < batch → 0 <= i < n → swept (L b (i + 1)) (D b (i + 1)) M → ∃ M', exec (f b i) M = Some M' ∧ swept (L b i) (D b i) M') →
  swept (L batch 0) (D batch 0) M →
  ∃ M', exec (downto batch ≫= λ b, downto n ≫= f b) M = Some M' ∧ swept (L 0 0) (D 0 0) M'.
Proof.
  intros Hb Hn HL HD Hstep HM. apply (exec_downto (λ b M, swept (L b 0) (D b 0) M)); [done|done|]. intros b M1 Hbb HM1.
  apply (exec_downto (λ i M, swept (L b i) (D b i) M)); [done|by rewrite HL, HD|]. intros i M2 Hi. by apply Hstep.
Qed.
(** What a program that writes the destination from the other buffers adds to a sweep. *)
Lemma swept_does L D L' D' M p :
  swept L' D' M → L <= L' → L <= D → 0 <= D → D' <= total →
  does BDst M (blen (buffer BDst M)) (λ pos v, T pos v ∧ D <= pos < D') p (λ pos, D <= pos < D') →
  ∃ M', exec p M = Some M' ∧ swept L D M'.
Proof.
  intros HM HL HLD HD HDt Hp. destruct (exec_from _ _ _ _ _ Hp) as (M' & E & (HA & Hlen) & HC & HU). exists M'. split; [done|].
  eapply sweep_move; [exact HM|done..|by rewrite HA| |].
  - intros pos Hp0 Hno. apply HU; [done|]. by intros v [_ ?].
  - intros pos Hpos. apply HC; [lia|done].
Qed.
End sweep.

(** A round through the bounce buffer: fill it, then write the destination from it. *)
Lemma swept_bounce M0 T total bb L D L' D' M p q TB n :
  swept M0 T total bb L' D' M → L <= L' → L <= D → 0 <= D → D' <= total →
  does BBounce M bb TB p (λ pos, 0 <= pos < n) →
  (∀ M1, buffer BDst M1 = buffer BDst M → blen (buffer BBounce M1) = bb → (∀ pos, 0 <= pos < n → TB pos (byte_at (buffer BBounce M1) pos)) →
     does BDst M1 (blen (buffer BDst M1)) (λ pos v, T pos v ∧ D <= pos < D') q (λ pos, D <= pos < D')) →
  ∃ M', exec (p ++ q) M = Some M' ∧ swept M0 T total bb L D M'.
Proof.
  intros HM HL HLD HD HDt Hp Hq. pose proof (sw_bounce _ _ _ _ _ _ _ HM) as Hbb. rewrite <- Hbb in Hp.
  destruct (exec_from _ _ _ _ _ Hp) as (M1 & E1 & (HA & Hlen) & HC & _). assert (buffer BDst M1 = buffer BDst M) as Ed by (by apply HA).
  assert (swept M0 T total bb L' D' M1) as HM1.
  { destruct HM as [H1 H2 H3 H4 H5]. split; try (rewrite Ed; done). congruence. }
  destruct (swept_does M0 T total bb L D L' D' M1 q HM1) as (M' & E' & HM'); [done..| |].
  - apply Hq; [done|congruence|]. intros pos Hpos. apply HC; [lia|done].
  - exists M'. split; [|done]. by rewrite exec_app, E1.
Qed.

(** ** Bands and single rows of a row-major tensor *)
Section matrices.
Context (g : RowMajorTileGeometry) (Hg : geom_ok g) {hw : Highway} {hwl : HighwayLaws} (M0 : Memory).
Abbreviation H := (g_H g).
Abbreviation W := (g_W g).
Abbreviation isz := (g_itemsize g).
Abbreviation tH := (g_tile_H g).
Abbreviation tW := (g_tile_W g).
Abbreviation n0 := (g_num_tiles_0 g).
Abbreviation n1 := (g_num_tiles_1 g).
Abbreviation batch := (g_batch_size g).
Abbreviation ts := (tile_size_bytes g).
Abbreviation S0 := (buffer BDst M0).
Abbreviation T := (tiled g (row_major g) S0).
Context (Hcap : total_tiled_bytes g <= blen S0) (HS : linear_ok g S0).

Section bands.
Context (Hkind : group_of (g_packing_factor g) isz).
Definition band_linear (b tr : Z) : Z := (b * H + Z.min (tr * tH) H) * (W * isz).
Definition band_tiled (b tr : Z) : Z := (b * n0 + tr) * (n1 * ts).
Lemma band_offsets b tr : 0 <= b < batch → 0 <= tr < n0 →
  tr * tH < H ∧ 0 <= band_linear b tr ∧ band_linear b tr <= band_linear b (tr + 1) ∧ band_linear b tr <= band_tiled b tr ∧
  0 <= band_tiled b tr ∧ band_tiled b (tr + 1) <= total_tiled_bytes g ∧ 0 <= W * isz ∧
  band_linear b tr = (b * H + tr * tH) * (W * isz) ∧ band_linear b (tr + 1) <= blen S0 ∧
  band_linear b (tr + 1) = band_linear b tr + Z.min (H - tr * tH) tH * (W * isz).
Proof using Hg HS.
  intros Hb Htr. pose proof Hg as []. destruct (rows_bound g Hg) as [Hr0 Hr1], (cols_bound g Hg) as [Hc0 Hc1]. pose proof (tile_size_pos g Hg) as Hts.
  assert (tr * tH < H) as Hlt by nia. unfold band_linear, band_tiled. assert (0 <= W * isz) as Hw by nia.
  rewrite (Z.min_l (tr * tH)) by lia. assert (Z.min ((tr + 1) * tH) H = tr * tH + Z.min (H - tr * tH) tH) as -> by lia.
  set (v := Z.min (H - tr * tH) tH). assert (0 < v <= tH ∧ tr * tH + v <= H) as [Hv Hv'] by lia. assert (0 <= b * H ∧ 0 <= tr * tH) as [Hb0 Ht0] by nia.
  assert (W * isz * tH <= n1 * ts) as Hrow by (unfold tile_size_bytes; replace (n1 * (tH * tW * isz)) with (n1 * tW * isz * tH) by ring; assert (W * isz <= n1 * tW * isz) as Ha1 by nia; nia).
  assert ((b * H + tr * tH) * (W * isz) <= (b * n0 + tr) * (n1 * ts)) as Hle.
  { assert (b * H + tr * tH <= (b * n0 + tr) * tH) as Ha2 by nia. assert (0 <= b * n0 + tr) as Ha3 by nia.
    assert ((b * H + tr * tH) * (W * isz) <= (b * n0 + tr) * tH * (W * isz)) as Ha4 by (apply Z.mul_le_mono_nonneg_r; lia). nia. }
  assert ((b * n0 + (tr + 1)) * (n1 * ts) <= total_tiled_bytes g) as Htot.
  { rewrite total_eq. assert (b * n0 + tr + 1 <= batch * n0) as Ha5 by nia. assert (0 <= n1 * ts) as Ha6 by nia. rewrite <- Z.mul_assoc. apply Z.mul_le_mono_nonneg_r; lia. }
  assert ((b * H + (tr * tH + v)) * (W * isz) <= blen S0) as Hlen.
  { unfold linear_ok, matrix_size_bytes in HS. assert (b * H + (tr * tH + v) <= batch * H) as Ha7 by nia.
    assert ((b * H + (tr * tH + v)) * (W * isz) <= batch * H * (W * isz)) as Ha8 by (apply Z.mul_le_mono_nonneg_r; lia). lia. }
  split_and!; try lia; try nia.
Qed.
(** The rows of a band in the bounce buffer. *)
Definition band_bounce (b tr vH pos v : Z) : Prop :=
  v = if pos <? vH * (W * isz) then byte_at S0 (band_linear b tr + pos) else 0.
Lemma band_rows_does b tr vH M1 :
  0 <= b < batch → 0 <= tr < n0 → vH = Z.min (H - tr * tH) tH → blen (buffer BDst M1) = blen S0 → blen (buffer BBounce M1) = tH * W * isz →
  (∀ pos, 0 <= pos < tH * W * isz → band_bounce b tr vH pos (byte_at (buffer BBounce M1) pos)) →
  does BDst M1 (blen (buffer BDst M1)) (row_target g BDst M0 b tr)
    (seqZ 0 n1 ≫= λ tile_col,
       let dst_tile := mkPtr BDst 0 ⊕ b * tiled_matrix_size_bytes g ⊕ (tr * n1 + tile_col) * ts in
       if (vH =? tH) && (tile_col * tW + tW <=? W)
       then CopyTilePackedNoPadding (DispatchByPackingFactor (g_packing_factor g)) (static_row_bytes g) bounce dst_tile 0 tile_col tH tW W isz
       else CopyTilePackedWithPadding (DispatchByPackingFactor (g_packing_factor g)) bounce dst_tile 0 tile_col tH tW vH W isz ts)
    (row_region g b tr).
Proof using Hg hwl Hkind Hcap.
  intros Hb Htr EvH Hlen Hbl Hbounce. rewrite dispatch_exact by done. pose proof (tile_size_pos g Hg) as Hts. destruct (cols_bound g Hg) as [Hc0 Hc1]. pose proof Hg as [].
  assert (tr * tH < H) as Hlt by (destruct (rows_bound g Hg); nia). assert (0 < vH <= tH) as HvH by lia.
  eapply does_weaken; [apply (does_chunks _ _ _ _ ((b * n0 + tr) * (n1 * ts)) ts n1); [done|]|unfold row_region; intros pos Hp; cbv beta; lia].
  intros tc Htc. cbv zeta. pose proof (tile_range g Hg b tr tc Hb Htr Htc) as Hr. assert (0 <= tc * tW) as Htc0 by nia.
  assert (mkPtr BDst 0 ⊕ b * tiled_matrix_size_bytes g ⊕ (tr * n1 + tc) * ts = mkPtr BDst (((b * n0 + tr) * n1 + tc) * ts)) as ->
    by (unfold shift, tiled_matrix_size_bytes; cbn; f_equal; ring).
  assert (in_dst BDst (blen (buffer BDst M1)) (mkPtr BDst (((b * n0 + tr) * n1 + tc) * ts)) (tH * tW * isz)) as Hd
    by (split_and!; [done|cbn [p_off]; lia|cbn [p_off]; unfold tile_size_bytes in *; lia]).
  assert (∀ r n, 0 <= r < tH → 0 <= n → tc * tW + n <= W → in_src BDst M1 (tile_row_ptr tH tW W isz bounce 0 tc r) (n * isz)) as Hs.
  { intros r n Hr' Hn HW. assert (0 <= (r * W + tc * tW) * isz ∧ (r * W + tc * tW) * isz + n * isz <= tH * W * isz) as [H0 H1].
    { split; [nia|]. assert (r * W + tc * tW + n <= tH * W) as Ha9 by nia. nia. }
    split_and!; [done|cbn; lia|cbn]. change (m_bounce M1) with (buffer BBounce M1). lia. }
  assert (∀ r c k, 0 <= r < vH → 0 <= c < tW → tc * tW + c < W → 0 <= k < isz →
    src_byte M1 (tile_row_ptr tH tW W isz bounce 0 tc r) (c * isz + k) = byte_at S0 (row_major g b (tr * tH + r) (tc * tW + c) * isz + k)) as Hval.
  { intros r c k Hr' Hc HW Hk. unfold src_byte. cbn [p_off p_buf tile_row_ptr shift bounce].
    assert (0 <= r * (W * isz) + ((tc * tW + c) * isz + k) < vH * (W * isz)) as Hin by (apply join_pos; [done|]; by apply join_pos; [lia|]).
    assert (vH * (W * isz) <= tH * W * isz) as Hle by nia.
    pose proof (Hbounce (r * (W * isz) + ((tc * tW + c) * isz + k)) ltac:(lia)) as Hv. unfold band_bounce in Hv. rewrite (proj2 (Z.ltb_lt _ _)) in Hv by lia.
    replace (0 + ((0 * tH + r) * W + tc * tW) * isz + (c * isz + k)) with (r * (W * isz) + ((tc * tW + c) * isz + k)) by ring.
    rewrite Hv. f_equal. unfold band_linear, row_major. rewrite Z.min_l by lia. ring. }
  destruct ((vH =? tH) && (tc * tW + tW <=? W)) eqn:Ein.
  - apply andb_true_iff in Ein as [Ev%Z.eqb_eq Ew%Z.leb_le].
    eapply does_weaken; [apply does_tile_copy; try done; [apply static_width_ok|intros r Hr'; apply Hs; lia|]|cbn [p_off]; intros pos Hp; fold ts; lia].
    apply tile_target; [done..|]. intros r c k Hr' Hc Hk. unfold cell_value. rewrite (proj2 (Z.ltb_lt _ H)), (proj2 (Z.ltb_lt _ W)) by lia. apply Hval; lia.
  - eapply does_weaken; [apply does_tile_pad; try done; [intros r Hr' HH HW; apply Hs; lia|]|cbn [p_off]; intros pos Hp; fold ts; lia].
    apply tile_target; [done..|]. intros r c k Hr' Hc Hk. unfold padded, cell_value.
    assert ((0 * tH + r <? vH) = (tr * tH + r <? H)) as -> by (destruct (Z.ltb_spec (0 * tH + r) vH) as [Hq1|Hq1], (Z.ltb_spec (tr * tH + r) (g_H g)) as [Hq2|Hq2]; lia).
    destruct ((tr * tH + r <? H) && (tc * tW + c <? W)) eqn:E; [|done]. apply andb_true_iff in E as [E1%Z.ltb_lt E2%Z.ltb_lt]. apply Hval; lia.
Qed.
Lemma band_step b tr M :
  0 <= b < batch → 0 <= tr < n0 →
  swept M0 T (total_tiled_bytes g) (tH * W * isz) (band_linear b (tr + 1)) (band_tiled b (tr + 1)) M →
  ∃ M', exec (band_in_place (mkPtr BDst 0) g b tr) M = Some M' ∧
    swept M0 T (total_tiled_bytes g) (tH * W * isz) (band_linear b tr) (band_tiled b tr) M'.
Proof using Hg hwl Hkind Hcap HS.
  intros Hb Htr HM. destruct (band_offsets b tr Hb Htr) as (Hlt & HL0 & HL1 & HLD & HD0 & HDt & Hw & EL & HLl & EL1). pose proof Hg as [].
  unfold band_in_place. set (vH := Z.min (H - tr * tH) tH) in *. assert (0 < vH <= tH) as HvH by lia. cbv zeta. rewrite (proj2 (Z.leb_gt vH 0)) by lia.
  rewrite app_comm_cons. eapply (swept_bounce M0 T _ _ _ _ _ _ M _ _ (band_bounce b tr vH) (tH * W * isz)); [exact HM|done..| |].
  - assert (0 <= vH * W * isz ∧ vH * W * isz <= tH * W * isz ∧ 0 <= (tH - vH) * W * isz) as (Hm0 & Hm1 & Hm2) by (split_and!; [apply mul3_nonneg; lia|nia|apply mul3_nonneg; lia]).
    change (memcpy ?d ?s ?n :: ?l) with ([memcpy d s n] ++ l).
    eapply does_weaken; [apply does_app; [apply does_memcpy; [done|split_and!; [done|done|cbn; lia]| |]|
      apply does_if; intros Hlt'%Z.ltb_lt; apply does_memset0; [done|split_and!; [done|cbn; lia|cbn; lia]|]]|].
    + assert (0 + b * matrix_size_bytes g + tr * tH * W * isz = band_linear b tr) as Es by (rewrite EL; unfold matrix_size_bytes; ring).
      split_and!; [done|cbn [p_off shift]; lia|cbn [p_off p_buf shift]]. rewrite (sw_len _ _ _ _ _ _ _ HM). lia.
    + intros pos Hp. unfold src_byte, band_bounce. cbn [p_off p_buf shift bounce].
      replace (0 + b * matrix_size_bytes g + tr * tH * W * isz + pos) with (band_linear b tr + pos) by (rewrite EL; unfold matrix_size_bytes; ring).
      rewrite (proj2 (Z.ltb_lt _ _)) by lia. rewrite Z.add_0_l. apply (sw_kept _ _ _ _ _ _ _ HM). lia.
    + intros pos Hp. unfold band_bounce. cbn [p_off shift bounce]. by rewrite (proj2 (Z.ltb_ge _ _)) by lia.
    + intros pos Hp. cbn [p_off shift bounce]. destruct (decide (pos < vH * W * isz)); [left; lia|right]. split; [apply Z.ltb_lt; nia|lia].
  - intros M1 E1 Hbl Hbounce. eapply does_weaken; [eapply does_mono; [apply (band_rows_does b tr vH M1); try done|]|].
    + rewrite E1. apply (sw_len _ _ _ _ _ _ _ HM).
    + unfold row_target, row_region, band_tiled. intros pos v [? ?]. split; [done|lia].
    + unfold row_region, band_tiled. intros pos Hp. lia.
Qed.
Lemma bands_in_place M :
  buffer BDst M = S0 → blen (buffer BBounce M) = tH * W * isz →
  ∃ M', exec (TileRowMajorBandsInPlace (mkPtr BDst 0) g) M = Some M' ∧ swept M0 T (total_tiled_bytes g) (tH * W * isz) 0 0 M'.
Proof using Hg hwl Hkind Hcap HS.
  intros E Hbl. destruct (rows_bound g Hg) as [Hr0 Hr1]. pose proof Hg as [].
  destruct (exec_sweep M0 T (total_tiled_bytes g) (tH * W * isz) batch n0 (band_in_place (mkPtr BDst 0) g) band_linear band_tiled M) as (M' & EM & HM').
  - done.
  - done.
  - intros b. unfold band_linear. rewrite (Z.min_r (n0 * tH)), (Z.min_l (0 * tH)) by lia. ring.
  - intros b. unfold band_tiled. ring.
  - intros b tr M1 Hb Htr. by apply band_step.
  - apply swept_start; [done|done| |].
    + unfold band_linear. rewrite (Z.min_l (0 * tH)) by lia. unfold linear_ok, matrix_size_bytes in HS. lia.
    + unfold band_tiled. rewrite total_eq. lia.
  - exists M'. split; [exact EM|]. unfold band_linear, band_tiled in HM'. by rewrite (Z.min_l (0 * tH)) in HM' by lia.
Qed.
End bands.

Section single_row.
Context (EP : g_packing_factor g = 1) (EH : H = 1).
Definition slot_linear (b tc : Z) : Z := (b * W + Z.min (tc * tW) W) * isz.
Definition slot_tiled (b tc : Z) : Z := (b * n1 + tc) * ts.
Lemma slot_offsets b tc : 0 <= b < batch → 0 <= tc < n1 →
  0 < Z.min tW (W - tc * tW) ∧ 0 <= slot_linear b tc ∧ slot_linear b (tc + 1) = slot_linear b tc + Z.min tW (W - tc * tW) * isz ∧
  slot_linear b tc <= slot_tiled b tc ∧ 0 <= slot_tiled b tc ∧ slot_tiled b (tc + 1) <= total_tiled_bytes g ∧
  slot_linear b tc = b * matrix_size_bytes g + tc * tW * isz ∧ slot_linear b (tc + 1) <= blen S0.
Proof using Hg HS EH.
  intros Hb Htc. pose proof Hg as []. destruct (rows_bound g Hg) as [Hr0 Hr1], (cols_bound g Hg) as [Hc0 Hc1]. pose proof (tile_size_pos g Hg) as Hts.
  assert (n0 = 1) as En0 by nia. assert (0 <= tc * tW < W) as Htc' by nia. unfold slot_linear, slot_tiled.
  rewrite (Z.min_l (tc * tW)) by lia. assert (Z.min ((tc + 1) * tW) W = tc * tW + Z.min tW (W - tc * tW)) as -> by lia.
  set (v := Z.min tW (W - tc * tW)). assert (0 < v <= tW ∧ tc * tW + v <= W) as [Hv Hv'] by lia. clearbody v. assert (0 <= b * W) as Hb0 by nia.
  assert ((b * W + tc * tW) * isz <= (b * n1 + tc) * ts) as Hle.
  { unfold tile_size_bytes. assert (b * W + tc * tW <= (b * n1 + tc) * tW) as Ha1 by nia. assert (0 <= b * n1 + tc) as Ha2 by nia.
    replace ((b * n1 + tc) * (tH * tW * isz)) with ((b * n1 + tc) * tW * isz * tH) by ring. assert (0 <= (b * n1 + tc) * tW * isz) as Ha3 by (apply mul3_nonneg; lia).
    assert ((b * W + tc * tW) * isz <= (b * n1 + tc) * tW * isz) as Ha4 by (apply Z.mul_le_mono_nonneg_r; lia). nia. }
  assert ((b * n1 + (tc + 1)) * ts <= total_tiled_bytes g) as Htot by (rewrite total_eq, En0; assert (b * n1 + tc + 1 <= batch * n1) as Ha5 by nia; nia).
  assert ((b * W + (tc * tW + v)) * isz <= blen S0) as Hlen.
  { unfold linear_ok, matrix_size_bytes in HS. rewrite EH in HS. assert (b * W + (tc * tW + v) <= batch * W) as Ha6 by nia.
    assert ((b * W + (tc * tW + v)) * isz <= batch * W * isz) as Ha7 by (apply Z.mul_le_mono_nonneg_r; lia). lia. }
  split_and!; try lia; try nia. unfold matrix_size_bytes. rewrite EH. ring.
Qed.
Lemma memsets_only_dst (c : bool) d n : p_buf d = BDst → Forall only_writes_dst (if c then [memset0 d n] else []).
Proof. intros Hd. destruct c; [|constructor]. constructor; [|constructor]. split; [done|]. by constructor. Qed.
Lemma single_row_step b tc M :
  0 <= b < batch → 0 <= tc < n1 →
  swept M0 T (total_tiled_bytes g) 0 (slot_linear b (tc + 1)) (slot_tiled b (tc + 1)) M →
  ∃ M', exec (single_row_tile g (mkPtr BDst 0 ⊕ b * tiled_matrix_size_bytes g ⊕ tc * ts) (mkPtr BDst 0 ⊕ b * matrix_size_bytes g) tc) M = Some M' ∧
    swept M0 T (total_tiled_bytes g) 0 (slot_linear b tc) (slot_tiled b tc) M'.
Proof using Hg hwl Hcap HS EP EH.
  intros Hb Htc HM. destruct (slot_offsets b tc Hb Htc) as (Hv & HL0 & EL1 & HLD & HD0 & HDt & EL & HLl). pose proof Hg as []. pose proof (sw_len _ _ _ _ _ _ _ HM) as Hlen.
  pose proof (single_row_does g Hg BDst BSrc (set_buffer BSrc S0 M) (blen S0) ltac:(done) Hcap HS b tc EP EH Hb Htc) as Hdoes.
  destruct (exec_does BDst (set_buffer BSrc S0 M) (blen S0) _ _ _ (set_buffer BSrc S0 M) ltac:(split; [done|exact Hlen]) Hdoes) as (M' & E' & (HA & Hlen') & HC & HU).
  change (buffer BSrc (set_buffer BSrc S0 M)) with S0 in HC, HU. change (buffer BDst (set_buffer BSrc S0 M)) with (buffer BDst M) in HU.
  unfold single_row_tile in E' |- *. rewrite (proj2 (Z.ltb_lt 0 _)) in E' |- * by done. rewrite <- app_comm_cons in E' |- *.
  change (mkPtr ?x 0 ⊕ b * matrix_size_bytes g ⊕ tc * tW * isz) with (mkPtr x (0 + b * matrix_size_bytes g + tc * tW * isz)) in E' |- *.
  rewrite Z.add_0_l, <- EL in E' |- *. apply exec_memmove in E' as (M2 & E2 & Ed & Eb); try done.
  - exists M2. split; [exact E2|]. apply (sweep_move M0 T (total_tiled_bytes g) 0 _ _ (slot_linear b (tc + 1)) (slot_tiled b (tc + 1)) M); try done.
    + nia.
    + rewrite Ed, Hlen'. by rewrite Hlen.
    + rewrite Eb, HA by done. done.
    + intros pos Hp Hno. rewrite Ed. apply HU; [done|]. intros v [_ Hs]. apply Hno. unfold slot, slot_tiled in *. lia.
    + intros pos Hp. rewrite Ed. apply (HC pos); [lia|]. unfold slot, slot_tiled in *. lia.
  - apply Forall_app. split; by apply memsets_only_dst.
  - nia.
  - rewrite Hlen. lia.
  - lia.
  - intros i Hi. apply (sw_kept _ _ _ _ _ _ _ HM). lia.
Qed.
Lemma single_row_in_place M :
  buffer BDst M = S0 → blen (buffer BBounce M) = 0 →
  ∃ M', exec (TileSingleRowInPlace (mkPtr BDst 0) g) M = Some M' ∧ swept M0 T (total_tiled_bytes g) 0 0 0 M'.
Proof using Hg hwl Hcap HS EP EH.
  intros E Hbl. destruct (rows_bound g Hg) as [Hr0 Hr1], (cols_bound g Hg) as [Hc0 Hc1]. pose proof Hg as []. assert (n0 = 1) as En0 by nia.
  destruct (exec_sweep M0 T (total_tiled_bytes g) 0 batch n1
    (λ b tc, single_row_tile g (mkPtr BDst 0 ⊕ b * tiled_matrix_size_bytes g ⊕ tc * ts) (mkPtr BDst 0 ⊕ b * matrix_size_bytes g) tc) slot_linear slot_tiled M) as (M' & EM & HM').
  - done.
  - done.
  - intros b. unfold slot_linear. rewrite (Z.min_r (n1 * tW)), (Z.min_l (0 * tW)) by lia. ring.
  - intros b. unfold slot_tiled. ring.
  - intros b tc M1 Hb Htc. by apply single_row_step.
  - apply swept_start; [done|done| |].
    + unfold slot_linear. rewrite (Z.min_l (0 * tW)) by lia. unfold linear_ok, matrix_size_bytes in HS. rewrite EH in HS. lia.
    + unfold slot_tiled. rewrite total_eq, En0. lia.
  - exists M'. split; [exact EM|]. unfold slot_linear, slot_tiled in HM'. by rewrite (Z.min_l (0 * tW)) in HM' by lia.
Qed.
End single_row.
End matrices.

(** ** One-dimensional tensors *)
Section packed_line.
Context (geom : Packed1DTileGeometry) (W isz : Z) (Hok : line_ok geom W isz) (Hpk : packing (k_P geom) isz).
Context {hw : Highway} {hwl : HighwayLaws} (M0 : Memory) (Hcap : line_bytes geom isz <= blen (buffer BDst M0)).
Abbreviation S0 := (buffer BDst M0).
Abbreviation gb := (group_bytes geom isz).
Abbreviation T := (tiled_line geom W isz S0).
Abbreviation n := (k_total_groups geom).
Definition group_bounce (g valid pos v : Z) : Prop := v = if pos <? valid * isz then byte_at S0 (g * gb + pos) else 0.
(** What the cells of group [g] must hold. *)
Lemma group_cell g p c k : in_line geom isz g p c k →
  T (g * gb + ((c * k_P geom + p) * isz + k)) (line_value W isz S0 (line_element geom g p c) k) ∧ g * gb <= g * gb + ((c * k_P geom + p) * isz + k) < (g + 1) * gb ∧
  line_element geom g p c = g * group_elems geom + (p * k_tile_W geom + c) ∧ 0 <= p * k_tile_W geom + c < group_elems geom.
Proof.
  intros Hin. pose proof Hin as (Hg & Hp & Hc & Hk). pose proof (cell_in_group geom isz g p c k Hin) as Hcell. split; [|split; [lia|split]].
  - exists g, p, c, k. split; [done|]. split; [|done]. by rewrite line_cell_eq.
  - unfold line_element, group_elems. ring.
  - unfold group_elems. by apply join_pos.
Qed.
Lemma group_write_does g valid M1 :
  0 <= g < n → valid = Z.min (group_elems geom) (W - g * group_elems geom) → 0 < valid → blen (buffer BDst M1) = blen S0 → blen (buffer BBounce M1) = gb →
  (∀ pos, 0 <= pos < gb → group_bounce g valid pos (byte_at (buffer BBounce M1) pos)) →
  does BDst M1 (blen (buffer BDst M1)) (λ pos v, T pos v ∧ g * gb <= pos < (g + 1) * gb)
    (if g * group_elems geom + group_elems geom <=? W
     then CopyTilePackedNoPadding (k_P geom) 0 bounce (mkPtr BDst 0 ⊕ g * gb) 0 0 (k_P geom) (k_tile_W geom) (k_tile_W geom) isz
     else ZeroRowHighway (mkPtr BDst 0 ⊕ g * gb) gb ++
          (seqZ 0 (k_P geom) ≫= λ p, seqZ 0 (k_tile_W geom) ≫= λ c,
             let idx := p * k_tile_W geom + c in
             if idx <? valid then [memcpy (mkPtr BDst 0 ⊕ g * gb ⊕ (c * k_P geom + p) * isz) (bounce ⊕ idx * isz) isz] else []))
    (λ pos, g * gb <= pos < (g + 1) * gb).
Proof using Hok Hpk hwl Hcap.
  intros Hg Ev Hv Hlen Hbl Hbounce. pose proof (group_bytes_pos geom W isz Hok) as Hgb. pose proof Hok as []. unfold line_bytes in Hcap.
  assert (0 <= g * gb ∧ g * gb + gb <= n * gb) as [Hg0 Hg1] by nia.
  assert (in_dst BDst (blen (buffer BDst M1)) (mkPtr BDst 0 ⊕ g * gb) gb) as Hd by (split_and!; [done|cbn [p_off shift]; lia|cbn [p_off shift]; lia]).
  assert (∀ i k, 0 <= i < group_elems geom → 0 <= k < isz → byte_at (buffer BBounce M1) (i * isz + k) = if i <? valid then byte_at S0 (g * gb + (i * isz + k)) else 0) as Hval.
  { intros i k Hi Hk. pose proof (join_pos i k (group_elems geom) isz Hi Hk) as Hj. rewrite (Hbounce (i * isz + k)) by (unfold group_bytes; lia).
    destruct (Z.ltb_spec i valid), (Z.ltb_spec (i * isz + k) (valid * isz)); try done; nia. }
  assert (∀ p c k, in_line geom isz g p c k → (if p * k_tile_W geom + c <? valid then byte_at S0 (g * gb + ((p * k_tile_W geom + c) * isz + k)) else 0) =
    line_value W isz S0 (line_element geom g p c) k) as Hlv.
  { intros p c k Hin. destruct (group_cell g p c k Hin) as (_ & _ & El & Hr). unfold line_value. rewrite El.
    destruct (Z.ltb_spec (p * k_tile_W geom + c) valid), (Z.ltb_spec (g * group_elems geom + (p * k_tile_W geom + c)) W); try done; try lia.
    f_equal. unfold group_bytes. ring. }
  destruct (Z.leb_spec (g * group_elems geom + group_elems geom) W) as [Hfull|Hpart].
  - eapply does_weaken; [apply (does_full_group geom W isz Hok); try done|cbn [p_off shift]; intros pos Hp; lia].
    + by right.
    + split_and!; [done|done|]. change (p_buf bounce) with BBounce. cbn [p_off bounce]. lia.
    + intros p c k Hp Hc Hk. assert (in_line geom isz g p c k) as Hin by done. destruct (group_cell g p c k Hin) as (HT & Hr & El & Hi). cbn [p_off shift].
      rewrite Z.add_0_l. split; [|done]. unfold src_byte. change (p_buf bounce) with BBounce. cbn [p_off bounce].
      replace (0 + (line_element geom 0 p c * isz + k)) with ((p * k_tile_W geom + c) * isz + k) by (unfold line_element; ring). rewrite Hval by done. by rewrite Hlv.
  - eapply does_weaken; [apply (does_group_elements geom W isz Hok BDst M1 _ _ _ (λ p c, p * k_tile_W geom + c <? valid) (λ p c, bounce ⊕ (p * k_tile_W geom + c) * isz)); [done|..]|cbn [p_off shift]; intros pos Hp; lia].
    + intros p c Hp Hc Hs%Z.ltb_lt. assert (0 <= p * k_tile_W geom + c < group_elems geom) as Hr by (unfold group_elems; by apply join_pos).
      split_and!; [done|cbn; nia|]. change (p_buf (bounce ⊕ (p * k_tile_W geom + c) * isz)) with BBounce. cbn [p_off shift bounce]. rewrite Hbl. unfold group_bytes. nia.
    + intros p c k Hp Hc Hk. assert (in_line geom isz g p c k) as Hin by done. destruct (group_cell g p c k Hin) as (HT & Hr & El & Hi). cbn [p_off shift].
      rewrite Z.add_0_l. split; [|done]. rewrite <- (Hlv p c k Hin) in HT. destruct (p * k_tile_W geom + c <? valid) eqn:Es; [|done].
      unfold src_byte. change (p_buf (bounce ⊕ (p * k_tile_W geom + c) * isz)) with BBounce. cbn [p_off shift bounce].
      replace (0 + (p * k_tile_W geom + c) * isz + k) with ((p * k_tile_W geom + c) * isz + k) by ring. rewrite Hval by done. by rewrite Es.
Qed.
Lemma group_step g M :
  0 <= g < n → swept M0 T (line_bytes geom isz) gb ((g + 1) * gb) ((g + 1) * gb) M →
  ∃ M', exec (packed_group_in_place geom (k_P geom) (mkPtr BDst 0) W isz g) M = Some M' ∧ swept M0 T (line_bytes geom isz) gb (g * gb) (g * gb) M'.
Proof using Hok Hpk hwl Hcap.
  intros Hg HM. pose proof (group_bytes_pos geom W isz Hok) as Hgb. pose proof Hok as []. pose proof (sw_len _ _ _ _ _ _ _ HM) as Hlen. unfold line_bytes in *.
  assert (0 <= g * gb ∧ (g + 1) * gb <= n * gb) as [Hg0 Hg1] by nia. unfold packed_group_in_place. cbv zeta.
  destruct (Z.leb_spec W (g * group_elems geom)) as [Hout|Hin].
  - eapply (swept_does M0 T (n * gb) gb (g * gb) (g * gb)); [exact HM|lia|lia|lia|lia|].
    eapply does_weaken; [apply does_zero_row; [lia|split_and!; [done|cbn [p_off shift]; lia|cbn [p_off shift]; lia]|]|cbn [p_off shift]; intros pos Hp; lia].
    intros j Hj. cbn [p_off shift]. unfold group_bytes, group_elems in Hj. destruct (split_pos3 j (k_tile_W geom) (k_P geom) isz) as (c & p & k & Hc & Hp & Hk & ->); [done..|].
    destruct (group_cell g p c k) as (HT & Hr & El & Hi); [done|]. rewrite Z.add_0_l. split; [|done]. unfold line_value in HT. by rewrite (proj2 (Z.ltb_ge _ W)) in HT by lia.
  - assert (0 < group_elems geom) as Hge by (unfold group_elems; nia). set (valid := Z.min (group_elems geom) (W - g * group_elems geom)). assert (0 < valid <= group_elems geom) as Hv by lia.
    assert (0 <= valid * isz ∧ valid * isz <= gb ∧ 0 <= (group_elems geom - valid) * isz ∧ valid * isz + (group_elems geom - valid) * isz = gb) as (Hm0 & Hm1 & Hm2 & Hm3) by (unfold group_bytes; split_and!; nia).
    rewrite app_comm_cons. eapply (swept_bounce M0 T (n * gb) gb (g * gb) (g * gb) _ _ M _ _ (group_bounce g valid) gb); [exact HM|lia..| |].
    + change (memcpy ?d ?s ?x :: ?l) with ([memcpy d s x] ++ l).
      eapply does_weaken; [apply does_app; [apply does_memcpy; [done|split_and!; [done|done|cbn; lia]|split_and!; [done|cbn [p_off shift]; lia|cbn [p_off p_buf shift]; lia]|]|
        apply does_if; intros _; apply does_memset0; [done|split_and!; [done|cbn [p_off shift bounce]; lia|cbn [p_off shift bounce]; lia]|]]|].
      * intros pos Hp. unfold src_byte, group_bounce. cbn [p_off p_buf shift bounce]. rewrite !Z.add_0_l, (proj2 (Z.ltb_lt _ _)) by lia. apply (sw_kept _ _ _ _ _ _ _ HM). lia.
      * intros pos Hp. unfold group_bounce. cbn [p_off shift bounce]. by rewrite (proj2 (Z.ltb_ge _ _)) by lia.
      * intros pos Hp. cbn [p_off shift bounce]. destruct (decide (pos < valid * isz)); [left; lia|right]. split; [apply Z.ltb_lt; nia|lia].
    + intros M1 E1 Hbl Hbounce. apply group_write_does; try done; [lia|by rewrite E1].
Qed.
Lemma packed_in_place M :
  buffer BDst M = S0 → blen (buffer BBounce M) = gb →
  ∃ M', exec (downto n ≫= packed_group_in_place geom (k_P geom) (mkPtr BDst 0) W isz) M = Some M' ∧ swept M0 T (line_bytes geom isz) gb 0 0 M'.
Proof using Hok Hpk hwl Hcap.
  intros E Hbl. pose proof Hok as [].
  destruct (exec_downto (λ g M, swept M0 T (line_bytes geom isz) gb (g * gb) (g * gb) M) n (packed_group_in_place geom (k_P geom) (mkPtr BDst 0) W isz) M) as (M' & EM & HM').
  - done.
  - apply swept_start; unfold line_bytes in *; (done || lia).
  - intros g M1 Hg. by apply group_step.
  - by exists M'.
Qed.
End packed_line.

(** ** Every layout *)
Section in_place.
Context {xla : Xla} {xlal : XlaLaws} {hw : Highway} {hwl : HighwayLaws} (shape : Shape) (layout : Layout) (pool_threads : Z).
Abbreviation dims := (dimensions shape).
Abbreviation isz := (ByteSizeOfPrimitiveType (element_type shape)).
Abbreviation total := (tiled_bytes shape layout).
Context (Hok : layout_ok shape layout) (Hisz : 0 < isz) (Hdef : tiled_or_default shape layout).
Context (M : Memory) (capacity : Z) (Hcap : total <= capacity) (Hlen : capacity <= blen (buffer BDst M)).
Abbreviation S0 := (buffer BDst M).
(** The buffer holds the tiling of what it held, and the bytes behind it are kept. *)
Definition tiled_in_place (M' : Memory) : Prop :=
  blen (buffer BDst M') = blen S0 ∧ (∀ pos, 0 <= pos < total → tiles_to shape layout S0 pos (byte_at (buffer BDst M') pos)) ∧
  ∀ pos, 0 <= pos → total <= pos → byte_at (buffer BDst M') pos = byte_at S0 pos.
Definition runs_in_place (r : StatusOr Run) : Prop :=
  ∃ run, r = Ok run ∧ (∃ M', run_runs run M M') ∧ ∀ M', run_runs run M M' → tiled_in_place M'.

Lemma swept_tiled T bb M' :
  swept M T total bb 0 0 M' → (∀ pos v, T pos v → tiles_to shape layout S0 pos v) → tiled_in_place M'.
Proof. intros [H1 H2 H3 H4 H5] HT. split; [done|]. split; [|done]. intros pos Hp. by apply HT, H4. Qed.
Lemma inline_in_place bb prog :
  (∀ M1, buffer BDst M1 = S0 → buffer BBounce M1 = zeros bb → ∃ M', exec prog M1 = Some M' ∧ tiled_in_place M') →
  runs_in_place (Ok (mkRun bb [Inline prog])).
Proof.
  intros H. eexists. split; [done|]. destruct (H (set_buffer BBounce (zeros bb) M)) as (M' & E & HM'); [done..|]. unfold run_runs. cbn. split.
  - exists M', M'. by split.
  - intros M2 (M1 & E1 & ->). by replace M1 with M' by congruence.
Qed.
Lemma nothing_in_place : (∀ pos, 0 <= pos < total → tiles_to shape layout S0 pos (byte_at S0 pos)) → runs_in_place (Ok (mkRun 0 [])).
Proof. intros H. eexists. split; [done|]. unfold run_runs. cbn. split; [by eexists|]. intros M' ->. by split. Qed.

(** Through a full-size buffer. *)
Lemma scratch_in_place :
  runs_in_place (Ok (mkRun total [TileBufferTo pool_threads (mkPtr BDst 0) bounce shape layout; Inline [memcpy (mkPtr BDst 0) bounce total]])).
Proof using Hok Hisz Hdef Hcap Hlen xlal hwl.
  pose proof (tiled_bytes_nonneg shape layout Hok Hisz) as Hn. set (M1 := set_buffer BBounce (zeros total) M).
  assert (linear_bytes shape <= blen S0) as HS by (unfold linear_bytes; pose proof (elements_le_cells shape layout Hok); unfold tiled_bytes in *; nia).
  pose proof (TileBufferTo_ok shape layout Hok Hisz BBounce BDst M1 total ltac:(done) ltac:(lia) HS pool_threads Hdef) as Hplan.
  apply (plan_correct _ _ _ _ _ _ M1) in Hplan as [[M2 Hrun] Hruns]; [|split; [done|by apply blen_zeros]].
  assert (∀ M2, plan_runs (TileBufferTo pool_threads (mkPtr BDst 0) bounce shape layout) M1 M2 → ∃ M', exec [memcpy (mkPtr BDst 0) bounce total] M2 = Some M' ∧ tiled_in_place M') as Hcopy.
  { intros M3 ((HA & Hl) & HC & _)%Hruns. assert (buffer BDst M3 = S0) as Ed by (by apply HA).
    destruct (exec_from BDst (λ pos v, v = byte_at (buffer BBounce M3) pos ∧ pos < total) [memcpy (mkPtr BDst 0) bounce total] (λ pos, 0 <= pos < 0 + total) M3) as (M' & E & (HA' & Hl') & HC' & HU').
    - apply does_memcpy; [done|split_and!; [done|done|rewrite Ed; cbn [p_off]; lia]|split_and!; [done|done|change (p_buf bounce) with BBounce; rewrite Hl; cbn; lia]|].
      intros k Hk. unfold src_byte. cbn [p_off]. split; [done|lia].
    - exists M'. split; [done|]. split; [by rewrite Hl', Ed|]. split.
      + intros pos Hp. destruct (HC' pos ltac:(lia)) as [-> _]; [lia|]. apply (HC pos); [lia|done].
      + intros pos H0 Hp. rewrite HU', Ed; [done|done|]. intros v [_ ?]. lia. }
  eexists. split; [done|]. unfold run_runs. cbn [run_plans bounce_bytes plans_run]. split.
  - destruct (Hcopy M2 Hrun) as (M' & E & _). by exists M', M2; split; [|exists M'; split].
  - intros M' (M3 & H3 & M4 & E4 & ->). destruct (Hcopy M3 H3) as (M5 & E5 & H5). cbn in E4. by replace M4 with M5 by (cbn in E5; congruence).
Qed.
Lemma matrices_in_place : IsStandardRowMajorTiled shape layout = true → ((rank shape =? 1) && tile_rank (tile_at layout 0) 1) = false →
  runs_in_place (TileBufferInPlaceRowMajor (mkPtr BDst 0) capacity shape layout).
Proof using Hok Hisz Hcap Hlen xlal hwl.
  intros Erow El. unfold TileBufferInPlaceRowMajor. rewrite El. destruct (row_matrix_tiles shape layout Erow El) as (tH & tW & Hts & Hgr & Hdiv).
  pose proof (row_chart shape layout (lk_dims _ _ Hok) Hisz tH tW Hts (row_tiles_pos shape layout Erow) Hdiv Erow) as Hch.
  set (g := ComputeRowMajorTileGeometry shape layout) in *. pose proof (ch_geom _ _ _ _ Hch) as Hgo. pose proof (ch_itemsize _ _ _ _ Hch) as Hits.
  pose proof (ch_total _ _ _ _ Hch) as Htot. fold total in Htot. assert (linear_ok g S0) as HS.
  { unfold linear_ok. rewrite <- (ch_linear _ _ _ _ Hch). pose proof (elements_le_cells shape layout Hok). unfold tiled_bytes in *. nia. }
  pose proof (λ pos v, chart_tiled shape layout g _ S0 pos v Hch) as HT. rewrite Htot in *. rewrite (proj2 (Z.ltb_ge capacity _)) by done.
  destruct (identical_bytes g) eqn:Eid; [|destruct ((g_packing_factor g =? 1) && (g_H g =? 1)) eqn:E1].
  - apply nothing_in_place. intros pos Hp. rewrite Htot in Hp. by apply HT, identical_tiled.
  - apply andb_true_iff in E1 as [EP%Z.eqb_eq EH%Z.eqb_eq]. apply inline_in_place. intros M1 Ed Eb.
    destruct (single_row_in_place g Hgo M ltac:(lia) HS EP EH M1) as (M' & E & Hsw); [done|by rewrite Eb|]. exists M'. split; [done|]. rewrite <- Htot in Hsw. by eapply swept_tiled.
  - apply inline_in_place. intros M1 Ed Eb. assert (0 <= g_tile_H g * g_W g * g_itemsize g) as H0 by (destruct Hgo; apply mul3_nonneg; lia).
    destruct (bands_in_place g Hgo M ltac:(lia) HS ltac:(by rewrite Hits) M1) as (M' & E & Hsw); [done|rewrite Eb; by apply blen_zeros|]. exists M'. split; [done|]. rewrite <- Htot in Hsw. by eapply swept_tiled.
Qed.
Lemma lines_in_place : IsStandardRowMajorTiled shape layout = true → ((rank shape =? 1) && tile_rank (tile_at layout 0) 1) = true →
  runs_in_place (TileBufferInPlaceRowMajor (mkPtr BDst 0) capacity shape layout).
Proof using Hok Hisz Hcap Hlen xlal hwl.
  intros Erow El. unfold TileBufferInPlaceRowMajor. rewrite El. apply andb_true_iff in El as [E1%Z.eqb_eq El].
  destruct (line_dims shape layout Hok E1) as (W & EW & HW & Ed & Elb). rewrite Ed. destruct (tile_rank (last_tile layout) 1) eqn:Elast.
  - destruct (line_unpacked shape layout W EW HW Erow El Elast) as (Hc & Hle & Hp). unfold ZeroPadUnpacked1DInPlace. set (n := physical_elements W (dim (tile_at layout 0) 0)) in *.
    assert (total = n * isz) as Et by (unfold tiled_bytes; by rewrite Hc). rewrite Et in Hcap. rewrite (proj2 (Z.ltb_ge capacity _)) by done.
    apply inline_in_place. intros M1 E1' _. pose proof (does_line_padding BDst BDst M1 (blen (buffer BDst M1)) shape layout) as Hd. rewrite Ed in Hd. fold n in Hd.
    destruct (exec_from _ _ _ _ _ (Hd HW Hisz ltac:(rewrite E1'; lia))) as (M' & E & (HA & Hl) & HC & HU). rewrite E1' in *. exists M'. split; [done|].
    split; [done|]. rewrite Et. split.
    + intros pos Hpos. destruct (decide (pos < W * isz)) as [Hlt|Hge]; [|apply (flat_tiled shape layout W EW n Hc Hp), (HC pos); lia].
      rewrite HU; [|lia|by intros v [_ ?]; lia]. destruct (split_pos pos W isz) as (e & k & He & Hk & ->); [done|lia|].
      left. exists [e], k. split; [by apply (line_index shape W EW); exists e|]. split; [done|]. rewrite Hp, EW by done. done.
    + intros pos H0 Hpos. apply HU; [done|]. intros v [_ ?]. lia.
  - destruct (line_packed shape layout W EW HW Hisz Erow El Elast) as (Hpk & Hlo & Hc & Hp). unfold TilePacked1DInPlace. pose proof (dispatch_packed shape layout) as Hdp. rewrite Ed in Hdp. rewrite Hdp by done.
    set (G := ComputePacked1DTileGeometry W layout) in *. change (tiled_bytes shape layout = line_bytes G isz) in Hc. unfold line_bytes in Hc. rewrite (proj2 (Z.ltb_ge capacity _)) by lia.
    apply inline_in_place. intros M1 E1' Eb. pose proof (group_bytes_pos G W isz Hlo) as Hgb.
    destruct (packed_in_place G W isz Hlo Hpk M ltac:(unfold line_bytes; lia) M1) as (M' & E & Hsw); [done|rewrite Eb; apply blen_zeros; lia|]. exists M'. split; [done|].
    unfold line_bytes in Hsw. rewrite <- Hc in Hsw. eapply swept_tiled; [exact Hsw|]. intros pos v. by apply packed_tiled.
Qed.
Lemma TileBufferInPlace_ok : runs_in_place (TileBufferInPlace pool_threads (mkPtr BDst 0) capacity shape layout).
Proof using Hok Hisz Hdef Hcap Hlen xlal hwl.
  unfold TileBufferInPlace. case_bool_decide as Et.
  - apply nothing_in_place. intros pos Hp. destruct (untiled_position shape layout Et Hdef) as [Ed Hpos].
    destruct (byte_of_element shape layout Hok Hisz pos) as (idx & k & Hi & Hk & ->); [unfold linear_bytes, tiled_bytes in *; by rewrite <- Ed|].
    left. exists idx, k. by rewrite Hpos.
  - destruct (IsStandardRowMajorTiled shape layout) eqn:Erow.
    + destruct ((rank shape =? 1) && tile_rank (tile_at layout 0) 1) eqn:El; [by apply lines_in_place|by apply matrices_in_place].
    + rewrite (elements_spec shape layout Hok). fold total. rewrite (proj2 (Z.ltb_ge capacity _)) by done. apply scratch_in_place.
Qed.
End in_place.
