(* ===== verification/TilingProperties.v ===== *)
(** * TilingProperties: what the weight tilers guarantee
    (src/tpu_sync/weight_sync/tiling_utils.cc)

    For every layout the code accepts, on every path and under every schedule of the
    thread pool: the tiled buffer is the nested tiling of the tensor, detiling undoes
    tiling, and tiling in place leaves what tiling into another buffer leaves. *)

From S2P Require Import Prelude TileMemory Highway TilingUtils TilingTiles TilingParallel TilingRowMajor TilingLine TilingColMajor TilingIndex TilingCharts TilingBuffers TilingInPlace.

Section spec.
Context {xla : Xla} (shape : Shape) (layout : Layout).
Abbreviation dims := (dimensions shape).
Abbreviation isz := (ByteSizeOfPrimitiveType (element_type shape)).
(** [D] holds the nested tiling of [S]: every element at its position, zeros elsewhere. *)
Definition tiling_of (S D : bytes) : Prop :=
  (∀ idx k, in_dims dims idx → 0 <= k < isz → byte_at D (position shape layout idx * isz + k) = byte_at S (linear dims idx * isz + k)) ∧
  (∀ q k, 0 <= q < product (tiled_dims shape layout) → 0 <= k < isz → (∀ idx, in_dims dims idx → position shape layout idx ≠ q) →
     byte_at D (q * isz + k) = 0).
(** [S] holds the elements of the tiled buffer [D] in row-major order. *)
Definition untiling_of (D S : bytes) : Prop :=
  ∀ idx k, in_dims dims idx → 0 <= k < isz → byte_at S (linear dims idx * isz + k) = byte_at D (position shape layout idx * isz + k).
(** What the calls need of their arguments. *)
Record tiling_args : Prop := {
  ta_layout : layout_ok shape layout;
  ta_itemsize : 0 < isz;
  ta_order : tiled_or_default shape layout;
}.

Lemma tiles_unique S pos v v' : tiling_args → tiles_to shape layout S pos v → tiles_to shape layout S pos v' → v = v'.
Proof.
  intros [Hok Hisz _]. assert (∀ a k a' k', 0 <= k < isz → 0 <= k' < isz → a * isz + k = a' * isz + k' → a = a' ∧ k = k') as U.
  { intros a k a' k' Hk Hk' E. destruct (digits a isz k Hk) as [E1 E2], (digits a' isz k' Hk') as [E1' E2']. split; congruence. }
  intros [(i & k & Hi & Hk & -> & ->)|(q & k & Hq & Hk & Hno & -> & ->)] [(j & k' & Hj & Hk' & E & ->)|(q' & k' & Hq' & Hk' & Hno' & E & ->)];
    apply U in E as [E ->]; try done; [| |].
  - apply (position_inj shape layout Hok) in E as ->; done.
  - by destruct (Hno' i Hi).
  - by destruct (Hno j Hj).
Qed.
Lemma untiles_unique S pos v v' : tiling_args → untiles_to shape layout S pos v → untiles_to shape layout S pos v' → v = v'.
Proof.
  intros [Hok Hisz _] (i & k & Hi & Hk & -> & ->) (j & k' & Hj & Hk' & E & ->).
  destruct (digits (linear dims i) isz k Hk) as [E1 E2], (digits (linear dims j) isz k' Hk') as [E1' E2'].
  assert (linear dims i = linear dims j ∧ k = k') as [E3 ->] by (split; congruence). by apply linear_inj in E3 as ->.
Qed.
Lemma tiles_range S pos v : tiling_args → tiles_to shape layout S pos v → 0 <= pos < tiled_bytes shape layout.
Proof.
  intros [Hok Hisz _]. unfold tiled_bytes. intros [(i & k & Hi & Hk & -> & _)|(q & k & Hq & Hk & _ & -> & _)]; (apply join_pos; [|done]); [by apply position_range|done].
Qed.
Lemma untiles_range S pos v : tiling_args → untiles_to shape layout S pos v → 0 <= pos < linear_bytes shape.
Proof. intros [Hok Hisz _]. unfold linear_bytes. intros (i & k & Hi & Hk & -> & _). apply join_pos; [by apply linear_range|done]. Qed.
Lemma tiles_tiling S D : tiling_args → (∀ pos, 0 <= pos < tiled_bytes shape layout → tiles_to shape layout S pos (byte_at D pos)) → tiling_of S D.
Proof.
  intros Hargs H. split.
  - intros idx k Hi Hk. assert (tiles_to shape layout S (position shape layout idx * isz + k) (byte_at S (linear dims idx * isz + k))) as Ht by (left; by exists idx, k).
    eapply tiles_unique; [done| |exact Ht]. apply H. by eapply tiles_range.
  - intros q k Hq Hk Hno. assert (tiles_to shape layout S (q * isz + k) 0) as Ht by (right; by exists q, k).
    eapply tiles_unique; [done| |exact Ht]. apply H. by eapply tiles_range.
Qed.
Lemma untiles_untiling S D : tiling_args → (∀ pos, 0 <= pos < linear_bytes shape → untiles_to shape layout D pos (byte_at S pos)) → untiling_of D S.
Proof.
  intros Hargs H idx k Hi Hk. assert (untiles_to shape layout D (linear dims idx * isz + k) (byte_at D (position shape layout idx * isz + k))) as Ht by (by exists idx, k).
  eapply untiles_unique; [done| |exact Ht]. apply H. by eapply untiles_range.
Qed.
(** A tiled buffer read back. *)
Lemma tiling_untiling S D S' pos : tiling_args → tiling_of S D → untiling_of D S' → 0 <= pos < linear_bytes shape → byte_at S' pos = byte_at S pos.
Proof.
  intros [Hok Hisz _] [HT _] HU Hp. destruct (byte_of_element shape layout Hok Hisz pos Hp) as (idx & k & Hi & Hk & ->). by rewrite HU, HT.
Qed.
Lemma tiling_same {xlal : XlaLaws} S S' D D' pos :
  tiling_args → tiling_of S D → tiling_of S' D' → (∀ i, 0 <= i < linear_bytes shape → byte_at S i = byte_at S' i) →
  0 <= pos < tiled_bytes shape layout → byte_at D pos = byte_at D' pos.
Proof.
  intros [Hok Hisz Hdef] [HT HZ] [HT' HZ'] HS Hp. destruct (byte_of_cell shape layout Hisz pos Hp) as (q & k & Hq & Hk & ->).
  destruct (decide (q ∈ position shape layout <$> ForEachIndex shape)) as [(idx & -> & Hi%ForEachIndex_spec)%list_elem_of_fmap|Hno].
  - rewrite HT, HT' by done. apply HS. unfold linear_bytes. apply join_pos; [by apply linear_range|done].
  - rewrite HZ, HZ'; try done; intros idx Hi <-; apply Hno, list_elem_of_fmap; exists idx; (split; [done|by apply ForEachIndex_spec]).
Qed.
End spec.

(** ** The theorems *)
Section theorems.
Context {xla : Xla} {xlal : XlaLaws} {hw : Highway} {hwl : HighwayLaws} (shape : Shape) (layout : Layout).
Context (Hargs : tiling_args shape layout).
Abbreviation src := (mkPtr BSrc 0).
Abbreviation dst := (mkPtr BDst 0).

(** A plan that tiles one buffer into another. *)
Lemma tile_plan w bs M pool_threads :
  bs ≠ w → linear_bytes shape <= blen (buffer bs M) → tiled_bytes shape layout <= blen (buffer w M) →
  let p := TileBufferTo pool_threads (mkPtr bs 0) (mkPtr w 0) shape layout in
  (∃ M', plan_runs p M M') ∧ ∀ M', plan_runs p M M' →
    (∀ b, b ≠ w → buffer b M' = buffer b M) ∧ blen (buffer w M') = blen (buffer w M) ∧ tiling_of shape layout (buffer bs M) (buffer w M') ∧
    ∀ pos, tiled_bytes shape layout <= pos → byte_at (buffer w M') pos = byte_at (buffer w M) pos.
Proof using Hargs xlal hwl.
  intros Hne HS HD. pose proof Hargs as [Hok Hisz Hdef]. pose proof (tiled_bytes_nonneg shape layout Hok Hisz) as Hn. cbv zeta.
  pose proof (TileBufferTo_ok shape layout Hok Hisz w bs M (blen (buffer w M)) Hne HD HS pool_threads Hdef) as Hplan.
  apply (plan_correct _ _ _ _ _ _ M) in Hplan as [Hex Hall]; [|by split]. split; [done|]. intros M' ((HA & Hl) & HC & HU)%Hall.
  split; [done|]. split; [done|]. split; [apply tiles_tiling; [done|]; intros pos Hp; apply HC; [lia|done]|].
  intros pos Hp. apply HU; [lia|]. intros v Hv%tiles_range; [lia|done].
Qed.
Lemma detile_plan w bs M pool_threads :
  bs ≠ w → tiled_bytes shape layout <= blen (buffer bs M) → linear_bytes shape <= blen (buffer w M) →
  let p := DetileBuffer pool_threads (mkPtr bs 0) (mkPtr w 0) shape layout in
  (∃ M', plan_runs p M M') ∧ ∀ M', plan_runs p M M' →
    (∀ b, b ≠ w → buffer b M' = buffer b M) ∧ blen (buffer w M') = blen (buffer w M) ∧ untiling_of shape layout (buffer bs M) (buffer w M') ∧
    ∀ pos, linear_bytes shape <= pos → byte_at (buffer w M') pos = byte_at (buffer w M) pos.
Proof using Hargs xlal hwl.
  intros Hne HS HD. pose proof Hargs as [Hok Hisz Hdef]. pose proof (linear_bytes_nonneg shape layout Hok Hisz) as Hn. cbv zeta.
  pose proof (DetileBuffer_ok shape layout Hok Hisz w bs M (blen (buffer w M)) Hne HD HS pool_threads Hdef) as Hplan.
  apply (plan_correct _ _ _ _ _ _ M) in Hplan as [Hex Hall]; [|by split]. split; [done|]. intros M' ((HA & Hl) & HC & HU)%Hall.
  split; [done|]. split; [done|]. split; [apply untiles_untiling; [done|]; intros pos Hp; apply HC; [lia|done]|].
  intros pos Hp. apply HU; [lia|]. intros v Hv%untiles_range; [lia|done].
Qed.

(** C4: TileBuffer between different buffers, on every path and every schedule: it succeeds,
    some run completes, and every run leaves in the destination the nested tiling of the
    source (elements at their position, zeros in the padding), the source unchanged, and
    no byte behind the tiled size touched; no run accesses memory out of bounds. *)
Theorem TileBuffer_correct M pool_threads :
  linear_bytes shape <= blen (m_src M) → tiled_bytes shape layout <= blen (m_dst M) →
  ∃ run, TileBuffer pool_threads false src dst shape layout = Ok run ∧ (∃ M', run_runs run M M') ∧
    ∀ M', run_runs run M M' → m_src M' = m_src M ∧ tiling_of shape layout (m_src M) (m_dst M') ∧ blen (m_dst M') = blen (m_dst M) ∧
      ∀ pos, tiled_bytes shape layout <= pos → byte_at (m_dst M') pos = byte_at (m_dst M) pos.
Proof using Hargs xlal hwl.
  intros HS HD. eexists. split; [done|]. unfold run_runs. cbn [run_plans bounce_bytes plans_run].
  destruct (tile_plan BDst BSrc (set_buffer BBounce (zeros 0) M) pool_threads ltac:(done) HS HD) as [[M' Hrun] Hall]. split; [by exists M', M'|].
  intros M1 (M2 & H2 & ->). destruct (Hall M2 H2) as (Hb & Hl & HT & HU). split; [exact (Hb BSrc ltac:(done))|]. by split.
Qed.
(** DetileBuffer, on every path and every schedule: some run completes, and every run
    leaves every element of the tiled source in row-major order in the destination, the
    source unchanged, and no byte behind the linear size touched. *)
Theorem DetileBuffer_correct M pool_threads :
  tiled_bytes shape layout <= blen (m_src M) → linear_bytes shape <= blen (m_dst M) →
  (∃ M', plan_runs (DetileBuffer pool_threads src dst shape layout) M M') ∧
  ∀ M', plan_runs (DetileBuffer pool_threads src dst shape layout) M M' →
    m_src M' = m_src M ∧ untiling_of shape layout (m_src M) (m_dst M') ∧ blen (m_dst M') = blen (m_dst M) ∧
    ∀ pos, linear_bytes shape <= pos → byte_at (m_dst M') pos = byte_at (m_dst M) pos.
Proof using Hargs xlal hwl.
  intros HS HD. destruct (detile_plan BDst BSrc M pool_threads ltac:(done) HS HD) as [Hex Hall]. split; [done|].
  intros M' (Hb & Hl & HT & HU)%Hall. split; [exact (Hb BSrc ltac:(done))|]. by split.
Qed.
(** C31: Detiling undoes tiling: tile a linear buffer, detile the result into a third one,
    with any thread pools and schedules; both runs complete and the third buffer starts
    with the bytes of the first. *)
Theorem tile_detile_roundtrip M pool_threads pool_threads' :
  linear_bytes shape <= blen (m_src M) → tiled_bytes shape layout <= blen (m_dst M) → linear_bytes shape <= blen (m_bounce M) →
  let tile := plan_runs (TileBufferTo pool_threads src dst shape layout) in
  let detile := plan_runs (DetileBuffer pool_threads' dst bounce shape layout) in
  (∃ M1, tile M M1) ∧ ∀ M1, tile M M1 → (∃ M2, detile M1 M2) ∧
    ∀ M2, detile M1 M2 → ∀ pos, 0 <= pos < linear_bytes shape → byte_at (m_bounce M2) pos = byte_at (m_src M) pos.
Proof using Hargs xlal hwl.
  intros HS HD HB tile detile. destruct (tile_plan BDst BSrc M pool_threads ltac:(done) HS HD) as [Hex Hall]. split; [done|].
  intros M1 (Hb & Hl & HT & _)%Hall. pose proof (Hb BBounce ltac:(done)) as Eb. cbn in Eb, Hl, HT.
  destruct (detile_plan BBounce BDst M1 pool_threads' ltac:(done)) as [Hex' Hall']; [cbn; lia|cbn; by rewrite Eb|]. split; [done|].
  intros M2 (_ & _ & HU & _)%Hall' pos Hp. by eapply tiling_untiling.
Qed.
(** The pool always finishes: when the work of TileBuffer is parallel, no schedule has
    more steps than a bound fixed at the start, and a state in which not every thread is
    done always has a next step; in particular no command ever faults. *)
Theorem tile_schedule_terminates M pool_threads total max_threads step task :
  linear_bytes shape <= blen (m_src M) → tiled_bytes shape layout <= blen (m_dst M) →
  TileBufferTo pool_threads src dst shape layout = Parallel total max_threads step task →
  ∃ bound, ∀ n s, nsteps (pool_step total step task) n (pool_start max_threads M) s →
    (n <= bound)%nat ∧ (pool_done s ∨ ∃ s', pool_step total step task s s').
Proof using Hargs xlal hwl.
  intros HS HD E. pose proof Hargs as [Hok Hisz Hdef].
  pose proof (TileBufferTo_ok shape layout Hok Hisz BDst BSrc M (blen (m_dst M)) ltac:(done) HD HS pool_threads Hdef) as Hplan.
  rewrite E in Hplan. destruct Hplan as (Hs & Hm & R & HT). assert (agrees BDst M (blen (m_dst M)) M) as HM by (by split).
  pose proof (pool_start_ok BDst M _ total task R M max_threads HM) as Hpo. exists (pool_work total task (pool_start max_threads M)). intros n s Hn. split.
  - pose proof (pool_bounded BDst M _ _ _ total step task R Hs HT M n _ s _ Hpo Hn). lia.
  - apply rtc_nsteps_2 in Hn. destruct (pool_reach BDst M _ _ _ total step task R Hs HT M _ _ _ Hpo Hn) as [rem Hrem].
    by eapply (pool_progress BDst M _ _ _ total step task R HT M s rem).
Qed.
(** C5: TileBufferInPlace, on every path: given a buffer of the tiled size it succeeds, some
    run completes, and every run leaves in the buffer the nested tiling of the linear tensor
    that was there, with the bytes behind it kept. *)
Theorem TileBufferInPlace_correct M capacity pool_threads :
  tiled_bytes shape layout <= capacity → capacity <= blen (m_dst M) →
  ∃ run, TileBufferInPlace pool_threads dst capacity shape layout = Ok run ∧ (∃ M', run_runs run M M') ∧
    ∀ M', run_runs run M M' → tiling_of shape layout (m_dst M) (m_dst M') ∧ blen (m_dst M') = blen (m_dst M) ∧
      ∀ pos, tiled_bytes shape layout <= pos → byte_at (m_dst M') pos = byte_at (m_dst M) pos.
Proof using Hargs xlal hwl.
  intros Hcap Hlen. pose proof Hargs as [Hok Hisz Hdef]. pose proof (tiled_bytes_nonneg shape layout Hok Hisz) as Hn.
  destruct (TileBufferInPlace_ok shape layout pool_threads Hok Hisz Hdef M capacity Hcap Hlen) as (run & E & Hex & Hall). exists run. split; [done|]. split; [done|].
  intros M' (Hl & HT & HU)%Hall. split; [by apply tiles_tiling|]. split; [done|]. intros pos Hp. apply HU; [lia|done].
Qed.
Lemma in_place_refuses capacity pool_threads :
  tiles layout ≠ [] → capacity < tiled_bytes shape layout → TileBufferInPlace pool_threads dst capacity shape layout = Err kInvalidArgument.
Proof using Hargs xlal.
  intros Et Hc. pose proof Hargs as [Hok Hisz Hdef]. unfold TileBufferInPlace. rewrite bool_decide_eq_false_2 by done.
  destruct (IsStandardRowMajorTiled shape layout) eqn:Erow; [|by rewrite (elements_spec shape layout Hok), (proj2 (Z.ltb_lt capacity _))].
  unfold TileBufferInPlaceRowMajor. destruct ((rank shape =? 1) && tile_rank (tile_at layout 0) 1) eqn:El.
  - apply andb_true_iff in El as [E1%Z.eqb_eq El]. destruct (line_dims shape layout Hok E1) as (W & EW & HW & Ed & Elb). rewrite Ed. destruct (tile_rank (last_tile layout) 1) eqn:Elast.
    + destruct (line_unpacked shape layout W EW HW Erow El Elast) as (Hcells & _ & _). unfold ZeroPadUnpacked1DInPlace. unfold tiled_bytes in Hc. rewrite Hcells in Hc. by rewrite (proj2 (Z.ltb_lt capacity _)).
    + destruct (line_packed shape layout W EW HW Hisz Erow El Elast) as (_ & _ & Hcells & _). unfold TilePacked1DInPlace. unfold tiled_bytes in Hc. rewrite Hcells in Hc. by rewrite (proj2 (Z.ltb_lt capacity _)).
  - destruct (row_matrix_tiles shape layout Erow El) as (tH & tW & Hts & Hgr & Hdiv).
    pose proof (row_chart shape layout (lk_dims _ _ Hok) Hisz tH tW Hts (row_tiles_pos shape layout Erow) Hdiv Erow) as Hch.
    unfold tiled_bytes in Hc. rewrite (ch_total _ _ _ _ Hch) in Hc. by rewrite (proj2 (Z.ltb_lt capacity _)).
Qed.
(** C39: The capacity check of TileBufferInPlace, on every path.  A layout without tiles is
    never refused, whatever the capacity, and nothing is written.  A tiled layout is refused
    with an invalid-argument error exactly when the capacity is smaller than the tiled tensor;
    otherwise there is a run, and it completes on every buffer of that capacity. *)
Theorem TileBufferInPlace_capacity capacity pool_threads :
  match TileBufferInPlace pool_threads dst capacity shape layout with
  | Err c => c = kInvalidArgument ∧ tiles layout ≠ [] ∧ capacity < tiled_bytes shape layout
  | Ok run =>
      tiles layout = [] ∧ run = mkRun 0 [] ∨
      tiles layout ≠ [] ∧ tiled_bytes shape layout <= capacity ∧ ∀ M, capacity <= blen (m_dst M) → ∃ M', run_runs run M M'
  end.
Proof using Hargs xlal hwl.
  pose proof Hargs as [Hok Hisz Hdef]. destruct (decide (tiles layout = [])) as [Et|Et].
  { unfold TileBufferInPlace. rewrite bool_decide_eq_true_2 by done. by left. }
  destruct (Z.lt_ge_cases capacity (tiled_bytes shape layout)) as [Hc|Hc]; [by rewrite in_place_refuses|].
  assert (∀ M, capacity <= blen (m_dst M) →
    ∃ run, TileBufferInPlace pool_threads dst capacity shape layout = Ok run ∧ ∃ M', run_runs run M M') as Hrun.
  { intros M HM. destruct (TileBufferInPlace_ok shape layout pool_threads Hok Hisz Hdef M capacity Hc HM) as (run & E & Hex & _). eauto. }
  pose proof (tiled_bytes_nonneg shape layout Hok Hisz) as Hn.
  destruct (Hrun (mkMem [] (zeros capacity) [])) as (run & E & _); [cbn; rewrite blen_zeros; lia|]. rewrite E. right.
  split; [done|]. split; [done|]. intros M HM. destruct (Hrun M HM) as (run' & E' & Hex). rewrite E in E'. injection E' as <-. done.
Qed.
(** In place and out of place agree: TileBuffer called with one pointer for both buffers
    leaves the bytes that it leaves in a separate buffer. *)
Theorem in_place_equals_out_of_place M N pool_threads pool_threads' run run' M' N' :
  tiled_bytes shape layout <= blen (m_dst M) → linear_bytes shape <= blen (m_src N) → tiled_bytes shape layout <= blen (m_dst N) →
  (∀ i, 0 <= i < linear_bytes shape → byte_at (m_dst M) i = byte_at (m_src N) i) →
  TileBuffer pool_threads true dst dst shape layout = Ok run → run_runs run M M' →
  TileBuffer pool_threads' false src dst shape layout = Ok run' → run_runs run' N N' →
  ∀ pos, 0 <= pos < tiled_bytes shape layout → byte_at (m_dst M') pos = byte_at (m_dst N') pos.
Proof using Hargs xlal hwl.
  intros HM HN HD HS E HR E' HR' pos Hp. pose proof Hargs as [Hok Hisz Hdef]. injection E' as <-.
  unfold TileBuffer in E. rewrite (elements_spec shape layout Hok) in E. fold (tiled_bytes shape layout) in E.
  destruct (TileBufferInPlace_ok shape layout pool_threads Hok Hisz Hdef M (tiled_bytes shape layout) ltac:(done) HM) as (run1 & E1 & _ & Hall).
  rewrite E in E1. injection E1 as <-. destruct (Hall M' HR) as (_ & HT & _). destruct HR' as (N1 & HN1 & ->).
  destruct (tile_plan BDst BSrc (set_buffer BBounce (zeros 0) N) pool_threads' ltac:(done) HN HD) as [_ HallN]. destruct (HallN N1 HN1) as (_ & _ & HT' & _).
  apply (tiling_same shape layout (m_dst M) (m_src N) _ _ pos Hargs); [by apply tiles_tiling|exact HT'|done|done].
Qed.
End theorems.
