(* ===== verification/TilingExamples.v ===== *)
(** * TilingExamples: the weight tilers on concrete tensors
    (src/tpu_sync/weight_sync/tiling_utils.cc)

    XLA's functions by their definitions ([reference_xla]), the tilers evaluated on
    small tensors, and the theorems of [TilingProperties] applied there. *)

From S2P Require Import Prelude TileMemory Highway TilingUtils TilingParallel TilingIndex TilingCharts TilingBuffers TilingInPlace TilingProperties.

(** ** XLA, by its documentation *)
Fixpoint all_indices (dims : list Z) : list (list Z) :=
  match dims with [] => [[]] | d :: dims => seqZ 0 d ≫= λ i, cons i <$> all_indices dims end.
(** An element type is its size here. *)
#[export] Instance reference_xla : Xla := {
  CeilOfRatio := ceil_div;
  ByteSizeOfPrimitiveType t := t;
  ElementsIn shape := product (dimensions shape);
  ByteSizeOf shape := product (dimensions shape) * element_type shape;
  MakeShape t dims := mkShape t dims None;
  ForEachIndex shape := all_indices (dimensions shape);
  MultidimensionalIndexToLinearIndex shape idx := linear (dimensions shape) idx;
  LinearIndexForNestedTiling shape idx := match shape_layout shape with Some l => position shape l idx | None => linear (dimensions shape) idx end;
}.
Lemma elem_of_all_indices dims idx : idx ∈ all_indices dims ↔ in_dims dims idx.
Proof.
  revert idx. induction dims as [|d dims IH]; intros idx; cbn.
  - rewrite list_elem_of_singleton. split; [by intros ->; constructor|by inversion 1].
  - rewrite list_elem_of_bind. split.
    + intros (i & (l & -> & Hl%IH)%list_elem_of_fmap & Hi%elem_of_seqZ). constructor; [lia|done].
    + intros H. inversion H as [|? i ? l Hi Hl]; subst. exists i. split; [apply list_elem_of_fmap; exists l; split; [done|by apply IH]|apply elem_of_seqZ; lia].
Qed.
#[export] Instance reference_laws : XlaLaws.
Proof. split; try done; [intros; apply elem_of_all_indices|]. intros shape layout idx E _. cbn. by rewrite E. Qed.

(** ** Small tensors *)
Definition weights (n : Z) : bytes := seqZ 1 n.
(** 16-bit elements in 4x4 tiles packed in pairs of rows, 8-bit ones in columns, and a
    layout without a fast path. *)
Definition packed_shape : Shape := mkShape 2 [3; 5] None.
Definition packed_layout : Layout := mkLayout [1; 0] [[4; 4]; [2; 1]].
Definition col_shape : Shape := mkShape 1 [3; 5] None.
Definition col_layout : Layout := mkLayout [0; 1] [[2; 2]].
Definition odd_layout : Layout := mkLayout [1; 0] [[2; 2]; [2; 2]].
Definition line_shape : Shape := mkShape 1 [7] None.
Definition line_layout : Layout := mkLayout [0] [[2]; [4; 1]].

Definition run_inline (p : Plan) (m : Memory) : option Memory := match p with Inline prog => exec prog m | Parallel _ _ _ _ => None end.
Definition tile_into (shape : Shape) (layout : Layout) (S D : bytes) : option bytes :=
  m_dst <$> run_inline (TileBufferTo 8 (mkPtr BSrc 0) (mkPtr BDst 0) shape layout) (mkMem S D []).
Definition detile_into (shape : Shape) (layout : Layout) (S D : bytes) : option bytes :=
  m_dst <$> run_inline (DetileBuffer 8 (mkPtr BSrc 0) (mkPtr BDst 0) shape layout) (mkMem S D []).
Definition tile_in_place (shape : Shape) (layout : Layout) (D : bytes) : option bytes :=
  match TileBufferInPlace 8 (mkPtr BDst 0) (blen D) shape layout with
  | Ok (mkRun n ps) =>
      m_dst <$> foldl (λ m p, m ≫= run_inline p) (Some (mkMem [] D (zeros n))) ps
  | Err _ => None
  end.

Example packed_tiled_bytes : tiled_bytes packed_shape packed_layout = 64.
Proof. vm_compute. reflexivity. Qed.
Example packed_rows_interleaved :
  take 20 <$> tile_into packed_shape packed_layout (weights 30) (replicate 64 255) =
  Some [1; 2; 11; 12; 3; 4; 13; 14; 5; 6; 15; 16; 7; 8; 17; 18; 21; 22; 0; 0].
Proof. vm_compute. reflexivity. Qed.
Example packed_back :
  tile_into packed_shape packed_layout (weights 30) (zeros 64) ≫= (λ t, detile_into packed_shape packed_layout t (zeros 30)) = Some (weights 30).
Proof. vm_compute. reflexivity. Qed.
Example packed_same_in_place : tile_in_place packed_shape packed_layout (weights 30 ++ replicate 34 255) = tile_into packed_shape packed_layout (weights 30) (zeros 64).
Proof. vm_compute. reflexivity. Qed.
Example columns_tiled :
  tile_into col_shape col_layout (weights 15) (zeros 24) = Some [1; 6; 2; 7; 11; 0; 12; 0; 3; 8; 4; 9; 13; 0; 14; 0; 5; 10; 0; 0; 15; 0; 0; 0].
Proof. vm_compute. reflexivity. Qed.
Example columns_same_in_place : tile_in_place col_shape col_layout (weights 15 ++ zeros 9) = tile_into col_shape col_layout (weights 15) (zeros 24).
Proof. vm_compute. reflexivity. Qed.
Example odd_layout_generic : IsStandardRowMajorTiled col_shape odd_layout = false ∧ IsStandardColMajorTiled col_shape odd_layout = false.
Proof. vm_compute. split; reflexivity. Qed.
Example odd_back :
  tile_into col_shape odd_layout (weights 15) (zeros 24) ≫= (λ t, detile_into col_shape odd_layout t (zeros 15)) = Some (weights 15).
Proof. vm_compute. reflexivity. Qed.
Example line_interleaved : tile_into line_shape line_layout (weights 7) (zeros 8) = Some [1; 3; 5; 7; 2; 4; 6; 0].
Proof. vm_compute. reflexivity. Qed.
Example line_same_in_place : tile_in_place line_shape line_layout (weights 7 ++ [255]) = Some [1; 3; 5; 7; 2; 4; 6; 0].
Proof. vm_compute. reflexivity. Qed.
Example line_too_small : tile_in_place line_shape line_layout (weights 7) = None.
Proof. vm_compute. reflexivity. Qed.

(** ** The theorems on them *)
Ltac concrete_args := split; [split; [repeat constructor; done|done|vm_compute; first [reflexivity|apply Permutation_swap]|repeat (constructor; try done)]|done|done].
Lemma packed_args : tiling_args packed_shape packed_layout.
Proof. concrete_args. Qed.
Lemma col_args : tiling_args col_shape col_layout.
Proof. concrete_args. Qed.
(** 8 MB, enough for the thread pool. *)
Definition big_shape : Shape := mkShape 2 [2048; 2048] None.
Definition big_layout : Layout := mkLayout [1; 0] [[8; 128]; [2; 1]].
Definition big_memory : Memory := mkMem (zeros 8388608) (zeros 8388608) [].
Lemma big_args : tiling_args big_shape big_layout.
Proof. concrete_args. Qed.
Lemma big_sizes : linear_bytes big_shape <= blen (m_src big_memory) ∧ tiled_bytes big_shape big_layout <= blen (m_dst big_memory).
Proof.
  assert (linear_bytes big_shape = 8388608) as -> by (vm_compute; reflexivity). assert (tiled_bytes big_shape big_layout = 8388608) as -> by (vm_compute; reflexivity).
  unfold big_memory, m_src, m_dst. rewrite blen_zeros; lia.
Qed.
Definition small_memory : Memory := mkMem (weights 30) (zeros 64) (zeros 30).

Lemma TileBuffer_correct_witness :
  ∃ run, TileBuffer 8 false (mkPtr BSrc 0) (mkPtr BDst 0) packed_shape packed_layout = Ok run ∧ ∃ M', run_runs run small_memory M'.
Proof.
  destruct (TileBuffer_correct packed_shape packed_layout packed_args small_memory 8) as (run & E & Hex & _); [vm_compute; discriminate|vm_compute; discriminate|].
  exists run. split; [exact E|exact Hex].
Defined.
Lemma DetileBuffer_correct_witness :
  ∃ M', plan_runs (DetileBuffer 8 (mkPtr BSrc 0) (mkPtr BDst 0) packed_shape packed_layout) (mkMem (weights 64) (zeros 30) []) M'.
Proof.
  destruct (DetileBuffer_correct packed_shape packed_layout packed_args (mkMem (weights 64) (zeros 30) []) 8) as [Hex _]; [vm_compute; discriminate|vm_compute; discriminate|].
  exact Hex.
Defined.
Lemma tile_detile_roundtrip_witness :
  ∃ M1, plan_runs (TileBufferTo 8 (mkPtr BSrc 0) (mkPtr BDst 0) packed_shape packed_layout) small_memory M1 ∧
  ∃ M2, plan_runs (DetileBuffer 4 (mkPtr BDst 0) bounce packed_shape packed_layout) M1 M2 ∧ byte_at (m_bounce M2) 29 = 30.
Proof.
  destruct (tile_detile_roundtrip packed_shape packed_layout packed_args small_memory 8 4) as [[M1 H1] Hall]; [vm_compute; discriminate|vm_compute; discriminate|vm_compute; discriminate|].
  exists M1. split; [exact H1|]. destruct (Hall M1 H1) as [[M2 H2] Hb]. exists M2. split; [exact H2|].
  rewrite (Hb M2 H2 29) by (vm_compute; split; [discriminate|reflexivity]). vm_compute. reflexivity.
Defined.
Lemma tile_schedule_terminates_witness :
  ∃ total max_threads step task, TileBufferTo 8 (mkPtr BSrc 0) (mkPtr BDst 0) big_shape big_layout = Parallel total max_threads step task ∧
    ∃ bound, ∀ n s, nsteps (pool_step total step task) n (pool_start max_threads big_memory) s → (n <= bound)%nat.
Proof.
  eexists _, _, _, _. split; [reflexivity|]. destruct big_sizes as [HS HD].
  destruct (tile_schedule_terminates big_shape big_layout big_args big_memory 8 _ _ _ _ HS HD eq_refl) as [bound Hb]. exists bound. intros n s Hn. apply (Hb n s Hn).
Defined.
Lemma TileBufferInPlace_correct_witness :
  ∃ run, TileBufferInPlace 8 (mkPtr BDst 0) 24 col_shape col_layout = Ok run ∧ ∃ M', run_runs run (mkMem [] (weights 24) []) M'.
Proof.
  destruct (TileBufferInPlace_correct col_shape col_layout col_args (mkMem [] (weights 24) []) 24 8) as (run & E & Hex & _); [vm_compute; discriminate|vm_compute; discriminate|].
  exists run. split; [exact E|exact Hex].
Defined.
Lemma TileBufferInPlace_capacity_witness :
  TileBufferInPlace 8 (mkPtr BDst 0) 23 col_shape col_layout = Err kInvalidArgument ∧
  ∃ run, TileBufferInPlace 8 (mkPtr BDst 0) 24 col_shape col_layout = Ok run ∧
    ∃ M', run_runs run (mkMem [] (weights 24) []) M'.
Proof.
  pose proof (TileBufferInPlace_capacity col_shape col_layout col_args 23 8) as H23.
  pose proof (TileBufferInPlace_capacity col_shape col_layout col_args 24 8) as H24. split.
  - destruct (TileBufferInPlace 8 (mkPtr BDst 0) 23 col_shape col_layout) as [run|c].
    + destruct H23 as [[E _]|(_ & H & _)]; [discriminate E|]. vm_compute in H. by destruct H.
    + destruct H23 as [-> _]. reflexivity.
  - destruct (TileBufferInPlace 8 (mkPtr BDst 0) 24 col_shape col_layout) as [run|c].
    + destruct H24 as [[E _]|(_ & _ & H)]; [discriminate E|]. exists run. split; [reflexivity|]. apply H. vm_compute. discriminate.
    + destruct H24 as (_ & _ & H). vm_compute in H. discriminate H.
Defined.
Lemma in_place_equals_out_of_place_witness :
  ∃ run run' M' N', TileBuffer 8 true (mkPtr BDst 0) (mkPtr BDst 0) packed_shape packed_layout = Ok run ∧ run_runs run (mkMem [] (weights 64) []) M' ∧
    TileBuffer 8 false (mkPtr BSrc 0) (mkPtr BDst 0) packed_shape packed_layout = Ok run' ∧ run_runs run' small_memory N' ∧
    byte_at (m_dst M') 2 = byte_at (m_dst N') 2.
Proof.
  assert (TileBuffer 8 true (mkPtr BDst 0) (mkPtr BDst 0) packed_shape packed_layout = Ok (mkRun 40 [Inline (TileRowMajorBandsInPlace (mkPtr BDst 0) (ComputeRowMajorTileGeometry packed_shape packed_layout))])) as E1 by (vm_compute; reflexivity).
  assert (∃ M', run_runs (mkRun 40 [Inline (TileRowMajorBandsInPlace (mkPtr BDst 0) (ComputeRowMajorTileGeometry packed_shape packed_layout))]) (mkMem [] (weights 64) []) M') as [M' H1]
    by (eexists; vm_compute; eexists; split; reflexivity).
  assert (∃ N', run_runs (mkRun 0 [TileBufferTo 8 (mkPtr BSrc 0) (mkPtr BDst 0) packed_shape packed_layout]) small_memory N') as [N' H2]
    by (eexists; vm_compute; eexists; split; reflexivity).
  eexists _, _, M', N'. split; [exact E1|]. split; [exact H1|]. split; [reflexivity|]. split; [exact H2|].
  refine (in_place_equals_out_of_place packed_shape packed_layout packed_args (mkMem [] (weights 64) []) small_memory 8 8 _ _ M' N' _ _ _ _ E1 H1 eq_refl H2 2 _);
    [vm_compute; discriminate|vm_compute; discriminate|vm_compute; discriminate| |].
  - intros i Hi. change (0 <= i < 30) in Hi. unfold m_dst, m_src, small_memory, weights, byte_at. rewrite !(list_lookup_total_correct _ _ (1 + i)); [reflexivity|..];
      rewrite lookup_seqZ_lt by lia; f_equal; lia.
  - vm_compute. split; [discriminate|reflexivity].
Defined.
